(* ===== verification/_CoqProject ===== *)
-Q . S2P
Prelude.v
Bytes.v
OrdMap.v
Text.v
Chars.v
Partition.v
Checksum.v
Format.v
Engine.v
Recovery.v
Disk.v
Store.v
Durability.v
StoreSafety.v
StoreProps.v
Keys.v
Pool.v
Hsts.v
Http1.v
Http1Props.v
Redirect.v
WebUrl.v
WebHost.v
WebCanon.v
WebParse.v
WebOrigin.v
Referrer.v
Cors.v
CorsProps.v
Words.v
Sha2.v
Field25519.v
Scalar25519.v
Edwards.v
Ed25519.v
UpdateText.v
Manifest.v
ManifestProps.v
Trust.v
Request.v
Client.v
CspUrl.v
CspSource.v
CspPolicy.v
CspCheck.v
CspCheckProps.v
CspReport.v
FrameTree.v
FrameView.v
Broker.v
BrokerInv.v
Cookie.v
StoredCookie.v
CookieStore.v
Marker.v
Migrate.v
MigrateFs.v
MigrateProps.v
MigrateDone.v
MigrateUses.v
DomNode.v
DomArena.v
DomTree.v
DomOps.v
DomAlloc.v
DomRemove.v
DomInv.v
DomSink.v
DomParse.v
DomValidate.v
DomProps.v
BlockGlob.v
BlockFilter.v
BlockMatcher.v
BlockParams.v
BlockPolicy.v
Sri.v
Embedding.v
