(* ===== verification/Prelude.v ===== *)
(** * Pelorus: a verification of the browser's stored, parsed and decided state

    Pelorus is a web browser in Rust, split into crates under [src/crates].  This
    library models the parts of it that keep state on behalf of sites, that read
    bytes from the network, and that decide what a site may do, and proves what
    makes them correct.  Every definition is executable, so that the concrete uses
    beside the theorems are computed.

    ** The parts and how they interact

    - [px-net] computes, for a request, the origin and the partition key
      (partition.rs) from the public suffix list (psl.rs); everything a site leaves
      behind is filed under that key.  [Partition] models both; [Text], [Bytes] and
      [Chars] the string and integer routines they use.  Three stores
      of network state are keyed by it: the connection pool (pool.rs, file [Pool]),
      the cookie jar (cookie.rs, file [Cookie]) and, by host, the HSTS preload list
      (hsts.rs, file [Hsts]).  [Keys] makes partition keys usable in stdpp's finite
      maps, which stand for the [HashMap]s.  [Http1] (http1.rs) reads the head of a
      response and decodes its body; [Http1Props] has the grammar of both, once as the
      code reads it and once from RFC 9112 on its own (module [Rfc]);
      [Redirect] (redirect.rs) resolves a Location and follows a chain.
    - [px-store] keeps site data in one log file.  [Checksum] (checksum.rs) and
      [Format] (format.rs) are the bytes on disk; [Engine] (engine.rs) is the state
      in memory with its quotas, [OrdMap] the [BTreeMap] it uses and the sort; [Recovery] is the theory of replaying a log into an engine; [Disk] is a
      file system with failing calls and crashes; [Store] (store.rs) is the store on
      top of it, every method a program over [Disk]; [Durability], [StoreSafety] and
      [StoreProps] prove it safe.  [StoredCookie] and [CookieStore]
      (persistent_cookies.rs) keep cookies in it.  [Marker], [Migrate] (migrate.rs)
      move a profile to a new directory over the file system of [MigrateFs];
      [MigrateProps], [MigrateDone] and [MigrateUses] prove it.
    - [px-websec] holds the policies of the web.  [WebUrl] with [WebHost],
      [WebCanon] and [WebParse] is its URL type (origin/url.rs); [WebOrigin] origins
      and sites, with the counter behind opaque origins, and mixed content (mixed.rs);
      [Referrer] the referrer policy, with the table of the policies; [Cors] and
      [CorsProps] cross-origin requests with the preflight cache.  Content security
      policies (csp/) are [CspUrl] (url.rs), [CspSource] (source.rs), [CspPolicy]
      (policy.rs, sandbox.rs), [CspCheck] (check.rs, the enforcement points) and
      [CspReport] (report.rs); [CspCheckProps] has the matching rules as relations
      and the results.  [Sri] is subresource integrity (sri.rs); [Embedding] has a module
      each for framing (frame.rs), for the opener, embedder and resource policies
      (coop.rs) and for the grammar of their headers, once as the code reads it and once
      from RFC 8941 on its own (module [Rfc8941]).
    - [px-block] decides which requests are blocked.  [BlockGlob] (glob.rs) is the
      patterns, [BlockFilter] (filter.rs) the filter lists, [BlockMatcher] (matcher.rs)
      the rule index, [BlockParams] (params.rs) the tracking parameters, [BlockPolicy] the
      CNAME chains, storage partitions, referrers and counters (cname.rs, isolation.rs,
      referrer.rs, stats.rs).  It uses the URLs and origins of [px-websec].
    - [px-update] decides on updates.  [Words] is the machine arithmetic, with
      traps; [Field25519], [Scalar25519], [Edwards] and [Ed25519] the verifier
      (ed25519/), next to the same on integers (module [Ref]); [Sha2] the digests
      (sha2.rs), next to FIPS 180-4 with constants of its own, computed from the roots
      of primes (module [Fips]); [UpdateText] hex, versions and dates
      (hex.rs, version.rs); [Manifest] and [ManifestProps] manifests (manifest.rs);
      [Trust] signatures and key rotation (trust.rs), proved for
      any instance of the class [Signatures] and instantiated with [Ed25519];
      [Request] the bytes that are sent (request.rs); [Client] one check and its
      downloads (client.rs), with the transport as a parameter.
    - [px-broker] decides which process hosts what.  [FrameTree]
      is the tree of frames with its generations, [FrameView] an
      abstract view of it, [Broker] the capability sets, the process pool and every
      request (lib.rs, site.rs), [BrokerInv] the invariant and the results.
    - [px-dom] keeps the document.  [DomNode] (handle.rs, node.rs, snapshot.rs and
      the slot storage of arena.rs) is the data, [DomArena] (arena.rs, iter.rs,
      range.rs, lib.rs) every operation, in a state and error monad; [DomSink]
      (sink.rs) the callbacks through which the HTML parser builds a tree and the
      loop that feeds it.  [DomTree] defines what a forest is and how lists are
      linked; [DomOps] proves each mutation against it, [DomAlloc] the accounting of
      slots and generations, [DomRemove] creation and removal, [DomInv] the
      invariant of the arena under every operation, [DomParse] the invariant of the
      sink under every call, [DomValidate] the self-check of the arena, and
      [DomProps] states the results.

    ** How the code is rendered

    Machine integers are [Z] or [N] with their width written out (saturating and
    checked operations in this file, trapping ones in [Words]: the release profile
    of the workspace keeps the overflow checks); byte strings and [str] are lists of
    bytes; [Result] is [result] below, with the error first so that it is a monad;
    [&mut self] is explicit state, and an operation that may fail part-way returns
    the state it leaves.  Operations that read the clock are given the time.  The
    following are parameters: html5ever (an arbitrary sequence of callbacks, and a
    parser that consumes chunks), its qualified names (the class [QualNames]), the
    site resolver (the class [SiteResolver]), the transport of an update, and the
    file system's choices (which calls fail, and which unsynced writes survive a
    crash).

    ** What is proved

    - Store: a [put] or [delete] under an ASCII site is atomic under every failure and
      every crash, and once acknowledged it is durable if the log's directory entry
      has reached the disk; clearing a partition or a site removes it from
      memory and from the files; opening recovers what was logged wherever the last
      run was cut off; recovery is exactly the longest run of whole acceptable
      records; snapshots recover to what they were taken from; the engine is a map
      per partition and namespace whose counters are exact and within the quotas, whatever the partition ids are;
      records round-trip, are canonical, and one damaged byte is noticed.  Cookies
      that are saved come back, and only through the parser of today.  A migration
      loses nothing however often it is interrupted, and a run without failures
      finishes it.
    - Network state: registrable domains are canonical, partition keys fit their
      encoding; a pooled connection or a cookie is only used under the partition key
      it was filed under; accepted cookies obey the rules about [Secure], [SameSite],
      [Domain] and the name prefixes; what is sent with a request, and in which
      order; which hosts are preloaded; every one of these stores is bounded.  A
      response head, and a chunked body, of the RFC's grammar is accepted, and nothing
      else but for white space that two findings name; redirect chains are short, stay under the site of the page and under
      TLS.
    - Web policies: an accepted URL is read back from its written form, within the
      length bound and unless it is a [file:] URL without a slash; origins derived from
      it are its tuple or fresh; nothing insecure goes out where mixed content is
      prohibited; a referrer is what the table of its policy says; what a
      script sees of another origin was granted, and a preflight is skipped only for
      what was granted before.
    - Content security policies: a request, inline code or an evaluation is allowed
      exactly when the directive that governs it matches by the rules, for every policy of
      the set; a header is taken whole or denies everything; reports are valid JSON
      that reads back.
    - Integrity, isolation and framing: with well-formed metadata a body passes exactly
      when a digest of the strongest algorithm is its own; isolation is earned by both
      headers, by the grammar of RFC 8941 or with blanks before a semicolon, and groups do
      not mix isolated documents with others; a response of another origin is handed
      over, and a document framed, exactly when the headers say so.
    - Blocking: a pattern matches what it says; an accepted rule is its whole line; the
      index decides as a scan of all the rules; a CNAME chain stops at the first
      element that decides it; stripping removes exactly the listed parameters.
    - Updates: the verifier never traps and decides as strict RFC 8032 does on
      integers, the digests are those of FIPS 180-4; a document is accepted as a
      manifest exactly when it is the one encoding of a valid one; a release is
      taken only when enough trusted keys signed it, in its window and epoch;
      revoked keys stay out; a request says nothing but path, host and constants; a
      client never goes back, and downloads only what a manifest named.
    - Broker: tree, capability sets, process pool and audit log agree after every
      sequence of requests; a committed document is hosted by the one process of its
      key; a crash frees and reports exactly what it should; navigation is for
      embedders; no number is handed out twice.
    - Document: every sequence of operations that does not misuse the contents of
      templates or insert a node before itself, and every sequence of parser callbacks,
      keeps the arena a forest of bounded depth with the document as a
      root; each mutation does exactly what it should to the child lists or changes
      nothing; removal frees exactly what a node owns; stale handles stay stale; the
      walks agree with the tree; snapshots hold the state before the first write;
      the self-check always ends and accepts exactly the arenas whose links form
      trees; the feeding loop hands over all of the input in bounded chunks cut
      between characters, unless the tree keeps refusing content.
    - Gaps: concrete runs that show where the code departs from its documentation
      (module [Gaps] of [DomProps], the last theorems of [StoreProps], [Partition] and
      [BrokerInv], the modules of uses of [Http1Props], [Redirect], [WebParse] and
      [MigrateUses], and the examples of the [Csp] and [Block] files, [Sri] and
      [Embedding]).

    ** Fuel

    Loops that the code bounds itself (walks up the tree by [MAX_DEPTH], walks over
    siblings by the number of slots, the scan of a profile by its depth limit, the
    rotations of one update check by their limit) use that bound.  The others have
    fuel that is proved enough: the recovery loop the length of the log, the removal
    loop [removal_fuel] (the children and contents of the live nodes, counted), the
    feeding loop the length of the input, the label walk of the preload list the
    length of the host, the loops of the manifest parser the number of its lines,
    the padding of a digest the length of a block, the parameters
    of a structured field the length of its text.

    ** What is not modelled

    DNS, TLS, sockets and the fetching on top of them (input and output, and the libraries
    it calls); the framing of messages over pipes in [px-ipc]; the spawning and supervision
    of processes; the user interface; style, layout, text, painting and images (floating
    point and font data); the glue around the script engine and the generator of its bindings;
    windows, the GPU and the sandbox system calls; build tooling.  The policy modules of
    [px-websec] record which enforcement points were reached ([trace::hit],
    [ENFORCEMENT_POINTS]) for the tests alone, and this is left out.  Of what is
    modelled: [Arena::validate] is modelled as it is, and does not look at the siblings of
    roots or at which kinds of node have children; migration leaves out file permissions,
    and assumes that nobody else changes the files; the broker's dispatch takes whether a
    handler panics as an argument; the signer that the tests of [px-update] use is left
    out. *)
From Stdlib Require Export ZArith Lia Bool.
From Stdlib Require Export Strings.Byte.
From stdpp Require Export base list option numbers.

#[global] Set Default Goal Selector "!".

(** ** Results

    Rust's [Result<A, E>]; the error comes first so that [result E] is a
    monad and stdpp's do-notation applies to it. *)
Inductive result (E A : Type) : Type :=
| Ok (a : A)
| Err (e : E).
Arguments Ok {E A} a.
Arguments Err {E A} e.

#[export] Instance result_ret {E} : MRet (result E) := fun A a => Ok a.
#[export] Instance result_bind {E} : MBind (result E) := fun A B f r =>
  match r with Ok a => f a | Err e => Err e end.
#[export] Instance result_fmap {E} : FMap (result E) := fun A B f r =>
  match r with Ok a => Ok (f a) | Err e => Err e end.
#[export] Instance result_eq_dec {E A} `{EqDecision E, EqDecision A} :
  EqDecision (result E A).
Proof. solve_decision. Defined.

(** [Option::ok_or]. *)
Definition ok_or {E A} (o : option A) (e : E) : result E A :=
  match o with Some a => Ok a | None => Err e end.

(** [Result::ok]. *)
Definition ok {E A} (r : result E A) : option A :=
  match r with Ok a => Some a | Err _ => None end.

(** [Result::map_err], and the [From] conversion a [?] applies. *)
Definition map_err {E F A} (f : E -> F) (r : result E A) : result F A :=
  match r with Ok a => Ok a | Err e => Err (f e) end.

Definition is_ok {E A} (r : result E A) : bool :=
  match r with Ok _ => true | Err _ => false end.

Lemma ok_or_Ok {E A} (o : option A) (e : E) a : ok_or o e = Ok a <-> o = Some a.
Proof. destruct o; simpl; split; congruence. Qed.

Lemma ok_Some {E A} (r : result E A) a : ok r = Some a <-> r = Ok a.
Proof. destruct r; simpl; split; congruence. Qed.

Lemma bind_Ok {E A B} (f : A -> result E B) (r : result E A) b :
  r ≫= f = Ok b <-> exists a, r = Ok a /\ f a = Ok b.
Proof.
  destruct r; simpl; split.
  - intros H. eauto.
  - by intros (? & [= ->] & ?).
  - intros [=].
  - by intros (? & [=] & ?).
Qed.

(** ** Machine integers

    Fixed-width integers are [Z] with the width written out where it matters.
    [usize] is 64 bits wide: px-dom asserts it at compile time. *)
Definition U16_MAX : Z := 2 ^ 16 - 1.
Definition U32_MAX : Z := 2 ^ 32 - 1.
Definition U64_MAX : Z := 2 ^ 64 - 1.
Definition USIZE_MAX : Z := 2 ^ 64 - 1.
(** No Rust object is larger than [isize::MAX] bytes. *)
Definition ISIZE_MAX : Z := 2 ^ 63 - 1.

(** [saturating_add], [saturating_sub] and [saturating_mul] at 64 bits. *)
Definition sat_add (a b : Z) : Z := Z.min U64_MAX (a + b).
Definition sat_sub (a b : Z) : Z := Z.max 0 (a - b).
Definition sat_mul (a b : Z) : Z := Z.min U64_MAX (a * b).

(** [checked_add] at a given maximum. *)
Definition checked_add (max a b : Z) : option Z :=
  if decide (a + b <= max)%Z then Some (a + b)%Z else None.

(** [uN::try_from]. *)
Definition try_from (max n : Z) : option Z :=
  if decide (0 <= n <= max)%Z then Some n else None.

(** [len()] of a slice or a vector. *)
Definition len {A} (l : list A) : Z := Z.of_nat (length l).

(** A list that can be the contents of a Rust slice of one-byte elements. *)
Definition slice_ok {A} (l : list A) : Prop := (len l <= ISIZE_MAX)%Z.

Ltac unfold_width :=
  unfold sat_add, sat_sub, sat_mul, checked_add, try_from,
    U16_MAX, U32_MAX, U64_MAX, USIZE_MAX, ISIZE_MAX, slice_ok in *.

(** [lia] for goals about lengths. *)
Ltac len_lia :=
  unfold slice_ok, len in *; rewrite ?length_app, ?length_take, ?length_drop,
    ?length_nil, ?length_replicate in *; simpl length in *; try lia.

Create HintDb pelorus.
Create Rewrite HintDb len.

Section len.
Context {A : Type}.
Implicit Types l k : list A.
Local Open Scope Z_scope.

Lemma len_nil : len (@nil A) = 0.
Proof. done. Qed.
Lemma len_cons x l : len (x :: l) = 1 + len l.
Proof. unfold len. simpl length. lia. Qed.
Lemma len_app l k : len (l ++ k) = len l + len k.
Proof. unfold len. rewrite length_app. lia. Qed.
Lemma len_nonneg l : 0 <= len l.
Proof. unfold len. lia. Qed.
Lemma len_zero l : len l = 0 -> l = [].
Proof. destruct l; [done|]. rewrite len_cons. pose proof (len_nonneg l). lia. Qed.
Lemma to_nat_len l : Z.to_nat (len l) = length l.
Proof. unfold len. lia. Qed.
Lemma slice_ok_app l k : slice_ok (l ++ k) -> slice_ok l /\ slice_ok k.
Proof.
  unfold slice_ok. rewrite len_app.
  pose proof (len_nonneg l). pose proof (len_nonneg k). lia.
Qed.
End len.

Hint Rewrite @len_nil @len_cons @len_app @to_nat_len : len.
#[export] Hint Resolve len_nonneg : pelorus.

(** [slice.get(lo..hi)]. *)
Definition get_range {A} (l : list A) (lo hi : Z) : option (list A) :=
  if decide (0 <= lo <= hi /\ hi <= len l)%Z
  then Some (take (Z.to_nat (hi - lo)) (drop (Z.to_nat lo) l))
  else None.

(** [slice.get(lo..)]. *)
Definition get_from {A} (l : list A) (lo : Z) : option (list A) :=
  if decide (0 <= lo <= len l)%Z then Some (drop (Z.to_nat lo) l) else None.

Section slices.
Context {A : Type}.
Implicit Types l k : list A.
Local Open Scope Z_scope.

Lemma take_len_app l k : take (Z.to_nat (len l)) (l ++ k) = l.
Proof. rewrite to_nat_len. apply take_app_length. Qed.

Lemma drop_len_app l k : drop (Z.to_nat (len l)) (l ++ k) = k.
Proof. rewrite to_nat_len. apply drop_app_length. Qed.

Lemma get_from_app l k : get_from (l ++ k) (len l) = Some k.
Proof.
  unfold get_from. rewrite decide_True; [by rewrite drop_len_app|].
  rewrite len_app. pose proof (len_nonneg l). pose proof (len_nonneg k). lia.
Qed.

Lemma get_range_app l k m :
  get_range (l ++ k ++ m) (len l) (len l + len k) = Some k.
Proof.
  unfold get_range. rewrite decide_True.
  - rewrite drop_len_app. replace (len l + len k - len l) with (len k) by lia.
    by rewrite take_len_app.
  - rewrite !len_app.
    pose proof (len_nonneg l). pose proof (len_nonneg k). pose proof (len_nonneg m). lia.
Qed.

Lemma get_range_Some l lo hi k :
  get_range l lo hi = Some k ->
  0 <= lo <= hi /\ hi <= len l /\ len k = hi - lo /\
  drop (Z.to_nat lo) l = k ++ drop (Z.to_nat hi) l.
Proof.
  unfold get_range. case_decide as H; intros [= <-].
  destruct H as [[H0 H1] H2]. split_and!; [done..| |].
  - unfold len in *. rewrite length_take, length_drop. lia.
  - rewrite <- (take_drop (Z.to_nat (hi - lo)) (drop (Z.to_nat lo) l)) at 1.
    f_equal. rewrite drop_drop. f_equal. lia.
Qed.
End slices.

(** ** Booleans and comparisons *)
Lemma CompOpp_Lt c : CompOpp c = Lt <-> c = Gt.
Proof. destruct c; simpl; split; congruence. Qed.

(** Case analysis on the first [match] of the goal or of a hypothesis, keeping
    the equation. *)
Ltac case_on H :=
  match type of H with
  | context [match ?x with _ => _ end] => destruct x eqn:?
  end.

(** Invert a chain of [option] or [result] binds that ended in a value. *)
Ltac inv_bind H :=
  repeat first
    [ progress simplify_eq/=
    | apply bind_Some in H; destruct H as (? & ? & H)
    | apply bind_Ok in H; destruct H as (? & ? & H) ].

(** ** Sums *)
Definition sum_Z {A} (f : A -> Z) (l : list A) : Z := foldr (fun a s => f a + s)%Z 0%Z l.

Section sums.
Context {A : Type} (f : A -> Z).
Local Open Scope Z_scope.

Lemma sum_Z_cons a l : sum_Z f (a :: l) = f a + sum_Z f l.
Proof. done. Qed.
Lemma sum_Z_app l k : sum_Z f (l ++ k) = sum_Z f l + sum_Z f k.
Proof. induction l as [|a l IH]; [done|]. simpl. unfold sum_Z in *. simpl. lia. Qed.
Lemma sum_Z_nonneg l : (forall a, 0 <= f a) -> 0 <= sum_Z f l.
Proof. intros H. induction l as [|a l IH]; [done|]. rewrite sum_Z_cons. specialize (H a). lia. Qed.
End sums.

Lemma sum_Z_ext {A} (f g : A -> Z) l : (forall a, a ∈ l -> f a = g a) -> sum_Z f l = sum_Z g l.
Proof.
  intros H. induction l as [|a l IH]; [done|]. rewrite !sum_Z_cons. f_equal.
  - apply H. by left.
  - apply IH. intros b Hb. apply H. by right.
Qed.

(** ** Splitting at an element *)
Lemma app_cons_split {A} (x y pre suf : list A) a :
  pre ++ a :: suf = x ++ y ->
  (exists s1, x = pre ++ a :: s1 /\ suf = s1 ++ y) \/
  (exists pre', pre = x ++ pre' /\ y = pre' ++ a :: suf).
Proof.
  revert pre. induction x as [|b x IH]; intros pre E.
  - right. exists pre. by split.
  - destruct pre as [|c pre]; injection E as -> E.
    + left. by exists x.
    + apply IH in E as [(s1 & -> & ->)|(pre' & -> & ->)]; [left|right]; eauto.
Qed.

(** ** Boolean quantifiers *)
Lemma existsb_false {A} (f : A -> bool) l : existsb f l = false <-> Forall (fun a => f a = false) l.
Proof.
  induction l as [|a l IH]; simpl; [by split; [constructor|]|]. rewrite orb_false_iff, IH. split.
  - intros [Ha Hl]. by constructor.
  - inversion 1; by split.
Qed.

Lemma existsb_elem {A} (f : A -> bool) l : existsb f l = true <-> exists x, x ∈ l /\ f x = true.
Proof. rewrite existsb_exists. by setoid_rewrite list_elem_of_In. Qed.

Lemma forallb_elem {A} (f : A -> bool) l : forallb f l = true <-> forall x, x ∈ l -> f x = true.
Proof. rewrite forallb_forall. by setoid_rewrite list_elem_of_In. Qed.

Lemma forallb_true {A} (f : A -> bool) l : forallb f l = true <-> Forall (fun a => f a = true) l.
Proof.
  induction l as [|a l IH]; simpl; [by split; [constructor|]|]. rewrite andb_true_iff, IH. split.
  - intros [Ha Hl]. by constructor.
  - inversion 1; by split.
Qed.
