(* ===== verification/Bytes.v ===== *)
(** * Bytes and little-endian integers

    A [u8] is a [Byte.byte]; a byte string, and a Rust [String] by its UTF-8
    bytes, is a [list byte].  [to_le_bytes] and [from_le_bytes] are modelled for
    every width, with both round trips. *)
From S2P Require Import Prelude.
From stdpp Require Export strings.
Local Open Scope Z_scope.

Definition b2z (b : byte) : Z := Z.of_N (Byte.to_N b).

(** The low eight bits of an integer: [as u8]. *)
Definition z2b (z : Z) : byte :=
  match Byte.of_N (Z.to_N (z mod 256)) with Some b => b | None => x00 end.

#[export] Instance byte_eq_dec : EqDecision byte := Byte.byte_eq_dec.

Lemma b2z_range b : 0 <= b2z b < 256.
Proof. unfold b2z. pose proof (Byte.to_N_bounded b). lia. Qed.

Lemma z2b_b2z b : z2b (b2z b) = b.
Proof.
  unfold z2b. rewrite Z.mod_small by apply b2z_range.
  unfold b2z. rewrite N2Z.id. by rewrite Byte.of_to_N.
Qed.

Lemma b2z_z2b z : b2z (z2b z) = z mod 256.
Proof.
  unfold z2b. pose proof (Z.mod_pos_bound z 256 ltac:(lia)) as Hz.
  destruct (Byte.of_N _) as [b|] eqn:E.
  - apply Byte.to_of_N in E. unfold b2z. rewrite E. lia.
  - apply Byte.of_N_None_iff in E. lia.
Qed.

Lemma b2z_inj a b : b2z a = b2z b -> a = b.
Proof. intros H. by rewrite <- (z2b_b2z a), H, z2b_b2z. Qed.

(** A literal such as [b"PXSL"] or ["https"]. *)
Definition lit (s : string) : list byte := String.list_byte_of_string s.
Arguments lit s%_string.

(** ** [to_le_bytes] and [from_le_bytes] *)
Fixpoint le_bytes (n : nat) (z : Z) : list byte :=
  match n with
  | O => []
  | S n => z2b z :: le_bytes n (z / 256)
  end.

Fixpoint from_le (l : list byte) : Z :=
  match l with
  | [] => 0
  | b :: l => b2z b + 256 * from_le l
  end.

Lemma length_le_bytes n z : length (le_bytes n z) = n.
Proof. revert z. induction n as [|n IH]; intros z; simpl; [done|]. by rewrite IH. Qed.

Lemma len_le_bytes n z : len (le_bytes n z) = Z.of_nat n.
Proof. unfold len. by rewrite length_le_bytes. Qed.
Hint Rewrite len_le_bytes : len.

Lemma from_le_range l : 0 <= from_le l < 256 ^ len l.
Proof.
  induction l as [|b l IH]; [by split|].
  rewrite len_cons, Z.pow_add_r, Z.pow_1_r by (pose proof (len_nonneg l); lia).
  pose proof (b2z_range b). cbn [from_le]. lia.
Qed.

Lemma from_le_bytes_mod n z : from_le (le_bytes n z) = z mod 256 ^ Z.of_nat n.
Proof.
  revert z. induction n as [|n IH]; intros z; [by rewrite Z.mod_1_r|].
  cbn [le_bytes from_le]. rewrite IH, b2z_z2b, Nat2Z.inj_succ, Z.pow_succ_r by lia.
  symmetry. apply Z.rem_mul_r; lia.
Qed.

(** Reading back an integer that fits its width gives the integer. *)
Lemma from_le_bytes n z : 0 <= z < 256 ^ Z.of_nat n -> from_le (le_bytes n z) = z.
Proof. intros H. rewrite from_le_bytes_mod. by apply Z.mod_small. Qed.

(** Writing back what was read gives the bytes that were read. *)
Lemma le_bytes_from l : le_bytes (length l) (from_le l) = l.
Proof.
  induction l as [|b l IH]; [done|]. simpl. pose proof (b2z_range b) as Hb.
  assert ((b2z b + 256 * from_le l) / 256 = from_le l) as ->.
  { rewrite Z.mul_comm, Z.div_add by lia. rewrite Z.div_small by lia. lia. }
  rewrite IH. f_equal. apply b2z_inj. rewrite b2z_z2b, Z.mul_comm, Z_mod_plus_full.
  by apply Z.mod_small.
Qed.

(** ** ASCII *)
Definition is_ascii_byte (b : byte) : bool := b2z b <? 128.
(** [slice::is_ascii] / [str::is_ascii]. *)
Definition is_ascii (l : list byte) : bool := forallb is_ascii_byte l.

Definition in_range (lo hi : Z) (b : byte) : bool := (lo <=? b2z b) && (b2z b <=? hi).
(** [u8::to_ascii_lowercase] / [str::to_ascii_lowercase]. *)
Definition ascii_lower_byte (b : byte) : byte :=
  if in_range 65 90 b then z2b (b2z b + 32) else b.
Definition to_ascii_lowercase (l : list byte) : list byte := map ascii_lower_byte l.

(** [str::eq_ignore_ascii_case]. *)
Definition eq_ignore_ascii_case (a b : list byte) : bool :=
  bool_decide (to_ascii_lowercase a = to_ascii_lowercase b).

Lemma len_to_ascii_lowercase l : len (to_ascii_lowercase l) = len l.
Proof. unfold len, to_ascii_lowercase. by rewrite length_map. Qed.
Hint Rewrite len_to_ascii_lowercase : len.

Lemma ascii_lower_idem b : ascii_lower_byte (ascii_lower_byte b) = ascii_lower_byte b.
Proof. destruct b; vm_compute; reflexivity. Qed.

Lemma is_ascii_byte_lower b : is_ascii_byte (ascii_lower_byte b) = is_ascii_byte b.
Proof. destruct b; vm_compute; reflexivity. Qed.

Lemma is_ascii_lower l : is_ascii (to_ascii_lowercase l) = is_ascii l.
Proof.
  unfold is_ascii. induction l as [|b l IH]; [done|].
  cbn [to_ascii_lowercase map forallb]. rewrite is_ascii_byte_lower. by f_equal.
Qed.

Lemma to_ascii_lowercase_idem l :
  to_ascii_lowercase (to_ascii_lowercase l) = to_ascii_lowercase l.
Proof. induction l as [|b l IH]; [done|]. simpl. by rewrite ascii_lower_idem, IH. Qed.

#[global] Arguments le_bytes : simpl never.
#[global] Arguments from_le : simpl never.
