(* ===== verification/OrdMap.v ===== *)
(** * Ordered maps

    [std::collections::BTreeMap] as a list of pairs sorted by key.  The class
    [Ord] states what the map asks of its keys (Rust's [Ord]: a total order
    whose equality is the real one); the lookup laws hold of every list, the
    counting and canonicity laws of the sorted ones. *)
From Stdlib Require Import Sorting.Sorted.
From S2P Require Import Prelude Bytes.
Local Open Scope Z_scope.

Class Ord (K : Type) := {
  cmp : K -> K -> comparison;
  cmp_eq : forall a b, cmp a b = Eq <-> a = b;
  cmp_antisym : forall a b, cmp b a = CompOpp (cmp a b);
  cmp_trans : forall a b c, cmp a b = Lt -> cmp b c = Lt -> cmp a c = Lt
}.

Section ord.
Context `{Ord K}.

Lemma cmp_refl a : cmp a a = Eq.
Proof. by apply cmp_eq. Qed.
Lemma cmp_lt_gt a b : cmp a b = Lt <-> cmp b a = Gt.
Proof. rewrite (cmp_antisym a b). destruct (cmp a b); simpl; split; congruence. Qed.
Lemma cmp_lt_ne a b : cmp a b = Lt -> a <> b.
Proof. intros E ->. by rewrite cmp_refl in E. Qed.

#[export] Instance ord_eq_dec : EqDecision K | 100.
Proof.
  intros a b. destruct (cmp a b) eqn:E; [left; by apply cmp_eq| |];
    right; intros ->; by rewrite cmp_refl in E.
Defined.
End ord.

(** ** Orders of the key types in use *)
#[export] Program Instance ord_Z : Ord Z := {| cmp := Z.compare |}.
Next Obligation. apply Z.compare_eq_iff. Qed.
Next Obligation. intros. apply Z.compare_antisym. Qed.
Next Obligation. intros a b c. rewrite !Z.compare_lt_iff. lia. Qed.

#[export] Program Instance ord_byte : Ord byte := {| cmp := fun a b => b2z a ?= b2z b |}.
Next Obligation.
  intros a b. simpl. rewrite Z.compare_eq_iff. split; [apply b2z_inj|by intros ->].
Qed.
Next Obligation. intros. apply Z.compare_antisym. Qed.
Next Obligation. intros a b c. rewrite !Z.compare_lt_iff. lia. Qed.

(** Tuples and derived [Ord] on structs: the first differing field decides. *)
Definition cmp_then (c d : comparison) : comparison := match c with Eq => d | _ => c end.

Lemma cmp_then_eq c d : cmp_then c d = Eq <-> c = Eq /\ d = Eq.
Proof. destruct c; simpl; naive_solver. Qed.
Lemma cmp_then_lt c d : cmp_then c d = Lt <-> c = Lt \/ (c = Eq /\ d = Lt).
Proof. destruct c; simpl; naive_solver. Qed.

#[export] Program Instance ord_pair {A B} `{Ord A, Ord B} : Ord (A * B) :=
  {| cmp := fun p q => cmp_then (cmp p.1 q.1) (cmp p.2 q.2) |}.
Next Obligation.
  intros A B ?? [a b] [c d]. simpl. rewrite cmp_then_eq, !cmp_eq. naive_solver.
Qed.
Next Obligation.
  intros A B ?? [a b] [c d]. simpl. rewrite (cmp_antisym a c), (cmp_antisym b d).
  by destruct (cmp a c).
Qed.
Next Obligation.
  intros A B ?? [a b] [c d] [e f]. simpl. rewrite !cmp_then_lt, !cmp_eq.
  intros [H1|[-> H1]] [H2|[-> H2]]; eauto using cmp_trans.
Qed.

(** Slices: lexicographic, a strict prefix being smaller. *)
Fixpoint cmp_list `{Ord A} (l k : list A) : comparison :=
  match l, k with
  | a :: l, b :: k => cmp_then (cmp a b) (cmp_list l k)
  | [], [] => Eq
  | [], _ => Lt
  | _, [] => Gt
  end.

#[export] Program Instance ord_list {A} `{Ord A} : Ord (list A) := {| cmp := cmp_list |}.
Next Obligation.
  intros A ? l. induction l as [|a l IH]; intros [|b k]; simpl; try (split; congruence).
  rewrite cmp_then_eq, cmp_eq, IH. naive_solver.
Qed.
Next Obligation.
  intros A ? l. induction l as [|a l IH]; intros [|b k]; simpl; try done.
  rewrite (cmp_antisym a b), IH. by destruct (cmp a b).
Qed.
Next Obligation.
  intros A ? l. induction l as [|a l IH]; intros [|b k] [|c m]; simpl; try done.
  rewrite !cmp_then_lt, !cmp_eq.
  intros [H1|[-> H1]] [H2|[-> H2]]; eauto using cmp_trans.
Qed.

(** A key type ordered through an injection into an ordered type: this is how
    [derive(Ord)] on a struct compares the tuple of its fields. *)
Program Definition ord_inj {A B} `{Ord B} (f : A -> B) (Hf : forall a b, f a = f b -> a = b)
  : Ord A := {| cmp := fun a b => cmp (f a) (f b) |}.
Next Obligation. intros. simpl. rewrite cmp_eq. naive_solver. Qed.
Next Obligation. intros. apply cmp_antisym. Qed.
Next Obligation. intros A B ? f ? a b c. simpl. exact (cmp_trans (f a) (f b) (f c)). Qed.

(** ** The map *)
Definition btree (K V : Type) : Type := list (K * V).

Section btree.
Context {K V : Type} `{Ord K}.
Implicit Types (m : btree K V) (k : K) (v : V).

Fixpoint bt_get (m : btree K V) (k : K) : option V :=
  match m with
  | [] => None
  | (k', v) :: m => match cmp k k' with Eq => Some v | _ => bt_get m k end
  end.

Fixpoint bt_insert (m : btree K V) (k : K) (v : V) : btree K V :=
  match m with
  | [] => [(k, v)]
  | (k', v') :: m' =>
      match cmp k k' with
      | Lt => (k, v) :: m
      | Eq => (k, v) :: m'
      | Gt => (k', v') :: bt_insert m' k v
      end
  end.

Fixpoint bt_remove (m : btree K V) (k : K) : btree K V :=
  match m with
  | [] => []
  | (k', v') :: m' =>
      match cmp k k' with
      | Eq => bt_remove m' k
      | _ => (k', v') :: bt_remove m' k
      end
  end.

Definition bt_keys (m : btree K V) : list K := map fst m.
Definition bt_filter (P : K -> bool) (m : btree K V) : btree K V :=
  List.filter (fun p => P p.1) m.

(** Strictly increasing keys. *)
Fixpoint bt_sorted (m : btree K V) : Prop :=
  match m with
  | [] => True
  | (k, _) :: m' => (forall k', k' ∈ bt_keys m' -> cmp k k' = Lt) /\ bt_sorted m'
  end.

Lemma bt_get_insert m k v k' :
  bt_get (bt_insert m k v) k' = if decide (k = k') then Some v else bt_get m k'.
Proof.
  induction m as [|[k0 v0] m IH]; simpl.
  - case_decide as E; [subst; by rewrite cmp_refl|].
    destruct (cmp k' k) eqn:C; try done. apply cmp_eq in C. congruence.
  - destruct (cmp k k0) eqn:C; simpl.
    + apply cmp_eq in C as ->. case_decide as E; [subst; by rewrite cmp_refl|].
      destruct (cmp k' k0) eqn:C'; try done. apply cmp_eq in C'. congruence.
    + case_decide as E; [subst; by rewrite cmp_refl|].
      destruct (cmp k' k) eqn:C'; try done. apply cmp_eq in C'. congruence.
    + rewrite IH. case_decide as E; [subst|done]. by rewrite C.
Qed.

Lemma bt_get_insert_eq m k v : bt_get (bt_insert m k v) k = Some v.
Proof. rewrite bt_get_insert. by rewrite decide_True. Qed.
Lemma bt_get_insert_ne m k v k' : k <> k' -> bt_get (bt_insert m k v) k' = bt_get m k'.
Proof. intros. rewrite bt_get_insert. by rewrite decide_False. Qed.

Lemma bt_get_remove m k k' :
  bt_get (bt_remove m k) k' = if decide (k = k') then None else bt_get m k'.
Proof.
  induction m as [|[k0 v0] m IH]; simpl; [by case_decide|].
  destruct (cmp k k0) eqn:C.
  - rewrite IH. apply cmp_eq in C as ->. case_decide as E; [done|].
    destruct (cmp k' k0) eqn:C'; try done. apply cmp_eq in C'. congruence.
  - simpl. rewrite IH. case_decide as E; [subst; by rewrite C|done].
  - simpl. rewrite IH. case_decide as E; [subst; by rewrite C|done].
Qed.

Lemma bt_get_remove_eq m k : bt_get (bt_remove m k) k = None.
Proof. rewrite bt_get_remove. by rewrite decide_True. Qed.
Lemma bt_get_remove_ne m k k' : k <> k' -> bt_get (bt_remove m k) k' = bt_get m k'.
Proof. intros. rewrite bt_get_remove. by rewrite decide_False. Qed.

Lemma bt_get_None m k : bt_get m k = None <-> k ∉ bt_keys m.
Proof.
  induction m as [|[k0 v0] m IH]; simpl.
  - split; [intros _; apply not_elem_of_nil|done].
  - rewrite not_elem_of_cons. destruct (cmp k k0) eqn:C.
    + apply cmp_eq in C as ->. split; [done|]. by intros [? _].
    + rewrite IH. split; [|by intros [_ ?]]. intros ?. split; [by apply cmp_lt_ne|done].
    + rewrite IH. split; [|by intros [_ ?]]. intros ?. split; [|done].
      apply cmp_lt_gt in C. intros ->. by apply cmp_lt_ne in C.
Qed.

Lemma bt_get_filter P m k :
  bt_get (bt_filter P m) k = if P k then bt_get m k else None.
Proof.
  induction m as [|[k0 v0] m IH]; [by destruct (P k)|].
  unfold bt_filter in *. simpl. destruct (P k0) eqn:E; simpl; rewrite IH;
    destruct (cmp k k0) eqn:C; try done; apply cmp_eq in C as ->; by rewrite E.
Qed.

Lemma bt_get_elem m k v : bt_get m k = Some v -> (k, v) ∈ m.
Proof.
  induction m as [|[k0 v0] m IH]; simpl; [done|]. rewrite elem_of_cons.
  destruct (cmp k k0) eqn:C; [|by eauto..]. apply cmp_eq in C as ->. intros [= ->]. by left.
Qed.

Lemma elem_bt_keys m k v : (k, v) ∈ m -> k ∈ bt_keys m.
Proof. intros E. unfold bt_keys. apply list_elem_of_fmap. by exists (k, v). Qed.

Lemma bt_keys_elem m k : k ∈ bt_keys m -> exists v, (k, v) ∈ m.
Proof. intros E. apply list_elem_of_fmap in E as ([? v] & -> & ?). eauto. Qed.

Lemma bt_elem_get m k v : bt_sorted m -> (k, v) ∈ m -> bt_get m k = Some v.
Proof.
  induction m as [|[k0 v0] m IH]; simpl; [by intros _ ?%elem_of_nil|].
  intros [Hlt Hs] [[= -> ->]|E]%elem_of_cons; [by rewrite cmp_refl|].
  specialize (Hlt k (elem_bt_keys _ _ _ E)). apply cmp_lt_gt in Hlt. rewrite Hlt. auto.
Qed.

Lemma elem_keys_insert m k v k' : k' ∈ bt_keys (bt_insert m k v) <-> k' = k \/ k' ∈ bt_keys m.
Proof.
  induction m as [|[k0 v0] m IH]; simpl.
  - rewrite elem_of_cons. done.
  - destruct (cmp k k0) eqn:C; simpl; rewrite ?elem_of_cons, ?IH.
    + apply cmp_eq in C as ->. naive_solver.
    + naive_solver.
    + naive_solver.
Qed.

Lemma elem_keys_remove m k k' : k' ∈ bt_keys (bt_remove m k) <-> k' <> k /\ k' ∈ bt_keys m.
Proof.
  induction m as [|[k0 v0] m IH]; simpl.
  - rewrite elem_of_nil. tauto.
  - destruct (cmp k k0) eqn:C; simpl; rewrite ?elem_of_cons, IH.
    + apply cmp_eq in C as ->. naive_solver.
    + apply cmp_lt_ne in C. naive_solver.
    + apply cmp_lt_gt, cmp_lt_ne in C. naive_solver.
Qed.

Lemma bt_sorted_insert m k v : bt_sorted m -> bt_sorted (bt_insert m k v).
Proof.
  induction m as [|[k0 v0] m IH]; simpl.
  - intros _. split; [|done]. intros k' []%elem_of_nil.
  - intros [Hlt Hs]. destruct (cmp k k0) eqn:C; simpl.
    + apply cmp_eq in C as ->. done.
    + split; [|done]. intros k' [->|E]%elem_of_cons; [done|]. eauto using cmp_trans.
    + split; [|auto]. intros k' [->|E]%elem_keys_insert; [by apply cmp_lt_gt|auto].
Qed.

Lemma bt_sorted_remove m k : bt_sorted m -> bt_sorted (bt_remove m k).
Proof.
  induction m as [|[k0 v0] m IH]; simpl; [done|]. intros [Hlt Hs].
  destruct (cmp k k0); simpl; [auto| |];
    (split; [|auto]; intros k' [_ E]%elem_keys_remove; auto).
Qed.

Lemma bt_sorted_filter P m : bt_sorted m -> bt_sorted (bt_filter P m).
Proof.
  induction m as [|[k0 v0] m IH]; simpl; [done|]. intros [Hlt Hs].
  unfold bt_filter in *. simpl. destruct (P k0); [|auto]. simpl. split; [|auto].
  intros k' E. apply Hlt. apply bt_keys_elem in E as [v E].
  apply list_elem_of_In, filter_In in E as [E _]. eapply elem_bt_keys. by apply list_elem_of_In.
Qed.

(** Sorted maps with the same lookups are the same map. *)
Lemma bt_ext m1 m2 :
  bt_sorted m1 -> bt_sorted m2 -> (forall k, bt_get m1 k = bt_get m2 k) -> m1 = m2.
Proof.
  revert m2. induction m1 as [|[k1 v1] m1 IH]; intros [|[k2 v2] m2]; simpl.
  - done.
  - intros _ _ E. specialize (E k2). by rewrite cmp_refl in E.
  - intros _ _ E. specialize (E k1). by rewrite cmp_refl in E.
  - intros [L1 S1] [L2 S2] E.
    assert (k1 = k2) as ->.
    { apply cmp_eq. destruct (cmp k1 k2) eqn:C; [done| |].
      - exfalso. specialize (E k1). rewrite cmp_refl, C in E. symmetry in E.
        apply bt_get_elem, elem_bt_keys, L2 in E. apply cmp_lt_gt in E. congruence.
      - exfalso. specialize (E k2). apply cmp_lt_gt in C. rewrite cmp_refl, C in E.
        apply bt_get_elem, elem_bt_keys, L1 in E. apply cmp_lt_gt in E. congruence. }
    pose proof (E k2) as E2. rewrite cmp_refl in E2. injection E2 as ->.
    f_equal. apply IH; [done..|]. intros k. specialize (E k).
    destruct (cmp k k2) eqn:C; [|done..]. apply cmp_eq in C as ->.
    trans (@None V); [|symmetry]; apply bt_get_None; intros ?;
      [apply L1 in H0|apply L2 in H0]; by apply cmp_lt_ne in H0.
Qed.

Lemma bt_insert_id m k v : bt_sorted m -> bt_get m k = Some v -> bt_insert m k v = m.
Proof.
  intros Hs E. apply bt_ext; [by apply bt_sorted_insert|done|].
  intros k'. rewrite bt_get_insert. case_decide; congruence.
Qed.

(** ** Counting *)
Lemma bt_sum_insert (f : K * V -> Z) m k v :
  bt_sorted m ->
  sum_Z f (bt_insert m k v) =
    sum_Z f m - match bt_get m k with Some w => f (k, w) | None => 0 end + f (k, v).
Proof.
  induction m as [|[k0 v0] m IH]; intros Hs; cbn [bt_insert bt_get].
  - unfold sum_Z. simpl. lia.
  - destruct Hs as [Hlt Hs]. destruct (cmp k k0) eqn:C; rewrite ?sum_Z_cons.
    + apply cmp_eq in C as ->. lia.
    + assert (bt_get m k = None) as ->; [|lia].
      apply bt_get_None. intros E%Hlt. apply cmp_lt_gt in E. congruence.
    + rewrite IH by done. lia.
Qed.

Lemma bt_sum_remove (f : K * V -> Z) m k :
  bt_sorted m ->
  sum_Z f (bt_remove m k) =
    sum_Z f m - match bt_get m k with Some w => f (k, w) | None => 0 end.
Proof.
  induction m as [|[k0 v0] m IH]; intros Hs; cbn [bt_remove bt_get].
  - unfold sum_Z. simpl. lia.
  - destruct Hs as [Hlt Hs]. rewrite !sum_Z_cons, <- ?IH by done.
    destruct (cmp k k0) eqn:C; rewrite ?sum_Z_cons, ?IH by done; [|lia..].
    apply cmp_eq in C as ->. assert (bt_get m k0 = None) as ->; [|lia].
    apply bt_get_None. intros E%Hlt. by rewrite cmp_refl in E.
Qed.

Lemma len_sum (m : btree K V) : len m = sum_Z (fun _ => 1) m.
Proof. induction m as [|p m IH]; [done|]. rewrite len_cons, sum_Z_cons. lia. Qed.

Lemma bt_len_insert m k v :
  bt_sorted m ->
  len (bt_insert m k v) = len m + match bt_get m k with Some _ => 0 | None => 1 end.
Proof. intros Hs. rewrite !len_sum, bt_sum_insert by done. destruct (bt_get m k); lia. Qed.

(** A map dominated pointwise by another has the smaller sum. *)
Lemma bt_sum_le (f g : K * V -> Z) m1 m2 :
  bt_sorted m1 -> bt_sorted m2 -> Forall (fun a => 0 <= g a) m2 ->
  (forall k v, bt_get m1 k = Some v -> exists w, bt_get m2 k = Some w /\ f (k, v) <= g (k, w)) ->
  sum_Z f m1 <= sum_Z g m2.
Proof.
  revert m2. induction m1 as [|[k v] m1 IH]; intros m2 H1 H2 Hg Hle.
  - unfold sum_Z at 1. simpl. induction Hg as [|a m2 Ha Hg IH]; [done|].
    rewrite sum_Z_cons. destruct a. destruct H2 as [_ H2]. specialize (IH H2).
    assert (forall k v, bt_get [] k = Some v -> exists w, bt_get m2 k = Some w /\ f (k, v) <= g (k, w))
      by (intros ??; done). specialize (IH H0). lia.
  - destruct H1 as [Hlt H1]. destruct (Hle k v) as (w & Hw & Hfg).
    { unfold bt_get. by rewrite cmp_refl. }
    pose proof (bt_sum_remove g m2 k H2) as Hr. rewrite Hw in Hr. rewrite sum_Z_cons.
    assert (sum_Z f m1 <= sum_Z g (bt_remove m2 k)); [|lia].
    apply IH; [done|by apply bt_sorted_remove| |].
    + clear -Hg. induction Hg as [|[k0 v0] m2 Ha Hg IH]; simpl; [done|].
      destruct (cmp k k0); [done|by constructor..].
    + intros k' v' Hk'. assert (k <> k') as Hne.
      { apply bt_get_elem, elem_bt_keys, Hlt in Hk'. by apply cmp_lt_ne. }
      rewrite bt_get_remove_ne by done. apply Hle.
      assert (bt_get ((k, v) :: m1) k' = match cmp k' k with Eq => Some v | _ => bt_get m1 k' end)
        as -> by done.
      destruct (cmp k' k) eqn:C; [|done..]. apply cmp_eq in C. congruence.
Qed.
End btree.

Arguments bt_get : simpl never.
#[export] Hint Resolve bt_sorted_insert bt_sorted_remove bt_sorted_filter : pelorus.

(** * Sorted vectors

    [Vec::sort] and [Vec::dedup] over an ordered type, and what a sort followed
    by a dedup returns. *)
Section sort.
Context {K : Type} `{Ord K}.

Fixpoint insert_sorted (x : K) (l : list K) : list K :=
  match l with
  | [] => [x]
  | y :: l' => match cmp y x with Lt | Eq => y :: insert_sorted x l' | Gt => x :: l end
  end.

(** The order of equal keys does not matter: they are equal. *)
Definition sort (l : list K) : list K := foldr insert_sorted [] l.

Fixpoint dedup (l : list K) : list K :=
  match l with
  | x :: (y :: _) as t => match cmp x y with Eq => dedup t | _ => x :: dedup t end
  | _ => l
  end.

Definition le (x y : K) : Prop := cmp x y <> Gt.
Definition lt (x y : K) : Prop := cmp x y = Lt.

Lemma insert_sorted_perm x l : insert_sorted x l ≡ₚ x :: l.
Proof.
  induction l as [|y l IH]; simpl; [done|]. destruct (cmp y x); [| |done].
  all: rewrite IH; apply Permutation_swap.
Qed.

Lemma sort_perm l : sort l ≡ₚ l.
Proof. induction l as [|x l IH]; simpl; [done|]. by rewrite insert_sorted_perm, IH. Qed.

Lemma le_trans x y z : le x y -> le y z -> le x z.
Proof.
  unfold le. intros H1 H2 H3. destruct (cmp x y) eqn:E1; [apply cmp_eq in E1 as ->; done| |done].
  destruct (cmp y z) eqn:E2; [apply cmp_eq in E2 as ->; congruence| |done].
  by rewrite (cmp_trans x y z) in H3.
Qed.

Lemma insert_sorted_sorted x l : StronglySorted le l -> StronglySorted le (insert_sorted x l).
Proof.
  induction 1 as [|y l Hl IH Hy]; simpl; [by repeat constructor|].
  assert (cmp y x <> Gt -> StronglySorted le (y :: insert_sorted x l)) as Hle.
  { intros E. constructor; [done|]. rewrite insert_sorted_perm. by constructor. }
  destruct (cmp y x) eqn:E; [by apply Hle|by apply Hle|]. apply cmp_lt_gt in E. constructor; [by constructor|].
  assert (le x y) as Hxy by (unfold le; congruence). constructor; [done|]. eapply Forall_impl; [exact Hy|].
  intros z Hz. by eapply le_trans.
Qed.

Lemma sort_sorted l : StronglySorted le (sort l).
Proof. induction l as [|x l IH]; simpl; [constructor|]. by apply insert_sorted_sorted. Qed.

Lemma elem_of_dedup x l : x ∈ dedup l <-> x ∈ l.
Proof.
  induction l as [|y l IH]; [done|]. simpl. destruct l as [|z l]; [done|].
  destruct (cmp y z) eqn:E; [apply cmp_eq in E as ->|..].
  - rewrite IH, !elem_of_cons. tauto.
  - by rewrite elem_of_cons, IH, <- elem_of_cons.
  - by rewrite elem_of_cons, IH, <- elem_of_cons.
Qed.

Lemma dedup_sorted l : StronglySorted le l -> StronglySorted lt (dedup l).
Proof.
  induction 1 as [|x l Hl IH Hx]; [constructor|]. simpl. destruct l as [|y l]; [by repeat constructor|].
  assert (cmp x y <> Eq -> StronglySorted lt (x :: dedup (y :: l))) as Hne.
  { intros E. constructor; [done|]. apply Forall_forall. intros z Hz. apply (proj1 (elem_of_dedup _ _)) in Hz.
    pose proof (proj1 (Forall_forall _ _) Hx z Hz) as Hxz. apply Forall_inv in Hx.
    unfold lt. destruct (cmp x z) eqn:Exz; [|done|done]. apply cmp_eq in Exz as <-.
    apply elem_of_cons in Hz as [->|Hz]; [by rewrite cmp_refl in E|]. apply StronglySorted_inv in Hl as [_ Hy].
    pose proof (proj1 (Forall_forall _ _) Hy x Hz) as Hyx. unfold le in Hx, Hyx. rewrite (cmp_antisym x y) in Hyx.
    by destruct (cmp x y). }
  destruct (cmp x y) eqn:E; [done|by apply Hne|by apply Hne].
Qed.

(** Sorted without repetition, with the same elements. *)
Lemma sort_dedup l : StronglySorted lt (dedup (sort l)) /\ forall x, x ∈ dedup (sort l) <-> x ∈ l.
Proof.
  split; [by apply dedup_sorted, sort_sorted|]. intros x. rewrite elem_of_dedup. by rewrite sort_perm.
Qed.
End sort.
