(* ===== verification/Text.v ===== *)
(** * Text

    The parts of [str] the sources use, on UTF-8 bytes: splitting and joining on
    an ASCII separator, trimming, prefixes, [lines], and the acceptance test of
    [IpAddr::from_str]. *)
From S2P Require Import Prelude Bytes.
Local Open Scope Z_scope.

Definition DOT : byte := "."%byte.
Definition COLON : byte := ":"%byte.
Definition NEWLINE : byte := x0a.

(** [str::split(c)]: always at least one piece. *)
Fixpoint split_on (c : byte) (l : list byte) : list (list byte) :=
  match l with
  | [] => [[]]
  | b :: l' =>
      if bool_decide (b = c) then [] :: split_on c l'
      else match split_on c l' with
           | p :: ps => (b :: p) :: ps
           | [] => [[b]]
           end
  end.

(** [[&str]::join] with a one-byte separator. *)
Fixpoint join_with (c : byte) (ps : list (list byte)) : list byte :=
  match ps with
  | [] => []
  | [p] => p
  | p :: ps => p ++ c :: join_with c ps
  end.

(** [str::strip_prefix]. *)
Fixpoint strip_prefix (p l : list byte) : option (list byte) :=
  match p, l with
  | [], _ => Some l
  | b :: p, a :: l => if bool_decide (a = b) then strip_prefix p l else None
  | _ :: _, [] => None
  end.

Definition has_prefix (p l : list byte) : bool := bool_decide (is_Some (strip_prefix p l)).

(** [str::contains] of a string. *)
Fixpoint contains (p l : list byte) : bool :=
  has_prefix p l || match l with [] => false | _ :: l => contains p l end.

(** [str::trim_end_matches(c)]. *)
Fixpoint drop_while_eq (c : byte) (l : list byte) : list byte :=
  match l with
  | b :: l' => if bool_decide (b = c) then drop_while_eq c l' else l
  | [] => []
  end.
Definition trim_end_matches (c : byte) (l : list byte) : list byte :=
  reverse (drop_while_eq c (reverse l)).

(** Unicode White_Space, by UTF-8 encoding. *)
Definition ws1 (a : byte) : bool := in_range 9 13 a || in_range 32 32 a.
Definition ws2 (a b : byte) : bool :=
  in_range 0xc2 0xc2 a && (in_range 0x85 0x85 b || in_range 0xa0 0xa0 b).
Definition ws3 (a b c : byte) : bool :=
  (in_range 0xe1 0xe1 a && in_range 0x9a 0x9a b && in_range 0x80 0x80 c) ||
  (in_range 0xe2 0xe2 a && in_range 0x80 0x80 b &&
     (in_range 0x80 0x8a c || in_range 0xa8 0xa9 c || in_range 0xaf 0xaf c)) ||
  (in_range 0xe2 0xe2 a && in_range 0x81 0x81 b && in_range 0x9f 0x9f c) ||
  (in_range 0xe3 0xe3 a && in_range 0x80 0x80 b && in_range 0x80 0x80 c).

Fixpoint trim_start (l : list byte) : list byte :=
  match l with
  | [] => []
  | a :: t =>
      if ws1 a then trim_start t
      else match t with
           | [] => l
           | b :: t =>
               if ws2 a b then trim_start t
               else match t with
                    | [] => l
                    | c :: t => if ws3 a b c then trim_start t else l
                    end
           end
  end.

(** The same from the end, on the reversed string. *)
Fixpoint trim_start_rev (l : list byte) : list byte :=
  match l with
  | [] => []
  | a :: t =>
      if ws1 a then trim_start_rev t
      else match t with
           | [] => l
           | b :: t =>
               if ws2 b a then trim_start_rev t
               else match t with
                    | [] => l
                    | c :: t => if ws3 c b a then trim_start_rev t else l
                    end
           end
  end.

(** [str::trim]. *)
Definition trim (l : list byte) : list byte := reverse (trim_start_rev (reverse (trim_start l))).

(** [str::lines]: split on newlines, the last piece dropped when empty, one
    trailing carriage return removed from each line. *)
Definition drop_cr (l : list byte) : list byte :=
  match reverse l with x0d :: t => reverse t | _ => l end.
Definition lines (l : list byte) : list (list byte) :=
  let ps := split_on NEWLINE l in
  let ps := if bool_decide (last ps = Some []) then take (length ps - 1) ps else ps in
  map drop_cr ps.

(** ** [IpAddr::from_str]

    Only whether it succeeds.  Each reader returns the input it left over. *)
Module Ip.
Definition digit (radix : Z) (b : byte) : option Z :=
  let d :=
    if in_range 48 57 b then Some (b2z b - 48)
    else if in_range 97 122 b then Some (b2z b - 87)
    else if in_range 65 90 b then Some (b2z b - 55)
    else None in
  d ← d; if d <? radix then Some d else None.

(** The digits of [read_number]: value, count, rest. [None] on overflow of
    [max] or when there are more than [max_digits]. *)
Fixpoint digits (radix max : Z) (max_digits n : nat) (acc : Z) (l : list byte)
  : option (Z * nat * list byte) :=
  match l with
  | b :: t =>
      match digit radix b with
      | Some d =>
          if (max <? acc * radix + d) || (max_digits <? S n)%nat then None
          else digits radix max max_digits (S n) (acc * radix + d) t
      | None => Some (acc, n, l)
      end
  | [] => Some (acc, n, [])
  end.

Definition read_number (radix max : Z) (max_digits : nat) (allow_zero_prefix : bool)
  (l : list byte) : option (list byte) :=
  let leading_zero := bool_decide (head l = Some "0"%byte) in
  '(_, n, rest) ← digits radix max max_digits 0 0 l;
  if (n =? 0)%nat then None
  else if negb allow_zero_prefix && leading_zero && (1 <? n)%nat then None
  else Some rest.

Definition read_char (c : byte) (l : list byte) : option (list byte) :=
  match l with b :: t => if bool_decide (b = c) then Some t else None | [] => None end.

Definition read_separator (sep : byte) (i : nat) (f : list byte -> option (list byte))
  (l : list byte) : option (list byte) :=
  l ← (if (i =? 0)%nat then Some l else read_char sep l); f l.

Definition read_v4_octet (i : nat) : list byte -> option (list byte) :=
  read_separator DOT i (read_number 10 255 3 false).

Definition read_v4 (l : list byte) : option (list byte) :=
  l ← read_v4_octet 0 l; l ← read_v4_octet 1 l; l ← read_v4_octet 2 l; read_v4_octet 3 l.

(** [read_groups] over [limit] slots: groups read, ended by an IPv4 part, rest. *)
Fixpoint read_groups (slots i limit : nat) (l : list byte) : nat * bool * list byte :=
  match slots with
  | O => (limit, false, l)
  | S slots =>
      match (if (i <? limit - 1)%nat then read_separator COLON i read_v4 l else None) with
      | Some t => ((i + 2)%nat, true, t)
      | None =>
          match read_separator COLON i (read_number 16 65535 4 true) l with
          | Some t => read_groups slots (S i) limit t
          | None => (i, false, l)
          end
      end
  end.

Definition read_v6 (l : list byte) : option (list byte) :=
  let '(head_size, head_ipv4, l) := read_groups 8 0 8 l in
  if (head_size =? 8)%nat then Some l
  else if head_ipv4 then None
  else
    l ← read_char COLON l;
    l ← read_char COLON l;
    let limit := (8 - (head_size + 1))%nat in
    let '(_, _, l) := read_groups limit 0 limit l in
    Some l.

Definition is_ip_addr (l : list byte) : bool :=
  match (match read_v4 l with Some t => Some t | None => read_v6 l end) with
  | Some [] => true
  | _ => false
  end.
End Ip.

Example ip_examples :
  map (fun s => Ip.is_ip_addr (lit s))
    ["127.0.0.1"; "1.2.3.4.5"; "01.2.3.4"; "256.1.1.1"; "::1"; "fe80::1:2"; "1:2:3:4:5:6:7:8";
     "::ffff:1.2.3.4"; "1::2::3"; "example.com"; "1.2.3"; "::"; "1:2:3:4:5:6:7:8:9"]%string
  = [true; false; false; false; true; true; true; true; false; false; false; true; false].
Proof. by vm_compute. Qed.

(** ** Splitting and joining *)
Lemma join_snoc c cs n : cs <> [] -> join_with c (cs ++ [n]) = join_with c cs ++ c :: n.
Proof.
  induction cs as [|x cs IH]; [done|]. intros _. destruct cs as [|y cs]; [done|].
  change (join_with c ((x :: y :: cs) ++ [n])) with (x ++ c :: join_with c ((y :: cs) ++ [n])).
  rewrite IH by done. change (join_with c (x :: y :: cs)) with (x ++ c :: join_with c (y :: cs)).
  by rewrite <- app_assoc.
Qed.

Section split.
Context (c : byte).
Implicit Types (l p : list byte) (ps : list (list byte)).

Lemma split_on_ne l : split_on c l <> [].
Proof. destruct l as [|b l]; simpl; [done|]. case_bool_decide; [done|]. by destruct (split_on c l). Qed.

Lemma join_split l : join_with c (split_on c l) = l.
Proof.
  induction l as [|b l IH]; [done|]. pose proof (split_on_ne l) as Hne. cbn [split_on].
  case_bool_decide as Hb.
  - subst b. destruct (split_on c l) as [|p ps] eqn:E; [done|].
    change (join_with c ([] :: p :: ps)) with (c :: join_with c (p :: ps)). by rewrite IH.
  - destruct (split_on c l) as [|p ps] eqn:E; [done|].
    destruct ps; simpl in *; by rewrite IH.
Qed.

Lemma split_on_nosep l p : p ∈ split_on c l -> c ∉ p.
Proof.
  revert p. induction l as [|b l IH]; intros p; cbn [split_on].
  - intros ->%list_elem_of_singleton. apply not_elem_of_nil.
  - case_bool_decide as Hb; [intros [->|E]%elem_of_cons; [apply not_elem_of_nil|auto]|].
    pose proof (split_on_ne l) as Hne. destruct (split_on c l) as [|q qs]; [done|].
    intros [->|E]%elem_of_cons.
    + apply not_elem_of_cons. split; [congruence|]. apply IH. by left.
    + apply IH. by right.
Qed.

Lemma split_on_drop_nosep n l : Forall (fun p => c ∉ p) (drop n (split_on c l)).
Proof. apply Forall_drop, Forall_forall. intros p. apply split_on_nosep. Qed.

Lemma split_on_app p l : c ∉ p -> split_on c (p ++ c :: l) = p :: split_on c l.
Proof.
  induction p as [|b p IH]; intros Hp; cbn [app split_on].
  - by rewrite bool_decide_eq_true_2.
  - apply not_elem_of_cons in Hp as [Hb Hp]. rewrite bool_decide_eq_false_2 by congruence.
    by rewrite IH.
Qed.

Lemma split_on_single p : c ∉ p -> split_on c p = [p].
Proof.
  induction p as [|b p IH]; intros Hp; cbn [split_on]; [done|].
  apply not_elem_of_cons in Hp as [Hb Hp]. rewrite bool_decide_eq_false_2 by congruence.
  by rewrite IH.
Qed.

Lemma split_join ps : ps <> [] -> Forall (fun p => c ∉ p) ps -> split_on c (join_with c ps) = ps.
Proof.
  induction ps as [|p ps IH]; [done|]. intros _ [Hp Hps]%Forall_cons.
  destruct ps as [|q ps]; [by apply split_on_single|].
  change (join_with c (p :: q :: ps)) with (p ++ c :: join_with c (q :: ps)).
  rewrite split_on_app by done. by rewrite IH.
Qed.

(** A tail of the pieces is a suffix of the text, cut at a separator. *)
Lemma join_drop n ps :
  (0 < n < length ps)%nat -> exists pre, join_with c ps = pre ++ c :: join_with c (drop n ps).
Proof.
  revert n. induction ps as [|p ps IH]; intros n Hn; simpl in Hn; [lia|].
  destruct ps as [|q ps]; simpl in Hn; [lia|].
  change (join_with c (p :: q :: ps)) with (p ++ c :: join_with c (q :: ps)).
  destruct n as [|[|n]]; [lia| |].
  - by exists p.
  - destruct (IH (S n)) as [pre E]; [simpl; lia|]. rewrite E. simpl.
    exists (p ++ c :: pre). by rewrite <- app_assoc.
Qed.

Lemma join_nonempty ps p : p ∈ ps -> p <> [] -> join_with c ps <> [].
Proof.
  intros Hp Hne. destruct ps as [|q [|r ps]]; simpl.
  - by apply elem_of_nil in Hp.
  - by apply list_elem_of_singleton in Hp as ->.
  - by destruct q.
Qed.
End split.

Lemma split_on_cat c a b : split_on c (a ++ c :: b) = split_on c a ++ split_on c b.
Proof.
  induction a as [|x a IH]; cbn [app split_on].
  - by rewrite bool_decide_eq_true_2.
  - rewrite IH. destruct (bool_decide (x = c)); [done|]. pose proof (split_on_ne c a). by destruct (split_on c a).
Qed.

Lemma split_on_Forall (P : byte -> Prop) c l : Forall P l -> Forall (Forall P) (split_on c l).
Proof.
  induction 1 as [|b l Hb Hl IH]; cbn [split_on]; [by repeat constructor|]. case_bool_decide; [by constructor|].
  destruct (split_on c l) as [|p ps]; [by repeat constructor|]. apply Forall_cons in IH as [Hp Hps]. repeat constructor; done.
Qed.

Lemma join_with_Forall (P : byte -> Prop) c ps : P c -> Forall (Forall P) ps -> Forall P (join_with c ps).
Proof.
  intros Hc. induction 1 as [|p ps Hp Hps IH]; [constructor|]. destruct ps as [|q ps]; [done|].
  change (join_with c (p :: q :: ps)) with (p ++ c :: join_with c (q :: ps)). apply Forall_app. split; [done|]. by constructor.
Qed.

Lemma drop_while_eq_suffix c l : exists k, l = replicate k c ++ drop_while_eq c l.
Proof.
  induction l as [|b l [k IH]]; [by exists 0%nat|]. simpl. case_bool_decide as Hb.
  - subst. exists (S k). simpl. by f_equal.
  - by exists 0%nat.
Qed.

Lemma drop_while_eq_head c l : head (drop_while_eq c l) <> Some c.
Proof. induction l as [|b l IH]; simpl; [done|]. case_bool_decide; [done|]. simpl. congruence. Qed.

Lemma trim_end_matches_spec c l : exists k, l = trim_end_matches c l ++ replicate k c.
Proof.
  destruct (drop_while_eq_suffix c (reverse l)) as [k E]. exists k. unfold trim_end_matches.
  apply (f_equal reverse) in E. rewrite reverse_involutive, reverse_app in E.
  by rewrite reverse_replicate in E.
Qed.

Lemma trim_end_matches_last c l : last (trim_end_matches c l) <> Some c.
Proof. unfold trim_end_matches. rewrite last_reverse. apply drop_while_eq_head. Qed.

Lemma trim_end_matches_id c l : last l <> Some c -> trim_end_matches c l = l.
Proof.
  intros H. unfold trim_end_matches. rewrite <- (reverse_involutive l) in H.
  rewrite last_reverse in H. destruct (reverse l) as [|b r] eqn:E.
  - simpl. by rewrite <- E, reverse_involutive.
  - simpl in *. rewrite bool_decide_eq_false_2 by congruence. by rewrite <- E, reverse_involutive.
Qed.

Lemma trim_padded c body k : last body <> Some c -> trim_end_matches c (body ++ replicate k c) = body.
Proof.
  intros Hb. induction k as [|k IH]; [cbn; rewrite app_nil_r; by apply trim_end_matches_id|]. rewrite replicate_S_end, app_assoc.
  unfold trim_end_matches in *. rewrite reverse_app. cbn. by rewrite bool_decide_eq_true_2.
Qed.

(** ** More of [str] *)
(** [str::split_once] on a character. *)
Fixpoint split_once (c : byte) (l : list byte) : option (list byte * list byte) :=
  match l with
  | [] => None
  | b :: l => if decide (b = c) then Some ([], l)
              else '(x, y) ← split_once c l; Some (b :: x, y)
  end.

(** [str::strip_suffix]. *)
Definition strip_suffix (suffix l : list byte) : option (list byte) :=
  reverse <$> strip_prefix (reverse suffix) (reverse l).

Lemma split_once_spec c l x y : split_once c l = Some (x, y) <-> l = x ++ c :: y /\ c ∉ x.
Proof.
  revert x y. induction l as [|b l IH]; intros x y; simpl.
  { split; [done|]. intros [E _]. by destruct x. }
  case_decide as Hb; subst; simpl.
  - split; [intros [= <- <-]; split; [done|apply not_elem_of_nil]|].
    intros [E Hx]. destruct x as [|b' x]; [by injection E as ->|].
    injection E as -> ->. exfalso. apply Hx. by left.
  - destruct (split_once c l) as [[x' y']|] eqn:E; simpl.
    + destruct (proj1 (IH x' y') eq_refl) as [-> Hx']. split.
      * intros [= <- <-]. split; [done|]. rewrite not_elem_of_cons. done.
      * intros [Eq Hx]. destruct x as [|b' x]; [by injection Eq|]. injection Eq as -> Eq.
        apply not_elem_of_cons in Hx as [_ Hx]. pose proof (proj2 (IH x y) (conj Eq Hx)) as L. injection L as -> ->. done.
    + split; [done|]. intros [Eq Hx]. destruct x as [|b' x]; [by injection Eq|].
      injection Eq as -> Eq. apply not_elem_of_cons in Hx as [_ Hx]. discriminate (proj2 (IH x y) (conj Eq Hx)).
Qed.

Lemma split_once_None c l : split_once c l = None <-> c ∉ l.
Proof.
  induction l as [|b l IH]; simpl; [split; [intros _; apply not_elem_of_nil|done]|].
  rewrite not_elem_of_cons. case_decide as Hb; simpl; [split; [done|naive_solver]|].
  destruct (split_once c l) as [[x y]|]; simpl; naive_solver.
Qed.

Lemma strip_prefix_Some p l r : strip_prefix p l = Some r <-> l = p ++ r.
Proof.
  revert l. induction p as [|a p IH]; intros l; simpl; [naive_solver|].
  destruct l as [|b l]; [naive_solver|]. destruct (bool_decide (b = a)) eqn:E.
  - apply bool_decide_eq_true in E as ->. rewrite IH. naive_solver.
  - apply bool_decide_eq_false in E. naive_solver.
Qed.

Lemma strip_suffix_Some s l r : strip_suffix s l = Some r <-> l = r ++ s.
Proof.
  unfold strip_suffix. rewrite fmap_Some. setoid_rewrite strip_prefix_Some. split.
  - intros (x & E & ->). apply (f_equal reverse) in E. by rewrite reverse_involutive, reverse_app, reverse_involutive in E.
  - intros ->. exists (reverse r). by rewrite reverse_app, reverse_involutive.
Qed.
