(* ===== verification/Chars.v ===== *)
(** * Characters: UTF-8, decimal numbers, trimmed text

    More of what the sources use of [str]: the validity that [String::from_utf8]
    tests, the decimal form [format!] gives an integer, and when [trim] has
    nothing to do. *)
From S2P Require Import Prelude Bytes Text.
Local Open Scope Z_scope.

#[local] Arguments ws1 : simpl never.
#[local] Arguments ws2 : simpl never.
#[local] Arguments ws3 : simpl never.

(** ** UTF-8 (Unicode, table 3-7) *)
Definition cont (b : byte) : bool := in_range 0x80 0xbf b.

(** The second byte allowed after a leading byte of three or four. *)
Definition second3 (a b : byte) : bool :=
  (in_range 0xe0 0xe0 a && in_range 0xa0 0xbf b) || (in_range 0xe1 0xec a && cont b) ||
  (in_range 0xed 0xed a && in_range 0x80 0x9f b) || (in_range 0xee 0xef a && cont b).

Definition second4 (a b : byte) : bool :=
  (in_range 0xf0 0xf0 a && in_range 0x90 0xbf b) || (in_range 0xf1 0xf3 a && cont b) ||
  (in_range 0xf4 0xf4 a && in_range 0x80 0x8f b).

Fixpoint is_utf8 (l : list byte) : bool :=
  match l with
  | [] => true
  | a :: t =>
      if is_ascii_byte a then is_utf8 t
      else match t with
           | [] => false
           | b :: t =>
               if in_range 0xc2 0xdf a && cont b then is_utf8 t
               else match t with
                    | [] => false
                    | c :: t =>
                        if second3 a b && cont c then is_utf8 t
                        else match t with
                             | [] => false
                             | d :: t => second4 a b && cont c && cont d && is_utf8 t
                             end
                    end
           end
  end.

Lemma ascii_is_utf8 l : is_ascii l = true -> is_utf8 l = true.
Proof. induction l as [|a l IH]; [done|]. simpl. by intros [-> ?%IH]%andb_true_iff. Qed.

Lemma is_utf8_app a b : is_utf8 a = true -> is_utf8 b = true -> is_utf8 (a ++ b) = true.
Proof.
  intros Ha Hb. induction a as [a IH] using (induction_ltof1 _ (@length byte)). unfold ltof in IH.
  destruct a as [|x a]; [done|]. simpl in *. destruct (is_ascii_byte x); [apply IH; [lia|done]|].
  destruct a as [|y a]; [done|]. simpl in *. destruct (in_range 0xc2 0xdf x && cont y); [apply IH; [lia|done]|].
  destruct a as [|z a]; [done|]. simpl in *. destruct (second3 x y && cont z); [apply IH; [lia|done]|].
  destruct a as [|w a]; [done|]. simpl in *. apply andb_true_iff in Ha as [-> Ha]. apply IH; [lia|done].
Qed.

(** [checked_sub] of unsigned integers. *)
Definition checked_sub (a b : Z) : option Z := if b <=? a then Some (a - b) else None.

(** ** Decimal numbers *)
(** The digits of a number below ten to the power of [fuel] and one more. *)
Fixpoint decimal_loop (fuel : nat) (z : Z) (acc : list byte) : list byte :=
  let acc := z2b (48 + z mod 10) :: acc in
  match fuel with
  | S fuel => if z <? 10 then acc else decimal_loop fuel (z / 10) acc
  | O => acc
  end.

(** [u64] and [usize] have at most twenty digits. *)
Definition decimal (z : Z) : list byte := decimal_loop 19 z [].

Definition is_digit (b : byte) : bool := (48 <=? b2z b) && (b2z b <=? 57).

(** The number a string of decimal digits stands for. *)
Fixpoint digits_value (acc : Z) (l : list byte) : option Z :=
  match l with
  | [] => Some acc
  | b :: l => if is_digit b then digits_value (acc * 10 + (b2z b - 48)) l else None
  end.

Lemma digit_byte z : is_digit (z2b (48 + z mod 10)) = true /\ b2z (z2b (48 + z mod 10)) = 48 + z mod 10.
Proof.
  pose proof (Z.mod_pos_bound z 10 ltac:(lia)). unfold is_digit. rewrite b2z_z2b.
  rewrite (Z.mod_small (48 + _)) by lia. lia.
Qed.

Lemma decimal_loop_value fuel z acc :
  0 <= z < 10 ^ (Z.of_nat fuel + 1) -> digits_value 0 (decimal_loop fuel z acc) = digits_value z acc.
Proof.
  revert z acc. induction fuel as [|fuel IH]; intros z acc Hz; cbn [decimal_loop].
  all: pose proof (digit_byte z) as [Hd Hv].
  - change (10 ^ (Z.of_nat 0 + 1)) with 10 in Hz. cbn [digits_value]. rewrite Hd, Hv. f_equal.
    rewrite Z.mod_small by lia. lia.
  - destruct (z <? 10) eqn:Hs.
    + cbn [digits_value]. rewrite Hd, Hv. f_equal. rewrite Z.mod_small by lia. lia.
    + rewrite IH.
      * cbn [digits_value]. rewrite Hd, Hv. f_equal. pose proof (Z.div_mod z 10 ltac:(lia)). lia.
      * rewrite Nat2Z.inj_succ, Z.add_succ_l, Z.pow_succ_r in Hz by lia.
        split; [apply Z.div_pos; lia|]. apply Z.div_lt_upper_bound; lia.
Qed.

Lemma decimal_value z : 0 <= z <= U64_MAX -> digits_value 0 (decimal z) = Some z.
Proof. intros Hz. unfold decimal. rewrite decimal_loop_value; [done|]. unfold U64_MAX in *. lia. Qed.

Lemma decimal_loop_digits fuel z acc :
  Forall (fun b => is_digit b = true) acc ->
  Forall (fun b => is_digit b = true) (decimal_loop fuel z acc) /\ decimal_loop fuel z acc <> [].
Proof.
  revert z acc. induction fuel as [|fuel IH]; intros z acc Ha; cbn [decimal_loop].
  all: assert (Forall (fun b => is_digit b = true) (z2b (48 + z mod 10) :: acc)) as Ha'
    by (constructor; [apply digit_byte|done]).
  - done.
  - destruct (z <? 10); [done|]. by apply IH.
Qed.

Lemma decimal_digits z : Forall (fun b => is_digit b = true) (decimal z) /\ decimal z <> [].
Proof. by apply decimal_loop_digits. Qed.

Lemma digits_value_ge acc l v : 0 <= acc -> digits_value acc l = Some v -> acc <= v.
Proof.
  revert acc. induction l as [|b l IH]; intros acc Ha; simpl; [intros [= <-]; lia|].
  unfold is_digit. destruct (_ && _) eqn:Hd; [|done]. intros E%IH; lia.
Qed.

(** ** Trimmed text *)
(** White space at the front, and at the end of a reversed string. *)
Definition starts_ws (l : list byte) : bool :=
  match l with
  | [] => false
  | a :: t => ws1 a || match t with
                       | [] => false
                       | b :: t => ws2 a b || match t with [] => false | c :: _ => ws3 a b c end
                       end
  end.

Definition starts_ws_rev (l : list byte) : bool :=
  match l with
  | [] => false
  | a :: t => ws1 a || match t with
                       | [] => false
                       | b :: t => ws2 b a || match t with [] => false | c :: _ => ws3 c b a end
                       end
  end.

Definition trimmed (l : list byte) : Prop := starts_ws l = false /\ starts_ws_rev (reverse l) = false.

Lemma trim_start_id l : starts_ws l = false -> trim_start l = l.
Proof.
  destruct l as [|a [|b [|c l]]]; simpl; [done|..]; intros H.
  - rewrite orb_false_r in H. by rewrite H.
  - rewrite orb_false_r, orb_false_iff in H. by destruct H as [-> ->].
  - rewrite !orb_false_iff in H. by destruct H as (-> & -> & ->).
Qed.

Lemma trim_start_rev_id l : starts_ws_rev l = false -> trim_start_rev l = l.
Proof.
  destruct l as [|a [|b [|c l]]]; simpl; [done|..]; intros H.
  - rewrite orb_false_r in H. by rewrite H.
  - rewrite orb_false_r, orb_false_iff in H. by destruct H as [-> ->].
  - rewrite !orb_false_iff in H. by destruct H as (-> & -> & ->).
Qed.

(** One character of white space goes at a time. *)
Lemma trim_start_step l :
  starts_ws l = true -> exists p t, l = p ++ t /\ p <> [] /\ trim_start l = trim_start t.
Proof.
  destruct l as [|a [|b [|c l]]]; intros E; simpl in E; rewrite ?orb_false_r, ?orb_true_iff in E; [done|..].
  - exists [a], []. split_and!; simpl; [done..|by rewrite E].
  - destruct (ws1 a) eqn:E1; [exists [a], [b]; split_and!; simpl; [done..|by rewrite E1]|].
    destruct E as [[=]|E]. exists [a; b], []. split_and!; simpl; [done..|by rewrite E1, E].
  - destruct (ws1 a) eqn:E1; [exists [a], (b :: c :: l); split_and!; simpl; [done..|by rewrite E1]|].
    destruct (ws2 a b) eqn:E2; [exists [a; b], (c :: l); split_and!; simpl; [done..|by rewrite E1, E2]|].
    destruct E as [[=]|[[=]|E]]. exists [a; b; c], l. split_and!; simpl; [done..|by rewrite E1, E2, E].
Qed.

Lemma trim_start_suffix l : exists k, l = k ++ trim_start l /\ starts_ws (trim_start l) = false.
Proof.
  induction l as [l IH] using (induction_ltof1 _ (@length byte)). unfold ltof in IH.
  destruct (starts_ws l) eqn:E; [|exists []; by rewrite trim_start_id].
  apply trim_start_step in E as (p & t & -> & Hp & ->).
  destruct (IH t) as (k & Hk & Hd); [rewrite length_app; destruct p; simpl; [done|lia]|].
  exists (p ++ k). split; [by rewrite <- app_assoc, <- Hk|done].
Qed.

Lemma trim_start_rev_step l :
  starts_ws_rev l = true -> exists p t, l = p ++ t /\ p <> [] /\ trim_start_rev l = trim_start_rev t.
Proof.
  destruct l as [|a [|b [|c l]]]; intros E; simpl in E; rewrite ?orb_false_r, ?orb_true_iff in E; [done|..].
  - exists [a], []. split_and!; simpl; [done..|by rewrite E].
  - destruct (ws1 a) eqn:E1; [exists [a], [b]; split_and!; simpl; [done..|by rewrite E1]|].
    destruct E as [[=]|E]. exists [a; b], []. split_and!; simpl; [done..|by rewrite E1, E].
  - destruct (ws1 a) eqn:E1; [exists [a], (b :: c :: l); split_and!; simpl; [done..|by rewrite E1]|].
    destruct (ws2 b a) eqn:E2; [exists [a; b], (c :: l); split_and!; simpl; [done..|by rewrite E1, E2]|].
    destruct E as [[=]|[[=]|E]]. exists [a; b; c], l. split_and!; simpl; [done..|by rewrite E1, E2, E].
Qed.

Lemma trim_start_rev_suffix l : exists k, l = k ++ trim_start_rev l /\ starts_ws_rev (trim_start_rev l) = false.
Proof.
  induction l as [l IH] using (induction_ltof1 _ (@length byte)). unfold ltof in IH.
  destruct (starts_ws_rev l) eqn:E; [|exists []; by rewrite trim_start_rev_id].
  apply trim_start_rev_step in E as (p & t & -> & Hp & ->).
  destruct (IH t) as (k & Hk & Hd); [rewrite length_app; destruct p; simpl; [done|lia]|].
  exists (p ++ k). split; [by rewrite <- app_assoc, <- Hk|done].
Qed.

Lemma starts_ws_prefix p q : starts_ws (p ++ q) = false -> starts_ws p = false.
Proof.
  destruct p as [|a [|b [|c p]]]; simpl; try done; rewrite ?orb_false_iff; tauto.
Qed.

Lemma trim_trimmed l : trimmed (trim l).
Proof.
  unfold trim, trimmed. rewrite reverse_involutive. destruct (trim_start_suffix l) as (k & _ & Hs).
  destruct (trim_start_rev_suffix (reverse (trim_start l))) as (k' & Hk & Hr). split; [|done].
  apply (starts_ws_prefix _ (reverse k')). by rewrite <- reverse_app, <- Hk, reverse_involutive.
Qed.

Lemma elem_of_trim b l : b ∈ trim l -> b ∈ l.
Proof.
  unfold trim. rewrite elem_of_reverse. intros Hb.
  destruct (trim_start_suffix l) as (k & Hk & _), (trim_start_rev_suffix (reverse (trim_start l))) as (k' & Hk' & _).
  rewrite Hk. apply elem_of_app. right. rewrite <- elem_of_reverse, Hk'. apply elem_of_app. by right.
Qed.

Lemma trim_id l : trimmed l -> trim l = l.
Proof. intros [H1 H2]. unfold trim. by rewrite trim_start_id, trim_start_rev_id, reverse_involutive. Qed.

(** On ASCII text, white space is one byte at a time. *)
Lemma ascii_ws2 a b : is_ascii_byte a = true -> ws2 a b = false.
Proof. intros H. unfold ws2, in_range. unfold is_ascii_byte in H. assert (b2z a < 128) as Ha by (by destruct a). rewrite (proj2 (Z.leb_gt 0xc2 (b2z a))) by lia. done. Qed.
Lemma ascii_ws3 a b c : is_ascii_byte a = true -> ws3 a b c = false.
Proof.
  intros H. assert (b2z a < 128) as Ha by (by destruct a). unfold ws3, in_range. rewrite (proj2 (Z.leb_gt 0xe1 (b2z a))), (proj2 (Z.leb_gt 0xe2 (b2z a))), (proj2 (Z.leb_gt 0xe3 (b2z a))) by lia. done.
Qed.

Lemma trim_start_ascii l : Forall (fun b => is_ascii_byte b = true) l -> exists p, l = p ++ trim_start l /\ Forall (fun b => ws1 b = true) p.
Proof.
  induction 1 as [|a l Ha Hl (p & E & Hp)]; [by exists []; split; [|constructor]|]. cbn [trim_start]. destruct (ws1 a) eqn:E1; [exists (a :: p); split; [by rewrite E at 1|by constructor]|].
  exists []. split; [|constructor]. destruct l as [|b [|c l]]; [done|by rewrite ascii_ws2|by rewrite ascii_ws2, ascii_ws3].
Qed.
Lemma trim_start_rev_ascii l : Forall (fun b => is_ascii_byte b = true) l -> exists p, l = p ++ trim_start_rev l /\ Forall (fun b => ws1 b = true) p.
Proof.
  induction 1 as [|a l Ha Hl (p & E & Hp)]; [by exists []; split; [|constructor]|]. cbn [trim_start_rev]. destruct (ws1 a) eqn:E1; [exists (a :: p); split; [by rewrite E at 1|by constructor]|].
  exists []. split; [|constructor]. destruct Hl as [|b l Hb Hl]; [done|]. rewrite ascii_ws2 by done. destruct Hl as [|c l Hc Hl]; [done|]. by rewrite ascii_ws3.
Qed.

Lemma trim_ascii l : Forall (fun b => is_ascii_byte b = true) l -> exists p q, l = p ++ trim l ++ q /\ Forall (fun b => ws1 b = true) p /\ Forall (fun b => ws1 b = true) q.
Proof.
  intros Hl. destruct (trim_start_ascii l Hl) as (p & E & Hp). rewrite E in Hl. apply Forall_app in Hl as [_ Hl]. apply Forall_reverse in Hl.
  destruct (trim_start_rev_ascii _ Hl) as (q & Eq & Hq). exists p, (reverse q). split; [|split; [done|by apply Forall_reverse]].
  rewrite E at 1. f_equal. unfold trim. rewrite <- reverse_app, <- Eq. by rewrite reverse_involutive.
Qed.

Lemma trim_start_ws p l : Forall (fun b => ws1 b = true) p -> trim_start (p ++ l) = trim_start l.
Proof. induction 1 as [|b p Hb Hp IH]; [done|]. cbn [app trim_start]. by rewrite Hb. Qed.
Lemma trim_start_rev_ws p l : Forall (fun b => ws1 b = true) p -> trim_start_rev (p ++ l) = trim_start_rev l.
Proof. induction 1 as [|b p Hb Hp IH]; [done|]. cbn [app trim_start_rev]. by rewrite Hb. Qed.

(** [format!] writes a blank before each attribute. *)
Lemma trim_blank l : trimmed l -> trim (x20 :: l) = l.
Proof. intros H. rewrite <- (trim_id l H) at 2. done. Qed.

(** ASCII text that is not blank at its ends. *)
Definition solid (b : byte) : bool := is_ascii_byte b && negb (ws1 b).

Lemma ascii_not_ws a b c :
  is_ascii_byte a = true -> ws2 a b = false /\ ws2 b a = false /\ ws3 a b c = false /\ ws3 b a c = false /\ ws3 b c a = false.
Proof.
  unfold is_ascii_byte, ws2, ws3, in_range. intros Ha%Z.ltb_lt. pose proof (b2z_range a).
  repeat match goal with |- context [?n <=? b2z a] => replace (n <=? b2z a) with false by lia end.
  repeat split; simpl; rewrite ?andb_false_r; done.
Qed.

Lemma solid_split b : solid b = true -> is_ascii_byte b = true /\ ws1 b = false.
Proof. unfold solid. by intros [-> ->%negb_true_iff]%andb_true_iff. Qed.

Lemma starts_ws_solid a l : solid a = true -> starts_ws (a :: l) = false.
Proof.
  intros [Ha Hw]%solid_split. destruct l as [|b [|c l]]; simpl; rewrite Hw; simpl; [done|..].
  - by destruct (ascii_not_ws a b b Ha) as (-> & _).
  - by destruct (ascii_not_ws a b c Ha) as (-> & _ & -> & _).
Qed.

Lemma starts_ws_rev_solid a l : solid a = true -> starts_ws_rev (a :: l) = false.
Proof.
  intros [Ha Hw]%solid_split. destruct l as [|b [|c l]]; simpl; rewrite Hw; simpl; [done|..].
  - by destruct (ascii_not_ws a b b Ha) as (_ & -> & _).
  - destruct (ascii_not_ws a c b Ha) as (_ & _ & _ & _ & ->). by destruct (ascii_not_ws a b b Ha) as (_ & -> & _).
Qed.

Lemma trimmed_solid l : Forall (fun b => solid b = true) l -> trimmed l.
Proof.
  intros Hl. split.
  - destruct Hl; [done|by apply starts_ws_solid].
  - apply Forall_reverse in Hl. destruct Hl; [done|by apply starts_ws_rev_solid].
Qed.

(** Text before which solid text is written. *)
(** What stands between white space is what is left. *)
Lemma trim_between p c q : c <> [] -> Forall (fun b => solid b = true) c -> Forall (fun b => ws1 b = true) p -> Forall (fun b => ws1 b = true) q -> trim (p ++ c ++ q) = c.
Proof.
  intros Hn Hc Hp Hq. unfold trim. rewrite trim_start_ws by done. rewrite trim_start_id.
  - rewrite reverse_app, trim_start_rev_ws by (by apply Forall_reverse). rewrite trim_start_rev_id by (by apply trimmed_solid). apply reverse_involutive.
  - destruct c as [|a c]; [done|]. apply Forall_inv in Hc. apply andb_true_iff in Hc as [Ha Hw%negb_true_iff]. cbn [app starts_ws]. rewrite Hw. cbn [orb].
    destruct (c ++ q) as [|b [|d t]]; [done|by rewrite ascii_ws2|by rewrite ascii_ws2, ascii_ws3].
Qed.

Lemma trimmed_app a p s v :
  solid a = true -> solid s = true -> trimmed v -> v <> [] -> trimmed (a :: p ++ s :: v).
Proof.
  intros Ha [Hs Hw]%solid_split [_ Hv] Hne. split; [by apply starts_ws_solid|].
  rewrite reverse_cons, reverse_app, reverse_cons, <- !app_assoc. simpl.
  destruct (reverse v) as [|x [|y [|z r]]] eqn:E.
  - apply (f_equal reverse) in E. by rewrite reverse_involutive in E.
  - simpl in *. rewrite orb_false_r in Hv. rewrite Hv. simpl.
    destruct (ascii_not_ws s x x Hs) as (-> & _). simpl.
    destruct (reverse p ++ [a]) as [|c r]; [done|]. by destruct (ascii_not_ws s c x Hs) as (_ & _ & _ & -> & _).
  - simpl in *. rewrite orb_false_r in Hv. apply orb_false_iff in Hv as [-> ->]. simpl.
    by destruct (ascii_not_ws s y x Hs) as (_ & _ & -> & _).
  - done.
Qed.

Lemma is_digit_solid b : is_digit b = true -> solid b = true.
Proof.
  unfold is_digit, solid, is_ascii_byte, ws1, in_range. intros [? ?]%andb_true_iff.
  pose proof (b2z_range b). lia.
Qed.

(** ** [String::from_utf8_lossy] *)
(** U+FFFD. *)
Definition REPLACEMENT : list byte := [xef; xbf; xbd].

(** Each longest prefix of a character that is not the whole of it, and each
    byte that starts none, becomes one replacement character. *)
Fixpoint utf8_lossy (l : list byte) : list byte :=
  match l with
  | [] => []
  | a :: t =>
      if is_ascii_byte a then a :: utf8_lossy t
      else if in_range 0xc2 0xdf a then
        match t with
        | b :: t' => if cont b then a :: b :: utf8_lossy t' else REPLACEMENT ++ utf8_lossy t
        | [] => REPLACEMENT
        end
      else if in_range 0xe0 0xef a then
        match t with
        | b :: t' =>
            if second3 a b then
              match t' with
              | c :: t'' => if cont c then a :: b :: c :: utf8_lossy t'' else REPLACEMENT ++ utf8_lossy t'
              | [] => REPLACEMENT
              end
            else REPLACEMENT ++ utf8_lossy t
        | [] => REPLACEMENT
        end
      else if in_range 0xf0 0xf4 a then
        match t with
        | b :: t' =>
            if second4 a b then
              match t' with
              | c :: t'' =>
                  if cont c then
                    match t'' with
                    | d :: t''' => if cont d then a :: b :: c :: d :: utf8_lossy t''' else REPLACEMENT ++ utf8_lossy t''
                    | [] => REPLACEMENT
                    end
                  else REPLACEMENT ++ utf8_lossy t'
              | [] => REPLACEMENT
              end
            else REPLACEMENT ++ utf8_lossy t
        | [] => REPLACEMENT
        end
      else REPLACEMENT ++ utf8_lossy t
  end.

Lemma utf8_lossy_ascii l : is_ascii l = true -> utf8_lossy l = l.
Proof. induction l as [|a l IH]; [done|]. simpl. intros [-> H]%andb_true_iff. by rewrite IH. Qed.

Example utf8_lossy_examples :
  utf8_lossy [x41; xe2; x82; xac; xff; x42] = [x41; xe2; x82; xac; xef; xbf; xbd; x42] /\
  utf8_lossy [xf0; x9f; x98; x20; xe2] = [xef; xbf; xbd; x20; xef; xbf; xbd] /\
  utf8_lossy [xed; xa0; x80] = [xef; xbf; xbd; xef; xbf; xbd; xef; xbf; xbd].
Proof. by vm_compute. Qed.

(** * Numbers in text

    What [from_str_radix], [parse] and the formatting of fixed-width hexadecimal
    do, and that they undo each other. *)
(** ** Numbers in text *)
(** [char::from_digit(n, 16)]. *)
Definition hex_digit (n : Z) : byte := z2b (if n <? 10 then 48 + n else 87 + n).

(** The last [w] hexadecimal digits: [{:08x}] of a [u32], [{:016x}] of a [u64]. *)
Fixpoint hex_fixed (w : nat) (z : Z) : list byte :=
  match w with
  | O => []
  | S w => hex_fixed w (z / 16) ++ [hex_digit (z mod 16)]
  end.

Fixpoint radix_value (radix max acc : Z) (l : list byte) : option Z :=
  match l with
  | [] => Some acc
  | b :: l =>
      d ← Ip.digit radix b;
      if max <? acc * radix + d then None else radix_value radix max (acc * radix + d) l
  end.

(** [from_str_radix] of an unsigned type with the given maximum. *)
Definition parse_uint (radix max : Z) (l : list byte) : option Z :=
  let ds := match l with b :: t => if decide (b = "+"%byte) then t else l | [] => [] end in
  if bool_decide (ds = []) then None else radix_value radix max 0 ds.

(** ** Numbers read back *)
Definition is_hex (b : byte) : bool := is_digit b || in_range 97 102 b.

Lemma hex_digit_ok n : 0 <= n < 16 -> Ip.digit 16 (hex_digit n) = Some n /\ is_hex (hex_digit n) = true.
Proof.
  intros Hn. assert (Z.to_nat n ∈ seq 0 16) as Hs by (apply elem_of_seq; lia).
  rewrite <- (Z2Nat.id n) by lia. generalize (Z.to_nat n), Hs. apply Forall_forall.
  repeat (constructor; [by vm_compute|]). constructor.
Qed.

Lemma is_digit_hex b : is_digit b = true -> is_hex b = true.
Proof. unfold is_hex. by intros ->. Qed.

Lemma hex_not b : is_hex b = true -> b <> x20 /\ b <> NEWLINE /\ b <> "+"%byte.
Proof. intros Hb. by split_and!; intros ->. Qed.

Lemma digit_radix_10 b : is_digit b = true -> Ip.digit 10 b = Some (b2z b - 48).
Proof.
  unfold is_digit, Ip.digit, in_range. intros Hb. rewrite Hb. simpl. apply andb_true_iff in Hb as [H1 H2].
  by rewrite (proj2 (Z.ltb_lt _ _)) by lia.
Qed.

Lemma radix_value_digits max acc l v :
  Forall (fun b => is_digit b = true) l -> 0 <= acc -> digits_value acc l = Some v -> v <= max ->
  radix_value 10 max acc l = Some v.
Proof.
  intros Hl. revert acc. induction Hl as [|b l Hb Hl IH]; intros acc Ha; cbn [digits_value radix_value]; [done|].
  rewrite Hb. intros E Hv. rewrite digit_radix_10 by done. cbn [mbind option_bind].
  assert (0 <= acc * 10 + (b2z b - 48)) as Hge by (unfold is_digit in Hb; lia).
  pose proof (digits_value_ge _ _ _ Hge E). rewrite (proj2 (Z.ltb_ge _ _)) by lia. by apply IH.
Qed.

Lemma parse_uint_nosign radix max l :
  l <> [] -> Forall (fun b => is_hex b = true) l -> parse_uint radix max l = radix_value radix max 0 l.
Proof.
  intros Hne Hl. unfold parse_uint. destruct Hl as [|b l Hb Hl]; [done|].
  rewrite decide_False by (by apply hex_not). by rewrite bool_decide_eq_false_2.
Qed.

Lemma decimal_hex z : Forall (fun b => is_hex b = true) (decimal z).
Proof. eapply Forall_impl; [apply decimal_digits|]. intros b. apply is_digit_hex. Qed.

Lemma parse_decimal_uint max z : 0 <= z <= max -> max <= U64_MAX -> parse_uint 10 max (decimal z) = Some z.
Proof.
  intros Hz Hm. rewrite parse_uint_nosign; [|apply decimal_digits|apply decimal_hex].
  apply radix_value_digits; [apply decimal_digits|done|apply decimal_value; lia|lia].
Qed.

Lemma hex_fixed_chars w z : 0 <= z -> Forall (fun b => is_hex b = true) (hex_fixed w z).
Proof.
  revert z. induction w as [|w IH]; intros z Hz; simpl; [constructor|]. apply Forall_app. split.
  - apply IH. apply Z.div_pos; lia.
  - apply Forall_singleton, hex_digit_ok. apply Z.mod_pos_bound. lia.
Qed.

Lemma radix_value_app radix max acc a b :
  radix_value radix max acc (a ++ b) = (v ← radix_value radix max acc a; radix_value radix max v b).
Proof.
  revert acc. induction a as [|x a IH]; intros acc; simpl; [done|].
  destruct (Ip.digit radix x) as [d|]; simpl; [|done]. by destruct (max <? _).
Qed.

Lemma hex_fixed_value w z max :
  0 <= z < 16 ^ Z.of_nat w -> z <= max -> radix_value 16 max 0 (hex_fixed w z) = Some z.
Proof.
  revert z. induction w as [|w IH]; intros z Hz Hm.
  - change (16 ^ Z.of_nat 0) with 1 in Hz. simpl. f_equal. lia.
  - rewrite Nat2Z.inj_succ, Z.pow_succ_r in Hz by lia. cbn [hex_fixed].
    pose proof (Z.div_mod z 16 ltac:(lia)). pose proof (Z.mod_pos_bound z 16 ltac:(lia)).
    rewrite radix_value_app, IH; [|split; [apply Z.div_pos; lia|apply Z.div_lt_upper_bound; lia]|
      apply Z.div_le_upper_bound; lia].
    cbn [mbind option_bind radix_value]. destruct (hex_digit_ok (z mod 16)) as [-> _]; [done|].
    cbn [mbind option_bind]. rewrite (proj2 (Z.ltb_ge _ _)) by lia. f_equal. lia.
Qed.

Lemma parse_hex_fixed w z max :
  (0 < w)%nat -> 0 <= z < 16 ^ Z.of_nat w -> z <= max -> parse_uint 16 max (hex_fixed w z) = Some z.
Proof.
  intros Hw Hz Hm. rewrite parse_uint_nosign; [by apply hex_fixed_value| |apply hex_fixed_chars; lia].
  destruct w as [|w]; [lia|]. simpl. by destruct (hex_fixed w (z / 16)).
Qed.

(** A number that was read is in range. *)
Lemma digit_nonneg radix b d : Ip.digit radix b = Some d -> 0 <= d.
Proof.
  unfold Ip.digit, in_range. cbv zeta. intros (x & Hx & H)%bind_Some. destruct (x <? radix); [|done]. injection H as <-.
  destruct ((48 <=? b2z b) && _) eqn:E1; [injection Hx; lia|]. destruct ((97 <=? b2z b) && _) eqn:E2; [injection Hx; lia|].
  destruct ((65 <=? b2z b) && _) eqn:E3; [injection Hx; lia|done].
Qed.

Lemma radix_value_range radix max acc l v :
  0 <= radix -> 0 <= acc <= max -> radix_value radix max acc l = Some v -> 0 <= v <= max.
Proof.
  intros Hr. revert acc. induction l as [|b l IH]; intros acc Ha; cbn [radix_value]; [by intros [= <-]|].
  intros (d & Hd%digit_nonneg & H)%bind_Some. destruct (max <? acc * radix + d) eqn:E; [done|].
  apply (IH (acc * radix + d)); [|done]. nia.
Qed.

Lemma parse_uint_range radix max l v : 0 <= radix -> 0 <= max -> parse_uint radix max l = Some v -> 0 <= v <= max.
Proof.
  intros Hr Hm. unfold parse_uint. cbv zeta. destruct (bool_decide _); [done|]. apply radix_value_range; lia.
Qed.
