(* ===== verification/Partition.v ===== *)
(** * Sites, origins and partition keys (px-net/src/psl.rs, px-net/src/partition.rs)

    The public suffix list and the registrable domain it yields, origins, and
    the [PartitionKey] that every piece of stored state is filed under. *)
From S2P Require Import Prelude Bytes OrdMap Text.
Local Open Scope Z_scope.

(** The trait through which a component asks for the site of a host. *)
Class SiteResolver (T : Type) := site_of : T -> list byte -> option (list byte).

(** ** The public suffix list *)
Module Psl.
Inductive RuleKind := Normal | Wildcard | Exception.

Inductive PslError := Empty.

Record PublicSuffixList := { rules : btree (list byte) RuleKind }.

Definition parse_line (line : list byte) : RuleKind * list byte :=
  match strip_prefix (lit "!") line with
  | Some rest => (Exception, rest)
  | None =>
      match strip_prefix (lit "*.") line with
      | Some rest => (Wildcard, rest)
      | None => (Normal, line)
      end
  end.

Definition add_line (rules : btree (list byte) RuleKind) (line : list byte)
  : btree (list byte) RuleKind :=
  let line := trim line in
  if bool_decide (line = []) || has_prefix (lit "//") line then rules
  else
    let '(kind, body) := parse_line line in
    if bool_decide (body = []) then rules
    else bt_insert rules (to_ascii_lowercase body) kind.

Definition parse (text : list byte) : result PslError PublicSuffixList :=
  let rules := foldl add_line [] (lines text) in
  if bool_decide (rules = []) then Err Empty else Ok {| rules := rules |}.

Definition psl_len (p : PublicSuffixList) : Z := len (rules p).
Definition psl_is_empty (p : PublicSuffixList) : bool := bool_decide (rules p = []).

(** The walk over suffixes, longest first.  [tails] are the labels from the
    current start on; the result is the length in labels of the public
    suffix, if a rule decided it. *)
Fixpoint find_suffix (p : PublicSuffixList) (tails : list (list byte)) : option Z :=
  match tails with
  | [] => None
  | _ :: tl =>
      match bt_get (rules p) (join_with DOT tails) with
      | Some Exception => Some (len tails - 1)
      | Some Wildcard => Some (len tails + 1)
      | Some Normal => Some (len tails)
      | None => find_suffix p tl
      end
  end.

Definition registrable_domain (p : PublicSuffixList) (host : list byte) : option (list byte) :=
  let host := to_ascii_lowercase (trim_end_matches DOT host) in
  if bool_decide (host = []) || has_prefix [DOT] host || contains (lit "..") host then None
  else if Ip.is_ip_addr host || has_prefix (lit "[") host then None
  else
    let labels := split_on DOT host in
    if existsb (fun label => bool_decide (label = [])) labels then None
    else
      let suffix_labels := default 1 (find_suffix p labels) in
      if len labels <=? suffix_labels then None
      else
        let start := len labels - (suffix_labels + 1) in
        tail ← get_from labels start;
        Some (join_with DOT tail).
End Psl.

#[export] Instance psl_resolver : SiteResolver Psl.PublicSuffixList := Psl.registrable_domain.

(** ** Origins *)
Module Origin.
Record t := { scheme : list byte; host : list byte; port : Z }.

#[global] Instance eq_dec : EqDecision t.
Proof. solve_decision. Defined.

Definition new (scheme host : list byte) (port : Z) : option t :=
  let scheme := to_ascii_lowercase (trim scheme) in
  let host := to_ascii_lowercase (trim_end_matches DOT (trim host)) in
  if bool_decide (scheme = []) || bool_decide (host = []) then None
  else if negb (bool_decide (scheme = lit "https")) && negb (bool_decide (scheme = lit "http"))
  then None
  else if contains (lit "..") host || has_prefix [DOT] host then None
  else if negb (is_ascii host) then None
  else Some {| scheme := scheme; host := host; port := port |}.

Definition is_secure (o : t) : bool := bool_decide (scheme o = lit "https").
End Origin.

(** ** Partition keys *)
Module PartitionKey.
Record t := { top_level_site : list byte; origin : Origin.t }.

#[global] Instance eq_dec : EqDecision t.
Proof. solve_decision. Defined.

(** The only constructor: it goes through the resolver. *)
Definition new {T} `{SiteResolver T} (psl : T) (top_level_host : list byte) (o : Origin.t)
  : option t :=
  site ← site_of psl top_level_host;
  Some {| top_level_site := site; origin := o |}.

Definition same_top_level (a b : t) : bool :=
  bool_decide (top_level_site a = top_level_site b).
End PartitionKey.

(** ** Well-formed origins and keys *)
(** What [Origin::new] guarantees of an origin. *)
Definition origin_ok (o : Origin.t) : Prop :=
  (Origin.scheme o = lit "https" \/ Origin.scheme o = lit "http") /\
  Origin.host o <> [] /\ is_ascii (Origin.host o) = true /\ 0 <= Origin.port o <= U16_MAX.

(** A key whose site is a non-empty ASCII string, over such an origin. *)
Definition key_ok (k : PartitionKey.t) : Prop :=
  PartitionKey.top_level_site k <> [] /\ is_ascii (PartitionKey.top_level_site k) = true /\
  origin_ok (PartitionKey.origin k).

(** ** The walk over suffixes *)
Section psl.
Context (p : Psl.PublicSuffixList).
Implicit Types (labels : list (list byte)).

Definition rule_at labels (n : nat) : option Psl.RuleKind :=
  bt_get (Psl.rules p) (join_with DOT (drop n labels)).

(** Labels in front of which no rule starts do not matter. *)
Lemma find_suffix_tail labels k :
  (forall m, (m < k)%nat -> rule_at labels m = None) ->
  Psl.find_suffix p (drop k labels) = Psl.find_suffix p labels.
Proof.
  revert labels. induction k as [|k IH]; intros labels H; [done|].
  destruct labels as [|l labels]; [done|]. simpl. rewrite (IH labels).
  - specialize (H 0%nat ltac:(lia)). unfold rule_at in H. simpl in H. by rewrite H.
  - intros m Hm. specialize (H (S m) ltac:(lia)). done.
Qed.

(** A verdict comes from the first rule met, and its length is at most one
    label more than that rule's. *)
Lemma find_suffix_Some labels s :
  Psl.find_suffix p labels = Some s ->
  exists n, (n < length labels)%nat /\ (forall m, (m < n)%nat -> rule_at labels m = None) /\
    len labels - Z.of_nat n - 1 <= s <= len labels - Z.of_nat n + 1.
Proof.
  induction labels as [|l labels IH]; [done|]. cbn [Psl.find_suffix].
  assert (bt_get (Psl.rules p) (join_with DOT (l :: labels)) = None ->
    Psl.find_suffix p labels = Some s -> exists n, (n < length (l :: labels))%nat /\
      (forall m, (m < n)%nat -> rule_at (l :: labels) m = None) /\
      len (l :: labels) - Z.of_nat n - 1 <= s <= len (l :: labels) - Z.of_nat n + 1) as Hskip.
  { intros E (n & Hn & H1 & H2)%IH. exists (S n). rewrite len_cons. simpl length.
    split_and!; [lia| |lia..]. intros [|m] Hm; [done|]. apply (H1 m). lia. }
  destruct (bt_get _ _) as [[]|] eqn:E; [..|by apply Hskip];
    intros [= <-]; exists 0%nat; simpl length; (split_and!; [lia|lia|lia..]).
Qed.

Lemma find_suffix_None labels m :
  Psl.find_suffix p labels = None -> (m < length labels)%nat -> rule_at labels m = None.
Proof.
  revert m. induction labels as [|l labels IH]; intros m; simpl; [lia|].
  destruct (bt_get _ _) as [[]|] eqn:E; try done. intros H Hm.
  destruct m as [|m]; [done|]. apply IH; [done|lia].
Qed.

(** Cutting the host down to its registrable domain keeps the verdict. *)
Lemma find_suffix_registrable labels s :
  s = default 1 (Psl.find_suffix p labels) -> s < len labels ->
  Psl.find_suffix p (drop (Z.to_nat (len labels - (s + 1))) labels) = Psl.find_suffix p labels.
Proof.
  intros Hs Hlt. apply find_suffix_tail. intros m Hm.
  destruct (Psl.find_suffix p labels) as [s'|] eqn:E; simpl in Hs; subst s.
  - apply find_suffix_Some in E as (n & Hn & Hnone & Hb). apply Hnone. lia.
  - apply find_suffix_None; [done|]. unfold len in *. lia.
Qed.
End psl.

(** The host as the list sees it, and when it names something registrable. *)
Definition psl_host (host : list byte) : list byte := to_ascii_lowercase (trim_end_matches DOT host).

Definition psl_host_ok (host : list byte) : bool :=
  negb (bool_decide (host = []) || has_prefix [DOT] host || contains (lit "..") host) &&
  negb (Ip.is_ip_addr host || has_prefix (lit "[") host) &&
  negb (existsb (fun label => bool_decide (label = [])) (split_on DOT host)).

Lemma registrable_domain_eq p host :
  Psl.registrable_domain p host =
    let h := psl_host host in
    let labels := split_on DOT h in
    let s := default 1 (Psl.find_suffix p labels) in
    if psl_host_ok h && (s <? len labels) && (-1 <=? s)
    then Some (join_with DOT (drop (Z.to_nat (len labels - (s + 1))) labels)) else None.
Proof.
  unfold Psl.registrable_domain, psl_host_ok. fold (psl_host host). cbv zeta.
  destruct (bool_decide _ || _ || _); [done|]. destruct (Ip.is_ip_addr _ || _); [done|].
  destruct (existsb _ _); [done|]. simpl. set (s := default 1 _).
  destruct (s <? _) eqn:Hs; simpl; [|by rewrite (proj2 (Z.leb_le _ _)) by lia].
  rewrite (proj2 (Z.leb_gt _ _)) by lia. unfold get_from.
  destruct (-1 <=? s) eqn:Hs'.
  - by rewrite decide_True by lia.
  - exfalso. unfold s in *. destruct (Psl.find_suffix _ _) as [s'|] eqn:E; simpl in *; [|lia].
    apply find_suffix_Some in E as (n & Hn & _ & Hb). unfold len in *. lia.
Qed.

Lemma registrable_domain_inv p host d :
  Psl.registrable_domain p host = Some d ->
  let labels := split_on DOT (psl_host host) in
  let s := default 1 (Psl.find_suffix p labels) in
  psl_host_ok (psl_host host) = true /\ -1 <= s < len labels /\
  d = join_with DOT (drop (Z.to_nat (len labels - (s + 1))) labels).
Proof.
  rewrite registrable_domain_eq. cbv zeta. destruct (psl_host_ok _); simpl; [|done].
  destruct (_ <? _) eqn:?; simpl; [|done]. destruct (-1 <=? _) eqn:?; [|done].
  intros [= <-]. split_and!; [done|lia..|done].
Qed.

Lemma psl_host_labels host labels l :
  psl_host_ok host = true -> labels = split_on DOT host -> l ∈ labels -> l <> [] /\ DOT ∉ l.
Proof.
  intros Hok -> Hl. split; [|by eapply split_on_nosep]. intros ->.
  unfold psl_host_ok in Hok. apply andb_true_iff in Hok as [_ Hok].
  apply negb_true_iff in Hok. rewrite (proj2 (existsb_exists _ _)) in Hok; [done|].
  exists []. split; [by apply list_elem_of_In|]. by rewrite bool_decide_eq_true_2.
Qed.

Lemma is_ascii_app a b : is_ascii (a ++ b) = is_ascii a && is_ascii b.
Proof. apply forallb_app. Qed.

Lemma lower_app a b : to_ascii_lowercase (a ++ b) = to_ascii_lowercase a ++ to_ascii_lowercase b.
Proof. apply map_app. Qed.

(** The registrable domain is a suffix of the host, cut at a label boundary. *)
Lemma registrable_domain_suffix p host d :
  Psl.registrable_domain p host = Some d ->
  d <> [] /\ (psl_host host = d \/ exists pre, psl_host host = pre ++ DOT :: d).
Proof.
  intros H. apply registrable_domain_inv in H as (Hok & Hs & ->).
  set (labels := split_on DOT (psl_host host)) in *. set (s := default 1 _) in *.
  assert (0 <= s) as Hs0.
  { unfold s. destruct (Psl.find_suffix p labels) as [s'|] eqn:E; simpl; [|lia].
    apply find_suffix_Some in E as (n & Hn & _ & Hb). unfold len in *. lia. }
  set (k := Z.to_nat _). assert (k < length labels)%nat as Hk by (unfold k, len in *; lia).
  split.
  - destruct (lookup_lt_is_Some_2 labels k Hk) as [l Hl].
    apply join_nonempty with l; [|].
    + apply list_elem_of_lookup. exists 0%nat. rewrite lookup_drop, Nat.add_0_r. done.
    + eapply (psl_host_labels _ labels); [done..|]. by eapply list_elem_of_lookup_2.
  - rewrite <- (join_split DOT (psl_host host)). fold labels.
    clearbody k. destruct k as [|k]; [by left|]. right. apply join_drop. lia.
Qed.

Lemma registrable_domain_ascii p host d :
  Psl.registrable_domain p host = Some d -> is_ascii host = true -> is_ascii d = true.
Proof.
  intros [_ Hd]%registrable_domain_suffix Ha.
  assert (is_ascii (psl_host host) = true) as Hh.
  { unfold psl_host. rewrite is_ascii_lower.
    destruct (trim_end_matches_spec DOT host) as [k E]. rewrite E, is_ascii_app in Ha.
    by apply andb_true_iff in Ha as [? _]. }
  destruct Hd as [<-|[pre E]]; [done|]. rewrite E, is_ascii_app in Hh.
  apply andb_true_iff in Hh as [_ Hh]. by apply andb_true_iff in Hh as [_ Hh].
Qed.

Lemma contains_app_r q a b : contains q (a ++ b) = false -> contains q b = false.
Proof.
  induction a as [|x a IH]; [done|]. cbn [app contains]. intros [_ H]%orb_false_iff. auto.
Qed.

Lemma last_lower l : last (to_ascii_lowercase l) = ascii_lower_byte <$> last l.
Proof. apply fmap_last. Qed.

Lemma ascii_lower_dot b : ascii_lower_byte b = DOT <-> b = DOT.
Proof. destruct b; vm_compute; split; congruence. Qed.

Lemma psl_host_last host : last (psl_host host) <> Some DOT.
Proof.
  unfold psl_host. rewrite last_lower. intros (b & E & Hb)%fmap_Some.
  symmetry in Hb. apply ascii_lower_dot in Hb as ->. by apply trim_end_matches_last in E.
Qed.

Lemma psl_host_lower host : to_ascii_lowercase (psl_host host) = psl_host host.
Proof. unfold psl_host. apply to_ascii_lowercase_idem. Qed.

(** A non-empty label suffix of a normalised host is itself normalised. *)
Lemma psl_host_suffix host d :
  d <> [] -> psl_host host = d \/ (exists pre, psl_host host = pre ++ DOT :: d) -> psl_host d = d.
Proof.
  intros Hne Hd. pose proof (psl_host_last host) as Hl. pose proof (psl_host_lower host) as Hlow.
  destruct Hd as [<-|[pre E]].
  - unfold psl_host at 1. rewrite trim_end_matches_id by done. apply psl_host_lower.
  - rewrite E in *. rewrite lower_app in Hlow. apply app_inj_1 in Hlow as [_ Hlow];
      [|unfold to_ascii_lowercase; by rewrite length_map].
    injection Hlow as Hlow. unfold psl_host. rewrite trim_end_matches_id; [done|].
    intros Hd. apply Hl. destruct d as [|x d]; [done|]. rewrite last_app. simpl in *. by rewrite Hd.
Qed.

Lemma registrable_domain_host_ok p host d :
  Psl.registrable_domain p host = Some d ->
  Ip.is_ip_addr d = false -> has_prefix (lit "[") d = false -> psl_host_ok d = true.
Proof.
  intros H Hip Hbr. pose proof (registrable_domain_suffix _ _ _ H) as [Hne Hd].
  apply registrable_domain_inv in H as (Hok & Hs & Ed).
  destruct Hd as [<-|[pre E]]; [done|].
  pose proof Hok as Hok'. unfold psl_host_ok in Hok' |- *. rewrite Hip, Hbr.
  apply andb_true_iff in Hok' as [Hok1 Hok3]. apply andb_true_iff in Hok1 as [Hok1 _].
  apply negb_true_iff, orb_false_iff in Hok1 as [_ Hdd].
  rewrite bool_decide_eq_false_2 by done. rewrite E in Hdd.
  rewrite (contains_app_r _ (pre ++ [DOT]) d) by (by rewrite <- app_assoc).
  assert (has_prefix [DOT] d = false) as ->.
  { apply contains_app_r in Hdd. destruct d as [|x d]; [done|].
    unfold has_prefix. cbn [strip_prefix]. destruct (decide (x = DOT)) as [->|Hx].
    - cbn [contains] in Hdd. by apply orb_false_iff in Hdd as [? _].
    - rewrite (bool_decide_eq_false_2 (x = DOT)) by done.
      apply bool_decide_eq_false_2. by intros [? [=]]. }
  simpl. apply negb_true_iff. apply not_true_is_false. intros (l & Hl & Hl0)%existsb_exists.
  apply bool_decide_eq_true in Hl0 as ->. apply list_elem_of_In in Hl.
  set (labels := split_on DOT (psl_host host)) in *.
  rewrite Ed, split_join in Hl.
  - apply list_elem_of_lookup in Hl as [i Hl]. rewrite lookup_drop in Hl.
    apply list_elem_of_lookup_2 in Hl. by eapply psl_host_labels in Hl as [? _].
  - intros Hn. by rewrite Ed, Hn in Hne.
  - apply split_on_drop_nosep.
Qed.

(** ** The properties *)

(** the site of a host is a suffix of the (lowercased) host cut at a label
    boundary, and it is canonical: unless it happens to look like an address
    literal, the site of the site is the site itself.  Two hosts therefore share
    a partition only when both are that site or lie below it. *)
Theorem registrable_domain_canonical p host d :
  Psl.registrable_domain p host = Some d ->
  Ip.is_ip_addr d = false -> has_prefix (lit "[") d = false ->
  (psl_host host = d \/ exists pre, psl_host host = pre ++ DOT :: d) /\
  Psl.registrable_domain p d = Some d.
Proof.
  intros H Hip Hbr. pose proof (registrable_domain_suffix _ _ _ H) as [Hne Hd]. split; [done|].
  pose proof (registrable_domain_host_ok _ _ _ H Hip Hbr) as Hok.
  rewrite registrable_domain_eq. cbv zeta. rewrite (psl_host_suffix host d) by done. rewrite Hok.
  apply registrable_domain_inv in H as (Hok' & Hs & Ed).
  set (labels := split_on DOT (psl_host host)) in *.
  assert (split_on DOT d = drop (Z.to_nat (len labels -
    (default 1 (Psl.find_suffix p labels) + 1))) labels) as ->.
  { rewrite Ed. apply split_join; [by intros Hn; rewrite Ed, Hn in Hne|].
    apply split_on_drop_nosep. }
  rewrite find_suffix_registrable by (done || lia). set (s := default 1 _) in *.
  assert (len (drop (Z.to_nat (len labels - (s + 1))) labels) = s + 1) as ->.
  { unfold len in *. rewrite length_drop. lia. }
  rewrite (proj2 (Z.ltb_lt _ _)) by lia. rewrite (proj2 (Z.leb_le _ _)) by lia. simpl.
  replace (s + 1 - (s + 1)) with 0 by lia. simpl. by rewrite drop_0, <- Ed.
Qed.

Definition sample_psl : Psl.PublicSuffixList :=
  match Psl.parse (lit "com
// a comment
*.ck
!www.ck
co.uk
github.io
") with Ok p => p | Err _ => {| Psl.rules := [] |} end.

Example sample_sites :
  map (fun h => Psl.registrable_domain sample_psl (lit h))
    ["a.b.example.com"; "com"; "x.y.ck"; "y.ck"; "a.www.ck"; "Foo.GitHub.io."; "10.0.0.1"; "a.unknown"]%string
  = [Some (lit "example.com"); None; Some (lit "x.y.ck"); None; Some (lit "www.ck");
     Some (lit "foo.github.io"); None; Some (lit "a.unknown")].
Proof. by vm_compute. Qed.

Lemma registrable_domain_canonical_witness :
  Psl.registrable_domain sample_psl (lit "foo.github.io") = Some (lit "foo.github.io").
Proof.
  apply (registrable_domain_canonical sample_psl (lit "a.b.foo.github.io") (lit "foo.github.io"));
    by vm_compute.
Defined.

Lemma origin_new_ok scheme host port o :
  0 <= port <= U16_MAX -> Origin.new scheme host port = Some o -> origin_ok o.
Proof.
  intros Hport Ho. unfold Origin.new in Ho. cbv zeta in Ho.
  destruct (bool_decide _ || bool_decide (_ = [])) eqn:E1; [done|].
  apply orb_false_iff in E1 as [_ E1%bool_decide_eq_false].
  destruct (negb (bool_decide _) && _) eqn:E2; [done|].
  destruct (contains _ _ || _); [done|]. destruct (is_ascii _) eqn:E3; [|done]. simplify_eq/=.
  split_and!; simpl; try done; [|lia..].
  apply andb_false_iff in E2 as [E2|E2]; apply negb_false_iff, bool_decide_eq_true in E2; auto.
Qed.

(** every origin built by [Origin::new] has scheme http or https and a
    non-empty ASCII host, and every partition key derived from an ASCII
    top-level host over such an origin has a non-empty ASCII site: the keys a
    caller can build satisfy what the store's encoding needs. *)
Theorem partition_key_well_formed psl scheme host port o top k :
  0 <= port <= U16_MAX -> Origin.new scheme host port = Some o ->
  PartitionKey.new psl top o = Some k -> is_ascii top = true ->
  key_ok k /\ PartitionKey.origin k = o.
Proof.
  intros Hport Ho Hk Htop. unfold PartitionKey.new, site_of, psl_resolver in Hk.
  apply bind_Some in Hk as (site & Hsite & [= <-]). split; [|done].
  pose proof (registrable_domain_suffix _ _ _ Hsite) as [Hne _].
  split_and!; simpl; [done|by eapply registrable_domain_ascii|by eapply origin_new_ok].
Qed.

Lemma partition_key_well_formed_witness :
  exists o k, Origin.new (lit " HTTPS") (lit "CDN.example.com.") 443 = Some o /\
    PartitionKey.new sample_psl (lit "news.example.com") o = Some k /\ key_ok k /\
    PartitionKey.origin k = o.
Proof.
  exists {| Origin.scheme := lit "https"; Origin.host := lit "cdn.example.com"; Origin.port := 443 |}.
  exists {| PartitionKey.top_level_site := lit "example.com";
       PartitionKey.origin := {| Origin.scheme := lit "https"; Origin.host := lit "cdn.example.com";
         Origin.port := 443 |} |}.
  split; [by vm_compute|]. split; [by vm_compute|].
  apply (partition_key_well_formed sample_psl (lit " HTTPS") (lit "CDN.example.com.") 443 _
    (lit "news.example.com") _); by vm_compute.
Defined.

(** the host that a wildcard rule hangs from has no site: with [*.base] in
    the list, [base] itself is refused, although by the published algorithm the
    rule does not apply to it and the next shorter rule decides. *)
Theorem wildcard_base_refused p host :
  bt_get (Psl.rules p) (psl_host host) = Some Psl.Wildcard ->
  Psl.registrable_domain p host = None.
Proof.
  intros H. rewrite registrable_domain_eq. cbv zeta.
  pose proof (split_on_ne DOT (psl_host host)) as Hne.
  destruct (split_on DOT (psl_host host)) as [|l ls] eqn:E; [done|].
  cbn [Psl.find_suffix]. rewrite <- E, join_split, H. cbn [default from_option id].
  rewrite (proj2 (Z.ltb_ge _ _)) by lia. by rewrite andb_false_r.
Qed.

Definition aiven_psl : Psl.PublicSuffixList :=
  match Psl.parse (lit "com
*.aivencloud.com
") with Ok p => p | Err _ => {| Psl.rules := [] |} end.

Lemma wildcard_base_refused_witness :
  Psl.registrable_domain aiven_psl (lit "aivencloud.com") = None.
Proof. apply (wildcard_base_refused aiven_psl). by vm_compute. Defined.
