(* ===== verification/Checksum.v ===== *)
(** * Checksums (px-store/src/checksum.rs)

    The bitwise CRC-32 and the 64-bit FNV-1a hash, with the incremental laws the
    callers rely on and what the two functions detect: every change of a single
    byte of an input of the same length. *)
From S2P Require Import Prelude Bytes.
Local Open Scope Z_scope.

Definition CRC_POLY : Z := 0xEDB88320.
Definition not32 (c : Z) : Z := Z.lxor c U32_MAX.

(** One round of the inner loop. *)
Definition crc_bit (c : Z) : Z :=
  if negb (Z.land c 1 =? 0) then Z.lxor (Z.shiftr c 1) CRC_POLY else Z.shiftr c 1.

(** One round of the outer loop: the byte is mixed in, then eight shifts. *)
Definition crc_byte (c : Z) (b : byte) : Z := Nat.iter 8 crc_bit (Z.lxor c (b2z b)).

Definition crc32_update (previous : Z) (data : list byte) : Z :=
  not32 (foldl crc_byte (not32 previous) data).

Definition crc32 (data : list byte) : Z := crc32_update 0 data.

Definition FNV_OFFSET : Z := 0xcbf29ce484222325.
Definition FNV_PRIME : Z := 0x00000100000001b3.
Definition wrapping_mul64 (a b : Z) : Z := (a * b) mod 2 ^ 64.
Definition fnv_byte (hash : Z) (b : byte) : Z := wrapping_mul64 (Z.lxor hash (b2z b)) FNV_PRIME.

Definition fnv1a64_update (hash : Z) (data : list byte) : Z := foldl fnv_byte hash data.

Definition fnv1a64 (data : list byte) : Z := fnv1a64_update FNV_OFFSET data.

(** ** Words *)
Definition word (w : Z) (c : Z) : Prop := 0 <= c < 2 ^ w.

Lemma word_bits w c : 0 <= w -> word w c <-> 0 <= c /\ forall i, w <= i -> Z.testbit c i = false.
Proof.
  intros Hw. unfold word. split.
  - intros [H0 H1]. split; [done|]. intros i Hi.
    destruct (decide (c = 0)) as [->|Hc]; [apply Z.bits_0|].
    apply Z.bits_above_log2; [done|].
    apply Z.lt_le_trans with w; [|done]. apply Z.log2_lt_pow2; lia.
  - intros [H0 H1]. split; [done|].
    destruct (decide (c = 0)) as [->|Hc]; [by apply Z.pow_pos_nonneg|].
    apply Z.log2_lt_pow2; [lia|].
    destruct (decide (Z.log2 c < w)) as [|Hn]; [done|].
    specialize (H1 (Z.log2 c) ltac:(lia)). rewrite Z.bit_log2 in H1; [done|lia].
Qed.

Lemma word_lxor w a b : 0 <= w -> word w a -> word w b -> word w (Z.lxor a b).
Proof.
  intros Hw [Ha Ha']%word_bits [Hb Hb']%word_bits; [|done..].
  apply word_bits; [done|]. split; [by apply Z.lxor_nonneg|].
  intros i Hi. rewrite Z.lxor_spec, Ha', Hb' by done. done.
Qed.

Lemma word_byte w b : 8 <= w -> word w (b2z b).
Proof.
  intros Hw. unfold word. pose proof (b2z_range b).
  assert (2 ^ 8 <= 2 ^ w) by (apply Z.pow_le_mono_r; lia). lia.
Qed.

Lemma word_half w c : 0 <= w -> word (w + 1) c -> word w (Z.shiftr c 1).
Proof.
  unfold word. intros Hw [? ?]. rewrite Z.shiftr_div_pow2 by lia.
  rewrite Z.pow_add_r in * by lia. change (2 ^ 1) with 2 in *.
  split; [apply Z.div_pos; lia|]. apply Z.div_lt_upper_bound; lia.
Qed.

Lemma lxor_cancel a b c : Z.lxor a c = Z.lxor b c -> a = b.
Proof.
  intros H. apply (f_equal (fun z => Z.lxor z c)) in H.
  by rewrite !Z.lxor_assoc, Z.lxor_nilpotent, !Z.lxor_0_r in H.
Qed.

Lemma lxor_cancel_l a b c : Z.lxor c a = Z.lxor c b -> a = b.
Proof. rewrite !(Z.lxor_comm c). apply lxor_cancel. Qed.

Lemma not32_invol c : not32 (not32 c) = c.
Proof. unfold not32. by rewrite Z.lxor_assoc, Z.lxor_nilpotent, Z.lxor_0_r. Qed.

Lemma not32_word c : word 32 c -> word 32 (not32 c).
Proof. intros H. apply word_lxor; [done..|]. by split. Qed.

(** ** CRC-32 *)
Lemma land1 c : (Z.land c 1 =? 0) = negb (Z.odd c).
Proof.
  change 1 with (Z.ones 1). rewrite Z.land_ones, Z.pow_1_r, Zmod_odd by lia.
  by destruct (Z.odd c).
Qed.

Lemma crc_bit_word c : word 32 c -> word 32 (crc_bit c).
Proof.
  intros Hc. unfold crc_bit.
  assert (word 32 (Z.shiftr c 1)) as Hs.
  { apply (word_half 31) in Hc; [|done]. unfold word in *. lia. }
  destruct (negb _); [|done]. apply word_lxor; [done..|]. by split.
Qed.

(** The top bit of a shifted register tells which branch was taken, so a round
    can be undone. *)
Definition uncrc_bit (d : Z) : Z :=
  if Z.testbit d 31 then 2 * Z.lxor d CRC_POLY + 1 else 2 * d.

Lemma uncrc_bit_crc_bit c : word 32 c -> uncrc_bit (crc_bit c) = c.
Proof.
  intros Hc. unfold crc_bit, uncrc_bit. rewrite land1, negb_involutive.
  assert (Z.testbit (Z.shiftr c 1) 31 = false) as Ht.
  { rewrite Z.shiftr_spec by done. apply word_bits in Hc as [_ Hc]; [|done]. by apply Hc. }
  assert (c = 2 * Z.shiftr c 1 + Z.b2z (Z.odd c)) as E.
  { rewrite <- Z.div2_spec. apply Z.div2_odd. }
  destruct (Z.odd c) eqn:Ho.
  - rewrite Z.lxor_spec, Ht. simpl. rewrite Z.lxor_assoc, Z.lxor_nilpotent, Z.lxor_0_r.
    by rewrite E at 2.
  - rewrite Ht. simpl in E. lia.
Qed.

Lemma crc_bit_inj c d : word 32 c -> word 32 d -> crc_bit c = crc_bit d -> c = d.
Proof.
  intros Hc Hd E. by rewrite <- (uncrc_bit_crc_bit c), E, uncrc_bit_crc_bit.
Qed.

Lemma crc_iter n c d :
  word 32 c -> word 32 d ->
  word 32 (Nat.iter n crc_bit c) /\
  (Nat.iter n crc_bit c = Nat.iter n crc_bit d -> c = d).
Proof.
  intros Hc Hd. assert (forall x, word 32 x -> forall k, word 32 (Nat.iter k crc_bit x)) as Hw.
  { intros x Hx k. induction k as [|k IH]; [done|]. by apply crc_bit_word. }
  split; [by apply Hw|]. induction n as [|n IH]; simpl; [done|].
  intros E. apply IH, crc_bit_inj; auto.
Qed.

Lemma crc_byte_word c b : word 32 c -> word 32 (crc_byte c b).
Proof.
  intros Hc. apply crc_iter with (d := 0); [|by split].
  apply word_lxor; [done..|]. by apply word_byte.
Qed.

Lemma crc_byte_inj c d a b :
  word 32 c -> word 32 d -> crc_byte c a = crc_byte d b -> Z.lxor c (b2z a) = Z.lxor d (b2z b).
Proof.
  intros Hc Hd. apply crc_iter; (apply word_lxor; [done..|]; by apply word_byte).
Qed.

Lemma crc_fold_word c l : word 32 c -> word 32 (foldl crc_byte c l).
Proof. revert c. induction l as [|b l IH]; simpl; auto using crc_byte_word. Qed.

Lemma crc_fold_inj l c d :
  word 32 c -> word 32 d -> foldl crc_byte c l = foldl crc_byte d l -> c = d.
Proof.
  revert c d. induction l as [|b l IH]; simpl; [done|]. intros c d Hc Hd E.
  apply IH in E; auto using crc_byte_word. apply crc_byte_inj in E; [|done..].
  by apply lxor_cancel in E.
Qed.

Lemma crc32_word l : word 32 (crc32 l).
Proof. apply not32_word, crc_fold_word. by split. Qed.

Lemma crc32_update_word p l : word 32 p -> word 32 (crc32_update p l).
Proof. intros H. apply not32_word, crc_fold_word. by apply not32_word. Qed.

Lemma crc32_update_app p a b :
  crc32_update (crc32_update p a) b = crc32_update p (a ++ b).
Proof. unfold crc32_update. by rewrite not32_invol, foldl_app. Qed.

(** A changed byte anywhere changes the checksum, whatever was fed before. *)
Lemma crc32_update_one_byte p l a b r :
  word 32 p ->
  crc32_update p (l ++ a :: r) = crc32_update p (l ++ b :: r) -> a = b.
Proof.
  intros Hp E. unfold crc32_update in E. apply (f_equal not32) in E.
  rewrite !not32_invol, !foldl_app in E. simpl in E.
  assert (word 32 (foldl crc_byte (not32 p) l)) as Hw by (by apply crc_fold_word, not32_word).
  apply crc_fold_inj in E; auto using crc_byte_word.
  apply crc_byte_inj in E; [|done..]. by apply lxor_cancel_l, b2z_inj in E.
Qed.

(** ** FNV-1a *)
(** The inverse of the prime modulo 2^64, so that the multiplication can be
    undone. *)
Definition FNV_PRIME_INV : Z := 14886173955864302971.

Lemma fnv_byte_inj g h a b :
  word 64 g -> word 64 h -> fnv_byte g a = fnv_byte h b -> Z.lxor g (b2z a) = Z.lxor h (b2z b).
Proof.
  intros Hg Hh E. unfold fnv_byte, wrapping_mul64 in E.
  apply (f_equal (fun z => (z * FNV_PRIME_INV) mod 2 ^ 64)) in E.
  rewrite !Z.mul_mod_idemp_l, <- !Z.mul_assoc in E by done.
  rewrite <- (Z.mul_mod_idemp_r _ (FNV_PRIME * FNV_PRIME_INV)) in E by done.
  rewrite <- (Z.mul_mod_idemp_r (Z.lxor h _) (FNV_PRIME * FNV_PRIME_INV)) in E by done.
  change ((FNV_PRIME * FNV_PRIME_INV) mod 2 ^ 64) with 1 in E. rewrite !Z.mul_1_r in E.
  assert (forall x c, word 64 x -> Z.lxor x (b2z c) mod 2 ^ 64 = Z.lxor x (b2z c)) as Hm.
  { intros x c Hx. apply Z.mod_small. apply (word_lxor 64); [done..|]. by apply word_byte. }
  by rewrite !Hm in E.
Qed.

Lemma fnv_byte_word h b : word 64 (fnv_byte h b).
Proof. by apply Z.mod_pos_bound. Qed.

Lemma fnv_fold_word h l : word 64 h -> word 64 (foldl fnv_byte h l).
Proof. revert h. induction l as [|b l IH]; simpl; auto using fnv_byte_word. Qed.

Lemma fnv_fold_inj l g h :
  word 64 g -> word 64 h -> foldl fnv_byte g l = foldl fnv_byte h l -> g = h.
Proof.
  revert g h. induction l as [|b l IH]; simpl; [done|]. intros g h Hg Hh E.
  apply IH in E; auto using fnv_byte_word. apply fnv_byte_inj in E; [|done..].
  by apply lxor_cancel in E.
Qed.

Lemma fnv1a64_update_app h a b :
  fnv1a64_update (fnv1a64_update h a) b = fnv1a64_update h (a ++ b).
Proof. unfold fnv1a64_update. by rewrite foldl_app. Qed.

Lemma fnv1a64_one_byte l a b r : fnv1a64 (l ++ a :: r) = fnv1a64 (l ++ b :: r) -> a = b.
Proof.
  unfold fnv1a64, fnv1a64_update. rewrite !foldl_app. simpl. intros E.
  assert (word 64 (foldl fnv_byte FNV_OFFSET l)) as Hw by (apply fnv_fold_word; by split).
  apply fnv_fold_inj in E; auto using fnv_byte_word.
  apply fnv_byte_inj in E; [|done..]. by apply lxor_cancel_l, b2z_inj in E.
Qed.

(** ** The properties *)

(** both checksums are incremental (feeding [a] and then [b] is feeding
    [a ++ b]), stay inside their width, and reproduce the published check
    values: CRC-32 of "123456789" and FNV-1a of "", "a" and "foobar". *)
Theorem checksums_incremental :
  (forall a b, crc32_update (crc32 a) b = crc32 (a ++ b)) /\
  (forall a b, fnv1a64_update (fnv1a64 a) b = fnv1a64 (a ++ b)) /\
  (forall a, 0 <= crc32 a < 2 ^ 32 /\ 0 <= fnv1a64 a < 2 ^ 64) /\
  crc32 (lit "123456789") = 0xCBF43926 /\ crc32 [] = 0 /\
  fnv1a64 [] = 0xcbf29ce484222325 /\ fnv1a64 (lit "a") = 0xaf63dc4c8601ec8c /\
  fnv1a64 (lit "foobar") = 0x85944171f73967e8.
Proof.
  split_and!.
  - intros. apply crc32_update_app.
  - intros. apply fnv1a64_update_app.
  - intros a. split; [apply crc32_word|]. apply fnv_fold_word. by split.
  - by vm_compute.
  - by vm_compute.
  - by vm_compute.
  - by vm_compute.
  - by vm_compute.
Qed.

(** each checksum separates any two inputs that differ in exactly one
    byte, wherever that byte is and whatever surrounds it. *)
Theorem checksums_detect_one_byte l a b r :
  a <> b ->
  crc32 (l ++ a :: r) <> crc32 (l ++ b :: r) /\
  fnv1a64 (l ++ a :: r) <> fnv1a64 (l ++ b :: r).
Proof.
  intros Hab. split; intros E; apply Hab.
  - by eapply (crc32_update_one_byte 0 l a b r); [split|].
  - by eapply fnv1a64_one_byte.
Qed.

Lemma checksums_detect_one_byte_witness :
  crc32 (lit "pxsl") <> crc32 (lit "pysl") /\ fnv1a64 (lit "pxsl") <> fnv1a64 (lit "pysl").
Proof. apply (checksums_detect_one_byte (lit "p") "x"%byte "y"%byte (lit "sl")). discriminate. Defined.
