(* ===== verification/Format.v ===== *)
(** * The log format (px-store/src/format.rs)

    The bounds-checked [Reader], the sixteen-byte header, and the records of the
    append-only log: framing, checksum and body.  The module shows that encoding
    and decoding are inverse in both directions, that a record cut short or with
    a damaged byte is never accepted, and what [check_header] accepts. *)
From S2P Require Import Prelude Bytes Checksum.
Local Open Scope Z_scope.

(** ** Constants *)
Definition MAGIC : list byte := lit "PXSL".
Definition VERSION : Z := 1.
Definition HEADER_LEN : Z := 16.
Definition FRAME_LEN : Z := 8.
Definition MAX_KEY_BYTES : Z := 1024.
Definition MAX_VALUE_BYTES : Z := Z.shiftl 1 20.
Definition MAX_PARTITION_ID_BYTES : Z := 1024.
Definition MAX_BODY_BYTES : Z :=
  2 + 2 + MAX_PARTITION_ID_BYTES + 2 + MAX_KEY_BYTES + MAX_VALUE_BYTES.
Definition OP_PUT : byte := x01.
Definition OP_DELETE : byte := x02.

Inductive FormatError :=
| NotAStore
| UnsupportedVersion (version flags : Z)
| BadHeader
| RecordTooLarge.

#[export] Instance FormatError_eq_dec : EqDecision FormatError.
Proof. solve_decision. Defined.

(** ** The cursor *)
Module Reader.
Record t := mk { buf : list byte; pos : Z }.

Definition new (b : list byte) : t := {| buf := b; pos := 0 |}.

(** Take [n] bytes; [None] leaves the cursor where it was. *)
Definition take (n : Z) (r : t) : option (list byte * t) :=
  end_ ← checked_add USIZE_MAX (pos r) n;
  out ← get_range (buf r) (pos r) end_;
  Some (out, {| buf := buf r; pos := end_ |}).

Definition rest (r : t) : list byte * t :=
  (default [] (get_from (buf r) (pos r)), {| buf := buf r; pos := len (buf r) |}).

Definition u8 (r : t) : option (byte * t) :=
  '(s, r) ← take 1 r; b ← head s; Some (b, r).

Definition u16 (r : t) : option (Z * t) :=
  '(s, r) ← take 2 r; Some (from_le s, r).

Definition u32 (r : t) : option (Z * t) :=
  '(s, r) ← take 4 r; Some (from_le s, r).

Definition is_empty (r : t) : bool := pos r >=? len (buf r).
End Reader.

(** ** Header *)
Definition header_bytes : list byte :=
  let h := MAGIC ++ le_bytes 4 VERSION ++ le_bytes 4 0 in
  h ++ le_bytes 4 (crc32 h).

Inductive Header := Fresh | Valid.

(** [starts_with]: is the second list a prefix of the first. *)
Fixpoint starts_with (l p : list byte) : bool :=
  match p, l with
  | [], _ => true
  | b :: p, a :: l => bool_decide (a = b) && starts_with l p
  | _ :: _, [] => false
  end.

Definition check_header (bytes : list byte) : result FormatError Header :=
  if bool_decide (bytes = []) then Ok Fresh
  else
    let canonical := header_bytes in
    if len bytes <? HEADER_LEN then
      if starts_with canonical bytes then Ok Fresh else Err NotAStore
    else
      let r := Reader.new bytes in
      match Reader.take 4 r with
      | Some (m, r) =>
          if bool_decide (m = MAGIC) then
            '(version, r) ← ok_or (Reader.u32 r) BadHeader;
            '(flags, r) ← ok_or (Reader.u32 r) BadHeader;
            if negb (version =? VERSION) || negb (flags =? 0) then
              Err (UnsupportedVersion version flags)
            else
              '(crc, r) ← ok_or (Reader.u32 r) BadHeader;
              covered ← ok_or (get_range bytes 0 12) BadHeader;
              if negb (crc =? crc32 covered) then Err BadHeader else Ok Valid
          else Err NotAStore
      | None => Err NotAStore
      end.

(** ** Records *)
Inductive Op :=
| Put (ns : byte) (pid key value : list byte)
| Delete (ns : byte) (pid key : list byte).

#[export] Instance Op_eq_dec : EqDecision Op.
Proof. solve_decision. Defined.

(** The body of a record: op, ns, pid_len, pid, key_len, key, value. *)
Definition encode_body (code ns : byte) (pid key value : list byte) (pl kl : Z) : list byte :=
  [code; ns] ++ le_bytes 2 pl ++ pid ++ le_bytes 2 kl ++ key ++ value.

(** Framing: length, checksum over the length bytes and the body, body. *)
Definition frame (body : list byte) (l : Z) : list byte :=
  le_bytes 4 l ++ le_bytes 4 (crc32_update (crc32 (le_bytes 4 l)) body) ++ body.

Definition encode_record (op : Op) : result FormatError (list byte) :=
  let '(code, ns, pid, key, value) :=
    match op with
    | Put ns pid key value => (OP_PUT, ns, pid, key, value)
    | Delete ns pid key => (OP_DELETE, ns, pid, key, [])
    end in
  if (len pid >? MAX_PARTITION_ID_BYTES) || (len key >? MAX_KEY_BYTES)
     || (len value >? MAX_VALUE_BYTES)
  then Err RecordTooLarge
  else
    pl ← ok_or (try_from U16_MAX (len pid)) RecordTooLarge;
    kl ← ok_or (try_from U16_MAX (len key)) RecordTooLarge;
    let body := encode_body code ns pid key value pl kl in
    l ← ok_or (try_from U32_MAX (len body)) RecordTooLarge;
    Ok (frame body l).

Inductive Next :=
| End
| Record (op : Op) (used : Z)
| Torn.

Definition parse_body (body : list byte) : option Op :=
  let r := Reader.new body in
  '(code, r) ← Reader.u8 r;
  '(ns, r) ← Reader.u8 r;
  '(pid_len, r) ← Reader.u16 r;
  '(pid, r) ← Reader.take pid_len r;
  '(key_len, r) ← Reader.u16 r;
  '(key, r) ← Reader.take key_len r;
  if (len pid >? MAX_PARTITION_ID_BYTES) || (len key >? MAX_KEY_BYTES) then None
  else
    let '(value, r) := Reader.rest r in
    if bool_decide (code = OP_PUT) && (len value <=? MAX_VALUE_BYTES) then
      Some (Put ns pid key value)
    else if bool_decide (code = OP_DELETE) && bool_decide (value = []) then
      Some (Delete ns pid key)
    else None.

Definition decode_record (buf : list byte) : Next :=
  if bool_decide (buf = []) then End
  else
    let r := Reader.new buf in
    match Reader.u32 r with
    | None => Torn
    | Some (l, r) =>
        match Reader.u32 r with
        | None => Torn
        | Some (crc, r) =>
            if l >? MAX_BODY_BYTES then Torn
            else match Reader.take l r with
                 | None => Torn
                 | Some (body, _) =>
                     if negb (crc =? crc32_update (crc32 (le_bytes 4 l)) body) then Torn
                     else match parse_body body with
                          | Some op => Record op (FRAME_LEN + l)
                          | None => Torn
                          end
                 end
        end
    end.

(** ** The cursor reads the rest of its buffer *)
(** [at_ r s]: the cursor is inside its buffer and [s] is what it has not read. *)
Definition at_ (r : Reader.t) (s : list byte) : Prop :=
  slice_ok (Reader.buf r) /\ 0 <= Reader.pos r <= len (Reader.buf r) /\
  drop (Z.to_nat (Reader.pos r)) (Reader.buf r) = s.

Section reader.
Implicit Types (r : Reader.t) (s a : list byte).

Lemma at_new b : slice_ok b -> at_ (Reader.new b) b.
Proof. intros H. split_and!; simpl; [done..|apply len_nonneg|done]. Qed.

Lemma at_len r s : at_ r s -> len s = len (Reader.buf r) - Reader.pos r.
Proof. intros (_ & Hp & <-). unfold len in *. rewrite length_drop. lia. Qed.

Lemma take_at r a s :
  at_ r (a ++ s) -> exists r', Reader.take (len a) r = Some (a, r') /\ at_ r' s.
Proof.
  intros Hat. pose proof (at_len _ _ Hat) as Hl. destruct Hat as (Hok & Hp & Hd).
  rewrite len_app in Hl. pose proof (len_nonneg a). pose proof (len_nonneg s).
  unfold Reader.take, checked_add.
  rewrite decide_True by (unfold slice_ok, ISIZE_MAX, USIZE_MAX in *; lia).
  simpl. unfold get_range. rewrite decide_True by lia. simpl.
  replace (Reader.pos r + len a - Reader.pos r) with (len a) by lia.
  rewrite Hd, take_len_app. eexists. split; [done|]. split_and!; simpl; [done|lia..|].
  rewrite Z2Nat.inj_add, <- drop_drop, Hd by lia. apply drop_len_app.
Qed.

Lemma take_inv r s n a r' :
  at_ r s -> Reader.take n r = Some (a, r') ->
  exists s', s = a ++ s' /\ len a = n /\ at_ r' s'.
Proof.
  intros (Hok & Hp & Hd) E. unfold Reader.take, checked_add in E.
  case_decide; [|done]. simpl in E. apply bind_Some in E as (out & E & [= -> <-]).
  apply get_range_Some in E as (H1 & H2 & H3 & H4).
  exists (drop (Z.to_nat (Reader.pos r + n)) (Reader.buf r)).
  split_and!; [congruence|lia|]. split_and!; simpl; [done|lia..|done].
Qed.

Lemma take_short r s n : at_ r s -> len s < n -> Reader.take n r = None.
Proof.
  intros Hat Hn. destruct (Reader.take n r) as [[a r']|] eqn:E; [|done].
  destruct (take_inv _ _ _ _ _ Hat E) as (s' & -> & <- & _).
  rewrite len_app in Hn. pose proof (len_nonneg s'). lia.
Qed.

Lemma rest_at r s : at_ r s -> (Reader.rest r).1 = s.
Proof. intros (_ & Hp & Hd). unfold Reader.rest, get_from. by rewrite decide_True. Qed.

Lemma u8_at r b s : at_ r (b :: s) -> exists r', Reader.u8 r = Some (b, r') /\ at_ r' s.
Proof.
  intros H. apply (take_at r [b] s) in H as (r' & E & ?). exists r'.
  unfold Reader.u8. change (len [b]) with 1 in E. by rewrite E.
Qed.

Lemma le_at n r (z : Z) s :
  0 <= z < 256 ^ Z.of_nat n -> at_ r (le_bytes n z ++ s) ->
  exists r', ('(s, r) ← Reader.take (Z.of_nat n) r; Some (from_le s, r)) = Some (z, r') /\ at_ r' s.
Proof.
  intros Hz H. apply take_at in H as (r' & E & ?). exists r'.
  rewrite len_le_bytes in E. rewrite E. simpl. by rewrite from_le_bytes.
Qed.

Lemma u16_at r z s :
  0 <= z < 2 ^ 16 -> at_ r (le_bytes 2 z ++ s) -> exists r', Reader.u16 r = Some (z, r') /\ at_ r' s.
Proof. apply (le_at 2). Qed.
Lemma u32_at r z s :
  0 <= z < 2 ^ 32 -> at_ r (le_bytes 4 z ++ s) -> exists r', Reader.u32 r = Some (z, r') /\ at_ r' s.
Proof. apply (le_at 4). Qed.

Lemma u8_inv r s b r' : at_ r s -> Reader.u8 r = Some (b, r') -> exists s', s = b :: s' /\ at_ r' s'.
Proof.
  intros Hat E. unfold Reader.u8 in E. inv_bind E. destruct x as [a r1]. simpl in E. inv_bind E.
  destruct (take_inv _ _ _ _ _ Hat H) as (s' & -> & Hl & ?).
  destruct a as [|c a]; [done|]. simplify_eq/=. exists s'. split; [|done].
  rewrite len_cons in Hl. by rewrite (len_zero a) by lia.
Qed.

Lemma le_inv n r s z r' :
  at_ r s -> ('(s, r) ← Reader.take (Z.of_nat n) r; Some (from_le s, r)) = Some (z, r') ->
  exists s', s = le_bytes n z ++ s' /\ 0 <= z < 256 ^ Z.of_nat n /\ at_ r' s'.
Proof.
  intros Hat E. inv_bind E. destruct x as [a r1]. simplify_eq/=.
  destruct (take_inv _ _ _ _ _ Hat H) as (s' & -> & Hl & ?). exists s'.
  assert (length a = n) as <- by (unfold len in Hl; lia). rewrite le_bytes_from.
  split_and!; [done|apply from_le_range..|done].
Qed.

Lemma u16_inv r s z r' :
  at_ r s -> Reader.u16 r = Some (z, r') ->
  exists s', s = le_bytes 2 z ++ s' /\ 0 <= z < 2 ^ 16 /\ at_ r' s'.
Proof. apply (le_inv 2). Qed.
Lemma u32_inv r s z r' :
  at_ r s -> Reader.u32 r = Some (z, r') ->
  exists s', s = le_bytes 4 z ++ s' /\ 0 <= z < 2 ^ 32 /\ at_ r' s'.
Proof. apply (le_inv 4). Qed.

Lemma u32_short r s : at_ r s -> len s < 4 -> Reader.u32 r = None.
Proof. intros Hat Hs. unfold Reader.u32. by rewrite (take_short _ s). Qed.
End reader.

(** ** Encoding and decoding records *)
Definition op_fields (op : Op) : byte * byte * list byte * list byte * list byte :=
  match op with
  | Put ns pid key value => (OP_PUT, ns, pid, key, value)
  | Delete ns pid key => (OP_DELETE, ns, pid, key, [])
  end.

(** The operations a record can carry. *)
Definition op_ok (op : Op) : Prop :=
  let '(_, _, pid, key, value) := op_fields op in
  len pid <= MAX_PARTITION_ID_BYTES /\ len key <= MAX_KEY_BYTES /\ len value <= MAX_VALUE_BYTES.

Definition op_body (op : Op) : list byte :=
  let '(code, ns, pid, key, value) := op_fields op in
  encode_body code ns pid key value (len pid) (len key).

(** The bytes of the record of an operation. *)
Definition record_of (op : Op) : list byte := frame (op_body op) (len (op_body op)).

#[global] Arguments record_of : simpl never.
#[global] Arguments frame : simpl never.
#[global] Arguments header_bytes : simpl never.

Ltac unfold_limits :=
  unfold MAX_BODY_BYTES, MAX_PARTITION_ID_BYTES, MAX_KEY_BYTES, MAX_VALUE_BYTES, FRAME_LEN,
    U16_MAX, U32_MAX, ISIZE_MAX in *; change (Z.shiftl 1 20) with 1048576 in *.

Section records.
Implicit Types (op : Op) (buf rest : list byte).

Lemma len_encode_body code ns pid key value pl kl :
  len (encode_body code ns pid key value pl kl) = 6 + len pid + len key + len value.
Proof. unfold encode_body. autorewrite with len. lia. Qed.

Lemma len_frame body l : len (frame body l) = FRAME_LEN + len body.
Proof. unfold frame, FRAME_LEN. autorewrite with len. lia. Qed.

Lemma len_op_body op : 6 <= len (op_body op) /\ (op_ok op -> len (op_body op) <= MAX_BODY_BYTES).
Proof.
  unfold op_body, op_ok. destruct (op_fields op) as [[[[code ns] pid] key] value].
  rewrite len_encode_body. unfold_limits.
  pose proof (len_nonneg pid). pose proof (len_nonneg key). pose proof (len_nonneg value). lia.
Qed.

Lemma len_record_of op : len (record_of op) = FRAME_LEN + len (op_body op).
Proof. apply len_frame. Qed.

Lemma encode_record_ok op : op_ok op -> encode_record op = Ok (record_of op).
Proof.
  intros Hok. pose proof (len_op_body op) as [_ Hb]. specialize (Hb Hok).
  unfold record_of, op_body, op_ok, encode_record in *.
  change (match op with Put ns pid key value => (OP_PUT, ns, pid, key, value)
          | Delete ns pid key => (OP_DELETE, ns, pid, key, []) end) with (op_fields op).
  destruct (op_fields op) as [[[[code ns] pid] key] value].
  destruct Hok as (H1 & H2 & H3). rewrite len_encode_body in Hb.
  pose proof (len_nonneg pid). pose proof (len_nonneg key). pose proof (len_nonneg value).
  unfold try_from. unfold_limits.
  replace (len pid >? 1024) with false by lia. replace (len key >? 1024) with false by lia.
  replace (len value >? 1048576) with false by lia. simpl.
  rewrite !decide_True by (rewrite ?len_encode_body; lia). simpl.
  by rewrite decide_True by (rewrite ?len_encode_body; lia).
Qed.

Lemma encode_record_inv op bytes :
  encode_record op = Ok bytes -> op_ok op /\ bytes = record_of op.
Proof.
  intros E. assert (op_ok op) as Hok; [|by rewrite encode_record_ok in E by done; simplify_eq].
  unfold encode_record, op_ok in *.
  change (match op with Put ns pid key value => (OP_PUT, ns, pid, key, value)
          | Delete ns pid key => (OP_DELETE, ns, pid, key, []) end) with (op_fields op) in E.
  destruct (op_fields op) as [[[[code ns] pid] key] value].
  destruct (len pid >? _) eqn:?, (len key >? _) eqn:?, (len value >? _) eqn:?; simpl in E; try done.
  lia.
Qed.

Lemma parse_op_body op : op_ok op -> parse_body (op_body op) = Some op.
Proof.
  intros Hok. pose proof (len_op_body op) as [_ Hb]. specialize (Hb Hok).
  assert (at_ (Reader.new (op_body op)) (op_body op)) as Hat.
  { apply at_new. unfold slice_ok. unfold_limits. lia. }
  unfold parse_body. cbv zeta. remember (Reader.new (op_body op)) as r eqn:Er. clear Er.
  unfold op_body, op_ok in *. destruct (op_fields op) as [[[[code ns] pid] key] value] eqn:Eop.
  destruct Hok as (H1 & H2 & H3).
  pose proof (len_nonneg pid). pose proof (len_nonneg key).
  apply u8_at in Hat as (r1 & -> & Hat). simpl.
  apply u8_at in Hat as (r2 & -> & Hat). simpl.
  apply u16_at in Hat as (r3 & -> & Hat); [|unfold_limits; lia]. simpl.
  apply take_at in Hat as (r4 & -> & Hat). simpl.
  apply u16_at in Hat as (r5 & -> & Hat); [|unfold_limits; lia]. simpl.
  apply take_at in Hat as (r6 & -> & Hat). simpl. apply rest_at in Hat.
  replace (len pid >? _) with false by lia. replace (len key >? _) with false by lia. simpl.
  simpl in Hat. rewrite Hat. clear Hat. destruct op; simplify_eq/=; [|done].
  by rewrite (proj2 (Z.leb_le _ _)) by done.
Qed.

Lemma parse_body_inv body op :
  slice_ok body -> parse_body body = Some op -> op_ok op /\ body = op_body op.
Proof.
  intros Hok E. apply at_new in Hok as Hat. unfold parse_body in E. cbv zeta in E.
  remember (Reader.new body) as r eqn:Er. clear Er.
  apply bind_Some in E as ([code r1] & E1 & E). apply (u8_inv _ _ _ _ Hat) in E1 as (s1 & -> & Hat1).
  apply bind_Some in E as ([ns r2] & E2 & E). apply (u8_inv _ _ _ _ Hat1) in E2 as (s2 & -> & Hat2).
  apply bind_Some in E as ([pl r3] & E3 & E).
  apply (u16_inv _ _ _ _ Hat2) in E3 as (s3 & -> & Hpl & Hat3).
  apply bind_Some in E as ([pid r4] & E4 & E).
  apply (take_inv _ _ _ _ _ Hat3) in E4 as (s4 & -> & <- & Hat4).
  apply bind_Some in E as ([kl r5] & E5 & E).
  apply (u16_inv _ _ _ _ Hat4) in E5 as (s5 & -> & Hkl & Hat5).
  apply bind_Some in E as ([key r6] & E6 & E).
  apply (take_inv _ _ _ _ _ Hat5) in E6 as (s6 & -> & <- & Hat6).
  apply rest_at in Hat6. destruct (Reader.rest r6) as [value r7]. simpl in Hat6, E. subst s6.
  destruct (len pid >? _) eqn:?, (len key >? _) eqn:?; simpl in E; try done.
  destruct (bool_decide (code = OP_PUT) && _) eqn:Ep.
  - simplify_eq. apply andb_true_iff in Ep as [Hc%bool_decide_eq_true ?]. subst code.
    unfold op_ok, op_body. simpl. split; [lia|done].
  - destruct (bool_decide (code = OP_DELETE) && _) eqn:Ed; simplify_eq.
    apply andb_true_iff in Ed as [->%bool_decide_eq_true ->%bool_decide_eq_true].
    unfold op_ok, op_body. simpl. split; [|done]. unfold_limits. rewrite len_nil. lia.
Qed.

(** What [decode_record] computes on a buffer that holds a whole frame. *)
Lemma decode_frame l crc body rest :
  slice_ok (le_bytes 4 l ++ le_bytes 4 crc ++ body ++ rest) ->
  0 <= l < 2 ^ 32 -> 0 <= crc < 2 ^ 32 -> len body = l -> l <= MAX_BODY_BYTES ->
  decode_record (le_bytes 4 l ++ le_bytes 4 crc ++ body ++ rest) =
    if negb (crc =? crc32_update (crc32 (le_bytes 4 l)) body) then Torn
    else match parse_body body with Some op => Record op (FRAME_LEN + l) | None => Torn end.
Proof.
  intros Hok Hl Hcrc Hb Hmax. unfold decode_record. rewrite bool_decide_eq_false_2 by done.
  apply at_new in Hok as Hat. cbv zeta.
  apply u32_at in Hat as (r1 & -> & Hat); [|done].
  apply u32_at in Hat as (r2 & -> & Hat); [|done].
  replace (l >? MAX_BODY_BYTES) with false by lia.
  rewrite <- Hb. by apply take_at in Hat as (r3 & -> & Hat).
Qed.

Lemma decode_record_of op rest :
  op_ok op -> slice_ok (record_of op ++ rest) ->
  decode_record (record_of op ++ rest) = Record op (len (record_of op)).
Proof.
  intros Hop Hok. pose proof (len_op_body op) as [Hb0 Hb]. specialize (Hb Hop).
  unfold record_of, frame in *. rewrite <- !app_assoc in *.
  rewrite decode_frame; [|done|unfold_limits; lia|apply crc32_update_word, crc32_word|done..].
  rewrite Z.eqb_refl. simpl. rewrite parse_op_body by done.
  f_equal. autorewrite with len. unfold FRAME_LEN. lia.
Qed.

(** What is decoded is exactly the record of the operation returned. *)
Lemma decode_record_inv buf op used :
  slice_ok buf -> decode_record buf = Record op used ->
  op_ok op /\ used = len (record_of op) /\ exists rest, buf = record_of op ++ rest.
Proof.
  intros Hok E. apply at_new in Hok as Hat. unfold decode_record in E. cbv zeta in E.
  case_bool_decide; [done|].
  destruct (Reader.u32 _) as [[l r1]|] eqn:E1; [|done].
  apply (u32_inv _ _ _ _ Hat) in E1 as (s1 & -> & Hl & Hat1).
  destruct (Reader.u32 r1) as [[crc r2]|] eqn:E2; [|done].
  apply (u32_inv _ _ _ _ Hat1) in E2 as (s2 & -> & Hcrc & Hat2).
  destruct (l >? MAX_BODY_BYTES) eqn:?; [done|].
  destruct (Reader.take l r2) as [[body r3]|] eqn:E3; [|done].
  apply (take_inv _ _ _ _ _ Hat2) in E3 as (s3 & -> & <- & Hat3).
  destruct (crc =? _) eqn:Ec; simpl in E; [|done]. apply Z.eqb_eq in Ec. subst crc.
  destruct (parse_body body) as [op'|] eqn:Ep; [|done]. simplify_eq.
  apply parse_body_inv in Ep as [Hop ->]; [|by do 2 apply slice_ok_app in Hok as [_ Hok]; apply slice_ok_app in Hok as [Hok _]].
  split; [done|]. split; [by rewrite len_record_of|].
  exists s3. unfold record_of, frame. by rewrite <- !app_assoc.
Qed.
End records.

(** ** Damage *)
Section damage.
Implicit Types (op : Op) (buf rest : list byte).

Lemma decode_short l crc b :
  slice_ok (le_bytes 4 l ++ le_bytes 4 crc ++ b) ->
  0 <= l < 2 ^ 32 -> 0 <= crc < 2 ^ 32 -> len b < l ->
  decode_record (le_bytes 4 l ++ le_bytes 4 crc ++ b) = Torn.
Proof.
  intros Hok Hl Hcrc Hb. unfold decode_record. rewrite bool_decide_eq_false_2 by done.
  apply at_new in Hok as Hat. cbv zeta.
  apply u32_at in Hat as (r1 & -> & Hat); [|done].
  apply u32_at in Hat as (r2 & -> & Hat); [|done].
  destruct (l >? _); [done|]. by rewrite (take_short _ _ _ Hat).
Qed.

Lemma decode_tiny l b :
  slice_ok (le_bytes 4 l ++ b) -> 0 <= l < 2 ^ 32 -> len b < 4 ->
  decode_record (le_bytes 4 l ++ b) = Torn.
Proof.
  intros Hok Hl Hb. unfold decode_record. rewrite bool_decide_eq_false_2 by done.
  apply at_new in Hok as Hat. cbv zeta.
  apply u32_at in Hat as (r1 & -> & Hat); [|done].
  by rewrite (u32_short _ _ Hat).
Qed.

Lemma decode_tiniest b : slice_ok b -> 0 < len b < 4 -> decode_record b = Torn.
Proof.
  intros Hok Hb. unfold decode_record. destruct b as [|x b]; [unfold len in Hb; simpl in Hb; lia|].
  rewrite bool_decide_eq_false_2 by done. apply at_new in Hok as Hat.
  cbv zeta. by rewrite (u32_short _ _ Hat) by lia.
Qed.

Lemma len_record_ok op :
  op_ok op -> FRAME_LEN + 6 <= len (record_of op) <= FRAME_LEN + MAX_BODY_BYTES.
Proof.
  intros Hop. pose proof (len_op_body op) as [? Hb]. specialize (Hb Hop).
  rewrite len_record_of. lia.
Qed.

Lemma len_slice_ok buf : len buf <= FRAME_LEN + MAX_BODY_BYTES -> slice_ok buf.
Proof. unfold slice_ok. unfold_limits. lia. Qed.

Lemma take_app_Z (a b : list byte) n :
  (length a <= n)%nat -> take n (a ++ b) = a ++ take (n - length a) b.
Proof. intros. by apply take_app_ge. Qed.

Lemma op_body_len_range op : op_ok op -> 0 <= len (op_body op) < 2 ^ 32.
Proof. intros Hop. pose proof (len_op_body op) as [? Hb]. specialize (Hb Hop). unfold_limits. lia. Qed.

Lemma decode_truncated op n :
  op_ok op -> (0 < n < length (record_of op))%nat ->
  decode_record (take n (record_of op)) = Torn.
Proof.
  intros Hop Hn. pose proof (len_record_ok op Hop) as Hl.
  assert (forall k, slice_ok (take k (record_of op))) as Hok.
  { intros k. apply len_slice_ok. unfold len in *. rewrite length_take. lia. }
  specialize (Hok n). pose proof (op_body_len_range op Hop) as Hbr.
  pose proof (crc32_update_word (crc32 (le_bytes 4 (len (op_body op)))) (op_body op)
    (crc32_word _)) as Hcw.
  pose proof (len_record_of op) as Hlr. unfold FRAME_LEN in Hlr.
  unfold record_of, frame in *. destruct (decide (n < 4)%nat) as [H4|H4].
  { apply decode_tiniest; [done|]. unfold len in *. rewrite length_take. lia. }
  rewrite take_app_Z in * by (rewrite length_le_bytes; lia). rewrite length_le_bytes in *.
  destruct (decide (n < 8)%nat) as [H8|H8].
  { apply decode_tiny; [done..|]. unfold len. rewrite length_take. lia. }
  rewrite take_app_Z in * by (rewrite length_le_bytes; lia). rewrite length_le_bytes in *.
  apply decode_short; [done..|]. unfold len in *. rewrite length_take. lia.
Qed.

Lemma decode_crc_mismatch l crc body rest :
  slice_ok (le_bytes 4 l ++ le_bytes 4 crc ++ body ++ rest) ->
  0 <= l < 2 ^ 32 -> 0 <= crc < 2 ^ 32 -> len body = l -> l <= MAX_BODY_BYTES ->
  crc <> crc32_update (crc32 (le_bytes 4 l)) body ->
  decode_record (le_bytes 4 l ++ le_bytes 4 crc ++ body ++ rest) = Torn.
Proof. intros ????? Hne. rewrite decode_frame by done. by rewrite (proj2 (Z.eqb_neq _ _) Hne). Qed.

Lemma decode_damaged op pre a b suf rest :
  op_ok op -> record_of op = pre ++ a :: suf -> 4 <= len pre -> a <> b ->
  slice_ok (pre ++ b :: suf ++ rest) ->
  decode_record (pre ++ b :: suf ++ rest) = Torn.
Proof.
  intros Hop E Hpre Hab Hok. pose proof (op_body_len_range op Hop) as Hbr.
  pose proof (len_op_body op) as [_ Hmax]. specialize (Hmax Hop).
  unfold record_of, frame in E. set (l := len (op_body op)) in *.
  pose proof (crc32_update_word (crc32 (le_bytes 4 l)) (op_body op) (crc32_word _)) as Hcw.
  set (crc := crc32_update _ _) in *.
  symmetry in E. apply app_cons_split in E as [(s1 & E & _)|(pre' & -> & E)].
  { apply (f_equal len) in E. rewrite len_le_bytes, len_app, len_cons in E.
    pose proof (len_nonneg s1). lia. }
  symmetry in E. apply app_cons_split in E as [(s1 & E & ->)|(pre2 & -> & E)].
  - replace ((le_bytes 4 l ++ pre') ++ b :: (s1 ++ op_body op) ++ rest)
      with (le_bytes 4 l ++ (pre' ++ b :: s1) ++ op_body op ++ rest) in *
      by (by repeat (rewrite <- app_assoc; simpl)).
    assert (length (pre' ++ b :: s1) = 4%nat) as Hl4.
    { apply (f_equal length) in E. rewrite length_app in *. rewrite length_le_bytes in E.
      simpl in *. lia. }
    pose proof (from_le_range (pre' ++ b :: s1)) as Hr. unfold len in Hr. rewrite Hl4 in Hr.
    pose proof (le_bytes_from (pre' ++ b :: s1)) as EC. rewrite Hl4 in EC.
    rewrite <- EC in Hok |- *. apply decode_crc_mismatch; [done..|].
    fold crc. intros Ec. rewrite Ec, E in EC. by apply app_inv_head in EC as [= ->].
  - replace ((le_bytes 4 l ++ le_bytes 4 crc ++ pre2) ++ b :: suf ++ rest)
      with (le_bytes 4 l ++ le_bytes 4 crc ++ (pre2 ++ b :: suf) ++ rest) in *
      by (by repeat (rewrite <- app_assoc; simpl)).
    apply decode_crc_mismatch; [done..| |done|].
    + unfold l. rewrite E, !len_app, !len_cons. done.
    + unfold crc. rewrite E. intros Ec. apply crc32_update_one_byte in Ec; [|apply crc32_word]. done.
Qed.
End damage.

(** ** The header *)
Section header.
Lemma starts_with_spec l p : starts_with l p = true <-> exists s, l = p ++ s.
Proof.
  revert l. induction p as [|b p IH]; intros l.
  - split; [by exists l|by destruct l].
  - destruct l as [|a l]; [by split; [|intros [s [=]]]|]. cbn [starts_with].
    rewrite andb_true_iff, bool_decide_eq_true, IH. split.
    + intros [-> [s ->]]. by exists s.
    + intros [s [= -> ->]]. eauto.
Qed.

Lemma len_header : len header_bytes = HEADER_LEN.
Proof. by vm_compute. Qed.

Definition header_covered : list byte := MAGIC ++ le_bytes 4 VERSION ++ le_bytes 4 0.

Lemma check_header_app rest :
  slice_ok (header_bytes ++ rest) -> check_header (header_bytes ++ rest) = Ok Valid.
Proof.
  intros Hok. unfold check_header. rewrite bool_decide_eq_false_2 by done.
  pose proof (len_nonneg rest). cbv zeta. rewrite len_app, len_header.
  replace (HEADER_LEN + len rest <? HEADER_LEN) with false by lia.
  assert (get_range (header_bytes ++ rest) 0 12 = Some header_covered) as Hcov.
  { apply (get_range_app [] header_covered (le_bytes 4 (crc32 header_covered) ++ rest)). }
  rewrite Hcov. clear Hcov. apply at_new in Hok as Hat.
  change (header_bytes ++ rest) with
    (MAGIC ++ le_bytes 4 VERSION ++ le_bytes 4 0 ++ le_bytes 4 (crc32 header_covered) ++ rest) in Hat at 2.
  apply take_at in Hat as (r1 & E1 & Hat). change (len MAGIC) with 4 in E1. rewrite E1.
  rewrite bool_decide_eq_true_2 by done.
  apply u32_at in Hat as (r2 & -> & Hat); [|done]. cbn -[Reader.u32 crc32].
  apply u32_at in Hat as (r3 & -> & Hat); [|done]. cbn -[Reader.u32 crc32].
  apply u32_at in Hat as (r4 & -> & Hat); [|apply crc32_word]. cbn -[crc32].
  by rewrite Z.eqb_refl.
Qed.

Lemma check_header_Valid bytes :
  slice_ok bytes -> check_header bytes = Ok Valid -> exists rest, bytes = header_bytes ++ rest.
Proof.
  intros Hok E. unfold check_header in E. case_bool_decide; [done|]. cbv zeta in E.
  destruct (len bytes <? HEADER_LEN); [by destruct (starts_with _ _)|].
  apply at_new in Hok as Hat.
  destruct (Reader.take 4 _) as [[m r1]|] eqn:E1; [|done].
  apply (take_inv _ _ _ _ _ Hat) in E1 as (s1 & -> & Hm & Hat1).
  case_bool_decide; [subst m|done].
  apply bind_Ok in E as ([version r2] & E2%ok_or_Ok & E).
  apply (u32_inv _ _ _ _ Hat1) in E2 as (s2 & -> & Hv & Hat2).
  apply bind_Ok in E as ([flags r3] & E3%ok_or_Ok & E).
  apply (u32_inv _ _ _ _ Hat2) in E3 as (s3 & -> & Hf & Hat3).
  destruct (negb (version =? VERSION) || negb (flags =? 0)) eqn:Ev; [done|].
  apply orb_false_iff in Ev as [->%negb_false_iff%Z.eqb_eq ->%negb_false_iff%Z.eqb_eq].
  apply bind_Ok in E as ([crc r4] & E4%ok_or_Ok & E).
  apply (u32_inv _ _ _ _ Hat3) in E4 as (s4 & -> & Hc & Hat4).
  apply bind_Ok in E as (covered & E5%ok_or_Ok & E).
  change (MAGIC ++ le_bytes 4 VERSION ++ le_bytes 4 0 ++ le_bytes 4 crc ++ s4)
    with ([] ++ header_covered ++ le_bytes 4 crc ++ s4) in E5.
  change (get_range ([] ++ header_covered ++ le_bytes 4 crc ++ s4) 0 12) with
    (get_range ([] ++ header_covered ++ le_bytes 4 crc ++ s4) (len (@nil byte))
      (len (@nil byte) + len header_covered)) in E5.
  rewrite get_range_app in E5. injection E5 as <-.
  destruct (crc =? crc32 header_covered) eqn:Ec; [|done]. apply Z.eqb_eq in Ec as ->.
  by exists s4.
Qed.

Lemma check_header_Fresh bytes :
  check_header bytes = Ok Fresh <-> exists rest, rest <> [] /\ header_bytes = bytes ++ rest.
Proof.
  unfold check_header. case_bool_decide as Hb.
  { subst bytes. split; [|done]. intros _. by exists header_bytes. }
  cbv zeta. destruct (len bytes <? HEADER_LEN) eqn:Hl.
  - destruct (starts_with _ _) eqn:Es.
    + apply starts_with_spec in Es as [s Es]. split; [intros _|done]. exists s.
      split; [|done]. intros ->. apply (f_equal len) in Es.
      rewrite len_header, app_nil_r in Es. lia.
    + split; [done|]. intros (s & _ & Hs).
      by rewrite (proj2 (starts_with_spec _ _)) in Es by eauto.
  - split.
    + intros E. exfalso. repeat (case_on E; try done);
        repeat (apply bind_Ok in E as ([? ?] & _ & E); repeat (case_on E; try done)).
      by apply bind_Ok in E as (? & _ & E); case_on E.
    + intros (s & Hs & E). apply (f_equal len) in E. rewrite len_header, len_app in E.
      destruct s as [|x s]; [done|]. rewrite len_cons in E. pose proof (len_nonneg s). lia.
Qed.
End header.

(** ** The properties *)

(** a record written by [encode_record] is read back by [decode_record] as
    the same operation, whatever bytes follow it in the log, and the length
    reported is the length that was written. *)
Theorem record_roundtrip op bytes rest :
  encode_record op = Ok bytes -> slice_ok (bytes ++ rest) ->
  decode_record (bytes ++ rest) = Record op (len bytes).
Proof. intros [Hop ->]%encode_record_inv Hok. by apply decode_record_of. Qed.

Definition sample_op : Op := Put x00 (lit "P") (lit "k") (lit "vv").
Definition sample_bytes : list byte := Eval vm_compute in record_of sample_op.

Lemma record_roundtrip_witness :
  encode_record sample_op = Ok sample_bytes /\
  decode_record (sample_bytes ++ [x07; x00]) = Record sample_op 18.
Proof.
  split; [by vm_compute|]. apply (record_roundtrip sample_op sample_bytes); [by vm_compute|].
  by vm_compute.
Defined.

(** the format is canonical: whatever [decode_record] accepts at the start
    of a buffer is byte for byte what [encode_record] writes for the operation
    it returns, and the record lies inside the buffer. *)
Theorem decode_record_canonical buf op used :
  slice_ok buf -> decode_record buf = Record op used ->
  encode_record op = Ok (take (Z.to_nat used) buf) /\ FRAME_LEN < used <= len buf.
Proof.
  intros Hok E. apply decode_record_inv in E as (Hop & -> & rest & ->); [|done].
  rewrite take_len_app. split; [by apply encode_record_ok|].
  pose proof (len_record_ok op Hop). rewrite len_app. pose proof (len_nonneg rest). lia.
Qed.

Lemma decode_record_canonical_witness :
  encode_record sample_op = Ok (take (Z.to_nat 18) (sample_bytes ++ [x07])) /\
  FRAME_LEN < 18 <= len (sample_bytes ++ [x07]).
Proof. apply (decode_record_canonical (sample_bytes ++ [x07]) sample_op 18); by vm_compute. Defined.

(** a record cut short at any point (a torn write) is never accepted:
    every non-empty strict prefix decodes to [Torn]. *)
Theorem record_truncation_torn op bytes n :
  encode_record op = Ok bytes -> (0 < n < length bytes)%nat ->
  decode_record (take n bytes) = Torn.
Proof. intros [Hop ->]%encode_record_inv Hn. by apply decode_truncated. Qed.

Lemma record_truncation_torn_witness : decode_record (take 9 sample_bytes) = Torn.
Proof.
  apply (record_truncation_torn sample_op sample_bytes 9); [by vm_compute|].
  change (length sample_bytes) with 18%nat. lia.
Defined.

(** a record with one damaged byte in its checksum or its body is never
    accepted, whatever follows it: the decoder answers [Torn]. *)
Theorem record_damage_torn op pre a b suf rest :
  encode_record op = Ok (pre ++ a :: suf) -> 4 <= len pre -> a <> b ->
  slice_ok (pre ++ b :: suf ++ rest) ->
  decode_record (pre ++ b :: suf ++ rest) = Torn.
Proof. intros [Hop E]%encode_record_inv ???. by eapply decode_damaged. Qed.

Lemma record_damage_torn_witness :
  decode_record (take 15 sample_bytes ++ x00 :: drop 16 sample_bytes ++ []) = Torn.
Proof.
  apply (record_damage_torn sample_op (take 15 sample_bytes) "k"%byte x00 (drop 16 sample_bytes));
    [by vm_compute|by vm_compute|discriminate|by vm_compute].
Defined.

(** [check_header] accepts exactly the files that start with the canonical
    header, and treats exactly the strict prefixes of that header (a creation
    that was torn, the empty file included) as a fresh store. *)
Theorem check_header_spec bytes :
  slice_ok bytes ->
  (check_header bytes = Ok Valid <-> exists rest, bytes = header_bytes ++ rest) /\
  (check_header bytes = Ok Fresh <-> exists rest, rest <> [] /\ header_bytes = bytes ++ rest).
Proof.
  intros Hok. split; [|apply check_header_Fresh]. split; [by apply check_header_Valid|].
  intros [rest ->]. by apply check_header_app.
Qed.

Lemma check_header_spec_witness : check_header (take 7 header_bytes) = Ok Fresh.
Proof.
  apply (check_header_spec (take 7 header_bytes)); [by vm_compute|].
  exists (drop 7 header_bytes). split; [by vm_compute|by rewrite take_drop].
Defined.
