(* ===== verification/Engine.v ===== *)
(** * The storage engine (px-store/src/engine.rs, px-store/src/error.rs)

    The in-memory state of the store and the rules that govern it: partitions of
    byte-string entries, their accounting and quotas, recovery from a log, and
    the snapshot a log is rewritten from. *)
From S2P Require Import Prelude Bytes OrdMap Text Partition Checksum Format.
Local Open Scope Z_scope.

Inductive QuotaError :=
| KeyTooLarge (length : Z)
| ValueTooLarge (length : Z)
| TooManyEntries
| PartitionFull (would_use : Z)
| GlobalFull (would_use : Z)
| PartitionKeyTooLarge.

#[export] Instance QuotaError_eq_dec : EqDecision QuotaError.
Proof. solve_decision. Defined.

Definition MAX_ENTRIES_PER_PARTITION : Z := 10000.
Definition PARTITION_QUOTA_BYTES : Z := Z.shiftl 4 20.
Definition GLOBAL_QUOTA_BYTES : Z := Z.shiftl 64 20.
Definition ENTRY_OVERHEAD_BYTES : Z := 48.

(** ** Namespaces *)
Inductive Namespace := Storage | Cookies.

#[export] Instance Namespace_eq_dec : EqDecision Namespace.
Proof. solve_decision. Defined.

Module Ns.
Definition code (n : Namespace) : byte :=
  match n with Storage => x00 | Cookies => x01 end.

Definition from_code (c : byte) : option Namespace :=
  match c with x00 => Some Storage | x01 => Some Cookies | _ => None end.
End Ns.

(** ** Partition ids *)
Module PartId.
Record t := mk { site : list byte; scheme : list byte; host : list byte; port : Z }.

Definition fields (p : t) := (site p, (scheme p, (host p, port p))).

Lemma fields_inj p q : fields p = fields q -> p = q.
Proof. destruct p, q. unfold fields. simpl. by intros [= -> -> -> ->]. Qed.

(** The derived order: field by field, as declared. *)
#[global] Instance ord : Ord t := ord_inj fields fields_inj.

(** One field: its length as a [u16], then its bytes. *)
Definition push_field (out field : list byte) : option (list byte) :=
  l ← try_from U16_MAX (len field);
  Some (out ++ le_bytes 2 l ++ field).

Definition encode (p : t) : option (list byte) :=
  out ← push_field [] (site p);
  out ← push_field out (scheme p);
  out ← push_field out (host p);
  Some (out ++ le_bytes 2 (port p)).

Definition read_field (r : Reader.t) : option (list byte * Reader.t) :=
  '(l, r) ← Reader.u16 r;
  '(raw, r) ← Reader.take l r;
  if negb (is_ascii raw) then None else Some (raw, r).

Definition decode (bytes : list byte) : option t :=
  let r := Reader.new bytes in
  '(site, r) ← read_field r;
  '(scheme, r) ← read_field r;
  '(host, r) ← read_field r;
  '(port, r) ← Reader.u16 r;
  if negb (Reader.is_empty r) || bool_decide (site = []) || bool_decide (host = []) then None
  else if negb (bool_decide (scheme = lit "https")) && negb (bool_decide (scheme = lit "http"))
  then None
  else Some {| site := site; scheme := scheme; host := host; port := port |}.

Definition from_key (key : PartitionKey.t) : result QuotaError t :=
  let origin := PartitionKey.origin key in
  let id := {| site := PartitionKey.top_level_site key; scheme := Origin.scheme origin;
               host := Origin.host origin; port := Origin.port origin |} in
  encoded ← ok_or (encode id) PartitionKeyTooLarge;
  if len encoded >? MAX_PARTITION_ID_BYTES then Err PartitionKeyTooLarge else Ok id.
End PartId.

(** ** Partitions and the engine *)
Record Partition := { entries : btree (byte * list byte) (list byte); bytes : Z }.

Definition partition_default : Partition := {| entries := []; bytes := 0 |}.

Definition cost (key value : list byte) : Z :=
  sat_add (sat_add (len key) (len value)) ENTRY_OVERHEAD_BYTES.

Record Engine := { parts : btree PartId.t Partition; total : Z }.

Definition engine_default : Engine := {| parts := []; total := 0 |}.

Record Recovered := { engine : Engine; valid_len : Z; fresh : bool }.

Definition check_put (e : Engine) (pid : PartId.t) (ns : Namespace) (key value : list byte)
  : result QuotaError unit :=
  if len key >? MAX_KEY_BYTES then Err (KeyTooLarge (len key))
  else if len value >? MAX_VALUE_BYTES then Err (ValueTooLarge (len value))
  else
    let part := bt_get (parts e) pid in
    let existing :=
      old ← (p ← part; bt_get (entries p) (Ns.code ns, key)); Some (cost key old) in
    if bool_decide (existing = None) &&
       match part with Some p => len (entries p) >=? MAX_ENTRIES_PER_PARTITION | None => false end
    then Err TooManyEntries
    else
      let old := default 0 existing in
      let new_cost := cost key value in
      let part_bytes := match part with Some p => bytes p | None => 0 end in
      let would_part := sat_add (sat_sub part_bytes old) new_cost in
      if would_part >? PARTITION_QUOTA_BYTES then Err (PartitionFull would_part)
      else
        let would_total := sat_add (sat_sub (total e) old) new_cost in
        if would_total >? GLOBAL_QUOTA_BYTES then Err (GlobalFull would_total)
        else Ok tt.

Definition put (e : Engine) (pid : PartId.t) (ns : Namespace) (key value : list byte) : Engine :=
  let part := default partition_default (bt_get (parts e) pid) in
  let new_cost := cost key value in
  let old := match bt_get (entries part) (Ns.code ns, key) with
             | Some old => cost key old | None => 0 end in
  let part := {| entries := bt_insert (entries part) (Ns.code ns, key) value;
                 bytes := sat_add (sat_sub (bytes part) old) new_cost |} in
  {| parts := bt_insert (parts e) pid part;
     total := sat_add (sat_sub (total e) old) new_cost |}.

Definition delete (e : Engine) (pid : PartId.t) (ns : Namespace) (key : list byte)
  : bool * Engine :=
  match bt_get (parts e) pid with
  | None => (false, e)
  | Some part =>
      match bt_get (entries part) (Ns.code ns, key) with
      | None => (false, e)
      | Some old =>
          let freed := cost key old in
          let part := {| entries := bt_remove (entries part) (Ns.code ns, key);
                         bytes := sat_sub (bytes part) freed |} in
          let parts' := if bool_decide (entries part = [])
                        then bt_remove (parts e) pid else bt_insert (parts e) pid part in
          (true, {| parts := parts'; total := sat_sub (total e) freed |})
      end
  end.

Definition get (e : Engine) (pid : PartId.t) (ns : Namespace) (key : list byte)
  : option (list byte) :=
  p ← bt_get (parts e) pid; bt_get (entries p) (Ns.code ns, key).

Definition keys (e : Engine) (pid : PartId.t) (ns : Namespace) : list (list byte) :=
  match bt_get (parts e) pid with
  | None => []
  | Some p => map snd (List.filter (fun k => bool_decide (k.1 = Ns.code ns)) (bt_keys (entries p)))
  end.

Definition usage (e : Engine) (pid : PartId.t) : Z :=
  match bt_get (parts e) pid with Some p => bytes p | None => 0 end.

Definition total_usage (e : Engine) : Z := total e.
Definition partition_count (e : Engine) : Z := len (parts e).

Definition remove_partition (e : Engine) (pid : PartId.t) : Z * Engine :=
  match bt_get (parts e) pid with
  | Some p =>
      (len (entries p),
       {| parts := bt_remove (parts e) pid; total := sat_sub (total e) (bytes p) |})
  | None => (0, e)
  end.

Definition remove_site (e : Engine) (s : list byte) : Z * Engine :=
  let doomed := List.filter (fun id => bool_decide (PartId.site id = s)) (bt_keys (parts e)) in
  foldl (fun acc id => let '(n, e) := remove_partition acc.2 id in (acc.1 + n, e)) (0, e) doomed.

(** Apply a record read from disk, enforcing every rule a live write would. *)
Definition apply_logged (e : Engine) (op : Op) : option Engine :=
  match op with
  | Put ns pid key value =>
      ns ← Ns.from_code ns;
      pid ← PartId.decode pid;
      _ ← ok (check_put e pid ns key value);
      Some (put e pid ns key value)
  | Delete ns pid key =>
      ns ← Ns.from_code ns;
      pid ← PartId.decode pid;
      Some (delete e pid ns key).2
  end.

(** The recovery loop from position [pos].  Every turn consumes at least the
    frame of a record, so the number of bytes is enough fuel. *)
Fixpoint recover_loop (fuel : nat) (log : list byte) (e : Engine) (pos : Z) : Engine * Z :=
  match fuel with
  | O => (e, pos)
  | S fuel =>
      match decode_record (default [] (get_from log pos)) with
      | Record op used =>
          match apply_logged e op with
          | None => (e, pos)
          | Some e => recover_loop fuel log e (sat_add pos used)
          end
      | _ => (e, pos)
      end
  end.

Definition recover (log : list byte) : result FormatError Recovered :=
  header ← check_header log;
  match header with
  | Fresh => Ok {| engine := engine_default; valid_len := 0; fresh := true |}
  | Valid =>
      let '(e, pos) := recover_loop (length log) log engine_default HEADER_LEN in
      Ok {| engine := e; valid_len := pos; fresh := false |}
  end.

(** One [Put] record per live entry of a partition. *)
Fixpoint snapshot_entries (pid_bytes : list byte) (es : btree (byte * list byte) (list byte))
  : result FormatError (list byte) :=
  match es with
  | [] => Ok []
  | ((ns, key), value) :: es =>
      r ← encode_record (Put ns pid_bytes key value);
      out ← snapshot_entries pid_bytes es;
      Ok (r ++ out)
  end.

Fixpoint snapshot_parts (excl : PartId.t -> bool) (ps : btree PartId.t Partition)
  : result FormatError (list byte) :=
  match ps with
  | [] => Ok []
  | (pid, part) :: ps =>
      if excl pid then snapshot_parts excl ps
      else
        pid_bytes ← ok_or (PartId.encode pid) RecordTooLarge;
        records ← snapshot_entries pid_bytes (entries part);
        out ← snapshot_parts excl ps;
        Ok (records ++ out)
  end.

Definition snapshot_excluding (e : Engine) (excl : PartId.t -> bool)
  : result FormatError (list byte) :=
  out ← snapshot_parts excl (parts e); Ok (header_bytes ++ out).

(** ** Partition ids on disk *)
(** The ids a store can hold: what [decode] accepts back. *)
Definition pid_ok (p : PartId.t) : Prop :=
  PartId.site p <> [] /\ is_ascii (PartId.site p) = true /\
  (PartId.scheme p = lit "https" \/ PartId.scheme p = lit "http") /\
  PartId.host p <> [] /\ is_ascii (PartId.host p) = true /\
  0 <= PartId.port p <= U16_MAX /\
  8 + len (PartId.site p) + len (PartId.scheme p) + len (PartId.host p) <= MAX_PARTITION_ID_BYTES.

Definition pid_bytes (p : PartId.t) : list byte :=
  (le_bytes 2 (len (PartId.site p)) ++ PartId.site p) ++
  (le_bytes 2 (len (PartId.scheme p)) ++ PartId.scheme p) ++
  (le_bytes 2 (len (PartId.host p)) ++ PartId.host p) ++ le_bytes 2 (PartId.port p).

Section part_id.
Implicit Types (p : PartId.t).

Lemma len_pid_bytes p :
  len (pid_bytes p) = 8 + len (PartId.site p) + len (PartId.scheme p) + len (PartId.host p).
Proof. unfold pid_bytes. autorewrite with len. lia. Qed.

Lemma len_pid_bytes_ok p : pid_ok p -> len (pid_bytes p) <= MAX_PARTITION_ID_BYTES.
Proof. intros H. rewrite len_pid_bytes. apply H. Qed.

Lemma push_field_ok out f :
  len f <= U16_MAX -> PartId.push_field out f = Some (out ++ le_bytes 2 (len f) ++ f).
Proof.
  intros H. unfold PartId.push_field, try_from. pose proof (len_nonneg f).
  by rewrite decide_True by lia.
Qed.

Lemma push_field_inv out f r :
  PartId.push_field out f = Some r -> len f <= U16_MAX /\ r = out ++ le_bytes 2 (len f) ++ f.
Proof. unfold PartId.push_field, try_from. case_decide; [|done]. intros [= <-]. split; [lia|done]. Qed.

Lemma encode_inv p b : PartId.encode p = Some b -> b = pid_bytes p.
Proof.
  intros E. unfold PartId.encode in E. apply bind_Some in E as (o1 & [_ ->]%push_field_inv & E).
  apply bind_Some in E as (o2 & [_ ->]%push_field_inv & E).
  apply bind_Some in E as (o3 & [_ ->]%push_field_inv & [= <-]).
  unfold pid_bytes. simpl. by rewrite <- ?app_assoc.
Qed.

Lemma encode_ok p : pid_ok p -> PartId.encode p = Some (pid_bytes p).
Proof.
  intros (_ & _ & _ & _ & _ & _ & H). unfold_limits.
  pose proof (len_nonneg (PartId.site p)). pose proof (len_nonneg (PartId.scheme p)).
  pose proof (len_nonneg (PartId.host p)). unfold PartId.encode.
  rewrite push_field_ok by (unfold_limits; lia). cbn [mbind option_bind].
  rewrite push_field_ok by (unfold_limits; lia). cbn [mbind option_bind].
  rewrite push_field_ok by (unfold_limits; lia). cbn [mbind option_bind].
  unfold pid_bytes. simpl. by rewrite <- ?app_assoc.
Qed.

Lemma read_field_at r f s :
  len f <= U16_MAX -> is_ascii f = true -> at_ r ((le_bytes 2 (len f) ++ f) ++ s) ->
  exists r', PartId.read_field r = Some (f, r') /\ at_ r' s.
Proof.
  intros Hl Ha Hat. pose proof (len_nonneg f). rewrite <- app_assoc in Hat.
  unfold PartId.read_field. apply u16_at in Hat as (r1 & -> & Hat); [|unfold_limits; lia].
  cbn [mbind option_bind]. apply take_at in Hat as (r2 & -> & Hat).
  cbn [mbind option_bind]. rewrite Ha. by exists r2.
Qed.

Lemma read_field_inv r s f r' :
  at_ r s -> PartId.read_field r = Some (f, r') ->
  exists s', s = (le_bytes 2 (len f) ++ f) ++ s' /\ is_ascii f = true /\ at_ r' s'.
Proof.
  intros Hat E. unfold PartId.read_field in E.
  apply bind_Some in E as ([l r1] & E1 & E).
  apply (u16_inv _ _ _ _ Hat) in E1 as (s1 & -> & Hl & Hat1).
  apply bind_Some in E as ([raw r2] & E2 & E).
  apply (take_inv _ _ _ _ _ Hat1) in E2 as (s2 & -> & <- & Hat2).
  destruct (is_ascii raw) eqn:Ha; [|done]. injection E as <- <-.
  exists s2. by rewrite <- app_assoc.
Qed.

Lemma is_empty_at r s : at_ r s -> Reader.is_empty r = bool_decide (s = []).
Proof.
  intros Hat. pose proof (at_len _ _ Hat) as Hl. unfold Reader.is_empty.
  case_bool_decide as Hs.
  - subst s. rewrite len_nil in Hl. lia.
  - destruct s as [|x s]; [done|]. rewrite len_cons in Hl. pose proof (len_nonneg s). lia.
Qed.

Lemma decode_pid_bytes p : pid_ok p -> PartId.decode (pid_bytes p) = Some p.
Proof.
  intros Hok. pose proof (len_pid_bytes_ok p Hok) as Hlen.
  destruct Hok as (Hs & Hsa & Hsch & Hh & Hha & Hport & Hl).
  pose proof (len_nonneg (PartId.site p)). pose proof (len_nonneg (PartId.scheme p)).
  pose proof (len_nonneg (PartId.host p)).
  assert (at_ (Reader.new (pid_bytes p)) (pid_bytes p)) as Hat.
  { apply at_new. unfold slice_ok. unfold_limits. lia. }
  unfold PartId.decode. cbv zeta. unfold pid_bytes in Hat at 2.
  apply read_field_at in Hat as (r1 & -> & Hat); [|unfold_limits; lia|done]. cbn [mbind option_bind].
  apply read_field_at in Hat as (r2 & -> & Hat);
    [|unfold_limits; lia|by destruct Hsch as [-> | ->]; vm_compute]. cbn [mbind option_bind].
  apply read_field_at in Hat as (r3 & -> & Hat); [|unfold_limits; lia|done]. cbn [mbind option_bind].
  rewrite <- (app_nil_r (le_bytes 2 _)) in Hat.
  apply u16_at in Hat as (r4 & -> & Hat); [|unfold_limits; lia]. cbn [mbind option_bind].
  rewrite (is_empty_at _ _ Hat), (bool_decide_eq_true_2 ([] = [])) by done.
  rewrite !(bool_decide_eq_false_2 (_ = [])) by done. simpl.
  assert (negb (bool_decide (PartId.scheme p = lit "https")) &&
    negb (bool_decide (PartId.scheme p = lit "http")) = false) as ->.
  { destruct Hsch as [-> | ->]; by vm_compute. }
  by destruct p.
Qed.

Lemma decode_inv b p :
  slice_ok b -> PartId.decode b = Some p ->
  b = pid_bytes p /\ (len b <= MAX_PARTITION_ID_BYTES -> pid_ok p).
Proof.
  intros Hok E. apply at_new in Hok as Hat. unfold PartId.decode in E. cbv zeta in E.
  apply bind_Some in E as ([site r1] & E1 & E).
  apply (read_field_inv _ _ _ _ Hat) in E1 as (s1 & -> & Hsa & Hat1).
  apply bind_Some in E as ([scheme r2] & E2 & E).
  apply (read_field_inv _ _ _ _ Hat1) in E2 as (s2 & -> & _ & Hat2).
  apply bind_Some in E as ([host r3] & E3 & E).
  apply (read_field_inv _ _ _ _ Hat2) in E3 as (s3 & -> & Hha & Hat3).
  apply bind_Some in E as ([port r4] & E4 & E).
  apply (u16_inv _ _ _ _ Hat3) in E4 as (s4 & -> & Hp & Hat4).
  rewrite (is_empty_at _ _ Hat4) in E.
  case_bool_decide; [subst s4|done]. case_bool_decide; [done|]. case_bool_decide; [done|].
  simpl in E. destruct (_ && _) eqn:Es; [done|]. injection E as <-. split.
  - unfold pid_bytes. cbn [PartId.site PartId.scheme PartId.host PartId.port].
    by rewrite app_nil_r.
  - autorewrite with len. intros Hl.
    split_and!; simpl; [done..| |done|done|lia|unfold_limits; lia|lia].
    apply andb_false_iff in Es as [Es|Es]; apply negb_false_iff, bool_decide_eq_true in Es; auto.
Qed.

Lemma from_key_ok key p : key_ok key -> PartId.from_key key = Ok p -> pid_ok p.
Proof.
  intros (Hs & Hsa & Hsch & Hh & Hha & Hp) E. unfold PartId.from_key in E. cbv zeta in E.
  apply bind_Ok in E as (b & Eb%ok_or_Ok%encode_inv & E). subst b.
  destruct (_ >? _) eqn:Hl; [done|]. injection E as <-. rewrite len_pid_bytes in Hl. simpl in Hl.
  split_and!; simpl; [done..|lia|lia|lia].
Qed.

Lemma pid_bytes_inj p q : pid_ok p -> pid_ok q -> pid_bytes p = pid_bytes q -> p = q.
Proof.
  intros Hp Hq E. pose proof (decode_pid_bytes p Hp) as E1.
  rewrite E, decode_pid_bytes in E1 by done. congruence.
Qed.
End part_id.

(** ** The invariant of the engine *)
Definition entry_cost (kv : (byte * list byte) * list byte) : Z := cost kv.1.2 kv.2.

(** An entry within the caps, under a known namespace. *)
Definition entry_ok (kv : (byte * list byte) * list byte) : Prop :=
  (exists ns, kv.1.1 = Ns.code ns) /\ len kv.1.2 <= MAX_KEY_BYTES /\ len kv.2 <= MAX_VALUE_BYTES.

Record partition_ok (p : Partition) : Prop := {
  po_sorted : bt_sorted (entries p);
  po_nonempty : entries p <> [];
  po_bytes : bytes p = sum_Z entry_cost (entries p);
  po_quota : bytes p <= PARTITION_QUOTA_BYTES;
  po_count : len (entries p) <= MAX_ENTRIES_PER_PARTITION;
  po_entries : Forall entry_ok (entries p)
}.

(** Sorted maps, exact byte counts, every quota respected, no empty partition; and
    what is known of the partition ids. *)
Record engine_inv (Q : PartId.t -> Prop) (e : Engine) : Prop := {
  eo_sorted : bt_sorted (parts e);
  eo_parts : Forall (fun q => Q q.1 /\ partition_ok q.2) (parts e);
  eo_total : total e = sum_Z (fun q => bytes q.2) (parts e);
  eo_quota : total e <= GLOBAL_QUOTA_BYTES
}.
Arguments eo_sorted {Q} e _.
Arguments eo_parts {Q} e _.
Arguments eo_total {Q} e _.
Arguments eo_quota {Q} e _.

(** Partition ids that can be read back from disk, as the store needs; any ids at all. *)
Abbreviation engine_ok := (engine_inv pid_ok).
Abbreviation engine_sound := (engine_inv (fun _ => True)).

Lemma engine_inv_mono (P Q : PartId.t -> Prop) e : (forall pid, P pid -> Q pid) -> engine_inv P e -> engine_inv Q e.
Proof.
  intros H [H1 H2 H3 H4]. constructor; [done| |done..]. eapply Forall_impl; [exact H2|]. intros q [? ?]. auto.
Qed.

Ltac unfold_quotas :=
  unfold PARTITION_QUOTA_BYTES, GLOBAL_QUOTA_BYTES, ENTRY_OVERHEAD_BYTES,
    MAX_ENTRIES_PER_PARTITION in *;
  change (Z.shiftl 4 20) with 4194304 in *; change (Z.shiftl 64 20) with 67108864 in *.

Section invariant.
Context {Q : PartId.t -> Prop}.
Implicit Types (e : Engine) (p : Partition) (pid : PartId.t) (ns : Namespace).

Lemma cost_exact key value :
  len key <= MAX_KEY_BYTES -> len value <= MAX_VALUE_BYTES ->
  cost key value = len key + len value + 48.
Proof using Type.
  intros. unfold cost, sat_add. unfold_quotas. unfold_limits. unfold U64_MAX.
  pose proof (len_nonneg key). pose proof (len_nonneg value). lia.
Qed.

Lemma cost_range key value : 0 <= cost key value <= U64_MAX.
Proof using Type.
  unfold cost, sat_add, U64_MAX, ENTRY_OVERHEAD_BYTES.
  pose proof (len_nonneg key). pose proof (len_nonneg value). lia.
Qed.

Lemma entries_cost_nonneg (es : btree (byte * list byte) (list byte)) : 0 <= sum_Z entry_cost es.
Proof using Type. apply sum_Z_nonneg. intros a. apply cost_range. Qed.

Lemma sum_get_le {K V} `{Ord K} (f : K * V -> Z) (m : btree K V) k v :
  Forall (fun a => 0 <= f a) m -> bt_get m k = Some v -> f (k, v) <= sum_Z f m.
Proof using Type.
  intros Hf E%bt_get_elem. induction m as [|a m IH]; [by apply elem_of_nil in E|].
  apply Forall_cons in Hf as [Ha Hm]. rewrite sum_Z_cons.
  assert (0 <= sum_Z f m).
  { clear -Hm. induction m as [|b m IH]; [done|]. apply Forall_cons in Hm as [? ?].
    rewrite sum_Z_cons. specialize (IH H0). lia. }
  apply elem_of_cons in E as [<-|E]; [lia|]. specialize (IH Hm E). lia.
Qed.

Lemma partition_get e pid p :
  engine_inv Q e -> bt_get (parts e) pid = Some p -> Q pid /\ partition_ok p /\ 0 <= bytes p <= total e.
Proof.
  intros He E. pose proof (eo_parts e He) as Hp.
  pose proof (proj1 (Forall_forall _ _) Hp (pid, p) (bt_get_elem _ _ _ E)) as [H1 H2]. simpl in *.
  split_and!; [done..| |].
  - rewrite (po_bytes p H2). apply entries_cost_nonneg.
  - rewrite (eo_total e He). apply (sum_get_le (fun q => bytes q.2) _ pid p); [|done].
    eapply Forall_impl; [done|]. simpl. intros q [_ Hq]. rewrite (po_bytes _ Hq).
    apply entries_cost_nonneg.
Qed.

Lemma engine_total_nonneg e : engine_inv Q e -> 0 <= total e.
Proof.
  intros He. rewrite (eo_total e He). pose proof (eo_parts e He) as Hp.
  induction (parts e) as [|q l IH]; [done|]. apply Forall_cons in Hp as [[_ Hq] Hl].
  rewrite sum_Z_cons. rewrite (po_bytes _ Hq). pose proof (entries_cost_nonneg (entries q.2)).
  specialize (IH Hl). lia.
Qed.

Lemma entry_get p k v :
  partition_ok p -> bt_get (entries p) k = Some v -> 0 <= cost k.2 v <= bytes p.
Proof using Type.
  intros Hp E. split; [apply cost_range|]. rewrite (po_bytes p Hp).
  apply (sum_get_le entry_cost _ k v); [|done].
  apply Forall_forall. intros a _. apply cost_range.
Qed.

(** The cost of what a key held before a write. *)
Definition old_cost e pid ns key : Z :=
  match get e pid ns key with Some old => cost key old | None => 0 end.

Lemma old_cost_range e pid ns key :
  engine_inv Q e -> 0 <= old_cost e pid ns key <= usage e pid /\ usage e pid <= total e.
Proof.
  intros He. unfold old_cost, get, usage.
  destruct (bt_get (parts e) pid) as [p|] eqn:E; simpl.
  - destruct (partition_get e pid p He E) as (_ & Hp & Hb). split; [|lia].
    destruct (bt_get (entries p) (Ns.code ns, key)) as [v|] eqn:Ev; [|lia].
    by apply (entry_get p (Ns.code ns, key)).
  - pose proof (engine_total_nonneg e He). lia.
Qed.

(** What [check_put] verifies, with the saturation discharged. *)
Lemma check_put_Ok e pid ns key value :
  engine_inv Q e ->
  check_put e pid ns key value = Ok tt <->
  len key <= MAX_KEY_BYTES /\ len value <= MAX_VALUE_BYTES /\
  (get e pid ns key = None -> forall p, bt_get (parts e) pid = Some p ->
    len (entries p) < MAX_ENTRIES_PER_PARTITION) /\
  usage e pid - old_cost e pid ns key + cost key value <= PARTITION_QUOTA_BYTES /\
  total e - old_cost e pid ns key + cost key value <= GLOBAL_QUOTA_BYTES.
Proof.
  intros He. pose proof (old_cost_range e pid ns key He) as Ho.
  pose proof (eo_quota e He) as Hq. pose proof (cost_range key value) as Hc.
  unfold check_put. cbv zeta.
  destruct (len key >? MAX_KEY_BYTES) eqn:Hk; [split; [done|lia]|].
  destruct (len value >? MAX_VALUE_BYTES) eqn:Hv; [split; [done|lia]|].
  pose proof (cost_exact key value ltac:(lia) ltac:(lia)) as Hce.
  unfold old_cost, usage, get in *.
  set (ex := (old ← _; Some (cost key old))).
  assert (default 0 ex = match bt_get (parts e) pid ≫= (fun p => bt_get (entries p) (Ns.code ns, key))
    with Some old => cost key old | None => 0 end) as Hdef.
  { unfold ex. by destruct (_ ≫= _). }
  assert (bool_decide (ex = None) = bool_decide
    (bt_get (parts e) pid ≫= (fun p => bt_get (entries p) (Ns.code ns, key)) = None)) as Hex.
  { unfold ex. by destruct (bt_get (parts e) pid ≫= _). }
  rewrite Hdef, Hex. clear Hdef Hex ex.
  set (old := match _ ≫= _ with Some _ => _ | None => _ end) in *.
  set (pb := match bt_get (parts e) pid with Some p => bytes p | None => 0 end) in *.
  unfold sat_add, sat_sub. unfold_quotas. unfold_limits. unfold U64_MAX in *.
  destruct (bool_decide _ && _) eqn:Hn.
  { split; [done|]. intros (_ & _ & Hcount & _). apply andb_true_iff in Hn as [Hn1%bool_decide_eq_true Hn2].
    destruct (bt_get (parts e) pid) as [p|]; [|done]. specialize (Hcount Hn1 p eq_refl). lia. }
  assert (Hcount : bt_get (parts e) pid ≫= (fun p => bt_get (entries p) (Ns.code ns, key)) = None ->
    forall p, bt_get (parts e) pid = Some p -> len (entries p) < 10000).
  { intros Hnone p Hp. rewrite Hp in Hn. apply andb_false_iff in Hn as [Hn|Hn].
    - apply bool_decide_eq_false in Hn. rewrite Hp in Hnone. done.
    - lia. }
  destruct (_ >? 4194304) eqn:H1; [split; [done|lia]|].
  destruct (_ >? 67108864) eqn:H2; [split; [done|lia]|].
  split; [intros _|done]. split_and!; [lia..|done|lia|lia].
Qed.

(** The partition a write leaves behind. *)
Definition put_partition e pid ns key value : Partition :=
  let part := default partition_default (bt_get (parts e) pid) in
  {| entries := bt_insert (entries part) (Ns.code ns, key) value;
     bytes := sum_Z entry_cost (bt_insert (entries part) (Ns.code ns, key) value) |}.

Lemma put_eq e pid ns key value :
  engine_inv Q e -> check_put e pid ns key value = Ok tt ->
  put e pid ns key value =
    {| parts := bt_insert (parts e) pid (put_partition e pid ns key value);
       total := total e - old_cost e pid ns key + cost key value |} /\
  bytes (put_partition e pid ns key value) =
    usage e pid - old_cost e pid ns key + cost key value.
Proof.
  intros He (Hk & Hv & _ & H1 & H2)%check_put_Ok; [|done].
  pose proof (old_cost_range e pid ns key He) as Ho. pose proof (cost_range key value) as Hc.
  unfold put, put_partition, old_cost, usage, get in *. cbv zeta.
  destruct (bt_get (parts e) pid) as [p|] eqn:E; simpl in *.
  - destruct (partition_get e pid p He E) as (_ & Hp & Hb).
    rewrite bt_sum_insert by apply Hp. rewrite <- (po_bytes p Hp).
    unfold entry_cost. cbn [fst snd].
    destruct (bt_get (entries p) (Ns.code ns, key)) as [old|];
      unfold sat_add, sat_sub; unfold_quotas; unfold U64_MAX in *;
      (split; [|lia]; f_equal; [do 2 f_equal|]; lia).
  - unfold sum_Z, entry_cost. cbn [foldr fst snd].
    unfold sat_add, sat_sub; unfold_quotas; unfold U64_MAX in *.
    split; [|lia]. f_equal; [do 2 f_equal|]; lia.
Qed.

Lemma Forall_bt_insert {K V} `{Ord K} (P : K * V -> Prop) (m : btree K V) k v :
  Forall P m -> P (k, v) -> Forall P (bt_insert m k v).
Proof using Type.
  intros Hm Hk. induction m as [|[k0 v0] m IH]; simpl; [by repeat constructor|].
  apply Forall_cons in Hm as [H0 Hm]. destruct (cmp k k0); repeat constructor; auto.
Qed.

Lemma Forall_bt_remove {K V} `{Ord K} (P : K * V -> Prop) (m : btree K V) k :
  Forall P m -> Forall P (bt_remove m k).
Proof using Type.
  intros Hm. induction m as [|[k0 v0] m IH]; simpl; [done|].
  apply Forall_cons in Hm as [H0 Hm]. destruct (cmp k k0); repeat constructor; auto.
Qed.

Lemma bt_insert_ne_nil {K V} `{Ord K} (m : btree K V) k v : bt_insert m k v <> [].
Proof using Type. destruct m as [|[k0 v0] m]; simpl; [done|]. by destruct (cmp k k0). Qed.

Lemma put_ok e pid ns key value :
  engine_inv Q e -> Q pid -> check_put e pid ns key value = Ok tt ->
  engine_inv Q (put e pid ns key value).
Proof.
  intros He Hpid Hc. destruct (put_eq _ _ _ _ _ He Hc) as [-> Hb].
  apply check_put_Ok in Hc as (Hk & Hv & Hn & H1 & H2); [|done].
  assert (partition_ok (put_partition e pid ns key value)) as Hp'.
  { unfold put_partition, usage, get in *. cbv zeta in *.
    destruct (bt_get (parts e) pid) as [p|] eqn:E; simpl in *.
    - destruct (partition_get e pid p He E) as (_ & Hp & _).
      constructor; simpl; [by apply bt_sorted_insert, Hp|apply bt_insert_ne_nil|done|lia| |].
      + rewrite bt_len_insert by apply Hp. pose proof (po_count p Hp).
        destruct (bt_get (entries p) (Ns.code ns, key)) eqn:Eg; [lia|].
        specialize (Hn eq_refl p eq_refl). lia.
      + apply Forall_bt_insert; [apply Hp|]. split_and!; simpl; eauto.
    - constructor; simpl; [|done..|lia| |].
      + split; [|done]. intros k' Hk'. by apply elem_of_nil in Hk'.
      + by vm_compute.
      + constructor; [|done]. split_and!; simpl; eauto. }
  constructor; simpl.
  - apply bt_sorted_insert, He.
  - apply Forall_bt_insert; [apply He|]. done.
  - rewrite bt_sum_insert by apply He. cbn [snd]. rewrite Hb, (eo_total e He). unfold usage.
    destruct (bt_get (parts e) pid); lia.
  - lia.
Qed.

Lemma delete_eq e pid ns key :
  engine_inv Q e ->
  delete e pid ns key =
    match bt_get (parts e) pid with
    | None => (false, e)
    | Some p =>
        match bt_get (entries p) (Ns.code ns, key) with
        | None => (false, e)
        | Some old =>
            let es := bt_remove (entries p) (Ns.code ns, key) in
            (true,
             {| parts := if bool_decide (es = []) then bt_remove (parts e) pid
                         else bt_insert (parts e) pid {| entries := es; bytes := sum_Z entry_cost es |};
                total := total e - cost key old |})
        end
    end.
Proof.
  intros He. unfold delete. destruct (bt_get (parts e) pid) as [p|] eqn:E; [|done].
  destruct (bt_get (entries p) _) as [old|] eqn:Eg; [|done].
  destruct (partition_get e pid p He E) as (_ & Hp & Hb).
  pose proof (entry_get p _ _ Hp Eg) as Hc. simpl in Hc. cbv zeta. simpl.
  rewrite bt_sum_remove by apply Hp. rewrite Eg, <- (po_bytes p Hp).
  unfold entry_cost, sat_sub. cbn [fst snd].
  rewrite !Z.max_r by lia. done.
Qed.

Lemma delete_ok e pid ns key : engine_inv Q e -> engine_inv Q (delete e pid ns key).2.
Proof.
  intros He. rewrite delete_eq by done.
  destruct (bt_get (parts e) pid) as [p|] eqn:E; [|done].
  destruct (bt_get (entries p) _) as [old|] eqn:Eg; [|done].
  destruct (partition_get e pid p He E) as (Hpid & Hp & Hb).
  pose proof (entry_get p _ _ Hp Eg) as Hc. simpl in Hc. cbv zeta. simpl.
  assert (sum_Z entry_cost (bt_remove (entries p) (Ns.code ns, key)) = bytes p - cost key old) as Hs.
  { rewrite bt_sum_remove by apply Hp. rewrite Eg, <- (po_bytes p Hp). done. }
  pose proof (po_quota p Hp). pose proof (eo_quota e He). pose proof (eo_total e He) as Ht.
  case_bool_decide as Hes; (constructor; simpl; [| | |lia]).
  - apply bt_sorted_remove, He.
  - apply Forall_bt_remove, He.
  - rewrite bt_sum_remove by apply He. rewrite E. simpl. rewrite Hes in Hs.
    change (sum_Z entry_cost []) with 0 in Hs. lia.
  - apply bt_sorted_insert, He.
  - apply Forall_bt_insert; [apply He|]. simpl. split; [done|].
    constructor; simpl; [by apply bt_sorted_remove, Hp|done|done|lia| |by apply Forall_bt_remove, Hp].
    rewrite len_sum, bt_sum_remove by apply Hp. rewrite Eg, <- len_sum.
    pose proof (po_count p Hp). lia.
  - rewrite bt_sum_insert by apply He. rewrite E. simpl. lia.
Qed.

Lemma remove_partition_ok e pid : engine_inv Q e -> engine_inv Q (remove_partition e pid).2.
Proof.
  intros He. unfold remove_partition. destruct (bt_get (parts e) pid) as [p|] eqn:E; [|done].
  destruct (partition_get e pid p He E) as (_ & _ & Hb). pose proof (eo_quota e He).
  constructor; simpl; [apply bt_sorted_remove, He|apply Forall_bt_remove, He| |].
  - rewrite bt_sum_remove by apply He. rewrite E, <- (eo_total e He). simpl.
    unfold sat_sub. lia.
  - unfold sat_sub. unfold_quotas. lia.
Qed.

Lemma remove_site_ok e s : engine_inv Q e -> engine_inv Q (remove_site e s).2.
Proof.
  intros He. unfold remove_site. set (l := List.filter _ _). clearbody l.
  assert (forall acc, engine_inv Q acc.2 -> engine_inv Q (foldl (fun acc id =>
    let '(n, e) := remove_partition acc.2 id in (acc.1 + n, e)) acc l).2) as H.
  { induction l as [|id l IH]; intros acc Ha; [done|]. simpl. apply IH.
    pose proof (remove_partition_ok acc.2 id Ha). by destruct (remove_partition acc.2 id). }
  by apply H.
Qed.

Lemma default_ok : engine_inv Q engine_default.
Proof. by constructor. Qed.
End invariant.

(** ** Reading back *)
Section lookups.
Implicit Types (e : Engine) (pid : PartId.t) (ns : Namespace).

Lemma ns_code_inj a b : Ns.code a = Ns.code b -> a = b.
Proof. by destruct a, b. Qed.

Lemma ns_from_code ns : Ns.from_code (Ns.code ns) = Some ns.
Proof. by destruct ns. Qed.

Lemma ns_from_code_inv c ns : Ns.from_code c = Some ns -> c = Ns.code ns.
Proof. by destruct c; simpl; intros; simplify_eq. Qed.

Lemma get_put e pid ns key value pid' ns' key' :
  get (put e pid ns key value) pid' ns' key' =
    if decide (pid = pid' /\ ns = ns' /\ key = key') then Some value else get e pid' ns' key'.
Proof.
  unfold get, put. cbv zeta. cbn [parts]. rewrite bt_get_insert.
  case_decide as Hp; [subst pid'|rewrite decide_False by tauto; done].
  cbn [mbind option_bind entries]. rewrite bt_get_insert. case_decide as Hk.
  - injection Hk as Hn <-. apply ns_code_inj in Hn as <-. by rewrite decide_True.
  - rewrite decide_False by naive_solver. by destruct (bt_get (parts e) pid).
Qed.

Lemma get_delete {Q : PartId.t -> Prop} e pid ns key pid' ns' key' :
  engine_inv Q e ->
  get (delete e pid ns key).2 pid' ns' key' =
    if decide (pid = pid' /\ ns = ns' /\ key = key') then None else get e pid' ns' key'.
Proof.
  intros He. rewrite delete_eq by done. unfold get.
  destruct (bt_get (parts e) pid) as [p|] eqn:E; simpl.
  2: { case_decide as Hd; [destruct Hd as (-> & _); by rewrite E|done]. }
  destruct (bt_get (entries p) (Ns.code ns, key)) as [old|] eqn:Eg; simpl.
  2: { case_decide as Hd; [|done]. destruct Hd as (-> & -> & ->). by rewrite E. }
  set (es := bt_remove (entries p) (Ns.code ns, key)).
  assert (forall c k, bt_get es (c, k) =
    if decide ((Ns.code ns, key) = (c, k)) then None else bt_get (entries p) (c, k)) as Hes.
  { intros c k. unfold es. rewrite bt_get_remove. by repeat case_decide. }
  assert (bt_get (if bool_decide (es = []) then bt_remove (parts e) pid
    else bt_insert (parts e) pid {| entries := es; bytes := sum_Z entry_cost es |}) pid'
    ≫= (fun p => bt_get (entries p) (Ns.code ns', key')) =
    if decide (pid = pid') then bt_get es (Ns.code ns', key')
    else bt_get (parts e) pid' ≫= (fun p => bt_get (entries p) (Ns.code ns', key'))) as ->.
  { case_bool_decide as Hnil; rewrite ?bt_get_remove, ?bt_get_insert; case_decide; try done.
    by rewrite Hnil. }
  case_decide as Hp; [subst pid'|by rewrite decide_False by tauto].
  rewrite Hes, E. simpl. repeat case_decide; try done; naive_solver eauto using ns_code_inj.
Qed.

Lemma get_remove_partition e pid pid' ns key :
  get (remove_partition e pid).2 pid' ns key =
    if decide (pid = pid') then None else get e pid' ns key.
Proof.
  unfold remove_partition, get. destruct (bt_get (parts e) pid) as [p|] eqn:E; simpl.
  - rewrite bt_get_remove. by case_decide.
  - case_decide; [subst; by rewrite E|done].
Qed.

Lemma get_remove_many e n0 l pid ns key :
  get (foldl (fun acc id => let '(n, e) := remove_partition acc.2 id in (acc.1 + n, e)) (n0, e) l).2
    pid ns key = if decide (pid ∈ l) then None else get e pid ns key.
Proof.
  revert e n0. induction l as [|id l IH]; intros e n0.
  - by rewrite decide_False by apply not_elem_of_nil.
  - cbn [foldl fst snd]. pose proof (get_remove_partition e id pid ns key) as Hg.
    destruct (remove_partition e id) as [n e']. rewrite IH. simpl in Hg. rewrite Hg.
    repeat case_decide; rewrite ?elem_of_cons in *; naive_solver.
Qed.

Lemma get_elem_keys e pid ns key v : get e pid ns key = Some v -> pid ∈ bt_keys (parts e).
Proof. intros (p & E & _)%bind_Some. by eapply elem_bt_keys, bt_get_elem. Qed.

Lemma get_remove_site e s pid ns key :
  get (remove_site e s).2 pid ns key =
    if decide (PartId.site pid = s) then None else get e pid ns key.
Proof.
  unfold remove_site. rewrite get_remove_many.
  assert (pid ∈ List.filter (fun id => bool_decide (PartId.site id = s)) (bt_keys (parts e)) <->
    pid ∈ bt_keys (parts e) /\ PartId.site pid = s) as Hf.
  { rewrite !list_elem_of_In, filter_In, bool_decide_eq_true. done. }
  case_decide as H1; case_decide as H2; try tauto.
  destruct (get e pid ns key) eqn:E; [|done]. apply get_elem_keys in E. tauto.
Qed.

(** An engine is determined by what it returns: equal lookups, equal state. *)
Lemma engine_ext {Q : PartId.t -> Prop} e1 e2 :
  engine_inv Q e1 -> engine_inv Q e2 ->
  (forall pid ns key, get e1 pid ns key = get e2 pid ns key) -> e1 = e2.
Proof.
  intros H1 H2 Hg.
  assert (forall e pid p, engine_inv Q e -> bt_get (parts e) pid = Some p ->
    exists ns key v, get e pid ns key = Some v) as Hne.
  { intros e pid p He E. destruct (partition_get e pid p He E) as (_ & Hp & _).
    destruct (entries p) as [|[[c k] v] es] eqn:Ee; [by destruct (po_nonempty p Hp)|].
    pose proof (po_entries p Hp) as Hen. rewrite Ee in Hen.
    apply Forall_cons in Hen as [[[ns Hc] _] _]. simpl in Hc. subst c.
    exists ns, k, v. unfold get. rewrite E. simpl. rewrite Ee. unfold bt_get.
    by rewrite cmp_refl. }
  assert (parts e1 = parts e2) as Hparts.
  { apply bt_ext; [apply H1|apply H2|]. intros pid.
    destruct (bt_get (parts e1) pid) as [p1|] eqn:E1, (bt_get (parts e2) pid) as [p2|] eqn:E2; try done.
    - destruct (partition_get _ _ _ H1 E1) as (_ & Hp1 & _).
      destruct (partition_get _ _ _ H2 E2) as (_ & Hp2 & _).
      assert (entries p1 = entries p2) as Hes.
      { apply bt_ext; [apply Hp1|apply Hp2|]. intros [c k].
        assert (forall p, partition_ok p -> (forall ns, c <> Ns.code ns) -> bt_get (entries p) (c, k) = None) as Hbad.
        { intros p Hp Hc. destruct (bt_get (entries p) (c, k)) as [v|] eqn:E; [|done].
          apply bt_get_elem in E. pose proof (proj1 (Forall_forall _ _) (po_entries p Hp) _ E) as [[ns Hns] _].
          by destruct (Hc ns). }
        destruct (Ns.from_code c) as [ns|] eqn:Ec.
        - apply ns_from_code_inv in Ec as ->. specialize (Hg pid ns k). unfold get in Hg.
          by rewrite E1, E2 in Hg.
        - trans (@None (list byte)); [|symmetry]; apply Hbad; try done;
            intros ns ->; by rewrite ns_from_code in Ec. }
      assert (bytes p1 = bytes p2) as Hb by (by rewrite (po_bytes _ Hp1), (po_bytes _ Hp2), Hes).
      destruct p1, p2. simpl in *. by subst.
    - destruct (Hne e1 pid p1 H1 E1) as (ns & k & v & Hv). rewrite Hg in Hv.
      unfold get in Hv. by rewrite E2 in Hv.
    - destruct (Hne e2 pid p2 H2 E2) as (ns & k & v & Hv). rewrite <- Hg in Hv.
      unfold get in Hv. by rewrite E1 in Hv. }
  assert (total e1 = total e2) as Ht by (by rewrite (eo_total _ H1), (eo_total _ H2), Hparts).
  destruct e1, e2. simpl in *. by subst.
Qed.
End lookups.
