(* ===== verification/Recovery.v ===== *)
(** * Recovery and snapshots

    Theorems about [Engine::recover] and [Engine::snapshot_excluding]: a log is
    read as the longest acceptable sequence of whole records, every recovered
    engine satisfies the engine invariant, and a snapshot recovers to exactly the
    state it was taken from. *)
From stdpp Require Import relations.
From S2P Require Import Prelude Bytes OrdMap Text Partition Checksum Format Engine.
Local Open Scope Z_scope.

(** ** Logs as sequences of operations *)
Definition records (ops : list Op) : list byte := concat (map record_of ops).

Fixpoint replay (e : Engine) (ops : list Op) : option Engine :=
  match ops with
  | [] => Some e
  | op :: ops => e ← apply_logged e op; replay e ops
  end.

(** Reading stops here: what follows is not a record the engine accepts. *)
Definition stops (e : Engine) (tail : list byte) : Prop :=
  forall op used, decode_record tail = Record op used -> apply_logged e op = None.

Section replay.
Implicit Types (e : Engine) (op : Op) (ops : list Op).

Lemma records_app a b : records (a ++ b) = records a ++ records b.
Proof. unfold records. by rewrite map_app, concat_app. Qed.

Lemma replay_app e a b : replay e (a ++ b) = (replay e a ≫= fun e => replay e b).
Proof.
  revert e. induction a as [|op a IH]; intros e; simpl; [done|].
  destruct (apply_logged e op); simpl; auto.
Qed.

Lemma len_records_ge ops : len ops <= len (records ops).
Proof.
  induction ops as [|op ops IH]; [done|].
  change (records (op :: ops)) with (record_of op ++ records ops).
  rewrite len_cons, len_app, len_record_of. pose proof (len_op_body op) as [? _].
  unfold FRAME_LEN. lia.
Qed.

Lemma apply_logged_ok e op e' :
  engine_ok e -> op_ok op -> apply_logged e op = Some e' -> engine_ok e'.
Proof.
  intros He Hop E.
  assert (forall pid, len pid <= MAX_PARTITION_ID_BYTES -> forall p, PartId.decode pid = Some p -> pid_ok p) as Hpid.
  { intros pid Hl p Hd. apply decode_inv in Hd as [_ H]; [auto|].
    unfold slice_ok. unfold_limits. lia. }
  destruct op as [c pid key value|c pid key]; simpl in *; destruct Hop as (Hl & _ & _).
  - apply bind_Some in E as (ns & _ & E). apply bind_Some in E as (p & Hp & E).
    apply bind_Some in E as ([] & Hc%ok_Some & [= <-]). apply put_ok; eauto.
  - apply bind_Some in E as (ns & _ & E). apply bind_Some in E as (p & Hp & [= <-]).
    by apply delete_ok.
Qed.

Lemma replay_ok e ops e' :
  engine_ok e -> Forall op_ok ops -> replay e ops = Some e' -> engine_ok e'.
Proof.
  intros He Hops. revert e He. induction Hops as [|op ops Hop Hops IH]; intros e He; simpl.
  - by intros [= <-].
  - intros (e1 & E1 & E)%bind_Some. eauto using apply_logged_ok.
Qed.

(** The live operations are what the log replays. *)
Lemma apply_logged_put e pid ns key value :
  pid_ok pid -> check_put e pid ns key value = Ok tt ->
  apply_logged e (Put (Ns.code ns) (pid_bytes pid) key value) = Some (put e pid ns key value).
Proof.
  intros Hp Hc. simpl. rewrite ns_from_code. simpl. rewrite decode_pid_bytes by done.
  simpl. by rewrite Hc.
Qed.

Lemma apply_logged_delete e pid ns key :
  pid_ok pid ->
  apply_logged e (Delete (Ns.code ns) (pid_bytes pid) key) = Some (delete e pid ns key).2.
Proof.
  intros Hp. simpl. rewrite ns_from_code. simpl. by rewrite decode_pid_bytes by done.
Qed.
End replay.

(** ** The recovery loop *)
Section loop.
Implicit Types (e : Engine) (ops : list Op) (pre rest tail : list byte).

Lemma stops_nil e : stops e [].
Proof. intros ??. done. Qed.

Lemma recover_loop_step fuel pre rest e :
  recover_loop (S fuel) (pre ++ rest) e (len pre) =
    match decode_record rest with
    | Record op used =>
        match apply_logged e op with
        | None => (e, len pre)
        | Some e => recover_loop fuel (pre ++ rest) e (sat_add (len pre) used)
        end
    | _ => (e, len pre)
    end.
Proof. cbn [recover_loop]. rewrite get_from_app. done. Qed.

Lemma sat_add_len pre rest :
  slice_ok (pre ++ rest) -> sat_add (len pre) (len rest) = len (pre ++ rest).
Proof. rewrite len_app. unfold slice_ok, sat_add. rewrite len_app. unfold_width. lia. Qed.

(** Whole acceptable records are replayed one after the other. *)
Lemma recover_loop_ops ops fuel pre tail e e' :
  slice_ok (pre ++ records ops ++ tail) -> Forall op_ok ops -> replay e ops = Some e' ->
  stops e' tail -> (length ops <= fuel)%nat ->
  recover_loop fuel (pre ++ records ops ++ tail) e (len pre) = (e', len (pre ++ records ops)).
Proof.
  intros Hok Hops. revert fuel pre e Hok.
  induction Hops as [|op ops Hop Hops IH]; intros fuel pre e Hok Hr Hst Hf; simpl in Hr.
  - simplify_eq. cbn [records map concat]. rewrite !app_nil_r. simpl app in *.
    destruct fuel as [|fuel]; [done|]. rewrite recover_loop_step.
    destruct (decode_record tail) as [|op used|] eqn:E; [done| |done].
    by rewrite (Hst _ _ E).
  - apply bind_Some in Hr as (e1 & E1 & Hr). destruct fuel as [|fuel]; [simpl in Hf; lia|].
    change (records (op :: ops)) with (record_of op ++ records ops) in *.
    rewrite <- app_assoc in Hok |- *. rewrite recover_loop_step.
    pose proof (slice_ok_app _ _ Hok) as [_ Hok2].
    rewrite decode_record_of by done. rewrite E1.
    rewrite app_assoc in Hok |- *. rewrite sat_add_len by (by apply slice_ok_app in Hok as [? _]).
    rewrite (IH fuel (pre ++ record_of op) e1); [by rewrite app_assoc|done..|simpl in Hf; lia].
Qed.

(** Every run of the loop, given fuel for the bytes it faces, is of that
    form: it stops only because what follows is not acceptable. *)
Lemma recover_loop_inv fuel pre rest e :
  slice_ok (pre ++ rest) -> (length rest <= fuel)%nat ->
  exists ops tail e', rest = records ops ++ tail /\ Forall op_ok ops /\
    replay e ops = Some e' /\ stops e' tail /\
    recover_loop fuel (pre ++ rest) e (len pre) = (e', len (pre ++ records ops)).
Proof.
  revert pre rest e. induction fuel as [|fuel IH]; intros pre rest e Hok Hf.
  - assert (rest = []) as -> by (destruct rest; [done|simpl in Hf; lia]).
    exists [], [], e. cbn [records map concat]. rewrite !app_nil_r.
    split_and!; [done..|apply stops_nil|done].
  - pose proof (slice_ok_app _ _ Hok) as [_ Hok2]. rewrite recover_loop_step.
    destruct (decode_record rest) as [|op used|] eqn:E.
    + exists [], rest, e. cbn [records map concat]. rewrite !app_nil_r.
      split_and!; [done..| |done]. intros ??. by rewrite E.
    + destruct (apply_logged e op) as [e1|] eqn:Ea.
      2: { exists [], rest, e. cbn [records map concat]. rewrite !app_nil_r.
        split_and!; [done..| |done]. intros ?? E'. rewrite E in E'. by simplify_eq. }
      apply decode_record_inv in E as (Hop & -> & rest' & ->); [|done].
      rewrite app_assoc in Hok |- *. rewrite sat_add_len by (by apply slice_ok_app in Hok as [? _]).
      destruct (IH (pre ++ record_of op) rest' e1) as (ops & tail & e' & -> & Hops & Hr & Hst & Hl);
        [done| |].
      { rewrite length_app in Hf. pose proof (len_record_ok op Hop) as Hl.
        unfold FRAME_LEN, len in Hl. lia. }
      exists (op :: ops), tail, e'. change (records (op :: ops)) with (record_of op ++ records ops).
      rewrite Hl. simpl replay. rewrite Ea. rewrite <- !app_assoc.
      split_and!; [done|by constructor|done..].
    + exists [], rest, e. cbn [records map concat]. rewrite !app_nil_r.
      split_and!; [done..| |done]. intros ??. by rewrite E.
Qed.

Lemma recover_ops ops tail e :
  slice_ok (header_bytes ++ records ops ++ tail) -> Forall op_ok ops ->
  replay engine_default ops = Some e -> stops e tail ->
  recover (header_bytes ++ records ops ++ tail) =
    Ok {| engine := e; valid_len := len (header_bytes ++ records ops); fresh := false |}.
Proof.
  intros Hok Hops Hr Hst. unfold recover. rewrite check_header_app by done.
  cbn [mbind result_bind]. rewrite <- len_header. rewrite (recover_loop_ops ops _ header_bytes tail engine_default e); [done..|].
  rewrite !length_app. pose proof (len_records_ge ops). unfold len in *. lia.
Qed.

(** A torn record is where reading stops. *)
Lemma stops_torn e tail : decode_record tail = Torn -> stops e tail.
Proof. intros E ??. by rewrite E. Qed.

Lemma stops_truncated e op n :
  op_ok op -> (n < length (record_of op))%nat -> stops e (take n (record_of op)).
Proof.
  intros Hop Hn. destruct n as [|n]; [apply stops_nil|].
  apply stops_torn, decode_truncated; [done|lia].
Qed.
End loop.

(** ** Snapshots *)
Definition part_ops (q : PartId.t * Partition) : list Op :=
  map (fun kv => Put kv.1.1 (pid_bytes q.1) kv.1.2 kv.2) (entries q.2).

Definition snapshot_ops (excl : PartId.t -> bool) (ps : btree PartId.t Partition) : list Op :=
  concat (map part_ops (List.filter (fun q => negb (excl q.1)) ps)).

(** Every entry of the first engine is an entry of the second. *)
Definition sub_engine (e1 e2 : Engine) : Prop :=
  forall pid ns key v, get e1 pid ns key = Some v -> get e2 pid ns key = Some v.

Lemma Put_inj a b c d a' b' c' d' :
  Put a b c d = Put a' b' c' d' -> a = a' /\ b = b' /\ c = c' /\ d = d'.
Proof. by intros [= -> -> -> ->]. Qed.

Section snapshot.
Implicit Types (e : Engine) (pid : PartId.t) (ns : Namespace) (excl : PartId.t -> bool).

Lemma snapshot_entries_eq pb es :
  Forall entry_ok es -> len pb <= MAX_PARTITION_ID_BYTES ->
  Forall op_ok (map (fun kv => Put kv.1.1 pb kv.1.2 kv.2) es) /\
  snapshot_entries pb es = Ok (records (map (fun kv => Put kv.1.1 pb kv.1.2 kv.2) es)).
Proof.
  intros Hes Hpb. induction Hes as [|[[c k] v] es [_ [Hk Hv]] _ [IH1 IH2]]; [done|].
  assert (op_ok (Put c pb k v)) as Hop by done. split; [by constructor|].
  cbn [snapshot_entries]. rewrite encode_record_ok by done. cbn [mbind result_bind].
  by rewrite IH2.
Qed.

Lemma snapshot_parts_eq excl ps :
  Forall (fun q => pid_ok q.1 /\ partition_ok q.2) ps ->
  Forall op_ok (snapshot_ops excl ps) /\
  snapshot_parts excl ps = Ok (records (snapshot_ops excl ps)).
Proof.
  intros Hps. induction Hps as [|[pid p] ps [Hpid Hp] _ [IH1 IH2]]; [done|].
  simpl in Hpid, Hp. cbn [snapshot_parts]. unfold snapshot_ops. simpl List.filter.
  destruct (excl pid); [done|]. cbn [negb map concat].
  destruct (snapshot_entries_eq (pid_bytes pid) (entries p)) as [H1 H2];
    [apply Hp|by apply len_pid_bytes_ok|].
  rewrite encode_ok by done. cbn [ok_or mbind result_bind]. rewrite H2. cbn [mbind result_bind].
  rewrite IH2. cbn [mbind result_bind]. split; [by apply Forall_app|]. by rewrite records_app.
Qed.

Lemma snapshot_eq e excl :
  engine_ok e ->
  Forall op_ok (snapshot_ops excl (parts e)) /\
  snapshot_excluding e excl = Ok (header_bytes ++ records (snapshot_ops excl (parts e))).
Proof.
  intros He. destruct (snapshot_parts_eq excl (parts e)) as [H1 H2]; [apply He|].
  split; [done|]. unfold snapshot_excluding. by rewrite H2.
Qed.

Lemma snapshot_ops_elem e excl op :
  engine_ok e -> op ∈ snapshot_ops excl (parts e) <->
  exists pid ns key v, excl pid = false /\ pid_ok pid /\ get e pid ns key = Some v /\
    op = Put (Ns.code ns) (pid_bytes pid) key v.
Proof.
  intros He. unfold snapshot_ops, part_ops. rewrite list_elem_of_In, in_concat. split.
  - intros (l & (q & <- & Hq)%in_map_iff & ([[c k] v] & <- & Hkv)%in_map_iff).
    apply filter_In in Hq as [Hq Hd%negb_true_iff]. destruct q as [pid p]. simpl in *.
    apply list_elem_of_In in Hq, Hkv. apply bt_elem_get in Hq; [|apply He].
    destruct (partition_get e pid p He Hq) as (Hpid & Hp & _).
    pose proof (proj1 (Forall_forall _ _) (po_entries p Hp) _ Hkv) as [[ns Hns] _]. simpl in Hns. subst c.
    exists pid, ns, k, v. split_and!; [done..| |done].
    unfold get. rewrite Hq. simpl. apply bt_elem_get; [apply Hp|done].
  - intros (pid & ns & k & v & Hd & _ & Hg & ->). unfold get in Hg.
    apply bind_Some in Hg as (p & Hp & Hv). apply bt_get_elem in Hp, Hv.
    exists (part_ops (pid, p)). split.
    + apply in_map_iff. exists (pid, p). split; [done|]. apply filter_In. simpl. rewrite Hd.
      split; [by apply list_elem_of_In|done].
    + apply in_map_iff. exists ((Ns.code ns, k), v). split; [done|]. by apply list_elem_of_In.
Qed.

(** *** Smaller states *)
Lemma entries_sub e1 e pid q :
  engine_ok e1 -> sub_engine e1 e -> bt_get (parts e1) pid = Some q ->
  exists p, bt_get (parts e) pid = Some p /\
    forall ck w, bt_get (entries q) ck = Some w -> bt_get (entries p) ck = Some w.
Proof.
  intros H1 Hsub Hq. destruct (partition_get e1 pid q H1 Hq) as (_ & Hqo & _).
  assert (forall ck w, bt_get (entries q) ck = Some w ->
    exists p, bt_get (parts e) pid = Some p /\ bt_get (entries p) ck = Some w) as Hx.
  { intros [c k] w Hw.
    pose proof (proj1 (Forall_forall _ _) (po_entries q Hqo) _ (bt_get_elem _ _ _ Hw)) as [[ns Hns] _].
    simpl in Hns. subst c. specialize (Hsub pid ns k w). unfold get in Hsub. rewrite Hq in Hsub.
    apply Hsub, bind_Some in Hw as (p & ? & ?). eauto. }
  destruct (entries q) as [|[ck w] es] eqn:Ee; [by destruct (po_nonempty q Hqo)|].
  destruct (Hx ck w) as (p & Hp & _); [unfold bt_get; by rewrite cmp_refl|].
  exists p. split; [done|]. intros ck' w' (p' & Hp' & ?)%Hx. by simplify_eq.
Qed.

Lemma entries_sub_sum es p :
  partition_ok p -> bt_sorted es ->
  (forall ck w, bt_get es ck = Some w -> bt_get (entries p) ck = Some w) ->
  sum_Z entry_cost es <= bytes p /\ len es <= len (entries p).
Proof.
  intros Hp Hes Hsub. rewrite (po_bytes p Hp), !len_sum.
  split; (apply bt_sum_le; [done|apply Hp| |intros ck w Hw; exists w; split; [auto|lia]]).
  - apply Forall_forall. intros a _. apply cost_range.
  - by apply Forall_forall.
Qed.

(** The entries a write leaves in its partition, and their cost. *)
Definition put_entries e pid ns key value : btree (byte * list byte) (list byte) :=
  bt_insert (entries (default partition_default (bt_get (parts e) pid))) (Ns.code ns, key) value.

Lemma put_entries_spec e pid ns key value :
  engine_ok e ->
  bt_sorted (put_entries e pid ns key value) /\
  sum_Z entry_cost (put_entries e pid ns key value) =
    usage e pid - old_cost e pid ns key + cost key value /\
  (get e pid ns key = None -> len (put_entries e pid ns key value) =
    match bt_get (parts e) pid with Some q => len (entries q) + 1 | None => 1 end).
Proof.
  intros He. unfold put_entries, usage, old_cost, get.
  destruct (bt_get (parts e) pid) as [q|] eqn:E; simpl.
  - destruct (partition_get e pid q He E) as (_ & Hq & _). split; [by apply bt_sorted_insert, Hq|].
    rewrite bt_sum_insert, (bt_len_insert (entries q)) by apply Hq. rewrite (po_bytes q Hq).
    destruct (bt_get (entries q) _); by split.
  - split; [|split; [unfold entry_cost; simpl; lia|done]]. split; [|done]. intros k' Hk'.
    by apply elem_of_nil in Hk'.
Qed.

Lemma total_sub e1 e pid p es :
  engine_ok e1 -> engine_ok e -> sub_engine e1 e -> bt_get (parts e) pid = Some p ->
  sum_Z entry_cost es <= bytes p -> total e1 - usage e1 pid + sum_Z entry_cost es <= total e.
Proof.
  intros H1 He Hsub Hp Hes. rewrite (eo_total e1 H1), (eo_total e He).
  trans (sum_Z (fun q => bytes q.2)
    (bt_insert (parts e1) pid {| entries := es; bytes := sum_Z entry_cost es |})).
  { rewrite bt_sum_insert by apply H1. unfold usage. simpl. destruct (bt_get (parts e1) pid); lia. }
  apply bt_sum_le; [apply bt_sorted_insert, H1|apply He| |].
  { eapply Forall_impl; [apply He|]. intros q [_ Hq]. simpl. rewrite (po_bytes _ Hq).
    apply entries_cost_nonneg. }
  intros pid' q. rewrite bt_get_insert. case_decide as Hd.
  { intros [= <-]. subst pid'. exists p. by split. }
  intros Hq. destruct (partition_get e1 pid' q H1 Hq) as (_ & Hqo & _).
  destruct (entries_sub e1 e pid' q H1 Hsub Hq) as (p' & Hp' & Hsub'). exists p'. split; [done|].
  destruct (partition_get e pid' p' He Hp') as (_ & Hpo' & _). simpl. rewrite (po_bytes q Hqo).
  apply entries_sub_sum; [done|apply Hqo|done].
Qed.

(** A write of an entry of a larger legal state is always within the caps. *)
Lemma check_put_sub e1 e pid ns key v :
  engine_ok e1 -> engine_ok e -> sub_engine e1 e -> get e pid ns key = Some v ->
  check_put e1 pid ns key v = Ok tt.
Proof.
  intros H1 He Hsub Hg. pose proof Hg as (p & Hp & Hv)%bind_Some.
  destruct (partition_get e pid p He Hp) as (_ & Hpo & _).
  pose proof (proj1 (Forall_forall _ _) (po_entries p Hpo) _ (bt_get_elem _ _ _ Hv)) as (_ & Hk & Hvl).
  destruct (put_entries_spec e1 pid ns key v H1) as (Hs & Hsum & Hlen).
  destruct (entries_sub_sum (put_entries e1 pid ns key v) p) as [H2 H3]; [done..| |].
  { intros [c k] w. unfold put_entries. rewrite bt_get_insert. case_decide as Hd.
    - injection Hd as <- <-. by intros [= <-].
    - destruct (bt_get (parts e1) pid) as [q|] eqn:E; [|done]. simpl.
      destruct (entries_sub e1 e pid q H1 Hsub E) as (p' & Hp' & Hsub'). simplify_eq. apply Hsub'. }
  pose proof (total_sub e1 e pid p _ H1 He Hsub Hp H2) as Htot.
  pose proof (po_quota p Hpo). pose proof (po_count p Hpo). pose proof (eo_quota e He).
  apply (check_put_Ok _ _ _ _ _ H1). split_and!; [done|done| |lia|lia].
  intros Hnone q Hq. specialize (Hlen Hnone). rewrite Hq in Hlen. lia.
Qed.

(** Replaying entries of a legal state rebuilds exactly those entries. *)
Lemma replay_entries e ops e1 :
  engine_ok e -> engine_ok e1 -> sub_engine e1 e ->
  Forall (fun op => exists pid ns key v, pid_ok pid /\ get e pid ns key = Some v /\
    op = Put (Ns.code ns) (pid_bytes pid) key v) ops ->
  exists e2, replay e1 ops = Some e2 /\ engine_ok e2 /\
    forall pid ns key v, pid_ok pid ->
      get e2 pid ns key = Some v <->
      get e1 pid ns key = Some v \/
      (get e pid ns key = Some v /\ Put (Ns.code ns) (pid_bytes pid) key v ∈ ops).
Proof.
  intros He H1 Hsub Hops. revert e1 H1 Hsub.
  induction Hops as [|op ops (pid & ns & key & v & Hpid & Hg & ->) Hops IH]; intros e1 H1 Hsub.
  - exists e1. split; [done|]. split; [done|]. intros. rewrite elem_of_nil. tauto.
  - pose proof (check_put_sub e1 e pid ns key v H1 He Hsub Hg) as Hc.
    destruct (IH (put e1 pid ns key v)) as (e2 & Hr & H2 & Hget).
    { by apply put_ok. }
    { intros pid' ns' key' v'. rewrite get_put. case_decide as Hd; [|apply Hsub].
      destruct Hd as (<- & <- & <-). by intros [= <-]. }
    exists e2. split_and!; [by cbn [replay]; rewrite apply_logged_put by done|done|].
    intros pid' ns' key' v' Hpid'. rewrite Hget, get_put by done. rewrite elem_of_cons.
    case_decide as Hd.
    + destruct Hd as (<- & <- & <-). split.
      * intros [[= <-]|[? ?]]; auto.
      * intros [Hx%Hsub|[Hx _]]; rewrite Hg in Hx; simplify_eq; auto.
    + split; [naive_solver|]. intros [?|[? [Heq|?]]]; [auto| |auto].
      exfalso. apply Hd. apply Put_inj in Heq as (Hn & Hb & <- & <-).
      apply ns_code_inj in Hn. apply pid_bytes_inj in Hb; [|done..]. auto.
Qed.

(** Length of a snapshot: at most 22 bytes per accounted byte. *)
Lemma len_part_ops q :
  pid_ok q.1 -> partition_ok q.2 -> len (records (part_ops q)) <= 22 * bytes q.2.
Proof.
  intros Hpid Hp. rewrite (po_bytes _ Hp). unfold part_ops.
  pose proof (len_pid_bytes_ok _ Hpid) as Hl. pose proof (po_entries _ Hp) as Hes.
  induction Hes as [|[[c k] v] es [_ [Hk Hv]] _ IH]; [done|]. simpl in Hk, Hv.
  cbn [map fst snd]. change (records (?x :: ?l)) with (record_of x ++ records l).
  rewrite len_app, len_record_of, sum_Z_cons. unfold op_body. cbn [op_fields].
  rewrite len_encode_body. unfold entry_cost at 1. cbn [fst snd]. rewrite cost_exact by done.
  unfold_limits. pose proof (len_nonneg k). pose proof (len_nonneg v). lia.
Qed.

Lemma len_snapshot e excl :
  engine_ok e -> len (records (snapshot_ops excl (parts e))) <= 22 * total e.
Proof.
  intros He. rewrite (eo_total e He). pose proof (eo_parts e He) as Hps.
  induction Hps as [|q ps [Hpid Hp] _ IH]; [done|]. rewrite sum_Z_cons.
  unfold snapshot_ops in *. simpl List.filter.
  assert (0 <= bytes q.2) by (rewrite (po_bytes _ Hp); apply entries_cost_nonneg).
  destruct (excl q.1); cbn [negb]; [lia|]. cbn [map concat]. rewrite records_app, len_app.
  pose proof (len_part_ops q Hpid Hp). lia.
Qed.

(** A snapshot is read back as the state it was taken from, less what it
    excludes. *)
Lemma recover_snapshot e excl :
  engine_ok e ->
  exists log e', snapshot_excluding e excl = Ok log /\
    len log <= HEADER_LEN + 22 * total e /\ slice_ok log /\
    recover log = Ok {| engine := e'; valid_len := len log; fresh := false |} /\ engine_ok e' /\
    (forall pid ns key, get e' pid ns key = if excl pid then None else get e pid ns key).
Proof.
  intros He. destruct (snapshot_eq e excl He) as [Hops Hsn].
  set (ops := snapshot_ops excl (parts e)) in *.
  destruct (replay_entries e ops engine_default) as (e' & Hr & He' & Hget).
  { done. } { apply default_ok. } { intros ????. done. }
  { apply Forall_forall. intros op Hop. apply (snapshot_ops_elem e excl op He) in Hop.
    naive_solver. }
  assert (len (header_bytes ++ records ops) <= HEADER_LEN + 22 * total e) as Hlen.
  { rewrite len_app, len_header. pose proof (len_snapshot e excl He). unfold ops. lia. }
  assert (slice_ok (header_bytes ++ records ops)) as Hok.
  { unfold slice_ok. pose proof (eo_quota e He). unfold_quotas. unfold ISIZE_MAX, HEADER_LEN in *. lia. }
  exists (header_bytes ++ records ops), e'. split_and!; [done..| |done|].
  - pose proof (recover_ops ops [] e') as Hrec. rewrite app_nil_r in Hrec.
    apply Hrec; [done..|]. apply stops_nil.
  - intros pid ns key.
    assert (forall v, get e' pid ns key = Some v <-> excl pid = false /\ get e pid ns key = Some v) as Hiff.
    { intros v. split.
      - intros Hv. assert (pid_ok pid) as Hpid.
        { pose proof Hv as (p & Hp & _)%bind_Some. by destruct (partition_get e' pid p He' Hp). }
        apply Hget in Hv as [Hv|[Hv Hin]]; [done| |done].
        apply (snapshot_ops_elem e excl) in Hin as (pid' & ns' & k' & v' & Hd & Hpid' & _ & (_ & Hb & _)%Put_inj); [|done].
        apply pid_bytes_inj in Hb as ->; done.
      - intros [Hd Hv]. assert (pid_ok pid) as Hpid.
        { pose proof Hv as (p & Hp & _)%bind_Some. by destruct (partition_get e pid p He Hp). }
        apply Hget; [done|]. right. split; [done|].
        apply snapshot_ops_elem; [done|]. naive_solver. }
    destruct (get e' pid ns key) as [v|].
    + destruct (proj1 (Hiff v) eq_refl) as [-> ->]. done.
    + destruct (excl pid); [done|]. destruct (get e pid ns key) as [v|]; [|done].
      by apply (proj2 (Hiff v)).
Qed.
End snapshot.

(** ** Reachable engines *)
(** The steps the store takes on its engine. *)
Inductive engine_step : Engine -> Engine -> Prop :=
| step_put e pid ns key value :
    check_put e pid ns key value = Ok tt -> engine_step e (put e pid ns key value)
| step_delete e pid ns key : engine_step e (delete e pid ns key).2
| step_remove_partition e pid : engine_step e (remove_partition e pid).2
| step_remove_site e s : engine_step e (remove_site e s).2.

Lemma engine_step_ok e e' : engine_step e e' -> engine_sound e -> engine_sound e'.
Proof. destruct 1; eauto using put_ok, delete_ok, remove_partition_ok, remove_site_ok. Qed.

Lemma recover_prefix log r :
  slice_ok log -> recover log = Ok r ->
  r = {| engine := engine_default; valid_len := 0; fresh := true |} \/
  fresh r = false /\ exists ops tail,
    log = header_bytes ++ records ops ++ tail /\ Forall op_ok ops /\
    replay engine_default ops = Some (engine r) /\
    valid_len r = len (header_bytes ++ records ops) /\ stops (engine r) tail.
Proof.
  intros Hok E. unfold recover in E. apply bind_Ok in E as (h & Hh & E).
  destruct h; [injection E as <-; by left|right].
  apply check_header_Valid in Hh as [rest ->]; [|done].
  rewrite <- len_header in E.
  destruct (recover_loop_inv (length (header_bytes ++ rest)) header_bytes rest engine_default)
    as (ops & tail & e & -> & Hops & Hr & Hst & Hl); [done|rewrite length_app; lia|].
  rewrite Hl in E. injection E as <-. split; [done|]. by exists ops, tail.
Qed.

Lemma recover_engine_ok log r : slice_ok log -> recover log = Ok r -> engine_ok (engine r).
Proof.
  intros Hok E. destruct (recover_prefix log r Hok E) as [->|(_ & ops & tail & -> & Hops & Hr & _)].
  - apply default_ok.
  - eapply replay_ok; [apply default_ok|done..].
Qed.

(** ** The properties *)

(** C38: the accounting invariant.  Every engine reached from the empty one, or
    from one recovered from arbitrary bytes, by puts that passed [check_put],
    deletes and clears, under partition ids of any content, keeps its maps sorted,
    counts each partition's and the whole store's bytes exactly, respects every quota
    and holds no empty partition. *)
Theorem engine_invariant e0 e :
  (e0 = engine_default \/ exists log r, slice_ok log /\ recover log = Ok r /\ e0 = engine r) ->
  rtc engine_step e0 e ->
  engine_sound e /\
  total_usage e = sum_Z (fun q => usage e q.1) (parts e) /\ total_usage e <= GLOBAL_QUOTA_BYTES /\
  forall pid, usage e pid <= PARTITION_QUOTA_BYTES.
Proof.
  intros H0 Hsteps. assert (engine_sound e) as He.
  { assert (engine_sound e0) as He0.
    { destruct H0 as [->|(log & r & Hl & Hr & ->)]; [apply default_ok|].
      eapply (engine_inv_mono pid_ok); [done|by eapply recover_engine_ok]. }
    clear H0. induction Hsteps; eauto using engine_step_ok. }
  split_and!; [done| |apply He|].
  - unfold total_usage. rewrite (eo_total e He). apply sum_Z_ext. intros [pid p] Hq.
    unfold usage. simpl. by rewrite (bt_elem_get (parts e) pid p (eo_sorted e He) Hq).
  - intros pid. unfold usage. destruct (bt_get (parts e) pid) as [p|] eqn:E.
    + destruct (partition_get e pid p He E) as (_ & Hp & _). apply Hp.
    + by vm_compute.
Qed.

Definition sample_pid : PartId.t :=
  {| PartId.site := lit "a.example"; PartId.scheme := lit "https";
     PartId.host := lit "cdn.example"; PartId.port := 443 |}.
Definition sample_pid2 : PartId.t :=
  {| PartId.site := lit "b.example"; PartId.scheme := lit "https";
     PartId.host := lit "cdn.example"; PartId.port := 443 |}.

Lemma sample_pid_ok : pid_ok sample_pid /\ pid_ok sample_pid2.
Proof. split; (split_and!; try done; by left). Qed.

Definition sample_engine : Engine :=
  put (put (put engine_default sample_pid2 Storage (lit "k") (lit "value-b"))
    sample_pid Cookies (lit "c") (lit "x")) sample_pid Storage (lit "k") (lit "value-a").

Lemma sample_engine_ok : engine_ok sample_engine.
Proof.
  pose proof sample_pid_ok as [H1 H2].
  repeat (apply put_ok; [|done|by vm_compute]). apply default_ok.
Qed.

Lemma engine_invariant_witness :
  engine_sound sample_engine /\ total_usage sample_engine = 162.
Proof.
  split; [|by vm_compute].
  apply (engine_invariant engine_default sample_engine); [by left|].
  eapply rtc_l; [apply (step_put engine_default sample_pid2 Storage (lit "k") (lit "value-b"));
    by vm_compute|].
  eapply rtc_l; [apply (step_put _ sample_pid Cookies (lit "c") (lit "x")); by vm_compute|].
  eapply rtc_l; [apply (step_put _ sample_pid Storage (lit "k") (lit "value-a")); by vm_compute|].
  apply rtc_refl.
Defined.

(** [check_put] accepts a write exactly when the key and the value are
    within their caps, a new key finds room for one more entry, and the
    partition and the store stay within their quotas once the value the key
    held before is given back: the saturating arithmetic never bites. *)
Theorem check_put_exact e pid ns key value :
  engine_sound e ->
  check_put e pid ns key value = Ok tt <->
  len key <= MAX_KEY_BYTES /\ len value <= MAX_VALUE_BYTES /\
  (get e pid ns key = None -> forall p, bt_get (parts e) pid = Some p ->
    len (entries p) < MAX_ENTRIES_PER_PARTITION) /\
  usage e pid - old_cost e pid ns key + cost key value <= PARTITION_QUOTA_BYTES /\
  total_usage e - old_cost e pid ns key + cost key value <= GLOBAL_QUOTA_BYTES.
Proof. apply check_put_Ok. Qed.

Lemma check_put_exact_witness :
  check_put engine_default sample_pid Storage (lit "k") (lit "v") = Ok tt.
Proof.
  apply (check_put_exact engine_default sample_pid Storage (lit "k") (lit "v")); [apply default_ok|].
  split_and!; by vm_compute.
Defined.

(** C39: the engine is a map per partition and namespace.  A put changes the
    value of its own (partition, namespace, key) and nothing else, a delete
    removes exactly that key, clearing a partition or a site removes exactly the
    entries of that partition or of the partitions of that site. *)
Theorem engine_is_partitioned_map e pid ns key value s pid' ns' key' :
  engine_sound e ->
  get (put e pid ns key value) pid' ns' key' =
    (if decide (pid = pid' /\ ns = ns' /\ key = key') then Some value else get e pid' ns' key') /\
  get (delete e pid ns key).2 pid' ns' key' =
    (if decide (pid = pid' /\ ns = ns' /\ key = key') then None else get e pid' ns' key') /\
  get (remove_partition e pid).2 pid' ns' key' =
    (if decide (pid = pid') then None else get e pid' ns' key') /\
  get (remove_site e s).2 pid' ns' key' =
    (if decide (PartId.site pid' = s) then None else get e pid' ns' key').
Proof.
  intros He. split_and!; [apply get_put|by apply (get_delete _ _ _ _ _ _ _ He)| |apply get_remove_site].
  rewrite get_remove_partition. by repeat case_decide.
Qed.

Lemma engine_is_partitioned_map_witness :
  engine_sound sample_engine /\
  get (remove_site sample_engine (lit "a.example")).2 sample_pid2 Storage (lit "k") =
    Some (lit "value-b").
Proof.
  split; [by apply (engine_inv_mono pid_ok), sample_engine_ok|].
  destruct (engine_is_partitioned_map sample_engine sample_pid Storage (lit "k") (lit "z")
    (lit "a.example") sample_pid2 Storage (lit "k")) as (_ & _ & _ & ->);
    [apply (engine_inv_mono pid_ok), sample_engine_ok|by vm_compute]; done.
Defined.

(** recovery exposes the consistent prefix.  A file with a valid header is
    read as the longest run of whole, checksummed, acceptable records: the
    engine is the replay of exactly those operations, [valid_len] is where they
    end, and what follows is not an acceptable record.  The loop always ends on
    its own: the fuel never decides the result. *)
Theorem recover_consistent_prefix log r :
  slice_ok log -> recover log = Ok r -> fresh r = false ->
  exists ops tail,
    log = header_bytes ++ records ops ++ tail /\ Forall op_ok ops /\
    replay engine_default ops = Some (engine r) /\
    valid_len r = len (header_bytes ++ records ops) /\ stops (engine r) tail.
Proof. intros Hok E Hf. by destruct (recover_prefix log r Hok E) as [->|[_ H]]. Qed.

Definition sample_log : list byte :=
  header_bytes ++ record_of (Put x00 (pid_bytes sample_pid) (lit "k") (lit "v")) ++ [x05; x00].

Lemma recover_consistent_prefix_witness :
  exists r, recover sample_log = Ok r /\ valid_len r = 65 /\
    get (engine r) sample_pid Storage (lit "k") = Some (lit "v") /\
    exists ops tail, sample_log = header_bytes ++ records ops ++ tail /\ Forall op_ok ops /\
      replay engine_default ops = Some (engine r) /\
      valid_len r = len (header_bytes ++ records ops) /\ stops (engine r) tail.
Proof.
  eexists. split; [vm_compute; reflexivity|]. split; [by vm_compute|]. split; [by vm_compute|].
  apply (recover_consistent_prefix sample_log _); by vm_compute.
Defined.

(** compaction loses nothing.  The log written from the live state of a
    legal engine, less the partitions it excludes, is recovered whole, to an
    engine that answers exactly like the original on every kept partition and
    is empty on the excluded ones; with nothing excluded it is the very same
    engine. *)
Theorem snapshot_recovers e excl :
  engine_ok e ->
  exists log e', snapshot_excluding e excl = Ok log /\
    recover log = Ok {| engine := e'; valid_len := len log; fresh := false |} /\ engine_ok e' /\
    (forall pid ns key, get e' pid ns key = if excl pid then None else get e pid ns key) /\
    ((forall pid, excl pid = false) -> e' = e).
Proof.
  intros He. destruct (recover_snapshot e excl He) as (log & e' & Hsn & _ & _ & Hr & He' & Hg).
  exists log, e'. split_and!; [done..|]. intros Hx. apply (engine_ext _ _ He' He).
  intros. by rewrite Hg, Hx.
Qed.

Lemma snapshot_recovers_witness :
  exists log e', snapshot_excluding sample_engine (fun _ => false) = Ok log /\
    recover log = Ok {| engine := e'; valid_len := len log; fresh := false |} /\ e' = sample_engine.
Proof.
  destruct (snapshot_recovers sample_engine (fun _ => false)) as (log & e' & H1 & H2 & _ & _ & H3);
    [apply sample_engine_ok|].
  exists log, e'. split_and!; [done..|by apply H3].
Defined.
