(* ===== verification/Disk.v ===== *)
(** * The file system under the store (std::fs as px-store/src/store.rs uses it)

    One directory with the two names the store uses, files with a contents the
    process sees and a contents that has reached the medium, and system calls
    that may succeed, fail part-way or be the last thing the machine does.  The
    outcome of every call is read from a list of events, so a run is a function
    of the disk it starts on and of the events it meets. *)
From S2P Require Import Prelude.
Local Open Scope Z_scope.

(** ** Files, directory, crashes *)
Record File := { cur : list byte; dur : list byte }.

(** What the medium may hold of a file that was appended to or truncated since
    its last sync: any length between the two, of the longer of the two. *)
Definition cut (k : nat) (f : File) : list byte :=
  let long := if decide (length (cur f) < length (dur f))%nat then dur f else cur f in
  take (Nat.max (Nat.min (length (cur f)) (length (dur f))) k) long.

(** The system wrote the file back to the medium, up to some point. *)
Definition write_back (k : nat) (f : File) : File := {| cur := cur f; dur := cut k f |}.

(** [log] and [tmp] are the inodes the two names stand for; [dlog] and [dtmp]
    what they stand for on the medium until the directory is synced. *)
Record Disk := {
  inodes : list File;
  log : option nat; tmp : option nat;
  dlog : option nat; dtmp : option nat
}.

Definition new_disk : Disk :=
  {| inodes := []; log := None; tmp := None; dlog := None; dtmp := None |}.

(** The end of a run: the process is killed and the system lives on, or the
    power goes and only the medium is left, with either state of the directory
    and some cut of every file. *)
Inductive Stop :=
| Kill
| Power (keep : nat -> nat) (renamed : bool).

Definition settle (keep : nat -> nat) (i : nat) (f : File) : File :=
  let b := cut (keep i) f in {| cur := b; dur := b |}.

Definition after (c : Stop) (d : Disk) : Disk :=
  match c with
  | Kill => d
  | Power keep renamed =>
      let l := if renamed then log d else dlog d in
      let t := if renamed then tmp d else dtmp d in
      {| inodes := imap (settle keep) (inodes d); log := l; tmp := t; dlog := l; dtmp := t |}
  end.

(** The bytes found under the log's name; a missing file reads as empty. *)
Definition file_of (d : Disk) (i : nat) : File := default {| cur := []; dur := [] |} (inodes d !! i).
Definition name_bytes (d : Disk) (n : option nat) : list byte :=
  match n with Some i => cur (file_of d i) | None => [] end.
Definition log_bytes (d : Disk) : list byte := name_bytes d (log d).

(** ** System calls *)
Inductive ErrorKind := NotFound | OtherError.
Inductive Outcome := Good | Bad | Die.

(** What one call meets: whether it succeeds, fails or is interrupted for good;
    how much of its work a failing call had done; and how far the file had
    reached the medium by then. *)
Record Event := { outcome : Outcome; amount : nat; written_back : nat }.
Definition good : Event := {| outcome := Good; amount := 0; written_back := 0 |}.

Record World := { disk : Disk; events : list Event }.

(** A run that ends in [None] was stopped by a [Die] event. *)
Definition io (A : Type) : Type := World -> World * option A.

#[export] Instance io_ret : MRet io := fun A a w => (w, Some a).
#[export] Instance io_bind : MBind io := fun A B f m w =>
  match m w with (w, Some a) => f a w | (w, None) => (w, None) end.

Definition syscall {A} (act : Event -> Disk -> Disk * result ErrorKind A)
  : io (result ErrorKind A) := fun w =>
  let ev := default good (head (events w)) in
  let '(d, r) := act ev (disk w) in
  ({| disk := d; events := tail (events w) |},
   match outcome ev with Die => None | _ => Some r end).

(** Run the continuation on [Ok], return the error otherwise: [?]. *)
Definition try_io {E F A B} (conv : E -> F) (m : io (result E A)) (k : A -> io (result F B))
  : io (result F B) :=
  r ← m; match r with Ok a => k a | Err e => mret (Err (conv e)) end.

(** The calls that either happen or do not. *)
Definition happens (ev : Event) : bool :=
  match outcome ev with
  | Good => true
  | Bad => false
  | Die => negb (Nat.eqb (amount ev) 0)
  end.

Definition set_file (d : Disk) (i : nat) (f : File) : Disk :=
  {| inodes := <[i := f]> (inodes d); log := log d; tmp := tmp d; dlog := dlog d; dtmp := dtmp d |}.

Definition reply {A} (ev : Event) (a : A) : result ErrorKind A :=
  match outcome ev with Good => Ok a | _ => Err OtherError end.

Definition create_dir_all : io (result ErrorKind unit) :=
  syscall (fun ev d => (d, reply ev tt)).

Definition remove_tmp : io (result ErrorKind unit) := syscall (fun ev d =>
  match tmp d with
  | None => (d, match outcome ev with Good => Err NotFound | _ => Err OtherError end)
  | Some _ =>
      (if happens ev
       then {| inodes := inodes d; log := log d; tmp := None; dlog := dlog d; dtmp := dtmp d |}
       else d, reply ev tt)
  end).

(** [fs::metadata(log).len()]. *)
Definition metadata_log : io (result ErrorKind Z) := syscall (fun ev d =>
  (d, match outcome ev, log d with
      | Good, None => Err NotFound
      | _, _ => reply ev (len (log_bytes d))
      end)).

Definition read_log : io (result ErrorKind (list byte)) := syscall (fun ev d =>
  (d, match outcome ev, log d with
      | Good, None => Err NotFound
      | _, _ => reply ev (log_bytes d)
      end)).

(** [File::create] of the temporary: truncates an existing file. *)
Definition create_tmp : io (result ErrorKind nat) := syscall (fun ev d =>
  match tmp d with
  | Some i =>
      (if happens ev then set_file d i (write_back (written_back ev) {| cur := []; dur := dur (file_of d i) |})
       else d, reply ev i)
  | None =>
      let i := length (inodes d) in
      (if happens ev
       then {| inodes := inodes d ++ [{| cur := []; dur := [] |}]; log := log d; tmp := Some i;
               dlog := dlog d; dtmp := dtmp d |}
       else d, reply ev i)
  end).

(** [write_all] at the end of the file; a failing call has written a prefix. *)
Definition write_all (h : nat) (bytes : list byte) : io (result ErrorKind unit) :=
  syscall (fun ev d =>
    let f := file_of d h in
    let k := match outcome ev with Good => length bytes | _ => amount ev end in
    (set_file d h (write_back (written_back ev) {| cur := cur f ++ take k bytes; dur := dur f |}),
     reply ev tt)).

(** [sync_all] and [sync_data]. *)
Definition sync (h : nat) : io (result ErrorKind unit) := syscall (fun ev d =>
  let f := file_of d h in
  (set_file d h (match outcome ev with
                 | Good => {| cur := cur f; dur := cur f |}
                 | _ => write_back (written_back ev) f
                 end), reply ev tt)).

Definition set_len (h : nat) (n : Z) : io (result ErrorKind unit) := syscall (fun ev d =>
  let f := file_of d h in
  let c := if happens ev then resize (Z.to_nat n) x00 (cur f) else cur f in
  (set_file d h (write_back (written_back ev) {| cur := c; dur := dur f |}), reply ev tt)).

(** [fs::rename] of the temporary over the log: atomic. *)
Definition rename : io (result ErrorKind unit) := syscall (fun ev d =>
  match tmp d with
  | None => (d, match outcome ev with Good => Err NotFound | _ => Err OtherError end)
  | Some i =>
      (if happens ev
       then {| inodes := inodes d; log := Some i; tmp := None; dlog := dlog d; dtmp := dtmp d |}
       else d, reply ev tt)
  end).

(** Opening the log, for appending or for writing, and the size of an open file. *)
Definition open_log : io (result ErrorKind nat) := syscall (fun ev d =>
  (d, match outcome ev, log d with
      | Good, Some i => Ok i
      | Good, None => Err NotFound
      | _, _ => Err OtherError
      end)).

Definition metadata (h : nat) : io (result ErrorKind Z) := syscall (fun ev d =>
  (d, reply ev (len (cur (file_of d h))))).

(** Opening the directory, and syncing it: its names reach the medium. *)
Definition open_dir : io (result ErrorKind unit) := syscall (fun ev d => (d, reply ev tt)).
Definition sync_names : io (result ErrorKind unit) := syscall (fun ev d =>
  (if happens ev
   then {| inodes := inodes d; log := log d; tmp := tmp d; dlog := log d; dtmp := tmp d |}
   else d, reply ev tt)).
