(* ===== verification/Store.v ===== *)
(** * The file-backed store (px-store/src/store.rs)

    One append-only log, rewritten atomically.  The methods are programs over
    the file system of [Disk]; the store they act on is passed and returned, so
    that a failing method shows the store it leaves behind. *)
From S2P Require Import Prelude Bytes OrdMap Text Partition Checksum Format Engine Recovery Disk.
Local Open Scope Z_scope.

Definition MAX_LOG_BYTES : Z := Z.shiftl 256 20.
Definition COMPACT_SLACK : Z := Z.shiftl 1 20.

Inductive StoreError :=
| QuotaErr (e : QuotaError)
| FormatErr (e : FormatError)
| IoErr (e : ErrorKind)
| Poisoned.

Module Store.
Record t := { file : nat; engine : Engine; log_len : Z; poisoned : bool }.

Definition with_engine (s : t) (e : Engine) : t :=
  {| file := file s; engine := e; log_len := log_len s; poisoned := poisoned s |}.
Definition with_log (s : t) (f : nat) (n : Z) : t :=
  {| file := f; engine := engine s; log_len := n; poisoned := poisoned s |}.
Definition poison (s : t) : t :=
  {| file := file s; engine := engine s; log_len := log_len s; poisoned := true |}.

(** Best effort: nothing is reported. *)
Definition sync_dir : io unit :=
  r ← open_dir;
  match r with
  | Ok _ => _ ← sync_names; mret tt
  | Err _ => mret tt
  end.

Definition write_atomic (bytes : list byte) : io (result ErrorKind unit) :=
  try_io id create_tmp (fun f =>
  try_io id (write_all f bytes) (fun _ =>
  try_io id (sync f) (fun _ =>
  try_io id rename (fun _ =>
  _ ← sync_dir; mret (Ok tt))))).

Definition open_append : io (result ErrorKind nat) := open_log.

(** The three stages of [open]: the bytes of the log, ... *)
Definition read_existing : io (result StoreError (list byte)) :=
  m ← metadata_log;
  match m with
  | Ok n =>
      if n >? MAX_LOG_BYTES then mret (Err (FormatErr RecordTooLarge))
      else try_io IoErr read_log (fun b => mret (Ok b))
  | Err NotFound => mret (Ok [])
  | Err e => mret (Err (IoErr e))
  end.

(** ... a fresh file or the torn tail cut off, ... *)
Definition repair (recovered : Recovered) (bytes : list byte) : io (result ErrorKind unit) :=
  if fresh recovered then write_atomic header_bytes
  else if valid_len recovered <? len bytes then
    try_io id open_log (fun f =>
    try_io id (set_len f (valid_len recovered)) (fun _ => sync f))
  else mret (Ok tt).

(** ... and the handle the store appends to. *)
Definition open_log_file : io (result StoreError t) :=
  try_io id read_existing (fun bytes =>
  match recover bytes with
  | Err e => mret (Err (FormatErr e))
  | Ok recovered =>
      try_io IoErr (repair recovered bytes) (fun _ =>
      try_io IoErr open_append (fun file =>
      try_io IoErr (metadata file) (fun log_len =>
      mret (Ok {| file := file; engine := Engine.engine recovered; log_len := log_len;
                  poisoned := false |}))))
  end).

Definition open : io (result StoreError t) :=
  try_io IoErr create_dir_all (fun _ =>
  r ← remove_tmp;
  match r with
  | Ok _ | Err NotFound => open_log_file
  | Err e => mret (Err (IoErr e))
  end).

Definition live (s : t) : result StoreError unit :=
  if poisoned s then Err Poisoned else Ok tt.

Definition rewrite (s : t) (excl : PartId.t -> bool) : io (t * result StoreError unit) :=
  match snapshot_excluding (engine s) excl with
  | Err e => mret (s, Err (FormatErr e))
  | Ok snapshot =>
      w ← write_atomic snapshot;
      match w with
      | Err e => mret (s, Err (IoErr e))
      | Ok _ =>
          o ← open_append;
          match o with
          | Ok f => mret (with_log s f (len snapshot), Ok tt)
          | Err e => mret (poison s, Err (IoErr e))
          end
      end
  end.

(** The write of [append]: on failure, back to the last length vouched for. *)
Definition write_record (s : t) (record : list byte) : io (t * result StoreError unit) :=
  result ← try_io id (write_all (file s) record) (fun _ => sync (file s));
  match result with
  | Ok _ => mret (with_log s (file s) (sat_add (log_len s) (len record)), Ok tt)
  | Err e =>
      restored ← try_io id (set_len (file s) (log_len s)) (fun _ => sync (file s));
      mret (if is_ok restored then s else poison s, Err (IoErr e))
  end.

Definition append (s : t) (record : list byte) : io (t * result StoreError unit) :=
  '(s, r) ← (if sat_add (log_len s) (len record) >? MAX_LOG_BYTES
             then rewrite s (fun _ => false) else mret (s, Ok tt));
  match r with
  | Err e => mret (s, Err e)
  | Ok _ => write_record s record
  end.

Definition maybe_compact (s : t) : io t :=
  let live := total_usage (engine s) in
  if log_len s >? sat_add (sat_mul live 2) COMPACT_SLACK then
    '(s, _) ← rewrite s (fun _ => false); mret s
  else mret s.

(** The checks of [put] and the record it appends. *)
Definition prepare_put (s : t) (partition : PartitionKey.t) (ns : Namespace)
    (key value : list byte) : result StoreError (PartId.t * list byte) :=
  _ ← live s;
  pid ← map_err QuotaErr (PartId.from_key partition);
  _ ← map_err QuotaErr (check_put (engine s) pid ns key value);
  pid_bytes ← map_err QuotaErr (ok_or (PartId.encode pid) PartitionKeyTooLarge);
  record ← map_err FormatErr (encode_record (Put (Ns.code ns) pid_bytes key value));
  Ok (pid, record).

Definition put (s : t) (partition : PartitionKey.t) (ns : Namespace) (key value : list byte)
  : io (t * result StoreError unit) :=
  match prepare_put s partition ns key value with
  | Err e => mret (s, Err e)
  | Ok (pid, record) =>
      '(s, r) ← append s record;
      match r with
      | Err e => mret (s, Err e)
      | Ok _ =>
          s ← maybe_compact (with_engine s (Engine.put (engine s) pid ns key value));
          mret (s, Ok tt)
      end
  end.

(** The checks of [delete]; nothing to append when the key is absent. *)
Definition prepare_delete (s : t) (partition : PartitionKey.t) (ns : Namespace)
    (key : list byte) : result StoreError (option (PartId.t * list byte)) :=
  _ ← live s;
  pid ← map_err QuotaErr (PartId.from_key partition);
  match Engine.get (engine s) pid ns key with
  | None => Ok None
  | Some _ =>
      pid_bytes ← map_err QuotaErr (ok_or (PartId.encode pid) PartitionKeyTooLarge);
      record ← map_err FormatErr (encode_record (Delete (Ns.code ns) pid_bytes key));
      Ok (Some (pid, record))
  end.

Definition delete (s : t) (partition : PartitionKey.t) (ns : Namespace) (key : list byte)
  : io (t * result StoreError bool) :=
  match prepare_delete s partition ns key with
  | Err e => mret (s, Err e)
  | Ok None => mret (s, Ok false)
  | Ok (Some (pid, record)) =>
      '(s, r) ← append s record;
      match r with
      | Err e => mret (s, Err e)
      | Ok _ => mret (with_engine s (Engine.delete (engine s) pid ns key).2, Ok true)
      end
  end.

Definition get (s : t) (partition : PartitionKey.t) (ns : Namespace) (key : list byte)
  : option (list byte) :=
  if poisoned s then None
  else pid ← ok (PartId.from_key partition); Engine.get (engine s) pid ns key.

Definition keys (s : t) (partition : PartitionKey.t) (ns : Namespace) : list (list byte) :=
  match PartId.from_key partition with
  | Ok pid => if poisoned s then [] else Engine.keys (engine s) pid ns
  | Err _ => []
  end.

Definition partition_usage (s : t) (partition : PartitionKey.t) : Z :=
  match PartId.from_key partition with Ok pid => usage (engine s) pid | Err _ => 0 end.

(** [clear_partition] and [clear_site] rewrite the log first, then forget. *)
Definition clear (s : t) (excl : PartId.t -> bool) (remove : Engine -> Z * Engine)
  : io (t * result StoreError Z) :=
  '(s, r) ← rewrite s excl;
  match r with
  | Err e => mret (s, Err e)
  | Ok _ => let '(n, e) := remove (engine s) in mret (with_engine s e, Ok n)
  end.

Definition clear_partition (s : t) (partition : PartitionKey.t) : io (t * result StoreError Z) :=
  match (_ ← live s; map_err QuotaErr (PartId.from_key partition)) with
  | Err e => mret (s, Err e)
  | Ok pid => clear s (fun id => bool_decide (id = pid)) (fun e => remove_partition e pid)
  end.

Definition clear_site (s : t) (partition : PartitionKey.t) : io (t * result StoreError Z) :=
  match live s with
  | Err e => mret (s, Err e)
  | Ok _ =>
      let site := PartitionKey.top_level_site partition in
      clear s (fun id => bool_decide (PartId.site id = site)) (fun e => remove_site e site)
  end.

Definition compact (s : t) : io (t * result StoreError unit) :=
  match live s with
  | Err e => mret (s, Err e)
  | Ok _ => rewrite s (fun _ => false)
  end.

Definition total_usage (s : t) : Z := Engine.total_usage (engine s).
Definition partition_count (s : t) : Z := Engine.partition_count (engine s).
End Store.
