(* ===== verification/Durability.v ===== *)
(** * Crash safety of the store

    The file system calls keep the promises the store makes: whatever the events
    a method meets and wherever it is stopped, the log found afterwards recovers
    to the state before the method or to the state after it; a method that
    returns [Ok] has its effect on the medium. *)
From stdpp Require Import sets.
From S2P Require Import Prelude Bytes OrdMap Text Partition Checksum Format Engine Recovery Disk Store.
Local Open Scope Z_scope.

(** ** Runs *)
(** Every run of [m] on [d], whatever the events, ends as [Q] says. *)
Definition runs {A} (m : io A) (d : Disk) (Q : Disk -> option A -> Prop) : Prop :=
  forall evs, let '(w, r) := m {| disk := d; events := evs |} in Q (disk w) r.

Section runs.
Context {A B : Type}.

Lemma runs_ret (a : A) d (Q : Disk -> option A -> Prop) : Q d (Some a) -> runs (mret a) d Q.
Proof. by intros H evs. Qed.

Lemma runs_mono (m : io A) d (Q Q' : Disk -> option A -> Prop) :
  runs m d Q -> (forall d' r, Q d' r -> Q' d' r) -> runs m d Q'.
Proof. intros H HQ evs. specialize (H evs). destruct (m _). auto. Qed.

Lemma runs_bind (m : io A) (f : A -> io B) d (Q : Disk -> option B -> Prop) :
  runs m d (fun d' r => match r with Some a => runs (f a) d' Q | None => Q d' None end) ->
  runs (m ≫= f) d Q.
Proof.
  intros H evs. specialize (H evs). unfold mbind, io_bind.
  destruct (m _) as [[d' evs'] [a|]]; [apply H|done].
Qed.

Lemma runs_syscall (act : Event -> Disk -> Disk * result ErrorKind A) d Q :
  (forall ev, let '(d', r) := act ev d in
     Q d' (match outcome ev with Die => None | _ => Some r end)) ->
  runs (syscall act) d Q.
Proof.
  intros H evs. unfold syscall. simpl. specialize (H (default good (head evs))).
  by destruct (act _ _).
Qed.
End runs.

Lemma runs_try {A B E F} (conv : E -> F) (m : io (result E A)) (k : A -> io (result F B)) d Q :
  runs m d (fun d' r => match r with
    | Some (Ok a) => runs (k a) d' Q
    | Some (Err e) => Q d' (Some (Err (conv e)))
    | None => Q d' None
    end) ->
  runs (try_io conv m k) d Q.
Proof.
  intros H. unfold try_io. apply runs_bind. eapply runs_mono; [done|]. simpl.
  intros d' [[a|e]|] HQ; [done|by apply runs_ret|done].
Qed.


(** ** What a file may recover to *)
Definition recovers (P : Engine -> Prop) (b : list byte) : Prop :=
  slice_ok b /\ exists r, recover b = Ok r /\ P (engine r).

(** Every state the file can be found in recovers to an engine of [P]. *)
Definition file_ok (P : Engine -> Prop) (f : File) : Prop :=
  exists C, C `prefix_of` cur f /\ C `prefix_of` dur f /\
    forall b, C `prefix_of` b -> b `prefix_of` cur f \/ b `prefix_of` dur f -> recovers P b.

Definition either (P : Engine -> Prop) (e : Engine) : Engine -> Prop := fun x => P x \/ x = e.

Section files.
Implicit Types (P Q : Engine -> Prop) (f : File) (e : Engine) (b : list byte).

Lemma recovers_mono P Q b : (forall e, P e -> Q e) -> recovers P b -> recovers Q b.
Proof. intros H (? & r & ? & ?). split; [done|]. eauto. Qed.

Lemma file_ok_mono P Q f : (forall e, P e -> Q e) -> file_ok P f -> file_ok Q f.
Proof. intros H (C & ? & ? & HC). exists C. eauto using recovers_mono. Qed.

Lemma file_ok_cur P f : file_ok P f -> recovers P (cur f).
Proof. intros (C & ? & ? & H). apply H; [done|by left]. Qed.

Lemma cut_prefix C f k :
  C `prefix_of` cur f -> C `prefix_of` dur f ->
  C `prefix_of` cut k f /\ (cut k f `prefix_of` cur f \/ cut k f `prefix_of` dur f).
Proof.
  intros H1 H2. unfold cut. set (n := Nat.max _ _).
  pose proof (prefix_length _ _ H1). pose proof (prefix_length _ _ H2).
  assert (forall l, C `prefix_of` l -> (length C <= n)%nat -> C `prefix_of` take n l) as Ht.
  { intros l [k' ->] Hn. rewrite take_app_ge by done. apply prefix_app_r. done. }
  case_decide.
  - split; [apply Ht; [done|lia]|right; apply prefix_take].
  - split; [apply Ht; [done|lia]|left; apply prefix_take].
Qed.

Lemma file_ok_write_back P f k : file_ok P f -> file_ok P (write_back k f).
Proof.
  intros (C & H1 & H2 & H). destruct (cut_prefix C f k H1 H2) as [Hc Hcc].
  exists C. split_and!; [done..|]. simpl. intros b Hb [Hl|Hr]; [auto|].
  apply H; [done|]. destruct Hcc; [left|right]; by etrans.
Qed.

Lemma file_ok_settle P f keep i : file_ok P f -> file_ok P (settle keep i f).
Proof.
  intros (C & H1 & H2 & H). destruct (cut_prefix C f (keep i) H1 H2) as [Hc Hcc].
  exists (cut (keep i) f). unfold settle. simpl. split_and!; [done..|].
  intros b Hb Hb'. assert (b = cut (keep i) f) as -> by (destruct Hb'; by apply (anti_symm prefix)).
  by apply H.
Qed.

Lemma file_ok_synced P b : recovers P b -> file_ok P {| cur := b; dur := b |}.
Proof.
  intros H. exists b. simpl. split_and!; [done..|]. intros b' Hb Hb'.
  assert (b' = b) as -> by (destruct Hb'; by apply (anti_symm prefix)). done.
Qed.

Lemma file_ok_sync P f : file_ok P f -> file_ok P {| cur := cur f; dur := cur f |}.
Proof. intros. by apply file_ok_synced, file_ok_cur. Qed.

(** Cutting a file back to where its records end, or to any earlier point
    whose continuations are known to recover. *)
Lemma file_ok_truncate P f b :
  file_ok P f -> b `prefix_of` cur f ->
  (forall b', b `prefix_of` b' -> b' `prefix_of` cur f -> recovers P b') ->
  file_ok P {| cur := b; dur := dur f |}.
Proof.
  intros (C & H1 & H2 & H) Hb Hbs.
  destruct (prefix_weak_total b C (cur f)) as [HbC|HCb]; [done..| |].
  - exists b. simpl. split_and!; [done|by etrans|]. intros b' Hb' [Hl|Hr].
    + assert (b' = b) as -> by (by apply (anti_symm prefix)). by apply Hbs.
    + destruct (prefix_weak_total b' C (dur f)) as [?|?]; [done..| |].
      * apply Hbs; [done|]. by etrans.
      * apply H; [done|by right].
  - exists C. simpl. split_and!; [done..|]. intros b' Hb' [Hl|Hr]; apply H; auto.
    left. by etrans.
Qed.

Lemma prefix_app_cases (b l k : list byte) :
  b `prefix_of` l ++ k -> b `prefix_of` l \/ exists k', k' `prefix_of` k /\ b = l ++ k'.
Proof.
  intros H. destruct (prefix_weak_total b l (l ++ k)) as [?|[k' ->]];
    [done|by apply prefix_app_r|by left|].
  right. exists k'. split; [|done]. by apply prefix_app_inv in H.
Qed.

(** Appending to a file, when every part of the addition recovers. *)
Lemma file_ok_append P f k :
  file_ok P f -> (forall k', k' `prefix_of` k -> recovers P (cur f ++ k')) ->
  file_ok P {| cur := cur f ++ k; dur := dur f |}.
Proof.
  intros (C & H1 & H2 & H) Hk. exists C. simpl. split_and!; [by apply prefix_app_r|done|].
  intros b Hb [[?|(k' & ? & ->)]%prefix_app_cases|?]; auto.
Qed.
End files.

(** ** Logs *)
(** A log that is exactly the records of [e], of a size the store can reach. *)
Definition LOG_BOUND : Z := 2 ^ 32.

Definition logs (e : Engine) (b : list byte) : Prop :=
  exists ops, b = header_bytes ++ records ops /\ Forall op_ok ops /\
    replay engine_default ops = Some e /\ len b <= LOG_BOUND.

Section logs.
Implicit Types (e : Engine) (b : list byte) (op : Op).

Lemma stops_prefix e a b : slice_ok a -> stops e a -> b `prefix_of` a -> stops e b.
Proof.
  intros Ha Hs [s ->] op used Hd. apply slice_ok_app in Ha as Hb. destruct Hb as [Hb _].
  apply decode_record_inv in Hd as (Hop & -> & rest & ->); [|done].
  rewrite <- app_assoc in Hs, Ha. eapply Hs. by apply decode_record_of.
Qed.

Lemma slice_ok_prefix (a b : list byte) : slice_ok a -> b `prefix_of` a -> slice_ok b.
Proof. intros Ha [s ->]. by apply slice_ok_app in Ha as [? _]. Qed.

Lemma recovers_ops P ops tail e :
  slice_ok (header_bytes ++ records ops ++ tail) -> Forall op_ok ops ->
  replay engine_default ops = Some e -> stops e tail -> P e ->
  recovers P (header_bytes ++ records ops ++ tail).
Proof. intros. split; [done|]. eexists. split; [by apply recover_ops|done]. Qed.

Lemma logs_recovers (P : Engine -> Prop) e b : logs e b -> P e -> recovers P b.
Proof.
  intros (ops & -> & Hops & Hr & Hl) HP. rewrite <- (app_nil_r (records ops)).
  apply (recovers_ops P ops [] e); [|done..|apply stops_nil|done].
  rewrite app_nil_r. unfold slice_ok, LOG_BOUND, ISIZE_MAX in *. lia.
Qed.

(** Any part of a record appended to a log leaves the old state or, when it is
    the whole record, the new one. *)
Lemma logs_append (P : Engine -> Prop) e b op e' k :
  logs e b -> op_ok op -> apply_logged e op = Some e' ->
  k `prefix_of` record_of op -> P e -> P e' -> recovers P (b ++ k).
Proof.
  intros (ops & -> & Hops & Hr & Hl) Hop Ha [s Hs] HP HP'.
  pose proof (len_record_ok op Hop) as Hrec.
  assert (len k <= len (record_of op)) as Hk.
  { rewrite Hs, len_app. pose proof (len_nonneg s). lia. }
  assert (slice_ok ((header_bytes ++ records ops) ++ k)) as Hok.
  { unfold slice_ok, LOG_BOUND, ISIZE_MAX, FRAME_LEN in *. rewrite len_app. unfold_limits. lia. }
  destruct (decide (s = [])) as [->|Hne].
  - rewrite app_nil_r in Hs. subst k. rewrite <- app_assoc in Hok |- *.
    assert (records ops ++ record_of op = records (ops ++ [op])) as Hre.
    { rewrite records_app. unfold records at 3. simpl. by rewrite app_nil_r. }
    rewrite Hre in Hok |- *. rewrite <- (app_nil_r (records _)) in Hok |- *.
    apply (recovers_ops P _ [] e'); [done| | |apply stops_nil|done].
    + apply Forall_app. split; [done|]. by constructor.
    + rewrite replay_app, Hr. simpl. by rewrite Ha.
  - rewrite <- app_assoc in Hok |- *. apply (recovers_ops P ops k e); [done..| |done].
    assert (k = take (length k) (record_of op)) as -> by (by rewrite Hs, take_app_length).
    apply stops_truncated; [done|]. rewrite Hs, length_app.
    destruct s; [done|simpl; lia].
Qed.

Lemma logs_app e b op e' :
  logs e b -> op_ok op -> apply_logged e op = Some e' ->
  len (b ++ record_of op) <= LOG_BOUND -> logs e' (b ++ record_of op).
Proof.
  intros (ops & -> & Hops & Hr & _) Hop Ha Hl. exists (ops ++ [op]).
  rewrite records_app. change (records [op]) with (record_of op ++ []). rewrite app_nil_r.
  split_and!; [by rewrite <- app_assoc|apply Forall_app; split; [done|by constructor]| |done].
  rewrite replay_app, Hr. simpl. by rewrite Ha.
Qed.
End logs.

(** ** The disk invariant *)
(** The names refer to files, and the temporary never shares one with the log,
    neither in the directory the process sees nor in the one on the medium. *)
Record wf (d : Disk) : Prop := {
  wf_bound : forall i, Some i ∈ [log d; tmp d; dlog d; dtmp d] -> (i < length (inodes d))%nat;
  wf_tmp : forall i, tmp d = Some i -> log d <> Some i /\ dlog d <> Some i;
  wf_dtmp : forall i, dtmp d = Some i -> dlog d <> Some i
}.

Definition name_ok (P : Engine -> Prop) (d : Disk) (n : option nat) : Prop :=
  match n with None => P engine_default | Some i => file_ok P (file_of d i) end.

Record disk_ok (P : Engine -> Prop) (d : Disk) : Prop := {
  do_wf : wf d;
  do_log : name_ok P d (log d);
  do_dlog : name_ok P d (dlog d)
}.

(** The log, in the directory and on the medium, was not touched. *)
Definition keeps (d d' : Disk) : Prop :=
  log d' = log d /\ dlog d' = dlog d /\
  forall i, log d = Some i \/ dlog d = Some i -> file_of d' i = file_of d i.

Section disk.
Implicit Types (P Q : Engine -> Prop) (d : Disk) (f : File).

Lemma file_of_set d i f j :
  (i < length (inodes d))%nat -> file_of (set_file d i f) j = if decide (i = j) then f else file_of d j.
Proof.
  intros Hi. unfold file_of, set_file. simpl. case_decide as Hij.
  - subst. by rewrite list_lookup_insert_eq.
  - by rewrite list_lookup_insert_ne.
Qed.

Lemma wf_set_file d i f : wf d -> wf (set_file d i f).
Proof.
  intros [H1 H2 H3]. split; simpl; [|done..]. intros j Hj. rewrite length_insert. auto.
Qed.

Lemma name_ok_mono P Q d n : (forall e, P e -> Q e) -> name_ok P d n -> name_ok Q d n.
Proof. intros H. destruct n; simpl; [by apply file_ok_mono|auto]. Qed.

Lemma disk_ok_mono P Q d : (forall e, P e -> Q e) -> disk_ok P d -> disk_ok Q d.
Proof. intros H [? ? ?]. split; [done|by eapply name_ok_mono..]. Qed.

Lemma disk_ok_either P e d : disk_ok P d -> disk_ok (either P e) d.
Proof. apply disk_ok_mono. by left. Qed.

Lemma recovers_empty P : P engine_default -> recovers P [].
Proof. intros H. split; [by vm_compute|]. by eexists. Qed.

Lemma name_ok_bytes P d n : name_ok P d n -> recovers P (name_bytes d n).
Proof. destruct n; simpl; [apply file_ok_cur|apply recovers_empty]. Qed.

Lemma keeps_refl d : keeps d d.
Proof. by split_and!. Qed.

Lemma keeps_trans d1 d2 d3 : keeps d1 d2 -> keeps d2 d3 -> keeps d1 d3.
Proof.
  intros (H1 & H2 & H3) (G1 & G2 & G3). split_and!; [congruence..|].
  intros i Hi. rewrite G3, H3; [done..|]. by rewrite H1, H2.
Qed.

Lemma keeps_name_ok P d d' n :
  keeps d d' -> n = log d \/ n = dlog d -> name_ok P d n -> name_ok P d' n.
Proof.
  intros (H1 & H2 & H3) Hn. destruct n as [i|]; [|done]. simpl.
  rewrite H3; [done|]. naive_solver.
Qed.

Lemma keeps_ok P d d' : keeps d d' -> wf d' -> disk_ok P d -> disk_ok P d'.
Proof.
  intros Hk Hwf [_ H1 H2]. pose proof Hk as (E1 & E2 & _).
  split; [done|rewrite E1|rewrite E2]; eapply keeps_name_ok; eauto.
Qed.

Lemma keeps_set_file d i f :
  wf d -> log d <> Some i -> dlog d <> Some i -> keeps d (set_file d i f).
Proof.
  intros Hwf H1 H2. split_and!; [done..|]. intros j Hj. unfold file_of, set_file. simpl.
  rewrite list_lookup_insert_ne; [done|]. intros ->. naive_solver.
Qed.

(** Replacing the contents of the log itself. *)
Lemma disk_ok_set_log P d i f :
  disk_ok P d -> log d = Some i -> file_ok P f -> disk_ok P (set_file d i f).
Proof.
  intros [Hwf H1 H2] Hi Hf.
  assert (forall n, name_ok P d n -> name_ok P (set_file d i f) n) as Hn.
  { intros [j|] Hj; [|done]. simpl. rewrite file_of_set; [by case_decide|].
    apply Hwf. rewrite Hi. left. }
  split; [by apply wf_set_file|by apply Hn..].
Qed.

Lemma disk_ok_after P d c : disk_ok P d -> disk_ok P (after c d).
Proof.
  intros [Hwf H1 H2]. destruct c as [|keep renamed]; [done|].
  assert (forall n, Some n ∈ [log d; dlog d] -> (n < length (inodes d))%nat) as Hb.
  { intros n Hn. apply Hwf. set_solver. }
  assert (forall n, (forall i, n = Some i -> (i < length (inodes d))%nat) -> name_ok P d n ->
    name_ok P (after (Power keep renamed) d) n) as Hn.
  { intros [i|] Hi; [|done]. simpl. unfold file_of. simpl. rewrite list_lookup_imap.
    destruct (lookup_lt_is_Some_2 (inodes d) i) as [f ->]; [auto|]. simpl.
    apply file_ok_settle. }
  assert (name_ok P (after (Power keep renamed) d) (if renamed then log d else dlog d)).
  { apply Hn; [|by destruct renamed]. intros i Hi. apply Hb. destruct renamed; set_solver. }
  split; [|done..]. destruct Hwf as [W1 W2 W3]. split; simpl.
  - intros i Hi. rewrite length_imap. apply W1. destruct renamed; set_solver.
  - intros i Hi. destruct renamed; naive_solver.
  - intros i Hi. destruct renamed; naive_solver.
Qed.
End disk.

(** ** Atomic replacement *)
Section write_atomic.
Implicit Types (P : Engine -> Prop) (d : Disk).

(** While the temporary is written. *)
Definition staging (d0 : Disk) (i : nat) (d : Disk) : Prop :=
  wf d /\ keeps d0 d /\ tmp d = Some i.

Lemma staging_bound d0 i d : staging d0 i d -> (i < length (inodes d))%nat.
Proof. intros (Hwf & _ & Ht). apply Hwf. rewrite Ht. set_solver. Qed.

Lemma staging_set d0 i d f : staging d0 i d -> staging d0 i (set_file d i f).
Proof.
  intros (Hwf & Hk & Ht). split_and!; [by apply wf_set_file| |done].
  eapply keeps_trans; [done|]. apply (wf_tmp d Hwf) in Ht as [??]. by apply keeps_set_file.
Qed.

Lemma runs_create d :
  wf d ->
  runs create_tmp d (fun d' r =>
    wf d' /\ keeps d d' /\
    match r with Some (Ok i) => staging d i d' /\ cur (file_of d' i) = [] | _ => True end).
Proof.
  intros Hwf. apply runs_syscall. intros ev. destruct (tmp d) as [i|] eqn:Ht.
  - pose proof (keeps_refl d) as Hr. assert (staging d i d) as Hs by done.
    pose proof (staging_bound _ _ _ Hs).
    destruct (staging_set d i d (write_back (written_back ev) {| cur := []; dur := dur (file_of d i) |}) Hs)
      as (W1 & W2 & W3). unfold happens, reply.
    destruct (outcome ev); [|done|by destruct (negb _)].
    split_and!; [done..|]. rewrite file_of_set, decide_True by done. done.
  - set (d1 := {| inodes := inodes d ++ [{| cur := []; dur := [] |}]; log := log d;
      tmp := Some (length (inodes d)); dlog := dlog d; dtmp := dtmp d |}).
    assert (wf d1) as W1.
    { destruct Hwf as [A1 A2 A3]. subst d1. split; simpl; [| |done].
      - intros j Hj. rewrite length_app. simpl.
        assert (Some j ∈ [log d; tmp d; dlog d; dtmp d] \/ j = length (inodes d)) as [Hj'|]
          by set_solver; [apply A1 in Hj'|]; lia.
      - intros j [= <-]. split; intros Hj.
        + assert (length (inodes d) < length (inodes d))%nat; [apply A1; set_solver|lia].
        + assert (length (inodes d) < length (inodes d))%nat; [apply A1; set_solver|lia]. }
    assert (keeps d d1) as W2.
    { split_and!; [done..|]. intros j Hj. unfold file_of. simpl.
      rewrite lookup_app_l; [done|]. apply Hwf. destruct Hj as [Hj|Hj]; rewrite Hj; set_solver. }
    pose proof (keeps_refl d).
    unfold happens, reply. destruct (outcome ev); [|done|by destruct (negb _)].
    split_and!; [done..|]. unfold file_of. simpl. by rewrite list_lookup_middle.
Qed.

Lemma runs_write d0 i d b :
  staging d0 i d -> cur (file_of d i) = [] ->
  runs (write_all i b) d (fun d' r => staging d0 i d' /\
    match r with Some (Ok _) => cur (file_of d' i) = b | _ => True end).
Proof.
  intros Hs Hc. apply runs_syscall. intros ev. split; [by apply staging_set|].
  pose proof (staging_bound _ _ _ Hs).
  unfold reply. destruct (outcome ev); [|done..]. rewrite file_of_set, decide_True by done.
  simpl. by rewrite Hc, firstn_all.
Qed.

Lemma runs_sync_tmp d0 i d b :
  staging d0 i d -> cur (file_of d i) = b ->
  runs (sync i) d (fun d' r => staging d0 i d' /\
    match r with Some (Ok _) => file_of d' i = {| cur := b; dur := b |} | _ => True end).
Proof.
  intros Hs Hc. apply runs_syscall. intros ev. split; [by apply staging_set|].
  pose proof (staging_bound _ _ _ Hs).
  unfold reply. destruct (outcome ev); [|done..]. rewrite file_of_set, decide_True by done.
  by rewrite Hc.
Qed.

(** The log is the new file; the medium has the old name or the new one. *)
Definition replaced (d0 : Disk) (b : list byte) (d : Disk) : Prop :=
  wf d /\ tmp d = None /\
  (exists i, log d = Some i /\ file_of d i = {| cur := b; dur := b |}) /\
  (dlog d = log d \/
   dlog d = dlog d0 /\ forall i, dlog d0 = Some i -> file_of d i = file_of d0 i).

Lemma runs_rename d0 i d b :
  staging d0 i d -> file_of d i = {| cur := b; dur := b |} ->
  runs rename d (fun d' r => match r with
    | Some (Ok _) => replaced d0 b d'
    | Some (Err _) => staging d0 i d'
    | None => staging d0 i d' \/ replaced d0 b d'
    end).
Proof.
  intros Hs Hf. apply runs_syscall. intros ev. pose proof Hs as (Hwf & Hk & Ht).
  rewrite Ht. set (d1 := {| inodes := inodes d; log := Some i; tmp := None; dlog := dlog d; dtmp := dtmp d |}).
  assert (replaced d0 b d1) as Hd1.
  { destruct Hwf as [A1 A2 A3]. split_and!; [|done|by exists i|].
    - split; simpl; [|done..]. intros j Hj. apply A1. rewrite Ht. set_solver.
    - right. destruct Hk as (K1 & K2 & K3). split; [done|]. intros j Hj. apply K3. by right. }
  unfold happens, reply. destruct (outcome ev); [done..|]. destruct (negb _); auto.
Qed.

Lemma runs_sync_dir d0 b d :
  replaced d0 b d -> runs Store.sync_dir d (fun d' _ => replaced d0 b d').
Proof.
  intros Hr. apply runs_bind, runs_syscall. intros ev.
  assert (runs (_ ← sync_names; mret tt) d (fun d' _ => replaced d0 b d')) as H.
  { apply runs_bind, runs_syscall. intros ev'. 
    set (d1 := {| inodes := inodes d; log := log d; tmp := tmp d; dlog := log d; dtmp := tmp d |}).
    assert (replaced d0 b d1) as Hd1.
    { destruct Hr as ([A1 A2 A3] & Ht & (i & Hi & Hf) & _).
      split_and!; [|done|by exists i|by left]. split; simpl.
      - intros j Hj. apply A1. set_solver.
      - intros j. by rewrite Ht.
      - intros j. by rewrite Ht. }
    unfold reply. destruct (outcome ev'); [apply runs_ret|apply runs_ret|]; by destruct (happens ev'). }
  unfold reply. destruct (outcome ev); [done|by apply runs_ret|done].
Qed.

Lemma runs_write_atomic d b :
  wf d ->
  runs (Store.write_atomic b) d (fun d' r => match r with
    | Some (Ok _) => replaced d b d'
    | Some (Err _) => wf d' /\ keeps d d'
    | None => wf d' /\ keeps d d' \/ replaced d b d'
    end).
Proof.
  intros Hwf. apply runs_try. eapply runs_mono; [by apply runs_create|].
  intros d1 [[i|e]|] (W1 & K1 & H1); [|auto..]. destruct H1 as [H1 Hc].
  apply runs_try. eapply runs_mono; [by eapply runs_write|].
  intros d2 [[[]|e]|] [H2 Hc2]; [|by destruct H2 as (? & ? & ?); auto..].
  apply runs_try. eapply runs_mono; [by eapply runs_sync_tmp|].
  intros d3 [[[]|e]|] [H3 Hc3]; [|by destruct H3 as (? & ? & ?); auto..].
  apply runs_try. eapply runs_mono; [by eapply runs_rename|].
  intros d4 [[[]|e]|] H4; [|by destruct H4 as (? & ? & ?)|].
  - apply runs_bind. eapply runs_mono; [by apply runs_sync_dir|].
    intros d5 [[]|] H5; [by apply runs_ret|by right].
  - destruct H4 as [(? & ? & ?)|?]; auto.
Qed.

Lemma replaced_ok P d b d' e :
  disk_ok P d -> recovers (eq e) b -> replaced d b d' ->
  disk_ok (either P e) d' /\ (dlog d' = log d' -> disk_ok (eq e) d').
Proof.
  intros [_ _ Hd] Hb (Hwf & Ht & (i & Hi & Hf) & Hdl).
  assert (forall Q, (forall x, e = x -> Q x) -> name_ok Q d' (log d')) as Hl.
  { intros Q HQ. rewrite Hi. simpl. rewrite Hf. apply file_ok_synced. by eapply recovers_mono. }
  assert (name_ok (either P e) d' (log d')) as Hl1 by (apply Hl; intros x <-; by right).
  split; [split; [done..|]|intros E; split; [done| |rewrite E]; by apply Hl].
  destruct Hdl as [->|[-> Hsame]]; [done|]. apply (name_ok_mono P); [by left|].
  destruct (dlog d) as [j|]; [|done]. simpl. by rewrite Hsame.
Qed.
End write_atomic.
