(* ===== verification/StoreSafety.v ===== *)
(** * What the store promises

    The methods of the store keep its invariant under every run, and the
    theorems a caller relies on: atomicity and durability of writes, recovery at
    open, forgetting, isolation between partitions. *)
From stdpp Require Import sets.
From S2P Require Import Prelude Bytes OrdMap Text Partition Checksum Format Engine Recovery Disk Store Durability.
Local Open Scope Z_scope.

(** ** The invariant *)
(** The handle is on the log, and the log is exactly the records of [e]. *)
Definition live_ok (s : Store.t) (d : Disk) (e : Engine) : Prop :=
  log d = Some (Store.file s) /\
  Store.log_len s = len (cur (file_of d (Store.file s))) /\
  logs e (cur (file_of d (Store.file s))).

(** [P] is what the disk may be found to hold should the run end now. *)
Record store_ok (P : Engine -> Prop) (s : Store.t) (d : Disk) : Prop := {
  so_engine : engine_ok (Store.engine s);
  so_disk : disk_ok P d;
  so_live : Store.poisoned s = false -> live_ok s d (Store.engine s)
}.

Section invariant.
Implicit Types (P : Engine -> Prop) (s : Store.t) (d : Disk) (e : Engine).

Lemma logs_recover_eq e b r : logs e b -> recover b = Ok r -> engine r = e.
Proof.
  intros Hl Hr. destruct (logs_recovers (eq e) e b Hl eq_refl) as (_ & r' & Hr' & ->). congruence.
Qed.

Lemma live_in P s d e : disk_ok P d -> live_ok s d e -> P e.
Proof.
  intros Hd (Hl & _ & Hlog). pose proof (do_log P d Hd) as H. rewrite Hl in H.
  apply file_ok_cur in H as (_ & r & Hr & HP). by rewrite (logs_recover_eq _ _ _ Hlog Hr) in HP.
Qed.

Lemma recover_logs b e :
  slice_ok b -> len b <= LOG_BOUND ->
  recover b = Ok {| engine := e; valid_len := len b; fresh := false |} -> logs e b.
Proof.
  intros Hok Hb Hr. destruct (recover_prefix _ _ Hok Hr) as [[=]|(_ & ops & tail & -> & Hops & Hre & Hv & _)].
  exists ops. assert (tail = []) as ->.
  { apply len_zero. cbn [valid_len] in Hv. rewrite !len_app in Hv. lia. }
  by rewrite app_nil_r in *.
Qed.

Lemma keeps_live s d d' e : keeps d d' -> live_ok s d e -> live_ok s d' e.
Proof.
  intros (K1 & _ & K3) (H1 & H2 & H3). unfold live_ok.
  rewrite K1, K3 by (by left). done.
Qed.
End invariant.

(** ** Rewriting the log *)
Section rewrite.
Context (P : Engine -> Prop) (s : Store.t) (d : Disk).
Context (Hs : store_ok P s d) (Hlive : Store.poisoned s = false).

Lemma runs_rewrite (excl : PartId.t -> bool) (e2 : Engine) :
  engine_ok e2 ->
  (forall pid ns key, get e2 pid ns key =
     if excl pid then None else get (Store.engine s) pid ns key) ->
  runs (Store.rewrite s excl) d (fun d' r => match r with
    | None => disk_ok (either P e2) d'
    | Some (s', Ok _) =>
        Store.engine s' = Store.engine s /\ Store.poisoned s' = false /\ live_ok s' d' e2 /\
        disk_ok (either P e2) d' /\ (dlog d' = log d' -> disk_ok (eq e2) d') /\
        tmp d' = None /\ snapshot_excluding (Store.engine s) excl = Ok (log_bytes d') /\
        Store.log_len s' <= HEADER_LEN + 22 * GLOBAL_QUOTA_BYTES
    | Some (s', Err _) =>
        Store.engine s' = Store.engine s /\ disk_ok (either P e2) d' /\
        (Store.poisoned s' = false -> live_ok s' d' (Store.engine s) /\ disk_ok P d') /\
        (dlog d' = log d' -> dlog d = log d \/ disk_ok (eq e2) d')
    end).
Proof.
  intros He2 Hget. pose proof Hs as [He Hd Hlv]. specialize (Hlv Hlive).
  destruct (recover_snapshot (Store.engine s) excl He) as (b & e' & Hsn & Hlen & Hok & Hr & He' & Hg).
  assert (e' = e2) as -> by (apply (engine_ext _ _ He' He2); intros; by rewrite Hg, Hget).
  assert (logs e2 b) as Hlogs.
  { apply recover_logs; [done| |done]. pose proof (eo_quota _ He).
    unfold_quotas. unfold LOG_BOUND, HEADER_LEN in *. lia. }
  pose proof (logs_recovers (eq e2) e2 b Hlogs eq_refl) as Hrec.
  unfold Store.rewrite. rewrite Hsn.
  apply runs_bind. eapply runs_mono; [apply runs_write_atomic, Hd|].
  intros d1 [[[]|err]|] H1.
  - pose proof (replaced_ok P d b d1 e2 Hd Hrec H1) as [Hok1 Hok2].
    apply runs_bind, runs_syscall. intros ev. destruct H1 as (_ & Ht & (i & Hi & Hf) & _).
    rewrite Hi. destruct (outcome ev); [|apply runs_ret; split_and!; naive_solver|done].
    apply runs_ret. split_and!; try done.
    + unfold live_ok. simpl. rewrite Hf. by split_and!.
    + unfold log_bytes. rewrite Hi. simpl. by rewrite Hf.
    + simpl. pose proof (eo_quota _ He). lia.
  - destruct H1 as [Hwf Hk]. apply runs_ret. pose proof (keeps_ok P _ _ Hk Hwf Hd).
    split_and!; [done|by apply disk_ok_either|eauto using keeps_live|].
    destruct Hk as (-> & -> & _). by left.
  - destruct H1 as [[Hwf Hk]|H1]; [apply disk_ok_either; by eapply keeps_ok|].
    by apply (replaced_ok P d b d1 e2).
Qed.
End rewrite.

(** ** Appending a record *)
Section append.
Context (P : Engine -> Prop) (s : Store.t) (e e' : Engine) (op : Op).
Context (Hop : op_ok op) (Hap : apply_logged e op = Some e') (HP : P e).

(** The log while a record is appended: the old bytes and some of the record. *)
Definition writing (B : list byte) (d : Disk) : Prop :=
  disk_ok (either P e') d /\ log d = Some (Store.file s) /\
  exists k, k `prefix_of` record_of op /\ cur (file_of d (Store.file s)) = B ++ k.

Lemma writing_bound B d : writing B d -> (Store.file s < length (inodes d))%nat.
Proof. intros (Hd & Hl & _). apply (do_wf _ _ Hd). rewrite Hl. left. Qed.

Lemma writing_file B d : writing B d -> file_ok (either P e') (file_of d (Store.file s)).
Proof. intros (Hd & Hl & _). pose proof (do_log _ _ Hd) as H. by rewrite Hl in H. Qed.

Lemma log_part B k : logs e B -> k `prefix_of` record_of op -> recovers (either P e') (B ++ k).
Proof. intros HB Hk. eapply logs_append; [done..|by left|by right]. Qed.

Lemma writing_set B d f :
  writing B d -> file_ok (either P e') f ->
  (exists k, k `prefix_of` record_of op /\ cur f = B ++ k) ->
  writing B (set_file d (Store.file s) f).
Proof.
  intros Hw Hf Hk. pose proof (writing_bound _ _ Hw). destruct Hw as (Hd & Hl & _).
  split_and!; [by apply disk_ok_set_log|done|].
  rewrite file_of_set, decide_True by done. done.
Qed.

Lemma runs_write_log B d :
  logs e B -> writing B d -> cur (file_of d (Store.file s)) = B ->
  runs (write_all (Store.file s) (record_of op)) d (fun d' r => writing B d' /\
    match r with Some (Ok _) => cur (file_of d' (Store.file s)) = B ++ record_of op | _ => True end).
Proof.
  intros HB Hw Hc. apply runs_syscall. intros ev. cbv zeta. rewrite Hc.
  set (k := match outcome ev with Good => _ | _ => _ end).
  pose proof (writing_bound _ _ Hw). split.
  - apply writing_set; [done| |exists (take k (record_of op)); split; [apply prefix_take|done]].
    apply file_ok_write_back. rewrite <- Hc. apply file_ok_append; [by eapply writing_file|].
    intros k' Hk'. rewrite Hc. apply log_part; [done|]. etrans; [done|apply prefix_take].
  - subst k. unfold reply. destruct (outcome ev); [|done..].
    rewrite file_of_set, decide_True by done. simpl. by rewrite firstn_all.
Qed.

Lemma runs_sync_log B d :
  writing B d ->
  runs (sync (Store.file s)) d (fun d' r => writing B d' /\
    match r with
    | Some (Ok _) => let b := cur (file_of d (Store.file s)) in
        file_of d' (Store.file s) = {| cur := b; dur := b |}
    | _ => True
    end).
Proof.
  intros Hw. apply runs_syscall. intros ev. pose proof (writing_bound _ _ Hw). split.
  - pose proof (writing_file _ _ Hw). pose proof Hw as (_ & _ & Hk).
    apply writing_set; [done| |by destruct (outcome ev)].
    destruct (outcome ev); [by apply file_ok_sync|by apply file_ok_write_back..].
  - unfold reply. destruct (outcome ev); [|done..]. by rewrite file_of_set, decide_True by done.
Qed.

Lemma runs_set_len_log B d :
  logs e B -> writing B d ->
  runs (set_len (Store.file s) (len B)) d (fun d' r => writing B d' /\
    match r with Some (Ok _) => cur (file_of d' (Store.file s)) = B | _ => True end).
Proof.
  intros HB Hw. apply runs_syscall. intros ev. pose proof (writing_bound _ _ Hw).
  pose proof (writing_file _ _ Hw) as Hf. pose proof Hw as (_ & _ & k & Hk & Hc).
  assert (resize (Z.to_nat (len B)) x00 (cur (file_of d (Store.file s))) = B) as Hres.
  { rewrite Hc, to_nat_len, resize_app_le, resize_all; done. }
  cbv zeta. rewrite Hres. split.
  - apply writing_set; [done| |].
    + apply file_ok_write_back. destruct (happens ev).
      * apply file_ok_truncate; [done|rewrite Hc; by apply prefix_app_r|].
        intros b [k' ->] Hb. rewrite Hc in Hb. apply prefix_app_inv in Hb.
        apply log_part; [done|]. by etrans.
      * by destruct (file_of d (Store.file s)).
    + destruct (happens ev); simpl; [|by exists k]. exists []. split; [apply prefix_nil|].
      by rewrite app_nil_r.
  - unfold reply, happens. destruct (outcome ev); [|done..].
    by rewrite file_of_set, decide_True by done.
Qed.

(** What a method that appends one record may leave behind. *)
Definition appended (d : Disk) (r : option (Store.t * result StoreError unit)) : Prop :=
  match r with
  | None => disk_ok (either P e') d
  | Some (s', Ok _) =>
      Store.engine s' = Store.engine s /\ Store.poisoned s' = false /\ live_ok s' d e' /\
      disk_ok (either P e') d /\ (dlog d = log d -> disk_ok (eq e') d)
  | Some (s', Err _) =>
      Store.engine s' = Store.engine s /\ disk_ok (either P e') d /\
      (Store.poisoned s' = false -> live_ok s' d e)
  end.

Lemma runs_write_both B d :
  logs e B -> writing B d -> cur (file_of d (Store.file s)) = B ->
  runs (try_io id (write_all (Store.file s) (record_of op)) (fun _ => sync (Store.file s))) d
    (fun d' r => writing B d' /\
      match r with
      | Some (Ok _) => let b := B ++ record_of op in
          file_of d' (Store.file s) = {| cur := b; dur := b |}
      | _ => True
      end).
Proof.
  intros HB Hw Hc. apply runs_try. eapply runs_mono; [by apply (runs_write_log B)|].
  intros d1 [[[]|err]|] [H1 Hc1]; [|done..].
  eapply runs_mono; [by apply (runs_sync_log B)|]. by rewrite Hc1.
Qed.

Lemma runs_restore B d :
  logs e B -> writing B d ->
  runs (try_io id (set_len (Store.file s) (len B)) (fun _ => sync (Store.file s))) d
    (fun d' r => writing B d' /\
      match r with Some (Ok _) => cur (file_of d' (Store.file s)) = B | _ => True end).
Proof.
  intros HB Hw. apply runs_try. eapply runs_mono; [by apply (runs_set_len_log B)|].
  intros d1 [[[]|err]|] [H1 Hc1]; [|done..].
  eapply runs_mono; [by apply (runs_sync_log B)|].
  intros d2 [[[]|err]|] [H2 Hc2]; [|done..]. by rewrite Hc2.
Qed.

Lemma runs_write_record d :
  disk_ok P d -> live_ok s d e -> Store.poisoned s = false ->
  Store.log_len s + len (record_of op) <= LOG_BOUND ->
  runs (Store.write_record s (record_of op)) d appended.
Proof.
  intros Hd (Hl & Hlen & HB) Hpo Hbound.
  remember (cur (file_of d (Store.file s))) as B eqn:HeqB.
  assert (writing B d) as Hw.
  { split_and!; [by apply disk_ok_either|done|]. exists []. split; [apply prefix_nil|].
    by rewrite app_nil_r. }
  apply runs_bind. eapply runs_mono; [by apply (runs_write_both B)|].
  intros d1 [[[]|err]|] [H1 Hc1]; [| |apply H1].
  - apply runs_ret. destruct H1 as (Hd1 & Hl1 & _).
    assert (logs e' (B ++ record_of op)) as HB'.
    { eapply logs_app; [done..|]. rewrite len_app. lia. }
    split_and!; [done..| |done|].
    + unfold live_ok. simpl. rewrite Hc1. simpl. split_and!; [done| |done].
      rewrite len_app, Hlen. unfold sat_add, U64_MAX, LOG_BOUND in *. lia.
    + intros E. assert (name_ok (eq e') d1 (log d1)) as Hn.
      { rewrite Hl1. simpl. rewrite Hc1. apply file_ok_synced. by eapply logs_recovers. }
      split; [apply Hd1|done|by rewrite E].
  - rewrite Hlen. apply runs_bind. eapply runs_mono; [by apply (runs_restore B)|].
    intros d2 [[[]|err']|] [H2 Hc2]; [apply runs_ret|apply runs_ret|apply H2]; simpl.
    + split_and!; [done|apply H2|]. intros _. destruct H2 as (? & ? & _).
      unfold live_ok. by rewrite Hc2.
    + split_and!; [done|apply H2|done].
Qed.
End append.

Section methods.
Context (P : Engine -> Prop) (s : Store.t) (d : Disk).
Context (Hs : store_ok P s d) (Hlive : Store.poisoned s = false).

Lemma runs_append op e' :
  op_ok op -> apply_logged (Store.engine s) op = Some e' ->
  runs (Store.append s (record_of op)) d (appended P s (Store.engine s) e').
Proof.
  intros Hop Hap. pose proof Hs as [He Hd Hlv]. specialize (Hlv Hlive).
  pose proof (live_in _ _ _ _ Hd Hlv) as HP. pose proof (len_record_ok op Hop) as Hrl.
  unfold Store.append. apply runs_bind. destruct (_ >? _) eqn:Hbig.
  - eapply runs_mono; [apply (runs_rewrite P s d Hs Hlive (fun _ => false) (Store.engine s)); done|].
    intros d1 [[s1 [[]|err]]|] H1.
    + destruct H1 as (E1 & P1 & L1 & D1 & _ & _ & _ & B1).
      assert (disk_ok P d1) as D1'.
      { eapply disk_ok_mono; [|done]. by intros x [?| ->]. }
      eapply runs_mono; [apply (runs_write_record P s1 (Store.engine s) e' op); try done|].
      * unfold_quotas. unfold LOG_BOUND, HEADER_LEN in *. unfold_limits. lia.
      * intros d2 [[s2 [[]|err]]|] H2; unfold appended in *; rewrite ?E1 in H2; done.
    + destruct H1 as (E1 & D1 & H1). apply runs_ret. simpl. split_and!; [done| |].
      * eapply disk_ok_mono; [|done]. intros x [?| ->]; by left.
      * intros Hp. by apply H1.
    + simpl. eapply disk_ok_mono; [|done]. intros x [?| ->]; by left.
  - apply runs_ret. apply runs_write_record; try done.
    change MAX_LOG_BYTES with (2 ^ 28) in Hbig. unfold sat_add, U64_MAX, LOG_BOUND in *. lia.
Qed.

Lemma runs_maybe_compact :
  (dlog d = log d -> disk_ok (eq (Store.engine s)) d) ->
  runs (Store.maybe_compact s) d (fun d' r => match r with
    | None => disk_ok P d'
    | Some s' => Store.engine s' = Store.engine s /\ store_ok P s' d' /\
        (dlog d' = log d' -> disk_ok (eq (Store.engine s)) d')
    end).
Proof.
  intros Heq. unfold Store.maybe_compact. destruct (_ >? _); [|by apply runs_ret].
  pose proof Hs as [He Hd Hlv]. specialize (Hlv Hlive). pose proof (live_in _ _ _ _ Hd Hlv) as HP.
  assert (forall d', disk_ok (either P (Store.engine s)) d' -> disk_ok P d') as Hmono.
  { intros d'. apply disk_ok_mono. by intros x [?| ->]. }
  assert (forall s' d', Store.engine s' = Store.engine s -> disk_ok (either P (Store.engine s)) d' ->
    (Store.poisoned s' = false -> live_ok s' d' (Store.engine s)) -> store_ok P s' d') as Hok.
  { intros s' d' E ??. split; rewrite ?E; auto. }
  pose proof (runs_rewrite P s d Hs Hlive (fun _ => false) (Store.engine s) He (fun _ _ _ => eq_refl)) as HR.
  apply runs_bind. destruct (decide (dlog d = log d)) as [E|E].
  - assert (store_ok (eq (Store.engine s)) s d) as Hs' by (split; auto).
    intros evs. specialize (HR evs).
    pose proof (runs_rewrite _ s d Hs' Hlive (fun _ => false) (Store.engine s) He
      (fun _ _ _ => eq_refl) evs) as HR'.
    destruct (Store.rewrite _ _ _) as [w [[s1 [[]|err]]|]]; [| |by apply Hmono].
    + destruct HR as (E1 & P1 & L1 & D1 & Q1 & _). intros ?. simpl. by auto.
    + destruct HR as (E1 & D1 & H1 & _), HR' as (_ & D1' & _). intros ?. simpl.
      split_and!; [done|apply Hok; [done..|intros Hp; by apply H1]|]. intros _. eapply disk_ok_mono; [|done].
      by intros x [?| ->].
  - eapply runs_mono; [done|]. intros d1 [[s1 [[]|err]]|] H1; [| |by apply Hmono].
    + destruct H1 as (E1 & P1 & L1 & D1 & Q1 & _). apply runs_ret. auto.
    + destruct H1 as (E1 & D1 & H1 & Q1). apply runs_ret.
      split_and!; [done|apply Hok; [done..|intros Hp; by apply H1]|]. naive_solver.
Qed.
End methods.

(** ** Mutating methods *)
(** A method that means to take the store from its state to [e']: however it
    ends, the disk holds what it may have held before or [e']; on [Ok] the store
    is at [e'] and, unless the directory was left unsynced, so is the disk; on
    an error the store is as before. *)
Definition atomic (P : Engine -> Prop) (s : Store.t) (e' : Engine) {A}
    (d : Disk) (r : option (Store.t * result StoreError A)) : Prop :=
  disk_ok (either P e') d /\
  match r with
  | None => True
  | Some (s', Ok _) =>
      Store.engine s' = e' /\ store_ok (either P e') s' d /\ (dlog d = log d -> disk_ok (eq e') d)
  | Some (s', Err _) => Store.engine s' = Store.engine s /\ store_ok (either P e') s' d
  end.

(** The state a method aims at, for the partition a key names. *)
Definition for_key (s : Store.t) (partition : PartitionKey.t) (f : PartId.t -> Engine) : Engine :=
  match PartId.from_key partition with Ok pid => f pid | Err _ => Store.engine s end.

Section mutating.
Context (P : Engine -> Prop) (s : Store.t) (d : Disk) (Hs : store_ok P s d).
Context (partition : PartitionKey.t) (Hkey : key_ok partition).
Implicit Types (ns : Namespace) (key value : list byte).

Lemma store_ok_either e' : store_ok (either P e') s d.
Proof. destruct Hs. split; [done|by apply disk_ok_either|done]. Qed.

Lemma refused {A} e' (err : StoreError) : atomic (A := A) P s e' d (Some (s, Err err)).
Proof. pose proof (store_ok_either e') as H. split; [apply H|done]. Qed.

(** After the record of [op] is appended, the engine takes the same step. *)
Lemma store_ok_appended s' d' e' :
  engine_ok e' -> appended P s (Store.engine s) e' d' (Some (s', Ok tt)) ->
  store_ok (either P e') (Store.with_engine s' e') d' /\ Store.poisoned s' = false /\
  (dlog d' = log d' -> disk_ok (eq e') d').
Proof. intros He' (E & Hp & Hl & Hd & Hq). split_and!; [|done..]. by split. Qed.

Lemma store_ok_failed s' d' e' err :
  appended P s (Store.engine s) e' d' (Some (s', Err err)) ->
  atomic (A := unit) P s e' d' (Some (s', Err err)).
Proof.
  intros (E & Hd & Hl). split; [done|]. split; [done|]. split; [|done|]; rewrite E; [apply Hs|done].
Qed.

Lemma prepare_put_inv ns key value pid record :
  Store.prepare_put s partition ns key value = Ok (pid, record) ->
  let op := Put (Ns.code ns) (pid_bytes pid) key value in
  Store.poisoned s = false /\ PartId.from_key partition = Ok pid /\ pid_ok pid /\
  check_put (Store.engine s) pid ns key value = Ok tt /\ record = record_of op /\ op_ok op.
Proof.
  intros E. unfold Store.prepare_put in E.
  apply bind_Ok in E as ([] & El & E). unfold Store.live in El.
  destruct (Store.poisoned s) eqn:Hp; [done|]. clear El.
  apply bind_Ok in E as (pid' & Ek & E). destruct (PartId.from_key partition) as [p|] eqn:Hk; [|done].
  injection Ek as <-. pose proof (from_key_ok _ _ Hkey Hk) as Hpid.
  apply bind_Ok in E as ([] & Ec & E).
  destruct (check_put _ _ _ _ _) as [[]|] eqn:Hc; [|done]. clear Ec.
  rewrite encode_ok in E by done. cbn [ok_or map_err mbind result_bind] in E.
  destruct (encode_record _) as [rec|] eqn:Hr; [|done]. injection E as <- <-.
  apply encode_record_inv in Hr as [Hop ->]. by split_and!.
Qed.

Lemma runs_put ns key value :
  runs (Store.put s partition ns key value) d
    (atomic P s (for_key s partition (fun pid => put (Store.engine s) pid ns key value))).
Proof.
  unfold Store.put. destruct (Store.prepare_put _ _ _ _ _) as [[pid record]|err] eqn:Hprep;
    [|apply runs_ret, refused].
  apply prepare_put_inv in Hprep as (Hlive & Hk & Hpid & Hc & -> & Hop).
  unfold for_key. rewrite Hk. pose proof (put_ok _ _ _ _ _ (so_engine _ _ _ Hs) Hpid Hc) as He'.
  set (e' := put (Store.engine s) pid ns key value) in *.
  apply runs_bind. eapply runs_mono.
  { apply (runs_append P s d Hs Hlive _ e'); [done|by apply apply_logged_put]. }
  intros d1 [[s1 [[]|err]]|] H1; [| |by split].
  - pose proof H1 as (E1 & _). apply store_ok_appended in H1 as (Hs1 & Hp1 & Hq1); [|done].
    rewrite E1. apply runs_bind. eapply runs_mono; [by apply (runs_maybe_compact _ _ _ Hs1)|].
    intros d2 [s2|] H2; [apply runs_ret|by split]. destruct H2 as (E2 & S2 & Q2).
    split; [apply S2|]. by split_and!.
  - apply runs_ret. by apply (store_ok_failed s1 d1 e' err).
Qed.

Lemma prepare_delete_inv ns key pid record :
  Store.prepare_delete s partition ns key = Ok (Some (pid, record)) ->
  let op := Delete (Ns.code ns) (pid_bytes pid) key in
  Store.poisoned s = false /\ PartId.from_key partition = Ok pid /\ pid_ok pid /\
  is_Some (get (Store.engine s) pid ns key) /\ record = record_of op /\ op_ok op.
Proof.
  intros E. unfold Store.prepare_delete in E.
  apply bind_Ok in E as ([] & El & E). unfold Store.live in El.
  destruct (Store.poisoned s) eqn:Hp; [done|]. clear El.
  apply bind_Ok in E as (pid' & Ek & E). destruct (PartId.from_key partition) as [p|] eqn:Hk; [|done].
  injection Ek as <-. pose proof (from_key_ok _ _ Hkey Hk) as Hpid.
  destruct (get _ _ _ _) as [v|] eqn:Hg; [|done].
  rewrite encode_ok in E by done. cbn [ok_or map_err mbind result_bind] in E.
  destruct (encode_record _) as [rec|] eqn:Hr; [|done]. injection E as <- <-.
  apply encode_record_inv in Hr as [Hop ->]. by split_and!.
Qed.

Lemma prepare_delete_absent ns key :
  Store.prepare_delete s partition ns key = Ok None ->
  exists pid, PartId.from_key partition = Ok pid /\ get (Store.engine s) pid ns key = None.
Proof.
  intros E. unfold Store.prepare_delete in E.
  apply bind_Ok in E as ([] & _ & E). apply bind_Ok in E as (pid & Ek & E).
  destruct (PartId.from_key partition) as [p|] eqn:Hk; [|done]. injection Ek as <-.
  exists p. split; [done|]. destruct (get _ _ _ _); [|done].
  apply bind_Ok in E as (? & _ & E). apply bind_Ok in E as (? & _ & [=]).
Qed.

(** An absent key is reported without touching the disk; a present one is
    deleted durably. *)
Lemma runs_delete ns key :
  let e' := for_key s partition (fun pid => (delete (Store.engine s) pid ns key).2) in
  runs (Store.delete s partition ns key) d (fun d' r =>
    r = Some (s, Ok false) /\ d' = d /\
      (exists pid, PartId.from_key partition = Ok pid /\ get (Store.engine s) pid ns key = None) \/
    (forall s', r <> Some (s', Ok false)) /\ atomic P s e' d' r).
Proof.
  intros e'. unfold Store.delete.
  destruct (Store.prepare_delete _ _ _ _) as [[[pid record]|]|err] eqn:Hprep.
  - apply prepare_delete_inv in Hprep as (Hlive & Hk & Hpid & _ & -> & Hop).
    assert (e' = (delete (Store.engine s) pid ns key).2) as He by (subst e'; unfold for_key; by rewrite Hk).
    rewrite He. clear e' He. set (e' := (delete _ _ _ _).2).
    pose proof (delete_ok _ pid ns key (so_engine _ _ _ Hs) : engine_ok e') as He'.
    apply runs_bind. eapply runs_mono.
    { apply (runs_append P s d Hs Hlive _ e'); [done|by apply apply_logged_delete]. }
    intros d1 [[s1 [[]|err]]|] H1; [| |right; by split; [|split]].
    + pose proof H1 as (E1 & _). apply store_ok_appended in H1 as (Hs1 & Hp1 & Hq1); [|done].
      rewrite E1. apply runs_ret. right. split; [done|]. split; [apply Hs1|]. by split_and!.
    + apply runs_ret. right. split; [done|]. by apply (store_ok_failed s1 d1 e' err).
  - apply runs_ret. left. split_and!; [done..|]. by apply prepare_delete_absent.
  - apply runs_ret. right. split; [done|apply refused].
Qed.
End mutating.

(** ** Forgetting *)
Section forgetting.
Implicit Types (e : Engine) (excl : PartId.t -> bool) (pid : PartId.t).

Lemma snapshot_parts_remove excl ps pid :
  excl pid = true -> snapshot_parts excl (bt_remove ps pid) = snapshot_parts excl ps.
Proof.
  intros Hx. induction ps as [|[pid' p] ps IH]; [done|]. cbn [bt_remove].
  destruct (cmp pid pid') eqn:E; cbn [snapshot_parts].
  - apply cmp_eq in E as <-. by rewrite Hx.
  - by rewrite IH.
  - by rewrite IH.
Qed.

Lemma snapshot_remove_partition excl e pid :
  excl pid = true ->
  snapshot_excluding (remove_partition e pid).2 excl = snapshot_excluding e excl.
Proof.
  intros Hx. unfold remove_partition. destruct (bt_get _ _) as [p|]; [|done].
  unfold snapshot_excluding. simpl. by rewrite snapshot_parts_remove.
Qed.

Lemma snapshot_remove_site e site :
  let excl := fun id => bool_decide (PartId.site id = site) in
  snapshot_excluding (remove_site e site).2 excl = snapshot_excluding e excl.
Proof.
  intros excl. unfold remove_site. fold excl. set (n := 0). clearbody n.
  assert (forall id, id ∈ List.filter excl (bt_keys (parts e)) -> excl id = true) as Hl.
  { intros id. rewrite list_elem_of_In, filter_In. tauto. }
  set (l := List.filter excl (bt_keys (parts e))) in *. clearbody l. revert e n.
  induction l as [|id l IH]; intros e n; [done|]. cbn [foldl fst snd].
  pose proof (snapshot_remove_partition excl e id (Hl id ltac:(left))) as Hr.
  destruct (remove_partition e id) as [m e'].
  rewrite IH by (intros; apply Hl; by right). done.
Qed.

Lemma snapshot_none_excluded excl e :
  engine_ok e -> (forall pid ns key, excl pid = true -> get e pid ns key = None) ->
  snapshot_excluding e excl = snapshot_excluding e (fun _ => false).
Proof.
  intros He Hx. unfold snapshot_excluding. f_equal.
  assert (forall q, q ∈ parts e -> excl q.1 = false) as Hall.
  { intros [pid p] Hq. simpl. destruct (excl pid) eqn:E; [|done]. exfalso.
    apply bt_elem_get in Hq; [|apply He]. destruct (partition_get e pid p He Hq) as (_ & Hp & _).
    destruct (entries p) as [|[[c key] v] es] eqn:Hes; [by apply (po_nonempty p)|].
    pose proof (po_entries p Hp) as Hf. rewrite Hes in Hf. apply Forall_cons in Hf as [[[ns Hns] _] _].
    simpl in Hns. pose proof (Hx pid ns key E) as Hg. unfold get in Hg. rewrite Hq in Hg. simpl in Hg.
    rewrite <- Hns in Hg. rewrite (bt_elem_get _ (c, key) v) in Hg; [done|apply Hp|].
    rewrite Hes. by left. }
  clear Hx He. induction (parts e) as [|[pid p] ps IH]; [done|]. cbn [snapshot_parts].
  pose proof (Hall (pid, p) ltac:(by left)) as Hx. simpl in Hx. rewrite Hx. rewrite IH; [done|]. intros q Hq. apply Hall. by right.
Qed.
End forgetting.

Section clearing.
Context (P : Engine -> Prop) (s : Store.t) (d : Disk) (Hs : store_ok P s d).

(** The store is live, its log is the snapshot of the state and of nothing
    else, and there is no other file. *)
Definition only_state (s' : Store.t) (d' : Disk) : Prop :=
  snapshot_excluding (Store.engine s') (fun _ => false) = Ok (log_bytes d') /\ tmp d' = None /\
  Store.poisoned s' = false.

Lemma runs_clear (excl : PartId.t -> bool) (remove : Engine -> Z * Engine) :
  let e2 := (remove (Store.engine s)).2 in
  Store.poisoned s = false -> engine_ok e2 ->
  (forall pid ns key, get e2 pid ns key =
     if excl pid then None else get (Store.engine s) pid ns key) ->
  snapshot_excluding e2 excl = snapshot_excluding (Store.engine s) excl ->
  runs (Store.clear s excl remove) d (fun d' r => atomic P s e2 d' r /\
    match r with
    | Some (s', Ok n) => n = (remove (Store.engine s)).1 /\ only_state s' d'
    | _ => True
    end).
Proof.
  intros e2 Hlive He2 Hget Hsn. apply runs_bind.
  eapply runs_mono; [by apply (runs_rewrite P s d Hs Hlive excl e2)|].
  intros d1 [[s1 [[]|err]]|] H1; [| |by split; [split|]].
  - destruct H1 as (E1 & P1 & L1 & D1 & Q1 & T1 & S1 & _). rewrite E1.
    destruct (remove (Store.engine s)) as [n e] eqn:Er. subst e2. simpl in *.
    apply runs_ret. split; [split; [done|]|]; [split_and!; [done|by split|done]|].
    split; [done|]. split; [|done]. simpl.
    rewrite <- (snapshot_none_excluded excl); [by rewrite Hsn|done|].
    intros pid ns key Hx. by rewrite Hget, Hx.
  - destruct H1 as (E1 & D1 & H1 & _). apply runs_ret. split; [|done]. split; [done|].
    split; [done|]. split; [rewrite E1; apply Hs|done|]. intros Hp. rewrite E1. by apply H1.
Qed.

Lemma runs_clear_partition partition :
  let e2 := for_key s partition (fun pid => (remove_partition (Store.engine s) pid).2) in
  runs (Store.clear_partition s partition) d (fun d' r => atomic P s e2 d' r /\
    match r with
    | Some (s', Ok n) => only_state s' d' /\ exists pid,
        PartId.from_key partition = Ok pid /\ n = (remove_partition (Store.engine s) pid).1
    | _ => True
    end).
Proof.
  intros e2. unfold Store.clear_partition, Store.live.
  destruct (Store.poisoned s) eqn:Hlive;
    [apply runs_ret; split; [by apply refused|done]|].
  cbn [mbind result_bind]. subst e2. unfold for_key.
  destruct (PartId.from_key partition) as [pid|] eqn:Hk; cbn [map_err];
    [|apply runs_ret; split; [by apply refused|done]].
  eapply runs_mono.
  - apply (runs_clear (fun id => bool_decide (id = pid)) (fun e => remove_partition e pid)); [done| | |].
    + apply remove_partition_ok, Hs.
    + intros pid' ns key. rewrite get_remove_partition.
      case_decide; case_bool_decide; congruence.
    + apply snapshot_remove_partition. by apply bool_decide_eq_true.
  - intros d' [[s' [n|err]]|] [H1 H2]; [|done..]. split; [done|]. naive_solver.
Qed.

Lemma runs_clear_site partition :
  let site := PartitionKey.top_level_site partition in
  runs (Store.clear_site s partition) d (fun d' r =>
    atomic P s (remove_site (Store.engine s) site).2 d' r /\
    match r with
    | Some (s', Ok n) => only_state s' d' /\ n = (remove_site (Store.engine s) site).1
    | _ => True
    end).
Proof.
  intros site. unfold Store.clear_site, Store.live.
  destruct (Store.poisoned s) eqn:Hlive;
    [apply runs_ret; split; [by apply refused|done]|].
  eapply runs_mono.
  - apply (runs_clear (fun id => bool_decide (PartId.site id = site)) (fun e => remove_site e site)); [done| | |].
    + apply remove_site_ok, Hs.
    + intros pid' ns key. rewrite get_remove_site. case_decide; case_bool_decide; done.
    + apply snapshot_remove_site.
  - intros d' [[s' [n|err]]|] [H1 H2]; [|done..]. split; [done|]. naive_solver.
Qed.

Lemma runs_compact :
  runs (Store.compact s) d (fun d' r => atomic P s (Store.engine s) d' r /\
    match r with Some (s', Ok _) => only_state s' d' | _ => True end).
Proof.
  unfold Store.compact, Store.live.
  destruct (Store.poisoned s) eqn:Hlive;
    [apply runs_ret; split; [by apply refused|done]|].
  eapply runs_mono; [apply (runs_rewrite P s d Hs Hlive _ (Store.engine s)); [apply Hs|done]|].
  intros d1 [[s1 [[]|err]]|] H1; [| |by split; [split|]].
  - destruct H1 as (E1 & P1 & L1 & D1 & Q1 & T1 & S1 & _).
    split; [split; [done|]|split; [by rewrite E1|done]].
    split_and!; [done| |done]. split; [rewrite E1; apply Hs|done|by rewrite E1].
  - destruct H1 as (E1 & D1 & H1 & _). split; [|done]. split; [done|]. split; [done|].
    split; [rewrite E1; apply Hs|done|]. intros Hp. rewrite E1. by apply H1.
Qed.
End clearing.

(** ** Opening *)
Section opening.
Context (P : Engine -> Prop).
Implicit Types (d : Disk) (e : Engine).

Lemma keeps_log_bytes d d' : keeps d d' -> log_bytes d' = log_bytes d.
Proof.
  intros (K1 & _ & K3). unfold log_bytes. rewrite K1. destruct (log d) as [i|]; [|done]. simpl.
  by rewrite K3 by (by left).
Qed.

Lemma runs_remove_tmp d :
  wf d -> runs remove_tmp d (fun d' _ => wf d' /\ keeps d d').
Proof.
  intros Hwf. apply runs_syscall. intros ev. pose proof (keeps_refl d).
  destruct (tmp d) as [i|] eqn:Ht; [|done]. destruct (happens ev); [|done].
  split; [|done]. destruct Hwf as [A1 A2 A3]. split; simpl; [|done..].
  intros j Hj. apply A1. set_solver.
Qed.

(** The bytes [open] recovers from. *)
Lemma runs_read d :
  runs Store.read_existing d (fun d' r => d' = d /\ match r with
      | Some (Ok b) => b = log_bytes d /\ len b <= MAX_LOG_BYTES
      | _ => True
      end).
Proof.
  apply runs_bind, runs_syscall. intros ev. unfold reply.
  destruct (outcome ev); [|by apply runs_ret|done].
  destruct (log d) as [i|] eqn:Hl.
  - destruct (_ >? _) eqn:Hbig; [by apply runs_ret|].
    apply runs_try, runs_syscall. intros ev'. unfold reply. rewrite Hl.
    destruct (outcome ev'); [|done..]. apply runs_ret. split; [done|]. split; [done|lia].
  - apply runs_ret. unfold log_bytes. rewrite Hl. done.
Qed.

(** The log is exactly the records of [e]. *)
Definition ready e d : Prop :=
  disk_ok P d /\ exists i, log d = Some i /\ logs e (cur (file_of d i)).

Lemma runs_truncate d i ops tail e :
  disk_ok P d -> log d = Some i -> cur (file_of d i) = header_bytes ++ records ops ++ tail ->
  Forall op_ok ops -> replay engine_default ops = Some e -> stops e tail ->
  len (header_bytes ++ records ops) <= LOG_BOUND -> P e ->
  runs (try_io id (set_len i (len (header_bytes ++ records ops))) (fun _ => sync i)) d
    (fun d' r => disk_ok P d' /\ match r with Some (Ok _) => ready e d' | _ => True end).
Proof.
  intros Hd Hl Hc Hops Hr Hst Hb HP. set (B := header_bytes ++ records ops) in *.
  assert (i < length (inodes d))%nat as Hi by (apply (do_wf _ _ Hd); rewrite Hl; left).
  pose proof (do_log _ _ Hd) as Hf. rewrite Hl in Hf. simpl in Hf.
  assert (slice_ok (header_bytes ++ records ops ++ tail)) as Hok.
  { apply file_ok_cur in Hf as [Hf _]. by rewrite Hc in Hf. }
  assert (cur (file_of d i) = B ++ tail) as Hc' by (unfold B; by rewrite Hc, app_assoc).
  assert (resize (Z.to_nat (len B)) x00 (cur (file_of d i)) = B) as Hres.
  { rewrite Hc', to_nat_len, resize_app_le, resize_all; done. }
  assert (file_ok P {| cur := B; dur := dur (file_of d i) |}) as HfB.
  { apply file_ok_truncate; [done|rewrite Hc'; by apply prefix_app_r|].
    intros b [k ->] Hk. rewrite Hc' in Hk. apply prefix_app_inv in Hk.
    unfold B. rewrite <- app_assoc. apply (recovers_ops P ops k e); [|done..| |done].
    - eapply slice_ok_prefix; [done|]. by apply prefix_app, prefix_app.
    - eapply stops_prefix; [|done..]. by apply slice_ok_app in Hok as [_ [_ ?]%slice_ok_app]. }
  assert (file_ok P {| cur := cur (file_of d i); dur := dur (file_of d i) |}) as Hf'
    by (by destruct (file_of d i)).
  apply runs_try, runs_syscall. intros ev. cbv zeta. rewrite Hres.
  match goal with |- context [set_file d i ?f] => set (f1 := f) end.
  assert (disk_ok P (set_file d i f1)) as Hd1.
  { apply disk_ok_set_log; [done..|]. apply file_ok_write_back. by destruct (happens ev). }
  unfold reply. destruct (outcome ev) eqn:Ho; [|done..].
  apply runs_syscall. intros ev'. cbv zeta. rewrite file_of_set, decide_True by done.
  assert (cur f1 = B) as Hf1 by (unfold f1, happens; by rewrite Ho).
  match goal with |- context [set_file (set_file d i f1) i ?f] => set (f2 := f) end.
  assert (file_ok P f1) as Hf1ok by (apply file_ok_write_back; by destruct (happens ev)).
  assert (disk_ok P (set_file (set_file d i f1) i f2)) as Hd2.
  { apply disk_ok_set_log; [done..|]. subst f2.
    destruct (outcome ev'); [by apply file_ok_sync|by apply file_ok_write_back..]. }
  split; [done|]. unfold reply. destruct (outcome ev') eqn:Ho'; [|done..].
  split; [done|]. exists i. split; [done|]. rewrite file_of_set, decide_True.
  - subst f2. rewrite ?Ho'. cbn [cur]. fold f1. rewrite Hf1. by exists ops.
  - done.
  - simpl. by rewrite length_insert.
Qed.

Lemma logs_header : logs engine_default header_bytes.
Proof.
  exists []. split_and!; [|done..|]; [change (records []) with (@nil byte); by rewrite app_nil_r|].
  rewrite len_header. by vm_compute.
Qed.

Lemma runs_repair d r :
  disk_ok P d -> recover (log_bytes d) = Ok r -> len (log_bytes d) <= MAX_LOG_BYTES ->
  runs (Store.repair r (log_bytes d)) d
    (fun d' x => disk_ok P d' /\ match x with Some (Ok _) => ready (engine r) d' | _ => True end).
Proof.
  intros Hd Hr Hmax. pose proof (name_ok_bytes P d (log d) (do_log _ _ Hd)) as (Hok & r' & Hr' & HP).
  fold (log_bytes d) in *. unfold Store.repair. rewrite Hr in Hr'. injection Hr' as <-.
  destruct (recover_prefix _ _ Hok Hr) as [->|(Hf & ops & tail & Hb & Hops & Hre & Hv & Hst)].
  - simpl in HP |- *. eapply runs_mono; [apply runs_write_atomic, Hd|].
    assert (forall d', replaced d header_bytes d' -> ready engine_default d') as Hready.
    { intros d' Hrep. split.
      - apply (replaced_ok P d _ d' engine_default) in Hrep as [Hrep _];
          [|done|by eapply logs_recovers; [apply logs_header|]].
        eapply disk_ok_mono; [|done]. by intros x [?| ->].
      - destruct Hrep as (_ & _ & (i & Hi & Hfi) & _). exists i. rewrite Hfi.
        split; [done|apply logs_header]. }
    intros d' [[[]|err]|] H'.
    + apply Hready in H'. by split; [apply H'|].
    + split; [|done]. destruct H' as [? ?]. by eapply keeps_ok.
    + split; [|done]. destruct H' as [[? ?]|H']; [by eapply keeps_ok|by apply Hready in H' as [? _]].
  - rewrite Hf. destruct (log d) as [i|] eqn:Hl; unfold log_bytes in *; rewrite Hl in *; cbn [name_bytes] in Hb, Hmax.
    2: { symmetry in Hb. apply app_eq_nil in Hb as [Hb%(f_equal len) _]. by rewrite len_header in Hb. }
    assert (len (header_bytes ++ records ops) <= LOG_BOUND) as Hbound.
    { change MAX_LOG_BYTES with (2 ^ 28) in Hmax. rewrite Hb, app_assoc, len_app in Hmax.
      pose proof (len_nonneg tail). unfold LOG_BOUND. lia. }
    destruct (_ <? _) eqn:Hlt.
    + apply runs_try, runs_syscall. intros ev. rewrite Hl. destruct (outcome ev); [|done..].
      rewrite Hv. by apply (runs_truncate d i ops tail (engine r)).
    + apply runs_ret. split; [done|]. split; [done|]. exists i. split; [done|].
      cbn [name_bytes] in Hlt. rewrite Hb in Hlt. rewrite Hv, !len_app in Hlt.
      assert (tail = []) as -> by (apply len_zero; pose proof (len_nonneg tail); lia).
      rewrite app_nil_r in Hb. rewrite Hb. by exists ops.
Qed.

Definition opened d0 d (x : option (result StoreError Store.t)) : Prop :=
  disk_ok P d /\
  match x with
  | Some (Ok s) => store_ok P s d /\ Store.poisoned s = false /\
      exists r, recover (log_bytes d0) = Ok r /\ Store.engine s = engine r
  | _ => True
  end.

Lemma runs_open_log_file d : disk_ok P d -> runs Store.open_log_file d (opened d).
Proof.
  intros Hd. apply runs_try. eapply runs_mono; [apply runs_read|].
  intros d1 [[b|err]|] [-> H1]; [|done..]. destruct H1 as [-> Hmax].
  destruct (recover (log_bytes d)) as [r|err] eqn:Hr; [|by apply runs_ret].
  apply runs_try. eapply runs_mono; [by apply runs_repair|].
  intros d2 [[[]|err]|] [Hd2 H2]; [|by split..]. destruct H2 as (_ & i & Hi & Hlogs).
  apply runs_try, runs_syscall. intros ev. rewrite Hi. destruct (outcome ev); [|by split..].
  apply runs_try, runs_syscall. intros ev'. unfold reply. destruct (outcome ev'); [|by split..].
  apply runs_ret. split; [done|]. split_and!; [|done|by exists r].
  split; [|done|by intros _; split_and!]. simpl.
  eapply recover_engine_ok; [|done]. unfold slice_ok, ISIZE_MAX.
  change MAX_LOG_BYTES with (2 ^ 28) in Hmax. lia.
Qed.

Lemma runs_open d : disk_ok P d -> runs Store.open d (opened d).
Proof.
  intros Hd. apply runs_try, runs_syscall. intros ev. unfold reply.
  destruct (outcome ev); [|by split..].
  apply runs_bind. eapply runs_mono; [apply runs_remove_tmp, Hd|].
  intros d1 r1 [W1 K1]. pose proof (keeps_ok P _ _ K1 W1 Hd) as Hd1.
  unfold opened. rewrite <- (keeps_log_bytes _ _ K1). fold (opened d1).
  destruct r1 as [[[]|[]]|]; [by apply runs_open_log_file|by apply runs_open_log_file|by apply runs_ret|done].
Qed.
End opening.
