(* ===== verification/StoreProps.v ===== *)
(** * Theorems about the store (px-store/src/store.rs)

    What a caller of [Store] can rely on, stated over every run: every sequence
    of outcomes of the system calls, every point at which the run may be cut
    off, and every state the disk may then be found in. *)
From stdpp Require Import relations.
From S2P Require Import Prelude Bytes OrdMap Text Partition Checksum Format Engine Recovery Disk Store Durability StoreSafety.
Local Open Scope Z_scope.

(** However the run is cut off now, the log found is one the engine recovers,
    and to a state of [P]. *)
Definition found (P : Engine -> Prop) (d : Disk) : Prop :=
  forall c, exists r, recover (log_bytes (after c d)) = Ok r /\ P (engine r).

Lemma disk_ok_found P d : disk_ok P d -> found P d.
Proof.
  intros Hd c. pose proof (disk_ok_after P d c Hd) as Hc.
  by destruct (name_ok_bytes P _ _ (do_log _ _ Hc)) as [_ H].
Qed.

(** ** Runs in which nothing fails *)
Definition good_run {A} (m : io A) (d : Disk) (Q : Disk -> A -> Prop) : Prop :=
  exists d' a, m {| disk := d; events := [] |} = ({| disk := d'; events := [] |}, Some a) /\ Q d' a.

Section good_run.
Context {A B : Type}.

Lemma good_bind (m : io A) (f : A -> io B) d Q :
  good_run m d (fun d' a => good_run (f a) d' Q) -> good_run (m ≫= f) d Q.
Proof. intros (d1 & a & E & H). unfold good_run, mbind, io_bind. by rewrite E. Qed.

Lemma good_ret (a : A) d (Q : Disk -> A -> Prop) : Q d a -> good_run (mret a) d Q.
Proof. intros H. by exists d, a. Qed.

Lemma good_syscall (act : Event -> Disk -> Disk * result ErrorKind A) d Q :
  (let '(d', r) := act good d in Q d' r) -> good_run (syscall act) d Q.
Proof.
  unfold good_run, syscall. simpl. destruct (act good d) as [d' r] eqn:E. intros H. by exists d', r.
Qed.
End good_run.

Lemma good_try {E F A B} (conv : E -> F) (m : io (result E A)) (k : A -> io (result F B)) d Q :
  good_run m d (fun d' r => exists a, r = Ok a /\ good_run (k a) d' Q) ->
  good_run (try_io conv m k) d Q.
Proof. intros H. apply good_bind. by destruct H as (d' & ? & E' & a & -> & H); exists d', (Ok a). Qed.

Lemma good_write_atomic b d :
  good_run (Store.write_atomic b) d (fun d' r => r = Ok tt /\ exists i, log d' = Some i).
Proof.
  apply good_try, good_syscall. unfold happens, reply. simpl. destruct (tmp d) as [i|] eqn:Ht.
  all: eexists; (split; [done|]).
  all: do 3 (apply good_try, good_syscall; simpl; rewrite ?Ht; eexists; split; [done|]).
  all: apply good_bind, good_bind, good_syscall; simpl; apply good_bind, good_syscall; simpl.
  all: apply good_ret, good_ret; split; [done|by eexists].
Qed.

Lemma good_repair r d :
  recover (log_bytes d) = Ok r ->
  good_run (Store.repair r (log_bytes d)) d (fun d' x => x = Ok tt /\ exists i, log d' = Some i).
Proof.
  intros Hr. unfold Store.repair. destruct (fresh r) eqn:Hf; [apply good_write_atomic|].
  assert (exists i, log d = Some i) as [i Hi].
  { unfold log_bytes in Hr. destruct (log d) as [i|]; [by exists i|].
    assert (recover (name_bytes d None) = Ok {| engine := engine_default; valid_len := 0; fresh := true |})
      as Hn by (by vm_compute). rewrite Hn in Hr. by injection Hr as <-. }
  destruct (_ <? _); [|apply good_ret; eauto].
  apply good_try, good_syscall. simpl. rewrite Hi. eexists. split; [done|].
  apply good_try, good_syscall. simpl. eexists. split; [done|].
  apply good_syscall. simpl. eauto.
Qed.

Lemma good_open r d :
  recover (log_bytes d) = Ok r -> len (log_bytes d) <= MAX_LOG_BYTES ->
  good_run Store.open d (fun _ x => exists s, x = Ok s).
Proof.
  intros Hr Hmax. apply good_try, good_syscall. simpl. eexists. split; [done|].
  assert (forall d2, log_bytes d2 = log_bytes d ->
    good_run Store.open_log_file d2 (fun _ x => exists s, x = Ok s)) as H.
  { intros d2 Hb. rewrite <- Hb in *. apply good_try.
    assert (good_run Store.read_existing d2 (fun d' x => d' = d2 /\ x = Ok (log_bytes d2)))
      as (? & ? & E & -> & ->).
    { apply good_bind, good_syscall. unfold reply. simpl. destruct (log d2) as [i|] eqn:Hi.
      - destruct (_ >? _) eqn:Hbig; [lia|]. apply good_try, good_syscall. unfold reply. simpl.
        rewrite Hi. eexists. split; [done|]. by apply good_ret.
      - apply good_ret. unfold log_bytes. by rewrite Hi. }
    exists d2, (Ok (log_bytes d2)). split; [done|]. eexists. split; [done|]. rewrite Hr.
    apply good_try. destruct (good_repair r d2 Hr) as (d3 & x & E3 & -> & i & Hi).
    exists d3, (Ok tt). split; [done|]. eexists. split; [done|].
    apply good_try, good_syscall. simpl. rewrite Hi. eexists. split; [done|].
    apply good_try, good_syscall. simpl. eexists. split; [done|]. apply good_ret. by eexists. }
  apply good_bind, good_syscall. simpl. destruct (tmp d); apply H; done.
Qed.

(** ** Example store *)
Definition sample_key : PartitionKey.t :=
  {| PartitionKey.top_level_site := lit "a.example";
     PartitionKey.origin := {| Origin.scheme := lit "https"; Origin.host := lit "cdn.example";
       Origin.port := 443 |} |}.

(** A store just created in an empty directory. *)
Definition sample_disk : Disk :=
  let f := {| cur := header_bytes; dur := header_bytes |} in
  {| inodes := [f]; log := Some 0%nat; tmp := None; dlog := Some 0%nat; dtmp := None |}.
Definition sample_store : Store.t :=
  {| Store.file := 0%nat; Store.engine := engine_default; Store.log_len := HEADER_LEN;
     Store.poisoned := false |}.

Lemma new_disk_ok : disk_ok (eq engine_default) new_disk.
Proof. split; [|done..]. split; [|done..]. intros i Hi. by repeat (apply elem_of_cons in Hi as [?|Hi]; [done|]); apply elem_of_nil in Hi. Qed.

Lemma sample_open :
  Store.open {| disk := new_disk; events := [] |} =
    ({| disk := sample_disk; events := [] |}, Some (Ok sample_store)).
Proof. by vm_compute. Qed.

Lemma sample_store_ok : store_ok (eq engine_default) sample_store sample_disk.
Proof.
  pose proof (runs_open _ _ new_disk_ok []) as H. rewrite sample_open in H. apply H.
Qed.

Lemma sample_key_ok : key_ok sample_key.
Proof. split_and!; [done..|]. split_and!; try done. by left. Qed.

(** ** Reading back *)
Lemma from_key_fields k pid :
  PartId.from_key k = Ok pid ->
  pid = {| PartId.site := PartitionKey.top_level_site k;
           PartId.scheme := Origin.scheme (PartitionKey.origin k);
           PartId.host := Origin.host (PartitionKey.origin k);
           PartId.port := Origin.port (PartitionKey.origin k) |}.
Proof.
  intros (enc & _ & E)%bind_Ok. by destruct (_ >? _); simplify_eq.
Qed.

Lemma from_key_inj k k' pid : PartId.from_key k = Ok pid -> PartId.from_key k' = Ok pid -> k = k'.
Proof.
  intros ->%from_key_fields H%from_key_fields. destruct k as [? []], k' as [? []]. simpl in H.
  congruence.
Qed.

(** What the store returns, of an engine. *)
Definition lookup_key (e : Engine) (partition : PartitionKey.t) (ns : Namespace) (key : list byte) :=
  pid ← ok (PartId.from_key partition); get e pid ns key.

Lemma store_get s partition ns key :
  Store.poisoned s = false -> Store.get s partition ns key = lookup_key (Store.engine s) partition ns key.
Proof. intros H. unfold Store.get. by rewrite H. Qed.

Lemma lookup_put e partition pid ns key value partition' ns' key' :
  PartId.from_key partition = Ok pid ->
  lookup_key (put e pid ns key value) partition' ns' key' =
    if decide (partition = partition' /\ ns = ns' /\ key = key') then Some value
    else lookup_key e partition' ns' key'.
Proof.
  intros Hk. unfold lookup_key. destruct (PartId.from_key partition') as [pid'|] eqn:Hk'; simpl.
  - rewrite get_put. destruct (decide (pid = pid')) as [->|Hne].
    + rewrite (from_key_inj _ _ _ Hk Hk'). by repeat case_decide; naive_solver.
    + rewrite !decide_False; [done| |]; intros (-> & _); congruence.
  - rewrite decide_False; [done|]. intros (-> & _). congruence.
Qed.

(** ** The theorems *)

(** C1: atomicity and durability of [put], for partitions whose site is ASCII (under
    another site the write is lost: [non_ascii_site_lost]).  Take any run of [put] on
    a legal store, over any sequence of outcomes of its system calls.  Wherever it is
    cut off and whatever of the unsynced data survives, the log that is found
    recovers either to a state the disk could already hold or to the state with
    the new value.  When [put] returns [Ok] the store holds exactly the new state,
    and every log that can be found holds it too provided that the log's own
    directory entry has reached the disk, which the code tries for and does not insist on
    ([unsynced_directory_loses_put]); when it returns an error the store is
    unchanged.  In every case the store's invariant is kept. *)
Theorem put_atomic_durable P s d partition ns key value evs w r :
  store_ok P s d -> key_ok partition ->
  Store.put s partition ns key value {| disk := d; events := evs |} = (w, r) ->
  let e' := for_key s partition (fun pid => put (Store.engine s) pid ns key value) in
  found (either P e') (disk w) /\
  match r with
  | None => True
  | Some (s', Ok _) =>
      Store.engine s' = e' /\ store_ok (either P e') s' (disk w) /\
      (dlog (disk w) = log (disk w) -> found (eq e') (disk w))
  | Some (s', Err _) => Store.engine s' = Store.engine s /\ store_ok (either P e') s' (disk w)
  end.
Proof.
  intros Hs Hk E e'. pose proof (runs_put P s d Hs partition Hk ns key value evs) as H.
  rewrite E in H. destruct H as [Hd H]. split; [by apply disk_ok_found|].
  destruct r as [[s' [[]|err]]|]; [|done..]. destruct H as (? & ? & Hq).
  split_and!; [done..|]. intros Hl. by apply disk_ok_found, Hq.
Qed.

(** A write whose data never reached the medium, then a power cut. *)
Definition sample_torn : list Event :=
  [{| outcome := Good; amount := 0; written_back := 30 |};
   {| outcome := Die; amount := 0; written_back := 40 |}].

Lemma put_atomic_durable_witness :
  exists w, Store.put sample_store sample_key Storage (lit "k") (lit "v")
    {| disk := sample_disk; events := sample_torn |} = (w, None) /\
  len (dur (file_of (disk w) 0)) = 40 /\
  found (either (eq engine_default) (put engine_default sample_pid Storage (lit "k") (lit "v"))) (disk w).
Proof.
  eexists. split; [vm_compute; reflexivity|]. split; [by vm_compute|].
  apply (put_atomic_durable (eq engine_default) sample_store sample_disk sample_key Storage
    (lit "k") (lit "v") sample_torn _ None); [apply sample_store_ok|apply sample_key_ok|].
  by vm_compute.
Defined.

(** The store of the examples with one value in it. *)
Definition sample_put : World * option (Store.t * result StoreError unit) :=
  Store.put sample_store sample_key Storage (lit "k") (lit "v") {| disk := sample_disk; events := [] |}.

Lemma sample_put_eq : exists s', sample_put = (sample_put.1, Some (s', Ok tt)).
Proof. eexists. vm_compute. reflexivity. Qed.

Lemma sample_put_ok :
  exists s', sample_put = (sample_put.1, Some (s', Ok tt)) /\
    store_ok (either (eq engine_default) (Store.engine s')) s' (disk sample_put.1).
Proof.
  destruct sample_put_eq as [s' E]. exists s'. split; [done|].
  pose proof (runs_put _ _ _ sample_store_ok sample_key sample_key_ok Storage (lit "k") (lit "v") []) as H.
  fold sample_put in H. rewrite E in H. destruct H as [_ (He & Hs & _)]. by rewrite He.
Qed.

(** an acknowledged write survives.  [put] returned [Ok] and the directory
    on the medium is the one the process sees.  However the run then ends, by a
    kill or a power cut that keeps any part of what was not synced, reopening
    the directory succeeds when no call fails and the log is within the size
    [open] reads, the value is there, and every other key of every partition
    reads as it did before the write. *)
Theorem put_survives_crash P s d partition ns key value evs w s' c :
  store_ok P s d -> key_ok partition ->
  Store.put s partition ns key value {| disk := d; events := evs |} = (w, Some (s', Ok tt)) ->
  dlog (disk w) = log (disk w) ->
  len (log_bytes (after c (disk w))) <= MAX_LOG_BYTES ->
  exists w2 s2, Store.open {| disk := after c (disk w); events := [] |} = (w2, Some (Ok s2)) /\
    forall partition' ns' key', Store.get s2 partition' ns' key' =
      if decide (partition = partition' /\ ns = ns' /\ key = key') then Some value
      else Store.get s partition' ns' key'.
Proof.
  intros Hs Hk E Hdl Hmax. pose proof (runs_put P s d Hs partition Hk ns key value evs) as H.
  rewrite E in H. destruct H as [_ (_ & _ & Hd)]. specialize (Hd Hdl).
  unfold Store.put in E. destruct (Store.prepare_put _ _ _ _ _) as [[pid record]|err] eqn:Hprep; [|done].
  apply (prepare_put_inv s partition Hk) in Hprep as (Hlive & Hpid & _).
  unfold for_key in Hd. rewrite Hpid in Hd.
  pose proof (disk_ok_after _ _ c Hd) as Hda.
  destruct (disk_ok_found _ _ Hd c) as (r & Hr & He).
  destruct (good_open r _ Hr Hmax) as (d2 & x & Eo & s2 & ->).
  exists {| disk := d2; events := [] |}, s2. split; [done|]. intros partition' ns' key'.
  pose proof (runs_open _ _ Hda []) as Ho. rewrite Eo in Ho. destruct Ho as (_ & _ & Hp2 & r2 & Hr2 & E2).
  rewrite Hr in Hr2. injection Hr2 as <-.
  rewrite !store_get by done. rewrite E2, <- He. by apply lookup_put.
Qed.

Lemma put_survives_crash_witness :
  exists s', sample_put = (sample_put.1, Some (s', Ok tt)) /\
  exists w2 s2, Store.open {| disk := after (Power (fun _ => 0%nat) false) (disk sample_put.1); events := [] |} =
      (w2, Some (Ok s2)) /\
    Store.get s2 sample_key Storage (lit "k") = Some (lit "v") /\
    Store.get s2 sample_key Cookies (lit "k") = None.
Proof.
  destruct sample_put_eq as [s' E]. exists s'. split; [exact E|]. unfold sample_put at 1 in E.
  destruct (put_survives_crash (eq engine_default) sample_store sample_disk sample_key Storage
    (lit "k") (lit "v") [] sample_put.1 s' (Power (fun _ => 0%nat) false)) as (w2 & s2 & Ho & Hg);
    [apply sample_store_ok|apply sample_key_ok|exact E|by vm_compute|by vm_compute|].
  exists w2, s2. split; [exact Ho|]. clear E Ho. rewrite !Hg. split; [by rewrite decide_True|].
  rewrite decide_False by (by intros (_ & [=] & _)). by vm_compute.
Defined.

(** [delete] is atomic and durable in the same sense.  It answers
    [Ok(false)] exactly when it leaves store and disk untouched because the key
    is absent. *)
Theorem delete_atomic_durable P s d partition ns key evs w r :
  store_ok P s d -> key_ok partition ->
  Store.delete s partition ns key {| disk := d; events := evs |} = (w, r) ->
  let e' := for_key s partition (fun pid => (delete (Store.engine s) pid ns key).2) in
  (r = Some (s, Ok false) /\ disk w = d /\ lookup_key (Store.engine s) partition ns key = None) \/
  (forall s', r <> Some (s', Ok false)) /\ found (either P e') (disk w) /\
  match r with
  | None => True
  | Some (s', Ok _) =>
      Store.engine s' = e' /\ store_ok (either P e') s' (disk w) /\
      (dlog (disk w) = log (disk w) -> found (eq e') (disk w))
  | Some (s', Err _) => Store.engine s' = Store.engine s /\ store_ok (either P e') s' (disk w)
  end.
Proof.
  intros Hs Hk E e'. pose proof (runs_delete P s d Hs partition Hk ns key evs) as H.
  rewrite E in H. destruct H as [(-> & Hd & pid & Hpid & Hg)|[Hn [Hd H]]].
  - left. split_and!; [done..|]. unfold lookup_key. by rewrite Hpid.
  - right. split; [done|]. split; [by apply disk_ok_found|].
    destruct r as [[s' [b|err]]|]; [|done..]. destruct H as (? & ? & Hq).
    split_and!; [done..|]. intros Hl. by apply disk_ok_found, Hq.
Qed.

Lemma delete_atomic_durable_witness :
  exists w r, Store.delete sample_store sample_key Storage (lit "k")
    {| disk := sample_disk; events := [] |} = (w, r) /\ r = Some (sample_store, Ok false).
Proof.
  eexists _, _. split; [vm_compute; reflexivity|].
  edestruct (delete_atomic_durable (eq engine_default) sample_store sample_disk sample_key Storage
    (lit "k") []) as [[H _]|[H _]];
    [apply sample_store_ok|apply sample_key_ok|vm_compute; reflexivity|exact H|].
  exfalso. eapply H. reflexivity.
Defined.

(** forgetting.  When [clear_partition] returns [Ok], nothing of the
    partition can be read, every other partition reads as before, the count
    returned is that of the entries removed, and the files of the store are a
    function of the surviving state alone: the log is its snapshot and there is
    no temporary.  However a run ends, the log recovers to a state from before
    or to the cleared one. *)
Theorem clear_partition_forgets P s d partition evs w r :
  store_ok P s d ->
  Store.clear_partition s partition {| disk := d; events := evs |} = (w, r) ->
  let e' := for_key s partition (fun pid => (remove_partition (Store.engine s) pid).2) in
  found (either P e') (disk w) /\
  match r with
  | Some (s', Ok n) =>
      (forall partition' ns key, Store.get s' partition' ns key =
         if decide (partition = partition') then None else Store.get s partition' ns key) /\
      snapshot_excluding (Store.engine s') (fun _ => false) = Ok (log_bytes (disk w)) /\
      tmp (disk w) = None /\ store_ok (either P e') s' (disk w) /\
      exists pid, PartId.from_key partition = Ok pid /\
        n = match bt_get (parts (Store.engine s)) pid with Some p => len (entries p) | None => 0 end
  | Some (s', Err _) => Store.engine s' = Store.engine s /\ store_ok (either P e') s' (disk w)
  | None => True
  end.
Proof.
  intros Hs E e'. pose proof (runs_clear_partition P s d Hs partition evs) as H.
  rewrite E in H. destruct H as [[Hd Ha] H]. split; [by apply disk_ok_found|].
  destruct r as [[s' [n|err]]|]; [|done..].
  destruct H as ((Hsn & Ht & Hp') & pid & Hpid & Hn), Ha as (He & Hs' & _).
  assert (Store.poisoned s = false) as Hp.
  { unfold Store.clear_partition, Store.live in E. by destruct (Store.poisoned s). }
  split_and!; [|done..|].
  - intros partition' ns key. rewrite !store_get by done. rewrite He. unfold for_key, lookup_key.
    rewrite Hpid. destruct (PartId.from_key partition') as [pid'|] eqn:Hk'; simpl.
    + rewrite get_remove_partition. repeat case_decide; try done; subst.
      * by rewrite (from_key_inj _ _ _ Hpid Hk') in *.
      * congruence.
    + by case_decide.
  - exists pid. split; [done|]. subst n. unfold remove_partition. by destruct (bt_get _ _).
Qed.

Lemma sample_clear_eq s' :
  sample_put = (sample_put.1, Some (s', Ok tt)) ->
  exists w2 s2, Store.clear_partition s' sample_key {| disk := disk sample_put.1; events := [] |} =
    (w2, Some (s2, Ok 1)).
Proof.
  intros E. assert (Some s' = fst <$> sample_put.2) as Hs by (by rewrite E). clear E.
  vm_compute in Hs. injection Hs as ->. eexists _, _. vm_compute. reflexivity.
Qed.

Lemma clear_partition_forgets_witness :
  exists s' w2 s2, sample_put = (sample_put.1, Some (s', Ok tt)) /\
    Store.clear_partition s' sample_key {| disk := disk sample_put.1; events := [] |} =
      (w2, Some (s2, Ok 1)) /\ Store.get s2 sample_key Storage (lit "k") = None.
Proof.
  destruct sample_put_ok as (s' & E & Hs). destruct (sample_clear_eq s' E) as (w2 & s2 & Hc).
  exists s', w2, s2. split; [exact E|]. split; [exact Hc|].
  destruct (clear_partition_forgets _ s' (disk sample_put.1) sample_key [] w2 _ Hs Hc) as (_ & Hg & _).
  clear E Hs Hc. by rewrite Hg, decide_True.
Defined.

(** the same for [clear_site]: every partition of the site goes, whatever
    origin is embedded under it, and no other. *)
Theorem clear_site_forgets P s d partition evs w r :
  store_ok P s d ->
  Store.clear_site s partition {| disk := d; events := evs |} = (w, r) ->
  let site := PartitionKey.top_level_site partition in
  let e' := (remove_site (Store.engine s) site).2 in
  found (either P e') (disk w) /\
  match r with
  | Some (s', Ok _) =>
      (forall partition' ns key, Store.get s' partition' ns key =
         if PartitionKey.same_top_level partition' partition then None
         else Store.get s partition' ns key) /\
      snapshot_excluding (Store.engine s') (fun _ => false) = Ok (log_bytes (disk w)) /\
      tmp (disk w) = None /\ store_ok (either P e') s' (disk w)
  | Some (s', Err _) => Store.engine s' = Store.engine s /\ store_ok (either P e') s' (disk w)
  | None => True
  end.
Proof.
  intros Hs E site e'. pose proof (runs_clear_site P s d Hs partition evs) as H.
  rewrite E in H. destruct H as [[Hd Ha] H]. split; [by apply disk_ok_found|].
  destruct r as [[s' [n|err]]|]; [|done..].
  destruct H as ((Hsn & Ht & Hp') & Hn), Ha as (He & Hs' & _).
  assert (Store.poisoned s = false) as Hp.
  { unfold Store.clear_site, Store.live in E. by destruct (Store.poisoned s). }
  split_and!; [|done..]. intros partition' ns key. rewrite !store_get by done. rewrite He.
  unfold lookup_key. destruct (PartId.from_key partition') as [pid'|] eqn:Hk'; simpl.
  - rewrite get_remove_site. apply from_key_fields in Hk'. subst pid'. simpl.
    unfold PartitionKey.same_top_level, site. case_decide; by case_bool_decide.
  - by destruct (PartitionKey.same_top_level _ _).
Qed.

Definition sample_clear_site : World * option (Store.t * result StoreError Z) :=
  Store.clear_site sample_store sample_key {| disk := sample_disk; events := [] |}.

Lemma sample_clear_site_eq : exists s', sample_clear_site = (sample_clear_site.1, Some (s', Ok 0)).
Proof. eexists. vm_compute. reflexivity. Qed.

Lemma clear_site_forgets_witness :
  exists s', sample_clear_site = (sample_clear_site.1, Some (s', Ok 0)) /\
    tmp (disk sample_clear_site.1) = None.
Proof.
  destruct sample_clear_site_eq as [s' E]. exists s'. split; [exact E|]. unfold sample_clear_site at 1 in E.
  destruct (clear_site_forgets (eq engine_default) sample_store sample_disk sample_key [] _ _
    sample_store_ok E) as (_ & _ & _ & Ht & _). exact Ht.
Defined.

(** C37: opening recovers, and never harms.  On any disk whose possible logs all
    recover to states of [P], [open] under any outcomes of its calls, and
    wherever it is cut off, leaves such a disk; when it succeeds the store holds
    the state the log recovers to and satisfies the invariant.  When no call
    fails it does succeed, for every log that is not foreign, damaged in its
    header or larger than [MAX_LOG_BYTES]. *)
Theorem open_recovers P d r evs :
  disk_ok P d -> recover (log_bytes d) = Ok r ->
  (let '(w, x) := Store.open {| disk := d; events := evs |} in
   found P (disk w) /\ disk_ok P (disk w) /\
   forall s, x = Some (Ok s) ->
     store_ok P s (disk w) /\ Store.poisoned s = false /\ Store.engine s = engine r) /\
  (len (log_bytes d) <= MAX_LOG_BYTES ->
   exists w s, Store.open {| disk := d; events := [] |} = (w, Some (Ok s)) /\
     Store.engine s = engine r).
Proof.
  intros Hd Hr. split.
  - pose proof (runs_open P d Hd evs) as H. destruct (Store.open _) as [w x]. destruct H as [Hd' H].
    split_and!; [by apply disk_ok_found|done|]. intros s ->. destruct H as (? & ? & r' & Hr' & ->).
    split_and!; [done..|]. congruence.
  - intros Hmax. destruct (good_open r d Hr Hmax) as (d' & x & E & s & ->).
    exists {| disk := d'; events := [] |}, s. split; [done|].
    pose proof (runs_open P d Hd []) as H. rewrite E in H. destruct H as (_ & _ & _ & r' & Hr' & ->).
    congruence.
Qed.

(** A log whose last record was cut short. *)
Definition sample_torn_disk : Disk :=
  let f := {| cur := sample_log; dur := sample_log |} in
  {| inodes := [f]; log := Some 0%nat; tmp := None; dlog := Some 0%nat; dtmp := None |}.

Definition sample_logged : Engine := put engine_default sample_pid Storage (lit "k") (lit "v").

Lemma sample_torn_ok : disk_ok (eq sample_logged) sample_torn_disk.
Proof.
  assert (file_ok (eq sample_logged) {| cur := sample_log; dur := sample_log |}) as Hf.
  { apply file_ok_synced. split; [by vm_compute|]. eexists. split; vm_compute; reflexivity. }
  split; [|done..]. split; [|done..]. intros i Hi. simpl.
  simpl in Hi. rewrite !elem_of_cons, elem_of_nil in Hi. naive_solver lia.
Qed.

Lemma open_recovers_witness :
  exists w s, Store.open {| disk := sample_torn_disk; events := [] |} = (w, Some (Ok s)) /\
    Store.engine s = sample_logged.
Proof.
  apply (open_recovers (eq sample_logged) sample_torn_disk
    {| engine := sample_logged; valid_len := 65; fresh := false |} []);
    [apply sample_torn_ok|by vm_compute|by vm_compute].
Defined.

(** ** Limits of the guarantees *)

(** A site name outside ASCII, which [PartitionKey::new] accepts. *)
Definition sample_idn : list byte := [xc3; xa9; x2e; x63; x6f; x6d].

(** a key whose site is not ASCII is accepted but not durable.  The list
    gives such a site, [PartitionKey::new] and [PartId::from_key] take it, [put]
    appends the record, syncs it and returns [Ok], and the store reads the value
    back; yet recovery refuses the record, and everything after it, so the value
    is gone at the next open, with no failure of any call.  The hypothesis
    [key_ok] of the durability theorems is needed. *)
Theorem non_ascii_site_lost :
  exists k, PartitionKey.new sample_psl sample_idn (PartitionKey.origin sample_key) = Some k /\
  exists w s, Store.put sample_store k Storage (lit "k") (lit "v")
      {| disk := sample_disk; events := [] |} = (w, Some (s, Ok tt)) /\
    Store.get s k Storage (lit "k") = Some (lit "v") /\
    exists w2 s2, Store.open {| disk := disk w; events := [] |} = (w2, Some (Ok s2)) /\
      Store.get s2 k Storage (lit "k") = None /\ log_bytes (disk w2) = header_bytes.
Proof.
  eexists. split; [vm_compute; reflexivity|].
  eexists _, _. split; [vm_compute; reflexivity|]. split; [vm_compute; reflexivity|].
  eexists _, _. split; [vm_compute; reflexivity|]. split; [vm_compute; reflexivity|].
  vm_compute. reflexivity.
Qed.

(** The directory cannot be opened for the sync that follows the rename. *)
Definition sample_unsynced : list Event :=
  replicate 7 good ++ [{| outcome := Bad; amount := 0; written_back := 0 |}].

(** the sync of the directory is a best effort, and the guarantee ends with
    it.  When it fails, [open] still succeeds, a [put] is synced and
    acknowledged, and a power cut may lose both, even when every byte of every
    file reached the medium: the name never did.  The hypothesis
    [dlog = log] of the durability theorems is needed. *)
Theorem unsynced_directory_loses_put :
  exists w s, Store.open {| disk := new_disk; events := sample_unsynced |} = (w, Some (Ok s)) /\
  exists w2 s2, Store.put s sample_key Storage (lit "k") (lit "v") {| disk := disk w; events := [] |} =
      (w2, Some (s2, Ok tt)) /\
    Store.get s2 sample_key Storage (lit "k") = Some (lit "v") /\
    exists w3 s3,
      Store.open {| disk := after (Power (fun _ => 1000%nat) false) (disk w2); events := [] |} =
        (w3, Some (Ok s3)) /\
      Store.get s3 sample_key Storage (lit "k") = None.
Proof.
  eexists _, _. split; [vm_compute; reflexivity|].
  eexists _, _. split; [vm_compute; reflexivity|]. split; [vm_compute; reflexivity|].
  eexists _, _. split; [vm_compute; reflexivity|]. vm_compute. reflexivity.
Qed.
