(* ===== verification/Keys.v ===== *)
(** * Partition keys as map keys

    Encodings that let partition keys index stdpp's finite maps, which model the
    [HashMap]s of the network layer. *)
From stdpp Require Export countable gmap fin_maps.
From S2P Require Import Prelude Bytes Text Partition.

#[export] Instance byte_countable : Countable byte :=
  inj_countable Byte.to_N Byte.of_N Byte.of_to_N.

#[export] Instance Origin_countable : Countable Origin.t.
Proof.
  refine (inj_countable' (fun o => (Origin.scheme o, Origin.host o, Origin.port o))
    (fun x => {| Origin.scheme := x.1.1; Origin.host := x.1.2; Origin.port := x.2 |}) _).
  by intros [].
Defined.

#[export] Instance PartitionKey_countable : Countable PartitionKey.t.
Proof.
  refine (inj_countable' (fun k => (PartitionKey.top_level_site k, PartitionKey.origin k))
    (fun x => {| PartitionKey.top_level_site := x.1; PartitionKey.origin := x.2 |}) _).
  by intros [].
Defined.
