(* ===== verification/Pool.v ===== *)
(** * The connection pool (px-net/src/pool.rs)

    Idle connections filed under a partition key and a protocol.  The clock is an
    argument: every operation that reads [Instant::now] is given the time, in
    nanoseconds. *)
From S2P Require Import Prelude Bytes Partition Keys.
Local Open Scope Z_scope.

#[local] Arguments Nat.leb : simpl never.

Inductive Protocol := Http11.

#[export] Instance Protocol_eq_dec : EqDecision Protocol.
Proof. solve_decision. Defined.
#[export] Instance Protocol_countable : Countable Protocol.
Proof. refine (inj_countable' (fun _ => tt) (fun _ => Http11) _). by intros []. Defined.

Definition MAX_IDLE_PER_KEY : nat := 6.
Definition MAX_KEYS : nat := 256.
Definition IDLE_TIMEOUT : Z := 45 * 10 ^ 9.

(** [Instant::duration_since] saturates at zero. *)
Definition duration_since (now earlier : Z) : Z := Z.max 0 (now - earlier).

Record Idle (C : Type) := { connection : C; since : Z }.
Arguments connection {C} _.
Arguments since {C} _.

Definition slot_key : Type := PartitionKey.t * Protocol.

Record ConnectionPool (C : Type) := { idle : gmap slot_key (list (Idle C)); order : list slot_key }.
Arguments idle {C} _.
Arguments order {C} _.

Module Pool.
Section pool.
Context {C : Type}.
Implicit Types (pool : ConnectionPool C) (k : slot_key) (slot : list (Idle C)).

Definition new : ConnectionPool C := {| idle := ∅; order := [] |}.

Definition fresh (now : Z) (entry : Idle C) : bool := duration_since now (since entry) <? IDLE_TIMEOUT.

Definition take (now : Z) (key : PartitionKey.t) (protocol : Protocol) pool
  : ConnectionPool C * option C :=
  match idle pool !! (key, protocol) with
  | None => (pool, None)
  | Some slot =>
      let slot := List.filter (fresh now) slot in
      ({| idle := <[(key, protocol) := removelast slot]> (idle pool); order := order pool |},
       connection <$> last slot)
  end.

Definition evict_oldest pool : ConnectionPool C :=
  match order pool with
  | [] => pool
  | oldest :: rest => {| idle := delete oldest (idle pool); order := rest |}
  end.

Definition put (now : Z) (key : PartitionKey.t) (protocol : Protocol) (c : C) pool : ConnectionPool C :=
  let k := (key, protocol) in
  let pool :=
    match idle pool !! k with
    | Some _ => pool
    | None =>
        let pool := if (MAX_KEYS <=? length (order pool))%nat then evict_oldest pool else pool in
        {| idle := idle pool; order := order pool ++ [k] |}
    end in
  let slot := default [] (idle pool !! k) in
  let slot := if (MAX_IDLE_PER_KEY <=? length slot)%nat then slot
              else slot ++ [{| connection := c; since := now |}] in
  {| idle := <[k := slot]> (idle pool); order := order pool |}.

Definition forget (key : PartitionKey.t) pool : ConnectionPool C :=
  {| idle := filter (fun kv => kv.1.1 <> key) (idle pool);
     order := filter (fun k => k.1 <> key) (order pool) |}.

Definition expire_idle (now : Z) pool : ConnectionPool C :=
  let kept := List.filter (fresh now) <$> idle pool in
  let kept := filter (fun kv => kv.2 <> []) kept in
  {| idle := kept; order := filter (fun k => is_Some (kept !! k)) (order pool) |}.

Definition len pool : nat := map_fold (fun _ slot n => (length slot + n)%nat) 0%nat (idle pool).
Definition is_empty pool : bool := Nat.eqb (len pool) 0.
Definition key_count pool : nat := size (idle pool).

(** ** The invariant *)
(** Every slot has its place in the order of eviction, once, and the numbers of
    keys and of connections per key are bounded. *)
Record pool_ok pool : Prop := {
  po_nodup : NoDup (order pool);
  po_order : forall k, k ∈ order pool <-> is_Some (idle pool !! k);
  po_keys : (length (order pool) <= MAX_KEYS)%nat;
  po_slots : forall k slot, idle pool !! k = Some slot -> (length slot <= MAX_IDLE_PER_KEY)%nat
}.

Lemma length_removelast (slot : list (Idle C)) : (length (removelast slot) <= length slot)%nat.
Proof.
  induction slot as [|x l IH]; [done|]. destruct l as [|y l]; [simpl; lia|].
  change (removelast (x :: y :: l)) with (x :: removelast (y :: l)). cbn [length] in *. lia.
Qed.

Lemma new_ok : pool_ok new.
Proof.
  split; simpl; [constructor| |lia|by intros k slot; rewrite lookup_empty].
  intros k. rewrite lookup_empty. split; [by intros ?%elem_of_nil|by intros [? ?]].
Qed.

(** Rewriting a slot that is there. *)
Lemma slot_ok pool k slot0 slot :
  pool_ok pool -> idle pool !! k = Some slot0 -> (length slot <= MAX_IDLE_PER_KEY)%nat ->
  pool_ok {| idle := <[k := slot]> (idle pool); order := order pool |}.
Proof.
  intros [P1 P2 P3 P4] E Hs. split; simpl; [done| |done|].
  - intros x. rewrite P2. destruct (decide (x = k)) as [->|Hx].
    + rewrite lookup_insert_eq, E. split; eauto.
    + by rewrite lookup_insert_ne.
  - intros x s. destruct (decide (x = k)) as [->|Hx].
    + rewrite lookup_insert_eq. by intros [= <-].
    + rewrite lookup_insert_ne by done. apply P4.
Qed.

Lemma take_ok now key protocol pool : pool_ok pool -> pool_ok (take now key protocol pool).1.
Proof.
  intros Hp. unfold take. destruct (idle pool !! _) as [slot|] eqn:E; [|done]. simpl.
  eapply slot_ok; [done..|]. etrans; [apply length_removelast|].
  etrans; [apply filter_length_le|]. by eapply po_slots.
Qed.

Lemma evict_ok pool : pool_ok pool -> pool_ok (evict_oldest pool).
Proof.
  intros [P1 P2 P3 P4]. unfold evict_oldest. destruct (order pool) as [|o rest] eqn:E; [by split; rewrite ?E|].
  apply NoDup_cons in P1 as [Ho P1]. split; simpl; [done| |simpl in P3; lia|].
  - intros k. destruct (decide (k = o)) as [->|Hk].
    + rewrite lookup_delete_eq. split; [done|by intros [? ?]].
    + rewrite lookup_delete_ne by done. rewrite <- P2, elem_of_cons. tauto.
  - intros k slot. rewrite lookup_delete_Some. intros [_ Hs]. by eapply P4.
Qed.

Lemma evict_length pool : pool_ok pool -> (length (order (evict_oldest pool)) <= MAX_KEYS - 1)%nat.
Proof.
  intros [_ _ P3 _]. unfold evict_oldest. destruct (order pool) eqn:E; rewrite ?E; simpl in *; unfold MAX_KEYS in *; lia.
Qed.

(** Giving a key its place. *)
Lemma new_key_ok pool k slot :
  pool_ok pool -> idle pool !! k = None -> (length (order pool) < MAX_KEYS)%nat ->
  (length slot <= MAX_IDLE_PER_KEY)%nat ->
  pool_ok {| idle := <[k := slot]> (idle pool); order := order pool ++ [k] |}.
Proof.
  intros [P1 P2 P3 P4] E Hlt Hs. split; simpl.
  - apply NoDup_app. split_and!; [done| |apply NoDup_singleton].
    intros x Hx ->%list_elem_of_singleton. apply P2 in Hx as [? ?]. congruence.
  - intros x. rewrite elem_of_app, list_elem_of_singleton, P2. destruct (decide (x = k)) as [->|Hx].
    + rewrite lookup_insert_eq. naive_solver.
    + rewrite lookup_insert_ne by done. naive_solver.
  - rewrite length_app. simpl. lia.
  - intros x s. destruct (decide (x = k)) as [->|Hx].
    + rewrite lookup_insert_eq. by intros [= <-].
    + rewrite lookup_insert_ne by done. apply P4.
Qed.

Lemma pool_put_ok now key protocol c pool : pool_ok pool -> pool_ok (put now key protocol c pool).
Proof.
  intros Hp. unfold put. set (k := (key, protocol)). destruct (idle pool !! k) as [slot|] eqn:E.
  - rewrite E. change (default [] (Some slot)) with slot. pose proof (po_slots pool Hp k slot E).
    eapply slot_ok; [done..|]. destruct (MAX_IDLE_PER_KEY <=? length slot)%nat eqn:Hl; [done|].
    apply Nat.leb_gt in Hl. rewrite length_app. simpl. lia.
  - set (pool' := if (MAX_KEYS <=? length (order pool))%nat then evict_oldest pool else pool). cbn [idle order].
    assert (pool_ok pool' /\ idle pool' !! k = None /\ (length (order pool') < MAX_KEYS)%nat) as (Hp' & E' & Hl').
    { unfold pool'. destruct (MAX_KEYS <=? _)%nat eqn:Hl.
      - split_and!; [by apply evict_ok| |pose proof (evict_length pool Hp); unfold MAX_KEYS in *; lia].
        unfold evict_oldest. destruct (order pool); [done|]. simpl. apply lookup_delete_None. by right.
      - apply Nat.leb_gt in Hl. done. }
    rewrite E'. simpl. apply new_key_ok; [done..|]. unfold MAX_IDLE_PER_KEY. simpl. lia.
Qed.

Lemma forget_ok key pool : pool_ok pool -> pool_ok (forget key pool).
Proof.
  intros [P1 P2 P3 P4]. split; simpl.
  - by apply NoDup_filter.
  - intros k. rewrite list_elem_of_filter, P2. unfold is_Some.
    setoid_rewrite map_lookup_filter_Some. simpl. naive_solver.
  - etrans; [apply length_filter|done].
  - intros k slot. rewrite map_lookup_filter_Some. intros [Hs _]. by eapply P4.
Qed.

Lemma expire_ok now pool : pool_ok pool -> pool_ok (expire_idle now pool).
Proof.
  intros [P1 P2 P3 P4]. split; simpl.
  - by apply NoDup_filter.
  - intros k. rewrite list_elem_of_filter, P2. split; [tauto|]. intros Hk. split; [done|].
    destruct Hk as [s Hs]. rewrite map_lookup_filter_Some, lookup_fmap in Hs.
    destruct Hs as [Hs _]. by destruct (idle pool !! k).
  - etrans; [apply length_filter|done].
  - intros k s. rewrite map_lookup_filter_Some, lookup_fmap. intros [Hs _].
    destruct (idle pool !! k) as [s0|] eqn:E; [|done]. injection Hs as <-.
    etrans; [apply filter_length_le|]. by eapply P4.
Qed.

(** ** Sequences of operations *)
Inductive op :=
| Take (now : Z) (key : PartitionKey.t) (protocol : Protocol)
| Put (now : Z) (key : PartitionKey.t) (protocol : Protocol) (c : C)
| Forget (key : PartitionKey.t)
| Expire (now : Z).

Definition apply (o : op) pool : ConnectionPool C :=
  match o with
  | Take now key protocol => (take now key protocol pool).1
  | Put now key protocol c => put now key protocol c pool
  | Forget key => forget key pool
  | Expire now => expire_idle now pool
  end.

Definition run (os : list op) : ConnectionPool C := foldl (fun p o => apply o p) new os.

Lemma pool_apply_ok o pool : pool_ok pool -> pool_ok (apply o pool).
Proof. destruct o; simpl; eauto using take_ok, pool_put_ok, forget_ok, expire_ok. Qed.

Lemma pool_run_snoc os o : run (os ++ [o]) = apply o (run os).
Proof. unfold run. by rewrite foldl_app. Qed.

Lemma pool_run_ok os : pool_ok (run os).
Proof.
  induction os as [|o os IH] using rev_ind; [apply new_ok|]. rewrite pool_run_snoc. by apply pool_apply_ok.
Qed.

(** ** Where a connection comes from *)
Definition filed pool k (e : Idle C) : Prop := exists slot, idle pool !! k = Some slot /\ e ∈ slot.

Lemma elem_of_filter_fresh now slot e : e ∈ List.filter (fresh now) slot -> e ∈ slot /\ fresh now e = true.
Proof. rewrite !list_elem_of_In, filter_In. done. Qed.

Lemma elem_of_removelast (slot : list (Idle C)) e : e ∈ removelast slot -> e ∈ slot.
Proof.
  induction slot as [|x l IH]; [done|]. destruct l as [|y l]; [by intros ?%elem_of_nil|].
  change (removelast (x :: y :: l)) with (x :: removelast (y :: l)). rewrite !elem_of_cons in *. tauto.
Qed.

Lemma filed_evict pool k e : filed (evict_oldest pool) k e -> filed pool k e.
Proof.
  unfold evict_oldest. destruct (order pool); [done|]. intros (slot & Hs & He). simpl in Hs.
  apply lookup_delete_Some in Hs as [_ Hs]. by exists slot.
Qed.

(** Nothing is filed under a key but by a [put] under it. *)
Lemma filed_apply o pool k e :
  filed (apply o pool) k e ->
  filed pool k e \/ o = Put (since e) k.1 k.2 (connection e).
Proof.
  destruct o as [now key protocol|now key protocol c|key|now]; simpl.
  - unfold take. destruct (idle pool !! _) as [slot|] eqn:E; [|by left]. simpl.
    intros (s & Hs & He). simpl in Hs. left. destruct (decide (k = (key, protocol))) as [->|Hk].
    + rewrite lookup_insert_eq in Hs. injection Hs as <-.
      apply elem_of_removelast, elem_of_filter_fresh in He as [He _]. by exists slot.
    + rewrite lookup_insert_ne in Hs by done. by exists s.
  - unfold put. set (pool' := match idle pool !! _ with Some _ => _ | None => _ end).
    assert (forall x, filed pool' k x -> filed pool k x) as Hback.
    { unfold pool'. destruct (idle pool !! (key, protocol)); [done|].
      intros x (s & Hs & Hx). simpl in Hs.
      destruct (MAX_KEYS <=? _)%nat; [apply filed_evict|]; by exists s. }
    intros (s & Hs & He). simpl in Hs. destruct (decide (k = (key, protocol))) as [->|Hk].
    + rewrite lookup_insert_eq in Hs. injection Hs as Hs. rewrite <- Hs in He. clear Hs.
      assert (e ∈ default [] (idle pool' !! (key, protocol)) -> filed pool (key, protocol) e) as Hd.
      { intros Hx. apply Hback. destruct (idle pool' !! _) as [s'|] eqn:E; [by exists s'|by apply elem_of_nil in Hx]. }
      destruct (MAX_IDLE_PER_KEY <=? _)%nat; [left; by apply Hd|].
      apply elem_of_app in He as [He|He%list_elem_of_singleton]; [left; by apply Hd|right]. by subst.
    + rewrite lookup_insert_ne in Hs by done. left. apply Hback. by exists s.
  - intros (s & Hs & He). left. simpl in Hs. apply map_lookup_filter_Some in Hs as [Hs _]. by exists s.
  - intros (s & Hs & He). left. simpl in Hs. apply map_lookup_filter_Some in Hs as [Hs _].
    rewrite lookup_fmap in Hs. destruct (idle pool !! k) as [s0|] eqn:E; [|done]. injection Hs as <-.
    apply elem_of_filter_fresh in He as [He _]. by exists s0.
Qed.

Lemma pool_filed_run os k e : filed (run os) k e -> Put (since e) k.1 k.2 (connection e) ∈ os.
Proof.
  induction os as [|o os IH] using rev_ind.
  - intros (s & Hs & _). unfold run, new in Hs. simpl in Hs. by rewrite lookup_empty in Hs.
  - rewrite pool_run_snoc, elem_of_app, list_elem_of_singleton. intros Hf. apply filed_apply in Hf as [Hf|Hf]; [left; by apply IH|by right].
Qed.

(** No connection crosses a partition.  After any sequence of operations, a
    connection taken under a key was put under that same partition key and
    protocol, and less than the idle timeout ago. *)
Theorem take_stays_in_partition (os : list op) now key protocol c :
  (take now key protocol (run os)).2 = Some c ->
  exists t, Put t key protocol c ∈ os /\ duration_since now t < IDLE_TIMEOUT.
Proof.
  unfold take. destruct (idle (run os) !! (key, protocol)) as [slot|] eqn:E; [|done]. simpl.
  intros (e & He & ->)%fmap_Some.
  assert (e ∈ List.filter (fresh now) slot) as [Hin Hf]%elem_of_filter_fresh.
  { apply last_Some in He as [l ->]. apply elem_of_app. right. by left. }
  exists (since e). unfold fresh in Hf. apply Z.ltb_lt in Hf. split; [|done].
  apply (pool_filed_run os (key, protocol) e). by exists slot.
Qed.

Lemma fold_bound (m : gmap slot_key (list (Idle C))) b :
  (forall k s, m !! k = Some s -> (length s <= b)%nat) ->
  (map_fold (fun _ slot n => (length slot + n)%nat) 0%nat m <= size m * b)%nat.
Proof.
  induction m as [|k s m Hk Hfst IH] using map_first_key_ind; intros Hb; [done|].
  rewrite map_fold_insert_first_key, map_size_insert_None by done.
  specialize (Hb k s (lookup_insert_eq _ _ _)) as Hs.
  assert (forall k' s', m !! k' = Some s' -> (length s' <= b)%nat) as Hm.
  { intros k' s' E. apply (Hb k'). rewrite lookup_insert_ne; [done|congruence]. }
  specialize (IH Hm). simpl. lia.
Qed.

Lemma size_order pool : pool_ok pool -> (size (idle pool) <= length (order pool))%nat.
Proof.
  intros Hp. rewrite <- size_dom. rewrite <- (size_list_to_set (C := gset slot_key) (order pool)) by apply Hp.
  apply subseteq_size. intros k Hk. apply elem_of_list_to_set, (po_order pool Hp).
  by apply elem_of_dom.
Qed.

(** The pool stays small: whatever a remote party makes the browser open,
    every reachable pool tracks at most 256 keys, each with its place in the
    order of eviction, and holds at most six connections per key. *)
Theorem pool_is_bounded (os : list op) :
  let pool := run os in
  (key_count pool <= MAX_KEYS)%nat /\ (len pool <= MAX_KEYS * MAX_IDLE_PER_KEY)%nat /\ pool_ok pool.
Proof.
  intros pool. pose proof (pool_run_ok os) as Hp. fold pool in Hp.
  pose proof (size_order pool Hp). pose proof (po_keys pool Hp).
  pose proof (fold_bound (idle pool) MAX_IDLE_PER_KEY (po_slots pool Hp)) as Hl.
  unfold key_count, len. split_and!; [lia|nia|done].
Qed.

(** A connection is reused: what was put under a key with room is what the
    next [take] under it returns, as long as it has not timed out; and after
    [forget] nothing is returned for the key. *)
Theorem put_then_take now now' key protocol c pool :
  (length (default [] (idle pool !! (key, protocol))) < MAX_IDLE_PER_KEY)%nat ->
  duration_since now' now < IDLE_TIMEOUT ->
  (take now' key protocol (put now key protocol c pool)).2 = Some c /\
  (take now' key protocol (forget key (put now key protocol c pool))).2 = None.
Proof.
  intros Hl Ht. split.
  - unfold put. set (pool' := match idle pool !! _ with Some _ => _ | None => _ end).
    assert (default [] (idle pool' !! (key, protocol)) = default [] (idle pool !! (key, protocol))) as Hd.
    { unfold pool'. destruct (idle pool !! (key, protocol)) as [s|] eqn:E; [by rewrite E|]. simpl.
      destruct (MAX_KEYS <=? _)%nat; [|by rewrite E]. unfold evict_oldest.
      destruct (order pool) as [|o rest]; [by rewrite E|]. simpl.
      by rewrite (proj2 (lookup_delete_None (idle pool) o (key, protocol)) (or_intror E)). }
    rewrite Hd. destruct (MAX_IDLE_PER_KEY <=? _)%nat eqn:Hc; [apply Nat.leb_le in Hc; lia|].
    unfold take. simpl. rewrite lookup_insert_eq. simpl. rewrite List.filter_app. simpl.
    unfold fresh at 2. simpl. rewrite (proj2 (Z.ltb_lt _ _) Ht). by rewrite last_snoc.
  - unfold take. destruct (idle (forget key _) !! (key, protocol)) as [s|] eqn:E; [|done].
    apply map_lookup_filter_Some in E as [_ Hk]. by destruct Hk.
Qed.
End pool.
End Pool.
Arguments Pool.op : clear implicits.

(** ** The theorems at work *)
Module PoolUses.
Definition cdn : Origin.t := {| Origin.scheme := lit "https"; Origin.host := lit "cdn.example"; Origin.port := 443 |}.
Definition key_a : PartitionKey.t := {| PartitionKey.top_level_site := lit "a.example"; PartitionKey.origin := cdn |}.
Definition key_b : PartitionKey.t := {| PartitionKey.top_level_site := lit "b.example"; PartitionKey.origin := cdn |}.

Definition visits : list (Pool.op nat) :=
  [Pool.Put 0 key_a Http11 1%nat; Pool.Put 5 key_b Http11 2%nat; Pool.Expire 9].

Lemma take_stays_in_partition_witness :
  (Pool.take 10 key_a Http11 (Pool.run visits)).2 = Some 1%nat /\
  exists t, Pool.Put t key_a Http11 1%nat ∈ visits /\ duration_since 10 t < IDLE_TIMEOUT.
Proof.
  assert ((Pool.take 10 key_a Http11 (Pool.run visits)).2 = Some 1%nat) as E by (vm_compute; reflexivity).
  split; [exact E|]. exact (Pool.take_stays_in_partition visits 10 key_a Http11 1%nat E).
Defined.

Lemma put_then_take_witness :
  (Pool.take 10 key_a Http11 (Pool.put 0 key_a Http11 1%nat Pool.new)).2 = Some 1%nat.
Proof.
  apply (Pool.put_then_take 0 10 key_a Http11 1%nat Pool.new).
  - apply Nat.ltb_lt. vm_compute. reflexivity.
  - apply Z.ltb_lt. vm_compute. reflexivity.
Defined.
End PoolUses.
