(* ===== verification/Hsts.v ===== *)
(** * The HSTS preload list (px-net/src/hsts.rs)

    Hosts that must be reached over HTTPS, with or without what lies under them. *)
From S2P Require Import Keys Prelude Bytes Text Partition.
Local Open Scope Z_scope.

Module Hsts.
(** A host and whether its entry covers subdomains. *)
Record PreloadList := { hosts : gmap (list byte) bool }.

Inductive PreloadError := Empty.

Definition parse_line (line : list byte) : option (list byte * bool) :=
  let line := trim line in
  if bool_decide (line = []) || has_prefix (lit "#") line then None
  else
    let '(host, subdomains) :=
      match strip_prefix [DOT] line with Some rest => (rest, true) | None => (line, false) end in
    if bool_decide (host = []) then None else Some (to_ascii_lowercase host, subdomains).

Definition add_entry (hosts : gmap (list byte) bool) (line : list byte) : gmap (list byte) bool :=
  match parse_line line with
  | None => hosts
  | Some (key, subdomains) =>
      match hosts !! key with
      | Some existing => <[key := existing || subdomains]> hosts
      | None => <[key := subdomains]> hosts
      end
  end.

Definition parse (text : list byte) : result PreloadError PreloadList :=
  let hosts := foldl add_entry ∅ (lines text) in
  if bool_decide (hosts = ∅) then Err Empty else Ok {| hosts := hosts |}.

Definition preload_len (p : PreloadList) : nat := size (hosts p).
Definition preload_is_empty (p : PreloadList) : bool := bool_decide (hosts p = ∅).

(** The walk up, one label at a time; every step shortens the host. *)
Fixpoint covered_above (fuel : nat) (p : PreloadList) (rest : list byte) : bool :=
  match fuel with
  | O => false
  | S fuel =>
      match split_once DOT rest with
      | None => false
      | Some (_, parent) =>
          if bool_decide (parent = []) then false
          else if default false (hosts p !! parent) then true
          else covered_above fuel p parent
      end
  end.

Definition requires_https (p : PreloadList) (host : list byte) : bool :=
  let host := to_ascii_lowercase (trim_end_matches DOT host) in
  if bool_decide (host = []) then false
  else
    match hosts p !! host with
    | Some _ => true
    | None => covered_above (length host) p host
    end.

Definition upgrade (p : PreloadList) (o : Origin.t) : option Origin.t :=
  if Origin.is_secure o || negb (requires_https p (Origin.host o)) then None
  else
    let port := if decide (Origin.port o = 80) then 443 else Origin.port o in
    Origin.new (lit "https") (Origin.host o) port.

(** ** The list as a set of entries *)
(** What the lines of a file say about a host. *)
Definition listed (ls : list (list byte)) (host : list byte) (subdomains : bool) : Prop :=
  exists line, line ∈ ls /\ parse_line line = Some (host, subdomains).

Lemma add_entry_lookup m line key :
  add_entry m line !! key =
    match parse_line line with
    | Some (k, s) => if decide (k = key) then Some (default false (m !! key) || s) else m !! key
    | None => m !! key
    end.
Proof.
  unfold add_entry. destruct (parse_line line) as [[k s]|]; [|done].
  destruct (m !! k) as [e|] eqn:E; (case_decide; [subst; rewrite lookup_insert_eq, E; done|by rewrite lookup_insert_ne]).
Qed.

Lemma entries_lookup ls key :
  (is_Some (foldl add_entry ∅ ls !! key) <-> exists s, listed ls key s) /\
  (foldl add_entry ∅ ls !! key = Some true <-> listed ls key true).
Proof.
  induction ls as [|line ls IH] using rev_ind.
  { simpl. rewrite lookup_empty. split.
    - split; [by intros [? ?]|by intros (s & l & ?%elem_of_nil & _)].
    - split; [done|by intros (l & ?%elem_of_nil & _)]. }
  rewrite foldl_app. simpl. rewrite add_entry_lookup.
  assert (forall s, listed (ls ++ [line]) key s <-> listed ls key s \/ parse_line line = Some (key, s)) as Hl.
  { intros s. unfold listed. split.
    - intros (l & Hin & ?). apply elem_of_app in Hin as [?|Hin]; [eauto|].
      apply list_elem_of_singleton in Hin as ->. auto.
    - intros [(l & ? & ?)|?]; [exists l|exists line]; rewrite elem_of_app, list_elem_of_singleton; auto. }
  destruct IH as [IH1 IH2]. destruct (parse_line line) as [[k s]|].
  - destruct (decide (k = key)) as [->|Hk].
    + split.
      * split; [|by eexists]. intros _. exists s. apply Hl. by right.
      * rewrite Hl, <- IH2. destruct (foldl add_entry ∅ ls !! key) as [[]|]; destruct s; simpl; naive_solver.
    + split; [rewrite IH1; setoid_rewrite Hl|rewrite Hl, <- IH2]; naive_solver.
  - split; [rewrite IH1; setoid_rewrite Hl|rewrite Hl, <- IH2]; naive_solver.
Qed.

(** ** Walking up *)
(** A host under [parent]: something, a dot, and the parent. *)
Definition strictly_under (host parent : list byte) : Prop := exists pre, host = pre ++ DOT :: parent.

Lemma covered_above_spec fuel p rest :
  (length rest <= fuel)%nat -> last rest <> Some DOT ->
  covered_above fuel p rest = true <->
  exists parent, strictly_under rest parent /\ hosts p !! parent = Some true.
Proof.
  revert rest. induction fuel as [|fuel IH]; intros rest Hf Hl.
  { destruct rest; [|simpl in Hf; lia]. simpl. split; [done|]. intros (? & [[] ?] & _); done. }
  cbn [covered_above]. destruct (split_once DOT rest) as [[x y]|] eqn:E.
  2: { apply split_once_None in E. split; [done|]. intros (par & [pre ->] & _). exfalso. apply E.
       apply elem_of_app. right. by left. }
  apply split_once_spec in E as [-> Hx]. rewrite length_app in Hf. simpl in Hf.
  destruct y as [|b y].
  { rewrite last_snoc in Hl. done. }
  rewrite bool_decide_eq_false_2 by done.
  assert (last (b :: y) <> Some DOT) as Hly.
  { intros Hc. apply Hl. rewrite last_app. change (last (DOT :: b :: y)) with (last (b :: y)). by rewrite Hc. }
  destruct (default false (hosts p !! (b :: y))) eqn:Ed.
  - split; [|done]. intros _. exists (b :: y). split; [by exists x|]. by destruct (hosts p !! _) as [[]|].
  - rewrite IH by (done || simpl in *; lia). split.
    + intros (par & [pre Hp] & Hh). exists par. split; [|done]. exists (x ++ DOT :: pre). rewrite Hp. by rewrite <- app_assoc.
    + intros (par & [pre Hp] & Hh).
      assert (exists pre', pre = x ++ pre') as [pre' ->].
      { apply app_eq_inv in Hp as [(k & H1 & H2)|(k & H1 & H2)]; [|by exists k].
        destruct k as [|d k]; [exists []; by rewrite app_nil_r in H1 |- *|].
        simpl in H2. injection H2 as <- H2. exfalso. apply Hx. rewrite H1. apply elem_of_app. right. by left. }
      rewrite <- app_assoc in Hp. apply app_inv_head in Hp. destruct pre' as [|d pre'].
      * injection Hp as <-. rewrite Hh in Ed. done.
      * injection Hp as <- Hp. exists par. split; [by exists pre'|done].
Qed.

(** The rule of the preload list.  With the list read from a file, a host
    requires HTTPS exactly when, without its trailing dots and in lower case, it
    is itself an entry or lies, at a label boundary, under an entry written with a
    leading dot. *)
Theorem requires_https_exact text p host :
  parse text = Ok p ->
  let h := to_ascii_lowercase (trim_end_matches DOT host) in
  requires_https p host = true <->
  h <> [] /\ ((exists s, listed (lines text) h s) \/
    exists parent, strictly_under h parent /\ listed (lines text) parent true).
Proof.
  unfold parse. cbv zeta. case_bool_decide as Hne; [done|]. intros [= <-]. set (h := to_ascii_lowercase (trim_end_matches DOT host)). unfold requires_https. fold h.
  pose proof (entries_lookup (lines text)) as He. cbn [hosts].
  assert (last h <> Some DOT) as Hl by apply psl_host_last.
  case_bool_decide as Hh; [naive_solver|].
  destruct (foldl add_entry ∅ (lines text) !! h) as [s|] eqn:E.
  - split; [|done]. intros _. split; [done|]. left. apply (He h). by rewrite E.
  - rewrite covered_above_spec by (done || lia). cbn [hosts]. split.
    + intros (par & Hu & Hp). split; [done|]. right. exists par. split; [done|]. by apply (He par).
    + intros [_ [Hs|(par & Hu & Hp)]].
      * apply (He h) in Hs as [? ?]. congruence.
      * exists par. split; [done|]. by apply (He par).
Qed.

(** ** Origins built twice *)
Lemma origin_new_inv scheme host port o :
  Origin.new scheme host port = Some o ->
  (Origin.scheme o = lit "https" \/ Origin.scheme o = lit "http") /\ Origin.host o <> [] /\
  contains (lit "..") (Origin.host o) = false /\ has_prefix [DOT] (Origin.host o) = false /\
  is_ascii (Origin.host o) = true /\ psl_host (Origin.host o) = Origin.host o.
Proof.
  unfold Origin.new. set (h := to_ascii_lowercase (trim_end_matches DOT (trim host))).
  set (sch := to_ascii_lowercase (trim scheme)).
  case_bool_decide as H1; [done|]. case_bool_decide as H2; [done|]. cbn [orb].
  case_bool_decide as H3; case_bool_decide as H4; cbn [negb andb]; try done.
  all: destruct (contains _ h) eqn:H5; [done|]; destruct (has_prefix _ h) eqn:H6; [done|]; cbn [orb].
  all: destruct (is_ascii h) eqn:H7; [|done]; intros [= <-]; cbn [Origin.scheme Origin.host].
  all: split_and!; [auto|done..|].
  all: unfold psl_host; rewrite trim_end_matches_id; [apply to_ascii_lowercase_idem|apply psl_host_last].
Qed.

Lemma origin_new_host scheme host port o port' :
  Origin.new scheme host port = Some o -> trim (Origin.host o) = Origin.host o ->
  Origin.new (lit "https") (Origin.host o) port' =
    Some {| Origin.scheme := lit "https"; Origin.host := Origin.host o; Origin.port := port' |}.
Proof.
  intros (_ & Hne & Hdd & Hd & Ha & Hn)%origin_new_inv Ht. unfold Origin.new. rewrite Ht.
  unfold psl_host in Hn. rewrite Hn, Hdd, Hd, Ha.
  assert (to_ascii_lowercase (trim (lit "https")) = lit "https") as -> by (by vm_compute).
  by rewrite (bool_decide_eq_false_2 _ Hne).
Qed.

(** A space before a trailing dot survives: such a host is not built the same
    way twice. *)
Lemma origin_keeps_inner_space :
  Origin.host <$> Origin.new (lit "http") (lit "a .") 80 = Some (lit "a ") /\
  Origin.host <$> Origin.new (lit "http") (lit "a ") 80 = Some (lit "a").
Proof. by vm_compute. Qed.

(** An upgrade is a correction: it is offered exactly to a plaintext origin on
    a preloaded host (one without surrounding white space), leads to an HTTPS origin on the same host, moves port 80 to
    443 and no other, and is not offered again to its own result. *)
Theorem upgrade_corrects p scheme host port o :
  Origin.new scheme host port = Some o -> trim (Origin.host o) = Origin.host o ->
  match upgrade p o with
  | Some o' => Origin.scheme o = lit "http" /\ requires_https p (Origin.host o) = true /\
      Origin.scheme o' = lit "https" /\ Origin.host o' = Origin.host o /\
      Origin.port o' = (if decide (Origin.port o = 80) then 443 else Origin.port o) /\ upgrade p o' = None
  | None => Origin.is_secure o = true \/ requires_https p (Origin.host o) = false
  end.
Proof.
  intros Hn Ht. unfold upgrade. destruct (Origin.is_secure o) eqn:Hs; [by left|].
  destruct (requires_https p (Origin.host o)) eqn:Hr; [|by right]. cbn [orb negb].
  set (port' := if decide (Origin.port o = 80) then 443 else Origin.port o).
  assert (Origin.new (lit "https") (Origin.host o) port' =
    Some {| Origin.scheme := lit "https"; Origin.host := Origin.host o; Origin.port := port' |}) as E.
  { by eapply origin_new_host. }
  rewrite E. cbn [Origin.scheme Origin.host Origin.port].
  assert (Origin.scheme o = lit "http") as Hh.
  { apply origin_new_inv in Hn as [[Hsch|Hsch] _]; [|done]. unfold Origin.is_secure in Hs.
    rewrite Hsch in Hs. by rewrite bool_decide_eq_true_2 in Hs. }
  by split_and!.
Qed.
Definition file : list byte := lit ".example.com
plain.test".

Lemma requires_https_exact_witness :
  exists p, parse file = Ok p /\ requires_https p (lit "A.Example.com.") = true.
Proof.
  destruct (parse file) as [p|] eqn:E; [|by vm_compute in E]. exists p. split; [done|].
  apply (requires_https_exact file p (lit "A.Example.com.") E). split; [done|]. right.
  exists (lit "example.com"). split; [by exists (lit "a")|]. exists (lit ".example.com").
  split; [by left|]. by vm_compute.
Defined.

Definition plaintext : Origin.t :=
  {| Origin.scheme := lit "http"; Origin.host := lit "plain.test"; Origin.port := 80 |}.

Lemma upgrade_corrects_witness :
  exists p, parse file = Ok p /\ (Origin.port <$> upgrade p plaintext = Some 443).
Proof.
  destruct (parse file) as [p|] eqn:E; [|by vm_compute in E]. exists p. split; [done|].
  assert (Origin.new (lit "http") (lit "plain.test") 80 = Some plaintext) as Hn by (by vm_compute).
  assert (trim (Origin.host plaintext) = Origin.host plaintext) as Ht by (by vm_compute).
  pose proof (upgrade_corrects p _ _ _ plaintext Hn Ht) as L.
  destruct (upgrade p plaintext) as [o'|] eqn:Eu.
  - destruct L as (_ & _ & _ & _ & Hp & _). simpl. by rewrite Hp.
  - exfalso. assert (upgrade p plaintext <> None) as Hx; [|done].
    injection E as <-. by vm_compute.
Defined.
End Hsts.
