(* ===== verification/Http1.v ===== *)
(** * HTTP/1.1 responses (px-net/src/http1.rs)

    The head of a response, how its body is delimited, and chunked bodies.  Input
    is what has arrived so far; [Truncated] asks for more. *)
From S2P Require Import Prelude Bytes Text Chars.
Local Open Scope Z_scope.

Module Http1.

Definition MAX_STATUS_LINE : Z := 8 * 1024.
Definition MAX_HEADER_LINE : Z := 16 * 1024.
Definition MAX_HEADERS : nat := 128.
Definition MAX_BODY_BYTES : Z := 32 * 1024 * 1024.
Definition MAX_CHUNK_BYTES : Z := 8 * 1024 * 1024.

Inductive Ambiguity :=
| LengthAndTransferEncoding
| RepeatedContentLength
| MalformedContentLength
| TransferEncodingNotChunked
| MalformedChunkSize.

Inductive Http1Error :=
| BadStatusLine
| BadHeader
| AmbiguousFraming (which : Ambiguity)
| TooLarge (what : string)
| Truncated.

Inductive Framing :=
| Length (n : Z)
| Chunked
| UntilClose
| Empty.

Record Header := mkHeader { name : list byte; value : list byte }.

Record ResponseHead := mkHead { status : Z; headers : list Header; framing : Framing }.

(** [ResponseHead::header]. *)
Definition header (h : ResponseHead) (n : list byte) : option (list byte) :=
  value <$> List.find (fun x => bool_decide (name x = n)) (headers h).

(** [checked_add] on offsets. *)
Definition advance (offset consumed : Z) (what : string) : result Http1Error Z :=
  ok_or (checked_add USIZE_MAX offset consumed) (TooLarge what).

(** The line without its terminator, and the bytes it took. *)
Definition read_line (bytes : list byte) (limit : Z) (what : string) : result Http1Error (list byte * Z) :=
  match split_once NEWLINE bytes with
  | None => Err Truncated
  | Some (line, _) =>
      let end_ := len line in
      if limit <? end_ then Err (TooLarge what) else Ok (drop_cr line, end_ + 1)
  end.

(** [checked_mul] and [checked_add] at a maximum. *)
Definition push_digit (max radix acc digit : Z) : option Z :=
  if decide (acc * radix <= max) then checked_add max (acc * radix) digit else None.

Fixpoint status_value (acc : Z) (code : list byte) : result Http1Error Z :=
  match code with
  | [] => Ok acc
  | d :: code => acc ← ok_or (push_digit U16_MAX 10 acc (b2z d - 48)) BadStatusLine; status_value acc code
  end.

Definition parse_status_line (line : list byte) : result Http1Error Z :=
  let parts := split_on x20 line in
  version ← ok_or (head parts) BadStatusLine;
  code ← ok_or (parts !! 1%nat) BadStatusLine;
  if negb (bool_decide (version = lit "HTTP/1.1") || bool_decide (version = lit "HTTP/1.0")) then Err BadStatusLine
  else if negb (length code =? 3)%nat || negb (forallb is_digit code) then Err BadStatusLine
  else status_value 0 code.

Definition is_alphanumeric (b : byte) : bool := is_digit b || in_range 65 90 b || in_range 97 122 b.

Definition is_token_byte (b : byte) : bool :=
  is_alphanumeric b || bool_decide (b ∈ lit "!#$%&'*+-.^_`|~").

(** [u8::is_ascii_whitespace]: no vertical tab. *)
Definition is_ascii_whitespace (b : byte) : bool :=
  in_range 9 10 b || in_range 12 13 b || in_range 32 32 b.

Fixpoint drop_whitespace (l : list byte) : list byte :=
  match l with b :: l' => if is_ascii_whitespace b then drop_whitespace l' else l | [] => [] end.

(** [trim] of this module, on bytes. *)
Definition trim_bytes (l : list byte) : list byte := reverse (drop_whitespace (reverse (drop_whitespace l))).

Definition is_control (b : byte) : bool := (b2z b <? 32) && negb (bool_decide (b = x09)) || bool_decide (b = x7f).

Definition parse_header (line : list byte) : result Http1Error Header :=
  if bool_decide (head line = Some x20) || bool_decide (head line = Some x09) then Err BadHeader
  else
    '(n, v) ← ok_or (split_once COLON line) BadHeader;
    if bool_decide (n = []) || negb (forallb is_token_byte n) then Err BadHeader
    else if existsb is_control v then Err BadHeader
    else
      let n := to_ascii_lowercase n in
      let v := trim_bytes v in
      if negb (is_utf8 n) then Err BadHeader
      else if negb (is_utf8 v) then Err BadHeader
      else Ok (mkHeader n v).

Definition named (n : list byte) (hs : list Header) : list Header :=
  List.filter (fun h => bool_decide (name h = n)) hs.

(** [rsplit(',').next()]. *)
Definition final_coding (v : list byte) : list byte :=
  to_ascii_lowercase (trim (default [] (last (split_on ","%byte v)))).

Definition determine_framing (status : Z) (hs : list Header) : result Http1Error Framing :=
  if (status =? 204) || (status =? 304) || ((100 <=? status) && (status <? 200)) then Ok Empty
  else
    let lengths := named (lit "content-length") hs in
    let encodings := named (lit "transfer-encoding") hs in
    if negb (bool_decide (lengths = [])) && negb (bool_decide (encodings = [])) then
      Err (AmbiguousFraming LengthAndTransferEncoding)
    else if negb (bool_decide (encodings = [])) then
      last_ ← ok_or (last encodings) (AmbiguousFraming TransferEncodingNotChunked);
      if negb (bool_decide (final_coding (value last_) = lit "chunked"))
      then Err (AmbiguousFraming TransferEncodingNotChunked)
      else Ok Chunked
    else
      match lengths with
      | [] => Ok UntilClose
      | [h] =>
          if bool_decide (value h = []) || negb (forallb is_digit (value h))
          then Err (AmbiguousFraming MalformedContentLength)
          else
            n ← ok_or (parse_uint 10 USIZE_MAX (value h)) (TooLarge "content-length");
            if MAX_BODY_BYTES <? n then Err (TooLarge "content-length") else Ok (Length n)
      | _ => Err (AmbiguousFraming RepeatedContentLength)
      end.

(** The loop over the header lines; [room] is how many more are accepted. *)
Fixpoint read_headers (room : nat) (bytes : list byte) (offset : Z) (hs : list Header)
  : result Http1Error (list Header * Z) :=
  rest ← ok_or (get_from bytes offset) Truncated;
  '(line, consumed) ← read_line rest MAX_HEADER_LINE "header line";
  offset ← advance offset consumed "header block";
  if bool_decide (line = []) then Ok (hs, offset)
  else match room with
       | O => Err (TooLarge "header count")
       | S room => h ← parse_header line; read_headers room bytes offset (hs ++ [h])
       end.

Definition parse_response_head (bytes : list byte) : result Http1Error (ResponseHead * Z) :=
  '(line, offset) ← read_line bytes MAX_STATUS_LINE "status line";
  status ← parse_status_line line;
  '(hs, offset) ← read_headers MAX_HEADERS bytes offset [];
  framing ← determine_framing status hs;
  Ok (mkHead status hs framing, offset).

(** ** Chunked bodies *)
Definition hex_value (b : byte) : option Z :=
  if in_range 48 57 b then Some (b2z b - 48)
  else if in_range 97 102 b then Some (b2z b - 97 + 10)
  else if in_range 65 70 b then Some (b2z b - 65 + 10)
  else None.

Fixpoint chunk_size_value (size : Z) (field : list byte) : result Http1Error Z :=
  match field with
  | [] => Ok size
  | b :: field =>
      digit ← ok_or (hex_value b) (AmbiguousFraming MalformedChunkSize);
      size ← ok_or (push_digit USIZE_MAX 16 size digit) (TooLarge "chunk size");
      chunk_size_value size field
  end.

Definition parse_chunk_size (field : list byte) : result Http1Error Z :=
  let field := trim_bytes field in
  if bool_decide (field = []) || (16 <? length field)%nat then Err (AmbiguousFraming MalformedChunkSize)
  else chunk_size_value 0 field.

(** The trailer section.  Every line takes a byte, so a fuel above the length of
    the input is never used up. *)
Fixpoint skip_trailers (fuel : nat) (bytes : list byte) (offset : Z) : result Http1Error Z :=
  match fuel with
  | O => Err Truncated
  | S fuel =>
      remaining ← ok_or (get_from bytes offset) Truncated;
      '(trailer, consumed) ← read_line remaining MAX_HEADER_LINE "trailer";
      offset ← advance offset consumed "chunked body";
      if bool_decide (trailer = []) then Ok offset else skip_trailers fuel bytes offset
  end.

(** The outer loop; the same fuel. *)
Fixpoint decode_chunks (fuel : nat) (bytes : list byte) (offset : Z) (body : list byte)
  : result Http1Error (list byte * Z) :=
  match fuel with
  | O => Err Truncated
  | S fuel' =>
      remaining ← ok_or (get_from bytes offset) Truncated;
      '(line, consumed) ← read_line remaining MAX_HEADER_LINE "chunk size line";
      offset ← advance offset consumed "chunked body";
      size ← parse_chunk_size (default [] (head (split_on ";"%byte line)));
      if size =? 0 then
        offset ← skip_trailers fuel bytes offset; Ok (body, offset)
      else if MAX_CHUNK_BYTES <? size then Err (TooLarge "chunk")
      else if MAX_BODY_BYTES <? sat_add (len body) size then Err (TooLarge "body")
      else
        chunk ← ok_or (get_range bytes offset (sat_add offset size)) Truncated;
        offset ← advance offset size "chunked body";
        remaining ← ok_or (get_from bytes offset) Truncated;
        '(terminator, consumed) ← read_line remaining 2 "chunk terminator";
        if negb (bool_decide (terminator = [])) then Err (AmbiguousFraming MalformedChunkSize)
        else
          offset ← advance offset consumed "chunked body";
          decode_chunks fuel' bytes offset (body ++ chunk)
  end.

Definition decode_chunked (bytes : list byte) : result Http1Error (list byte * Z) :=
  decode_chunks (S (length bytes)) bytes 0 [].

End Http1.
