(* ===== verification/Http1Props.v ===== *)
(** * What the HTTP/1.1 parser accepts

    First what the parser reads, in its own terms; then the grammar of RFC 9112 and RFC
    9110, written on its own in [Rfc], and that the parser accepts exactly it.  There is
    one way to read the bytes, and more bytes do not change it. *)
From S2P Require Import Prelude Bytes Text Chars Http1.
Local Open Scope Z_scope.
Import Http1.

(** ** Lines *)
(** [raw] is a line of the given content and its terminator. *)
Definition raw_line (limit : Z) (content raw : list byte) : Prop :=
  exists l, raw = l ++ [NEWLINE] /\ (NEWLINE ∉ l) /\ content = drop_cr l /\ len l <= limit.

Lemma raw_line_len limit content raw : raw_line limit content raw -> 1 <= len raw.
Proof. intros (l & -> & _). rewrite len_app. pose proof (len_nonneg l). change (len [NEWLINE]) with 1. lia. Qed.

Lemma read_line_Ok bytes limit what content n :
  read_line bytes limit what = Ok (content, n) <->
  exists raw rest, bytes = raw ++ rest /\ raw_line limit content raw /\ n = len raw.
Proof.
  unfold read_line. split.
  - destruct (split_once NEWLINE bytes) as [[line rest]|] eqn:E; [|done]. apply split_once_spec in E as [-> Hn].
    destruct (limit <? len line) eqn:El; [done|]. intros [= <- <-]. exists (line ++ [NEWLINE]), rest.
    split_and!; [by rewrite <- app_assoc| |by rewrite len_app]. exists line. split_and!; [done..|lia].
  - intros (raw & rest & -> & (l & -> & Hn & -> & Hl) & ->).
    rewrite (proj2 (split_once_spec NEWLINE _ l rest)) by (by rewrite <- app_assoc).
    rewrite (proj2 (Z.ltb_ge _ _)) by lia. by rewrite len_app.
Qed.

Lemma read_line_app raw rest limit what content :
  raw_line limit content raw -> read_line (raw ++ rest) limit what = Ok (content, len raw).
Proof. intros H. apply read_line_Ok. by exists raw, rest. Qed.

(** Offsets are within the input. *)
Lemma advance_app (pre raw rest : list byte) what :
  slice_ok (pre ++ raw ++ rest) -> advance (len pre) (len raw) what = Ok (len (pre ++ raw)).
Proof.
  unfold slice_ok. rewrite !len_app. intros Hok. unfold advance, checked_add. pose proof (len_nonneg rest).
  assert (ISIZE_MAX <= USIZE_MAX) by (by vm_compute). by rewrite decide_True by lia.
Qed.

(** ** The status line *)
Definition digit_of (b : byte) : Z := b2z b - 48.

Inductive status_line : list byte -> Z -> Prop :=
| status_line_intro v a b c reason :
    v = lit "HTTP/1.1" \/ v = lit "HTTP/1.0" ->
    is_digit a = true -> is_digit b = true -> is_digit c = true ->
    reason = [] \/ head reason = Some x20 ->
    status_line (v ++ x20 :: a :: b :: c :: reason) (100 * digit_of a + 10 * digit_of b + digit_of c).

Lemma is_digit_of b : is_digit b = true -> 0 <= digit_of b <= 9.
Proof. unfold is_digit, digit_of. lia. Qed.

Lemma status_value_three a b c :
  is_digit a = true -> is_digit b = true -> is_digit c = true ->
  status_value 0 [a; b; c] = Ok (100 * digit_of a + 10 * digit_of b + digit_of c).
Proof.
  intros Ha%is_digit_of Hb%is_digit_of Hc%is_digit_of. unfold digit_of in *.
  cbn [status_value]. unfold push_digit. unfold_width.
  repeat (rewrite decide_True by lia; cbn [ok_or mbind result_bind]). f_equal. lia.
Qed.

Lemma split_two c x y l : split_on c l = x :: y -> (c ∉ x) /\ (l = x /\ y = [] \/ exists r, l = x ++ c :: r /\ y = split_on c r).
Proof.
  intros E. assert (c ∉ x) as Hx by (apply (split_on_nosep c l); rewrite E; by left). split; [done|].
  destruct (decide (c ∈ l)) as [Hl|Hl].
  - destruct (split_once c l) as [[x' r]|] eqn:Es; [|by apply split_once_None in Es].
    apply split_once_spec in Es as [-> Hx']. rewrite split_on_app in E by done. injection E as <- <-. right. by exists r.
  - rewrite split_on_single in E by done. injection E as <- <-. by left.
Qed.

Lemma parse_status_line_Ok line s : parse_status_line line = Ok s <-> status_line line s.
Proof.
  split.
  - unfold parse_status_line. cbv zeta. intros (v & Ev%ok_or_Ok & (code & Ec%ok_or_Ok & H)%bind_Ok)%bind_Ok.
    destruct (split_on x20 line) as [|v' ps] eqn:E; [done|]. injection Ev as ->. apply split_two in E as [Hv E].
    destruct E as [[-> ->]|(r & -> & ->)]; [done|]. cbn [lookup list_lookup] in Ec.
    destruct (split_on x20 r) as [|code' ps] eqn:E2; [done|]. injection Ec as ->. apply split_two in E2 as [_ E2].
    destruct (negb (_ || _)) eqn:Hver; [done|]. apply negb_false_iff, orb_true_iff in Hver. rewrite !bool_decide_eq_true in Hver.
    destruct (negb (length code =? 3)%nat || _) eqn:Hcode; [done|]. apply orb_false_iff in Hcode as [Hlen Hd].
    rewrite negb_false_iff in Hlen, Hd. apply Nat.eqb_eq in Hlen.
    destruct code as [|a [|b [|c [|]]]]; try done. cbn [forallb] in Hd. rewrite !andb_true_iff in Hd. destruct Hd as (Ha & Hb & Hc & _).
    rewrite status_value_three in H by done. injection H as <-.
    destruct E2 as [[-> _]|(r2 & -> & _)]; [apply (status_line_intro v a b c []); auto|].
    apply (status_line_intro v a b c (x20 :: r2)); auto.
  - intros [v a b c reason Hv Ha Hb Hc Hr]. unfold parse_status_line.
    assert (forall x, is_digit x = true -> x <> x20) as Hne by (intros x Hx ->; done).
    assert (x20 ∉ v) as Hnv by (destruct Hv as [-> | ->]; apply (bool_decide_unpack _); vm_compute; exact I).
    assert (x20 ∉ [a; b; c]) as Hn by (rewrite !not_elem_of_cons; split_and!; [by apply not_eq_sym, Hne..|apply not_elem_of_nil]).
    rewrite split_on_app by done. cbn [head ok_or mbind result_bind lookup list_lookup].
    assert (exists ps, split_on x20 (a :: b :: c :: reason) = [a; b; c] :: ps) as [ps ->].
    { destruct Hr as [-> |Hr]; [exists []; by apply split_on_single|]. destruct reason as [|x r]; [done|]. injection Hr as ->.
      exists (split_on x20 r). by apply (split_on_app x20 [a; b; c] r). }
    cbn [head ok_or mbind result_bind lookup list_lookup length]. rewrite (proj2 (negb_false_iff _)).
    + cbn [Nat.eqb negb orb forallb]. rewrite Ha, Hb, Hc. by apply status_value_three.
    + apply orb_true_iff. rewrite !bool_decide_eq_true. done.
Qed.

(** ** Header fields *)
(** A name of token characters and a value without control characters, which are
    kept in lower case and without the blanks around. *)
Definition field (line : list byte) (h : Header) : Prop :=
  exists n v, line = n ++ COLON :: v /\ n <> [] /\ Forall (fun b => is_token_byte b = true) n /\
    Forall (fun b => is_control b = false) v /\ is_utf8 (trim_bytes v) = true /\
    name h = to_ascii_lowercase n /\ value h = trim_bytes v.

Lemma token_ascii b : is_token_byte b = true -> is_ascii_byte b = true /\ b <> COLON /\ b <> x20 /\ b <> x09.
Proof. intros H. destruct b; try (by vm_compute in H); by split_and!. Qed.

Lemma lower_ascii n : is_ascii n = true -> is_ascii (to_ascii_lowercase n) = true.
Proof.
  unfold is_ascii, to_ascii_lowercase. induction n as [|b n IH]; [done|]. simpl.
  intros [Hb Hn]%andb_true_iff. rewrite (IH Hn), andb_true_r. by destruct b.
Qed.

Lemma tokens_utf8 n : Forall (fun b => is_token_byte b = true) n -> is_utf8 (to_ascii_lowercase n) = true.
Proof.
  intros Hn. apply ascii_is_utf8, lower_ascii, forallb_forall. intros b Hb%list_elem_of_In.
  by apply token_ascii, (proj1 (Forall_forall _ _) Hn).
Qed.

Lemma parse_header_Ok line h : parse_header line = Ok h <-> field line h.
Proof.
  unfold parse_header. split.
  - destruct (_ || _); [done|]. intros ([n v] & Es%ok_or_Ok & H)%bind_Ok. apply split_once_spec in Es as [-> Hc].
    destruct (bool_decide (n = []) || _) eqn:Hn; [done|]. apply orb_false_iff in Hn as [Hn Ht].
    apply bool_decide_eq_false in Hn. apply negb_false_iff, forallb_true in Ht.
    destruct (existsb _ v) eqn:Hv; [done|]. apply existsb_false in Hv. cbv zeta in H.
    destruct (is_utf8 (to_ascii_lowercase n)); [|done]. destruct (is_utf8 (trim_bytes v)) eqn:Hu; [|done].
    injection H as <-. by exists n, v.
  - destruct h as [hn hv]. intros (n & v & -> & Hn & Ht & Hv & Hu & En & Ev). simpl in En, Ev. subst hn hv.
    destruct n as [|a n]; [done|]. pose proof (token_ascii a (Forall_inv Ht)) as (_ & _ & Ha1 & Ha2).
    cbn [head app]. rewrite !bool_decide_eq_false_2 by congruence. cbn [orb].
    rewrite (proj2 (split_once_spec COLON _ (a :: n) v)).
    + cbn [ok_or mbind result_bind]. rewrite (proj2 (forallb_true _ _) Ht), (proj2 (existsb_false _ _) Hv).
      rewrite bool_decide_eq_false_2 by done. cbn [negb orb]. cbv zeta. by rewrite tokens_utf8, Hu.
    + split; [done|]. intros Hin. by apply (proj1 (Forall_forall _ _) Ht), token_ascii in Hin as (_ & ? & _).
Qed.

(** ** Framing *)
Definition bodyless (s : Z) : Prop := s = 204 \/ s = 304 \/ 100 <= s < 200.

Definition content_length : list byte := lit "content-length".
Definition transfer_encoding : list byte := lit "transfer-encoding".

(** How the body of a response ends; nothing else is an answer. *)
Inductive framed (s : Z) (hs : list Header) : Framing -> Prop :=
| framed_empty : bodyless s -> framed s hs Empty
| framed_chunked pre h :
    ~ bodyless s -> named content_length hs = [] -> named transfer_encoding hs = pre ++ [h] ->
    final_coding (value h) = lit "chunked" -> framed s hs Chunked
| framed_close :
    ~ bodyless s -> named content_length hs = [] -> named transfer_encoding hs = [] -> framed s hs UntilClose
| framed_length h n :
    ~ bodyless s -> named content_length hs = [h] -> named transfer_encoding hs = [] ->
    value h <> [] -> digits_value 0 (value h) = Some n -> n <= MAX_BODY_BYTES -> framed s hs (Length n).

Lemma digits_value_Some l acc : forallb is_digit l = true -> 0 <= acc -> exists v, digits_value acc l = Some v /\ acc <= v.
Proof.
  revert acc. induction l as [|b l IH]; intros acc Hl Ha; simpl in *; [by exists acc|].
  apply andb_true_iff in Hl as [Hb Hl]. rewrite Hb. pose proof (is_digit_of b Hb) as Hd. unfold digit_of in Hd.
  destruct (IH (acc * 10 + (b2z b - 48)) Hl) as (v & E & Hv); [lia|]. exists v. split; [done|lia].
Qed.

Lemma digits_value_all l acc v : digits_value acc l = Some v -> forallb is_digit l = true.
Proof.
  revert acc. induction l as [|b l IH]; intros acc; simpl; [done|]. destruct (is_digit b); [apply IH|done].
Qed.

Lemma radix_value_digits_exact max acc l :
  forallb is_digit l = true -> 0 <= acc <= max ->
  radix_value 10 max acc l = (v ← digits_value acc l; if max <? v then None else Some v).
Proof.
  revert acc. induction l as [|b l IH]; intros acc Hl Ha; cbn [digits_value radix_value].
  { simpl. by rewrite (proj2 (Z.ltb_ge _ _)) by lia. }
  simpl in Hl. apply andb_true_iff in Hl as [Hb Hl]. rewrite Hb, digit_radix_10 by done. cbn [mbind option_bind].
  pose proof (is_digit_of b Hb) as Hd. unfold digit_of in Hd.
  destruct (max <? acc * 10 + (b2z b - 48)) eqn:E.
  - destruct (digits_value_Some l (acc * 10 + (b2z b - 48)) Hl) as (v & -> & Hv); [lia|]. simpl.
    by rewrite (proj2 (Z.ltb_lt _ _)) by lia.
  - apply IH; [done|lia].
Qed.

Lemma parse_length l :
  l <> [] -> forallb is_digit l = true ->
  parse_uint 10 USIZE_MAX l = (v ← digits_value 0 l; if USIZE_MAX <? v then None else Some v).
Proof.
  intros Hl Hd. rewrite parse_uint_nosign; [by apply radix_value_digits_exact|done|].
  apply forallb_true in Hd. eapply Forall_impl; [exact Hd|]. intros b. apply is_digit_hex.
Qed.

Lemma cons_snoc {A} (x : A) l : exists pre y, x :: l = pre ++ [y].
Proof. destruct (exists_last (l := x :: l) ltac:(done)) as (pre & y & E). by exists pre, y. Qed.

Lemma bodyless_iff s : (s =? 204) || (s =? 304) || ((100 <=? s) && (s <? 200)) = true <-> bodyless s.
Proof. unfold bodyless. lia. Qed.

Lemma determine_framing_Ok s hs f : determine_framing s hs = Ok f <-> framed s hs f.
Proof.
  unfold determine_framing. fold content_length transfer_encoding. pose proof (bodyless_iff s) as Hs.
  destruct ((s =? 204) || _ || _) eqn:E; [pose proof (proj1 Hs eq_refl) as Hb|
    assert (~ bodyless s) as Hb by (intros ?%Hs; congruence)]; clear E Hs; cbv zeta.
  { split; [intros [= <-]; by constructor|by intros []]. }
  destruct (named content_length hs) as [|h1 hs1] eqn:El; rewrite ?bool_decide_eq_true_2, ?(bool_decide_eq_false_2 (_ :: _ = [])) by done;
    cbn [negb andb]; destruct (named transfer_encoding hs) as [|h2 hs2] eqn:Ee;
    rewrite ?bool_decide_eq_true_2, ?(bool_decide_eq_false_2 (_ :: _ = [])) by done; cbn [negb andb].
  - split; [intros [= <-]; by apply framed_close|]. intros []; congruence || (rewrite Ee in *; by destruct pre).
  - destruct (cons_snoc h2 hs2) as (pre & h & E). rewrite E, last_snoc in *. cbn [ok_or mbind result_bind].
    destruct (bool_decide (final_coding _ = _)) eqn:Ef; cbn [negb].
    + apply bool_decide_eq_true in Ef. split; [intros [= <-]; by apply (framed_chunked s hs pre h)|].
      intros []; try congruence.
    + apply bool_decide_eq_false in Ef. split; [done|]. intros [| pre' h' _ _ E' Hf| |]; try congruence.
      rewrite Ee in E'. apply app_inj_tail in E' as [_ <-]. done.
  - destruct hs1 as [|h3 hs1]; [|split; [done|intros []; congruence]].
    destruct (bool_decide (value h1 = [])) eqn:Hv; [apply bool_decide_eq_true in Hv|apply bool_decide_eq_false in Hv]; cbn [orb].
    { split; [done|]. intros []; congruence. }
    destruct (forallb is_digit (value h1)) eqn:Hd; cbn [negb].
    + rewrite parse_length by done. destruct (digits_value_Some (value h1) 0 Hd) as (n & En & Hn); [done|].
      rewrite En. cbn [mbind option_bind]. assert (MAX_BODY_BYTES <= USIZE_MAX) as Hmax by (by vm_compute).
      assert (framed s hs f <-> f = Length n /\ n <= MAX_BODY_BYTES) as ->.
      { split; [|intros [-> ?]; by apply (framed_length s hs h1 n)]. intros []; try congruence.
        assert (h = h1) as -> by congruence. assert (n0 = n) as -> by congruence. done. }
      destruct (USIZE_MAX <? n) eqn:E1; cbn [ok_or mbind result_bind]; [split; [done|lia]|].
      destruct (MAX_BODY_BYTES <? n) eqn:E2; [split; [done|intros [_ Hle]; exfalso; lia]|]. split; [intros [= <-]; split; [done|lia]|by intros [-> _]].
    + split; [done|]. intros [| | |h n _ E1 _ _ E2%digits_value_all _]; congruence.
  - split; [done|]. intros []; congruence.
Qed.

(** ** The head *)
Inductive header_block : list byte -> list Header -> Prop :=
| block_end raw : raw_line MAX_HEADER_LINE [] raw -> header_block raw []
| block_field raw line h raw' hs :
    raw_line MAX_HEADER_LINE line raw -> line <> [] -> field line h -> header_block raw' hs ->
    header_block (raw ++ raw') (h :: hs).

Definition response_head (raw : list byte) (h : ResponseHead) : Prop :=
  exists line raw1 raw2, raw = raw1 ++ raw2 /\ raw_line MAX_STATUS_LINE line raw1 /\ status_line line (status h) /\
    header_block raw2 (headers h) /\ (length (headers h) <= MAX_HEADERS)%nat /\ framed (status h) (headers h) (framing h).

Lemma read_headers_Ok room pre post hs hs' n :
  slice_ok (pre ++ post) ->
  read_headers room (pre ++ post) (len pre) hs = Ok (hs', n) <->
  exists raw rest new, post = raw ++ rest /\ header_block raw new /\ (length new <= room)%nat /\
    hs' = hs ++ new /\ n = len pre + len raw.
Proof.
  intros Hok. revert pre post hs Hok. induction room as [|room IH]; intros pre post hs Hok.
  all: cbn [read_headers]; rewrite get_from_app; cbn [ok_or mbind result_bind]; split.
  1, 3: intros ([line k] & (raw & rest & -> & Hraw & ->)%read_line_Ok & H)%bind_Ok.
  1, 2: rewrite (advance_app pre raw rest) in H by done;
    cbn [mbind result_bind] in H; case_bool_decide as Hl; [subst line; injection H as <- <-; exists raw, rest, [];
      split_and!; [done|by constructor|simpl; lia|by rewrite app_nil_r|by rewrite len_app]|].
  - done.
  - apply bind_Ok in H as (h & Hh%parse_header_Ok & H). rewrite app_assoc in H, Hok.
    apply IH in H as (raw' & rest' & new & -> & Hb & Hn & -> & ->); [|done].
    exists (raw ++ raw'), rest', (h :: new). split_and!; [by rewrite <- app_assoc|by econstructor|simpl; lia|by rewrite <- app_assoc|].
    rewrite !len_app. lia.
  - intros (raw & rest & new & -> & Hb & Hn & -> & ->). destruct new; [|simpl in Hn; lia]. inversion Hb as [? Hr|]; subst.
    rewrite (read_line_app _ _ _ _ _ Hr). cbn [mbind result_bind].
    rewrite (advance_app pre raw rest) by done.
    cbn [mbind result_bind]. by rewrite bool_decide_eq_true_2, app_nil_r, len_app.
  - intros (raw & rest & new & -> & Hb & Hn & -> & ->). destruct Hb as [raw Hr|raw line h raw' new Hr Hl Hf Hb].
    + rewrite (read_line_app _ _ _ _ _ Hr). cbn [mbind result_bind].
      rewrite (advance_app pre raw rest) by done.
      cbn [mbind result_bind]. by rewrite bool_decide_eq_true_2, app_nil_r, len_app.
    + rewrite <- app_assoc in Hok |- *. rewrite (read_line_app _ _ _ _ _ Hr). cbn [mbind result_bind].
      rewrite (advance_app pre raw (raw' ++ rest)) by done.
      cbn [mbind result_bind]. rewrite bool_decide_eq_false_2 by done. apply parse_header_Ok in Hf as ->. cbn [mbind result_bind].
      rewrite app_assoc in Hok |- *. apply IH; [done|]. exists raw', rest, new.
      split_and!; [done|done|simpl in Hn; lia|by rewrite <- app_assoc|rewrite !len_app; lia].
Qed.

Lemma head_read bytes h n :
  slice_ok bytes ->
  parse_response_head bytes = Ok (h, n) <->
  exists raw rest, bytes = raw ++ rest /\ response_head raw h /\ n = len raw.
Proof.
  intros Hok. unfold parse_response_head. split.
  - intros ([line k] & (raw1 & rest & -> & H1 & ->)%read_line_Ok & H)%bind_Ok.
    apply bind_Ok in H as (s & Hs%parse_status_line_Ok & H). apply bind_Ok in H as ([hs k] & Hh & H).
    apply read_headers_Ok in Hh as (raw2 & rest' & new & -> & Hb & Hn & -> & ->); [|done].
    apply bind_Ok in H as (f & Hf%determine_framing_Ok & [= <- <-]).
    exists (raw1 ++ raw2), rest'. split_and!; [by rewrite <- app_assoc| |by rewrite len_app]. by exists line, raw1, raw2.
  - intros (raw & rest & -> & (line & raw1 & raw2 & -> & H1 & H2 & H3 & H4 & H5) & ->). rewrite <- app_assoc in Hok |- *.
    rewrite (read_line_app _ _ _ _ _ H1). cbn [mbind result_bind].
    rewrite (proj2 (parse_status_line_Ok _ _) H2). cbn [mbind result_bind].
    rewrite (proj2 (read_headers_Ok MAX_HEADERS raw1 (raw2 ++ rest) [] (headers h) (len raw1 + len raw2) Hok)).
    + cbn [mbind result_bind]. rewrite (proj2 (determine_framing_Ok _ _ _) H5). cbn [mbind result_bind].
      rewrite len_app. by destruct h.
    + exists raw2, rest, (headers h). by split_and!.
Qed.

(** ** Chunked bodies *)
Fixpoint hex_number (acc : Z) (l : list byte) : option Z :=
  match l with
  | [] => Some acc
  | b :: l => d ← hex_value b; hex_number (acc * 16 + d) l
  end.

(** The size a chunk's line states: digits only, before any extension. *)
Definition chunk_size (line : list byte) (n : Z) : Prop :=
  let digits := trim_bytes (default [] (head (split_on ";"%byte line))) in
  digits <> [] /\ (length digits <= 16)%nat /\ hex_number 0 digits = Some n.

Inductive trailer_section : list byte -> Prop :=
| trailer_end raw : raw_line MAX_HEADER_LINE [] raw -> trailer_section raw
| trailer_more line raw raw' :
    raw_line MAX_HEADER_LINE line raw -> line <> [] -> trailer_section raw' -> trailer_section (raw ++ raw').

Inductive chunked : list byte -> list byte -> Prop :=
| chunked_end line raw raw' :
    raw_line MAX_HEADER_LINE line raw -> chunk_size line 0 -> trailer_section raw' -> chunked (raw ++ raw') []
| chunked_more line raw data term raw' body :
    raw_line MAX_HEADER_LINE line raw -> chunk_size line (len data) -> 0 < len data <= MAX_CHUNK_BYTES ->
    raw_line 2 [] term -> chunked raw' body -> chunked (raw ++ data ++ term ++ raw') (data ++ body).

Lemma hex_value_range b d : hex_value b = Some d -> 0 <= d < 16.
Proof. destruct b; vm_compute; intros [=]; subst; split; discriminate || done. Qed.

(** Sixteen digits fit. *)
Lemma chunk_size_value_hex k size field :
  0 <= size < 16 ^ Z.of_nat k -> (length field + k <= 16)%nat ->
  chunk_size_value size field = ok_or (hex_number size field) (AmbiguousFraming MalformedChunkSize).
Proof.
  revert k size. induction field as [|b field IH]; intros k size Hs Hk; cbn [chunk_size_value hex_number]; [done|].
  destruct (hex_value b) as [d|] eqn:E; [|done]. cbn [ok_or mbind result_bind option_bind].
  apply hex_value_range in E. simpl in Hk. unfold push_digit, checked_add.
  assert (16 ^ Z.of_nat (S k) <= 16 ^ 16) as Hp by (apply Z.pow_le_mono_r; lia).
  assert (16 ^ Z.of_nat (S k) = 16 * 16 ^ Z.of_nat k) as Hpk by (rewrite Nat2Z.inj_succ, Z.pow_succ_r; lia).
  change (16 ^ 16) with (USIZE_MAX + 1) in Hp.
  rewrite !decide_True by lia. cbn [ok_or mbind result_bind]. apply (IH (S k)); lia.
Qed.

Lemma parse_chunk_size_Ok line n :
  parse_chunk_size (default [] (head (split_on ";"%byte line))) = Ok n <-> chunk_size line n.
Proof.
  unfold parse_chunk_size, chunk_size. cbv zeta. set (f := trim_bytes _).
  destruct (bool_decide (f = []) || (16 <? length f)%nat) eqn:E.
  - split; [done|]. intros (Hf & Hl & _). rewrite bool_decide_eq_false_2 in E by done. simpl in E. apply Nat.ltb_lt in E. lia.
  - apply orb_false_iff in E as [E%bool_decide_eq_false El%Nat.ltb_ge].
    rewrite (chunk_size_value_hex 0) by (done || lia). rewrite ok_or_Ok. split; [by intros ?|by intros (_ & _ & ?)].
Qed.

Lemma skip_trailers_Ok fuel pre post n :
  slice_ok (pre ++ post) -> (length post < fuel)%nat ->
  skip_trailers fuel (pre ++ post) (len pre) = Ok n <->
  exists raw rest, post = raw ++ rest /\ trailer_section raw /\ n = len pre + len raw.
Proof.
  revert pre post. induction fuel as [|fuel IH]; intros pre post Hok Hf; [lia|]. cbn [skip_trailers].
  rewrite get_from_app. cbn [ok_or mbind result_bind]. split.
  - intros ([line k] & (raw & rest & -> & Hraw & ->)%read_line_Ok & H)%bind_Ok. pose proof (raw_line_len _ _ _ Hraw).
    rewrite (advance_app pre raw rest) in H by done.
    cbn [mbind result_bind] in H. case_bool_decide as Hl.
    + subst line. injection H as <-. exists raw, rest. split_and!; [done|by constructor|by rewrite len_app].
    + rewrite app_assoc in H, Hok. rewrite length_app in Hf.
      apply IH in H as (raw' & rest' & -> & Ht & ->); [|done|unfold len in *; lia].
      exists (raw ++ raw'), rest'. split_and!; [by rewrite <- app_assoc|by econstructor|rewrite !len_app; lia].
  - intros (raw & rest & -> & Ht & ->). destruct Ht as [raw Hr|line raw raw' Hr Hl Ht].
    + rewrite (read_line_app _ _ _ _ _ Hr). cbn [mbind result_bind].
      rewrite (advance_app pre raw rest) by done.
      cbn [mbind result_bind]. by rewrite bool_decide_eq_true_2, len_app.
    + rewrite <- app_assoc in Hok, Hf |- *. rewrite (read_line_app _ _ _ _ _ Hr). cbn [mbind result_bind].
      rewrite (advance_app pre raw (raw' ++ rest)) by done.
      cbn [mbind result_bind]. rewrite bool_decide_eq_false_2 by done. rewrite app_assoc in Hok |- *.
      pose proof (raw_line_len _ _ _ Hr). rewrite length_app in Hf. apply IH; [done|unfold len in *; lia|].
      exists raw', rest. split_and!; [done..|rewrite !len_app; lia].
Qed.

(** One chunk: the data and the line after it. *)
Lemma sat_in_slice (pre post : list byte) size :
  slice_ok (pre ++ post) -> 0 <= size -> sat_add (len pre) size <= len (pre ++ post) ->
  sat_add (len pre) size = len pre + size.
Proof. unfold slice_ok, sat_add. assert (ISIZE_MAX < U64_MAX) by (by vm_compute). lia. Qed.

Lemma get_chunk (pre data rest : list byte) :
  slice_ok (pre ++ data ++ rest) -> get_range (pre ++ data ++ rest) (len pre) (sat_add (len pre) (len data)) = Some data.
Proof.
  intros Hok. assert (sat_add (len pre) (len data) = len pre + len data) as ->; [|apply get_range_app].
  unfold slice_ok in Hok. rewrite !len_app in Hok. pose proof (len_nonneg rest). unfold sat_add.
  assert (ISIZE_MAX <= U64_MAX) by (by vm_compute). lia.
Qed.

Lemma get_chunk_inv (pre post : list byte) size data :
  slice_ok (pre ++ post) -> 0 <= size -> get_range (pre ++ post) (len pre) (sat_add (len pre) size) = Some data ->
  exists rest, post = data ++ rest /\ size = len data.
Proof.
  intros Hok Hs H. apply get_range_Some in H as (_ & Hhi & Hl & Hd). rewrite (sat_in_slice pre post) in * by done.
  rewrite drop_len_app in Hd. exists (drop (Z.to_nat (len pre + size)) (pre ++ post)). split; [done|lia].
Qed.

Lemma hex_number_nonneg acc l n : 0 <= acc -> hex_number acc l = Some n -> 0 <= n.
Proof.
  revert acc. induction l as [|b l IH]; intros acc Ha; cbn [hex_number]; [by intros [= <-]|].
  intros (d & Hd%hex_value_range & H)%bind_Some. apply (IH (acc * 16 + d)); [lia|done].
Qed.

Lemma body_room (acc : list byte) size :
  0 <= size -> (MAX_BODY_BYTES <? sat_add (len acc) size) = negb (len acc + size <=? MAX_BODY_BYTES).
Proof.
  intros Hs. unfold sat_add. assert (MAX_BODY_BYTES < U64_MAX) by (by vm_compute).
  destruct (Z.leb_spec (len acc + size) MAX_BODY_BYTES); simpl; lia.
Qed.

Lemma decode_chunks_sound fuel pre post acc body n :
  slice_ok (pre ++ post) -> (length post < fuel)%nat -> len acc <= MAX_BODY_BYTES ->
  decode_chunks fuel (pre ++ post) (len pre) acc = Ok (body, n) ->
  exists raw rest new, post = raw ++ rest /\ chunked raw new /\ body = acc ++ new /\
    len body <= MAX_BODY_BYTES /\ n = len pre + len raw.
Proof.
  revert pre post acc. induction fuel as [|fuel IH]; intros pre post acc Hok Hf Hacc; [lia|]. cbn [decode_chunks].
  rewrite get_from_app. cbn [ok_or mbind result_bind].
  intros ([line k] & (raw & rest & -> & Hraw & ->)%read_line_Ok & H)%bind_Ok. pose proof (raw_line_len _ _ _ Hraw) as Hlen.
  rewrite (advance_app pre raw rest) in H by done.
  cbn [mbind result_bind] in H. apply bind_Ok in H as (size & Hsize%parse_chunk_size_Ok & H).
  rewrite app_assoc in H, Hok. destruct (size =? 0) eqn:E0.
  { apply Z.eqb_eq in E0 as ->. apply bind_Ok in H as (o & Ho & [= <- <-]).
    apply skip_trailers_Ok in Ho as (raw' & rest' & -> & Ht & ->); [|done|rewrite length_app in Hf; lia].
    exists (raw ++ raw'), rest', []. split_and!; [by rewrite <- app_assoc|by econstructor|by rewrite app_nil_r|done|rewrite !len_app; lia]. }
  destruct (MAX_CHUNK_BYTES <? size) eqn:E1; [done|].
  assert (0 <= size) as Hs by (destruct Hsize as (_ & _ & E); by eapply hex_number_nonneg in E).
  rewrite body_room in H by done. destruct (len acc + size <=? MAX_BODY_BYTES) eqn:E2; [|done]. cbn [negb] in H.
  apply bind_Ok in H as (data & Hdata%ok_or_Ok & H). apply get_chunk_inv in Hdata as (rest' & -> & ->); [|done..].
  rewrite (advance_app (pre ++ raw) data rest') in H by done. cbn [mbind result_bind] in H.
  rewrite (app_assoc (pre ++ raw)) in H, Hok. rewrite get_from_app in H. cbn [ok_or mbind result_bind] in H.
  apply bind_Ok in H as ([tline k] & (term & rest & -> & Hterm & ->)%read_line_Ok & H).
  case_bool_decide as Ht; [subst tline|done]. cbn [negb] in H.
  rewrite (advance_app ((pre ++ raw) ++ data) term rest) in H by done. cbn [mbind result_bind] in H.
  rewrite (app_assoc ((pre ++ raw) ++ data)) in H, Hok. rewrite !length_app in Hf.
  apply IH in H as (raw' & rest' & new & -> & Hch & -> & Hmax & ->); [|done|unfold len in *; lia|rewrite len_app; lia].
  exists (raw ++ data ++ term ++ raw'), rest', (data ++ new).
  split_and!; [by rewrite <- !app_assoc|econstructor; [done..|lia|done|done]|by rewrite <- app_assoc|done|rewrite !len_app; lia].
Qed.

Lemma decode_chunks_complete fuel pre raw rest acc new :
  slice_ok (pre ++ raw ++ rest) -> (length (raw ++ rest) < fuel)%nat -> len (acc ++ new) <= MAX_BODY_BYTES ->
  chunked raw new ->
  decode_chunks fuel (pre ++ raw ++ rest) (len pre) acc = Ok (acc ++ new, len (pre ++ raw)).
Proof.
  intros Hok Hf Hmax Hch. revert fuel pre acc Hok Hf Hmax.
  induction Hch as [line raw raw' Hr Hsize Ht|line raw data term raw' body Hr Hsize Hdata Hterm Hch IH]; intros fuel pre acc Hok Hf Hmax;
    (destruct fuel as [|fuel]; [lia|]); cbn [decode_chunks]; rewrite get_from_app; cbn [ok_or mbind result_bind];
    rewrite <- !app_assoc in Hok |- *; rewrite (read_line_app _ _ _ _ _ Hr); cbn [mbind result_bind];
    erewrite advance_app by exact Hok; cbn [mbind result_bind];
    rewrite (proj2 (parse_chunk_size_Ok _ _) Hsize); cbn [mbind result_bind]; rewrite app_assoc in Hok |- *.
  - rewrite Z.eqb_refl. rewrite (proj2 (skip_trailers_Ok (S fuel) (pre ++ raw) (raw' ++ rest) (len (pre ++ raw) + len raw') Hok ltac:(rewrite <- app_assoc, length_app in Hf; lia))).
    + cbn [mbind result_bind]. by rewrite app_nil_r, <- len_app, <- app_assoc.
    + exists raw', rest. by split_and!.
  - rewrite (proj2 (Z.eqb_neq _ _)) by lia. rewrite (proj2 (Z.ltb_ge _ _)) by lia. rewrite body_room by lia.
    rewrite (proj2 (Z.leb_le _ _)); [cbn [negb]|rewrite !len_app in Hmax; pose proof (len_nonneg body); lia].
    rewrite get_chunk by done. cbn [ok_or mbind result_bind].
    erewrite advance_app by exact Hok. cbn [mbind result_bind]. rewrite (app_assoc (pre ++ raw)) in Hok |- *.
    rewrite get_from_app. cbn [ok_or mbind result_bind]. rewrite (read_line_app _ _ _ _ _ Hterm). cbn [mbind result_bind].
    rewrite bool_decide_eq_true_2 by done. cbn [negb]. erewrite advance_app by exact Hok. cbn [mbind result_bind].
    rewrite (app_assoc ((pre ++ raw) ++ data)) in Hok |- *. rewrite app_assoc in Hmax. rewrite IH; [|done| |done].
    + by rewrite <- !app_assoc.
    + pose proof (raw_line_len _ _ _ Hr). rewrite !length_app in *. unfold len in *. lia.
Qed.

Lemma chunked_read bytes body n :
  slice_ok bytes ->
  decode_chunked bytes = Ok (body, n) <->
  exists raw rest, bytes = raw ++ rest /\ chunked raw body /\ len body <= MAX_BODY_BYTES /\ n = len raw.
Proof.
  intros Hok. unfold decode_chunked. split.
  - intros H. apply (decode_chunks_sound _ [] bytes) in H as (raw & rest & new & -> & Hch & -> & Hm & ->); [|done|lia|done].
    by exists raw, rest.
  - intros (raw & rest & -> & Hch & Hm & ->).
    apply (decode_chunks_complete _ [] raw rest [] body Hok); [lia|done..].
Qed.

(** ** More bytes *)
(** An answer other than [Truncated] stands. *)
Definition settles {A} (r r' : result Http1Error A) : Prop := r = Err Truncated \/ r' = r.

Lemma settles_bind {A B} (r r' : result Http1Error A) (f f' : A -> result Http1Error B) :
  settles r r' -> (forall a, settles (f a) (f' a)) -> settles (r ≫= f) (r' ≫= f').
Proof. intros [-> | ->] Hf; [by left|]. destruct r as [a|e]; [apply Hf|by right]. Qed.

Lemma settles_refl {A} (r : result Http1Error A) : settles r r.
Proof. by right. Qed.

Section more.
Context (more : list byte).

Lemma settles_read_line bytes limit what : settles (read_line bytes limit what) (read_line (bytes ++ more) limit what).
Proof.
  unfold read_line. destruct (split_once NEWLINE bytes) as [[line rest]|] eqn:E; [|by left]. right.
  apply split_once_spec in E as [-> Hn]. rewrite <- app_assoc.
  by rewrite (proj2 (split_once_spec NEWLINE _ line (rest ++ more))).
Qed.

Lemma settles_get_from {B} bytes offset (f f' : list byte -> result Http1Error B) :
  (forall rest, settles (f rest) (f' (rest ++ more))) ->
  settles (ok_or (get_from bytes offset) Truncated ≫= f) (ok_or (get_from (bytes ++ more) offset) Truncated ≫= f').
Proof.
  intros Hf. unfold get_from. case_decide as H; [|by left]. rewrite decide_True by (rewrite len_app; pose proof (len_nonneg more); lia).
  cbn [ok_or mbind result_bind]. rewrite drop_app_le by (unfold len in H; lia). apply Hf.
Qed.

Lemma settles_get_range bytes lo hi :
  settles (ok_or (get_range bytes lo hi) Truncated) (ok_or (get_range (bytes ++ more) lo hi) Truncated).
Proof.
  unfold get_range. case_decide as H; [right|by left]. rewrite decide_True by (rewrite len_app; pose proof (len_nonneg more); lia).
  cbn [ok_or]. f_equal. unfold len in H. rewrite drop_app_le by lia. apply take_app_le. rewrite length_drop. lia.
Qed.

Lemma settles_read_headers room bytes offset hs :
  settles (read_headers room bytes offset hs) (read_headers room (bytes ++ more) offset hs).
Proof.
  revert offset hs. induction room as [|room IH]; intros offset hs; cbn [read_headers];
    apply settles_get_from; intros rest; (apply settles_bind; [apply settles_read_line|]; intros [line k]);
    (apply settles_bind; [apply settles_refl|]; intros o); destruct (bool_decide _); try apply settles_refl.
  apply settles_bind; [apply settles_refl|]. intros h. apply IH.
Qed.

Lemma settles_skip_trailers fuel fuel' bytes offset :
  (fuel <= fuel')%nat -> settles (skip_trailers fuel bytes offset) (skip_trailers fuel' (bytes ++ more) offset).
Proof.
  revert fuel' offset. induction fuel as [|fuel IH]; intros fuel' offset Hf; [by left|]. destruct fuel' as [|fuel']; [lia|].
  cbn [skip_trailers]. apply settles_get_from. intros rest. apply settles_bind; [apply settles_read_line|]. intros [line k].
  apply settles_bind; [apply settles_refl|]. intros o. destruct (bool_decide _); [apply settles_refl|]. apply IH. lia.
Qed.

Lemma settles_decode_chunks fuel fuel' bytes offset body :
  (fuel <= fuel')%nat -> settles (decode_chunks fuel bytes offset body) (decode_chunks fuel' (bytes ++ more) offset body).
Proof.
  revert fuel' offset body. induction fuel as [|fuel IH]; intros fuel' offset body Hf; [by left|].
  destruct fuel' as [|fuel']; [lia|]. cbn [decode_chunks]. apply settles_get_from. intros rest.
  apply settles_bind; [apply settles_read_line|]. intros [line k]. apply settles_bind; [apply settles_refl|]. intros o.
  apply settles_bind; [apply settles_refl|]. intros size. destruct (size =? 0).
  { apply settles_bind; [by apply settles_skip_trailers|]. intros o'. apply settles_refl. }
  destruct (_ <? size); [apply settles_refl|]. destruct (_ <? sat_add _ _); [apply settles_refl|].
  apply settles_bind; [apply settles_get_range|]. intros chunk. apply settles_bind; [apply settles_refl|]. intros o2.
  apply settles_get_from. intros rest2. apply settles_bind; [apply settles_read_line|]. intros [term k2].
  destruct (negb _); [apply settles_refl|]. apply settles_bind; [apply settles_refl|]. intros o3. apply IH. lia.
Qed.
End more.

(** an answer does not depend on how much of what follows has arrived: unless
    it is that the input is cut short, more bytes leave it as it is. *)
Theorem answers_are_final bytes more :
  (parse_response_head bytes <> Err Truncated -> parse_response_head (bytes ++ more) = parse_response_head bytes) /\
  (decode_chunked bytes <> Err Truncated -> decode_chunked (bytes ++ more) = decode_chunked bytes).
Proof.
  split.
  - assert (settles (parse_response_head bytes) (parse_response_head (bytes ++ more))) as [H|H]; [|done..].
    apply settles_bind; [apply settles_read_line|]. intros [line o]. apply settles_bind; [apply settles_refl|]. intros s.
    apply settles_bind; [apply settles_read_headers|]. intros [hs o2]. apply settles_refl.
  - assert (settles (decode_chunked bytes) (decode_chunked (bytes ++ more))) as [H|H]; [|done..].
    apply settles_decode_chunks. rewrite length_app. lia.
Qed.

(** ** What an accepted head is like *)
Lemma drop_whitespace_suffix l : exists k, l = k ++ drop_whitespace l.
Proof.
  induction l as [|b l [k IH]]; [by exists []|]. simpl. destruct (is_ascii_whitespace b); [|by exists []].
  exists (b :: k). simpl. by rewrite <- IH.
Qed.

Lemma elem_of_trim_bytes b l : b ∈ trim_bytes l -> b ∈ l.
Proof.
  unfold trim_bytes. rewrite elem_of_reverse. destruct (drop_whitespace_suffix l) as [k1 E1].
  destruct (drop_whitespace_suffix (reverse (drop_whitespace l))) as [k2 E2]. intros Hb.
  rewrite E1, elem_of_app. right. apply elem_of_reverse. rewrite E2, elem_of_app. by right.
Qed.

(** A field that cannot split a response or hide under another spelling. *)
Definition clean (h : Header) : Prop :=
  name h <> [] /\ Forall (fun b => is_token_byte b = true /\ in_range 65 90 b = false) (name h) /\
  Forall (fun b => is_control b = false) (value h) /\ is_utf8 (value h) = true.

Lemma field_clean line h : field line h -> clean h.
Proof.
  intros (n & v & -> & Hn & Ht & Hv & Hu & En & Ev). rewrite Forall_forall in Ht, Hv.
  unfold clean. rewrite En, Ev. split_and!; [by destruct n| | |done].
  - apply Forall_forall. intros b (a & -> & Ha)%list_elem_of_fmap. specialize (Ht a Ha). by destruct a.
  - apply Forall_forall. intros b Hb. by apply Hv, elem_of_trim_bytes.
Qed.

Lemma header_block_clean raw hs : header_block raw hs -> Forall clean hs.
Proof. induction 1; constructor; [by eapply field_clean|done]. Qed.

(** C33: whatever the server sends, an accepted head is within its bounds, has a
    three-digit status, and no field holds a control character, a line feed or an
    unnormalised name; a length it declares is at most 32 MiB and comes with no
    transfer coding. *)
Theorem accepted_head_is_clean bytes h n :
  slice_ok bytes -> parse_response_head bytes = Ok (h, n) ->
  0 < n <= len bytes /\ 0 <= status h <= 999 /\ (length (headers h) <= MAX_HEADERS)%nat /\ Forall clean (headers h) /\
  (forall k, framing h = Length k -> k <= MAX_BODY_BYTES /\ named transfer_encoding (headers h) = []) /\
  (framing h = Chunked -> named content_length (headers h) = []).
Proof.
  intros Hok (raw & rest & -> & (line & raw1 & raw2 & -> & H1 & H2 & H3 & H4 & H5) & ->)%head_read; [|done].
  pose proof (raw_line_len _ _ _ H1). pose proof (len_nonneg rest). pose proof (len_nonneg raw2). rewrite !len_app.
  split_and!; [lia|lia| | |done|by eapply header_block_clean| |].
  1, 2: destruct H2 as [v a b c reason _ Ha%is_digit_of Hb%is_digit_of Hc%is_digit_of _]; lia.
  - intros k E. rewrite E in H5. by inversion H5.
  - intros E. rewrite E in H5. by inversion H5.
Qed.

(** ** The grammar of the standards

    Nothing here is a definition of the parser. *)
Module Rfc.
Definition DIGITS : list byte := lit "0123456789".
Definition HEX_LOWER : list byte := lit "0123456789abcdef".
Definition HEX_UPPER : list byte := lit "0123456789ABCDEF".
Definition TCHARS : list byte := lit "!#$%&'*+-.^_`|~0123456789ABCDEFGHIJKLMNOPQRSTUVWXYZabcdefghijklmnopqrstuvwxyz".

Definition dec (b : byte) (d : Z) : Prop := exists i, DIGITS !! i = Some b /\ d = Z.of_nat i.
Definition hex (b : byte) (d : Z) : Prop := exists i, (HEX_LOWER !! i = Some b \/ HEX_UPPER !! i = Some b) /\ d = Z.of_nat i.
Inductive numeral (radix : Z) (digit : byte -> Z -> Prop) : list byte -> Z -> Prop :=
| numeral_one b d : digit b d -> numeral radix digit [b] d
| numeral_more l n b d : numeral radix digit l n -> digit b d -> numeral radix digit (l ++ [b]) (radix * n + d).

Definition blank (b : byte) : Prop := b = x20 \/ b = x09.
Definition vchar (b : byte) : Prop := b = x09 \/ (32 <= b2z b /\ b <> x7f).

(** A line of some content, ended by a line feed or a carriage return and a line feed. *)
Definition line (limit : Z) (content raw : list byte) : Prop :=
  (x0a ∉ content) /\ ((raw = content ++ [x0a] /\ last content <> Some x0d /\ len content <= limit) \/ (raw = content ++ [x0d; x0a] /\ len content + 1 <= limit)).

Inductive status_line : list byte -> Z -> Prop :=
| status_line_intro v a b c i j k reason : v = lit "HTTP/1.1" \/ v = lit "HTTP/1.0" -> dec a i -> dec b j -> dec c k ->
    reason = [] \/ head reason = Some x20 -> status_line (v ++ x20 :: a :: b :: c :: reason) (100 * i + 10 * j + k).

(** A token, a colon and a value between blanks. *)
Definition field (l : list byte) (h : Header) : Prop :=
  exists n p v q, l = n ++ x3a :: p ++ v ++ q /\ n <> [] /\ Forall (fun b => b ∈ TCHARS) n /\ Forall blank p /\ Forall blank q /\ Forall vchar v /\
    (forall b, head v = Some b -> ~ blank b) /\ (forall b, last v = Some b -> ~ blank b) /\ is_utf8 v = true /\
    name h = to_ascii_lowercase n /\ value h = v.

Definition values (n : string) (hs : list Header) : list (list byte) := map value (List.filter (fun h => bool_decide (name h = lit n)) hs).

(** The last of a list of codings is [chunked], in any case. *)
Definition ends_chunked (v : list byte) : Prop :=
  exists c p q, Forall blank p /\ Forall blank q /\ to_ascii_lowercase c = lit "chunked" /\
    (v = p ++ c ++ q \/ exists before, v = before ++ x2c :: p ++ c ++ q).

Definition bodyless (s : Z) : Prop := s = 204 \/ s = 304 \/ 100 <= s < 200.
Inductive framed (s : Z) (hs : list Header) : Framing -> Prop :=
| framed_empty : bodyless s -> framed s hs Empty
| framed_chunked pre v : ~ bodyless s -> values "content-length" hs = [] -> values "transfer-encoding" hs = pre ++ [v] -> ends_chunked v -> framed s hs Chunked
| framed_close : ~ bodyless s -> values "content-length" hs = [] -> values "transfer-encoding" hs = [] -> framed s hs UntilClose
| framed_length v n : ~ bodyless s -> values "content-length" hs = [v] -> values "transfer-encoding" hs = [] -> numeral 10 dec v n -> n <= 32 * 1024 * 1024 -> framed s hs (Length n).

Inductive fields : list byte -> list Header -> Prop :=
| fields_end raw : line (16 * 1024) [] raw -> fields raw []
| fields_more raw l h raw' hs : line (16 * 1024) l raw -> l <> [] -> field l h -> fields raw' hs -> fields (raw ++ raw') (h :: hs).

Definition response_head (raw : list byte) (h : ResponseHead) : Prop :=
  exists l raw1 raw2, raw = raw1 ++ raw2 /\ line (8 * 1024) l raw1 /\ status_line l (status h) /\
    fields raw2 (headers h) /\ (length (headers h) <= 128)%nat /\ framed (status h) (headers h) (framing h).

(** The size of a chunk, at most sixteen digits, and its extensions. *)
Definition size_line (l : list byte) (n : Z) : Prop :=
  exists ds ext, l = ds ++ ext /\ numeral 16 hex ds n /\ (length ds <= 16)%nat /\ (ext = [] \/ head ext = Some x3b).

Inductive trailers : list byte -> Prop :=
| trailers_end raw : line (16 * 1024) [] raw -> trailers raw
| trailers_more l raw raw' : line (16 * 1024) l raw -> l <> [] -> trailers raw' -> trailers (raw ++ raw').

Inductive chunks : list byte -> list byte -> Prop :=
| chunks_end l raw raw' : line (16 * 1024) l raw -> size_line l 0 -> trailers raw' -> chunks (raw ++ raw') []
| chunks_more l raw data term raw' body : line (16 * 1024) l raw -> size_line l (len data) -> 0 < len data <= 8 * 1024 * 1024 ->
    term = [x0a] \/ term = [x0d; x0a] -> chunks raw' body -> chunks (raw ++ data ++ term ++ raw') (data ++ body).

(** After some chunks of the grammar comes a size with white space before or after it. *)
Definition white (b : byte) : Prop := b ∈ [x09; x0a; x0c; x0d; x20].
Definition spaced_size (l : list byte) : Prop :=
  exists p ds n q ext, l = p ++ ds ++ q ++ ext /\ p ++ q <> [] /\ Forall white p /\ Forall white q /\ numeral 16 hex ds n /\ (ext = [] \/ head ext = Some x3b).
Inductive spaced : list byte -> Prop :=
| spaced_here l raw rest : line (16 * 1024) l raw -> spaced_size l -> spaced (raw ++ rest)
| spaced_later l raw data term rest : line (16 * 1024) l raw -> size_line l (len data) -> 0 < len data -> term = [x0a] \/ term = [x0d; x0a] ->
    spaced rest -> spaced (raw ++ data ++ term ++ rest).
End Rfc.

(** ** What the parser reads is that grammar *)
Lemma rfc_line limit content raw : Rfc.line limit content raw <-> raw_line limit content raw.
Proof.
  unfold Rfc.line, raw_line. split.
  - intros [Hn [(-> & Hl & Hlim)|(-> & Hlim)]].
    + exists content. split_and!; [done|done| |done]. unfold drop_cr. rewrite <- (reverse_involutive content), last_reverse in Hl. destruct (reverse content) as [|b t] eqn:E; [done|].
      destruct (decide (b = x0d)) as [->|Hb]; [done|]. by destruct b.
    + exists (content ++ [x0d]). split_and!; [by rewrite <- app_assoc|by rewrite elem_of_app, list_elem_of_singleton; intros [?|?]| |by rewrite len_app].
      unfold drop_cr. rewrite reverse_app. change (content = reverse (reverse content)). by rewrite reverse_involutive.
  - intros (l & -> & Hn & -> & Hl). unfold drop_cr. destruct (reverse l) as [|b t] eqn:E.
    + apply (f_equal reverse) in E. rewrite reverse_involutive in E. subst. split; [apply not_elem_of_nil|]. by left.
    + assert (l = reverse t ++ [b]) as -> by (by rewrite <- (reverse_involutive l), E, reverse_cons). rewrite len_app in Hl. change (len [b]) with 1 in Hl.
      apply not_elem_of_app in Hn as [Hn1 Hn2]. destruct (decide (b = x0d)) as [->|Hb].
      * split; [done|]. right. split; [by rewrite <- app_assoc|done].
      * assert (match b with x0d => reverse t | _ => reverse t ++ [b] end = reverse t ++ [b]) as Eb by (by destruct b). rewrite Eb.
        split; [by apply not_elem_of_app|]. left. rewrite last_snoc, len_app. split_and!; [done|by intros [= ->]|done].
Qed.

Lemma dec_spec b d : Rfc.dec b d <-> is_digit b = true /\ d = digit_of b.
Proof.
  split.
  - intros (i & H & ->). do 10 (destruct i as [|i]; [injection H as <-; done|]). done.
  - intros [H ->]. exists (Z.to_nat (digit_of b)). by destruct b.
Qed.
Lemma hex_spec b d : Rfc.hex b d <-> hex_value b = Some d.
Proof.
  split.
  - intros (i & H & ->). do 16 (destruct i as [|i]; [by destruct H as [[= <-]|[= <-]]|]). by destruct H.
  - destruct b; vm_compute; intros [= <-]; first [by exists 0%nat; eauto|by exists 1%nat; eauto|by exists 2%nat; eauto|by exists 3%nat; eauto|by exists 4%nat; eauto|by exists 5%nat; eauto|by exists 6%nat; eauto|by exists 7%nat; eauto|
      by exists 8%nat; eauto|by exists 9%nat; eauto|by exists 10%nat; eauto|by exists 11%nat; eauto|by exists 12%nat; eauto|by exists 13%nat; eauto|by exists 14%nat; eauto|by exists 15%nat; eauto].
Qed.

(** A numeral is what the loops over its digits compute. *)
Lemma numeral_fold radix digit (value : byte -> option Z) (fold : Z -> list byte -> option Z) :
  (forall b d, digit b d <-> value b = Some d) -> (forall acc l b, fold acc (l ++ [b]) = (n ← fold acc l; d ← value b; Some (n * radix + d))) -> (forall acc, fold acc [] = Some acc) ->
  forall l n, Rfc.numeral radix digit l n <-> l <> [] /\ fold 0 l = Some n.
Proof.
  intros Hd Hf H0 l n. split.
  - induction 1 as [b d Hb|l n b d _ [Hl IH] Hb].
    + split; [done|]. apply Hd in Hb. change [b] with ([] ++ [b]). by rewrite Hf, H0, Hb.
    + split; [by destruct l|]. apply Hd in Hb. rewrite Hf, IH, Hb. cbn. f_equal. lia.
  - revert n. induction l as [|b l IH] using rev_ind; intros n; [by intros [? _]|]. intros [_ H]. rewrite Hf in H. apply bind_Some in H as (k & Hk & (d & Hb%Hd & [= <-])%bind_Some).
    destruct (decide (l = [])) as [->|Hl]; [rewrite H0 in Hk; injection Hk as <-; cbn [app]; rewrite Z.mul_0_l, Z.add_0_l; by constructor|].
    rewrite Z.mul_comm. constructor; [by apply IH|done].
Qed.

Lemma numeral_dec l n : Rfc.numeral 10 Rfc.dec l n <-> l <> [] /\ digits_value 0 l = Some n.
Proof.
  apply (numeral_fold 10 Rfc.dec (fun b => if is_digit b then Some (digit_of b) else None)); [| |done].
  - intros b d. rewrite dec_spec. destruct (is_digit b); naive_solver.
  - intros acc m b. revert acc. induction m as [|a m IH]; intros acc; cbn [app digits_value]; [by destruct (is_digit b)|]. by destruct (is_digit a).
Qed.
Lemma numeral_hex l n : Rfc.numeral 16 Rfc.hex l n <-> l <> [] /\ hex_number 0 l = Some n.
Proof.
  apply (numeral_fold 16 Rfc.hex hex_value); [apply hex_spec| |done].
  intros acc m b. revert acc. induction m as [|a m IH]; intros acc; cbn [app hex_number mbind option_bind]; [by destruct (hex_value b)|]. destruct (hex_value a); [|done]. apply IH.
Qed.

Lemma rfc_status_line l s : Rfc.status_line l s <-> status_line l s.
Proof.
  split.
  - intros [v a b c i j k reason Hv [Ha ->]%dec_spec [Hb ->]%dec_spec [Hc ->]%dec_spec Hr]. by constructor.
  - intros [v a b c reason Hv Ha Hb Hc Hr]. constructor; (done || by apply dec_spec).
Qed.

(** *** Fields *)
Lemma tchar_spec b : b ∈ Rfc.TCHARS <-> is_token_byte b = true.
Proof. rewrite <- (bool_decide_eq_true (b ∈ Rfc.TCHARS)). by destruct b. Qed.
Lemma vchar_spec b : Rfc.vchar b <-> is_control b = false.
Proof.
  unfold Rfc.vchar, is_control. rewrite orb_false_iff, andb_false_iff, negb_false_iff, Z.ltb_ge, !bool_decide_eq_true, bool_decide_eq_false.
  split; [intros [->|[? ?]]; [by split; [right|]|by split; [left|]]|intros [[?|?] ?]; [by right|by left]].
Qed.
Lemma white_spec b : is_ascii_whitespace b = true <-> Rfc.white b.
Proof. unfold Rfc.white. rewrite <- (bool_decide_eq_true (b ∈ _)). by destruct b. Qed.
Lemma blank_spec b : is_control b = false -> is_ascii_whitespace b = true <-> Rfc.blank b.
Proof. intros H. rewrite white_spec. unfold Rfc.white, Rfc.blank. rewrite !elem_of_cons, elem_of_nil. split; [|tauto]. by intros [->|[->|[->|[->|[->|[]]]]]]; [right| | | |left]. Qed.

Lemma drop_whitespace_split l : exists p, l = p ++ drop_whitespace l /\ Forall (fun b => is_ascii_whitespace b = true) p /\ (forall b, head (drop_whitespace l) = Some b -> is_ascii_whitespace b = false).
Proof.
  induction l as [|b l (p & E & Hp & Hh)]; [by exists []|]. cbn [drop_whitespace]. destruct (is_ascii_whitespace b) eqn:Eb.
  - exists (b :: p). split_and!; [by rewrite E at 1|by constructor|done].
  - exists []. split_and!; [done|constructor|]. by intros b' [= <-].
Qed.
Lemma drop_whitespace_app p l : Forall (fun b => is_ascii_whitespace b = true) p -> (forall b, head l = Some b -> is_ascii_whitespace b = false) -> drop_whitespace (p ++ l) = l.
Proof. intros Hp Hl. induction Hp as [|b p Hb Hp IH]; [destruct l as [|b l]; [done|]; cbn; by rewrite (Hl b)|]. cbn [app drop_whitespace]. by rewrite Hb. Qed.

(** What is left is the one part between white space that neither begins nor ends with it. *)
Lemma trim_bytes_spec l v : trim_bytes l = v <-> exists p q, l = p ++ v ++ q /\ Forall (fun b => is_ascii_whitespace b = true) p /\ Forall (fun b => is_ascii_whitespace b = true) q /\
  (forall b, head v = Some b -> is_ascii_whitespace b = false) /\ (forall b, last v = Some b -> is_ascii_whitespace b = false).
Proof.
  unfold trim_bytes. split.
  - intros <-. destruct (drop_whitespace_split l) as (p & E & Hp & Hh). destruct (drop_whitespace_split (reverse (drop_whitespace l))) as (q & Eq & Hq & Hl).
    set (x := drop_whitespace (reverse (drop_whitespace l))) in *. assert (drop_whitespace l = reverse x ++ reverse q) as Ed by (by rewrite <- reverse_app, <- Eq, reverse_involutive).
    exists p, (reverse q). split_and!; [by rewrite E, Ed at 1|done|by apply Forall_reverse| |].
    + intros b Hb. apply Hh. rewrite Ed. by destruct (reverse x).
    + intros b Hb. apply Hl. by rewrite last_reverse in Hb.
  - intros (p & q & -> & Hp & Hq & Hh & Hl). destruct (decide (v = [])) as [->|Hv].
    + cbn [app]. rewrite <- (app_nil_r (p ++ q)). rewrite drop_whitespace_app; [done|by apply Forall_app|done].
    + rewrite drop_whitespace_app; [|done|intros b; by destruct v; [|apply Hh]]. rewrite reverse_app, drop_whitespace_app; [apply reverse_involutive|by apply Forall_reverse|].
      intros b. rewrite <- last_reverse, reverse_involutive. apply Hl.
Qed.

Lemma rfc_field l h : Rfc.field l h <-> field l h.
Proof.
  unfold Rfc.field, field. split.
  - intros (n & p & v & q & -> & Hn & Ht & Hp & Hq & Hv & Hh & Hl & Hu & En & Ev). exists n, (p ++ v ++ q).
    assert (Forall (fun b => is_control b = false) v) as Hc by (eapply Forall_impl; [exact Hv|]; intros b; apply vchar_spec).
    assert (forall x, Forall Rfc.blank x -> Forall (fun b => is_control b = false) x /\ Forall (fun b => is_ascii_whitespace b = true) x) as Hb.
    { intros x Hx. rewrite <- Forall_and. eapply Forall_impl; [exact Hx|]. by intros b [->| ->]. }
    destruct (Hb p Hp) as [Cp Wp], (Hb q Hq) as [Cq Wq]. rewrite Forall_forall in Hc.
    assert (trim_bytes (p ++ v ++ q) = v) as Et.
    { apply trim_bytes_spec. exists p, q. split_and!; [done..| |]; intros b Hbv; apply not_true_iff_false; rewrite blank_spec; [by apply Hh| |by apply Hl|]; apply Hc;
        [destruct v; [done|]; injection Hbv as ->; by left|by apply last_Some_elem_of]. }
    rewrite Et. split_and!; [done|done|eapply Forall_impl; [exact Ht|]; intros b; apply tchar_spec|rewrite !Forall_app; split_and!; [done|by apply Forall_forall|done]|done..].
  - intros (n & v & -> & Hn & Ht & Hv & Hu & En & Ev). destruct (proj1 (trim_bytes_spec v (trim_bytes v)) eq_refl) as (p & q & E & Wp & Wq & Hh & Hl).
    exists n, p, (trim_bytes v), q. assert (Forall (fun b => is_control b = false) (p ++ trim_bytes v ++ q)) as Hc by (by rewrite <- E). rewrite !Forall_app in Hc. destruct Hc as (Cp & Cv & Cq).
    assert (forall x, Forall (fun b => is_control b = false) x -> Forall (fun b => is_ascii_whitespace b = true) x -> Forall Rfc.blank x) as Hb.
    { intros x H1 H2. apply (Forall_impl (fun b => is_control b = false /\ is_ascii_whitespace b = true)); [by apply Forall_and|]. intros b [? ?]. by apply blank_spec. }
    split_and!; [by rewrite <- E|done|eapply Forall_impl; [exact Ht|]; intros b; apply tchar_spec|by apply Hb|by apply Hb|eapply Forall_impl; [exact Cv|]; intros b; apply vchar_spec| | |done|done|done].
    + intros b Hb' Hbl. specialize (Hh b Hb'). by destruct Hbl as [->| ->].
    + intros b Hb' Hbl. specialize (Hl b Hb'). by destruct Hbl as [->| ->].
Qed.

(** *** The end of the body *)
Lemma rfc_values n hs : Rfc.values n hs = map value (named (lit n) hs).
Proof. done. Qed.

Lemma chunked_solid c : to_ascii_lowercase c = lit "chunked" -> c <> [] /\ Forall (fun b => solid b = true) c /\ (x2c ∉ c).
Proof.
  intros E. split; [by intros ->|]. assert (forall b, b ∈ c -> ascii_lower_byte b ∈ lit "chunked") as Hin.
  { intros b Hb. rewrite <- E. unfold to_ascii_lowercase. apply list_elem_of_In, in_map. by apply list_elem_of_In. }
  split; [apply Forall_forall; intros b Hb; apply Hin in Hb; apply (bool_decide_eq_true_2 _) in Hb; by destruct b|intros Hc%Hin; by apply (bool_decide_eq_true_2 _) in Hc].
Qed.

Lemma last_split v : exists before l, v = before ++ l /\ (before = [] \/ exists b, before = b ++ [x2c]) /\ (x2c ∉ l) /\ last (split_on ","%byte v) = Some l.
Proof.
  destruct (decide (x2c ∈ v)) as [Hin|Hn].
  - destruct (split_once ","%byte (reverse v)) as [[x y]|] eqn:Es; [|apply split_once_None in Es; by rewrite elem_of_reverse in Es].
    apply split_once_spec in Es as [E Hx]. apply (f_equal reverse) in E. rewrite reverse_involutive, reverse_app, reverse_cons, <- app_assoc in E. exists (reverse y ++ [x2c]), (reverse x).
    assert (x2c ∉ reverse x) as Hx' by (by rewrite elem_of_reverse). split_and!; [by rewrite <- app_assoc|right; by eexists|done|].
    rewrite E. cbn [app]. by rewrite split_on_cat, (split_on_single ","%byte (reverse x)), last_snoc by done.
  - exists [], v. split_and!; [done|by left|done|]. by rewrite split_on_single.
Qed.

Lemma final_coding_complete v : Rfc.ends_chunked v -> final_coding v = lit "chunked".
Proof.
  intros (c & p & q & Hp & Hq & Hc & Hv). destruct (chunked_solid c Hc) as (Hne & Hs & Hcm). unfold final_coding.
  assert (forall x, Forall Rfc.blank x -> Forall (fun b => ws1 b = true) x /\ (x2c ∉ x)) as Hb.
  { intros x Hx. split; [eapply Forall_impl; [exact Hx|]; by intros b [->| ->]|]. intros Hin. rewrite Forall_forall in Hx. by destruct (Hx _ Hin). }
  destruct (Hb p Hp) as [Wp Np], (Hb q Hq) as [Wq Nq]. assert (x2c ∉ p ++ c ++ q) as Hn by (by rewrite !elem_of_app; intros [?|[?|?]]).
  assert (last (split_on ","%byte v) = Some (p ++ c ++ q)) as ->.
  { destruct Hv as [->|(before & ->)]; [by rewrite split_on_single|]. rewrite split_on_cat, (split_on_single ","%byte (p ++ c ++ q)) by done. by rewrite last_snoc. }
  change (to_ascii_lowercase (trim (p ++ c ++ q)) = lit "chunked"). by rewrite trim_between.
Qed.

Lemma final_coding_sound v : Forall (fun b => is_control b = false) v -> is_ascii v = true -> final_coding v = lit "chunked" -> Rfc.ends_chunked v.
Proof.
  intros Hc Ha%forallb_true Hf. unfold final_coding in Hf. destruct (last_split v) as (before & l & -> & Hb & _ & El). rewrite El in Hf. change (to_ascii_lowercase (trim l) = lit "chunked") in Hf.
  apply Forall_app in Hc as [_ Hc], Ha as [_ Ha]. destruct (trim_ascii l Ha) as (p & q & E & Wp & Wq). rewrite E in Hc. rewrite !Forall_app in Hc. destruct Hc as (Cp & _ & Cq).
  assert (forall x, Forall (fun b => is_control b = false) x -> Forall (fun b => ws1 b = true) x -> Forall Rfc.blank x) as Hbl.
  { intros x H1 H2. apply (Forall_impl (fun b => is_control b = false /\ ws1 b = true)); [by apply Forall_and|]. unfold Rfc.blank. intros b [? ?]. destruct b; try done; by auto. }
  exists (trim l), p, q. split_and!; [by apply Hbl|by apply Hbl|done|]. destruct Hb as [->|[b ->]]; [left; by rewrite <- E|right; exists b; rewrite <- E; by rewrite <- app_assoc].
Qed.


Lemma named_app n hs : Rfc.values n hs = [] <-> named (lit n) hs = [].
Proof. rewrite rfc_values. split; [apply fmap_nil_inv|by intros ->]. Qed.

Lemma named_in n hs h : h ∈ named n hs -> h ∈ hs.
Proof. unfold named. intros H%list_elem_of_In. apply filter_In in H as [H _]. by apply list_elem_of_In. Qed.

(** The last transfer coding is ASCII text. *)
Definition ascii_codings (hs : list Header) : Prop := forall v, last (Rfc.values "transfer-encoding" hs) = Some v -> is_ascii v = true.

Lemma rfc_framed s hs f : Rfc.framed s hs f -> framed s hs f.
Proof.
  intros [Hb|pre v Hb Hl Ht Hv|Hb Hl Ht|v n Hb Hl Ht [Hv Hn]%numeral_dec Hle]; rewrite ?named_app in *.
  - by constructor.
  - rewrite rfc_values in Ht. change (lit "transfer-encoding") with transfer_encoding in Ht. remember (named transfer_encoding hs) as l eqn:E. symmetry in E. destruct l as [|h l _] using rev_ind; [by destruct pre|].
    rewrite map_app in Ht. cbn in Ht. apply app_inj_tail in Ht as [_ Ev]. apply (framed_chunked s hs l h); [done|done|done|]. rewrite Ev. by apply final_coding_complete.
  - by apply framed_close.
  - rewrite rfc_values in Hl. change (lit "content-length") with content_length in Hl. destruct (named content_length hs) as [|h [|]] eqn:E; try done. injection Hl as Ev. apply (framed_length s hs h n); (done || by rewrite Ev).
Qed.

Lemma framed_rfc s hs f : Forall (fun h => Forall (fun b => is_control b = false) (value h)) hs -> ascii_codings hs -> framed s hs f -> Rfc.framed s hs f.
Proof.
  intros Hc Ha [Hb|pre h Hb Hl Ht Hf|Hb Hl Ht|h n Hb Hl Ht Hv Hn Hle].
  - by constructor.
  - assert (Rfc.values "transfer-encoding" hs = map value pre ++ [value h]) as Ev by (rewrite rfc_values; change (lit "transfer-encoding") with transfer_encoding; by rewrite Ht, map_app).
    apply (Rfc.framed_chunked _ _ (map value pre) (value h)); [done|by apply named_app|done|]. apply final_coding_sound; [|apply Ha; by rewrite Ev, last_snoc|done].
    rewrite Forall_forall in Hc. apply Hc, (named_in transfer_encoding). rewrite Ht. apply elem_of_app. right. by left.
  - by apply Rfc.framed_close; [done|apply named_app..].
  - apply (Rfc.framed_length _ _ (value h) n); [done| |by apply named_app|by apply numeral_dec|done]. rewrite rfc_values. change (lit "content-length") with content_length. by rewrite Hl.
Qed.

Lemma rfc_fields raw hs : Rfc.fields raw hs <-> header_block raw hs.
Proof.
  split; (induction 1 as [raw Hr|raw l h raw' hs Hr Hl Hf _ IH]; [constructor; by apply rfc_line|]); (apply (block_field raw l) || apply (Rfc.fields_more raw l)); (done || by apply rfc_line || by apply rfc_field).
Qed.

(** C31: A head that begins with one of the grammar of RFC 9112 is accepted as that head and the
    bytes it took: a status line of a three-digit code, at most 128 fields of a token and a
    value without controls, an empty line, and one determined end of the body.  And a head
    is accepted only so, when its last transfer coding is ASCII text: the parser takes
    Unicode white space around it for blanks, which the grammar does not have. *)
Theorem head_exact bytes h n : slice_ok bytes ->
  ((exists raw rest, bytes = raw ++ rest /\ Rfc.response_head raw h /\ n = len raw) -> parse_response_head bytes = Ok (h, n)) /\
  (parse_response_head bytes = Ok (h, n) -> ascii_codings (headers h) -> exists raw rest, bytes = raw ++ rest /\ Rfc.response_head raw h /\ n = len raw).
Proof.
  intros Hok. rewrite (head_read bytes h n Hok). split.
  - intros (raw & rest & -> & (l & raw1 & raw2 & -> & H1%rfc_line & H2%rfc_status_line & H3%rfc_fields & H4 & H5%rfc_framed) & ->). exists (raw1 ++ raw2), rest. split_and!; [done| |done]. by exists l, raw1, raw2.
  - intros (raw & rest & -> & (l & raw1 & raw2 & -> & H1 & H2 & H3 & H4 & H5) & ->) Ha. exists (raw1 ++ raw2), rest. split_and!; [done| |done]. exists l, raw1, raw2.
    split_and!; [done|by apply rfc_line|by apply rfc_status_line|by apply rfc_fields|done|]. apply framed_rfc; [|done|done]. eapply Forall_impl; [by eapply header_block_clean|]. by intros x (_ & _ & Hx & _).
Qed.

(** *** Chunks *)
Lemma rfc_trailers raw : Rfc.trailers raw <-> trailer_section raw.
Proof. split; (induction 1 as [raw Hr|l raw raw' Hr Hl _ IH]; [constructor; by apply rfc_line|]); (apply (trailer_more l) || apply (Rfc.trailers_more l)); (done || by apply rfc_line). Qed.

Lemma head_split (ext : list byte) ds : (x3b ∉ ds) -> (ext = [] \/ head ext = Some x3b) -> default [] (head (split_on ";"%byte (ds ++ ext))) = ds.
Proof.
  intros Hd [->|He]; [by rewrite app_nil_r, split_on_single|]. destruct ext as [|b ext]; [done|]. injection He as ->. by rewrite split_on_app.
Qed.
Lemma split_ext l : exists ext, l = default [] (head (split_on ";"%byte l)) ++ ext /\ (ext = [] \/ head ext = Some x3b).
Proof.
  destruct (decide (x3b ∈ l)) as [Hin|Hn]; [|exists []; rewrite split_on_single by done; split; [by rewrite app_nil_r|by left]].
  destruct (split_once ";"%byte l) as [[x y]|] eqn:Es; [|by apply split_once_None in Es]. apply split_once_spec in Es as [-> Hx]. exists (x3b :: y). rewrite split_on_app by done. split; [done|by right].
Qed.

Lemma hex_solid l n : Rfc.numeral 16 Rfc.hex l n -> Forall (fun b => is_ascii_whitespace b = false /\ b <> x3b) l.
Proof.
  assert (forall b d, Rfc.hex b d -> is_ascii_whitespace b = false /\ b <> x3b) as H by (intros b d Hb%hex_spec; by destruct b).
  induction 1 as [b d Hb|l n b d _ IH Hb]; [constructor; [by eapply H|done]|]. apply Forall_app. split; [done|]. constructor; [by eapply H|done].
Qed.

Lemma size_line_read l n : Rfc.size_line l n -> chunk_size l n.
Proof.
  intros (ds & ext & -> & Hn & Hl & He). pose proof (hex_solid _ _ Hn) as Hs. rewrite Forall_forall in Hs. unfold chunk_size. cbv zeta.
  rewrite head_split; [|by intros ?%Hs; naive_solver|done]. assert (trim_bytes ds = ds) as ->.
  { apply trim_bytes_spec. exists [], []. split_and!; [by rewrite app_nil_r|constructor|constructor| |]; intros b Hb; apply Hs; [destruct ds; [done|]; injection Hb as ->; by left|by apply last_Some_elem_of]. }
  apply numeral_hex in Hn as [Hne Hn]. done.
Qed.

Lemma size_read_line l n : chunk_size l n -> Rfc.size_line l n \/ Rfc.spaced_size l.
Proof.
  unfold chunk_size. cbv zeta. intros (Hne & Hl & Hn). destruct (split_ext l) as (ext & E & He). set (f := default [] _) in *.
  destruct (proj1 (trim_bytes_spec f (trim_bytes f)) eq_refl) as (p & q & Ef & Wp & Wq & _). assert (Rfc.numeral 16 Rfc.hex (trim_bytes f) n) as Hnum by by apply numeral_hex.
  assert (forall x, Forall (fun b => is_ascii_whitespace b = true) x -> Forall Rfc.white x) as Hw by (intros x Hx; eapply Forall_impl; [exact Hx|]; intros b; apply white_spec).
  destruct (decide (p ++ q = [])) as [Hpq|Hpq].
  - apply app_nil in Hpq as [-> ->]. left. exists (trim_bytes f), ext. split_and!; [|done..]. rewrite app_nil_r in Ef. cbn [app] in Ef. by rewrite <- Ef.
  - right. exists p, (trim_bytes f), n, q, ext. split_and!; [by rewrite E, Ef at 1; rewrite <- !app_assoc|done|by apply Hw|by apply Hw|done|done].
Qed.

Lemma terminator term : raw_line 2 [] term <-> term = [x0a] \/ term = [x0d; x0a].
Proof. rewrite <- rfc_line. unfold Rfc.line. split; [intros [_ [(-> & _)|(-> & _)]]; by auto|]. intros [->| ->]; (split; [apply not_elem_of_nil|]); [left|right]; by vm_compute. Qed.

Lemma chunks_read raw body : Rfc.chunks raw body -> chunked raw body.
Proof.
  induction 1 as [l raw raw' H1 H2 H3|l raw data term raw' body H1 H2 H3 H4 _ IH]; [apply (chunked_end l)|apply (chunked_more l)]; first [done|by apply rfc_line|by apply size_line_read|by apply rfc_trailers|by apply terminator].
Qed.

Lemma read_chunks raw body : chunked raw body -> Rfc.chunks raw body \/ forall rest, Rfc.spaced (raw ++ rest).
Proof.
  induction 1 as [l raw raw' H1%rfc_line H2%size_read_line H3%rfc_trailers|l raw data term raw' body H1%rfc_line H2%size_read_line H3 H4%terminator _ IH].
  - destruct H2 as [H2|H2]; [left; by apply (Rfc.chunks_end l)|]. right. intros rest. rewrite <- app_assoc. by apply (Rfc.spaced_here l).
  - destruct H2 as [H2|H2]; [|right; intros rest; rewrite <- app_assoc; by apply (Rfc.spaced_here l)]. destruct IH as [IH|IH]; [left; by apply (Rfc.chunks_more l)|].
    right. intros rest. rewrite <- !app_assoc. by apply (Rfc.spaced_later l); [..|lia| |].
Qed.

(** C32: A chunked body that begins the bytes, at most 32 MiB in chunks of at most 8, is
    decoded to the data of its chunks in order and the bytes they took, trailers
    included.  And bytes are decoded only so, unless there is white space around the size
    of a chunk, which the parser takes off although the grammar has none there. *)
Theorem chunked_exact bytes body n : slice_ok bytes ->
  ((exists raw rest, bytes = raw ++ rest /\ Rfc.chunks raw body /\ len body <= 32 * 1024 * 1024 /\ n = len raw) -> decode_chunked bytes = Ok (body, n)) /\
  (decode_chunked bytes = Ok (body, n) -> ~ Rfc.spaced bytes -> exists raw rest, bytes = raw ++ rest /\ Rfc.chunks raw body /\ len body <= 32 * 1024 * 1024 /\ n = len raw).
Proof.
  intros Hok. rewrite (chunked_read bytes body n Hok). split.
  - intros (raw & rest & -> & H%chunks_read & Hl & ->). by exists raw, rest.
  - intros (raw & rest & -> & H%read_chunks & Hl & ->) Hs. exists raw, rest. destruct H as [H|H]; [done|]. by destruct (Hs (H rest)).
Qed.

(** ** On concrete responses *)
Module Http1Uses.
Definition crlf : list byte := [x0d; x0a].
Definition ok_head : list byte :=
  lit "HTTP/1.1 200 OK" ++ crlf ++ lit "Content-Type: text/html" ++ crlf ++ lit "Transfer-Encoding: gzip, Chunked" ++ crlf ++ crlf.
Definition ok_body : list byte :=
  lit "5;x=1" ++ crlf ++ lit "hello" ++ crlf ++ lit "0" ++ crlf ++ lit "Trailer: t" ++ crlf ++ crlf.

Definition ok_parsed : ResponseHead :=
  mkHead 200 [mkHeader (lit "content-type") (lit "text/html"); mkHeader (lit "transfer-encoding") (lit "gzip, Chunked")] Chunked.

Lemma ok_slices : slice_ok (ok_head ++ ok_body) /\ slice_ok ok_body.
Proof. split; by vm_compute. Qed.

Lemma head_exact_witness :
  exists raw rest, ok_head ++ ok_body = raw ++ rest /\ Rfc.response_head raw ok_parsed /\ len ok_head = len raw.
Proof.
  apply (head_exact _ ok_parsed (len ok_head) (proj1 ok_slices)); [vm_compute; reflexivity|]. intros v Hv. vm_compute in Hv. injection Hv as <-. vm_compute. reflexivity.
Defined.

Definition tight_body : list byte := lit "0" ++ crlf ++ crlf.
Lemma chunked_exact_witness : decode_chunked (tight_body ++ lit "GET") = Ok ([], len tight_body).
Proof.
  apply (chunked_exact (tight_body ++ lit "GET") [] (len tight_body) ltac:(by vm_compute)). exists tight_body, (lit "GET"). split_and!; [done| |by vm_compute|done].
  apply (Rfc.chunks_end (lit "0") (lit "0" ++ crlf) crlf).
  - split; [apply (bool_decide_unpack _); by vm_compute|]. right. split; [done|by vm_compute].
  - exists (lit "0"), []. split_and!; [done| |apply Nat.leb_le; by vm_compute|by left]. constructor. exists 0%nat. split; [by left|done].
  - constructor. split; [apply not_elem_of_nil|]. right. split; [done|by vm_compute].
Defined.

Lemma answers_are_final_witness : decode_chunked (ok_body ++ lit "junk") = Ok (lit "hello", len ok_body).
Proof.
  rewrite (proj2 (answers_are_final ok_body (lit "junk"))); [vm_compute; reflexivity|]. vm_compute. discriminate.
Defined.

Lemma accepted_head_is_clean_witness : Forall clean (headers ok_parsed).
Proof.
  apply (accepted_head_is_clean (ok_head ++ ok_body) ok_parsed (len ok_head) (proj1 ok_slices)). vm_compute. reflexivity.
Defined.

(** Both framings, and neither is preferred. *)
Example both_refused :
  parse_response_head (lit "HTTP/1.1 200 OK" ++ crlf ++ lit "Content-Length: 5" ++ crlf ++
    lit "Transfer-Encoding: chunked" ++ crlf ++ crlf) = Err (AmbiguousFraming LengthAndTransferEncoding).
Proof. by vm_compute. Qed.

(** The final coding is compared after a trim of Unicode white space. *)
Lemma unicode_space_is_chunked :
  framing ∘ fst <$> ok (parse_response_head (lit "HTTP/1.1 200 OK" ++ crlf ++ lit "Transfer-Encoding: chunked" ++ [xc2; xa0] ++ crlf ++ crlf))
    = Some Chunked /\
  determine_framing 200 [mkHeader transfer_encoding (lit "chunked" ++ [xc2; xa0])] = Ok Chunked.
Proof. split; by vm_compute. Qed.

(** White space around the size of a chunk is taken off. *)
Lemma spaced_chunk_size_accepted :
  decode_chunked (lit " 5 " ++ crlf ++ lit "hello" ++ crlf ++ [x0c; "0"%byte] ++ crlf ++ crlf) = Ok (lit "hello", 18).
Proof. by vm_compute. Qed.
End Http1Uses.
