(* ===== verification/Redirect.v ===== *)
(** * Redirects (px-net/src/redirect.rs)

    Where a Location leads, and whether a chain of redirects goes on. *)
From S2P Require Import Keys Prelude Bytes Text Chars Partition Hsts.
Local Open Scope Z_scope.

Module Redirect.
Definition MAX_HOPS : nat := 10.

Inductive RefusedRedirect :=
| Downgrade
| Unresolvable (why : string)
| PreloadedHostOverPlaintext
| TooManyHops
| Loop
| NotPartitionable.

Record Hop := mkHop { key : PartitionKey.t; path : list byte }.

(** The steps taken, as an origin in its written form and a path. *)
Record Chain := mkChain { visited : list (list byte * list byte) }.

Definition new : Chain := mkChain [].
Definition hops (c : Chain) : nat := length (visited c).

Definition AT : byte := "@"%byte.
Definition SLASH : byte := "/"%byte.

Definition is_alphabetic (b : byte) : bool := in_range 65 90 b || in_range 97 122 b.

Definition is_scheme_byte (b : byte) : bool :=
  is_alphabetic b || is_digit b || bool_decide (b ∈ lit "+-.").

Definition split_scheme (location : list byte) : option (list byte * list byte) :=
  '(scheme, rest) ← split_once COLON location;
  match scheme with
  | [] => None
  | a :: bytes =>
      if negb (is_alphabetic a) then None
      else if negb (forallb is_scheme_byte bytes) then None
      else Some (to_ascii_lowercase scheme, rest)
  end.

(** Everything before the first slash, and the rest with it. *)
Fixpoint split_path (rest : list byte) : list byte * list byte :=
  match rest with
  | [] => ([], [])
  | b :: l => if bool_decide (b = SLASH) then ([], rest) else let '(x, y) := split_path l in (b :: x, y)
  end.

(** [rfind(':')]: what is before the last colon and after it. *)
Definition rsplit_colon (l : list byte) : option (list byte * list byte) :=
  '(y, x) ← split_once COLON (reverse l); Some (reverse x, reverse y).

Definition resolve_absolute (scheme rest : list byte) : result RefusedRedirect (Origin.t * list byte) :=
  let '(authority, path) := split_path rest in
  let path := if bool_decide (path = []) then [SLASH] else path in
  if bool_decide (AT ∈ authority) then Err (Unresolvable "userinfo in the authority")
  else
    '(host, port) ←
      match rsplit_colon authority with
      | Some (host, port_text) =>
          port ← ok_or (parse_uint 10 U16_MAX port_text) (Unresolvable "port is not a number"); Ok (host, port)
      | None =>
          port ← (if bool_decide (scheme = lit "https") then Ok 443
                  else if bool_decide (scheme = lit "http") then Ok 80
                  else Err (Unresolvable "scheme is not http(s)"));
          Ok (authority, port)
      end;
    origin ← ok_or (Origin.new scheme host port) (Unresolvable "not an origin this crate fetches");
    Ok (origin, path).

Definition is_control (b : byte) : bool := (b2z b <? 32) || bool_decide (b = x7f).

Definition resolve (from : Origin.t) (location : list byte) : result RefusedRedirect (Origin.t * list byte) :=
  let location := trim location in
  if bool_decide (location = []) then Err (Unresolvable "empty")
  else if existsb is_control location then Err (Unresolvable "control character")
  else
    match strip_prefix (lit "//") location with
    | Some rest => resolve_absolute (Origin.scheme from) rest
    | None =>
        match split_scheme location with
        | Some (scheme, rest) =>
            rest ← ok_or (strip_prefix (lit "//") rest) (Unresolvable "authority missing");
            resolve_absolute scheme rest
        | None =>
            match strip_prefix [SLASH] location with
            | Some path => Ok (from, SLASH :: path)
            | None => Ok (from, SLASH :: location)
            end
        end
    end.

(** [Display for Origin]. *)
Definition to_string (o : Origin.t) : list byte :=
  Origin.scheme o ++ lit "://" ++ Origin.host o ++ COLON :: decimal (Origin.port o).

Definition decide_hop (c : Chain) (psl : Psl.PublicSuffixList) (preload : option Hsts.PreloadList)
    (top_level_host : list byte) (from : Origin.t) (location : list byte)
  : result RefusedRedirect ((list byte * list byte) * Hop) :=
  if (MAX_HOPS <=? length (visited c))%nat then Err TooManyHops
  else
    '(origin, path) ← resolve from location;
    if Origin.is_secure from && negb (Origin.is_secure origin) then Err Downgrade
    else if match preload with
            | Some list => negb (Origin.is_secure origin) && Hsts.requires_https list (Origin.host origin)
            | None => false
            end
    then Err PreloadedHostOverPlaintext
    else
      let step := (to_string origin, path) in
      if bool_decide (step ∈ visited c) then Err Loop
      else
        key ← ok_or (PartitionKey.new psl top_level_host origin) NotPartitionable;
        Ok (step, mkHop key path).

Definition follow (c : Chain) (psl : Psl.PublicSuffixList) (preload : option Hsts.PreloadList)
    (top_level_host : list byte) (from : Origin.t) (location : list byte) : Chain * result RefusedRedirect Hop :=
  match decide_hop c psl preload top_level_host from location with
  | Ok (step, hop) => (mkChain (visited c ++ [step]), Ok hop)
  | Err e => (c, Err e)
  end.

(** ** Resolving *)
Lemma existsb_false_iff (f : byte -> bool) l : existsb f l = false <-> forall b, b ∈ l -> f b = false.
Proof. by rewrite existsb_false, Forall_forall. Qed.

Lemma split_path_app rest x y : split_path rest = (x, y) -> rest = x ++ y /\ (y = [] \/ exists z, y = SLASH :: z).
Proof.
  revert x y. induction rest as [|b l IH]; intros x y; cbn [split_path]; [intros [= <- <-]; auto|].
  case_bool_decide as Hb; [intros [= <- <-]; subst b; eauto|].
  destruct (split_path l) as [x' y'] eqn:E. intros [= <- <-]. destruct (IH x' y' eq_refl) as [-> Hy]. auto.
Qed.

(** A target has an origin like every other, and an absolute path. *)
Definition good_target (o : Origin.t) (p : list byte) : Prop :=
  origin_ok o /\ exists q, p = SLASH :: q /\ forall b, b ∈ q -> is_control b = false.

Lemma resolve_absolute_Ok scheme rest o p :
  (forall b, b ∈ rest -> is_control b = false) -> resolve_absolute scheme rest = Ok (o, p) -> good_target o p.
Proof.
  intros Hrest. unfold resolve_absolute. destruct (split_path rest) as [authority path] eqn:E. apply split_path_app in E as [-> Hp].
  cbv zeta. destruct (bool_decide (AT ∈ _)); [done|].
  intros ([host port] & Hport & (o' & Ho%ok_or_Ok & [= <- <-])%bind_Ok)%bind_Ok. split.
  - eapply origin_new_ok; [|exact Ho]. destruct (rsplit_colon authority) as [[h t]|].
    + apply bind_Ok in Hport as (n & Hn%ok_or_Ok & [= <- <-]). by apply parse_uint_range in Hn.
    + apply bind_Ok in Hport as (n & Hn & [= <- <-]). destruct (bool_decide _); [by injection Hn as <-|].
      destruct (bool_decide _); [by injection Hn as <-|done].
  - destruct Hp as [->|[z ->]].
    + rewrite bool_decide_eq_true_2 by done. exists []. split; [done|]. by intros b ?%elem_of_nil.
    + rewrite bool_decide_eq_false_2 by done. exists z. split; [done|]. intros b Hb. apply Hrest, elem_of_app. right. by right.
Qed.

Lemma resolve_Ok from location o p :
  origin_ok from -> resolve from location = Ok (o, p) -> good_target o p.
Proof.
  intros Hfrom. unfold resolve. cbv zeta. set (l := trim location). case_bool_decide as He; [done|].
  destruct (existsb is_control l) eqn:Hc; [done|]. rewrite existsb_false_iff in Hc.
  destruct (strip_prefix (lit "//") l) as [rest|] eqn:E1.
  { apply strip_prefix_Some in E1. apply resolve_absolute_Ok. intros b Hb. apply Hc. rewrite E1. apply elem_of_app. by right. }
  destruct (split_scheme l) as [[scheme rest]|] eqn:E2.
  { intros (rest' & Hr%ok_or_Ok & H)%bind_Ok. apply strip_prefix_Some in Hr as ->.
    unfold split_scheme in E2. apply bind_Some in E2 as ([s r] & Es%split_once_spec & E2).
    destruct Es as [Es _]. destruct s as [|a s]; [done|]. destruct (negb _); [done|]. destruct (negb _); [done|].
    assert (r = lit "//" ++ rest') as -> by congruence. revert H. apply resolve_absolute_Ok. intros b Hb. apply Hc.
    rewrite Es. apply elem_of_app. right. right. apply elem_of_app. by right. }
  destruct (strip_prefix [SLASH] l) as [q|] eqn:E3; intros [= <- <-]; (split; [done|]); eexists; (split; [done|]).
  - apply strip_prefix_Some in E3. intros b Hb. apply Hc. rewrite E3. by right.
  - exact Hc.
Qed.

(** ** One step *)
Definition step_of (h : Hop) : list byte * list byte := (to_string (PartitionKey.origin (key h)), path h).

(** A hop the rules allow, for the page at [top] and the redirect from [from]. *)
Record allowed (psl : Psl.PublicSuffixList) (preload : option Hsts.PreloadList) (top : list byte) (from : Origin.t)
    (h : Hop) : Prop := {
  al_target : good_target (PartitionKey.origin (key h)) (path h);
  al_site : Psl.registrable_domain psl top = Some (PartitionKey.top_level_site (key h));
  al_secure : Origin.is_secure from = true -> Origin.is_secure (PartitionKey.origin (key h)) = true;
  al_preload : forall list, preload = Some list -> Origin.is_secure (PartitionKey.origin (key h)) = false ->
    Hsts.requires_https list (Origin.host (PartitionKey.origin (key h))) = false
}.

Lemma follow_inv c psl preload top from location c' r :
  origin_ok from -> follow c psl preload top from location = (c', r) ->
  match r with
  | Ok h => allowed psl preload top from h /\ visited c' = visited c ++ [step_of h] /\ (step_of h ∉ visited c) /\
      (hops c' <= MAX_HOPS)%nat
  | Err _ => c' = c
  end.
Proof.
  intros Hfrom. unfold follow. destruct (decide_hop _ _ _ _ _ _) as [[step h]|e] eqn:E; intros [= <- <-]; [|done].
  unfold decide_hop in E. destruct (MAX_HOPS <=? length (visited c))%nat eqn:Hmax; [done|]. apply Nat.leb_gt in Hmax.
  apply bind_Ok in E as ([o p] & Hr%resolve_Ok & E); [|done]. destruct (Origin.is_secure from && negb (Origin.is_secure o)) eqn:Hd; [done|].
  destruct (match preload with Some list => _ | None => false end) eqn:Hp; [done|]. cbv zeta in E. case_bool_decide as Hv; [done|].
  apply bind_Ok in E as (k & Hk%ok_or_Ok & [= <- <-]). unfold PartitionKey.new in Hk.
  apply bind_Some in Hk as (site & Hsite & [= <-]). split_and!; [|done|done|].
  - split; simpl; [done|done| |].
    + intros Hs. by rewrite Hs, andb_true_l, negb_false_iff in Hd.
    + intros list -> Hs. by rewrite Hs in Hp.
  - unfold hops. simpl. rewrite length_app. simpl. lia.
Qed.

(** ** A chain *)
Section chain.
Context (psl : Psl.PublicSuffixList) (preload : option Hsts.PreloadList) (top : list byte).

(** The hops taken for the Locations that come, each judged from the origin the
    last one led to, until one is refused. *)
Fixpoint walk (c : Chain) (from : Origin.t) (locations : list (list byte)) : list Hop :=
  match locations with
  | [] => []
  | location :: locations =>
      match follow c psl preload top from location with
      | (c, Ok h) => h :: walk c (PartitionKey.origin (key h)) locations
      | (_, Err _) => []
      end
  end.

(** Every hop is allowed after the one before. *)
Fixpoint allowed_from (from : Origin.t) (hs : list Hop) : Prop :=
  match hs with
  | [] => True
  | h :: hs => allowed psl preload top from h /\ allowed_from (PartitionKey.origin (key h)) hs
  end.

Lemma walk_ok c from locations :
  origin_ok from -> NoDup (visited c) ->
  let hs := walk c from locations in
  allowed_from from hs /\ NoDup (visited c ++ map step_of hs) /\ (hops c <= MAX_HOPS -> hops c + length hs <= MAX_HOPS)%nat.
Proof.
  cbv zeta. revert c from. induction locations as [|location locations IH]; intros c from Hfrom Hnd; cbn [walk].
  { split_and!; [done|by rewrite app_nil_r|simpl; lia]. }
  destruct (follow c psl preload top from location) as [c' [h|e]] eqn:E.
  - apply follow_inv in E as (Ha & Hv & Hn & Hh); [|done]. destruct (IH c' (PartitionKey.origin (key h))) as (I1 & I2 & I3).
    + apply (al_target _ _ _ _ _ Ha).
    + rewrite Hv. apply NoDup_app. split_and!; [done| |apply NoDup_singleton].
      intros x Hx ->%list_elem_of_singleton. done.
    + split_and!; [done|by rewrite Hv, <- app_assoc in I2|]. intros _. specialize (I3 Hh). unfold hops in *.
      rewrite Hv, length_app in I3. simpl in *. lia.
  - split_and!; [done|by rewrite app_nil_r|simpl; lia].
Qed.

Lemma allowed_from_site from hs :
  allowed_from from hs -> Forall (fun h => Psl.registrable_domain psl top = Some (PartitionKey.top_level_site (key h))) hs.
Proof. revert from. induction hs as [|h hs IH]; intros from; [done|]. intros [Ha Hs]. constructor; [apply Ha|by eapply IH]. Qed.

Lemma allowed_from_secure from hs :
  allowed_from from hs -> Origin.is_secure from = true -> Forall (fun h => Origin.is_secure (PartitionKey.origin (key h)) = true) hs.
Proof.
  revert from. induction hs as [|h hs IH]; intros from; [done|]. intros [Ha Hs] Hf. pose proof (al_secure _ _ _ _ _ Ha Hf).
  constructor; [done|by eapply IH].
Qed.

(** C34: whatever Locations a server sends, a chain takes at most ten hops and
    never the same step twice; every hop is keyed under the site of the page, is to
    an origin the rules allow after the last one, and once the chain is secure it
    stays secure. *)
Theorem chain_is_safe from locations :
  origin_ok from ->
  let hs := walk new from locations in
  (length hs <= MAX_HOPS)%nat /\ NoDup (map step_of hs) /\ allowed_from from hs /\
  Forall (fun h => Psl.registrable_domain psl top = Some (PartitionKey.top_level_site (key h))) hs /\
  (forall pre h suf, hs = pre ++ h :: suf -> Origin.is_secure (PartitionKey.origin (key h)) = true ->
     Forall (fun h => Origin.is_secure (PartitionKey.origin (key h)) = true) suf).
Proof.
  intros Hfrom hs. destruct (walk_ok new from locations Hfrom (NoDup_nil_2)) as (H1 & H2 & H3). fold hs in H1, H2, H3.
  split_and!; [apply H3; unfold hops; simpl; lia|done|done|by eapply allowed_from_site|].
  intros pre h suf E Hs. rewrite E in H1. clear - H1 Hs. revert from H1.
  induction pre as [|h' pre IH]; intros from; cbn [app allowed_from]; intros [Ha Hp].
  - by eapply allowed_from_secure.
  - by eapply IH.
Qed.
End chain.

(** ** A Location that spells an origin out *)
(** A printable character other than a space. *)
Definition printable (b : byte) : bool := solid b && negb (is_control b).

Lemma printable_all l : forallb printable l = true -> Forall (fun b => printable b = true) l.
Proof. induction l as [|b l IH]; [by constructor|]. simpl. intros [Hb Hl]%andb_true_iff. constructor; auto. Qed.

Lemma printable_controls l : Forall (fun b => printable b = true) l -> existsb is_control l = false.
Proof.
  intros Hl. apply existsb_false_iff. intros b Hb. apply (proj1 (Forall_forall _ _) Hl) in Hb.
  unfold printable in Hb. apply andb_true_iff in Hb as [_ Hb]. by apply negb_true_iff.
Qed.

Lemma printable_trim l : Forall (fun b => printable b = true) l -> trim l = l.
Proof.
  intros Hl. apply trim_id, trimmed_solid. eapply Forall_impl; [exact Hl|]. intros b. unfold printable. by intros [? _]%andb_true_iff.
Qed.

Lemma decimal_printable z : Forall (fun b => printable b = true) (decimal z).
Proof. eapply Forall_impl; [apply decimal_digits|]. intros b Hb. by destruct b. Qed.

Lemma split_path_spec x z : (SLASH ∉ x) -> split_path (x ++ SLASH :: z) = (x, SLASH :: z).
Proof.
  induction x as [|b x IH]; intros Hx; [done|]. apply not_elem_of_cons in Hx as [Hb Hx]. cbn [app split_path].
  rewrite bool_decide_eq_false_2 by congruence. by rewrite IH.
Qed.

Lemma rsplit_colon_spec x y : (COLON ∉ y) -> rsplit_colon (x ++ COLON :: y) = Some (x, y).
Proof.
  intros Hy. unfold rsplit_colon. rewrite reverse_app, reverse_cons, <- app_assoc.
  rewrite (proj2 (split_once_spec COLON _ (reverse y) (reverse x))).
  - simpl. by rewrite !reverse_involutive.
  - split; [done|]. by rewrite elem_of_reverse.
Qed.

Lemma digits_absent c z : is_digit c = false -> c ∉ decimal z.
Proof. intros Hc Hin. pose proof (proj1 (decimal_digits z)) as Hd. apply (proj1 (Forall_forall _ _) Hd) in Hin. congruence. Qed.

Lemma resolve_absolute_spelled scheme host port p o :
  0 <= port <= U16_MAX -> Origin.new scheme host port = Some o -> (SLASH ∉ host) -> (AT ∉ host) ->
  resolve_absolute scheme (host ++ COLON :: decimal port ++ SLASH :: p) = Ok (o, SLASH :: p).
Proof.
  intros Hport Ho Hs Ha. unfold resolve_absolute.
  assert (host ++ COLON :: decimal port ++ SLASH :: p = (host ++ COLON :: decimal port) ++ SLASH :: p) as ->
    by (by rewrite <- app_assoc).
  rewrite split_path_spec.
  - cbv zeta. rewrite (bool_decide_eq_false_2 (_ :: _ = [])) by done. rewrite bool_decide_eq_false_2.
    + rewrite rsplit_colon_spec by (by apply digits_absent). rewrite parse_decimal_uint by (done || lia).
      cbn [ok_or mbind result_bind]. rewrite Ho. done.
    + rewrite elem_of_app, elem_of_cons. intros [?|[?|Hd]]; [done|done|]. by apply (digits_absent AT) in Hd.
  - rewrite elem_of_app, elem_of_cons. intros [?|[?|Hd]]; [done|done|]. by apply (digits_absent SLASH) in Hd.
Qed.

(** the written form of an origin this crate fetches, followed by an absolute
    path of printable characters, resolves to that origin and that path, wherever
    the redirect comes from. *)
Theorem spelled_out_roundtrip from o p :
  0 <= Origin.port o <= U16_MAX -> Origin.new (Origin.scheme o) (Origin.host o) (Origin.port o) = Some o ->
  Forall (fun b => printable b = true) (Origin.host o) -> (SLASH ∉ Origin.host o) -> (AT ∉ Origin.host o) ->
  Forall (fun b => printable b = true) p ->
  resolve from (to_string o ++ SLASH :: p) = Ok (o, SLASH :: p).
Proof.
  intros Hport Ho Hh Hs Ha Hp. destruct (origin_new_ok _ _ _ _ Hport Ho) as (Hscheme & _). unfold to_string.
  set (rest := Origin.host o ++ COLON :: decimal (Origin.port o) ++ SLASH :: p).
  assert ((Origin.scheme o ++ lit "://" ++ Origin.host o ++ COLON :: decimal (Origin.port o)) ++ SLASH :: p =
    Origin.scheme o ++ COLON :: lit "//" ++ rest) as ->.
  { unfold rest. rewrite <- !app_assoc. done. }
  assert (Forall (fun b => printable b = true) (Origin.scheme o ++ COLON :: lit "//" ++ rest)) as Hall.
  { unfold rest. rewrite Forall_app, Forall_cons, !Forall_app, Forall_cons, Forall_app, Forall_cons.
    split_and!; try done; [by destruct Hscheme as [-> | ->]; apply printable_all|by apply printable_all|apply decimal_printable]. }
  unfold resolve. cbv zeta. rewrite printable_trim by done. rewrite printable_controls by done.
  rewrite bool_decide_eq_false_2 by (by destruct (Origin.scheme o)).
  assert (forall sch, sch = lit "https" \/ sch = lit "http" ->
    strip_prefix (lit "//") (sch ++ COLON :: lit "//" ++ rest) = None /\
    split_scheme (sch ++ COLON :: lit "//" ++ rest) = Some (sch, lit "//" ++ rest)) as Hsplit.
  { intros sch Hsch. split; [by destruct Hsch as [-> | ->]|]. unfold split_scheme.
    rewrite (proj2 (split_once_spec COLON _ sch (lit "//" ++ rest))); [by destruct Hsch as [-> | ->]|].
    split; [done|]. destruct Hsch as [-> | ->]; apply (bool_decide_unpack _); vm_compute; exact I. }
  destruct (Hsplit _ Hscheme) as [-> ->]. rewrite (proj2 (strip_prefix_Some (lit "//") _ rest)) by done.
  cbn [ok_or mbind result_bind]. by apply resolve_absolute_spelled.
Qed.
End Redirect.

(** ** On concrete redirects *)
Module RedirectUses.
Import Redirect.

Definition secure (host : string) : Origin.t := {| Origin.scheme := lit "https"; Origin.host := lit host; Origin.port := 443 |}.
Definition shop : Origin.t := secure "shop.com".
Definition com : Psl.PublicSuffixList := {| Psl.rules := [(lit "com", Psl.Normal)] |}.

Lemma shop_ok : origin_ok shop.
Proof. split_and!; [by left|done|done|by vm_compute|by vm_compute]. Qed.

Definition locations : list (list byte) := map lit ["/a"; "http://shop.com/"; "//cdn.shop.com"; "b"; "/b"]%string.

(** The plaintext target ends the chain. *)
Example two_hops : length (walk com None (lit "www.shop.com") new shop (map lit ["/a"; "//cdn.shop.com"; "http://shop.com/"; "/b"]%string)) = 2%nat.
Proof. by vm_compute. Qed.

Lemma chain_is_safe_witness : (length (walk com None (lit "www.shop.com") new shop locations) <= MAX_HOPS)%nat.
Proof. exact (proj1 (chain_is_safe com None (lit "www.shop.com") shop locations shop_ok)). Defined.

Lemma spelled_out_roundtrip_witness :
  resolve (secure "other.com") (lit "https://shop.com:443/a?b=c") = Ok (shop, lit "/a?b=c").
Proof.
  apply (spelled_out_roundtrip (secure "other.com") shop (lit "a?b=c")).
  - by vm_compute.
  - vm_compute. reflexivity.
  - apply printable_all. vm_compute. reflexivity.
  - apply (bool_decide_unpack _). vm_compute. exact I.
  - apply (bool_decide_unpack _). vm_compute. exact I.
  - apply printable_all. vm_compute. reflexivity.
Defined.

(** A query with no path before it becomes part of the host. *)
Lemma query_becomes_host :
  resolve shop (lit "https://login.com?next=/x") = Ok (secure "login.com?next=", lit "/x").
Proof. by vm_compute. Qed.

(** The preload list is asked about that host, and does not know it. *)
Lemma query_hides_preloaded_host :
  Hsts.requires_https {| Hsts.hosts := {[ lit "login.com" := true ]} |} (lit "login.com?a=1") = false.
Proof. by vm_compute. Qed.

(** The address the chain starts from is not among those it has been to. *)
Lemma redirect_to_itself_is_followed :
  is_ok (snd (follow new com None (lit "www.shop.com") shop (lit "https://shop.com:443/start"))) = true.
Proof. by vm_compute. Qed.

(** A sign before the port is read as part of the number. *)
Lemma signed_port : resolve shop (lit "https://login.com:+8443/") =
  Ok ({| Origin.scheme := lit "https"; Origin.host := lit "login.com"; Origin.port := 8443 |}, [SLASH]).
Proof. by vm_compute. Qed.
End RedirectUses.
