(* ===== verification/WebUrl.v ===== *)
(** * Absolute URLs (px-websec/src/origin/url.rs)

    The URL type of the policy modules: parsing, hosts and addresses, and the
    written form. *)
From S2P Require Import Prelude Bytes Text Chars.
Local Open Scope Z_scope.

Definition MAX_URL_BYTES : Z := 8192.

(** The bytes of an address, and the pieces of one, as lists of four and eight. *)
Inductive Host :=
| Domain (d : list byte)
| Ipv4 (a : list Z)
| Ipv6 (p : list Z)
| Opaque (d : list byte)
| EmptyHost.

#[export] Instance Host_eq_dec : EqDecision Host.
Proof. solve_decision. Defined.

Definition SLASH : byte := "/"%byte.
Definition BACKSLASH : byte := x5c.
Definition AT : byte := "@"%byte.
Definition HASH : byte := "#"%byte.
Definition QUESTION : byte := "?"%byte.

(** [{v:x}] of a [u16]. *)
Fixpoint hex_loop (fuel : nat) (z : Z) (acc : list byte) : list byte :=
  let acc := hex_digit (z mod 16) :: acc in
  match fuel with
  | S fuel => if z <? 16 then acc else hex_loop fuel (z / 16) acc
  | O => acc
  end.
Definition hex16 (z : Z) : list byte := hex_loop 3 z [].

(** ** The written form of an address *)
Fixpoint leading_zeros (p : list Z) : nat :=
  match p with z :: p => if z =? 0 then S (leading_zeros p) else O | [] => O end.

(** The search for the longest run of zeros, from index [i]. *)
Fixpoint best_run (fuel : nat) (p : list Z) (i : nat) (best : option (nat * nat)) : option (nat * nat) :=
  match fuel with
  | O => best
  | S fuel =>
      if (8 <=? i)%nat then best
      else match leading_zeros (drop i p) with
           | O => best_run fuel p (S i) best
           | n =>
               let longer := match best with Some (_, bl) => (bl <? n)%nat | None => true end in
               best_run fuel p (i + n) (if (2 <=? n)%nat && longer then Some (i, n) else best)
           end
  end.

Definition starts_at (best : option (nat * nat)) (i : nat) : bool :=
  match best with Some (s, _) => (s =? i)%nat | None => false end.

(** The output loop, from index [i]. *)
Fixpoint write_pieces (fuel : nat) (p : list Z) (best : option (nat * nat)) (i : nat) : list byte :=
  match fuel with
  | O => []
  | S fuel =>
      if (8 <=? i)%nat then []
      else match best with
           | Some (s, l) =>
               if (s =? i)%nat then lit "::" ++ write_pieces fuel p best (i + l)
               else default [] (hex16 <$> p !! i) ++
                    (if (S i <? 8)%nat && negb (s =? S i)%nat then [COLON] else []) ++ write_pieces fuel p best (S i)
           | None =>
               default [] (hex16 <$> p !! i) ++ (if (S i <? 8)%nat then [COLON] else []) ++ write_pieces fuel p best (S i)
           end
  end.

Definition serialize_ipv6 (p : list Z) : list byte := write_pieces 9 p (best_run 9 p 0 None) 0.

Definition serialize_host (h : Host) : list byte :=
  match h with
  | Domain d | Opaque d => d
  | Ipv4 a => join_with DOT (map decimal a)
  | Ipv6 p => "["%byte :: serialize_ipv6 p ++ ["]"%byte]
  | EmptyHost => []
  end.

(** ** Hosts *)
Definition forbidden_host_cp (c : byte) : bool :=
  (b2z c <=? 32) || bool_decide (c = x7f) || bool_decide (c ∈ lit "#/:<>?@[\]^|").

(** [None] also for what is not ASCII afterwards. *)
Fixpoint percent_decode (l : list byte) : list byte :=
  match l with
  | [] => []
  | c :: t =>
      match t with
      | h :: l' :: t' =>
          match (if bool_decide (c = "%"%byte) then h ← Ip.digit 16 h; l' ← Ip.digit 16 l'; Some (h, l') else None) with
          | Some (h, l') => z2b (h * 16 + l') :: percent_decode t'
          | None => c :: percent_decode t
          end
      | _ => c :: percent_decode t
      end
  end.

Definition percent_decode_ascii (l : list byte) : option (list byte) :=
  let out := percent_decode l in if is_ascii out then Some out else None.

Definition parse_ipv4_number (s : list byte) : option Z :=
  match s with
  | [] => None
  | a :: t =>
      let '(digits, radix) :=
        match strip_prefix (lit "0x") s with
        | Some r => (r, 16)
        | None => match strip_prefix (lit "0X") s with
                  | Some r => (r, 16)
                  | None => if bool_decide (t <> []) && bool_decide (a = "0"%byte) then (t, 8) else (s, 10)
                  end
        end in
      if bool_decide (digits = []) then Some 0 else radix_value radix U64_MAX 0 digits
  end.

Definition is_hexdigit (b : byte) : bool := is_digit b || in_range 97 102 b || in_range 65 70 b.

(** The parts between dots, without an empty last one. *)
Definition dotted (s : list byte) : list (list byte) :=
  let parts := split_on DOT s in
  if bool_decide (last parts = Some []) && (1 <? length parts)%nat then take (length parts - 1) parts else parts.

Definition ends_in_number (s : list byte) : bool :=
  let parts := split_on DOT s in
  if bool_decide (parts = [[]]) then false
  else match last (dotted s) with
       | None => false
       | Some l =>
           (negb (bool_decide (l = [])) && forallb is_digit l) ||
           ((has_prefix (lit "0x") l || has_prefix (lit "0X") l) && forallb is_hexdigit (drop 2 l))
       end.

(** The sum of the parts before the last, each in its own byte; [i] counts them. *)
Fixpoint ipv4_sum (ip : Z) (i : Z) (init : list Z) : Z :=
  match init with
  | [] => ip
  | n :: init => ipv4_sum (ip + Z.shiftl n (8 * (3 - i))) (i + 1) init
  end.

Definition parse_ipv4 (s : list byte) : option (list Z) :=
  let parts := dotted s in
  if (4 <? length parts)%nat then None
  else
    nums ← mapM parse_ipv4_number parts;
    l ← last nums;
    let init := take (length nums - 1) nums in
    if existsb (fun n => 255 <? n) init then None
    else if 256 ^ (5 - len nums) <=? l then None
    else
      let ip := ipv4_sum l 0 init in
      Some [Z.shiftr ip 24 mod 256; Z.shiftr ip 16 mod 256; Z.shiftr ip 8 mod 256; ip mod 256].

Definition parse_octet (o : list byte) : option Z :=
  if bool_decide (o = []) || (3 <? length o)%nat || ((1 <? length o)%nat && bool_decide (head o = Some "0"%byte)) ||
     negb (forallb is_digit o)
  then None else parse_uint 10 255 o.

(** The items of [groups]: whether this is the last is whether none follows. *)
Fixpoint parse_groups (allow_v4_tail : bool) (items : list (list byte)) : option (list Z) :=
  match items with
  | [] => Some []
  | g :: rest =>
      vs ←
        (if allow_v4_tail && bool_decide (rest = []) && bool_decide (DOT ∈ g) then
           let oct := split_on DOT g in
           if negb (length oct =? 4)%nat then None
           else v ← mapM parse_octet oct;
                Some [default 0 (v !! 0%nat) * 256 + default 0 (v !! 1%nat); default 0 (v !! 2%nat) * 256 + default 0 (v !! 3%nat)]
         else if bool_decide (g = []) || (4 <? length g)%nat || negb (forallb is_hexdigit g) then None
         else v ← parse_uint 16 U16_MAX g; Some [v]);
      more ← parse_groups allow_v4_tail rest;
      Some (vs ++ more)
  end.

Definition groups (part : list byte) (allow_v4_tail : bool) : option (list Z) :=
  if bool_decide (part = []) then Some [] else parse_groups allow_v4_tail (split_on COLON part).

(** [split_once] on a string. *)
Fixpoint split_once_str (p l : list byte) : option (list byte * list byte) :=
  match strip_prefix p l with
  | Some r => Some ([], r)
  | None => match l with [] => None | b :: l => '(x, y) ← split_once_str p l; Some (b :: x, y) end
  end.

Definition parse_ipv6 (s : list byte) : option (list Z) :=
  if 45 <? len s then None
  else match split_once_str (lit "::") s with
       | None => g ← groups s true; if negb (length g =? 8)%nat then None else Some g
       | Some (h, t) =>
           if contains (lit "::") t then None
           else
             h ← groups h false;
             t ← groups t true;
             if (7 <? length h + length t)%nat then None
             else Some (h ++ replicate (8 - length h - length t) 0 ++ t)
       end.

Definition parse_host (input : list byte) (special : bool) : option Host :=
  match strip_prefix (lit "[") input with
  | Some inner => inner ← strip_suffix (lit "]") inner; Ipv6 <$> parse_ipv6 inner
  | None =>
      if negb special then
        if bool_decide (input = []) || existsb (fun c => forbidden_host_cp c || negb (is_ascii_byte c)) input then None
        else Some (Opaque input)
      else
        decoded ← percent_decode_ascii input;
        let lower := to_ascii_lowercase decoded in
        if bool_decide (lower = []) || existsb (fun c => forbidden_host_cp c || bool_decide (c = "%"%byte)) lower then None
        else if ends_in_number lower then Ipv4 <$> parse_ipv4 lower
        else Some (Domain lower)
  end.

(** ** URLs *)
Definition default_port (scheme : list byte) : option Z :=
  if bool_decide (scheme = lit "http") || bool_decide (scheme = lit "ws") then Some 80
  else if bool_decide (scheme = lit "https") || bool_decide (scheme = lit "wss") then Some 443
  else if bool_decide (scheme = lit "ftp") then Some 21
  else None.

Definition is_special_scheme (scheme : list byte) : bool :=
  bool_decide (scheme ∈ map lit ["http"; "https"; "ws"; "wss"; "ftp"; "file"]%string).

Module Url.
Record t := mkUrl {
  scheme : list byte;
  username : list byte;
  password : list byte;
  host : option Host;
  port : option Z;
  path : list byte;
  query : option (list byte);
  fragment : option (list byte)
}.

#[global] Instance eq_dec : EqDecision t.
Proof. solve_decision. Defined.

Definition is_alphabetic (b : byte) : bool := in_range 65 90 b || in_range 97 122 b.
Definition is_scheme_byte (b : byte) : bool := is_alphabetic b || is_digit b || bool_decide (b ∈ lit "+-.").

Definition split_scheme (s : list byte) : option (list byte * list byte) :=
  '(scheme, rest) ← split_once COLON s;
  match scheme with
  | [] => None
  | a :: t => if negb (is_alphabetic a) || negb (forallb is_scheme_byte t) then None
              else Some (to_ascii_lowercase scheme, rest)
  end.

Definition is_slash (special : bool) (c : byte) : bool :=
  bool_decide (c = SLASH) || (special && bool_decide (c = BACKSLASH)).

(** What is before the first byte [f] holds of, and the rest. *)
Fixpoint break_at (f : byte -> bool) (l : list byte) : list byte * list byte :=
  match l with
  | [] => ([], [])
  | b :: t => if f b then ([], l) else let '(x, y) := break_at f t in (b :: x, y)
  end.

Fixpoint drop_while (f : byte -> bool) (l : list byte) : list byte :=
  match l with b :: t => if f b then drop_while f t else l | [] => [] end.

(** [rfind] of a byte: what is before its last occurrence, and after. *)
Definition rsplit_once (c : byte) (l : list byte) : option (list byte * list byte) :=
  '(y, x) ← split_once c (reverse l); Some (reverse x, reverse y).

(** The fields an authority sets: user name, password, host and port. *)
Definition parse_authority (auth : list byte) (special : bool)
  : option (list byte * list byte * Host * option Z) :=
  let '(userinfo, hostport) := default ([], auth) (rsplit_once AT auth) in
  let '(username, password) := default (userinfo, []) (split_once COLON userinfo) in
  '(host_s, port_s) ←
    (if has_prefix (lit "[") hostport then
       '(h, rest) ← split_once "]"%byte hostport;
       match strip_prefix [COLON] rest with
       | Some p => Some (h ++ lit "]", Some p)
       | None => if bool_decide (rest = []) then Some (h ++ lit "]", None) else None
       end
     else match rsplit_once COLON hostport with
          | Some (h, p) => Some (h, Some p)
          | None => Some (hostport, None)
          end);
  if bool_decide (host_s = []) then
    if special || negb (bool_decide (userinfo = [])) || bool_decide (is_Some port_s) then None
    else Some (username, password, EmptyHost, None)
  else
    host ← parse_host host_s special;
    match port_s with
    | Some (a :: t) =>
        let p := a :: t in
        if negb (forallb is_digit p) || (5 <? length p)%nat then None
        else port ← parse_uint 10 U16_MAX p; Some (username, password, host, Some port)
    | _ => Some (username, password, host, None)
    end.

Definition is_blank (c : byte) : bool := b2z c <=? 32.
Definition is_tab_or_newline (c : byte) : bool := bool_decide (c = x09) || bool_decide (c = x0a) || bool_decide (c = x0d).

(** [str::trim_matches]. *)
Definition trim_matches (f : byte -> bool) (l : list byte) : list byte := reverse (drop_while f (reverse (drop_while f l))).

Definition clean (input : list byte) : list byte :=
  List.filter (fun c => negb (is_tab_or_newline c)) (trim_matches is_blank input).

(** The authority and what comes after it. *)
Definition parse_after_scheme (scheme rest : list byte)
  : option (list byte * list byte * option Host * option Z * list byte) :=
  let special := is_special_scheme scheme in
  if bool_decide (scheme = lit "file") then
    match rest with
    | a :: b :: body =>
        if is_slash special a && is_slash special b then
          let '(auth, tail) := break_at (is_slash special) body in
          h ← (if bool_decide (auth = []) then Some EmptyHost
               else h ← parse_host auth true;
                    Some (if bool_decide (h = Domain (lit "localhost")) then EmptyHost else h));
          Some ([], [], Some h, None, tail)
        else Some ([], [], Some EmptyHost, None, rest)
    | _ => Some ([], [], Some EmptyHost, None, rest)
    end
  else if special then
    let '(auth, tail) := break_at (is_slash special) (drop_while (is_slash special) rest) in
    '(u, p, h, port) ← parse_authority auth true;
    Some (u, p, Some h, port, tail)
  else match strip_prefix (lit "//") rest with
       | Some body =>
           let '(auth, tail) := break_at (is_slash false) body in
           '(u, p, h, port) ← parse_authority auth false;
           Some (u, p, Some h, port, tail)
       | None => Some ([], [], None, None, rest)
       end.

Definition parse (input : list byte) : option t :=
  if MAX_URL_BYTES <? len input then None
  else
    '(scheme, rest) ← split_scheme (clean input);
    let '(rest, fragment) := match split_once HASH rest with Some (a, f) => (a, Some f) | None => (rest, None) end in
    let '(rest, query) := match split_once QUESTION rest with Some (a, q) => (a, Some q) | None => (rest, None) end in
    let special := is_special_scheme scheme in
    '(u, p, h, port, after_auth) ← parse_after_scheme scheme rest;
    let path :=
      if special then
        let p := map (fun c => if bool_decide (c = BACKSLASH) then SLASH else c) after_auth in
        if bool_decide (p = []) then [SLASH] else p
      else after_auth in
    let port :=
      match port, default_port scheme with
      | Some x, Some d => if x =? d then None else port
      | _, _ => port
      end in
    Some (mkUrl scheme u p h port path query fragment).

Definition effective_port (u : t) : option Z :=
  match port u with Some p => Some p | None => default_port (scheme u) end.
Definition is_special (u : t) : bool := is_special_scheme (scheme u).
Definition has_credentials (u : t) : bool :=
  negb (bool_decide (username u = [])) || negb (bool_decide (password u = [])).
Definition strip_credentials (u : t) : t :=
  mkUrl (scheme u) [] [] (host u) (port u) (path u) (query u) (fragment u).
Definition strip_fragment (u : t) : t :=
  mkUrl (scheme u) (username u) (password u) (host u) (port u) (path u) (query u) None.
Definition upgraded_to_https (u : t) : option t :=
  if negb (bool_decide (scheme u = lit "http")) then None
  else
    let port := if bool_decide (port u = Some 80) then None else port u in
    let port := if bool_decide (port = Some 443) then None else port in
    Some (mkUrl (lit "https") (username u) (password u) (host u) port (path u) (query u) (fragment u)).
Definition set_origin_only (u : t) : t :=
  mkUrl (scheme u) (username u) (password u) (host u) (port u) [SLASH] None (fragment u).

Definition serialize (u : t) (exclude_fragment : bool) : list byte :=
  (scheme u ++ [COLON]) ++
  match host u with
  | Some h =>
      lit "//" ++
      (if has_credentials u then
         username u ++ (if negb (bool_decide (password u = [])) then COLON :: password u else []) ++ [AT]
       else []) ++
      serialize_host h ++
      match port u with Some p => COLON :: decimal p | None => [] end
  | None => []
  end ++
  path u ++
  match query u with Some q => QUESTION :: q | None => [] end ++
  (if exclude_fragment then [] else match fragment u with Some f => HASH :: f | None => [] end).
End Url.

Example url_examples :
  map (fun s => (fun u => Url.serialize u false) <$> Url.parse (lit s))
    ["HTTP://User:pw@EX%41mple.COM:80"; "https://127.1:8443/a\b?q#f"; "http://[1:0:0:2::5.6.7.8]/"; "file:x"; "mailto:a@b";
     "a://h:/p"; "http://"; " ws://x/y z	 "]%string
  = [Some (lit "http://User:pw@example.com/"); Some (lit "https://127.0.0.1:8443/a/b?q#f"); Some (lit "http://[1::2:0:0:506:708]/");
     Some (lit "file://x"); Some (lit "mailto:a@b"); Some (lit "a://h/p"); None; Some (lit "ws://x/y z")].
Proof. by vm_compute. Qed.
