(* ===== verification/WebHost.v ===== *)
(** * Hosts read back (px-websec/src/origin/url.rs)

    The written form of a host that was parsed is parsed to the same host. *)
From S2P Require Import Prelude Bytes Text Chars WebUrl.
Local Open Scope Z_scope.

(** ** Percent decoding *)
Lemma percent_decode_id l : ("%"%byte ∉ l) -> percent_decode l = l.
Proof.
  induction l as [l IH] using (induction_ltof1 _ (@length byte)). unfold ltof in IH. intros Hl.
  destruct l as [|c t]; [done|]. apply not_elem_of_cons in Hl as [Hc Ht].
  assert (percent_decode t = t) as Et by (apply IH; [simpl; lia|done]). cbn [percent_decode].
  destruct t as [|h [|l' t']]; [done|by rewrite Et|]. rewrite bool_decide_eq_false_2 by congruence. by rewrite Et.
Qed.

Lemma decode_id l : ("%"%byte ∉ l) -> is_ascii l = true -> percent_decode_ascii l = Some l.
Proof. intros Hl Ha. unfold percent_decode_ascii. rewrite percent_decode_id by done. cbv zeta. by rewrite Ha. Qed.

Lemma lower_lower l : to_ascii_lowercase (to_ascii_lowercase l) = to_ascii_lowercase l.
Proof. unfold to_ascii_lowercase. rewrite map_map. apply map_ext. intros b. by destruct b. Qed.

Lemma lower_id l : Forall (fun b => in_range 65 90 b = false) l -> to_ascii_lowercase l = l.
Proof.
  induction 1 as [|b l Hb Hl IH]; [done|]. change (to_ascii_lowercase (b :: l)) with (ascii_lower_byte b :: to_ascii_lowercase l).
  rewrite IH. f_equal. unfold ascii_lower_byte. by rewrite Hb.
Qed.

(** ** IPv4 *)
Definition bytes4 (a : list Z) : Prop := length a = 4%nat /\ Forall (fun n => 0 <= n < 256) a.

Lemma parse_ipv4_shape s a : parse_ipv4 s = Some a -> bytes4 a.
Proof.
  unfold parse_ipv4. cbv zeta. destruct (4 <? _)%nat; [done|]. intros (nums & _ & (l & _ & H)%bind_Some)%bind_Some.
  destruct (existsb _ _); [done|]. destruct (_ <=? l); [done|]. injection H as <-. split; [done|].
  repeat constructor; apply Z.mod_pos_bound; lia.
Qed.

Lemma number_byte n : 0 <= n < 256 -> parse_ipv4_number (decimal n) = Some n.
Proof.
  intros Hn. assert (forallb (fun n => bool_decide (parse_ipv4_number (decimal n) = Some n)) (seqZ 0 256) = true) as H
    by (vm_compute; reflexivity).
  rewrite forallb_true, Forall_forall in H. specialize (H n). rewrite bool_decide_eq_true in H. apply H.
  apply elem_of_seqZ. lia.
Qed.

Definition plain_byte (b : byte) : bool := is_digit b || bool_decide (b = DOT).

Lemma join_Forall (P : byte -> Prop) c xs :
  P c -> Forall (fun x => Forall P x) xs -> Forall P (join_with c xs).
Proof.
  intros Hc. induction 1 as [|x xs Hx Hxs IH]; [constructor|]. destruct xs as [|y xs]; [done|].
  change (join_with c (x :: y :: xs)) with (x ++ c :: join_with c (y :: xs)). apply Forall_app. split; [done|by constructor].
Qed.

Lemma plain_byte_ok b : plain_byte b = true ->
  b <> "%"%byte /\ is_ascii_byte b = true /\ in_range 65 90 b = false /\ forbidden_host_cp b = false /\ b <> "["%byte.
Proof. intros H. destruct b; try (by vm_compute in H); by split_and!. Qed.

Lemma plain_bytes_ok l : Forall (fun b => plain_byte b = true) l -> l <> [] ->
  strip_prefix (lit "[") l = None /\ percent_decode_ascii l = Some l /\ to_ascii_lowercase l = l /\
  existsb (fun c => forbidden_host_cp c || bool_decide (c = "%"%byte)) l = false.
Proof.
  intros Hl Hne. assert (Forall (fun b => b <> "%"%byte /\ is_ascii_byte b = true /\ in_range 65 90 b = false /\
    forbidden_host_cp b = false /\ b <> "["%byte) l) as H by (eapply Forall_impl; [exact Hl|apply plain_byte_ok]).
  assert ("%"%byte ∉ l) as Hp by (intros Hin; by apply (proj1 (Forall_forall _ _) H) in Hin as [? _]).
  split_and!.
  - destruct H as [|b l (_ & _ & _ & _ & Hb) _]; [done|]. cbn. by rewrite bool_decide_eq_false_2.
  - apply decode_id; [done|]. apply forallb_true. eapply Forall_impl; [exact H|]. simpl. tauto.
  - apply lower_id. eapply Forall_impl; [exact H|]. simpl. tauto.
  - apply existsb_false. eapply Forall_impl; [exact H|]. simpl. intros b (Hb & _ & _ & -> & _). by rewrite bool_decide_eq_false_2.
Qed.

Lemma ipv4_text a : bytes4 a ->
  Forall (fun b => plain_byte b = true) (join_with DOT (map decimal a)) /\ split_on DOT (join_with DOT (map decimal a)) = map decimal a.
Proof.
  intros [Hl _]. split.
  - apply join_Forall; [done|]. apply Forall_map, Forall_forall. intros z _. eapply Forall_impl; [apply decimal_digits|].
    intros b Hb. unfold plain_byte. by rewrite Hb.
  - apply split_join; [by destruct a|]. apply Forall_map, Forall_forall. intros z _ Hd.
    by apply (proj1 (Forall_forall _ _) (proj1 (decimal_digits z))) in Hd.
Qed.

Lemma ipv4_bytes a b c d :
  0 <= a < 256 -> 0 <= b < 256 -> 0 <= c < 256 -> 0 <= d < 256 ->
  let ip := ipv4_sum d 0 [a; b; c] in
  [Z.shiftr ip 24 mod 256; Z.shiftr ip 16 mod 256; Z.shiftr ip 8 mod 256; ip mod 256] = [a; b; c; d].
Proof.
  intros Ha Hb Hc Hd. cbn [ipv4_sum]. cbv zeta. rewrite !Z.shiftr_div_pow2, !Z.shiftl_mul_pow2 by lia.
  change (2 ^ (8 * (3 - 0))) with 16777216. change (2 ^ (8 * (3 - (0 + 1)))) with 65536.
  change (2 ^ (8 * (3 - (0 + 1 + 1)))) with 256. change (2 ^ 24) with 16777216. change (2 ^ 16) with 65536. change (2 ^ 8) with 256.
  assert ((d + a * 16777216 + b * 65536 + c * 256) / 16777216 = a) as E1 by (symmetry; apply (Z.div_unique _ _ a (d + b * 65536 + c * 256)); lia).
  assert ((d + a * 16777216 + b * 65536 + c * 256) / 65536 = a * 256 + b) as E2 by (symmetry; apply (Z.div_unique _ _ _ (d + c * 256)); lia).
  assert ((d + a * 16777216 + b * 65536 + c * 256) / 256 = a * 65536 + b * 256 + c) as E3 by (symmetry; apply (Z.div_unique _ _ _ d); lia).
  rewrite E1, E2, E3. repeat f_equal; symmetry.
  - apply (Z.mod_unique _ _ 0); lia.
  - apply (Z.mod_unique _ _ a); lia.
  - apply (Z.mod_unique _ _ (a * 256 + b)); lia.
  - apply (Z.mod_unique _ _ (a * 65536 + b * 256 + c)); lia.
Qed.

Lemma ipv4_roundtrip a : bytes4 a -> parse_host (serialize_host (Ipv4 a)) true = Some (Ipv4 a).
Proof.
  intros Ha. destruct (ipv4_text a Ha) as [Hp Hs]. destruct Ha as [Hl Hr]. simpl. set (s := join_with DOT (map decimal a)) in *.
  destruct a as [|a [|b [|c [|d []]]]]; try done. repeat apply Forall_cons in Hr as [? Hr].
  assert (s <> []) as Hne by (unfold s; intros E; by apply (join_nonempty DOT _ (decimal a)) in E; [|left|apply decimal_digits]).
  destruct (plain_bytes_ok s Hp Hne) as (E1 & E2 & E3 & E4). unfold parse_host. rewrite E1. cbn [negb]. rewrite E2.
  cbn [mbind option_bind]. cbv zeta. rewrite E3, E4, bool_decide_eq_false_2 by done. cbn [orb].
  assert (dotted s = map decimal [a; b; c; d]) as Ed.
  { unfold dotted. rewrite Hs. cbv zeta. rewrite bool_decide_eq_false_2; [done|]. simpl. intros [= E]. by apply decimal_digits in E. }
  assert (ends_in_number s = true) as ->.
  { unfold ends_in_number. cbv zeta. rewrite Hs, Ed. rewrite bool_decide_eq_false_2 by done. simpl last. cbv iota.
    rewrite bool_decide_eq_false_2 by apply decimal_digits. rewrite (proj2 (forallb_true _ _)); [done|apply decimal_digits]. }
  unfold parse_ipv4. cbv zeta. rewrite Ed. cbn [map length Nat.ltb Nat.leb mapM]. rewrite !number_byte by done.
  cbn [mbind option_bind mret option_ret last length Nat.sub take existsb].
  rewrite !(proj2 (Z.ltb_ge 255 _)) by lia. cbn [orb]. change (256 ^ (5 - len [a; b; c; d])) with 256.
  rewrite (proj2 (Z.leb_gt _ _)) by lia. cbn [fmap option_fmap option_map]. f_equal. f_equal. by apply ipv4_bytes.
Qed.

(** ** IPv6: the pieces *)
Definition pieces8 (p : list Z) : Prop := length p = 8%nat /\ Forall (fun v => 0 <= v <= U16_MAX) p.

Lemma parse_octet_range o v : parse_octet o = Some v -> 0 <= v <= 255.
Proof. unfold parse_octet. destruct (_ || _); [done|]. apply parse_uint_range; lia. Qed.

Lemma default_lookup_range (v : list Z) i : Forall (fun n => 0 <= n <= 255) v -> 0 <= default 0 (v !! i) <= 255.
Proof.
  intros Hv. destruct (v !! i) as [x|] eqn:E; simpl; [|lia]. by apply (proj1 (Forall_lookup _ _) Hv i).
Qed.

Lemma parse_groups_range tail items vs : parse_groups tail items = Some vs -> Forall (fun v => 0 <= v <= U16_MAX) vs.
Proof.
  revert vs. induction items as [|g rest IH]; intros vs; cbn [parse_groups]; [by intros [= <-]|].
  intros (v & Hv & (more & Hm & [= <-])%bind_Some)%bind_Some. apply Forall_app. split; [|by apply IH].
  destruct (tail && _ && _).
  - cbv zeta in Hv. destruct (negb _); [done|]. apply bind_Some in Hv as (o & Ho & [= <-]).
    apply mapM_Some_1 in Ho. assert (Forall (fun n => 0 <= n <= 255) o) as Hr.
    { apply Forall_forall. intros n Hn. eapply (Forall2_Forall_r _ (fun n => 0 <= n <= 255)) in Ho.
      - by apply (proj1 (Forall_forall _ _) Ho).
      - apply Forall_forall. intros x _ y. apply parse_octet_range. }
    pose proof (default_lookup_range o 0 Hr). pose proof (default_lookup_range o 1 Hr).
    pose proof (default_lookup_range o 2 Hr). pose proof (default_lookup_range o 3 Hr).
    repeat constructor; unfold U16_MAX; lia.
  - destruct (_ || _); [done|]. apply bind_Some in Hv as (n & Hn & [= <-]). apply parse_uint_range in Hn; [|lia|done]. constructor; [exact Hn|constructor].
Qed.

Lemma parse_ipv6_shape s p : parse_ipv6 s = Some p -> pieces8 p.
Proof.
  unfold parse_ipv6. destruct (_ <? _); [done|].
  assert (forall g b vs, groups g b = Some vs -> Forall (fun v => 0 <= v <= U16_MAX) vs) as Hg.
  { intros g b vs. unfold groups. destruct (bool_decide _); [by intros [= <-]|apply parse_groups_range]. }
  destruct (split_once_str _ s) as [[h t]|].
  - destruct (contains _ t); [done|]. intros (hs & Hh & (ts & Ht & H)%bind_Some)%bind_Some.
    destruct (7 <? length hs + length ts)%nat eqn:E; [done|]. injection H as <-. apply Nat.ltb_ge in E. split.
    + rewrite !length_app, length_replicate. lia.
    + apply Forall_app. split; [by eapply Hg|]. apply Forall_app. split; [|by eapply Hg].
      apply Forall_replicate. by split.
  - intros (g & Hs & H)%bind_Some. destruct (length g =? 8)%nat eqn:E; [|done]. injection H as <-.
    split; [by apply Nat.eqb_eq|by eapply Hg].
Qed.

(** One piece in text, without leading zeros. *)
Lemma hex16_fixed z : 0 <= z <= U16_MAX -> exists w, (0 < w <= 4)%nat /\ hex16 z = hex_fixed w z /\ z < 16 ^ Z.of_nat w.
Proof.
  intros Hz. unfold U16_MAX in Hz. unfold hex16. assert (forall k acc z', 0 <= z' < 16 ^ Z.of_nat (S k) ->
    exists w, (0 < w <= S k)%nat /\ hex_loop k z' acc = hex_fixed w z' ++ acc /\ z' < 16 ^ Z.of_nat w) as H.
  { induction k as [|k IH]; intros acc z' Hz'; cbn [hex_loop].
    - exists 1%nat. split_and!; [lia..| |simpl in *; lia]. cbn [hex_fixed]. by rewrite <- app_assoc.
    - destruct (z' <? 16) eqn:E; [apply Z.ltb_lt in E|apply Z.ltb_ge in E].
      + exists 1%nat. split_and!; [lia..| |simpl; lia]. cbn [hex_fixed]. by rewrite <- app_assoc.
      + rewrite Nat2Z.inj_succ, Z.pow_succ_r in Hz' by lia.
        destruct (IH (hex_digit (z' mod 16) :: acc) (z' / 16)) as (w & Hw & -> & Hb).
        { split; [apply Z.div_pos; lia|apply Z.div_lt_upper_bound; lia]. }
        exists (S w). split_and!; [lia..| |].
        * cbn [hex_fixed]. by rewrite <- app_assoc.
        * rewrite Nat2Z.inj_succ, Z.pow_succ_r by lia. pose proof (Z.div_mod z' 16). pose proof (Z.mod_pos_bound z' 16). lia. }
  destruct (H 3%nat [] z) as (w & Hw & -> & Hb); [simpl; lia|]. exists w. by rewrite app_nil_r.
Qed.

Lemma length_hex_fixed w z : length (hex_fixed w z) = w.
Proof. revert z. induction w as [|w IH]; intros z; [done|]. cbn [hex_fixed]. rewrite length_app, IH. simpl. lia. Qed.

(** A piece as [parse_groups] takes it. *)
Definition piece_text (g : list byte) (v : Z) : Prop :=
  g <> [] /\ (length g <= 4)%nat /\ forallb is_hexdigit g = true /\ (COLON ∉ g) /\ (DOT ∉ g) /\ parse_uint 16 U16_MAX g = Some v.

Lemma hex16_text z : 0 <= z <= U16_MAX -> piece_text (hex16 z) z.
Proof.
  intros Hz. destruct (hex16_fixed z Hz) as (w & Hw & -> & Hb).
  pose proof (hex_fixed_chars w z ltac:(lia)) as Hc. unfold piece_text. rewrite length_hex_fixed. split_and!.
  - intros E%(f_equal length). rewrite length_hex_fixed in E. simpl in E. lia.
  - lia.
  - apply forallb_true. eapply Forall_impl; [exact Hc|]. intros b. unfold is_hex, is_hexdigit. by intros ->.
  - intros H. by apply (proj1 (Forall_forall _ _) Hc) in H.
  - intros H. by apply (proj1 (Forall_forall _ _) Hc) in H.
  - apply parse_hex_fixed; lia.
Qed.

Lemma parse_groups_text tail gs vs : Forall2 piece_text gs vs -> parse_groups tail gs = Some vs.
Proof.
  induction 1 as [|g v gs vs Hg Hgs IH]; [done|]. destruct Hg as (H1 & H2 & H3 & _ & H5 & H6). cbn [parse_groups].
  rewrite (bool_decide_eq_false_2 (DOT ∈ g)), andb_false_r by done. rewrite (bool_decide_eq_false_2 (g = [])) by done.
  rewrite H3, H6, (proj2 (Nat.ltb_ge _ _)) by lia. cbn [orb negb mbind option_bind]. by rewrite IH.
Qed.

Lemma groups_text tail gs vs : Forall2 piece_text gs vs -> groups (join_with COLON gs) tail = Some vs.
Proof.
  intros H. unfold groups. destruct H as [|g v gs vs Hg Hgs]; [done|]. rewrite bool_decide_eq_false_2.
  - rewrite split_join; [apply parse_groups_text; by constructor|done|]. constructor; [apply Hg|].
    clear Hg. induction Hgs as [|g' v' gs vs Hg' _ IH]; constructor; [apply Hg'|done].
  - apply (join_nonempty COLON _ g); [by left|apply Hg].
Qed.

(** ** IPv6: the double colon *)
Definition seg (g : list byte) : Prop := g <> [] /\ (COLON ∉ g).

Definition DOUBLE : list byte := lit "::".

(** Two colons in a row are found where the segments end. *)
Lemma split_double_skip g r : (COLON ∉ g) -> split_once_str DOUBLE (g ++ r) = ('(x, y) ← split_once_str DOUBLE r; Some (g ++ x, y)).
Proof.
  induction g as [|b g IH]; intros Hg; simpl.
  - destruct (split_once_str DOUBLE r) as [[x y]|]; done.
  - apply not_elem_of_cons in Hg as [Hb Hg]. rewrite bool_decide_eq_false_2 by (intros ->; by apply Hb). rewrite IH by done.
    destruct (split_once_str DOUBLE r) as [[x y]|]; done.
Qed.

Lemma split_double_colon g r : seg g -> split_once_str DOUBLE (COLON :: g ++ r) = ('(x, y) ← split_once_str DOUBLE (g ++ r); Some (COLON :: x, y)).
Proof.
  intros [Hne Hg]. destruct g as [|b g]; [done|]. apply not_elem_of_cons in Hg as [Hb _].
  cbn [split_once_str app DOUBLE]. change (strip_prefix DOUBLE (COLON :: b :: g ++ r)) with (if bool_decide (b = COLON) then strip_prefix [] (g ++ r) else None).
  by rewrite bool_decide_eq_false_2 by (intros ->; by apply Hb).
Qed.

Lemma split_double_join gs r :
  Forall seg gs -> split_once_str DOUBLE (join_with COLON gs ++ r) =
    match gs with [] => split_once_str DOUBLE r | _ => '(x, y) ← split_once_str DOUBLE r; Some (join_with COLON gs ++ x, y) end.
Proof.
  intros Hgs. induction Hgs as [|g gs Hg Hgs IH]; [done|]. destruct gs as [|g' gs].
  - apply split_double_skip, Hg.
  - change (join_with COLON (g :: g' :: gs)) with (g ++ COLON :: join_with COLON (g' :: gs)).
    rewrite <- app_assoc, split_double_skip by apply Hg. cbn [app].
    assert (exists t, join_with COLON (g' :: gs) ++ r = g' ++ t) as [t Et].
    { destruct gs as [|g2 gs]; [by eexists|]. eexists.
      change (join_with COLON (g' :: g2 :: gs)) with (g' ++ COLON :: join_with COLON (g2 :: gs)). by rewrite <- app_assoc. }
    rewrite Et, split_double_colon by (by apply Forall_inv in Hgs). rewrite <- Et, IH.
    destruct (split_once_str DOUBLE r) as [[x y]|]; [|done]. cbn [mbind option_bind]. by rewrite <- app_assoc.
Qed.

Lemma split_double_none gs : Forall seg gs -> split_once_str DOUBLE (join_with COLON gs) = None.
Proof. intros H. pose proof (split_double_join gs [] H) as E. rewrite app_nil_r in E. by destruct gs. Qed.

Lemma split_double_some gs r : Forall seg gs -> split_once_str DOUBLE (join_with COLON gs ++ DOUBLE ++ r) = Some (join_with COLON gs, r).
Proof.
  intros H. rewrite split_double_join by done. assert (split_once_str DOUBLE (DOUBLE ++ r) = Some ([], r)) as -> by (by destruct r).
  destruct gs; [done|]. cbn [mbind option_bind]. by rewrite app_nil_r.
Qed.

Lemma contains_split p l : contains p l = bool_decide (is_Some (split_once_str p l)).
Proof.
  induction l as [|b l IH]; cbn [contains split_once_str]; unfold has_prefix.
  - rewrite orb_false_r. destruct (strip_prefix p []); reflexivity.
  - rewrite IH. destruct (strip_prefix p (b :: l)) as [r|]; [reflexivity|].
    destruct (split_once_str p l) as [[x y]|]; reflexivity.
Qed.

(** ** IPv6: the written form *)
Definition texts (p : list Z) : list (list byte) := map hex16 p.

Lemma texts_seg p : Forall (fun v => 0 <= v <= U16_MAX) p -> Forall2 piece_text (texts p) p /\ Forall seg (texts p).
Proof.
  intros Hp. unfold texts. split.
  - induction Hp as [|v p Hv Hp IH]; constructor; [by apply hex16_text|done].
  - apply Forall_map. eapply Forall_impl; [exact Hp|]. intros v (H1 & _ & _ & H2 & _)%hex16_text. by split.
Qed.

Lemma join_cons g gs : join_with COLON (g :: gs) = g ++ match gs with [] => [] | _ => COLON :: join_with COLON gs end.
Proof. destruct gs; [by rewrite app_nil_r|done]. Qed.

Lemma write_plain fuel p best i :
  length p = 8%nat -> (8 - i < fuel)%nat -> (i <= 8)%nat -> match best with Some (s, _) => (s < i)%nat | None => True end ->
  write_pieces fuel p best i = join_with COLON (texts (drop i p)).
Proof.
  intros Hl. revert i. induction fuel as [|fuel IH]; intros i Hf Hi Hb; [lia|]. cbn [write_pieces].
  destruct (8 <=? i)%nat eqn:E; [apply Nat.leb_le in E|apply Nat.leb_gt in E].
  { rewrite drop_ge by lia. done. }
  destruct (lookup_lt_is_Some_2 p i) as [v Hv]; [lia|]. rewrite Hv. cbn [fmap option_fmap option_map default from_option id].
  rewrite (drop_S p v i) by done. cbn [texts map]. fold (texts (drop (S i) p)). rewrite join_cons.
  assert (match texts (drop (S i) p) with [] => [] | _ => COLON :: join_with COLON (texts (drop (S i) p)) end =
    (if (S i <? 8)%nat then [COLON] else []) ++ join_with COLON (texts (drop (S i) p))) as ->.
  { destruct (S i <? 8)%nat eqn:Es; [apply Nat.ltb_lt in Es|apply Nat.ltb_ge in Es].
    - destruct (lookup_lt_is_Some_2 p (S i)) as [v' Hv']; [lia|]. by rewrite (drop_S p v' (S i)).
    - by rewrite (drop_ge p (S i)) by lia. }
  destruct best as [[s l]|].
  - rewrite (proj2 (Nat.eqb_neq s i)), (proj2 (Nat.eqb_neq s (S i))) by lia. cbn [negb]. rewrite andb_true_r, IH by lia. done.
  - rewrite IH by (done || lia). done.
Qed.

Lemma write_run fuel p s l i :
  length p = 8%nat -> (8 - i < fuel)%nat -> (i <= s)%nat -> (s + l <= 8)%nat -> (1 <= l)%nat ->
  write_pieces fuel p (Some (s, l)) i = join_with COLON (texts (take (s - i) (drop i p))) ++ DOUBLE ++ join_with COLON (texts (drop (s + l) p)).
Proof.
  intros Hl. revert i. induction fuel as [|fuel IH]; intros i Hf Hi Hsl Hl1; [lia|]. cbn [write_pieces].
  rewrite (proj2 (Nat.leb_gt _ _)) by lia. destruct (s =? i)%nat eqn:E; [apply Nat.eqb_eq in E as <-|apply Nat.eqb_neq in E].
  - rewrite Nat.sub_diag, take_0. cbn [texts map join_with app]. rewrite write_plain by lia. done.
  - destruct (lookup_lt_is_Some_2 p i) as [v Hv]; [lia|]. rewrite Hv. cbn [fmap option_fmap option_map default from_option id].
    rewrite (drop_S p v i) by done. destruct (s - i)%nat as [|k] eqn:Ek; [lia|]. cbn [take].
    cbn [texts map]. fold (texts (take k (drop (S i) p))). rewrite join_cons. rewrite IH by lia.
    replace (s - S i)%nat with k by lia. rewrite (proj2 (Nat.ltb_lt _ _)) by lia. cbn [andb].
    destruct (s =? S i)%nat eqn:Es; [apply Nat.eqb_eq in Es|apply Nat.eqb_neq in Es]; cbn [negb].
    + assert (k = 0%nat) as -> by lia. by rewrite take_0, app_nil_r.
    + destruct k as [|k]; [lia|]. destruct (lookup_lt_is_Some_2 p (S i)) as [v' Hv']; [lia|].
      rewrite (drop_S p v' (S i)) by done. cbn [take texts map]. by rewrite <- !app_assoc.
Qed.

(** The run that was found. *)
Definition run_ok (p : list Z) (best : option (nat * nat)) : Prop :=
  match best with Some (s, l) => (s + l <= 8)%nat /\ (2 <= l)%nat /\ take l (drop s p) = replicate l 0 | None => True end.

Lemma leading_zeros_spec p : take (leading_zeros p) p = replicate (leading_zeros p) 0 /\ (leading_zeros p <= length p)%nat.
Proof.
  induction p as [|z p [IH1 IH2]]; [done|]. cbn [leading_zeros]. destruct (z =? 0) eqn:E; [|split; [done|lia]].
  apply Z.eqb_eq in E as ->. cbn [take replicate length]. rewrite IH1. split; [done|lia].
Qed.

Lemma best_run_ok fuel p i best : length p = 8%nat -> run_ok p best -> run_ok p (best_run fuel p i best).
Proof.
  intros Hl. revert i best. induction fuel as [|fuel IH]; intros i best Hb; [done|]. cbn [best_run].
  destruct (8 <=? i)%nat eqn:E; [done|]. apply Nat.leb_gt in E. destruct (leading_zeros_spec (drop i p)) as [H1 H2].
  rewrite length_drop in H2. destruct (leading_zeros (drop i p)) as [|n]; [by apply IH|]. cbv zeta. apply IH.
  destruct ((2 <=? S n)%nat && _) eqn:E2; [|done]. apply andb_true_iff in E2 as [E2%Nat.leb_le _]. simpl. split_and!; [lia|lia|done].
Qed.

Lemma length_join_texts p : Forall (fun v => 0 <= v <= U16_MAX) p -> (length (join_with COLON (texts p)) <= 5 * length p)%nat.
Proof.
  induction 1 as [|v p Hv Hp IH]; [done|]. cbn [texts map]. fold (texts p). rewrite join_cons, length_app.
  apply hex16_text in Hv as (_ & Hv & _). destruct p as [|v' p]; [simpl; lia|]. cbn [texts map] in *. fold (texts p) in *. simpl length in *. lia.
Qed.

Lemma ipv6_roundtrip p : pieces8 p -> parse_ipv6 (serialize_ipv6 p) = Some p.
Proof.
  intros [Hl Hp]. unfold serialize_ipv6. pose proof (best_run_ok 9 p 0 None Hl I) as Hb. unfold parse_ipv6.
  assert (forall k, Forall (fun v => 0 <= v <= U16_MAX) (take k p)) as Htake by (intros; by apply Forall_take).
  assert (forall k, Forall (fun v => 0 <= v <= U16_MAX) (drop k p)) as Hdrop by (intros; by apply Forall_drop).
  destruct (best_run 9 p 0 None) as [[s l]|].
  - destruct Hb as (Hsl & Hl2 & Hz). rewrite write_run by lia. rewrite Nat.sub_0_r, drop_0.
    pose proof (length_join_texts _ (Htake s)) as L1. pose proof (length_join_texts _ (Hdrop (s + l)%nat)) as L2.
    rewrite length_take in L1. rewrite length_drop in L2. rewrite (proj2 (Z.ltb_ge _ _)).
    2: { rewrite !len_app. unfold len. change (length DOUBLE) with 2%nat. lia. }
    change (lit "::") with DOUBLE. destruct (texts_seg _ (Htake s)) as [T1 S1]. destruct (texts_seg _ (Hdrop (s + l)%nat)) as [T2 S2].
    rewrite split_double_some by done. rewrite contains_split, split_double_none by done.
    rewrite bool_decide_eq_false_2 by (by intros [? ?]). rewrite (groups_text _ _ _ T1), (groups_text _ _ _ T2). cbn [mbind option_bind].
    rewrite length_take, length_drop, (proj2 (Nat.ltb_ge _ _)) by lia. f_equal.
    replace (8 - s `min` length p - (length p - (s + l)))%nat with l by lia. rewrite <- Hz.
    by rewrite <- (drop_drop p l s), take_drop, take_drop.
  - rewrite write_plain by (done || lia). rewrite drop_0. pose proof (length_join_texts _ Hp) as L.
    rewrite (proj2 (Z.ltb_ge _ _)) by (unfold len; lia). change (lit "::") with DOUBLE. destruct (texts_seg _ Hp) as [T S].
    rewrite split_double_none by done. rewrite (groups_text _ _ _ T). cbn [mbind option_bind]. by rewrite Hl.
Qed.
