(* ===== verification/WebCanon.v ===== *)
(** * URLs read back (px-websec/src/origin/url.rs)

    What [Url::parse] returns is well formed, and the written form of a
    well-formed URL is parsed to the same URL. *)
From S2P Require Import Prelude Bytes Text Chars WebUrl WebHost.
Import Url.
Local Open Scope Z_scope.

(** ** Hosts *)
Definition domain_byte (b : byte) : bool :=
  is_ascii_byte b && negb (in_range 65 90 b) && negb (forbidden_host_cp b) && negb (bool_decide (b = "%"%byte)).
Definition opaque_byte (b : byte) : bool := is_ascii_byte b && negb (forbidden_host_cp b).

(** The hosts the parser returns, for a special scheme or another. *)
Definition host_ok (special : bool) (h : Host) : Prop :=
  match h with
  | Domain d => special = true /\ d <> [] /\ Forall (fun b => domain_byte b = true) d /\ ends_in_number d = false
  | Ipv4 a => special = true /\ bytes4 a
  | Ipv6 p => pieces8 p
  | Opaque d => special = false /\ d <> [] /\ Forall (fun b => opaque_byte b = true) d
  | EmptyHost => False
  end.

(** The bytes a written host can have, and those of the other delimiters. *)
Definition text_byte (b : byte) : bool :=
  negb (is_blank b) && negb (bool_decide (b ∈ [HASH; QUESTION; SLASH; BACKSLASH; AT])).

Lemma domain_byte_ok b : domain_byte b = true ->
  is_ascii_byte b = true /\ in_range 65 90 b = false /\ forbidden_host_cp b = false /\ b <> "%"%byte /\
  b <> "["%byte /\ b <> COLON /\ text_byte b = true.
Proof. intros H. destruct b; try (by vm_compute in H); by split_and!. Qed.

Lemma opaque_byte_ok b : opaque_byte b = true ->
  is_ascii_byte b = true /\ forbidden_host_cp b = false /\ b <> "["%byte /\ b <> COLON /\ text_byte b = true.
Proof. intros H. destruct b; try (by vm_compute in H); by split_and!. Qed.

Lemma hex_text b : is_hex b = true -> text_byte b = true /\ b <> "]"%byte /\ b <> COLON /\ b <> AT.
Proof. intros H. destruct b; try (by vm_compute in H); by split_and!. Qed.

Lemma lower_byte_ok b : is_ascii_byte b = true ->
  is_ascii_byte (ascii_lower_byte b) = true /\ in_range 65 90 (ascii_lower_byte b) = false.
Proof. intros H. destruct b; try (by vm_compute in H); by split. Qed.

Lemma parse_host_ok s special h : parse_host s special = Some h -> host_ok special h.
Proof.
  unfold parse_host. destruct (strip_prefix _ s) as [inner|].
  { intros (i & _ & (p & Hp & ->)%fmap_Some)%bind_Some. by apply parse_ipv6_shape in Hp. }
  destruct special; cbn [negb].
  - intros (d & Hd & H)%bind_Some. unfold percent_decode_ascii in Hd. cbv zeta in Hd, H.
    destruct (is_ascii (percent_decode s)) eqn:Ha; [|done]. injection Hd as <-.
    destruct (_ || _) eqn:E; [done|]. apply orb_false_iff in E as [E1%bool_decide_eq_false E2%existsb_false].
    destruct (ends_in_number _) eqn:En.
    + apply fmap_Some in H as (a & Ha' & ->). by apply parse_ipv4_shape in Ha'.
    + injection H as <-. split_and!; [done|done| |done]. apply forallb_true in Ha.
      unfold to_ascii_lowercase in E2 |- *. rewrite Forall_map in E2. rewrite Forall_map.
      eapply Forall_impl; [apply Forall_and; split; [exact Ha|exact E2]|]. simpl. intros b [Hb [H1 H2]%orb_false_iff].
      apply lower_byte_ok in Hb as [H3 H4]. unfold domain_byte. by rewrite H3, H4, H1, H2.
  - destruct (_ || _) eqn:E; [done|]. intros [= <-]. apply orb_false_iff in E as [E1%bool_decide_eq_false E2%existsb_false].
    split_and!; [done|done|]. eapply Forall_impl; [exact E2|]. simpl. intros b [H1 H2%negb_false_iff]%orb_false_iff.
    unfold opaque_byte. by rewrite H1, H2.
Qed.

Lemma no_bracket l : Forall (fun b => b <> "["%byte) l -> strip_prefix (lit "[") l = None.
Proof. intros [|b l' Hb _]; [done|]. cbn. by rewrite bool_decide_eq_false_2. Qed.

Lemma host_roundtrip special h : host_ok special h -> parse_host (serialize_host h) special = Some h.
Proof.
  destruct h as [d|a|p|d|]; simpl; [intros (-> & Hne & Hd & He)|intros [-> Ha]|intros Hp|intros (-> & Hne & Hd)|done].
  - assert (Forall _ d) as H by (eapply Forall_impl; [exact Hd|apply domain_byte_ok]). unfold parse_host.
    rewrite no_bracket by (eapply Forall_impl; [exact H|]; simpl; tauto). cbn [negb].
    rewrite decode_id; [|intros Hin; by apply (proj1 (Forall_forall _ _) H) in Hin as (_ & _ & _ & ? & _)|].
    2: { apply forallb_true. eapply Forall_impl; [exact H|]. simpl. tauto. }
    cbn [mbind option_bind]. cbv zeta. rewrite lower_id by (eapply Forall_impl; [exact H|]; simpl; tauto).
    rewrite bool_decide_eq_false_2 by done. rewrite (proj2 (existsb_false _ _)); [by rewrite He|].
    eapply Forall_impl; [exact H|]. simpl. intros b (_ & _ & -> & Hp & _). by rewrite bool_decide_eq_false_2.
  - by apply (ipv4_roundtrip a).
  - unfold parse_host. rewrite (proj2 (strip_prefix_Some (lit "[") _ (serialize_ipv6 p ++ ["]"%byte]))) by done.
    rewrite (proj2 (strip_suffix_Some (lit "]") _ (serialize_ipv6 p))) by done. cbn [mbind option_bind].
    by rewrite ipv6_roundtrip.
  - assert (Forall _ d) as H by (eapply Forall_impl; [exact Hd|apply opaque_byte_ok]). unfold parse_host.
    rewrite no_bracket by (eapply Forall_impl; [exact H|]; simpl; tauto). cbn [negb].
    rewrite bool_decide_eq_false_2 by done. rewrite (proj2 (existsb_false _ _)); [done|].
    eapply Forall_impl; [exact H|]. simpl. by intros b (-> & -> & _).
Qed.

(** ** The text of a host *)
Definition is_text (l : list byte) : Prop := Forall (fun b => text_byte b = true) l.

Lemma serialize_ipv6_text p : pieces8 p -> Forall (fun b => text_byte b = true /\ b <> "]"%byte) (serialize_ipv6 p).
Proof.
  intros [Hl Hp]. assert (forall q, Forall (fun v => 0 <= v <= U16_MAX) q ->
    Forall (fun b => text_byte b = true /\ b <> "]"%byte) (join_with COLON (texts q))) as H.
  { intros q Hq. apply join_Forall; [by split|]. unfold texts. apply Forall_map. eapply Forall_impl; [exact Hq|].
    intros v Hv. cbv beta in Hv. destruct (hex16_fixed v Hv) as (w & _ & Ew & _). rewrite Ew.
    eapply Forall_impl; [apply hex_fixed_chars; lia|]. simpl. intros b Hb. by apply hex_text in Hb as (? & ? & _). }
  unfold serialize_ipv6. pose proof (best_run_ok 9 p 0 None Hl I) as Hb.
  destruct (best_run 9 p 0 None) as [[s l]|].
  - destruct Hb as (Hsl & Hl2 & _). rewrite write_run by lia. rewrite !Forall_app. split_and!.
    + by apply H, Forall_take, Forall_drop.
    + repeat constructor; done.
    + by apply H, Forall_drop.
  - rewrite write_plain by (done || lia). by apply H, Forall_drop.
Qed.

Lemma plain_text b : plain_byte b = true -> text_byte b = true /\ b <> COLON.
Proof. intros H. destruct b; try (by vm_compute in H); by split. Qed.

(** A written host: in brackets, or without a bracket at its start and without a colon. *)
Definition host_shape (s : list byte) : Prop :=
  is_text s /\ s <> [] /\
  ((exists i, s = "["%byte :: i ++ ["]"%byte] /\ ("]"%byte ∉ i)) \/ (strip_prefix (lit "[") s = None /\ (COLON ∉ s))).

Lemma host_text special h : host_ok special h -> host_shape (serialize_host h).
Proof.
  unfold host_shape, is_text. destruct h as [d|a|p|d|]; simpl; [intros (-> & Hne & Hd & He)|intros [-> Ha]|intros Hp|intros (-> & Hne & Hd)|done].
  - assert (Forall _ d) as H by (eapply Forall_impl; [exact Hd|apply domain_byte_ok]). split_and!; [|done|right; split].
    + eapply Forall_impl; [exact H|]. simpl. tauto.
    + apply no_bracket. eapply Forall_impl; [exact H|]. simpl. tauto.
    + intros Hin. apply (proj1 (Forall_forall _ _) H) in Hin. tauto.
  - destruct (ipv4_text a Ha) as [H _]. assert (join_with DOT (map decimal a) <> []) as Hne.
    { destruct Ha as [Hl _]. destruct a as [|x a]; [done|]. apply (join_nonempty DOT _ (decimal x)); [by left|apply decimal_digits]. }
    split_and!; [|exact Hne|right; split].
    + eapply Forall_impl; [exact H|]. intros b Hb. by apply plain_text in Hb as [? _].
    + by apply plain_bytes_ok.
    + intros Hin. apply (proj1 (Forall_forall _ _) H) in Hin. by apply plain_text in Hin as [_ ?].
  - pose proof (serialize_ipv6_text p Hp) as H. split_and!; [|done|left].
    + constructor; [done|]. apply Forall_app. split; [|by repeat constructor]. eapply Forall_impl; [exact H|]. simpl. tauto.
    + exists (serialize_ipv6 p). split; [done|]. intros Hin. apply (proj1 (Forall_forall _ _) H) in Hin. tauto.
  - assert (Forall _ d) as H by (eapply Forall_impl; [exact Hd|apply opaque_byte_ok]). split_and!; [|done|right; split].
    + eapply Forall_impl; [exact H|]. simpl. tauto.
    + apply no_bracket. eapply Forall_impl; [exact H|]. simpl. tauto.
    + intros Hin. apply (proj1 (Forall_forall _ _) H) in Hin. tauto.
Qed.

(** ** Cutting a text *)
Lemma break_at_spec f l x y : break_at f l = (x, y) ->
  l = x ++ y /\ Forall (fun b => f b = false) x /\ match y with [] => True | b :: _ => f b = true end.
Proof.
  revert x y. induction l as [|b l IH]; intros x y; cbn [break_at]; [by intros [= <- <-]|].
  destruct (f b) eqn:Hb; [by intros [= <- <-]|]. destruct (break_at f l) as [x' y'] eqn:E. intros [= <- <-].
  destruct (IH _ _ eq_refl) as (-> & H1 & H2). split_and!; [done|by constructor|done].
Qed.

Lemma break_at_app f x y :
  Forall (fun b => f b = false) x -> match y with [] => True | b :: _ => f b = true end -> break_at f (x ++ y) = (x, y).
Proof.
  intros Hx Hy. induction Hx as [|b x Hb Hx IH]; cbn [app break_at].
  - destruct y as [|b y]; [done|]. cbn [break_at]. by rewrite Hy.
  - by rewrite Hb, IH.
Qed.

Lemma drop_while_id f l : match l with [] => True | b :: _ => f b = false end -> drop_while f l = l.
Proof. destruct l as [|b l]; [done|]. cbn [drop_while]. by intros ->. Qed.

Lemma drop_while_suffix f l : exists k, l = k ++ drop_while f l /\ match drop_while f l with [] => True | b :: _ => f b = false end.
Proof.
  induction l as [|b l (k & IH & IH2)]; [by exists []|]. cbn [drop_while]. destruct (f b) eqn:E; [|by exists []].
  exists (b :: k). split; [by rewrite IH at 1|done].
Qed.

Lemma rsplit_once_app c x y : (c ∉ y) -> rsplit_once c (x ++ c :: y) = Some (x, y).
Proof.
  intros Hy. unfold rsplit_once. rewrite reverse_app, reverse_cons, <- app_assoc.
  rewrite (proj2 (split_once_spec c _ (reverse y) (reverse x))); [|split; [done|by rewrite elem_of_reverse]].
  cbn [mbind option_bind]. by rewrite !reverse_involutive.
Qed.

Lemma rsplit_once_None c l : (c ∉ l) -> rsplit_once c l = None.
Proof. intros Hl. unfold rsplit_once. by rewrite (proj2 (split_once_None c _)) by (by rewrite elem_of_reverse). Qed.

Lemma rsplit_once_Some c l x y : rsplit_once c l = Some (x, y) -> l = x ++ c :: y /\ (c ∉ y).
Proof.
  unfold rsplit_once. intros ([y' x'] & [E Hy]%split_once_spec & [= <- <-])%bind_Some. split; [|by rewrite elem_of_reverse].
  apply (f_equal reverse) in E. by rewrite reverse_involutive, reverse_app, reverse_cons, <- app_assoc in E.
Qed.

Lemma not_in_Forall (P : byte -> Prop) c l : Forall P l -> ~ P c -> c ∉ l.
Proof. intros Hl Hc Hin. by apply (proj1 (Forall_forall _ _) Hl) in Hin. Qed.

(** ** Ports *)
Lemma decimal_loop_length fuel k z acc :
  0 <= z < 10 ^ (Z.of_nat k + 1) -> (length (decimal_loop fuel z acc) <= S k + length acc)%nat.
Proof.
  revert k z acc. induction fuel as [|fuel IH]; intros k z acc Hz; cbn [decimal_loop]; [simpl; lia|].
  destruct (z <? 10) eqn:E; [simpl; lia|]. apply Z.ltb_ge in E. destruct k as [|k]; [simpl in Hz; lia|].
  etrans; [apply (IH k)|simpl; lia]. rewrite Nat2Z.inj_succ, Z.add_succ_l, Z.pow_succ_r in Hz by lia.
  split; [apply Z.div_pos; lia|apply Z.div_lt_upper_bound; lia].
Qed.

Definition port_range (o : option Z) : Prop := match o with Some p => 0 <= p <= U16_MAX | None => True end.

Definition port_text (o : option Z) : list byte := match o with Some p => COLON :: decimal p | None => [] end.

Lemma decimal_text z : Forall (fun b => text_byte b = true /\ b <> COLON) (decimal z).
Proof. eapply Forall_impl; [apply decimal_hex|]. intros b Hb. apply hex_text in Hb. tauto. Qed.

Lemma port_text_text o : is_text (port_text o).
Proof.
  destruct o as [p|]; [|constructor]. constructor; [done|]. eapply Forall_impl; [apply decimal_text|]. simpl. tauto.
Qed.

Lemma port_parsed p : 0 <= p <= U16_MAX -> exists a t, decimal p = a :: t /\
  (if negb (forallb is_digit (a :: t)) || (5 <? length (a :: t))%nat then None else parse_uint 10 U16_MAX (a :: t)) = Some p.
Proof.
  intros Hp. destruct (decimal_digits p) as [Hd Hne]. pose proof (parse_decimal_uint U16_MAX p Hp ltac:(unfold_width; lia)) as Hv.
  pose proof (decimal_loop_length 19 4 p [] ltac:(unfold U16_MAX in Hp; simpl; lia)) as Hl. fold (decimal p) in Hl.
  destruct (decimal p) as [|a t]; [done|]. exists a, t. split; [done|]. rewrite (proj2 (forallb_true _ _) Hd).
  rewrite (proj2 (Nat.ltb_ge _ _)) by (simpl in *; lia). done.
Qed.

(** ** The authority *)
Definition creds_text (u p : list byte) : list byte :=
  if negb (bool_decide (u = [])) || negb (bool_decide (p = [])) then u ++ (if negb (bool_decide (p = [])) then COLON :: p else []) ++ [AT]
  else [].

Lemma creds_split u p rest : (COLON ∉ u) -> (AT ∉ rest) ->
  exists i, default ([], creds_text u p ++ rest) (rsplit_once AT (creds_text u p ++ rest)) = (i, rest) /\
            default (i, []) (split_once COLON i) = (u, p).
Proof.
  intros Hu Hr. unfold creds_text. destruct (negb _ || negb _) eqn:E.
  - set (i := u ++ (if negb (bool_decide (p = [])) then COLON :: p else [])). exists i. split.
    + rewrite (app_assoc u). fold i. rewrite <- app_assoc. cbn [app]. by rewrite rsplit_once_app.
    + unfold i. destruct (bool_decide (p = [])) eqn:Ep; cbn [negb].
      * apply bool_decide_eq_true in Ep as ->. rewrite app_nil_r. by rewrite (proj2 (split_once_None COLON u)).
      * by rewrite (proj2 (split_once_spec COLON _ u p)).
  - apply orb_false_iff in E as [E1 E2]. apply negb_false_iff, bool_decide_eq_true in E1 as ->.
    apply negb_false_iff, bool_decide_eq_true in E2 as ->. exists []. split; [|done]. cbn [app]. by rewrite rsplit_once_None.
Qed.

Lemma text_no c l : is_text l -> text_byte c = false -> c ∉ l.
Proof. intros Hl Hc. eapply not_in_Forall; [exact Hl|]. simpl. congruence. Qed.

Lemma authority_roundtrip u p h o special :
  host_ok special h -> (COLON ∉ u) -> port_range o ->
  parse_authority (creds_text u p ++ serialize_host h ++ port_text o) special = Some (u, p, h, o).
Proof.
  intros Hh Hu Ho. pose proof (host_text _ _ Hh) as (Ht & Hne & Hshape). pose proof (host_roundtrip _ _ Hh) as Hrt.
  set (s := serialize_host h) in *. assert (is_text (s ++ port_text o)) as Htext by (apply Forall_app; split; [done|apply port_text_text]).
  destruct (creds_split u p (s ++ port_text o) Hu (text_no AT _ Htext eq_refl)) as (i & Ei & Ec). unfold parse_authority.
  rewrite Ei, Ec. clear Ei Ec.
  assert ((if has_prefix (lit "[") (s ++ port_text o) then
       '(h, rest) ← split_once "]"%byte (s ++ port_text o);
       match strip_prefix [COLON] rest with
       | Some p => Some (h ++ lit "]", Some p)
       | None => if bool_decide (rest = []) then Some (h ++ lit "]", None) else None
       end
     else match rsplit_once COLON (s ++ port_text o) with
          | Some (h, p) => Some (h, Some p)
          | None => Some (s ++ port_text o, None)
          end) = Some (s, decimal <$> o)) as ->.
  - destruct Hshape as [(inner & Es & Hin)|[Hb Hc]].
    + rewrite Es. unfold has_prefix. rewrite (proj2 (strip_prefix_Some (lit "[") _ (inner ++ ["]"%byte] ++ port_text o))).
      2: { cbn [app]. by rewrite <- app_assoc. }
      rewrite bool_decide_eq_true_2 by (by eexists). rewrite (proj2 (split_once_spec "]"%byte _ ("["%byte :: inner) (port_text o))).
      2: { split; [cbn [app]; by rewrite <- app_assoc|]. apply not_elem_of_cons. by split. }
      cbn [mbind option_bind]. by destruct o.
    + assert (has_prefix (lit "[") (s ++ port_text o) = false) as ->.
      { unfold has_prefix. apply bool_decide_eq_false. destruct s as [|b s']; [done|]. cbn in Hb |- *.
        destruct (bool_decide _); [done|]. by intros [? ?]. }
      destruct o as [q|]; cbn [port_text].
      * rewrite rsplit_once_app; [done|]. intros Hq. apply (proj1 (Forall_forall _ _) (decimal_text q)) in Hq. tauto.
      * rewrite app_nil_r. by rewrite rsplit_once_None.
  - cbn [mbind option_bind]. rewrite bool_decide_eq_false_2 by done. rewrite Hrt. cbn [mbind option_bind].
    destruct o as [q|]; cbn [fmap option_fmap option_map]; [|done]. destruct (port_parsed q Ho) as (a & t & -> & E).
    destruct (negb _ || _); [done|]. by rewrite E.
Qed.

Lemma parse_authority_ok auth special u p h o :
  parse_authority auth special = Some (u, p, h, o) ->
  (h = EmptyHost /\ special = false /\ u = [] /\ p = [] /\ o = None \/ host_ok special h /\ (COLON ∉ u) /\ port_range o) /\
  (forall P : byte -> Prop, Forall P auth -> Forall P u /\ Forall P p).
Proof.
  unfold parse_authority. destruct (default ([], auth) (rsplit_once AT auth)) as [userinfo hostport] eqn:E1.
  assert (forall P : byte -> Prop, Forall P auth -> Forall P userinfo) as H1.
  { intros P HP. destruct (rsplit_once AT auth) as [[x y]|] eqn:E; simpl in E1; injection E1 as <- <-; [|constructor].
    apply rsplit_once_Some in E as [-> _]. by apply Forall_app in HP as [? _]. }
  clear E1. destruct (default (userinfo, []) (split_once COLON userinfo)) as [us pw] eqn:E2.
  assert ((COLON ∉ us) /\ (userinfo = [] -> us = [] /\ pw = []) /\ forall P : byte -> Prop, Forall P userinfo -> Forall P us /\ Forall P pw) as (H2 & H3 & H4).
  { destruct (split_once COLON userinfo) as [[x y]|] eqn:E; simpl in E2; injection E2 as <- <-.
    - apply split_once_spec in E as [-> Hx]. split_and!; [done|by destruct x|]. intros P HP. apply Forall_app in HP as [? HP].
      by apply Forall_cons in HP as [_ ?].
    - apply split_once_None in E. split_and!; [done|done|]. intros P HP. split; [done|constructor]. }
  clear E2. intros ([host_s port_s] & _ & H)%bind_Some. destruct (bool_decide (host_s = [])).
  - destruct (special || _ || _) eqn:E; [done|]. injection H as <- <- <- <-. apply orb_false_iff in E as [[-> E]%orb_false_iff _].
    apply negb_false_iff, bool_decide_eq_true in E. destruct (H3 E) as [-> ->]. split; [|by intros P _; split; constructor].
    left. by split_and!.
  - apply bind_Some in H as (h' & Hh%parse_host_ok & H).
    assert (u = us /\ p = pw /\ h = h' /\ port_range o) as (-> & -> & -> & Ho).
    { destruct port_s as [[|a t]|]; [by injection H as <- <- <- <-| |by injection H as <- <- <- <-].
      destruct (negb _ || _); [done|]. apply bind_Some in H as (q & Hq & [= <- <- <- <-]). split_and!; try done.
      simpl. apply parse_uint_range in Hq; [done|lia|done]. }
    split; [by right|]. intros P HP. by apply H4, H1.
Qed.

(** ** What follows the scheme *)
Definition rooted (special : bool) (l : list byte) : Prop := match l with [] => True | b :: _ => is_slash special b = true end.
Definition no_slash (special : bool) (l : list byte) : Prop := Forall (fun b => is_slash special b = false) l.

Definition auth_ok (sc u p : list byte) (h : option Host) (o : option Z) (tail : list byte) : Prop :=
  if bool_decide (sc = lit "file") then
    u = [] /\ p = [] /\ o = None /\ (h = Some EmptyHost \/ exists d, h = Some d /\ host_ok true d /\ d <> Domain (lit "localhost"))
  else match h with
       | None => is_special_scheme sc = false /\ u = [] /\ p = [] /\ o = None /\ strip_prefix (lit "//") tail = None
       | Some EmptyHost => is_special_scheme sc = false /\ u = [] /\ p = [] /\ o = None /\ rooted false tail
       | Some h => host_ok (is_special_scheme sc) h /\ (COLON ∉ u) /\ no_slash (is_special_scheme sc) u /\
                   no_slash (is_special_scheme sc) p /\ port_range o /\ rooted (is_special_scheme sc) tail
       end.

Definition auth_text (u p : list byte) (h : option Host) (o : option Z) : list byte :=
  match h with Some h => lit "//" ++ creds_text u p ++ serialize_host h ++ port_text o | None => [] end.

Lemma host_ok_not_empty special h : host_ok special h -> h <> EmptyHost.
Proof. by intros H ->. Qed.

Lemma auth_ok_host sc u p h o tail : sc <> lit "file" -> h <> EmptyHost ->
  auth_ok sc u p (Some h) o tail = (host_ok (is_special_scheme sc) h /\ (COLON ∉ u) /\ no_slash (is_special_scheme sc) u /\
    no_slash (is_special_scheme sc) p /\ port_range o /\ rooted (is_special_scheme sc) tail).
Proof. intros Hs Hh. unfold auth_ok. rewrite bool_decide_eq_false_2 by done. by destruct h. Qed.

Lemma file_special : is_special_scheme (lit "file") = true.
Proof. by vm_compute. Qed.

Lemma parse_after_scheme_ok sc rest u p h o tail :
  parse_after_scheme sc rest = Some (u, p, h, o, tail) ->
  auth_ok sc u p h o tail /\ (exists k, rest = k ++ tail) /\ (forall P : byte -> Prop, Forall P rest -> Forall P u /\ Forall P p).
Proof.
  unfold parse_after_scheme. destruct (bool_decide (sc = lit "file")) eqn:Ef; [|destruct (is_special_scheme sc) eqn:Es].
  - apply bool_decide_eq_true in Ef as ->. rewrite file_special. unfold auth_ok.
    assert (forall P : byte -> Prop, Forall P rest -> Forall P [] /\ Forall P []) as Hnil by (intros; split; constructor).
    assert (Some ([], [], Some EmptyHost, None, rest) = Some (u, p, h, o, tail) ->
      (u = [] /\ p = [] /\ o = None /\ (h = Some EmptyHost \/ exists d, h = Some d /\ host_ok true d /\ d <> Domain (lit "localhost"))) /\
      (exists k, rest = k ++ tail) /\ (forall P : byte -> Prop, Forall P rest -> Forall P u /\ Forall P p)) as Hplain.
    { intros [= <- <- <- <- <-]. split; [by split_and!; try left|]. split; [by exists []|done]. }
    destruct rest as [|a [|b body]]; [done|done|]. destruct (_ && _); [|done].
    destruct (break_at _ body) as [auth t] eqn:Eb. apply break_at_spec in Eb as (-> & _ & _).
    intros (h' & Hh & [= <- <- <- <- <-])%bind_Some. split; [|split; [by exists (a :: b :: auth)|done]].
    split_and!; try done. destruct (bool_decide (auth = [])); [injection Hh as <-; by left|].
    apply bind_Some in Hh as (d & Hd%parse_host_ok & [= <-]). destruct (bool_decide (d = _)) eqn:Ed; [by left|].
    apply bool_decide_eq_false in Ed. right. by exists d.
  - apply bool_decide_eq_false in Ef. destruct (drop_while_suffix (is_slash true) rest) as (k & Ek & _).
    destruct (break_at _ _) as [auth t] eqn:Eb. apply break_at_spec in Eb as (Eb & Hn & Ht).
    intros ([[[us pw] hh] oo] & [Hok HP]%parse_authority_ok & [= <- <- <- <- <-])%bind_Some.
    destruct Hok as [(_ & ? & _)|(Hh & Hu & Ho)]; [done|]. split; [|split].
    + rewrite auth_ok_host by (done || by eapply host_ok_not_empty). rewrite Es. destruct (HP _ Hn). by split_and!.
    + exists (k ++ auth). by rewrite <- app_assoc, <- Eb.
    + intros P Hr. apply HP. rewrite Ek, Eb in Hr. by apply Forall_app in Hr as [_ [? _]%Forall_app].
  - apply bool_decide_eq_false in Ef. destruct (strip_prefix _ rest) as [body|] eqn:Ep.
    + apply strip_prefix_Some in Ep as ->. destruct (break_at _ _) as [auth t] eqn:Eb. apply break_at_spec in Eb as (-> & Hn & Ht).
      intros ([[[us pw] hh] oo] & [Hok HP]%parse_authority_ok & [= <- <- <- <- <-])%bind_Some. split; [|split].
      * destruct Hok as [(-> & _ & -> & -> & ->)|(Hh & Hu & Ho)].
        -- unfold auth_ok. rewrite bool_decide_eq_false_2 by done. by split_and!.
        -- rewrite auth_ok_host by (done || by eapply host_ok_not_empty). rewrite Es. destruct (HP _ Hn). by split_and!.
      * exists (lit "//" ++ auth). by rewrite <- app_assoc.
      * intros P Hr. apply HP. by apply Forall_app in Hr as [_ [? _]%Forall_app].
    + intros [= <- <- <- <- <-]. split; [|split; [by exists []|by intros; split; constructor]].
      unfold auth_ok. rewrite bool_decide_eq_false_2 by done. by split_and!.
Qed.

Lemma text_no_slash special l : is_text l -> no_slash special l.
Proof.
  intros Hl. eapply Forall_impl; [exact Hl|]. intros b. unfold text_byte, is_slash. cbv beta.
  destruct b; try done; by destruct special.
Qed.

Lemma creds_no_slash special u p : no_slash special u -> no_slash special p -> no_slash special (creds_text u p).
Proof.
  intros Hu Hp. unfold creds_text. destruct (_ || _); [|constructor]. apply Forall_app. split; [done|]. apply Forall_app.
  split; [|by repeat constructor; destruct special]. destruct (negb _); [|constructor]. constructor; [by destruct special|done].
Qed.

Lemma after_scheme_roundtrip sc u p h o path :
  auth_ok sc u p h o path -> (sc = lit "file" -> head path = Some SLASH) ->
  parse_after_scheme sc (auth_text u p h o ++ path) = Some (u, p, h, o, path).
Proof.
  intros Hok Hfile. unfold parse_after_scheme. destruct (bool_decide (sc = lit "file")) eqn:Ef.
  - pose proof Ef as Ef'. apply bool_decide_eq_true in Ef' as ->. rewrite file_special. unfold auth_ok in Hok. rewrite Ef in Hok.
    specialize (Hfile eq_refl). destruct path as [|b t]; [done|]. injection Hfile as ->.
    destruct Hok as (-> & -> & -> & [-> | (d & -> & Hd & Hl)]); [done|].
    destruct (host_text _ _ Hd) as (Ht & Hne & _). unfold auth_text. change (creds_text [] []) with (@nil byte).
    cbn [port_text app]. change (lit "//" ++ serialize_host d ++ []) with (SLASH :: SLASH :: serialize_host d ++ []).
    rewrite app_nil_r. cbn [app]. change (is_slash true SLASH && is_slash true SLASH) with true. cbv iota.
    rewrite break_at_app by (done || by apply text_no_slash). cbv iota. rewrite bool_decide_eq_false_2 by done.
    rewrite host_roundtrip by done. cbn [mbind option_bind]. by rewrite bool_decide_eq_false_2.
  - apply bool_decide_eq_false in Ef. destruct h as [h|].
    + destruct (decide (h = EmptyHost)) as [->|Hne].
      * unfold auth_ok in Hok. rewrite bool_decide_eq_false_2 in Hok by done. destruct Hok as (Es & -> & -> & -> & Hr).
        rewrite Es. rewrite (proj2 (strip_prefix_Some (lit "//") _ path)) by done. by rewrite (break_at_app _ [] path).
      * rewrite auth_ok_host in Hok by done. destruct Hok as (Hh & Hu & Hnu & Hnp & Ho & Hr).
        pose proof (authority_roundtrip u p h o _ Hh Hu Ho) as E. destruct (host_text _ _ Hh) as (Ht & Hne' & _).
        unfold auth_text. set (a := creds_text u p ++ serialize_host h ++ port_text o) in *.
        assert (no_slash (is_special_scheme sc) a) as Hn.
        { apply Forall_app. split; [by apply creds_no_slash|]. apply text_no_slash, Forall_app. split; [done|apply port_text_text]. }
        assert (a <> []) as Ha by (unfold a; intros [_ [? _]%app_eq_nil]%app_eq_nil; done).
        destruct (is_special_scheme sc).
        -- change ((lit "//" ++ a) ++ path) with (SLASH :: SLASH :: a ++ path). cbn [drop_while].
           change (is_slash true SLASH) with true. cbv iota. rewrite drop_while_id.
           2: { destruct a as [|b a']; [done|]. by apply Forall_inv in Hn. }
           rewrite break_at_app by done. by rewrite E.
        -- rewrite <- app_assoc. rewrite (proj2 (strip_prefix_Some (lit "//") _ (a ++ path))) by done.
           rewrite break_at_app by done. by rewrite E.
    + unfold auth_ok in Hok. rewrite bool_decide_eq_false_2 in Hok by done. destruct Hok as (Es & -> & -> & -> & Hp).
      rewrite Es. cbn [auth_text app]. by rewrite Hp.
Qed.
