(* ===== verification/WebParse.v ===== *)
(** * URLs: the parser and the written form (px-websec/src/origin/url.rs)

    [Url::parse] returns well-formed URLs only; a well-formed URL is read back
    from its written form; the upgrade to https keeps a URL well formed. *)
From S2P Require Import Prelude Bytes Text Chars WebUrl WebHost WebCanon.
Import Url.
Local Open Scope Z_scope.

(** ** Cleaning the input *)
Definition keep (c : byte) : bool := negb (is_tab_or_newline c).

Definition ends_ok (l : list byte) : Prop := match last l with Some b => is_blank b = false | None => True end.

Lemma blank_keep b : is_blank b = false -> keep b = true.
Proof. intros H. destruct b; try (by vm_compute in H); done. Qed.

Lemma ends_ok_snoc l b : ends_ok (l ++ [b]) <-> is_blank b = false.
Proof. unfold ends_ok. by rewrite last_snoc. Qed.

Lemma ends_ok_app x y : y <> [] -> ends_ok (x ++ y) <-> ends_ok y.
Proof. intros Hy. destruct y as [|b y _] using rev_ind; [done|]. by rewrite app_assoc, !ends_ok_snoc. Qed.

Lemma ends_ok_suffix x y : ends_ok (x ++ y) -> ends_ok y.
Proof. intros H. destruct (decide (y = [])) as [->|Hy]; [done|]. by apply (ends_ok_app x y). Qed.

Lemma ends_ok_text l : is_text l -> ends_ok l.
Proof.
  intros H. destruct l as [|b l _] using rev_ind; [done|]. apply ends_ok_snoc. apply Forall_app in H as [_ H].
  apply Forall_inv in H. cbv beta in H. unfold text_byte in H. by destruct (is_blank b).
Qed.

Lemma filter_id {A} (f : A -> bool) l : Forall (fun a => f a = true) l -> List.filter f l = l.
Proof. induction 1 as [|a l Ha Hl IH]; [done|]. simpl. by rewrite Ha, IH. Qed.

Lemma clean_ok s : Forall (fun b => keep b = true) (clean s) /\ ends_ok (clean s).
Proof.
  unfold clean, trim_matches. set (t := reverse (drop_while is_blank (reverse (drop_while is_blank s)))). fold keep. split.
  - apply Forall_forall. intros b Hb. apply list_elem_of_In, filter_In in Hb as [_ ?]. done.
  - destruct (drop_while_suffix is_blank (reverse (drop_while is_blank s))) as (k & _ & Hd).
    unfold t. destruct (drop_while is_blank (reverse _)) as [|b r]; [done|]. rewrite reverse_cons, List.filter_app.
    change (ends_ok (List.filter keep (reverse r) ++ List.filter keep [b])).
    rewrite (filter_id keep [b]) by (constructor; [by apply blank_keep|done]). by apply ends_ok_snoc.
Qed.

Lemma clean_id b l : is_blank b = false -> Forall (fun b => keep b = true) (b :: l) -> ends_ok (b :: l) -> clean (b :: l) = b :: l.
Proof.
  intros Hb Hk He. unfold clean, trim_matches. rewrite (drop_while_id _ (b :: l)) by done. rewrite (drop_while_id _ (reverse (b :: l))).
  - rewrite reverse_involutive. by apply filter_id.
  - unfold ends_ok in He. rewrite <- (reverse_involutive (b :: l)), last_reverse in He. by destruct (reverse (b :: l)).
Qed.

(** ** Schemes *)
Definition scheme_ok (sc : list byte) : Prop :=
  match sc with
  | [] => False
  | a :: t => is_alphabetic a = true /\ Forall (fun b => is_scheme_byte b = true) t /\ Forall (fun b => in_range 65 90 b = false) sc
  end.

Lemma alphabetic_scheme a : is_alphabetic a = true -> is_scheme_byte a = true.
Proof. unfold is_scheme_byte. by intros ->. Qed.

Lemma scheme_byte_ok b : is_scheme_byte b = true ->
  b <> COLON /\ is_ascii_byte b = true /\ is_blank b = false /\ is_scheme_byte (ascii_lower_byte b) = true /\
  is_alphabetic (ascii_lower_byte b) = is_alphabetic b.
Proof. intros H. destruct b; try (by vm_compute in H); by split_and!. Qed.

Lemma split_scheme_ok s sc rest : split_scheme s = Some (sc, rest) -> scheme_ok sc /\ (exists k, s = k ++ COLON :: rest).
Proof.
  unfold split_scheme. intros ([sc' rest'] & [-> Hc]%split_once_spec & H)%bind_Some. destruct sc' as [|a t]; [done|].
  destruct (_ || _) eqn:E; [done|]. injection H as <- <-. apply orb_false_iff in E as [E1%negb_false_iff E2%negb_false_iff].
  split; [|by eexists]. apply forallb_true in E2. change (to_ascii_lowercase (a :: t)) with (ascii_lower_byte a :: map ascii_lower_byte t).
  unfold scheme_ok. split_and!.
  - destruct (scheme_byte_ok a (alphabetic_scheme _ E1)) as (_ & _ & _ & _ & ->). done.
  - apply Forall_map. eapply Forall_impl; [exact E2|]. intros b Hb. by apply scheme_byte_ok in Hb as (_ & _ & _ & ? & _).
  - apply (Forall_map ascii_lower_byte _ (a :: t)).
    constructor; [by apply lower_byte_ok, scheme_byte_ok, alphabetic_scheme|].
    eapply Forall_impl; [exact E2|]. intros b Hb. by apply lower_byte_ok, scheme_byte_ok.
Qed.

Lemma scheme_ok_all sc : scheme_ok sc -> Forall (fun b => is_scheme_byte b = true) sc.
Proof. destruct sc as [|a t]; [done|]. intros (Ha & Ht & _). constructor; [by apply alphabetic_scheme|done]. Qed.

Lemma split_scheme_app sc rest : scheme_ok sc -> split_scheme (sc ++ COLON :: rest) = Some (sc, rest).
Proof.
  intros Hs. pose proof (scheme_ok_all _ Hs) as Ha. unfold split_scheme. rewrite (proj2 (split_once_spec COLON _ sc rest)).
  2: { split; [done|]. eapply not_in_Forall; [exact Ha|]. by vm_compute. }
  cbn [mbind option_bind]. destruct sc as [|a t]; [done|]. destruct Hs as (H1 & H2 & H3). rewrite H1.
  rewrite (proj2 (forallb_true _ _) H2). cbn [negb orb]. by rewrite lower_id.
Qed.

(** ** Well-formed URLs *)
Definition port_ok (sc : list byte) (o : option Z) : Prop := port_range o /\ (o <> None -> o <> default_port sc).

Definition query_text (o : option (list byte)) : list byte := match o with Some q => QUESTION :: q | None => [] end.
Definition fragment_text (o : option (list byte)) : list byte := match o with Some f => HASH :: f | None => [] end.

(** Bytes of the part before the query, of the query, and of the fragment. *)
Definition main_byte (b : byte) : Prop := keep b = true /\ b <> QUESTION /\ b <> HASH.
Definition query_byte (b : byte) : Prop := keep b = true /\ b <> HASH.

Record canonical (u : Url.t) : Prop := {
  ca_scheme : scheme_ok (scheme u);
  ca_auth : auth_ok (scheme u) (username u) (password u) (host u) (port u) (path u);
  ca_port : port_ok (scheme u) (port u);
  ca_path : is_special u = true -> path u <> [] /\ (BACKSLASH ∉ path u);
  ca_main : Forall main_byte (username u) /\ Forall main_byte (password u) /\ Forall main_byte (path u);
  ca_query : Forall query_byte (default [] (query u));
  ca_fragment : Forall (fun b => keep b = true) (default [] (fragment u));
  ca_end : ends_ok (path u ++ query_text (query u) ++ fragment_text (fragment u))
}.

(** The one shape a written URL does not have: a file whose path has no slash
    in front. *)
Definition file_rooted (u : Url.t) : Prop := scheme u = lit "file" -> head (path u) = Some SLASH.

Definition backslashes (l : list byte) : list byte := map (fun c => if bool_decide (c = BACKSLASH) then SLASH else c) l.
Definition tail_path (special : bool) (tail : list byte) : list byte :=
  if special then let p := backslashes tail in if bool_decide (p = []) then [SLASH] else p else tail.

Lemma backslashes_ok l : BACKSLASH ∉ backslashes l.
Proof.
  unfold backslashes. rewrite list_elem_of_In, in_map_iff. intros (c & E & _). case_bool_decide; [done|]. by subst.
Qed.

Lemma backslashes_Forall (P : byte -> Prop) l : P SLASH -> Forall P l -> Forall P (backslashes l).
Proof. intros Hs Hl. apply Forall_map. eapply Forall_impl; [exact Hl|]. intros b Hb. cbv beta. by case_bool_decide. Qed.

Lemma backslashes_id l : (BACKSLASH ∉ l) -> backslashes l = l.
Proof.
  unfold backslashes. induction l as [|b l IH]; [done|]. intros [Hb Hl]%not_elem_of_cons. simpl.
  rewrite IH by done. by rewrite bool_decide_eq_false_2.
Qed.

Lemma tail_path_id special p : (special = true -> p <> [] /\ (BACKSLASH ∉ p)) -> tail_path special p = p.
Proof.
  intros H. unfold tail_path. destruct special; [|done]. destruct (H eq_refl) as [Hne Hb]. cbv zeta.
  rewrite backslashes_id by done. by rewrite bool_decide_eq_false_2.
Qed.

Lemma tail_path_Forall (P : byte -> Prop) special l : P SLASH -> Forall P l -> Forall P (tail_path special l).
Proof.
  intros Hs Hl. unfold tail_path. destruct special; [|done]. cbv zeta. destruct (bool_decide _); [by repeat constructor|].
  by apply backslashes_Forall.
Qed.

Lemma tail_path_ends special l : ends_ok l -> ends_ok (tail_path special l).
Proof.
  intros Hl. unfold tail_path. destruct special; [|done]. cbv zeta. destruct (bool_decide _); [done|].
  destruct l as [|b l _] using rev_ind; [done|]. unfold backslashes. rewrite map_app. simpl. apply ends_ok_snoc.
  case_bool_decide; [done|]. by apply ends_ok_snoc in Hl.
Qed.

Lemma tail_path_auth sc u p h o tail : auth_ok sc u p h o tail -> auth_ok sc u p h o (tail_path (is_special_scheme sc) tail).
Proof.
  intros H. destruct (is_special_scheme sc) eqn:Es; [|done].
  assert (rooted true tail -> rooted true (tail_path true tail)) as Hr.
  { unfold tail_path. cbv zeta. destruct tail as [|b l]; [done|]. simpl. intros Hb. by case_bool_decide. }
  unfold auth_ok in *. destruct (bool_decide _); [done|]. rewrite Es in *. destruct h as [[]|]; naive_solver.
Qed.

Lemma tail_path_special special l : special = true -> tail_path special l <> [] /\ (BACKSLASH ∉ tail_path special l).
Proof.
  intros ->. unfold tail_path. cbv zeta. destruct (bool_decide _) eqn:E; [by split; [|vm_compute; intros []%list_elem_of_In]|].
  split; [by apply bool_decide_eq_false in E|apply backslashes_ok].
Qed.

(** ** What the parser returns *)
Lemma cut_spec c l x o :
  match split_once c l with Some (a, f) => (a, Some f) | None => (l, None) end = (x, o) ->
  l = x ++ match o with Some f => c :: f | None => [] end /\ (c ∉ x).
Proof.
  destruct (split_once c l) as [[a f]|] eqn:E; intros [= <- <-].
  - by apply split_once_spec in E.
  - rewrite app_nil_r. by apply split_once_None in E.
Qed.

Lemma cut_app c x o : (c ∉ x) ->
  match split_once c (x ++ match o with Some f => c :: f | None => [] end) with
  | Some (a, f) => (a, Some f)
  | None => (x ++ match o with Some f => c :: f | None => [] end, None)
  end = (x, o).
Proof.
  intros Hx. destruct o as [f|].
  - by rewrite (proj2 (split_once_spec c _ x f)).
  - rewrite app_nil_r. by rewrite (proj2 (split_once_None c x)).
Qed.

(** The URL as it was put together, from the parts of the input. *)
Lemma parse_parts s u :
  Url.parse s = Some u ->
  exists k main tail o,
    clean s = k ++ COLON :: main ++ query_text (query u) ++ fragment_text (fragment u) /\
    scheme_ok (scheme u) /\ (QUESTION ∉ main) /\ (HASH ∉ main ++ query_text (query u)) /\
    parse_after_scheme (scheme u) main = Some (username u, password u, host u, o, tail) /\
    path u = tail_path (is_special u) tail /\
    port u = match o, default_port (scheme u) with Some x, Some d => if x =? d then None else o | _, _ => o end.
Proof.
  unfold Url.parse. destruct (_ <? len s); [done|]. intros ([sc rest] & [Hsc (k & Hk)]%split_scheme_ok & H)%bind_Some.
  destruct (match split_once HASH rest with Some (a, f) => (a, Some f) | None => (rest, None) end) as [r1 fr] eqn:E1.
  apply cut_spec in E1 as [-> H1].
  destruct (match split_once QUESTION r1 with Some (a, f) => (a, Some f) | None => (r1, None) end) as [r2 q] eqn:E2.
  apply cut_spec in E2 as [-> H2]. apply bind_Some in H as ([[[[us pw] h] o] tail] & Ha & [= <-]).
  exists k, r2, tail, o. unfold is_special. simpl. rewrite <- !app_assoc in Hk. split_and!; try done.
Qed.

Lemma main_bytes l : Forall (fun b => keep b = true) l -> (QUESTION ∉ l) -> (HASH ∉ l) -> Forall main_byte l.
Proof.
  intros Hl Hq Hh. rewrite Forall_forall in Hl |- *. intros b Hb. split_and!; [by apply Hl|congruence..].
Qed.

Lemma parse_canonical s u : Url.parse s = Some u -> canonical u.
Proof.
  intros (k & main & tail & o & Hc & Hs & Hq & Hh & Ha & Hp & Ho)%parse_parts.
  destruct (clean_ok s) as [Hk He]. rewrite Hc in Hk, He. apply Forall_app in Hk as [_ Hk]. apply Forall_cons in Hk as [_ Hk].
  apply Forall_app in Hk as [Hkm Hk]. apply Forall_app in Hk as [Hkq Hkf]. rewrite not_elem_of_app in Hh. destruct Hh as [Hhm Hhq].
  apply parse_after_scheme_ok in Ha as (Hok & (k' & Ek) & HP). pose proof (main_bytes _ Hkm Hq Hhm) as Hm.
  assert (port_range o) as Hro.
  { clear -Hok. unfold auth_ok in Hok. destruct (bool_decide _); [by destruct Hok as (_ & _ & -> & _)|].
    destruct (host u) as [[]|]; try (by destruct Hok as (_ & _ & _ & -> & _)); by destruct Hok as (_ & _ & _ & _ & ? & _). }
  split.
  - done.
  - rewrite Hp. unfold is_special. apply tail_path_auth. clear -Hok Ho. unfold auth_ok in *. destruct (bool_decide _).
    + destruct Hok as (-> & -> & -> & Hok). by rewrite Ho.
    + destruct (host u) as [[]|]; try (by destruct Hok as (-> & -> & -> & -> & Hok); rewrite Ho; split_and!).
      all: destruct Hok as (H1 & H2 & H3 & H4 & H5 & H6); split_and!; try done; rewrite Ho;
        destruct o as [x|], (default_port (scheme u)) as [dp|]; try done; by destruct (x =? dp).
  - rewrite Ho. unfold port_ok. destruct o as [x|]; [|by split]. destruct (default_port (scheme u)) as [d|]; [|by split].
    destruct (x =? d) eqn:E; [by split|]. apply Z.eqb_neq in E. split; [done|congruence].
  - intros Hsp. rewrite Hp. by apply tail_path_special.
  - destruct (HP _ Hm) as [Hu Hw]. split_and!; [done|done|]. rewrite Hp. apply tail_path_Forall; [done|].
    rewrite Ek in Hm. by apply Forall_app in Hm as [_ ?].
  - destruct (query u) as [q|]; simpl in *; [|constructor]. apply Forall_cons in Hkq as [_ Hkq].
    apply not_elem_of_cons in Hhq as [_ Hhq]. rewrite Forall_forall in Hkq |- *. intros b Hb. split; [by apply Hkq|congruence].
  - destruct (fragment u) as [f|]; simpl in *; [|constructor]. by apply Forall_cons in Hkf as [_ ?].
  - rewrite Ek, <- app_assoc, app_comm_cons, app_assoc in He. apply ends_ok_suffix in He. rewrite Hp.
    destruct (query_text (query u) ++ fragment_text (fragment u)) as [|b l] eqn:E.
    + rewrite app_nil_r in He |- *. by apply tail_path_ends.
    + apply ends_ok_app; [done|]. by apply ends_ok_app in He.
Qed.

(** ** The written form *)
Lemma serialize_text u : serialize u false =
  scheme u ++ COLON :: auth_text (username u) (password u) (host u) (port u) ++ path u ++ query_text (query u) ++ fragment_text (fragment u).
Proof.
  unfold serialize, auth_text, creds_text, has_credentials. rewrite <- app_assoc. cbn [app]. do 2 f_equal.
Qed.

Lemma auth_text_main sc u p h o tail : auth_ok sc u p h o tail -> Forall main_byte u -> Forall main_byte p ->
  Forall main_byte (auth_text u p h o).
Proof.
  intros Hok Hu Hp. assert (forall l, is_text l -> Forall main_byte l) as Ht.
  { intros l Hl. eapply Forall_impl; [exact Hl|]. intros b Hb. cbv beta in Hb. unfold main_byte. destruct b; try (by vm_compute in Hb); by split_and!. }
  destruct h as [h|]; [|constructor]. unfold auth_text. apply Forall_app. split; [by repeat constructor|]. apply Forall_app. split.
  - unfold creds_text. destruct (_ || _); [|constructor]. rewrite !Forall_app. split_and!; [done| |by repeat constructor].
    destruct (negb _); [|constructor]. constructor; [by split_and!|done].
  - apply Ht, Forall_app. split; [|apply port_text_text]. unfold auth_ok in Hok. destruct (bool_decide _).
    + destruct Hok as (_ & _ & _ & [[= ->]|(d & [= ->] & Hd & _)]); [constructor|by apply host_text in Hd as [? _]].
    + destruct h; try (by destruct Hok as (Hh & _); apply host_text in Hh as [? _]). constructor.
Qed.

Lemma auth_ends sc u p h o tail : auth_ok sc u p h o tail -> ends_ok (COLON :: auth_text u p h o).
Proof.
  intros Hok. destruct h as [h|]; [|done]. unfold auth_text. rewrite app_comm_cons, app_assoc.
  destruct (decide (serialize_host h ++ port_text o = [])) as [->|Hne].
  - rewrite app_nil_r. unfold creds_text. destruct (_ || _); [|done]. rewrite app_assoc, app_assoc. by apply ends_ok_snoc.
  - apply ends_ok_app; [done|]. apply ends_ok_text, Forall_app. split; [|apply port_text_text]. unfold auth_ok in Hok.
    destruct (bool_decide _).
    + destruct Hok as (_ & _ & _ & [[= ->]|(d & [= ->] & Hd & _)]); [constructor|by apply host_text in Hd as [? _]].
    + destruct h; try (by destruct Hok as (Hh & _); apply host_text in Hh as [? _]). constructor.
Qed.

Lemma canonical_parse u :
  canonical u -> file_rooted u -> len (serialize u false) <= MAX_URL_BYTES -> Url.parse (serialize u false) = Some u.
Proof.
  intros [Hs Ha [Hr Hd] Hp (Hmu & Hmp & Hmp') Hq Hf He] Hfile Hlen. unfold Url.parse. rewrite (proj2 (Z.ltb_ge _ _)) by done.
  rewrite serialize_text. set (a := auth_text (username u) (password u) (host u) (port u)).
  assert (Forall main_byte (a ++ path u)) as Hmain.
  { apply Forall_app. split; [|done]. by eapply auth_text_main. }
  assert (forall (P : byte -> Prop) l, Forall main_byte l -> (forall b, main_byte b -> P b) -> Forall P l) as Hw.
  { intros P l Hl H. eapply Forall_impl; [exact Hl|exact H]. }
  assert (clean (scheme u ++ COLON :: a ++ path u ++ query_text (query u) ++ fragment_text (fragment u)) =
          scheme u ++ COLON :: a ++ path u ++ query_text (query u) ++ fragment_text (fragment u)) as ->.
  { pose proof (scheme_ok_all _ Hs) as Hall. destruct (scheme u) as [|b t] eqn:Es; [done|]. cbn [app]. apply clean_id.
    - apply Forall_inv in Hall. by apply scheme_byte_ok in Hall as (_ & _ & ? & _).
    - rewrite app_comm_cons. apply Forall_app. split.
      + eapply Forall_impl; [exact Hall|]. intros x Hx. apply scheme_byte_ok in Hx as (_ & _ & Hx & _). by apply blank_keep.
      + constructor; [done|]. rewrite app_assoc. rewrite !Forall_app. split_and!.
        * apply Forall_app in Hmain as [Hma _]. eapply Hw; [exact Hma|]. by intros x [? _].
        * eapply Hw; [exact Hmp'|]. by intros x [? _].
        * unfold query_text. destruct (query u); [|constructor]. constructor; [done|]. eapply Forall_impl; [exact Hq|]. by intros x [? _].
        * unfold fragment_text. destruct (fragment u); [|constructor]. by constructor.
    - rewrite app_comm_cons. apply ends_ok_app; [done|]. rewrite app_comm_cons.
      destruct (decide (path u ++ query_text (query u) ++ fragment_text (fragment u) = [])) as [->|Hne].
      + rewrite app_nil_r. by eapply auth_ends.
      + by apply ends_ok_app. }
  rewrite split_scheme_app by done. cbn [mbind option_bind].
  assert (HASH ∉ (a ++ path u) ++ query_text (query u)) as Hh.
  { apply not_elem_of_app. split; [eapply not_in_Forall; [exact Hmain|]; by intros (_ & _ & ?)|].
    unfold query_text. destruct (query u); simpl in *; [|apply not_elem_of_nil]. apply not_elem_of_cons. split; [done|].
    eapply not_in_Forall; [exact Hq|]. by intros [_ ?]. }
  rewrite app_assoc, app_assoc. unfold fragment_text at 1 2. rewrite cut_app by done. unfold query_text. rewrite cut_app.
  2: { eapply not_in_Forall; [exact Hmain|]. by intros (_ & ? & _). }
  unfold a. rewrite after_scheme_roundtrip by done. cbn [mbind option_bind].
  change (if is_special_scheme (scheme u) then _ else path u) with (tail_path (is_special u) (path u)).
  rewrite tail_path_id by done.
  assert (match port u, default_port (scheme u) with Some x, Some d => if x =? d then None else port u | _, _ => port u end = port u) as ->.
  { destruct (port u) as [x|] eqn:Ex, (default_port (scheme u)) as [d|] eqn:Ed; try done.
    destruct (x =? d) eqn:E; [|done]. apply Z.eqb_eq in E. exfalso. apply Hd; congruence. }
  by destruct u.
Qed.

(** ** The properties *)

(** C28: every URL the parser accepts whose written form is within the parser's length
    bound and which, when it is a [file:] URL, has a path that begins with a slash,
    is read back from its written form, fragment included, whatever its host (name,
    IPv4, IPv6, opaque), port, credentials and path were.  A [file:] URL without that
    slash is read back as another one: [file_without_slash]. *)
Theorem url_roundtrip s u :
  Url.parse s = Some u -> file_rooted u -> len (serialize u false) <= MAX_URL_BYTES ->
  Url.parse (serialize u false) = Some u.
Proof. intros Hu Hf Hl. apply canonical_parse; [by eapply parse_canonical|done|done]. Qed.

(** the upgrade takes exactly the [http] URLs; what it returns is a
    well-formed [https] URL to the same host and the same explicit port, except
    that port 443 and no port both become the default one, and every other part
    is unchanged. *)
Theorem upgrade_is_https s u :
  Url.parse s = Some u ->
  match upgraded_to_https u with
  | None => scheme u <> lit "http"
  | Some v =>
      scheme u = lit "http" /\ scheme v = lit "https" /\ canonical v /\ host v = host u /\
      effective_port v = Some (default 443 (port u)) /\
      (username v, password v, path v, query v, fragment v) = (username u, password u, path u, query u, fragment u)
  end.
Proof.
  intros Hu%parse_canonical. unfold upgraded_to_https. destruct (bool_decide (scheme u = lit "http")) eqn:E; cbn [negb].
  2: { by apply bool_decide_eq_false in E. }
  apply bool_decide_eq_true in E. destruct Hu as [Hs Ha [Hr Hd] Hp Hm Hq Hf He]. rewrite E in Ha, Hd, Hs.
  rewrite (bool_decide_eq_false_2 (port u = Some 80)).
  2: { intros E'. rewrite E' in Hd. by apply Hd. }
  cbv zeta. split_and!; [done|done| |done| |done].
  - assert (port_range (if bool_decide (port u = Some 443) then None else port u)) as Hr' by (by case_bool_decide).
    split; cbn [scheme username password host port path query fragment]; try done.
    + split_and!; repeat constructor.
    + unfold auth_ok in *. change (bool_decide (lit "http" = lit "file")) with false in Ha.
      change (bool_decide (lit "https" = lit "file")) with false. change (is_special_scheme (lit "http")) with true in Ha.
      change (is_special_scheme (lit "https")) with true. cbv iota in *.
      destruct (host u) as [[]|]; try (by destruct Ha as (? & _)).
      all: destruct Ha as (H1 & H2 & H3 & H4 & _ & H6); by split_and!.
    + split; [done|]. case_bool_decide as E'; [done|]. intros _. by change (default_port (lit "https")) with (Some 443).
    + intros _. apply Hp. unfold is_special. by rewrite E.
  - unfold effective_port. cbn [port scheme]. case_bool_decide as E'; [by rewrite E'|]. by destruct (port u).
Qed.

Module UrlUses.
Definition shop : list byte := lit "HTTP://u:p@EX%41mple.com:8080/a\b?q#f".

Lemma url_roundtrip_witness :
  match Url.parse shop with Some u => Url.parse (serialize u false) = Some u | None => False end.
Proof.
  destruct (Url.parse shop) as [u|] eqn:E; [|by vm_compute in E].
  apply (url_roundtrip shop u E); vm_compute in E; injection E as <-; by vm_compute.
Defined.

Lemma upgrade_is_https_witness :
  match Url.parse shop with Some u => match upgraded_to_https u with Some v => host v = host u | None => False end | None => False end.
Proof.
  destruct (Url.parse shop) as [u|] eqn:E; [|by vm_compute in E]. pose proof (upgrade_is_https shop u E) as H.
  destruct (upgraded_to_https u) as [v|]; [exact (proj1 (proj2 (proj2 (proj2 H))))|]. vm_compute in E. injection E as <-. by apply H.
Defined.

(** A [file:] URL whose path has no slash in front is written as if the start
    of the path were a host, and read back so. *)
Lemma file_without_slash :
  (fun u => (host u, path u, serialize u false)) <$> Url.parse (lit "file:x/y") = Some (Some EmptyHost, lit "x/y", lit "file://x/y") /\
  (fun u => (host u, path u)) <$> Url.parse (lit "file://x/y") = Some (Some (Domain (lit "x")), lit "/y").
Proof. by vm_compute. Qed.
End UrlUses.
