(* ===== verification/WebOrigin.v ===== *)
(** * Origins and sites of the policy modules (px-websec/src/origin/mod.rs)

    The counter behind opaque origins is threaded through the functions that
    may take from it. *)
From S2P Require Import Prelude Bytes Text Chars Partition WebUrl WebHost WebCanon WebParse.
Local Open Scope Z_scope.

(** ** The counter [NEXT_OPAQUE] *)
Definition counted (A : Type) : Type := Z -> A * Z.
Definition counted_ret {A} (a : A) : counted A := fun n => (a, n).
Definition counted_bind {A B} (m : counted A) (k : A -> counted B) : counted B := fun n => let '(a, n') := m n in k a n'.

Declare Scope counted_scope.
Delimit Scope counted_scope with counted.
Notation "'let*' x ':=' m 'in' k" := (counted_bind m (fun x => k)) (at level 10, x pattern, k at level 200) : counted_scope.
Open Scope counted_scope.

Module WOrigin.
Inductive t :=
| Opaque (id : Z)
| Tuple (scheme : list byte) (host : Host) (port : option Z).

#[global] Instance eq_dec : EqDecision t.
Proof. solve_decision. Defined.

(** [fetch_update] with [checked_add]: the last number is not passed. *)
Definition new_opaque : counted t := fun n => (Opaque n, sat_add n 1).

Definition tuple (scheme : list byte) (host : Host) (port : option Z) : option t :=
  let scheme := to_ascii_lowercase scheme in
  if negb (is_special_scheme scheme) || bool_decide (scheme = lit "file") then None
  else match host with
       | EmptyHost | WebUrl.Opaque _ => None
       | _ =>
           let port := match port, default_port scheme with
                       | Some p, Some d => if p =? d then None else port
                       | _, _ => port
                       end in
           Some (Tuple scheme host port)
       end.

Definition from_url_inner (url : Url.t) : counted t :=
  match (if Url.is_special url && negb (bool_decide (Url.scheme url = lit "file"))
         then h ← Url.host url; tuple (Url.scheme url) h (Url.port url) else None) with
  | Some o => counted_ret o
  | None => new_opaque
  end.

Definition from_url (url : Url.t) : counted t :=
  if bool_decide (Url.scheme url = lit "blob") then
    match Url.parse (Url.path url) with
    | Some inner =>
        if bool_decide (Url.scheme inner = lit "http") || bool_decide (Url.scheme inner = lit "https")
        then from_url_inner inner else new_opaque
    | None => new_opaque
    end
  else from_url_inner url.

Definition for_document (url : Url.t) (creator : option t) : counted t :=
  if bool_decide (Url.scheme url = lit "about") &&
     (bool_decide (Url.path url = lit "blank") || bool_decide (Url.path url = lit "srcdoc"))
  then match creator with Some o => counted_ret o | None => new_opaque end
  else from_url url.

Definition is_opaque (o : t) : bool := match o with Opaque _ => true | _ => false end.
Definition scheme (o : t) : option (list byte) := match o with Tuple s _ _ => Some s | _ => None end.
Definition host (o : t) : option Host := match o with Tuple _ h _ => Some h | _ => None end.

Definition serialize (o : t) : list byte :=
  match o with
  | Opaque _ => lit "null"
  | Tuple scheme host port =>
      match port with
      | Some p => scheme ++ lit "://" ++ serialize_host host ++ [COLON] ++ decimal p
      | None => scheme ++ lit "://" ++ serialize_host host
      end
  end.

Definition same_origin (a b : t) : bool := bool_decide (a = b).
End WOrigin.
Import WOrigin.

(** ** Sites *)
(** The resolver is the interface [SiteResolver] that [Psl.registrable_domain]
    implements. *)
Module WSite.
Inductive t :=
| OpaqueSite (id : Z)
| TupleSite (scheme host : list byte).

#[global] Instance eq_dec : EqDecision t.
Proof. solve_decision. Defined.

Definition of_origin {T} `{SiteResolver T} (origin : WOrigin.t) (resolver : T) : t :=
  match origin with
  | Opaque id => OpaqueSite id
  | Tuple scheme host _ =>
      let ser := serialize_host host in
      let h := match host with Domain d => default ser (site_of resolver d) | _ => ser end in
      TupleSite scheme h
  end.
End WSite.

Definition same_site {T} `{SiteResolver T} (a b : WOrigin.t) (resolver : T) : bool :=
  bool_decide (WSite.of_origin a resolver = WSite.of_origin b resolver).

Definition schemelessly_same_site {T} `{SiteResolver T} (a b : WOrigin.t) (resolver : T) : bool :=
  match WSite.of_origin a resolver, WSite.of_origin b resolver with
  | WSite.OpaqueSite x, WSite.OpaqueSite y => x =? y
  | WSite.TupleSite _ x, WSite.TupleSite _ y => bool_decide (x = y)
  | _, _ => false
  end.

Definition cross_site_for_cookies {T} `{SiteResolver T} (site_for_cookies request : WOrigin.t) (resolver : T) : bool :=
  negb (same_site site_for_cookies request resolver).

(** ** Well-formed origins *)
(** The schemes a tuple origin can have. *)
Definition tuple_scheme (sc : list byte) : Prop := is_special_scheme sc = true /\ sc <> lit "file".

Definition wf (o : WOrigin.t) : Prop :=
  match o with
  | Opaque _ => True
  | Tuple sc h p => tuple_scheme sc /\ host_ok true h /\ port_ok sc p
  end.

(** An origin that was handed out while the counter stood below [n]. *)
Definition issued (n : Z) (o : WOrigin.t) : Prop := match o with Opaque id => id < n | _ => True end.

(** The tuple a URL stands for, when it stands for one. *)
Definition tuple_of (u : Url.t) : option WOrigin.t :=
  if Url.is_special u && negb (bool_decide (Url.scheme u = lit "file"))
  then h ← Url.host u; tuple (Url.scheme u) h (Url.port u) else None.

(** The tuple origin of a URL, through [blob:]. *)
Definition url_tuple (u : Url.t) : option WOrigin.t :=
  if bool_decide (Url.scheme u = lit "blob") then
    inner ← Url.parse (Url.path u);
    if bool_decide (Url.scheme inner = lit "http") || bool_decide (Url.scheme inner = lit "https") then tuple_of inner else None
  else tuple_of u.

Lemma from_url_eq u n :
  from_url u n = match url_tuple u with Some o => (o, n) | None => (Opaque n, sat_add n 1) end.
Proof.
  unfold from_url, url_tuple. destruct (bool_decide (Url.scheme u = lit "blob")).
  - destruct (Url.parse (Url.path u)) as [inner|]; [|done]. cbn [mbind option_bind]. destruct (_ || _); [|done].
    unfold from_url_inner, tuple_of. by destruct (if _ && _ then _ else _).
  - unfold from_url_inner, tuple_of. by destruct (if _ && _ then _ else _).
Qed.

Lemma special_schemes sc : is_special_scheme sc = true ->
  sc = lit "http" \/ sc = lit "https" \/ sc = lit "ws" \/ sc = lit "wss" \/ sc = lit "ftp" \/ sc = lit "file".
Proof.
  unfold is_special_scheme. rewrite bool_decide_eq_true. simpl. rewrite !elem_of_cons, elem_of_nil. tauto.
Qed.

Lemma special_lower sc : is_special_scheme sc = true -> to_ascii_lowercase sc = sc.
Proof. by intros [-> |[-> |[-> |[-> |[-> | ->]]]]]%special_schemes. Qed.

(** A [tuple] of a well-formed URL keeps its fields. *)
Lemma tuple_of_canonical u : canonical u ->
  match tuple_of u with
  | Some o => exists h, Url.host u = Some h /\ o = Tuple (Url.scheme u) h (Url.port u) /\ tuple_scheme (Url.scheme u) /\ host_ok true h /\ port_ok (Url.scheme u) (Url.port u)
  | None => Url.is_special u = false \/ Url.scheme u = lit "file"
  end.
Proof.
  intros Hc. unfold tuple_of. destruct (Url.is_special u) eqn:Es; [|by left]. cbn [andb].
  destruct (bool_decide (Url.scheme u = lit "file")) eqn:Ef; [apply bool_decide_eq_true in Ef; by right|].
  pose proof Ef as Ef'. apply bool_decide_eq_false in Ef'. cbn [negb].
  destruct Hc as [_ Ha [Hr Hd] _ _ _ _ _]. unfold Url.is_special in Es. unfold auth_ok in Ha. rewrite Ef, Es in Ha.
  destruct (Url.host u) as [h|]; [|by destruct Ha]. cbn [mbind option_bind]. unfold tuple. cbv zeta. rewrite special_lower, Es, Ef by done.
  cbn [negb orb]. assert (host_ok true h) as Hh by (destruct h; try (by destruct Ha as [? _])).
  assert (match Url.port u, default_port (Url.scheme u) with Some p, Some d => if p =? d then None else Url.port u | _, _ => Url.port u end = Url.port u) as ->.
  { destruct (Url.port u) as [x|] eqn:Ex, (default_port (Url.scheme u)) as [d|] eqn:Ed; try done.
    destruct (x =? d) eqn:E; [|done]. apply Z.eqb_eq in E. exfalso. apply Hd; congruence. }
  destruct h; try (by destruct Hh as [? _]); try done; by eexists.
Qed.

Lemma url_tuple_wf s u o : Url.parse s = Some u -> url_tuple u = Some o -> wf o /\ is_opaque o = false.
Proof.
  intros Hu. unfold url_tuple. destruct (bool_decide _).
  - intros (inner & Hi & H)%bind_Some. destruct (_ || _); [|done]. apply parse_canonical, tuple_of_canonical in Hi. rewrite H in Hi.
    by destruct Hi as (h & _ & -> & H1 & H2 & H3).
  - intros H. apply parse_canonical, tuple_of_canonical in Hu. rewrite H in Hu. by destruct Hu as (h & _ & -> & H1 & H2 & H3).
Qed.

Lemma serialize_tuple sc h p : serialize (Tuple sc h p) = sc ++ COLON :: lit "//" ++ serialize_host h ++ port_text p.
Proof. destruct p as [p|]; [done|]. cbn [serialize port_text]. by rewrite app_nil_r. Qed.

Lemma tuple_scheme_no_colon sc : tuple_scheme sc -> COLON ∉ sc.
Proof. intros [[-> |[-> |[-> |[-> |[-> | ->]]]]]%special_schemes _]; by vm_compute; intros H; repeat (apply elem_of_cons in H as [H|H]; [done|]); apply elem_of_nil in H. Qed.

Lemma tuple_scheme_not_null sc l : tuple_scheme sc -> sc ++ COLON :: l <> lit "null".
Proof. by intros [[-> |[-> |[-> |[-> |[-> | ->]]]]]%special_schemes _]. Qed.

Lemma serialize_injective a b :
  wf a -> wf b -> is_opaque a = false -> serialize a = serialize b -> a = b.
Proof.
  destruct a as [|sc h p]; [done|]. intros (Hs & Hh & Hp & _) Hb _. rewrite serialize_tuple. destruct b as [|sc' h' p'].
  { intros E. by apply tuple_scheme_not_null in E. }
  destruct Hb as (Hs' & Hh' & Hp' & _). rewrite serialize_tuple. intros E.
  pose proof (proj2 (split_once_spec COLON _ sc (lit "//" ++ serialize_host h ++ port_text p)) (conj eq_refl (tuple_scheme_no_colon _ Hs))) as E1.
  pose proof (proj2 (split_once_spec COLON _ sc' _) (conj E (tuple_scheme_no_colon _ Hs'))) as E2. rewrite E1 in E2.
  injection E2 as <- Et.
  pose proof (authority_roundtrip [] [] h p true Hh ltac:(apply not_elem_of_nil) Hp) as A1.
  pose proof (authority_roundtrip [] [] h' p' true Hh' ltac:(apply not_elem_of_nil) Hp') as A2.
  change (creds_text [] []) with (@nil byte) in A1, A2. cbn [app] in A1, A2. rewrite Et, A2 in A1. by injection A1 as -> ->.
Qed.

(** the written form tells origins apart: two origins of accepted URLs,
    the first of them not opaque, are written alike only when they are the same
    origin.  (An opaque origin is written [null], which no URL's tuple is.) *)
Theorem written_origins_differ s1 s2 u1 u2 o1 o2 :
  Url.parse s1 = Some u1 -> Url.parse s2 = Some u2 -> url_tuple u1 = Some o1 ->
  (exists n, o2 = (from_url u2 n).1) -> serialize o1 = serialize o2 -> same_origin o1 o2 = true.
Proof.
  intros Hu1 Hu2 Ho1 [n ->] E. apply bool_decide_eq_true. apply (url_tuple_wf s1) in Ho1 as [Hw Hop]; [|done].
  apply serialize_injective; [done| |done|done]. rewrite from_url_eq. destruct (url_tuple u2) as [o|] eqn:E2; [|done].
  by apply (url_tuple_wf s2) in E2 as [? _].
Qed.

(** deriving an origin hands out the URL's own tuple (the inner URL's for
    [blob:]) or else an origin equal to none handed out before, as long as the
    counter has not reached its last value; a document inherits its creator's
    origin for [about:blank] and [about:srcdoc] only. *)
Theorem derived_origins n u creator :
  n < U64_MAX -> (match creator with Some o => issued n o | None => True end) ->
  let '(o, n') := for_document u creator n in
  n <= n' /\ issued n' o /\
  (forall old, issued n old -> same_origin o old = true ->
     url_tuple u = Some old \/ creator = Some old /\ Url.scheme u = lit "about" /\ (Url.path u = lit "blank" \/ Url.path u = lit "srcdoc")).
Proof.
  intros Hn Hc. assert (sat_add n 1 = n + 1) as Hs by (unfold sat_add; lia).
  assert (forall o n', (Opaque n, sat_add n 1) = (o, n') -> n <= n' /\ issued n' o /\ forall old, issued n old -> same_origin o old <> true) as Hnew.
  { intros o n' [= <- <-]. rewrite Hs. split_and!; [lia|simpl; lia|]. intros old Hold E%bool_decide_eq_true. subst old. simpl in Hold. lia. }
  assert (forall o n', from_url u n = (o, n') -> n <= n' /\ issued n' o /\ (forall old, issued n old -> same_origin o old = true -> url_tuple u = Some old)) as Hurl.
  { intros o n'. rewrite from_url_eq. destruct (url_tuple u) as [o'|] eqn:Eu.
    - intros [= <- <-]. split_and!; [lia| |by intros old _ ->%bool_decide_eq_true]. destruct o' as [id|]; [|done].
      exfalso. unfold url_tuple, tuple_of, tuple in Eu. repeat (case_match || (apply bind_Some in Eu as (? & _ & Eu))); simplify_eq.
    - intros E. destruct (Hnew _ _ E) as (H1 & H2 & H3). split_and!; [done..|]. intros old Ho E'. by apply H3 in E'. }
  destruct (for_document u creator n) as [o n'] eqn:E. unfold for_document in E.
  destruct (bool_decide (Url.scheme u = _)) eqn:Ea; cbn [andb] in E.
  2: { destruct (Hurl _ _ E) as (H1 & H2 & H3). split_and!; [done..|]. intros old Ho E'. left. by apply H3. }
  apply bool_decide_eq_true in Ea. destruct (_ || _) eqn:Ep.
  2: { destruct (Hurl _ _ E) as (H1 & H2 & H3). split_and!; [done..|]. intros old Ho E'. left. by apply H3. }
  apply orb_true_iff in Ep. rewrite !bool_decide_eq_true in Ep. destruct creator as [o'|].
  - injection E as <- <-. split_and!; [lia|done|]. intros old _ ->%bool_decide_eq_true. by right.
  - destruct (Hnew _ _ E) as (H1 & H2 & H3). split_and!; [done..|]. intros old Ho E'. by apply H3 in E'.
Qed.

(** ** Sites *)
Section sites.
Context {T : Type} `{SiteResolver T} (resolver : T).

Lemma schemelessly_weaker a b : same_site a b resolver = true -> schemelessly_same_site a b resolver = true.
Proof.
  unfold same_site, schemelessly_same_site. intros ->%bool_decide_eq_true. destruct (WSite.of_origin b resolver); [by apply Z.eqb_eq|by apply bool_decide_eq_true].
Qed.

(** the three comparisons are ordered: the same origin is the same site, the
    same site is schemelessly the same site, and cookies of the site go only with
    requests of the same site; and an opaque origin is of no site but its own. *)
Theorem sites_are_ordered a b :
  (same_origin a b = true -> same_site a b resolver = true) /\
  (same_site a b resolver = true -> schemelessly_same_site a b resolver = true) /\
  (cross_site_for_cookies a b resolver = false -> schemelessly_same_site a b resolver = true /\ scheme a = scheme b) /\
  (is_opaque a = true -> schemelessly_same_site a b resolver = true -> a = b).
Proof.
  split_and!.
  - unfold same_origin, same_site. intros ->%bool_decide_eq_true. by apply bool_decide_eq_true.
  - apply schemelessly_weaker.
  - unfold cross_site_for_cookies. intros E%negb_false_iff. split; [by apply schemelessly_weaker|].
    apply bool_decide_eq_true in E. by destruct a, b; simplify_eq/=.
  - destruct a as [id|]; [|done]. intros _. unfold schemelessly_same_site. destruct b as [id'|]; simpl; [|done]. by intros ->%Z.eqb_eq.
Qed.
End sites.

Module OriginUses.
Definition blob : list byte := lit "blob:https://shop.com/550e8400".
Definition data : list byte := lit "data:text/html,x".

Lemma derived_origins_witness :
  match Url.parse blob, Url.parse data with
  | Some b, Some d =>
      (for_document b None 7).1 = Tuple (lit "https") (Domain (lit "shop.com")) None /\
      (for_document d (Some (WOrigin.Opaque 3)) 7).1 = WOrigin.Opaque 7 /\ issued 8 (for_document d (Some (WOrigin.Opaque 3)) 7).1
  | _, _ => False
  end.
Proof.
  destruct (Url.parse blob) as [b|] eqn:E1; [|by vm_compute in E1]. destruct (Url.parse data) as [d|] eqn:E2; [|by vm_compute in E2].
  pose proof (derived_origins 7 d (Some (WOrigin.Opaque 3)) ltac:(unfold_width; lia) ltac:(simpl; lia)) as H.
  vm_compute in E1. vm_compute in E2. injection E1 as <-. injection E2 as <-.
  split; [vm_compute; reflexivity|]. split; [vm_compute; reflexivity|].
  match type of H with let '(o, n') := ?f in _ => change f with (WOrigin.Opaque 7, 8) in H end. exact (proj1 (proj2 H)).
Defined.
End OriginUses.

(** * Mixed content

    What is potentially trustworthy, and what a context that prohibits mixed
    content lets through. *)
Import WOrigin.
Local Open Scope Z_scope.

Definition host_is_loopback (host : Host) : bool :=
  match host with
  | Ipv4 a => bool_decide (head a = Some 127)
  | Ipv6 p => bool_decide (p = [0; 0; 0; 0; 0; 0; 0; 1])
  | Domain d =>
      let d := trim_end_matches DOT d in
      bool_decide (d = lit "localhost") || bool_decide (is_Some (strip_suffix (lit ".localhost") d))
  | WebUrl.Opaque _ | EmptyHost => false
  end.

Definition is_origin_potentially_trustworthy (origin : WOrigin.t) : bool :=
  match origin with
  | Opaque _ => false
  | Tuple scheme host _ =>
      bool_decide (scheme = lit "https") || bool_decide (scheme = lit "wss") || host_is_loopback host
  end.

Definition is_url_potentially_trustworthy (url : Url.t) : counted bool :=
  if bool_decide (Url.scheme url = lit "about") then
    counted_ret (bool_decide (Url.path url = lit "blank") || bool_decide (Url.path url = lit "srcdoc"))
  else if bool_decide (Url.scheme url = lit "data") || bool_decide (Url.scheme url = lit "file") then counted_ret true
  else let* o := from_url url in counted_ret (is_origin_potentially_trustworthy o).

Record ContextNode := mkNode { cn_url : Url.t; cn_origin : WOrigin.t }.

Definition is_trustworthy (node : ContextNode) : bool :=
  is_origin_potentially_trustworthy (cn_origin node) ||
  (is_opaque (cn_origin node) && bool_decide (Url.scheme (cn_url node) = lit "file")).

Inductive RequestKind :=
| Image | Audio | Video | Track | Script | Style | Font | Fetch | Subframe | Object | Worker | ServiceWorker
| WebSocket | Manifest | Prefetch | ImageSet | Beacon.

Inductive Category := Blockable | OptionallyBlockable.

Definition category (kind : RequestKind) : Category :=
  match kind with Image | Audio | Video => OptionallyBlockable | _ => Blockable end.

(** The ancestors, nearest first. *)
Record Context := mkContext { document : ContextNode; ancestors : list ContextNode }.

Definition prohibits_mixed (context : Context) : bool :=
  is_trustworthy (document context) || existsb is_trustworthy (ancestors context).

Inductive Verdict := Allow | Upgrade (url : Url.t) | Block.

(** [check_request] once the URL is known to be mixed content. *)
Definition mixed_verdict (kind : RequestKind) (url : Url.t) : Verdict :=
  match category kind with
  | Blockable => Block
  | OptionallyBlockable =>
      let ip_host := match Url.host url with Some (Ipv4 _) | Some (Ipv6 _) => true | _ => false end in
      match Url.upgraded_to_https url with
      | Some u => if ip_host then Block else Upgrade u
      | None => Block
      end
  end.

Definition check_request (context : Context) (kind : RequestKind) (url : Url.t) : counted Verdict :=
  if negb (prohibits_mixed context) then counted_ret Allow
  else let* trusted := is_url_potentially_trustworthy url in
       counted_ret (if trusted then Allow else mixed_verdict kind url).

Definition check_response (context : Context) (response_url : Url.t) : counted Verdict :=
  if negb (prohibits_mixed context) then counted_ret Allow
  else let* trusted := is_url_potentially_trustworthy response_url in counted_ret (if trusted then Allow else Block).

(** ** What is trusted does not depend on the counter *)
Definition trusted (url : Url.t) : bool :=
  if bool_decide (Url.scheme url = lit "about") then
    bool_decide (Url.path url = lit "blank") || bool_decide (Url.path url = lit "srcdoc")
  else bool_decide (Url.scheme url = lit "data") || bool_decide (Url.scheme url = lit "file") ||
       match url_tuple url with Some o => is_origin_potentially_trustworthy o | None => false end.

Lemma trusted_eq url n : (is_url_potentially_trustworthy url n).1 = trusted url.
Proof.
  unfold is_url_potentially_trustworthy, trusted. destruct (bool_decide (Url.scheme url = lit "about")); [done|].
  destruct (_ || _); [done|]. cbn [orb]. unfold counted_bind, counted_ret. rewrite from_url_eq.
  by destruct (url_tuple url).
Qed.

Lemma trusted_https u : canonical u -> Url.scheme u = lit "https" -> trusted u = true.
Proof.
  intros Hc Hs. unfold trusted, url_tuple. rewrite Hs.
  change (bool_decide (lit "https" = lit "about")) with false. change (bool_decide (lit "https" = lit "data")) with false.
  change (bool_decide (lit "https" = lit "file")) with false. change (bool_decide (lit "https" = lit "blob")) with false.
  cbn [orb]. apply tuple_of_canonical in Hc. destruct (tuple_of u) as [o|].
  - destruct Hc as (h & _ & -> & _). unfold is_origin_potentially_trustworthy. by rewrite Hs.
  - destruct Hc as [Hc|Hc]; [unfold Url.is_special in Hc|]; by rewrite Hs in Hc.
Qed.

(** in a context that prohibits mixed content a request goes out only to a
    trustworthy URL, its own or the https one it is upgraded to; only images,
    audio and video from an [http] URL whose host is a name are upgraded, to the
    same host, and the answer's own URL is held to the same test.  Outside such a
    context everything passes unchanged. *)
Theorem nothing_insecure_goes_out context kind s url n :
  Url.parse s = Some url ->
  (match (check_request context kind url n).1 with
   | Allow => prohibits_mixed context = true -> trusted url = true
   | Upgrade v => prohibits_mixed context = true /\ trusted url = false /\ trusted v = true /\ category kind = OptionallyBlockable /\
                  Url.scheme url = lit "http" /\ Url.scheme v = lit "https" /\ Url.host v = Url.host url /\ (exists d, Url.host url = Some (Domain d))
   | Block => prohibits_mixed context = true /\ trusted url = false
   end) /\
  (check_response context url n).1 = (if prohibits_mixed context && negb (trusted url) then Block else Allow).
Proof.
  intros Hu. unfold check_request, check_response. destruct (prohibits_mixed context); cbn [negb andb]; [|done].
  unfold counted_bind, counted_ret. pose proof (trusted_eq url n) as Ht. destruct (is_url_potentially_trustworthy url n) as [b n'].
  simpl in Ht. subst b. cbn [fst]. destruct (trusted url); cbn [negb]; [done|]. split; [|done]. unfold mixed_verdict.
  destruct (category kind); [done|]. pose proof (upgrade_is_https s url Hu) as H.
  destruct (Url.upgraded_to_https url) as [v|]; [|done]. destruct H as (Hs & Hv & Hc & Hh & _).
  assert (exists h, Url.host url = Some h /\ host_ok true h) as (h & Eh & Hok).
  { apply parse_canonical, tuple_of_canonical in Hu. destruct (tuple_of url) as [o|].
    - destruct Hu as (h & E & _ & _ & Hok & _). by exists h.
    - destruct Hu as [Hu|Hu]; [unfold Url.is_special in Hu|]; by rewrite Hs in Hu. }
  rewrite Eh. destruct h as [d|a|p|d|]; try done; [|by destruct Hok]. split_and!; try done.
  - by apply trusted_https.
  - by rewrite Hh.
  - by exists d.
Qed.

Module MixedUses.
Definition page : ContextNode := mkNode (Url.mkUrl (lit "https") [] [] (Some (Domain (lit "shop.com"))) None (lit "/") None None) (Tuple (lit "https") (Domain (lit "shop.com")) None).
Definition framed : Context := mkContext (mkNode (Url.mkUrl (lit "http") [] [] (Some (Domain (lit "ad.com"))) None (lit "/") None None) (Tuple (lit "http") (Domain (lit "ad.com")) None)) [page].
Definition picture : list byte := lit "http://img.com/a.png".

Lemma nothing_insecure_goes_out_witness :
  match Url.parse picture with
  | Some u => (exists v, (check_request framed Image u 1).1 = Upgrade v) /\ (check_request framed Script u 1).1 = Block /\
              (check_response framed u 1).1 = Block
  | None => False
  end.
Proof.
  destruct (Url.parse picture) as [u|] eqn:E; [|by vm_compute in E].
  pose proof (proj2 (nothing_insecure_goes_out framed Image picture u 1 E)) as H. vm_compute in E. injection E as <-.
  split; [eexists; vm_compute; reflexivity|]. split; [by vm_compute|]. rewrite H. by vm_compute.
Defined.
End MixedUses.
