(* ===== verification/Referrer.v ===== *)
(** * Referrer policy (px-websec/src/referrer.rs) *)
From S2P Require Import Prelude Bytes Text Chars Partition WebUrl WebHost WebCanon WebParse WebOrigin.
Import WOrigin.
Local Open Scope Z_scope.

Definition MAX_REFERRER_BYTES : Z := 4096.
Definition MAX_POLICY_INPUT : Z := 4096.

Inductive ReferrerPolicy :=
| NoReferrer | NoReferrerWhenDowngrade | SameOrigin | OriginOnly | StrictOrigin
| OriginWhenCrossOrigin | StrictOriginWhenCrossOrigin | UnsafeUrl.

#[export] Instance policy_eq_dec : EqDecision ReferrerPolicy.
Proof. solve_decision. Defined.

Definition DEFAULT : ReferrerPolicy := StrictOriginWhenCrossOrigin.

Definition as_str (p : ReferrerPolicy) : list byte :=
  match p with
  | NoReferrer => lit "no-referrer"
  | NoReferrerWhenDowngrade => lit "no-referrer-when-downgrade"
  | SameOrigin => lit "same-origin"
  | OriginOnly => lit "origin"
  | StrictOrigin => lit "strict-origin"
  | OriginWhenCrossOrigin => lit "origin-when-cross-origin"
  | StrictOriginWhenCrossOrigin => lit "strict-origin-when-cross-origin"
  | UnsafeUrl => lit "unsafe-url"
  end.

Definition ALL : list ReferrerPolicy :=
  [NoReferrer; NoReferrerWhenDowngrade; SameOrigin; OriginOnly; StrictOrigin; OriginWhenCrossOrigin; StrictOriginWhenCrossOrigin; UnsafeUrl].

Definition from_token (t : list byte) : option ReferrerPolicy := List.find (fun p => eq_ignore_ascii_case t (as_str p)) ALL.

Definition is_space (c : byte) : bool := bool_decide (c ∈ [x20; x09; x0a; x0d; x0c]).

Definition parse_header (value : list byte) : option ReferrerPolicy :=
  if MAX_POLICY_INPUT <? len value then None
  else last (omap (fun t => from_token (Url.trim_matches is_space t)) (split_on ","%byte value)).

Definition parse_attribute (value : list byte) : option ReferrerPolicy :=
  if MAX_POLICY_INPUT <? len value then None else from_token (Url.trim_matches is_space value).

Definition legacy : list (list byte * ReferrerPolicy) :=
  [(lit "never", NoReferrer); (lit "always", UnsafeUrl); (lit "origin-when-crossorigin", OriginWhenCrossOrigin)].

Definition parse_meta_content (value : list byte) : option ReferrerPolicy :=
  if MAX_POLICY_INPUT <? len value then None
  else
    let t := Url.trim_matches is_space value in
    match List.find (fun kp => eq_ignore_ascii_case t kp.1) legacy with
    | Some (_, p) => Some p
    | None => from_token t
    end.

Definition effective_policy (request_policy document_policy : option ReferrerPolicy) : ReferrerPolicy :=
  default DEFAULT (match request_policy with Some p => Some p | None => document_policy end).

Definition is_referrer_scheme (sc : list byte) : bool := bool_decide (sc ∈ map lit ["http"; "https"; "ws"; "wss"; "ftp"]%string).
Definition is_http (sc : list byte) : bool := bool_decide (sc = lit "http") || bool_decide (sc = lit "https").

Definition strip_for_referrer (source : Url.t) (origin_only : bool) : option Url.t :=
  if negb (is_referrer_scheme (Url.scheme source)) then None
  else
    let u := Url.strip_fragment (Url.strip_credentials source) in
    Some (if origin_only then Url.set_origin_only u else u).

(** The URL to send, once its two forms and the two comparisons are known. *)
Definition choose (policy : ReferrerPolicy) (full origin_only : Url.t) (same_origin downgrade : bool) : option Url.t :=
  match policy with
  | NoReferrer => None
  | OriginOnly => Some origin_only
  | UnsafeUrl => Some full
  | StrictOrigin => if downgrade then None else Some origin_only
  | StrictOriginWhenCrossOrigin => if same_origin then Some full else if downgrade then None else Some origin_only
  | OriginWhenCrossOrigin => if same_origin then Some full else Some origin_only
  | SameOrigin => if same_origin then Some full else None
  | NoReferrerWhenDowngrade => if downgrade then None else Some full
  end.

Definition compute (source : option Url.t) (policy : ReferrerPolicy) (request_url : Url.t) : counted (option (list byte)) :=
  match (if negb (is_http (Url.scheme request_url)) then None
         else source ← source;
              full ← strip_for_referrer source false;
              origin_only ← strip_for_referrer source true;
              Some (full, origin_only)) with
  | None => counted_ret None
  | Some (full, origin_only) =>
      let full := if MAX_REFERRER_BYTES <? len (Url.serialize full true) then origin_only else full in
      let* a := from_url full in
      let* b := from_url request_url in
      let* same_origin := (if bool_decide (a = b) then let* c := from_url full in counted_ret (negb (is_opaque c)) else counted_ret false) in
      let* t := is_url_potentially_trustworthy full in
      let* downgrade := (if t then let* r := is_url_potentially_trustworthy request_url in counted_ret (negb r) else counted_ret false) in
      counted_ret ((fun out => Url.serialize out true) <$> choose policy full origin_only same_origin downgrade)
  end.

(** ** What is sent *)
Definition shortened (src : Url.t) : Url.t :=
  let full := Url.strip_fragment (Url.strip_credentials src) in
  if MAX_REFERRER_BYTES <? len (Url.serialize full true) then Url.set_origin_only full else full.

Lemma referrer_schemes sc : is_referrer_scheme sc = true ->
  sc = lit "http" \/ sc = lit "https" \/ sc = lit "ws" \/ sc = lit "wss" \/ sc = lit "ftp".
Proof. unfold is_referrer_scheme. rewrite bool_decide_eq_true. simpl. rewrite !elem_of_cons, elem_of_nil. tauto. Qed.

Lemma is_http_schemes sc : is_http sc = true -> sc = lit "http" \/ sc = lit "https".
Proof. unfold is_http. rewrite orb_true_iff, !bool_decide_eq_true. done. Qed.

(** For the schemes a referrer is sent from, only the origin is looked at. *)
Lemma plain_scheme sc : is_referrer_scheme sc = true ->
  bool_decide (sc = lit "about") = false /\ bool_decide (sc = lit "data") = false /\ bool_decide (sc = lit "file") = false /\ bool_decide (sc = lit "blob") = false /\ is_special_scheme sc = true.
Proof. by intros [-> |[-> |[-> |[-> | ->]]]]%referrer_schemes. Qed.

Lemma http_plain sc : is_http sc = true -> is_referrer_scheme sc = true.
Proof. by intros [-> | ->]%is_http_schemes. Qed.

Lemma trusted_plain u : is_referrer_scheme (Url.scheme u) = true ->
  trusted u = match url_tuple u with Some o => is_origin_potentially_trustworthy o | None => false end.
Proof. intros (E1 & E2 & E3 & _)%plain_scheme. unfold trusted. by rewrite E1, E2, E3. Qed.

Lemma same_tuple u v : is_referrer_scheme (Url.scheme u) = true ->
  Url.scheme v = Url.scheme u -> Url.host v = Url.host u -> Url.port v = Url.port u ->
  url_tuple v = url_tuple u /\ trusted v = trusted u.
Proof.
  intros Hs E1 E2 E3. assert (url_tuple v = url_tuple u) as E.
  { unfold url_tuple, tuple_of, Url.is_special. rewrite E1, E2, E3. destruct (plain_scheme _ Hs) as (_ & _ & _ & -> & _). done. }
  split; [done|]. rewrite !trusted_plain by (by rewrite ?E1). by rewrite E.
Qed.

Lemma shortened_same src : Url.scheme (shortened src) = Url.scheme src /\ Url.host (shortened src) = Url.host src /\ Url.port (shortened src) = Url.port src.
Proof. unfold shortened. cbv zeta. by destruct (_ <? _). Qed.

Lemma compute_eq src pol req n o :
  url_tuple src = Some o -> is_opaque o = false -> is_referrer_scheme (Url.scheme src) = true -> is_http (Url.scheme req) = true ->
  (compute (Some src) pol req n).1 =
    ((fun out => Url.serialize out true) <$>
      choose pol (shortened src) (Url.set_origin_only (Url.strip_fragment (Url.strip_credentials src)))
        (bool_decide (url_tuple req = Some o)) (trusted src && negb (trusted req))).
Proof.
  intros Ho Hop Hs Hr. unfold compute. rewrite Hr. unfold strip_for_referrer. cbn [negb mbind option_bind]. rewrite Hs. cbn [negb mbind option_bind].
  change (if MAX_REFERRER_BYTES <? _ then _ else _) with (shortened src).
  destruct (shortened_same src) as (E1 & E2 & E3). destruct (same_tuple src (shortened src) Hs E1 E2 E3) as [Et Eq].
  unfold counted_bind at 1. rewrite from_url_eq, Et, Ho. unfold counted_bind at 1. rewrite (from_url_eq req).
  assert (forall n', (counted_bind (is_url_potentially_trustworthy (shortened src)) (fun t =>
    counted_bind (if t then counted_bind (is_url_potentially_trustworthy req) (fun r => counted_ret (negb r)) else counted_ret false)
      (fun downgrade => counted_ret ((fun out => Url.serialize out true) <$>
        choose pol (shortened src) (Url.set_origin_only (Url.strip_fragment (Url.strip_credentials src)))
          (bool_decide (url_tuple req = Some o)) downgrade))) n').1 =
    ((fun out => Url.serialize out true) <$>
      choose pol (shortened src) (Url.set_origin_only (Url.strip_fragment (Url.strip_credentials src)))
        (bool_decide (url_tuple req = Some o)) (trusted src && negb (trusted req)))) as Hrest.
  { intros n'. unfold counted_bind, counted_ret. pose proof (trusted_eq (shortened src) n') as T1. rewrite Eq in T1.
    destruct (is_url_potentially_trustworthy (shortened src) n') as [t n1]. simpl in T1. subst t.
    destruct (trusted src); [|done]. cbn [andb]. pose proof (trusted_eq req n1) as T2.
    destruct (is_url_potentially_trustworthy req n1) as [t n2]. simpl in T2. by subst t. }
  destruct (url_tuple req) as [o'|].
  - unfold counted_bind at 1. destruct (decide (o = o')) as [<-|Hne].
    + rewrite bool_decide_eq_true_2 by done. unfold counted_bind at 1. rewrite from_url_eq, Et, Ho. unfold counted_ret at 1.
      rewrite Hop. cbn [negb]. rewrite (bool_decide_eq_true_2 (Some o = Some o)) in Hrest |- * by done. apply Hrest.
    + rewrite bool_decide_eq_false_2 by done. unfold counted_ret at 1.
      rewrite (bool_decide_eq_false_2 (Some o' = Some o)) in Hrest |- * by congruence. apply Hrest.
  - unfold counted_bind at 1. rewrite bool_decide_eq_false_2 by (by intros ->). unfold counted_ret at 1.
    rewrite (bool_decide_eq_false_2 (None = Some o)) in Hrest |- * by done. apply Hrest.
Qed.

Lemma origin_only_text src o : canonical src -> is_referrer_scheme (Url.scheme src) = true -> url_tuple src = Some o ->
  Url.serialize (Url.set_origin_only (Url.strip_fragment (Url.strip_credentials src))) true = serialize o ++ [SLASH].
Proof.
  intros Hc Hs Ho. destruct (plain_scheme _ Hs) as (_ & _ & _ & E & _). unfold url_tuple in Ho. rewrite E in Ho.
  apply tuple_of_canonical in Hc. rewrite Ho in Hc. destruct Hc as (h & Eh & -> & _). rewrite serialize_tuple.
  unfold Url.serialize, Url.has_credentials. cbn [Url.scheme Url.host Url.port Url.username Url.password Url.path Url.query
    Url.fragment Url.set_origin_only Url.strip_fragment Url.strip_credentials]. rewrite Eh. cbn [bool_decide].
  unfold port_text. rewrite <- !app_assoc. cbn [app].
  rewrite bool_decide_eq_true_2 by done. cbn [negb orb app]. by rewrite <- !app_assoc.
Qed.

Lemma shortened_text src : shortened src = Url.strip_fragment (Url.strip_credentials src) /\
    len (Url.serialize (Url.strip_fragment (Url.strip_credentials src)) true) <= MAX_REFERRER_BYTES \/
  shortened src = Url.set_origin_only (Url.strip_fragment (Url.strip_credentials src)).
Proof. unfold shortened. cbv zeta. destruct (_ <? _) eqn:E; [by right|]. apply Z.ltb_ge in E. by left. Qed.

(** A policy that sends no more than the origin to another origin. *)
Definition hides_path (p : ReferrerPolicy) : bool :=
  match p with NoReferrerWhenDowngrade | UnsafeUrl => false | _ => true end.

(** A policy that sends nothing from a trustworthy page to an untrustworthy URL. *)
Definition stops_downgrade (p : ReferrerPolicy) : bool :=
  match p with OriginOnly | OriginWhenCrossOrigin | UnsafeUrl => false | _ => true end.

(** A page of the network has a tuple origin. *)
Lemma source_tuple src : canonical src -> is_referrer_scheme (Url.scheme src) = true -> exists o, url_tuple src = Some o /\ is_opaque o = false.
Proof.
  intros Hsrc Es. destruct (plain_scheme _ Es) as (_ & _ & Ef & Eb & Esp). unfold url_tuple. rewrite Eb. pose proof (tuple_of_canonical _ Hsrc) as H.
  destruct (tuple_of src) as [o|]; [destruct H as (h & _ & -> & _); by eexists|]. apply bool_decide_eq_false in Ef.
  destruct H as [H|H]; [|done]. unfold Url.is_special in H. congruence.
Qed.

Lemma referrer_kept s1 s2 src req pol n r :
  Url.parse s1 = Some src -> Url.parse s2 = Some req -> (compute (Some src) pol req n).1 = Some r ->
  exists o, url_tuple src = Some o /\ is_referrer_scheme (Url.scheme src) = true /\ is_http (Url.scheme req) = true /\
    pol <> NoReferrer /\
    (r = serialize o ++ [SLASH] \/
     r = Url.serialize (Url.strip_fragment (Url.strip_credentials src)) true /\ len r <= MAX_REFERRER_BYTES /\
     (hides_path pol = true -> url_tuple req = Some o)) /\
    (stops_downgrade pol = true -> trusted src = true -> trusted req = true).
Proof.
  intros Hsrc%parse_canonical _ Hr.
  destruct (is_http (Url.scheme req)) eqn:Ereq; [|by (unfold compute in Hr; rewrite Ereq in Hr)].
  destruct (is_referrer_scheme (Url.scheme src)) eqn:Es.
  2: { unfold compute, strip_for_referrer in Hr. rewrite Ereq in Hr. cbn [negb mbind option_bind] in Hr. by rewrite Es in Hr. }
  destruct (source_tuple src Hsrc Es) as (o & Ho & Hop).
  exists o. rewrite (compute_eq _ _ _ _ o) in Hr by done. apply fmap_Some in Hr as (out & Hc & ->).
  pose proof (origin_only_text src o Hsrc Es Ho) as Hoo.
  assert (url_tuple req = Some o -> trusted src = true -> trusted req = true) as Hsame.
  { intros E. rewrite !trusted_plain by (done || by apply http_plain). by rewrite E, Ho. }
  assert (forall P : Prop, (hides_path pol = true -> url_tuple req = Some o) ->
    Url.serialize (shortened src) true = serialize o ++ [SLASH] \/
    Url.serialize (shortened src) true = Url.serialize (Url.strip_fragment (Url.strip_credentials src)) true /\
      len (Url.serialize (shortened src) true) <= MAX_REFERRER_BYTES /\ (hides_path pol = true -> url_tuple req = Some o)) as Hfull.
  { intros _ HP. destruct (shortened_text src) as [[-> Hl]| ->]; [by right|by left]. }
  split_and!; [done|done|done|by intros ->| |].
  - destruct pol; cbn [choose] in Hc; repeat (case_bool_decide || case_match); simplify_eq; try done; try (by left); by apply (Hfull True).
  - destruct pol; cbn [choose stops_downgrade] in Hc |- *; try done; intros _ Ht; rewrite ?Ht in Hc; cbn [andb] in Hc;
      destruct (trusted req); try done; case_bool_decide; try done; by apply Hsame.
Qed.

(** ** What each policy says

    The table of the policies: what goes to the same origin, to another one, and from a
    secure page to a URL that is not. *)
Inductive Shown := Nothing | TheOrigin | TheUrl.
Definition to_same (p : ReferrerPolicy) : Shown :=
  match p with NoReferrer => Nothing | OriginOnly | StrictOrigin => TheOrigin | _ => TheUrl end.
Definition to_other (p : ReferrerPolicy) : Shown :=
  match p with NoReferrer | SameOrigin => Nothing | NoReferrerWhenDowngrade | UnsafeUrl => TheUrl | _ => TheOrigin end.
Definition to_insecure (p : ReferrerPolicy) : Shown :=
  match p with OriginOnly | OriginWhenCrossOrigin => TheOrigin | UnsafeUrl => TheUrl | _ => Nothing end.

(** An origin over TLS, or of the local host. *)
Definition local_name (d : list byte) : Prop :=
  exists name k, d = name ++ replicate k DOT /\ (name = lit "localhost" \/ exists sub, name = sub ++ lit ".localhost").
Definition secure (o : WOrigin.t) : Prop :=
  match o with
  | Opaque _ => False
  | Tuple sc h _ => sc = lit "https" \/ sc = lit "wss" \/
      match h with Ipv4 a => head a = Some 127 | Ipv6 p => p = [0; 0; 0; 0; 0; 0; 0; 1] | Domain d => local_name d | WebUrl.Opaque _ | EmptyHost => False end
  end.
Definition secure_url (u : Url.t) : Prop := exists o, url_tuple u = Some o /\ secure o.

(** What is sent: the origin and a slash, or the URL without user, password and fragment
    when that is not too long. *)
Definition bare (u : Url.t) : Url.t := Url.mkUrl (Url.scheme u) [] [] (Url.host u) (Url.port u) (Url.path u) (Url.query u) None.
Definition shows (src : Url.t) (o : WOrigin.t) (s : Shown) : option (list byte) :=
  match s with
  | Nothing => None
  | TheOrigin => Some (serialize o ++ [SLASH])
  | TheUrl => let text := Url.serialize (bare src) true in Some (if len text <=? 4096 then text else serialize o ++ [SLASH])
  end.

Lemma loopback_spec h : host_is_loopback h = true <->
  match h with Ipv4 a => head a = Some 127 | Ipv6 p => p = [0; 0; 0; 0; 0; 0; 0; 1] | Domain d => local_name d | WebUrl.Opaque _ | EmptyHost => False end.
Proof.
  destruct h as [d|a|p|t|]; cbn [host_is_loopback]; [|by rewrite bool_decide_eq_true..|done|done]. cbv zeta. rewrite orb_true_iff, !bool_decide_eq_true.
  assert (forall name, name = lit "localhost" \/ (exists sub, name = sub ++ lit ".localhost") -> last name <> Some DOT) as Hlast by (by intros name [->|[sub ->]]; rewrite ?last_app).
  assert (forall name, is_Some (strip_suffix (lit ".localhost") name) <-> exists sub, name = sub ++ lit ".localhost") as Hsuf.
  { intros name. unfold strip_suffix. split.
    - intros [x (r & E & _)%fmap_Some]. apply strip_prefix_Some in E. exists (reverse r). apply (f_equal reverse) in E. by rewrite reverse_involutive, reverse_app, reverse_involutive in E.
    - intros [sub ->]. rewrite reverse_app. rewrite (proj2 (strip_prefix_Some _ _ (reverse sub))) by done. by eexists. }
  rewrite Hsuf. split.
  - intros H. destruct (trim_end_matches_spec DOT d) as [k E]. by exists (trim_end_matches DOT d), k.
  - intros (name & k & -> & H). by rewrite trim_padded by by apply Hlast.
Qed.

Lemma secure_spec o : is_origin_potentially_trustworthy o = true <-> secure o.
Proof. destruct o as [id|sc h p]; [done|]. cbn. rewrite !orb_true_iff, !bool_decide_eq_true, loopback_spec. tauto. Qed.

Lemma trusted_secure u : is_referrer_scheme (Url.scheme u) = true -> trusted u = true <-> secure_url u.
Proof.
  intros Hs. rewrite trusted_plain by done. unfold secure_url. destruct (url_tuple u) as [o|]; [|by split; [|intros (? & ? & _)]].
  rewrite secure_spec. naive_solver.
Qed.

Lemma shown_text src o pol same downgrade : canonical src -> is_referrer_scheme (Url.scheme src) = true -> url_tuple src = Some o -> (same = true -> downgrade = false) ->
  (fun out => Url.serialize out true) <$> choose pol (shortened src) (Url.set_origin_only (Url.strip_fragment (Url.strip_credentials src))) same downgrade =
  shows src o (if same then to_same pol else if downgrade then to_insecure pol else to_other pol).
Proof.
  intros Hc Hs Ho Hd. pose proof (origin_only_text src o Hc Hs Ho) as Hoo.
  assert (shows src o TheUrl = Some (Url.serialize (shortened src) true)) as Hu.
  { unfold shows, shortened. cbv zeta. change (Url.strip_fragment (Url.strip_credentials src)) with (bare src) in *. change MAX_REFERRER_BYTES with 4096.
    destruct (4096 <? _) eqn:E; [apply Z.ltb_lt in E|apply Z.ltb_ge in E]; [rewrite (proj2 (Z.leb_gt _ _)) by done; by rewrite Hoo|by rewrite (proj2 (Z.leb_le _ _))]. }
  assert (shows src o TheOrigin = Some (Url.serialize (Url.set_origin_only (Url.strip_fragment (Url.strip_credentials src))) true)) as Ht by (by rewrite Hoo).
  destruct pol, same, downgrade; cbn [choose to_same to_other to_insecure]; rewrite ?Hu, ?Ht; try done; by specialize (Hd eq_refl).
Qed.

(** C29: The referrer is what the table of the policies says: for a page and a URL
    of the same origin, for another origin, and from a secure page to a URL that is not,
    it is nothing, the page's origin and a slash, or the page's URL without user, password and
    fragment, in whose place stands the origin when it is longer than 4096 bytes.  Nothing is
    sent without a page, from a page that is not of the network, or to a URL that is not
    [http] or [https]. *)
Theorem referrer_keeps_policy s1 s2 src req pol n : Url.parse s1 = Some src -> Url.parse s2 = Some req ->
  (compute None pol req n).1 = None /\
  (Url.scheme src ∉ map lit ["http"; "https"; "ws"; "wss"; "ftp"]%string \/ Url.scheme req ∉ map lit ["http"; "https"]%string -> (compute (Some src) pol req n).1 = None) /\
  (Url.scheme src ∈ map lit ["http"; "https"; "ws"; "wss"; "ftp"]%string -> Url.scheme req ∈ map lit ["http"; "https"]%string ->
   exists o, url_tuple src = Some o /\
     (url_tuple req = Some o -> (compute (Some src) pol req n).1 = shows src o (to_same pol)) /\
     (url_tuple req <> Some o -> secure o -> ~ secure_url req -> (compute (Some src) pol req n).1 = shows src o (to_insecure pol)) /\
     (url_tuple req <> Some o -> (secure o -> secure_url req) -> (compute (Some src) pol req n).1 = shows src o (to_other pol))).
Proof.
  intros Hsrc%parse_canonical _. assert (forall sc, sc ∈ map lit ["http"; "https"]%string <-> is_http sc = true) as Hh.
  { intros sc. unfold is_http. rewrite orb_true_iff, !bool_decide_eq_true. cbn [map]. by rewrite elem_of_cons, list_elem_of_singleton. }
  split; [unfold compute; by destruct (negb _)|]. split.
  - rewrite Hh. intros [H|H].
    + assert (is_referrer_scheme (Url.scheme src) = false) as E by (by apply bool_decide_eq_false_2).
      unfold compute, strip_for_referrer. destruct (negb (is_http _)); [done|]. cbn [mbind option_bind]. by rewrite E.
    + unfold compute. by rewrite (not_true_is_false _ H).
  - rewrite Hh. intros Hs%(bool_decide_eq_true_2 _) Hr. change (is_referrer_scheme (Url.scheme src) = true) in Hs.
    destruct (source_tuple src Hsrc Hs) as (o & Ho & Hop). exists o. split; [done|]. rewrite (compute_eq _ _ _ _ o) by done.
    pose proof (trusted_secure src Hs) as Ts. pose proof (trusted_secure req (http_plain _ Hr)) as Tr. unfold secure_url at 1 in Ts. rewrite Ho in Ts.
    assert (url_tuple req = Some o -> trusted src && negb (trusted req) = false) as Hsame.
    { intros E. rewrite !trusted_plain by (done || by apply http_plain). rewrite E, Ho. apply andb_negb_r. }
    rewrite (shown_text src o) by (done || intros E%bool_decide_eq_true; by apply Hsame). split_and!.
    + intros E. by rewrite bool_decide_eq_true_2.
    + intros E Hse Hns. rewrite bool_decide_eq_false_2 by done. assert (trusted src = true) as -> by (apply Ts; by exists o). rewrite <- Tr in Hns. by rewrite (not_true_is_false _ Hns).
    + intros E Hse. rewrite bool_decide_eq_false_2 by done. destruct (trusted src); [|done]. destruct (proj1 Ts eq_refl) as (o' & [= <-] & Hso). by rewrite (proj2 Tr (Hse Hso)).
Qed.

(** ** Tokens *)
Lemma last_or {A} (a b : list A) : last (a ++ b) = match last b with Some x => Some x | None => last a end.
Proof. by rewrite last_app. Qed.

(** the last recognised token of a header decides, whatever stands around
    and after it, and a header without one decides nothing; each policy is named
    by exactly its token, in any case. *)
Theorem last_token_decides a b t p :
  len (a ++ ","%byte :: b) <= MAX_POLICY_INPUT ->
  parse_header (a ++ ","%byte :: b) = (match parse_header b with Some q => Some q | None => parse_header a end) /\
  (from_token t = Some p <-> to_ascii_lowercase t = as_str p).
Proof.
  rewrite len_app, len_cons. intros Hl. pose proof (len_nonneg a). pose proof (len_nonneg b). split.
  - unfold parse_header. rewrite !(proj2 (Z.ltb_ge _ _)) by (rewrite ?len_app, ?len_cons; lia).
    by rewrite split_on_cat, omap_app, last_or.
  - unfold from_token. split.
    + intros [_ E]%List.find_some. apply bool_decide_eq_true in E as ->. by destruct p.
    + intros E. unfold eq_ignore_ascii_case. rewrite E. by destruct p.
Qed.

Module ReferrerUses.
Definition page : list byte := lit "https://u:p@shop.com/basket?id=1#top".
Definition tracker : list byte := lit "https://ads.com/".

Lemma referrer_keeps_policy_witness :
  match Url.parse page, Url.parse tracker with
  | Some src, Some req =>
      (compute (Some src) DEFAULT req 1).1 = Some (lit "https://shop.com/") /\
      (compute (Some src) SameOrigin req 1).1 = None /\
      (compute (Some src) SameOrigin src 1).1 = Some (lit "https://shop.com/basket?id=1") /\
      (compute (Some src) OriginOnly src 1).1 = Some (lit "https://shop.com/")
  | _, _ => False
  end.
Proof.
  destruct (Url.parse page) as [src|] eqn:E1; [|by vm_compute in E1]. destruct (Url.parse tracker) as [req|] eqn:E2; [|by vm_compute in E2].
  pose proof (fun pol => proj2 (proj2 (referrer_keeps_policy page tracker src req pol 1 E1 E2))) as H.
  pose proof (fun pol => proj2 (proj2 (referrer_keeps_policy page page src src pol 1 E1 E1))) as H'.
  vm_compute in E1. vm_compute in E2. injection E1 as <-. injection E2 as <-.
  assert (forall pol, _) as G by (intros pol; exact (H pol ltac:(apply (bool_decide_unpack _); by vm_compute) ltac:(apply (bool_decide_unpack _); by vm_compute))).
  assert (forall pol, _) as G' by (intros pol; exact (H' pol ltac:(apply (bool_decide_unpack _); by vm_compute) ltac:(apply (bool_decide_unpack _); by vm_compute))).
  split_and!.
  - destruct (G DEFAULT) as (o & Ho & _ & _ & Ht). vm_compute in Ho. injection Ho as <-. etransitivity; [apply Ht|by vm_compute]; [by vm_compute|intros _; eexists; split; [by vm_compute|by left]].
  - destruct (G SameOrigin) as (o & Ho & _ & _ & Ht). vm_compute in Ho. injection Ho as <-. etransitivity; [apply Ht|by vm_compute]; [by vm_compute|intros _; eexists; split; [by vm_compute|by left]].
  - destruct (G' SameOrigin) as (o & Ho & Ht & _). vm_compute in Ho. injection Ho as <-. etransitivity; [apply Ht|by vm_compute]. by vm_compute.
  - destruct (G' OriginOnly) as (o & Ho & Ht & _). vm_compute in Ho. injection Ho as <-. etransitivity; [apply Ht|by vm_compute]. by vm_compute.
Defined.

Lemma last_token_decides_witness : parse_header (lit "no-referrer, Same-Origin ,x") = Some SameOrigin.
Proof.
  pose proof (proj1 (last_token_decides (lit "no-referrer") (lit " Same-Origin ,x") [] SameOrigin ltac:(by vm_compute))) as H.
  vm_compute in H. vm_compute. exact H.
Defined.
End ReferrerUses.
