(* ===== verification/Cors.v ===== *)
(** * Cross-origin requests (px-websec/src/cors.rs)

    The primitives, the classification of requests, the preflight, the CORS
    check, response tainting and filtering, and the preflight cache. *)
From S2P Require Import Prelude Bytes OrdMap Text Chars Partition WebUrl WebHost WebCanon WebParse WebOrigin Referrer.
Import WOrigin.
Local Open Scope Z_scope.

Module Cors.
Definition MAX_AGE_CAP_SECS : Z := 7200.
Definition DEFAULT_MAX_AGE_SECS : Z := 5.
Definition MAX_CACHE_ENTRIES : nat := 512.
Definition SAFELIST_VALUE_MAX : Z := 128.
Definition SAFELIST_TOTAL_MAX : Z := 1024.

Inductive CredentialsMode := Omit | SameOriginOnly | Include.
Inductive RequestMode := ModeCors | NoCors | ModeSameOrigin | Navigate.

#[global] Instance credentials_eq_dec : EqDecision CredentialsMode.
Proof. solve_decision. Defined.
#[global] Instance mode_eq_dec : EqDecision RequestMode.
Proof. solve_decision. Defined.

Record Header := mkHeader { h_name : list byte; h_value : list byte }.

Record CorsRequest := mkRequest {
  r_method : list byte;
  r_url : Url.t;
  r_origin : WOrigin.t;
  r_headers : list Header;
  r_credentials : CredentialsMode;
  r_mode : RequestMode;
  use_cors_preflight_flag : bool;
  origin_tainted : bool
}.

Record CorsResponse := mkResponse { status : Z; p_headers : list Header }.

Inductive CorsError :=
| MissingAllowOrigin | OriginMismatch | CredentialsNotAllowed | PreflightStatus | MethodNotAllowed
| HeaderNotAllowed (name : list byte) | CrossOriginForbidden | UnsupportedScheme.

Record PreflightReasons := mkReasons { unsafe_method : bool; unsafe_headers : list (list byte); flag : bool }.

Inductive Classification := Simple | Preflighted (reasons : PreflightReasons).

Definition includes (r : CorsRequest) : bool := bool_decide (r_credentials r = Include).

(** ** Primitives *)
Definition normalize_method (m : list byte) : list byte :=
  default m (List.find (eq_ignore_ascii_case m) (map lit ["DELETE"; "GET"; "HEAD"; "OPTIONS"; "POST"; "PUT"]%string)).

Definition is_safelisted_method (m : list byte) : bool := bool_decide (m ∈ map lit ["GET"; "HEAD"; "POST"]%string).

Definition is_forbidden_method (m : list byte) : bool :=
  existsb (eq_ignore_ascii_case m) (map lit ["CONNECT"; "TRACE"; "TRACK"]%string).

Definition is_http_ws (c : byte) : bool := bool_decide (c ∈ [x09; x0a; x0d; x20]).
Definition trim_http_ws (b : list byte) : list byte := Url.trim_matches is_http_ws b.

Definition QUOTE : byte := x22.
Definition COMMA : byte := ","%byte.

Definition finish_item (cur : list byte) : list byte := utf8_lossy (trim_http_ws cur).

(** The loop, with [cur] and the two flags; an item is put out at each comma
    outside quotes and at the end. *)
Fixpoint split_list_loop (value cur : list byte) (in_q esc : bool) : list (list byte) :=
  match value with
  | [] => [finish_item cur]
  | b :: value =>
      if in_q then
        if esc then split_list_loop value (cur ++ [b]) in_q false
        else if bool_decide (b = BACKSLASH) then split_list_loop value (cur ++ [b]) in_q true
        else if bool_decide (b = QUOTE) then split_list_loop value (cur ++ [b]) false esc
        else split_list_loop value (cur ++ [b]) in_q esc
      else if bool_decide (b = QUOTE) then split_list_loop value (cur ++ [b]) true esc
      else if bool_decide (b = COMMA) then finish_item cur :: split_list_loop value [] in_q esc
      else split_list_loop value (cur ++ [b]) in_q esc
  end.
Definition split_list (value : list byte) : list (list byte) := split_list_loop value [] false false.

Definition FORBIDDEN : list (list byte) :=
  map lit ["accept-charset"; "accept-encoding"; "access-control-request-headers"; "access-control-request-method"; "connection";
    "content-length"; "cookie"; "cookie2"; "date"; "dnt"; "expect"; "host"; "keep-alive"; "origin"; "referer"; "set-cookie"; "te";
    "trailer"; "transfer-encoding"; "upgrade"; "via"]%string.

Definition is_forbidden_request_header (name value : list byte) : bool :=
  let n := to_ascii_lowercase name in
  if bool_decide (n ∈ FORBIDDEN) || has_prefix (lit "proxy-") n || has_prefix (lit "sec-") n then true
  else if bool_decide (n ∈ map lit ["x-http-method"; "x-http-method-override"; "x-method-override"]%string) then
    if is_utf8 value then existsb is_forbidden_method (split_list value) else true
  else false.

Definition is_forbidden_response_header (name : list byte) : bool :=
  eq_ignore_ascii_case name (lit "set-cookie") || eq_ignore_ascii_case name (lit "set-cookie2").

Definition is_cors_unsafe_byte (b : byte) : bool :=
  ((b2z b <? 32) && negb (bool_decide (b = x09))) ||
  bool_decide (b ∈ [QUOTE; "("; ")"; ":"; "<"; ">"; "?"; "@"; "["; x5c; "]"; "{"; "}"; x7f]%byte).

Definition is_alphanumeric (b : byte) : bool := Url.is_alphabetic b || is_digit b.

Definition is_token_byte (b : byte) : bool := is_alphanumeric b || bool_decide (b ∈ lit "!#$%&'*+-.^_`|~").

Definition mime_essence (value : list byte) : option (list byte) :=
  let v := trim_http_ws value in
  let essence := trim_http_ws (Url.break_at (fun b => bool_decide (b = ";"%byte)) v).1 in
  '(t, s) ← split_once SLASH essence;
  if bool_decide (t = []) || bool_decide (s = []) || negb (forallb is_token_byte (t ++ s)) then None
  else Some (to_ascii_lowercase (utf8_lossy essence)).

Definition parse_single_range_start (v : list byte) : bool :=
  if negb (is_utf8 v) then false
  else match strip_prefix (lit "bytes=") v with
       | None => false
       | Some rest =>
           match split_once "-"%byte rest with
           | None => false
           | Some (a, b) =>
               let digits x := negb (bool_decide (x = [])) && forallb is_digit x in
               if negb (digits a) then false
               else if bool_decide (b = []) then true
               else if negb (digits b) then false
               else match parse_uint 10 U64_MAX a, parse_uint 10 U64_MAX b with
                    | Some a, Some b => a <=? b
                    | _, _ => false
                    end
           end
       end.

Definition is_safelisted_request_header (name value : list byte) : bool :=
  if SAFELIST_VALUE_MAX <? len value then false
  else
    let n := to_ascii_lowercase name in
    if bool_decide (n = lit "accept") then negb (existsb is_cors_unsafe_byte value)
    else if bool_decide (n = lit "accept-language") || bool_decide (n = lit "content-language") then
      forallb (fun b => is_alphanumeric b || bool_decide (b ∈ lit " *,-.;=")) value
    else if bool_decide (n = lit "content-type") then
      if existsb is_cors_unsafe_byte value then false
      else bool_decide (mime_essence value ∈ map (Some ∘ lit) ["application/x-www-form-urlencoded"; "multipart/form-data"; "text/plain"]%string)
    else if bool_decide (n = lit "range") then parse_single_range_start value
    else false.

Definition lname (h : Header) : list byte := to_ascii_lowercase (h_name h).
Definition safelisted (h : Header) : bool := is_safelisted_request_header (h_name h) (h_value h).

(** The loop's three accumulators, then the order. *)
Definition unsafe_header_names (headers : list Header) : list (list byte) :=
  let unsafe_names := map lname (List.filter (fun h => negb (safelisted h)) headers) in
  let potentially := map lname (List.filter safelisted headers) in
  let total := foldl (fun t h => Z.min USIZE_MAX (t + len (h_value h))) 0 (List.filter safelisted headers) in
  dedup (sort (if SAFELIST_TOTAL_MAX <? total then unsafe_names ++ potentially else unsafe_names)).

Definition named (name : list byte) (headers : list Header) : list Header :=
  List.filter (fun h => eq_ignore_ascii_case (h_name h) name) headers.

Fixpoint join_values (hs : list Header) : list byte :=
  match hs with
  | [] => []
  | [h] => trim_http_ws (h_value h)
  | h :: hs => trim_http_ws (h_value h) ++ lit ", " ++ join_values hs
  end.

Definition get_combined (headers : list Header) (name : list byte) : option (list byte) :=
  match named name headers with [] => None | hs => Some (join_values hs) end.

Definition extract_list (headers : list Header) (name : list byte) : option (list (list byte)) :=
  split_list <$> get_combined headers name.

(** ** Classification *)
Definition classify (request : CorsRequest) : Classification :=
  let unsafe_method := negb (is_safelisted_method (r_method request)) in
  let unsafe_headers := unsafe_header_names (r_headers request) in
  if negb unsafe_method && bool_decide (unsafe_headers = []) && negb (use_cors_preflight_flag request) then Simple
  else Preflighted (mkReasons unsafe_method unsafe_headers (use_cors_preflight_flag request)).

Definition serialize_request_origin (request : CorsRequest) : list byte := WOrigin.serialize (r_origin request).

Inductive Tainting := Basic | TaintCors | TaintOpaque.

#[global] Instance tainting_eq_dec : EqDecision Tainting.
Proof. solve_decision. Defined.

Definition should_send_origin_header (request : CorsRequest) (taint : Tainting) : bool :=
  bool_decide (taint = TaintCors) || negb (bool_decide (r_method request = lit "GET") || bool_decide (r_method request = lit "HEAD")).

Definition origin_header_value (request : CorsRequest) (taint : Tainting) (policy : ReferrerPolicy) : counted (option (list byte)) :=
  let serialized := serialize_request_origin request in
  if bool_decide (taint = TaintCors) then counted_ret (Some serialized)
  else if negb (should_send_origin_header request taint) then counted_ret None
  else if negb (bool_decide (r_mode request = ModeCors)) then
    let* hide := (match policy with
                  | NoReferrer => counted_ret true
                  | NoReferrerWhenDowngrade | StrictOrigin | StrictOriginWhenCrossOrigin =>
                      counted_ret (bool_decide (WOrigin.scheme (r_origin request) = Some (lit "https")) &&
                                   negb (bool_decide (Url.scheme (r_url request) = lit "https")))
                  | SameOrigin => let* o := from_url (r_url request) in counted_ret (negb (same_origin (r_origin request) o))
                  | OriginOnly | OriginWhenCrossOrigin | UnsafeUrl => counted_ret false
                  end) in
    counted_ret (Some (if hide then lit "null" else serialized))
  else counted_ret (Some serialized).

(** ** Preflight *)
Record PreflightRequest := mkPreflight {
  f_method : list byte;
  f_url : Url.t;
  f_headers : list Header;
  f_origin_header : list byte;
  f_credentials : CredentialsMode
}.

Definition preflight_request (request : CorsRequest) : PreflightRequest :=
  let headers := [mkHeader (lit "Accept") (lit "*/*"); mkHeader (lit "Access-Control-Request-Method") (r_method request)] in
  let names := unsafe_header_names (r_headers request) in
  mkPreflight (lit "OPTIONS") (r_url request)
    (headers ++ (if bool_decide (names = []) then [] else [mkHeader (lit "Access-Control-Request-Headers") (join_with COMMA names)]))
    (serialize_request_origin request) SameOriginOnly.

Record PreflightGrant := mkGrant { methods : list (list byte); header_names : list (list byte); max_age : Z }.

Definition cors_check (request : CorsRequest) (response_headers : list Header) : result CorsError unit :=
  acao ← ok_or (get_combined response_headers (lit "Access-Control-Allow-Origin")) MissingAllowOrigin;
  if negb (includes request) && bool_decide (acao = lit "*") then Ok tt
  else if negb (bool_decide (acao = serialize_request_origin request)) then Err OriginMismatch
  else if negb (includes request) then Ok tt
  else if bool_decide (get_combined response_headers (lit "Access-Control-Allow-Credentials") = Some (lit "true")) then Ok tt
  else Err CredentialsNotAllowed.

Definition header_listed (l : list (list byte)) (name : list byte) : bool := existsb (fun i => eq_ignore_ascii_case i name) l.

Definition parse_delta_seconds (v : list byte) : option Z :=
  let v := trim_http_ws v in
  if bool_decide (v = []) || negb (forallb is_digit v) then None
  else Some (foldl (fun n d => sat_add (sat_mul n 10) (b2z d - 48)) 0 v).

Definition AUTHORIZATION : list byte := lit "authorization".

Definition has_authorization (request : CorsRequest) : bool :=
  existsb (fun h => eq_ignore_ascii_case (h_name h) AUTHORIZATION) (r_headers request).

Fixpoint check_names (header_names : list (list byte)) (star : bool) (names : list (list byte)) : result CorsError unit :=
  match names with
  | [] => Ok tt
  | n :: names => if negb (header_listed header_names n) && negb star then Err (HeaderNotAllowed n) else check_names header_names star names
  end.

Definition validate_preflight (request : CorsRequest) (response : CorsResponse) : result CorsError PreflightGrant :=
  _ ← cors_check request (p_headers response);
  if negb ((200 <=? status response) && (status response <? 300)) then Err PreflightStatus
  else
    let methods := extract_list (p_headers response) (lit "Access-Control-Allow-Methods") in
    let header_names := default [] (extract_list (p_headers response) (lit "Access-Control-Allow-Headers")) in
    let methods := match methods with
                   | None => if use_cors_preflight_flag request then [r_method request] else []
                   | Some m => m
                   end in
    let method_listed := bool_decide (r_method request ∈ methods) in
    let method_star := negb (includes request) && bool_decide (lit "*" ∈ methods) in
    if negb method_listed && negb (is_safelisted_method (r_method request)) && negb method_star then Err MethodNotAllowed
    else if has_authorization request && negb (header_listed header_names AUTHORIZATION) then Err (HeaderNotAllowed AUTHORIZATION)
    else
      let star := negb (includes request) && bool_decide (lit "*" ∈ header_names) in
      _ ← check_names header_names star (unsafe_header_names (r_headers request));
      let max_age := match get_combined (p_headers response) (lit "Access-Control-Max-Age") with
                     | Some v => default DEFAULT_MAX_AGE_SECS (parse_delta_seconds v)
                     | None => DEFAULT_MAX_AGE_SECS
                     end in
      Ok (mkGrant methods header_names (Z.min max_age MAX_AGE_CAP_SECS)).

(** ** The preflight cache *)
Record CacheEntry := mkEntry {
  e_partition : list byte;
  e_origin : WOrigin.t;
  e_url : list byte;
  e_credentials : bool;
  e_method : option (list byte);
  e_header : option (list byte);
  expires_at : Z
}.

Record PreflightCache := mkCache { entries : list CacheEntry }.

Definition new : PreflightCache := mkCache [].
Definition cache_len (c : PreflightCache) : nat := length (entries c).
Definition is_empty (c : PreflightCache) : bool := bool_decide (cache_len c = 0%nat).

Definition forget_partition (partition : list byte) (c : PreflightCache) : PreflightCache :=
  mkCache (List.filter (fun e => negb (bool_decide (e_partition e = partition))) (entries c)).

Definition base_match (e : CacheEntry) (partition : list byte) (request : CorsRequest) (now : Z) : bool :=
  (now <? expires_at e) && bool_decide (e_partition e = partition) && bool_decide (e_origin e = r_origin request) &&
  bool_decide (e_url e = Url.serialize (r_url request) true) && (e_credentials e || negb (includes request)).

(** What an entry is about: every field but the time. *)
Definition subject (e : CacheEntry) : list byte * WOrigin.t * list byte * bool * option (list byte) * option (list byte) :=
  (e_partition e, e_origin e, e_url e, e_credentials e, e_method e, e_header e).

(** [iter_mut().find]: the first entry about the same takes the new time. *)
Fixpoint refresh (e : CacheEntry) (l : list CacheEntry) : option (list CacheEntry) :=
  match l with
  | [] => None
  | x :: l => if bool_decide (subject x = subject e) then Some (e :: l) else (fun l => x :: l) <$> refresh e l
  end.

(** The closure [add]. *)
Definition add_entry (l : list CacheEntry) (e : CacheEntry) : list CacheEntry :=
  match refresh e l with
  | Some l => l
  | None => (if (MAX_CACHE_ENTRIES <=? length l)%nat then drop 1 l else l) ++ [e]
  end.

Definition grant_entries (partition : list byte) (request : CorsRequest) (grant : PreflightGrant) (now : Z) : list CacheEntry :=
  let mk m h := mkEntry partition (r_origin request) (Url.serialize (r_url request) true) (includes request) m h (sat_add now (max_age grant)) in
  map (fun m => mk (Some m) None) (methods grant) ++ map (fun h => mk None (Some (to_ascii_lowercase h))) (header_names grant).

Definition store (partition : list byte) (request : CorsRequest) (grant : PreflightGrant) (now : Z) (c : PreflightCache) : PreflightCache :=
  if max_age grant =? 0 then c
  else mkCache (foldl add_entry (List.filter (fun e => now <? expires_at e) (entries c)) (grant_entries partition request grant now)).

Definition live (c : PreflightCache) (partition : list byte) (request : CorsRequest) (now : Z) : list CacheEntry :=
  List.filter (fun e => base_match e partition request now) (entries c).

Definition method_matches (request : CorsRequest) (e : CacheEntry) : bool :=
  match e_method e with
  | Some m => bool_decide (m = r_method request) || (bool_decide (m = lit "*") && negb (includes request))
  | None => false
  end.

Definition header_matches (request : CorsRequest) (name : list byte) (e : CacheEntry) : bool :=
  match e_header e with
  | Some h => bool_decide (h = name) || (bool_decide (h = lit "*") && negb (includes request) && negb (bool_decide (name = AUTHORIZATION)))
  | None => false
  end.

Definition covers (c : PreflightCache) (partition : list byte) (request : CorsRequest) (now : Z) : bool :=
  let l := live c partition request now in
  let method_hit := existsb (method_matches request) l in
  let method_ok := method_hit || (is_safelisted_method (r_method request) && negb (use_cors_preflight_flag request)) in
  if negb method_ok then false
  else
    let header_hit name := existsb (header_matches request name) l in
    if has_authorization request && negb (header_hit AUTHORIZATION) then false
    else forallb header_hit (unsafe_header_names (r_headers request)).

(** ** Responses *)
Definition taint (request : CorsRequest) : counted (result CorsError Tainting) :=
  if bool_decide (Url.scheme (r_url request) = lit "data") || bool_decide (r_mode request = Navigate) then counted_ret (Ok Basic)
  else
    let* url_origin := from_url (r_url request) in
    counted_ret
      (if same_origin url_origin (r_origin request) && negb (origin_tainted request) then Ok Basic
       else match r_mode request with
            | ModeSameOrigin => Err CrossOriginForbidden
            | NoCors => Ok TaintOpaque
            | ModeCors | Navigate => if is_http (Url.scheme (r_url request)) then Ok TaintCors else Err UnsupportedScheme
            end).

Definition validate_response (request : CorsRequest) (taint : Tainting) (response : CorsResponse) : result CorsError unit :=
  match taint with
  | TaintCors => cors_check request (p_headers response)
  | Basic | TaintOpaque => Ok tt
  end.

Record FilteredResponse := mkFiltered { v_status : Z; v_headers : list Header; opaque : bool }.

Definition SAFE : list (list byte) :=
  map lit ["cache-control"; "content-language"; "content-length"; "content-type"; "expires"; "last-modified"; "pragma"]%string.

Definition filter_response (request : CorsRequest) (taint : Tainting) (response : CorsResponse) : FilteredResponse :=
  match taint with
  | TaintOpaque => mkFiltered 0 [] true
  | Basic => mkFiltered (status response) (List.filter (fun h => negb (is_forbidden_response_header (h_name h))) (p_headers response)) false
  | TaintCors =>
      let exposed := default [] (extract_list (p_headers response) (lit "Access-Control-Expose-Headers")) in
      let wildcard := negb (includes request) && bool_decide (lit "*" ∈ exposed) in
      mkFiltered (status response)
        (List.filter (fun h => negb (is_forbidden_response_header (h_name h)) &&
           (bool_decide (lname h ∈ SAFE) || wildcard || header_listed exposed (h_name h))) (p_headers response)) false
  end.
End Cors.
