(* ===== verification/CorsProps.v ===== *)
(** * Cross-origin requests: the theorems (px-websec/src/cors.rs) *)
From Stdlib Require Import Sorting.Sorted.
From S2P Require Import Prelude Bytes OrdMap Text Chars Partition WebUrl WebHost WebCanon WebParse WebOrigin Referrer Cors.
Import WOrigin Cors.
Local Open Scope Z_scope.

(** ** The CORS check *)
Definition allow_origin (hs : list Header) : option (list byte) := get_combined hs (lit "Access-Control-Allow-Origin").
Definition allows_credentials (hs : list Header) : bool :=
  bool_decide (get_combined hs (lit "Access-Control-Allow-Credentials") = Some (lit "true")).

Lemma cors_check_Ok r hs :
  cors_check r hs = Ok tt <->
  (includes r = false /\ allow_origin hs = Some (lit "*")) \/
  (allow_origin hs = Some (serialize_request_origin r) /\ (includes r = true -> allows_credentials hs = true)).
Proof.
  unfold cors_check, allow_origin, allows_credentials, ok_or. destruct (get_combined hs (lit "Access-Control-Allow-Origin")) as [a|]; simpl.
  2: { split; [done|]. intros [[_ ?]|[? _]]; done. }
  destruct (includes r) eqn:Ei; cbn [negb andb].
  - destruct (bool_decide (a = serialize_request_origin r)) eqn:E; cbn [negb].
    + apply bool_decide_eq_true in E as ->. destruct (bool_decide _); [split; [by right|done]|]. split; [done|]. intros [[? _]|[_ ?]]; naive_solver.
    + apply bool_decide_eq_false in E. split; [done|]. intros [[? _]|[? _]]; congruence.
  - destruct (bool_decide (a = lit "*")) eqn:E; [apply bool_decide_eq_true in E as ->; split; [by left|done]|]. apply bool_decide_eq_false in E.
    destruct (bool_decide (a = serialize_request_origin r)) eqn:E2; cbn [negb].
    + apply bool_decide_eq_true in E2 as ->. split; [by right|done].
    + apply bool_decide_eq_false in E2. split; [done|]. intros [[_ ?]|[? _]]; congruence.
Qed.

Lemma tuple_text_not_star o : wf o -> WOrigin.serialize o <> lit "*".
Proof.
  destruct o as [|sc h p]; [done|]. intros (Hs & _). rewrite serialize_tuple. destruct Hs as [Hs _].
  by destruct (special_schemes _ Hs) as [-> |[-> |[-> |[-> |[-> | ->]]]]].
Qed.

(** a response that passes the check with credentials for one origin of a
    URL passes for no other origin, with credentials or without: the header names
    exactly one origin.  Without an [Access-Control-Allow-Origin] none passes. *)
Theorem credentials_for_one_origin r1 r2 hs :
  wf (r_origin r1) -> is_opaque (r_origin r1) = false -> wf (r_origin r2) ->
  includes r1 = true -> cors_check r1 hs = Ok tt -> cors_check r2 hs = Ok tt ->
  r_origin r2 = r_origin r1 /\ allows_credentials hs = true /\ allow_origin hs = Some (serialize_request_origin r1).
Proof.
  intros Hw1 Hop Hw2 Hi H1%cors_check_Ok H2%cors_check_Ok. rewrite Hi in H1. destruct H1 as [[? _]|[H1 Hc]]; [done|].
  split_and!; [|by apply Hc|done]. rewrite H1 in H2. unfold serialize_request_origin in *.
  destruct H2 as [[_ [= E]]|[[= E] _]]; [by apply tuple_text_not_star in E|].
  symmetry. by apply serialize_injective.
Qed.

(** ** What a script sees of another origin's response *)
Definition exposed (r : CorsRequest) (hs : list Header) (h : Header) : Prop :=
  lname h ∈ SAFE \/
  exists l, extract_list hs (lit "Access-Control-Expose-Headers") = Some l /\
    ((includes r = false /\ lit "*" ∈ l) \/ exists i, i ∈ l /\ eq_ignore_ascii_case i (h_name h) = true).

Lemma elem_of_filter_bool {A} (f : A -> bool) l x : x ∈ List.filter f l <-> x ∈ l /\ f x = true.
Proof. rewrite !list_elem_of_In. apply filter_In. Qed.

Lemma filter_cors_exposed r p h : h ∈ v_headers (filter_response r TaintCors p) ->
  h ∈ p_headers p /\ is_forbidden_response_header (h_name h) = false /\ exposed r (p_headers p) h.
Proof.
  unfold filter_response. cbn [v_headers]. intros [Hin [Hf Hv]%andb_true_iff]%elem_of_filter_bool. apply negb_true_iff in Hf.
  split_and!; [done|done|]. apply orb_true_iff in Hv as [[Hv%bool_decide_eq_true|Hv]%orb_true_iff|Hv]; [by left|..]; right.
  - apply andb_true_iff in Hv as [Hi%negb_true_iff Hs%bool_decide_eq_true].
    destruct (extract_list _ _) as [l|]; [|by apply elem_of_nil in Hs]. exists l. split; [done|]. by left.
  - unfold header_listed in Hv. apply existsb_elem in Hv as (i & Hi & E).
    destruct (extract_list _ _) as [l|]; [|by apply elem_of_nil in Hi]. exists l. split; [done|]. right. by exists i.
Qed.

(** C13: whatever the mode, what a script is shown of a response from a URL that
    is not of its own origin ([data:] URLs and navigations apart) is nothing at
    all, or the response passed the CORS check for the script's origin, and then
    no cookie is shown and each header is one of the seven that always are or one
    the response exposes by name or, without credentials, by the wildcard. *)
Theorem cross_origin_reads_are_granted r p n :
  Url.scheme (r_url r) <> lit "data" -> r_mode r <> Navigate -> issued n (r_origin r) -> url_tuple (r_url r) <> Some (r_origin r) ->
  match (taint r n).1 with
  | Err _ => True
  | Ok t =>
      validate_response r t p = Ok tt ->
      let v := filter_response r t p in
      (opaque v = true /\ v_status v = 0 /\ v_headers v = []) \/
      (t = TaintCors /\ opaque v = false /\ cors_check r (p_headers p) = Ok tt /\ is_http (Url.scheme (r_url r)) = true /\
       forall h, h ∈ v_headers v -> h ∈ p_headers p /\ is_forbidden_response_header (h_name h) = false /\ exposed r (p_headers p) h)
  end.
Proof.
  intros Hd Hm Hi Ho. unfold taint. rewrite !bool_decide_eq_false_2 by done. cbn [orb]. unfold counted_bind. rewrite from_url_eq.
  assert (forall o n', (o, n') = match url_tuple (r_url r) with Some o => (o, n) | None => (WOrigin.Opaque n, sat_add n 1) end -> same_origin o (r_origin r) = false) as Hne.
  { intros o n' E. unfold same_origin. apply bool_decide_eq_false_2. intros ->. destruct (url_tuple (r_url r)) as [o'|]; injection E as E _; [congruence|].
    rewrite E in Hi. simpl in Hi. lia. }
  destruct (match url_tuple (r_url r) with Some o => (o, n) | None => _ end) as [o n'] eqn:E. rewrite (Hne o n') by done. cbn [andb counted_ret fst].
  assert (match (if is_http (Url.scheme (r_url r)) then Ok TaintCors else Err UnsupportedScheme) with
  | Err _ => True
  | Ok t => validate_response r t p = Ok tt ->
      let v := filter_response r t p in
      (opaque v = true /\ v_status v = 0 /\ v_headers v = []) \/
      (t = TaintCors /\ opaque v = false /\ cors_check r (p_headers p) = Ok tt /\ is_http (Url.scheme (r_url r)) = true /\
       forall h, h ∈ v_headers v -> h ∈ p_headers p /\ is_forbidden_response_header (h_name h) = false /\ exposed r (p_headers p) h)
  end) as Hcors.
  { destruct (is_http (Url.scheme (r_url r))); [|done]. intros Hv v. right. split_and!; [done..|]. intros h Hh. by apply filter_cors_exposed. }
  destruct (r_mode r); [exact Hcors| |done|exact Hcors]. intros _. by left.
Qed.

(** ** The preflight cache *)
Inductive cache_op :=
| OpStore (partition : list byte) (request : CorsRequest) (grant : PreflightGrant) (now : Z)
| OpForget (partition : list byte).

Definition apply (o : cache_op) (c : PreflightCache) : PreflightCache :=
  match o with
  | OpStore partition request grant now => store partition request grant now c
  | OpForget partition => forget_partition partition c
  end.

(** The operations, latest first. *)
Definition run (ops : list cache_op) : PreflightCache := foldr apply new ops.

(** A grant on record that still stands: stored for the partition, origin and
    URL, with credentials if the request has them, not since forgotten, not yet
    over. *)
Definition standing (ops : list cache_op) (partition : list byte) (request : CorsRequest) (now : Z) (g : PreflightGrant) : Prop :=
  exists later r t earlier, ops = later ++ OpStore partition r g t :: earlier /\ (OpForget partition ∉ later) /\
    r_origin r = r_origin request /\ Url.serialize (r_url r) true = Url.serialize (r_url request) true /\
    (includes request = true -> includes r = true) /\ max_age g <> 0 /\ now < sat_add t (max_age g).

(** Where an entry came from. *)
Definition recorded (ops : list cache_op) (e : CacheEntry) : Prop :=
  exists later r g t earlier, ops = later ++ OpStore (e_partition e) r g t :: earlier /\ (OpForget (e_partition e) ∉ later) /\
    max_age g <> 0 /\ e ∈ grant_entries (e_partition e) r g t.

Lemma refresh_subjects e l l' : refresh e l = Some l' -> map subject l' = map subject l /\ (forall x, x ∈ l' -> x = e \/ x ∈ l) /\ e ∈ l'.
Proof.
  revert l'. induction l as [|y l IH]; intros l'; simpl; [done|]. destruct (bool_decide (subject y = subject e)) eqn:E.
  - intros [= <-]. apply bool_decide_eq_true in E. simpl. split_and!; [by rewrite E| |by left].
    intros x [->|Hx]%elem_of_cons; [by left|right; by right].
  - intros (l2 & H%IH & ->)%fmap_Some. destruct H as (H1 & H2 & H3). simpl. split_and!; [by rewrite H1| |by right].
    intros x [->|Hx]%elem_of_cons; [right; by left|]. destruct (H2 x Hx); [by left|right; by right].
Qed.

Lemma refresh_None e l : refresh e l = None -> subject e ∉ map subject l.
Proof.
  induction l as [|y l IH]; simpl; [intros _; apply not_elem_of_nil|]. destruct (bool_decide (subject y = subject e)) eqn:E; [done|].
  apply bool_decide_eq_false in E. intros H%fmap_None. apply not_elem_of_cons. split; [congruence|by apply IH].
Qed.

Definition cache_ok (l : list CacheEntry) : Prop := (length l <= MAX_CACHE_ENTRIES)%nat /\ NoDup (map subject l).

Lemma add_entry_ok l e : cache_ok l -> cache_ok (add_entry l e).
Proof.
  intros [Hl Hn]. unfold add_entry. destruct (refresh e l) as [l'|] eqn:E.
  - apply refresh_subjects in E as (E & _ & _). split; [|by rewrite E]. apply (f_equal length) in E. rewrite !length_map in E. lia.
  - apply refresh_None in E. assert (forall k, map subject (drop k l ++ [e]) = map subject (drop k l) ++ [subject e]) as Hm by (intros; by rewrite map_app).
    assert (forall k, NoDup (map subject (drop k l) ++ [subject e])) as Hd.
    { intros k. rewrite <- (take_drop k l), map_app in Hn, E. apply NoDup_app in Hn as (_ & _ & Hn). rewrite not_elem_of_app in E.
      apply NoDup_app. split_and!; [done| |apply NoDup_singleton]. intros x Hx ->%list_elem_of_singleton. tauto. }
    destruct (_ <=? _)%nat eqn:Ek; [apply Nat.leb_le in Ek|apply Nat.leb_gt in Ek].
    + split; [rewrite length_app, length_drop; simpl; unfold MAX_CACHE_ENTRIES in *; lia|]. by rewrite Hm.
    + split; [rewrite length_app; simpl; lia|]. by rewrite <- (drop_0 l), Hm.
Qed.

Lemma elem_of_add_entry x l e : x ∈ add_entry l e -> x = e \/ x ∈ l.
Proof.
  unfold add_entry. destruct (refresh e l) as [l'|] eqn:E.
  - apply refresh_subjects in E as (_ & E & _). apply E.
  - intros [Hx|Hx%list_elem_of_singleton]%elem_of_app; [|by left]. right. destruct (_ <=? _)%nat; [|done].
    rewrite <- (take_drop 1 l). apply elem_of_app. by right.
Qed.

Lemma fold_add_ok es l : cache_ok l -> cache_ok (foldl add_entry l es) /\ forall x, x ∈ foldl add_entry l es -> x ∈ es \/ x ∈ l.
Proof.
  revert l. induction es as [|e es IH]; intros l Hl; simpl; [by split; [|right]|].
  destruct (IH (add_entry l e) (add_entry_ok _ _ Hl)) as [H1 H2]. split; [done|].
  intros x Hx. apply H2 in Hx as [Hx|Hx]; [left; by right|]. apply elem_of_add_entry in Hx as [->|Hx]; [left; by left|by right].
Qed.

Lemma filter_ok f l : cache_ok l -> cache_ok (List.filter f l).
Proof.
  intros [Hl Hn]. induction l as [|x l IH]; [by split|]. simpl in *. apply NoDup_cons in Hn as [Hx Hn].
  destruct (IH ltac:(lia) Hn) as [H1 H2]. destruct (f x); [|done]. split; simpl.
  - pose proof (List.filter_length_le f l). lia.
  - apply NoDup_cons. split; [|done]. intros Hin. apply Hx. apply list_elem_of_fmap in Hin as (y & -> & Hy).
    apply elem_of_filter_bool in Hy as [Hy _]. by apply list_elem_of_fmap_2.
Qed.

Lemma recorded_cons o ops e : match o with OpForget p => e_partition e <> p | _ => True end -> recorded ops e -> recorded (o :: ops) e.
Proof.
  intros Ho (later & r & g & t & earlier & -> & Hf & Hm & He). exists (o :: later), r, g, t, earlier. split_and!; try done.
  apply not_elem_of_cons. split; [|done]. destruct o; [done|]. congruence.
Qed.

Lemma run_ok ops : cache_ok (entries (run ops)) /\ forall e, e ∈ entries (run ops) -> recorded ops e.
Proof.
  induction ops as [|o ops [IH1 IH2]]; [split; [split; [simpl; lia|constructor]|]; by intros e He%elem_of_nil|].
  destruct o as [partition r g t|partition]; simpl.
  - unfold store. destruct (max_age g =? 0) eqn:Em.
    { split; [done|]. intros e He. by apply recorded_cons, IH2. }
    apply Z.eqb_neq in Em. cbn [entries]. destruct (fold_add_ok (grant_entries partition r g t) _ (filter_ok (fun e => t <? expires_at e) _ IH1)) as [H1 H2].
    split; [done|]. intros e He. destruct (H2 e He) as [Hg|[Hg _]%elem_of_filter_bool]; [|by apply recorded_cons, IH2].
    assert (e_partition e = partition) as <-.
    { unfold grant_entries in Hg. by apply elem_of_app in Hg as [(m & -> & _)%list_elem_of_fmap|(h & -> & _)%list_elem_of_fmap]. }
    exists [], r, g, t, ops. split_and!; try done. apply not_elem_of_nil.
  - split; [by apply filter_ok|]. intros e [He Hp%negb_true_iff%bool_decide_eq_false]%elem_of_filter_bool. by apply recorded_cons, IH2.
Qed.

Lemma grant_entries_inv partition r g t e : e ∈ grant_entries partition r g t ->
  e_origin e = r_origin r /\ e_url e = Url.serialize (r_url r) true /\ e_credentials e = includes r /\ expires_at e = sat_add t (max_age g) /\
  ((exists m, m ∈ methods g /\ e_method e = Some m /\ e_header e = None) \/
   (exists h, h ∈ header_names g /\ e_method e = None /\ e_header e = Some (to_ascii_lowercase h))).
Proof.
  unfold grant_entries. cbv zeta. intros [(m & -> & Hm)%list_elem_of_fmap|(h & -> & Hh)%list_elem_of_fmap]%elem_of_app; split_and!; try done.
  - left. by exists m.
  - right. by exists h.
Qed.

Lemma live_standing ops partition request now e : e ∈ live (run ops) partition request now ->
  exists g, standing ops partition request now g /\
    ((exists m, m ∈ methods g /\ e_method e = Some m /\ e_header e = None) \/
     (exists h, h ∈ header_names g /\ e_method e = None /\ e_header e = Some (to_ascii_lowercase h))).
Proof.
  unfold live. intros [He Hb]%elem_of_filter_bool. apply run_ok in He as (later & r & g & t & earlier & Eo & Hf & Hm & Hg).
  apply grant_entries_inv in Hg as (E1 & E2 & E3 & E4 & Hg). exists g. split; [|done]. unfold base_match in Hb.
  rewrite !andb_true_iff, !bool_decide_eq_true, Z.ltb_lt in Hb. destruct Hb as [[[[H1 <-] H3] H4] H5].
  exists later, r, t, earlier. split_and!; try done; try congruence.
  - intros Hi. rewrite Hi, orb_false_r in H5. congruence.
Qed.

Lemma lower_star h : to_ascii_lowercase h = lit "*" -> h = lit "*".
Proof.
  destruct h as [|a [|b h]]; try done. change (to_ascii_lowercase [a]) with [ascii_lower_byte a]. intros [= E]. f_equal. by destruct a.
Qed.

Lemma unsafe_lower n hs : n ∈ unsafe_header_names hs -> to_ascii_lowercase n = n.
Proof.
  unfold unsafe_header_names. cbv zeta. intros Hn. apply (proj1 (proj2 (sort_dedup _) n)) in Hn.
  assert (forall l : list Header, n ∈ map lname l -> to_ascii_lowercase n = n) as Hl by (intros l (h & -> & _)%list_elem_of_fmap; apply lower_lower).
  destruct (_ <? _); [apply elem_of_app in Hn as [Hn|Hn]|]; by apply Hl in Hn.
Qed.

(** The method, and a header name, are granted by something standing. *)
Definition method_granted (ops : list cache_op) partition request now : Prop :=
  exists g, standing ops partition request now g /\
    (r_method request ∈ methods g \/ (includes request = false /\ lit "*" ∈ methods g)).
Definition header_granted (ops : list cache_op) partition request now (n : list byte) : Prop :=
  exists g, standing ops partition request now g /\
    (header_listed (header_names g) n = true \/ (includes request = false /\ n <> AUTHORIZATION /\ lit "*" ∈ header_names g)).

(** C12: a preflight is skipped only for what earlier preflights granted: after
    any sequence of stores and partition clearances the cache covers a request
    only when its method is safelisted (and no preflight was asked for) or granted,
    and every header of it that is not safelisted is granted, [Authorization] by
    name; each by a grant stored for the same partition, origin and URL, no weaker
    in credentials, which has not run out nor been cleared since. *)
Theorem skipped_preflights_were_granted ops partition request now :
  covers (run ops) partition request now = true ->
  ((is_safelisted_method (r_method request) = true /\ use_cors_preflight_flag request = false) \/ method_granted ops partition request now) /\
  forall n, n ∈ unsafe_header_names (r_headers request) \/ (has_authorization request = true /\ n = AUTHORIZATION) ->
    header_granted ops partition request now n.
Proof.
  unfold covers. set (l := live _ _ _ _).
  assert (forall n, to_ascii_lowercase n = n -> existsb (header_matches request n) l = true -> header_granted ops partition request now n) as Hh.
  { intros n Hn (e & He & Hm)%existsb_elem. apply live_standing in He as (g & Hg & He). exists g. split; [done|].
    unfold header_matches in Hm. destruct He as [(m & _ & _ & E)|(h & Hin & _ & E)]; rewrite E in Hm; [done|].
    apply orb_true_iff in Hm as [Hm%bool_decide_eq_true|[[Hm%bool_decide_eq_true Hi%negb_true_iff]%andb_true_iff Ha%negb_true_iff%bool_decide_eq_false]%andb_true_iff].
    - left. unfold header_listed. apply existsb_elem. exists h. split; [done|]. apply bool_decide_eq_true. by rewrite Hn.
    - right. split_and!; [done|done|]. by rewrite <- (lower_star _ Hm). }
  destruct (existsb (method_matches request) l || _) eqn:Em; [|done]. cbn [negb]. intros Hc. split.
  - apply orb_true_iff in Em as [Em|[H1 H2%negb_true_iff]%andb_true_iff]; [|by left]. right.
    apply existsb_elem in Em as (e & He & Hm). apply live_standing in He as (g & Hg & He). exists g. split; [done|].
    unfold method_matches in Hm. destruct He as [(m & Hin & E & _)|(h & _ & E & _)]; rewrite E in Hm; [|done].
    apply orb_true_iff in Hm as [->%bool_decide_eq_true|[->%bool_decide_eq_true Hi%negb_true_iff]%andb_true_iff]; [by left|by right].
  - destruct (has_authorization request) eqn:Ea; cbn [andb] in Hc.
    + destruct (existsb (header_matches request AUTHORIZATION) l) eqn:Eh; [|done]. cbn [negb] in Hc.
      intros n [Hn|[_ ->]]; [|by apply Hh]. apply Hh; [by eapply unsafe_lower|]. by apply (proj1 (forallb_elem _ _) Hc).
    + intros n [Hn|[? _]]; [|done]. apply Hh; [by eapply unsafe_lower|]. by apply (proj1 (forallb_elem _ _) Hc).
Qed.

(** ** What was granted is covered *)
Lemma subject_inj x e : subject x = subject e -> expires_at x = expires_at e -> x = e.
Proof. destruct x, e. unfold subject. simpl. by intros [= -> -> -> -> -> ->] ->. Qed.

Lemma refresh_keeps e l l' x : refresh e l = Some l' -> x ∈ l -> expires_at x = expires_at e -> x ∈ l'.
Proof.
  revert l'. induction l as [|y l IH]; intros l'; simpl; [done|]. destruct (bool_decide (subject y = subject e)) eqn:E.
  - intros [= <-] [->|Hx]%elem_of_cons Ht; [|by right]. apply bool_decide_eq_true in E. rewrite (subject_inj y e) by done. by left.
  - intros (l2 & H & ->)%fmap_Some [->|Hx]%elem_of_cons Ht; [by left|right; by eapply IH].
Qed.

Lemma fold_add_all es l t :
  (length l + length es <= MAX_CACHE_ENTRIES)%nat -> Forall (fun e => expires_at e = t) es ->
  forall x, (x ∈ es \/ x ∈ l /\ expires_at x = t) -> x ∈ foldl add_entry l es.
Proof.
  intros Hl Hes. revert l Hl. induction Hes as [|e es He Hes IH]; intros l Hl x Hx; simpl.
  { by destruct Hx as [Hx%elem_of_nil|[Hx _]]. }
  assert ((length (add_entry l e) <= S (length l))%nat /\ e ∈ add_entry l e /\ (x ∈ l -> expires_at x = t -> x ∈ add_entry l e)) as (H1 & H2 & H3).
  { unfold add_entry. destruct (refresh e l) as [l'|] eqn:E.
    - pose proof (refresh_subjects _ _ _ E) as (E1 & _ & E3). apply (f_equal length) in E1. rewrite !length_map in E1.
      split_and!; [lia|done|]. intros Hin Ht. eapply refresh_keeps; [exact E|done|congruence].
    - simpl in Hl. rewrite (proj2 (Nat.leb_gt _ _)) by lia. rewrite length_app. simpl. split_and!; [lia|apply elem_of_app; right; by left|].
      intros Hin _. apply elem_of_app. by left. }
  apply IH; [simpl in Hl; lia|]. destruct Hx as [[->|Hx]%elem_of_cons|[Hx Ht]]; [right; by split|by left|right; split; [by apply H3|done]].
Qed.

Lemma check_names_Ok hn star names : check_names hn star names = Ok tt <-> forall n, n ∈ names -> header_listed hn n = true \/ star = true.
Proof.
  induction names as [|n names IH]; simpl; [split; [by intros _ n Hn%elem_of_nil|done]|].
  destruct (header_listed hn n) eqn:E; cbn [negb andb].
  - rewrite IH. split; [intros H m [->|Hm]%elem_of_cons; [by left|by apply H]|intros H m Hm; apply H; by right].
  - destruct star; cbn [negb].
    + split; [by intros _; right|]. intros _. apply IH. by right.
    + split; [done|]. intros H. destruct (H n); [by left|congruence|done].
Qed.

Lemma validate_preflight_Ok r p g : validate_preflight r p = Ok g ->
  cors_check r (p_headers p) = Ok tt /\ 200 <= status p < 300 /\
  (r_method r ∈ methods g \/ is_safelisted_method (r_method r) = true \/ includes r = false /\ lit "*" ∈ methods g) /\
  (has_authorization r = true -> header_listed (header_names g) AUTHORIZATION = true) /\
  (forall n, n ∈ unsafe_header_names (r_headers r) -> header_listed (header_names g) n = true \/ includes r = false /\ lit "*" ∈ header_names g) /\
  max_age g <= MAX_AGE_CAP_SECS.
Proof.
  unfold validate_preflight. intros ([] & Hc & H)%bind_Ok. destruct (_ && (status p <? 300)) eqn:Es; [|done]. cbn [negb] in H.
  set (ms := match extract_list _ _ with None => _ | Some m => m end) in H. set (hn := default [] _) in H.
  destruct (_ && _ && negb (_ && _)) eqn:Em; [done|]. destruct (_ && _) eqn:Ea in H; [done|].
  apply bind_Ok in H as ([] & Hn & [= <-]). cbn [methods header_names max_age]. split_and!; [done|lia|lia| | | |lia].
  - destruct (bool_decide (r_method r ∈ ms)) eqn:E1; [left; by apply bool_decide_eq_true in E1|]. right.
    destruct (is_safelisted_method _); [by left|right]. cbn [negb andb] in Em. apply negb_false_iff, andb_true_iff in Em as [Ei Em].
    apply negb_true_iff in Ei. by apply bool_decide_eq_true in Em.
  - intros Ha. rewrite Ha in Ea. by apply negb_false_iff in Ea.
  - intros n Hin. pose proof (proj1 (check_names_Ok _ _ _) Hn n Hin) as [?|[Hi%negb_true_iff Hs%bool_decide_eq_true]%andb_true_iff]; [by left|by right].
Qed.

Lemma header_listed_elem l n : header_listed l n = true <-> exists i, i ∈ l /\ to_ascii_lowercase i = to_ascii_lowercase n.
Proof. unfold header_listed. rewrite existsb_elem. unfold eq_ignore_ascii_case. by setoid_rewrite bool_decide_eq_true. Qed.

Lemma unsafe_authorization hs : AUTHORIZATION ∈ unsafe_header_names hs -> existsb (fun h => eq_ignore_ascii_case (h_name h) AUTHORIZATION) hs = true.
Proof.
  unfold unsafe_header_names. cbv zeta. intros Hn. apply (proj1 (proj2 (sort_dedup _) _)) in Hn. apply existsb_elem.
  assert (forall f, AUTHORIZATION ∈ map lname (List.filter f hs) -> exists x, x ∈ hs /\ eq_ignore_ascii_case (h_name x) AUTHORIZATION = true) as Hl.
  { intros f (h & E & [Hh _]%elem_of_filter_bool)%list_elem_of_fmap. exists h. split; [done|]. apply bool_decide_eq_true. unfold lname in E. by rewrite <- E. }
  destruct (_ <? _); [apply elem_of_app in Hn as [Hn|Hn]|]; by apply Hl in Hn.
Qed.

(** a preflight is not repeated while its grant lasts: the response of one
    that succeeded, once stored, covers the same request in the same partition
    until it runs out, provided the cache has room for what the grant lists (when
    it is full it may drop entries of the very grant), and unless the caller asks
    for a preflight whose method the response left to the safelist. *)
Theorem stored_grant_covers c partition request response g now now' :
  validate_preflight request response = Ok g -> max_age g <> 0 ->
  (cache_len c + length (methods g) + length (header_names g) <= MAX_CACHE_ENTRIES)%nat ->
  (use_cors_preflight_flag request = false \/ r_method request ∈ methods g) ->
  now' < sat_add now (max_age g) ->
  covers (store partition request g now c) partition request now' = true.
Proof.
  intros (_ & _ & Hm & Ha & Hn & _)%validate_preflight_Ok Hage Hroom Hflag Hnow. unfold store.
  rewrite (proj2 (Z.eqb_neq _ _)) by done. set (es := grant_entries partition request g now).
  assert (forall e, e ∈ es -> e ∈ live (mkCache (foldl add_entry (List.filter (fun e => now <? expires_at e) (entries c)) es)) partition request now') as Hlive.
  { intros e He. apply elem_of_filter_bool. split.
    - eapply (fold_add_all es _ (sat_add now (max_age g))); [|apply Forall_forall; intros x Hx; by apply grant_entries_inv in Hx as (_ & _ & _ & ? & _)|by left].
      pose proof (List.filter_length_le (fun e => now <? expires_at e) (entries c)). unfold es, grant_entries, cache_len in *. rewrite length_app, !length_map. lia.
    - assert (e_partition e = partition) as Ep.
      { unfold es, grant_entries in He. by apply elem_of_app in He as [(m & -> & _)%list_elem_of_fmap|(h & -> & _)%list_elem_of_fmap]. }
      apply grant_entries_inv in He as (E1 & E2 & E3 & E4 & _). unfold base_match. rewrite Ep, E1, E2, E3, E4.
      rewrite !bool_decide_eq_true_2, (proj2 (Z.ltb_lt _ _)) by done. cbn [andb]. by destruct (includes request). }
  unfold covers. set (l := live _ _ _ _) in *.
  assert (forall m, m ∈ methods g -> (m = r_method request \/ m = lit "*" /\ includes request = false) -> existsb (method_matches request) l = true) as HM.
  { intros m Hin Hor. apply existsb_elem. eexists. split; [apply Hlive; unfold es, grant_entries; apply elem_of_app; left; by apply list_elem_of_fmap_2|].
    unfold method_matches. cbn [e_method]. apply orb_true_iff. destruct Hor as [->|[-> ->]]; [left; by apply bool_decide_eq_true|by right]. }
  assert (existsb (method_matches request) l || is_safelisted_method (r_method request) && negb (use_cors_preflight_flag request) = true) as ->.
  { apply orb_true_iff. destruct Hm as [Hm|[Hm|[Hi Hm]]]; [left; eapply HM; [exact Hm|by left]| |left; eapply HM; [exact Hm|by right]].
    destruct Hflag as [Hf|Hm']; [right; by rewrite Hm, Hf|left; eapply HM; [exact Hm'|by left]]. }
  cbn [negb].
  assert (forall n, to_ascii_lowercase n = n -> (header_listed (header_names g) n = true \/ includes request = false /\ n <> AUTHORIZATION /\ lit "*" ∈ header_names g) ->
    existsb (header_matches request n) l = true) as HH.
  { intros n Hlow Hor. assert (forall h, h ∈ header_names g -> (to_ascii_lowercase h = n \/ to_ascii_lowercase h = lit "*" /\ includes request = false /\ n <> AUTHORIZATION) ->
      existsb (header_matches request n) l = true) as Hh.
    { intros h Hin Hor'. apply existsb_elem. eexists. split; [apply Hlive; unfold es, grant_entries; apply elem_of_app; right; by apply list_elem_of_fmap_2|].
      unfold header_matches. cbn [e_header]. apply orb_true_iff. destruct Hor' as [->|(-> & -> & Hna)]; [left; by apply bool_decide_eq_true|right].
      by rewrite (bool_decide_eq_false_2 (n = AUTHORIZATION)). }
    destruct Hor as [(i & Hi & E)%header_listed_elem|(Hi & Hna & Hs)]; [eapply Hh; [exact Hi|left; congruence]|eapply Hh; [exact Hs|by right]]. }
  assert (has_authorization request && negb (existsb (header_matches request AUTHORIZATION) l) = false) as ->.
  { destruct (has_authorization request) eqn:E; [|done]. rewrite HH; [done|done|left; by apply Ha]. }
  apply forallb_elem. intros n Hin. apply HH; [by eapply unsafe_lower|]. destruct (decide (n = AUTHORIZATION)) as [->|Hna].
  - left. apply Ha. by apply unsafe_authorization.
  - destruct (Hn n Hin) as [?|[? ?]]; [by left|by right].
Qed.

(** the cache never holds more than 512 entries, nor two about the same
    subject, and every entry is from a grant on record for its partition. *)
Theorem cache_is_bounded ops :
  (cache_len (run ops) <= MAX_CACHE_ENTRIES)%nat /\ NoDup (map subject (entries (run ops))) /\
  forall e, e ∈ entries (run ops) -> recorded ops e.
Proof. destruct (run_ok ops) as [[H1 H2] H3]. by split_and!. Qed.

(** ** The names a preflight asks for *)
Definition token (n : list byte) : Prop := n <> [] /\ Forall (fun b => is_token_byte b = true) n.

Lemma token_byte_ok b : is_token_byte b = true ->
  is_ascii_byte b = true /\ is_http_ws b = false /\ b <> QUOTE /\ b <> COMMA /\ is_token_byte (ascii_lower_byte b) = true.
Proof. intros H. destruct b; try (by vm_compute in H); by split_and!. Qed.

Lemma split_loop_plain w rest cur : Forall (fun b => is_token_byte b = true) w ->
  split_list_loop (w ++ rest) cur false false = split_list_loop rest (cur ++ w) false false.
Proof.
  intros Hw. revert cur. induction Hw as [|b w Hb Hw IH]; intros cur; [by rewrite app_nil_r|].
  apply token_byte_ok in Hb as (_ & _ & Hq & Hc & _). cbn [app split_list_loop]. rewrite (bool_decide_eq_false_2 (b = QUOTE)), (bool_decide_eq_false_2 (b = COMMA)) by done.
  by rewrite IH, <- app_assoc.
Qed.

Lemma finish_token w : token w -> finish_item w = w.
Proof.
  intros [Hne Hw]. unfold finish_item. assert (trim_http_ws w = w) as ->.
  { unfold trim_http_ws, Url.trim_matches. assert (forall l, Forall (fun b => is_token_byte b = true) l -> Url.drop_while is_http_ws l = l) as Hd.
    { intros l [|b l' Hb _]; [done|]. apply token_byte_ok in Hb as (_ & Hb & _). apply (drop_while_id is_http_ws (b :: l')). done. }
    rewrite (Hd w Hw), Hd; [apply reverse_involutive|]. by apply Forall_reverse. }
  apply utf8_lossy_ascii, forallb_true. eapply Forall_impl; [exact Hw|]. intros b Hb. by apply token_byte_ok in Hb as [? _].
Qed.

Lemma split_list_tokens ws : ws <> [] -> Forall token ws -> split_list (join_with COMMA ws) = ws.
Proof.
  intros Hne Hws. unfold split_list. destruct ws as [|w ws]; [done|]. clear Hne. revert w Hws.
  induction ws as [|w' ws IH]; intros w [Hw Hws]%Forall_cons.
  - cbn [join_with]. rewrite <- (app_nil_r w) at 1. rewrite split_loop_plain by apply Hw. cbn [app split_list_loop]. by rewrite finish_token.
  - change (join_with COMMA (w :: w' :: ws)) with (w ++ COMMA :: join_with COMMA (w' :: ws)). rewrite split_loop_plain by apply Hw.
    cbn [app split_list_loop]. change (bool_decide (COMMA = QUOTE)) with false. rewrite bool_decide_eq_true_2 by done. cbv iota.
    rewrite finish_token by done. f_equal. by apply IH.
Qed.

Lemma trim_tokens ws : ws <> [] -> Forall token ws -> trim_http_ws (join_with COMMA ws) = join_with COMMA ws.
Proof.
  intros Hne Hws. assert (Forall (fun b => is_http_ws b = false) (join_with COMMA ws)) as H.
  { apply join_Forall; [done|]. eapply Forall_impl; [exact Hws|]. intros w [_ Hw]. eapply Forall_impl; [exact Hw|].
    intros b Hb. by apply token_byte_ok in Hb as (_ & ? & _). }
  unfold trim_http_ws, Url.trim_matches. assert (forall l, Forall (fun b => is_http_ws b = false) l -> Url.drop_while is_http_ws l = l) as Hd.
  { intros l [|b l' Hb _]; [done|]. by apply (drop_while_id is_http_ws (b :: l')). }
  rewrite (Hd _ H), Hd; [apply reverse_involutive|]. by apply Forall_reverse.
Qed.

(** The bytes of the safelisted headers. *)
Definition safelisted_total (hs : list Header) : Z := sum_Z (fun h => len (h_value h)) (List.filter safelisted hs).

Lemma total_eq hs : 0 <= sum_Z (fun h => len (h_value h)) hs ->
  (SAFELIST_TOTAL_MAX <? foldl (fun t h => Z.min USIZE_MAX (t + len (h_value h))) 0 hs) = (SAFELIST_TOTAL_MAX <? sum_Z (fun h => len (h_value h)) hs).
Proof.
  intros _. assert (forall l t, 0 <= t <= USIZE_MAX -> foldl (fun t h => Z.min USIZE_MAX (t + len (h_value h))) t l = Z.min USIZE_MAX (t + sum_Z (fun h => len (h_value h)) l)) as H.
  { induction l as [|h l IH]; intros t Ht; simpl; [lia|]. pose proof (len_nonneg (h_value h)). rewrite IH by lia.
    pose proof (sum_Z_nonneg (fun h => len (h_value h)) l ltac:(intros; apply len_nonneg)). change (foldr _ 0 l) with (sum_Z (fun h => len (h_value h)) l). lia. }
  rewrite H by (unfold_width; lia). unfold SAFELIST_TOTAL_MAX, USIZE_MAX. lia.
Qed.

Lemma unsafe_names_spec hs n : n ∈ unsafe_header_names hs <->
  exists h, h ∈ hs /\ lname h = n /\ (safelisted h = false \/ SAFELIST_TOTAL_MAX < safelisted_total hs).
Proof.
  unfold unsafe_header_names. cbv zeta. rewrite (proj2 (sort_dedup _) n).
  rewrite total_eq by (apply sum_Z_nonneg; intros; apply len_nonneg). fold (safelisted_total hs).
  assert (forall f, n ∈ map lname (List.filter f hs) <-> exists h, h ∈ hs /\ lname h = n /\ f h = true) as Hm.
  { intros f. split.
    - intros (h & -> & [Hh Hf]%elem_of_filter_bool)%list_elem_of_fmap. by exists h.
    - intros (h & Hh & <- & Hf). by apply list_elem_of_fmap_2, elem_of_filter_bool. }
  destruct (SAFELIST_TOTAL_MAX <? safelisted_total hs) eqn:E; [apply Z.ltb_lt in E|apply Z.ltb_ge in E].
  - rewrite elem_of_app, !Hm. split; [intros [(h & H1 & H2 & _)|(h & H1 & H2 & _)]; exists h; by split_and!; try right|].
    intros (h & H1 & H2 & _). destruct (safelisted h) eqn:Es; [right|left]; exists h; by rewrite ?Es.
  - rewrite Hm. setoid_rewrite negb_true_iff. split; [intros (h & H1 & H2 & H3); exists h; split_and!; try done; by left|].
    intros (h & H1 & H2 & [H3|H3]); [by exists h|lia].
Qed.

(** the preflight asks for what the request needs: its list of names, read
    back the way a server reads a list header, is sorted, free of repetitions and
    exactly the lowercase names of the headers that are not safelisted (of all of
    them once the safelisted values pass 1024 bytes); without such a header it
    asks for none, and the request needs no preflight exactly when, besides, its
    method is safelisted and none was asked for. *)
Theorem preflight_asks_for_what_is_needed r :
  Forall (fun h => token (h_name h)) (r_headers r) ->
  let names := unsafe_header_names (r_headers r) in
  extract_list (f_headers (preflight_request r)) (lit "access-control-request-headers") = (if bool_decide (names = []) then None else Some names) /\
  StronglySorted OrdMap.lt names /\
  (forall n, n ∈ names <-> exists h, h ∈ r_headers r /\ lname h = n /\ (safelisted h = false \/ SAFELIST_TOTAL_MAX < safelisted_total (r_headers r))) /\
  (classify r = Simple <-> names = [] /\ is_safelisted_method (r_method r) = true /\ use_cors_preflight_flag r = false).
Proof.
  intros Ht names. split_and!; [| |intros n; apply unsafe_names_spec|].
  - assert (Forall token names) as Htok.
    { apply Forall_forall. intros n Hn. apply unsafe_names_spec in Hn as (h & Hh & <- & _). pose proof (proj1 (Forall_forall _ _) Ht h Hh) as [H1 H2].
      unfold lname, token. split; [by destruct (h_name h)|]. apply Forall_map. eapply Forall_impl; [exact H2|]. intros b Hb.
      by apply token_byte_ok in Hb as (_ & _ & _ & _ & ?). }
    unfold preflight_request. cbv zeta. cbn [f_headers]. fold names. destruct (bool_decide (names = [])) eqn:E; [done|].
    apply bool_decide_eq_false in E. unfold extract_list, get_combined, named. cbn [app List.filter h_name].
    change (eq_ignore_ascii_case (lit "Accept") (lit "access-control-request-headers")) with false.
    change (eq_ignore_ascii_case (lit "Access-Control-Request-Method") (lit "access-control-request-headers")) with false.
    change (eq_ignore_ascii_case (lit "Access-Control-Request-Headers") (lit "access-control-request-headers")) with true. cbv iota.
    cbn [join_values h_value fmap option_fmap option_map]. rewrite trim_tokens by done. by rewrite split_list_tokens.
  - apply sort_dedup.
  - unfold classify. cbv zeta. fold names. destruct (_ && _) eqn:E.
    + split; [intros _|done]. apply andb_true_iff in E as [[E1 E2]%andb_true_iff E3]. rewrite negb_involutive in E1.
      apply bool_decide_eq_true in E2. by apply negb_true_iff in E3.
    + split; [done|]. intros (H1 & H2 & H3). rewrite H2, H3, bool_decide_eq_true_2 in E by done. done.
Qed.

Module CorsUses.
Definition page_origin : WOrigin.t := Tuple (lit "https") (Domain (lit "shop.com")) None.
Definition api : Url.t := Url.mkUrl (lit "https") [] [] (Some (Domain (lit "api.com"))) None (lit "/v1") None None.
Definition put : CorsRequest := mkRequest (lit "PUT") api page_origin
  [mkHeader (lit "X-Token") (lit "1"); mkHeader (lit "Accept") (lit "*/*"); mkHeader (lit "Authorization") (lit "k")] Include ModeCors false false.
Definition answer : CorsResponse := mkResponse 204
  [mkHeader (lit "access-control-allow-origin") (lit " https://shop.com "); mkHeader (lit "Access-Control-Allow-Credentials") (lit "true");
   mkHeader (lit "Access-Control-Allow-Methods") (lit "GET, PUT"); mkHeader (lit "Access-Control-Allow-Headers") (lit "x-token,Authorization");
   mkHeader (lit "Access-Control-Max-Age") (lit "600"); mkHeader (lit "Set-Cookie") (lit "a=b"); mkHeader (lit "Pragma") (lit "x")].
Definition grant : PreflightGrant := mkGrant [lit "GET"; lit "PUT"] [lit "x-token"; lit "Authorization"] 600.

Lemma page_origin_ok : wf page_origin.
Proof.
  split; [split; [by vm_compute|done]|]. split; [split_and!; [done|done|by repeat constructor|by vm_compute]|]. split; [done|by intros ?].
Qed.

Lemma credentials_for_one_origin_witness : allow_origin (p_headers answer) = Some (lit "https://shop.com").
Proof.
  apply (credentials_for_one_origin put put (p_headers answer)); try exact page_origin_ok; vm_compute; reflexivity.
Defined.

Lemma cross_origin_reads_are_granted_witness :
  map h_name (v_headers (filter_response put TaintCors answer)) = [lit "Pragma"] /\ cors_check put (p_headers answer) = Ok tt.
Proof.
  pose proof (cross_origin_reads_are_granted put answer 1 ltac:(by vm_compute) ltac:(done) I ltac:(by vm_compute)) as H.
  change ((taint put 1).1) with (@Ok CorsError _ TaintCors) in H. cbv iota in H.
  destruct (H ltac:(vm_compute; reflexivity)) as [(E & _)|(_ & _ & Hc & _)]; [by vm_compute in E|]. split; [vm_compute; reflexivity|exact Hc].
Defined.

Definition history : list cache_op := [OpStore (lit "shop.com") put grant 100].

Lemma stored_grant_covers_witness : covers (run history) (lit "shop.com") put 699 = true.
Proof.
  apply (stored_grant_covers new (lit "shop.com") put answer grant 100 699).
  - vm_compute. reflexivity.
  - discriminate.
  - vm_compute. lia.
  - by left.
  - vm_compute. reflexivity.
Defined.

Lemma skipped_preflights_were_granted_witness :
  covers (run history) (lit "shop.com") put 699 = true /\ header_granted history (lit "shop.com") put 699 (lit "x-token") /\
  covers (run history) (lit "other.com") put 699 = false /\ covers (run history) (lit "shop.com") put 700 = false.
Proof.
  assert (covers (run history) (lit "shop.com") put 699 = true) as E by (vm_compute; reflexivity). split; [exact E|].
  split; [|split; vm_compute; reflexivity].
  apply (proj2 (skipped_preflights_were_granted _ _ _ _ E)). left. vm_compute. apply elem_of_cons. right. by apply elem_of_cons; left.
Defined.

Lemma preflight_asks_for_what_is_needed_witness :
  extract_list (f_headers (preflight_request put)) (lit "access-control-request-headers") = Some [lit "authorization"; lit "x-token"].
Proof.
  rewrite (proj1 (preflight_asks_for_what_is_needed put ltac:(repeat constructor; try discriminate; vm_compute; repeat constructor))). vm_compute. reflexivity.
Defined.
End CorsUses.
