(* ===== verification/Words.v ===== *)
(** * Machine words: traps, bits and words of bytes

    The release profile keeps overflow checks on, so an addition or product
    that does not fit its type traps: arithmetic is written on [option Z], with
    [None] for the trap.  Bits are read from byte strings the way the loops over
    exponents, scalars and hashes read them, most significant first. *)
From S2P Require Import Prelude Bytes.
Local Open Scope Z_scope.

Definition U128_MAX : Z := 2 ^ 128 - 1.

(** ** Arithmetic that traps *)
Definition fits (max z : Z) : option Z := if decide (0 <= z <= max) then Some z else None.
Definition lift2 (f : Z -> Z -> option Z) (a b : option Z) : option Z := x ← a; y ← b; f x y.

Declare Scope u64_scope.
Delimit Scope u64_scope with u64.
Declare Scope u128_scope.
Delimit Scope u128_scope with u128.

Definition add64 : option Z -> option Z -> option Z := lift2 (fun x y => fits U64_MAX (x + y)).
Definition sub64 : option Z -> option Z -> option Z := lift2 (fun x y => fits U64_MAX (x - y)).
Definition mul64 : option Z -> option Z -> option Z := lift2 (fun x y => fits U64_MAX (x * y)).
Definition add128 : option Z -> option Z -> option Z := lift2 (fun x y => fits U128_MAX (x + y)).
Definition mul128 : option Z -> option Z -> option Z := lift2 (fun x y => fits U128_MAX (x * y)).
(** Shifts to the right and masks never trap; a shift to the left drops bits. *)
Definition shr (a : option Z) (n : Z) : option Z := (fun x => Z.shiftr x n) <$> a.
Definition shl64 (x n : Z) : Z := Z.land (Z.shiftl x n) U64_MAX.
Definition land_o (a : option Z) (m : Z) : option Z := (fun x => Z.land x m) <$> a.

Notation "a + b" := (add64 a b) : u64_scope.
Notation "a - b" := (sub64 a b) : u64_scope.
Notation "a * b" := (mul64 a b) : u64_scope.
Notation "a + b" := (add128 a b) : u128_scope.
Notation "a * b" := (mul128 a b) : u128_scope.

Lemma add64_Some x y : 0 <= x + y <= U64_MAX -> add64 (Some x) (Some y) = Some (x + y).
Proof. intros H. unfold add64, lift2, fits. simpl. by rewrite decide_True. Qed.
Lemma sub64_Some x y : 0 <= x - y <= U64_MAX -> sub64 (Some x) (Some y) = Some (x - y).
Proof. intros H. unfold sub64, lift2, fits. simpl. by rewrite decide_True. Qed.
Lemma mul64_Some x y : 0 <= x * y <= U64_MAX -> mul64 (Some x) (Some y) = Some (x * y).
Proof. intros H. unfold mul64, lift2, fits. simpl. by rewrite decide_True. Qed.
Lemma add128_Some x y : 0 <= x + y <= U128_MAX -> add128 (Some x) (Some y) = Some (x + y).
Proof. intros H. unfold add128, lift2, fits. simpl. by rewrite decide_True. Qed.
Lemma mul128_Some x y : 0 <= x * y <= U128_MAX -> mul128 (Some x) (Some y) = Some (x * y).
Proof. intros H. unfold mul128, lift2, fits. simpl. by rewrite decide_True. Qed.

(** ** Bits, most significant first *)
(** [(byte >> i) & 1 == 1]. *)
Definition bit (b : byte) (i : Z) : bool := Z.land (Z.shiftr (b2z b) i) 1 =? 1.

(** A little-endian string, from its last byte and the top bit of each. *)
Definition bits_msb (l : list byte) : list bool := flat_map (fun b => map (bit b) [7; 6; 5; 4; 3; 2; 1; 0]) (reverse l).

Definition double_add (n : Z) (b : bool) : Z := 2 * n + Z.b2z b.

Lemma bit_testbit b i : 0 <= i -> bit b i = Z.testbit (b2z b) i.
Proof.
  intros Hi. unfold bit. change 1 with (Z.ones 1) at 1. rewrite Z.land_ones, Z.shiftr_div_pow2, Z.pow_1_r by lia.
  rewrite Z.testbit_eqb by lia. done.
Qed.

Lemma byte_bits b n : foldl double_add n (map (bit b) [7; 6; 5; 4; 3; 2; 1; 0]) = 256 * n + b2z b.
Proof.
  assert (b2z b = foldl double_add 0 (map (bit b) [7; 6; 5; 4; 3; 2; 1; 0])) as E by (by destruct b).
  rewrite E. unfold double_add. cbn [foldl map]. lia.
Qed.

Lemma bits_msb_fold l n : foldl double_add n (bits_msb l) = n * 256 ^ len l + from_le l.
Proof.
  unfold bits_msb. revert n. induction l as [|b l IH]; intros n; [change (len []) with 0; rewrite Z.pow_0_r; cbn [from_le]; change (n = n * 1 + 0); lia|].
  rewrite reverse_cons, flat_map_app, foldl_app, IH. cbn [flat_map]. rewrite app_nil_r, byte_bits. cbn [from_le].
  rewrite len_cons, Z.pow_add_r by (pose proof (len_nonneg l); lia). rewrite Z.pow_1_r. 
  change (from_le (b :: l)) with (b2z b + 256 * from_le l). ring.
Qed.

(** The bits of a string, read in, are its integer. *)
Lemma bits_msb_value l : foldl double_add 0 (bits_msb l) = from_le l.
Proof. by rewrite bits_msb_fold, Z.mul_0_l, Z.add_0_l. Qed.

(** ** Words of bytes *)
(** [as_chunks::<n>().0]: whole chunks only. *)
Fixpoint chunks_loop (fuel : nat) (n : nat) {A} (l : list A) : list (list A) :=
  match fuel with
  | O => []
  | S fuel => if (length l <? n)%nat then [] else take n l :: chunks_loop fuel n (drop n l)
  end.
(** Every chunk takes at least one element. *)
Definition as_chunks (n : nat) {A} (l : list A) : list (list A) := chunks_loop (length l) n l.

(** Big-endian words. *)
Definition from_be (l : list byte) : Z := from_le (reverse l).
Definition be_bytes (n : nat) (z : Z) : list byte := reverse (le_bytes n z).

Definition le_words (l : list byte) : list Z := map from_le (as_chunks 8 l).
Definition be_words (n : nat) (l : list byte) : list Z := map from_be (as_chunks n l).

(** The integer of little-endian 64-bit limbs. *)
Fixpoint limbs (w : list Z) : Z := match w with [] => 0 | x :: w => x + 2 ^ 64 * limbs w end.

Section chunks.
Context {A : Type} (n : nat) (Hn : (0 < n)%nat).
Implicit Type l : list A.

Lemma chunks_loop_spec fuel l k : (length l <= fuel)%nat -> length l = (n * k)%nat ->
  length (chunks_loop fuel n l) = k /\ Forall (fun c => length c = n) (chunks_loop fuel n l) /\ concat (chunks_loop fuel n l) = l.
Proof.
  revert fuel l. induction k as [|k IH]; intros fuel l Hf Hl.
  - assert (l = []) as -> by (destruct l; [done|simpl in *; lia]). destruct fuel; simpl; [done|]. destruct (0 <? n)%nat eqn:E; [done|apply Nat.ltb_ge in E; lia].
  - destruct fuel as [|fuel]; [lia|]. cbn [chunks_loop]. destruct (length l <? n)%nat eqn:E; [apply Nat.ltb_lt in E; nia|]. apply Nat.ltb_ge in E.
    destruct (IH fuel (drop n l)) as (H1 & H2 & H3); [rewrite length_drop; lia|rewrite length_drop; lia|]. split_and!.
    + simpl. by rewrite H1.
    + constructor; [rewrite length_take; lia|done].
    + simpl. by rewrite H3, take_drop.
Qed.
End chunks.

Lemma as_chunks_spec {A} n (l : list A) k : (0 < n)%nat -> length l = (n * k)%nat ->
  length (as_chunks n l) = k /\ Forall (fun c => length c = n) (as_chunks n l) /\ concat (as_chunks n l) = l.
Proof. intros Hn Hl. by apply chunks_loop_spec. Qed.

Lemma from_le_app a b : from_le (a ++ b) = from_le a + 256 ^ len a * from_le b.
Proof.
  induction a as [|x a IH]; [change (from_le b = 0 + 256 ^ 0 * from_le b); lia|].
  rewrite len_cons, Z.pow_add_r, Z.pow_1_r by (pose proof (len_nonneg a); lia).
  change (from_le ((x :: a) ++ b)) with (b2z x + 256 * from_le (a ++ b)). rewrite IH.
  change (from_le (x :: a)) with (b2z x + 256 * from_le a). ring.
Qed.

Lemma limbs_chunks cs : Forall (fun c => length c = 8%nat) cs -> limbs (map from_le cs) = from_le (concat cs).
Proof.
  induction 1 as [|c cs Hc _ IH]; [done|]. cbn [map limbs concat]. rewrite from_le_app, IH. unfold len. by rewrite Hc.
Qed.

Lemma le_words_spec l k : length l = (8 * k)%nat -> length (le_words l) = k /\ limbs (le_words l) = from_le l /\ Forall (fun w => 0 <= w < 2 ^ 64) (le_words l).
Proof.
  intros Hl. destruct (as_chunks_spec 8 l k) as (H1 & H2 & H3); [lia|done|]. unfold le_words. split_and!.
  - by rewrite length_map.
  - by rewrite limbs_chunks, H3.
  - apply Forall_map. eapply Forall_impl; [exact H2|]. intros c Hc. cbv beta. pose proof (from_le_range c) as Hr. unfold len in Hr. by rewrite Hc in Hr.
Qed.

(** Writing 64-bit limbs. *)
Lemma from_le_words w : Forall (fun x => 0 <= x < 2 ^ 64) w -> from_le (flat_map (le_bytes 8) w) = limbs w /\ length (flat_map (le_bytes 8) w) = (8 * length w)%nat.
Proof.
  induction 1 as [|x w Hx _ [IH1 IH2]]; [done|]. cbn [flat_map limbs length]. rewrite from_le_app, IH1, length_app, IH2, len_le_bytes, length_le_bytes.
  rewrite from_le_bytes by (by change (256 ^ Z.of_nat 8) with (2 ^ 64)). split; [done|lia].
Qed.

(** Joining and cutting words. *)
Lemma shl64_spec x n : 0 <= n <= 64 -> shl64 x n = (x mod 2 ^ (64 - n)) * 2 ^ n.
Proof.
  intros Hn. unfold shl64, U64_MAX. change (2 ^ 64 - 1) with (Z.ones 64). rewrite Z.land_ones, Z.shiftl_mul_pow2 by lia.
  rewrite <- Z.mul_mod_distr_r by (apply Z.pow_nonzero; lia). rewrite <- Z.pow_add_r by lia. do 2 f_equal. lia.
Qed.

Lemma lor_low x y n : 0 <= n -> 0 <= x < 2 ^ n -> Z.lor x (y * 2 ^ n) = x + y * 2 ^ n.
Proof.
  intros Hn Hx. rewrite <- Z.add_lor_land. rewrite <- (Z.add_0_r (Z.lor _ _)) at 1. f_equal. symmetry. apply Z.bits_inj'. intros i Hi.
  rewrite Z.land_spec, Z.bits_0. destruct (Z.lt_ge_cases i n) as [Hlt|Hge].
  - by rewrite Z.mul_pow2_bits_low, andb_false_r.
  - rewrite <- (Z.mod_small x (2 ^ n)) by done. by rewrite Z.mod_pow2_bits_high by lia.
Qed.

Lemma lor_shl64 x y n : 0 <= n <= 64 -> 0 <= x < 2 ^ n -> Z.lor x (shl64 y n) = x + (y mod 2 ^ (64 - n)) * 2 ^ n.
Proof. intros Hn Hx. rewrite shl64_spec by done. apply lor_low; lia. Qed.

(** ** Chunks, one at a time *)
Section chunk_steps.
Context {A : Type} (n : nat) (Hn : (0 < n)%nat).
Implicit Type l : list A.

Lemma chunks_fuel f1 f2 l : (length l <= f1)%nat -> (length l <= f2)%nat -> chunks_loop f1 n l = chunks_loop f2 n l.
Proof.
  revert f2 l. induction f1 as [|f1 IH]; intros [|f2] l H1 H2; try (destruct l; [|simpl in *; lia]); cbn [chunks_loop]; try done.
  - destruct (_ <? _)%nat eqn:E; [done|]. apply Nat.ltb_ge in E. simpl in E. lia.
  - destruct (_ <? _)%nat eqn:E; [done|]. apply Nat.ltb_ge in E. simpl in E. lia.
  - destruct (_ <? _)%nat eqn:E; [done|]. apply Nat.ltb_ge in E. f_equal. apply IH; rewrite length_drop; lia.
Qed.

Lemma as_chunks_short l : (length l < n)%nat -> as_chunks n l = [].
Proof. intros Hl. unfold as_chunks. destruct (length l) eqn:E; [done|]. cbn [chunks_loop]. rewrite E. by rewrite (proj2 (Nat.ltb_lt _ _) Hl). Qed.

Lemma as_chunks_cons (c l : list A) : length c = n -> as_chunks n (c ++ l) = c :: as_chunks n l.
Proof.
  intros Hc. unfold as_chunks at 1. destruct (length (c ++ l)) as [|m] eqn:El; rewrite length_app in El; [lia|]. cbn [chunks_loop].
  destruct (_ <? _)%nat eqn:E; [apply Nat.ltb_lt in E; rewrite length_app in E; lia|].
  rewrite <- Hc, take_app_length, drop_app_length. f_equal. rewrite Hc. apply chunks_fuel; lia.
Qed.

Lemma as_chunks_app k (a b : list A) : length a = (n * k)%nat -> as_chunks n (a ++ b) = as_chunks n a ++ as_chunks n b.
Proof.
  revert a. induction k as [|k IH]; intros a Ha.
  - assert (a = []) as -> by (destruct a; [done|simpl in *; lia]). by rewrite (as_chunks_short []) by (simpl; lia).
  - rewrite <- (take_drop n a), <- app_assoc. rewrite as_chunks_cons by (rewrite length_take; lia).
    rewrite (as_chunks_cons (take n a) (drop n a)) by (rewrite length_take; lia). rewrite IH by (rewrite length_drop; lia). done.
Qed.

Lemma as_chunks_sizes l : Forall (fun c => length c = n) (as_chunks n l).
Proof.
  unfold as_chunks. generalize (length l). intros fuel. revert l. induction fuel as [|fuel IH]; intros l; [constructor|]. cbn [chunks_loop].
  destruct (_ <? _)%nat eqn:E; [constructor|]. apply Nat.ltb_ge in E. constructor; [rewrite length_take; lia|apply IH].
Qed.

(** What is left over plays no part. *)
Lemma as_chunks_whole l : as_chunks n l = as_chunks n (take (n * (length l / n)) l) /\ length (take (n * (length l / n)) l) = (n * (length l / n))%nat.
Proof.
  pose proof (Nat.Div0.mul_div_le (length l) n) as Hle. assert (length (take (n * (length l / n)) l) = (n * (length l / n))%nat) as Hlen by (rewrite length_take; lia).
  split; [|done]. rewrite <- (take_drop (n * (length l / n)) l) at 1. rewrite (as_chunks_app (length l / n)) by done.
  rewrite (as_chunks_short (drop _ l)), app_nil_r; [done|]. rewrite length_drop. pose proof (Nat.div_mod_eq (length l) n). pose proof (Nat.mod_upper_bound (length l) n). lia.
Qed.
End chunk_steps.
