(* ===== verification/Sha2.v ===== *)
(** * SHA-256, SHA-384 and SHA-512 (px-update/src/sha2.rs)

    The message schedule is a sliding window of sixteen words, as in the code.
    The proofs relate it to the definition of FIPS 180-4, which computes the
    whole schedule of a block first and pads the whole message first. *)
From S2P Require Import Prelude Bytes Words.
Local Open Scope Z_scope.

Definition K256 : list Z := concat [
  [0x428a2f98; 0x71374491; 0xb5c0fbcf; 0xe9b5dba5; 0x3956c25b; 0x59f111f1; 0x923f82a4; 0xab1c5ed5];
  [0xd807aa98; 0x12835b01; 0x243185be; 0x550c7dc3; 0x72be5d74; 0x80deb1fe; 0x9bdc06a7; 0xc19bf174];
  [0xe49b69c1; 0xefbe4786; 0x0fc19dc6; 0x240ca1cc; 0x2de92c6f; 0x4a7484aa; 0x5cb0a9dc; 0x76f988da];
  [0x983e5152; 0xa831c66d; 0xb00327c8; 0xbf597fc7; 0xc6e00bf3; 0xd5a79147; 0x06ca6351; 0x14292967];
  [0x27b70a85; 0x2e1b2138; 0x4d2c6dfc; 0x53380d13; 0x650a7354; 0x766a0abb; 0x81c2c92e; 0x92722c85];
  [0xa2bfe8a1; 0xa81a664b; 0xc24b8b70; 0xc76c51a3; 0xd192e819; 0xd6990624; 0xf40e3585; 0x106aa070];
  [0x19a4c116; 0x1e376c08; 0x2748774c; 0x34b0bcb5; 0x391c0cb3; 0x4ed8aa4a; 0x5b9cca4f; 0x682e6ff3];
  [0x748f82ee; 0x78a5636f; 0x84c87814; 0x8cc70208; 0x90befffa; 0xa4506ceb; 0xbef9a3f7; 0xc67178f2]].

Definition H256 : list Z := [
  0x6a09e667; 0xbb67ae85; 0x3c6ef372; 0xa54ff53a; 0x510e527f; 0x9b05688c; 0x1f83d9ab; 0x5be0cd19].

Definition K512 : list Z := concat [
  [0x428a2f98d728ae22; 0x7137449123ef65cd; 0xb5c0fbcfec4d3b2f; 0xe9b5dba58189dbbc];
  [0x3956c25bf348b538; 0x59f111f1b605d019; 0x923f82a4af194f9b; 0xab1c5ed5da6d8118];
  [0xd807aa98a3030242; 0x12835b0145706fbe; 0x243185be4ee4b28c; 0x550c7dc3d5ffb4e2];
  [0x72be5d74f27b896f; 0x80deb1fe3b1696b1; 0x9bdc06a725c71235; 0xc19bf174cf692694];
  [0xe49b69c19ef14ad2; 0xefbe4786384f25e3; 0x0fc19dc68b8cd5b5; 0x240ca1cc77ac9c65];
  [0x2de92c6f592b0275; 0x4a7484aa6ea6e483; 0x5cb0a9dcbd41fbd4; 0x76f988da831153b5];
  [0x983e5152ee66dfab; 0xa831c66d2db43210; 0xb00327c898fb213f; 0xbf597fc7beef0ee4];
  [0xc6e00bf33da88fc2; 0xd5a79147930aa725; 0x06ca6351e003826f; 0x142929670a0e6e70];
  [0x27b70a8546d22ffc; 0x2e1b21385c26c926; 0x4d2c6dfc5ac42aed; 0x53380d139d95b3df];
  [0x650a73548baf63de; 0x766a0abb3c77b2a8; 0x81c2c92e47edaee6; 0x92722c851482353b];
  [0xa2bfe8a14cf10364; 0xa81a664bbc423001; 0xc24b8b70d0f89791; 0xc76c51a30654be30];
  [0xd192e819d6ef5218; 0xd69906245565a910; 0xf40e35855771202a; 0x106aa07032bbd1b8];
  [0x19a4c116b8d2d0c8; 0x1e376c085141ab53; 0x2748774cdf8eeb99; 0x34b0bcb5e19b48a8];
  [0x391c0cb3c5c95a63; 0x4ed8aa4ae3418acb; 0x5b9cca4f7763e373; 0x682e6ff3d6b2b8a3];
  [0x748f82ee5defb2fc; 0x78a5636f43172f60; 0x84c87814a1f0ab72; 0x8cc702081a6439ec];
  [0x90befffa23631e28; 0xa4506cebde82bde9; 0xbef9a3f7b2c67915; 0xc67178f2e372532b];
  [0xca273eceea26619c; 0xd186b8c721c0c207; 0xeada7dd6cde0eb1e; 0xf57d4f7fee6ed178];
  [0x06f067aa72176fba; 0x0a637dc5a2c898a6; 0x113f9804bef90dae; 0x1b710b35131c471b];
  [0x28db77f523047d84; 0x32caab7b40c72493; 0x3c9ebe0a15c9bebc; 0x431d67c49c100d4c];
  [0x4cc5d4becb3e42b6; 0x597f299cfc657e2a; 0x5fcb6fab3ad6faec; 0x6c44198c4a475817]].

Definition H512 : list Z := [
  0x6a09e667f3bcc908; 0xbb67ae8584caa73b; 0x3c6ef372fe94f82b; 0xa54ff53a5f1d36f1;
  0x510e527fade682d1; 0x9b05688c2b3e6c1f; 0x1f83d9abfb41bd6b; 0x5be0cd19137e2179].

Definition H384 : list Z := [
  0xcbbb9d5dc1059ed8; 0x629a292a367cd507; 0x9159015a3070dd17; 0x152fecd8f70e5939;
  0x67332667ffc00b31; 0x8eb44a8768581511; 0xdb0c2e0d64f98fa7; 0x47b5481dbefa4fa4].

(** ** Words of [n] bits *)
Section width.
Context (n : Z).
Definition wmax : Z := 2 ^ n - 1.
Definition wrapping_add (x y : Z) : Z := Z.land (x + y) wmax.
Definition rotate_right (x r : Z) : Z := Z.lor (Z.shiftr x r) (Z.land (Z.shiftl x (n - r)) wmax).
Definition bitnot (x : Z) : Z := Z.lxor x wmax.
End width.

(** The rotations and the shift of the two functions that mix a word. *)
Record Mix := mkMix { r1 : Z; r2 : Z; r3 : Z }.
Definition mix_shift (n : Z) (m : Mix) (x : Z) : Z := Z.lxor (Z.lxor (rotate_right n x (r1 m)) (rotate_right n x (r2 m))) (Z.shiftr x (r3 m)).
Definition mix_rotate (n : Z) (m : Mix) (x : Z) : Z := Z.lxor (Z.lxor (rotate_right n x (r1 m)) (rotate_right n x (r2 m))) (rotate_right n x (r3 m)).

(** What tells the two sizes apart. *)
Record Size := mkSize { bits : Z; ks : list Z; w_s0 : Mix; w_s1 : Mix; v_s0 : Mix; v_s1 : Mix }.
Definition size256 : Size := mkSize 32 K256 (mkMix 7 18 3) (mkMix 17 19 10) (mkMix 2 13 22) (mkMix 6 11 25).
Definition size512 : Size := mkSize 64 K512 (mkMix 1 8 7) (mkMix 19 61 6) (mkMix 28 34 39) (mkMix 14 18 41).

(** ** Compression *)
Section compress.
Context (z : Size).
Let plus := wrapping_add (bits z).

(** The next word of the schedule, from the window. *)
Definition next_word (t : nat) (w : list Z) : Z :=
  let at_ i := nth i w 0 in
  if (t <? 16)%nat then at_ 0%nat
  else
    let s0 := mix_shift (bits z) (w_s0 z) (at_ 1%nat) in
    let s1 := mix_shift (bits z) (w_s1 z) (at_ 14%nat) in
    plus (plus (plus (at_ 0%nat) s0) (at_ 9%nat)) s1.

(** [w.rotate_left(1)] and the new word in the last place. *)
Definition slide (w : list Z) (wt : Z) : list Z := drop 1 w ++ [wt].

Definition round (k wt : Z) (v : list Z) : list Z :=
  match v with
  | [a; b; c; d; e; f; g; h] =>
      let s1 := mix_rotate (bits z) (v_s1 z) e in
      let ch := Z.lxor (Z.land e f) (Z.land (bitnot (bits z) e) g) in
      let t1 := plus (plus (plus (plus h s1) ch) k) wt in
      let s0 := mix_rotate (bits z) (v_s0 z) a in
      let maj := Z.lxor (Z.lxor (Z.land a b) (Z.land a c)) (Z.land b c) in
      let t2 := plus s0 maj in
      [plus t1 t2; a; b; c; plus d t1; e; f; g]
  | _ => v
  end.

Fixpoint rounds (t : nat) (ks w v : list Z) : list Z :=
  match ks with
  | [] => v
  | k :: ks => let wt := next_word t w in rounds (S t) ks (slide w wt) (round k wt v)
  end.

Definition compress (state : list Z) (block : list byte) : list Z :=
  zip_with plus state (rounds 0 (ks z) (be_words (Z.to_nat (bits z / 8)) block) state).
End compress.

Definition compress256 : list Z -> list byte -> list Z := compress size256.
Definition compress512 : list Z -> list byte -> list Z := compress size512.

(** ** The tail of a message *)
(** Zeros up to the length field of the last block. *)
Fixpoint pad_zeros (fuel : nat) (v : list byte) (block len_bytes : Z) : list byte :=
  match fuel with
  | O => v
  | S fuel => if len v mod block =? sat_sub block len_bytes then v else pad_zeros fuel (v ++ [x00]) block len_bytes
  end.

Definition final_blocks (tail : list byte) (total_len block len_bytes : Z) : list byte :=
  let v := pad_zeros (Z.to_nat block) (tail ++ [x80]) block len_bytes in
  let bits := Z.land (total_len * 8) U128_MAX in
  let be := be_bytes 16 bits in
  v ++ drop (Z.to_nat (sat_sub 16 len_bytes)) be.

(** The whole blocks and what is left. *)
Definition tail_of (n : nat) (l : list byte) : list byte := drop (n * (length l / n)) l.

Definition hash_state (compress : list Z -> list byte -> list Z) (init : list Z) (block : nat) (len_bytes : Z) (data : list byte) : list Z :=
  let state := foldl compress init (as_chunks block data) in
  let fin := final_blocks (tail_of block data) (len data) (Z.of_nat block) len_bytes in
  foldl compress state (as_chunks block fin).

Definition sha256 (data : list byte) : list byte := flat_map (be_bytes 4) (hash_state compress256 H256 64 8 data).
Definition sha512_core (init : list Z) (data : list byte) : list Z := hash_state compress512 init 128 16 data.
Definition sha512 (data : list byte) : list byte := flat_map (be_bytes 8) (sha512_core H512 data).
Definition sha384 (data : list byte) : list byte := take 48 (flat_map (be_bytes 8) (sha512_core H384 data)).

(** ** The lengths of the digests *)
Lemma length_round z k wt v : length (round z k wt v) = length v.
Proof. unfold round. by destruct v as [|a [|b [|c [|d [|e [|f [|g [|h [|]]]]]]]]]. Qed.

Lemma length_rounds z t l w v : length (rounds z t l w v) = length v.
Proof. revert t w v. induction l as [|k l IH]; intros t w v; [done|]. cbn [rounds]. cbv zeta. by rewrite IH, length_round. Qed.

Lemma length_compress z s b : length (compress z s b) = length s.
Proof. unfold compress. rewrite length_zip_with, length_rounds. lia. Qed.

Lemma length_hash_state z init block len_bytes data : length (hash_state (compress z) init block len_bytes data) = length init.
Proof.
  unfold hash_state. cbv zeta. assert (forall bs s, length (foldl (compress z) s bs) = length s) as H; [|by rewrite !H].
  induction bs as [|b bs IH]; intros s; [done|]. cbn [foldl]. by rewrite IH, length_compress.
Qed.

Lemma length_be_words n w : length (flat_map (be_bytes n) w) = (n * length w)%nat.
Proof.
  induction w as [|x w IH]; [simpl; lia|]. cbn [flat_map length]. rewrite length_app, IH. unfold be_bytes. rewrite length_reverse, length_le_bytes. lia.
Qed.

Lemma length_sha256 data : length (sha256 data) = 32%nat.
Proof. unfold sha256. rewrite length_be_words. unfold compress256. by rewrite length_hash_state. Qed.
Lemma length_sha512 data : length (sha512 data) = 64%nat.
Proof. unfold sha512, sha512_core. rewrite length_be_words. unfold compress512. by rewrite length_hash_state. Qed.

(** * SHA-2 against FIPS 180-4

    The standard, written on its own: its constants from the roots of the primes that
    define them, its functions by their equations, the whole message padded first, the
    whole schedule of every block computed first, addition modulo the word size. *)
Module Fips.
(** The integer part of the [k]-th root of [n], bit by bit from the highest of [b]. *)
Fixpoint root (k n : Z) (b : nat) (r : Z) : Z :=
  match b with
  | O => r
  | S b => let r' := r + 2 ^ Z.of_nat b in root k n b (if r' ^ k <=? n then r' else r)
  end.
Definition is_prime (n : Z) : bool := forallb (fun d => negb (n mod d =? 0)) (seqZ 2 (n - 2)).
Definition primes : list Z := List.filter is_prime (seqZ 2 408).
(** The first [w] bits of the fractional part of the [k]-th root of [p]. *)
Definition root_bits (k w p : Z) : Z := root k (p * 2 ^ (k * w)) 72 0 mod 2 ^ w.

(** Section 3.2, and equations 4.2, 4.3, 4.8 and 4.9. *)
Definition ROTR (w n x : Z) : Z := Z.lor (Z.shiftr x n) (Z.shiftl x (w - n) mod 2 ^ w).
Definition SHR (n x : Z) : Z := Z.shiftr x n.
Definition NOT (w x : Z) : Z := Z.lxor x (Z.ones w).
Definition Ch (w x y z : Z) : Z := Z.lxor (Z.land x y) (Z.land (NOT w x) z).
Definition Maj (x y z : Z) : Z := Z.lxor (Z.lxor (Z.land x y) (Z.land x z)) (Z.land y z).

Record Variant := mkVariant { w : Z; K : list Z; Sigma0 : Z -> Z; Sigma1 : Z -> Z; sigma0 : Z -> Z; sigma1 : Z -> Z }.
(** Section 4.2.2 with equations 4.4 to 4.7, and section 4.2.3 with equations 4.10 to 4.13. *)
Definition v256 : Variant := mkVariant 32 (map (root_bits 3 32) (take 64 primes))
  (fun x => Z.lxor (Z.lxor (ROTR 32 2 x) (ROTR 32 13 x)) (ROTR 32 22 x)) (fun x => Z.lxor (Z.lxor (ROTR 32 6 x) (ROTR 32 11 x)) (ROTR 32 25 x))
  (fun x => Z.lxor (Z.lxor (ROTR 32 7 x) (ROTR 32 18 x)) (SHR 3 x)) (fun x => Z.lxor (Z.lxor (ROTR 32 17 x) (ROTR 32 19 x)) (SHR 10 x)).
Definition v512 : Variant := mkVariant 64 (map (root_bits 3 64) (take 80 primes))
  (fun x => Z.lxor (Z.lxor (ROTR 64 28 x) (ROTR 64 34 x)) (ROTR 64 39 x)) (fun x => Z.lxor (Z.lxor (ROTR 64 14 x) (ROTR 64 18 x)) (ROTR 64 41 x))
  (fun x => Z.lxor (Z.lxor (ROTR 64 1 x) (ROTR 64 8 x)) (SHR 7 x)) (fun x => Z.lxor (Z.lxor (ROTR 64 19 x) (ROTR 64 61 x)) (SHR 6 x)).
(** Section 5.3: square roots of the first eight primes, and for SHA-384 of the ninth to the
    sixteenth. *)
Definition init256 : list Z := map (root_bits 2 32) (take 8 primes).
Definition init384 : list Z := map (root_bits 2 64) (take 8 (drop 8 primes)).
Definition init512 : list Z := map (root_bits 2 64) (take 8 primes).

Section hash.
Context (v : Variant).
Let modulus : Z := 2 ^ w v.

Definition next (W : list Z) : Z :=
  let at_ i := nth (length W - i) W 0 in
  (sigma1 v (at_ 2%nat) + at_ 7%nat + sigma0 v (at_ 15%nat) + at_ 16%nat) mod modulus.

Fixpoint schedule (m : nat) (W : list Z) : list Z :=
  match m with O => W | S m => schedule m (W ++ [next W]) end.

Definition round (s : list Z) (kw : Z * Z) : list Z :=
  match s with
  | [a; b; c; d; e; f; g; h] =>
      let T1 := (h + Sigma1 v e + Ch (w v) e f g + kw.1 + kw.2) mod modulus in
      let T2 := (Sigma0 v a + Maj a b c) mod modulus in
      [(T1 + T2) mod modulus; a; b; c; (d + T1) mod modulus; e; f; g]
  | _ => s
  end.

Definition compress (state M : list Z) : list Z :=
  let W := schedule (length (K v) - 16) M in
  zip_with (fun x y => (x + y) mod modulus) state (foldl round state (zip (K v) W)).
End hash.

(** The message, a one bit, the fewest zeros that make whole blocks, and the
    number of its bits. *)
Definition pad (block len_bytes : Z) (data : list byte) : list byte :=
  data ++ [x80] ++ replicate (Z.to_nat ((block - len_bytes - 1 - len data) mod block)) x00 ++ be_bytes (Z.to_nat len_bytes) (8 * len data).

Definition hash (v : Variant) (init : list Z) (block : nat) (len_bytes : Z) (data : list byte) : list Z :=
  foldl (fun s b => compress v s (be_words (Z.to_nat (w v / 8)) b)) init (as_chunks block (pad (Z.of_nat block) len_bytes data)).

Definition SHA256 (data : list byte) : list byte := flat_map (be_bytes 4) (hash v256 init256 64 8 data).
Definition SHA384 (data : list byte) : list byte := take 48 (flat_map (be_bytes 8) (hash v512 init384 128 16 data)).
Definition SHA512 (data : list byte) : list byte := flat_map (be_bytes 8) (hash v512 init512 128 16 data).
End Fips.

(** The sizes of the code are the variants of the standard. *)
Definition agrees (z : Size) (v : Fips.Variant) : Prop :=
  bits z = Fips.w v /\ ks z = Fips.K v /\
  (forall x, mix_rotate (bits z) (v_s0 z) x = Fips.Sigma0 v x) /\ (forall x, mix_rotate (bits z) (v_s1 z) x = Fips.Sigma1 v x) /\
  (forall x, mix_shift (bits z) (w_s0 z) x = Fips.sigma0 v x) /\ (forall x, mix_shift (bits z) (w_s1 z) x = Fips.sigma1 v x).

Lemma rotate_right_ROTR n x r : 0 <= n -> rotate_right n x r = Fips.ROTR n r x.
Proof. intros Hn. unfold rotate_right, Fips.ROTR, wmax. rewrite <- Z.land_ones by done. by rewrite Z.ones_equiv, <- Z.sub_1_r. Qed.

Lemma size256_agrees : agrees size256 Fips.v256.
Proof. split_and!; [done|by vm_compute|..]; intros x; unfold mix_rotate, mix_shift; by rewrite !rotate_right_ROTR by done. Qed.
Lemma size512_agrees : agrees size512 Fips.v512.
Proof. split_and!; [done|by vm_compute|..]; intros x; unfold mix_rotate, mix_shift; by rewrite !rotate_right_ROTR by done. Qed.
Lemma initial_values : H256 = Fips.init256 /\ H384 = Fips.init384 /\ H512 = Fips.init512.
Proof. by vm_compute. Qed.

(** ** The schedule *)
Section schedule.
Context (z : Size) (v : Fips.Variant) (Hbits : 0 <= bits z) (Hv : agrees z v).

Lemma wrapping_add_mod x y : wrapping_add (bits z) x y = (x + y) mod 2 ^ bits z.
Proof. unfold wrapping_add, wmax. rewrite <- Z.land_ones by done. by rewrite Z.ones_equiv, <- Z.sub_1_r. Qed.

(** Remainders taken on the way do not change a sum's remainder. *)
Ltac flatten_mod := repeat (rewrite Zplus_mod_idemp_l; rewrite <- ?Z.add_assoc).

(** The words that the rounds consume. *)
Fixpoint words (t n : nat) (w : list Z) : list Z :=
  match n with O => [] | S n => let wt := next_word z t w in wt :: words (S t) n (slide w wt) end.

Lemma rounds_words t l w s : rounds z t l w s = foldl (fun s kw => round z kw.1 kw.2 s) s (zip l (words t (length l) w)).
Proof. revert t w s. induction l as [|k l IH]; intros t w s; [done|]. cbn [rounds length words zip zip_with foldl]. apply IH. Qed.

Lemma words_first n M : length M = 16%nat -> words 0 (16 + n) M = M ++ words 16 n M.
Proof. intros HM. do 16 (destruct M as [|? M]; [done|]). destruct M; [|done]. reflexivity. Qed.

Lemma slide_tail pre w wt : length w = 16%nat -> exists pre', pre ++ w ++ [wt] = pre' ++ slide w wt.
Proof. intros Hw. destruct w as [|a w]; [done|]. exists (pre ++ [a]). by rewrite <- app_assoc. Qed.

Lemma fips_next_window pre w t : (16 <= t)%nat -> length w = 16%nat -> Fips.next v (pre ++ w) = next_word z t w.
Proof.
  intros Ht Hw. destruct Hv as (Ew & _ & _ & _ & E0 & E1). unfold Fips.next, next_word. rewrite (proj2 (Nat.ltb_ge t 16) Ht). rewrite !wrapping_add_mod. flatten_mod. rewrite <- Ew.
  assert (forall i, (0 < i <= 16)%nat -> nth (length (pre ++ w) - i) (pre ++ w) 0 = nth (16 - i) w 0) as Hn.
  { intros i Hi. rewrite length_app, Hw, app_nth2 by lia. f_equal. lia. }
  rewrite !Hn, <- E0, <- E1 by lia. cbn [Nat.sub]. f_equal. lia.
Qed.

Lemma schedule_words n pre w t : (16 <= t)%nat -> length w = 16%nat -> Fips.schedule v n (pre ++ w) = pre ++ w ++ words t n w.
Proof.
  revert pre w t. induction n as [|n IH]; intros pre w t Ht Hw; cbn [Fips.schedule words]; [by rewrite app_nil_r|].
  rewrite (fips_next_window pre w t Ht Hw), <- app_assoc. set (wt := next_word z t w). destruct (slide_tail pre w wt Hw) as [pre' E]. rewrite E.
  rewrite (IH pre' (slide w wt) (S t)) by (unfold slide; rewrite ?length_app, ?length_drop, ?Hw; simpl; lia).
  rewrite app_assoc, <- E, <- !app_assoc. done.
Qed.

Lemma round_fips s kw : round z kw.1 kw.2 s = Fips.round v s kw.
Proof.
  destruct Hv as (Ew & _ & E0 & E1 & _ & _). unfold round, Fips.round. destruct s as [|a [|b [|c [|d [|e [|f [|g [|h [|]]]]]]]]]; try done. cbv zeta.
  rewrite <- E0, <- E1, <- Ew. unfold Fips.Ch, Fips.Maj, Fips.NOT. rewrite Z.ones_equiv, <- Z.sub_1_r. rewrite !wrapping_add_mod. flatten_mod. done.
Qed.

Lemma compress_fips state block : (16 <= length (ks z))%nat -> length (be_words (Z.to_nat (bits z / 8)) block) = 16%nat ->
  compress z state block = Fips.compress v state (be_words (Z.to_nat (bits z / 8)) block).
Proof.
  intros Hk HM. unfold compress, Fips.compress. pose proof Hv as (Ew & Ek & _). rewrite <- Ek, <- Ew. set (M := be_words _ block) in *. rewrite rounds_words.
  assert (words 0 (length (ks z)) M = Fips.schedule v (length (ks z) - 16) M) as ->.
  { replace (length (ks z)) with (16 + (length (ks z) - 16))%nat at 1 by lia. rewrite words_first by done. by rewrite (schedule_words _ [] M 16) by (done || lia). }
  assert (forall kws s, foldl (fun s kw => round z kw.1 kw.2 s) s kws = foldl (Fips.round v) s kws) as ->.
  { intros kws. induction kws as [|kw kws IH]; intros s; [done|]. cbn [foldl]. by rewrite round_fips. }
  generalize state at 1 3. intros s. generalize (foldl (Fips.round v) state (zip (ks z) (Fips.schedule v (length (ks z) - 16) M))). intros u.
  revert u. induction s as [|x s IH]; intros [|y u]; [done..|]. cbn [zip_with]. by rewrite wrapping_add_mod, IH.
Qed.
End schedule.

(** ** Padding *)
Lemma pad_zeros_spec fuel v block len_bytes : 0 < len_bytes <= block ->
  (block - len_bytes - len v) mod block < Z.of_nat fuel ->
  pad_zeros fuel v block len_bytes = v ++ replicate (Z.to_nat ((block - len_bytes - len v) mod block)) x00.
Proof.
  intros Hb. revert v. induction fuel as [|fuel IH]; intros v Hf.
  { pose proof (Z.mod_pos_bound (block - len_bytes - len v) block ltac:(lia)). lia. }
  cbn [pad_zeros]. unfold sat_sub. rewrite Z.max_r by lia.
  pose proof (Z.div_mod (len v) block ltac:(lia)) as Ev. pose proof (Z.mod_pos_bound (len v) block ltac:(lia)) as Rv.
  pose proof (Z.div_mod (block - len_bytes - len v) block ltac:(lia)) as Ek. pose proof (Z.mod_pos_bound (block - len_bytes - len v) block ltac:(lia)) as Rk.
  destruct (len v mod block =? block - len_bytes) eqn:E.
  - apply Z.eqb_eq in E. assert ((block - len_bytes - len v) mod block = 0) as ->; [|by rewrite app_nil_r].
    symmetry. apply (Z.mod_unique _ _ (- (len v / block))); lia.
  - apply Z.eqb_neq in E. assert (0 < (block - len_bytes - len v) mod block) as Hk.
    { destruct (Z.lt_ge_cases 0 ((block - len_bytes - len v) mod block)) as [?|Hk0]; [done|]. exfalso. apply E. symmetry.
      apply (Z.mod_unique _ _ (- ((block - len_bytes - len v) / block))); lia. }
    assert ((block - len_bytes - len (v ++ [x00])) mod block = (block - len_bytes - len v) mod block - 1) as Ek1.
    { symmetry. rewrite len_app. change (len [x00]) with 1. apply (Z.mod_unique _ _ ((block - len_bytes - len v) / block)); lia. }
    rewrite IH by lia. rewrite Ek1, <- app_assoc. f_equal. set (k := (block - len_bytes - len v) mod block) in *.
    replace (Z.to_nat k) with (S (Z.to_nat (k - 1))) by lia. done.
Qed.

Lemma be_bytes_low n m x : (m <= n)%nat -> drop (n - m) (be_bytes n x) = be_bytes m x.
Proof.
  intros Hm. unfold be_bytes. assert (forall m n x, (m <= n)%nat -> take m (le_bytes n x) = le_bytes m x) as Ht.
  { clear. intros m. induction m as [|m IH]; intros [|n] x H; [done..|lia|].
    change (z2b x :: take m (le_bytes n (x / 256)) = z2b x :: le_bytes m (x / 256)). by rewrite IH by lia. }
  rewrite <- (Ht m n x Hm). rewrite <- (take_drop m (le_bytes n x)) at 1. rewrite reverse_app.
  rewrite drop_app_length'; [done|]. rewrite length_reverse, length_drop, length_le_bytes. done.
Qed.

(** The blocks that the code hashes are those of the padded message. *)
Lemma padded_blocks data block len_bytes : slice_ok data -> (0 < block)%nat -> 0 < len_bytes <= 16 -> len_bytes < Z.of_nat block ->
  as_chunks block data ++ as_chunks block (final_blocks (tail_of block data) (len data) (Z.of_nat block) len_bytes) =
  as_chunks block (Fips.pad (Z.of_nat block) len_bytes data).
Proof.
  intros Hs Hb Hl Hlb. destruct (as_chunks_whole block Hb data) as [E1 E2]. rewrite E1. unfold tail_of.
  set (k := (length data / block)%nat) in *. rewrite <- (as_chunks_app block Hb k) by done. f_equal. unfold Fips.pad, final_blocks.
  assert (len data = Z.of_nat block * Z.of_nat k + len (drop (block * k) data)) as El.
  { rewrite <- (take_drop (block * k) data) at 1. rewrite len_app. unfold len at 1. rewrite E2. lia. }
  assert (forall l, data ++ l = take (block * k) data ++ drop (block * k) data ++ l) as Ed by (intros l; by rewrite app_assoc, take_drop).
  rewrite Ed. f_equal.
  set (tail := drop (block * k) data) in *. pose proof (Z.mod_pos_bound (Z.of_nat block - len_bytes - 1 - len data) (Z.of_nat block) ltac:(lia)) as Hm.
  assert ((Z.of_nat block - len_bytes - len (tail ++ [x80])) mod Z.of_nat block = (Z.of_nat block - len_bytes - 1 - len data) mod Z.of_nat block) as Ek.
  { rewrite len_app, El. change (len [x80]) with 1. rewrite <- (Z_mod_plus_full _ (- Z.of_nat k)). f_equal. lia. }
  rewrite pad_zeros_spec, Ek by (rewrite ?Ek, ?Nat2Z.id; lia). rewrite <- !app_assoc. do 3 f_equal.
  unfold sat_sub. rewrite Z.max_r by lia. replace (Z.to_nat (16 - len_bytes)) with (16 - Z.to_nat len_bytes)%nat by lia. rewrite be_bytes_low by lia.
  f_equal. unfold U128_MAX. change (2 ^ 128 - 1) with (Z.ones 128). rewrite Z.land_ones by done. unfold slice_ok, ISIZE_MAX in Hs. pose proof (len_nonneg data). rewrite Z.mod_small; lia.
Qed.

(** ** The digests *)
Lemma foldl_ext_Forall {A B} (f g : A -> B -> A) (Q : B -> Prop) l a :
  (forall a b, Q b -> f a b = g a b) -> Forall Q l -> foldl f a l = foldl g a l.
Proof. intros H Hl. revert a. induction Hl as [|b l Hb _ IH]; intros a; [done|]. cbn [foldl]. rewrite H by done. apply IH. Qed.

Lemma hash_fips z v init block len_bytes data : agrees z v ->
  0 <= bits z -> (16 <= length (ks z))%nat -> block = (Z.to_nat (bits z / 8) * 16)%nat -> (0 < Z.to_nat (bits z / 8))%nat ->
  0 < len_bytes <= 16 -> len_bytes < Z.of_nat block -> slice_ok data ->
  hash_state (compress z) init block len_bytes data = Fips.hash v init block len_bytes data.
Proof.
  intros Hv Hz Hk Hblock Hw Hl Hlb Hs. unfold hash_state, Fips.hash. cbv zeta. rewrite <- foldl_app, padded_blocks by (done || lia).
  rewrite <- (proj1 Hv). apply (foldl_ext_Forall _ _ (fun b => length b = block)); [|apply as_chunks_sizes; lia]. intros s b Hb. apply compress_fips; [done|done|done|].
  unfold be_words. rewrite length_map. apply as_chunks_spec; [done|]. by rewrite Hb.
Qed.

Lemma sha256_fips data : slice_ok data -> sha256 data = Fips.SHA256 data.
Proof. intros Hs. unfold sha256, Fips.SHA256. rewrite <- (proj1 initial_values). f_equal. apply (hash_fips size256); [apply size256_agrees|(done || (vm_compute; lia))..]. Qed.
Lemma sha512_fips data : slice_ok data -> sha512 data = Fips.SHA512 data.
Proof. intros Hs. unfold sha512, sha512_core, Fips.SHA512. rewrite <- (proj2 (proj2 initial_values)). f_equal. apply (hash_fips size512); [apply size512_agrees|(done || (vm_compute; lia))..]. Qed.
Lemma sha384_fips data : slice_ok data -> sha384 data = Fips.SHA384 data.
Proof. intros Hs. unfold sha384, sha512_core, Fips.SHA384. rewrite <- (proj1 (proj2 initial_values)). do 2 f_equal. apply (hash_fips size512); [apply size512_agrees|(done || (vm_compute; lia))..]. Qed.

(** C9: the three digests are those of FIPS 180-4, with the constants computed from the
    roots of primes that define them, the functions by the equations of the standard, the
    message padded as a whole, the whole schedule of every block, addition modulo the
    word size. *)
Theorem digests_are_fips data : slice_ok data -> sha256 data = Fips.SHA256 data /\ sha384 data = Fips.SHA384 data /\ sha512 data = Fips.SHA512 data.
Proof. intros Hs. split_and!; [by apply sha256_fips|by apply sha384_fips|by apply sha512_fips]. Qed.

Lemma digests_are_fips_witness : slice_ok (lit "abc") /\ sha256 (lit "abc") = Fips.SHA256 (lit "abc").
Proof.
  assert (slice_ok (lit "abc")) as H by (vm_compute; discriminate). split; [exact H|]. exact (proj1 (digests_are_fips (lit "abc") H)).
Defined.

(** The published examples. *)
Example sha256_abc : from_be (sha256 (lit "abc")) = 0xba7816bf8f01cfea414140de5dae2223b00361a396177a9cb410ff61f20015ad.
Proof. by vm_compute. Qed.
Example sha512_abc : from_be (sha512 (lit "abc")) =
  0xddaf35a193617abacc417349ae20413112e6fa4e89a97ea20a9eeee64b55d39a2192992a274fc1a836ba3c23a3feebbd454d4423643ce80e2a9ac94fa54ca49f.
Proof. by vm_compute. Qed.
