(* ===== verification/Field25519.v ===== *)
(** * Arithmetic in GF(2^255 - 19) (px-update/src/ed25519/field.rs)

    Field elements as five limbs of 51 bits, with every addition and product
    trapping where the code's would.  The proofs show that nothing traps on
    weakly reduced elements, that every operation keeps them weakly reduced, and
    that it computes modulo the prime. *)
From S2P Require Import Prelude Bytes Words.
Local Open Scope Z_scope.

Definition MASK : Z := 2 ^ 51 - 1.

Record Fe := mkFe { l0 : Z; l1 : Z; l2 : Z; l3 : Z; l4 : Z }.

(** [low], then 30 bytes of 0xff, then [high]. *)
Definition exp_bytes (low high : byte) : list byte := low :: replicate 30 xff ++ [high].
Definition P_MINUS_2 : list byte := exp_bytes xeb x7f.
Definition P_MINUS_5_OVER_8 : list byte := exp_bytes xfd x0f.
Definition P_MINUS_1_OVER_4 : list byte := exp_bytes xfb x1f.

Definition ZERO : Fe := mkFe 0 0 0 0 0.
Definition ONE : Fe := mkFe 1 0 0 0 0.
Definition small (v : Z) : Fe := mkFe v 0 0 0 0.

Definition from_bytes (b : list byte) : Fe :=
  match le_words b with
  | [w0; w1; w2; w3] =>
      mkFe (Z.land w0 MASK)
        (Z.land (Z.lor (Z.shiftr w0 51) (shl64 w1 13)) MASK)
        (Z.land (Z.lor (Z.shiftr w1 38) (shl64 w2 26)) MASK)
        (Z.land (Z.lor (Z.shiftr w2 25) (shl64 w3 39)) MASK)
        (Z.land (Z.shiftr w3 12) MASK)
  | _ => ZERO
  end.

(** The five limbs, or a trap. *)
Definition limbs5 (a b c d e : option Z) : option Fe := a ← a; b ← b; c ← c; d ← d; e ← e; Some (mkFe a b c d e).

Definition carry_limbs (h0 h1 h2 h3 h4 : option Z) : option Fe :=
  let h1 := (h1 + shr h0 51)%u64 in let h0 := land_o h0 MASK in
  let h2 := (h2 + shr h1 51)%u64 in let h1 := land_o h1 MASK in
  let h3 := (h3 + shr h2 51)%u64 in let h2 := land_o h2 MASK in
  let h4 := (h4 + shr h3 51)%u64 in let h3 := land_o h3 MASK in
  let h0 := (h0 + shr h4 51 * Some 19)%u64 in let h4 := land_o h4 MASK in
  let h1 := (h1 + shr h0 51)%u64 in let h0 := land_o h0 MASK in
  limbs5 h0 h1 h2 h3 h4.

Definition carry (f : Fe) : option Fe := carry_limbs (Some (l0 f)) (Some (l1 f)) (Some (l2 f)) (Some (l3 f)) (Some (l4 f)).

Definition add (a o : Fe) : option Fe :=
  carry_limbs (Some (l0 a) + Some (l0 o))%u64 (Some (l1 a) + Some (l1 o))%u64 (Some (l2 a) + Some (l2 o))%u64
    (Some (l3 a) + Some (l3 o))%u64 (Some (l4 a) + Some (l4 o))%u64.

Definition TWO_P_0 : Z := 0xfffffffffffda.
Definition TWO_P_i : Z := 0xffffffffffffe.

Definition sub (a o : Fe) : option Fe :=
  carry_limbs (Some (l0 a) + Some TWO_P_0 - Some (l0 o))%u64 (Some (l1 a) + Some TWO_P_i - Some (l1 o))%u64
    (Some (l2 a) + Some TWO_P_i - Some (l2 o))%u64 (Some (l3 a) + Some TWO_P_i - Some (l3 o))%u64
    (Some (l4 a) + Some TWO_P_i - Some (l4 o))%u64.

Definition neg (a : Fe) : option Fe := sub ZERO a.

(** [u64::try_from(v).unwrap_or(0)]. *)
Definition narrow (v : option Z) : option Z := (fun v => if v <=? U64_MAX then v else 0) <$> v.

(** The carries of a product, from its five columns. *)
Definition reduce_columns (c0 c1 c2 c3 c4 : option Z) : option Fe :=
  let c1 := (c1 + shr c0 51)%u128 in
  let c2 := (c2 + shr c1 51)%u128 in
  let c3 := (c3 + shr c2 51)%u128 in
  let c4 := (c4 + shr c3 51)%u128 in
  let top := shr c4 51 in
  f ← limbs5 (narrow (land_o c0 MASK + top * Some 19)%u128) (narrow (land_o c1 MASK)) (narrow (land_o c2 MASK))
        (narrow (land_o c3 MASK)) (narrow (land_o c4 MASK));
  carry f.

Definition mul (a o : Fe) : option Fe :=
  let a0 := Some (l0 a) in let a1 := Some (l1 a) in let a2 := Some (l2 a) in let a3 := Some (l3 a) in let a4 := Some (l4 a) in
  let b0 := Some (l0 o) in let b1 := Some (l1 o) in let b2 := Some (l2 o) in let b3 := Some (l3 o) in let b4 := Some (l4 o) in
  let b1_19 := (b1 * Some 19)%u128 in let b2_19 := (b2 * Some 19)%u128 in
  let b3_19 := (b3 * Some 19)%u128 in let b4_19 := (b4 * Some 19)%u128 in
  reduce_columns
    (a0 * b0 + a1 * b4_19 + a2 * b3_19 + a3 * b2_19 + a4 * b1_19)%u128
    (a0 * b1 + a1 * b0 + a2 * b4_19 + a3 * b3_19 + a4 * b2_19)%u128
    (a0 * b2 + a1 * b1 + a2 * b0 + a3 * b4_19 + a4 * b3_19)%u128
    (a0 * b3 + a1 * b2 + a2 * b1 + a3 * b0 + a4 * b4_19)%u128
    (a0 * b4 + a1 * b3 + a2 * b2 + a3 * b1 + a4 * b0)%u128.

Definition square (a : Fe) : option Fe := mul a a.

(** Square, and multiply by [a] where the bit is set. *)
Definition pow_step (a : Fe) (acc : option Fe) (bit : bool) : option Fe :=
  acc ← acc; acc ← square acc; if bit then mul acc a else Some acc.
Definition pow (a : Fe) (exp : list byte) : option Fe := foldl (pow_step a) (Some ONE) (bits_msb exp).

Definition invert (a : Fe) : option Fe := pow a P_MINUS_2.
Definition pow_p58 (a : Fe) : option Fe := pow a P_MINUS_5_OVER_8.
Definition sqrt_m1 : option Fe := pow (small 2) P_MINUS_1_OVER_4.

Definition to_bytes (f : Fe) : option (list byte) :=
  f ← carry f;
  let h0 := Some (l0 f) in let h1 := Some (l1 f) in let h2 := Some (l2 f) in let h3 := Some (l3 f) in let h4 := Some (l4 f) in
  let q := shr (h0 + Some 19)%u64 51 in
  let q := shr (h1 + q)%u64 51 in
  let q := shr (h2 + q)%u64 51 in
  let q := shr (h3 + q)%u64 51 in
  let q := shr (h4 + q)%u64 51 in
  let h0 := (h0 + Some 19 * q)%u64 in
  let h1 := (h1 + shr h0 51)%u64 in let h0 := land_o h0 MASK in
  let h2 := (h2 + shr h1 51)%u64 in let h1 := land_o h1 MASK in
  let h3 := (h3 + shr h2 51)%u64 in let h2 := land_o h2 MASK in
  let h4 := (h4 + shr h3 51)%u64 in let h3 := land_o h3 MASK in
  let h4 := land_o h4 MASK in
  f ← limbs5 h0 h1 h2 h3 h4;
  let words := [Z.lor (l0 f) (shl64 (l1 f) 51); Z.lor (Z.shiftr (l1 f) 13) (shl64 (l2 f) 38);
                Z.lor (Z.shiftr (l2 f) 26) (shl64 (l3 f) 25); Z.lor (Z.shiftr (l3 f) 39) (shl64 (l4 f) 12)] in
  Some (flat_map (le_bytes 8) words).

Definition fe_eq (a o : Fe) : option bool := x ← to_bytes a; y ← to_bytes o; Some (bool_decide (x = y)).
Definition is_zero (a : Fe) : option bool := x ← to_bytes a; Some (bool_decide (x = replicate 32 x00)).
(** The low bit of the canonical encoding. *)
Definition is_negative (a : Fe) : option bool := x ← to_bytes a; Some (match head x with Some b => Z.land (b2z b) 1 =? 1 | None => false end).

(** ** The prime, and congruence modulo it *)
Definition P : Z := 2 ^ 255 - 19.
Definition val (f : Fe) : Z := l0 f + 2 ^ 51 * l1 f + 2 ^ 102 * l2 f + 2 ^ 153 * l3 f + 2 ^ 204 * l4 f.

Inductive eqp (a b : Z) : Prop := eqp_mod : a mod P = b mod P -> eqp a b.
Infix "≅" := eqp (at level 70).

Lemma eqp_iff a b : a ≅ b <-> exists k, a = b + k * P.
Proof.
  split.
  - intros [E]. exists (a / P - b / P). pose proof (Z.div_mod a P ltac:(done)). pose proof (Z.div_mod b P ltac:(done)). rewrite Z.mul_sub_distr_r. lia.
  - intros [k ->]. constructor. by rewrite Z_mod_plus_full.
Qed.

#[export] Instance eqp_equiv : Equivalence eqp.
Proof. split; [done|by intros a b [E]; constructor|by intros a b c [E1] [E2]; constructor; etrans]. Qed.
#[export] Instance eqp_add : Proper (eqp ==> eqp ==> eqp) Z.add.
Proof. intros a b [k ->]%eqp_iff c d [j ->]%eqp_iff. apply eqp_iff. exists (k + j). ring. Qed.
#[export] Instance eqp_sub : Proper (eqp ==> eqp ==> eqp) Z.sub.
Proof. intros a b [k ->]%eqp_iff c d [j ->]%eqp_iff. apply eqp_iff. exists (k - j). ring. Qed.
#[export] Instance eqp_mul : Proper (eqp ==> eqp ==> eqp) Z.mul.
Proof. intros a b [k ->]%eqp_iff c d [j ->]%eqp_iff. apply eqp_iff. exists (b * j + k * d + k * j * P). ring. Qed.
#[export] Instance eqp_opp : Proper (eqp ==> eqp) Z.opp.
Proof. intros a b [k ->]%eqp_iff. apply eqp_iff. exists (- k). ring. Qed.

Lemma eqp_pow a b n : 0 <= n -> a ≅ b -> a ^ n ≅ b ^ n.
Proof.
  intros Hn E. revert n Hn. apply natlike_ind; [done|]. intros n Hn IH. rewrite !Z.pow_succ_r by done. by rewrite IH, E.
Qed.

Lemma mod_eqp a : a mod P ≅ a.
Proof. constructor. by rewrite Z.mod_mod by done. Qed.

(** 2^255 counts as 19. *)
Lemma fold_19 a b : a + 2 ^ 255 * b ≅ a + 19 * b.
Proof. apply eqp_iff. exists b. unfold P. lia. Qed.

(** ** Limbs *)
(** Weakly reduced: what every operation takes and gives back. *)
Definition weak (f : Fe) : Prop :=
  0 <= l0 f <= 2 ^ 51 /\ 0 <= l1 f <= 2 ^ 51 /\ 0 <= l2 f <= 2 ^ 51 /\ 0 <= l3 f <= 2 ^ 51 /\ 0 <= l4 f <= 2 ^ 51.

Lemma shr_51 x : shr (Some x) 51 = Some (x / 2 ^ 51).
Proof. unfold shr. simpl. by rewrite Z.shiftr_div_pow2. Qed.
Lemma mask_51 x : land_o (Some x) MASK = Some (x mod 2 ^ 51).
Proof. unfold land_o, MASK. simpl. f_equal. change (2 ^ 51 - 1) with (Z.ones 51). by rewrite Z.land_ones. Qed.

(** Name the two parts of a limb. *)
Ltac split_limb x q r :=
  let H := fresh in let H' := fresh in
  pose proof (Z.div_mod x (2 ^ 51) ltac:(done)) as H; pose proof (Z.mod_pos_bound x (2 ^ 51) ltac:(done)) as H';
  set (q := x / 2 ^ 51) in *; set (r := x mod 2 ^ 51) in *; clearbody q r.

Lemma carry_spec h0 h1 h2 h3 h4 :
  0 <= h0 <= 2 ^ 62 -> 0 <= h1 <= 2 ^ 62 -> 0 <= h2 <= 2 ^ 62 -> 0 <= h3 <= 2 ^ 62 -> 0 <= h4 <= 2 ^ 62 ->
  exists f, carry_limbs (Some h0) (Some h1) (Some h2) (Some h3) (Some h4) = Some f /\ weak f /\
    val f ≅ h0 + 2 ^ 51 * h1 + 2 ^ 102 * h2 + 2 ^ 153 * h3 + 2 ^ 204 * h4.
Proof.
  intros B0 B1 B2 B3 B4. unfold carry_limbs. cbv zeta. rewrite !shr_51, !mask_51. split_limb h0 q0 r0.
  rewrite add64_Some by (unfold U64_MAX; lia). rewrite !shr_51, !mask_51. split_limb (h1 + q0) q1 r1.
  rewrite add64_Some by (unfold U64_MAX; lia). rewrite !shr_51, !mask_51. split_limb (h2 + q1) q2 r2.
  rewrite add64_Some by (unfold U64_MAX; lia). rewrite !shr_51, !mask_51. split_limb (h3 + q2) q3 r3.
  rewrite add64_Some by (unfold U64_MAX; lia). rewrite !shr_51, !mask_51. split_limb (h4 + q3) q4 r4.
  rewrite mul64_Some by (unfold U64_MAX; lia). rewrite add64_Some by (unfold U64_MAX; lia). rewrite !shr_51, !mask_51. split_limb (r0 + q4 * 19) q5 r5.
  rewrite add64_Some by (unfold U64_MAX; lia). eexists. split; [done|]. split; [unfold weak; cbn [l0 l1 l2 l3 l4]; lia|].
  apply eqp_iff. exists (- q4). unfold val, P. cbn [l0 l1 l2 l3 l4]. lia.
Qed.

(** ** The operations compute modulo the prime, and never trap *)
(** The computation ends in a weakly reduced element of the value [x]. *)
Definition repr (o : option Fe) (x : Z) : Prop := exists f, o = Some f /\ weak f /\ val f ≅ x.

Lemma repr_eqp o x y : repr o x -> x ≅ y -> repr o y.
Proof. intros (f & E & Hw & Hv) Hxy. exists f. by rewrite Hv. Qed.

Lemma repr_val f : weak f -> repr (Some f) (val f).
Proof. by exists f. Qed.

Ltac open_limbs := unfold weak, val in *; cbn [l0 l1 l2 l3 l4] in *; unfold U64_MAX, U128_MAX, TWO_P_0, TWO_P_i in *.

Lemma repr_add a b : weak a -> weak b -> repr (add a b) (val a + val b).
Proof.
  destruct a as [a0 a1 a2 a3 a4], b as [b0 b1 b2 b3 b4]. intros Ha Hb. open_limbs. unfold add. cbn [l0 l1 l2 l3 l4].
  rewrite !add64_Some by (unfold U64_MAX; lia).
  destruct (carry_spec (a0 + b0) (a1 + b1) (a2 + b2) (a3 + b3) (a4 + b4)) as (f & E & Hw & Hv); [lia..|].
  exists f. split_and!; [done|done|]. rewrite Hv. apply eqp_iff. exists 0. lia.
Qed.

Lemma repr_sub a b : weak a -> weak b -> repr (sub a b) (val a - val b).
Proof.
  destruct a as [a0 a1 a2 a3 a4], b as [b0 b1 b2 b3 b4]. intros Ha Hb. open_limbs. unfold sub, TWO_P_0, TWO_P_i. cbn [l0 l1 l2 l3 l4].
  rewrite !add64_Some by (unfold U64_MAX; lia). rewrite !sub64_Some by (unfold U64_MAX; lia).
  match goal with |- repr (carry_limbs (Some ?h0) (Some ?h1) (Some ?h2) (Some ?h3) (Some ?h4)) _ =>
    destruct (carry_spec h0 h1 h2 h3 h4) as (f & E & Hw & Hv); [lia..|] end.
  exists f. split_and!; [done|done|]. rewrite Hv. apply eqp_iff. exists 2. unfold P. lia.
Qed.

Lemma repr_neg a : weak a -> repr (neg a) (- val a).
Proof. intros Ha. unfold neg. eapply repr_eqp; [by apply repr_sub|done]. Qed.

Lemma narrow_Some v : 0 <= v <= U64_MAX -> narrow (Some v) = Some v.
Proof. intros H. unfold narrow. simpl. destruct (v <=? U64_MAX) eqn:E; [done|]. apply Z.leb_gt in E. lia. Qed.

(** A column of the product of two weakly reduced elements. *)
Lemma column x1 y1 x2 y2 x3 y3 x4 y4 x5 y5 :
  let small_pair x y := 0 <= x <= 2 ^ 51 /\ 0 <= y <= 19 * 2 ^ 51 in
  small_pair x1 y1 -> small_pair x2 y2 -> small_pair x3 y3 -> small_pair x4 y4 -> small_pair x5 y5 ->
  (Some x1 * Some y1 + Some x2 * Some y2 + Some x3 * Some y3 + Some x4 * Some y4 + Some x5 * Some y5)%u128 =
    Some (x1 * y1 + x2 * y2 + x3 * y3 + x4 * y4 + x5 * y5) /\
  0 <= x1 * y1 + x2 * y2 + x3 * y3 + x4 * y4 + x5 * y5 <= 95 * 2 ^ 102.
Proof.
  intros sp H1 H2 H3 H4 H5. assert (forall x y, sp x y -> 0 <= x * y <= 19 * 2 ^ 102) as Hp.
  { unfold sp. intros x y [Hx Hy]. change (19 * 2 ^ 102) with (2 ^ 51 * (19 * 2 ^ 51)). nia. }
  apply Hp in H1, H2, H3, H4, H5. split; [|lia].
  rewrite (mul128_Some x1 y1), (mul128_Some x2 y2), (mul128_Some x3 y3), (mul128_Some x4 y4), (mul128_Some x5 y5) by (unfold U128_MAX; lia).
  rewrite (add128_Some (x1 * y1)), (add128_Some (x1 * y1 + x2 * y2)), (add128_Some (x1 * y1 + x2 * y2 + x3 * y3)), add128_Some by (unfold U128_MAX; lia).
  done.
Qed.

(** The schoolbook product, before its carries. *)
Lemma mul_columns a0 a1 a2 a3 a4 b0 b1 b2 b3 b4 c0 c1 c2 c3 c4 :
  c0 = a0 * b0 + a1 * (b4 * 19) + a2 * (b3 * 19) + a3 * (b2 * 19) + a4 * (b1 * 19) ->
  c1 = a0 * b1 + a1 * b0 + a2 * (b4 * 19) + a3 * (b3 * 19) + a4 * (b2 * 19) ->
  c2 = a0 * b2 + a1 * b1 + a2 * b0 + a3 * (b4 * 19) + a4 * (b3 * 19) ->
  c3 = a0 * b3 + a1 * b2 + a2 * b1 + a3 * b0 + a4 * (b4 * 19) ->
  c4 = a0 * b4 + a1 * b3 + a2 * b2 + a3 * b1 + a4 * b0 ->
  c0 + 2 ^ 51 * c1 + 2 ^ 102 * c2 + 2 ^ 153 * c3 + 2 ^ 204 * c4 ≅ val (mkFe a0 a1 a2 a3 a4) * val (mkFe b0 b1 b2 b3 b4).
Proof.
  intros -> -> -> -> ->. unfold val. cbn [l0 l1 l2 l3 l4]. apply eqp_iff.
  exists (- (a1 * b4 + a2 * b3 + a3 * b2 + a4 * b1 + 2 ^ 51 * (a2 * b4 + a3 * b3 + a4 * b2) + 2 ^ 102 * (a3 * b4 + a4 * b3) + 2 ^ 153 * (a4 * b4))).
  unfold P. ring.
Qed.

Lemma reduce_columns_spec c0 c1 c2 c3 c4 :
  0 <= c0 <= 95 * 2 ^ 102 -> 0 <= c1 <= 95 * 2 ^ 102 -> 0 <= c2 <= 95 * 2 ^ 102 -> 0 <= c3 <= 95 * 2 ^ 102 -> 0 <= c4 <= 95 * 2 ^ 102 ->
  repr (reduce_columns (Some c0) (Some c1) (Some c2) (Some c3) (Some c4)) (c0 + 2 ^ 51 * c1 + 2 ^ 102 * c2 + 2 ^ 153 * c3 + 2 ^ 204 * c4).
Proof.
  intros B0 B1 B2 B3 B4. unfold reduce_columns. cbv zeta. rewrite !shr_51, !mask_51. split_limb c0 q0 r0.
  rewrite add128_Some by (unfold U128_MAX; lia). rewrite !shr_51, !mask_51. split_limb (c1 + q0) q1 r1.
  rewrite add128_Some by (unfold U128_MAX; lia). rewrite !shr_51, !mask_51. split_limb (c2 + q1) q2 r2.
  rewrite add128_Some by (unfold U128_MAX; lia). rewrite !shr_51, !mask_51. split_limb (c3 + q2) q3 r3.
  rewrite add128_Some by (unfold U128_MAX; lia). rewrite !shr_51, !mask_51. split_limb (c4 + q3) q4 r4.
  rewrite mul128_Some by (unfold U128_MAX; lia). rewrite add128_Some by (unfold U128_MAX; lia).
  rewrite !narrow_Some by (unfold U64_MAX; lia). cbn [limbs5 mbind option_bind].
  destruct (carry_spec (r0 + q4 * 19) r1 r2 r3 r4) as (f & E & Hw & Hv); [lia..|].
  exists f. split_and!; [done|done|]. rewrite Hv. apply eqp_iff. exists (- q4). unfold P. lia.
Qed.

Lemma repr_mul a b : weak a -> weak b -> repr (mul a b) (val a * val b).
Proof.
  destruct a as [a0 a1 a2 a3 a4], b as [b0 b1 b2 b3 b4]. intros (A0 & A1 & A2 & A3 & A4) (B0 & B1 & B2 & B3 & B4). cbn [l0 l1 l2 l3 l4] in *.
  unfold mul. cbn [l0 l1 l2 l3 l4]. cbv zeta.
  rewrite (mul128_Some b1 19), (mul128_Some b2 19), (mul128_Some b3 19), (mul128_Some b4 19) by (unfold U128_MAX; lia).
  repeat match goal with |- context [add128 (add128 (add128 (add128 (mul128 (Some ?x1) (Some ?y1)) (mul128 (Some ?x2) (Some ?y2)))
    (mul128 (Some ?x3) (Some ?y3))) (mul128 (Some ?x4) (Some ?y4))) (mul128 (Some ?x5) (Some ?y5))] =>
      destruct (column x1 y1 x2 y2 x3 y3 x4 y4 x5 y5) as [-> ?]; [lia..|] end.
  match goal with |- repr (reduce_columns (Some ?c0) (Some ?c1) (Some ?c2) (Some ?c3) (Some ?c4)) _ =>
    eapply (repr_eqp _ (c0 + 2 ^ 51 * c1 + 2 ^ 102 * c2 + 2 ^ 153 * c3 + 2 ^ 204 * c4)); [by apply reduce_columns_spec|by apply mul_columns] end.
Qed.

(** ** Powers *)
Lemma repr_pow_from a o x n bs : weak a -> val a ≅ x -> 0 <= n -> repr o (x ^ n) ->
  repr (foldl (pow_step a) o bs) (x ^ foldl double_add n bs).
Proof.
  intros Ha Hx. revert o n. induction bs as [|b bs IH]; intros o n Hn Ho; [done|]. cbn [foldl].
  assert (0 <= double_add n b) as Hn' by (unfold double_add; destruct b; simpl; lia). apply IH; [done|].
  destruct Ho as (f & -> & Hf & Hv). unfold pow_step. cbn [mbind option_bind]. destruct (repr_mul f f Hf Hf) as (g & Eg & Hg & Hvg).
  unfold square. rewrite Eg. cbn [mbind option_bind]. destruct b; unfold double_add; cbn [Z.b2z].
  - eapply repr_eqp; [by apply repr_mul|]. rewrite Hvg, Hv, Hx. rewrite Z.pow_add_r, Z.pow_1_r by lia. by replace (2 * n) with (n + n) by lia; rewrite Z.pow_add_r.
  - exists g. split_and!; [done|done|]. rewrite Hvg, Hv, Z.add_0_r. replace (2 * n) with (n + n) by lia. by rewrite Z.pow_add_r.
Qed.

Lemma repr_pow a e : weak a -> repr (pow a e) (val a ^ from_le e).
Proof.
  intros Ha. unfold pow. rewrite <- bits_msb_value. apply repr_pow_from; [done|done|done|]. exists ONE. by split_and!.
Qed.

(** ** Bytes *)
Lemma repr_from_bytes b : length b = 32%nat -> weak (from_bytes b) /\ val (from_bytes b) = from_le b mod 2 ^ 255.
Proof.
  intros Hb. destruct (le_words_spec b 4 Hb) as (Hl & Hv & Hw). rewrite <- Hv. unfold from_bytes.
  destruct (le_words b) as [|w0 [|w1 [|w2 [|w3 [|]]]]]; try done. clear Hl Hv. rewrite !Forall_cons in Hw. destruct Hw as (H0 & H1 & H2 & H3 & _).
  change MASK with (Z.ones 51). rewrite !Z.shiftr_div_pow2 by done.
  rewrite (lor_shl64 (w0 / 2 ^ 51)), (lor_shl64 (w1 / 2 ^ 38)), (lor_shl64 (w2 / 2 ^ 25)) by (first [lia|split; [apply Z.div_pos|apply Z.div_lt_upper_bound]; lia]).
  rewrite !Z.land_ones by done.
  assert (forall x y m n, 0 < m -> 0 < n -> 0 <= x < 2 ^ n -> m + n = 51 -> (x + (y mod 2 ^ (64 - n)) * 2 ^ n) mod 2 ^ 51 = x + (y mod 2 ^ m) * 2 ^ n) as Hjoin.
  { intros x y m n Hm Hn Hx E. pose proof (Z.mod_pos_bound y (2 ^ m) ltac:(lia)) as Hr. assert (2 ^ 51 = 2 ^ m * 2 ^ n) as Em by (rewrite <- Z.pow_add_r by lia; f_equal; lia).
    assert ((y mod 2 ^ (64 - n)) mod 2 ^ m = y mod 2 ^ m) as <-.
    { replace (64 - n) with (m + 13) by lia. rewrite Z.pow_add_r, Z.rem_mul_r by lia. rewrite (Z.mul_comm (2 ^ m)), Z_mod_plus_full. by rewrite Z.mod_mod by lia. }
    set (z := y mod 2 ^ (64 - n)) in *. pose proof (Z.div_mod z (2 ^ m) ltac:(lia)) as Hz. pose proof (Z.mod_pos_bound z (2 ^ m) ltac:(lia)).
    symmetry. apply (Z.mod_unique _ _ (z / 2 ^ m)); [left; nia|]. rewrite Em. rewrite Hz at 1. ring. }
  rewrite (Hjoin (w0 / 2 ^ 51) w1 38 13), (Hjoin (w1 / 2 ^ 38) w2 25 26), (Hjoin (w2 / 2 ^ 25) w3 12 39) by (first [lia|split; [apply Z.div_pos|apply Z.div_lt_upper_bound]; lia]).
  assert (forall x n, 0 < n -> 0 <= x -> x = 2 ^ n * (x / 2 ^ n) + x mod 2 ^ n /\ 0 <= x mod 2 ^ n < 2 ^ n /\ 0 <= x / 2 ^ n) as Hcut.
  { intros x n Hn Hx. split; [by apply Z.div_mod; lia|]. split; [apply Z.mod_pos_bound; lia|apply Z.div_pos; lia]. }
  destruct (Hcut w0 51) as (E0 & R0 & Q0); [lia..|]. destruct (Hcut w1 38) as (E1 & R1 & Q1); [lia..|]. destruct (Hcut w2 25) as (E2 & R2 & Q2); [lia..|].
  destruct (Hcut w3 12) as (E3 & R3 & Q3); [lia..|]. destruct (Hcut (w3 / 2 ^ 12) 51) as (E4 & R4 & Q4); [lia..|]. clear Hcut Hjoin.
  set (q0 := w0 / 2 ^ 51) in *. set (q1 := w1 / 2 ^ 38) in *. set (q2 := w2 / 2 ^ 25) in *. set (q3 := w3 / 2 ^ 12) in *. set (q4 := q3 / 2 ^ 51) in *.
  set (r0 := w0 mod 2 ^ 51) in *. set (r1 := w1 mod 2 ^ 38) in *. set (r2 := w2 mod 2 ^ 25) in *. set (r3 := w3 mod 2 ^ 12) in *. set (r4 := q3 mod 2 ^ 51) in *.
  clearbody q0 q1 q2 q3 q4 r0 r1 r2 r3 r4. unfold weak, val. cbn [l0 l1 l2 l3 l4 limbs]. split; [lia|].
  apply (Z.mod_unique _ _ q4); lia.
Qed.

(** The carry of an element that is weakly reduced already leaves a value below
    twice the prime. *)
Lemma carry_tight f : weak f -> exists g, carry f = Some g /\ val g ≅ val f /\ 0 <= val g < 2 * P /\
  0 <= l0 g < 2 ^ 51 /\ 0 <= l1 g <= 2 ^ 51 /\ 0 <= l2 g < 2 ^ 51 /\ 0 <= l3 g < 2 ^ 51 /\ 0 <= l4 g < 2 ^ 51.
Proof.
  destruct f as [h0 h1 h2 h3 h4]. intros (B0 & B1 & B2 & B3 & B4). unfold carry. cbn [l0 l1 l2 l3 l4] in *.
  unfold carry_limbs. cbv zeta. rewrite !shr_51, !mask_51. split_limb h0 q0 r0.
  rewrite add64_Some by (unfold U64_MAX; lia). rewrite !shr_51, !mask_51. split_limb (h1 + q0) q1 r1.
  rewrite add64_Some by (unfold U64_MAX; lia). rewrite !shr_51, !mask_51. split_limb (h2 + q1) q2 r2.
  rewrite add64_Some by (unfold U64_MAX; lia). rewrite !shr_51, !mask_51. split_limb (h3 + q2) q3 r3.
  rewrite add64_Some by (unfold U64_MAX; lia). rewrite !shr_51, !mask_51. split_limb (h4 + q3) q4 r4.
  rewrite mul64_Some by (unfold U64_MAX; lia). rewrite add64_Some by (unfold U64_MAX; lia). rewrite !shr_51, !mask_51. split_limb (r0 + q4 * 19) q5 r5.
  rewrite add64_Some by (unfold U64_MAX; lia). eexists. split; [done|]. unfold val, P. cbn [l0 l1 l2 l3 l4]. split; [|lia].
  apply eqp_iff. exists (- q4). unfold P. lia.
Qed.

(** Dividing by one limb after the other. *)
Lemma quotient_chain h0 h1 h2 h3 h4 c :
  (h4 + (h3 + (h2 + (h1 + (h0 + c) / 2 ^ 51) / 2 ^ 51) / 2 ^ 51) / 2 ^ 51) / 2 ^ 51 = (h0 + 2 ^ 51 * h1 + 2 ^ 102 * h2 + 2 ^ 153 * h3 + 2 ^ 204 * h4 + c) / 2 ^ 255.
Proof.
  split_limb (h0 + c) q0 r0. split_limb (h1 + q0) q1 r1. split_limb (h2 + q1) q2 r2. split_limb (h3 + q2) q3 r3. split_limb (h4 + q3) q4 r4.
  apply (Z.div_unique _ _ _ (r0 + 2 ^ 51 * r1 + 2 ^ 102 * r2 + 2 ^ 153 * r3 + 2 ^ 204 * r4)); [left|]; lia.
Qed.

(** Four words from five limbs. *)
Lemma pack_words h0 h1 h2 h3 h4 :
  0 <= h0 < 2 ^ 51 -> 0 <= h1 < 2 ^ 51 -> 0 <= h2 < 2 ^ 51 -> 0 <= h3 < 2 ^ 51 -> 0 <= h4 < 2 ^ 51 ->
  let w := [Z.lor h0 (shl64 h1 51); Z.lor (Z.shiftr h1 13) (shl64 h2 38); Z.lor (Z.shiftr h2 26) (shl64 h3 25); Z.lor (Z.shiftr h3 39) (shl64 h4 12)] in
  Forall (fun x => 0 <= x < 2 ^ 64) w /\ limbs w = val (mkFe h0 h1 h2 h3 h4).
Proof.
  intros B0 B1 B2 B3 B4 w. unfold w. rewrite !Z.shiftr_div_pow2 by done.
  rewrite lor_shl64, (lor_shl64 (h1 / 2 ^ 13)), (lor_shl64 (h2 / 2 ^ 26)), (lor_shl64 (h3 / 2 ^ 39))
    by (first [lia|split; [apply Z.div_pos|apply Z.div_lt_upper_bound]; lia]).
  change (64 - 51) with 13. change (64 - 38) with 26. change (64 - 25) with 39. change (64 - 12) with 52. rewrite (Z.mod_small h4) by lia.
  assert (forall x n m, 0 < n -> 0 <= x < 2 ^ 51 -> m + n = 51 -> 0 <= m -> x = 2 ^ n * (x / 2 ^ n) + x mod 2 ^ n /\ 0 <= x mod 2 ^ n < 2 ^ n /\ 0 <= x / 2 ^ n < 2 ^ m) as Hcut.
  { intros x n m Hn Hx E Hm. split; [by apply Z.div_mod; lia|]. split; [apply Z.mod_pos_bound; lia|]. split; [apply Z.div_pos; lia|].
    apply Z.div_lt_upper_bound; [lia|]. rewrite <- Z.pow_add_r by lia. replace (n + m) with 51 by lia. lia. }
  destruct (Hcut h1 13 38) as (E1 & R1 & Q1); [lia..|]. destruct (Hcut h2 26 25) as (E2 & R2 & Q2); [lia..|]. destruct (Hcut h3 39 12) as (E3 & R3 & Q3); [lia..|]. clear Hcut.
  set (q1 := h1 / 2 ^ 13) in *. set (q2 := h2 / 2 ^ 26) in *. set (q3 := h3 / 2 ^ 39) in *.
  set (r1 := h1 mod 2 ^ 13) in *. set (r2 := h2 mod 2 ^ 26) in *. set (r3 := h3 mod 2 ^ 39) in *. clearbody q1 q2 q3 r1 r2 r3.
  split; [rewrite !Forall_cons; split_and!; [lia..|constructor]|]. unfold val. cbn [l0 l1 l2 l3 l4 limbs]. lia.
Qed.

(** The encoding is the little-endian form of the value's remainder. *)
Lemma to_bytes_spec f : weak f -> exists bs, to_bytes f = Some bs /\ length bs = 32%nat /\ from_le bs = val f mod P.
Proof.
  intros Hf. destruct (carry_tight f Hf) as (g & Eg & Hv & Hr & B0 & B1 & B2 & B3 & B4). unfold to_bytes. rewrite Eg. cbn [mbind option_bind]. clear Eg.
  destruct Hv as [<-]. destruct g as [h0 h1 h2 h3 h4]. cbn [l0 l1 l2 l3 l4] in *. unfold val in Hr. cbn [l0 l1 l2 l3 l4] in Hr. cbv zeta.
  assert (forall x, 0 <= x <= 2 ^ 52 -> 0 <= x / 2 ^ 51 <= 2) as Hq.
  { intros x Hx. pose proof (Z.div_mod x (2 ^ 51) ltac:(done)). pose proof (Z.mod_pos_bound x (2 ^ 51) ltac:(done)). lia. }
  rewrite (add64_Some h0 19) by (unfold U64_MAX; lia). rewrite !shr_51. pose proof (Hq (h0 + 19) ltac:(lia)).
  rewrite (add64_Some h1 ((h0 + 19) / 2 ^ 51)) by (unfold U64_MAX; lia). rewrite !shr_51. pose proof (Hq (h1 + (h0 + 19) / 2 ^ 51) ltac:(lia)).
  rewrite (add64_Some h2) by (unfold U64_MAX; lia). rewrite !shr_51. match goal with |- context [add64 (Some h3) (Some (?x / 2 ^ 51))] => pose proof (Hq x ltac:(lia)) end.
  rewrite (add64_Some h3) by (unfold U64_MAX; lia). rewrite !shr_51. match goal with |- context [add64 (Some h4) (Some (?x / 2 ^ 51))] => pose proof (Hq x ltac:(lia)) end.
  rewrite (add64_Some h4) by (unfold U64_MAX; lia). rewrite !shr_51.
  rewrite (quotient_chain h0 h1 h2 h3 h4 19). set (v := h0 + 2 ^ 51 * h1 + 2 ^ 102 * h2 + 2 ^ 153 * h3 + 2 ^ 204 * h4) in *.
  assert (exists q, (v + 19) / 2 ^ 255 = q /\ 0 <= q <= 1 /\ 0 <= v - q * P < P) as (q & -> & Hq01 & Hvq).
  { destruct (Z.lt_ge_cases v P) as [Hlt|Hge]; [exists 0|exists 1].
    - split; [apply Z.div_small; unfold P in *; lia|lia].
    - split; [|lia]. symmetry. apply (Z.div_unique _ _ _ (v - P)); [left|]; unfold P in *; lia. }
  rewrite mul64_Some by (unfold U64_MAX; lia). rewrite add64_Some by (unfold U64_MAX; lia). rewrite !shr_51, !mask_51. split_limb (h0 + 19 * q) q0 r0.
  rewrite add64_Some by (unfold U64_MAX; lia). rewrite !shr_51, !mask_51. split_limb (h1 + q0) q1 r1.
  rewrite add64_Some by (unfold U64_MAX; lia). rewrite !shr_51, !mask_51. split_limb (h2 + q1) q2 r2.
  rewrite add64_Some by (unfold U64_MAX; lia). rewrite !shr_51, !mask_51. split_limb (h3 + q2) q3 r3.
  rewrite add64_Some by (unfold U64_MAX; lia). rewrite !mask_51. split_limb (h4 + q3) q4 r4.
  cbn [limbs5 mbind option_bind l0 l1 l2 l3 l4].
  destruct (pack_words r0 r1 r2 r3 r4) as [Hw Hl]; [done..|]. destruct (from_le_words _ Hw) as [Hle Hlen]. eexists. split; [done|]. split; [by rewrite Hlen|].
  rewrite Hle, Hl. unfold val. cbn [l0 l1 l2 l3 l4]. apply (Z.mod_unique _ _ q); [left; unfold P, v in *; lia|unfold P, v in *; lia].
Qed.

Lemma from_le_inj a b : length a = length b -> from_le a = from_le b -> a = b.
Proof. intros Hl E. rewrite <- (le_bytes_from a), <- (le_bytes_from b). by rewrite Hl, E. Qed.

Lemma from_le_zeros n : from_le (replicate n x00) = 0.
Proof. induction n as [|n IH]; [done|]. change (b2z x00 + 256 * from_le (replicate n x00) = 0). by rewrite IH. Qed.

Lemma fe_eq_spec a b : weak a -> weak b -> fe_eq a b = Some (bool_decide (val a mod P = val b mod P)).
Proof.
  intros Ha Hb. destruct (to_bytes_spec a Ha) as (x & Ex & Lx & Vx), (to_bytes_spec b Hb) as (y & Ey & Ly & Vy).
  unfold fe_eq. rewrite Ex, Ey. cbn [mbind option_bind]. f_equal. apply bool_decide_ext. rewrite <- Vx, <- Vy. split; [by intros ->|].
  apply from_le_inj. congruence.
Qed.

Lemma is_zero_spec a : weak a -> is_zero a = Some (bool_decide (val a mod P = 0)).
Proof.
  intros Ha. destruct (to_bytes_spec a Ha) as (x & Ex & Lx & Vx). unfold is_zero. rewrite Ex. cbn [mbind option_bind]. f_equal. apply bool_decide_ext.
  rewrite <- Vx. split; [intros ->; apply from_le_zeros|]. intros E. apply from_le_inj; [by rewrite length_replicate|]. by rewrite from_le_zeros.
Qed.

Lemma is_negative_spec a : weak a -> is_negative a = Some (Z.odd (val a mod P)).
Proof.
  intros Ha. destruct (to_bytes_spec a Ha) as (x & Ex & Lx & Vx). unfold is_negative. rewrite Ex. cbn [mbind option_bind]. f_equal. rewrite <- Vx.
  destruct x as [|b x]; [done|]. change 1 with (Z.ones 1) at 1. cbn [head]. rewrite Z.land_ones, Z.pow_1_r by done.
  replace (from_le (b :: x)) with (b2z b + 2 * (128 * from_le x)) by (change (from_le (b :: x)) with (b2z b + 256 * from_le x); lia).
  rewrite Z.odd_add_mul_2. by rewrite Zodd_mod.
Qed.
