(* ===== verification/Scalar25519.v ===== *)
(** * Scalars modulo the group order (px-update/src/ed25519/scalar.rs)

    256-bit integers as four little-endian 64-bit limbs: comparison,
    subtraction with borrow, and reduction bit by bit. *)
From S2P Require Import Prelude Bytes Words.
Local Open Scope Z_scope.

Definition L : list Z := [0x5812631a5cf5d3ed; 0x14def9dea2f79cd6; 0; 0x1000000000000000].

Definition to_limbs (b : list byte) : list Z := le_words b.
Definition from_limbs (w : list Z) : list byte := flat_map (le_bytes 8) w.

(** From the most significant limb: the first that differs decides. *)
Fixpoint gte_loop (ps : list (Z * Z)) : bool :=
  match ps with
  | [] => true
  | (x, y) :: ps => if negb (x =? y) then y <? x else gte_loop ps
  end.
Definition gte (a b : list Z) : bool := gte_loop (zip (reverse a) (reverse b)).

(** [overflowing_sub] and [overflowing_add]. *)
Definition overflowing_sub (x y : Z) : Z * bool := ((x - y) mod 2 ^ 64, x <? y).

Fixpoint sub_loop (borrow : bool) (ps : list (Z * Z)) : list Z :=
  match ps with
  | [] => []
  | (x, y) :: ps =>
      let '(d1, b1) := overflowing_sub x y in
      let '(d2, b2) := overflowing_sub d1 (Z.b2z borrow) in
      d2 :: sub_loop (b1 || b2) ps
  end.
Definition sub (a b : list Z) : list Z := sub_loop false (zip a b).

Definition is_canonical (s : list byte) : bool := negb (gte (to_limbs s) L).

(** The limbs shifted left by one, the carry coming in at the bottom. *)
Fixpoint shift_in (carry : Z) (acc : list Z) : list Z :=
  match acc with
  | [] => []
  | limb :: acc => Z.lor (shl64 limb 1) carry :: shift_in (Z.shiftr limb 63) acc
  end.

Definition reduce_step (acc : list Z) (b : bool) : list Z :=
  let acc := shift_in (Z.b2z b) acc in if gte acc L then sub acc L else acc.

Definition reduce (bytes : list byte) : list byte :=
  if (64 <? length bytes)%nat then replicate 32 x00
  else from_limbs (foldl reduce_step [0; 0; 0; 0] (bits_msb bytes)).

(** ** Limbs as integers *)
Definition word (x : Z) : Prop := 0 <= x < 2 ^ 64.

Lemma limbs_range w : Forall word w -> 0 <= limbs w < 2 ^ (64 * len w).
Proof.
  induction 1 as [|x w Hx _ IH]; [done|]. cbn [limbs]. rewrite len_cons, Z.mul_add_distr_l, Z.pow_add_r by (pose proof (len_nonneg w); lia).
  unfold word in Hx. change (2 ^ (64 * 1)) with (2 ^ 64). nia.
Qed.

Lemma limbs_app a b : limbs (a ++ b) = limbs a + 2 ^ (64 * len a) * limbs b.
Proof.
  induction a as [|x a IH]; [change (limbs b = 0 + 2 ^ (64 * 0) * limbs b); lia|].
  change (limbs ((x :: a) ++ b)) with (x + 2 ^ 64 * limbs (a ++ b)). change (limbs (x :: a)) with (x + 2 ^ 64 * limbs a).
  rewrite IH, len_cons, (Z.mul_add_distr_l 64), Z.pow_add_r by (pose proof (len_nonneg a); lia). change (2 ^ (64 * 1)) with (2 ^ 64). ring.
Qed.

Lemma gte_spec a b : length a = length b -> Forall word a -> Forall word b -> gte a b = bool_decide (limbs b <= limbs a).
Proof.
  unfold gte. revert b. induction a as [|x a IH] using rev_ind; intros b Hl Ha Hb.
  - destruct b; [|done]. by rewrite bool_decide_eq_true_2.
  - destruct b as [|y b _] using rev_ind; [rewrite length_app in Hl; simpl in Hl; lia|]. rewrite !length_app in Hl. simpl in Hl.
    rewrite !reverse_snoc. cbn [zip zip_with gte_loop]. apply Forall_app in Ha as [Ha Hx], Hb as [Hb Hy]. rewrite Forall_singleton in Hx, Hy.
    rewrite !limbs_app. cbn [limbs]. assert (len b = len a) as El by (unfold len; lia). rewrite El.
    pose proof (limbs_range a Ha) as Ra. pose proof (limbs_range b Hb) as Rb. rewrite El in Rb. set (m := 2 ^ (64 * len a)) in *.
    destruct (x =? y) eqn:E; cbn [negb].
    + apply Z.eqb_eq in E as ->. fold (zip (reverse a) (reverse b)). rewrite IH by (done || lia). apply bool_decide_ext. lia.
    + apply Z.eqb_neq in E. destruct (y <? x) eqn:E2; [apply Z.ltb_lt in E2; rewrite bool_decide_eq_true_2; [done|nia]|].
      apply Z.ltb_ge in E2. rewrite bool_decide_eq_false_2; [done|]. nia.
Qed.

Lemma sub_word x y bw : word x -> word y ->
  let '(d1, b1) := overflowing_sub x y in let '(d2, b2) := overflowing_sub d1 (Z.b2z bw) in
  word d2 /\ x - y - Z.b2z bw = d2 - 2 ^ 64 * Z.b2z (b1 || b2).
Proof.
  unfold word, overflowing_sub. intros Hx Hy. pose proof (Z.mod_pos_bound (x - y) (2 ^ 64) ltac:(done)) as Hd. set (d1 := (x - y) mod 2 ^ 64) in *.
  assert (x - y = d1 - 2 ^ 64 * Z.b2z (x <? y)) as Ed.
  { unfold d1. destruct (x <? y) eqn:E; [apply Z.ltb_lt in E|apply Z.ltb_ge in E]; cbn [Z.b2z].
    - pose proof (Z.mod_unique (x - y) (2 ^ 64) (-1) (x - y + 2 ^ 64) ltac:(left; lia) ltac:(lia)) as H. lia.
    - rewrite Z.mod_small; lia. }
  clearbody d1. split; [by apply Z.mod_pos_bound|].
  assert (d1 - Z.b2z bw = (d1 - Z.b2z bw) mod 2 ^ 64 - 2 ^ 64 * Z.b2z (d1 <? Z.b2z bw)) as Ed2.
  { destruct (d1 <? Z.b2z bw) eqn:E; [apply Z.ltb_lt in E|apply Z.ltb_ge in E]; destruct bw; cbn [Z.b2z] in *; try lia.
    - assert (d1 = 0) as -> by lia. done.
    - rewrite Z.mod_small; lia.
    - rewrite Z.mod_small; lia. }
  set (d2 := (d1 - Z.b2z bw) mod 2 ^ 64) in *. clearbody d2.
  destruct (x <? y) eqn:E1; destruct (d1 <? Z.b2z bw) eqn:E2; cbn [orb Z.b2z] in *; try lia.
  apply Z.ltb_lt in E1, E2. destruct bw; cbn [Z.b2z] in *; lia.
Qed.

Lemma sub_loop_spec borrow a b : length a = length b -> Forall word a -> Forall word b ->
  length (sub_loop borrow (zip a b)) = length a /\ Forall word (sub_loop borrow (zip a b)) /\
  limbs (sub_loop borrow (zip a b)) = (limbs a - limbs b - Z.b2z borrow) mod 2 ^ (64 * len a).
Proof.
  revert borrow b. induction a as [|x a IH]; intros borrow [|y b] Hl Ha Hb; try done.
  { change (64 * len []) with 0. by rewrite Z.pow_0_r, Z.mod_1_r. }
  apply Forall_cons in Ha as [Hx Ha], Hb as [Hy Hb]. simpl in Hl. cbn [zip zip_with sub_loop]. fold (zip a b).
  pose proof (sub_word x y borrow Hx Hy) as Hw. destruct (overflowing_sub x y) as [d1 b1]. destruct (overflowing_sub d1 (Z.b2z borrow)) as [d2 b2].
  destruct Hw as [Hd2 E]. destruct (IH (b1 || b2) b ltac:(lia) Ha Hb) as (H1 & H2 & H3). split_and!.
  - cbn [length]. by rewrite H1.
  - by constructor.
  - cbn [limbs]. rewrite H3, len_cons, (Z.mul_add_distr_l 64), Z.pow_add_r by (pose proof (len_nonneg a); lia). change (2 ^ (64 * 1)) with (2 ^ 64).
    assert (0 < 2 ^ (64 * len a)) as Hm by (apply Z.pow_pos_nonneg; [done|pose proof (len_nonneg a); lia]).
    rewrite Z.rem_mul_r by lia. replace (x + 2 ^ 64 * limbs a - (y + 2 ^ 64 * limbs b) - Z.b2z borrow) with (d2 + (limbs a - limbs b - Z.b2z (b1 || b2)) * 2 ^ 64) by lia.
    rewrite Z_mod_plus_full, Z.div_add by done. unfold word in Hd2. by rewrite (Z.mod_small d2), (Z.div_small d2).
Qed.

Lemma sub_spec a b : length a = length b -> Forall word a -> Forall word b -> limbs b <= limbs a ->
  length (sub a b) = length a /\ Forall word (sub a b) /\ limbs (sub a b) = limbs a - limbs b.
Proof.
  intros Hl Ha Hb Hge. destruct (sub_loop_spec false a b Hl Ha Hb) as (H1 & H2 & H3). split_and!; [done|done|]. unfold sub. rewrite H3, Z.sub_0_r.
  apply Z.mod_small. pose proof (limbs_range a Ha). pose proof (limbs_range b Hb). lia.
Qed.

Lemma shift_in_spec c a : 0 <= c <= 1 -> Forall word a ->
  length (shift_in c a) = length a /\ Forall word (shift_in c a) /\ limbs (shift_in c a) = (2 * limbs a + c) mod 2 ^ (64 * len a).
Proof.
  intros Hc Ha. revert c Hc. induction Ha as [|x a Hx Ha IH]; intros c Hc.
  { change (64 * len []) with 0. rewrite Z.pow_0_r, Z.mod_1_r. split_and!; [done|constructor|done]. }
  cbn [shift_in]. unfold word in Hx. rewrite Z.shiftr_div_pow2 by done. rewrite Z.lor_comm, lor_shl64 by lia. change (64 - 1) with 63.
  pose proof (Z.div_mod x (2 ^ 63) ltac:(done)) as Ex. pose proof (Z.mod_pos_bound x (2 ^ 63) ltac:(done)) as Rx.
  assert (0 <= x / 2 ^ 63 <= 1) as Hq by lia. destruct (IH _ Hq) as (H1 & H2 & H3). set (q := x / 2 ^ 63) in *. set (r := x mod 2 ^ 63) in *. clearbody q r. split_and!.
  - cbn [length]. by rewrite H1.
  - constructor; [unfold word; lia|done].
  - cbn [limbs]. rewrite H3, len_cons, (Z.mul_add_distr_l 64), Z.pow_add_r by (pose proof (len_nonneg a); lia). change (2 ^ (64 * 1)) with (2 ^ 64).
    assert (0 < 2 ^ (64 * len a)) as Hm by (apply Z.pow_pos_nonneg; [done|pose proof (len_nonneg a); lia]).
    rewrite Z.rem_mul_r by lia. replace (2 * (x + 2 ^ 64 * limbs a) + c) with (c + r * 2 ^ 1 + (2 * limbs a + q) * 2 ^ 64) by lia.
    rewrite Z_mod_plus_full, Z.div_add by done. rewrite (Z.mod_small (c + _)), (Z.div_small (c + _)) by lia. done.
Qed.

(** ** The group order *)
Definition ORDER : Z := 2 ^ 252 + 27742317777372353535851937790883648493.

Lemma L_value : limbs L = ORDER /\ Forall word L.
Proof. split; [by vm_compute|]. repeat (constructor; [unfold word; lia|]). constructor. Qed.

Lemma is_canonical_spec s : length s = 32%nat -> is_canonical s = bool_decide (from_le s < ORDER).
Proof.
  intros Hs. unfold is_canonical, to_limbs. destruct (le_words_spec s 4 Hs) as (H1 & H2 & H3). destruct L_value as [HL HW].
  rewrite gte_spec by done. rewrite H2, HL, <- bool_decide_not. apply bool_decide_ext. lia.
Qed.

Lemma reduce_step_spec a b : length a = 4%nat -> Forall word a -> limbs a < ORDER ->
  length (reduce_step a b) = 4%nat /\ Forall word (reduce_step a b) /\ limbs (reduce_step a b) = double_add (limbs a) b mod ORDER.
Proof.
  intros Hl Ha Hlt. pose proof (limbs_range a Ha) as Hr. unfold reduce_step. destruct (shift_in_spec (Z.b2z b) a) as (H1 & H2 & H3); [destruct b; simpl; lia|done|].
  destruct L_value as [HL HW]. unfold len in H3. rewrite Hl in H3. change (64 * Z.of_nat 4) with 256 in H3.
  assert (limbs (shift_in (Z.b2z b) a) = double_add (limbs a) b) as E.
  { rewrite H3. apply Z.mod_small. unfold ORDER, double_add in *. destruct b; cbn [Z.b2z]; lia. } clear H3.
  assert (0 <= double_add (limbs a) b < 2 * ORDER) as Hd by (unfold double_add; destruct b; cbn [Z.b2z]; lia).
  rewrite gte_spec, HL, E by (rewrite ?H1; done). case_bool_decide as Hge.
  - destruct (sub_spec (shift_in (Z.b2z b) a) L) as (G1 & G2 & G3); [by rewrite H1|done|done|by rewrite HL, E|]. split_and!; [by rewrite G1, H1|done|].
    rewrite G3, E, HL. apply (Z.mod_unique _ _ 1); lia.
  - split_and!; [by rewrite H1|done|]. rewrite E. symmetry. apply Z.mod_small. lia.
Qed.

(** Reduction is the remainder. *)
Lemma reduce_spec bytes : (length bytes <= 64)%nat -> length (reduce bytes) = 32%nat /\ from_le (reduce bytes) = from_le bytes mod ORDER.
Proof.
  intros Hl. unfold reduce. destruct (64 <? length bytes)%nat eqn:E; [apply Nat.ltb_lt in E; lia|]. clear E.
  assert (forall bs a n, length a = 4%nat -> Forall word a -> limbs a = n mod ORDER -> let d := foldl reduce_step a bs in
    length d = 4%nat /\ Forall word d /\ limbs d = foldl double_add n bs mod ORDER) as Hfold.
  { induction bs as [|b bs IH]; intros a n H1 H2 H3; [done|]. cbn [foldl]. pose proof (Z.mod_pos_bound n ORDER ltac:(done)).
    destruct (reduce_step_spec a b H1 H2) as (G1 & G2 & G3); [lia|]. apply IH; [done|done|]. rewrite G3, H3. unfold double_add.
    by rewrite Z.add_mod, Z.mul_mod_idemp_r, <- Z.add_mod by done. }
  destruct (Hfold (bits_msb bytes) [0; 0; 0; 0] 0) as (H1 & H2 & H3); [done|repeat (constructor; [unfold word; lia|]); constructor|done|].
  destruct (from_le_words _ H2) as [G1 G2]. unfold from_limbs. rewrite G1, G2, H1, H3, bits_msb_value. done.
Qed.
