(* ===== verification/Edwards.v ===== *)
(** * The curve of Ed25519 (px-update/src/ed25519/edwards.rs)

    The twisted Edwards curve -x^2 + y^2 = 1 + d x^2 y^2 in extended
    coordinates, on the five-limb field elements of the code; next to it the
    same formulas on plain integers modulo the prime.  The limbs compute exactly
    what the integers do and never trap, and no operation leaves the curve. *)
From S2P Require Import Prelude Bytes Words Field25519 Scalar25519.
From Stdlib Require Import Zpow_facts.
Local Open Scope Z_scope.

Record Consts := mkConsts { c_d : Fe; c_d2 : Fe; c_sqrt_m1 : Fe }.

Definition consts : option Consts :=
  n ← Field25519.neg (small 121665); i ← invert (small 121666);
  d ← Field25519.mul n i;
  d2 ← Field25519.add d d;
  s ← sqrt_m1;
  Some (mkConsts d d2 s).

Record Point := mkPoint { x : Fe; y : Fe; z : Fe; t : Fe }.

(** RFC 8032 encoding of the base point: y = 4/5, x even. *)
Definition BASEPOINT : list byte := x58 :: replicate 31 x66.

Definition IDENTITY : Point := mkPoint ZERO ONE ONE ZERO.

(** [last_mut]. *)
Definition alter_last {A} (f : A -> A) (l : list A) : list A :=
  match reverse l with b :: r => reverse (f b :: r) | [] => [] end.

(** A branch on a computed test. *)
Definition branch {A} (c : option bool) (a b : option A) : option A :=
  match c with Some c => if c then a else b | None => None end.
(** [&&], which asks the second test only after the first. *)
Definition and_then (a b : option bool) : option bool := branch a b (Some false).

(** The candidate for x from u and v: u v^3 (u v^7)^((p-5)/8). *)
Definition candidate (u v : Fe) : option Fe :=
  v2 ← square v; v3 ← Field25519.mul v2 v;
  v6 ← square v3; v7 ← Field25519.mul v6 v;
  a ← Field25519.mul u v3; b ← Field25519.mul u v7; b ← pow_p58 b;
  Field25519.mul a b.

(** The square root of u/v, if there is one. *)
Definition root (c : Consts) (u v : Fe) : option (option Fe) :=
  x ← candidate u v;
  x2 ← square x; vxx ← Field25519.mul v x2;
  branch (fe_eq vxx u) (Some (Some x))
    (nu ← Field25519.neg u;
     branch (fe_eq vxx nu) (x ← Field25519.mul x (c_sqrt_m1 c); Some (Some x)) (Some None)).

Definition decompress (enc : list byte) : option (option Point) :=
  c ← consts;
  let sign := match last enc with Some b => Z.shiftr (b2z b) 7 =? 1 | None => false end in
  let yb := alter_last (fun last => z2b (Z.land (b2z last) 0x7f)) enc in
  let y := from_bytes yb in
  yc ← to_bytes y;
  if bool_decide (yc <> yb) then Some None
  else
    y2 ← square y;
    u ← Field25519.sub y2 ONE;
    v ← Field25519.mul (c_d c) y2; v ← Field25519.add v ONE;
    r ← root c u v;
    match r with
    | None => Some None
    | Some x =>
        branch (zero ← is_zero x; Some (zero && sign)) (Some None)
          (x ← branch (negative ← is_negative x; Some (xorb negative sign)) (Field25519.neg x) (Some x);
           t ← Field25519.mul x y;
           Some (Some (mkPoint x y ONE t)))
    end.

Definition basepoint : option (option Point) := decompress BASEPOINT.

(** add-2008-hwcd-3. *)
Definition add (self o : Point) : option Point :=
  c ← consts;
  l ← Field25519.sub (y self) (x self); r ← Field25519.sub (y o) (x o); a ← Field25519.mul l r;
  l ← Field25519.add (y self) (x self); r ← Field25519.add (y o) (x o); b ← Field25519.mul l r;
  l ← Field25519.mul (t self) (c_d2 c); cc ← Field25519.mul l (t o);
  zz ← Field25519.mul (z self) (z o);
  dd ← Field25519.add zz zz;
  e ← Field25519.sub b a;
  f ← Field25519.sub dd cc;
  g ← Field25519.add dd cc;
  h ← Field25519.add b a;
  x ← Field25519.mul e f; y ← Field25519.mul g h; z ← Field25519.mul f g; t ← Field25519.mul e h;
  Some (mkPoint x y z t).

Definition double (self : Point) : option Point := add self self.

Definition mul_step (self : Point) (acc : option Point) (bit : bool) : option Point :=
  acc ← acc; acc ← double acc; if bit then add acc self else Some acc.
Definition mul_scalar (self : Point) (k : list byte) : option Point := foldl (mul_step self) (Some IDENTITY) (bits_msb k).

Definition is_identity (self : Point) : option bool := and_then (is_zero (x self)) (fe_eq (y self) (z self)).

Definition cross_eq (a b c d : Fe) : option bool := l ← Field25519.mul a b; r ← Field25519.mul c d; fe_eq l r.
Definition equals (self o : Point) : option bool :=
  and_then (cross_eq (x self) (z o) (x o) (z self)) (cross_eq (y self) (z o) (y o) (z self)).

Definition is_small_order (self : Point) : option bool := p ← double self; p ← double p; p ← double p; is_identity p.
Definition is_torsion_free (self : Point) : option bool := p ← mul_scalar self (from_limbs L); is_identity p.

(** ** The same on integers modulo the prime *)
Module Ref.
(** -121665/121666 and a square root of -1, as RFC 8032 gives them. *)
Definition D : Z := 37095705934669439343138083508754565189542113879843219016388785533085940283555.
Definition SQRT_M1 : Z := 19681161376707505956807079304988542015446066515923890162744021073123829784752.

Record point := mk { X : Z; Y : Z; ZZ : Z; T : Z }.
Definition identity : point := mk 0 1 1 0.

Definition add (p q : point) : point :=
  let A := ((Y p - X p) * (Y q - X q)) mod P in
  let B := ((Y p + X p) * (Y q + X q)) mod P in
  let C := (T p * (2 * D) * T q) mod P in
  let E := B - A in let F := 2 * (ZZ p * ZZ q) - C in let G := 2 * (ZZ p * ZZ q) + C in let H := B + A in
  mk ((E * F) mod P) ((G * H) mod P) ((F * G) mod P) ((E * H) mod P).
Definition double (p : point) : point := add p p.

Definition mul_step (p acc : point) (bit : bool) : point := let acc := double acc in if bit then add acc p else acc.
Definition mul_scalar (p : point) (k : list byte) : point := foldl (mul_step p) identity (bits_msb k).

Definition is_identity (p : point) : bool := (X p =? 0) && (Y p =? ZZ p).
Definition equals (p q : point) : bool :=
  ((X p * ZZ q) mod P =? (X q * ZZ p) mod P) && ((Y p * ZZ q) mod P =? (Y q * ZZ p) mod P).
Definition is_small_order (p : point) : bool := is_identity (double (double (double p))).
Definition is_torsion_free (p : point) : bool := is_identity (mul_scalar p (le_bytes 32 ORDER)).

Definition candidate (u v : Z) : Z := (u * v ^ 3 * Zpow_mod (u * v ^ 7) ((P - 5) / 8) P) mod P.
Definition root (u v : Z) : option Z :=
  let x := candidate u v in
  if (v * x ^ 2) mod P =? u mod P then Some x
  else if (v * x ^ 2) mod P =? (- u) mod P then Some ((x * SQRT_M1) mod P) else None.

(** RFC 8032, 5.1.3. *)
Definition decompress (enc : list byte) : option point :=
  let n := from_le enc in
  let sign := 2 ^ 255 <=? n in
  let y := n mod 2 ^ 255 in
  if P <=? y then None
  else
    x ← root (y ^ 2 - 1) (D * y ^ 2 + 1);
    if (x =? 0) && sign then None
    else let x := if xorb (Z.odd x) sign then (- x) mod P else x in
         Some (mk x y 1 ((x * y) mod P)).

(** Points of the curve, in extended coordinates. *)
Definition on_curve (p : point) : Prop :=
  Y p * Y p - X p * X p ≅ ZZ p * ZZ p + D * (T p * T p) /\ X p * Y p ≅ ZZ p * T p.
End Ref.

(** ** Powers, computed *)
(** One folding of the bits from 2^255 up. *)
Definition fold_high (n : Z) : Z := let h := Z.shiftr n 255 in (n - Z.shiftl h 255) + 19 * h.
Definition chain_step (a acc : Z) (b : bool) : Z := let s := fold_high (acc * acc) in if b then fold_high (s * a) else s.
Definition chain (a : Z) (e : list byte) : Z := foldl (chain_step a) 1 (bits_msb e).

Lemma fold_high_eqp n : fold_high n ≅ n.
Proof.
  unfold fold_high. rewrite Z.shiftl_mul_pow2 by done. apply eqp_iff. exists (- Z.shiftr n 255). unfold P. lia.
Qed.

Lemma chain_from a bs acc n : 0 <= n -> acc ≅ a ^ n -> foldl (chain_step a) acc bs ≅ a ^ foldl double_add n bs.
Proof.
  revert acc n. induction bs as [|b bs IH]; intros acc n Hn Ha; [done|]. cbn [foldl]. apply IH; [unfold double_add; destruct b; simpl; lia|].
  assert (a ^ double_add n b = a ^ n * a ^ n * (if b then a else 1)) as ->.
  { unfold double_add. destruct b; cbn [Z.b2z]; rewrite ?Z.pow_add_r, ?Z.add_0_r by lia; replace (2 * n) with (n + n) by lia; rewrite ?Z.pow_add_r by lia; lia. }
  unfold chain_step. cbv zeta. destruct b; rewrite ?fold_high_eqp, Ha, ?Z.mul_1_r; done.
Qed.

Lemma chain_eqp a e : chain a e ≅ a ^ from_le e.
Proof. unfold chain. rewrite <- bits_msb_value. by apply chain_from. Qed.

Lemma D_value : -121665 * 121666 ^ (P - 2) ≅ Ref.D.
Proof.
  change (P - 2) with (from_le P_MINUS_2). rewrite <- chain_eqp. constructor. by vm_compute.
Qed.

Lemma SQRT_M1_value : 2 ^ ((P - 1) / 4) ≅ Ref.SQRT_M1.
Proof.
  change ((P - 1) / 4) with (from_le P_MINUS_1_OVER_4). rewrite <- chain_eqp. constructor. by vm_compute.
Qed.

Lemma D_mod : Ref.D mod P = Ref.D.
Proof. apply Z.mod_small. unfold Ref.D, P. lia. Qed.
Lemma SQRT_M1_mod : Ref.SQRT_M1 mod P = Ref.SQRT_M1.
Proof. apply Z.mod_small. unfold Ref.SQRT_M1, P. lia. Qed.

Lemma SQRT_M1_squared : Ref.SQRT_M1 * Ref.SQRT_M1 ≅ -1.
Proof. constructor. by vm_compute. Qed.

(** ** The limbs compute what the integers do *)
(** The value of a field element, and what a computation yields. *)
Definition fval (f : Fe) : Z := val f mod P.
Definition yields (o : option Fe) (v : Z) : Prop := exists f, o = Some f /\ weak f /\ fval f ≅ v.

Lemma yields_repr o v w : repr o v -> v ≅ w -> yields o w.
Proof. intros (f & E & Hw & Hv) Hvw. exists f. split_and!; [done|done|]. unfold fval. by rewrite mod_eqp, Hv. Qed.

Lemma fval_eqp f : val f ≅ fval f.
Proof. symmetry. apply mod_eqp. Qed.
Lemma fval_mod f : fval f mod P = fval f.
Proof. unfold fval. by rewrite Z.mod_mod. Qed.
Lemma fval_range f : 0 <= fval f < P.
Proof. unfold fval. by apply Z.mod_pos_bound. Qed.

Section yields.
Context (a b : Fe) (Ha : weak a) (Hb : weak b).

Lemma yields_add : yields (Field25519.add a b) (fval a + fval b).
Proof. eapply yields_repr; [by apply repr_add|]. by rewrite (fval_eqp a), (fval_eqp b). Qed.
Lemma yields_sub : yields (Field25519.sub a b) (fval a - fval b).
Proof. eapply yields_repr; [by apply repr_sub|]. by rewrite (fval_eqp a), (fval_eqp b). Qed.
Lemma yields_mul : yields (Field25519.mul a b) (fval a * fval b).
Proof. eapply yields_repr; [by apply repr_mul|]. by rewrite (fval_eqp a), (fval_eqp b). Qed.
Lemma yields_neg : yields (Field25519.neg a) (- fval a).
Proof. eapply yields_repr; [by apply repr_neg|]. by rewrite (fval_eqp a). Qed.
Lemma fe_eq_fval : fe_eq a b = Some (fval a =? fval b).
Proof. rewrite fe_eq_spec by done. f_equal. unfold fval. case_bool_decide as E; [by rewrite E, Z.eqb_refl|]. symmetry. by apply Z.eqb_neq. Qed.
Lemma is_zero_fval : is_zero a = Some (fval a =? 0).
Proof. rewrite is_zero_spec by done. f_equal. unfold fval. case_bool_decide as E; [by rewrite E|]. symmetry. by apply Z.eqb_neq. Qed.
Lemma is_negative_fval : is_negative a = Some (Z.odd (fval a)).
Proof. by rewrite is_negative_spec. Qed.
End yields.

Lemma yields_pow a e : weak a -> yields (pow a e) (fval a ^ from_le e).
Proof. intros Ha. eapply yields_repr; [by apply repr_pow|]. apply eqp_pow; [apply from_le_range|apply fval_eqp]. Qed.

Lemma fval_of f v : fval f ≅ v -> fval f = v mod P.
Proof. intros [E]. by rewrite <- E, fval_mod. Qed.

Lemma weak_small v : 0 <= v <= 2 ^ 51 -> weak (small v) /\ fval (small v) = v.
Proof. intros Hv. unfold weak, fval, val, small. cbn [l0 l1 l2 l3 l4]. split; [lia|]. rewrite Z.mod_small; unfold P; lia. Qed.

Lemma weak_ONE : weak ONE /\ fval ONE = 1.
Proof. by apply (weak_small 1). Qed.
Lemma weak_ZERO : weak ZERO /\ fval ZERO = 0.
Proof. by apply (weak_small 0). Qed.

(** Big numbers and long computations stay folded. *)
#[local] Opaque P val Z.pow Z.modulo Z.mul from_le le_bytes from_limbs bits_msb pow Field25519.mul Ref.D Ref.SQRT_M1 ORDER.

Lemma bind_eq {A B} (o : option A) a (k : A -> option B) : o = Some a -> o ≫= k = k a.
Proof. by intros ->. Qed.

(** A computation that is known goes on with its result. *)
Ltac bind_with E :=
  match type of E with ?o = Some ?a => match goal with |- context [mbind ?k o] => rewrite (bind_eq o a k E) end end; cbv beta; clear E.
(** Run the first field operation of the goal. *)
Ltac fe_run L :=
  let f := fresh "f" in let E := fresh "E" in let W := fresh "W" in let V := fresh "V" in
  destruct L as (f & E & W & V); [eassumption..|]; bind_with E.
Ltac fe_step :=
  match goal with
  | |- context [mbind _ (Field25519.add ?a ?b)] => fe_run (yields_add a b)
  | |- context [mbind _ (Field25519.sub ?a ?b)] => fe_run (yields_sub a b)
  | |- context [mbind _ (Field25519.mul ?a ?b)] => fe_run (yields_mul a b)
  | |- context [mbind _ (Field25519.neg ?a)] => fe_run (yields_neg a)
  | |- context [mbind _ (pow ?a ?e)] => fe_run (yields_pow a e)
  end.

(** *** Points *)
Definition wf (p : Point) : Prop := weak (x p) /\ weak (y p) /\ weak (z p) /\ weak (t p).
Definition abs (p : Point) : Ref.point := Ref.mk (fval (x p)) (fval (y p)) (fval (z p)) (fval (t p)).
Definition computes (o : option Point) (q : Ref.point) : Prop := exists p, o = Some p /\ wf p /\ abs p = q.

Lemma consts_spec : exists c, consts = Some c /\ weak (c_d c) /\ weak (c_d2 c) /\ weak (c_sqrt_m1 c) /\
  fval (c_d c) = Ref.D /\ fval (c_sqrt_m1 c) = Ref.SQRT_M1 /\ fval (c_d2 c) ≅ 2 * Ref.D.
Proof.
  destruct (weak_small 121665) as [W1 V1]; [done|]. destruct (weak_small 121666) as [W2 V2]; [done|]. destruct (weak_small 2) as [W3 V3]; [done|].
  unfold consts, invert, sqrt_m1. do 2 fe_step. do 3 fe_step. eexists. split; [done|]. cbn [c_d c_d2 c_sqrt_m1].
  assert (fval f1 = Ref.D) as ED.
  { rewrite <- D_mod. apply fval_of. rewrite V4, V, V0, V1, V2. exact D_value. }
  assert (fval f3 = Ref.SQRT_M1) as ES.
  { rewrite <- SQRT_M1_mod. apply fval_of. rewrite V6, V3. exact SQRT_M1_value. }
  split_and!; [done..|]. rewrite V5, ED. apply eqp_iff. exists 0. lia.
Qed.

#[local] Opaque consts Field25519.add Field25519.sub Field25519.neg.

(** Replace every computed element by its value. *)
Ltac by_values :=
  repeat match goal with H : fval ?f ≅ _ |- context [fval ?f] => rewrite H end; rewrite ?mod_eqp;
  match goal with |- ?a ≅ ?b => replace b with a by ring; done end.

Lemma add_computes p q : wf p -> wf q -> computes (add p q) (Ref.add (abs p) (abs q)).
Proof.
  intros (X1 & Y1 & Z1 & T1) (X2 & Y2 & Z2 & T2). destruct consts_spec as (c & Ec & Wd & Wd2 & _ & _ & _ & Vd2).
  unfold add. bind_with Ec. repeat fe_step.
  eexists. split; [done|]. split; [done|]. unfold abs, Ref.add. cbn [x y z t Ref.X Ref.Y Ref.ZZ Ref.T]. cbv zeta. f_equal; apply fval_of; by_values.
Qed.

#[local] Opaque add Ref.add.

Lemma identity_abs : wf IDENTITY /\ abs IDENTITY = Ref.identity.
Proof.
  destruct weak_ZERO as [W0 V0], weak_ONE as [W1 V1]. split; [exact (conj W0 (conj W1 (conj W1 W0)))|].
  unfold abs, IDENTITY. cbn [x y z t]. rewrite V0, V1. exact eq_refl.
Qed.

Lemma computes_self p : wf p -> computes (Some p) (abs p).
Proof. intros Hp. exists p. split; [reflexivity|split; [exact Hp|reflexivity]]. Qed.

Lemma mul_step_computes p o q b : wf p -> computes o q -> computes (mul_step p o b) (Ref.mul_step (abs p) q b).
Proof.
  intros Hp (a & Ea & Ha & <-). unfold mul_step, Ref.mul_step. bind_with Ea. cbv zeta.
  destruct (add_computes a a Ha Ha) as (d & Ed & Hd & Vd). unfold double, Ref.double. bind_with Ed. rewrite <- Vd.
  destruct b; [exact (add_computes d p Hd Hp)|exact (computes_self d Hd)].
Qed.

Lemma mul_from p bs o q : wf p -> computes o q -> computes (foldl (mul_step p) o bs) (foldl (Ref.mul_step (abs p)) q bs).
Proof.
  intros Hp. revert o q. induction bs as [|b bs IH]; intros o q Ho; [exact Ho|]. cbn [foldl]. apply IH. by apply mul_step_computes.
Qed.

Lemma mul_scalar_computes p k : wf p -> computes (mul_scalar p k) (Ref.mul_scalar (abs p) k).
Proof.
  intros Hp. destruct identity_abs as [HI VI]. apply (mul_from p _ _ _ Hp). rewrite <- VI. exact (computes_self _ HI).
Qed.

Lemma is_identity_spec p : wf p -> is_identity p = Some (Ref.is_identity (abs p)).
Proof.
  intros (HX & HY & HZ & HT). unfold is_identity, Ref.is_identity, and_then, branch. cbn [abs Ref.X Ref.Y Ref.ZZ].
  rewrite is_zero_fval by done. destruct (fval (x p) =? 0); [|done]. by rewrite fe_eq_fval.
Qed.

Lemma cross_eq_spec a b c d : weak a -> weak b -> weak c -> weak d ->
  cross_eq a b c d = Some ((fval a * fval b) mod P =? (fval c * fval d) mod P).
Proof.
  intros Ha Hb Hc Hd. unfold cross_eq. fe_step. fe_step. rewrite fe_eq_fval by done. by rewrite (fval_of _ _ V), (fval_of _ _ V0).
Qed.

Lemma equals_spec p q : wf p -> wf q -> equals p q = Some (Ref.equals (abs p) (abs q)).
Proof.
  intros (X1 & Y1 & Z1 & T1) (X2 & Y2 & Z2 & T2). unfold equals, Ref.equals, and_then, branch. cbn [abs Ref.X Ref.Y Ref.ZZ].
  rewrite cross_eq_spec by done. destruct (_ =? _); [|done]. by rewrite cross_eq_spec.
Qed.

Lemma is_small_order_spec p : wf p -> is_small_order p = Some (Ref.is_small_order (abs p)).
Proof.
  intros H0. unfold is_small_order, Ref.is_small_order, double, Ref.double.
  destruct (add_computes p p H0 H0) as (q & E1 & H1 & <-). bind_with E1.
  destruct (add_computes q q H1 H1) as (r & E2 & H2 & <-). bind_with E2.
  destruct (add_computes r r H2 H2) as (u & E3 & H3 & <-). bind_with E3. exact (is_identity_spec u H3).
Qed.

#[local] Opaque mul_scalar Ref.mul_scalar.

Lemma order_bytes : from_limbs L = le_bytes 32 ORDER.
Proof. by vm_compute. Qed.

Lemma is_torsion_free_spec p : wf p -> is_torsion_free p = Some (Ref.is_torsion_free (abs p)).
Proof.
  intros Hp. unfold is_torsion_free, Ref.is_torsion_free. rewrite order_bytes.
  destruct (mul_scalar_computes p (le_bytes 32 ORDER) Hp) as (q & E & Hq & V). bind_with E. rewrite <- V. exact (is_identity_spec q Hq).
Qed.

(** ** Decoding a point *)
#[local] Opaque fval to_bytes from_bytes is_zero is_negative fe_eq.

Lemma exponent_58 : from_le P_MINUS_5_OVER_8 = (P - 5) / 8.
Proof. by vm_compute. Qed.

Lemma mod_of a b : a ≅ b -> a mod P = b mod P.
Proof. by intros [E]. Qed.

Lemma candidate_spec u v u' v' : weak u -> weak v -> fval u ≅ u' -> fval v ≅ v' ->
  exists r, candidate u v = Some r /\ weak r /\ fval r = Ref.candidate u' v'.
Proof.
  intros Hu Hv Eu Ev. unfold candidate, Ref.candidate, square, pow_p58. repeat fe_step.
  destruct (yields_mul f3 f5) as (r & Er & Hr & Vr); [done..|]. exists r. split_and!; [done|done|]. apply fval_of. rewrite Vr.
  rewrite Zpow_mod_correct, mod_eqp by done. rewrite <- exponent_58. rewrite V5.
  assert (fval f4 ≅ u' * v' ^ 7) as H4 by by_values. rewrite (eqp_pow _ _ _ (proj1 (from_le_range _)) H4). by_values.
Qed.

Lemma eqb_mod a b c : a ≅ b -> (a mod P =? c) = (b mod P =? c).
Proof. by intros [->]. Qed.

Lemma root_spec c u v u' v' : weak u -> weak v -> fval u ≅ u' -> fval v ≅ v' -> weak (c_sqrt_m1 c) -> fval (c_sqrt_m1 c) = Ref.SQRT_M1 ->
  exists r, root c u v = Some r /\
    match r with Some x => weak x /\ Ref.root u' v' = Some (fval x) | None => Ref.root u' v' = None end.
Proof.
  intros Hu Hv Eu Ev Hs Es. destruct (candidate_spec u v u' v' Hu Hv Eu Ev) as (a & Ea & Ha & Va). unfold root. bind_with Ea. unfold square.
  do 2 fe_step. unfold Ref.root. rewrite <- Va. cbv zeta. rewrite fe_eq_fval by done. unfold branch at 1.
  assert (fval f0 = (v' * fval a ^ 2) mod P) as -> by (apply fval_of; by_values). rewrite (fval_of u u') by done.
  destruct (_ =? u' mod P); [by exists (Some a)|]. fe_run (yields_neg u). rewrite fe_eq_fval by done. unfold branch.
  assert (fval f1 = (- u') mod P) as -> by (apply fval_of; by_values).
  assert (fval f0 = (v' * fval a ^ 2) mod P) as -> by (apply fval_of; by_values).
  destruct (_ =? _); [|by exists None]. fe_step. exists (Some f2). split_and!; [done|done|]. f_equal. symmetry. apply fval_of. by rewrite V2, Es.
Qed.

(** Clearing the top bit of the last byte. *)
Lemma alter_last_snoc {A} (f : A -> A) l b : alter_last f (l ++ [b]) = l ++ [f b].
Proof. unfold alter_last. rewrite reverse_app. change (reverse [b] ++ reverse l) with (b :: reverse l). cbv beta iota. by rewrite reverse_cons, reverse_involutive. Qed.

Lemma top_bit b : b2z b = 128 * Z.shiftr (b2z b) 7 + Z.land (b2z b) 0x7f /\ Z.shiftr (b2z b) 7 = Z.b2z (Z.shiftr (b2z b) 7 =? 1) /\
  b2z (z2b (Z.land (b2z b) 0x7f)) = Z.land (b2z b) 0x7f /\ 0 <= Z.land (b2z b) 0x7f < 128.
Proof. by destruct b. Qed.

Lemma split_sign enc : length enc = 32%nat ->
  let yb := alter_last (fun last => z2b (Z.land (b2z last) 0x7f)) enc in
  length yb = 32%nat /\ from_le yb = from_le enc mod 2 ^ 255 /\
  (match last enc with Some b => Z.shiftr (b2z b) 7 =? 1 | None => false end) = (2 ^ 255 <=? from_le enc).
Proof.
  intros Hl. destruct (exists_last (l := enc)) as (l & b & ->); [by intros ->|]. cbv zeta. rewrite alter_last_snoc, last_snoc.
  rewrite length_app in *. cbn [length] in *. split; [done|]. assert (length l = 31%nat) as Hl' by lia. rewrite !from_le_app.
  assert (len l = 31) as -> by (unfold len; lia). pose proof (from_le_range l) as Hr. unfold len in Hr. rewrite Hl' in Hr.
  destruct (top_bit b) as (E1 & E2 & E3 & E4). assert (forall c, from_le [c] = b2z c) as Hc by (intros c; change (b2z c + 256 * 0 = b2z c); lia).
  rewrite !Hc, E3. set (m := Z.land (b2z b) 127) in *. set (q := Z.shiftr (b2z b) 7) in *. rewrite E1. clearbody m q.
  set (s := q =? 1) in *. clearbody s. subst q.
  change (256 ^ Z.of_nat 31) with (256 ^ 31) in Hr. set (n := from_le l) in *. clearbody n. split.
  - apply (Z.mod_unique _ _ (Z.b2z s)); destruct s; cbn [Z.b2z]; lia.
  - symmetry. destruct s; cbn [Z.b2z]; [apply Z.leb_le|apply Z.leb_gt]; lia.
Qed.

(** The canonical encodings of y. *)
Lemma canonical_y yb : length yb = 32%nat -> from_le yb < 2 ^ 255 ->
  exists yc, to_bytes (from_bytes yb) = Some yc /\ bool_decide (yc <> yb) = (P <=? from_le yb) /\
    weak (from_bytes yb) /\ (from_le yb < P -> fval (from_bytes yb) = from_le yb).
Proof.
  intros Hl Hlt. destruct (repr_from_bytes yb Hl) as [Hw Hv]. pose proof (from_le_range yb) as Hr. rewrite Z.mod_small in Hv by lia.
  destruct (to_bytes_spec _ Hw) as (yc & Ec & Lc & Vc). exists yc. split; [done|]. rewrite Hv in Vc. split_and!; [|done|].
  - destruct (P <=? from_le yb) eqn:E; [apply Z.leb_le in E|apply Z.leb_gt in E].
    + apply bool_decide_eq_true. intros ->. pose proof (Z.mod_pos_bound (from_le yb) P ltac:(done)). lia.
    + apply bool_decide_eq_false. intros []. apply from_le_inj; [congruence|]. rewrite Vc, Z.mod_small by lia. done.
  - intros E. Transparent fval. unfold fval. Opaque fval. rewrite Hv, Z.mod_small by lia. done.
Qed.

Lemma decompress_spec enc : length enc = 32%nat -> exists r, decompress enc = Some r /\
  match r with Some p => wf p /\ Ref.decompress enc = Some (abs p) | None => Ref.decompress enc = None end.
Proof.
  intros Hl. destruct consts_spec as (c & Ec & Wd & _ & Ws & Vd & Vs & _). destruct (split_sign enc Hl) as (Ly & Vy & Es).
  unfold decompress, Ref.decompress. bind_with Ec. cbv zeta. rewrite Es. set (sign := 2 ^ 255 <=? from_le enc). clearbody sign. clear Es.
  set (yb := alter_last _ enc) in *. clearbody yb. rewrite <- Vy.
  destruct (canonical_y yb Ly) as (yc & Eyc & Hcanon & Wy & Hfy); [rewrite Vy; by apply Z.mod_pos_bound|]. bind_with Eyc. rewrite Hcanon.
  destruct (P <=? from_le yb) eqn:E; [by exists None|]. apply Z.leb_gt in E. specialize (Hfy E). rewrite <- Hfy. clear Hcanon E Hfy.
  destruct weak_ONE as [W1 V1]. unfold square. repeat fe_step.
  destruct (root_spec c f0 f2 (fval (from_bytes yb) ^ 2 - 1) (Ref.D * fval (from_bytes yb) ^ 2 + 1)) as (r & Er & Hr); [done|done| | |done|done|].
  { rewrite V0, V, V1. by_values. }
  { rewrite V3, V2, V1, Vd, V. by_values. }
  bind_with Er. destruct r as [x0|]; [|by exists None; rewrite Hr]. destruct Hr as [Wx ->]. cbn [mbind option_bind].
  rewrite (bind_eq _ _ _ (is_zero_fval x0 Wx)). cbv beta. unfold branch at 1. destruct ((fval x0 =? 0) && sign); [by exists None|].
  rewrite (bind_eq _ _ _ (is_negative_fval x0 Wx)). cbv beta. unfold branch.
  assert (exists x1, (if xorb (Z.odd (fval x0)) sign then Field25519.neg x0 else Some x0) = Some x1 /\ weak x1 /\
    fval x1 = if xorb (Z.odd (fval x0)) sign then (- fval x0) mod P else fval x0) as (x1 & E1 & W4 & <-).
  { destruct (xorb _ _); [|by exists x0]. destruct (yields_neg x0 Wx) as (g & Eg & Wg & Vg). exists g. split_and!; [done|done|]. by apply fval_of. }
  bind_with E1. fe_step. eexists. split; [done|]. split; [exact (conj W4 (conj Wy (conj W1 W5)))|]. unfold abs. cbn [x y z t].
  by rewrite V1, (fval_of _ _ V4).
Qed.

(** ** Nothing leaves the curve *)
Lemma on_curve_identity : Ref.on_curve Ref.identity.
Proof. split; done. Qed.

(** The polynomial identity behind the addition formulas: with s = y^2 - x^2 and
    m = xy, a point of the curve has s = z^2 + d t^2 and m = zt. *)
Section addition_law.
Context (d X1 Y1 Z1 T1 X2 Y2 Z2 T2 : Z).
Let A := (Y1 - X1) * (Y2 - X2).
Let B := (Y1 + X1) * (Y2 + X2).
Let C := T1 * (2 * d) * T2.
Let ZZ := 2 * (Z1 * Z2).
Definition defect (s1 s2 m1 m2 : Z) : Z :=
  (Z1 * Z1 * Z2 * Z2 + d * d * T1 * T1 * T2 * T2) * (s1 * s2) + 2 * d * Z1 * T1 * Z2 * T2 * ((X1 * X1 + Y1 * Y1) * (X2 * X2 + Y2 * Y2) + 4 * m1 * m2)
  - (Z1 * Z1 * Z2 * Z2 - d * d * T1 * T1 * T2 * T2) * (Z1 * Z1 * Z2 * Z2 - d * d * T1 * T1 * T2 * T2)
  - d * (m1 * m1 * (s2 * s2 + 4 * m2 * m2) + m2 * m2 * (s1 * s1 + 4 * m1 * m1) + 2 * m1 * m2 * ((X1 * X1 + Y1 * Y1) * (X2 * X2 + Y2 * Y2))).

Lemma addition_defect :
  ((ZZ + C) * (B + A)) * ((ZZ + C) * (B + A)) - ((B - A) * (ZZ - C)) * ((B - A) * (ZZ - C)) =
  ((ZZ - C) * (ZZ + C)) * ((ZZ - C) * (ZZ + C)) + d * (((B - A) * (B + A)) * ((B - A) * (B + A))) +
  16 * defect (Y1 * Y1 - X1 * X1) (Y2 * Y2 - X2 * X2) (X1 * Y1) (X2 * Y2).
Proof. unfold A, B, C, ZZ, defect. ring. Qed.

Lemma no_defect : defect (Z1 * Z1 + d * (T1 * T1)) (Z2 * Z2 + d * (T2 * T2)) (Z1 * T1) (Z2 * T2) = 0.
Proof. unfold defect. ring. Qed.

#[local] Instance defect_proper : Proper (eqp ==> eqp ==> eqp ==> eqp ==> eqp) defect.
Proof. intros a a' Ea b b' Eb c c' Ec e e' Ee. unfold defect. by rewrite Ea, Eb, Ec, Ee. Qed.

Lemma addition_law a b c x3 y3 z3 t3 :
  Y1 * Y1 - X1 * X1 ≅ Z1 * Z1 + d * (T1 * T1) -> X1 * Y1 ≅ Z1 * T1 -> Y2 * Y2 - X2 * X2 ≅ Z2 * Z2 + d * (T2 * T2) -> X2 * Y2 ≅ Z2 * T2 ->
  a ≅ A -> b ≅ B -> c ≅ C ->
  x3 ≅ (b - a) * (ZZ - c) -> y3 ≅ (ZZ + c) * (b + a) -> z3 ≅ (ZZ - c) * (ZZ + c) -> t3 ≅ (b - a) * (b + a) ->
  y3 * y3 - x3 * x3 ≅ z3 * z3 + d * (t3 * t3) /\ x3 * y3 ≅ z3 * t3.
Proof.
  intros C1 M1 C2 M2 Ea Eb Ec E1 E2 E3 E4. rewrite Ea, Eb, Ec in *. rewrite E1, E2, E3, E4. split.
  - rewrite addition_defect, C1, M1, C2, M2, no_defect, Z.mul_0_r. by rewrite Z.add_0_r.
  - by match goal with |- ?x ≅ ?y => replace x with y by ring end.
Qed.
End addition_law.

#[local] Transparent Ref.add.
Lemma on_curve_add p q : Ref.on_curve p -> Ref.on_curve q -> Ref.on_curve (Ref.add p q).
Proof.
  intros [C1 M1] [C2 M2]. eapply addition_law; [exact C1|exact M1|exact C2|exact M2|..]; apply mod_eqp.
Qed.

Lemma on_curve_mul p k : Ref.on_curve p -> Ref.on_curve (Ref.mul_scalar p k).
Proof.
  intros Hp. Transparent Ref.mul_scalar. unfold Ref.mul_scalar. pose proof on_curve_identity as H0. revert H0. generalize Ref.identity.
  induction (bits_msb k) as [|b bs IH]; intros q Hq; [done|]. cbn [foldl]. apply IH. unfold Ref.mul_step, Ref.double. cbv zeta.
  assert (Ref.on_curve (Ref.add q q)) by (by apply on_curve_add). destruct b; [by apply on_curve_add|done].
Qed.

(** What [decompress] accepts: the canonical encoding of a point of the curve,
    the sign bit the parity of its x. *)
Lemma root_sound u v x : Ref.root u v = Some x -> v * (x * x) ≅ u /\ 0 <= x < P.
Proof.
  unfold Ref.root. cbv zeta. set (a := Ref.candidate u v).
  assert (0 <= a < P) as Ha by (apply Z.mod_pos_bound; done). assert (a * a = a ^ 2) as Ea by ring.
  destruct (_ =? u mod P) eqn:E1.
  - intros [= <-]. apply Z.eqb_eq in E1. split; [|done]. rewrite Ea. by constructor.
  - destruct (_ =? (- u) mod P) eqn:E2; [|done]. intros [= <-]. apply Z.eqb_eq in E2. split; [|apply Z.mod_pos_bound; done].
    rewrite mod_eqp. replace (v * (a * Ref.SQRT_M1 * (a * Ref.SQRT_M1))) with (v * a ^ 2 * (Ref.SQRT_M1 * Ref.SQRT_M1)) by ring.
    rewrite SQRT_M1_squared. assert (v * a ^ 2 ≅ - u) as -> by by constructor. by replace (- u * -1) with u by ring.
Qed.

Lemma decompress_sound enc p : Ref.decompress enc = Some p ->
  Ref.on_curve p /\ Ref.ZZ p = 1 /\ 0 <= Ref.X p < P /\ Ref.Y p < P /\ from_le enc mod 2 ^ 255 = Ref.Y p /\
  Z.odd (Ref.X p) = (2 ^ 255 <=? from_le enc).
Proof.
  unfold Ref.decompress. cbv zeta. set (sign := 2 ^ 255 <=? from_le enc). set (y := from_le enc mod 2 ^ 255). clearbody sign y.
  destruct (P <=? y) eqn:E; [done|]. apply Z.leb_gt in E. intros (x0 & Hr & H)%bind_Some. apply root_sound in Hr as [Hv Hx].
  destruct (_ && sign) eqn:Ez; [done|]. injection H as <-. cbn [Ref.X Ref.Y Ref.ZZ Ref.T]. unfold Ref.on_curve. cbn [Ref.X Ref.Y Ref.ZZ Ref.T].
  set (x1 := if xorb (Z.odd x0) sign then (- x0) mod P else x0).
  assert (x1 * x1 ≅ x0 * x0 /\ 0 <= x1 < P /\ Z.odd x1 = sign) as (Hsq & Hrange & Hodd).
  { pose proof (mod_eqp (- x0)) as Em. unfold x1. destruct (xorb (Z.odd x0) sign) eqn:Ex; split_and!; try done.
    - rewrite Em. by replace (- x0 * - x0) with (x0 * x0) by ring.
    - by apply Z.mod_pos_bound.
    - by apply Z.mod_pos_bound.
    - assert (x0 <> 0) as Hnz by (intros ->; by destruct sign). assert ((- x0) mod P = P - x0) as ->.
      { symmetry. apply (Z.mod_unique _ _ (-1)); lia. }
      rewrite Z.odd_sub. change (Z.odd P) with true. revert Ex. by destruct (Z.odd x0), sign.
    - lia.
    - lia.
    - revert Ex. by destruct (Z.odd x0), sign. }
  split_and!; [|rewrite mod_eqp; by rewrite Z.mul_1_l|done|lia|lia|done|done|done].
  rewrite mod_eqp. replace (x1 * y * (x1 * y)) with (x1 * x1 * (y * y)) by ring. rewrite Hsq.
  assert (x0 * x0 + Ref.D * (y * y) * (x0 * x0) ≅ y * y - 1) as Hc.
  { etrans; [|etrans; [apply Hv|]]. all: by_values. }
  replace (y * y - x0 * x0) with ((y * y - 1) + (1 - x0 * x0)) by ring. rewrite <- Hc.
  by match goal with |- ?a ≅ ?b => replace a with b by ring end.
Qed.
