(* ===== verification/Ed25519.v ===== *)
(** * Ed25519 verification (px-update/src/ed25519/mod.rs)

    The strict verifier of the update client on the limbs of the code, and the
    same decision on plain integers.  A result is in [option]: [None] would be a
    trap of the checked arithmetic, and there is none. *)
From S2P Require Import Prelude Bytes Words Field25519 Scalar25519 Edwards Sha2.
Local Open Scope Z_scope.

Inductive VerifyError := BadLength | NonCanonicalS | BadPublicKey | SmallOrderPublicKey | BadR | SmallOrderR | Mismatch.
#[export] Instance verify_error_eq_dec : EqDecision VerifyError.
Proof. solve_decision. Defined.

Definition verdict := option (result VerifyError unit).
Definition refuse (e : VerifyError) : verdict := Some (Err e).

(** [dec(enc).ok_or(e)?]. *)
Definition decode_then {A} (dec : list byte -> option (option A)) (enc : list byte) (e : VerifyError) (k : A -> verdict) : verdict :=
  r ← dec enc; match r with Some p => k p | None => refuse e end.

Definition check_public_key (public_key : list byte) : verdict :=
  if negb (length public_key =? 32)%nat then refuse BadLength
  else
    decode_then decompress public_key BadPublicKey (fun a =>
    branch (is_small_order a) (refuse SmallOrderPublicKey)
      (branch (negb <$> is_torsion_free a) (refuse BadPublicKey) (Some (Ok tt)))).

Definition verify (public_key message signature : list byte) : verdict :=
  if negb (length public_key =? 32)%nat then refuse BadLength
  else if negb (length signature =? 64)%nat then refuse BadLength
  else
    let r_bytes := take 32 signature in let s_bytes := drop 32 signature in
    if negb (is_canonical s_bytes) then refuse NonCanonicalS
    else
      decode_then decompress public_key BadPublicKey (fun a =>
      branch (is_small_order a) (refuse SmallOrderPublicKey)
        (branch (negb <$> is_torsion_free a) (refuse BadPublicKey)
          (decode_then decompress r_bytes BadR (fun r =>
           branch (is_small_order r) (refuse SmallOrderR)
             (let k := reduce (sha512 (r_bytes ++ public_key ++ message)) in
              decode_then decompress BASEPOINT Mismatch (fun base =>
              lhs ← mul_scalar base s_bytes;
              ka ← mul_scalar a k; rhs ← add r ka;
              branch (equals lhs rhs) (Some (Ok tt)) (refuse Mismatch))))))).

(** ** The decision on integers *)
Definition ref_decode (enc : list byte) (e : VerifyError) : result VerifyError Ref.point := ok_or (Ref.decompress enc) e.
Definition require (b : bool) (e : VerifyError) : result VerifyError unit := if b then Ok tt else Err e.

Definition ref_key (public_key : list byte) : result VerifyError Ref.point :=
  a ← ref_decode public_key BadPublicKey;
  _ ← require (negb (Ref.is_small_order a)) SmallOrderPublicKey;
  _ ← require (Ref.is_torsion_free a) BadPublicKey;
  Ok a.

(** RFC 8032, 5.1.7, with the rules of the module's documentation. *)
Definition ref_verify (public_key message signature : list byte) : result VerifyError unit :=
  _ ← require ((length public_key =? 32)%nat && (length signature =? 64)%nat) BadLength;
  let R := take 32 signature in let S := drop 32 signature in
  _ ← require (from_le S <? ORDER) NonCanonicalS;
  a ← ref_key public_key;
  r ← ref_decode R BadR;
  _ ← require (negb (Ref.is_small_order r)) SmallOrderR;
  base ← ref_decode BASEPOINT Mismatch;
  let k := le_bytes 32 (from_le (sha512 (R ++ public_key ++ message)) mod ORDER) in
  require (Ref.equals (Ref.mul_scalar base S) (Ref.add r (Ref.mul_scalar a k))) Mismatch.

(** ** The code makes that decision *)
(** The two procedures have one shape; the steps of the code compute those of
    the integers whatever they are. *)
Section shape.
Context {A B : Type} (ok : A -> Prop) (ab : A -> B).
Context (dec : list byte -> option (option A)) (rdec : list byte -> option B).
Context (dec_spec : forall enc, length enc = 32%nat -> exists r, dec enc = Some r /\
  match r with Some p => ok p /\ rdec enc = Some (ab p) | None => rdec enc = None end).
Context (small tors : A -> option bool) (rsmall rtors : B -> bool).
Context (small_spec : forall p, ok p -> small p = Some (rsmall (ab p))) (tors_spec : forall p, ok p -> tors p = Some (rtors (ab p))).

Lemma decode_then_spec enc e k (m : B -> result VerifyError unit) : length enc = 32%nat ->
  (forall p, ok p -> k p = Some (m (ab p))) -> decode_then dec enc e k = Some (a ← ok_or (rdec enc) e; m a).
Proof.
  intros Hl Hk. destruct (dec_spec enc Hl) as (r & E & Hr). unfold decode_then. bind_with E.
  destruct r as [p|]; [|by rewrite Hr]. destruct Hr as [Hp ->]. by apply Hk.
Qed.

Lemma small_then p e k m : ok p -> k = Some m -> branch (small p) (refuse e) k = Some (_ ← require (negb (rsmall (ab p))) e; m).
Proof. intros Hp ->. rewrite small_spec by done. unfold branch. by destruct (rsmall (ab p)). Qed.

Lemma tors_then p e k m : ok p -> k = Some m -> branch (negb <$> tors p) (refuse e) k = Some (_ ← require (rtors (ab p)) e; m).
Proof. intros Hp ->. rewrite tors_spec by done. unfold branch. cbn [fmap option_fmap option_map]. by destruct (rtors (ab p)). Qed.

Lemma key_then enc e1 e2 e3 k m : length enc = 32%nat -> (forall a, ok a -> k a = Some (m (ab a))) ->
  decode_then dec enc e1 (fun a => branch (small a) (refuse e2) (branch (negb <$> tors a) (refuse e3) (k a))) =
  Some (a ← (a ← ok_or (rdec enc) e1; _ ← require (negb (rsmall a)) e2; _ ← require (rtors a) e3; Ok a); m a).
Proof.
  intros Hl Hk. rewrite (decode_then_spec _ _ _ (fun a => _ ← require (negb (rsmall a)) e2; _ ← require (rtors a) e3; m a) Hl).
  - f_equal. destruct (ok_or (rdec enc) e1) as [a|e]; [|done]. cbn [mbind result_bind].
    destruct (require _ e2); [|done]. cbn [mbind result_bind]. by destruct (require _ e3).
  - intros a Ha. apply small_then; [done|]. apply tors_then; [done|]. by apply Hk.
Qed.
End shape.

Lemma reduce_bytes h : (length h <= 64)%nat -> reduce h = le_bytes 32 (from_le h mod ORDER).
Proof.
  intros Hh. destruct (reduce_spec h Hh) as [Hl Hv]. apply from_le_inj; [by rewrite Hl, length_le_bytes|]. rewrite Hv.
  symmetry. apply from_le_bytes. pose proof (Z.mod_pos_bound (from_le h) ORDER ltac:(done)) as Hr. split; [lia|].
  etrans; [apply Hr|]. done.
Qed.

#[local] Opaque decompress Ref.decompress is_small_order Ref.is_small_order is_torsion_free Ref.is_torsion_free mul_scalar Ref.mul_scalar
  add Ref.add equals Ref.equals sha512 reduce le_bytes from_le P ORDER BASEPOINT Z.modulo is_canonical.

Definition decode_point enc e k := decode_then_spec wf abs decompress Ref.decompress decompress_spec enc e k.
Definition key_point enc e1 e2 e3 k :=
  key_then wf abs decompress Ref.decompress decompress_spec is_small_order is_torsion_free Ref.is_small_order Ref.is_torsion_free
    is_small_order_spec is_torsion_free_spec enc e1 e2 e3 k.

(** Every 32-byte string that is decoded here. *)
Lemma equation_spec base r a S k : wf base -> wf r -> wf a ->
  (lhs ← mul_scalar base S; ka ← mul_scalar a k; rhs ← add r ka; branch (equals lhs rhs) (Some (Ok tt)) (refuse Mismatch)) =
  Some (require (Ref.equals (Ref.mul_scalar (abs base) S) (Ref.add (abs r) (Ref.mul_scalar (abs a) k))) Mismatch).
Proof.
  intros Hb Hr Ha. destruct (mul_scalar_computes base S Hb) as (l & El & Hl & <-). bind_with El.
  destruct (mul_scalar_computes a k Ha) as (ka & Ek & Hk & <-). bind_with Ek.
  destruct (add_computes r ka Hr Hk) as (rhs & Er & Hrhs & <-). bind_with Er.
  rewrite equals_spec by done. unfold branch. by destruct (Ref.equals _ _).
Qed.

Lemma check_public_key_exact public_key :
  check_public_key public_key = Some (_ ← require (length public_key =? 32)%nat BadLength; _ ← ref_key public_key; Ok tt).
Proof.
  unfold check_public_key. destruct (length public_key =? 32)%nat eqn:E; cbn [negb require mbind result_bind]; [|reflexivity]. apply Nat.eqb_eq in E.
  exact (key_point public_key _ _ _ (fun _ => Some (Ok tt)) (fun _ => Ok tt) E (fun _ _ => eq_refl)).
Qed.

Lemma is_canonical_exact S : length S = 32%nat -> is_canonical S = (from_le S <? ORDER).
Proof.
  intros HS. rewrite is_canonical_spec by done. case_bool_decide as E; symmetry; [by apply Z.ltb_lt|apply Z.ltb_ge; lia].
Qed.

(** The steps after the scalar check, for any base point and hash. *)
Section inner.
Context (B R S k k' public_key : list byte) (Hk : k = k') (HB : length B = 32%nat) (HR : length R = 32%nat) (E1 : length public_key = 32%nat).
Definition last_step (a r : Point) : verdict :=
  decode_then decompress B Mismatch (fun base =>
  lhs ← mul_scalar base S;
  ka ← mul_scalar a k; rhs ← add r ka;
  branch (equals lhs rhs) (Some (Ok tt)) (refuse Mismatch)).
Definition ref_last_step (a r : Ref.point) : result VerifyError unit :=
  base ← ref_decode B Mismatch;
  require (Ref.equals (Ref.mul_scalar base S) (Ref.add r (Ref.mul_scalar a k'))) Mismatch.

Lemma last_step_spec a r : wf a -> wf r -> last_step a r = Some (ref_last_step (abs a) (abs r)).
Proof.
  intros Ha Hr. unfold last_step, ref_last_step. rewrite <- Hk.
  refine (decode_point B Mismatch _
    (fun base => require (Ref.equals (Ref.mul_scalar base S) (Ref.add (abs r) (Ref.mul_scalar (abs a) k))) Mismatch) HB _).
  intros base Hb. exact (equation_spec base r a S k Hb Hr Ha).
Qed.

Definition middle_step (a : Point) : verdict :=
  decode_then decompress R BadR (fun r => branch (is_small_order r) (refuse SmallOrderR) (last_step a r)).
Definition ref_middle_step (a : Ref.point) : result VerifyError unit :=
  r ← ref_decode R BadR; _ ← require (negb (Ref.is_small_order r)) SmallOrderR; ref_last_step a r.

Lemma middle_step_spec a : wf a -> middle_step a = Some (ref_middle_step (abs a)).
Proof.
  intros Ha. unfold middle_step, ref_middle_step.
  refine (decode_point R BadR _ (fun r => _ ← require (negb (Ref.is_small_order r)) SmallOrderR; ref_last_step (abs a) r) HR _).
  intros r Hr. exact (small_then wf abs is_small_order Ref.is_small_order is_small_order_spec r SmallOrderR _ _ Hr (last_step_spec a r Ha Hr)).
Qed.

Lemma first_step_spec : decode_then decompress public_key BadPublicKey (fun a =>
      branch (is_small_order a) (refuse SmallOrderPublicKey)
        (branch (negb <$> is_torsion_free a) (refuse BadPublicKey) (middle_step a))) = Some (a ← ref_key public_key; ref_middle_step a).
Proof. exact (key_point public_key BadPublicKey SmallOrderPublicKey BadPublicKey middle_step ref_middle_step E1 middle_step_spec). Qed.
End inner.

Lemma require_then (b : bool) e (X : verdict) Y : (b = true -> X = Some Y) -> (if negb b then refuse e else X) = Some (_ ← require b e; Y).
Proof. destruct b; [intros ->; done|done]. Qed.

Lemma require_both (b c : bool) e (X : verdict) Y : (b = true -> c = true -> X = Some Y) ->
  (if negb b then refuse e else if negb c then refuse e else X) = Some (_ ← require (b && c) e; Y).
Proof. destruct b, c; [intros ->; done|done..]. Qed.

Lemma verify_exact public_key message signature : verify public_key message signature = Some (ref_verify public_key message signature).
Proof.
  apply require_both. intros E1%Nat.eqb_eq E2%Nat.eqb_eq.
  cbv zeta. assert (length (take 32 signature) = 32%nat) as HR by (rewrite length_take; lia).
  assert (length (drop 32 signature) = 32%nat) as HS by (rewrite length_drop; lia). rewrite <- (is_canonical_exact _ HS).
  apply require_then. intros _. set (h := sha512 _). assert (length h <= 64)%nat as Hh by (unfold h; by rewrite length_sha512).
  clearbody h. pose proof (first_step_spec BASEPOINT _ (drop 32 signature) _ _ public_key (reduce_bytes h Hh) eq_refl HR E1) as H.
  unfold middle_step, last_step, ref_middle_step, ref_last_step in H. exact H.
Qed.

(** C8: the two procedures never trap, and they decide as RFC 8032 does in its
    strict form, on integers: a canonical scalar, a key that decodes to a point of
    the prime-order subgroup, a first half that decodes, neither of small order,
    and the equation without the cofactor; each refusal has the error of the
    first of these that fails. *)
Theorem verification_is_rfc8032 public_key message signature :
  check_public_key public_key = Some (_ ← require (length public_key =? 32)%nat BadLength; _ ← ref_key public_key; Ok tt) /\
  verify public_key message signature = Some (ref_verify public_key message signature).
Proof. split; [apply check_public_key_exact|apply verify_exact]. Qed.
