(* ===== verification/UpdateText.v ===== *)
(** * Hexadecimal, versions and dates (px-update/src/hex.rs, version.rs)

    The spellings the update files are made of.  Each has one: what is read is
    exactly what would be written. *)
From S2P Require Import Prelude Bytes OrdMap Text Chars Words.
Local Open Scope Z_scope.

(** ** Lowercase hexadecimal *)
Module Hex.
Definition DIGITS : list byte := lit "0123456789abcdef".
Definition digit (n : Z) : byte := default "0"%byte (DIGITS !! Z.to_nat n).

Definition encode (bytes : list byte) : list byte :=
  flat_map (fun b => [digit (Z.shiftr (b2z b) 4); digit (Z.land (b2z b) 15)]) bytes.

Definition nibble (c : byte) : option Z :=
  if in_range 48 57 c then Some (b2z c - 48)
  else if in_range 97 102 c then Some (b2z c - 97 + 10)
  else None.

Definition decode_pair (pair : list byte) : option byte :=
  match pair with
  | [a; b] => h ← nibble a; l ← nibble b; Some (z2b (Z.lor (shl64 h 4) l))
  | _ => None
  end.

Definition decode_fixed (N : nat) (s : list byte) : option (list byte) :=
  if negb (length s =? N * 2)%nat then None else mapM decode_pair (as_chunks 2 s).

Lemma decode_digits b : decode_pair [digit (Z.shiftr (b2z b) 4); digit (Z.land (b2z b) 15)] = Some b.
Proof. by destruct b. Qed.

Lemma length_encode l : length (encode l) = (length l * 2)%nat.
Proof. unfold encode. induction l as [|b l IH]; [done|]. cbn [flat_map app length]. by rewrite IH. Qed.

Lemma encode_chunks l : as_chunks 2 (encode l) = map (fun b => [digit (Z.shiftr (b2z b) 4); digit (Z.land (b2z b) 15)]) l.
Proof.
  unfold encode. induction l as [|b l IH]; [done|]. cbn [flat_map map]. rewrite as_chunks_cons by (done || lia). by rewrite IH.
Qed.

Lemma decode_encode l : decode_fixed (length l) (encode l) = Some l.
Proof.
  unfold decode_fixed. rewrite length_encode, Nat.eqb_refl. cbn [negb]. rewrite encode_chunks.
  apply mapM_Some. induction l as [|b l IH]; [constructor|]. cbn [map]. constructor; [apply decode_digits|done].
Qed.

(** Only the digits that are written are read. *)
Lemma nibble_digit c n : nibble c = Some n -> digit n = c /\ 0 <= n < 16.
Proof. destruct c; intros [= <-]; vm_compute; by repeat split. Qed.

Lemma pair_digits h l : 0 <= h < 16 -> 0 <= l < 16 ->
  let b := z2b (Z.lor (shl64 h 4) l) in Z.shiftr (b2z b) 4 = h /\ Z.land (b2z b) 15 = l.
Proof.
  intros Hh Hl. assert (Z.to_nat h ∈ seq 0 16 /\ Z.to_nat l ∈ seq 0 16) as [H1 H2] by (split; apply elem_of_seq; lia).
  rewrite <- (Z2Nat.id h), <- (Z2Nat.id l) by lia. revert H1 H2. generalize (Z.to_nat h), (Z.to_nat l). intros i j Hi Hj.
  revert j Hj. pattern i. revert i Hi. apply Forall_forall.
  repeat (constructor; [intros j Hj; pattern j; revert j Hj; apply Forall_forall; repeat (constructor; [by vm_compute|]); constructor|]). constructor.
Qed.

Lemma encode_decode N s l : decode_fixed N s = Some l -> encode l = s /\ length l = N.
Proof.
  unfold decode_fixed. destruct (length s =? N * 2)%nat eqn:E; [|done]. apply Nat.eqb_eq in E. cbn [negb]. intros H%mapM_Some.
  destruct (as_chunks_spec 2 s N) as (H1 & H2 & H3); [lia|lia|]. split; [|by rewrite <- H1, (Forall2_length _ _ _ H)].
  rewrite <- H3. clear E H1 H3. revert H2. unfold encode. induction H as [|p b ps l Hp _ IH]; [done|]. intros [Hlen Hps]%Forall_cons.
  cbn [flat_map concat]. rewrite IH by done. f_equal. destruct p as [|x [|y [|]]]; try done. cbn [decode_pair] in Hp.
  apply bind_Some in Hp as (h & Hh%nibble_digit & Hp). apply bind_Some in Hp as (m & Hm%nibble_digit & [= <-]).
  destruct Hh as [<- Rh], Hm as [<- Rm]. by destruct (pair_digits h m Rh Rm) as [-> ->].
Qed.
End Hex.

(** ** Canonical decimals *)
(** All digits, at least one and at most [max_len], no leading zero. *)
Definition canonical_digits (max_len : nat) (s : list byte) : bool :=
  negb (bool_decide (s = [])) && negb (max_len <? length s)%nat && forallb is_digit s.
Definition leading_zero (s : list byte) : bool := (1 <? length s)%nat && bool_decide (head s = Some "0"%byte).

Lemma digits_value_app acc a b : digits_value acc (a ++ b) = (v ← digits_value acc a; digits_value v b).
Proof. revert acc. induction a as [|x a IH]; intros acc; [done|]. cbn [app digits_value]. destruct (is_digit x); [apply IH|done]. Qed.

Lemma digits_value_some acc s : forallb is_digit s = true -> exists v, digits_value acc s = Some v.
Proof.
  revert acc. induction s as [|x s IH]; intros acc; [by eexists|]. cbn [forallb digits_value]. intros [-> H]%andb_true_iff. by apply IH.
Qed.

Lemma digit_of b : is_digit b = true -> z2b (48 + (b2z b - 48)) = b /\ 0 <= b2z b - 48 < 10.
Proof. unfold is_digit. intros H. split; [|lia]. replace (48 + (b2z b - 48)) with (b2z b) by lia. apply z2b_b2z. Qed.

(** A spelling without leading zeros is the one that is written. *)
Lemma decimal_loop_unique fuel s v acc : s <> [] -> forallb is_digit s = true -> leading_zero s = false ->
  digits_value 0 s = Some v -> (length s <= S fuel)%nat -> decimal_loop fuel v acc = s ++ acc.
Proof.
  revert fuel v acc. induction s as [|b s IH] using rev_ind; [done|]. intros fuel v acc _ Hd Hz Hv Hf.
  rewrite forallb_app in Hd. apply andb_true_iff in Hd as [Hs Hb]. cbn [forallb] in Hb. rewrite andb_true_r in Hb.
  destruct (digits_value_some 0 s Hs) as [n Hn]. pose proof (digits_value_ge 0 s n ltac:(lia) Hn) as Hn0.
  rewrite digits_value_app, Hn in Hv. cbn [mbind option_bind digits_value] in Hv. rewrite Hb in Hv. injection Hv as <-.
  destruct (digit_of b Hb) as [Eb Rb]. set (d := b2z b - 48) in *. clearbody d.
  assert ((n * 10 + d) mod 10 = d) as Em by (symmetry; apply (Z.mod_unique _ _ n); lia).
  assert ((n * 10 + d) / 10 = n) as Ed by (symmetry; apply (Z.div_unique _ _ _ d); lia).
  destruct s as [|c s].
  - injection Hn as <-. destruct fuel; cbn [decimal_loop]; rewrite ?Em, ?Eb; [done|]. rewrite (proj2 (Z.ltb_lt _ _)) by lia. done.
  - rewrite length_app in Hf. cbn [length] in Hf. destruct fuel as [|fuel]; [lia|]. cbn [decimal_loop]. rewrite Em, Eb.
    assert (1 <= n) as Hn1.
    { unfold leading_zero in Hz. rewrite length_app in Hz. cbn [app head length] in Hz.
      rewrite (proj2 (Nat.ltb_lt 1 _)) in Hz by (simpl; lia). apply bool_decide_eq_false in Hz.
      cbn [digits_value forallb] in Hn, Hs. apply andb_true_iff in Hs as [Hc _]. rewrite Hc in Hn.
      assert (b2z c <> 48) as Hc48. { intros E. apply Hz. f_equal. by apply b2z_inj. }
      unfold is_digit in Hc. apply digits_value_ge in Hn; lia. }
    rewrite (proj2 (Z.ltb_ge _ _)) by lia. rewrite Ed. rewrite (IH fuel n (b :: acc)); [by rewrite <- app_assoc|done|done| |done|simpl in *; lia].
    unfold leading_zero in *. destruct s as [|e s]; [done|]. rewrite length_app in Hz. cbn [app head length] in Hz |- *.
    rewrite (proj2 (Nat.ltb_lt 1 _)) in Hz by lia. rewrite (proj2 (Nat.ltb_lt 1 _)) by lia. done.
Qed.

Lemma decimal_unique s v : s <> [] -> forallb is_digit s = true -> leading_zero s = false -> digits_value 0 s = Some v ->
  (length s <= 20)%nat -> decimal v = s.
Proof. intros H1 H2 H3 H4 H5. unfold decimal. rewrite (decimal_loop_unique 19 s v []); [apply app_nil_r|done..]. Qed.

(** What is written is canonical. *)
Lemma decimal_loop_shape fuel z acc : 0 <= z < 10 ^ (Z.of_nat fuel + 1) ->
  exists s, decimal_loop fuel z acc = s ++ acc /\ leading_zero s = false /\ s <> [] /\ (Z.of_nat (length s) <= Z.of_nat fuel + 1) /\
    (forall k, 0 <= k -> z < 10 ^ (k + 1) -> Z.of_nat (length s) <= k + 1) /\ (z > 0 -> head s <> Some "0"%byte).
Proof.
  revert z acc. induction fuel as [|fuel IH]; intros z acc Hz.
  all: destruct (digit_byte z) as [_ Hv]; pose proof (Z.mod_pos_bound z 10 ltac:(lia)) as Hm.
  all: assert (0 < z < 10 -> z2b (48 + z mod 10) <> "0"%byte) as Hne by
    (intros Hp E; rewrite E in Hv; rewrite Z.mod_small in Hv by lia; change (b2z "0") with 48 in Hv; lia).
  all: cbn [decimal_loop].
  - change (10 ^ (Z.of_nat 0 + 1)) with 10 in Hz. exists [z2b (48 + z mod 10)]. split_and!; try done; try (intros; simpl; lia).
    intros Hp [= E]. apply Hne; [lia|done].
  - destruct (z <? 10) eqn:E; [apply Z.ltb_lt in E|apply Z.ltb_ge in E].
    + exists [z2b (48 + z mod 10)]. split_and!; try done; try (intros; simpl; lia). intros Hp [= E']. apply Hne; [lia|done].
    + rewrite Nat2Z.inj_succ, Z.add_succ_l, Z.pow_succ_r in Hz by lia.
      assert (0 < z / 10) as Hq by (apply Z.div_str_pos; lia).
      destruct (IH (z / 10) (z2b (48 + z mod 10) :: acc)) as (s & -> & H1 & H2 & H3 & H4 & H5).
      { split; [lia|]. apply Z.div_lt_upper_bound; lia. }
      exists (s ++ [z2b (48 + z mod 10)]). rewrite <- app_assoc. rewrite length_app. cbn [length app].
      destruct s as [|c s]; [done|]. split_and!; [done| |done|lia| |by intros _; apply H5; lia].
      * unfold leading_zero. cbn [app head]. rewrite bool_decide_eq_false_2 by (apply H5; lia). apply andb_false_r.
      * intros k Hk Hlt. destruct (Z.eq_dec k 0) as [->|Hk0]; [change (10 ^ (0 + 1)) with 10 in Hlt; lia|].
        specialize (H4 (k - 1)). rewrite Z.add_1_r, Z.pow_succ_r in Hlt by lia. replace (k - 1 + 1) with k in H4 by lia.
        assert (z / 10 < 10 ^ k) by (apply Z.div_lt_upper_bound; lia). lia.
Qed.

Lemma decimal_canonical z k : 0 <= z <= U64_MAX -> 0 <= k -> z < 10 ^ (k + 1) ->
  canonical_digits (Z.to_nat (k + 1)) (decimal z) = true /\ leading_zero (decimal z) = false.
Proof.
  intros Hz Hk Hlt. destruct (decimal_digits z) as [Hd Hne]. unfold decimal in *.
  destruct (decimal_loop_shape 19 z []) as (s & E & H1 & H2 & _ & H4 & _); [unfold U64_MAX in Hz; lia|].
  rewrite E, app_nil_r in *. split; [|done]. unfold canonical_digits. rewrite bool_decide_eq_false_2 by done.
  rewrite (proj2 (Nat.ltb_ge _ _)) by (specialize (H4 k Hk Hlt); lia). by apply forallb_true.
Qed.

Lemma radix_value_digits_inv max acc s v : forallb is_digit s = true -> radix_value 10 max acc s = Some v -> digits_value acc s = Some v.
Proof.
  revert acc. induction s as [|b s IH]; intros acc; [done|]. cbn [forallb radix_value digits_value]. intros [Hb Hs]%andb_true_iff.
  rewrite digit_radix_10, Hb by done. cbn [mbind option_bind]. destruct (max <? _); [done|]. by apply IH.
Qed.

Lemma parse_digits_canonical n max s v : canonical_digits n s = true -> leading_zero s = false -> (n <= 20)%nat -> 0 <= max ->
  parse_uint 10 max s = Some v -> decimal v = s /\ 0 <= v <= max.
Proof.
  unfold canonical_digits. intros [[Hne%negb_true_iff%bool_decide_eq_false Hl%negb_true_iff%Nat.ltb_ge]%andb_true_iff Hd]%andb_true_iff Hz Hn Hm Hp.
  split; [|apply (parse_uint_range 10 max s v); [lia|done|done]]. apply decimal_unique; [done|done|done| |lia].
  rewrite parse_uint_nosign in Hp; [by apply (radix_value_digits_inv max)|done|]. apply forallb_true in Hd.
  eapply Forall_impl; [exact Hd|]. intros b. apply is_digit_hex.
Qed.

(** ** Versions *)
Record Version := mkVersion { major : Z; minor : Z; patch : Z }.
#[export] Instance version_eq_dec : EqDecision Version.
Proof. solve_decision. Defined.

Definition component (s : list byte) : option Z :=
  if negb (canonical_digits 9 s) then None
  else if leading_zero s then None
  else parse_uint 10 U32_MAX s.

Definition parse_version (s : list byte) : option Version :=
  match split_on DOT s with
  | [a; b; c] => a ← component a; b ← component b; c ← component c; Some (mkVersion a b c)
  | _ => None
  end.

(** [Display]. *)
Definition show_version (v : Version) : list byte := decimal (major v) ++ DOT :: decimal (minor v) ++ DOT :: decimal (patch v).

(** The derived order. *)
Definition cmp_version (a b : Version) : comparison := cmp (major a, (minor a, patch a)) (major b, (minor b, patch b)).
#[export] Program Instance ord_version : Ord Version := {| cmp := cmp_version |}.
Next Obligation. intros [a b c] [a' b' c']. unfold cmp_version. rewrite cmp_eq. cbn [major minor patch]. split; congruence. Qed.
Next Obligation. intros a b. unfold cmp_version. apply cmp_antisym. Qed.
Next Obligation. intros a b c. unfold cmp_version. apply cmp_trans. Qed.

(** Numbers of at most nine digits. *)
Definition version_ok (v : Version) : Prop := 0 <= major v < 10 ^ 9 /\ 0 <= minor v < 10 ^ 9 /\ 0 <= patch v < 10 ^ 9.

Lemma component_spec s v : component s = Some v <-> decimal v = s /\ 0 <= v < 10 ^ 9.
Proof.
  unfold component. split.
  - destruct (canonical_digits 9 s) eqn:Ec; [|done]. destruct (leading_zero s) eqn:Ez; [done|]. cbn [negb]. intros H.
    destruct (parse_digits_canonical 9 U32_MAX s v Ec Ez) as [E R]; [lia|done|done|]. split; [done|]. split; [lia|].
    unfold canonical_digits in Ec. apply andb_true_iff in Ec as [[Hne Hl]%andb_true_iff Hd]. apply negb_true_iff, Nat.ltb_ge in Hl.
    apply negb_true_iff, bool_decide_eq_false in Hne.
    assert (digits_value 0 s = Some v) as Hv.
    { rewrite parse_uint_nosign in H; [by apply (radix_value_digits_inv U32_MAX)|done|]. apply forallb_true in Hd.
      eapply Forall_impl; [exact Hd|]. intros b. apply is_digit_hex. }
    clear - Hv Hl Hd. assert (forall l acc w, forallb is_digit l = true -> 0 <= acc -> digits_value acc l = Some w -> w < (acc + 1) * 10 ^ len l) as Hb.
    { clear. induction l as [|b l IH]; intros acc w Hd Ha Hw; [injection Hw as <-; change (10 ^ len []) with 1; lia|].
      cbn [digits_value forallb] in *. apply andb_true_iff in Hd as [Hb Hd]. rewrite Hb in Hw. destruct (digit_of b Hb) as [_ Rb].
      apply IH in Hw; [|done|lia]. rewrite len_cons, Z.pow_add_r, Z.pow_1_r by (pose proof (len_nonneg l); lia).
      pose proof (Z.pow_pos_nonneg 10 (len l) ltac:(lia) (len_nonneg l)). nia. }
    specialize (Hb s 0 v Hd ltac:(lia) Hv). assert (10 ^ len s <= 10 ^ 9) by (apply Z.pow_le_mono_r; unfold len; lia). lia.
  - intros [<- Hv]. destruct (decimal_canonical v 8) as [E1 E2]; [unfold U64_MAX; lia|lia|change (10 ^ (8 + 1)) with (10 ^ 9); lia|]. change (Z.to_nat (8 + 1)) with 9%nat in E1. rewrite E1, E2. cbn [negb].
    apply parse_decimal_uint; unfold U32_MAX, U64_MAX; lia.
Qed.

Lemma dot_not_digit z : DOT ∉ decimal z.
Proof. intros H. destruct (decimal_digits z) as [Hd _]. rewrite Forall_forall in Hd. by apply Hd in H. Qed.

Lemma parse_version_spec s v : parse_version s = Some v <-> show_version v = s /\ version_ok v.
Proof.
  unfold parse_version, show_version. split.
  - destruct (split_on DOT s) as [|a [|b [|c [|]]]] eqn:E; try done. intros (x & Hx%component_spec & H)%bind_Some.
    apply bind_Some in H as (y & Hy%component_spec & H). apply bind_Some in H as (w & Hw%component_spec & [= <-]). cbn [major minor patch].
    rewrite <- (join_split DOT s), E. destruct Hx as [<- ?], Hy as [<- ?], Hw as [<- ?]. done.
  - intros [<- (H1 & H2 & H3)]. rewrite !split_on_app, split_on_single by apply dot_not_digit.
    rewrite (proj2 (component_spec _ _) (conj eq_refl H1)), (proj2 (component_spec _ _) (conj eq_refl H2)), (proj2 (component_spec _ _) (conj eq_refl H3)).
    cbn [mbind option_bind]. by destruct v.
Qed.

(** ** Dates *)
Definition is_leap (year : Z) : bool := (year mod 4 =? 0) && (negb (year mod 100 =? 0) || (year mod 400 =? 0)).
Definition days_in_month (year month : Z) : Z :=
  if month =? 2 then if is_leap year then 29 else 28
  else if (month =? 4) || (month =? 6) || (month =? 9) || (month =? 11) then 30 else 31.

(** Hinnant's [days_from_civil]. *)
Definition days_from_civil (year month day : Z) : Z :=
  let y := if month <=? 2 then year - 1 else year in
  let era := y / 400 in
  let yoe := y - era * 400 in
  let mp := (month + 9) mod 12 in
  let doy := (153 * mp + 2) / 5 + day - 1 in
  let doe := yoe * 365 + yoe / 4 - yoe / 100 + doy in
  era * 146097 + doe - 719468.

Definition date_to_unix (yyyymmdd : Z) : option Z :=
  let year := yyyymmdd / 10000 in
  let month := (yyyymmdd / 100) mod 100 in
  let day := yyyymmdd mod 100 in
  if negb ((1970 <=? year) && (year <=? 9999)) || negb ((1 <=? month) && (month <=? 12)) then None
  else if (day <? 1) || (days_in_month year month <? day) then None
  else days ← try_from U64_MAX (days_from_civil year month day); s ← fits U64_MAX (days * 86400); Some s.

Example dates : map date_to_unix [19700101; 20000101; 20260909; 20240229; 20230229; 20261301; 20260100; 0; 19691231] =
  [Some 0; Some 946684800; Some 1788912000; Some 1709164800; None; None; None; None; None].
Proof. by vm_compute. Qed.

(** The day after. *)
Definition next_day (year month day : Z) : Z * Z * Z :=
  if day <? days_in_month year month then (year, month, day + 1)
  else if month <? 12 then (year, month + 1, 1) else (year + 1, 1, 1).

(** Years of March to February: a year has 365 days, and one more when its last
    February is that of a leap year. *)
Definition year_start (y : Z) : Z := y * 365 + y / 4 - y / 100 + y / 400.

Lemma year_start_next y : year_start (y + 1) = year_start y + 365 + (if is_leap (y + 1) then 1 else 0).
Proof.
  unfold year_start, is_leap.
  assert (forall d, 0 < d -> (y + 1) / d = y / d + (if (y + 1) mod d =? 0 then 1 else 0)) as H.
  { intros d Hd. pose proof (Z.div_mod y d ltac:(lia)) as E. pose proof (Z.mod_pos_bound y d ltac:(lia)) as R.
    destruct (Z.eq_dec (y mod d) (d - 1)) as [El|El].
    - assert ((y + 1) mod d = 0) as -> by (symmetry; apply (Z.mod_unique _ _ (y / d + 1)); nia).
      rewrite Z.eqb_refl. symmetry. apply (Z.div_unique _ _ _ 0); nia.
    - assert ((y + 1) mod d = y mod d + 1) as -> by (symmetry; apply (Z.mod_unique _ _ (y / d)); lia).
      rewrite (proj2 (Z.eqb_neq _ _)) by lia. symmetry. apply (Z.div_unique _ _ _ (y mod d + 1)); lia. }
  rewrite (H 4), (H 100), (H 400) by lia. set (n := y + 1).
  assert (n mod 100 = 0 -> n mod 4 = 0) as H4.
  { intros E. apply Z.mod_divide in E as [k ->]; [|done]. apply Z.mod_divide; [done|]. exists (25 * k). lia. }
  assert (n mod 400 = 0 -> n mod 100 = 0) as H100.
  { intros E. apply Z.mod_divide in E as [k ->]; [|done]. apply Z.mod_divide; [done|]. exists (4 * k). lia. }
  destruct (Z.eqb_spec (n mod 4) 0) as [E4|E4], (Z.eqb_spec (n mod 100) 0) as [E100|E100], (Z.eqb_spec (n mod 400) 0) as [E400|E400];
    try (exfalso; by auto); cbn [andb orb negb]; lia.
Qed.

Lemma days_from_civil_flat year month day : days_from_civil year month day =
  let y := if month <=? 2 then year - 1 else year in year_start y + ((153 * ((month + 9) mod 12) + 2) / 5 + day - 1) - 719468.
Proof.
  unfold days_from_civil, year_start. cbv zeta. set (y := if month <=? 2 then _ else _). clearbody y.
  set (m := (153 * _ + 2) / 5). clearbody m. set (e := y / 400).
  assert ((y - e * 400) / 4 = y / 4 - e * 100) as ->.
  { replace (y - e * 400) with (y + (- e * 100) * 4) by lia. rewrite Z.div_add by lia. lia. }
  assert ((y - e * 400) / 100 = y / 100 - e * 4) as ->.
  { replace (y - e * 400) with (y + (- e * 4) * 100) by lia. rewrite Z.div_add by lia. lia. }
  lia.
Qed.

(** Compute what a month alone decides. *)
Ltac evaluate t := let v := eval vm_compute in t in change t with v.
Ltac evaluate_months :=
  repeat match goal with
  | |- context [Zpos ?a <? 12] => evaluate (Zpos a <? 12)
  | |- context [Zpos ?a + 1 <=? 2] => evaluate (Zpos a + 1 <=? 2)
  | |- context [Zpos ?a <=? 2] => evaluate (Zpos a <=? 2)
  | |- context [Zpos ?a =? Zpos ?b] => evaluate (Zpos a =? Zpos b)
  | |- context [153 * ((Zpos ?a + 9) mod 12)] => evaluate ((153 * ((Zpos a + 9) mod 12) + 2) / 5)
  | |- context [153 * ((Zpos ?a + 1 + 9) mod 12)] => evaluate ((153 * ((Zpos a + 1 + 9) mod 12) + 2) / 5)
  end; cbn [orb].

(** Each day is one after the day before. *)
Lemma days_from_civil_next year month day : 1 <= month <= 12 -> 1 <= day <= days_in_month year month ->
  let '(y, m, d) := next_day year month day in days_from_civil y m d = days_from_civil year month day + 1.
Proof.
  intros Hm Hd. unfold next_day. rewrite !days_from_civil_flat. cbv zeta.
  destruct (day <? days_in_month year month) eqn:E; [apply Z.ltb_lt in E; rewrite days_from_civil_flat; cbv zeta; lia|apply Z.ltb_ge in E].
  pose proof (year_start_next (year - 1)) as Hy. replace (year - 1 + 1) with year in Hy by lia.
  assert (day = days_in_month year month) as -> by lia. clear Hd E.
  assert (month = 1 \/ month = 2 \/ month = 3 \/ month = 4 \/ month = 5 \/ month = 6 \/ month = 7 \/ month = 8 \/ month = 9 \/ month = 10 \/
    month = 11 \/ month = 12) as Hcases by lia. unfold days_in_month. clear Hm.
  repeat destruct Hcases as [->|Hcases]; subst; evaluate_months; rewrite days_from_civil_flat; cbv zeta; evaluate_months;
    try (destruct (is_leap year); lia); replace (year + 1 - 1) with year by lia; lia.
Qed.

Definition valid_date (year month day : Z) : Prop := 1970 <= year <= 9999 /\ 1 <= month <= 12 /\ 1 <= day <= days_in_month year month.
Definition as_number (year month day : Z) : Z := year * 10000 + month * 100 + day.

Lemma days_in_month_range year month : 28 <= days_in_month year month <= 31.
Proof. unfold days_in_month. destruct (month =? 2); [destruct (is_leap year); lia|]. destruct (_ || _); lia. Qed.

Lemma year_start_from y : 1969 <= y -> 719162 + 365 * (y - 1969) <= year_start y.
Proof.
  intros Hy. replace y with (1969 + (y - 1969)) at 2 by lia. assert (0 <= y - 1969) as Hk by lia. revert Hk. generalize (y - 1969).
  apply natlike_ind; [by vm_compute|]. intros k Hk IH. replace (1969 + Z.succ k) with (1969 + k + 1) by lia. rewrite year_start_next.
  destruct (is_leap _); lia.
Qed.

Lemma civil_range year month day : valid_date year month day -> 0 <= days_from_civil year month day <= 4000000.
Proof.
  intros (Hy & Hm & Hd). pose proof (days_in_month_range year month) as Hr. rewrite days_from_civil_flat. cbv zeta.
  pose proof (Z.mod_pos_bound (month + 9) 12 ltac:(lia)) as Hmp.
  assert (0 <= (153 * ((month + 9) mod 12) + 2) / 5 <= 337) as Hdoy.
  { split; [apply Z.div_pos; lia|]. apply Z.div_le_upper_bound; lia. }
  assert (forall y, 1969 <= y <= 9999 -> year_start y <= 365 * y + 2500) as Hup.
  { intros y H. unfold year_start. pose proof (Z.div_mod y 4 ltac:(lia)). pose proof (Z.mod_pos_bound y 4 ltac:(lia)).
    assert (y / 400 <= y / 100) by (apply Z.div_le_compat_l; lia). lia. }
  destruct (month <=? 2) eqn:E; [apply Z.leb_le in E|apply Z.leb_gt in E].
  - pose proof (year_start_from (year - 1)). specialize (Hup (year - 1)).
    assert (month = 1 \/ month = 2) as [-> | ->] by lia; evaluate_months; change ((153 * ((1 + 9) mod 12) + 2) / 5) with 306 in *; change ((153 * ((2 + 9) mod 12) + 2) / 5) with 337 in *; lia.
  - pose proof (year_start_from year). specialize (Hup year). lia.
Qed.

Lemma date_to_unix_civil year month day : valid_date year month day ->
  date_to_unix (as_number year month day) = Some (days_from_civil year month day * 86400).
Proof.
  intros Hv. pose proof (civil_range year month day Hv) as Hr. destruct Hv as (Hy & Hm & Hd). pose proof (days_in_month_range year month).
  unfold date_to_unix, as_number. set (n := year * 10000 + month * 100 + day).
  assert (n / 10000 = year) as -> by (symmetry; apply (Z.div_unique _ _ _ (month * 100 + day)); lia).
  assert (n / 100 = year * 100 + month) as -> by (symmetry; apply (Z.div_unique _ _ _ day); lia).
  assert ((year * 100 + month) mod 100 = month) as -> by (symmetry; apply (Z.mod_unique _ _ year); lia).
  assert (n mod 100 = day) as -> by (symmetry; apply (Z.mod_unique _ _ (year * 100 + month)); lia). clear n. cbv zeta.
  rewrite (proj2 (Z.leb_le 1970 _)), (proj2 (Z.leb_le _ 9999)), (proj2 (Z.leb_le 1 _)), (proj2 (Z.leb_le _ 12)) by lia.
  rewrite (proj2 (Z.ltb_ge day 1)), (proj2 (Z.ltb_ge (days_in_month _ _) _)) by lia. cbn [andb orb negb].
  unfold try_from, fits. rewrite decide_True by (unfold U64_MAX; lia). cbn [mbind option_bind]. by rewrite decide_True by (unfold U64_MAX; lia).
Qed.

Lemma next_day_valid year month day : valid_date year month day -> let '(y, m, d) := next_day year month day in y <= 9999 -> valid_date y m d.
Proof.
  intros (Hy & Hm & Hd). unfold next_day. destruct (day <? days_in_month year month) eqn:E; [apply Z.ltb_lt in E; unfold valid_date; lia|].
  unfold valid_date. destruct (month <? 12) eqn:E'; [apply Z.ltb_lt in E'; pose proof (days_in_month_range year (month + 1)); lia|].
  pose proof (days_in_month_range (year + 1) 1). lia.
Qed.

Lemma date_to_unix_next year month day : valid_date year month day -> let '(y, m, d) := next_day year month day in y <= 9999 ->
  exists s, date_to_unix (as_number year month day) = Some s /\ date_to_unix (as_number y m d) = Some (s + 86400).
Proof.
  intros Hv. pose proof (next_day_valid _ _ _ Hv) as Hn. pose proof (days_from_civil_next year month day) as Hd.
  destruct (next_day year month day) as [[y m] d]. intros Hy. eexists. split; [by apply date_to_unix_civil|].
  rewrite date_to_unix_civil by auto. destruct Hv as (_ & ? & ?). rewrite Hd by done. f_equal. lia.
Qed.

(** Every number that is read is the date it spells. *)
Lemma date_to_unix_valid n s : date_to_unix n = Some s ->
  exists year month day, valid_date year month day /\ n = as_number year month day /\ s = days_from_civil year month day * 86400.
Proof.
  unfold date_to_unix. cbv zeta. destruct (_ || _) eqn:E1; [done|]. destruct (_ || _) eqn:E2 at 1; [done|]. intros (d & Hd & H)%bind_Some.
  exists (n / 10000), ((n / 100) mod 100), (n mod 100). apply orb_false_iff in E1 as [E1 E3], E2 as [E2 E4].
  apply negb_false_iff, andb_true_iff in E1 as [?%Z.leb_le ?%Z.leb_le], E3 as [?%Z.leb_le ?%Z.leb_le]. apply Z.ltb_ge in E2, E4. split; [done|].
  split; [|unfold try_from, fits in *; repeat case_decide; naive_solver].
  unfold as_number. pose proof (Z.div_mod n 100 ltac:(lia)). pose proof (Z.div_mod (n / 100) 100 ltac:(lia)) as E.
  rewrite Z.div_div in E by lia. change (100 * 100) with 10000 in E. lia.
Qed.
