(* ===== verification/Manifest.v ===== *)
(** * The update manifest (px-update/src/manifest.rs)

    The bounded, canonical text format of releases and key rotations.  The
    parser accepts a document exactly when it is the encoding of a valid
    manifest, which is the one it returns. *)
From S2P Require Import Prelude Bytes OrdMap Text Chars Words UpdateText.
From Stdlib Require Import Sorting.Sorted.
Local Open Scope Z_scope.

Definition FORMAT_VERSION : Z := 1.
Definition MAX_MANIFEST_BYTES : nat := 16 * 1024.
Definition MAX_LINES : nat := 64.
Definition MAX_LINE_BYTES : nat := 512.
Definition MAX_ARTIFACTS : nat := 16.
Definition MAX_KEYS : nat := 8.
Definition MAX_ARTIFACT_SIZE : Z := 2 ^ 30.
Definition MAX_DATA_SIZE : Z := Z.shiftl 64 20.
Definition MAX_VALIDITY_SECS : Z := 90 * 86400.
Definition MAX_PATH_BYTES : nat := 128.

(** Errors are the text that names the rule. *)
Definition ParseError : Type := string.
Definition err {A} (why : string) : result ParseError A := Err why.

Inductive DataKind := Psl | Hsts | Roots.
#[export] Instance data_kind_eq_dec : EqDecision DataKind.
Proof. solve_decision. Defined.

Definition ALL : list DataKind := [Psl; Hsts; Roots].
Definition kind_name (k : DataKind) : list byte :=
  match k with Psl => lit "psl" | Hsts => lit "hsts" | Roots => lit "roots" end.
Definition parse_kind (s : list byte) : option DataKind := List.find (fun k => bool_decide (kind_name k = s)) ALL.
(** Declaration order. *)
Definition kind_rank (k : DataKind) : Z := match k with Psl => 0 | Hsts => 1 | Roots => 2 end.

Record FileRef := mkFile { size : Z; sha256 : list byte; sha512 : list byte; path : list byte }.
Record Artifact := mkArtifact { platform : list byte; a_file : FileRef }.
Record DataEntry := mkData { kind : DataKind; d_version : Z; d_file : FileRef }.
Record Release := mkRelease {
  channel : list byte; key_epoch : Z; sequence : Z; issued : Z; expires : Z; version : Version;
  artifacts : list Artifact; data : list DataEntry }.
Record Rotation := mkRotation { r_key_epoch : Z; r_issued : Z; r_expires : Z; threshold : Z; keys : list (list byte) }.
Inductive Manifest := MRelease (r : Release) | MRotation (r : Rotation).

(** ** Fields *)
Definition dec_u64 (v : list byte) : result ParseError Z :=
  if negb (canonical_digits 20 v) then err "number is not a canonical decimal"
  else if leading_zero v then err "number has a leading zero"
  else ok_or (parse_uint 10 U64_MAX v) "number out of range"%string.

Definition dec_u32 (v : list byte) : result ParseError Z :=
  n ← dec_u64 v; ok_or (try_from U32_MAX n) "number out of range"%string.

Definition is_lower (b : byte) : bool := in_range 97 122 b.
Definition is_upper (b : byte) : bool := in_range 65 90 b.
Definition DASH : byte := "-"%byte.
Definition UNDERSCORE : byte := "_"%byte.
Definition SLASH : byte := "/"%byte.

Definition token_char (b : byte) : bool := is_lower b || is_digit b || bool_decide (b = DASH) || bool_decide (b = UNDERSCORE).
Definition is_token (s : list byte) (max : nat) : bool := negb (bool_decide (s = [])) && (length s <=? max)%nat && forallb token_char s.

Definition path_char (b : byte) : bool :=
  is_lower b || is_upper b || is_digit b || bool_decide (b = DOT) || bool_decide (b = UNDERSCORE) || bool_decide (b = SLASH) || bool_decide (b = DASH).
(** A segment that is neither empty nor hidden. *)
Definition plain_segment (seg : list byte) : bool := negb (bool_decide (seg = [])) && negb (bool_decide (head seg = Some DOT)).
Definition valid_path (p : list byte) : bool :=
  negb (bool_decide (p = [])) && (length p <=? MAX_PATH_BYTES)%nat && forallb path_char p && forallb plain_segment (split_on SLASH p).

Definition file_ref (size sha256 sha512 path : list byte) (cap : Z) : result ParseError FileRef :=
  size ← dec_u64 size;
  if (size =? 0) || (cap <? size) then err "file size is zero or above the cap"
  else
    sha256 ← ok_or (Hex.decode_fixed 32 sha256) "sha256 is not 64 lowercase hex characters"%string;
    sha512 ← ok_or (Hex.decode_fixed 64 sha512) "sha512 is not 128 lowercase hex characters"%string;
    if negb (valid_path path) then err "path is not a plain relative path"
    else Ok (mkFile size sha256 sha512 path).

(** ** Lines *)
Definition record : Type := list byte * list byte.
Record Lines := mkLines { rest : list record; peeked : option record }.

Definition peek (ls : Lines) : option record * Lines :=
  match peeked ls with
  | Some r => (Some r, ls)
  | None => let ls := mkLines (tail (rest ls)) (head (rest ls)) in (peeked ls, ls)
  end.
Definition next (ls : Lines) : option record * Lines :=
  let '(_, ls) := peek ls in (peeked ls, mkLines (rest ls) None).
Definition expect (key : list byte) (ls : Lines) : result ParseError (list byte * Lines) :=
  let '(r, ls) := next ls in
  match r with
  | Some (k, v) => if bool_decide (k = key) then Ok (v, ls) else err "a required field is missing or out of order"
  | None => err "a required field is missing or out of order"
  end.

(** The records still to come. *)
Definition pending (ls : Lines) : list record := match peeked ls with Some r => r :: rest ls | None => rest ls end.

Definition validity (issued expires : Z) : result ParseError unit :=
  if (issued =? 0) || (expires <=? issued) then err "expires must be after issued"
  else if MAX_VALIDITY_SECS <? expires - issued then err "validity window exceeds 90 days"
  else Ok tt.

(** Is the last element not below this one? *)
Definition not_ascending {A} `{Ord K} (f : A -> K) (l : list A) (k : K) : bool :=
  match last l with Some p => bool_decide (cmp (f p) k <> Lt) | None => false end.

Fixpoint artifact_loop (fuel : nat) (artifacts : list Artifact) (ls : Lines) : result ParseError (list Artifact * Lines) :=
  match fuel with
  | O => Ok (artifacts, ls)
  | S fuel =>
      let '(p, ls) := peek ls in
      if bool_decide (fst <$> p = Some (lit "artifact")) then
        let '(r, ls) := next ls in
        match r with
        | None => Ok (artifacts, ls)
        | Some (_, v) =>
            if (MAX_ARTIFACTS <=? length artifacts)%nat then err "too many artifacts"
            else
              match split_on x20 v with
              | [platform_; size; s256; s512; path] =>
                  if negb (is_token platform_ 32) then err "platform is not a short lowercase token"
                  else if not_ascending platform artifacts platform_ then err "artifacts are not in strictly ascending platform order"
                  else f ← file_ref size s256 s512 path MAX_ARTIFACT_SIZE; artifact_loop fuel (artifacts ++ [mkArtifact platform_ f]) ls
              | _ => err "artifact needs platform size sha256 sha512 path"
              end
        end
      else Ok (artifacts, ls)
  end.

Fixpoint data_loop (fuel : nat) (data : list DataEntry) (ls : Lines) : result ParseError (list DataEntry * Lines) :=
  match fuel with
  | O => Ok (data, ls)
  | S fuel =>
      let '(p, ls) := peek ls in
      if bool_decide (fst <$> p = Some (lit "data")) then
        let '(r, ls) := next ls in
        match r with
        | None => Ok (data, ls)
        | Some (_, v) =>
            match split_on x20 v with
            | [kind_; version; size; s256; s512; path] =>
                match parse_kind kind_ with
                | None => err "unknown data kind"
                | Some kind_ =>
                    if not_ascending (fun d => kind_rank (kind d)) data (kind_rank kind_) then err "data entries are not in strictly ascending kind order"
                    else
                      version ← dec_u32 version;
                      if bool_decide (date_to_unix version = None) then err "data version is not a YYYYMMDD date"
                      else f ← file_ref size s256 s512 path MAX_DATA_SIZE; data_loop fuel (data ++ [mkData kind_ version f]) ls
                end
            | _ => err "data needs kind version size sha256 sha512 path"
            end
        end
      else Ok (data, ls)
  end.

Fixpoint key_loop (fuel : nat) (keys : list (list byte)) (ls : Lines) : result ParseError (list (list byte) * Lines) :=
  match fuel with
  | O => Ok (keys, ls)
  | S fuel =>
      let '(p, ls) := peek ls in
      if bool_decide (fst <$> p = Some (lit "key")) then
        let '(r, ls) := next ls in
        match r with
        | None => Ok (keys, ls)
        | Some (_, v) =>
            if (MAX_KEYS <=? length keys)%nat then err "too many keys"
            else
              k ← ok_or (Hex.decode_fixed 32 v) "key is not 64 lowercase hex characters"%string;
              if not_ascending id keys k then err "keys are not in strictly ascending order" else key_loop fuel (keys ++ [k]) ls
        end
      else Ok (keys, ls)
  end.

(** Every turn of a loop takes a record. *)
Definition loop_fuel (ls : Lines) : nat := S (length (pending ls)).

Definition parse_release (ls : Lines) : result ParseError (Release * Lines) :=
  '(channel, ls) ← expect (lit "channel") ls;
  if negb (is_token channel 16) then err "channel is not a short lowercase token"
  else
    '(v, ls) ← expect (lit "key-epoch") ls; key_epoch ← dec_u32 v;
    '(v, ls) ← expect (lit "sequence") ls; sequence ← dec_u64 v;
    '(v, ls) ← expect (lit "issued") ls; issued ← dec_u64 v;
    '(v, ls) ← expect (lit "expires") ls; expires ← dec_u64 v;
    '(v, ls) ← expect (lit "version") ls; version ← ok_or (parse_version v) "version is not MAJOR.MINOR.PATCH"%string;
    if (key_epoch =? 0) || (sequence =? 0) then err "key-epoch and sequence start at 1"
    else
      _ ← validity issued expires;
      '(artifacts, ls) ← artifact_loop (loop_fuel ls) [] ls;
      '(data, ls) ← data_loop (loop_fuel ls) [] ls;
      Ok (mkRelease channel key_epoch sequence issued expires version artifacts data, ls).

Definition parse_rotation (ls : Lines) : result ParseError (Rotation * Lines) :=
  '(v, ls) ← expect (lit "key-epoch") ls; key_epoch ← dec_u32 v;
  '(v, ls) ← expect (lit "issued") ls; issued ← dec_u64 v;
  '(v, ls) ← expect (lit "expires") ls; expires ← dec_u64 v;
  '(v, ls) ← expect (lit "threshold") ls; threshold ← dec_u32 v;
  if key_epoch <? 2 then err "a rotation creates epoch 2 or later"
  else
    _ ← validity issued expires;
    '(keys, ls) ← key_loop (loop_fuel ls) [] ls;
    threshold ← ok_or (try_from 255 threshold) "threshold out of range"%string;
    if bool_decide (keys = []) || (threshold =? 0) || (len keys <? threshold) then err "threshold must be between 1 and the number of keys"
    else Ok (mkRotation key_epoch issued expires threshold keys, ls).

(** ** Encoding *)
Definition line (k v : list byte) : list byte := k ++ x20 :: v ++ [NEWLINE].
Definition SP : list byte := [x20].

Definition file_fields (f : FileRef) : list byte :=
  decimal (size f) ++ SP ++ Hex.encode (sha256 f) ++ SP ++ Hex.encode (sha512 f) ++ SP ++ path f.

Definition encode (m : Manifest) : list byte :=
  line (lit "manifest-format") (decimal FORMAT_VERSION) ++
  match m with
  | MRelease r =>
      line (lit "type") (lit "release") ++ line (lit "channel") (channel r) ++ line (lit "key-epoch") (decimal (key_epoch r)) ++
      line (lit "sequence") (decimal (sequence r)) ++ line (lit "issued") (decimal (issued r)) ++ line (lit "expires") (decimal (expires r)) ++
      line (lit "version") (show_version (version r)) ++
      flat_map (fun a => line (lit "artifact") (platform a ++ SP ++ file_fields (a_file a))) (artifacts r) ++
      flat_map (fun d => line (lit "data") (kind_name (kind d) ++ SP ++ decimal (d_version d) ++ SP ++ file_fields (d_file d))) (data r)
  | MRotation r =>
      line (lit "type") (lit "rotation") ++ line (lit "key-epoch") (decimal (r_key_epoch r)) ++ line (lit "issued") (decimal (r_issued r)) ++
      line (lit "expires") (decimal (r_expires r)) ++ line (lit "threshold") (decimal (threshold r)) ++
      flat_map (fun k => line (lit "key") (Hex.encode k)) (keys r)
  end.

(** ** Parsing *)
Definition printable (b : byte) : bool := bool_decide (b = NEWLINE) || in_range 0x20 0x7e b.

Fixpoint read_records (recs : list record) (lines : list (list byte)) : result ParseError (list record) :=
  match lines with
  | [] => Ok recs
  | l :: lines =>
      if (MAX_LINES <=? length recs)%nat then err "too many lines"
      else if (MAX_LINE_BYTES <? length l)%nat then err "line too long"
      else match split_once x20 l with
           | None => err "line is not `key value`"
           | Some (k, v) => if bool_decide (k = []) || bool_decide (v = []) then err "empty key or value" else read_records (recs ++ [(k, v)]) lines
           end
  end.

Definition parse (bytes : list byte) : result ParseError Manifest :=
  if bool_decide (bytes = []) then err "empty"
  else if (MAX_MANIFEST_BYTES <? length bytes)%nat then err "larger than the manifest size cap"
  else if negb (forallb printable bytes) then err "byte outside printable ASCII and LF"
  else if negb (is_utf8 bytes) then err "not ASCII"
  else
    body ← ok_or (strip_suffix [NEWLINE] bytes) "no final newline"%string;
    recs ← read_records [] (split_on NEWLINE body);
    '(v, ls) ← expect (lit "manifest-format") (mkLines recs None);
    if negb (bool_decide (v = decimal FORMAT_VERSION)) then err "unsupported manifest format version"
    else
      '(t, ls) ← expect (lit "type") ls;
      '(manifest, ls) ←
        (if bool_decide (t = lit "release") then '(r, ls) ← parse_release ls; Ok (MRelease r, ls)
         else if bool_decide (t = lit "rotation") then '(r, ls) ← parse_rotation ls; Ok (MRotation r, ls)
         else err "unknown manifest type");
      if bool_decide (fst (next ls) <> None) then err "unexpected trailing field"
      else if negb (bool_decide (encode manifest = bytes)) then err "not the canonical encoding"
      else Ok manifest.
