(* ===== verification/ManifestProps.v ===== *)
(** * What the manifest parser accepts

    The documents accepted are the encodings of the valid manifests, each read
    back as the manifest it encodes. *)
From S2P Require Import Prelude Bytes OrdMap Text Chars Words UpdateText Manifest.
From Stdlib Require Import Sorting.Sorted.
Local Open Scope Z_scope.

(** ** Valid manifests *)
Definition ascending {A K} `{Ord K} (f : A -> K) (l : list A) : Prop := StronglySorted (fun a b => cmp (f a) (f b) = Lt) l.

Definition file_ok (cap : Z) (f : FileRef) : Prop :=
  0 < size f <= cap /\ length (sha256 f) = 32%nat /\ length (sha512 f) = 64%nat /\ valid_path (path f) = true.
Definition window_ok (issued expires : Z) : Prop := 0 < issued < expires /\ expires <= U64_MAX /\ expires - issued <= MAX_VALIDITY_SECS.
Definition artifact_ok (a : Artifact) : Prop := is_token (platform a) 32 = true /\ file_ok MAX_ARTIFACT_SIZE (a_file a).
Definition data_ok (d : DataEntry) : Prop := 0 <= d_version d <= U32_MAX /\ is_Some (date_to_unix (d_version d)) /\ file_ok MAX_DATA_SIZE (d_file d).

Definition release_ok (r : Release) : Prop :=
  is_token (channel r) 16 = true /\ 0 < key_epoch r <= U32_MAX /\ 0 < sequence r <= U64_MAX /\ window_ok (issued r) (expires r) /\
  version_ok (version r) /\ (length (artifacts r) <= MAX_ARTIFACTS)%nat /\ Forall artifact_ok (artifacts r) /\ ascending platform (artifacts r) /\
  Forall data_ok (data r) /\ ascending (fun d => kind_rank (kind d)) (data r).

Definition rotation_ok (r : Rotation) : Prop :=
  2 <= r_key_epoch r <= U32_MAX /\ window_ok (r_issued r) (r_expires r) /\ 0 < threshold r <= len (keys r) /\
  (length (keys r) <= MAX_KEYS)%nat /\ Forall (fun k => length k = 32%nat) (keys r) /\ ascending id (keys r).

Definition valid (m : Manifest) : Prop := match m with MRelease r => release_ok r | MRotation r => rotation_ok r end.

(** ** Numbers and files *)
Lemma dec_u64_spec v n : dec_u64 v = Ok n <-> decimal n = v /\ 0 <= n <= U64_MAX.
Proof.
  unfold dec_u64. split.
  - destruct (canonical_digits 20 v) eqn:Ec; [|done]. destruct (leading_zero v) eqn:Ez; [done|]. cbn [negb]. intros H%ok_or_Ok.
    apply (parse_digits_canonical 20 U64_MAX v n Ec Ez) in H; [done|lia|done].
  - intros [<- Hn]. destruct (decimal_canonical n 19) as [E1 E2]; [done|lia|unfold U64_MAX in Hn; lia|].
    change (Z.to_nat (19 + 1)) with 20%nat in E1. rewrite E1, E2. cbn [negb]. apply ok_or_Ok. by apply parse_decimal_uint.
Qed.

Lemma try_from_spec max n m : try_from max n = Some m <-> m = n /\ 0 <= n <= max.
Proof. unfold try_from. case_decide; naive_solver. Qed.

Lemma dec_u32_spec v n : dec_u32 v = Ok n <-> decimal n = v /\ 0 <= n <= U32_MAX.
Proof.
  unfold dec_u32. split.
  - intros (m & Hm%dec_u64_spec & H%ok_or_Ok%try_from_spec)%bind_Ok. destruct H as [-> H]. by destruct Hm.
  - intros [E Hn]. rewrite (proj2 (dec_u64_spec v n)); [|unfold U32_MAX, U64_MAX in *; split; [done|lia]]. cbn [mbind result_bind].
    apply ok_or_Ok. by apply try_from_spec.
Qed.

Lemma file_ref_spec s s256 s512 p cap f : cap <= U64_MAX ->
  (file_ref s s256 s512 p cap = Ok f <->
   file_ok cap f /\ s = decimal (size f) /\ s256 = Hex.encode (sha256 f) /\ s512 = Hex.encode (sha512 f) /\ p = path f).
Proof.
  intros Hcap. unfold file_ref. split.
  - intros (n & [<- Hn]%dec_u64_spec & H)%bind_Ok. destruct ((n =? 0) || (cap <? n)) eqn:E; [done|]. apply orb_false_iff in E as [E1 E2].
    apply bind_Ok in H as (h1 & H1%ok_or_Ok%Hex.encode_decode & H). apply bind_Ok in H as (h2 & H2%ok_or_Ok%Hex.encode_decode & H).
    destruct (valid_path p) eqn:Ep; [|done]. injection H as <-. destruct H1 as [<- ?], H2 as [<- ?]. unfold file_ok. cbn [size sha256 sha512 path].
    apply Z.eqb_neq in E1. apply Z.ltb_ge in E2. split_and!; (done || lia).
  - intros ((Hs & H1 & H2 & Hp) & -> & -> & -> & ->). rewrite (proj2 (dec_u64_spec (decimal (size f)) (size f))) by (split; [done|lia]). cbn [mbind result_bind].
    rewrite (proj2 (Z.eqb_neq _ _)), (proj2 (Z.ltb_ge _ _)) by lia. cbn [orb].
    pose proof (Hex.decode_encode (sha256 f)) as D1. pose proof (Hex.decode_encode (sha512 f)) as D2. rewrite H1 in D1. rewrite H2 in D2.
    rewrite D1, D2. cbn [ok_or mbind result_bind].
    rewrite Hp. by destruct f.
Qed.

(** ** Lines *)
Lemma peek_spec ls : (peek ls).1 = head (pending ls) /\ pending (peek ls).2 = pending ls.
Proof. unfold peek, pending. destruct ls as [rs [r|]]; cbn [peeked rest]; [done|]. by destruct rs. Qed.

Lemma next_spec ls : (next ls).1 = head (pending ls) /\ pending (next ls).2 = tail (pending ls).
Proof. unfold next, peek, pending. destruct ls as [rs [r|]]; cbn [peeked rest]; [done|]. by destruct rs. Qed.

Lemma expect_Ok key ls v ls' : expect key ls = Ok (v, ls') -> pending ls = (key, v) :: pending ls'.
Proof.
  unfold expect. destruct (next_spec ls) as [H1 H2]. destruct (next ls) as [r ls1]. cbn [fst snd] in *. subst r.
  destruct (pending ls) as [|[k w] rs]; [done|]. cbn [head]. case_bool_decide as E; [|done]. intros [= -> ->]. by rewrite E, H2.
Qed.

Lemma expect_next key ls v rs : pending ls = (key, v) :: rs -> exists ls', expect key ls = Ok (v, ls') /\ pending ls' = rs.
Proof.
  intros Hp. unfold expect. destruct (next_spec ls) as [H1 H2]. destruct (next ls) as [r ls1]. cbn [fst snd] in *. subst r.
  rewrite Hp in *. cbn [head tail] in *. rewrite bool_decide_eq_true_2 by done. by exists ls1.
Qed.

(** ** The three loops

    Each adds an element for every record of its key, up to the first other. *)
Section loops.
Context {A : Type} (key : list byte) (body : list A -> list byte -> result ParseError A).

(** The common shape: [body] reads one value after those already read. *)
Fixpoint loop (fuel : nat) (acc : list A) (ls : Lines) : result ParseError (list A * Lines) :=
  match fuel with
  | O => Ok (acc, ls)
  | S fuel =>
      let '(p, ls) := peek ls in
      if bool_decide (fst <$> p = Some key) then
        let '(r, ls) := next ls in
        match r with None => Ok (acc, ls) | Some (_, v) => a ← body acc v; loop fuel (acc ++ [a]) ls end
      else Ok (acc, ls)
  end.

Context (good : list A -> Prop) (show : A -> list byte).
Context (body_spec : forall acc v a, good acc -> (body acc v = Ok a <-> good (acc ++ [a]) /\ v = show a)).
Context (good_prefix : forall l k, good (l ++ k) -> good l).

Lemma loop_sound fuel acc ls l ls' : good acc -> loop fuel acc ls = Ok (l, ls') -> good l.
Proof.
  revert acc ls. induction fuel as [|fuel IH]; intros acc ls Hg; cbn [loop]; [by intros [= <- <-]|].
  destruct (peek ls) as [p ls1]. case_bool_decide as Hk; [|by intros [= <- <-]]. destruct (next ls1) as [[[k v]|] ls2]; [|by intros [= <- <-]].
  intros (a & Ha & H)%bind_Ok. apply (body_spec acc v a Hg) in Ha as [Ha _]. by apply IH in H.
Qed.

Lemma loop_complete fuel acc ls l rs : good (acc ++ l) -> pending ls = map (fun a => (key, show a)) l ++ rs ->
  fst <$> head rs <> Some key -> (length l < fuel)%nat -> exists ls', loop fuel acc ls = Ok (acc ++ l, ls') /\ pending ls' = rs.
Proof.
  intros Hg Hp Hrs. revert acc ls l Hg Hp. induction fuel as [|fuel IH]; intros acc ls l Hg Hp Hf; [lia|]. cbn [loop].
  destruct (peek_spec ls) as [H1 H2]. destruct (peek ls) as [p ls1]. cbn [fst snd] in *. subst p. rewrite Hp in *.
  destruct l as [|a l]; cbn [map app] in *.
  - rewrite bool_decide_eq_false_2 by done. exists ls1. by rewrite app_nil_r.
  - cbn [head fmap option_fmap option_map fst]. rewrite bool_decide_eq_true_2 by done.
    destruct (next_spec ls1) as [H3 H4]. destruct (next ls1) as [r ls2]. cbn [fst snd] in *. subst r. rewrite H2 in *. cbn [head tail] in *.
    rewrite (proj2 (body_spec acc (show a) a (good_prefix _ _ Hg))).
    + cbn [mbind result_bind]. destruct (IH (acc ++ [a]) ls2 l) as (ls' & E & Hp'); [by rewrite <- app_assoc|done|simpl in Hf; lia|].
      exists ls'. by rewrite E, <- app_assoc.
    + split; [|done]. apply (good_prefix _ l). by rewrite <- app_assoc.
Qed.
End loops.

Definition artifact_body (acc : list Artifact) (v : list byte) : result ParseError Artifact :=
  if (MAX_ARTIFACTS <=? length acc)%nat then err "too many artifacts"
  else match split_on x20 v with
       | [platform_; size; s256; s512; path] =>
           if negb (is_token platform_ 32) then err "platform is not a short lowercase token"
           else if not_ascending platform acc platform_ then err "artifacts are not in strictly ascending platform order"
           else f ← file_ref size s256 s512 path MAX_ARTIFACT_SIZE; Ok (mkArtifact platform_ f)
       | _ => err "artifact needs platform size sha256 sha512 path"
       end.

Definition data_body (acc : list DataEntry) (v : list byte) : result ParseError DataEntry :=
  match split_on x20 v with
  | [kind_; version; size; s256; s512; path] =>
      match parse_kind kind_ with
      | None => err "unknown data kind"
      | Some kind_ =>
          if not_ascending (fun d => kind_rank (kind d)) acc (kind_rank kind_) then err "data entries are not in strictly ascending kind order"
          else
            version ← dec_u32 version;
            if bool_decide (date_to_unix version = None) then err "data version is not a YYYYMMDD date"
            else f ← file_ref size s256 s512 path MAX_DATA_SIZE; Ok (mkData kind_ version f)
      end
  | _ => err "data needs kind version size sha256 sha512 path"
  end.

Definition key_body (acc : list (list byte)) (v : list byte) : result ParseError (list byte) :=
  if (MAX_KEYS <=? length acc)%nat then err "too many keys"
  else
    k ← ok_or (Hex.decode_fixed 32 v) "key is not 64 lowercase hex characters"%string;
    if not_ascending id acc k then err "keys are not in strictly ascending order" else Ok k.

Lemma artifact_loop_eq fuel acc ls : artifact_loop fuel acc ls = loop (lit "artifact") artifact_body fuel acc ls.
Proof.
  revert acc ls. induction fuel as [|fuel IH]; intros acc ls; [done|]. cbn [artifact_loop loop]. destruct (peek ls) as [p ls1].
  case_bool_decide; [|done]. destruct (next ls1) as [[[k v]|] ls2]; [|done]. unfold artifact_body. destruct (_ <=? _)%nat; [done|].
  destruct (split_on x20 v) as [|a [|b [|c [|d [|e [|]]]]]]; try done. destruct (negb _); [done|]. destruct (not_ascending _ _ _); [done|].
  destruct (file_ref _ _ _ _ _); [|done]. cbn [mbind result_bind]. apply IH.
Qed.

Lemma data_loop_eq fuel acc ls : data_loop fuel acc ls = loop (lit "data") data_body fuel acc ls.
Proof.
  revert acc ls. induction fuel as [|fuel IH]; intros acc ls; [done|]. cbn [data_loop loop]. destruct (peek ls) as [p ls1].
  case_bool_decide; [|done]. destruct (next ls1) as [[[k v]|] ls2]; [|done]. unfold data_body.
  destruct (split_on x20 v) as [|a [|b [|c [|d [|e [|f [|]]]]]]]; try done. destruct (parse_kind a); [|done]. destruct (not_ascending _ _ _); [done|].
  destruct (dec_u32 b); [|done]. cbn [mbind result_bind]. destruct (bool_decide _); [done|].
  destruct (file_ref _ _ _ _ _); [|done]. cbn [mbind result_bind]. apply IH.
Qed.

Lemma key_loop_eq fuel acc ls : key_loop fuel acc ls = loop (lit "key") key_body fuel acc ls.
Proof.
  revert acc ls. induction fuel as [|fuel IH]; intros acc ls; [done|]. cbn [key_loop loop]. destruct (peek ls) as [p ls1].
  case_bool_decide; [|done]. destruct (next ls1) as [[[k v]|] ls2]; [|done]. unfold key_body. destruct (_ <=? _)%nat; [done|].
  destruct (ok_or _ _); [|done]. cbn [mbind result_bind]. destruct (not_ascending _ _ _); [done|]. apply IH.
Qed.

(** What the bodies read. *)
Definition artifacts_good (l : list Artifact) : Prop := (length l <= MAX_ARTIFACTS)%nat /\ Forall artifact_ok l /\ ascending platform l.
Definition data_good (l : list DataEntry) : Prop := Forall data_ok l /\ ascending (fun d => kind_rank (kind d)) l.
Definition keys_good (l : list (list byte)) : Prop := (length l <= MAX_KEYS)%nat /\ Forall (fun k => length k = 32%nat) l /\ ascending id l.

Section ascending.
Context {A K : Type} `{Ord K} (f : A -> K).

Lemma ascending_prefix l k : ascending f (l ++ k) -> ascending f l.
Proof.
  unfold ascending. induction l as [|a l IH]; [constructor|]. cbn [app]. intros [Hs Hf]%StronglySorted_inv. constructor; [by apply IH|].
  by apply Forall_app in Hf as [? _].
Qed.

Lemma ascending_snoc l a : ascending f l -> (ascending f (l ++ [a]) <-> not_ascending f l (f a) = false).
Proof.
  unfold not_ascending. intros Hl. destruct l as [|b l _] using rev_ind; [cbn; split; [done|]; intros _; repeat constructor|].
  rewrite last_snoc, bool_decide_eq_false. split.
  - intros Hs Hc. apply Hc. clear Hc Hl. induction l as [|c l IH]; cbn [app] in Hs; apply StronglySorted_inv in Hs as [Hs Hf]; [|by apply IH].
    by apply Forall_cons in Hf as [? _].
  - intros Hba. assert (cmp (f b) (f a) = Lt) as E by (destruct (cmp (f b) (f a)); [by destruct Hba|done|by destruct Hba]). clear Hba.
    induction l as [|c l IH]; cbn [app] in *; [repeat constructor; done|]. apply StronglySorted_inv in Hl as [Hl Hf]. constructor; [by apply IH|].
    rewrite Forall_app in Hf |- *. destruct Hf as [Hf Hb]. rewrite Forall_app. split; [done|]. apply Forall_cons in Hb as [Hb _]. repeat constructor.
    by eapply cmp_trans.
Qed.
End ascending.

Definition show_artifact (a : Artifact) : list byte := platform a ++ SP ++ file_fields (a_file a).
Definition show_data (d : DataEntry) : list byte := kind_name (kind d) ++ SP ++ decimal (d_version d) ++ SP ++ file_fields (d_file d).

(** Values hold no blank, so that splitting at blanks finds the fields. *)
Lemma forallb_word (g : byte -> bool) l : (forall b, g b = true -> b <> x20) -> forallb g l = true -> x20 ∉ l.
Proof. intros Hg Hl Hin. rewrite forallb_true, Forall_forall in Hl. apply Hl in Hin. by apply Hg in Hin. Qed.

Lemma decimal_word z : x20 ∉ decimal z.
Proof. intros H. destruct (decimal_digits z) as [Hd _]. rewrite Forall_forall in Hd. by apply Hd in H. Qed.

Lemma hex_digit_range n : is_hex (Hex.digit n) = true.
Proof.
  unfold Hex.digit. destruct (Hex.DIGITS !! Z.to_nat n) as [b|] eqn:E; [|done]. apply list_elem_of_lookup_2 in E.
  revert b E. apply Forall_forall. repeat (constructor; [by vm_compute|]). constructor.
Qed.

Lemma hex_encode_hex l : Forall (fun b => is_hex b = true) (Hex.encode l).
Proof. unfold Hex.encode. induction l as [|b l IH]; [constructor|]. cbn [flat_map app]. repeat constructor; [apply hex_digit_range..|done]. Qed.

Lemma hex_word l : x20 ∉ Hex.encode l.
Proof. intros H. pose proof (hex_encode_hex l) as Hh. rewrite Forall_forall in Hh. by apply Hh in H. Qed.

Lemma token_chars s max : is_token s max = true -> s <> [] /\ (length s <= max)%nat /\ Forall (fun b => token_char b = true) s.
Proof.
  unfold is_token. intros [[Hn%negb_true_iff%bool_decide_eq_false Hl%Nat.leb_le]%andb_true_iff Hf%forallb_true]%andb_true_iff. done.
Qed.

Lemma token_word s max : is_token s max = true -> x20 ∉ s.
Proof. intros (_ & _ & Hf)%token_chars Hin. rewrite Forall_forall in Hf. by apply Hf in Hin. Qed.

Lemma path_chars p : valid_path p = true -> p <> [] /\ (length p <= MAX_PATH_BYTES)%nat /\ Forall (fun b => path_char b = true) p.
Proof.
  unfold valid_path. intros [[[Hn%negb_true_iff%bool_decide_eq_false Hl%Nat.leb_le]%andb_true_iff Hf%forallb_true]%andb_true_iff _]%andb_true_iff. done.
Qed.

Lemma path_word p : valid_path p = true -> x20 ∉ p.
Proof. intros (_ & _ & Hf)%path_chars Hin. rewrite Forall_forall in Hf. by apply Hf in Hin. Qed.

Lemma kind_word k : x20 ∉ kind_name k.
Proof. intros H. assert (Forall (fun b => is_lower b = true) (kind_name k)) as Hk by (destruct k; repeat constructor). rewrite Forall_forall in Hk. by apply Hk in H. Qed.

Lemma split_file f cap : file_ok cap f ->
  split_on x20 (file_fields f) = [decimal (size f); Hex.encode (sha256 f); Hex.encode (sha512 f); path f].
Proof.
  intros (_ & _ & _ & Hp). unfold file_fields, SP. cbn [app]. rewrite !split_on_app by (apply decimal_word || apply hex_word).
  by rewrite split_on_single by (by apply path_word).
Qed.

Lemma parse_kind_spec s k : parse_kind s = Some k <-> s = kind_name k.
Proof.
  unfold parse_kind, ALL. cbn [List.find]. repeat case_bool_decide; subst; split; intros E; try (by injection E as <-); try done; try (destruct k; try done).
Qed.

Lemma split_pieces v ps : split_on x20 v = ps -> v = join_with x20 ps.
Proof. intros <-. by rewrite join_split. Qed.

Lemma artifact_body_spec acc v a : artifacts_good acc -> (artifact_body acc v = Ok a <-> artifacts_good (acc ++ [a]) /\ v = show_artifact a).
Proof.
  intros (Hl & Hf & Hs). unfold artifact_body, artifacts_good. rewrite length_app, Forall_app, Forall_singleton. cbn [length]. split.
  - destruct (MAX_ARTIFACTS <=? length acc)%nat eqn:El; [done|]. apply Nat.leb_gt in El.
    destruct (split_on x20 v) as [|p [|s [|h1 [|h2 [|q [|]]]]]] eqn:Ev; try done. destruct (is_token p 32) eqn:Et; [|done]. cbn [negb].
    destruct (not_ascending platform acc p) eqn:Ea; [done|]. intros (f & (Hok & -> & -> & -> & ->)%file_ref_spec & [= <-])%bind_Ok; [|done].
    apply split_pieces in Ev. split; [|exact Ev]. split_and!; [lia|done|done|]. by apply ascending_snoc.
  - intros ((Hl' & (_ & Ht & Hok) & Hs') & ->). rewrite (proj2 (Nat.leb_gt _ _)) by lia. unfold show_artifact, SP. cbn [app].
    rewrite split_on_app by (by eapply token_word). rewrite (split_file _ _ Hok), Ht. cbn [negb]. rewrite (proj1 (ascending_snoc platform acc a Hs) Hs').
    rewrite (proj2 (file_ref_spec _ _ _ _ MAX_ARTIFACT_SIZE (a_file a) ltac:(done))) by done. cbn [mbind result_bind]. by destruct a.
Qed.

Lemma data_body_spec acc v d : data_good acc -> (data_body acc v = Ok d <-> data_good (acc ++ [d]) /\ v = show_data d).
Proof.
  intros (Hf & Hs). unfold data_body, data_good. rewrite Forall_app, Forall_singleton. split.
  - destruct (split_on x20 v) as [|k [|n [|s [|h1 [|h2 [|q [|]]]]]]] eqn:Ev; try done. destruct (parse_kind k) as [k'|] eqn:Ek; [|done].
    apply parse_kind_spec in Ek as ->. destruct (not_ascending _ acc _) eqn:Ea; [done|]. intros (m & [<- Hm]%dec_u32_spec & H)%bind_Ok.
    case_bool_decide as Ed; [done|]. apply bind_Ok in H as (f & (Hok & -> & -> & -> & ->)%file_ref_spec & [= <-]); [|done].
    apply split_pieces in Ev. split; [|exact Ev]. split_and!; [done| |by apply ascending_snoc].
    unfold data_ok. cbn [d_version d_file]. split_and!; [lia|lia| |done]. destruct (date_to_unix m); [by eexists|done].
  - intros (((_ & Hv & [s Hd] & Hok) & Hs') & ->). unfold show_data, SP. cbn [app].
    rewrite split_on_app by apply kind_word. rewrite split_on_app by apply decimal_word. rewrite (split_file _ _ Hok).
    rewrite (proj2 (parse_kind_spec _ (kind d))) by done. rewrite (proj1 (ascending_snoc _ acc d Hs) Hs').
    rewrite (proj2 (dec_u32_spec _ (d_version d))) by done. cbn [mbind result_bind]. rewrite bool_decide_eq_false_2 by (by rewrite Hd).
    rewrite (proj2 (file_ref_spec _ _ _ _ MAX_DATA_SIZE (d_file d) ltac:(done))) by done. cbn [mbind result_bind]. by destruct d.
Qed.

Lemma key_body_spec acc v k : keys_good acc -> (key_body acc v = Ok k <-> keys_good (acc ++ [k]) /\ v = Hex.encode k).
Proof.
  intros (Hl & Hf & Hs). unfold key_body, keys_good. rewrite length_app, Forall_app, Forall_singleton. cbn [length]. split.
  - destruct (MAX_KEYS <=? length acc)%nat eqn:El; [done|]. apply Nat.leb_gt in El. intros (h & [<- Hh]%ok_or_Ok%Hex.encode_decode & H)%bind_Ok.
    destruct (not_ascending id acc h) eqn:Ea; [done|]. injection H as <-. split; [|done]. split_and!; [lia|done|done|]. by apply (ascending_snoc id).
  - intros ((Hl' & (_ & Hk) & Hs') & ->). rewrite (proj2 (Nat.leb_gt _ _)) by lia.
    pose proof (Hex.decode_encode k) as D. rewrite Hk in D. rewrite D. cbn [ok_or mbind result_bind].
    pose proof (proj1 (ascending_snoc id acc k Hs) Hs') as E. unfold id in E at 2. by rewrite E.
Qed.

Lemma artifacts_prefix l k : artifacts_good (l ++ k) -> artifacts_good l.
Proof. intros (H1 & H2 & H3). rewrite length_app in H1. apply Forall_app in H2 as [H2 _]. split_and!; [lia|done|by eapply ascending_prefix]. Qed.
Lemma data_prefix l k : data_good (l ++ k) -> data_good l.
Proof. intros (H2 & H3). apply Forall_app in H2 as [H2 _]. split_and!; [done|by eapply ascending_prefix]. Qed.
Lemma keys_prefix l k : keys_good (l ++ k) -> keys_good l.
Proof. intros (H1 & H2 & H3). rewrite length_app in H1. apply Forall_app in H2 as [H2 _]. split_and!; [lia|done|by eapply ascending_prefix]. Qed.

(** ** Releases and rotations *)
Lemma validity_spec i e u : 0 <= i -> e <= U64_MAX -> (validity i e = Ok u <-> window_ok i e).
Proof.
  intros Hi He. unfold validity, window_ok. destruct u. destruct (i =? 0) eqn:E1; [apply Z.eqb_eq in E1; split; [done|lia]|apply Z.eqb_neq in E1].
  destruct (e <=? i) eqn:E2; [apply Z.leb_le in E2; split; [done|lia]|apply Z.leb_gt in E2]. cbn [orb].
  destruct (MAX_VALIDITY_SECS <? e - i) eqn:E3; [apply Z.ltb_lt in E3; split; [done|lia]|apply Z.ltb_ge in E3]. split; [lia|done].
Qed.

Lemma empty_good : artifacts_good [] /\ data_good [] /\ keys_good [].
Proof. unfold artifacts_good, data_good, keys_good, MAX_ARTIFACTS, MAX_KEYS. split_and!; try constructor; simpl; lia. Qed.

(** The records of a manifest. *)
Definition numbered (k : string) (n : Z) : record := (lit k, decimal n).
Definition release_records (r : Release) : list record :=
  [(lit "channel", channel r); numbered "key-epoch" (key_epoch r); numbered "sequence" (sequence r); numbered "issued" (issued r);
   numbered "expires" (expires r); (lit "version", show_version (version r))] ++
  map (fun a => (lit "artifact", show_artifact a)) (artifacts r) ++ map (fun d => (lit "data", show_data d)) (data r).
Definition rotation_records (r : Rotation) : list record :=
  [numbered "key-epoch" (r_key_epoch r); numbered "issued" (r_issued r); numbered "expires" (r_expires r); numbered "threshold" (threshold r)] ++
  map (fun k => (lit "key", Hex.encode k)) (keys r).
Definition records (m : Manifest) : list record :=
  (lit "manifest-format", decimal FORMAT_VERSION) ::
  match m with
  | MRelease r => (lit "type", lit "release") :: release_records r
  | MRotation r => (lit "type", lit "rotation") :: rotation_records r
  end.

Lemma encode_records m : encode m = flat_map (fun r => line r.1 r.2) (records m).
Proof.
  destruct m as [r|r]; unfold encode, records, release_records, rotation_records, numbered; rewrite ?app_assoc; cbn [flat_map app fst snd];
    rewrite ?flat_map_app; cbn [flat_map app fst snd]; rewrite <- ?app_assoc; repeat f_equal; try (rewrite !flat_map_concat_map, map_map; done).
Qed.

Lemma parse_release_sound ls r ls' : parse_release ls = Ok (r, ls') -> release_ok r.
Proof.
  unfold parse_release. intros ([c ls1] & _ & H)%bind_Ok. destruct (is_token c 16) eqn:Ec; [|done]. cbn [negb] in H.
  repeat (apply bind_Ok in H as ([? ?] & _ & H); apply bind_Ok in H as (? & ?%dec_u32_spec & H)).
  repeat (apply bind_Ok in H as ([? ?] & _ & H); apply bind_Ok in H as (? & ?%dec_u64_spec & H)).
  apply bind_Ok in H as ([? ?] & _ & H). apply bind_Ok in H as (v & [_ Hv]%ok_or_Ok%parse_version_spec & H).
  destruct (_ || _) eqn:E0 in H; [done|]. apply orb_false_iff in E0 as [E1%Z.eqb_neq E2%Z.eqb_neq].
  apply bind_Ok in H as (u & Hw & H). apply validity_spec in Hw; [|lia..]. destruct empty_good as (Ga & Gd & _).
  apply bind_Ok in H as ([as_ ls2] & Ha & H). rewrite artifact_loop_eq in Ha. apply (loop_sound _ _ _ _ artifact_body_spec) in Ha as (A1 & A2 & A3); [|done].
  apply bind_Ok in H as ([ds ls3] & Hd & H). rewrite data_loop_eq in Hd. apply (loop_sound _ _ _ _ data_body_spec) in Hd as (D1 & D2); [|done].
  injection H as <- <-. unfold release_ok. cbn [channel key_epoch sequence issued expires version artifacts data]. split_and!; (done || lia).
Qed.

Lemma parse_rotation_sound ls r ls' : parse_rotation ls = Ok (r, ls') -> rotation_ok r.
Proof.
  unfold parse_rotation. intros ([? ?] & _ & H)%bind_Ok. apply bind_Ok in H as (? & ?%dec_u32_spec & H).
  do 2 (apply bind_Ok in H as ([? ?] & _ & H); apply bind_Ok in H as (? & ?%dec_u64_spec & H)).
  apply bind_Ok in H as ([? ?] & _ & H). apply bind_Ok in H as (t & ?%dec_u32_spec & H).
  destruct (_ <? 2) eqn:E2 in H; [done|]. apply Z.ltb_ge in E2. apply bind_Ok in H as (u & Hw & H). apply validity_spec in Hw; [|lia..].
  destruct empty_good as (_ & _ & Gk). apply bind_Ok in H as ([ks ls2] & Hk & H). rewrite key_loop_eq in Hk.
  apply (loop_sound _ _ _ _ key_body_spec) in Hk as (K1 & K2 & K3); [|done]. apply bind_Ok in H as (t' & [-> Ht]%ok_or_Ok%try_from_spec & H).
  destruct (_ || _) eqn:E0 in H; [done|]. apply orb_false_iff in E0 as [[_ E3%Z.eqb_neq]%orb_false_iff E4%Z.ltb_ge]. injection H as <- <-.
  unfold rotation_ok. cbn [r_key_epoch r_issued r_expires threshold keys]. split_and!; (done || lia).
Qed.

(** Run the parser on records that are there. *)
Ltac take_field :=
  match goal with
  | H : pending ?ls = (?k, ?v) :: _ |- context [expect ?k ?ls] =>
      let ls' := fresh "ls" in let E := fresh "E" in let P := fresh "P" in
      destruct (expect_next k ls v _ H) as (ls' & E & P); rewrite E; cbn [mbind result_bind]; clear E H
  end.

Lemma parse_release_complete ls r : release_ok r -> pending ls = release_records r -> exists ls', parse_release ls = Ok (r, ls') /\ pending ls' = [].
Proof.
  intros (Hc & Hk & Hs & Hw & Hv & A1 & A2 & A3 & D1 & D2) Hp. unfold parse_release. unfold release_records, numbered in Hp. cbn [app] in Hp.
  take_field. rewrite Hc. cbn [negb]. take_field. rewrite (proj2 (dec_u32_spec _ (key_epoch r))) by (split; [done|lia]). cbn [mbind result_bind].
  take_field. rewrite (proj2 (dec_u64_spec _ (sequence r))) by (split; [done|lia]). cbn [mbind result_bind]. pose proof Hw as (? & ? & ?).
  take_field. rewrite (proj2 (dec_u64_spec _ (issued r))) by (split; [done|lia]). cbn [mbind result_bind].
  take_field. rewrite (proj2 (dec_u64_spec _ (expires r))) by (split; [done|lia]). cbn [mbind result_bind].
  take_field. rewrite (proj2 (parse_version_spec _ (version r))) by done. cbn [ok_or mbind result_bind].
  rewrite (proj2 (Z.eqb_neq (key_epoch r) 0)), (proj2 (Z.eqb_neq (sequence r) 0)) by lia. cbn [orb].
  rewrite (proj2 (validity_spec (issued r) (expires r) tt ltac:(lia) ltac:(lia)) Hw). cbn [mbind result_bind]. rewrite artifact_loop_eq.
  match goal with P : pending ?l = _ |- _ => rename l into lsa, P into Pa end.
  destruct (loop_complete (lit "artifact") artifact_body artifacts_good show_artifact artifact_body_spec artifacts_prefix (loop_fuel lsa) [] lsa (artifacts r)
    (map (fun d => (lit "data", show_data d)) (data r))) as (lsb & E1 & P1); [done|done|by destruct (data r)| |].
  { unfold loop_fuel. rewrite Pa, length_app, length_map. lia. }
  rewrite E1. cbn [mbind result_bind app]. rewrite data_loop_eq.
  destruct (loop_complete (lit "data") data_body data_good show_data data_body_spec data_prefix (loop_fuel lsb) [] lsb (data r) []) as (lsc & E2 & P2);
    [done|by rewrite app_nil_r|done|unfold loop_fuel; rewrite P1, length_map; lia|].
  rewrite E2. cbn [mbind result_bind app]. exists lsc. split; [by destruct r|done].
Qed.

Lemma parse_rotation_complete ls r : rotation_ok r -> pending ls = rotation_records r -> exists ls', parse_rotation ls = Ok (r, ls') /\ pending ls' = [].
Proof.
  intros (Hk & Hw & Ht & K1 & K2 & K3) Hp. unfold parse_rotation. unfold rotation_records, numbered in Hp. cbn [app] in Hp.
  pose proof Hw as (? & ? & ?). assert (len (keys r) <= 8) as Hlen by (unfold len, MAX_KEYS in *; lia).
  take_field. rewrite (proj2 (dec_u32_spec _ (r_key_epoch r))) by (split; [done|lia]). cbn [mbind result_bind].
  take_field. rewrite (proj2 (dec_u64_spec _ (r_issued r))) by (split; [done|lia]). cbn [mbind result_bind].
  take_field. rewrite (proj2 (dec_u64_spec _ (r_expires r))) by (split; [done|lia]). cbn [mbind result_bind].
  take_field. rewrite (proj2 (dec_u32_spec _ (threshold r))) by (split; [done|unfold U32_MAX; lia]). cbn [mbind result_bind].
  rewrite (proj2 (Z.ltb_ge (r_key_epoch r) 2)) by lia.
  rewrite (proj2 (validity_spec (r_issued r) (r_expires r) tt ltac:(lia) ltac:(lia)) Hw). cbn [mbind result_bind]. rewrite key_loop_eq.
  match goal with P : pending ?l = _ |- _ => rename l into lsa, P into Pa end.
  destruct (loop_complete (lit "key") key_body keys_good Hex.encode key_body_spec keys_prefix (loop_fuel lsa) [] lsa (keys r) []) as (lsc & E2 & P2);
    [done|by rewrite app_nil_r|done|unfold loop_fuel; rewrite Pa, length_map; lia|].
  rewrite E2. cbn [mbind result_bind app]. rewrite (proj2 (try_from_spec 255 (threshold r) (threshold r))) by (split; [done|lia]). cbn [ok_or mbind result_bind].
  rewrite bool_decide_eq_false_2, (proj2 (Z.eqb_neq (threshold r) 0)), (proj2 (Z.ltb_ge (len (keys r)) _)) by
    (lia || (intros E; rewrite E in Ht; change (len []) with 0 in Ht; lia)).
  cbn [orb]. exists lsc. split; [by destruct r|done].
Qed.

(** ** From bytes to records *)
Definition record_ok (r : record) : Prop :=
  r.1 <> [] /\ r.2 <> [] /\ x20 ∉ r.1 /\ Forall (fun b => in_range 0x20 0x7e b = true) (r.1 ++ r.2) /\ (length r.1 + length r.2 < MAX_LINE_BYTES)%nat.

Definition body_of (r : record) : list byte := r.1 ++ x20 :: r.2.

Lemma line_body (r : record) : line r.1 r.2 = body_of r ++ [NEWLINE].
Proof. unfold line, body_of. by rewrite <- app_assoc. Qed.

Lemma lines_joined rs : rs <> [] -> flat_map (fun r => line r.1 r.2) rs = join_with NEWLINE (map body_of rs) ++ [NEWLINE].
Proof.
  induction rs as [|r rs IH]; [done|]. intros _. unfold line, body_of in *. cbn [flat_map map]. destruct rs as [|r' rs].
  - cbn [flat_map map join_with]. rewrite app_nil_r, <- app_assoc. done.
  - rewrite IH by done. cbn [map]. change (join_with NEWLINE ((?x) :: ?y :: ?l)) with (x ++ NEWLINE :: join_with NEWLINE (y :: l)).
    cbn [join_with]. rewrite <- !app_assoc. cbn [app]. rewrite <- ?app_assoc. done.
Qed.

Lemma read_records_complete acc rs : Forall record_ok rs -> (length acc + length rs <= MAX_LINES)%nat -> read_records acc (map body_of rs) = Ok (acc ++ rs).
Proof.
  intros Hrs. revert acc. induction Hrs as [|[k v] rs (Hk & Hv & Hb & _ & Hl) _ IH]; intros acc Hacc; cbn [map read_records]; [by rewrite app_nil_r|].
  cbn [fst snd length] in *. rewrite (proj2 (Nat.leb_gt _ _)) by lia.
  unfold body_of at 1. rewrite (proj2 (Nat.ltb_ge _ _)) by (rewrite length_app; cbn [fst snd length]; lia). unfold body_of at 1. cbn [fst snd].
  rewrite (proj2 (split_once_spec _ _ k v)) by done. rewrite !bool_decide_eq_false_2 by done. cbn [orb]. rewrite IH by (rewrite length_app; simpl; lia).
  by rewrite <- app_assoc.
Qed.

Lemma in_range_ascii b : in_range 0x20 0x7e b = true -> is_ascii_byte b = true /\ b <> NEWLINE /\ printable b = true.
Proof.
  intros H. split_and!.
  - unfold in_range, is_ascii_byte in *. lia.
  - by intros ->.
  - unfold printable. rewrite H. apply orb_true_r.
Qed.

Lemma body_of_chars r : record_ok r -> Forall (fun b => in_range 0x20 0x7e b = true) (body_of r).
Proof. intros (_ & _ & _ & Hf & _). unfold body_of. apply Forall_app in Hf as [H1 H2]. apply Forall_app. split; [done|]. by constructor. Qed.

(** ** The records of a valid manifest *)
Definition plain (l : list byte) : Prop := Forall (fun b => in_range 0x20 0x7e b = true) l.

Lemma plain_app a b : plain (a ++ b) <-> plain a /\ plain b.
Proof. apply Forall_app. Qed.

Lemma plain_impl (g : byte -> bool) l : (forall b, g b = true -> in_range 0x20 0x7e b = true) -> Forall (fun b => g b = true) l -> plain l.
Proof. intros Hg Hl. eapply Forall_impl; [exact Hl|exact Hg]. Qed.

Lemma plain_decimal z : plain (decimal z).
Proof. destruct (decimal_digits z) as [Hd _]. revert Hd. apply plain_impl. intros b. unfold is_digit, in_range. lia. Qed.

Lemma plain_hex l : plain (Hex.encode l).
Proof. eapply plain_impl; [|apply hex_encode_hex]. intros b. unfold is_hex, is_digit, in_range. lia. Qed.

Lemma plain_token s max : is_token s max = true -> plain s.
Proof.
  intros (_ & _ & Hf)%token_chars. revert Hf. apply plain_impl. intros b. unfold token_char, is_lower, is_digit, in_range.
  intros H. apply orb_true_iff in H as [[[H|H]%orb_true_iff|H%bool_decide_eq_true]%orb_true_iff|H%bool_decide_eq_true]; [lia|lia|by subst|by subst].
Qed.

Lemma plain_path p : valid_path p = true -> plain p.
Proof.
  intros (_ & _ & Hf)%path_chars. revert Hf. apply plain_impl. intros b. unfold path_char, is_lower, is_upper, is_digit, in_range.
  intros H. repeat (apply orb_true_iff in H as [H|H]); try (apply bool_decide_eq_true in H; by subst); lia.
Qed.

Lemma length_decimal z k : 0 <= z <= U64_MAX -> 0 <= k -> z < 10 ^ (k + 1) -> (length (decimal z) <= Z.to_nat (k + 1))%nat.
Proof.
  intros Hz Hk Hlt. destruct (decimal_canonical z k Hz Hk Hlt) as [E _]. unfold canonical_digits in E.
  apply andb_true_iff in E as [[_ E%negb_true_iff%Nat.ltb_ge]%andb_true_iff _]. lia.
Qed.

Lemma length_decimal_20 z : 0 <= z <= U64_MAX -> (length (decimal z) <= 20)%nat.
Proof. intros Hz. apply (length_decimal z 19); [done|lia|unfold U64_MAX in Hz; lia]. Qed.

Lemma plain_SP : plain SP.
Proof. by repeat constructor. Qed.

Lemma file_fields_ok cap f : file_ok cap f -> cap <= U64_MAX -> plain (file_fields f) /\ (length (file_fields f) <= 343)%nat.
Proof.
  intros (Hs & H1 & H2 & Hp) Hc. pose proof (path_chars _ Hp) as (_ & Hl & _). unfold MAX_PATH_BYTES in Hl. unfold file_fields. split.
  - rewrite !plain_app. split_and!; auto using plain_decimal, plain_hex, plain_path, plain_SP.
  - rewrite !length_app, !Hex.length_encode, H1, H2. pose proof (length_decimal_20 (size f)). simpl. lia.
Qed.

(** A record with a key of the format and a plain value of bounded length. *)
Lemma record_ok_plain k v n : plain (lit k) -> x20 ∉ lit k -> lit k <> [] -> plain v -> v <> [] -> (length v <= n)%nat -> (length (lit k) + n < MAX_LINE_BYTES)%nat ->
  record_ok (lit k, v).
Proof. intros. unfold record_ok. cbn [fst snd]. split_and!; [done..| |lia]. by apply plain_app. Qed.

Definition weight (r : record) : nat := length r.1 + length r.2 + 2.

Lemma keys_of_format : Forall (fun k => plain (lit k) /\ x20 ∉ lit k /\ lit k <> [] /\ (length (lit k) <= 20)%nat)
  ["manifest-format"; "type"; "channel"; "key-epoch"; "sequence"; "issued"; "expires"; "version"; "artifact"; "data"; "threshold"; "key"]%string.
Proof.
  repeat (constructor; [split_and!; [by repeat constructor|by apply (bool_decide_unpack _)|done|simpl; lia]|]). constructor.
Qed.

Lemma format_key k : k ∈ ["manifest-format"; "type"; "channel"; "key-epoch"; "sequence"; "issued"; "expires"; "version"; "artifact"; "data"; "threshold"; "key"]%string ->
  plain (lit k) /\ x20 ∉ lit k /\ lit k <> [] /\ (length (lit k) <= 20)%nat.
Proof. intros Hk. pose proof keys_of_format as H. rewrite Forall_forall in H. by apply H. Qed.

(** The weight of a record is the length of its line. *)
Lemma format_record k v n : k ∈ ["manifest-format"; "type"; "channel"; "key-epoch"; "sequence"; "issued"; "expires"; "version"; "artifact"; "data"; "threshold"; "key"]%string ->
  plain v -> v <> [] -> (length v <= n)%nat -> (n <= 400)%nat -> record_ok (lit k, v) /\ (weight (lit k, v) <= n + 22)%nat.
Proof.
  intros (H1 & H2 & H3 & H4)%format_key ????. split; [apply (record_ok_plain k v n); try done; unfold MAX_LINE_BYTES; lia|unfold weight; cbn [fst snd]; lia].
Qed.

(** A good record: it can be written, and its line is not too long. *)
Definition fine (n : nat) (r : record) : Prop := record_ok r /\ (weight r <= n)%nat.

Lemma fine_number k z : k ∈ ["manifest-format"; "type"; "channel"; "key-epoch"; "sequence"; "issued"; "expires"; "version"; "artifact"; "data"; "threshold"; "key"]%string ->
  0 <= z <= U64_MAX -> fine 60 (numbered k z).
Proof.
  intros Hk Hz. destruct (format_record k (decimal z) 20 Hk) as [H1 H2]; [apply plain_decimal|apply decimal_digits|by apply length_decimal_20|lia|].
  split; [done|]. unfold numbered. lia.
Qed.

Lemma fine_artifact a : artifact_ok a -> fine 398 (lit "artifact", show_artifact a).
Proof.
  intros [Ht Hf]. destruct (file_fields_ok _ _ Hf) as [H1 H2]; [done|]. destruct (token_chars _ _ Ht) as (_ & Hl & _).
  destruct (format_record "artifact" (show_artifact a) 376) as [H3 H4]; [by repeat (left || right)| | | |lia|by split].
  - unfold show_artifact. rewrite !plain_app. split_and!; [by eapply plain_token|apply plain_SP|done].
  - unfold show_artifact, SP. by destruct (platform a).
  - unfold show_artifact, SP. rewrite !length_app. simpl. lia.
Qed.

Lemma fine_data d : data_ok d -> fine 398 (lit "data", show_data d).
Proof.
  intros (Hv & _ & Hf). destruct (file_fields_ok _ _ Hf) as [H1 H2]; [done|].
  destruct (format_record "data" (show_data d) 370) as [H3 H4]; [by repeat (left || right)| | | |lia|split; [done|lia]].
  - unfold show_data. rewrite !plain_app. split_and!; [by destruct (kind d); repeat constructor|apply plain_SP|apply plain_decimal|apply plain_SP|done].
  - unfold show_data, SP. by destruct (kind d).
  - unfold show_data, SP. rewrite !length_app. pose proof (length_decimal_20 (d_version d) ltac:(unfold U32_MAX, U64_MAX in *; lia)).
    assert (length (kind_name (kind d)) <= 5)%nat by (destruct (kind d); simpl; lia). simpl. lia.
Qed.

Lemma fine_key k : length k = 32%nat -> fine 398 (lit "key", Hex.encode k).
Proof.
  intros Hk. destruct (format_record "key" (Hex.encode k) 64) as [H3 H4]; [by repeat (left || right)|apply plain_hex| | |lia|split; [done|lia]].
  - intros E. apply (f_equal length) in E. rewrite Hex.length_encode, Hk in E. done.
  - rewrite Hex.length_encode, Hk. simpl. lia.
Qed.

Lemma fine_version v : version_ok v -> fine 60 (lit "version", show_version v).
Proof.
  intros (H1 & H2 & H3).
  assert (forall z, 0 <= z < 10 ^ 9 -> (length (decimal z) <= 9)%nat) as Hl.
  { intros z Hz. apply (length_decimal z 8); [unfold U64_MAX; lia|lia|change (10 ^ (8 + 1)) with (10 ^ 9); lia]. }
  destruct (format_record "version" (show_version v) 29) as [H4 H5]; [by repeat (left || right)| | | |lia|split; [done|lia]]; unfold show_version.
  - rewrite plain_app. split; [apply plain_decimal|]. constructor; [done|]. apply plain_app. split; [apply plain_decimal|]. constructor; [done|]. apply plain_decimal.
  - by destruct (decimal (major v)).
  - rewrite length_app. cbn [length]. rewrite length_app. cbn [length]. pose proof (Hl _ H1). pose proof (Hl _ H2). pose proof (Hl _ H3). lia.
Qed.

Lemma fine_token k s n : k ∈ ["manifest-format"; "type"; "channel"; "key-epoch"; "sequence"; "issued"; "expires"; "version"; "artifact"; "data"; "threshold"; "key"]%string ->
  is_token s n = true -> (n <= 32)%nat -> fine 60 (lit k, s).
Proof.
  intros Hk Ht Hn. destruct (token_chars _ _ Ht) as (Hne & Hl & _). destruct (format_record k s 32 Hk) as [H1 H2]; [by eapply plain_token|done|lia|lia|].
  split; [done|lia].
Qed.

(** The lines of a manifest, with the bound of each. *)
Lemma records_fine m : valid m -> exists small large, records m = small ++ large /\ Forall (fine 60) small /\ Forall (fine 398) large /\
  small <> [] /\ (length small <= 8)%nat /\ (length large <= 19)%nat.
Proof.
  intros Hm. destruct m as [r|r].
  - destruct Hm as (Hc & Hk & Hs & Hw & Hv & A1 & A2 & A3 & D1 & D2). destruct Hw as (? & ? & ?). unfold records, release_records.
    exists [(lit "manifest-format", decimal FORMAT_VERSION); (lit "type", lit "release"); (lit "channel", channel r);
      numbered "key-epoch" (key_epoch r); numbered "sequence" (sequence r); numbered "issued" (issued r); numbered "expires" (expires r);
      (lit "version", show_version (version r))].
    exists (map (fun a => (lit "artifact", show_artifact a)) (artifacts r) ++ map (fun d => (lit "data", show_data d)) (data r)).
    split; [done|]. split_and!; [| |done|simpl; lia|].
    + rewrite !Forall_cons. split_and!; [|..|done]; first
        [ by apply fine_version
        | apply fine_number; [by repeat (left || right)|unfold FORMAT_VERSION, U32_MAX, U64_MAX in *; lia]
        | eapply (fine_token _ _ 16); [by repeat (left || right)|done|lia] ].
    + apply Forall_app. split; apply Forall_map; (eapply Forall_impl; [eassumption|]); [apply fine_artifact|apply fine_data].
    + rewrite length_app, !length_map. unfold MAX_ARTIFACTS in A1.
      assert (length (data r) <= 3)%nat; [|lia]. clear - D2. destruct (data r) as [|d1 [|d2 [|d3 [|d4 l]]]]; simpl; try lia. exfalso.
      unfold ascending in D2. repeat match goal with H : StronglySorted _ (_ :: _) |- _ => apply StronglySorted_inv in H as [? H] end.
      repeat match goal with H : Forall _ (_ :: _) |- _ => apply Forall_cons in H as [? H] end.
      by destruct (kind d1), (kind d2), (kind d3), (kind d4).
  - destruct Hm as (Hk & Hw & Ht & K1 & K2 & K3). destruct Hw as (? & ? & ?). unfold records, rotation_records.
    assert (len (keys r) <= 8) as Hlen by (unfold len, MAX_KEYS in *; lia).
    exists [(lit "manifest-format", decimal FORMAT_VERSION); (lit "type", lit "rotation"); numbered "key-epoch" (r_key_epoch r);
      numbered "issued" (r_issued r); numbered "expires" (r_expires r); numbered "threshold" (threshold r)].
    exists (map (fun k => (lit "key", Hex.encode k)) (keys r)). split; [done|]. split_and!; [| |done|simpl; lia|].
    + rewrite !Forall_cons. split_and!; [|..|done]; first
        [ apply fine_number; [by repeat (left || right)|unfold FORMAT_VERSION, U32_MAX, U64_MAX in *; lia]
        | eapply (fine_token _ _ 16); [by repeat (left || right)|done|lia] ].
    + apply Forall_map. eapply Forall_impl; [eassumption|]. apply fine_key.
    + rewrite length_map. unfold MAX_KEYS in K1. lia.
Qed.

Lemma lines_length n rs : Forall (fine n) rs -> (length (flat_map (fun r => line r.1 r.2) rs) <= n * length rs)%nat /\ Forall record_ok rs.
Proof.
  induction 1 as [|r rs [Hr Hw] _ [IH1 IH2]]; [simpl; split; [lia|constructor]|]. split; [|by constructor]. cbn [flat_map length].
  rewrite length_app. change (line r.1 r.2) with (r.1 ++ x20 :: r.2 ++ [NEWLINE]). unfold weight in Hw. rewrite length_app. cbn [length]. rewrite length_app. cbn [length]. lia.
Qed.

(** *** The documents accepted *)
Lemma encode_parses m : valid m -> parse (encode m) = Ok m.
Proof.
  intros Hm. destruct (records_fine m Hm) as (small & large & Er & Hs & Hl & Hne & Ls & Ll).
  destruct (lines_length _ _ Hs) as [W1 R1], (lines_length _ _ Hl) as [W2 R2]. pose proof (encode_records m) as Ee.
  assert (Forall record_ok (records m)) as Hr by (rewrite Er; by apply Forall_app). assert (records m <> []) as Hrne by (rewrite Er; by destruct small).
  assert (length (encode m) <= MAX_MANIFEST_BYTES)%nat as Hlen.
  { rewrite Ee, Er, flat_map_app, length_app. unfold MAX_MANIFEST_BYTES.
    etrans; [exact (Nat.add_le_mono _ _ _ _ W1 W2)|]. lia. }
  assert (length (records m) <= MAX_LINES)%nat as Hlines by (rewrite Er, length_app; unfold MAX_LINES; lia).
  rewrite (lines_joined _ Hrne) in Ee. set (body := join_with NEWLINE (map body_of (records m))) in *.
  assert (Forall (fun b => printable b = true /\ is_ascii_byte b = true) (encode m)) as Hchars.
  { rewrite encode_records. clear - Hr. induction Hr as [|r rs Hr _ IH]; [constructor|]. cbn [flat_map]. apply Forall_app. split; [|done].
    rewrite line_body.
    apply Forall_app. split; [|by repeat constructor]. eapply Forall_impl; [by apply body_of_chars|]. intros b (? & _ & ?)%in_range_ascii. done. }
  unfold parse. rewrite bool_decide_eq_false_2 by (rewrite Ee; by destruct body). rewrite (proj2 (Nat.ltb_ge _ _)) by done.
  rewrite (proj2 (forallb_true printable _)) by (eapply Forall_impl; [exact Hchars|]; intros b Hb; apply Hb). cbn [negb].
  rewrite ascii_is_utf8 by (apply forallb_true; eapply Forall_impl; [exact Hchars|]; intros b Hb; apply Hb). cbn [negb].
  rewrite (proj2 (strip_suffix_Some [NEWLINE] (encode m) body) Ee). cbn [ok_or mbind result_bind]. unfold body. rewrite split_join.
  2: { by destruct (records m). }
  2: { apply Forall_map. eapply Forall_impl; [exact Hr|]. intros r Hb%body_of_chars Hin. rewrite Forall_forall in Hb. by apply Hb in Hin. }
  rewrite read_records_complete by (done || (simpl; lia)). cbn [mbind result_bind app].
  destruct (expect_next (lit "manifest-format") (mkLines (records m) None) (decimal FORMAT_VERSION) (tail (records m)) eq_refl) as (ls & E1 & P1).
  rewrite E1. cbn [mbind result_bind]. rewrite bool_decide_eq_true_2 by done. cbn [negb].
  assert (forall ls', pending ls' = [] -> bool_decide (fst (next ls') <> None) = false) as Hend.
  { intros ls' Hp. apply bool_decide_eq_false_2. destruct (next_spec ls') as [-> _]. rewrite Hp. intros Hne'. by apply Hne'. }
  destruct m as [r|r]; cbn [records tail] in P1.
  - destruct (expect_next _ _ _ _ P1) as (ls2 & E2 & P2). rewrite E2. cbn [mbind result_bind]. rewrite bool_decide_eq_true_2 by done.
    destruct (parse_release_complete ls2 r Hm P2) as (ls3 & E3 & P3). rewrite E3. cbn [mbind result_bind]. rewrite (Hend _ P3).
    by rewrite bool_decide_eq_true_2.
  - destruct (expect_next _ _ _ _ P1) as (ls2 & E2 & P2). rewrite E2. cbn [mbind result_bind]. rewrite bool_decide_eq_false_2 by done.
    rewrite bool_decide_eq_true_2 by done. destruct (parse_rotation_complete ls2 r Hm P2) as (ls3 & E3 & P3). rewrite E3. cbn [mbind result_bind].
    rewrite (Hend _ P3). by rewrite bool_decide_eq_true_2.
Qed.

Lemma parse_valid b m : parse b = Ok m -> valid m /\ encode m = b.
Proof.
  unfold parse. do 4 (case_match; [done|]). intros (body & _ & H3)%bind_Ok. apply bind_Ok in H3 as (recs & _ & H3).
  apply bind_Ok in H3 as ([v ls] & _ & H3). case_match; [done|]. apply bind_Ok in H3 as ([t ls1] & _ & H3).
  apply bind_Ok in H3 as ([m' ls2] & Hm & H3). case_match; [done|]. case_bool_decide as Ee; [|done]. injection H3 as <-. split; [|done].
  destruct (bool_decide (t = lit "release")).
  - apply bind_Ok in Hm as ([r ls'] & Hr & [= <- <-]). by apply parse_release_sound in Hr.
  - destruct (bool_decide (t = lit "rotation")); [|done]. apply bind_Ok in Hm as ([r ls'] & Hr & [= <- <-]). by apply parse_rotation_sound in Hr.
Qed.

(** C10: a document is accepted as a manifest exactly when the manifest is valid
    and the document is its encoding: every valid manifest reads back from what
    is written for it, and no document has a second spelling. *)
Theorem manifests_are_canonical bytes m : parse bytes = Ok m <-> valid m /\ bytes = encode m.
Proof. split; [intros H%parse_valid; by destruct H|]. intros [Hm ->]. by apply encode_parses. Qed.
