(* ===== verification/Trust.v ===== *)
(** * Trusted keys and their rotation (px-update/src/trust.rs)

    The set of keys a client trusts, detached signature files, and the
    rotations that move from one set to the next.  What a signature is comes
    through the class [Signatures], which the Ed25519 verifier implements. *)
From stdpp Require Import relations.
From Stdlib Require Import Sorting.Sorted.
From S2P Require Import Prelude Bytes OrdMap Text Chars Words Ed25519 UpdateText Manifest ManifestProps Sha2.
Local Open Scope Z_scope.

(** What the key set asks of a signature scheme. *)
Class Signatures := {
  key_accepted : list byte -> bool;
  sig_accepted : list byte -> list byte -> list byte -> bool
}.

(** [is_ok] of the two procedures of ed25519. *)
#[export] Instance ed25519_signatures : Signatures := {|
  key_accepted := fun k => bool_decide (check_public_key k = Some (Ok tt));
  sig_accepted := fun k m s => bool_decide (Ed25519.verify k m s = Some (Ok tt))
|}.

Definition SIGN_DOMAIN : list byte := lit "px-update/manifest/v1" ++ [NEWLINE].
Definition MAX_FUTURE_SKEW_SECS : Z := 86400.
Definition MAX_SIG_FILE_BYTES : nat := 1024.

(** The first eight bytes of the digest of the key. *)
Definition KeyId : Type := list byte.
Definition key_id (public_key : list byte) : KeyId := take 8 (Sha2.sha256 public_key).

Inductive TrustError :=
| BadKeySet (why : string)
| BadSignatureFile (why : string)
| TooLarge
| ThresholdNotMet (valid need : Z)
| Parse (e : ParseError)
| WrongType
| Expired
| NotYetValid
| RotationSkipsEpoch
| RotationRollback
| RevokedKeyReintroduced
| EpochMismatch (manifest trusted : Z).

(** Entries: a key id and a signature. *)
Definition SignatureSet : Type := list (KeyId * list byte).

Record Trust := mkTrust { epoch : Z; t_keys : list (list byte); t_threshold : Z; revoked : list (list byte) }.

(** [issued - skew <= now < expires]. *)
Definition check_fresh (issued expires now : Z) : result TrustError unit :=
  if expires <=? now then Err Expired
  else if sat_add now MAX_FUTURE_SKEW_SECS <? issued then Err NotYetValid
  else Ok tt.

(** ** Signature files *)
Fixpoint read_signatures (out : SignatureSet) (lines : list (list byte)) : result TrustError SignatureSet :=
  match lines with
  | [] => Ok out
  | l :: lines =>
      if (MAX_KEYS <=? length out)%nat then Err (BadSignatureFile "too many signatures")
      else
        match split_on x20 l with
        | [tag; id; sig] =>
            if negb (bool_decide (tag = lit "sig")) then Err (BadSignatureFile "line is not `sig <key id> <signature>`")
            else
              match Hex.decode_fixed 8 id, Hex.decode_fixed 64 sig with
              | Some id, Some sig =>
                  if not_ascending fst out id then Err (BadSignatureFile "key ids are not strictly ascending")
                  else read_signatures (out ++ [(id, sig)]) lines
              | _, _ => Err (BadSignatureFile "key id or signature is not lowercase hex of the right length")
              end
        | _ => Err (BadSignatureFile "line is not `sig <key id> <signature>`")
        end
  end.

Definition parse_signatures (bytes : list byte) : result TrustError SignatureSet :=
  if (MAX_SIG_FILE_BYTES <? length bytes)%nat then Err TooLarge
  else if negb (is_utf8 bytes) then Err (BadSignatureFile "not ASCII")
  else
    body ← ok_or (strip_suffix [NEWLINE] bytes) (BadSignatureFile "no final newline");
    read_signatures [] (split_on NEWLINE body).

Section scheme.
Context `{Signatures}.

(** ** Key sets *)
Fixpoint validate_keys (keys : list (list byte)) : result TrustError unit :=
  match keys with
  | [] => Ok tt
  | k :: keys =>
      if negb (key_accepted k) then Err (BadKeySet "a key is not a valid Ed25519 key")
      else if existsb (fun o => bool_decide (key_id o = key_id k)) keys then Err (BadKeySet "duplicate key or key id")
      else validate_keys keys
  end.

Definition validate_set (keys : list (list byte)) (threshold : Z) : result TrustError unit :=
  if bool_decide (keys = []) || (MAX_KEYS <? length keys)%nat then Err (BadKeySet "a key set holds 1 to 8 keys")
  else if (threshold =? 0) || (len keys <? threshold) then Err (BadKeySet "threshold is outside 1..=keys")
  else validate_keys keys.

Definition any_revoked (revoked keys : list (list byte)) : bool := existsb (fun k => bool_decide (k ∈ revoked)) keys.

Definition new (epoch : Z) (keys : list (list byte)) (threshold : Z) (revoked : list (list byte)) : result TrustError Trust :=
  if epoch =? 0 then Err (BadKeySet "epochs start at 1")
  else
    _ ← validate_set keys threshold;
    if any_revoked revoked keys then Err (BadKeySet "a trusted key is also revoked")
    else Ok (mkTrust epoch keys threshold revoked).

(** ** Verification *)
Definition find_key (keys : list (list byte)) (id : KeyId) : option (list byte) := List.find (fun k => bool_decide (key_id k = id)) keys.

Definition count_valid (keys : list (list byte)) (message : list byte) (sigs : SignatureSet) : Z :=
  foldl (fun valid '(id, sig) =>
    match find_key keys id with
    | None => valid
    | Some key => if sig_accepted key message sig then valid + 1 else valid
    end) 0 sigs.

Definition verify (self : Trust) (signed : list byte) (sigs : SignatureSet) : result TrustError unit :=
  if (MAX_MANIFEST_BYTES <? length signed)%nat then Err TooLarge
  else
    let message := SIGN_DOMAIN ++ signed in
    let valid := count_valid (t_keys self) message sigs in
    let need := t_threshold self in
    if need <=? valid then Ok tt else Err (ThresholdNotMet valid need).

Definition window (m : Manifest) : Z * Z :=
  match m with MRelease r => (issued r, expires r) | MRotation r => (r_issued r, r_expires r) end.

(** The signature over the raw bytes, then the parser, then the clock. *)
Definition open (self : Trust) (signed : list byte) (sigs : SignatureSet) (now : Z) : result TrustError Manifest :=
  _ ← verify self signed sigs;
  m ← map_err Parse (parse signed);
  let '(issued, expires) := window m in
  _ ← check_fresh issued expires now;
  Ok m.

Definition open_release (self : Trust) (signed : list byte) (sigs : SignatureSet) (now : Z) : result TrustError Release :=
  m ← open self signed sigs now;
  match m with
  | MRelease r => if key_epoch r =? epoch self then Ok r else Err (EpochMismatch (key_epoch r) (epoch self))
  | MRotation _ => Err WrongType
  end.

(** Keys that leave the set are remembered, once each. *)
Definition revoke_missing (old keys revoked : list (list byte)) : list (list byte) :=
  foldl (fun revoked k => if negb (bool_decide (k ∈ keys)) && negb (bool_decide (k ∈ revoked)) then revoked ++ [k] else revoked) revoked old.

Definition apply_rotation (self : Trust) (signed : list byte) (sigs : SignatureSet) (now : Z) : result TrustError Trust :=
  m ← open self signed sigs now;
  match m with
  | MRelease _ => Err WrongType
  | MRotation r =>
      if r_key_epoch r <=? epoch self then Err RotationRollback
      else if negb (bool_decide (checked_add U32_MAX (epoch self) 1 = Some (r_key_epoch r))) then Err RotationSkipsEpoch
      else
        _ ← validate_set (keys r) (threshold r);
        if any_revoked (revoked self) (keys r) then Err RevokedKeyReintroduced
        else Ok (mkTrust (r_key_epoch r) (keys r) (threshold r) (revoke_missing (t_keys self) (keys r) (revoked self)))
  end.
End scheme.

(** * What trust rests on

    A document that is accepted was signed by as many different trusted keys as
    the threshold asks; the set of keys moves only by rotations so signed, one
    epoch at a time, and a key that was dropped never comes back. *)
(** ** Signature files *)
Definition ids_ascending (sigs : SignatureSet) : Prop := ascending fst sigs.
Definition signatures_ok (sigs : SignatureSet) : Prop :=
  (length sigs <= MAX_KEYS)%nat /\ ids_ascending sigs /\ Forall (fun e => length e.1 = 8%nat /\ length e.2 = 64%nat) sigs.

Lemma read_signatures_ok out lines sigs : signatures_ok out -> read_signatures out lines = Ok sigs -> signatures_ok sigs.
Proof.
  revert out. induction lines as [|l lines IH]; intros out (Hl & Ha & Hf); cbn [read_signatures]; [by intros [= <-]|].
  destruct (MAX_KEYS <=? length out)%nat eqn:El; [done|]. apply Nat.leb_gt in El. destruct (split_on x20 l) as [|tag [|i [|s [|]]]]; try done.
  destruct (negb _); [done|]. destruct (Hex.decode_fixed 8 i) as [id|] eqn:Ei; [|done]. destruct (Hex.decode_fixed 64 s) as [sig|] eqn:Es; [|done].
  destruct (not_ascending fst out id) eqn:En; [done|]. apply IH. split_and!.
  - rewrite length_app. simpl. lia.
  - by apply ascending_snoc.
  - apply Forall_app. split; [done|]. repeat constructor; [by apply Hex.encode_decode in Ei as []|by apply Hex.encode_decode in Es as []].
Qed.

Lemma parse_signatures_ok bytes sigs : parse_signatures bytes = Ok sigs -> signatures_ok sigs.
Proof.
  unfold parse_signatures. do 2 (case_match; [done|]). intros (body & _ & Hr)%bind_Ok. eapply read_signatures_ok; [|exact Hr].
  split_and!; [simpl; lia|constructor|constructor].
Qed.

(** Ids in order are all different. *)
Lemma ascending_NoDup {A K} `{Ord K} (f : A -> K) l : ascending f l -> NoDup (map f l).
Proof.
  induction 1 as [|a l _ IH Hf]; [constructor|]. cbn [map]. constructor; [|done]. intros Hin. apply list_elem_of_fmap in Hin as (b & E & Hb).
  rewrite Forall_forall in Hf. apply Hf in Hb. by apply cmp_lt_ne in Hb.
Qed.

Section scheme.
Context `{Signatures}.

(** ** Thresholds *)
Lemma find_key_Some keys id k : find_key keys id = Some k -> k ∈ keys /\ key_id k = id.
Proof. unfold find_key. intros [Hin E]%List.find_some. apply bool_decide_eq_true in E. split; [by apply list_elem_of_In|done]. Qed.

(** Different keys of the set that signed the message. *)
Definition signers (keys : list (list byte)) (message : list byte) (sigs : SignatureSet) (ks : list (list byte)) : Prop :=
  NoDup ks /\ Forall (fun k => k ∈ keys /\ exists sig, (key_id k, sig) ∈ sigs /\ sig_accepted k message sig = true) ks.

Lemma count_valid_snoc keys message sigs e : count_valid keys message (sigs ++ [e]) =
  match find_key keys e.1 with
  | None => count_valid keys message sigs
  | Some k => if sig_accepted k message e.2 then count_valid keys message sigs + 1 else count_valid keys message sigs
  end.
Proof. unfold count_valid. rewrite foldl_app. by destruct e. Qed.

Lemma count_valid_signers keys message sigs : NoDup (map fst sigs) ->
  exists ks, signers keys message sigs ks /\ len ks = count_valid keys message sigs /\ Forall (fun k => key_id k ∈ map fst sigs) ks.
Proof.
  induction sigs as [|e sigs IH] using rev_ind; intros Hn; [exists []; by repeat constructor|].
  rewrite map_app in Hn. apply NoDup_app in Hn as (Hn & Hdis & _). destruct (IH Hn) as (ks & [Hnd Hall] & Hlen & Hids).
  assert (signers keys message (sigs ++ [e]) ks) as Hkeep.
  { split; [done|]. eapply Forall_impl; [exact Hall|]. intros k (Hk & sig & Hin & Hok). split; [done|]. exists sig. split; [|done].
    apply elem_of_app. by left. }
  assert (Forall (fun k => key_id k ∈ map fst (sigs ++ [e])) ks) as Hids'.
  { eapply Forall_impl; [exact Hids|]. intros k Hk. rewrite map_app. apply elem_of_app. by left. }
  rewrite count_valid_snoc. destruct (find_key keys e.1) as [k|] eqn:Ek; [|by exists ks]. destruct (sig_accepted k message e.2) eqn:Es; [|by exists ks].
  apply find_key_Some in Ek as [Hk Eid]. exists (k :: ks). split_and!.
  - destruct Hkeep as [_ Hkeep]. split.
    + constructor; [|done]. intros Hin. rewrite Forall_forall in Hids. apply (Hdis e.1); [|by left]. rewrite <- Eid. by apply Hids.
    + constructor; [|done]. split; [done|]. exists e.2. split; [|done]. rewrite Eid. apply elem_of_app. right. destruct e. by left.
  - rewrite len_cons. lia.
  - constructor; [|done]. rewrite map_app, Eid. apply elem_of_app. right. by left.
Qed.

(** Enough of the trusted keys signed these bytes. *)
Definition signed_by (t : Trust) (bytes : list byte) (sigs : SignatureSet) : Prop :=
  exists ks, signers (t_keys t) (SIGN_DOMAIN ++ bytes) sigs ks /\ t_threshold t <= len ks.

Lemma verify_signed t bytes sigs u : ids_ascending sigs -> verify t bytes sigs = Ok u -> signed_by t bytes sigs.
Proof.
  intros Ha. unfold verify. destruct (_ <? _)%nat; [done|]. cbv zeta. destruct (_ <=? _) eqn:E; [|done]. intros _. apply Z.leb_le in E.
  destruct (count_valid_signers (t_keys t) (SIGN_DOMAIN ++ bytes) sigs) as (ks & Hs & Hl & _); [by apply (ascending_NoDup fst)|].
  exists ks. split; [done|]. lia.
Qed.

Definition fresh (m : Manifest) (now : Z) : Prop := let '(i, e) := window m in now < e /\ i <= now + MAX_FUTURE_SKEW_SECS.

Lemma check_fresh_ok m now u : let '(i, e) := window m in check_fresh i e now = Ok u -> fresh m now.
Proof.
  unfold fresh. destruct (window m) as [i e]. unfold check_fresh. destruct (e <=? now) eqn:E1; [done|]. destruct (_ <? i) eqn:E2; [done|]. intros _.
  apply Z.leb_gt in E1. apply Z.ltb_ge in E2. split; [done|]. unfold sat_add in E2. lia.
Qed.

(** What [open] lets through. *)
Lemma open_Ok t bytes sigs now m : ids_ascending sigs -> open t bytes sigs now = Ok m ->
  signed_by t bytes sigs /\ valid m /\ bytes = encode m /\ fresh m now.
Proof.
  intros Ha. unfold open. intros (u & Hv%verify_signed & Ho)%bind_Ok; [|done]. apply bind_Ok in Ho as (m' & Hp & Ho).
  pose proof (check_fresh_ok m' now) as Hfresh. destruct (window m') as [i e]. apply bind_Ok in Ho as (u' & Hf & [= <-]).
  destruct (parse bytes) as [m''|] eqn:Ep; [|done]. injection Hp as ->. apply parse_valid in Ep as [Hm <-]. split_and!; [done..|by eapply Hfresh].
Qed.

(** ** Key sets *)
Definition set_ok (keys : list (list byte)) (threshold : Z) : Prop :=
  (0 < length keys <= MAX_KEYS)%nat /\ 0 < threshold <= len keys /\ Forall (fun k => key_accepted k = true) keys /\ NoDup (map key_id keys).

Lemma validate_keys_ok keys u : validate_keys keys = Ok u -> Forall (fun k => key_accepted k = true) keys /\ NoDup (map key_id keys).
Proof.
  destruct u. induction keys as [|k keys IH]; cbn [validate_keys]; [by repeat constructor|]. destruct (key_accepted k) eqn:Ek; [|done].
  destruct (existsb _ keys) eqn:Ex; [done|]. cbn [negb]. intros [Hf Hn]%IH. split; [by constructor|]. cbn [map]. constructor; [|done].
  intros (o & E & Ho)%list_elem_of_fmap. rewrite existsb_false, Forall_forall in Ex. apply Ex in Ho. apply bool_decide_eq_false in Ho. by rewrite E in Ho.
Qed.

Lemma validate_set_ok keys threshold u : 0 <= threshold -> validate_set keys threshold = Ok u -> set_ok keys threshold.
Proof.
  intros Ht. unfold validate_set. destruct (_ || _) eqn:E1; [done|]. destruct (_ || _) eqn:E2 at 1; [done|]. intros [Hf Hn]%validate_keys_ok.
  apply orb_false_iff in E1 as [E1%bool_decide_eq_false E3%Nat.ltb_ge], E2 as [E2%Z.eqb_neq E4%Z.ltb_ge].
  split_and!; [destruct keys; [done|simpl; lia]|done|lia|done|done|done].
Qed.

Lemma any_revoked_false revoked keys : any_revoked revoked keys = false <-> Forall (fun k => k ∉ revoked) keys.
Proof.
  unfold any_revoked. rewrite existsb_false, !Forall_forall. split; intros Hf k Hk; specialize (Hf k Hk); [by apply bool_decide_eq_false in Hf|by apply bool_decide_eq_false].
Qed.

Definition trust_ok (t : Trust) : Prop :=
  0 < epoch t <= U32_MAX /\ set_ok (t_keys t) (t_threshold t) /\ Forall (fun k => k ∉ revoked t) (t_keys t) /\ NoDup (revoked t).

Lemma revoke_missing_elem old keys revoked k : k ∈ revoke_missing old keys revoked <-> k ∈ revoked \/ (k ∈ old /\ k ∉ keys).
Proof.
  unfold revoke_missing. revert revoked. induction old as [|o old IH]; intros revoked; cbn [foldl].
  - rewrite elem_of_nil. tauto.
  - rewrite IH, elem_of_cons. destruct (bool_decide (o ∈ keys)) eqn:E1; [apply bool_decide_eq_true in E1|apply bool_decide_eq_false in E1]; cbn [negb andb].
    + split; [naive_solver|]. intros [?|[[-> |?] ?]]; naive_solver.
    + destruct (bool_decide (o ∈ revoked)) eqn:E2; [apply bool_decide_eq_true in E2|]; cbn [negb].
      * split; [naive_solver|]. intros [?|[[-> |?] ?]]; naive_solver.
      * rewrite elem_of_app, list_elem_of_singleton. naive_solver.
Qed.

Lemma revoke_missing_NoDup old keys revoked : NoDup revoked -> NoDup (revoke_missing old keys revoked).
Proof.
  unfold revoke_missing. revert revoked. induction old as [|o old IH]; intros revoked Hn; cbn [foldl]; [done|]. apply IH.
  destruct (bool_decide (o ∈ keys)); cbn [negb andb]; [done|]. case_bool_decide as E; cbn [negb]; [done|].
  apply NoDup_app. split_and!; [done| |by apply NoDup_singleton]. by intros k Hk ->%list_elem_of_singleton.
Qed.

(** ** Rotations *)
Lemma apply_rotation_Ok t bytes sigs now t' : ids_ascending sigs -> trust_ok t -> apply_rotation t bytes sigs now = Ok t' ->
  signed_by t bytes sigs /\ trust_ok t' /\ epoch t' = epoch t + 1 /\
  (forall k, k ∈ revoked t' <-> k ∈ revoked t \/ (k ∈ t_keys t /\ k ∉ t_keys t')) /\
  exists r, bytes = encode (MRotation r) /\ valid (MRotation r) /\ fresh (MRotation r) now /\
    t_keys t' = keys r /\ t_threshold t' = threshold r.
Proof.
  intros Ha (He & _ & Hd & Hn). unfold apply_rotation. intros (m & Ho%open_Ok & H1)%bind_Ok; [|done]. destruct Ho as (Hs & Hm & Eb & Hf).
  destruct m as [r|r]; [done|]. destruct (_ <=? epoch t) eqn:E1; [done|]. apply Z.leb_gt in E1.
  case_bool_decide as E2; [|done]. cbn [negb] in H1. unfold checked_add in E2. case_decide as E3; [|done]. injection E2 as E2.
  apply bind_Ok in H1 as (u & Hv & H1). pose proof Hm as (_ & _ & Ht & _). apply validate_set_ok in Hv; [|lia].
  destruct (any_revoked _ _) eqn:Er; [done|]. apply any_revoked_false in Er. injection H1 as <-. cbn [epoch t_keys t_threshold revoked].
  split_and!; [done| |lia|apply revoke_missing_elem|by exists r].
  split_and!; cbn [epoch t_keys t_threshold revoked]; [lia|unfold U32_MAX in *; lia|done| |by apply revoke_missing_NoDup].
  apply Forall_forall. intros k Hk [Hin|[_ Hin]]%revoke_missing_elem; [|done]. rewrite Forall_forall in Er. by apply Er in Hk.
Qed.

(** One rotation, of bytes and a signature file that came from anywhere. *)
Inductive rotates (t t' : Trust) : Prop :=
| rotates_by bytes file sigs now : parse_signatures file = Ok sigs -> apply_rotation t bytes sigs now = Ok t' -> rotates t t'.
(** Any number of them. *)
Definition reaches : Trust -> Trust -> Prop := rtc rotates.

Lemma rotates_Ok t t' : trust_ok t -> rotates t t' ->
  trust_ok t' /\ epoch t' = epoch t + 1 /\ (forall k, k ∈ revoked t' <-> k ∈ revoked t \/ (k ∈ t_keys t /\ k ∉ t_keys t')).
Proof. intros Ht [bytes file sigs now (_ & Ha & _)%parse_signatures_ok Hr]. by apply apply_rotation_Ok in Hr as (_ & ? & ? & ? & _). Qed.

Lemma reaches_ok t t' : reaches t t' -> trust_ok t ->
  trust_ok t' /\ epoch t <= epoch t' /\ (forall k, k ∈ revoked t -> k ∈ revoked t') /\ (forall k, k ∈ t_keys t -> k ∈ t_keys t' \/ k ∈ revoked t').
Proof.
  induction 1 as [t|t t1 t2 Hr _ IH]; intros Ht; [split_and!; [done|lia|done|by left]|].
  destruct (rotates_Ok t t1 Ht Hr) as (Ht1 & He & Hrev). destruct (IH Ht1) as (Ht2 & He2 & Hr2 & Hk2). split_and!; [done|lia| |].
  - intros k Hk. apply Hr2, Hrev. by left.
  - intros k Hk. destruct (decide (k ∈ t_keys t1)) as [Hin|Hout]; [by apply Hk2|]. right. apply Hr2, Hrev. by right.
Qed.

(** along any number of rotations of a well-formed key set the set stays
    well-formed, the epoch grows by one for each, a key that was trusted is
    either still trusted or revoked, and a key that was revoked before never
    is trusted again. *)
Theorem revoked_keys_stay_out t t' : reaches t t' -> trust_ok t ->
  trust_ok t' /\ epoch t <= epoch t' /\ (forall k, k ∈ t_keys t -> k ∈ t_keys t' \/ k ∈ revoked t') /\
  (forall k, k ∈ revoked t -> k ∈ revoked t' /\ k ∉ t_keys t').
Proof.
  intros Hr Ht. destruct (reaches_ok t t' Hr Ht) as (Ht' & He & Hrev & Hk). split_and!; [done..|]. intros k Hin. split; [by apply Hrev|].
  intros Hin'. destruct Ht' as (_ & _ & Hd & _). rewrite Forall_forall in Hd. apply (Hd k Hin'). by apply Hrev.
Qed.

(** C5: a release is accepted only as the canonical bytes of a valid manifest
    of the client's own key epoch, inside its window of validity, over whose
    bytes (behind the domain prefix) as many different trusted keys as the
    threshold asks made signatures that verify. *)
Theorem accepted_releases_are_signed t bytes file sigs now r :
  parse_signatures file = Ok sigs -> open_release t bytes sigs now = Ok r ->
  release_ok r /\ bytes = encode (MRelease r) /\ key_epoch r = epoch t /\
  now < expires r /\ issued r <= now + MAX_FUTURE_SKEW_SECS /\
  exists ks, NoDup ks /\ t_threshold t <= len ks /\
    Forall (fun k => k ∈ t_keys t /\ exists sig, (key_id k, sig) ∈ sigs /\ sig_accepted k (SIGN_DOMAIN ++ bytes) sig = true) ks.
Proof.
  intros (_ & Ha & _)%parse_signatures_ok. unfold open_release. intros (m & Ho%open_Ok & H1)%bind_Ok; [|done]. destruct Ho as (Hs & Hm & Eb & Hf).
  destruct m as [r'|]; [|done]. destruct (key_epoch r' =? epoch t) eqn:Ee; [|done]. injection H1 as <-. apply Z.eqb_eq in Ee.
  destruct Hf as [H2 H3]. destruct Hs as (ks & [Hn Hall] & Hl). split_and!; [done..|]. by exists ks.
Qed.
End scheme.

(** ** The signatures of the code *)
Lemma ed25519_accepts k m s : @sig_accepted ed25519_signatures k m s = true <-> ref_verify k m s = Ok tt.
Proof.
  unfold sig_accepted, ed25519_signatures. rewrite bool_decide_eq_true, verify_exact. split; [by intros [= ->]|by intros ->].
Qed.

Lemma trust_new_ok `{Signatures} epoch keys threshold revoked t : 0 <= epoch <= U32_MAX -> 0 <= threshold -> NoDup revoked ->
  new epoch keys threshold revoked = Ok t -> trust_ok t.
Proof.
  intros He Ht Hn. unfold new. destruct (epoch =? 0) eqn:E; [done|]. apply Z.eqb_neq in E. intros (u & Hv%validate_set_ok & H1)%bind_Ok; [|done].
  destruct (any_revoked revoked keys) eqn:Er; [done|]. apply any_revoked_false in Er. injection H1 as <-. split_and!; cbn; (done || lia).
Qed.

(** ** Examples *)
Module Examples.
(** A signature that repeats the key and a byte of the message, for examples. *)
#[local] Instance toy : Signatures := {|
  key_accepted := fun k => bool_decide (length k = 32%nat);
  sig_accepted := fun k m s => bool_decide (s = k ++ k) && bool_decide (m <> [])
|}.

Definition key_a : list byte := replicate 32 x01.
Definition key_b : list byte := replicate 32 x02.
Definition sig_file (k : list byte) : list byte := lit "sig " ++ Hex.encode (key_id k) ++ SP ++ Hex.encode (k ++ k) ++ [NEWLINE].
Definition sigs_of (k : list byte) : SignatureSet := [(key_id k, k ++ k)].
Definition file1 : FileRef := mkFile 1234 (replicate 32 x11) (replicate 64 x12) (lit "releases/app.zip").
Definition release1 : Release :=
  mkRelease (lit "stable") 1 7 1790000000 1790604800 (mkVersion 1 2 3) [mkArtifact (lit "linux-x86_64") file1] [mkData Psl 20260909 file1].
Definition rotation1 : Rotation := mkRotation 2 1790000000 1790604800 1 [key_b].
Definition trust1 : Trust := mkTrust 1 [key_a] 1 [].
Definition trust2 : Trust := mkTrust 2 [key_b] 1 [key_a].
Definition NOW : Z := 1790100000.

Lemma trust1_ok : trust_ok trust1.
Proof.
  unfold trust_ok, set_ok. split_and!; first [by vm_compute | by repeat constructor | apply NoDup_singleton | constructor; [apply not_elem_of_nil|constructor]].
Qed.

Lemma rotation1_applies : apply_rotation trust1 (encode (MRotation rotation1)) (sigs_of key_a) NOW = Ok trust2.
Proof. by vm_compute. Qed.
Lemma sig_file_parses : parse_signatures (sig_file key_a) = Ok (sigs_of key_a).
Proof. by vm_compute. Qed.
Lemma release1_opens : open_release trust1 (encode (MRelease release1)) (sigs_of key_a) NOW = Ok release1.
Proof. by vm_compute. Qed.
End Examples.

Lemma manifests_are_canonical_witness : parse (encode (MRelease Examples.release1)) = Ok (MRelease Examples.release1) /\ valid (MRelease Examples.release1).
Proof.
  assert (parse (encode (MRelease Examples.release1)) = Ok (MRelease Examples.release1)) as H by (vm_compute; reflexivity).
  split; [exact H|]. exact (proj1 (proj1 (manifests_are_canonical (encode (MRelease Examples.release1)) (MRelease Examples.release1)) H)).
Defined.

Lemma revoked_keys_stay_out_witness : exists t t' : Trust, epoch t' = 2 /\
  (forall k, k ∈ t_keys t -> k ∈ t_keys t' \/ k ∈ revoked t').
Proof.
  exists Examples.trust1, Examples.trust2. split; [reflexivity|].
  refine (proj1 (proj2 (proj2 (@revoked_keys_stay_out Examples.toy Examples.trust1 Examples.trust2 _ Examples.trust1_ok)))).
  eapply rtc_once. exact (rotates_by _ _ _ _ _ _ Examples.sig_file_parses Examples.rotation1_applies).
Defined.

Lemma accepted_releases_are_signed_witness :
  exists ks, NoDup ks /\ 1 <= len ks /\ Forall (fun k => k ∈ [Examples.key_a]) ks.
Proof.
  destruct (@accepted_releases_are_signed Examples.toy _ _ _ _ _ _ Examples.sig_file_parses Examples.release1_opens) as (_ & _ & _ & _ & _ & ks & Hn & Hl & Hk).
  exists ks. split; [exact Hn|]. split; [exact Hl|]. eapply Forall_impl; [exact Hk|]. intros k Hk'. exact (proj1 Hk').
Defined.
