(* ===== verification/Request.v ===== *)
(** * The bytes of an update request (px-update/src/request.rs)

    The crate writes every request itself, byte for byte, and audits what it
    wrote: the request holds a path, a host and constants, and nothing else. *)
From S2P Require Import Prelude Bytes Text Chars UpdateText Manifest ManifestProps.
Local Open Scope Z_scope.

Definition USER_AGENT : list byte := lit "update/1".
Definition ALLOWED_HEADERS : list (list byte) := [lit "Host"; lit "User-Agent"; lit "Accept"; lit "Connection"].
Definition MAX_REQUEST_BYTES : nat := 1024.
Definition MAX_TARGET_BYTES : nat := 256.

Definition CR : byte := x0d.
Definition LF : byte := x0a.
Definition CRLF : list byte := [CR; LF].

Record Mirror := mkMirror { host : list byte; port : Z; base : list byte }.
Definition RequestError : Type := string.
Definition bad {A} (why : string) : result RequestError A := Err why.

(** [starts_with] and [ends_with] of a character. *)
Definition starts (c : byte) (l : list byte) : bool := bool_decide (head l = Some c).
Definition ends (c : byte) (l : list byte) : bool := bool_decide (last l = Some c).
Definition is_empty (l : list byte) : bool := bool_decide (l = []).

Definition path_chars_ok (s : list byte) : bool := forallb path_char s.

Definition host_label (l : list byte) : bool :=
  negb (is_empty l) && (length l <=? 63)%nat && negb (starts DASH l) && negb (ends DASH l) &&
  forallb (fun b => is_lower b || is_digit b || bool_decide (b = DASH)) l.
Definition valid_host (h : list byte) : bool := negb (is_empty h) && (length h <=? 253)%nat && forallb host_label (split_on DOT h).

(** [s.is_empty() || s.starts_with('.')]. *)
Definition hidden (s : list byte) : bool := is_empty s || starts DOT s.

Definition validate (m : Mirror) : result RequestError unit :=
  if negb (valid_host (host m)) then bad "mirror host is not a plain lowercase DNS name"
  else if port m =? 0 then bad "mirror port is zero"
  else
    let b := base m in
    if negb (is_empty b) &&
       (negb (starts SLASH b) || ends SLASH b || contains (lit "//") b || (64 <? length b)%nat || negb (path_chars_ok b) ||
        existsb hidden (drop 1 (split_on SLASH b)))
    then bad "mirror base path is not a plain path prefix"
    else Ok tt.

(** ** Audit *)
(** [split] and [replace] on the two-byte line end. *)
Fixpoint split_crlf (l : list byte) : list (list byte) :=
  match l with
  | [] => [[]]
  | a :: t =>
      match t with
      | b :: t' =>
          if bool_decide (a = CR) && bool_decide (b = LF) then [] :: split_crlf t'
          else match split_crlf t with p :: ps => (a :: p) :: ps | [] => [[a]] end
      | [] => [[a]]
      end
  end.
Definition remove_crlf (l : list byte) : list byte := concat (split_crlf l).

(** [split_once(": ")]. *)
Fixpoint split_header (l : list byte) : option (list byte * list byte) :=
  match strip_prefix (lit ": ") l with
  | Some v => Some ([], v)
  | None => match l with [] => None | b :: l => '(n, v) ← split_header l; Some (b :: n, v) end
  end.

Definition host_value_ok (value : list byte) : bool :=
  let '(h, p) := match split_once COLON value with Some (h, p) => (h, Some p) | None => (value, None) end in
  valid_host h && match p with None => true | Some p => negb (is_empty p) && (length p <=? 5)%nat && forallb is_digit p end.

Definition header_value_ok (name value : list byte) : bool :=
  if bool_decide (name = lit "User-Agent") then bool_decide (value = USER_AGENT)
  else if bool_decide (name = lit "Accept") then bool_decide (value = lit "*/*")
  else if bool_decide (name = lit "Connection") then bool_decide (value = lit "close")
  else host_value_ok value.

Fixpoint audit_headers (seen : list (list byte)) (lines : list (list byte)) : result RequestError (list (list byte)) :=
  match lines with
  | [] => Ok seen
  | l :: lines =>
      match split_header l with
      | None => bad "malformed header"
      | Some (name, value) =>
          if negb (bool_decide (name ∈ ALLOWED_HEADERS)) then bad "header outside the allowlist"
          else if negb (header_value_ok name value) then bad "header value is not the fixed value"
          else audit_headers (seen ++ [name]) lines
      end
  end.

Definition target_refused (target : list byte) : bool :=
  existsb (fun b => bool_decide (b ∈ lit "?#%:@\")) target || negb (starts SLASH target) || (MAX_TARGET_BYTES <? length target)%nat ||
  contains (lit "//") target || contains (lit "/.") target.

Definition sendable (b : byte) : bool := bool_decide (b = CR) || bool_decide (b = LF) || in_range 0x20 0x7e b.

Definition audit (bytes : list byte) : result RequestError unit :=
  if (MAX_REQUEST_BYTES <? length bytes)%nat then bad "request too long"
  else if negb (forallb sendable bytes) then bad "non-ASCII byte in request"
  else if negb (is_utf8 bytes) then bad "not ASCII"
  else
    head ← ok_or (strip_suffix (CRLF ++ CRLF) bytes) "request does not end with an empty line, or has a body"%string;
    if contains [LF; CR] head || existsb (fun b => bool_decide (b = CR) || bool_decide (b = LF)) (remove_crlf head) then bad "bare CR or LF"
    else
      match split_crlf head with
      | [] => bad "empty request"
      | request_line :: lines =>
          match split_on x20 request_line with
          | [get; target; version] =>
              if negb (bool_decide (get = lit "GET") && bool_decide (version = lit "HTTP/1.1")) then bad "request line is not `GET <path> HTTP/1.1`"
              else if target_refused target then bad "request path has a query, fragment, escape or dot segment"
              else
                seen ← audit_headers [] lines;
                if negb (bool_decide (seen = ALLOWED_HEADERS)) then bad "headers are not exactly the allowlist, in order" else Ok tt
          | _ => bad "request line is not `GET <path> HTTP/1.1`"
          end
      end.

(** ** Building *)
Definition host_header (m : Mirror) : list byte := if port m =? 443 then host m else host m ++ COLON :: decimal (port m).

Definition request_text (target host : list byte) : list byte :=
  lit "GET " ++ target ++ lit " HTTP/1.1" ++ CRLF ++ lit "Host: " ++ host ++ CRLF ++ lit "User-Agent: " ++ USER_AGENT ++ CRLF ++
  lit "Accept: */*" ++ CRLF ++ lit "Connection: close" ++ CRLF ++ CRLF.

Definition resource_refused (resource : list byte) : bool :=
  is_empty resource || (128 <? length resource)%nat || negb (path_chars_ok resource) || starts SLASH resource ||
  existsb hidden (split_on SLASH resource).

Definition build_get (mirror : Mirror) (resource : list byte) : result RequestError (list byte) :=
  _ ← validate mirror;
  if resource_refused resource then bad "resource is not a plain relative path"
  else
    let bytes := request_text (base mirror ++ SLASH :: resource) (host_header mirror) in
    _ ← audit bytes;
    Ok bytes.

Definition MANIFEST_RESOURCE : list byte := lit "manifest.txt".
Definition SIGNATURE_RESOURCE : list byte := lit "manifest.sig".
Definition build_check_request (mirror : Mirror) : result RequestError (list byte) := build_get mirror MANIFEST_RESOURCE.

Example check_request : build_check_request (mkMirror (lit "mirror.example.net") 443 (lit "/v1")) =
  Ok (request_text (lit "/v1/manifest.txt") (lit "mirror.example.net")).
Proof. by vm_compute. Qed.

(** * What an update request can hold

    The audit passes exactly the texts made of a plain path and a host, and the
    builder's own requests always pass it. *)
(** ** Lines *)
Fixpoint join_crlf (ps : list (list byte)) : list byte :=
  match ps with [] => [] | [p] => p | p :: ps => p ++ CRLF ++ join_crlf ps end.

Lemma join_crlf_cons p q ps : join_crlf (p :: q :: ps) = p ++ CRLF ++ join_crlf (q :: ps).
Proof. done. Qed.

Lemma split_crlf_ne l : split_crlf l <> [].
Proof.
  induction l as [l IH] using (induction_ltof1 _ (@length byte)). destruct l as [|a [|b t]]; [simpl; congruence..|]. cbn [split_crlf].
  destruct (_ && _); [congruence|]. destruct (match t with [] => _ | _ => _ end); congruence.
Qed.

Lemma join_split_crlf l : join_crlf (split_crlf l) = l.
Proof.
  induction l as [l IH] using (induction_ltof1 _ (@length byte)). unfold ltof in IH. destruct l as [|a [|b t]]; [done|done|].
  change (split_crlf (a :: b :: t)) with (if bool_decide (a = CR) && bool_decide (b = LF) then [] :: split_crlf t
    else match split_crlf (b :: t) with p :: ps => (a :: p) :: ps | [] => [[a]] end).
  destruct (bool_decide (a = CR) && bool_decide (b = LF)) eqn:E.
  - apply andb_true_iff in E as [->%bool_decide_eq_true ->%bool_decide_eq_true]. pose proof (split_crlf_ne t) as Hne.
    pose proof (IH t ltac:(simpl; lia)) as Ht. destruct (split_crlf t) as [|q qs]; [done|]. rewrite join_crlf_cons, Ht. done.
  - pose proof (split_crlf_ne (b :: t)) as Hne. pose proof (IH (b :: t) ltac:(simpl; lia)) as Ht. destruct (split_crlf (b :: t)) as [|q qs]; [done|].
    destruct qs as [|r qs]; [by cbn [join_crlf] in *; rewrite Ht|]. rewrite join_crlf_cons in *. cbn [app] in *. by rewrite Ht.
Qed.

(** A line has neither of the two bytes. *)
Definition clean (l : list byte) : Prop := CR ∉ l /\ LF ∉ l.

Lemma clean_cons b l : clean (b :: l) <-> b <> CR /\ b <> LF /\ clean l.
Proof. unfold clean. rewrite !not_elem_of_cons. naive_solver. Qed.
Lemma clean_app a b : clean (a ++ b) <-> clean a /\ clean b.
Proof. unfold clean. rewrite !not_elem_of_app. tauto. Qed.

Lemma split_crlf_cons b l : b <> CR -> split_crlf (b :: l) = match split_crlf l with p :: ps => (b :: p) :: ps | [] => [[b]] end.
Proof. intros Hb. destruct l as [|c l]; [done|]. cbn [split_crlf]. by rewrite bool_decide_eq_false_2. Qed.

Lemma split_crlf_clean p : clean p -> split_crlf p = [p].
Proof. induction p as [|b p IH]; [done|]. intros (Hb & _ & Hp)%clean_cons. by rewrite split_crlf_cons, IH. Qed.

Lemma split_crlf_app p l : clean p -> split_crlf (p ++ CRLF ++ l) = p :: split_crlf l.
Proof. induction p as [|b p IH]; [done|]. intros (Hb & _ & Hp)%clean_cons. cbn [app]. by rewrite split_crlf_cons, IH. Qed.

Lemma split_join_crlf ps : ps <> [] -> Forall clean ps -> split_crlf (join_crlf ps) = ps.
Proof.
  induction ps as [|p ps IH]; [done|]. intros _ [Hp Hps]%Forall_cons. destruct ps as [|q ps]; [by apply split_crlf_clean|].
  rewrite join_crlf_cons, split_crlf_app by done. by rewrite IH.
Qed.

(** Whoever looks for a pair finds it where it is. *)
Lemma contains_spec p l : contains p l = true <-> exists a b, l = a ++ p ++ b.
Proof.
  induction l as [|c l IH].
  - cbn [contains]. rewrite orb_false_r. unfold has_prefix. rewrite bool_decide_eq_true. split.
    + intros [r Hr%strip_prefix_Some]. by exists [], r.
    + intros (a & b & E). destruct a; [|done]. exists b. by apply strip_prefix_Some.
  - cbn [contains]. rewrite orb_true_iff, IH. unfold has_prefix. rewrite bool_decide_eq_true. split.
    + intros [[r Hr%strip_prefix_Some]|(a & b & ->)]; [by exists [], r|]. by exists (c :: a), b.
    + intros ([|x a] & b & E); [left; exists b; by apply strip_prefix_Some|]. right. injection E as -> ->. by exists a, b.
Qed.

Lemma contains_false p l : contains p l = false <-> forall a b, l <> a ++ p ++ b.
Proof.
  split.
  - intros E a b ->. by rewrite (proj2 (contains_spec p _)) in E by eauto.
  - intros Hn. destruct (contains p l) eqn:E; [|done]. apply contains_spec in E as (a & b & ->). by destruct (Hn a b).
Qed.

(** A pair of bytes, as two neighbours. *)
Definition adjacent (x y : byte) (l : list byte) : Prop := exists a b, l = a ++ x :: y :: b.

Lemma adjacent_nil x y : ~ adjacent x y [].
Proof. intros (a & b & E). by destruct a. Qed.
Lemma adjacent_cons x y c l : adjacent x y (c :: l) <-> (c = x /\ head l = Some y) \/ adjacent x y l.
Proof.
  split.
  - intros ([|d a] & b & E); [injection E as -> ->; by left|]. injection E as -> ->. right. by exists a, b.
  - intros [[-> Hh]|(a & b & ->)]; [destruct l as [|d l]; [done|]; injection Hh as ->; by exists [], l|by exists (c :: a), b].
Qed.

Lemma adjacent_app x y a b : adjacent x y (a ++ b) <-> adjacent x y a \/ (last a = Some x /\ head b = Some y) \/ adjacent x y b.
Proof.
  induction a as [|c a IH].
  - cbn [app last]. split; [tauto|]. intros [H|[[H _]|H]]; [by apply adjacent_nil in H|done|done].
  - cbn [app]. rewrite !adjacent_cons, IH. destruct a as [|d a].
    + cbn [app last head]. split; [intros [[-> H]|[H|[[H ?]|H]]]; naive_solver|]. intros [[[-> H]|H]|[[[= ->] H]|H]]; naive_solver.
    + cbn [app head]. change (last (c :: d :: a)) with (last (d :: a)). tauto.
Qed.

Lemma contains_adjacent x y l : contains [x; y] l = true <-> adjacent x y l.
Proof. rewrite contains_spec. done. Qed.

Lemma contains_adjacent_false x y l : contains [x; y] l = false <-> ~ adjacent x y l.
Proof. rewrite <- contains_adjacent. destruct (contains _ _); naive_solver. Qed.

(** ** Headers *)
Lemma split_header_sound l n v : split_header l = Some (n, v) -> l = n ++ lit ": " ++ v.
Proof.
  revert n v. induction l as [|b l IH]; intros n v; cbn [split_header].
  - by destruct (strip_prefix _ _) eqn:E; [apply strip_prefix_Some in E|].
  - destruct (strip_prefix _ _) as [r|] eqn:E; [intros [= <- <-]; by apply strip_prefix_Some in E|].
    destruct (split_header l) as [[n' v']|]; [|done]. cbn [mbind option_bind]. intros [= <- <-]. by rewrite (IH n' v').
Qed.

Lemma split_header_complete n v : COLON ∉ n -> split_header (n ++ lit ": " ++ v) = Some (n, v).
Proof.
  induction n as [|b n IH]; intros Hn.
  - cbn [app]. assert (strip_prefix (lit ": ") (lit ": " ++ v) = Some v) as E by by apply strip_prefix_Some.
    revert E. generalize (lit ": " ++ v). intros l E. destruct l; cbn [split_header]; by rewrite E.
  - apply not_elem_of_cons in Hn as [Hb Hn]. cbn [app split_header]. assert (strip_prefix (lit ": ") (b :: n ++ lit ": " ++ v) = None) as ->.
    { destruct (strip_prefix _ _) as [r|] eqn:E; [|done]. apply strip_prefix_Some in E. injection E as -> _. done. }
    by rewrite IH.
Qed.

Definition header_line (h : list byte * list byte) : list byte := h.1 ++ lit ": " ++ h.2.
Definition header_ok (h : list byte * list byte) : Prop := h.1 ∈ ALLOWED_HEADERS /\ header_value_ok h.1 h.2 = true.

Lemma audit_headers_sound seen lines seen' : audit_headers seen lines = Ok seen' ->
  exists hs, lines = map header_line hs /\ seen' = seen ++ map fst hs /\ Forall header_ok hs.
Proof.
  revert seen. induction lines as [|l lines IH]; intros seen; cbn [audit_headers].
  - intros [= <-]. exists []. by rewrite app_nil_r.
  - destruct (split_header l) as [[n v]|] eqn:E; [|done]. apply split_header_sound in E as ->. case_bool_decide as Hn; [|done]. cbn [negb].
    destruct (header_value_ok n v) eqn:Ev; [|done]. cbn [negb]. intros (hs & -> & -> & Hf)%IH. exists ((n, v) :: hs). split_and!; [done| |by constructor].
    by rewrite <- app_assoc.
Qed.

Lemma allowed_no_colon n : n ∈ ALLOWED_HEADERS -> COLON ∉ n.
Proof. revert n. apply Forall_forall. repeat (constructor; [by apply (bool_decide_unpack _)|]). constructor. Qed.

Lemma audit_headers_complete seen hs : Forall header_ok hs -> audit_headers seen (map header_line hs) = Ok (seen ++ map fst hs).
Proof.
  intros Hf. revert seen. induction Hf as [|[n v] hs [Hn Hv] _ IH]; intros seen; cbn [map audit_headers]; [by rewrite app_nil_r|].
  unfold header_line at 1. cbn [fst snd] in *. rewrite split_header_complete by by apply allowed_no_colon. rewrite bool_decide_eq_true_2 by done. rewrite Hv. cbn [negb].
  by rewrite IH, <- app_assoc.
Qed.

(** The four headers of a request to a host. *)
Definition headers (host : list byte) : list (list byte * list byte) :=
  [(lit "Host", host); (lit "User-Agent", USER_AGENT); (lit "Accept", lit "*/*"); (lit "Connection", lit "close")].

Lemma allowed_headers hs : Forall header_ok hs -> map fst hs = ALLOWED_HEADERS -> exists host, hs = headers host /\ host_value_ok host = true.
Proof.
  intros Hf E. unfold ALLOWED_HEADERS in E. destruct hs as [|[n1 v1] [|[n2 v2] [|[n3 v3] [|[n4 v4] [|]]]]]; try done. cbn [map fst] in E.
  injection E as -> -> -> ->. rewrite !Forall_cons in Hf. destruct Hf as ([_ H1] & [_ H2] & [_ H3] & [_ H4] & _). cbn [fst snd] in *.
  exists v1. split; [|exact H1].
  assert (v2 = USER_AGENT) as -> by by apply bool_decide_eq_true in H2. assert (v3 = lit "*/*") as -> by by apply bool_decide_eq_true in H3.
  assert (v4 = lit "close") as -> by by apply bool_decide_eq_true in H4. done.
Qed.

Definition request_line (target : list byte) : list byte := lit "GET" ++ x20 :: target ++ x20 :: lit "HTTP/1.1".

Lemma request_text_lines target host : request_text target host = join_crlf (request_line target :: map header_line (headers host)) ++ CRLF ++ CRLF.
Proof.
  unfold request_text, request_line, headers, header_line. cbn [map fst snd]. rewrite !join_crlf_cons. cbn [join_crlf]. rewrite <- !app_assoc. cbn [app].
  rewrite <- !app_assoc. cbn [app]. rewrite <- ?app_assoc. done.
Qed.

(** What a request may hold. *)
Definition request_ok (target host : list byte) : Prop :=
  target_refused target = false /\ plain target /\ x20 ∉ target /\ host_value_ok host = true /\
  (length (request_text target host) <= MAX_REQUEST_BYTES)%nat.

Lemma clean_existsb l : existsb (fun b => bool_decide (b = CR) || bool_decide (b = LF)) l = false <-> clean l.
Proof.
  rewrite existsb_false. induction l as [|b l IH]; [split; [split; apply not_elem_of_nil|constructor]|]. rewrite Forall_cons, clean_cons, IH, orb_false_iff, !bool_decide_eq_false. tauto.
Qed.

Lemma sendable_plain l : forallb sendable l = true -> clean l -> plain l.
Proof.
  rewrite forallb_true. intros Hf [H1 H2]. apply Forall_forall. intros b Hb. rewrite Forall_forall in Hf. specialize (Hf b Hb). unfold sendable in Hf.
  apply orb_true_iff in Hf as [[E%bool_decide_eq_true|E%bool_decide_eq_true]%orb_true_iff|E]; [by subst|by subst|done].
Qed.

Lemma audit_sound bytes u : audit bytes = Ok u -> exists target host, bytes = request_text target host /\ request_ok target host.
Proof.
  unfold audit. destruct (_ <? _)%nat eqn:El; [done|]. apply Nat.ltb_ge in El. destruct (forallb sendable bytes) eqn:Es; [|done]. cbn [negb].
  destruct (is_utf8 bytes); [|done]. cbn [negb]. intros (hd & Eh%ok_or_Ok%strip_suffix_Some & H)%bind_Ok.
  destruct (_ || _) eqn:Ec in H; [done|]. apply orb_false_iff in Ec as [_ Ec%clean_existsb].
  pose proof (join_split_crlf hd) as Ej. unfold remove_crlf in Ec. destruct (split_crlf hd) as [|rl lines] eqn:Esp; [done|].
  destruct (split_on x20 rl) as [|get [|target [|ver [|]]]] eqn:Er; try done. destruct (_ && _) eqn:Eg in H; [|done]. cbn [negb] in H.
  apply andb_true_iff in Eg as [->%bool_decide_eq_true ->%bool_decide_eq_true]. destruct (target_refused target) eqn:Et; [done|].
  apply bind_Ok in H as (seen & (hs & -> & -> & Hf)%audit_headers_sound & H). case_bool_decide as Ea; [|done].
  destruct (allowed_headers hs Hf Ea) as (host & -> & Hh). exists target, host. pose proof (join_split x20 rl) as Erl. rewrite Er in Erl.
  assert (bytes = request_text target host) as Eb by (rewrite request_text_lines, Eh, <- Ej, <- Erl; done).
  split; [done|]. split_and!; [done| | |done|by rewrite <- Eb].
  - rewrite Eh, forallb_app, <- Ej, <- Erl in Es. apply andb_true_iff in Es as [Es _]. unfold headers in Es. cbn [map] in Es. rewrite join_crlf_cons, forallb_app in Es.
    apply andb_true_iff in Es as [Es _]. cbn [concat] in Ec. apply clean_app in Ec as [Ec _]. rewrite <- Erl in Ec.
    pose proof (sendable_plain _ Es Ec) as Hp. cbn [join_with] in Hp. apply plain_app in Hp as [_ Hp]. apply Forall_cons in Hp as [_ Hp]. by apply plain_app in Hp as [Hp _].
  - apply (split_on_nosep x20 rl). rewrite Er. right. by left.
Qed.

(** ** Every such request passes *)
Lemma plain_clean l : plain l -> clean l.
Proof. intros Hp. unfold plain in Hp. rewrite Forall_forall in Hp. split; intros Hin; by apply Hp in Hin. Qed.

Lemma clean_no_pair l : clean l -> ~ adjacent LF CR l.
Proof. intros [_ H] (a & b & ->). apply H. apply elem_of_app. right. by left. Qed.

Lemma join_crlf_head ps p : head ps = Some p -> p <> [] -> head (join_crlf ps) = head p.
Proof. destruct ps as [|q [|r ps]]; [done|by intros [= ->]|]. intros [= ->] Hp. rewrite join_crlf_cons. by destruct p. Qed.

Lemma join_crlf_no_pair ps : Forall (fun p => clean p /\ p <> []) ps -> ~ adjacent LF CR (join_crlf ps).
Proof.
  induction 1 as [|p ps [Hp Hne] Hps IH]; [apply adjacent_nil|]. destruct ps as [|q ps]; [by apply clean_no_pair|]. rewrite join_crlf_cons.
  rewrite adjacent_app. intros [Ha|[[Hl _]|Ha]]; [by eapply clean_no_pair|by apply last_Some_elem_of in Hl; destruct Hp|].
  unfold CRLF in Ha. cbn [app] in Ha. rewrite !adjacent_cons in Ha. destruct Ha as [[E _]|[[_ E]|Ha]]; [done| |done].
  apply Forall_cons in Hps as [[[Hq _] Hqne] _]. rewrite (join_crlf_head _ q) in E by done. destruct q as [|c q]; [done|]. injection E as ->. apply Hq. by left.
Qed.

Lemma clean_concat ps : Forall clean ps -> clean (concat ps).
Proof. induction 1 as [|p ps Hp _ IH]; [split; apply not_elem_of_nil|]. cbn [concat]. by apply clean_app. Qed.

Lemma split_host_chars h : valid_host h = true -> plain h.
Proof.
  unfold valid_host. intros [_ Hf%forallb_true]%andb_true_iff. rewrite <- (join_split DOT h). revert Hf. generalize (split_on DOT h). intros ps Hf.
  induction Hf as [|p ps Hp Hps IH]; [constructor|].
  assert (plain p) as Hpp.
  { unfold host_label in Hp. apply andb_true_iff in Hp as [_ Hp%forallb_true]. revert Hp. apply plain_impl. intros b. unfold is_lower, is_digit, in_range.
    intros Hb. repeat (apply orb_true_iff in Hb as [Hb|Hb]); try (apply bool_decide_eq_true in Hb; by subst); lia. }
  destruct ps as [|q ps]; [done|]. change (join_with DOT (p :: q :: ps)) with (p ++ DOT :: join_with DOT (q :: ps)).
  apply plain_app. split; [done|]. constructor; [done|exact IH].
Qed.

Lemma host_value_plain v : host_value_ok v = true -> plain v /\ v <> [].
Proof.
  unfold host_value_ok. destruct (split_once COLON v) as [[h p]|] eqn:E.
  - apply split_once_spec in E as [-> _]. intros [Hh Hp]%andb_true_iff. split; [|by destruct h]. apply plain_app. split; [by apply split_host_chars|].
    constructor; [done|]. apply andb_true_iff in Hp as [_ Hp%forallb_true]. revert Hp. apply plain_impl. intros b. unfold is_digit, in_range. lia.
  - rewrite andb_true_r. intros Hh. split; [by apply split_host_chars|]. by intros ->.
Qed.

Lemma request_lines_clean target host : request_ok target host ->
  Forall (fun p => plain p /\ p <> []) (request_line target :: map header_line (headers host)).
Proof.
  intros (_ & Ht & _ & [Hh _]%host_value_plain & _). unfold headers, header_line. cbn [map fst snd]. rewrite !Forall_cons. split_and!; try done; try (by repeat constructor).
  - unfold request_line. rewrite plain_app. split; [by repeat constructor|]. constructor; [done|]. apply plain_app. split; [done|]. by repeat constructor.
Qed.

Lemma split_request_line target : x20 ∉ target -> split_on x20 (request_line target) = [lit "GET"; target; lit "HTTP/1.1"].
Proof. intros Ht. unfold request_line. rewrite split_on_app by by apply (bool_decide_unpack _). by rewrite split_on_app. Qed.

Lemma audit_complete target host : request_ok target host -> audit (request_text target host) = Ok tt.
Proof.
  intros Hok. pose proof (request_lines_clean _ _ Hok) as Hlines. destruct Hok as (Ht & _ & Hsp & Hh & Hlen).
  set (ps := request_line target :: map header_line (headers host)) in *. pose proof (request_text_lines target host) as Etext. fold ps in Etext.
  assert (Forall clean ps) as Hclean by (eapply Forall_impl; [exact Hlines|]; intros p [Hp _]; by apply plain_clean).
  assert (forall p, plain p -> forallb sendable p = true /\ is_ascii p = true) as Hplain.
  { intros p Hp. split; apply forallb_true; (eapply Forall_impl; [exact Hp|]); intros b Hb; [unfold sendable; rewrite Hb; apply orb_true_r|by apply in_range_ascii in Hb as [? _]]. }
  assert (forallb sendable (join_crlf ps) = true /\ is_ascii (join_crlf ps) = true) as [Hs Ha].
  { clear - Hlines Hplain. induction Hlines as [|p ps [Hp _] _ [IH1 IH2]]; [done|]. destruct (Hplain p Hp) as [H1 H2]. destruct ps as [|q ps]; [done|].
    rewrite join_crlf_cons. unfold is_ascii in *. rewrite !forallb_app, H1, H2, IH1, IH2. done. }
  unfold audit. rewrite (proj2 (Nat.ltb_ge _ _) Hlen). rewrite Etext. unfold is_ascii in Ha.
  rewrite !forallb_app, Hs. cbn [forallb andb negb CRLF]. change (forallb sendable CRLF) with true. cbn [andb negb].
  rewrite ascii_is_utf8 by (unfold is_ascii; by rewrite !forallb_app, Ha). cbn [negb].
  rewrite (proj2 (strip_suffix_Some (CRLF ++ CRLF) _ (join_crlf ps))) by done. cbn [ok_or mbind result_bind].
  rewrite (proj2 (contains_adjacent_false LF CR _)).
  2: { apply join_crlf_no_pair. eapply Forall_impl; [exact Hlines|]. intros p [Hp Hne]. split; [by apply plain_clean|done]. }
  unfold remove_crlf. rewrite split_join_crlf by done. rewrite (proj2 (clean_existsb _)) by by apply clean_concat. cbn [orb].
  unfold ps. rewrite split_request_line by done. rewrite !bool_decide_eq_true_2 by done. cbn [andb negb]. rewrite Ht.
  rewrite audit_headers_complete.
  2: { unfold headers. repeat (constructor; [split; [by apply (bool_decide_unpack _)|done]|]). constructor. }
  cbn [mbind result_bind app]. by rewrite bool_decide_eq_true_2.
Qed.

(** the audit lets through exactly the requests made of a plain path and a
    host: a request line, the four headers with their fixed values, no body. *)
Theorem requests_say_nothing_else bytes : audit bytes = Ok tt <-> exists target host, bytes = request_text target host /\ request_ok target host.
Proof. split; [by apply audit_sound|]. intros (target & host & -> & Hok). by apply audit_complete. Qed.

(** ** The builder *)
(** Path segments that are neither empty nor hidden, with nothing of a slash. *)
Definition segment_ok (p : list byte) : Prop := hidden p = false /\ SLASH ∉ p.

Lemma segments_no_pair c ps : c = SLASH \/ c = DOT -> ps <> [] -> Forall segment_ok ps -> ~ adjacent SLASH c (SLASH :: join_with SLASH ps).
Proof.
  intros Hc Hne Hps. induction Hps as [|p ps [Hh Hs] Hps IH]; [done|].
  assert (p <> [] /\ head p <> Some c) as [Hp Hhd].
  { unfold hidden in Hh. apply orb_false_iff in Hh as [H1%bool_decide_eq_false H2%bool_decide_eq_false]. split; [done|]. intros E. destruct Hc as [-> | ->]; [|done].
    destruct p as [|b p]; [done|]. injection E as ->. apply Hs. by left. }
  assert (~ adjacent SLASH c p) as Hin by (intros (a & b & ->); apply Hs, elem_of_app; right; by left).
  destruct ps as [|q ps].
  - cbn [join_with]. rewrite adjacent_cons. naive_solver.
  - change (join_with SLASH (p :: q :: ps)) with (p ++ SLASH :: join_with SLASH (q :: ps)). rewrite adjacent_cons, adjacent_app.
    intros [[_ E]|[H|[[E _]|H]]]; [by destruct p|done| |by apply IH in H]. apply Hs. by apply last_Some_elem_of.
Qed.

Lemma segments_of l : existsb hidden (split_on SLASH l) = false -> Forall segment_ok (split_on SLASH l).
Proof.
  rewrite existsb_false, !Forall_forall. intros Hh p Hp. split; [by apply Hh|by apply (split_on_nosep SLASH l)].
Qed.

Lemma path_chars_target l : path_chars_ok l = true -> plain l /\ x20 ∉ l /\ Forall (fun b => b ∉ lit "?#%:@\") l.
Proof.
  unfold path_chars_ok. rewrite forallb_true. intros Hf.
  assert (forall b, path_char b = true -> in_range 0x20 0x7e b = true /\ b <> x20 /\ b ∉ lit "?#%:@\") as H.
  { intros b Hb. split_and!; [|by intros ->|].
    - unfold path_char, is_lower, is_upper, is_digit, in_range in *. repeat (apply orb_true_iff in Hb as [Hb|Hb]); try (apply bool_decide_eq_true in Hb; by subst); lia.
    - intros Hin. revert Hb. revert b Hin. apply (proj1 (Forall_forall (fun b => path_char b = true -> False) _)). repeat (constructor; [by vm_compute|]). constructor. }
  split_and!; [|intros Hin; rewrite Forall_forall in Hf; by apply Hf, H in Hin as (_ & ? & _)|]; (eapply Forall_impl; [exact Hf|]); intros b Hb; by apply H in Hb as (? & _ & ?).
Qed.

(** Where an update may be asked for. *)
Definition mirror_ok (m : Mirror) : Prop := validate m = Ok tt /\ 0 <= port m <= U16_MAX.

Lemma validate_Ok m u : validate m = Ok u -> valid_host (host m) = true /\ port m <> 0 /\
  (base m = [] \/ (exists segs, base m = SLASH :: join_with SLASH segs /\ segs <> [] /\ Forall segment_ok segs /\ (length (base m) <= 64)%nat /\ path_chars_ok (base m) = true)).
Proof.
  unfold validate. destruct (valid_host (host m)); [|done]. cbn [negb]. destruct (port m =? 0) eqn:Ep; [done|]. apply Z.eqb_neq in Ep. cbv zeta.
  destruct (is_empty (base m)) eqn:Ee; cbn [negb andb]; [apply bool_decide_eq_true in Ee; intros _; split_and!; [done..|by left]|].
  destruct (_ || existsb hidden _) eqn:E at 1; [done|]. intros _. split_and!; [done..|]. right. apply orb_false_iff in E as [E E6].
  do 4 (apply orb_false_iff in E as [E ?]). apply negb_false_iff, bool_decide_eq_true in E. destruct (base m) as [|b l] eqn:Eb; [done|]. injection E as ->.
  exists (split_on SLASH l). rewrite join_split. assert (split_on SLASH (SLASH :: l) = [] :: split_on SLASH l) as Esp by done.
  rewrite Esp in E6. change (drop 1 ([] :: split_on SLASH l)) with (split_on SLASH l) in E6.
  split_and!; [done|apply split_on_ne|by apply segments_of|by apply Nat.ltb_ge|by apply negb_false_iff].
Qed.

Lemma join_with_app c ps qs : ps <> [] -> qs <> [] -> join_with c (ps ++ qs) = join_with c ps ++ c :: join_with c qs.
Proof.
  intros Hp Hq. induction ps as [|p ps IH]; [done|]. destruct ps as [|q ps]; [by destruct qs|].
  change ((p :: q :: ps) ++ qs) with (p :: (q :: ps) ++ qs). change (join_with c (p :: q :: ps)) with (p ++ c :: join_with c (q :: ps)).
  rewrite <- app_assoc. cbn [app]. rewrite <- IH by done. done.
Qed.

Lemma build_request_ok m resource u : validate m = Ok u -> 0 <= port m <= U16_MAX -> resource_refused resource = false ->
  request_ok (base m ++ SLASH :: resource) (host_header m).
Proof.
  intros (Hh & Hp & Hb)%validate_Ok Hport Hr. unfold resource_refused in Hr. apply orb_false_iff in Hr as [Hr Hseg%segments_of].
  do 3 (apply orb_false_iff in Hr as [Hr ?]). apply bool_decide_eq_false in Hr.
  match goal with H : (128 <? _)%nat = false |- _ => apply Nat.ltb_ge in H; rename H into Hlen end.
  match goal with H : negb _ = false |- _ => apply negb_false_iff, path_chars_target in H as (P1 & P2 & P3) end.
  set (target := base m ++ SLASH :: resource).
  assert (plain target /\ x20 ∉ target /\ Forall (fun b => b ∉ lit "?#%:@\") target /\ (length target <= 193)%nat /\ head target = Some SLASH /\
    exists segs, target = SLASH :: join_with SLASH segs /\ segs <> [] /\ Forall segment_ok segs) as (T1 & T2 & T3 & T4 & T5 & segs & T6 & T7 & T8).
  { unfold target. destruct Hb as [->|(bs & Eb & Hbs & Hbf & Hbl & (B1 & B2 & B3)%path_chars_target)].
    - cbn [app]. split_and!; [by constructor|apply not_elem_of_cons; by split|constructor; [by apply (bool_decide_unpack _)|done]|simpl; lia|done|].
      exists (split_on SLASH resource). rewrite join_split. split_and!; [done|apply split_on_ne|done].
    - split_and!.
      + apply plain_app. split; [done|by constructor].
      + rewrite not_elem_of_app, not_elem_of_cons. done.
      + apply Forall_app. split; [done|]. constructor; [by apply (bool_decide_unpack _)|done].
      + rewrite length_app. simpl. lia.
      + by rewrite Eb.
      + exists (bs ++ split_on SLASH resource). rewrite join_with_app by (done || apply split_on_ne). rewrite join_split. split_and!.
        * by rewrite Eb.
        * by destruct bs.
        * by apply Forall_app. }
  assert (host_value_ok (host_header m) = true /\ (length (host_header m) <= 259)%nat) as [H1 H2].
  { assert (COLON ∉ host m) as Hcolon.
    { intros Hin. unfold valid_host in Hh. apply andb_true_iff in Hh as [_ Hl%forallb_true]. rewrite <- (join_split DOT (host m)) in Hin. revert Hin Hl.
      generalize (split_on DOT (host m)). intros ps Hin Hl. induction Hl as [|p ps Hp' Hps IH]; [by apply elem_of_nil in Hin|].
      assert (COLON ∉ p) as Hnp. { unfold host_label in Hp'. apply andb_true_iff in Hp' as [_ Hf%forallb_true]. intros Hi. rewrite Forall_forall in Hf. by apply Hf in Hi. }
      destruct ps as [|q ps]; [done|]. change (join_with DOT (p :: q :: ps)) with (p ++ DOT :: join_with DOT (q :: ps)) in Hin.
      apply elem_of_app in Hin as [?|Hin]; [done|]. apply elem_of_cons in Hin as [?|Hin]; [done|by apply IH]. }
    assert (length (host m) <= 253)%nat as Hl by (unfold valid_host in Hh; apply andb_true_iff in Hh as [[_ Hl%Nat.leb_le]%andb_true_iff _]; done).
    unfold host_header, host_value_ok. destruct (port m =? 443).
    - rewrite (proj2 (split_once_None COLON _) Hcolon), Hh. split; [done|lia].
    - rewrite (proj2 (split_once_spec COLON _ (host m) (decimal (port m)))) by done. rewrite Hh. cbn [andb].
      destruct (decimal_canonical (port m) 4) as [Ec _]; [unfold U16_MAX, U64_MAX in *; lia|lia|change (10 ^ (4 + 1)) with 100000; unfold U16_MAX in *; lia|].
      unfold canonical_digits in Ec. change (Z.to_nat (4 + 1)) with 5%nat in Ec. apply andb_true_iff in Ec as [[E1 E2%negb_true_iff%Nat.ltb_ge]%andb_true_iff E3].
      unfold is_empty. rewrite E1, E3, (proj2 (Nat.leb_le _ _) E2). split; [done|]. rewrite length_app. simpl. lia. }
  split_and!; [|done|done|done|].
  - unfold target_refused. rewrite (proj2 (existsb_false _ _)) by (eapply Forall_impl; [exact T3|]; intros b Hb'; by apply bool_decide_eq_false).
    unfold starts. rewrite T5, bool_decide_eq_true_2 by done. rewrite (proj2 (Nat.ltb_ge _ _)) by (unfold MAX_TARGET_BYTES; lia). cbn [negb orb].
    change (lit "//") with [SLASH; SLASH]. change (lit "/.") with [SLASH; DOT]. rewrite T6.
    by rewrite !(proj2 (contains_adjacent_false SLASH _ _)) by (apply segments_no_pair; auto).
  - unfold request_text, MAX_REQUEST_BYTES. rewrite !length_app. fold target. simpl (length (lit _)). simpl (length CRLF). simpl (length USER_AGENT). lia.
Qed.

(** For a mirror and a resource that are plain, the builder makes the one
    request for them (its own audit never refuses it), and refuses any other. *)
Theorem requests_are_built m resource bytes : 0 <= port m <= U16_MAX ->
  (build_get m resource = Ok bytes <->
   mirror_ok m /\ resource_refused resource = false /\ bytes = request_text (base m ++ SLASH :: resource) (host_header m)).
Proof.
  intros Hport. unfold build_get, mirror_ok. split.
  - intros (u & Hv & H)%bind_Ok. destruct u. destruct (resource_refused resource); [done|]. apply bind_Ok in H as (_ & _ & [= <-]). done.
  - intros ([Hv _] & Hr & ->). rewrite Hv, Hr. cbn [mbind result_bind]. cbv zeta. by rewrite (audit_complete _ _ (build_request_ok m resource tt Hv Hport Hr)).
Qed.

Lemma requests_are_built_witness : exists bytes, build_get (mkMirror (lit "mirror.example.net") 8443 (lit "/v1")) (lit "data/psl.dat") = Ok bytes.
Proof.
  exists (request_text (lit "/v1/data/psl.dat") (lit "mirror.example.net:8443")).
  apply (requests_are_built (mkMirror (lit "mirror.example.net") 8443 (lit "/v1")) (lit "data/psl.dat")); [vm_compute; split; discriminate|].
  split; [split; [vm_compute; reflexivity|vm_compute; split; discriminate]|split; vm_compute; reflexivity].
Defined.
