(* ===== verification/Client.v ===== *)
(** * The update client (px-update/src/client.rs)

    One check as a function of the transport, the configuration, the trusted
    keys, the state that is kept and the clock.  The transport is the trait of
    the source: any function that answers a request, with a state of its own. *)
From stdpp Require Import relations.
From Stdlib Require Import Sorting.Sorted.
From S2P Require Import Prelude Bytes OrdMap Text Chars Words Sha2 UpdateText Manifest ManifestProps Trust Request.
Local Open Scope Z_scope.

Definition WEEK_SECS : Z := 7 * 86400.
Definition DAY_SECS : Z := 86400.
Definition MAX_MIRRORS : nat := 8.
Definition MAX_FAILURES : Z := 8.
Definition MAX_ROTATIONS_PER_CHECK : nat := 4.
Definition MAX_SIG_BYTES : Z := 1024.

Inductive TransportError := Connect | Status (code : Z) | BodyTooLarge | Truncated | Other.

Record Config := mkConfig {
  cfg_channel : list byte; cfg_platform : list byte; mirrors : list Mirror;
  cadence_secs : Z; max_data_age_secs : Z; min_retry_secs : Z }.

Definition new_config (channel platform : list byte) (mirrors : list Mirror) : Config :=
  mkConfig channel platform mirrors WEEK_SECS (30 * DAY_SECS) 3600.

Record State := mkState {
  installed : Version; max_sequence : Z; last_check : Z; last_attempt : Z;
  data_versions : list Z; mirror_failures : list Z }.

Definition kind_index (k : DataKind) : nat := match k with Psl => 0 | Hsts => 1 | Roots => 2 end.

Definition new_state (installed : Version) (data_versions : list Z) : State := mkState installed 0 0 0 data_versions [].

Definition data_version (st : State) (k : DataKind) : Z := default 0 (data_versions st !! kind_index k).

Definition with_data (st : State) (v : list Z) : State := mkState (installed st) (max_sequence st) (last_check st) (last_attempt st) v (mirror_failures st).
Definition with_failures (st : State) (f : list Z) : State := mkState (installed st) (max_sequence st) (last_check st) (last_attempt st) (data_versions st) f.

Definition record_data_installed (st : State) (k : DataKind) (version : Z) : State :=
  match data_versions st !! kind_index k with
  | Some slot => if slot <? version then with_data st (<[kind_index k := version]> (data_versions st)) else st
  | None => st
  end.

Definition version_lt (a b : Version) : bool := bool_decide (cmp a b = Lt).

Definition record_release_installed (st : State) (v : Version) : State :=
  if version_lt (installed st) v
  then mkState v (max_sequence st) (last_check st) (last_attempt st) (data_versions st) (mirror_failures st) else st.

Definition failures (st : State) (i : nat) : Z := default 0 (mirror_failures st !! i).
(** [saturating_add(1).min(MAX_FAILURES)]. *)
Definition charge (st : State) (i : nat) : State :=
  with_failures st (alter (fun f => Z.min (Z.min 255 (f + 1)) MAX_FAILURES) i (mirror_failures st)).
Definition clear (st : State) (i : nat) : State := with_failures st (alter (fun _ => 0) i (mirror_failures st)).

(** ** When to check *)
Inductive Due := NotNow | Cadence | StaleData (k : DataKind).
#[export] Instance due_eq_dec : EqDecision Due.
Proof. solve_decision. Defined.

Definition data_age (version now : Z) : option Z := (fun t => sat_sub now t) <$> date_to_unix version.
Definition is_stale (cfg : Config) (st : State) (now : Z) (k : DataKind) : bool :=
  match data_age (data_version st k) now with Some age => max_data_age_secs cfg <? age | None => true end.

(** Too soon after the last attempt. *)
Definition floor_blocks (cfg : Config) (st : State) (now : Z) : bool := (last_attempt st <=? now) && (now - last_attempt st <? min_retry_secs cfg).

Definition due (cfg : Config) (st : State) (now : Z) : Due :=
  if floor_blocks cfg st now then NotNow
  else
    match List.find (is_stale cfg st now) ALL with
    | Some k => StaleData k
    | None =>
        if (0 <? cadence_secs cfg) && ((last_check st =? 0) || (now <? last_check st) || (cadence_secs cfg <=? now - last_check st))
        then Cadence else NotNow
    end.

(** ** Decisions *)
Inductive Trigger := Scheduled | Manual.

Inductive DownloadError := DTransport (e : TransportError) | DRequest (e : RequestError) | SizeMismatch | DigestMismatch | DNoMirrors.

Inductive Reason :=
| NoMirrors
| RRequest (e : RequestError)
| RTransport (e : TransportError)
| RTrust (e : TrustError)
| WrongChannel
| SequenceRollback (offered seen : Z)
| VersionDowngrade (offered current : Version)
| DataDowngrade (k : DataKind)
| TooSoon.

Definition is_security (r : Reason) : bool :=
  match r with RTransport _ | NoMirrors | TooSoon | RRequest _ => false | _ => true end.

Inductive Decision :=
| NotDue
| UpToDate
| UpdateAvailable (release : Release) (artifact : Artifact) (data : list DataEntry)
| DataRefresh (data : list DataEntry)
| Rejected (r : Reason).

Record Outcome := mkOutcome { decision : Decision; o_state : State; o_trust : Trust }.

(** Fewest failures first, then the order of the configuration: the keys are all
    different, so any sort gives this list. *)
Definition mirror_order (st : State) (n : nat) : list nat :=
  map (fun p => Z.to_nat p.2) (sort (map (fun i => (failures st i, Z.of_nat i)) (seq 0 n))).

Definition merge_reason (worst : option Reason) (new : Reason) : option Reason :=
  match worst with Some w => if is_security w || negb (is_security new) then Some w else Some new | None => Some new end.

(** Exact size and both digests. *)
Definition verify_download (file : FileRef) (body : list byte) : result DownloadError unit :=
  if negb (len body =? size file) then Err SizeMismatch
  else if negb (bool_decide (Sha2.sha256 body = sha256 file)) || negb (bool_decide (Sha2.sha512 body = sha512 file)) then Err DigestMismatch
  else Ok tt.

Section client.
Context `{Signatures}.
Context {T : Type} (fetch : T -> Mirror -> list byte -> Z -> result TransportError (list byte) * T).

Definition fetch_checked (t : T) (mirror : Mirror) (resource : list byte) (max_body : Z) : result Reason (list byte) * T :=
  match build_get mirror resource with
  | Err e => (Err (RRequest e), t)
  | Ok request =>
      match audit request with
      | Err e => (Err (RRequest e), t)
      | Ok _ =>
          let '(body, t) := fetch t mirror request max_body in
          match body with
          | Err e => (Err (RTransport e), t)
          | Ok body => if max_body <? len body then (Err (RTransport BodyTooLarge), t) else (Ok body, t)
          end
      end
  end.

Definition fetch_signed (t : T) (mirror : Mirror) (manifest_resource sig_resource : list byte) : result Reason (list byte * SignatureSet) * T :=
  let '(manifest, t) := fetch_checked t mirror manifest_resource (Z.of_nat MAX_MANIFEST_BYTES) in
  match manifest with
  | Err e => (Err e, t)
  | Ok manifest =>
      let '(sig_bytes, t) := fetch_checked t mirror sig_resource MAX_SIG_BYTES in
      match sig_bytes with
      | Err e => (Err e, t)
      | Ok sig_bytes => match parse_signatures sig_bytes with Err e => (Err (RTrust e), t) | Ok sigs => (Ok (manifest, sigs), t) end
      end
  end.

(** Perhaps signed under a newer epoch. *)
Definition may_catch_up (e : TrustError) : bool := match e with ThresholdNotMet _ _ | EpochMismatch _ _ => true | _ => false end.

Definition rotation_name (epoch : Z) (extension : list byte) : list byte := lit "rotation-" ++ decimal epoch ++ extension.

(** The loop of [try_mirror]; [budget] counts the rotations that may still be
    applied.  The trusted keys move in place. *)
Fixpoint catch_up (budget : nat) (first_err : option TrustError) (t : T) (mirror : Mirror) (bytes : list byte) (sigs : SignatureSet)
  (trust : Trust) (now : Z) : result Reason Release * Trust * T :=
  match open_release trust bytes sigs now with
  | Ok r => (Ok r, trust, t)
  | Err e =>
      if may_catch_up e then
        let first := default e first_err in
        match budget with
        | O => (Err (RTrust first), trust, t)
        | S budget =>
            let next := Z.min U32_MAX (epoch trust + 1) in
            let '(fetched, t) := fetch_signed t mirror (rotation_name next (lit ".txt")) (rotation_name next (lit ".sig")) in
            match fetched with
            | Err _ => (Err (RTrust first), trust, t)
            | Ok (rbytes, rsigs) =>
                match apply_rotation trust rbytes rsigs now with
                | Ok trust => catch_up budget (Some first) t mirror bytes sigs trust now
                | Err _ => (Err (RTrust first), trust, t)
                end
            end
        end
      else (Err (RTrust e), trust, t)
  end.

(** What is asked of a release once its signatures are checked. *)
Definition admit_release (cfg : Config) (st : State) (release : Release) : result Reason Release :=
  if negb (bool_decide (channel release = cfg_channel cfg)) then Err WrongChannel
  else if sequence release <? max_sequence st then Err (SequenceRollback (sequence release) (max_sequence st))
  else if version_lt (version release) (installed st) then Err (VersionDowngrade (version release) (installed st))
  else match List.find (fun d => d_version d <? data_version st (kind d)) (data release) with
       | Some d => Err (DataDowngrade (kind d))
       | None => Ok release
       end.

Definition try_mirror (t : T) (mirror : Mirror) (cfg : Config) (trust : Trust) (st : State) (now : Z) : result Reason Release * Trust * T :=
  let '(fetched, t) := fetch_signed t mirror MANIFEST_RESOURCE SIGNATURE_RESOURCE in
  match fetched with
  | Err e => (Err e, trust, t)
  | Ok (bytes, sigs) =>
      let '(release, trust, t) := catch_up MAX_ROTATIONS_PER_CHECK None t mirror bytes sigs trust now in
      (release ≫= admit_release cfg st, trust, t)
  end.

(** The state and the decision after a release is accepted from mirror [i]. *)
Definition accept (cfg : Config) (st : State) (trust : Trust) (i : nat) (now : Z) (release : Release) : Outcome :=
  let st := clear st i in
  let st := mkState (installed st) (Z.max (max_sequence st) (sequence release)) now (last_attempt st) (data_versions st) (mirror_failures st) in
  let data := List.filter (fun d => data_version st (kind d) <? d_version d) (data release) in
  let artifact := List.find (fun a => bool_decide (platform a = cfg_platform cfg)) (artifacts release) in
  let decision :=
    match artifact with
    | Some artifact => if version_lt (installed st) (version release) then UpdateAvailable release artifact data
                       else if bool_decide (data <> []) then DataRefresh data else UpToDate
    | None => if bool_decide (data <> []) then DataRefresh data else UpToDate
    end in
  mkOutcome decision st trust.

Fixpoint try_mirrors (t : T) (cfg : Config) (trust : Trust) (st : State) (now : Z) (worst : option Reason) (order : list nat) : Outcome * T :=
  match order with
  | [] => (mkOutcome (Rejected (default NoMirrors worst)) st trust, t)
  | i :: order =>
      match mirrors cfg !! i with
      | None => try_mirrors t cfg trust st now worst order
      | Some mirror =>
          let '(release, trust, t) := try_mirror t mirror cfg trust st now in
          match release with
          | Ok release => (accept cfg st trust i now release, t)
          | Err reason => try_mirrors t cfg trust (charge st i) now (merge_reason worst reason) order
          end
      end
  end.

Definition check (t : T) (cfg : Config) (trust : Trust) (st : State) (now : Z) (trigger : Trigger) : Outcome * T :=
  if floor_blocks cfg st now then
    (mkOutcome (match trigger with Scheduled => NotDue | Manual => Rejected TooSoon end) st trust, t)
  else if match trigger with Scheduled => bool_decide (due cfg st now = NotNow) | Manual => false end then (mkOutcome NotDue st trust, t)
  else if bool_decide (mirrors cfg = []) || (MAX_MIRRORS <? length (mirrors cfg))%nat then (mkOutcome (Rejected NoMirrors) st trust, t)
  else
    let st := with_failures st (resize (length (mirrors cfg)) 0 (mirror_failures st)) in
    let st := mkState (installed st) (max_sequence st) (last_check st) now (data_versions st) (mirror_failures st) in
    try_mirrors t cfg trust st now None (mirror_order st (length (mirrors cfg))).

(** ** Downloads *)
Definition try_download (t : T) (mirror : Mirror) (file : FileRef) : result DownloadError (list byte) * T :=
  let '(body, t) := fetch_checked t mirror (path file) (size file) in
  (match body with
   | Ok body => match verify_download file body with Ok _ => Ok body | Err e => Err e end
   | Err (RTransport e) => Err (DTransport e)
   | Err (RRequest e) => Err (DRequest e)
   | Err _ => Err DNoMirrors
   end, t).

Fixpoint download_from (t : T) (cfg : Config) (st : State) (file : FileRef) (last : DownloadError) (order : list nat) :
  result DownloadError (list byte) * State * T :=
  match order with
  | [] => (Err last, st, t)
  | i :: order =>
      match mirrors cfg !! i with
      | None => download_from t cfg st file last order
      | Some mirror =>
          let '(body, t) := try_download t mirror file in
          match body with
          | Ok body => (Ok body, clear st i, t)
          | Err e => download_from t cfg (charge st i) file e order
          end
      end
  end.

Definition download (t : T) (cfg : Config) (st : State) (file : FileRef) : result DownloadError (list byte) * State * T :=
  if bool_decide (mirrors cfg = []) || (MAX_MIRRORS <? length (mirrors cfg))%nat then (Err DNoMirrors, st, t)
  else
    let st := with_failures st (resize (length (mirrors cfg)) 0 (mirror_failures st)) in
    download_from t cfg st file DNoMirrors (mirror_order st (length (mirrors cfg))).
End client.

(** * What a check may do to a client

    Whatever the transport answers: only audited requests are sent, nothing is
    recorded on a rejection but failure counts, a release is taken only when it
    is signed, fresh and no step back, and bytes are returned by a download only
    when they are those the manifest named. *)
(** ** What is sent *)
Section sent.
Context `{Signatures}.
Context {T : Type} (fetch : T -> Mirror -> list byte -> Z -> result TransportError (list byte) * T).
(** A property of the transport that every audited request keeps. *)
Context (I : T -> Prop) (I_fetch : forall t m request cap, I t -> audit request = Ok tt -> I (fetch t m request cap).2).

Lemma fetch_checked_keeps t m resource cap : I t -> I (fetch_checked fetch t m resource cap).2.
Proof.
  intros Ht. unfold fetch_checked. destruct (build_get m resource) as [request|]; [|done]. destruct (audit request) as [[]|] eqn:Ea; [|done].
  pose proof (I_fetch t m request cap Ht Ea) as Hf. destruct (fetch t m request cap) as [[body|] t']; [|done]. by destruct (_ <? _).
Qed.

Lemma fetch_signed_keeps t m r1 r2 : I t -> I (fetch_signed fetch t m r1 r2).2.
Proof.
  intros Ht. unfold fetch_signed. pose proof (fetch_checked_keeps t m r1 (Z.of_nat MAX_MANIFEST_BYTES) Ht) as H1.
  destruct (fetch_checked _ _ _ _ _) as [[b|] t1]; [|done]. pose proof (fetch_checked_keeps t1 m r2 MAX_SIG_BYTES H1) as H2.
  destruct (fetch_checked _ _ _ _ _) as [[s|] t2]; [|done]. by destruct (parse_signatures s).
Qed.

Lemma catch_up_keeps budget first t m bytes sigs trust now : I t -> I (catch_up fetch budget first t m bytes sigs trust now).2.
Proof.
  revert first t trust. induction budget as [|budget IH]; intros first t trust Ht; cbn [catch_up]; destruct (open_release trust bytes sigs now); try done;
    destruct (may_catch_up _); try done. cbv zeta.
  match goal with |- context [fetch_signed fetch t m ?a ?b] => pose proof (fetch_signed_keeps t m a b Ht) as H1; destruct (fetch_signed fetch t m a b) as [[[rb rs]|] t1] end;
    [|done]. destruct (apply_rotation trust rb rs now); [by apply IH|done].
Qed.

Lemma try_mirror_keeps t m cfg trust st now : I t -> I (try_mirror fetch t m cfg trust st now).2.
Proof.
  intros Ht. unfold try_mirror. pose proof (fetch_signed_keeps t m MANIFEST_RESOURCE SIGNATURE_RESOURCE Ht) as H1.
  destruct (fetch_signed _ _ _ _ _) as [[[b s]|] t1]; [|done]. pose proof (catch_up_keeps MAX_ROTATIONS_PER_CHECK None t1 m b s trust now H1) as H2.
  by destruct (catch_up _ _ _ _ _ _ _ _ _) as [[r tr] t2].
Qed.

Lemma try_mirrors_keeps t cfg trust st now worst order : I t -> I (try_mirrors fetch t cfg trust st now worst order).2.
Proof.
  revert t trust st worst. induction order as [|i order IH]; intros t trust st worst Ht; cbn [try_mirrors]; [done|].
  destruct (mirrors cfg !! i) as [m|]; [|by apply IH]. pose proof (try_mirror_keeps t m cfg trust st now Ht) as H1.
  destruct (try_mirror _ _ _ _ _ _ _) as [[[r|e] tr] t1]; [done|by apply IH].
Qed.

Lemma check_keeps t cfg trust st now trigger : I t -> I (check fetch t cfg trust st now trigger).2.
Proof.
  intros Ht. unfold check. destruct (floor_blocks _ _ _); [done|]. destruct (match trigger with Scheduled => _ | Manual => _ end); [done|].
  destruct (_ || _); [done|]. by apply try_mirrors_keeps.
Qed.

Lemma download_keeps t cfg st file : I t -> I (download fetch t cfg st file).2.
Proof.
  intros Ht. unfold download. destruct (_ || _); [done|]. cbv zeta. generalize (mirror_order (with_failures st (resize (length (mirrors cfg)) 0 (mirror_failures st))) (length (mirrors cfg))).
  intros order. generalize (with_failures st (resize (length (mirrors cfg)) 0 (mirror_failures st))) as st', DNoMirrors.
  revert t Ht. induction order as [|i order IH]; intros t Ht st' e; cbn [download_from]; [done|]. destruct (mirrors cfg !! i) as [m|]; [|by apply IH].
  unfold try_download. pose proof (fetch_checked_keeps t m (path file) (size file) Ht) as H1. destruct (fetch_checked _ _ _ _ _) as [[b|[]] t1]; try (by apply IH).
  destruct (verify_download file b); [done|by apply IH].
Qed.
End sent.

Section client.
Context `{Signatures}.
Context {T : Type} (fetch : T -> Mirror -> list byte -> Z -> result TransportError (list byte) * T).

(** ** Catching up *)
Lemma fetch_signed_parses t m r1 r2 bytes sigs t' : fetch_signed fetch t m r1 r2 = (Ok (bytes, sigs), t') -> exists file, parse_signatures file = Ok sigs.
Proof.
  unfold fetch_signed. destruct (fetch_checked _ _ _ _ _) as [[b|] t1]; [|done]. destruct (fetch_checked _ _ _ _ _) as [[s|] t2]; [|done].
  destruct (parse_signatures s) eqn:E; [|done]. intros [= <- <- <-]. by exists s.
Qed.

Lemma catch_up_spec budget first t m bytes sigs trust now r trust' t' :
  catch_up fetch budget first t m bytes sigs trust now = (r, trust', t') ->
  reaches trust trust' /\ (forall release, r = Ok release -> open_release trust' bytes sigs now = Ok release).
Proof.
  revert first t trust. induction budget as [|budget IH]; intros first t trust; cbn [catch_up]; destruct (open_release trust bytes sigs now) as [rel|e] eqn:Eo.
  1, 3: intros [= <- <- <-]; split; [apply rtc_refl|by intros ? [= ->]].
  all: destruct (may_catch_up e); [|intros [= <- <- <-]; split; [apply rtc_refl|done]]; cbv zeta.
  - intros [= <- <- <-]. split; [apply rtc_refl|done].
  - destruct (fetch_signed _ _ _ _ _) as [[[rb rs]|] t1] eqn:Ef; [|intros [= <- <- <-]; split; [apply rtc_refl|done]].
    destruct (apply_rotation trust rb rs now) as [trust1|] eqn:Ea; [|intros [= <- <- <-]; split; [apply rtc_refl|done]].
    intros [Hr Hrel]%IH. split; [|done]. eapply rtc_l; [|exact Hr]. apply fetch_signed_parses in Ef as [file Hfile]. by eapply rotates_by.
Qed.

(** A release that was signed, and is no step back. *)
Definition admitted (trust : Trust) (cfg : Config) (st : State) (now : Z) (r : Release) : Prop :=
  (exists bytes file sigs, parse_signatures file = Ok sigs /\ open_release trust bytes sigs now = Ok r) /\
  channel r = cfg_channel cfg /\ max_sequence st <= sequence r /\ cmp (version r) (installed st) <> Lt /\
  Forall (fun d => data_version st (kind d) <= d_version d) (data r).

Lemma admit_release_Ok cfg st r r' : admit_release cfg st r = Ok r' -> r' = r /\
  channel r = cfg_channel cfg /\ max_sequence st <= sequence r /\ cmp (version r) (installed st) <> Lt /\
  Forall (fun d => data_version st (kind d) <= d_version d) (data r).
Proof.
  unfold admit_release. case_bool_decide as E1; [|done]. cbn [negb]. destruct (_ <? _) eqn:E2; [done|]. apply Z.ltb_ge in E2.
  destruct (version_lt _ _) eqn:E3; [done|]. apply bool_decide_eq_false in E3. destruct (List.find _ _) as [d|] eqn:E4; [done|]. intros [= <-].
  split_and!; [done..|]. apply Forall_forall. intros d Hd. apply list_elem_of_In in Hd. apply (List.find_none _ _ E4) in Hd. by apply Z.ltb_ge in Hd.
Qed.

Lemma try_mirror_spec t m cfg trust st now r trust' t' : try_mirror fetch t m cfg trust st now = (r, trust', t') ->
  reaches trust trust' /\ (forall release, r = Ok release -> admitted trust' cfg st now release).
Proof.
  unfold try_mirror. destruct (fetch_signed _ _ _ _ _) as [[[b s]|] t1] eqn:Ef; [|intros [= <- <- <-]; split; [apply rtc_refl|done]].
  destruct (catch_up _ _ _ _ _ _ _ _ _) as [[rel tr] t2] eqn:Ec. intros [= <- <- <-]. apply catch_up_spec in Ec as [Hr Hrel]. split; [done|].
  intros release (rel' & -> & Ha)%bind_Ok. apply admit_release_Ok in Ha as (-> & Ha). apply fetch_signed_parses in Ef as [file Hfile].
  split; [|done]. exists b, file, s. split; [done|]. by apply Hrel.
Qed.

(** ** The state *)
(** Two states that differ in failure counts and the time of the last attempt. *)
Definition same_progress (a b : State) : Prop :=
  installed a = installed b /\ max_sequence a = max_sequence b /\ last_check a = last_check b /\ data_versions a = data_versions b.

Lemma admitted_same trust cfg a b now r : same_progress a b -> admitted trust cfg a now r -> admitted trust cfg b now r.
Proof. intros (E1 & E2 & _ & E4). unfold admitted, data_version. by rewrite E1, E2, E4. Qed.

(** What an outcome offers is what an admitted release holds. *)
Definition offers (cfg : Config) (st : State) (r : Release) (d : Decision) : Prop :=
  let newer := List.filter (fun e => data_version st (kind e) <? d_version e) (data r) in
  match d with
  | UpdateAvailable release artifact data =>
      release = r /\ cmp (installed st) (version r) = Lt /\ artifact ∈ artifacts r /\ platform artifact = cfg_platform cfg /\ data = newer
  | DataRefresh data => data = newer /\ data <> []
  | UpToDate => newer = []
  | NotDue | Rejected _ => False
  end.

Lemma accept_spec cfg st trust i now r : max_sequence st <= sequence r -> let o := accept cfg st trust i now r in
  o_trust o = trust /\ installed (o_state o) = installed st /\ max_sequence (o_state o) = sequence r /\ last_check (o_state o) = now /\
  data_versions (o_state o) = data_versions st /\ offers cfg st r (decision o).
Proof.
  intros Hs. unfold accept. cbv zeta. cbn [o_trust o_state decision installed max_sequence last_check data_versions clear with_failures].
  split_and!; [done|done|lia|done|done|].
  change (data_version (mkState _ _ _ _ (data_versions st) _)) with (data_version st). unfold offers.
  set (newer := List.filter _ (data r)).
  assert (offers cfg st r (if bool_decide (newer <> []) then DataRefresh newer else UpToDate)) as Hd.
  { unfold offers. fold newer. case_bool_decide as E; [done|]. by destruct newer; [|destruct E]. }
  destruct (List.find _ _) as [a|] eqn:Ea; [|exact Hd]. destruct (version_lt _ _) eqn:Ev; [|exact Hd].
  apply List.find_some in Ea as [Hin Hp]. apply bool_decide_eq_true in Hp, Ev. split_and!; [done..|by apply list_elem_of_In|done|done].
Qed.

Lemma try_mirrors_spec t cfg trust st now worst order o t' : try_mirrors fetch t cfg trust st now worst order = (o, t') ->
  reaches trust (o_trust o) /\
  ((exists reason, decision o = Rejected reason /\ same_progress (o_state o) st) \/
   (exists r, admitted (o_trust o) cfg st now r /\ installed (o_state o) = installed st /\ max_sequence (o_state o) = sequence r /\
      last_check (o_state o) = now /\ data_versions (o_state o) = data_versions st /\ offers cfg st r (decision o))) .
Proof.
  revert t trust st worst. induction order as [|i order IH]; intros t trust st worst; cbn [try_mirrors].
  - intros [= <- <-]. split; [apply rtc_refl|]. left. by eexists.
  - destruct (mirrors cfg !! i) as [m|]; [|by apply IH]. destruct (try_mirror _ _ _ _ _ _ _) as [[[r|e] tr] t1] eqn:Et; apply try_mirror_spec in Et as [Hr Hrel].
    + intros [= <- <-]. specialize (Hrel r eq_refl). pose proof Hrel as (_ & _ & Hs & _). destruct (accept_spec cfg st tr i now r Hs) as (E1 & E2 & E3 & E4 & E5 & E6).
      rewrite E1. split; [done|]. right. by exists r.
    + intros [Hr2 Hcases]%IH. split; [by etrans|]. exact Hcases.
Qed.
End client.

(** ** Failure counts and the order of the mirrors *)
Definition failures_ok (st : State) : Prop := Forall (fun f => 0 <= f <= MAX_FAILURES) (mirror_failures st).

Lemma alter_Forall {A} (P : A -> Prop) (f : A -> A) i l : (forall x, P x -> P (f x)) -> Forall P l -> Forall P (alter f i l).
Proof.
  intros Hf Hl. revert i. induction Hl as [|x l Hx Hl IH]; intros i; [done|]. destruct i as [|i]; constructor; [by apply Hf|done|done|apply IH].
Qed.

Lemma charge_ok st i : failures_ok st -> failures_ok (charge st i).
Proof. apply alter_Forall. unfold MAX_FAILURES. lia. Qed.
Lemma clear_ok st i : failures_ok st -> failures_ok (clear st i).
Proof. apply alter_Forall. unfold MAX_FAILURES. lia. Qed.
Lemma resize_ok st n : failures_ok st -> failures_ok (with_failures st (resize n 0 (mirror_failures st))).
Proof.
  intros Hf. unfold failures_ok in *. cbn [mirror_failures with_failures]. rewrite resize_spec. apply Forall_app. split; [by apply Forall_take|].
  apply Forall_replicate. unfold MAX_FAILURES. lia.
Qed.

(** Every mirror comes up once, those that failed least first. *)
Lemma mirror_order_spec st n : mirror_order st n ≡ₚ seq 0 n /\ StronglySorted (fun i j => failures st i <= failures st j) (mirror_order st n).
Proof.
  unfold mirror_order. set (pairs := map (fun i => (failures st i, Z.of_nat i)) (seq 0 n)). split.
  - rewrite (OrdMap.sort_perm pairs). unfold pairs. rewrite map_map. cbn [snd]. rewrite (map_ext _ id); [by rewrite map_id|]. intros i. apply Nat2Z.id.
  - assert (Forall (fun p => p.1 = failures st (Z.to_nat p.2)) (OrdMap.sort pairs)) as Hp.
    { rewrite (OrdMap.sort_perm pairs). unfold pairs. apply Forall_map, Forall_forall. intros i _. cbn [fst snd]. by rewrite Nat2Z.id. }
    pose proof (OrdMap.sort_sorted pairs) as Hs. revert Hp. induction Hs as [|p ps _ IH Hf]; [constructor|]. intros [Ep Hps]%Forall_cons. cbn [map].
    constructor; [by apply IH|]. apply Forall_map. rewrite Forall_forall in Hf, Hps |- *. intros q Hq. rewrite <- Ep, <- (Hps q Hq).
    specialize (Hf q Hq). unfold le in Hf. destruct p as [a b], q as [c d]. cbn [cmp ord_pair fst snd] in *. cbn [cmp ord_Z] in Hf.
    destruct (Z.compare_spec a c) as [->|Hlt|Hgt]; [lia|lia|by destruct Hf].
Qed.

Section outcomes.
Context `{Signatures}.
Context {T : Type} (fetch : T -> Mirror -> list byte -> Z -> result TransportError (list byte) * T).

Lemma try_mirrors_failures t cfg trust st now worst order : failures_ok st -> failures_ok (o_state (try_mirrors fetch t cfg trust st now worst order).1).
Proof.
  revert t trust st worst. induction order as [|i order IH]; intros t trust st worst Hf; cbn [try_mirrors]; [done|].
  destruct (mirrors cfg !! i) as [m|]; [|by apply IH]. destruct (try_mirror _ _ _ _ _ _ _) as [[[r|e] tr] t1]; [by apply (clear_ok st i)|].
  apply IH. by apply charge_ok.
Qed.

(** The attempts left out, what one check may change. *)
Inductive checked (cfg : Config) (trust : Trust) (st : State) (now : Z) (o : Outcome) : Prop :=
| checked_rejected : same_progress (o_state o) st -> match decision o with NotDue | Rejected _ => True | _ => False end -> checked cfg trust st now o
| checked_accepted r : admitted (o_trust o) cfg st now r -> installed (o_state o) = installed st -> data_versions (o_state o) = data_versions st ->
    max_sequence (o_state o) = sequence r -> last_check (o_state o) = now -> offers cfg st r (decision o) -> checked cfg trust st now o.

Lemma check_is_safe t cfg trust st now trigger : let o := (check fetch t cfg trust st now trigger).1 in
  reaches trust (o_trust o) /\ checked cfg trust st now o /\ (failures_ok st -> failures_ok (o_state o)).
Proof.
  cbv zeta. unfold check. destruct (floor_blocks _ _ _); [split_and!; [apply rtc_refl|apply checked_rejected; [done|by destruct trigger]|done]|].
  destruct (match trigger with Scheduled => _ | Manual => _ end); [split_and!; [apply rtc_refl|by apply checked_rejected|done]|].
  destruct (_ || _); [split_and!; [apply rtc_refl|by apply checked_rejected|done]|]. cbv zeta.
  set (st1 := mkState _ _ _ now _ _). assert (same_progress st1 st) as Hsame by done.
  assert (failures_ok st -> failures_ok st1) as Hf by (intros Hok; exact (resize_ok st (length (mirrors cfg)) Hok)). clearbody st1.
  set (order := mirror_order _ _). clearbody order. pose proof (try_mirrors_failures t cfg trust st1 now None order) as Hfail.
  destruct (try_mirrors fetch t cfg trust st1 now None order) as [o t'] eqn:Et. cbn [fst] in *. apply try_mirrors_spec in Et as [Hr Hcases].
  split_and!; [done| |by auto]. destruct Hsame as (E1 & E2 & E3 & E4). destruct Hcases as [(reason & Ed & F1 & F2 & F3 & F4)|(r & Hadm & G1 & G2 & G3 & G4 & Hoff)].
  - apply checked_rejected; [split_and!; congruence|by rewrite Ed].
  - apply (checked_accepted _ _ _ _ _ r); [by apply (admitted_same _ _ st1)|congruence|congruence|done|done|].
    unfold offers, data_version in *. by rewrite E1, E4 in Hoff.
Qed.

(** C7: whatever the mirrors answer, a check moves the trusted keys only along
    verified rotations, keeps the failure counts within their bound and the
    installed versions as they are; it records progress and offers an update
    only for a release that trusted keys signed, of the right channel and epoch,
    in its window, no older than what was seen or installed, and offers just
    the artifact and the newer data files of that release. *)
Theorem checks_are_safe t cfg trust st now trigger : let o := (check fetch t cfg trust st now trigger).1 in
  reaches trust (o_trust o) /\ checked cfg trust st now o /\ (failures_ok st -> failures_ok (o_state o)).
Proof. apply check_is_safe. Qed.

Lemma download_is_verified t cfg st file : let '(body, st', _) := download fetch t cfg st file in
  same_progress st' st /\ last_attempt st' = last_attempt st /\ (failures_ok st -> failures_ok st') /\
  (forall bytes, body = Ok bytes -> len bytes = size file /\ Sha2.sha256 bytes = sha256 file /\ Sha2.sha512 bytes = sha512 file).
Proof.
  unfold download. destruct (_ || _); [by split_and!|]. cbv zeta. set (st1 := with_failures _ _).
  assert (same_progress st1 st /\ last_attempt st1 = last_attempt st /\ (failures_ok st -> failures_ok st1)) as Hst by (split_and!; [done..|]; exact (resize_ok st (length (mirrors cfg)))).
  clearbody st1. generalize DNoMirrors, (mirror_order st1 (length (mirrors cfg))). intros e order. revert t st1 e Hst.
  induction order as [|i order IH]; intros t st1 e (E1 & E2 & E3); cbn [download_from]; [by split_and!|].
  destruct (mirrors cfg !! i) as [m|]; [|by apply IH]. destruct (try_download fetch t m file) as [[b|e'] t1] eqn:Ed.
  - split_and!; [done|done|intros Hf; by apply clear_ok, E3|]. intros bytes [= <-]. unfold try_download in Ed.
    destruct (fetch_checked _ _ _ _ _) as [[body|[]] t2]; try done. unfold verify_download in Ed.
    destruct (len body =? size file) eqn:El; [|done]. cbn [negb] in Ed. do 2 case_bool_decide; try done. cbn [negb orb] in Ed. injection Ed as <- _.
    apply Z.eqb_eq in El. done.
  - apply IH. split_and!; [done|done|]. intros Hf. by apply charge_ok, E3.
Qed.

(** a download returns nothing but bytes of the declared size with both of
    the declared digests, and leaves all but the failure counts as it was. *)
Theorem downloads_are_verified t cfg st file : let '(body, st', _) := download fetch t cfg st file in
  same_progress st' st /\ last_attempt st' = last_attempt st /\ (failures_ok st -> failures_ok st') /\
  (forall bytes, body = Ok bytes -> len bytes = size file /\ Sha2.sha256 bytes = sha256 file /\ Sha2.sha512 bytes = sha512 file).
Proof. apply download_is_verified. Qed.

(** No request that a check or a download hands to the transport has failed
    the audit: whatever audited requests keep true of the transport, a check and
    a download keep true. *)
Theorem only_audited_requests (I : T -> Prop) t cfg trust st now trigger file :
  (forall t m request cap, I t -> audit request = Ok tt -> I (fetch t m request cap).2) -> I t ->
  I (check fetch t cfg trust st now trigger).2 /\ I (download fetch t cfg st file).2.
Proof. intros HI Ht. split; [by apply check_keeps|by apply download_keeps]. Qed.

(** Until the retry floor has passed since the last attempt, and when a
    scheduled check is not due, the transport is not used at all and nothing
    changes; once it has passed, a data file that is too old, or has no date,
    makes a check due whatever the cadence. *)
Theorem checks_wait_their_turn t cfg trust st now :
  (forall trigger, last_attempt st <= now < last_attempt st + min_retry_secs cfg ->
     exists d, check fetch t cfg trust st now trigger = (mkOutcome d st trust, t)) /\
  (due cfg st now = NotNow -> check fetch t cfg trust st now Scheduled = (mkOutcome NotDue st trust, t)) /\
  (forall k, now < last_attempt st \/ last_attempt st + min_retry_secs cfg <= now ->
     match date_to_unix (data_version st k) with Some s => s + max_data_age_secs cfg < now /\ 0 <= max_data_age_secs cfg | None => True end ->
     exists k', due cfg st now = StaleData k').
Proof.
  split_and!.
  - intros trigger Hn. unfold check. assert (floor_blocks cfg st now = true) as ->; [|by eexists].
    unfold floor_blocks. apply andb_true_iff. split; [apply Z.leb_le|apply Z.ltb_lt]; lia.
  - intros Hd. unfold check. destruct (floor_blocks _ _ _); [done|]. by rewrite bool_decide_eq_true_2.
  - intros k Hn Hk. unfold due. assert (floor_blocks cfg st now = false) as ->.
    { unfold floor_blocks. apply andb_false_iff. rewrite Z.leb_gt, Z.ltb_ge. lia. }
    assert (is_stale cfg st now k = true) as Hs.
    { unfold is_stale, data_age. destruct (date_to_unix (data_version st k)) as [s|]; [|done]. cbn [fmap option_fmap option_map]. apply Z.ltb_lt. unfold sat_sub. lia. }
    destruct (List.find (is_stale cfg st now) ALL) as [k'|] eqn:Ef; [by exists k'|]. pose proof (List.find_none _ _ Ef k) as Hnone.
    rewrite Hs in Hnone. discriminate Hnone. destruct k; simpl; auto.
Qed.
End outcomes.

(** ** A client over time *)
(** What happens to a client: checks and downloads through any transport, at any
    time, and the installation of what was verified. *)
Inductive moves `{Signatures} (s : State * Trust) : State * Trust -> Prop :=
| moves_check {T : Type} (fetch : T -> Mirror -> list byte -> Z -> result TransportError (list byte) * T) t cfg now trigger :
    let o := (check fetch t cfg s.2 s.1 now trigger).1 in moves s (o_state o, o_trust o)
| moves_download {T : Type} (fetch : T -> Mirror -> list byte -> Z -> result TransportError (list byte) * T) t cfg file :
    moves s ((download fetch t cfg s.1 file).1.2, s.2)
| moves_release v : moves s (record_release_installed s.1 v, s.2)
| moves_data k v : moves s (record_data_installed s.1 k v, s.2).

(** No step back: in the sequence, the versions, the data files and the keys. *)
Definition no_older `{Signatures} (s s' : State * Trust) : Prop :=
  max_sequence s.1 <= max_sequence s'.1 /\ cmp (installed s'.1) (installed s.1) <> Lt /\
  (forall k, data_version s.1 k <= data_version s'.1 k) /\ reaches s.2 s'.2.

Section over_time.
Context `{Signatures}.

Lemma version_not_below (a b c : Version) : cmp b a <> Lt -> cmp c b <> Lt -> cmp c a <> Lt.
Proof.
  intros H1 H2 E. destruct (cmp b a) eqn:Eb; [apply cmp_eq in Eb as ->; done|done|]. apply cmp_lt_gt in Eb.
  apply H2. by eapply cmp_trans.
Qed.

#[local] Instance no_older_preorder : PreOrder no_older.
Proof.
  split.
  - intros s. split_and!; [lia|by rewrite cmp_refl|intros k; lia|apply rtc_refl].
  - intros a b c (A1 & A2 & A3 & A4) (B1 & B2 & B3 & B4). split_and!; [lia|by eapply version_not_below|intros k; specialize (A3 k); specialize (B3 k); lia|by etrans].
Qed.

Lemma same_progress_no_older st st' tr tr' : same_progress st' st -> reaches tr tr' -> no_older (st, tr) (st', tr').
Proof.
  intros (E1 & E2 & E3 & E4) Hr. unfold no_older, data_version. cbn [fst snd]. rewrite E1, E2, E4. split_and!; [lia|by rewrite cmp_refl|intros k; lia|done].
Qed.

Lemma moves_no_older s s' : moves s s' -> no_older s s'.
Proof.
  intros Hm. destruct s as [st tr]. destruct Hm as [T fetch t cfg now trigger o|T fetch t cfg file|v|k v]; cbn [fst snd] in *.
  - destruct (check_is_safe fetch t cfg tr st now trigger) as (Hr & Hc & _). fold o in Hr, Hc. destruct Hc as [Hsame _|r Hadm E1 E2 E3 E4 _].
    + by apply same_progress_no_older.
    + destruct Hadm as (_ & _ & Hs & _). unfold no_older, data_version. cbn [fst snd]. rewrite E1, E2, E3. split_and!; [lia|by rewrite cmp_refl|intros k; lia|done].
  - pose proof (download_is_verified fetch t cfg st file) as Hd. destruct (download fetch t cfg st file) as [[body st'] t']. destruct Hd as (Hsame & _).
    cbn [fst snd]. apply same_progress_no_older; [done|apply rtc_refl].
  - unfold record_release_installed, version_lt. case_bool_decide as E; [|apply same_progress_no_older; [done|apply rtc_refl]].
    unfold no_older, data_version. cbn [fst snd max_sequence installed data_versions]. split_and!; [lia| |intros k; lia|apply rtc_refl].
    intros E'. apply cmp_lt_gt in E'. congruence.
  - unfold record_data_installed. destruct (data_versions st !! kind_index k) as [slot|] eqn:Ek; [|apply same_progress_no_older; [done|apply rtc_refl]].
    destruct (slot <? v) eqn:Ev; [|apply same_progress_no_older; [done|apply rtc_refl]]. apply Z.ltb_lt in Ev.
    unfold no_older, data_version. cbn [fst snd max_sequence installed data_versions with_data]. split_and!; [lia|by rewrite cmp_refl| |apply rtc_refl].
    intros j. destruct (decide (kind_index j = kind_index k)) as [->|Hne]; [|by rewrite list_lookup_insert_ne].
    rewrite Ek, list_lookup_insert_eq by (by eapply lookup_lt_Some). cbn. lia.
Qed.

(** C6: over any sequence of checks, downloads and installations, through any
    transports and clocks, the highest sequence seen, the installed version and
    the version of every data file never go down, and the trusted keys move
    only along verified rotations. *)
Theorem clients_never_go_back s s' : rtc moves s s' -> no_older s s'.
Proof. induction 1 as [s|s s1 s2 Hm _ IH]; [done|]. etrans; [by apply moves_no_older|done]. Qed.
End over_time.

(** ** A client at work *)
Module ClientUses.
Import Trust.Examples.
(** A mirror that serves one manifest and its signature, in turn; the other
    answers are errors. *)
Definition mirror1 : Mirror := mkMirror (lit "mirror.example.net") 443 (lit "/v1").
Definition serve (t : nat) (m : Mirror) (request : list byte) (cap : Z) : result TransportError (list byte) * nat :=
  (match t with O => Ok (encode (MRelease release1)) | S O => Ok (sig_file key_a) | _ => Err Connect end, S t).
Definition cfg1 : Config := new_config (lit "stable") (lit "linux-x86_64") [mirror1].
Definition state1 : State := new_state (mkVersion 1 0 0) [20260101; 20260101; 20260101].
Definition outcome1 : Outcome := (@check toy nat serve 0%nat cfg1 trust1 state1 NOW Manual).1.

Example outcome1_offers : exists a d, decision outcome1 = UpdateAvailable release1 a d /\ platform a = lit "linux-x86_64" /\
  map (fun e => (kind e, d_version e)) d = [(Psl, 20260909)] /\ max_sequence (o_state outcome1) = 7.
Proof. eexists _, _. by vm_compute. Qed.

Lemma clients_never_go_back_witness : exists s', rtc (@moves toy) (state1, trust1) s' /\ @no_older toy (state1, trust1) s' /\ max_sequence s'.1 = 7.
Proof.
  assert (rtc (@moves toy) (state1, trust1) (o_state outcome1, o_trust outcome1)) as H
    by (apply rtc_once; exact (@moves_check toy (state1, trust1) nat serve 0%nat cfg1 NOW Manual)).
  eexists. split; [exact H|]. split; [exact (@clients_never_go_back toy _ _ H)|]. vm_compute. reflexivity.
Defined.
End ClientUses.
