(* ===== verification/CspUrl.v ===== *)
(** * The URLs of content security policies (px-websec/src/csp/url.rs)

    A smaller URL type than that of [WebUrl], with a parser of its own that takes
    only ASCII, and the origins that [self] is compared with. *)
From S2P Require Import Prelude Bytes Text Chars WebUrl WebHost WebCanon WebParse.
Local Open Scope Z_scope.

Definition MAX_URL_BYTES : Z := 64 * 1024.

Definition default_port (scheme : list byte) : option Z :=
  if bool_decide (scheme ∈ [lit "http"; lit "ws"]) then Some 80
  else if bool_decide (scheme ∈ [lit "https"; lit "wss"]) then Some 443
  else if bool_decide (scheme = lit "ftp") then Some 21
  else None.

Definition is_special_scheme (scheme : list byte) : bool :=
  bool_decide (scheme ∈ [lit "http"; lit "https"; lit "ws"; lit "wss"; lit "ftp"]).

(** The port is [None] where it is the default one. *)
Record CspUrl := mkCspUrl { scheme : list byte; host : option (list byte); port : option Z; path : list byte }.
#[export] Instance csp_url_eq_dec : EqDecision CspUrl.
Proof. solve_decision. Defined.

Definition is_alphanumeric (b : byte) : bool := Url.is_alphabetic b || is_digit b.
Definition is_scheme_char (c : byte) (first : bool) : bool :=
  if first then Url.is_alphabetic c else is_alphanumeric c || bool_decide (c ∈ lit "+-.").

(** ** Paths *)
Definition is_dot_segment (s : list byte) : bool := bool_decide (s = lit ".") || eq_ignore_ascii_case s (lit "%2e").
Definition is_double_dot_segment (s : list byte) : bool :=
  bool_decide (s = lit "..") || eq_ignore_ascii_case s (lit ".%2e") || eq_ignore_ascii_case s (lit "%2e.") ||
  eq_ignore_ascii_case s (lit "%2e%2e").

(** The loop over the segments; the last of them leaves an empty one behind. *)
Fixpoint normalize_segments (out segments : list (list byte)) : list (list byte) :=
  match segments with
  | [] => out
  | seg :: rest =>
      let closing := if bool_decide (rest = []) then [[]] else [] in
      if is_dot_segment seg then normalize_segments (out ++ closing) rest
      else if is_double_dot_segment seg then normalize_segments (removelast out ++ closing) rest
      else normalize_segments (out ++ [seg]) rest
  end.

Definition normalize_path (path : list byte) : list byte :=
  let rest := default path (strip_prefix [SLASH] path) in
  SLASH :: join_with SLASH (normalize_segments [] (split_on SLASH rest)).

(** ** Hosts *)
Definition valid_special_host (host : list byte) : bool :=
  negb (bool_decide (host = [])) && forallb (fun b => is_alphanumeric b || bool_decide (b ∈ lit "-._")) host.

Definition OPEN : byte := "["%byte.
Definition CLOSE : byte := "]"%byte.
Definition starts (c : byte) (l : list byte) : bool := bool_decide (head l = Some c).
Definition ends (c : byte) (l : list byte) : bool := bool_decide (last l = Some c).

Definition valid_ipv6_literal (host : list byte) : bool :=
  (3 <=? length host)%nat && starts OPEN host && ends CLOSE host &&
  forallb (fun b => is_hexdigit b || bool_decide (b ∈ lit ":.")) (take (length host - 2) (drop 1 host)) && bool_decide (COLON ∈ host).

(** ** Parsing *)
(** What comes before the first [c], and after the last. *)
Definition before (c : byte) (l : list byte) : list byte := match split_once c l with Some (a, _) => a | None => l end.
Definition after_last (c : byte) (l : list byte) : list byte := match Url.rsplit_once c l with Some (_, b) => b | None => l end.

Definition split_port (hostport : list byte) : option (list byte * option (list byte)) :=
  if starts OPEN hostport then
    '(h, after_h) ← split_once CLOSE hostport;
    match after_h with
    | [] => Some (h ++ [CLOSE], None)
    | _ => p ← strip_prefix [COLON] after_h; Some (h ++ [CLOSE], Some p)
    end
  else match Url.rsplit_once COLON hostport with Some (h, p) => Some (h, Some p) | None => Some (hostport, None) end.

Definition parse_port (p : option (list byte)) : option (option Z) :=
  match p with
  | None | Some [] => Some None
  | Some p => if (5 <? length p)%nat || negb (forallb is_digit p) then None else Some <$> parse_uint 10 U16_MAX p
  end.

Definition host_ok (host : list byte) : bool := if starts OPEN host then valid_ipv6_literal host else valid_special_host host.

(** The rest of a URL of a special scheme, without its fragment. *)
Definition parse_special (scheme rest : list byte) : option CspUrl :=
  let rest := map (fun b => if bool_decide (b = BACKSLASH) then SLASH else b) rest in
  after ← strip_prefix (lit "//") rest;
  let '(authority, tail) := Url.break_at (fun c => bool_decide (c ∈ [SLASH; QUESTION])) after in
  '(host, port_str) ← split_port (after_last AT authority);
  let host := to_ascii_lowercase host in
  if negb (host_ok host) then None
  else
    port ← parse_port port_str;
    let port := if bool_decide (is_Some port) && bool_decide (port = default_port scheme) then None else port in
    let path_part := before QUESTION tail in
    let path := if bool_decide (path_part = []) then [SLASH] else normalize_path path_part in
    Some (mkCspUrl scheme (Some host) port path).

Definition visible (b : byte) : bool := (0x20 <? b2z b) && (b2z b <? 0x7f).

Definition parse (input : list byte) : option CspUrl :=
  if MAX_URL_BYTES <? len input then None
  else if negb (forallb visible input) then None
  else
    '(scheme_raw, rest) ← split_once COLON input;
    match scheme_raw with
    | [] => None
    | first :: chars =>
        if negb (is_scheme_char first true) || negb (forallb (fun c => is_scheme_char c false) chars) then None
        else
          let scheme := to_ascii_lowercase scheme_raw in
          let rest := before HASH rest in
          if is_special_scheme scheme then parse_special scheme rest
          else Some (mkCspUrl scheme None None (before QUESTION rest))
    end.

Definition port_text (p : option Z) : list byte := match p with Some p => COLON :: decimal p | None => [] end.

Definition from_parts (scheme host : list byte) (port : option Z) (path : list byte) : option CspUrl :=
  parse (scheme ++ lit "://" ++ host ++ port_text port ++ path).

Definition effective_port (u : CspUrl) : option Z := match port u with Some p => Some p | None => default_port (scheme u) end.

Definition serialize_stripped (u : CspUrl) : list byte :=
  match host u with
  | Some h => scheme u ++ lit "://" ++ h ++ port_text (port u) ++ path u
  | None => scheme u ++ COLON :: path u
  end.

(** ** Origins *)
Inductive Origin := Opaque | Tuple (scheme host : list byte) (port : Z).
#[export] Instance csp_origin_eq_dec : EqDecision Origin.
Proof. solve_decision. Defined.

Definition origin (u : CspUrl) : Origin :=
  match host u with
  | Some h => if is_special_scheme (scheme u) then match effective_port u with Some p => Tuple (scheme u) h p | None => Opaque end else Opaque
  | None => Opaque
  end.

Definition from_url_str (s : list byte) : Origin := match parse s with Some u => origin u | None => Opaque end.

Definition same_origin (a b : Origin) : bool := match a, b with Tuple _ _ _, Tuple _ _ _ => bool_decide (a = b) | _, _ => false end.
Definition origin_scheme (o : Origin) : option (list byte) := match o with Tuple s _ _ => Some s | Opaque => None end.

(** ** Addresses *)
Definition is_ip_literal (host : list byte) : bool :=
  if starts OPEN host then true
  else
    let parts := split_on DOT host in
    (length parts =? 4)%nat && forallb (fun p => negb (bool_decide (p = [])) && (length p <=? 3)%nat && forallb is_digit p) parts.

Definition is_loopback_host (host : list byte) : bool :=
  if bool_decide (host = lit "localhost") || bool_decide (is_Some (strip_suffix (lit ".localhost") host)) || bool_decide (host = lit "[::1]")
  then true
  else is_ip_literal host && has_prefix (lit "127.") host.

Definition is_potentially_trustworthy (u : CspUrl) : bool :=
  if bool_decide (scheme u ∈ [lit "https"; lit "wss"; lit "data"; lit "blob"; lit "about"; lit "file"; lit "filesystem"]) then true
  else if bool_decide (scheme u ∈ [lit "http"; lit "ws"]) then match host u with Some h => is_loopback_host h | None => false end
  else false.

(** * The written form of a policy's URL is read back *)
(** ** Well-formed URLs *)
Definition path_byte (b : byte) : Prop := visible b = true /\ b <> QUESTION /\ b <> HASH /\ b <> BACKSLASH.
Definition plain_seg (s : list byte) : Prop := is_dot_segment s = false /\ is_double_dot_segment s = false.

Definition path_ok (p : list byte) : Prop :=
  Forall path_byte p /\ exists segs, segs <> [] /\ Forall plain_seg segs /\ Forall (fun s => SLASH ∉ s) segs /\ p = SLASH :: join_with SLASH segs.

(** The port may be the default of the scheme. *)
Definition well_formed (u : CspUrl) : Prop :=
  match host u with
  | Some h => is_special_scheme (scheme u) = true /\ host_ok h = true /\ to_ascii_lowercase h = h /\ port_range (port u) /\ path_ok (path u)
  | None => is_special_scheme (scheme u) = false /\ scheme_ok (scheme u) /\ port u = None /\
            Forall (fun b => visible b = true /\ b <> QUESTION /\ b <> HASH) (path u)
  end.
Definition canonical (u : CspUrl) : Prop := well_formed u /\ (port u <> None -> port u <> default_port (scheme u)).
(** The URL with its port left out where it is the default. *)
Definition without_default_port (u : CspUrl) : CspUrl :=
  mkCspUrl (scheme u) (host u) (if bool_decide (is_Some (port u)) && bool_decide (port u = default_port (scheme u)) then None else port u) (path u).

(** ** Pieces *)
Lemma special_scheme_ok sc : is_special_scheme sc = true -> scheme_ok sc.
Proof.
  intros H%bool_decide_eq_true. rewrite !elem_of_cons, elem_of_nil in H.
  destruct H as [->|[->|[->|[->|[->|[]]]]]]; (split; [done|split; by repeat constructor]).
Qed.

Lemma parse_scheme input : parse input =
  if MAX_URL_BYTES <? len input then None
  else if negb (forallb visible input) then None
  else '(sc, rest) ← Url.split_scheme input;
       let rest := before HASH rest in
       if is_special_scheme sc then parse_special sc rest else Some (mkCspUrl sc None None (before QUESTION rest)).
Proof.
  unfold parse, Url.split_scheme. destruct (_ <? _); [done|]. destruct (negb _); [done|].
  destruct (split_once COLON input) as [[sc rest]|]; [|done]. cbn [mbind option_bind]. destruct sc as [|a t]; [done|].
  change (is_scheme_char a true) with (Url.is_alphabetic a). change (fun c => is_scheme_char c false) with Url.is_scheme_byte.
  by destruct (negb _ || negb _).
Qed.

Lemma before_spec c l : exists k, l = before c l ++ k /\ (c ∉ before c l).
Proof.
  unfold before. destruct (split_once c l) as [[a f]|] eqn:E.
  - apply split_once_spec in E as [-> Ha]. by exists (c :: f).
  - apply split_once_None in E. exists []. by rewrite app_nil_r.
Qed.
Lemma before_id c l : (c ∉ l) -> before c l = l.
Proof. intros Hl. unfold before. by rewrite (proj2 (split_once_None c l)). Qed.

Lemma after_last_spec c l : exists k, l = k ++ after_last c l.
Proof.
  unfold after_last. destruct (Url.rsplit_once c l) as [[a b]|] eqn:E; [|by exists []].
  apply rsplit_once_Some in E as [-> _]. exists (a ++ [c]). by rewrite <- app_assoc.
Qed.
Lemma after_last_id c l : (c ∉ l) -> after_last c l = l.
Proof. intros Hl. unfold after_last. by rewrite rsplit_once_None. Qed.

(** ** Paths *)
Lemma normalize_segments_ok out segs : segs <> [] -> Forall plain_seg out -> Forall (fun s => SLASH ∉ s) out -> Forall (fun s => SLASH ∉ s) segs ->
  let r := normalize_segments out segs in r <> [] /\ Forall plain_seg r /\ Forall (fun s => SLASH ∉ s) r.
Proof.
  assert (forall (P : list byte -> Prop) l, Forall P l -> Forall P (removelast l)) as Hrem.
  { intros P l Hl. destruct l as [|x l _] using rev_ind; [done|]. rewrite removelast_last. by apply Forall_app in Hl as [? _]. }
  assert (plain_seg [] /\ (SLASH ∉ @nil byte)) as [He1 He2] by (split; [done|apply not_elem_of_nil]).
  assert (forall (P : list byte -> Prop) l (rest : list (list byte)), P [] -> Forall P l -> Forall P (l ++ (if bool_decide (rest = []) then [[]] else []))) as Hclose.
  { intros P l rest HP Hl. apply Forall_app. split; [done|]. destruct (bool_decide _); by repeat constructor. }
  revert out. induction segs as [|s segs IH]; [done|]. intros out _ Ho Hs [Hsl Hsegs]%Forall_cons. cbn [normalize_segments].
  assert (forall out', Forall plain_seg out' -> Forall (fun s => SLASH ∉ s) out' -> (segs = [] -> out' <> []) ->
    let r := normalize_segments out' segs in r <> [] /\ Forall plain_seg r /\ Forall (fun s => SLASH ∉ s) r) as Hgo.
  { intros out' H1 H2 H3. destruct segs as [|s' segs]; [by split_and!; [apply H3| |]|]. by apply IH. }
  assert (forall l : list (list byte), segs = [] -> l ++ (if bool_decide (segs = []) then [[]] else []) <> []) as Hne.
  { intros l ->. rewrite bool_decide_eq_true_2 by done. by destruct l. }
  destruct (is_dot_segment s) eqn:E1; [apply Hgo; [by apply Hclose..|apply Hne]|].
  destruct (is_double_dot_segment s) eqn:E2; [apply Hgo; [apply Hclose; [done|by apply Hrem]..|apply Hne]|].
  apply Hgo; [apply Forall_app; split; [done|by repeat constructor]..|]. intros _. by destruct out.
Qed.

Lemma normalize_segments_id out segs : Forall plain_seg segs -> normalize_segments out segs = out ++ segs.
Proof.
  revert out. induction segs as [|s segs IH]; intros out; [by rewrite app_nil_r|]. intros [[H1 H2] Hs]%Forall_cons. cbn [normalize_segments].
  rewrite H1, H2, IH by done. by rewrite <- app_assoc.
Qed.

Lemma normalize_segments_bytes (P : byte -> Prop) out segs : Forall (Forall P) out -> Forall (Forall P) segs -> Forall (Forall P) (normalize_segments out segs).
Proof.
  intros Ho Hs. revert out Ho. induction Hs as [|s segs Hs Hsegs IH]; intros out Ho; [done|]. cbn [normalize_segments].
  assert (Forall (Forall P) (if bool_decide (segs = []) then [[]] else [])) as Hc by (destruct (bool_decide _); by repeat constructor).
  assert (Forall (Forall P) (removelast out)) as Hr.
  { destruct out as [|x out _] using rev_ind; [done|]. rewrite removelast_last. by apply Forall_app in Ho as [? _]. }
  destruct (is_dot_segment s); [by apply IH, Forall_app|]. destruct (is_double_dot_segment s); [by apply IH, Forall_app|].
  apply IH, Forall_app. by split; [|constructor].
Qed.

Lemma normalize_path_ok p : Forall path_byte p -> path_ok (normalize_path p).
Proof.
  intros Hp. unfold normalize_path. set (rest := default p (strip_prefix [SLASH] p)).
  assert (Forall path_byte rest) as Hr.
  { unfold rest. destruct (strip_prefix [SLASH] p) as [r|] eqn:E; [|done]. apply strip_prefix_Some in E as ->. by apply Forall_app in Hp as [_ ?]. }
  pose proof (normalize_segments_ok [] (split_on SLASH rest) (split_on_ne _ _) (Forall_nil_2 _) (Forall_nil_2 _)) as Hok.
  destruct Hok as (H1 & H2 & H3); [apply Forall_forall; intros s; apply split_on_nosep|].
  split; [|by eexists]. constructor; [by vm_compute|]. apply join_with_Forall; [by vm_compute|].
  apply normalize_segments_bytes; [constructor|by apply split_on_Forall].
Qed.

Lemma normalize_path_id p : path_ok p -> normalize_path p = p.
Proof.
  intros (_ & segs & Hne & Hp & Hs & ->). unfold normalize_path. rewrite (proj2 (strip_prefix_Some [SLASH] _ (join_with SLASH segs))) by done.
  change (default ?a (Some ?b)) with b. rewrite split_join by done. by rewrite normalize_segments_id.
Qed.

(** ** Hosts and ports *)
(** Bytes that do not end an authority. *)
Definition host_text (b : byte) : Prop := visible b = true /\ b <> SLASH /\ b <> QUESTION /\ b <> HASH /\ b <> BACKSLASH /\ b <> AT.
Ltac not_there H := eapply not_in_Forall; [exact H|]; cbv beta; unfold path_byte, host_text; intuition congruence.

Lemma host_shape h : host_ok h = true -> Forall host_text h /\
  ((head h <> Some OPEN /\ (COLON ∉ h)) \/ exists i, h = OPEN :: i ++ [CLOSE] /\ (CLOSE ∉ i)).
Proof.
  unfold host_ok. destruct (starts OPEN h) eqn:Es.
  - unfold valid_ipv6_literal. rewrite !andb_true_iff. intros ((((Hl & _) & He) & Hi) & _). apply Nat.leb_le in Hl.
    apply bool_decide_eq_true in Es, He. destruct h as [|a h]; [done|]. injection Es as ->.
    destruct h as [|b h _] using rev_ind; [simpl in Hl; lia|]. change (OPEN :: h ++ [b]) with ((OPEN :: h) ++ [b]) in He. rewrite last_snoc in He. injection He as ->.
    assert (take (length (OPEN :: h ++ [CLOSE]) - 2) (drop 1 (OPEN :: h ++ [CLOSE])) = h) as Eh.
    { replace (length (OPEN :: h ++ [CLOSE]) - 2)%nat with (length h) by (simpl; rewrite length_app; simpl; lia). apply take_app_length. }
    rewrite Eh in Hi.
    apply forallb_true in Hi.
    assert (Forall (fun b => host_text b /\ b <> CLOSE) h) as Hh.
    { eapply Forall_impl; [exact Hi|]. intros b Hb. destruct b; try (by vm_compute in Hb); by split_and!. }
    split.
    + constructor; [by split_and!|]. apply Forall_app. split; [|by repeat constructor]. eapply Forall_impl; [exact Hh|]. cbv beta; tauto.
    + right. exists h. split; [done|]. not_there Hh.
  - unfold valid_special_host. rewrite andb_true_iff. intros [_ Hh%forallb_true].
    assert (Forall (fun b => host_text b /\ b <> COLON) h) as Ht.
    { eapply Forall_impl; [exact Hh|]. intros b Hb. destruct b; try (by vm_compute in Hb); by split_and!. }
    apply bool_decide_eq_false in Es. split; [eapply Forall_impl; [exact Ht|]; cbv beta; tauto|]. left. split; [done|].
    not_there Ht.
Qed.

Lemma port_text_bytes p : Forall host_text (CspUrl.port_text p).
Proof.
  destruct p as [p|]; [|constructor]. constructor; [by split_and!|]. eapply Forall_impl; [apply decimal_digits|].
  intros b Hb. destruct b; try (by vm_compute in Hb); by split_and!.
Qed.

Lemma decimal_no_colon p : COLON ∉ decimal p.
Proof. eapply not_in_Forall; [apply decimal_text|]. simpl. tauto. Qed.

Lemma split_port_text h p : host_ok h = true -> split_port (h ++ CspUrl.port_text p) = Some (h, decimal <$> p).
Proof.
  intros [_ [[Hh Hc]|(i & -> & Hi)]]%host_shape; unfold split_port.
  - assert (starts OPEN (h ++ CspUrl.port_text p) = false) as ->.
    { apply bool_decide_eq_false. destruct h as [|b h]; [by destruct p|done]. }
    destruct p as [p|]; cbn [CspUrl.port_text].
    + rewrite rsplit_once_app by apply decimal_no_colon. done.
    + rewrite app_nil_r, rsplit_once_None by done. done.
  - unfold starts. rewrite bool_decide_eq_true_2 by done.
    rewrite (proj2 (split_once_spec CLOSE _ (OPEN :: i) (CspUrl.port_text p))).
    2: { split; [by rewrite <- app_comm_cons, <- app_assoc|]. apply not_elem_of_cons. by split. }
    cbn [mbind option_bind]. by destruct p.
Qed.

Lemma parse_port_text p : port_range p -> parse_port (decimal <$> p) = Some p.
Proof.
  destruct p as [p|]; [|done]. intros Hp. destruct (port_parsed p Hp) as (a & t & E & H). cbn [fmap option_fmap option_map]. rewrite E.
  cbn [parse_port]. rewrite orb_comm. destruct (_ || _); [done|]. by rewrite H.
Qed.

Lemma split_port_ok hp h p : split_port hp = Some (h, p) -> exists k, hp = h ++ k.
Proof.
  unfold split_port. destruct (starts OPEN hp).
  - intros ([a r] & [-> _]%split_once_spec & H)%bind_Some. destruct r as [|b r].
    + injection H as <- <-. exists []. by rewrite app_nil_r.
    + apply bind_Some in H as (q & _ & [= <- <-]). exists (b :: r). by rewrite <- app_assoc.
  - destruct (Url.rsplit_once COLON hp) as [[a b]|] eqn:E; intros [= <- <-].
    + apply rsplit_once_Some in E as [-> _]. by eexists.
    + exists []. by rewrite app_nil_r.
Qed.

Lemma parse_port_ok s o : parse_port s = Some o -> port_range o.
Proof.
  destruct s as [[|b t]|]; [by intros [= <-]| |by intros [= <-]]. cbn [parse_port]. destruct (_ || _); [done|].
  intros (v & Hv & ->)%fmap_Some. apply parse_uint_range in Hv; [done|lia|unfold_width; lia].
Qed.

(** ** Round trip *)
Lemma csp_parse_canonical s u : parse s = Some u -> canonical u.
Proof.
  rewrite parse_scheme. destruct (_ <? _); [done|]. destruct (forallb visible s) eqn:Hv; [|done]. cbn [negb]. apply forallb_true in Hv.
  intros ([sc rest] & [Hsc (k & ->)]%split_scheme_ok & H)%bind_Some. cbv zeta in H. apply Forall_app in Hv as [_ Hv]. apply Forall_cons in Hv as [_ Hv].
  destruct (before_spec HASH rest) as (k1 & E1 & Hh). set (r := before HASH rest) in *. clearbody r. rewrite E1 in Hv. apply Forall_app in Hv as [Hv _].
  destruct (is_special_scheme sc) eqn:Es.
  - unfold parse_special in H. set (r' := map _ r) in H.
    assert (Forall (fun b => visible b = true /\ b <> HASH /\ b <> BACKSLASH) r') as Hr'.
    { unfold r'. apply Forall_map, Forall_forall. intros b Hb. cbv beta. case_bool_decide; [by subst|]. split_and!; [by apply (proj1 (Forall_forall _ _) Hv)|congruence|done]. }
    apply bind_Some in H as (after & ->%strip_prefix_Some & H).
    apply Forall_app in Hr' as [_ Hr]. destruct (Url.break_at _ after) as [auth tail] eqn:Eb. apply break_at_spec in Eb as (-> & Ha & _).
    apply Forall_app in Hr as [Hra Hrt]. apply bind_Some in H as ([h ps] & Hsp & H). destruct (host_ok (to_ascii_lowercase h)) eqn:Eh; [|done]. cbn [negb] in H.
    apply bind_Some in H as (port & Hport%parse_port_ok & [= <-]).
    assert (forall p, p = port \/ p = None -> port_range p) as Hpr by (by intros p [->| ->]).
    unfold canonical, well_formed. cbn [host scheme CspUrl.port path]. split_and!; [done|done|apply to_ascii_lowercase_idem| | |].
    + apply Hpr. destruct (_ && _); [by right|by left].
    + case_bool_decide as Ep.
      * split; [by repeat constructor|]. exists [[]]. split_and!; [done|by repeat constructor| |done]. constructor; [apply not_elem_of_nil|constructor].
      * apply normalize_path_ok. destruct (before_spec QUESTION tail) as (k2 & E2 & Hq). rewrite E2 in Hrt. apply Forall_app in Hrt as [Hrt _].
        apply Forall_forall. intros b Hb. rewrite Forall_forall in Hrt. destruct (Hrt b Hb) as (? & ? & ?). split_and!; [done|congruence|done|done].
    + destruct (bool_decide (is_Some port)) eqn:E2; cbn [andb].
      * destruct (bool_decide (port = default_port sc)) eqn:E3; [done|]. by apply bool_decide_eq_false in E3.
      * intros Hn. apply bool_decide_eq_false in E2. destruct port; [|done]. by destruct E2.
  - injection H as <-. split; [|done]. unfold well_formed. cbn [host scheme CspUrl.port path]. split_and!; [done..|].
    destruct (before_spec QUESTION r) as (k2 & E2 & Hq). rewrite E2 in Hv, Hh. apply Forall_app in Hv as [Hv _]. rewrite not_elem_of_app in Hh.
    apply Forall_forall. intros b Hb. rewrite Forall_forall in Hv. split_and!; [by apply Hv|congruence|]. intros ->. tauto.
Qed.

Lemma well_formed_visible u : well_formed u -> Forall (fun b => visible b = true) (serialize_stripped u).
Proof.
  intros Hu. unfold well_formed, serialize_stripped in *. assert (forall sc, scheme_ok sc -> Forall (fun b => visible b = true) sc) as Hsc.
  { intros sc Hsc%scheme_ok_all. eapply Forall_impl; [exact Hsc|]. intros b Hb. destruct b; try (by vm_compute in Hb); done. }
  destruct (host u) as [h|].
  - destruct Hu as (Hs & [Hh _]%host_shape & _ & _ & [Hp _]). rewrite !Forall_app. split_and!.
    + by apply Hsc, special_scheme_ok.
    + by repeat constructor.
    + eapply Forall_impl; [exact Hh|]. by intros b (? & _).
    + eapply Forall_impl; [apply port_text_bytes|]. by intros b (? & _).
    + eapply Forall_impl; [exact Hp|]. by intros b (? & _).
  - destruct Hu as (_ & Hs & _ & Hp). apply Forall_app. split; [by apply Hsc|]. constructor; [by vm_compute|].
    eapply Forall_impl; [exact Hp|]. cbv beta; tauto.
Qed.

Lemma parse_well_formed u : well_formed u -> len (serialize_stripped u) <= MAX_URL_BYTES -> parse (serialize_stripped u) = Some (without_default_port u).
Proof.
  intros Hu Hl. pose proof (well_formed_visible u Hu) as Hv. rewrite parse_scheme. rewrite (proj2 (Z.ltb_ge _ _)) by lia.
  rewrite (proj2 (forallb_true _ _) Hv). cbn [negb]. destruct u as [sc h p pa]. unfold well_formed, serialize_stripped, without_default_port in *. cbn [host scheme CspUrl.port path] in *.
  destruct h as [h|].
  - destruct Hu as (Hs & Hh & Hlow & Hpr & Hp). pose proof Hp as [Hpb (segs & _ & _ & _ & Epa)]. destruct (host_shape h Hh) as [Ht _].
    change (lit "://" ++ h ++ CspUrl.port_text p ++ pa) with (COLON :: [SLASH; SLASH] ++ h ++ CspUrl.port_text p ++ pa).
    rewrite split_scheme_app by by apply special_scheme_ok. cbn [mbind option_bind]. cbv zeta. rewrite Hs.
    assert (Forall (fun b => b <> HASH /\ b <> BACKSLASH) ([SLASH; SLASH] ++ h ++ CspUrl.port_text p ++ pa)) as Hb.
    { rewrite !Forall_app. split_and!; [by repeat constructor|..].
      - eapply Forall_impl; [exact Ht|]. unfold host_text. tauto.
      - eapply Forall_impl; [apply port_text_bytes|]. unfold host_text. tauto.
      - eapply Forall_impl; [exact Hpb|]. unfold path_byte. tauto. }
    rewrite before_id by (not_there Hb). unfold parse_special.
    change (map _ ?l) with (backslashes l). rewrite backslashes_id by (not_there Hb).
    rewrite (proj2 (strip_prefix_Some (lit "//") _ (h ++ CspUrl.port_text p ++ pa))) by done. cbn [mbind option_bind].
    rewrite app_assoc. assert (Forall host_text (h ++ CspUrl.port_text p)) as Hauth by (apply Forall_app; split; [done|apply port_text_bytes]).
    rewrite break_at_app.
    2: { eapply Forall_impl; [exact Hauth|]. intros b (_ & ? & ? & _). apply bool_decide_eq_false. rewrite !elem_of_cons, elem_of_nil. tauto. }
    2: { by rewrite Epa. }
    rewrite after_last_id by (not_there Hauth). rewrite split_port_text by done. cbn [mbind option_bind].
    rewrite Hlow, Hh. cbn [negb]. rewrite parse_port_text by done. cbn [mbind option_bind].
    rewrite before_id by (not_there Hpb). rewrite (bool_decide_eq_false_2 (pa = [])) by (by rewrite Epa).
    by rewrite normalize_path_id.
  - destruct Hu as (Hs & Hsc & -> & Hp). rewrite split_scheme_app by done. cbn [mbind option_bind]. cbv zeta. rewrite Hs.
    rewrite (before_id HASH pa) by (not_there Hp). rewrite before_id by (not_there Hp). done.
Qed.

Lemma csp_canonical_parse u : canonical u -> len (serialize_stripped u) <= MAX_URL_BYTES -> parse (serialize_stripped u) = Some u.
Proof.
  intros [Hu Hd] Hl. rewrite parse_well_formed by done. f_equal. unfold without_default_port. destruct u as [sc h [p|] pa]; [|done]. cbn [scheme host CspUrl.port path] in *.
  rewrite (bool_decide_eq_false_2 (Some p = _)) by by apply Hd. by rewrite andb_false_r.
Qed.
