(* ===== verification/CspSource.v ===== *)
(** * Source expressions and source lists (px-websec/src/csp/source.rs)

    The values of a fetch directive, and what they match.  The digests are those
    of csp/sha2.rs, whose text is that of px-update/src/sha2.rs: [Sha2] models
    both. *)
From S2P Require Import Prelude Bytes Text Chars WebUrl WebCanon WebParse Sha2 CspUrl.
Local Open Scope Z_scope.

(** ** Digests *)
Module CspSha2.
Definition sha256 : list byte -> list byte := Sha2.sha256.
Definition sha384 : list byte -> list byte := Sha2.sha384.
Definition sha512 : list byte -> list byte := Sha2.sha512.
End CspSha2.

Inductive HashAlg := Sha256 | Sha384 | Sha512.
#[export] Instance hash_alg_eq_dec : EqDecision HashAlg.
Proof. solve_decision. Defined.

Definition alg_name (a : HashAlg) : list byte := match a with Sha256 => lit "sha256" | Sha384 => lit "sha384" | Sha512 => lit "sha512" end.
Definition parse_alg (s : list byte) : option HashAlg :=
  if eq_ignore_ascii_case s (lit "sha256") then Some Sha256
  else if eq_ignore_ascii_case s (lit "sha384") then Some Sha384
  else if eq_ignore_ascii_case s (lit "sha512") then Some Sha512
  else None.
Definition digest_len (a : HashAlg) : nat := match a with Sha256 => 32 | Sha384 => 48 | Sha512 => 64 end.
Definition alg_digest (a : HashAlg) (data : list byte) : list byte :=
  match a with Sha256 => CspSha2.sha256 data | Sha384 => CspSha2.sha384 data | Sha512 => CspSha2.sha512 data end.

Record HashValue := mkHash { alg : HashAlg; digest : list byte }.
#[export] Instance hash_value_eq_dec : EqDecision HashValue.
Proof. solve_decision. Defined.

(** ** Base64 *)
Definition DASH : byte := "-"%byte.
Definition EQUALS : byte := "="%byte.

Definition sextet (b : byte) : option Z :=
  if in_range 65 90 b then Some (b2z b - 65)
  else if in_range 97 122 b then Some (b2z b - 97 + 26)
  else if in_range 48 57 b then Some (b2z b - 48 + 52)
  else if bool_decide (b ∈ lit "+-") then Some 62
  else if bool_decide (b ∈ lit "/_") then Some 63
  else None.

(** The loop: [bits] of [acc] are waiting. *)
Fixpoint base64_loop (out : list byte) (acc bits : Z) (l : list byte) : option (list byte) :=
  match l with
  | [] => Some out
  | b :: l =>
      v ← sextet b;
      let acc := Z.lor (Z.land (Z.shiftl acc 6) U32_MAX) v in
      let bits := bits + 6 in
      if 8 <=? bits then
        let bits := bits - 8 in
        base64_loop (out ++ [z2b (Z.land (Z.shiftr acc bits) 0xff)]) (Z.land acc (Z.shiftl 1 bits - 1)) bits l
      else base64_loop out acc bits l
  end.

Definition decode_base64 (s : list byte) : option (list byte) :=
  let trimmed := default s (match strip_suffix (lit "==") s with Some t => Some t | None => strip_suffix [EQUALS] s end) in
  if bool_decide (EQUALS ∈ trimmed) || (len trimmed mod 4 =? 1) then None else base64_loop [] 0 0 trimmed.

Definition parse_hash (s : list byte) : option HashValue :=
  '(alg, value) ← split_once DASH s;
  alg ← parse_alg alg;
  digest ← decode_base64 value;
  if negb (length digest =? digest_len alg)%nat then None else Some (mkHash alg digest).

(** ** Expressions *)
Inductive Keyword :=
| KNone | SelfOrigin | UnsafeInline | UnsafeEval | StrictDynamic | UnsafeHashes | ReportSample
| UnsafeAllowRedirects | WasmUnsafeEval | InlineSpeculationRules.
#[export] Instance keyword_eq_dec : EqDecision Keyword.
Proof. solve_decision. Defined.

Definition KEYWORDS : list (list byte * Keyword) := [
  (lit "none", KNone); (lit "self", SelfOrigin); (lit "unsafe-inline", UnsafeInline); (lit "unsafe-eval", UnsafeEval);
  (lit "strict-dynamic", StrictDynamic); (lit "unsafe-hashes", UnsafeHashes); (lit "report-sample", ReportSample);
  (lit "unsafe-allow-redirects", UnsafeAllowRedirects); (lit "wasm-unsafe-eval", WasmUnsafeEval);
  (lit "inline-speculation-rules", InlineSpeculationRules)].

Definition keyword (inner : list byte) : option Keyword := snd <$> List.find (fun e => eq_ignore_ascii_case inner e.1) KEYWORDS.

Inductive PortPart := PortAbsent | PortAny | PortNum (p : Z).
#[export] Instance port_part_eq_dec : EqDecision PortPart.
Proof. solve_decision. Defined.

Record HostSource := mkHostSource { h_scheme : option (list byte); h_host : list byte; h_port : PortPart; h_path : option (list byte) }.
#[export] Instance host_source_eq_dec : EqDecision HostSource.
Proof. solve_decision. Defined.

Inductive SourceExpr :=
| EKeyword (k : Keyword) | ENonce (n : list byte) | EHash (h : HashValue) | EScheme (s : list byte) | EHost (h : HostSource) | Unrecognized.
#[export] Instance source_expr_eq_dec : EqDecision SourceExpr.
Proof. solve_decision. Defined.

Definition is_scheme (s : list byte) : bool :=
  match s with [] => false | c :: t => Url.is_alphabetic c && forallb (fun c => is_alphanumeric c || bool_decide (c ∈ lit "+-.")) t end.

Definition is_base64_value (s : list byte) : bool :=
  let body := trim_end_matches EQUALS s in
  let pad := (length s - length body)%nat in
  negb (bool_decide (body = [])) && (pad <=? 2)%nat && forallb (fun b => is_alphanumeric b || bool_decide (b ∈ lit "+/-_")) body.

Definition STAR : byte := "*"%byte.
Definition QUOTE : byte := "'"%byte.

Definition valid_host_part (h : list byte) : bool :=
  if bool_decide (h = [STAR]) then true
  else
    let body := default h (strip_prefix [STAR; DOT] h) in
    negb (bool_decide (body = [])) &&
    forallb (fun l => negb (bool_decide (l = [])) && forallb (fun b => is_alphanumeric b || bool_decide (b = DASH)) l) (split_on DOT body).

(** [split_once] of a string. *)
Fixpoint split_once_str (sep l : list byte) : option (list byte * list byte) :=
  match strip_prefix sep l with
  | Some v => Some ([], v)
  | None => match l with [] => None | b :: l => '(n, v) ← split_once_str sep l; Some (b :: n, v) end
  end.

Definition split_path (rest : list byte) : list byte * option (list byte) :=
  let '(a, p) := Url.break_at (fun b => bool_decide (b = SLASH)) rest in (a, if bool_decide (p = []) then None else Some p).

Definition split_host_port (authority : list byte) : option (list byte * PortPart) :=
  match Url.rsplit_once COLON authority with
  | None => Some (authority, PortAbsent)
  | Some (h, p) =>
      if bool_decide (p = [STAR]) then Some (h, PortAny)
      else if bool_decide (p = []) || (5 <? length p)%nat || negb (forallb is_digit p) then None
      else n ← parse_uint 10 U16_MAX p; Some (h, PortNum n)
  end.

Definition parse_host_source (token : list byte) : option HostSource :=
  if existsb (fun b => bool_decide (b ∈ [QUESTION; HASH])) token then None
  else
    '(scheme, rest) ←
      match split_once_str (lit "://") token with
      | Some (s, r) => if is_scheme s then Some (Some (to_ascii_lowercase s), r) else None
      | None => Some (None, token)
      end;
    let '(authority, path) := split_path rest in
    '(host, port) ← split_host_port authority;
    if negb (valid_host_part host) then None else Some (mkHostSource scheme (to_ascii_lowercase host) port path).

(** What is between the quotes. *)
Definition parse_quoted (inner : list byte) : SourceExpr :=
  match keyword inner with
  | Some k => EKeyword k
  | None =>
      if (6 <=? length inner)%nat && eq_ignore_ascii_case (take 6 inner) (lit "nonce-") then
        let value := drop 6 inner in if is_base64_value value then ENonce value else Unrecognized
      else
        match split_once DASH inner with
        | None => Unrecognized
        | Some (alg, value) =>
            match parse_alg alg with
            | Some alg => if is_base64_value value then EHash (default (mkHash alg []) (parse_hash inner)) else Unrecognized
            | None => Unrecognized
            end
        end
  end.

Definition parse_source (token : list byte) : SourceExpr :=
  match strip_prefix [QUOTE] token with
  | Some inner => match strip_suffix [QUOTE] inner with Some inner => parse_quoted inner | None => Unrecognized end
  | None =>
      match strip_suffix [COLON] token with
      | Some s => if is_scheme s then EScheme (to_ascii_lowercase s) else Unrecognized
      | None => match parse_host_source token with Some h => EHost h | None => Unrecognized end
      end
  end.

(** ** Matching *)
Definition scheme_part_matches (policy_scheme url_scheme : list byte) : bool :=
  bool_decide (policy_scheme = url_scheme) ||
  (bool_decide (policy_scheme = lit "http") && bool_decide (url_scheme = lit "https")) ||
  (bool_decide (policy_scheme = lit "ws") && bool_decide (url_scheme ∈ [lit "wss"; lit "http"; lit "https"])) ||
  (bool_decide (policy_scheme = lit "wss") && bool_decide (url_scheme = lit "https")).

Definition is_network_scheme (s : list byte) : bool := bool_decide (s ∈ [lit "ftp"; lit "http"; lit "https"; lit "ws"; lit "wss"]).

Definition PERCENT : byte := "%"%byte.
(** The two digits after a percent sign, if they are there. *)
Fixpoint percent_decode (l : list byte) : list byte :=
  match l with
  | [] => []
  | c :: t =>
      match t with
      | h :: l' :: t' =>
          if bool_decide (c = PERCENT) then
            match Ip.digit 16 h, Ip.digit 16 l' with
            | Some hi, Some lo => z2b (hi * 16 + lo) :: percent_decode t'
            | _, _ => c :: percent_decode t
            end
          else c :: percent_decode t
      | _ => c :: percent_decode t
      end
  end.

Definition path_part_matches (policy_path url_path : list byte) : bool :=
  if bool_decide (policy_path = []) then true
  else
    let a_rest := default policy_path (strip_prefix [SLASH] policy_path) in
    let b_rest := default url_path (strip_prefix [SLASH] url_path) in
    let exact := negb (ends SLASH policy_path) in
    let a := split_on SLASH a_rest in
    let b := split_on SLASH b_rest in
    if (length b <? length a)%nat then false
    else if exact && negb (length a =? length b)%nat then false
    else
      let a := if exact then a else removelast a in
      forallb (fun p => bool_decide (percent_decode p.1 = percent_decode p.2)) (zip a b).

Definition ends_with (suffix l : list byte) : bool := bool_decide (is_Some (strip_suffix suffix l)).

Definition host_part_matches (policy_host url_host : list byte) : bool :=
  if bool_decide (policy_host = [STAR]) then true
  else match strip_prefix [STAR] policy_host with
       | Some remaining =>
           negb (is_ip_literal url_host) && (length remaining <? length url_host)%nat && ends_with remaining (to_ascii_lowercase url_host)
       | None => bool_decide (policy_host = to_ascii_lowercase url_host)
       end.

Definition self_matches (url : CspUrl) (o : Origin) : bool :=
  match o with
  | Opaque => false
  | Tuple o_scheme o_host o_port =>
      if same_origin o (origin url) then true
      else match host url with
           | None => false
           | Some u_host =>
               if negb (bool_decide (u_host = o_host)) then false
               else
                 let u_scheme := scheme url in
                 let upgraded :=
                   (bool_decide (o_scheme = lit "http") && bool_decide (u_scheme ∈ [lit "https"; lit "ws"; lit "wss"])) ||
                   (bool_decide (o_scheme = lit "https") && bool_decide (u_scheme = lit "wss")) in
                 if negb upgraded then false
                 else match effective_port url with
                      | None => false
                      | Some u_port =>
                          (o_port =? u_port) ||
                          (bool_decide (default_port o_scheme = Some o_port) && bool_decide (default_port u_scheme = Some u_port))
                      end
           end
  end.

Definition bare_star (h : HostSource) : bool :=
  bool_decide (h_host h = [STAR]) && bool_decide (h_scheme h = None) && bool_decide (h_port h = PortAbsent) && bool_decide (h_path h = None).

Definition host_source_matches (h : HostSource) (url : CspUrl) (o : Origin) (redirects : Z) : bool :=
  if bare_star h then is_network_scheme (scheme url) || bool_decide (origin_scheme o = Some (scheme url))
  else
    let scheme_ok :=
      match h_scheme h with
      | Some s => scheme_part_matches s (scheme url)
      | None => match origin_scheme o with Some os => scheme_part_matches os (scheme url) | None => false end
      end in
    if negb scheme_ok then false
    else match host url with
         | None => false
         | Some host =>
             if negb (host_part_matches (h_host h) host) then false
             else
               let port_ok :=
                 match h_port h with
                 | PortAny => true
                 | PortNum n => bool_decide (effective_port url = Some n)
                 | PortAbsent => bool_decide (port url = None)
                 end in
               if negb port_ok then false
               else match h_path h with Some p => if redirects =? 0 then path_part_matches p (path url) else true | None => true end
         end.

Definition expr_matches_url (e : SourceExpr) (url : CspUrl) (o : Origin) (redirects : Z) : bool :=
  match e with
  | EKeyword SelfOrigin => self_matches url o
  | EKeyword _ | ENonce _ | EHash _ | Unrecognized => false
  | EScheme s => scheme_part_matches s (scheme url)
  | EHost h => host_source_matches h url o redirects
  end.

(** ** Lists *)
Inductive InlineType := Script | ScriptAttribute | Style | StyleAttribute | Navigation.
#[export] Instance inline_type_eq_dec : EqDecision InlineType.
Proof. solve_decision. Defined.

Definition SourceList : Type := list SourceExpr.
Definition parse_list (tokens : list (list byte)) : SourceList := map parse_source tokens.

Definition is_none (l : SourceList) : bool := match l with [] | [EKeyword KNone] => true | _ => false end.
Definition has_keyword (l : SourceList) (k : Keyword) : bool := bool_decide (EKeyword k ∈ l).
Definition is_hash (e : SourceExpr) : bool := match e with EHash _ => true | _ => false end.
Definition has_nonce_or_hash (l : SourceList) : bool := existsb (fun e => match e with ENonce _ | EHash _ => true | _ => false end) l.
Definition has_hash (l : SourceList) : bool := existsb is_hash l.
Definition nonce_matches (l : SourceList) (nonce : list byte) : bool :=
  negb (bool_decide (nonce = [])) && existsb (fun e => match e with ENonce n => bool_decide (n = nonce) | _ => false end) l.
Definition contains_hash (l : SourceList) (h : HashValue) : bool :=
  existsb (fun e => match e with EHash x => bool_decide (x = h) | _ => false end) l.

Definition hash_matches_text (l : SourceList) (text : list byte) : bool :=
  if negb (has_hash l) then false
  else
    existsb (fun a =>
      existsb (fun e => match e with EHash h => bool_decide (alg h = a) | _ => false end) l &&
      contains_hash l (mkHash a (alg_digest a text))) [Sha256; Sha384; Sha512].

Definition matches_url (l : SourceList) (url : CspUrl) (o : Origin) (redirect_count : Z) : bool :=
  if is_none l then false else existsb (fun e => expr_matches_url e url o redirect_count) l.

Definition script_like (ty : InlineType) : bool := match ty with Script | ScriptAttribute | Navigation => true | _ => false end.

Fixpoint inline_loop (ty : InlineType) (allow : bool) (l : SourceList) : bool :=
  match l with
  | [] => allow
  | ENonce _ :: _ | EHash _ :: _ => false
  | EKeyword StrictDynamic :: l => if script_like ty then false else inline_loop ty allow l
  | EKeyword UnsafeInline :: l => inline_loop ty true l
  | _ :: l => inline_loop ty allow l
  end.
Definition allows_all_inline (l : SourceList) (ty : InlineType) : bool := inline_loop ty false l.

(** * What a source list matches

    The rules of the specification as relations, one rule for a way to match, and
    that the code decides them. *)
(** ** The rules *)
(** A scheme covers itself and what is more secure. *)
Inductive scheme_covers : list byte -> list byte -> Prop :=
| scheme_same s : scheme_covers s s
| scheme_http : scheme_covers (lit "http") (lit "https")
| scheme_ws s : s ∈ [lit "wss"; lit "http"; lit "https"] -> scheme_covers (lit "ws") s
| scheme_wss : scheme_covers (lit "wss") (lit "https").

(** A star covers every host, a star and a suffix every name below it that is no
    address, a name itself. *)
Inductive host_covers : list byte -> list byte -> Prop :=
| host_any h : host_covers [STAR] h
| host_below suffix x h : suffix <> [] -> is_ip_literal h = false -> x <> [] -> to_ascii_lowercase h = x ++ suffix -> host_covers (STAR :: suffix) h
| host_same p h : head p <> Some STAR -> p = to_ascii_lowercase h -> host_covers p h.

(** The segments of a path, decoded. *)
Definition segments (p : list byte) : list (list byte) := map percent_decode (split_on SLASH (default p (strip_prefix [SLASH] p))).

(** A path that ends in a slash covers what is below it, another one itself. *)
Inductive path_covers : list byte -> list byte -> Prop :=
| path_empty u : path_covers [] u
| path_same p u : p <> [] -> ends SLASH p = false -> segments p = segments u -> path_covers p u
| path_below p u below : ends SLASH p = true -> below <> [] -> segments u = removelast (segments p) ++ below -> path_covers p u.

Inductive upgrades : list byte -> list byte -> Prop :=
| upgrade_http s : s ∈ [lit "https"; lit "ws"; lit "wss"] -> upgrades (lit "http") s
| upgrade_https : upgrades (lit "https") (lit "wss").

Inductive self_covers : Origin -> CspUrl -> Prop :=
| self_same s h p u : origin u = Tuple s h p -> self_covers (Tuple s h p) u
| self_upgraded s h p u up : host u = Some h -> upgrades s (scheme u) -> effective_port u = Some up ->
    p = up \/ (default_port s = Some p /\ default_port (scheme u) = Some up) -> self_covers (Tuple s h p) u.

Definition port_covers (p : PortPart) (u : CspUrl) : Prop :=
  match p with PortAny => True | PortNum n => effective_port u = Some n | PortAbsent => port u = None end.

(** An expression covers a URL for a document of some origin, after a number of
    redirects. *)
Inductive covers (o : Origin) (redirects : Z) (u : CspUrl) : SourceExpr -> Prop :=
| covers_self : self_covers o u -> covers o redirects u (EKeyword SelfOrigin)
| covers_scheme s : scheme_covers s (scheme u) -> covers o redirects u (EScheme s)
| covers_star h : bare_star h = true -> is_network_scheme (scheme u) = true \/ origin_scheme o = Some (scheme u) -> covers o redirects u (EHost h)
| covers_host h s name : bare_star h = false -> h_scheme h = Some s \/ (h_scheme h = None /\ origin_scheme o = Some s) ->
    scheme_covers s (scheme u) -> host u = Some name -> host_covers (h_host h) name -> port_covers (h_port h) u ->
    (forall p, h_path h = Some p -> redirects = 0 -> path_covers p (path u)) -> covers o redirects u (EHost h).

(** ** The code decides them *)
Lemma scheme_part_spec s u : scheme_part_matches s u = true <-> scheme_covers s u.
Proof.
  unfold scheme_part_matches. rewrite !orb_true_iff, !andb_true_iff, !bool_decide_eq_true. split.
  - intros [[[->|[-> ->]]|[-> H]]|[-> ->]]; by constructor.
  - inversion 1; subst; tauto.
Qed.

Lemma ends_with_spec s l : ends_with s l = true <-> exists x, l = x ++ s.
Proof.
  unfold ends_with. rewrite bool_decide_eq_true. split; [intros [x Hx]; exists x; by apply strip_suffix_Some|].
  intros [x ->]. exists x. by apply strip_suffix_Some.
Qed.

Lemma host_part_spec p h : host_part_matches p h = true <-> host_covers p h.
Proof.
  unfold host_part_matches. case_bool_decide as E; [subst; split; [intros _; constructor|done]|].
  destruct (strip_prefix [STAR] p) as [r|] eqn:Er.
  - apply strip_prefix_Some in Er as ->. change ([STAR] ++ r) with (STAR :: r) in *. rewrite !andb_true_iff, negb_true_iff, Nat.ltb_lt, ends_with_spec. split.
    + intros [[H1 H2] [x Hx]]. apply (host_below r x); [by intros ->|done| |done]. intros ->. apply (f_equal length) in Hx. unfold to_ascii_lowercase in Hx. rewrite length_map in Hx. simpl in Hx. lia.
    + inversion 1 as [|? x ? H1 H2 H3 H4|? ? Hh]; subst; [done| |by destruct Hh]. split_and!; [done| |by exists x].
      apply (f_equal length) in H4. unfold to_ascii_lowercase in H4. rewrite length_map, length_app in H4. destruct x; [done|]. simpl in H4. lia.
  - rewrite bool_decide_eq_true. split.
    + intros ->. apply host_same; [|done]. intros Hh. destruct (to_ascii_lowercase h) as [|b l]; [done|]. injection Hh as ->.
      by rewrite (proj2 (strip_prefix_Some [STAR] _ l)) in Er.
    + inversion 1 as [|sf ? ? ? ? ? ?|]; subst; [done| |done]. by rewrite (proj2 (strip_prefix_Some [STAR] _ sf)) in Er.
Qed.

Lemma zip_equal {A} (f : list byte -> A) `{EqDecision A} (a b : list (list byte)) : (length a <= length b)%nat ->
  forallb (fun p => bool_decide (f p.1 = f p.2)) (zip a b) = true <-> exists rest, map f b = map f a ++ rest.
Proof.
  revert b. induction a as [|x a IH]; intros b Hl; [split; [by exists (map f b)|done]|]. destruct b as [|y b]; [simpl in Hl; lia|].
  simpl in Hl. change (zip (x :: a) (y :: b)) with ((x, y) :: zip a b). cbn [forallb fst snd map app]. rewrite andb_true_iff, bool_decide_eq_true, IH by lia. split.
  - intros [-> [r ->]]. by exists r.
  - intros [r [= -> ->]]. split; [done|by exists r].
Qed.

Lemma path_part_spec p u : path_part_matches p u = true <-> path_covers p u.
Proof.
  unfold path_part_matches. case_bool_decide as E; [subst; split; [intros _; constructor|done]|]. cbv zeta.
  set (a := split_on SLASH (default p (strip_prefix [SLASH] p))). set (b := split_on SLASH (default u (strip_prefix [SLASH] u))).
  assert (segments p = map percent_decode a /\ segments u = map percent_decode b) as [Ea Eb] by done.
  assert (a <> []) as Hne by apply split_on_ne.
  assert (forall l : list (list byte), map percent_decode (removelast l) = removelast (map percent_decode l)) as Hrem.
  { intros l. destruct l as [|x l _] using rev_ind; [done|]. rewrite removelast_last, map_app. cbn [map]. by rewrite removelast_last. }
  assert (length (removelast a) = (length a - 1)%nat) as Hlen.
  { destruct a as [|x l _] using rev_ind; [done|]. rewrite removelast_last, length_app. simpl. lia. }
  destruct (length b <? length a)%nat eqn:E1; [apply Nat.ltb_lt in E1|apply Nat.ltb_ge in E1].
  { split; [done|]. inversion 1 as [|? ? _ _ H2|? ? below He Hb H2]; subst; [done|..]; rewrite Ea, Eb in H2; apply (f_equal length) in H2.
    - rewrite !length_map in H2. lia.
    - rewrite <- Hrem, length_app, !length_map, Hlen in H2. destruct below; [done|]. simpl in H2. destruct a; [done|]. simpl in *. lia. }
  destruct (ends SLASH p) eqn:E2; cbn [negb andb].
  - rewrite zip_equal by lia. rewrite Hrem, <- Ea, <- Eb. split.
    + intros [rest Hr]. apply (path_below p u rest); [done| |done]. intros ->. rewrite app_nil_r in Hr. apply (f_equal length) in Hr.
      rewrite Ea, Eb, <- Hrem, !length_map, Hlen in Hr. destruct a; [done|]. simpl in *. lia.
    + inversion 1; subst; [done|congruence|by eexists].
  - destruct (length a =? length b)%nat eqn:E3; cbn [negb].
    + apply Nat.eqb_eq in E3. rewrite zip_equal by lia. rewrite <- Ea, <- Eb. split.
      * intros [rest Hr]. apply path_same; [done|done|]. assert (rest = []) as ->; [|by rewrite app_nil_r in Hr].
        apply (f_equal length) in Hr. rewrite length_app, Ea, Eb, !length_map in Hr. destruct rest; [done|]. simpl in Hr. lia.
      * inversion 1 as [|? ? _ _ H2|]; subst; [done|exists []; by rewrite app_nil_r|congruence].
    + apply Nat.eqb_neq in E3. split; [done|]. inversion 1 as [|? ? _ _ H2|]; subst; [done| |congruence].
      rewrite Ea, Eb in H2. apply (f_equal length) in H2. rewrite !length_map in H2. done.
Qed.

Lemma self_spec u o : self_matches u o = true <-> self_covers o u.
Proof.
  destruct o as [|s h p]; [split; [done|inversion 1]|]. unfold self_matches. destruct (same_origin (Tuple s h p) (origin u)) eqn:Es.
  { split; [intros _|done]. apply self_same. unfold same_origin in Es. destruct (origin u); [done|]. apply bool_decide_eq_true in Es. done. }
  assert (origin u <> Tuple s h p) as Hno.
  { intros E. rewrite E in Es. unfold same_origin in Es. by rewrite bool_decide_eq_true_2 in Es. }
  destruct (host u) as [uh|] eqn:Eh.
  2: { split; [done|]. inversion 1; congruence. }
  case_bool_decide as E1; cbn [negb]; [subst uh|split; [done|]; inversion 1; congruence]. cbv zeta.
  destruct ((bool_decide (s = lit "http") && _) || _) eqn:E2; cbn [negb].
  - assert (upgrades s (scheme u)) as Hup.
    { rewrite orb_true_iff, !andb_true_iff, !bool_decide_eq_true in E2. destruct E2 as [[-> ?]|[-> ->]]; by constructor. }
    destruct (effective_port u) as [up|] eqn:Ep; [|split; [done|]; inversion 1; congruence].
    rewrite orb_true_iff, andb_true_iff, Z.eqb_eq, !bool_decide_eq_true. split.
    + intros H. by apply (self_upgraded s h p u up).
    + inversion 1; [congruence|]. by simplify_eq.
  - split; [done|]. inversion 1 as [|? ? ? ? ? _ Hup]; subst; [congruence|]. rewrite orb_false_iff, !andb_false_iff, !bool_decide_eq_false in E2.
    inversion Hup; subst; [tauto|]. destruct E2 as [_ [?|?]]; congruence.
Qed.

Lemma host_source_spec h u o r : host_source_matches h u o r = true <-> covers o r u (EHost h).
Proof.
  unfold host_source_matches. destruct (bare_star h) eqn:Eb.
  { rewrite orb_true_iff, bool_decide_eq_true. split; [by intros H; apply covers_star|]. inversion 1; [done|congruence]. }
  set (so := match h_scheme h with Some s => _ | None => _ end).
  assert (so = true <-> exists s, (h_scheme h = Some s \/ (h_scheme h = None /\ origin_scheme o = Some s)) /\ scheme_covers s (scheme u)) as Hso.
  { unfold so. destruct (h_scheme h) as [s|].
    - rewrite scheme_part_spec. split; [intros ?; exists s; tauto|]. by intros (s' & [[= <-]|[? _]] & ?).
    - destruct (origin_scheme o) as [s|].
      + rewrite scheme_part_spec. split; [intros ?; exists s; tauto|]. by intros (s' & [?|[_ [= <-]]] & ?).
      + split; [done|]. by intros (s' & [?|[_ ?]] & ?). }
  clearbody so. destruct so; cbn [negb].
  2: { split; [done|]. inversion 1 as [| | |? s ? _ Hs Hc]; subst; [congruence|]. apply Hso. by exists s. }
  destruct (proj1 Hso eq_refl) as (s & Hs & Hc). clear Hso. destruct (host u) as [name|] eqn:Eh; [|split; [done|]; inversion 1; congruence].
  destruct (host_part_matches (h_host h) name) eqn:Ehp; cbn [negb].
  2: { split; [done|]. inversion 1 as [| | |? ? ? _ _ _ ? Hcov]; subst; [congruence|]. simplify_eq. apply host_part_spec in Hcov. congruence. }
  apply host_part_spec in Ehp. set (po := match h_port h with PortAny => _ | PortNum n => _ | PortAbsent => _ end).
  assert (po = true <-> port_covers (h_port h) u) as Hpo by (unfold po, port_covers; destruct (h_port h); rewrite ?bool_decide_eq_true; done).
  clearbody po. destruct po; cbn [negb].
  2: { split; [done|]. inversion 1; [congruence|]. by apply Hpo. }
  pose proof (proj1 Hpo eq_refl) as Hport. destruct (h_path h) as [p|] eqn:Epath.
  - destruct (Z.eqb_spec r 0) as [->|Hr].
    + rewrite path_part_spec. split.
      * intros Hp. apply (covers_host o 0 u h s name); [done..|]. rewrite Epath. by intros ? [= <-].
      * inversion 1 as [| | |? ? ? _ _ _ _ _ _ Hp]; subst; [congruence|]. by apply Hp.
    + split; [intros _|done]. by apply (covers_host o r u h s name).
  - split; [intros _|done]. apply (covers_host o r u h s name); [done..|]. by rewrite Epath.
Qed.

Lemma expr_spec e u o r : expr_matches_url e u o r = true <-> covers o r u e.
Proof.
  destruct e as [k| | |s|h|]; cbn [expr_matches_url]; try (by split; [done|inversion 1]).
  - destruct k; try (by split; [done|inversion 1]). rewrite self_spec. split; [by apply covers_self|by inversion 1].
  - rewrite scheme_part_spec. split; [by apply covers_scheme|by inversion 1].
  - apply host_source_spec.
Qed.

Lemma existsb_Exists {A} (f : A -> bool) l : existsb f l = true <-> Exists (fun a => f a = true) l.
Proof. rewrite existsb_exists, Exists_exists. setoid_rewrite list_elem_of_In. done. Qed.

Lemma matches_url_spec l u o r : matches_url l u o r = true <-> Exists (covers o r u) l.
Proof.
  assert (existsb (fun e => expr_matches_url e u o r) l = true <-> Exists (covers o r u) l) as H.
  { rewrite existsb_Exists. split; intros H; (eapply Exists_impl; [exact H|]); intros e He; by apply expr_spec. }
  unfold matches_url. destruct (is_none l) eqn:En; [|done]. split; [done|]. intros Hx.
  destruct l as [|e [|e' l]]; [by apply Exists_nil in Hx| |by destruct e as [[]| | | | |]].
  apply Exists_cons in Hx as [Hx|Hx]; [|by apply Exists_nil in Hx]. destruct e as [[]| | | | |]; try done. inversion Hx.
Qed.

(** ** Nonces, hashes, inline code *)
Lemma nonce_spec l n : nonce_matches l n = true <-> n <> [] /\ ENonce n ∈ l.
Proof.
  unfold nonce_matches. rewrite andb_true_iff, negb_true_iff, bool_decide_eq_false, existsb_Exists, Exists_exists. split.
  - intros [Hn (e & He & Hm)]. split; [done|]. destruct e; try done. by apply bool_decide_eq_true in Hm as ->.
  - intros [Hn He]. split; [done|]. exists (ENonce n). split; [done|]. by apply bool_decide_eq_true.
Qed.

Lemma contains_hash_spec l h : contains_hash l h = true <-> EHash h ∈ l.
Proof.
  unfold contains_hash. rewrite existsb_Exists, Exists_exists. split.
  - intros (e & He & Hm). destruct e; try done. by apply bool_decide_eq_true in Hm as ->.
  - intros He. exists (EHash h). split; [done|]. by apply bool_decide_eq_true.
Qed.

Lemma hash_text_spec l text : hash_matches_text l text = true <-> exists a, EHash (mkHash a (alg_digest a text)) ∈ l.
Proof.
  unfold hash_matches_text. destruct (has_hash l) eqn:Eh; cbn [negb].
  - rewrite existsb_Exists, Exists_exists. setoid_rewrite andb_true_iff. setoid_rewrite contains_hash_spec. split.
    + intros (a & _ & _ & H). by exists a.
    + intros (a & H). exists a. split; [rewrite !elem_of_cons; destruct a; tauto|]. split; [|done]. apply existsb_Exists, Exists_exists. exists (EHash (mkHash a (alg_digest a text))).
      split; [done|]. by apply bool_decide_eq_true.
  - split; [done|]. intros (a & H). unfold has_hash in Eh. apply existsb_false in Eh. apply (proj1 (Forall_forall _ _) Eh) in H. done.
Qed.

Definition one_by_one (e : SourceExpr) : bool := match e with ENonce _ | EHash _ => true | _ => false end.

Lemma all_inline_spec l ty : allows_all_inline l ty = true <->
  EKeyword UnsafeInline ∈ l /\ Forall (fun e => one_by_one e = false) l /\ (script_like ty = true -> EKeyword StrictDynamic ∉ l).
Proof.
  assert (forall b, inline_loop ty b l = true <-> (b = true \/ EKeyword UnsafeInline ∈ l) /\ Forall (fun e => one_by_one e = false) l /\ (script_like ty = true -> EKeyword StrictDynamic ∉ l)) as H.
  { induction l as [|e l IH]; intros b; cbn [inline_loop].
    - split; [intros ->; split; [by left|]; split; [constructor|intros _; apply not_elem_of_nil]|]. intros [[?|?%elem_of_nil] _]; done.
    - rewrite Forall_cons, not_elem_of_cons, elem_of_cons. destruct e as [k| | | | |]; try (rewrite IH; cbn [one_by_one]; intuition congruence); try (split; [done|]; intros (_ & [? _] & _); done).
      destruct k; try (rewrite IH; cbn [one_by_one]; intuition congruence). destruct (script_like ty); [|rewrite IH; cbn [one_by_one]; intuition congruence].
      split; [done|]. intros (_ & _ & Hs). by destruct (Hs eq_refl). }
  unfold allows_all_inline. rewrite H. intuition congruence.
Qed.

(** ** Base64 *)
Definition ALPHABET : list byte := lit "ABCDEFGHIJKLMNOPQRSTUVWXYZabcdefghijklmnopqrstuvwxyz0123456789+/".
Definition b64_char (v : Z) : byte := default x00 (ALPHABET !! Z.to_nat v).
(** The usual encoding, without its padding. *)
Fixpoint b64 (l : list byte) : list byte :=
  match l with
  | [] => []
  | [a] => map b64_char [b2z a / 4; b2z a mod 4 * 16]
  | [a; b] => map b64_char [b2z a / 4; b2z a mod 4 * 16 + b2z b / 16; b2z b mod 16 * 4]
  | a :: b :: c :: l => map b64_char [b2z a / 4; b2z a mod 4 * 16 + b2z b / 16; b2z b mod 16 * 4 + b2z c / 64; b2z c mod 64] ++ b64 l
  end.

Lemma b64_char_ok v : 0 <= v < 64 -> sextet (b64_char v) = Some v /\ b64_char v <> EQUALS.
Proof.
  intros Hv. assert (forallb (fun v => bool_decide (sextet (b64_char v) = Some v /\ b64_char v <> EQUALS)) (seqZ 0 64) = true) as H by by vm_compute.
  apply forallb_true in H. rewrite Forall_forall in H. specialize (H v). apply bool_decide_eq_true in H; [done|]. apply elem_of_seqZ. lia.
Qed.

Lemma push_sextet acc v : 0 <= acc < 2 ^ 26 -> 0 <= v < 64 -> Z.lor (Z.land (Z.shiftl acc 6) U32_MAX) v = acc * 64 + v.
Proof.
  intros Ha Hv. change U32_MAX with (Z.ones 32). rewrite Z.land_ones, Z.shiftl_mul_pow2 by done. rewrite Z.mod_small by lia.
  pose proof (Z.add_lor_land (acc * 2 ^ 6) v) as E. assert (Z.land (acc * 2 ^ 6) v = 0) as E0; [|rewrite E0 in E; change (2 ^ 6) with 64 in *; lia]. apply Z.bits_inj_0. intros n. rewrite Z.land_spec.
  destruct (Z.ltb_spec n 6) as [Hn|Hn].
  - rewrite (Z.mul_pow2_bits_low acc 6 n) by done. done.
  - rewrite <- (Z.mod_small v (2 ^ 6)) by lia. rewrite Z.mod_pow2_bits_high by lia. by rewrite andb_false_r.
Qed.

Lemma mask_bits x k : 0 <= k -> Z.land x (Z.shiftl 1 k - 1) = x mod 2 ^ k.
Proof. intros Hk. rewrite Z.shiftl_1_l, <- Z.land_ones by done. by rewrite Z.ones_equiv, Z.sub_1_r. Qed.

Lemma low_byte x k : 0 <= k -> Z.land (Z.shiftr x k) 0xff = x / 2 ^ k mod 256.
Proof. intros Hk. change 0xff with (Z.ones 8). by rewrite Z.land_ones, Z.shiftr_div_pow2. Qed.

Lemma base64_step out acc bits l v : 0 <= acc < 2 ^ 26 -> 0 <= v < 64 -> 0 <= bits ->
  base64_loop out acc bits (b64_char v :: l) =
  if 8 <=? bits + 6 then base64_loop (out ++ [z2b ((acc * 64 + v) / 2 ^ (bits - 2))]) ((acc * 64 + v) mod 2 ^ (bits - 2)) (bits - 2) l
  else base64_loop out (acc * 64 + v) (bits + 6) l.
Proof.
  intros Ha Hv Hb. cbn [base64_loop]. destruct (b64_char_ok v Hv) as [-> _]. cbn [mbind option_bind]. rewrite push_sextet by done.
  destruct (8 <=? bits + 6) eqn:E; [|done]. apply Z.leb_le in E. replace (bits + 6 - 8) with (bits - 2) by lia.
  rewrite mask_bits, low_byte by lia. do 3 f_equal. apply b2z_inj. by rewrite !b2z_z2b, Z.mod_mod.
Qed.

Lemma sextets a b c : 0 <= a < 256 -> 0 <= b < 256 -> 0 <= c < 256 ->
  0 <= a / 4 < 64 /\ 0 <= a mod 4 * 16 + b / 16 < 64 /\ 0 <= b mod 16 * 4 + c / 64 < 64 /\ 0 <= c mod 64 < 64.
Proof. intros Ha Hb Hc. Z.div_mod_to_equations. lia. Qed.

Lemma base64_group out a b c l : base64_loop out 0 0 (b64 [a; b; c] ++ l) = base64_loop (out ++ [a; b; c]) 0 0 l.
Proof.
  pose proof (b2z_range a) as Ha. pose proof (b2z_range b) as Hb. pose proof (b2z_range c) as Hc. cbn [b64 map app].
  destruct (sextets (b2z a) (b2z b) (b2z c) Ha Hb Hc) as (H1 & H2 & H3 & H4).
  rewrite base64_step by lia. cbn [Z.leb Z.add Z.compare]. change (8 <=? 0 + 6) with false. cbv iota. change (0 + 6) with 6.
  rewrite base64_step by lia. change (8 <=? 6 + 6) with true. cbv iota. change (6 - 2) with 4.
  set (A := 0 * 64 + b2z a / 4). assert ((A * 64 + (b2z a mod 4 * 16 + b2z b / 16)) / 2 ^ 4 = b2z a) as -> by (unfold A; change (2 ^ 4) with 16; Z.div_mod_to_equations; lia).
  assert ((A * 64 + (b2z a mod 4 * 16 + b2z b / 16)) mod 2 ^ 4 = b2z b / 16) as -> by (unfold A; change (2 ^ 4) with 16; Z.div_mod_to_equations; lia).
  rewrite base64_step; [|change (2 ^ 26) with 67108864; Z.div_mod_to_equations; lia|lia|lia]. change (8 <=? 4 + 6) with true. cbv iota. change (4 - 2) with 2.
  assert ((b2z b / 16 * 64 + (b2z b mod 16 * 4 + b2z c / 64)) / 2 ^ 2 = b2z b) as -> by (change (2 ^ 2) with 4; Z.div_mod_to_equations; lia).
  assert ((b2z b / 16 * 64 + (b2z b mod 16 * 4 + b2z c / 64)) mod 2 ^ 2 = b2z c / 64) as -> by (change (2 ^ 2) with 4; Z.div_mod_to_equations; lia).
  rewrite base64_step; [|change (2 ^ 26) with 67108864; Z.div_mod_to_equations; lia|lia|lia]. change (8 <=? 2 + 6) with true. cbv iota. change (2 - 2) with 0.
  assert ((b2z c / 64 * 64 + b2z c mod 64) / 2 ^ 0 = b2z c) as -> by (change (2 ^ 0) with 1; Z.div_mod_to_equations; lia).
  assert ((b2z c / 64 * 64 + b2z c mod 64) mod 2 ^ 0 = 0) as -> by (change (2 ^ 0) with 1; apply Z.mod_1_r).
  rewrite !z2b_b2z, <- !app_assoc. done.
Qed.

Lemma base64_tail2 out a b : base64_loop out 0 0 (b64 [a; b]) = Some (out ++ [a; b]).
Proof.
  pose proof (b2z_range a) as Ha. pose proof (b2z_range b) as Hb. destruct (sextets (b2z a) (b2z b) 0 Ha Hb ltac:(lia)) as (H1 & H2 & H3 & _).
  change (0 / 64) with 0 in H3. rewrite Z.add_0_r in H3. cbn [b64 map app].
  rewrite base64_step by lia. change (8 <=? 0 + 6) with false. cbv iota. change (0 + 6) with 6.
  rewrite base64_step by lia. change (8 <=? 6 + 6) with true. cbv iota. change (6 - 2) with 4.
  set (A := 0 * 64 + b2z a / 4). assert ((A * 64 + (b2z a mod 4 * 16 + b2z b / 16)) / 2 ^ 4 = b2z a) as -> by (unfold A; change (2 ^ 4) with 16; Z.div_mod_to_equations; lia).
  assert ((A * 64 + (b2z a mod 4 * 16 + b2z b / 16)) mod 2 ^ 4 = b2z b / 16) as -> by (unfold A; change (2 ^ 4) with 16; Z.div_mod_to_equations; lia).
  rewrite base64_step; [|change (2 ^ 26) with 67108864; Z.div_mod_to_equations; lia|lia|lia]. change (8 <=? 4 + 6) with true. cbv iota. change (4 - 2) with 2.
  assert ((b2z b / 16 * 64 + b2z b mod 16 * 4) / 2 ^ 2 = b2z b) as -> by (change (2 ^ 2) with 4; Z.div_mod_to_equations; lia).
  cbn [base64_loop]. rewrite !z2b_b2z, <- !app_assoc. done.
Qed.

Lemma base64_tail1 out a : base64_loop out 0 0 (b64 [a]) = Some (out ++ [a]).
Proof.
  pose proof (b2z_range a) as Ha. destruct (sextets (b2z a) 0 0 Ha ltac:(lia) ltac:(lia)) as (H1 & H2 & _).
  change (0 / 16) with 0 in H2. rewrite Z.add_0_r in H2. cbn [b64 map app].
  rewrite base64_step by lia. change (8 <=? 0 + 6) with false. cbv iota. change (0 + 6) with 6.
  rewrite base64_step by lia. change (8 <=? 6 + 6) with true. cbv iota. change (6 - 2) with 4.
  assert (((0 * 64 + b2z a / 4) * 64 + b2z a mod 4 * 16) / 2 ^ 4 = b2z a) as -> by (change (2 ^ 4) with 16; Z.div_mod_to_equations; lia).
  cbn [base64_loop]. by rewrite z2b_b2z.
Qed.

Lemma base64_loop_b64 s out : base64_loop out 0 0 (b64 s) = Some (out ++ s).
Proof.
  remember (length s) as n eqn:En. revert s out En. induction n as [n IH] using (well_founded_induction lt_wf). intros s out ->.
  destruct s as [|a [|b [|c s]]]; [by rewrite app_nil_r|apply base64_tail1|apply base64_tail2|].
  change (b64 (a :: b :: c :: s)) with (b64 [a; b; c] ++ b64 s). rewrite base64_group, (IH (length s)) by (simpl; lia). by rewrite <- app_assoc.
Qed.

Lemma b64_text s : Forall (fun b => b <> EQUALS /\ (is_alphanumeric b || bool_decide (b ∈ lit "+/-_")) = true) (b64 s) /\ len (b64 s) mod 4 <> 1 /\ (s <> [] -> b64 s <> []).
Proof.
  assert (forall v, 0 <= v < 64 -> b64_char v <> EQUALS /\ (is_alphanumeric (b64_char v) || bool_decide (b64_char v ∈ lit "+/-_")) = true) as Hc.
  { intros v Hv. assert (forallb (fun v => bool_decide (b64_char v <> EQUALS /\ (is_alphanumeric (b64_char v) || bool_decide (b64_char v ∈ lit "+/-_")) = true)) (seqZ 0 64) = true) as H by by vm_compute.
    apply forallb_true in H. rewrite Forall_forall in H. specialize (H v). apply bool_decide_eq_true in H; [done|]. apply elem_of_seqZ. lia. }
  remember (length s) as n eqn:En. revert s En. induction n as [n IH] using (well_founded_induction lt_wf). intros s ->.
  destruct s as [|a [|b [|c s]]]; [by split_and!| | |].
  - pose proof (b2z_range a) as Ha. split_and!; [|done|done]. repeat constructor; apply Hc; Z.div_mod_to_equations; lia.
  - pose proof (b2z_range a) as Ha. pose proof (b2z_range b) as Hb. split_and!; [|done|done]. repeat constructor; apply Hc; Z.div_mod_to_equations; lia.
  - pose proof (b2z_range a) as Ha. pose proof (b2z_range b) as Hb. pose proof (b2z_range c) as Hc'. destruct (sextets (b2z a) (b2z b) (b2z c) Ha Hb Hc') as (H1 & H2 & H3 & H4).
    change (b64 (a :: b :: c :: s)) with (map b64_char [b2z a / 4; b2z a mod 4 * 16 + b2z b / 16; b2z b mod 16 * 4 + b2z c / 64; b2z c mod 64] ++ b64 s).
    destruct (IH (length s) ltac:(simpl; lia) s eq_refl) as (I1 & I2 & _). split_and!.
    + apply Forall_app. split; [|done]. repeat constructor; by apply Hc.
    + rewrite len_app. change (len (map _ _)) with (1 * 4). by rewrite Z.add_comm, Z.mod_add.
    + done.
Qed.

Lemma decode_b64 s k : (k <= 2)%nat -> decode_base64 (b64 s ++ replicate k EQUALS) = Some s.
Proof.
  intros Hk. destruct (b64_text s) as (Ht & Hm & _). unfold decode_base64.
  assert (EQUALS ∉ b64 s) as Hn by (eapply not_in_Forall; [exact Ht|]; cbv beta; tauto).
  assert (default (b64 s ++ replicate k EQUALS) (match strip_suffix (lit "==") (b64 s ++ replicate k EQUALS) with Some t => Some t | None => strip_suffix [EQUALS] (b64 s ++ replicate k EQUALS) end) = b64 s) as ->.
  { assert (forall t x, b64 s = t ++ EQUALS :: x -> False) as Hno by (intros t x E; apply Hn; rewrite E; apply elem_of_app; right; by left).
    destruct k as [|[|[|k]]]; [| | |lia]; cbn [replicate].
    - rewrite app_nil_r. destruct (strip_suffix (lit "==") (b64 s)) as [t|] eqn:E1; [apply strip_suffix_Some in E1; by destruct (Hno t [EQUALS])|].
      destruct (strip_suffix [EQUALS] (b64 s)) as [t|] eqn:E2; [apply strip_suffix_Some in E2; by destruct (Hno t [])|done].
    - destruct (strip_suffix (lit "==") (b64 s ++ [EQUALS])) as [t|] eqn:E1.
      + apply strip_suffix_Some in E1. change (lit "==") with ([EQUALS] ++ [EQUALS]) in E1. rewrite app_assoc in E1. apply app_inj_tail in E1 as [E1 _]. by destruct (Hno t []).
      + by rewrite (proj2 (strip_suffix_Some [EQUALS] _ (b64 s))).
    - by rewrite (proj2 (strip_suffix_Some (lit "==") _ (b64 s))). }
  rewrite bool_decide_eq_false_2 by done. rewrite (proj2 (Z.eqb_neq _ _)) by done. cbn [orb]. apply base64_loop_b64.
Qed.

Lemma parse_hash_b64 a digest : length digest = digest_len a -> parse_hash (alg_name a ++ DASH :: b64 digest) = Some (mkHash a digest).
Proof.
  intros Hl. unfold parse_hash. rewrite (proj2 (split_once_spec DASH _ (alg_name a) (b64 digest))).
  2: { split; [done|]. by destruct a; apply (bool_decide_unpack _); vm_compute. }
  cbn [mbind option_bind]. assert (parse_alg (alg_name a) = Some a) as -> by by destruct a. cbn [mbind option_bind].
  pose proof (decode_b64 digest 0 ltac:(lia)) as Hd. rewrite app_nil_r in Hd. rewrite Hd. cbn [mbind option_bind]. by rewrite Hl, Nat.eqb_refl.
Qed.

(** The expression for a digest. *)
Definition hash_source (a : HashAlg) (digest : list byte) : list byte := QUOTE :: (alg_name a ++ DASH :: b64 digest) ++ [QUOTE].

Lemma parse_hash_source a digest : length digest = digest_len a -> parse_source (hash_source a digest) = EHash (mkHash a digest).
Proof.
  intros Hl. unfold parse_source, hash_source. rewrite (proj2 (strip_prefix_Some [QUOTE] _ ((alg_name a ++ DASH :: b64 digest) ++ [QUOTE]))) by done.
  rewrite (proj2 (strip_suffix_Some [QUOTE] _ (alg_name a ++ DASH :: b64 digest))) by done. unfold parse_quoted.
  assert (keyword (alg_name a ++ DASH :: b64 digest) = None) as -> by by destruct a.
  assert (eq_ignore_ascii_case (take 6 (alg_name a ++ DASH :: b64 digest)) (lit "nonce-") = false) as -> by by destruct a. rewrite andb_false_r.
  rewrite (proj2 (split_once_spec DASH _ (alg_name a) (b64 digest))).
  2: { split; [done|]. by destruct a; apply (bool_decide_unpack _); vm_compute. }
  assert (parse_alg (alg_name a) = Some a) as -> by by destruct a. rewrite (parse_hash_b64 a digest Hl). destruct (b64_text digest) as (Ht & _ & Hne).
  assert (is_base64_value (b64 digest) = true) as ->; [|done]. unfold is_base64_value. rewrite trim_end_matches_id.
  - rewrite Nat.sub_diag, bool_decide_eq_false_2 by (apply Hne; intros ->; by destruct a). cbn [negb andb]. apply forallb_true. eapply Forall_impl; [exact Ht|]. by intros b [_ ?].
  - intros Hlast. apply last_Some_elem_of in Hlast. apply (proj1 (Forall_forall _ _) Ht) in Hlast. tauto.
Qed.
