(* ===== verification/CspPolicy.v ===== *)
(** * Serialized policies and the sandbox directive (px-websec/src/csp/policy.rs, csp/sandbox.rs)

    Parsing of headers and of [meta] content, the set of policies of a document,
    and the flags of a sandbox. *)
From S2P Require Import Prelude Bytes Text Chars WebUrl WebHost WebCanon WebParse CspUrl CspSource.
Local Open Scope Z_scope.

(** ** Sandbox flags *)
Inductive SandboxAllow :=
| Downloads | Forms | Modals | OrientationLock | PointerLock | Popups | PopupsToEscapeSandbox | Presentation | SameOrigin | Scripts
| StorageAccessByUserActivation | TopNavigation | TopNavigationByUserActivation | TopNavigationToCustomProtocols.
#[export] Instance sandbox_allow_eq_dec : EqDecision SandboxAllow.
Proof. solve_decision. Defined.

Definition SANDBOX_TABLE : list (list byte * SandboxAllow) := [
  (lit "allow-downloads", Downloads); (lit "allow-forms", Forms); (lit "allow-modals", Modals);
  (lit "allow-orientation-lock", OrientationLock); (lit "allow-pointer-lock", PointerLock); (lit "allow-popups", Popups);
  (lit "allow-popups-to-escape-sandbox", PopupsToEscapeSandbox); (lit "allow-presentation", Presentation);
  (lit "allow-same-origin", SameOrigin); (lit "allow-scripts", Scripts);
  (lit "allow-storage-access-by-user-activation", StorageAccessByUserActivation); (lit "allow-top-navigation", TopNavigation);
  (lit "allow-top-navigation-by-user-activation", TopNavigationByUserActivation);
  (lit "allow-top-navigation-to-custom-protocols", TopNavigationToCustomProtocols)].

Definition allow_bit (a : SandboxAllow) : Z :=
  match a with
  | Downloads => Z.shiftl 1 0 | Forms => Z.shiftl 1 1 | Modals => Z.shiftl 1 2 | OrientationLock => Z.shiftl 1 3
  | PointerLock => Z.shiftl 1 4 | Popups => Z.shiftl 1 5 | PopupsToEscapeSandbox => Z.shiftl 1 6 | Presentation => Z.shiftl 1 7
  | SameOrigin => Z.shiftl 1 8 | Scripts => Z.shiftl 1 9 | StorageAccessByUserActivation => Z.shiftl 1 10
  | TopNavigation => Z.shiftl 1 11 | TopNavigationByUserActivation => Z.shiftl 1 12 | TopNavigationToCustomProtocols => Z.shiftl 1 13
  end.

(** The bits of a [u16]. *)
Definition SandboxFlags : Type := Z.

Definition from_tokens (tokens : list (list byte)) : SandboxFlags :=
  foldl (fun bits t =>
    match List.find (fun e => eq_ignore_ascii_case t e.1) SANDBOX_TABLE with
    | Some (_, a) => Z.lor bits (allow_bit a)
    | None => bits
    end) 0 tokens.

Definition allows (f : SandboxFlags) (a : SandboxAllow) : bool := negb (Z.land f (allow_bit a) =? 0).
Definition forces_opaque_origin (f : SandboxFlags) : bool := negb (allows f SameOrigin).
Definition allows_scripts (f : SandboxFlags) : bool := allows f Scripts.
Definition intersect (f other : SandboxFlags) : SandboxFlags := Z.land f other.

(** ** Policies *)
Definition MAX_POLICY_BYTES : Z := Z.shiftl 1 20.
Definition MAX_POLICIES : Z := 128.
Definition MAX_UNKNOWN_DIRECTIVES : Z := 64.

Definition KNOWN_DIRECTIVES : list (list byte) := [
  lit "default-src"; lit "script-src"; lit "script-src-elem"; lit "script-src-attr"; lit "style-src"; lit "style-src-elem";
  lit "style-src-attr"; lit "img-src"; lit "font-src"; lit "connect-src"; lit "media-src"; lit "object-src"; lit "frame-src";
  lit "child-src"; lit "worker-src"; lit "manifest-src"; lit "prefetch-src"; lit "base-uri"; lit "form-action";
  lit "frame-ancestors"; lit "sandbox"; lit "upgrade-insecure-requests"; lit "block-all-mixed-content"; lit "report-uri";
  lit "report-to"; lit "require-trusted-types-for"; lit "trusted-types"; lit "plugin-types"; lit "navigate-to"].

Inductive ParseError := TooLarge | TooManyPolicies.
Inductive Disposition := Enforce | Report.
#[export] Instance disposition_eq_dec : EqDecision Disposition.
Proof. solve_decision. Defined.
Inductive PolicySource := Header | Meta.
#[export] Instance policy_source_eq_dec : EqDecision PolicySource.
Proof. solve_decision. Defined.

Record Directive := mkDirective { name : list byte; values : list (list byte) }.
Record Policy := mkPolicy { directives : list Directive; disposition : Disposition; source : PolicySource }.

Definition SEMICOLON : byte := ";"%byte.
Definition COMMA : byte := ","%byte.

(** Tab, line feed, form feed, carriage return, space. *)
Definition is_ascii_ws (b : byte) : bool := bool_decide (b ∈ [x09; x0a; x0c; x0d; x20]).
Definition trim_ws (s : list byte) : list byte := reverse (Url.drop_while is_ascii_ws (reverse (Url.drop_while is_ascii_ws s))).

Definition valid_directive_name (n : list byte) : bool :=
  negb (bool_decide (n = [])) && forallb (fun b => is_alphanumeric b || bool_decide (b = DASH)) n.

(** [split] at every byte of a kind. *)
Fixpoint split_by (f : byte -> bool) (l : list byte) : list (list byte) :=
  match l with
  | [] => [[]]
  | b :: t => if f b then [] :: split_by f t else match split_by f t with p :: ps => (b :: p) :: ps | [] => [[b]] end
  end.

Definition value_tokens (rest : list byte) : list (list byte) :=
  List.filter is_utf8 (List.filter (fun v => negb (bool_decide (v = []))) (split_by is_ascii_ws rest)).

(** The loop over the tokens, with the names that were seen and the number of
    unknown ones that were kept. *)
Fixpoint parse_tokens (directives : list Directive) (seen : list (list byte)) (unknown : Z) (tokens : list (list byte)) : list Directive :=
  match tokens with
  | [] => directives
  | token :: tokens =>
      let token := trim_ws token in
      if bool_decide (token = []) || negb (is_ascii token) then parse_tokens directives seen unknown tokens
      else
        let '(name, rest) := Url.break_at is_ascii_ws token in
        if negb (valid_directive_name name) then parse_tokens directives seen unknown tokens
        else
          let name := to_ascii_lowercase name in
          if bool_decide (name ∈ seen) then parse_tokens directives seen unknown tokens
          else if negb (is_utf8 name) then parse_tokens directives seen unknown tokens
          else
            let known := bool_decide (name ∈ KNOWN_DIRECTIVES) in
            if negb known && (MAX_UNKNOWN_DIRECTIVES <=? unknown) then parse_tokens directives seen unknown tokens
            else
              parse_tokens (directives ++ [mkDirective name (value_tokens rest)]) (name :: seen)
                (if known then unknown else unknown + 1) tokens
  end.

Definition parse_policy (input : list byte) (disposition : Disposition) (source : PolicySource) : result ParseError Policy :=
  if MAX_POLICY_BYTES <? len input then Err TooLarge
  else Ok (mkPolicy (parse_tokens [] [] 0 (split_on SEMICOLON input)) disposition source).

Definition meta_keeps (d : Directive) : bool := negb (bool_decide (name d ∈ [lit "report-uri"; lit "frame-ancestors"; lit "sandbox"])).
Definition parse_meta (content : list byte) : result ParseError Policy :=
  p ← parse_policy content Enforce Meta;
  Ok (mkPolicy (List.filter meta_keeps (directives p)) (disposition p) (source p)).

Definition deny_all : Policy :=
  mkPolicy [mkDirective (lit "default-src") [lit "'none'"]; mkDirective (lit "base-uri") [lit "'none'"];
            mkDirective (lit "form-action") [lit "'none'"]; mkDirective (lit "frame-ancestors") [lit "'none'"];
            mkDirective (lit "sandbox") []; mkDirective (lit "upgrade-insecure-requests") [];
            mkDirective (lit "block-all-mixed-content") []] Enforce Header.

(** The first directive of every name. *)
Fixpoint first_of_each (seen : list (list byte)) (l : list Directive) : list Directive :=
  match l with
  | [] => []
  | d :: l => if bool_decide (name d ∈ seen) then first_of_each seen l else d :: first_of_each (name d :: seen) l
  end.
Definition from_directives (l : list Directive) (disposition : Disposition) (source : PolicySource) : Policy :=
  mkPolicy (first_of_each [] l) disposition source.

Definition is_empty (p : Policy) : bool := bool_decide (length (directives p) = 0%nat).
Definition directive (p : Policy) (n : list byte) : option Directive := List.find (fun d => bool_decide (name d = n)) (directives p).
Definition has (p : Policy) (n : list byte) : bool := bool_decide (is_Some (directive p n)).
Definition source_list (p : Policy) (n : list byte) : option SourceList := (fun d => parse_list (values d)) <$> directive p n.
Definition report_uri (p : Policy) : list (list byte) := match directive p (lit "report-uri") with Some d => values d | None => [] end.
Definition report_to (p : Policy) : option (list byte) := d ← directive p (lit "report-to"); head (values d).
Definition wants_sample (p : Policy) (n : list byte) : bool :=
  match source_list p n with Some l => has_keyword l ReportSample | None => false end.

Definition policy_sandbox_flags (p : Policy) : option SandboxFlags :=
  if bool_decide (disposition p = Report) || bool_decide (source p = Meta) then None
  else (fun d => from_tokens (values d)) <$> directive p (lit "sandbox").

(** ** Writing *)
Definition write_directive (d : Directive) : list byte := name d ++ concat (map (cons x20) (values d)).
(** [join] with a separator of two bytes. *)
Fixpoint join_str (sep : list byte) (ps : list (list byte)) : list byte :=
  match ps with [] => [] | [p] => p | p :: ps => p ++ sep ++ join_str sep ps end.
Definition serialize (p : Policy) : list byte := join_str (lit "; ") (map write_directive (directives p)).

(** ** Lists of policies *)
Fixpoint parse_pieces (out : list Policy) (disposition : Disposition) (pieces : list (list byte)) : result ParseError (list Policy) :=
  match pieces with
  | [] => Ok out
  | piece :: pieces =>
      p ← parse_policy piece disposition Header;
      if is_empty p then parse_pieces out disposition pieces
      else if MAX_POLICIES <=? len out then Err TooManyPolicies
      else parse_pieces (out ++ [p]) disposition pieces
  end.

Definition parse_policy_list (input : list byte) (disposition : Disposition) : result ParseError (list Policy) :=
  if MAX_POLICY_BYTES <? len input then Err TooLarge else parse_pieces [] disposition (split_on COMMA input).

Fixpoint serialize_parts (policies : list Policy) : option (list (list byte)) :=
  match policies with
  | [] => Some []
  | p :: policies =>
      let s := serialize p in
      if bool_decide (COMMA ∈ s) then None else parts ← serialize_parts policies; Some (s :: parts)
  end.
Definition serialize_policy_list (policies : list Policy) : option (list byte) := join_str (lit ", ") <$> serialize_parts policies.

Record PolicySet := mkSet { policies : list Policy }.
Definition empty_set : PolicySet := mkSet [].

Fixpoint add_headers (policies : list Policy) (disposition : Disposition) (values : list (list byte)) : result ParseError (list Policy) :=
  match values with
  | [] => Ok policies
  | v :: values =>
      l ← parse_policy_list v disposition;
      let policies := policies ++ l in
      if MAX_POLICIES <? len policies then Err TooManyPolicies else add_headers policies disposition values
  end.

Definition from_headers (enforce report_only : list (list byte)) : result ParseError PolicySet :=
  ps ← add_headers [] Enforce enforce;
  ps ← add_headers ps Report report_only;
  Ok (mkSet ps).

Definition from_headers_fail_closed (enforce report_only : list (list byte)) : PolicySet :=
  match from_headers enforce report_only with Ok s => s | Err _ => mkSet [deny_all] end.

Definition push (s : PolicySet) (p : Policy) : PolicySet := mkSet (policies s ++ [p]).
Definition add_meta (s : PolicySet) (content : list byte) : PolicySet :=
  let p := match parse_meta content with Ok p => p | Err _ => deny_all end in
  if negb (is_empty p) && (len (policies s) <? MAX_POLICIES) then push s p
  else if negb (is_empty p) then push s deny_all
  else s.

(** * What policies parse to

    A token holds a directive or nothing; a policy is what its tokens hold, the
    first of each name, with at most so many unknown ones.  Policies are read back
    from their written form, and a directive the crate acts on is never lost. *)
(** ** Tokens *)
(** The directive that a token holds. *)
Definition read_token (token : list byte) : option Directive :=
  let token := trim_ws token in
  if bool_decide (token = []) || negb (is_ascii token) then None
  else
    let '(name, rest) := Url.break_at is_ascii_ws token in
    if valid_directive_name name then Some (mkDirective (to_ascii_lowercase name) (value_tokens rest)) else None.

(** The loop on directives. *)
Fixpoint keep (ds : list Directive) (seen : list (list byte)) (unknown : Z) (l : list Directive) : list Directive :=
  match l with
  | [] => ds
  | d :: l =>
      if bool_decide (name d ∈ seen) then keep ds seen unknown l
      else
        let known := bool_decide (name d ∈ KNOWN_DIRECTIVES) in
        if negb known && (MAX_UNKNOWN_DIRECTIVES <=? unknown) then keep ds seen unknown l
        else keep (ds ++ [d]) (name d :: seen) (if known then unknown else unknown + 1) l
  end.

Definition name_char (b : byte) : bool := is_alphanumeric b || bool_decide (b = DASH).
Lemma name_char_ok b : name_char b = true ->
  name_char (ascii_lower_byte b) = true /\ is_ascii_byte b = true /\ is_ascii_ws b = false /\ b <> SEMICOLON /\ b <> COMMA /\ in_range 65 90 (ascii_lower_byte b) = false.
Proof. intros H. destruct b; try (by vm_compute in H); by split_and!. Qed.

Lemma valid_name n : valid_directive_name n = true <-> n <> [] /\ Forall (fun b => name_char b = true) n.
Proof. unfold valid_directive_name. by rewrite andb_true_iff, negb_true_iff, bool_decide_eq_false, forallb_true. Qed.

Lemma lower_name_utf8 n : valid_directive_name n = true -> is_utf8 (to_ascii_lowercase n) = true.
Proof.
  intros [_ Hn]%valid_name. apply ascii_is_utf8. rewrite is_ascii_lower. apply forallb_true. eapply Forall_impl; [exact Hn|].
  intros b Hb. by apply name_char_ok in Hb as (_ & ? & _).
Qed.

Lemma parse_tokens_keep ds seen unknown tokens : parse_tokens ds seen unknown tokens = keep ds seen unknown (omap read_token tokens).
Proof.
  revert ds seen unknown. induction tokens as [|t tokens IH]; intros ds seen unknown; [done|]. cbn [parse_tokens omap list_omap]. unfold read_token at 1.
  destruct (bool_decide (trim_ws t = []) || negb (is_ascii (trim_ws t))); [by apply IH|].
  destruct (Url.break_at is_ascii_ws (trim_ws t)) as [n rest]. destruct (valid_directive_name n) eqn:Hn; [|by apply IH].
  cbn [negb keep name]. destruct (bool_decide (to_ascii_lowercase n ∈ seen)); [by apply IH|]. rewrite (lower_name_utf8 n Hn). cbn [negb].
  destruct (negb _ && _); by apply IH.
Qed.

(** ** Well-formed directives and policies *)
Definition token_byte (b : byte) : Prop := is_ascii_byte b = true /\ is_ascii_ws b = false /\ b <> SEMICOLON.
Definition token_ok (v : list byte) : Prop := v <> [] /\ Forall token_byte v.
Definition directive_ok (d : Directive) : Prop :=
  name d <> [] /\ Forall (fun b => name_char b = true /\ in_range 65 90 b = false) (name d) /\ Forall token_ok (values d).

Definition is_unknown (d : Directive) : bool := negb (bool_decide (name d ∈ KNOWN_DIRECTIVES)).
Definition unknowns (l : list Directive) : Z := len (List.filter is_unknown l).

Definition directives_ok (l : list Directive) : Prop :=
  Forall directive_ok l /\ NoDup (map name l) /\ unknowns l <= MAX_UNKNOWN_DIRECTIVES.

Lemma unknowns_app l k : unknowns (l ++ k) = unknowns l + unknowns k.
Proof. unfold unknowns. by rewrite List.filter_app, len_app. Qed.
Lemma unknowns_cons d l : unknowns (d :: l) = (if is_unknown d then 1 else 0) + unknowns l.
Proof. unfold unknowns. cbn [List.filter]. destruct (is_unknown d); [by rewrite len_cons|done]. Qed.
Lemma unknowns_nonneg l : 0 <= unknowns l.
Proof. apply len_nonneg. Qed.

(** ** The loop *)
Lemma keep_ok ds seen l : Forall directive_ok l -> (forall n, n ∈ seen <-> n ∈ map name ds) -> directives_ok ds ->
  directives_ok (keep ds seen (unknowns ds) l).
Proof.
  revert ds seen. induction l as [|d l IH]; intros ds seen Hl Hseen Hds; [done|]. apply Forall_cons in Hl as [Hd Hl]. cbn [keep].
  case_bool_decide as Hin; [by apply IH|]. fold (is_unknown d).
  destruct (is_unknown d && (MAX_UNKNOWN_DIRECTIVES <=? unknowns ds)) eqn:E; [by apply IH|].
  assert ((if bool_decide (name d ∈ KNOWN_DIRECTIVES) then unknowns ds else unknowns ds + 1) = unknowns (ds ++ [d])) as ->.
  { rewrite unknowns_app, unknowns_cons. unfold is_unknown. destruct (bool_decide _); cbn [negb]; change (unknowns []) with 0; lia. }
  destruct Hds as (H1 & H2 & H3). rewrite Hseen in Hin. apply IH; [done| |].
  - intros n. rewrite elem_of_cons, map_app, elem_of_app, Hseen. cbn [map]. rewrite list_elem_of_singleton. tauto.
  - split_and!; [by apply Forall_app; split; [|constructor]| |].
    + rewrite map_app. apply NoDup_app. split_and!; [done| |apply NoDup_singleton]. intros n Hn ->%list_elem_of_singleton. done.
    + rewrite unknowns_app, unknowns_cons. change (unknowns []) with 0. apply andb_false_iff in E as [->|E%Z.leb_gt]; [lia|]. destruct (is_unknown d); lia.
Qed.

(** Nothing is left out of a list that is within the limits. *)
Lemma keep_all ds seen l : (forall n, n ∈ seen <-> n ∈ map name ds) -> NoDup (map name (ds ++ l)) -> unknowns (ds ++ l) <= MAX_UNKNOWN_DIRECTIVES ->
  keep ds seen (unknowns ds) l = ds ++ l.
Proof.
  revert ds seen. induction l as [|d l IH]; intros ds seen Hseen Hn Hu; [by rewrite app_nil_r|]. cbn [keep].
  rewrite bool_decide_eq_false_2.
  2: { rewrite Hseen. rewrite map_app in Hn. apply NoDup_app in Hn as (_ & Hn & _). intros Hin. apply (Hn _ Hin). by left. }
  fold (is_unknown d). rewrite unknowns_app, unknowns_cons in Hu. pose proof (unknowns_nonneg l).
  assert (is_unknown d && (MAX_UNKNOWN_DIRECTIVES <=? unknowns ds) = false) as ->.
  { destruct (is_unknown d); [|done]. cbn [andb]. apply Z.leb_gt. lia. }
  assert ((if bool_decide (name d ∈ KNOWN_DIRECTIVES) then unknowns ds else unknowns ds + 1) = unknowns (ds ++ [d])) as ->.
  { rewrite unknowns_app, unknowns_cons. unfold is_unknown. destruct (bool_decide _); cbn [negb]; change (unknowns []) with 0; lia. }
  replace (ds ++ d :: l) with ((ds ++ [d]) ++ l) in * by by rewrite <- app_assoc. apply IH; [|done|].
  - intros n. rewrite elem_of_cons, map_app, elem_of_app, Hseen. cbn [map]. rewrite list_elem_of_singleton. tauto.
  - rewrite !unknowns_app, unknowns_cons. change (unknowns []) with 0. lia.
Qed.

(** The first directive of a name the crate knows is kept, and found. *)
Definition named (n : list byte) (d : Directive) : bool := bool_decide (name d = n).

Lemma keep_find n ds seen unknown l : n ∈ KNOWN_DIRECTIVES -> (forall m, m ∈ seen <-> m ∈ map name ds) ->
  List.find (named n) (keep ds seen unknown l) = match List.find (named n) ds with Some d => Some d | None => List.find (named n) l end.
Proof.
  intros Hk. revert ds seen unknown. induction l as [|d l IH]; intros ds seen unknown Hseen; cbn [keep List.find]; [by destruct (List.find _ ds)|].
  assert (forall m, m ∈ name d :: seen <-> m ∈ map name (ds ++ [d])) as Hseen'.
  { intros m. rewrite elem_of_cons, map_app, elem_of_app, Hseen. cbn [map]. rewrite list_elem_of_singleton. tauto. }
  assert (named n d = true -> name d = n) as Hname by (by unfold named; intros ?%bool_decide_eq_true).
  case_bool_decide as Hin.
  - rewrite IH by done. destruct (List.find (named n) ds) eqn:Ef; [done|]. destruct (named n d) eqn:En; [|done].
    apply Hseen in Hin. rewrite Hname in Hin by done. apply list_elem_of_In, in_map_iff in Hin as (d' & E & Hd').
    pose proof (List.find_none _ _ Ef d' Hd') as Hf. unfold named in Hf. by rewrite bool_decide_eq_true_2 in Hf.
  - destruct (negb (bool_decide (name d ∈ KNOWN_DIRECTIVES)) && _) eqn:E.
    + rewrite IH by done. destruct (List.find (named n) ds); [done|]. destruct (named n d) eqn:En; [|done].
      rewrite Hname, bool_decide_eq_true_2 in E by done. done.
    + rewrite IH by done. assert (forall l k, List.find (named n) (l ++ k) = match List.find (named n) l with Some x => Some x | None => List.find (named n) k end) as Happ.
      { clear. intros l k. induction l as [|x l IH]; [done|]. cbn [List.find app]. by destruct (named n x). }
      rewrite Happ. cbn [List.find]. destruct (List.find (named n) ds); [done|]. by destruct (named n d).
Qed.

(** ** Reading a token *)
Lemma trim_ws_parts t : exists k1 k2, t = k1 ++ trim_ws t ++ k2.
Proof.
  unfold trim_ws. destruct (drop_while_suffix is_ascii_ws t) as (k & Ek & _). set (u := Url.drop_while is_ascii_ws t) in *.
  destruct (drop_while_suffix is_ascii_ws (reverse u)) as (k2 & Eu & _). exists k, (reverse k2).
  rewrite Ek at 1. f_equal. rewrite <- (reverse_involutive u) at 1. rewrite Eu at 1. by rewrite reverse_app.
Qed.

Lemma trim_ws_id l : match head l with Some b => is_ascii_ws b = false | None => True end ->
  match last l with Some b => is_ascii_ws b = false | None => True end -> trim_ws l = l.
Proof.
  intros Hh Hl. unfold trim_ws. rewrite (drop_while_id _ l) by (destruct l; done). rewrite drop_while_id; [apply reverse_involutive|].
  rewrite <- (reverse_involutive l), last_reverse in Hl. destruct (reverse l); done.
Qed.

Lemma trim_ws_space l : trim_ws (x20 :: l) = trim_ws l.
Proof. done. Qed.

Section bytes.
Context (P : byte -> Prop).

Lemma trim_ws_Forall t : Forall P t -> Forall P (trim_ws t).
Proof. intros H. destruct (trim_ws_parts t) as (k1 & k2 & E). rewrite E in H. apply Forall_app in H as [_ H]. by apply Forall_app in H as [? _]. Qed.

Lemma split_by_Forall f l : Forall P l -> Forall (Forall (fun b => P b /\ f b = false)) (split_by f l).
Proof.
  induction 1 as [|b l Hb Hl IH]; cbn [split_by]; [by repeat constructor|]. destruct (f b) eqn:E; [by constructor|].
  destruct (split_by f l) as [|p ps]; [by repeat constructor|]. apply Forall_cons in IH as [Hp Hps]. by repeat constructor.
Qed.

Lemma read_token_bytes t d : (forall b, P b -> P (ascii_lower_byte b)) -> Forall P t -> read_token t = Some d ->
  Forall P (name d) /\ Forall (Forall P) (values d).
Proof.
  intros Hlow Ht%trim_ws_Forall. unfold read_token. destruct (_ || _); [done|]. destruct (Url.break_at _ _) as [n r] eqn:E.
  apply break_at_spec in E as (E & _). rewrite E in Ht. apply Forall_app in Ht as [Hn Hr]. destruct (valid_directive_name n); [|done]. intros [= <-].
  cbn [name values]. split; [unfold to_ascii_lowercase; apply Forall_map; eapply Forall_impl; [exact Hn|exact Hlow]|].
  unfold value_tokens. apply Forall_forall. intros v Hv. apply list_elem_of_In, filter_In in Hv as [[Hv _]%filter_In _]. apply list_elem_of_In in Hv.
  eapply Forall_impl; [exact (proj1 (Forall_forall _ _) (split_by_Forall is_ascii_ws r Hr) v Hv)|]. by intros b [? _].
Qed.
End bytes.

Lemma lower_not c b : in_range 65 90 c = false -> in_range 97 122 c = false -> b <> c -> ascii_lower_byte b <> c.
Proof. intros H1 H2 Hb E. subst c. destruct b; try (by vm_compute in H1); try (by vm_compute in H2); by apply Hb. Qed.

Lemma read_token_ok t d : (SEMICOLON ∉ t) -> read_token t = Some d -> directive_ok d.
Proof.
  intros Hs Hr. destruct (read_token_bytes (fun b => b <> SEMICOLON) t d) as [_ Hv]; [by intros b; apply lower_not| |done|].
  { apply Forall_forall. congruence. }
  unfold read_token in Hr. destruct (bool_decide _ || _) eqn:E; [done|]. apply orb_false_iff in E as [_ Ha%negb_false_iff].
  destruct (Url.break_at _ _) as [n r] eqn:Eb. apply break_at_spec in Eb as (Eb & _). destruct (valid_directive_name n) eqn:En; [|done].
  injection Hr as <-. apply valid_name in En as [Hne Hn]. split_and!; cbn [name values] in *.
  - by destruct n.
  - unfold to_ascii_lowercase. apply Forall_map. eapply Forall_impl; [exact Hn|]. intros b Hb. apply name_char_ok in Hb. tauto.
  - apply Forall_forall. intros v Hin. rewrite Forall_forall in Hv. specialize (Hv v Hin). unfold value_tokens in Hin.
    apply list_elem_of_In, filter_In in Hin as [[Hin Hne']%filter_In _]. apply negb_true_iff, bool_decide_eq_false in Hne'. split; [done|].
    apply list_elem_of_In in Hin. rewrite Eb in Ha. unfold is_ascii in Ha. rewrite forallb_app in Ha. apply andb_true_iff in Ha as [_ Ha%forallb_true].
    pose proof (proj1 (Forall_forall _ _) (split_by_Forall _ is_ascii_ws r Ha) v Hin) as Hf. rewrite Forall_forall in Hf, Hv |- *.
    intros b Hb. destruct (Hf b Hb). split_and!; [done|done|by apply Hv].
Qed.

(** ** Writing a directive *)
Lemma split_by_app f p c l : Forall (fun b => f b = false) p -> f c = true -> split_by f (p ++ c :: l) = p :: split_by f l.
Proof. intros Hp Hc. induction Hp as [|b p Hb Hp IH]; cbn [app split_by]; [by rewrite Hc|]. by rewrite Hb, IH. Qed.
Lemma split_by_single f p : Forall (fun b => f b = false) p -> split_by f p = [p].
Proof. induction 1 as [|b p Hb Hp IH]; [done|]. cbn [split_by]. by rewrite Hb, IH. Qed.

Lemma split_values vs : Forall token_ok vs -> split_by is_ascii_ws (concat (map (cons x20) vs)) = [] :: vs.
Proof.
  assert (forall v, token_ok v -> Forall (fun b => is_ascii_ws b = false) v) as Hv.
  { intros v [_ Hv]. eapply Forall_impl; [exact Hv|]. by intros b (_ & ? & _). }
  assert (forall v vs, token_ok v -> Forall token_ok vs -> split_by is_ascii_ws (v ++ concat (map (cons x20) vs)) = v :: vs) as Hgo.
  { intros v ws. revert v. induction ws as [|w ws IH]; intros v Hok Hws; cbn [map concat]; [rewrite app_nil_r; by apply split_by_single, Hv|].
    apply Forall_cons in Hws as [Hw Hws]. cbn [app]. rewrite split_by_app; [by rewrite IH|by apply Hv|done]. }
  intros Hvs. destruct vs as [|v vs]; [done|]. apply Forall_cons in Hvs as [H1 H2]. cbn [map concat app split_by]. by rewrite (Hgo v vs H1 H2).
Qed.

Lemma token_ok_ascii v : token_ok v -> is_ascii v = true.
Proof. intros [_ Hv]. apply forallb_true. eapply Forall_impl; [exact Hv|]. by intros b (? & _). Qed.

Lemma value_tokens_written vs : Forall token_ok vs -> value_tokens (concat (map (cons x20) vs)) = vs.
Proof.
  intros Hvs. unfold value_tokens. rewrite split_values by done. cbn [List.filter]. rewrite bool_decide_eq_true_2 by done. cbn [negb].
  rewrite (filter_id _ vs); [apply filter_id|]; (eapply Forall_impl; [exact Hvs|]); intros v Hv.
  - by apply ascii_is_utf8, token_ok_ascii.
  - apply negb_true_iff, bool_decide_eq_false. apply Hv.
Qed.

Lemma written_ends d : directive_ok d -> (exists b r, write_directive d = b :: r /\ is_ascii_ws b = false) /\
  exists k b, write_directive d = k ++ [b] /\ is_ascii_ws b = false.
Proof.
  intros (Hne & Hn & Hv). unfold write_directive. assert (Forall (fun b => is_ascii_ws b = false) (name d)) as Hw.
  { eapply Forall_impl; [exact Hn|]. intros b [Hb _]. apply name_char_ok in Hb. tauto. }
  split.
  - destruct (name d) as [|b n]; [done|]. exists b, (n ++ concat (map (cons x20) (values d))). split; [done|]. by apply Forall_cons in Hw as [? _].
  - destruct (values d) as [|v vs _] using rev_ind.
    + destruct (name d) as [|b n _] using rev_ind; [done|]. exists n, b. rewrite app_nil_r. split; [done|]. apply Forall_app in Hw as [_ Hw]. by apply Forall_cons in Hw as [? _].
    + apply Forall_app in Hv as [_ [[Hne' Hb] _]%Forall_cons]. destruct v as [|b v _] using rev_ind; [done|].
      exists (name d ++ concat (map (cons x20) vs) ++ x20 :: v), b. rewrite map_app, concat_app. cbn [map concat]. rewrite app_nil_r, <- !app_assoc. split; [done|].
      apply Forall_app in Hb as [_ Hb]. by apply Forall_cons in Hb as [(_ & ? & _) _].
Qed.

Lemma written_ascii d : directive_ok d -> is_ascii (write_directive d) = true /\ (SEMICOLON ∉ write_directive d).
Proof.
  intros (_ & Hn & Hv). assert (Forall (fun b => is_ascii_byte b = true /\ b <> SEMICOLON) (write_directive d)) as H.
  { unfold write_directive. apply Forall_app. split.
    - eapply Forall_impl; [exact Hn|]. intros b [Hb _]. apply name_char_ok in Hb. tauto.
    - apply Forall_concat, Forall_map. eapply Forall_impl; [exact Hv|]. intros v [_ Hv']. constructor; [by split|].
      eapply Forall_impl; [exact Hv'|]. by intros b (? & _ & ?). }
  split; [apply forallb_true; eapply Forall_impl; [exact H|]; by intros b [? _]|]. intros Hin. apply (proj1 (Forall_forall _ _) H) in Hin. tauto.
Qed.

Lemma read_written d : directive_ok d -> read_token (write_directive d) = Some d.
Proof.
  intros Hd. pose proof Hd as (Hne & Hn & Hv). destruct (written_ends d Hd) as [(b & r & E1 & Hb) (k & b2 & E2 & Hb2)].
  destruct (written_ascii d Hd) as [Ha _]. unfold read_token. rewrite trim_ws_id.
  - rewrite (bool_decide_eq_false_2 _) by (by rewrite E1). rewrite Ha. cbn [negb orb]. unfold write_directive. rewrite break_at_app.
    + assert (valid_directive_name (name d) = true) as ->.
      { apply valid_name. split; [done|]. eapply Forall_impl; [exact Hn|]. cbv beta; tauto. }
      rewrite value_tokens_written by done. rewrite lower_id; [by destruct d|]. eapply Forall_impl; [exact Hn|]. cbv beta; tauto.
    + eapply Forall_impl; [exact Hn|]. intros c [Hc _]. apply name_char_ok in Hc. tauto.
    + destruct (values d); [done|]. by vm_compute.
  - by rewrite E1.
  - by rewrite E2, last_snoc.
Qed.
Lemma read_written_space d : directive_ok d -> read_token (x20 :: write_directive d) = Some d.
Proof. intros Hd. transitivity (read_token (write_directive d)); [done|by apply read_written]. Qed.

(** ** Policies *)
Definition policy_ok (p : Policy) : Prop := directives_ok (directives p).

Lemma omap_Forall {A B} (f : A -> option B) (P : B -> Prop) l : (forall a b, a ∈ l -> f a = Some b -> P b) -> Forall P (omap f l).
Proof. intros H. apply Forall_forall. intros b (a & Ha & Hb)%list_elem_of_omap. by eapply H. Qed.

Lemma omap_read_ok input : Forall directive_ok (omap read_token (split_on SEMICOLON input)).
Proof. apply omap_Forall. intros t d Ht%split_on_nosep. by apply read_token_ok. Qed.

Lemma parse_policy_Ok input d s p : parse_policy input d s = Ok p <->
  len input <= MAX_POLICY_BYTES /\ p = mkPolicy (keep [] [] 0 (omap read_token (split_on SEMICOLON input))) d s.
Proof.
  unfold parse_policy. rewrite parse_tokens_keep. destruct (_ <? _) eqn:E; [apply Z.ltb_lt in E|apply Z.ltb_ge in E].
  - split; [done|]. intros [? _]. lia.
  - split; [by intros [= <-]|by intros [_ ->]].
Qed.

Lemma directives_nil_ok : directives_ok [].
Proof. split_and!; [constructor|constructor|done]. Qed.

Lemma parse_policy_ok input d s p : parse_policy input d s = Ok p -> policy_ok p.
Proof.
  intros [_ ->]%parse_policy_Ok. unfold policy_ok. cbn [directives]. apply (keep_ok [] []); [apply omap_read_ok|done|apply directives_nil_ok].
Qed.

(** The tokens of a written policy, which may have a space in front. *)
Lemma split_join_str c ps q : (c ∉ q) -> Forall (fun p => c ∉ p) ps -> c <> x20 ->
  split_on c (q ++ concat (map (fun p => [c; x20] ++ p) ps)) = q :: map (cons x20) ps.
Proof.
  intros Hq Hps Hc. revert q Hq. induction Hps as [|p ps Hp Hps IH]; intros q Hq; cbn [map concat]; [rewrite app_nil_r; by apply split_on_single|].
  change (([c; x20] ++ p) ++ ?k) with (c :: (x20 :: p) ++ k). rewrite split_on_app by done. rewrite IH; [done|]. by apply not_elem_of_cons.
Qed.

Lemma join_str_cons sep p ps : join_str sep (p :: ps) = p ++ concat (map (fun q => sep ++ q) ps).
Proof. revert p. induction ps as [|q ps IH]; intros p; [simpl; by rewrite app_nil_r|]. cbn [join_str map concat]. cbn [join_str] in IH. by rewrite IH, <- app_assoc. Qed.

Lemma read_serialized sp ds : sp = [] \/ sp = [x20] -> Forall directive_ok ds ->
  omap read_token (split_on SEMICOLON (sp ++ join_str (lit "; ") (map write_directive ds))) = ds.
Proof.
  intros Hsp Hds. destruct ds as [|d ds]; [by destruct Hsp as [->| ->]|]. apply Forall_cons in Hds as [Hd Hds]. cbn [map]. rewrite join_str_cons, app_assoc.
  assert (SEMICOLON ∉ sp ++ write_directive d) as Hw.
  { rewrite not_elem_of_app. split; [|by apply written_ascii]. destruct Hsp as [->| ->]; [apply not_elem_of_nil|by apply not_elem_of_cons; split; [|apply not_elem_of_nil]]. }
  change (lit "; ") with [SEMICOLON; x20]. rewrite split_join_str; [|done| |done].
  2: { apply Forall_map. eapply Forall_impl; [exact Hds|]. intros q Hq. by apply written_ascii. }
  cbn [omap list_omap]. assert (read_token (sp ++ write_directive d) = Some d) as -> by (destruct Hsp as [->| ->]; [by apply read_written|by apply read_written_space]).
  f_equal. clear Hw Hd. induction Hds as [|q ds Hq Hds IH]; [done|]. cbn [map omap list_omap]. rewrite read_written_space by done. by rewrite IH.
Qed.

Lemma parse_serialized sp p : sp = [] \/ sp = [x20] -> policy_ok p -> len (sp ++ serialize p) <= MAX_POLICY_BYTES ->
  parse_policy (sp ++ serialize p) (disposition p) (source p) = Ok p.
Proof.
  intros Hsp (H1 & H2 & H3) Hl. apply parse_policy_Ok. split; [done|]. unfold serialize. rewrite read_serialized by done.
  pose proof (keep_all [] [] (directives p)) as Hk. rewrite app_nil_l in Hk. change (unknowns []) with 0 in Hk. rewrite Hk by done. by destruct p.
Qed.

(** ** Lists of policies *)
Definition piece_policy (d : Disposition) (piece : list byte) : Policy :=
  mkPolicy (keep [] [] 0 (omap read_token (split_on SEMICOLON piece))) d Header.
(** Every policy of a header, the empty ones left out. *)
Definition policies_of (d : Disposition) (v : list byte) : list Policy := List.filter (fun p => negb (is_empty p)) (map (piece_policy d) (split_on COMMA v)).

Lemma join_with_cons c p q ps : join_with c (p :: q :: ps) = p ++ c :: join_with c (q :: ps).
Proof. done. Qed.

Lemma split_on_len c l p : p ∈ split_on c l -> len p <= len l.
Proof.
  intros Hp. rewrite <- (join_split c l). induction (split_on c l) as [|q ps IH]; [by apply elem_of_nil in Hp|].
  destruct ps as [|r ps]; [apply list_elem_of_singleton in Hp as ->; simpl; lia|]. rewrite join_with_cons, len_app, len_cons.
  apply elem_of_cons in Hp as [->|Hp]; [pose proof (len_nonneg (join_with c (r :: ps))); lia|]. specialize (IH Hp). pose proof (len_nonneg q). lia.
Qed.

Lemma parse_pieces_Ok out d pieces ps : len out <= MAX_POLICIES -> Forall (fun p => len p <= MAX_POLICY_BYTES) pieces ->
  (parse_pieces out d pieces = Ok ps <->
   ps = out ++ List.filter (fun p => negb (is_empty p)) (map (piece_policy d) pieces) /\ len ps <= MAX_POLICIES).
Proof.
  intros Ho Hp. revert out Ho. induction Hp as [|p pieces Hp Hps IH]; intros out Ho; cbn [parse_pieces map List.filter].
  { rewrite app_nil_r. split; [by intros [= <-]|by intros [-> _]]. }
  assert (parse_policy p d Header = Ok (piece_policy d p)) as -> by by apply parse_policy_Ok. cbn [mbind result_bind].
  destruct (is_empty (piece_policy d p)); cbn [negb]; [by apply IH|]. destruct (MAX_POLICIES <=? len out) eqn:E.
  - apply Z.leb_le in E. split; [done|]. intros [-> Hl]. rewrite len_app, len_cons in Hl.
    pose proof (len_nonneg (List.filter (fun p => negb (is_empty p)) (map (piece_policy d) pieces))). lia.
  - apply Z.leb_gt in E. rewrite IH by (rewrite len_app, len_cons, len_nil; lia). by rewrite <- app_assoc.
Qed.

Lemma parse_policy_list_Ok v d ps : parse_policy_list v d = Ok ps <->
  len v <= MAX_POLICY_BYTES /\ ps = policies_of d v /\ len ps <= MAX_POLICIES.
Proof.
  unfold parse_policy_list. destruct (_ <? _) eqn:E; [apply Z.ltb_lt in E|apply Z.ltb_ge in E].
  - split; [done|]. intros [? _]. lia.
  - rewrite (parse_pieces_Ok [] d); [|done|]; [by split; [intros [??]|intros (_ & ? & ?)]|].
    apply Forall_forall. intros p Hp%split_on_len. lia.
Qed.

Lemma piece_policy_ok d piece : policy_ok (piece_policy d piece).
Proof. unfold policy_ok, piece_policy. cbn [directives]. apply (keep_ok [] []); [apply omap_read_ok|done|apply directives_nil_ok]. Qed.

Lemma keep_sub ds seen u l d : d ∈ keep ds seen u l -> d ∈ ds \/ d ∈ l.
Proof.
  revert ds seen u. induction l as [|x l IH]; intros ds seen u; cbn [keep]; [by left|]. rewrite elem_of_cons. case_bool_decide; [intros [?|?]%IH; tauto|].
  destruct (_ && _); [intros [?|?]%IH; tauto|]. intros [[?| ->%list_elem_of_singleton]%elem_of_app|?]%IH; tauto.
Qed.

Lemma join_str_Forall (P : byte -> Prop) sep ps : Forall P sep -> Forall (Forall P) ps -> Forall P (join_str sep ps).
Proof.
  intros Hs. destruct 1 as [|p ps Hp Hps]; [constructor|]. rewrite join_str_cons. apply Forall_app. split; [done|]. apply Forall_concat, Forall_map.
  eapply Forall_impl; [exact Hps|]. intros q Hq. by apply Forall_app.
Qed.

Lemma piece_no_comma d piece : (COMMA ∉ piece) -> COMMA ∉ serialize (piece_policy d piece).
Proof.
  intros Hp. assert (Forall (fun b => b <> COMMA) (serialize (piece_policy d piece))) as H.
  { apply join_str_Forall; [by repeat constructor|]. apply Forall_map, Forall_forall. intros q Hq. unfold piece_policy in Hq. cbn [directives] in Hq.
    apply keep_sub in Hq as [Hq|(t & Ht & Hq)%list_elem_of_omap]; [by apply elem_of_nil in Hq|].
    assert (Forall (fun b => b <> COMMA) t) as Htc.
    { apply Forall_forall. intros b Hb ->. apply Hp. rewrite <- (join_split SEMICOLON piece). clear -Ht Hb. induction (split_on SEMICOLON piece) as [|x l IH]; [by apply elem_of_nil in Ht|].
      apply elem_of_cons in Ht as [->|Ht]; destruct l as [|y l]; cbn [join_with]; rewrite ?elem_of_app; try tauto; [by apply elem_of_nil in Ht|].
      right. right. by apply IH. }
    destruct (read_token_bytes (fun b => b <> COMMA) t q) as [Hn Hv]; [by intros b; apply lower_not|done|done|].
    unfold write_directive. apply Forall_app. split; [done|]. apply Forall_concat, Forall_map. eapply Forall_impl; [exact Hv|]. intros v Hv'. by constructor. }
  intros Hin. by apply (proj1 (Forall_forall _ _) H) in Hin.
Qed.

Lemma policies_of_ok d v : Forall (fun p => policy_ok p /\ is_empty p = false /\ disposition p = d /\ source p = Header /\ (COMMA ∉ serialize p)) (policies_of d v).
Proof.
  apply Forall_forall. intros p [Hin He%negb_true_iff]%list_elem_of_In%filter_In. apply in_map_iff in Hin as (piece & <- & Hin). apply list_elem_of_In, split_on_nosep in Hin.
  split_and!; [apply piece_policy_ok|done|done|done|by apply piece_no_comma].
Qed.

Lemma serialize_list_Some ps : Forall (fun p => COMMA ∉ serialize p) ps -> serialize_policy_list ps = Some (join_str (lit ", ") (map serialize ps)).
Proof.
  intros H. unfold serialize_policy_list. enough (serialize_parts ps = Some (map serialize ps)) as -> by done.
  induction H as [|p ps Hp Hps IH]; [done|]. cbn [serialize_parts map]. rewrite bool_decide_eq_false_2 by done. by rewrite IH.
Qed.

Lemma parse_serialized_list d ps : len ps <= MAX_POLICIES ->
  Forall (fun p => policy_ok p /\ is_empty p = false /\ disposition p = d /\ source p = Header /\ (COMMA ∉ serialize p)) ps ->
  len (join_str (lit ", ") (map serialize ps)) <= MAX_POLICY_BYTES -> parse_policy_list (join_str (lit ", ") (map serialize ps)) d = Ok ps.
Proof.
  intros Hl Hps Hlen. apply parse_policy_list_Ok. split; [done|]. split; [|done]. unfold policies_of.
  destruct ps as [|p ps]; [by vm_compute|]. apply Forall_cons in Hps as [Hp Hps]. cbn [map]. rewrite join_str_cons. change (lit ", ") with [COMMA; x20]. rewrite split_join_str; [| |by apply Forall_map; eapply Forall_impl; [exact Hps|]; intros q Hq; apply Hq|done]; [|by apply Hp].
  assert (forall sp q, sp = [] \/ sp = [x20] -> policy_ok q -> disposition q = d -> source q = Header -> piece_policy d (sp ++ serialize q) = q) as Hpiece.
  { intros sp q Hsp (H1 & H2 & H3) Hd Hs. unfold piece_policy, serialize. rewrite read_serialized by done.
    pose proof (keep_all [] [] (directives q)) as Hk. rewrite app_nil_l in Hk. change (unknowns []) with 0 in Hk. rewrite Hk by done. destruct q. cbn in Hd, Hs. by subst. }
  destruct Hp as (H1 & H2 & H3 & H4 & _). cbn [map]. rewrite <- (app_nil_l (serialize p)), (Hpiece [] p) by tauto. cbn [List.filter]. rewrite H2. cbn [negb]. f_equal. clear -Hps Hpiece.
  induction Hps as [|q ps (H1 & H2 & H3 & H4 & _) Hps IH]; [done|]. cbn [map]. change (x20 :: serialize q) with ([x20] ++ serialize q). rewrite Hpiece by tauto. cbn [List.filter]. rewrite H2. cbn [negb]. by rewrite <- IH.
Qed.

(** ** Parsing what was written *)
Lemma meta_kept content p : parse_meta content = Ok p <->
  exists q, parse_policy content Enforce Meta = Ok q /\ p = mkPolicy (List.filter meta_keeps (directives q)) Enforce Meta.
Proof.
  unfold parse_meta. destruct (parse_policy content Enforce Meta) as [q|e] eqn:E; cbn [mbind result_bind].
  - apply parse_policy_Ok in E as [_ E]. split.
    + intros [= <-]. exists q. split; [done|]. by rewrite E.
    + intros (q' & [= <-] & ->). by rewrite E.
  - split; [done|]. by intros (q & ? & _).
Qed.

Lemma filter_directives_ok f l : directives_ok l -> directives_ok (List.filter f l).
Proof.
  intros (H1 & H2 & H3). split_and!.
  - apply Forall_forall. intros d [Hd _]%list_elem_of_In%filter_In. apply list_elem_of_In in Hd. by apply (proj1 (Forall_forall _ _) H1).
  - clear -H2. induction l as [|d l IH]; [done|]. cbn [map] in H2. apply NoDup_cons in H2 as [Hd Hl]. cbn [List.filter]. destruct (f d); [|by apply IH].
    cbn [map]. apply NoDup_cons. split; [|by apply IH]. intros (d' & E & Hin)%list_elem_of_In%in_map_iff. apply Hd.
    apply list_elem_of_In, in_map_iff. exists d'. split; [done|]. by apply filter_In in Hin as [? _].
  - transitivity (unknowns l); [|done]. clear. induction l as [|d l IH]; [done|]. rewrite unknowns_cons. cbn [List.filter].
    pose proof (unknowns_nonneg l). destruct (f d); [rewrite unknowns_cons; lia|]. destruct (is_unknown d); lia.
Qed.

Lemma policy_written_back input d s p : parse_policy input d s = Ok p -> len (serialize p) <= MAX_POLICY_BYTES -> parse_policy (serialize p) d s = Ok p.
Proof.
  intros Hp Hl. pose proof (parse_policy_ok _ _ _ _ Hp) as Hok. apply parse_policy_Ok in Hp as [_ Hp].
  pose proof (parse_serialized [] p ltac:(by left) Hok Hl) as H. rewrite Hp in H. cbn [disposition source] in H. by rewrite <- Hp in H.
Qed.

Lemma meta_written_back content p : parse_meta content = Ok p -> len (serialize p) <= MAX_POLICY_BYTES -> parse_meta (serialize p) = Ok p.
Proof.
  intros (q & Hq & ->)%meta_kept Hl. apply meta_kept. exists (mkPolicy (List.filter meta_keeps (directives q)) Enforce Meta). split.
  - apply (parse_serialized []); [by left| |done]. apply filter_directives_ok. by eapply parse_policy_ok.
  - cbn [directives]. f_equal. symmetry. apply filter_id, Forall_forall. intros d [_ Hd]%list_elem_of_In%filter_In. done.
Qed.

Lemma list_written_back v d ps : parse_policy_list v d = Ok ps ->
  exists t, serialize_policy_list ps = Some t /\ (len t <= MAX_POLICY_BYTES -> parse_policy_list t d = Ok ps).
Proof.
  intros (_ & -> & Hn)%parse_policy_list_Ok. pose proof (policies_of_ok d v) as Hok. eexists. split.
  - apply serialize_list_Some. eapply Forall_impl; [exact Hok|]. cbv beta; tauto.
  - intros Hl. by apply parse_serialized_list.
Qed.

(** A policy from a header or a [meta] element, and the list of policies of a
    header, are read back unchanged from their written form, as long as that form is
    within the limit for input. *)
Theorem policies_round_trip input d ps p m : parse_policy_list input d = Ok ps -> parse_policy input d Header = Ok p -> parse_meta input = Ok m ->
  (exists t, serialize_policy_list ps = Some t /\ (len t <= MAX_POLICY_BYTES -> parse_policy_list t d = Ok ps)) /\
  (len (serialize p) <= MAX_POLICY_BYTES -> parse_policy (serialize p) d Header = Ok p) /\
  (len (serialize m) <= MAX_POLICY_BYTES -> parse_meta (serialize m) = Ok m).
Proof. intros H1 H2 H3. split_and!; [by eapply list_written_back|by apply (policy_written_back input)|by apply (meta_written_back input)]. Qed.

Definition example_header : list byte := lit " Script-Src 'self'  https: ;; script-src *; report-uri /r;x- , img-src *".
Lemma policies_round_trip_witness : exists ps p m t,
  parse_policy_list example_header Enforce = Ok ps /\ parse_policy example_header Enforce Header = Ok p /\ parse_meta example_header = Ok m /\
  serialize_policy_list ps = Some t /\ t = lit "script-src 'self' https:; report-uri /r; x-, img-src *" /\ parse_policy_list t Enforce = Ok ps.
Proof.
  destruct (parse_policy_list example_header Enforce) as [ps|] eqn:E1; [|by vm_compute in E1].
  destruct (parse_policy example_header Enforce Header) as [p|] eqn:E2; [|by vm_compute in E2].
  destruct (parse_meta example_header) as [m|] eqn:E3; [|by vm_compute in E3].
  destruct (policies_round_trip example_header Enforce ps p m E1 E2 E3) as ((t & Et & Ht) & _).
  assert (t = lit "script-src 'self' https:; report-uri /r; x-, img-src *") as Hv.
  { vm_compute in E1. injection E1 as <-. vm_compute in Et. by injection Et as <-. }
  exists ps, p, m, t. split_and!; try done. apply Ht. by subst t; vm_compute.
Defined.

(** The bound matters: a policy at the limit whose directives are separated by a
    semicolon alone is longer when it is written, and is then refused. *)
Definition long_policy (n : nat) : Policy := mkPolicy [mkDirective (lit "a") [replicate n x78]; mkDirective (lit "b") []] Enforce Header.
Lemma long_policy_ok n : (0 < n)%nat -> policy_ok (long_policy n).
Proof.
  intros Hn. split_and!; cbn [directives long_policy].
  - apply Forall_cons. split; [|apply Forall_singleton; split; [done|]; split; [by repeat constructor|constructor]]. split; [done|]. split; [by repeat constructor|].
    apply Forall_singleton. split; [by destruct n; [lia|]|]. by apply Forall_replicate.
  - by apply (bool_decide_unpack _); vm_compute.
  - by apply Z.leb_le; vm_compute.
Qed.

Lemma written_form_refused : exists input p, parse_policy input Enforce Header = Ok p /\ parse_policy (serialize p) Enforce Header = Err TooLarge.
Proof.
  set (n := Z.to_nat (MAX_POLICY_BYTES - 4)). assert (Z.of_nat n = MAX_POLICY_BYTES - 4) as En by (unfold n; rewrite Z2Nat.id; [done|by vm_compute]).
  assert (0 < n)%nat as Hn by (change MAX_POLICY_BYTES with 1048576 in En; lia). clearbody n.
  pose proof (long_policy_ok n Hn) as (H1 & H2 & H3). exists (write_directive (mkDirective (lit "a") [replicate n x78]) ++ SEMICOLON :: lit "b"), (long_policy n).
  apply Forall_cons in H1 as [Ha Hb]. split.
  - apply parse_policy_Ok. split.
    + unfold write_directive. cbn [name values map concat]. rewrite app_nil_r, !len_app, !len_cons. assert (len (replicate n x78) = MAX_POLICY_BYTES - 4) as -> by (unfold len; by rewrite length_replicate). by apply Z.leb_le; vm_compute.
    + rewrite split_on_app by by apply written_ascii. rewrite split_on_single by by apply (bool_decide_unpack _); vm_compute.
      cbn [omap list_omap]. rewrite read_written by done. change (lit "b") with (write_directive (mkDirective (lit "b") [])). rewrite read_written by by apply Forall_cons in Hb as [? _].
      reflexivity.
  - unfold parse_policy. assert (MAX_POLICY_BYTES <? len (serialize (long_policy n)) = true) as ->; [|done]. apply Z.ltb_lt.
    unfold serialize, long_policy, write_directive. cbn [directives map join_str name values concat]. rewrite !app_nil_r, !len_app, !len_cons. assert (len (replicate n x78) = MAX_POLICY_BYTES - 4) as -> by (unfold len; by rewrite length_replicate). by vm_compute.
Qed.
