(* ===== verification/CspCheck.v ===== *)
(** * The enforcement points (px-websec/src/csp/check.rs)

    Requests, inline code, evaluation, navigation and the directives of a
    document, against one policy and against all policies of a set.  The trace of
    the points that were reached, which the tests read, is left out. *)
From S2P Require Import Prelude Bytes Text Chars WebUrl WebHost WebCanon WebParse CspUrl CspSource CspPolicy.
Local Open Scope Z_scope.

Inductive RequestKind :=
| Fetch | XmlHttpRequest | Beacon | Ping | EventSource | WebSocket | KScript | Xslt | AudioWorklet | PaintWorklet
| Worker | SharedWorker | ServiceWorker | KStyle | Image | Font | Audio | Video | Track | Object | Embed | Frame | Iframe
| KManifest | Prefetch.
#[export] Instance request_kind_eq_dec : EqDecision RequestKind.
Proof. solve_decision. Defined.

Definition effective_directive (k : RequestKind) : list byte :=
  match k with
  | Fetch | XmlHttpRequest | Beacon | Ping | EventSource | WebSocket => lit "connect-src"
  | KScript | Xslt | AudioWorklet | PaintWorklet => lit "script-src-elem"
  | Worker | SharedWorker | ServiceWorker => lit "worker-src"
  | KStyle => lit "style-src-elem"
  | Image => lit "img-src"
  | Font => lit "font-src"
  | Audio | Video | Track => lit "media-src"
  | Object | Embed => lit "object-src"
  | Frame | Iframe => lit "frame-src"
  | KManifest => lit "manifest-src"
  | Prefetch => lit "prefetch-src"
  end.

Definition is_script_like (k : RequestKind) : bool :=
  match k with KScript | Xslt | AudioWorklet | PaintWorklet | Worker | SharedWorker | ServiceWorker => true | _ => false end.

(** The arms of [fallback_chain], in order. *)
Definition FALLBACK : list (list byte * list (list byte)) := [
  (lit "script-src-elem", [lit "script-src-elem"; lit "script-src"; lit "default-src"]);
  (lit "script-src-attr", [lit "script-src-attr"; lit "script-src"; lit "default-src"]);
  (lit "style-src-elem", [lit "style-src-elem"; lit "style-src"; lit "default-src"]);
  (lit "style-src-attr", [lit "style-src-attr"; lit "style-src"; lit "default-src"]);
  (lit "worker-src", [lit "worker-src"; lit "child-src"; lit "script-src"; lit "default-src"]);
  (lit "frame-src", [lit "frame-src"; lit "child-src"; lit "default-src"]);
  (lit "connect-src", [lit "connect-src"; lit "default-src"]);
  (lit "img-src", [lit "img-src"; lit "default-src"]);
  (lit "font-src", [lit "font-src"; lit "default-src"]);
  (lit "media-src", [lit "media-src"; lit "default-src"]);
  (lit "object-src", [lit "object-src"; lit "default-src"]);
  (lit "manifest-src", [lit "manifest-src"; lit "default-src"]);
  (lit "prefetch-src", [lit "prefetch-src"; lit "default-src"]);
  (lit "script-src", [lit "script-src"; lit "default-src"])].
Definition fallback_chain (effective : list byte) : list (list byte) :=
  match List.find (fun e => bool_decide (e.1 = effective)) FALLBACK with Some (_, chain) => chain | None => [] end.

Record Blocked := mkBlocked { b_effective : list byte; b_violated : list byte }.
#[export] Instance blocked_eq_dec : EqDecision Blocked.
Proof. solve_decision. Defined.
Inductive Decision := Allowed | IsBlocked (b : Blocked).
#[export] Instance decision_eq_dec : EqDecision Decision.
Proof. solve_decision. Defined.
Definition is_blocked (d : Decision) : bool := match d with IsBlocked _ => true | Allowed => false end.

Record RequestOptions := mkOptions {
  nonce : option (list byte); integrity : list HashValue; parser_inserted : bool; redirect_count : Z }.
Definition default_options : RequestOptions := mkOptions None [] false 0.

(** The first directive of the chain that the policy has. *)
Fixpoint govern (p : Policy) (chain : list (list byte)) : option (list byte * SourceList) :=
  match chain with
  | [] => None
  | n :: chain => match directive p n with Some d => Some (n, parse_list (values d)) | None => govern p chain end
  end.
Definition governing (p : Policy) (effective : list byte) : option (list byte * SourceList) := govern p (fallback_chain effective).

(** [nonce.is_some_and(|n| list.nonce_matches(n))]. *)
Definition nonce_ok (l : SourceList) (n : option (list byte)) : bool := match n with Some n => nonce_matches l n | None => false end.

(** The hashes of the integrity metadata are all listed. *)
Definition integrity_ok (l : SourceList) (integrity : list HashValue) : bool :=
  has_hash l && negb (bool_decide (length integrity = 0%nat)) && forallb (contains_hash l) integrity.

Definition check_request (p : Policy) (kind : RequestKind) (url : CspUrl) (o : Origin) (opts : RequestOptions) : Decision :=
  let eff := effective_directive kind in
  match governing p eff with
  | None => Allowed
  | Some (name, l) =>
      let blocked := IsBlocked (mkBlocked eff name) in
      let by_url :=
        if bool_decide (kind = KStyle) && bool_decide (name ∈ [lit "style-src"; lit "style-src-elem"]) && nonce_ok l (nonce opts) then Allowed
        else if matches_url l url o (redirect_count opts) then Allowed else blocked in
      if bool_decide (name ∈ [lit "script-src"; lit "script-src-elem"]) && is_script_like kind then
        if nonce_ok l (nonce opts) then Allowed
        else if integrity_ok l (integrity opts) then Allowed
        else if has_keyword l StrictDynamic then if parser_inserted opts then blocked else Allowed
        else by_url
      else by_url
  end.
Definition should_block_request : Policy -> RequestKind -> CspUrl -> Origin -> RequestOptions -> Decision := check_request.

(** The directive an inline check is made under. *)
Definition inline_directive (ty : InlineType) : list byte :=
  match ty with
  | Script => lit "script-src-elem" | ScriptAttribute => lit "script-src-attr" | Style => lit "style-src-elem"
  | StyleAttribute => lit "style-src-attr" | Navigation => lit "script-src-elem"
  end.
Definition is_element (ty : InlineType) : bool := match ty with Script | Style => true | _ => false end.

Definition check_inline (p : Policy) (ty : InlineType) (nonce : option (list byte)) (source : list byte) : Decision :=
  let eff := inline_directive ty in
  match governing p eff with
  | None => Allowed
  | Some (name, l) =>
      if is_element ty && nonce_ok l nonce then Allowed
      else if (is_element ty || has_keyword l UnsafeHashes) && hash_matches_text l source then Allowed
      else if allows_all_inline l ty then Allowed
      else IsBlocked (mkBlocked eff name)
  end.

Inductive EvalKind := Eval | Wasm.
#[export] Instance eval_kind_eq_dec : EqDecision EvalKind.
Proof. solve_decision. Defined.

Definition check_eval (p : Policy) (kind : EvalKind) : Decision :=
  match governing p (lit "script-src") with
  | None => Allowed
  | Some (name, l) =>
      if has_keyword l UnsafeEval || (bool_decide (kind = Wasm) && has_keyword l WasmUnsafeEval) then Allowed
      else IsBlocked (mkBlocked (lit "script-src") name)
  end.

Definition simple_directive_check (p : Policy) (d : list byte) (url : CspUrl) (o : Origin) (redirects : Z) : Decision :=
  match source_list p d with
  | None => Allowed
  | Some l => if matches_url l url o redirects then Allowed else IsBlocked (mkBlocked d d)
  end.
Definition check_form_action (p : Policy) (url : CspUrl) (o : Origin) (redirects : Z) : Decision :=
  simple_directive_check p (lit "form-action") url o redirects.
Definition check_base_uri (p : Policy) (url : CspUrl) (o : Origin) : Decision := simple_directive_check p (lit "base-uri") url o 0.

Definition check_frame_ancestors (p : Policy) (response_url : CspUrl) (ancestors : list CspUrl) : Decision :=
  if bool_decide (source p = Meta) then Allowed
  else
    match source_list p (lit "frame-ancestors") with
    | None => Allowed
    | Some l =>
        if forallb (fun a => matches_url l a (origin response_url) 1) ancestors then Allowed
        else IsBlocked (mkBlocked (lit "frame-ancestors") (lit "frame-ancestors"))
    end.

Inductive UpgradeContext := Subresource | SameOriginNavigation | CrossOriginNavigation.
#[export] Instance upgrade_context_eq_dec : EqDecision UpgradeContext.
Proof. solve_decision. Defined.

Definition secure_scheme (s : list byte) : option (list byte) :=
  if bool_decide (s = lit "http") then Some (lit "https") else if bool_decide (s = lit "ws") then Some (lit "wss") else None.

Definition upgrade_insecure_url (p : Policy) (url : CspUrl) (ctx : UpgradeContext) : option CspUrl :=
  if bool_decide (disposition p = Report) || negb (has p (lit "upgrade-insecure-requests")) || bool_decide (ctx = CrossOriginNavigation) then None
  else
    new_scheme ← secure_scheme (scheme url);
    host ← host url;
    from_parts new_scheme host (port url) (path url).

Definition blocks_mixed_content (p : Policy) (url : CspUrl) (document_is_secure : bool) : Decision :=
  if has p (lit "block-all-mixed-content") && document_is_secure && negb (is_potentially_trustworthy url)
  then IsBlocked (mkBlocked (lit "block-all-mixed-content") (lit "block-all-mixed-content"))
  else Allowed.

(** ** All policies of a set *)
Record Verdict := mkVerdict { v_blocked : option (nat * Blocked); reports : list (nat * Blocked) }.
Definition verdict_is_blocked (v : Verdict) : bool := bool_decide (is_Some (v_blocked v)).

Fixpoint evaluate_loop (f : Policy -> Decision) (v : Verdict) (i : nat) (l : list Policy) : Verdict :=
  match l with
  | [] => v
  | p :: l =>
      let v :=
        match f p with
        | Allowed => v
        | IsBlocked b =>
            match disposition p with
            | Enforce => match v_blocked v with None => mkVerdict (Some (i, b)) (reports v) | Some _ => v end
            | Report => mkVerdict (v_blocked v) (reports v ++ [(i, b)])
            end
        end in
      evaluate_loop f v (S i) l
  end.
Definition evaluate (s : PolicySet) (f : Policy -> Decision) : Verdict := evaluate_loop f (mkVerdict None []) 0 (policies s).

Definition set_check_request (s : PolicySet) (kind : RequestKind) (url : CspUrl) (o : Origin) (opts : RequestOptions) : Verdict :=
  evaluate s (fun p => check_request p kind url o opts).
Definition set_check_inline (s : PolicySet) (ty : InlineType) (nonce : option (list byte)) (source : list byte) : Verdict :=
  evaluate s (fun p => check_inline p ty nonce source).
Definition set_check_eval (s : PolicySet) (kind : EvalKind) : Verdict := evaluate s (fun p => check_eval p kind).
Definition set_check_form_action (s : PolicySet) (url : CspUrl) (o : Origin) (redirects : Z) : Verdict :=
  evaluate s (fun p => check_form_action p url o redirects).
Definition set_check_base_uri (s : PolicySet) (url : CspUrl) (o : Origin) : Verdict := evaluate s (fun p => check_base_uri p url o).
Definition set_check_frame_ancestors (s : PolicySet) (response_url : CspUrl) (ancestors : list CspUrl) : Verdict :=
  evaluate s (fun p => check_frame_ancestors p response_url ancestors).
Definition set_check_mixed_content (s : PolicySet) (url : CspUrl) (document_is_secure : bool) : Verdict :=
  evaluate s (fun p => blocks_mixed_content p url document_is_secure).

Definition sandbox_flags (s : PolicySet) : option SandboxFlags :=
  foldl (fun acc p =>
    match policy_sandbox_flags p with
    | Some f => Some (match acc with Some a => intersect a f | None => f end)
    | None => acc
    end) None (policies s).

Fixpoint find_upgrade (url : CspUrl) (ctx : UpgradeContext) (l : list Policy) : option CspUrl :=
  match l with
  | [] => None
  | p :: l => match upgrade_insecure_url p url ctx with Some u => Some u | None => find_upgrade url ctx l end
  end.
Definition set_upgrade_insecure_url (s : PolicySet) (url : CspUrl) (ctx : UpgradeContext) : option CspUrl := find_upgrade url ctx (policies s).

(** * Policies that act alike

    The checks read a policy through the first directive of the names they know, so
    policies with the same such directives give the same decisions.  The limit on
    unknown directives, the duplicates that are dropped and the written form are
    therefore never seen by a check. *)
(** ** The equivalence *)
Definition agree (p q : Policy) : Prop :=
  disposition p = disposition q /\ source p = source q /\ forall n, n ∈ KNOWN_DIRECTIVES -> directive p n = directive q n.

#[export] Instance agree_equivalence : Equivalence agree.
Proof.
  split.
  - intros p. by split_and!.
  - intros p q (H1 & H2 & H3). split_and!; [done..|]. intros n Hn. by rewrite H3.
  - intros p q r (H1 & H2 & H3) (H4 & H5 & H6). split_and!; [congruence..|]. intros n Hn. by rewrite H3, H6.
Qed.

Ltac known_name := apply (bool_decide_unpack _); vm_compute; done.

Section agree.
Context (p q : Policy) (Hpq : agree p q).

Lemma agree_directive n : n ∈ KNOWN_DIRECTIVES -> directive p n = directive q n.
Proof. apply Hpq. Qed.

Lemma agree_source_list n : n ∈ KNOWN_DIRECTIVES -> source_list p n = source_list q n.
Proof. intros Hn. unfold source_list. by rewrite agree_directive. Qed.

Lemma agree_has n : n ∈ KNOWN_DIRECTIVES -> has p n = has q n.
Proof. intros Hn. unfold has. by rewrite agree_directive. Qed.

Lemma agree_govern chain : Forall (fun n => n ∈ KNOWN_DIRECTIVES) chain -> govern p chain = govern q chain.
Proof. induction 1 as [|n chain Hn Hc IH]; [done|]. cbn [govern]. by rewrite agree_directive, IH. Qed.

Lemma fallback_known eff : Forall (fun n => n ∈ KNOWN_DIRECTIVES) (fallback_chain eff).
Proof.
  unfold fallback_chain. destruct (List.find _ FALLBACK) as [[n chain]|] eqn:E; [|constructor]. apply List.find_some in E as [E _]. apply list_elem_of_In in E.
  assert (Forall (fun e => Forall (fun n => n ∈ KNOWN_DIRECTIVES) e.2) FALLBACK) as H by (apply (bool_decide_unpack _); by vm_compute).
  by apply (proj1 (Forall_forall _ _) H) in E.
Qed.

Lemma agree_governing eff : governing p eff = governing q eff.
Proof. apply agree_govern, fallback_known. Qed.

Lemma agree_simple n url o r : n ∈ KNOWN_DIRECTIVES -> simple_directive_check p n url o r = simple_directive_check q n url o r.
Proof. intros Hn. unfold simple_directive_check. by rewrite agree_source_list. Qed.
End agree.

#[export] Instance check_request_proper : Proper (agree ==> eq ==> eq ==> eq ==> eq ==> eq) check_request.
Proof. intros p q Hpq ? kind -> ? url -> ? o -> ? opts ->. unfold check_request. by rewrite (agree_governing p q Hpq). Qed.
#[export] Instance check_inline_proper : Proper (agree ==> eq ==> eq ==> eq ==> eq) check_inline.
Proof. intros p q Hpq ? ty -> ? n -> ? s ->. unfold check_inline. by rewrite (agree_governing p q Hpq). Qed.
#[export] Instance check_eval_proper : Proper (agree ==> eq ==> eq) check_eval.
Proof. intros p q Hpq ? k ->. unfold check_eval. by rewrite (agree_governing p q Hpq). Qed.
#[export] Instance check_form_action_proper : Proper (agree ==> eq ==> eq ==> eq ==> eq) check_form_action.
Proof. intros p q Hpq ? url -> ? o -> ? r ->. apply (agree_simple p q Hpq). known_name. Qed.
#[export] Instance check_base_uri_proper : Proper (agree ==> eq ==> eq ==> eq) check_base_uri.
Proof. intros p q Hpq ? url -> ? o ->. apply (agree_simple p q Hpq). known_name. Qed.
#[export] Instance check_frame_ancestors_proper : Proper (agree ==> eq ==> eq ==> eq) check_frame_ancestors.
Proof.
  intros p q Hpq ? url -> ? l ->. unfold check_frame_ancestors. rewrite (agree_source_list p q Hpq) by known_name. by destruct Hpq as (_ & -> & _).
Qed.
#[export] Instance upgrade_insecure_url_proper : Proper (agree ==> eq ==> eq ==> eq) upgrade_insecure_url.
Proof.
  intros p q Hpq ? url -> ? ctx ->. unfold upgrade_insecure_url. rewrite (agree_has p q Hpq) by known_name. by destruct Hpq as (-> & _).
Qed.
#[export] Instance blocks_mixed_content_proper : Proper (agree ==> eq ==> eq ==> eq) blocks_mixed_content.
Proof. intros p q Hpq ? url -> ? s ->. unfold blocks_mixed_content. by rewrite (agree_has p q Hpq) by known_name. Qed.
#[export] Instance policy_sandbox_flags_proper : Proper (agree ==> eq) policy_sandbox_flags.
Proof.
  intros p q Hpq. unfold policy_sandbox_flags. rewrite (agree_directive p q Hpq) by known_name. by destruct Hpq as (-> & -> & _).
Qed.
#[export] Instance report_uri_proper : Proper (agree ==> eq) report_uri.
Proof. intros p q Hpq. unfold report_uri. by rewrite (agree_directive p q Hpq) by known_name. Qed.
#[export] Instance report_to_proper : Proper (agree ==> eq) report_to.
Proof. intros p q Hpq. unfold report_to. by rewrite (agree_directive p q Hpq) by known_name. Qed.

(** ** What the limits leave out *)
(** Every directive of a text, in order, repeats and unknown ones with it. *)
Definition as_written (input : list byte) (d : Disposition) (s : PolicySource) : Policy := mkPolicy (omap read_token (split_on SEMICOLON input)) d s.

Lemma parsed_agrees input d s p : parse_policy input d s = Ok p -> agree p (as_written input d s).
Proof.
  intros [_ ->]%parse_policy_Ok. split_and!; [done|done|]. intros n Hn. unfold directive, as_written. cbn [directives].
  fold (named n). by rewrite keep_find.
Qed.

Lemma written_agrees input d s p r : parse_policy input d s = Ok p -> parse_policy (serialize p) d s = Ok r -> agree p r.
Proof. intros Hp Hr. assert (len (serialize p) <= MAX_POLICY_BYTES) as Hl by (by apply parse_policy_Ok in Hr as [? _]). rewrite (policy_written_back input) in Hr by done. by injection Hr as ->. Qed.

Lemma find_kept n f l : (forall d, name d = n -> f d = true) -> List.find (named n) (List.filter f l) = List.find (named n) l.
Proof.
  intros Hf. induction l as [|d l IH]; [done|]. cbn [List.filter List.find]. destruct (named n d) eqn:En.
  - rewrite Hf by by apply bool_decide_eq_true in En. cbn [List.find]. by rewrite En.
  - destruct (f d); [cbn [List.find]; by rewrite En|done].
Qed.

Lemma meta_agrees content m n : parse_meta content = Ok m -> n ∈ KNOWN_DIRECTIVES -> directive m n =
  if bool_decide (n ∈ [lit "report-uri"; lit "frame-ancestors"; lit "sandbox"]) then None else directive (as_written content Enforce Meta) n.
Proof.
  intros (q & Hq & ->)%meta_kept Hn. apply parsed_agrees in Hq as (_ & _ & Hq). rewrite <- (Hq n Hn). unfold directive. cbn [directives]. fold (named n). case_bool_decide as Hin.
  - destruct (List.find _ _) as [d|] eqn:E; [|done]. apply List.find_some in E as [[_ Hd]%filter_In <-%bool_decide_eq_true].
    unfold meta_keeps in Hd. by rewrite bool_decide_eq_true_2 in Hd.
  - apply find_kept. intros d <-. unfold meta_keeps. by rewrite bool_decide_eq_false_2.
Qed.

Lemma decisions_agree p q : agree p q ->
  (forall kind url o opts, check_request p kind url o opts = check_request q kind url o opts) /\
  (forall ty n text, check_inline p ty n text = check_inline q ty n text) /\
  (forall k, check_eval p k = check_eval q k) /\
  (forall url o r, check_form_action p url o r = check_form_action q url o r) /\
  (forall url o, check_base_uri p url o = check_base_uri q url o) /\
  (forall url l, check_frame_ancestors p url l = check_frame_ancestors q url l) /\
  (forall url ctx, upgrade_insecure_url p url ctx = upgrade_insecure_url q url ctx) /\
  (forall url secure, blocks_mixed_content p url secure = blocks_mixed_content q url secure) /\
  policy_sandbox_flags p = policy_sandbox_flags q /\ report_uri p = report_uri q /\ report_to p = report_to q.
Proof. intros H. split_and!; intros; by setoid_rewrite H. Qed.

(** What is left of a text in a [meta] element. *)
Definition as_meta (content : list byte) : Policy := mkPolicy (List.filter meta_keeps (directives (as_written content Enforce Meta))) Enforce Meta.

Lemma meta_agrees_written content m : parse_meta content = Ok m -> agree m (as_meta content).
Proof.
  intros Hm. pose proof (meta_agrees content m) as Hn. split_and!; [by apply meta_kept in Hm as (? & _ & ->)..|]. intros n Hk. rewrite (Hn n Hm Hk).
  unfold directive at 2, as_meta. cbn [directives]. fold (named n). symmetry. case_bool_decide as Hin.
  - destruct (List.find _ _) as [d|] eqn:E; [|done]. apply List.find_some in E as [[_ Hd]%filter_In <-%bool_decide_eq_true].
    unfold meta_keeps in Hd. by rewrite bool_decide_eq_true_2 in Hd.
  - apply find_kept. intros d <-. unfold meta_keeps. by rewrite bool_decide_eq_false_2.
Qed.

Lemma meta_frames_freely content m url l : parse_meta content = Ok m -> check_frame_ancestors m url l = Allowed /\ policy_sandbox_flags m = None /\ report_uri m = [].
Proof.
  intros Hm. pose proof (meta_agrees content m (lit "report-uri") Hm ltac:(known_name)) as Hr. apply meta_kept in Hm as (q & _ & ->).
  split_and!; [done|done|]. unfold report_uri. by rewrite Hr.
Qed.

(** Dropping repeated directives, and unknown ones beyond the limit, changes no
    decision: every check of a parsed policy is the check of all the directives of
    its text in their order.  A [meta] element keeps all but framing, sandboxing and
    reports. *)
Theorem limits_change_no_decision input d s p m : parse_policy input d s = Ok p -> parse_meta input = Ok m ->
  (forall kind url o opts, check_request p kind url o opts = check_request (as_written input d s) kind url o opts) /\
  (forall ty n text, check_inline p ty n text = check_inline (as_written input d s) ty n text) /\
  (forall k, check_eval p k = check_eval (as_written input d s) k) /\
  (forall url o r, check_form_action p url o r = check_form_action (as_written input d s) url o r) /\
  (forall url l, check_frame_ancestors p url l = check_frame_ancestors (as_written input d s) url l) /\
  (forall url ctx, upgrade_insecure_url p url ctx = upgrade_insecure_url (as_written input d s) url ctx) /\
  policy_sandbox_flags p = policy_sandbox_flags (as_written input d s) /\
  (forall kind url o opts, check_request m kind url o opts = check_request (as_written input Enforce Meta) kind url o opts) /\
  (forall url l, check_frame_ancestors m url l = Allowed) /\ policy_sandbox_flags m = None.
Proof.
  intros Hp Hm. pose proof (decisions_agree _ _ (parsed_agrees _ _ _ _ Hp)) as (H1 & H2 & H3 & H4 & _ & H6 & H7 & _ & H9 & _).
  split_and!; [done..| |intros url l; by apply (meta_frames_freely input)|by apply (meta_frames_freely input m (mkCspUrl [] None None []) [])].
  intros kind url o opts. unfold check_request. enough (governing m (effective_directive kind) = governing (as_written input Enforce Meta) (effective_directive kind)) as -> by done.
  unfold governing. assert (Forall (fun n => n ∈ KNOWN_DIRECTIVES /\ (n ∉ [lit "report-uri"; lit "frame-ancestors"; lit "sandbox"])) (fallback_chain (effective_directive kind))) as Hc.
  { destruct kind; apply (bool_decide_unpack _); by vm_compute. }
  induction Hc as [|n chain [Hn Hno] Hc IH]; [done|]. cbn [govern]. rewrite (meta_agrees input m n Hm Hn), bool_decide_eq_false_2 by done. by rewrite IH.
Qed.

Lemma limits_change_no_decision_witness :
  let input := lit "img-src 'none'; IMG-SRC *; x 1; frame-ancestors 'none'" in
  exists p m, parse_policy input Enforce Header = Ok p /\ parse_meta input = Ok m /\ directives p <> directives (as_written input Enforce Header) /\
    (forall kind url o opts, check_request p kind url o opts = check_request (as_written input Enforce Header) kind url o opts).
Proof.
  cbv zeta. destruct (parse_policy (lit "img-src 'none'; IMG-SRC *; x 1; frame-ancestors 'none'") Enforce Header) as [p|] eqn:E1; [|by vm_compute in E1].
  destruct (parse_meta (lit "img-src 'none'; IMG-SRC *; x 1; frame-ancestors 'none'")) as [m|] eqn:E2; [|by vm_compute in E2].
  exists p, m. split_and!; [done|done| |exact (proj1 (limits_change_no_decision _ _ _ p m E1 E2))].
  vm_compute in E1. injection E1 as <-. by vm_compute.
Defined.

(** * Upgrades of insecure URLs *)
(** A policy that asks for upgrades. *)
Definition upgrading (p : Policy) : Prop := disposition p = Enforce /\ has p (lit "upgrade-insecure-requests") = true.
(** The URL over the secure scheme, its default port left out. *)
Definition secured (sc : list byte) (url : CspUrl) : CspUrl := without_default_port (mkCspUrl sc (host url) (port url) (path url)).

Lemma secure_scheme_spec s sc : secure_scheme s = Some sc -> s = lit "http" /\ sc = lit "https" \/ s = lit "ws" /\ sc = lit "wss".
Proof. unfold secure_scheme. case_bool_decide; [intros [= <-]; tauto|]. case_bool_decide; [intros [= <-]; tauto|done]. Qed.

Lemma secured_well_formed url sc : canonical url -> secure_scheme (scheme url) = Some sc ->
  exists h, host url = Some h /\ well_formed (mkCspUrl sc (Some h) (port url) (path url)) /\
    len (serialize_stripped (mkCspUrl sc (Some h) (port url) (path url))) = len (serialize_stripped url) + 1.
Proof.
  intros [Hw _] Hs%secure_scheme_spec. unfold well_formed in Hw. destruct (host url) as [h|] eqn:Eh.
  - exists h. split; [done|]. destruct Hw as (_ & H2 & H3 & H4 & H5). split.
    + unfold well_formed. cbn [scheme host CspUrl.port path]. split_and!; try done. by destruct Hs as [[_ ->]|[_ ->]].
    + unfold serialize_stripped. rewrite Eh. cbn [scheme host CspUrl.port path]. rewrite !len_app.
      assert (len sc = len (scheme url) + 1) as -> by (by destruct Hs as [[-> ->]|[-> ->]]). lia.
  - destruct Hw as (Hn & _). destruct Hs as [[E _]|[E _]]; by rewrite E in Hn.
Qed.

Lemma upgrade_spec p url ctx u : canonical url -> upgrade_insecure_url p url ctx = Some u <->
  upgrading p /\ ctx <> CrossOriginNavigation /\
  exists sc, secure_scheme (scheme url) = Some sc /\ len (serialize_stripped url) < MAX_URL_BYTES /\ u = secured sc url.
Proof.
  intros Hc. unfold upgrade_insecure_url, upgrading. destruct (disposition p); cbn [bool_decide decide]; [|by split; [|intros [[? _] _]]].
  rewrite bool_decide_eq_false_2 by done. cbn [orb]. destruct (has p _); cbn [negb orb]; [|by split; [|intros [[_ ?] _]]].
  case_bool_decide as E; [split; [done|tauto]|]. destruct (secure_scheme (scheme url)) as [sc|] eqn:Es; cbn [mbind option_bind]; [|split; [done|]; by intros (_ & _ & ? & ? & _)].
  destruct (secured_well_formed url sc Hc Es) as (h & Eh & Hw & Hl). unfold secured. rewrite Eh. cbn [mbind option_bind].
  assert (from_parts sc h (port url) (path url) = parse (serialize_stripped (mkCspUrl sc (Some h) (port url) (path url)))) as -> by done.
  destruct (decide (len (serialize_stripped url) < MAX_URL_BYTES)) as [Hlen|Hlen].
  - rewrite parse_well_formed by (done || lia). split; [intros [= <-]; split_and!; [done|done|done|]; by exists sc|]. by intros (_ & _ & sc' & [= <-] & _ & ->).
  - assert (parse (serialize_stripped (mkCspUrl sc (Some h) (port url) (path url))) = None) as ->.
    { rewrite parse_scheme. by rewrite (proj2 (Z.ltb_lt _ _)) by lia. }
    split; [done|]. by intros (_ & _ & sc' & _ & ? & _).
Qed.

Lemma find_upgrade_spec l url ctx u : canonical url -> find_upgrade url ctx l = Some u <->
  Exists upgrading l /\ ctx <> CrossOriginNavigation /\
  exists sc, secure_scheme (scheme url) = Some sc /\ len (serialize_stripped url) < MAX_URL_BYTES /\ u = secured sc url.
Proof.
  intros Hc. induction l as [|p l IH]; cbn [find_upgrade]; [split; [done|by intros [?%Exists_nil _]]|]. rewrite Exists_cons.
  pose proof (fun v => upgrade_spec p url ctx v Hc) as Hp. destruct (upgrade_insecure_url p url ctx) as [v|].
  - destruct (proj1 (Hp v) eq_refl) as (H1 & H2 & sc & H3 & H4 & ->). split; [intros [= <-]; split; [by left|]; split; [done|]; by exists sc|].
    intros (_ & _ & sc' & Hs & _ & ->). by simplify_eq.
  - rewrite IH. split; [intros (? & ?); tauto|]. intros ([Hu|Hu] & H2 & H3); [|tauto]. by pose proof (proj2 (Hp u) (conj Hu (conj H2 H3))).
Qed.

Lemma secured_secure url sc : canonical url -> secure_scheme (scheme url) = Some sc -> let u := secured sc url in
  scheme u ∈ [lit "https"; lit "wss"] /\ is_potentially_trustworthy u = true /\ host u = host url /\ path u = path url /\
  effective_port u = Some (default 443 (port url)) /\ canonical u.
Proof.
  intros Hc Hs. destruct (secured_well_formed url sc Hc Hs) as (h & Eh & Hw & _). apply secure_scheme_spec in Hs. cbv zeta. unfold secured. rewrite Eh.
  split_and!; try done.
  - destruct Hs as [[_ ->]|[_ ->]]; cbn; [by left|by right; left].
  - destruct Hs as [[_ ->]|[_ ->]]; done.
  - unfold effective_port, without_default_port. cbn [scheme host CspUrl.port]. destruct (port url) as [q|]; [|by destruct Hs as [[_ ->]|[_ ->]]].
    case_bool_decide as E1; [|by destruct E1]. cbn [andb]. case_bool_decide as E2; [|done]. cbn in *. congruence.
  - split.
    + unfold well_formed, without_default_port in *. cbn [scheme host CspUrl.port path] in *. destruct Hw as (H1 & H2 & H3 & H4 & H5). split_and!; try done. by destruct (_ && _).
    + unfold without_default_port. cbn [scheme host CspUrl.port path]. destruct (port url) as [q|]; [|done]. rewrite (bool_decide_eq_true_2 (is_Some _)) by done. cbn [andb]. by case_bool_decide.
Qed.

(** A set of policies upgrades exactly the http and ws URLs, outside cross-origin
    navigations, when one of its enforced policies asks for it and the longer URL
    still fits; what comes out is trustworthy, on the same host and path, on the port
    that was written or else 443. *)
Theorem upgrades_are_exact s text url ctx : parse text = Some url ->
  (forall u, set_upgrade_insecure_url s url ctx = Some u <->
    (exists p, p ∈ policies s /\ upgrading p) /\ ctx <> CrossOriginNavigation /\
    exists sc, secure_scheme (scheme url) = Some sc /\ len (serialize_stripped url) < MAX_URL_BYTES /\ u = secured sc url) /\
  (forall u, set_upgrade_insecure_url s url ctx = Some u ->
    scheme u ∈ [lit "https"; lit "wss"] /\ is_potentially_trustworthy u = true /\ host u = host url /\ path u = path url /\
    effective_port u = Some (default 443 (port url)) /\ canonical u /\ set_upgrade_insecure_url s u ctx = None).
Proof.
  intros Hp. assert (canonical url) as Hc by by apply (csp_parse_canonical text).
  assert (forall u, set_upgrade_insecure_url s url ctx = Some u <-> (exists p, p ∈ policies s /\ upgrading p) /\ ctx <> CrossOriginNavigation /\
    exists sc, secure_scheme (scheme url) = Some sc /\ len (serialize_stripped url) < MAX_URL_BYTES /\ u = secured sc url) as H.
  { intros u. unfold set_upgrade_insecure_url. by rewrite find_upgrade_spec, Exists_exists. }
  split; [done|]. intros u (_ & _ & sc & Hs & _ & ->)%H. destruct (secured_secure url sc Hc Hs) as (H1 & H2 & H3 & H4 & H5 & H6). split_and!; [done..|].
  destruct (set_upgrade_insecure_url s (secured sc url) ctx) as [v|] eqn:E; [|done]. unfold set_upgrade_insecure_url in E.
  apply find_upgrade_spec in E as (_ & _ & sc' & Hs' & _); [|done]. apply secure_scheme_spec in Hs'. rewrite !elem_of_cons, elem_of_nil in H1.
  destruct Hs' as [[E _]|[E _]]; rewrite E in H1; by destruct H1 as [?|[?|[]]].
Qed.

Definition upgrade_set : PolicySet := mkSet [mkPolicy [mkDirective (lit "img-src") [lit "*"]] Enforce Header; mkPolicy [mkDirective (lit "upgrade-insecure-requests") []] Enforce Meta].
Lemma upgrades_are_exact_witness : exists url u, parse (lit "http://Example.com:443/a/../b?q#f") = Some url /\
  set_upgrade_insecure_url upgrade_set url Subresource = Some u /\ serialize_stripped u = lit "https://example.com/b" /\
  is_potentially_trustworthy u = true /\ set_upgrade_insecure_url upgrade_set u Subresource = None.
Proof.
  destruct (parse (lit "http://Example.com:443/a/../b?q#f")) as [url|] eqn:Eu; [|by vm_compute in Eu].
  destruct (upgrades_are_exact upgrade_set _ url Subresource Eu) as [_ H]. destruct (set_upgrade_insecure_url upgrade_set url Subresource) as [u|] eqn:E.
  2: { vm_compute in Eu. injection Eu as <-. by vm_compute in E. }
  destruct (H u eq_refl) as (_ & H2 & _ & _ & _ & _ & H7). exists url, u. split_and!; try done. vm_compute in Eu. injection Eu as <-. vm_compute in E. by injection E as <-.
Defined.

(** A URL of the greatest length is parsed, and not upgraded. *)
Lemma longest_url_not_upgraded : exists text url, parse text = Some url /\ scheme url = lit "http" /\
  forall ctx, set_upgrade_insecure_url upgrade_set url ctx = None.
Proof.
  set (n := Z.to_nat (MAX_URL_BYTES - 9)). assert (Z.of_nat n = MAX_URL_BYTES - 9) as En by (unfold n; rewrite Z2Nat.id; [done|by vm_compute]).
  set (url := mkCspUrl (lit "http") (Some (lit "h")) None (SLASH :: replicate n x61)). clearbody n.
  assert (len (serialize_stripped url) = MAX_URL_BYTES) as Hl.
  { unfold serialize_stripped, url. cbn [scheme host CspUrl.port path CspUrl.port_text]. rewrite !len_app, len_cons, len_nil.
    assert (len (replicate n x61) = MAX_URL_BYTES - 9) as -> by (unfold len; by rewrite length_replicate). by vm_compute. }
  assert (Forall (fun b => b = x61) (replicate n x61)) as Hb by (apply Forall_replicate; done).
  assert (canonical url) as Hc.
  { split; [|done]. unfold well_formed, url. cbn [scheme host CspUrl.port path]. split_and!; [done..|]. split.
    - constructor; [by split_and!|]. eapply Forall_impl; [exact Hb|]. intros b ->. by split_and!.
    - exists [replicate n x61]. split_and!; [done| | |done].
      + apply Forall_singleton. assert (4 < length (replicate n x61))%nat as Hln by (rewrite length_replicate; change MAX_URL_BYTES with 65536 in En; lia).
        clear -Hb Hln. destruct (replicate n x61) as [|a [|b [|c [|d [|e l]]]]]; simpl in Hln; try lia. repeat (apply Forall_cons in Hb as [-> Hb]). by split.
      + apply Forall_singleton. intros Hin. by apply (proj1 (Forall_forall _ _) Hb) in Hin. }
  exists (serialize_stripped url), url. split; [apply csp_canonical_parse; [done|lia]|]. split; [done|]. intros ctx.
  destruct (set_upgrade_insecure_url upgrade_set url ctx) as [u|] eqn:E; [|done]. apply find_upgrade_spec in E as (_ & _ & sc & _ & Hlt & _); [lia|done].
Qed.
