(* ===== verification/CspCheckProps.v ===== *)
(** * What a policy lets through (px-websec/src/csp/check.rs)

    The rules for requests, inline code and evaluation, against the directive that
    governs them, and that the checks decide them; upgrades of insecure URLs. *)
From S2P Require Import Prelude Bytes Text Chars Words Sha2 WebUrl WebHost WebCanon WebParse.
From S2P Require Import CspUrl CspSource CspPolicy CspCheck.
Local Open Scope Z_scope.

(** ** The directive that governs *)
(** The first of the fallback chain that the policy has, with the list of its first
    occurrence. *)
Definition governs (p : Policy) (eff n : list byte) (l : SourceList) : Prop :=
  exists before after d, fallback_chain eff = before ++ n :: after /\ Forall (fun m => directive p m = None) before /\
    directive p n = Some d /\ l = parse_list (values d).
Definition ungoverned (p : Policy) (eff : list byte) : Prop := Forall (fun m => directive p m = None) (fallback_chain eff).

Lemma governing_spec p eff : (governing p eff = None <-> ungoverned p eff) /\ forall n l, governing p eff = Some (n, l) <-> governs p eff n l.
Proof.
  unfold governing, governs, ungoverned. induction (fallback_chain eff) as [|m chain [IH1 IH2]]; cbn [govern].
  { split; [by split|]. intros n l. split; [done|]. intros (b & a & d & E & _). by destruct b. }
  destruct (directive p m) as [d|] eqn:Ed.
  - split; [split; [done|]; intros [? _]%Forall_cons; congruence|]. intros n l. split.
    + intros [= <- <-]. by exists [], chain, d.
    + intros ([|x b] & a & d' & E & Hb & Hd & ->); [injection E as <- <-; by rewrite Ed in Hd; injection Hd as <-|].
      injection E as <- _. apply Forall_cons in Hb as [Hb _]. congruence.
  - rewrite IH1, Forall_cons. split; [tauto|]. intros n l. rewrite IH2. split.
    + intros (b & a & d & -> & Hb & Hd & ->). exists (m :: b), a, d. split_and!; [done|by constructor|done|done].
    + intros ([|x b] & a & d & E & Hb & Hd & ->); [injection E as <- _; congruence|]. injection E as <- ->.
      apply Forall_cons in Hb as [_ Hb]. by exists b, a, d.
Qed.

(** ** Requests *)
Definition listed_nonce (l : SourceList) (n : option (list byte)) : Prop := exists v, n = Some v /\ v <> [] /\ ENonce v ∈ l.
Definition script_request (n : list byte) (k : RequestKind) : Prop := n ∈ [lit "script-src"; lit "script-src-elem"] /\ is_script_like k = true.
Definition style_request (n : list byte) (k : RequestKind) : Prop := n ∈ [lit "style-src"; lit "style-src-elem"] /\ k = KStyle.

(** The ways for a request to be let through by the list of a directive. *)
Inductive request_passes (n : list byte) (l : SourceList) (k : RequestKind) (u : CspUrl) (o : Origin) (opts : RequestOptions) : Prop :=
| by_nonce : script_request n k \/ style_request n k -> listed_nonce l (nonce opts) -> request_passes n l k u o opts
| by_integrity : script_request n k -> integrity opts <> [] -> Forall (fun h => EHash h ∈ l) (integrity opts) -> request_passes n l k u o opts
| by_trust : script_request n k -> EKeyword StrictDynamic ∈ l -> parser_inserted opts = false -> request_passes n l k u o opts
| by_source : ~ (script_request n k /\ EKeyword StrictDynamic ∈ l) -> Exists (covers o (redirect_count opts) u) l -> request_passes n l k u o opts.

Lemma has_keyword_spec l k : has_keyword l k = true <-> EKeyword k ∈ l.
Proof. apply bool_decide_eq_true. Qed.

Lemma nonce_ok_spec l n : nonce_ok l n = true <-> listed_nonce l n.
Proof.
  unfold nonce_ok, listed_nonce. destruct n as [v|].
  - rewrite nonce_spec. split; [intros [? ?]; by exists v|]. by intros (? & [= <-] & ? & ?).
  - split; [done|]. by intros (? & ? & _).
Qed.

Lemma integrity_ok_spec l hs : integrity_ok l hs = true <-> hs <> [] /\ Forall (fun h => EHash h ∈ l) hs.
Proof.
  unfold integrity_ok. rewrite !andb_true_iff, negb_true_iff, bool_decide_eq_false, forallb_true.
  assert (Forall (fun h => contains_hash l h = true) hs <-> Forall (fun h => EHash h ∈ l) hs) as ->.
  { split; intros H; (eapply Forall_impl; [exact H|]); intros h; by apply contains_hash_spec. }
  split; [intros [[_ Hn] Hf]; split; [by destruct hs|done]|]. intros [Hn Hf]. split_and!; [|by destruct hs|done].
  destruct hs as [|h hs]; [done|]. apply Forall_cons in Hf as [Hf _]. unfold has_hash. apply existsb_Exists, Exists_exists. by exists (EHash h).
Qed.

Lemma request_passes_iff n l k u o opts : request_passes n l k u o opts <->
  ((script_request n k \/ style_request n k) /\ listed_nonce l (nonce opts)) \/
  (script_request n k /\ integrity opts <> [] /\ Forall (fun h => EHash h ∈ l) (integrity opts)) \/
  (script_request n k /\ EKeyword StrictDynamic ∈ l /\ parser_inserted opts = false) \/
  (~ (script_request n k /\ EKeyword StrictDynamic ∈ l) /\ Exists (covers o (redirect_count opts) u) l).
Proof.
  split.
  - intros [? ?|? ? ?|? ? ?|? ?]; tauto.
  - intros [[? ?]|[(? & ? & ?)|[(? & ? & ?)|[? ?]]]]; [by apply by_nonce|by apply by_integrity|by apply by_trust|by apply by_source].
Qed.

Lemma script_request_spec n k : bool_decide (n ∈ [lit "script-src"; lit "script-src-elem"]) && is_script_like k = true <-> script_request n k.
Proof. unfold script_request. by rewrite andb_true_iff, bool_decide_eq_true. Qed.
Lemma style_request_spec n k : bool_decide (k = KStyle) && bool_decide (n ∈ [lit "style-src"; lit "style-src-elem"]) = true <-> style_request n k.
Proof. unfold style_request. rewrite andb_true_iff, !bool_decide_eq_true. tauto. Qed.

Lemma check_request_spec p k u o opts n l : governing p (effective_directive k) = Some (n, l) ->
  check_request p k u o opts = Allowed <-> request_passes n l k u o opts.
Proof.
  intros Hg. unfold check_request. rewrite Hg, request_passes_iff. cbv zeta.
  pose proof (matches_url_spec l u o (redirect_count opts)) as Hm. pose proof (nonce_ok_spec l (nonce opts)) as Hn.
  pose proof (integrity_ok_spec l (integrity opts)) as Hi. pose proof (has_keyword_spec l StrictDynamic) as Hk.
  pose proof (script_request_spec n k) as Hsc. pose proof (style_request_spec n k) as Hst.
  destruct (bool_decide (n ∈ _) && is_script_like k).
  - pose proof (proj1 Hsc eq_refl) as Hs. clear Hsc Hst. assert (~ style_request n k) as Hno by (intros [_ ->]; by destruct Hs).
    assert (bool_decide (k = KStyle) = false) as -> by (apply bool_decide_eq_false; intros ->; by destruct Hs). cbn [andb].
    destruct (nonce_ok _ _); [tauto|]. destruct (integrity_ok _ _); [tauto|]. destruct (has_keyword _ _), (parser_inserted opts), (matches_url _ _ _ _); intuition congruence.
  - assert (~ script_request n k) as Hs by (intros H; by apply Hsc in H). clear Hsc Hi Hk.
    destruct (_ && bool_decide _) eqn:E in |- *; rewrite E in Hst; cbn [andb]; destruct (nonce_ok _ _), (matches_url _ _ _ _); intuition congruence.
Qed.

Lemma governed_cases p eff (d : Decision) (P : list byte -> SourceList -> Prop) :
  (governing p eff = None -> d = Allowed) -> (forall n l, governing p eff = Some (n, l) -> d = Allowed <-> P n l) ->
  d = Allowed <-> ungoverned p eff \/ exists n l, governs p eff n l /\ P n l.
Proof.
  intros Hnone Hsome. destruct (governing_spec p eff) as [H1 H2]. destruct (governing p eff) as [[n l]|] eqn:E.
  - rewrite (Hsome n l eq_refl). split.
    + intros HP. right. exists n, l. split; [by apply H2|done].
    + intros [Hu|(n' & l' & Hg & HP)]; [by apply H1 in Hu|]. apply H2 in Hg. by injection Hg as -> ->.
  - split; [intros _; left; by apply H1|]. intros _. by apply Hnone.
Qed.

(** C17: A request is let through by a policy exactly when no directive of its
    fallback chain is there, or the first that is there has its nonce, all its
    integrity digests or, for scripts not inserted by the parser, the keyword of
    strict trust, or else an expression that covers its URL by the rules for
    schemes, hosts, ports and paths; a block names that first directive. *)
Theorem requests_exact p k u o opts :
  (check_request p k u o opts = Allowed <->
    ungoverned p (effective_directive k) \/ exists n l, governs p (effective_directive k) n l /\ request_passes n l k u o opts) /\
  (forall b, check_request p k u o opts = IsBlocked b -> b_effective b = effective_directive k /\ exists l, governs p (effective_directive k) (b_violated b) l).
Proof.
  split.
  - apply governed_cases; [|apply check_request_spec]. intros Hg. unfold check_request. by rewrite Hg.
  - intros b. unfold check_request. destruct (governing p (effective_directive k)) as [[n l]|] eqn:E; [|done]. intros Hb.
    assert (b = mkBlocked (effective_directive k) n) as ->.
    { revert Hb. cbv zeta. repeat (case_match; try done); by intros [= <-]. }
    split; [done|]. exists l. by apply governing_spec in E.
Qed.

(** ** Inline code and evaluation *)
(** The digests of FIPS 180-4. *)
Definition fips_digest (a : HashAlg) (text : list byte) : list byte :=
  match a with
  | Sha256 => Fips.SHA256 text
  | Sha384 => Fips.SHA384 text
  | Sha512 => Fips.SHA512 text
  end.
Lemma alg_digest_fips a text : slice_ok text -> alg_digest a text = fips_digest a text.
Proof. intros Hs. destruct a; [by apply sha256_fips|by apply sha384_fips|by apply sha512_fips]. Qed.

Inductive inline_passes (l : SourceList) (ty : InlineType) (n : option (list byte)) (text : list byte) : Prop :=
| inline_by_nonce : is_element ty = true -> listed_nonce l n -> inline_passes l ty n text
| inline_by_digest a : is_element ty = true \/ EKeyword UnsafeHashes ∈ l -> EHash (mkHash a (fips_digest a text)) ∈ l -> inline_passes l ty n text
| inline_at_all : EKeyword UnsafeInline ∈ l -> Forall (fun e => one_by_one e = false) l ->
    (script_like ty = true -> EKeyword StrictDynamic ∉ l) -> inline_passes l ty n text.

Lemma check_inline_spec p ty nonce text n l : slice_ok text -> governing p (inline_directive ty) = Some (n, l) ->
  check_inline p ty nonce text = Allowed <-> inline_passes l ty nonce text.
Proof.
  intros Hs Hg. unfold check_inline. rewrite Hg. cbv zeta. pose proof (nonce_ok_spec l nonce) as Hn. pose proof (hash_text_spec l text) as Hh.
  pose proof (has_keyword_spec l UnsafeHashes) as Hk. pose proof (all_inline_spec l ty) as Ha. setoid_rewrite (alg_digest_fips _ text Hs) in Hh. split.
  - destruct (is_element ty && nonce_ok l nonce) eqn:E1; [apply andb_true_iff in E1 as [E1 E2]; intros _; apply inline_by_nonce; tauto|].
    destruct ((is_element ty || has_keyword l UnsafeHashes) && hash_matches_text l text) eqn:E2.
    { apply andb_true_iff in E2 as [E2%orb_true_iff (a & E3)%Hh]. intros _. apply (inline_by_digest _ _ _ _ a); tauto. }
    destruct (allows_all_inline l ty); [|done]. intros _. apply inline_at_all; tauto.
  - intros [H1 H2%Hn|a H1 H2|H1 H2 H3]; [by rewrite H1, H2|..].
    + assert (hash_matches_text l text = true) as -> by (apply Hh; by exists a). rewrite <- Hk in H1. rewrite (proj2 (orb_true_iff _ _) H1). by case_match.
    + rewrite (proj2 Ha) by done. by repeat case_match.
Qed.

Lemma length_alg_digest a text : length (alg_digest a text) = digest_len a.
Proof.
  destruct a; [apply length_sha256| |apply length_sha512].
  unfold alg_digest, CspSha2.sha384, sha384, sha512_core. rewrite length_take, length_be_words. unfold compress512. by rewrite length_hash_state.
Qed.

Lemma listed_digest_runs p ty nonce text n vs a : slice_ok text -> is_element ty = true -> governs p (inline_directive ty) n (parse_list vs) ->
  hash_source a (fips_digest a text) ∈ vs -> check_inline p ty nonce text = Allowed.
Proof.
  intros Hs Ht Hg Hin. apply governing_spec in Hg. apply (check_inline_spec p ty nonce text n _ Hs Hg). apply (inline_by_digest _ _ _ _ a); [by left|].
  assert (length (fips_digest a text) = digest_len a) as Hl by (rewrite <- alg_digest_fips by done; apply length_alg_digest).
  rewrite <- (parse_hash_source a _ Hl). unfold parse_list. apply list_elem_of_In, in_map. by apply list_elem_of_In.
Qed.

Lemma check_eval_spec p k n l : governing p (lit "script-src") = Some (n, l) ->
  check_eval p k = Allowed <-> EKeyword UnsafeEval ∈ l \/ (k = Wasm /\ EKeyword WasmUnsafeEval ∈ l).
Proof.
  intros Hg. unfold check_eval. rewrite Hg, <- !has_keyword_spec. destruct (has_keyword l UnsafeEval); cbn [orb]; [tauto|].
  destruct k; [rewrite bool_decide_eq_false_2 by done|rewrite bool_decide_eq_true_2 by done]; destruct (has_keyword l WasmUnsafeEval); cbn [andb]; intuition congruence.
Qed.

(** C18: Inline code runs exactly when no directive governs it, or the one that does
    has its nonce, a digest of it by FIPS 180-4, or allows all of it at once; strings
    are evaluated exactly when a keyword of the governing directive says so; and a
    script whose digest is written in the governing directive does run. *)
Theorem inline_code_exact p text : slice_ok text ->
  (forall ty nonce, check_inline p ty nonce text = Allowed <->
    ungoverned p (inline_directive ty) \/ exists n l, governs p (inline_directive ty) n l /\ inline_passes l ty nonce text) /\
  (forall k, check_eval p k = Allowed <->
    ungoverned p (lit "script-src") \/ exists n l, governs p (lit "script-src") n l /\ (EKeyword UnsafeEval ∈ l \/ (k = Wasm /\ EKeyword WasmUnsafeEval ∈ l))) /\
  (forall ty nonce n vs a, is_element ty = true -> governs p (inline_directive ty) n (parse_list vs) ->
    hash_source a (fips_digest a text) ∈ vs -> check_inline p ty nonce text = Allowed).
Proof.
  intros Hs. split_and!.
  - intros ty nonce. apply governed_cases; [|intros n l; by apply check_inline_spec]. intros Hg. unfold check_inline. by rewrite Hg.
  - intros k. apply governed_cases; [|intros n l; apply check_eval_spec]. intros Hg. unfold check_eval. by rewrite Hg.
  - intros ty nonce n vs a. by apply listed_digest_runs.
Qed.

Definition script_text : list byte := lit "alert(1)".
Definition digest_policy : Policy := mkPolicy [mkDirective (lit "script-src") [hash_source Sha256 (alg_digest Sha256 script_text)]] Enforce Header.
Lemma inline_code_exact_witness : slice_ok script_text /\ check_inline digest_policy Script None script_text = Allowed /\
  is_blocked (check_inline digest_policy ScriptAttribute None script_text) = true /\
  (check_eval digest_policy Eval = Allowed <-> ungoverned digest_policy (lit "script-src") \/
    exists n l, governs digest_policy (lit "script-src") n l /\ (EKeyword UnsafeEval ∈ l \/ (Eval = Wasm /\ EKeyword WasmUnsafeEval ∈ l))).
Proof.
  assert (slice_ok script_text) as Hs by (vm_compute; discriminate). destruct (inline_code_exact digest_policy script_text Hs) as (_ & H2 & H3).
  split_and!; [exact Hs| |by vm_compute|exact (H2 Eval)].
  apply (H3 Script None (lit "script-src") [hash_source Sha256 (alg_digest Sha256 script_text)] Sha256); [done| |].
  - exists [lit "script-src-elem"], [lit "default-src"], (mkDirective (lit "script-src") [hash_source Sha256 (alg_digest Sha256 script_text)]).
    split_and!; [done|by repeat constructor|done|done].
  - rewrite <- (alg_digest_fips Sha256 script_text Hs). by left.
Defined.

(** * All policies of a document

    A set of policies blocks what one of its enforced policies blocks, and reports
    what its report-only policies block; headers are taken as a whole or replaced by
    a policy that denies everything. *)
(** ** Evaluation *)
Definition enforced (f : Policy -> Decision) (p : Policy) : bool := bool_decide (disposition p = Enforce) && is_blocked (f p).

(** What a policy with an index reports. *)
Definition report_of (f : Policy -> Decision) (e : nat * Policy) : option (nat * Blocked) :=
  match disposition e.2, f e.2 with Report, IsBlocked b => Some (e.1, b) | _, _ => None end.
(** The block of a policy with an index. *)
Definition block_of (f : Policy -> Decision) (e : nat * Policy) : option (nat * Blocked) :=
  match disposition e.2, f e.2 with Enforce, IsBlocked b => Some (e.1, b) | _, _ => None end.

Fixpoint indexed (i : nat) (l : list Policy) : list (nat * Policy) := match l with [] => [] | p :: l => (i, p) :: indexed (S i) l end.

Lemma indexed_lookup i l j p : (j, p) ∈ indexed i l <-> exists k, j = (i + k)%nat /\ l !! k = Some p.
Proof.
  revert i. induction l as [|q l IH]; intros i; cbn [indexed].
  - split; [by intros ?%elem_of_nil|]. by intros (k & _ & ?).
  - rewrite elem_of_cons, IH. split.
    + intros [[= -> ->]|(k & -> & Hk)]; [exists 0%nat; split; [lia|done]|exists (S k); split; [lia|done]].
    + intros ([|k] & -> & Hk); [left; injection Hk as ->; f_equal; lia|right; exists k; split; [lia|done]].
Qed.

Lemma evaluate_loop_spec f v i l : evaluate_loop f v i l =
  mkVerdict (match v_blocked v with Some b => Some b | None => head (omap (block_of f) (indexed i l)) end) (reports v ++ omap (report_of f) (indexed i l)).
Proof.
  revert v i. induction l as [|p l IH]; intros [b r] i; cbn [evaluate_loop indexed omap list_omap v_blocked reports].
  { rewrite app_nil_r. by destruct b. }
  rewrite IH. unfold block_of at 2, report_of at 2. cbn [fst snd]. destruct (f p) as [|x]; [by destruct (disposition p)|].
  destruct (disposition p); destruct b; cbn [v_blocked reports head]; rewrite <- ?app_assoc; done.
Qed.

Lemma evaluate_spec s f : evaluate s f =
  mkVerdict (head (omap (block_of f) (indexed 0 (policies s)))) (omap (report_of f) (indexed 0 (policies s))).
Proof. unfold evaluate. by rewrite evaluate_loop_spec. Qed.

(** A policy that is enforced and lets something through, or is not enforced. *)
Definition lets_through (f : Policy -> Decision) (p : Policy) : Prop := disposition p = Enforce -> f p = Allowed.

Lemma block_of_None f i p : block_of f (i, p) = None <-> lets_through f p.
Proof. unfold block_of, lets_through. cbn [fst snd]. destruct (disposition p), (f p); intuition congruence. Qed.

Lemma first_block f i l : head (omap (block_of f) (indexed i l)) = None <-> Forall (lets_through f) l.
Proof.
  revert i. induction l as [|p l IH]; intros i; cbn [indexed omap list_omap]; [by split|]. rewrite Forall_cons, <- (block_of_None f i p).
  destruct (block_of f (i, p)); [split; [done|by intros [? _]]|]. rewrite IH. tauto.
Qed.

Lemma first_block_Some f i l k b : head (omap (block_of f) (indexed i l)) = Some (k, b) <->
  exists j p, k = (i + j)%nat /\ l !! j = Some p /\ disposition p = Enforce /\ f p = IsBlocked b /\ Forall (lets_through f) (take j l).
Proof.
  revert i. induction l as [|p l IH]; intros i; cbn [indexed omap list_omap].
  { split; [done|]. by intros (j & p & _ & ? & _). }
  destruct (block_of f (i, p)) as [[k' b']|] eqn:E; cbn [head].
  - unfold block_of in E. cbn [fst snd] in E. destruct (disposition p) eqn:Ed; [|done]. destruct (f p) as [|x] eqn:Ef; [done|]. injection E as <- <-. split.
    + intros [= <- <-]. exists 0%nat, p. split_and!; [lia|done|done|done|constructor].
    + intros ([|j] & q & -> & Hq & Hd & Hb & Hall); [injection Hq as <-; rewrite Ef in Hb; injection Hb as ->; repeat f_equal; lia|].
      cbn [take] in Hall. apply Forall_cons in Hall as [Hp _]. rewrite (Hp Ed) in Ef. done.
  - pose proof (proj1 (block_of_None f i p) E) as Hp. rewrite IH. split.
    + intros (j & q & -> & Hq & Hd & Hb & Hall). exists (S j), q. split_and!; [lia|done|done|done|]. cbn [take]. by constructor.
    + intros ([|j] & q & -> & Hq & Hd & Hb & Hall); [injection Hq as <-; rewrite (Hp Hd) in Hb; done|].
      cbn [take] in Hall. apply Forall_cons in Hall as [_ Hall]. exists j, q. split_and!; try done. lia.
Qed.

Lemma report_spec f l k b : (k, b) ∈ omap (report_of f) (indexed 0 l) <-> exists p, l !! k = Some p /\ disposition p = Report /\ f p = IsBlocked b.
Proof.
  rewrite list_elem_of_omap. split.
  - intros ([i p] & (j & -> & Hj)%indexed_lookup & Hr). unfold report_of in Hr. cbn [fst snd] in Hr. destruct (disposition p) eqn:Ed; [done|].
    destruct (f p) eqn:Ef; [done|]. injection Hr as <- <-. by exists p.
  - intros (p & Hp & Hd & Hb). exists (k, p). split; [apply indexed_lookup; by exists k|]. unfold report_of. cbn [fst snd]. by rewrite Hd, Hb.
Qed.

Lemma evaluate_passes f l : verdict_is_blocked (evaluate (mkSet l) f) = false <-> Forall (lets_through f) l.
Proof. rewrite evaluate_spec. unfold verdict_is_blocked. cbn [v_blocked policies]. rewrite bool_decide_eq_false, <- eq_None_not_Some. apply first_block. Qed.

Lemma evaluate_app f ps qs :
  verdict_is_blocked (evaluate (mkSet (ps ++ qs)) f) = verdict_is_blocked (evaluate (mkSet ps) f) || verdict_is_blocked (evaluate (mkSet qs) f).
Proof.
  pose proof (evaluate_passes f (ps ++ qs)) as H. rewrite Forall_app, <- !evaluate_passes in H.
  destruct (verdict_is_blocked (evaluate (mkSet (ps ++ qs)) f)), (verdict_is_blocked (evaluate (mkSet ps) f)), (verdict_is_blocked (evaluate (mkSet qs) f)); intuition congruence.
Qed.

(** ** Sandboxes *)
Lemma allow_bit_pow a : exists n, 0 <= n /\ allow_bit a = 2 ^ n.
Proof. destruct a; by eexists; (split; [|apply Z.shiftl_1_l]). Qed.

Lemma allows_testbit f a n : 0 <= n -> allow_bit a = 2 ^ n -> allows f a = Z.testbit f n.
Proof.
  intros Hn Ha. unfold allows. rewrite Ha. destruct (Z.testbit f n) eqn:E.
  - apply negb_true_iff, Z.eqb_neq. intros Hz. apply (f_equal (fun x => Z.testbit x n)) in Hz.
    by rewrite Z.land_spec, Z.pow2_bits_true, E, Z.bits_0 in Hz by done.
  - apply negb_false_iff, Z.eqb_eq, Z.bits_inj_0. intros m. rewrite Z.land_spec. destruct (decide (m = n)) as [->|Hm]; [by rewrite E|].
    rewrite Z.pow2_bits_false by done. apply andb_false_r.
Qed.

Lemma allows_intersect f g a : allows (intersect f g) a = allows f a && allows g a.
Proof. destruct (allow_bit_pow a) as (n & Hn & Ha). rewrite !(allows_testbit _ a n) by done. apply Z.land_spec. Qed.

Lemma sandbox_fold acc l a :
  let step := fun acc p => match policy_sandbox_flags p with Some f => Some (match acc with Some g => intersect g f | None => f end) | None => acc end in
  (foldl step acc l = None <-> acc = None /\ omap policy_sandbox_flags l = []) /\
  (forall f, foldl step acc l = Some f -> allows f a = match acc with Some g => allows g a | None => true end && forallb (fun f => allows f a) (omap policy_sandbox_flags l)).
Proof.
  cbv zeta. revert acc. induction l as [|p l IH]; intros acc; cbn [foldl omap list_omap].
  - split; [tauto|]. intros f ->. cbn [forallb]. by rewrite andb_true_r.
  - destruct (policy_sandbox_flags p) as [g|]; [|apply IH]. destruct (IH (Some (match acc with Some h => intersect h g | None => g end))) as [I1 I2]. split.
    + rewrite I1. intuition congruence.
    + intros f ->%I2. cbn [forallb]. destruct acc; [rewrite allows_intersect; by rewrite andb_assoc|by rewrite andb_true_l].
Qed.

Lemma sandbox_set s f a : sandbox_flags s = Some f -> allows f a = true <-> forall p g, p ∈ policies s -> policy_sandbox_flags p = Some g -> allows g a = true.
Proof.
  intros Hf. pose proof (proj2 (sandbox_fold None (policies s) a) f Hf) as ->. rewrite andb_true_l, forallb_true, Forall_forall. setoid_rewrite list_elem_of_omap. split.
  - intros H p g Hp Hg. apply H. by exists p.
  - intros H g (p & Hp & Hg). by apply (H p).
Qed.

Lemma sandbox_none s : sandbox_flags s = None <-> forall p, p ∈ policies s -> policy_sandbox_flags p = None.
Proof.
  unfold sandbox_flags. rewrite (proj1 (sandbox_fold None (policies s) Scripts)). split.
  - intros [_ H] p Hp. destruct (policy_sandbox_flags p) as [f|] eqn:E; [|done]. assert (f ∈ omap policy_sandbox_flags (policies s)) as Hin by (apply list_elem_of_omap; by exists p).
    rewrite H in Hin. by apply elem_of_nil in Hin.
  - intros H. split; [done|]. destruct (omap policy_sandbox_flags (policies s)) as [|f l] eqn:E; [done|].
    assert (f ∈ omap policy_sandbox_flags (policies s)) as (p & Hp & Hf)%list_elem_of_omap by (rewrite E; by left). rewrite (H p Hp) in Hf. done.
Qed.

(** Something is blocked by a set of policies exactly when an enforced policy
    blocks it, and then in the name of the first that does; every report-only
    policy that would block it is reported, and blocks nothing; another policy never
    lets more through; and a document in a sandbox may do what every sandbox allows. *)
Theorem every_policy_must_allow s f :
  (v_blocked (evaluate s f) = None <-> forall p, p ∈ policies s -> disposition p = Enforce -> f p = Allowed) /\
  (forall i b, v_blocked (evaluate s f) = Some (i, b) <-> exists p, policies s !! i = Some p /\ disposition p = Enforce /\ f p = IsBlocked b /\
    forall q, q ∈ take i (policies s) -> disposition q = Enforce -> f q = Allowed) /\
  (forall i b, (i, b) ∈ reports (evaluate s f) <-> exists p, policies s !! i = Some p /\ disposition p = Report /\ f p = IsBlocked b) /\
  (forall p, verdict_is_blocked (evaluate (push s p) f) = verdict_is_blocked (evaluate s f) || (bool_decide (disposition p = Enforce) && is_blocked (f p))) /\
  (sandbox_flags s = None <-> forall p, p ∈ policies s -> policy_sandbox_flags p = None) /\
  (forall flags a, sandbox_flags s = Some flags -> allows flags a = true <-> forall p g, p ∈ policies s -> policy_sandbox_flags p = Some g -> allows g a = true).
Proof.
  split_and!.
  - rewrite evaluate_spec. cbn [v_blocked]. rewrite first_block, Forall_forall. done.
  - intros i b. rewrite evaluate_spec. cbn [v_blocked]. rewrite first_block_Some. setoid_rewrite Forall_forall. split.
    + intros (j & p & -> & H). by exists p.
    + intros (p & H). by exists i, p.
  - intros i b. rewrite evaluate_spec. apply report_spec.
  - intros p. unfold push. rewrite evaluate_app. destruct s as [ps]. f_equal. unfold evaluate. cbn [policies evaluate_loop]. by destruct (f p), (disposition p).
  - apply sandbox_none.
  - intros flags a. apply sandbox_set.
Qed.

(** ** Headers *)
Lemma add_headers_Ok ps d vs out : len ps <= MAX_POLICIES -> (add_headers ps d vs = Ok out <->
  Forall (fun v => len v <= MAX_POLICY_BYTES) vs /\ out = ps ++ concat (map (policies_of d) vs) /\ len out <= MAX_POLICIES).
Proof.
  revert ps. induction vs as [|v vs IH]; intros ps Hps; cbn [add_headers map concat].
  { rewrite app_nil_r. split; [by intros [= <-]|by intros (_ & -> & _)]. }
  rewrite Forall_cons. pose proof (fun l => parse_policy_list_Ok v d l) as Hl. destruct (parse_policy_list v d) as [l|e]; cbn [mbind result_bind].
  - destruct (proj1 (Hl l) eq_refl) as (Hv & -> & Hn). destruct (_ <? _) eqn:E; [apply Z.ltb_lt in E|apply Z.ltb_ge in E].
    + split; [done|]. intros (_ & -> & Ho). rewrite app_assoc, len_app in Ho. pose proof (len_nonneg (concat (map (policies_of d) vs))). lia.
    + rewrite IH by done. rewrite app_assoc. tauto.
  - split; [done|]. intros ([Hv _] & -> & Ho). rewrite !len_app in Ho. pose proof (len_nonneg (concat (map (policies_of d) vs))). pose proof (len_nonneg ps).
    by pose proof (proj2 (Hl (policies_of d v)) ltac:(split_and!; [done|done|lia])) as Hx.
Qed.

(** Every policy of all headers. *)
Definition all_policies (enforce report_only : list (list byte)) : list Policy :=
  concat (map (policies_of Enforce) enforce) ++ concat (map (policies_of Report) report_only).
Definition within_limits (enforce report_only : list (list byte)) : Prop :=
  Forall (fun v => len v <= MAX_POLICY_BYTES) (enforce ++ report_only) /\ len (all_policies enforce report_only) <= MAX_POLICIES.

Lemma from_headers_Ok enforce report_only s : from_headers enforce report_only = Ok s <->
  within_limits enforce report_only /\ s = mkSet (all_policies enforce report_only).
Proof.
  unfold from_headers, within_limits, all_policies. rewrite Forall_app. set (E := concat (map (policies_of Enforce) enforce)). set (R := concat (map (policies_of Report) report_only)).
  pose proof (fun o => add_headers_Ok [] Enforce enforce o ltac:(by vm_compute)) as H1. cbn [app] in H1. fold E in H1. rewrite len_app.
  pose proof (len_nonneg R). destruct (add_headers [] Enforce enforce) as [ps|e]; cbn [mbind result_bind].
  - destruct (proj1 (H1 ps) eq_refl) as (Hv & -> & Hl). pose proof (fun o => add_headers_Ok E Report report_only o Hl) as H2. fold R in H2.
    destruct (add_headers E Report report_only) as [qs|e]; cbn [mbind result_bind].
    + destruct (proj1 (H2 qs) eq_refl) as (Hr & -> & Hn). rewrite len_app in Hn. split; [by intros [= <-]|by intros [_ ->]].
    + split; [done|]. intros [[[_ Hr] Hn] _]. by pose proof (proj2 (H2 (E ++ R)) ltac:(rewrite len_app; done)) as Hx.
  - split; [done|]. intros [[[Hv _] Hn] _]. by pose proof (proj2 (H1 E) ltac:(split_and!; [done|done|lia])) as Hx.
Qed.

(** [deny_all] denies everything that a policy can. *)
Lemma deny_all_request kind url o opts : is_blocked (check_request deny_all kind url o opts) = true.
Proof. by destruct kind. Qed.
Lemma deny_all_inline ty n text : is_blocked (check_inline deny_all ty n text) = true.
Proof. destruct n as [n|]; [|by destruct ty]. destruct ty; try done; cbv; by destruct n. Qed.
Lemma deny_all_ancestors url l : l <> [] -> is_blocked (check_frame_ancestors deny_all url l) = true.
Proof. by destruct l. Qed.

Lemma fail_closed_denies enforce report_only : ~ within_limits enforce report_only -> from_headers_fail_closed enforce report_only = mkSet [deny_all].
Proof.
  intros Hn. unfold from_headers_fail_closed. destruct (from_headers enforce report_only) as [s|e] eqn:E; [|done]. by apply from_headers_Ok in E as [? _].
Qed.
Lemma fail_closed_keeps enforce report_only : within_limits enforce report_only -> from_headers_fail_closed enforce report_only = mkSet (all_policies enforce report_only).
Proof. intros Hw. unfold from_headers_fail_closed. by rewrite (proj2 (from_headers_Ok enforce report_only _) (conj Hw eq_refl)). Qed.

Lemma one_policy p f : disposition p = Enforce -> verdict_is_blocked (evaluate (mkSet [p]) f) = is_blocked (f p).
Proof. intros Hp. unfold evaluate. cbn [policies evaluate_loop]. rewrite Hp. by destruct (f p). Qed.

(** C19: The policies of a response are those of all its headers, in order, when every
    header and their number are within the limits; otherwise the document gets the
    one policy under which every request, script, evaluation, form, base, framing
    and insecure resource is blocked, in a sandbox that allows nothing. *)
Theorem headers_are_all_or_nothing enforce report_only : let s := from_headers_fail_closed enforce report_only in
  (within_limits enforce report_only -> s = mkSet (all_policies enforce report_only)) /\
  (~ within_limits enforce report_only ->
    (forall kind url o opts, verdict_is_blocked (set_check_request s kind url o opts) = true) /\
    (forall ty n text, verdict_is_blocked (set_check_inline s ty n text) = true) /\
    (forall k, verdict_is_blocked (set_check_eval s k) = true) /\
    (forall url o r, verdict_is_blocked (set_check_form_action s url o r) = true) /\
    (forall url o, verdict_is_blocked (set_check_base_uri s url o) = true) /\
    (forall url l, verdict_is_blocked (set_check_frame_ancestors s url l) = negb (bool_decide (l = []))) /\
    (forall url, verdict_is_blocked (set_check_mixed_content s url true) = negb (is_potentially_trustworthy url)) /\
    exists flags, sandbox_flags s = Some flags /\ forall a, allows flags a = false).
Proof.
  cbv zeta. split; [apply fail_closed_keeps|]. intros Hn. rewrite fail_closed_denies by done.
  split_and!; intros; unfold set_check_request, set_check_inline, set_check_eval, set_check_form_action, set_check_base_uri, set_check_frame_ancestors, set_check_mixed_content;
    rewrite ?one_policy by done; [apply deny_all_request|apply deny_all_inline|by destruct k|done|done| | |].
  - by destruct l.
  - unfold blocks_mixed_content. change (has deny_all (lit "block-all-mixed-content")) with true. by destruct (is_potentially_trustworthy url).
  - exists 0. split; [done|]. intros a. by destruct a.
Qed.

Lemma headers_are_all_or_nothing_witness : exists p q,
  from_headers_fail_closed [lit "img-src *, default-src 'self'"] [lit ";"; lit "sandbox"] = mkSet (all_policies [lit "img-src *, default-src 'self'"] [lit ";"; lit "sandbox"]) /\
  (forall f, evaluate (from_headers_fail_closed (replicate 129 (lit "img-src *")) []) f = evaluate (mkSet [p]) f) /\
  all_policies [lit "img-src *, default-src 'self'"] [lit ";"; lit "sandbox"] = [q; mkPolicy [mkDirective (lit "default-src") [lit "'self'"]] Enforce Header; mkPolicy [mkDirective (lit "sandbox") []] Report Header].
Proof.
  exists deny_all, (mkPolicy [mkDirective (lit "img-src") [lit "*"]] Enforce Header). split_and!.
  - apply (headers_are_all_or_nothing [lit "img-src *, default-src 'self'"] [lit ";"; lit "sandbox"]). split; [|by apply (bool_decide_unpack _); vm_compute].
    apply (bool_decide_unpack _). by vm_compute.
  - intros f. by vm_compute.
  - by vm_compute.
Defined.
