(* ===== verification/CspReport.v ===== *)
(** * Violation reports (px-websec/src/csp/report.rs)

    The record of a violation and its two JSON bodies, with a reader of JSON to
    show that what is written is what is read. *)
From S2P Require Import Prelude Bytes Text Chars WebUrl WebHost WebCanon WebParse CspUrl CspSource CspPolicy.
From S2P Require Import CspCheck.
Local Open Scope Z_scope.

Definition MAX_SAMPLE_CHARS : nat := 40.

Inductive BlockedResource :=
| BUrl (u : CspUrl) | UrlAfterCrossOriginRedirect (u : CspUrl) | BInline | BEval | WasmEval.

Record SourcePosition := mkPosition { file : CspUrl; pos_line : Z; pos_column : Z }.

Record ViolationContext := mkContext {
  c_document : CspUrl; c_referrer : option CspUrl; c_blocked : BlockedResource; c_status : Z;
  position : option SourcePosition; c_sample : option (list byte) }.

Record Violation := mkViolation {
  document_url : list byte; referrer : list byte; blocked_url : list byte; v_effective : list byte; v_violated : list byte;
  original_policy : list byte; v_disposition : Disposition; status_code : Z; source_file : list byte; line : Z; column : Z;
  sample : list byte }.

Definition strip_url_for_report (u : CspUrl) : list byte :=
  if bool_decide (scheme u ∈ [lit "data"; lit "blob"; lit "about"; lit "javascript"; lit "filesystem"]) then scheme u
  else serialize_stripped u.

(** The characters of a string: a byte and the continuation bytes after it. *)
Fixpoint chars (l : list byte) : list (list byte) :=
  match l with
  | [] => []
  | b :: t =>
      match chars t with
      | c :: cs => if match head c with Some b2 => cont b2 | None => false end then (b :: c) :: cs else [b] :: c :: cs
      | [] => [[b]]
      end
  end.

Definition blocked_text (b : BlockedResource) : list byte :=
  match b with
  | BUrl u => strip_url_for_report u
  | UrlAfterCrossOriginRedirect u =>
      match origin u with
      | Tuple scheme host port =>
          if bool_decide (default_port scheme = Some port) then scheme ++ lit "://" ++ host
          else scheme ++ lit "://" ++ host ++ COLON :: decimal port
      | Opaque => scheme u
      end
  | BInline => lit "inline"
  | BEval => lit "eval"
  | WasmEval => lit "wasm-eval"
  end.

Definition new_violation (p : Policy) (b : Blocked) (ctx : ViolationContext) : Violation :=
  let sample :=
    match c_sample ctx with
    | Some s => if wants_sample p (b_violated b) then concat (take MAX_SAMPLE_CHARS (chars s)) else []
    | None => []
    end in
  let '(source_file, line, column) :=
    match position ctx with Some p => (strip_url_for_report (file p), pos_line p, pos_column p) | None => ([], 0, 0) end in
  mkViolation (strip_url_for_report (c_document ctx)) (match c_referrer ctx with Some u => strip_url_for_report u | None => [] end)
    (blocked_text (c_blocked ctx)) (b_effective b) (b_violated b) (serialize p) (disposition p) (c_status ctx) source_file line column sample.

Definition disposition_str (v : Violation) : list byte := match v_disposition v with Enforce => lit "enforce" | Report => lit "report" end.

(** ** JSON *)
Definition DQUOTE : byte := x22.
Definition escape_char (c : list byte) : list byte :=
  if bool_decide (c = [DQUOTE]) then [BACKSLASH; DQUOTE]
  else if bool_decide (c = [BACKSLASH]) then [BACKSLASH; BACKSLASH]
  else if bool_decide (c = [x0a]) then lit "\n"
  else if bool_decide (c = [x0d]) then lit "\r"
  else if bool_decide (c = [x09]) then lit "\t"
  else match c with
       | [b] => if (b2z b <? 0x20) || bool_decide (b = x7f) then lit "\u" ++ hex_fixed 4 (b2z b) else c
       | _ => if bool_decide (c = [xe2; x80; xa8]) then lit "\u2028" else if bool_decide (c = [xe2; x80; xa9]) then lit "\u2029" else c
       end.

(** What is appended to the output. *)
Definition json_escape (s : list byte) : list byte := DQUOTE :: concat (map escape_char (chars s)) ++ [DQUOTE].

Record JsonObject := mkObject { buf : list byte; first : bool }.
Definition new_object : JsonObject := mkObject (lit "{") true.
Definition key (o : JsonObject) (k : list byte) : JsonObject :=
  mkObject ((if first o then buf o else buf o ++ [COMMA]) ++ json_escape k ++ [COLON]) false.
Definition put_str (k v : list byte) (o : JsonObject) : JsonObject := let o := key o k in mkObject (buf o ++ json_escape v) (first o).
Definition put_num (k : list byte) (v : Z) (o : JsonObject) : JsonObject := let o := key o k in mkObject (buf o ++ decimal v) (first o).
Definition finish (o : JsonObject) : list byte := buf o ++ lit "}".

Definition to_report_uri_json (v : Violation) : list byte :=
  let o := new_object in
  let o := put_str (lit "document-uri") (document_url v) o in
  let o := put_str (lit "referrer") (referrer v) o in
  let o := put_str (lit "violated-directive") (v_violated v) o in
  let o := put_str (lit "effective-directive") (v_effective v) o in
  let o := put_str (lit "original-policy") (original_policy v) o in
  let o := put_str (lit "disposition") (disposition_str v) o in
  let o := put_str (lit "blocked-uri") (blocked_url v) o in
  let o := put_num (lit "status-code") (status_code v) o in
  let o := if bool_decide (sample v = []) then o else put_str (lit "script-sample") (sample v) o in
  let o :=
    if bool_decide (source_file v = []) then o
    else put_num (lit "column-number") (column v) (put_num (lit "line-number") (line v) (put_str (lit "source-file") (source_file v) o)) in
  lit "{" ++ json_escape (lit "csp-report") ++ [COLON] ++ finish o ++ lit "}".

Definition to_reporting_api_json (v : Violation) : list byte :=
  let o := new_object in
  let o := put_str (lit "documentURL") (document_url v) o in
  let o := put_str (lit "referrer") (referrer v) o in
  let o := put_str (lit "blockedURL") (blocked_url v) o in
  let o := put_str (lit "effectiveDirective") (v_effective v) o in
  let o := put_str (lit "originalPolicy") (original_policy v) o in
  let o := put_str (lit "disposition") (disposition_str v) o in
  let o := put_num (lit "statusCode") (status_code v) o in
  let o := put_str (lit "sample") (sample v) o in
  let o :=
    if bool_decide (source_file v = []) then o
    else put_num (lit "columnNumber") (column v) (put_num (lit "lineNumber") (line v) (put_str (lit "sourceFile") (source_file v) o)) in
  finish o.

(** * Reports are read back

    A reader of JSON: strings with their escapes, numbers, objects.  The two bodies
    of a report are read back as objects with the fields of the violation, whatever
    the page put in them. *)
(** ** A reader of JSON *)
Definition hex4 (a b c d : byte) : option Z :=
  a ← Ip.digit 16 a; b ← Ip.digit 16 b; c ← Ip.digit 16 c; d ← Ip.digit 16 d; Some (((a * 16 + b) * 16 + c) * 16 + d).
(** A scalar value below 65,536 in UTF-8. *)
Definition utf8_of (v : Z) : list byte :=
  if v <? 0x80 then [z2b v]
  else if v <? 0x800 then [z2b (0xc0 + v / 64); z2b (0x80 + v mod 64)]
  else [z2b (0xe0 + v / 4096); z2b (0x80 + v / 64 mod 64); z2b (0x80 + v mod 64)].

Definition simple_escape (b : byte) : option byte :=
  match b with
  | x22 | x5c | x2f => Some b
  | x62 => Some x08 | x66 => Some x0c | x6e => Some x0a | x72 => Some x0d | x74 => Some x09
  | _ => None
  end.

(** The characters up to the closing quote, and what is after it. *)
Fixpoint json_chars (l : list byte) : option (list byte * list byte) :=
  match l with
  | [] => None
  | b :: t =>
      match b with
      | x22 => Some ([], t)
      | x5c =>
          match t with
          | x75 :: t =>
              match t with
              | h1 :: h2 :: h3 :: h4 :: t => v ← hex4 h1 h2 h3 h4; '(s, r) ← json_chars t; Some (utf8_of v ++ s, r)
              | _ => None
              end
          | e :: t => c ← simple_escape e; '(s, r) ← json_chars t; Some (c :: s, r)
          | [] => None
          end
      | _ => if b2z b <? 0x20 then None else '(s, r) ← json_chars t; Some (b :: s, r)
      end
  end.
Definition json_string (l : list byte) : option (list byte * list byte) := l ← strip_prefix [DQUOTE] l; json_chars l.

Inductive Json := JString (s : list byte) | JNumber (n : Z) | JObject (ms : list (list byte * Json)).

Fixpoint json_value (fuel : nat) (l : list byte) {struct fuel} : option (Json * list byte) :=
  match fuel with
  | O => None
  | S fuel =>
      match l with
      | x22 :: _ => '(s, r) ← json_string l; Some (JString s, r)
      | x7b :: t => '(ms, r) ← json_members fuel t; Some (JObject ms, r)
      | _ => let '(ds, r) := Url.break_at (fun b => negb (is_digit b)) l in
             if bool_decide (ds = []) then None else n ← digits_value 0 ds; Some (JNumber n, r)
      end
  end
with json_members (fuel : nat) (l : list byte) {struct fuel} : option (list (list byte * Json) * list byte) :=
  match fuel with
  | O => None
  | S fuel =>
      '(k, l) ← json_string l; l ← strip_prefix [COLON] l; '(v, l) ← json_value fuel l;
      match l with
      | x2c :: t => '(ms, r) ← json_members fuel t; Some ((k, v) :: ms, r)
      | x7d :: t => Some ([(k, v)], t)
      | _ => None
      end
  end.

(** A text that is one value. *)
Definition json_read (l : list byte) : option Json := match json_value (length l) l with Some (v, []) => Some v | _ => None end.

(** ** Strings *)
(** No continuation byte follows an ASCII byte, which is so in UTF-8. *)
Fixpoint text_ok (l : list byte) : bool :=
  match l with
  | a :: t => match t with b :: _ => negb (is_ascii_byte a && cont b) && text_ok t | [] => true end
  | [] => true
  end.

Lemma cont_not_ascii b : cont b = true -> is_ascii_byte b = false.
Proof. unfold cont, is_ascii_byte, in_range. lia. Qed.

Lemma text_ok_cons a l : is_ascii_byte a = false -> text_ok (a :: l) = text_ok l.
Proof. intros Ha. cbn [text_ok]. destruct l; [done|]. by rewrite Ha. Qed.

Lemma utf8_text_ok l : is_utf8 l = true -> text_ok l = true.
Proof.
  induction l as [l IH] using (induction_ltof1 _ (@length byte)). unfold ltof in IH. assert (forall x l, cont x = true -> text_ok (x :: l) = text_ok l) as Hc.
  { intros x k Hx. by apply text_ok_cons, cont_not_ascii. }
  assert (forall x, is_utf8 (x :: []) = true -> cont x = false) as H1.
  { intros x. unfold cont, in_range. simpl. unfold is_ascii_byte. destruct (_ <? _) eqn:E; [lia|done]. }
  destruct l as [|a l]; [done|]. cbn [is_utf8]. destruct (is_ascii_byte a) eqn:Ea.
  - intros Hl. cbn [text_ok]. destruct l as [|b l]; [done|]. rewrite (IH (b :: l)) by (simpl; done || lia). rewrite Ea. cbn [andb]. rewrite andb_true_r.
    apply negb_true_iff. destruct (cont b) eqn:Eb; [|done]. cbn [is_utf8] in Hl. rewrite (cont_not_ascii b Eb) in Hl. unfold cont, in_range in Eb.
    unfold second3, second4, in_range in Hl. destruct l as [|c l]; [done|]. destruct ((_ && _) && cont c) eqn:E1; [lia|]. destruct l as [|d l]; [done|].
    destruct (_ && cont d) eqn:E2; [lia|]. destruct l as [|e l]; [done|]. lia.
  - rewrite text_ok_cons by done. destruct l as [|b l]; [done|]. destruct (in_range 0xc2 0xdf a && cont b) eqn:E1.
    { intros Hl. apply andb_true_iff in E1 as [_ E1]. rewrite Hc by done. apply IH; [simpl; lia|done]. }
    destruct l as [|c l]; [done|]. destruct (second3 a b && cont c) eqn:E2.
    { intros Hl. apply andb_true_iff in E2 as [E2 E3]. rewrite text_ok_cons, Hc; [apply IH; [simpl; lia|done]|done|]. unfold second3, cont, is_ascii_byte, in_range in *. lia. }
    destruct l as [|d l]; [done|]. intros [[[E3 E4]%andb_true_iff E5]%andb_true_iff Hl]%andb_true_iff. rewrite text_ok_cons, !Hc; [apply IH; [simpl; lia|done]|done|done|].
    unfold second4, cont, is_ascii_byte, in_range in *. lia.
Qed.

(** A character: an ASCII byte, or other bytes. *)
Definition group_ok (c : list byte) : Prop := (exists b, c = [b]) \/ Forall (fun b => is_ascii_byte b = false) c.

Lemma concat_chars l : concat (chars l) = l.
Proof.
  induction l as [|b l IH]; [done|]. cbn [chars]. destruct (chars l) as [|c cs]; [by rewrite <- IH|].
  destruct (match head c with Some b2 => cont b2 | None => false end); by rewrite <- IH.
Qed.

Lemma chars_head l : match chars l with [] => l = [] | c :: _ => c <> [] /\ head c = head l end.
Proof.
  induction l as [|b l IH]; [done|]. cbn [chars]. destruct (chars l) as [|c cs]; [done|]. by destruct (match head c with Some b2 => cont b2 | None => false end).
Qed.

Lemma chars_groups l : text_ok l = true -> Forall group_ok (chars l).
Proof.
  induction l as [|b l IH]; [constructor|]. intros Hl. cbn [text_ok] in Hl. cbn [chars]. pose proof (chars_head l) as Hh.
  assert (Forall group_ok (chars l)) as Hg by (apply IH; destruct l; [done|]; by apply andb_true_iff in Hl as [_ ?]). destruct (chars l) as [|c cs].
  { constructor; [|constructor]. left. by exists b. }
  destruct Hh as [Hne Hh]. apply Forall_cons in Hg as [Hc Hcs]. destruct (match head c with Some b2 => cont b2 | None => false end) eqn:E.
  2: { constructor; [left; by exists b|by constructor]. }
  constructor; [|done]. right. rewrite Hh in E. destruct l as [|x l]; [done|]. cbn [head] in *. rewrite E, andb_true_r in Hl.
  apply andb_true_iff in Hl as [Hb%negb_true_iff _]. constructor; [done|]. destruct Hc as [[y ->]|Hc]; [|done].
  injection Hh as ->. constructor; [|constructor]. by apply cont_not_ascii.
Qed.

(** Puts bytes in front of what was read. *)
Definition prepend (c : list byte) (r : option (list byte * list byte)) : option (list byte * list byte) := '(s, rest) ← r; Some (c ++ s, rest).
Lemma prepend_app a b r : prepend a (prepend b r) = prepend (a ++ b) r.
Proof. destruct r as [[s rest]|]; [|done]. cbn. by rewrite app_assoc. Qed.

Lemma json_chars_plain c l : Forall (fun b => is_ascii_byte b = false) c -> json_chars (c ++ l) = prepend c (json_chars l).
Proof.
  induction 1 as [|b c Hb Hc IH]; [unfold prepend; simpl; by destruct (json_chars l) as [[]|]|]. change ((b :: c) ++ l) with (b :: c ++ l). change (b :: c) with ([b] ++ c). rewrite <- prepend_app, <- IH.
  destruct b; try (by vm_compute in Hb); reflexivity.
Qed.

Lemma escape_read c l : group_ok c -> json_chars (escape_char c ++ l) = prepend c (json_chars l).
Proof.
  intros [[b ->]|Hc]; [destruct b; reflexivity|]. unfold escape_char.
  assert (forall x, is_ascii_byte x = true -> c <> [x]) as Hx by (intros x Hx ->; apply Forall_cons in Hc as [Hc _]; congruence).
  rewrite !bool_decide_eq_false_2 by by apply Hx. destruct c as [|b [|b2 c]]; [by apply (json_chars_plain [])|apply Forall_cons in Hc as [Hc _]|].
  - destruct b; try (by vm_compute in Hc); reflexivity.
  - case_bool_decide as E1; [rewrite E1; reflexivity|]. case_bool_decide as E2; [rewrite E2; reflexivity|]. by apply json_chars_plain.
Qed.

Lemma escape_string_read s rest : text_ok s = true -> json_string (json_escape s ++ rest) = Some (s, rest).
Proof.
  intros Hs%chars_groups. unfold json_string, json_escape. change (strip_prefix [DQUOTE] ((DQUOTE :: ?l) ++ rest)) with (Some (l ++ rest)). cbn [mbind option_bind].
  rewrite <- app_assoc. rewrite <- (concat_chars s) at 2. induction Hs as [|c cs Hc Hcs IH]; [done|]. cbn [map concat].
  rewrite <- app_assoc, escape_read by done. rewrite IH. done.
Qed.

(** ** Objects *)
Definition flat_ok (v : Json) : Prop :=
  match v with JString s => text_ok s = true | JNumber n => 0 <= n <= U64_MAX | JObject _ => False end.
Definition member_ok (m : list byte * Json) : Prop := text_ok m.1 = true /\ flat_ok m.2.

Definition write_flat (v : Json) : list byte := match v with JString s => json_escape s | JNumber n => decimal n | JObject _ => [] end.
Definition write_member (m : list byte * Json) : list byte := json_escape m.1 ++ COLON :: write_flat m.2.

(** What an object under construction holds. *)
Definition built (o : JsonObject) (ms : list (list byte * Json)) : Prop :=
  buf o = lit "{" ++ join_with COMMA (map write_member ms) /\ first o = bool_decide (ms = []).

Lemma built_new : built new_object [].
Proof. done. Qed.

Lemma built_member o ms k v : built o ms -> buf (key o k) ++ write_flat v = lit "{" ++ join_with COMMA (map write_member (ms ++ [(k, v)])).
Proof.
  intros [Hb Hf]. unfold key. cbn [buf]. rewrite Hf. destruct ms as [|m ms].
  - rewrite bool_decide_eq_true_2 by done. rewrite Hb. cbn [map join_with]. rewrite app_nil_r. cbn [app map join_with]. unfold write_member. cbn [fst snd]. by rewrite <- !app_assoc.
  - rewrite bool_decide_eq_false_2 by done. rewrite Hb, map_app. cbn [map]. rewrite join_snoc by done. unfold write_member at 3. cbn [fst snd]. by rewrite <- !app_assoc.
Qed.

Lemma built_str o ms k v : built o ms -> built (put_str k v o) (ms ++ [(k, JString v)]).
Proof. intros H. split; [exact (built_member o ms k (JString v) H)|]. symmetry. apply bool_decide_eq_false. by destruct ms. Qed.
Lemma built_num o ms k v : built o ms -> built (put_num k v o) (ms ++ [(k, JNumber v)]).
Proof. intros H. split; [exact (built_member o ms k (JNumber v) H)|]. symmetry. apply bool_decide_eq_false. by destruct ms. Qed.

Lemma read_digits fuel b t : is_digit b = true -> json_value (S fuel) (b :: t) =
  let '(ds, r) := Url.break_at (fun b => negb (is_digit b)) (b :: t) in if bool_decide (ds = []) then None else n ← digits_value 0 ds; Some (JNumber n, r).
Proof. intros Hb. destruct b; try (by vm_compute in Hb); reflexivity. Qed.

Lemma flat_read fuel v c rest : flat_ok v -> is_digit c = false -> json_value (S fuel) (write_flat v ++ c :: rest) = Some (v, c :: rest).
Proof.
  intros Hv Hc. destruct v as [s|n|]; [| |done]; cbn [write_flat flat_ok] in *.
  - change (json_value (S fuel) (json_escape s ++ c :: rest)) with ('(s, r) ← json_string (json_escape s ++ c :: rest); Some (JString s, r)).
    by rewrite escape_string_read.
  - destruct (decimal_digits n) as [Hd Hne]. pose proof (decimal_value n Hv) as Hval. destruct (decimal n) as [|b ds] eqn:E; [done|].
    cbn [app]. rewrite read_digits by by apply Forall_cons in Hd as [? _]. change (b :: ds ++ c :: rest) with ((b :: ds) ++ c :: rest).
    rewrite break_at_app; [|eapply Forall_impl; [exact Hd|]; intros x Hx; cbv beta; by rewrite Hx|by rewrite Hc].
    rewrite bool_decide_eq_false_2 by done. rewrite Hval. done.
Qed.

Lemma members_read fuel ms rest : ms <> [] -> Forall member_ok ms -> (length ms < fuel)%nat ->
  json_members fuel (join_with COMMA (map write_member ms) ++ x7d :: rest) = Some (ms, rest).
Proof.
  intros Hne Hms. revert fuel Hne. induction Hms as [|[k v] ms [Hk Hv] Hms IH]; [done|]. intros [|[|fuel]] _ Hf; [simpl in Hf; lia..|]. cbn [fst snd] in *.
  assert (forall c l, is_digit c = false -> json_members (S (S fuel)) (write_member (k, v) ++ c :: l) =
    match c :: l with x2c :: t => '(ms, r) ← json_members (S fuel) t; Some ((k, v) :: ms, r) | x7d :: t => Some ([(k, v)], t) | _ => None end) as Hread.
  { intros c l Hc. cbn [json_members]. unfold write_member. cbn [fst snd]. rewrite <- app_assoc, escape_string_read by done. cbn [mbind option_bind].
    change (strip_prefix [COLON] ((COLON :: write_flat v) ++ c :: l)) with (Some (write_flat v ++ c :: l)). cbn [mbind option_bind]. rewrite flat_read by done. done. }
  destruct ms as [|m ms]; [by apply (Hread x7d)|]. cbn [map] in *. rewrite join_with_cons, <- app_assoc. change ((COMMA :: ?x) ++ ?y) with (COMMA :: x ++ y).
  rewrite Hread by done. cbv iota. change COMMA with x2c. cbv iota. rewrite IH by (done || (simpl in *; lia)). done.
Qed.

Lemma object_read fuel o ms rest : built o ms -> ms <> [] -> Forall member_ok ms -> (length ms + 1 < fuel)%nat -> json_value fuel (finish o ++ rest) = Some (JObject ms, rest).
Proof.
  intros [Hb _] Hne Hms Hf. destruct fuel as [|fuel]; [lia|]. unfold finish. rewrite Hb, <- !app_assoc.
  change (json_value (S fuel) (lit "{" ++ ?l)) with ('(ms, r) ← json_members fuel l; Some (JObject ms, r)). change (lit "}" ++ rest) with (x7d :: rest). by rewrite members_read by (done || lia).
Qed.

Lemma members_length ms : (3 * length ms <= length (join_with COMMA (map write_member ms)))%nat.
Proof.
  assert (forall m, (3 <= length (write_member m))%nat) as Hm by (intros m; unfold write_member, json_escape; rewrite length_app; simpl; rewrite length_app; simpl; lia).
  induction ms as [|m [|m2 ms] IH]; [simpl; lia|cbn [map join_with length]; specialize (Hm m); lia|].
  cbn [map] in *. rewrite join_with_cons, length_app. specialize (Hm m). cbn [length] in *. lia.
Qed.

Lemma read_object o ms : built o ms -> ms <> [] -> Forall member_ok ms -> json_read (finish o) = Some (JObject ms).
Proof.
  intros Hb Hne Hms. unfold json_read. pose proof (members_length ms) as Hl. rewrite <- (app_nil_r (finish o)) at 2.
  rewrite (object_read _ o ms []); [done..|]. unfold finish. destruct Hb as [-> _]. rewrite !length_app. change (length (lit "{")) with 1%nat. change (length (lit "}")) with 1%nat.
  destruct ms; [done|]. simpl length in *. lia.
Qed.

Lemma read_wrapped k o ms : text_ok k = true -> built o ms -> ms <> [] -> Forall member_ok ms ->
  json_read (lit "{" ++ json_escape k ++ [COLON] ++ finish o ++ lit "}") = Some (JObject [(k, JObject ms)]).
Proof.
  intros Hk Hb Hne Hms. unfold json_read. set (text := lit "{" ++ _). pose proof (members_length ms) as Hl.
  assert (length ms + 4 < length text)%nat as Hf.
  { unfold text, finish, json_escape. destruct Hb as [-> _]. rewrite !length_app. destruct ms; [done|]. simpl length in *. lia. }
  destruct (length text) as [|[|fuel]]; [lia..|]. unfold text.
  change (json_value (S (S fuel)) (lit "{" ++ ?l)) with ('(ms, r) ← json_members (S fuel) l; Some (JObject ms, r)).
  assert (json_members (S fuel) (json_escape k ++ [COLON] ++ finish o ++ lit "}") = Some ([(k, JObject ms)], [])) as ->; [|done].
  cbn [json_members]. rewrite escape_string_read by done. cbn [mbind option_bind].
  change (strip_prefix [COLON] ([COLON] ++ ?l)) with (Some l). cbn [mbind option_bind]. change (lit "}") with [x7d]. rewrite (object_read fuel o ms [x7d]) by (done || lia). done.
Qed.

(** ** Reports *)
Definition report_uri_fields (v : Violation) : list (list byte * Json) :=
  [(lit "document-uri", JString (document_url v)); (lit "referrer", JString (referrer v)); (lit "violated-directive", JString (v_violated v));
   (lit "effective-directive", JString (v_effective v)); (lit "original-policy", JString (original_policy v)); (lit "disposition", JString (disposition_str v));
   (lit "blocked-uri", JString (blocked_url v)); (lit "status-code", JNumber (status_code v))] ++
  (if bool_decide (sample v = []) then [] else [(lit "script-sample", JString (sample v))]) ++
  (if bool_decide (source_file v = []) then []
   else [(lit "source-file", JString (source_file v)); (lit "line-number", JNumber (line v)); (lit "column-number", JNumber (column v))]).

Definition reporting_api_fields (v : Violation) : list (list byte * Json) :=
  [(lit "documentURL", JString (document_url v)); (lit "referrer", JString (referrer v)); (lit "blockedURL", JString (blocked_url v));
   (lit "effectiveDirective", JString (v_effective v)); (lit "originalPolicy", JString (original_policy v)); (lit "disposition", JString (disposition_str v));
   (lit "statusCode", JNumber (status_code v)); (lit "sample", JString (sample v))] ++
  (if bool_decide (source_file v = []) then []
   else [(lit "sourceFile", JString (source_file v)); (lit "lineNumber", JNumber (line v)); (lit "columnNumber", JNumber (column v))]).

Definition violation_ok (v : Violation) : Prop :=
  Forall (fun s => text_ok s = true) [document_url v; referrer v; blocked_url v; v_effective v; v_violated v; original_policy v; source_file v; sample v] /\
  Forall (fun n => 0 <= n <= U64_MAX) [status_code v; line v; column v].

Lemma built_eq o ms ms' : built o ms -> ms = ms' -> built o ms'.
Proof. by intros ? <-. Qed.
Ltac object_built := eapply built_eq; [repeat (eapply built_str || eapply built_num); exact built_new|reflexivity].

Lemma disposition_text v : text_ok (disposition_str v) = true.
Proof. unfold disposition_str. by destruct (v_disposition v). Qed.

Ltac members_ok := repeat (constructor; [split; [reflexivity|first [done|apply disposition_text]]|]); constructor.

Lemma report_uri_reads v : violation_ok v -> json_read (to_report_uri_json v) = Some (JObject [(lit "csp-report", JObject (report_uri_fields v))]).
Proof.
  intros [Hs Hn]. repeat (apply Forall_cons in Hs as [? Hs]). repeat (apply Forall_cons in Hn as [? Hn]). unfold to_report_uri_json. cbv zeta. apply read_wrapped; [done| |done|].
  - unfold report_uri_fields. destruct (bool_decide (sample v = [])), (bool_decide (source_file v = [])); object_built.
  - unfold report_uri_fields. rewrite !Forall_app. split_and!; [members_ok| |]; case_bool_decide; members_ok.
Qed.

Lemma reporting_api_reads v : violation_ok v -> json_read (to_reporting_api_json v) = Some (JObject (reporting_api_fields v)).
Proof.
  intros [Hs Hn]. repeat (apply Forall_cons in Hs as [? Hs]). repeat (apply Forall_cons in Hn as [? Hn]). unfold to_reporting_api_json. cbv zeta. apply read_object; [|done|].
  - unfold reporting_api_fields. destruct (bool_decide (source_file v = [])); object_built.
  - unfold reporting_api_fields. rewrite Forall_app. split; [members_ok|]. case_bool_decide; members_ok.
Qed.

(** *** The record of a violation *)
Lemma ascii_text_ok l : is_ascii l = true -> text_ok l = true.
Proof. intros H. by apply utf8_text_ok, ascii_is_utf8. Qed.
Lemma visible_text_ok l : Forall (fun b => visible b = true) l -> text_ok l = true.
Proof. intros H. apply ascii_text_ok, forallb_true. eapply Forall_impl; [exact H|]. intros b. unfold visible, is_ascii_byte. cbv beta. lia. Qed.

Lemma scheme_visible sc : scheme_ok sc -> Forall (fun b => visible b = true) sc.
Proof. intros Hsc%scheme_ok_all. eapply Forall_impl; [exact Hsc|]. intros b Hb. destruct b; try (by vm_compute in Hb); done. Qed.

Lemma stripped_text u : canonical u -> text_ok (strip_url_for_report u) = true.
Proof.
  intros [Hu _]. apply visible_text_ok. unfold strip_url_for_report. case_bool_decide; [|by apply well_formed_visible]. unfold well_formed in Hu.
  destruct (host u); [apply scheme_visible, special_scheme_ok|apply scheme_visible]; tauto.
Qed.

Lemma prefix_text_ok a b : text_ok (a ++ b) = true -> text_ok a = true.
Proof.
  induction a as [|x a IH]; [done|]. cbn [app text_ok]. destruct a as [|y a]; [done|]. cbn [app] in *. intros [-> Hb]%andb_true_iff. by rewrite IH.
Qed.

Lemma sample_text n s : text_ok s = true -> text_ok (concat (take n (chars s))) = true.
Proof. intros Hs. apply (prefix_text_ok _ (concat (drop n (chars s)))). by rewrite <- concat_app, take_drop, concat_chars. Qed.

Lemma policy_text p : policy_ok p -> text_ok (serialize p) = true.
Proof.
  intros (H1 & _ & _). apply ascii_text_ok, forallb_true. unfold serialize. apply join_str_Forall; [by repeat constructor|]. apply Forall_map.
  eapply Forall_impl; [exact H1|]. intros d Hd. apply written_ascii in Hd as [Ha _]. by apply forallb_true in Ha.
Qed.

Lemma blocked_text_ok b : match b with BUrl u | UrlAfterCrossOriginRedirect u => canonical u | _ => True end -> text_ok (blocked_text b) = true.
Proof.
  destruct b as [u|u| | |]; intros Hu; try done; [by apply stripped_text|]. apply visible_text_ok. unfold blocked_text, origin. destruct Hu as [Hu _]. unfold well_formed in Hu.
  assert (forall sc, is_special_scheme sc = true -> Forall (fun b => visible b = true) sc) as Hsp by (intros sc Hs; by apply scheme_visible, special_scheme_ok).
  destruct (host u) as [h|]; [|apply scheme_visible; tauto]. destruct Hu as (H1 & [H2 _]%host_shape & _). rewrite H1. destruct (effective_port u) as [q|]; [|by apply Hsp].
  assert (Forall (fun b => visible b = true) (scheme u ++ lit "://" ++ h)) as H.
  { rewrite !Forall_app. split_and!; [by apply Hsp|by repeat constructor|]. eapply Forall_impl; [exact H2|]. by intros b (? & _). }
  case_bool_decide; [done|]. rewrite !app_assoc. rewrite !Forall_app in H. rewrite !Forall_app. split; [tauto|]. constructor; [done|]. eapply Forall_impl; [apply decimal_digits|].
  intros b. unfold is_digit, visible, in_range. cbv beta. lia.
Qed.

(** What a report is about: URLs that were parsed, text that is UTF-8. *)
Definition context_ok (ctx : ViolationContext) : Prop :=
  canonical (c_document ctx) /\ match c_referrer ctx with Some u => canonical u | None => True end /\
  match c_blocked ctx with BUrl u | UrlAfterCrossOriginRedirect u => canonical u | _ => True end /\ 0 <= c_status ctx <= U16_MAX /\
  match position ctx with Some p => canonical (file p) /\ 0 <= pos_line p <= U32_MAX /\ 0 <= pos_column p <= U32_MAX | None => True end /\
  match c_sample ctx with Some s => is_utf8 s = true | None => True end.

Lemma violation_is_ok p b ctx : policy_ok p -> is_ascii (b_effective b) = true -> is_ascii (b_violated b) = true -> context_ok ctx -> violation_ok (new_violation p b ctx).
Proof.
  intros Hp He Hv (H1 & H2 & H3 & H4 & H5 & H6). unfold new_violation. cbv zeta.
  assert (text_ok (match c_sample ctx with Some s => if wants_sample p (b_violated b) then concat (take MAX_SAMPLE_CHARS (chars s)) else [] | None => [] end) = true) as Hs.
  { destruct (c_sample ctx) as [s|]; [|done]. destruct (wants_sample _ _); [|done]. by apply sample_text, utf8_text_ok. }
  destruct (position ctx) as [q|]; [destruct H5 as (H5 & H7 & H8)|]; (split; cbn [document_url referrer blocked_url v_effective v_violated original_policy source_file sample status_code line column]).
  all: repeat (apply Forall_cons; split); try (unfold U16_MAX, U32_MAX, U64_MAX in *; lia); try by apply Forall_nil.
  all: try (by apply stripped_text); try (by apply blocked_text_ok); try (by apply ascii_text_ok); try (by apply policy_text); try done.
  all: destruct (c_referrer ctx); [by apply stripped_text|done].
Qed.

Lemma chars_take n l : chars (concat (take n (chars l))) = take n (chars l).
Proof.
  revert n. induction l as [|b l IH]; intros n; [by destruct n|]. cbn [chars]. destruct (chars l) as [|c cs] eqn:E; [by destruct n as [|[|n]]|].
  destruct (match head c with Some b2 => cont b2 | None => false end) eqn:Eh; destruct n as [|n]; try done.
  - specialize (IH (S n)). cbn [take concat app] in *. cbn [chars]. rewrite IH, Eh. done.
  - specialize (IH n). cbn [take concat app]. cbn [chars]. rewrite IH. destruct n as [|n]; [done|]. cbn [take]. by rewrite Eh.
Qed.

Lemma sample_spec p b ctx : sample (new_violation p b ctx) = [] \/
  wants_sample p (b_violated b) = true /\ exists s rest, c_sample ctx = Some s /\ s = sample (new_violation p b ctx) ++ rest /\
    (length (chars (sample (new_violation p b ctx))) <= 40)%nat.
Proof.
  assert (sample (new_violation p b ctx) = match c_sample ctx with Some s => if wants_sample p (b_violated b) then concat (take MAX_SAMPLE_CHARS (chars s)) else [] | None => [] end) as ->.
  { unfold new_violation. by destruct (position ctx). }
  destruct (c_sample ctx) as [s|]; [|by left]. destruct (wants_sample _ _); [|by left]. right. split; [done|]. exists s, (concat (drop MAX_SAMPLE_CHARS (chars s))).
  split_and!; [done| |].
  - by rewrite <- concat_app, take_drop, concat_chars.
  - rewrite chars_take, length_take. unfold MAX_SAMPLE_CHARS. lia.
Qed.

(** Both bodies of a report are JSON, and say what the violation says and
    nothing else, whatever text the page, its URLs and its policy hold; the sample
    has at most forty characters from the front of what was blocked, and is empty
    unless the violated directive asks for it. *)
Theorem reports_read_back p b ctx : policy_ok p -> is_ascii (b_effective b) = true -> is_ascii (b_violated b) = true -> context_ok ctx ->
  json_read (to_report_uri_json (new_violation p b ctx)) = Some (JObject [(lit "csp-report", JObject (report_uri_fields (new_violation p b ctx)))]) /\
  json_read (to_reporting_api_json (new_violation p b ctx)) = Some (JObject (reporting_api_fields (new_violation p b ctx))) /\
  (sample (new_violation p b ctx) = [] \/ wants_sample p (b_violated b) = true /\ exists s rest, c_sample ctx = Some s /\
    s = sample (new_violation p b ctx) ++ rest /\ (length (chars (sample (new_violation p b ctx))) <= 40)%nat).
Proof.
  intros Hp He Hv Hc. pose proof (violation_is_ok p b ctx Hp He Hv Hc) as Hok.
  split_and!; [by apply report_uri_reads|by apply reporting_api_reads|apply sample_spec].
Qed.

(** A page that tries to break out of the report. *)
Definition hostile_sample : list byte := lit "x\" ++ [x22; x2c; x22; x0a; x01; xe2; x80; xa8; xf0; x9f; x98; x80].
Definition sample_policy : Policy := mkPolicy [mkDirective (lit "script-src") [lit "'report-sample'"; x22 :: lit "}"]] Enforce Header.
Definition sample_url : CspUrl := mkCspUrl (lit "https") (Some (lit "a.example")) (Some 8443) (lit "/p").
Definition sample_context : ViolationContext :=
  mkContext sample_url None BInline 200 (Some (mkPosition sample_url 3 9)) (Some hostile_sample).
Lemma reports_read_back_witness :
  let b := mkBlocked (lit "script-src-elem") (lit "script-src") in
  exists fields, json_read (to_report_uri_json (new_violation sample_policy b sample_context)) = Some (JObject [(lit "csp-report", JObject fields)]) /\
    (lit "script-sample", JString hostile_sample) ∈ fields /\ (lit "document-uri", JString (lit "https://a.example:8443/p")) ∈ fields.
Proof.
  assert (canonical sample_url) as Hu.
  { split; [|done]. unfold well_formed, sample_url. cbn [scheme host CspUrl.port path]. split_and!; [done..|]. split; [by repeat constructor|].
    exists [lit "p"]. split_and!; [done|by repeat constructor| |done]. apply Forall_singleton. by apply (bool_decide_unpack _); vm_compute. }
  cbv zeta. eexists. split.
  - apply (reports_read_back sample_policy (mkBlocked (lit "script-src-elem") (lit "script-src")) sample_context); [|done|done|].
    + split_and!; cbn [directives sample_policy map]; [|apply NoDup_singleton|by vm_compute]. apply Forall_singleton. split; [done|]. split; [by repeat constructor|].
      repeat (constructor; [split; [done|by repeat constructor]|]). constructor.
    + split_and!; try done.
  - split; [do 8 right; left; by vm_compute|left; by vm_compute].
Defined.
