(* ===== verification/FrameTree.v ===== *)
(** * The broker's frame tree (px-broker/src/lib.rs, [FrameTree])

    Generational slots with parents, depth, a browsing-context group, a
    committed origin and an owner.  Sets of slot indices are [gset nat]. *)
From stdpp Require Export countable gmap fin_maps gmap.
From S2P Require Import Prelude Bytes Keys WebUrl WebOrigin.
Local Open Scope Z_scope.

Definition ChannelId := Z.
Definition GroupId := Z.

(** [px_ipc::FrameId]. *)
Record FrameId := mkFrameId { index : Z; generation : Z }.

#[export] Instance FrameId_eq_dec : EqDecision FrameId.
Proof. solve_decision. Defined.
#[export] Instance FrameId_countable : Countable FrameId.
Proof. refine (inj_countable' (fun f => (index f, generation f)) (fun p => mkFrameId p.1 p.2) _). by intros []. Defined.

Definition MAX_FRAME_DEPTH : Z := 8.
Definition MAX_CHILDREN_PER_FRAME : nat := 256.

Inductive FrameState := Live | Crashed.
Inductive Lifecycle := LFree | LLive | LCrashed.
Inductive TreeError := Full | NoParent | TreeTooDeep | TooManyChildren | OrdinalTaken.

#[export] Instance Lifecycle_eq_dec : EqDecision Lifecycle.
Proof. solve_decision. Defined.
#[export] Instance FrameState_eq_dec : EqDecision FrameState.
Proof. solve_decision. Defined.

Record FrameSlot := mkSlot {
  s_generation : Z;
  s_owner : option ChannelId;
  s_retired : bool;
  s_lifecycle : Lifecycle;
  s_parent : option FrameId;
  s_depth : Z;
  s_ordinal : option Z;
  s_group : GroupId;
  s_origin : option WOrigin.t
}.

Definition set_owner (o : option ChannelId) (s : FrameSlot) : FrameSlot :=
  mkSlot (s_generation s) o (s_retired s) (s_lifecycle s) (s_parent s) (s_depth s) (s_ordinal s) (s_group s) (s_origin s).
Definition set_origin (o : option WOrigin.t) (s : FrameSlot) : FrameSlot :=
  mkSlot (s_generation s) (s_owner s) (s_retired s) (s_lifecycle s) (s_parent s) (s_depth s) (s_ordinal s) (s_group s) o.
Definition set_retired (s : FrameSlot) : FrameSlot :=
  mkSlot (s_generation s) (s_owner s) true (s_lifecycle s) (s_parent s) (s_depth s) (s_ordinal s) (s_group s) (s_origin s).
Definition set_crashed (s : FrameSlot) : FrameSlot :=
  mkSlot (s_generation s) None (s_retired s) LCrashed (s_parent s) (s_depth s) (s_ordinal s) (s_group s) (s_origin s).
Definition set_free (s : FrameSlot) : FrameSlot :=
  mkSlot (s_generation s) None (s_retired s) LFree None (s_depth s) None (s_group s) None.

Definition is_free (s : FrameSlot) : bool := bool_decide (s_lifecycle s = LFree).
Definition is_live (s : FrameSlot) : bool := bool_decide (s_lifecycle s = LLive).

Module FrameTree.
Record t := mkTree { slots : list FrameSlot; next_group : Z }.

Definition new : t := mkTree [] 0.

(** The slot index of a handle that names a slot in use at its generation. *)
Definition resolve (l : list FrameSlot) (frame : FrameId) : option nat :=
  n ← try_from USIZE_MAX (index frame);
  let i := Z.to_nat n in
  s ← l !! i;
  if negb (s_generation s =? generation frame) || is_free s then None else Some i.

Definition slot (tr : t) (frame : FrameId) : option FrameSlot := i ← resolve (slots tr) frame; slots tr !! i.

Definition owner (tr : t) (frame : FrameId) : option ChannelId := s ← slot tr frame; s_owner s.
Definition state (tr : t) (frame : FrameId) : option FrameState :=
  s ← slot tr frame;
  match s_lifecycle s with LLive => Some Live | LCrashed => Some Crashed | LFree => None end.
Definition parent (tr : t) (frame : FrameId) : option FrameId := s ← slot tr frame; s_parent s.
Definition depth (tr : t) (frame : FrameId) : option Z := s_depth <$> slot tr frame.
Definition group (tr : t) (frame : FrameId) : option GroupId := s_group <$> slot tr frame.
Definition origin (tr : t) (frame : FrameId) : option WOrigin.t := s ← slot tr frame; s_origin s.
Definition exists_frame (tr : t) (frame : FrameId) : bool := bool_decide (is_Some (resolve (slots tr) frame)).

(** The loop over the slots: the free ones whose generation is spent are
    retired on the way to the first that can be used again. *)
Fixpoint reuse (mk : Z -> FrameSlot) (i : nat) (l : list FrameSlot) : list FrameSlot * option (option FrameId) :=
  match l with
  | [] => ([], None)
  | s :: l' =>
      if is_free s && negb (s_retired s) then
        match checked_add U32_MAX (s_generation s) 1 with
        | Some next =>
            match try_from U32_MAX (Z.of_nat i) with
            | Some ix => (mk next :: l', Some (Some (mkFrameId ix next)))
            | None => (l, Some None)
            end
        | None => let '(l', r) := reuse mk (S i) l' in (set_retired s :: l', r)
        end
      else let '(l', r) := reuse mk (S i) l' in (s :: l', r)
  end.

Definition alloc (l : list FrameSlot) (owner : ChannelId) (parent : option FrameId) (depth : Z) (ordinal : option Z) (group : GroupId)
  : list FrameSlot * option FrameId :=
  let mk g := mkSlot g (Some owner) false LLive parent depth ordinal group None in
  match reuse mk 0 l with
  | (l, Some r) => (l, r)
  | (l, None) =>
      match try_from U32_MAX (Z.of_nat (length l)) with
      | Some ix => (l ++ [mk 0], Some (mkFrameId ix 0))
      | None => (l, None)
      end
  end.

Definition create (owner : ChannelId) (tr : t) : t * option FrameId :=
  let group := next_group tr in
  match checked_add U64_MAX (next_group tr) 1 with
  | None => (tr, None)
  | Some next =>
      match alloc (slots tr) owner None 0 None group with
      | (l, Some frame) => (mkTree l next, Some frame)
      | (l, None) => (mkTree l (next_group tr), None)
      end
  end.

Definition is_child (parent : FrameId) (s : FrameSlot) : bool := negb (is_free s) && bool_decide (s_parent s = Some parent).

Definition create_child (owner : ChannelId) (parent : FrameId) (ordinal : Z) (tr : t) : t * result TreeError FrameId :=
  match slot tr parent with
  | None => (tr, Err NoParent)
  | Some s =>
      if negb (is_live s) || negb (bool_decide (s_owner s = Some owner)) then (tr, Err NoParent)
      else
        match checked_add 255 (s_depth s) 1 with
        | None => (tr, Err TreeTooDeep)
        | Some depth =>
            if MAX_FRAME_DEPTH <? depth then (tr, Err TreeTooDeep)
            else
              let children := List.filter (is_child parent) (slots tr) in
              if existsb (fun s => bool_decide (s_ordinal s = Some ordinal)) children then (tr, Err OrdinalTaken)
              else if (MAX_CHILDREN_PER_FRAME <=? length children)%nat then (tr, Err TooManyChildren)
              else let '(l, r) := alloc (slots tr) owner (Some parent) depth (Some ordinal) (s_group s) in
                   (mkTree l (next_group tr), ok_or r Full)
        end
  end.

(** ** Walks to the root *)
(** [is_ancestor]: at most one step more than the greatest depth. *)
Fixpoint ancestor_loop (fuel : nat) (tr : t) (ancestor at_ : FrameId) : bool :=
  match fuel with
  | O => false
  | S fuel =>
      match parent tr at_ with
      | Some p => if bool_decide (p = ancestor) then bool_decide (is_Some (state tr ancestor)) else ancestor_loop fuel tr ancestor p
      | None => false
      end
  end.
Definition STEPS : nat := 9.
Definition is_ancestor (ancestor frame : FrameId) (tr : t) : bool := ancestor_loop STEPS tr ancestor frame.

Fixpoint root_loop (fuel : nat) (tr : t) (root : FrameId) : FrameId :=
  match fuel with
  | O => root
  | S fuel => match parent tr root with Some p => root_loop fuel tr p | None => root end
  end.

Definition update_slot (tr : t) (frame : FrameId) (cond : FrameSlot -> bool) (f : FrameSlot -> FrameSlot) : t * bool :=
  match resolve (slots tr) frame with
  | Some i =>
      match slots tr !! i with
      | Some s => if cond s then (mkTree (<[i := f s]> (slots tr)) (next_group tr), true) else (tr, false)
      | None => (tr, false)
      end
  | None => (tr, false)
  end.

Definition commit_origin (frame : FrameId) (o : WOrigin.t) (tr : t) : t * bool := update_slot tr frame is_live (set_origin (Some o)).

Definition transfer (frame : FrameId) (from to : ChannelId) (tr : t) : t * bool :=
  update_slot tr frame (fun s => is_live s && bool_decide (s_owner s = Some from)) (set_owner (Some to)).

(** ** Descendants *)
Definition owned_by (l : list FrameSlot) (channel : ChannelId) : gset nat :=
  list_to_set (List.filter (fun i => match l !! i with Some s => is_live s && bool_decide (s_owner s = Some channel) | None => false end) (seq 0 (length l))).

(** Whether the pass takes slot [i]. *)
Definition joins (l : list FrameSlot) (seed found : gset nat) (i : nat) : bool :=
  match l !! i with
  | Some s =>
      negb (is_free s) && negb (bool_decide (i ∈ found)) &&
      match (p ← s_parent s; resolve l p) with
      | Some pi => bool_decide (pi ∈ seed) || bool_decide (pi ∈ found)
      | None => false
      end
  | None => false
  end.

Definition pass_step (l : list FrameSlot) (seed : gset nat) (st : gset nat * bool) (i : nat) : gset nat * bool :=
  if joins l seed st.1 i then ({[i]} ∪ st.1, true) else st.

Definition pass (l : list FrameSlot) (seed found : gset nat) : gset nat * bool :=
  foldl (pass_step l seed) (found, false) (seq 0 (length l)).

Fixpoint descend (fuel : nat) (l : list FrameSlot) (seed found : gset nat) : gset nat :=
  match fuel with
  | O => found
  | S fuel => let '(found, grew) := pass l seed found in if grew then descend fuel l seed found else found
  end.

(** Every growing pass takes at least one slot. *)
Definition descendants (l : list FrameSlot) (seed : gset nat) : gset nat := descend (S (length l)) l seed ∅.

Definition free_indices (indices : gset nat) (l : list FrameSlot) : list FrameSlot :=
  imap (fun i s => if bool_decide (i ∈ indices) then set_free s else s) l.

Definition free_with_descendants (roots : gset nat) (l : list FrameSlot) : list FrameSlot :=
  free_indices (descendants l roots ∪ roots) l.

Definition destroy (owner : ChannelId) (frame : FrameId) (tr : t) : t * bool :=
  match resolve (slots tr) frame with
  | Some i =>
      match slots tr !! i with
      | Some s =>
          if is_live s && bool_decide (s_owner s = Some owner) then (mkTree (free_with_descendants {[i]} (slots tr)) (next_group tr), true)
          else (tr, false)
      | None => (tr, false)
      end
  | None => (tr, false)
  end.

Definition release_all (channel : ChannelId) (tr : t) : t :=
  mkTree (free_with_descendants (owned_by (slots tr) channel) (slots tr)) (next_group tr).

(** The loop over the roots that are not doomed; [i] counts the slots. *)
Definition crash_one (channel : ChannelId) (st : list FrameSlot * list (ChannelId * FrameId)) (i : nat) : list FrameSlot * list (ChannelId * FrameId) :=
  let '(l, notices) := st in
  let parent_owner :=
    s ← l !! i;
    p ← s_parent s;
    o ← owner (mkTree l 0) p;
    if bool_decide (o = channel) then None else Some o in
  match l !! i with
  | None => (l, notices)
  | Some s =>
      match try_from U32_MAX (Z.of_nat i) with
      | None => (l, notices)
      | Some ix =>
          (<[i := set_crashed s]> l,
           notices ++ match parent_owner with Some o => [(o, mkFrameId ix (s_generation s))] | None => [] end)
      end
  end.

(** [sort_by_key] on the owner and the slot index. *)
Fixpoint insert_notice (n : ChannelId * FrameId) (l : list (ChannelId * FrameId)) : list (ChannelId * FrameId) :=
  match l with
  | [] => [n]
  | m :: l' => if (n.1 <? m.1) || ((n.1 =? m.1) && (index n.2 <? index m.2)) then n :: l else m :: insert_notice n l'
  end.
Definition sort_notices (l : list (ChannelId * FrameId)) : list (ChannelId * FrameId) := foldl (fun l n => insert_notice n l) [] l.

Definition crash_channel (channel : ChannelId) (tr : t) : t * list (ChannelId * FrameId) :=
  let l := slots tr in
  let roots := owned_by l channel in
  let doomed := descendants l roots in
  let '(l', notices) := foldl (crash_one channel) (l, []) (List.filter (fun i => bool_decide (i ∈ roots ∖ doomed)) (seq 0 (length l))) in
  (mkTree (free_indices doomed l') (next_group tr), sort_notices notices).
End FrameTree.

(** * The frame tree: its invariant

    Handles and slots, the closure the tree computes before it frees frames, and
    the well-formedness every operation keeps. *)
Import FrameTree.
Local Open Scope Z_scope.

(** ** Handles *)
Definition id_of (i : nat) (s : FrameSlot) : FrameId := mkFrameId (Z.of_nat i) (s_generation s).

(** The handle names slot [i], in use. *)
Definition at_slot (l : list FrameSlot) (f : FrameId) (i : nat) (s : FrameSlot) : Prop :=
  l !! i = Some s /\ is_free s = false /\ f = id_of i s.

Definition small (l : list FrameSlot) : Prop := len l <= U32_MAX + 1.

Lemma resolve_Some l f i : small l -> resolve l f = Some i <-> exists s, at_slot l f i s.
Proof.
  intros Hl. unfold resolve, at_slot, id_of, try_from. split.
  - intros (n & Hn & (s & Hs & H)%bind_Some)%bind_Some. destruct (decide _); [|done]. injection Hn as <-.
    destruct (negb _ || _) eqn:E; [done|]. injection H as <-. apply orb_false_iff in E as [E1 E2].
    apply negb_false_iff, Z.eqb_eq in E1. exists s. split_and!; [done|done|]. destruct f as [ix g]. simpl in *. subst g. f_equal. lia.
  - intros (s & Hs & Hf & ->). simpl. assert (Z.of_nat i <= USIZE_MAX) as Hi.
    { apply lookup_lt_Some in Hs. unfold small, len in Hl. unfold U32_MAX, USIZE_MAX in *. lia. }
    rewrite decide_True by lia. cbn [mbind option_bind]. rewrite Nat2Z.id, Hs. cbn [mbind option_bind]. by rewrite Z.eqb_refl, Hf.
Qed.

Lemma slot_Some tr f s : small (slots tr) -> slot tr f = Some s <-> exists i, at_slot (slots tr) f i s.
Proof.
  intros Hl. unfold slot. rewrite bind_Some. setoid_rewrite (resolve_Some _ _ _ Hl). split.
  - intros (i & (s' & H & Hf & E) & Hs). exists i. rewrite H in Hs. injection Hs as <-. by split.
  - intros (i & H). exists i. split; [by exists s|apply H].
Qed.

Lemma at_slot_inj l f i j s s' : at_slot l f i s -> at_slot l f j s' -> i = j /\ s = s'.
Proof.
  intros (H1 & _ & ->) (H2 & _ & E). unfold id_of in E. injection E as E _. assert (i = j) as <- by lia. split; [done|congruence].
Qed.

(** ** Descendants *)
(** The slot whose document embeds slot [i]. *)
Definition embeds (l : list FrameSlot) (pi i : nat) : Prop :=
  exists s p, l !! i = Some s /\ is_free s = false /\ s_parent s = Some p /\ resolve l p = Some pi.

Inductive under (l : list FrameSlot) (seed : gset nat) : nat -> Prop :=
| under_root pi i : pi ∈ seed -> embeds l pi i -> under l seed i
| under_step pi i : under l seed pi -> embeds l pi i -> under l seed i.

Lemma joins_true l seed found i :
  joins l seed found i = true <-> (i ∉ found) /\ exists pi, embeds l pi i /\ (pi ∈ seed \/ pi ∈ found).
Proof.
  unfold joins, embeds. destruct (l !! i) as [s|]; [|split; [done|intros (_ & pi & (s & p & ? & _) & _); done]].
  rewrite !andb_true_iff, !negb_true_iff, bool_decide_eq_false. split.
  - intros [[Hf Hi] H]. split; [done|]. destruct (p ← s_parent s; resolve l p) as [pi|] eqn:E; [|done].
    apply bind_Some in E as (p & Hp & Hr). exists pi. split; [by exists s, p|]. by rewrite orb_true_iff, !bool_decide_eq_true in H.
  - intros (Hi & pi & (s' & p & E & Hf & Hp & Hr) & Hor). injection E as <-. split; [by split|]. rewrite Hp. cbn [mbind option_bind]. rewrite Hr.
    by rewrite orb_true_iff, !bool_decide_eq_true.
Qed.

Section pass.
Context (l : list FrameSlot) (seed : gset nat).

Lemma pass_fold ixs found grew :
  let '(found', grew') := foldl (pass_step l seed) (found, grew) ixs in
  found ⊆ found' /\ (forall i, i ∈ found' -> i ∈ found \/ i ∈ ixs) /\
  ((forall i, i ∈ found -> under l seed i) -> forall i, i ∈ found' -> under l seed i) /\
  (grew' = false -> grew = false /\ found' = found /\ forall i, i ∈ ixs -> joins l seed found i = false) /\
  (grew' = true -> grew = true \/ (size found < size found')%nat).
Proof.
  revert found grew. induction ixs as [|i ixs IH]; intros found grew; cbn [foldl].
  { split_and!; [done|by left|done|intros ->; split_and!; [done|done|by intros i Hi%elem_of_nil]|by left]. }
  unfold pass_step at 2. cbn [fst]. destruct (joins l seed found i) eqn:Ej.
  - specialize (IH ({[i]} ∪ found) true). destruct (foldl (pass_step l seed) _ ixs) as [found' grew']. destruct IH as (H1 & H2 & H3 & H4 & H5).
    apply joins_true in Ej as (Hi & pi & Hpi & Hor). split_and!.
    + set_solver.
    + intros j Hj. destruct (H2 j Hj) as [[->%elem_of_singleton|Hj']%elem_of_union|Hj']; [right; by left|by left|right; by right].
    + intros Hu. apply H3. intros j [->%elem_of_singleton|Hj]%elem_of_union; [|by apply Hu].
      destruct Hor as [Hs|Hf]; [by eapply under_root|eapply under_step; [by apply Hu|done]].
    + intros E. by destruct (H4 E).
    + intros _. right. apply subseteq_size in H1. rewrite size_union in H1 by set_solver. rewrite size_singleton in H1. lia.
  - specialize (IH found grew). destruct (foldl (pass_step l seed) _ ixs) as [found' grew']. destruct IH as (H1 & H2 & H3 & H4 & H5). split_and!.
    + done.
    + intros j Hj. destruct (H2 j Hj) as [Hj'|Hj']; [by left|right; by right].
    + done.
    + intros E. destruct (H4 E) as (E1 & E2 & E3). split_and!; [done|done|]. intros j [->|Hj]%elem_of_cons; [done|by apply E3].
    + done.
Qed.

Lemma descend_spec fuel found :
  (forall i, i ∈ found -> under l seed i) -> (forall i, i ∈ found -> (i < length l)%nat) -> (length l < fuel + size found)%nat ->
  let d := descend fuel l seed found in
  (forall i, i ∈ d -> under l seed i) /\ (forall i, joins l seed d i = false).
Proof.
  assert (forall s : gset nat, (forall i, i ∈ s -> (i < length l)%nat) -> (size s <= length l)%nat) as Hsize.
  { intros s Hs. transitivity (size (list_to_set (seq 0 (length l)) : gset nat)).
    - apply subseteq_size. intros i Hi. apply elem_of_list_to_set, elem_of_seq. specialize (Hs i Hi). lia.
    - rewrite size_list_to_set by apply NoDup_seq. by rewrite length_seq. }
  revert found. induction fuel as [|fuel IH]; intros found Hu Hr Hf.
  { specialize (Hsize found Hr). lia. }
  cbn [descend]. unfold pass. pose proof (pass_fold (seq 0 (length l)) found false) as Hp.
  destruct (foldl (pass_step l seed) (found, false) (seq 0 (length l))) as [found' grew']. destruct Hp as (H1 & H2 & H3 & H4 & H5). destruct grew'.
  - destruct (H5 eq_refl) as [?|Hs]; [done|]. apply IH; [by apply H3| |lia].
    intros i Hi. destruct (H2 i Hi) as [Hi'|Hi']; [by apply Hr|]. apply elem_of_seq in Hi'. lia.
  - destruct (H4 eq_refl) as (_ & -> & Hj). split; [done|]. intros i. destruct (decide (i < length l)%nat) as [Hi|Hi].
    + apply Hj, elem_of_seq. lia.
    + unfold joins. by rewrite lookup_ge_None_2 by lia.
Qed.

(** The descendants are exactly the slots under the seed. *)
Lemma descendants_spec i : i ∈ descendants l seed <-> under l seed i.
Proof.
  destruct (descend_spec (S (length l)) ∅) as [H1 H2]; [set_solver|set_solver|rewrite size_empty; lia|].
  split; [apply H1|]. assert (forall pi j, pi ∈ seed \/ pi ∈ descendants l seed -> embeds l pi j -> j ∈ descendants l seed) as Hstep.
  { intros pi j Hpi He. destruct (decide (j ∈ descendants l seed)) as [?|Hn]; [done|]. exfalso.
    specialize (H2 j). apply not_true_iff_false in H2. apply H2, joins_true. split; [done|]. by exists pi. }
  induction 1 as [pi j Hs He|pi j _ IH He]; [by eapply Hstep; [left|]|by eapply Hstep; [right|]].
Qed.

Lemma descendants_closed pi i : pi ∈ seed ∪ descendants l seed -> embeds l pi i -> i ∈ descendants l seed.
Proof.
  intros Hpi He. apply descendants_spec. apply elem_of_union in Hpi as [Hs|Hd]; [by eapply under_root|].
  eapply under_step; [by apply descendants_spec|done].
Qed.
End pass.

(** ** Well-formed trees *)
Definition slot_shape (s : FrameSlot) : Prop :=
  0 <= s_generation s <= U32_MAX /\
  match s_lifecycle s with
  | LFree => s_owner s = None /\ s_parent s = None
  | LLive => is_Some (s_owner s)
  | LCrashed => s_owner s = None
  end.

(** The frame is at the top, or embedded in a live frame one level up, of the
    same group. *)
Definition embedded (l : list FrameSlot) (s : FrameSlot) : Prop :=
  0 <= s_depth s <= MAX_FRAME_DEPTH /\
  match s_parent s with
  | None => s_depth s = 0
  | Some p => exists j sp, at_slot l p j sp /\ is_live sp = true /\ s_depth s = s_depth sp + 1 /\ s_group s = s_group sp
  end.

(** Two frames in use that are told apart by nothing are the same. *)
Definition siblings_differ (s s' : FrameSlot) : Prop :=
  match s_parent s with
  | None => s_group s <> s_group s'
  | Some _ => s_ordinal s <> s_ordinal s'
  end.

Record tree_ok (l : list FrameSlot) (ng : Z) : Prop := {
  to_small : small l;
  to_shape : forall i s, l !! i = Some s -> slot_shape s;
  to_embedded : forall i s, l !! i = Some s -> is_free s = false -> embedded l s /\ s_group s < ng;
  to_siblings : forall i j s s', i <> j -> l !! i = Some s -> l !! j = Some s' -> is_free s = false -> is_free s' = false ->
    s_parent s = s_parent s' -> siblings_differ s s';
  to_children : forall p, (length (List.filter (is_child p) l) <= MAX_CHILDREN_PER_FRAME)%nat
}.

(** What places a frame in the tree. *)
Definition place (s : FrameSlot) : Z * option FrameId * Z * option Z * GroupId :=
  (s_generation s, s_parent s, s_depth s, s_ordinal s, s_group s).

(** [l'] keeps some of the frames of [l], in their places, with all they are
    embedded in. *)
Record prunes (l l' : list FrameSlot) : Prop := {
  pr_length : length l' = length l;
  pr_shape : forall i s', l' !! i = Some s' -> slot_shape s';
  pr_place : forall i s', l' !! i = Some s' -> is_free s' = false ->
    exists s, l !! i = Some s /\ is_free s = false /\ place s = place s';
  pr_parent : forall i s p j sp, l !! i = Some s -> (exists s', l' !! i = Some s' /\ is_free s' = false) ->
    s_parent s = Some p -> at_slot l p j sp -> exists sp', l' !! j = Some sp' /\ is_live sp' = true /\ place sp = place sp'
}.

Lemma is_live_in_use s : is_live s = true -> is_free s = false.
Proof. unfold is_live, is_free. rewrite bool_decide_eq_true, bool_decide_eq_false. congruence. Qed.

Lemma filter_le_pointwise (f : FrameSlot -> bool) l l' :
  (forall i s', l' !! i = Some s' -> f s' = true -> exists s, l !! i = Some s /\ f s = true) ->
  (length (List.filter f l') <= length (List.filter f l))%nat.
Proof.
  revert l. induction l' as [|s' l' IH]; intros l H; [simpl; lia|]. destruct l as [|s l].
  - specialize (IH [] (fun i => H (S i))). simpl. destruct (f s') eqn:E; [|done]. by destruct (H 0%nat s' eq_refl E) as (? & ? & _).
  - specialize (IH l (fun i => H (S i))). simpl. destruct (f s') eqn:E; [|destruct (f s); simpl; lia].
    destruct (H 0%nat s' eq_refl E) as (s0 & [= <-] & ->). simpl. lia.
Qed.

Lemma filter_le_but (f : FrameSlot -> bool) l l' k :
  (forall i s', i <> k -> l' !! i = Some s' -> f s' = true -> exists s, l !! i = Some s /\ f s = true) ->
  (length (List.filter f l') <= S (length (List.filter f l)))%nat.
Proof.
  revert l k. induction l' as [|s' l' IH]; intros l k H; [simpl; lia|]. destruct k as [|k].
  - assert (length (List.filter f l') <= length (List.filter f (tail l)))%nat as Ht.
    { apply filter_le_pointwise. intros i t Ht Hf. destruct (H (S i) t ltac:(lia) Ht Hf) as (s & Hs & Hfs). exists s. by destruct l. }
    destruct l as [|s l]; simpl in *; destruct (f s'); simpl; try lia; destruct (f s); simpl; lia.
  - destruct l as [|s l].
    + specialize (IH [] k (fun i t Hi => H (S i) t ltac:(lia))). simpl. destruct (f s') eqn:E; [|done].
      by destruct (H 0%nat s' ltac:(lia) eq_refl E) as (? & ? & _).
    + specialize (IH l k (fun i t Hi => H (S i) t ltac:(lia))). simpl. destruct (f s') eqn:E; [|destruct (f s); simpl; lia].
      destruct (H 0%nat s' ltac:(lia) eq_refl E) as (s0 & [= <-] & ->). simpl. lia.
Qed.

Lemma prunes_ok l l' ng : tree_ok l ng -> prunes l l' -> tree_ok l' ng.
Proof.
  intros [Hsm Hsh Hem Hsi Hch] [Pl Ps Pp Ppar]. split.
  - unfold small, len in *. by rewrite Pl.
  - exact Ps.
  - intros i s' Hs' Hf'. destruct (Pp i s' Hs' Hf') as (s & Hs & Hf & Epl). unfold place in Epl. injection Epl as E1 E2 E3 E4 E5.
    destruct (Hem i s Hs Hf) as [[Hd Hpar] Hg]. rewrite <- E5. split; [|done]. unfold embedded. rewrite <- E2, <- E3, <- E5.
    split; [done|]. destruct (s_parent s) as [p|] eqn:Ep; [|done]. destruct Hpar as (j & sp & Hat & Hlive & H1 & H2).
    destruct (Ppar i s p j sp Hs) as (sp' & Hsp' & Hl' & Epl'); [by exists s'|done|done|]. unfold place in Epl'. injection Epl' as F1 F2 F3 F4 F5.
    exists j, sp'. split_and!; try congruence. split_and!; [done|by apply is_live_in_use|]. destruct Hat as (_ & _ & ->). unfold id_of. by rewrite F1.
  - intros i j s' t' Hij Hs' Ht' Hfs Hft Epar. destruct (Pp i s' Hs' Hfs) as (s & Hs & Hf & E). destruct (Pp j t' Ht' Hft) as (t0 & Ht & Hf2 & E').
    unfold place in E, E'. injection E as E1 E2 E3 E4 E5. injection E' as F1 F2 F3 F4 F5.
    pose proof (Hsi i j s t0 Hij Hs Ht Hf Hf2 ltac:(congruence)) as H. unfold siblings_differ in *. rewrite <- E2, <- E4, <- E5, <- F4, <- F5. done.
  - intros p. etrans; [|apply (Hch p)]. apply filter_le_pointwise. intros i s' Hs' Hc. unfold is_child in *.
    apply andb_true_iff in Hc as [Hf%negb_true_iff Hp%bool_decide_eq_true]. destruct (Pp i s' Hs' Hf) as (s & Hs & Hf' & E).
    unfold place in E. injection E as _ E2 _ _ _. exists s. split; [done|]. rewrite Hf'. simpl. apply bool_decide_eq_true. congruence.
Qed.

(** Every operation that touches no place keeps the tree well formed. *)
Lemma update_ok l ng i s s' :
  tree_ok l ng -> l !! i = Some s -> slot_shape s' -> place s = place s' -> is_live s = true -> is_live s' = true -> tree_ok (<[i := s']> l) ng.
Proof.
  intros Hok Hs Hsh Hpl Hl Hl'. apply (prunes_ok l); [done|]. assert (i < length l)%nat as Hi by (by eapply lookup_lt_Some).
  split.
  - apply length_insert.
  - intros j t Ht. apply list_lookup_insert_Some in Ht as [(<- & <- & _)|[_ Ht]]; [done|by eapply to_shape].
  - intros j t Ht Hf. apply list_lookup_insert_Some in Ht as [(<- & <- & _)|[_ Ht]]; [|by exists t]. exists s. split_and!; [done|by apply is_live_in_use|done].
  - intros j t p k sp Ht (t' & Ht' & Hf') Hp Hat. destruct (decide (i = k)) as [->|Hne].
    + exists s'. rewrite list_lookup_insert_eq by done. destruct Hat as (H & _ & _). rewrite Hs in H. injection H as <-. by split_and!.
    + exists sp. rewrite list_lookup_insert_ne by done. destruct Hat as (H & Hfs & Ep). split_and!; [done| |done].
      assert (is_free t = false) as Hft.
      { destruct (decide (i = j)) as [->|Hij]; [rewrite Hs in Ht; injection Ht as <-; by apply is_live_in_use|].
        rewrite list_lookup_insert_ne in Ht' by done. congruence. }
      destruct (to_embedded _ _ Hok j t Ht Hft) as [[_ Hpar] _]. rewrite Hp in Hpar. destruct Hpar as (k' & sp' & Hat' & Hlive & _).
      destruct (at_slot_inj l p k k' sp sp') as [_ ->]; [by split_and!|done|done].
Qed.

(** Freeing a set of slots that takes whatever is embedded in it. *)
Lemma free_lookup indices l i : free_indices indices l !! i = (fun s => if bool_decide (i ∈ indices) then set_free s else s) <$> l !! i.
Proof. unfold free_indices. by rewrite list_lookup_imap. Qed.

Lemma free_closed_ok l ng indices :
  tree_ok l ng -> (forall pi i, pi ∈ indices -> embeds l pi i -> i ∈ indices) -> tree_ok (free_indices indices l) ng.
Proof.
  intros Hok Hcl. apply (prunes_ok l); [done|]. split.
  - unfold free_indices. apply length_imap.
  - intros i s'. rewrite free_lookup. intros (s & Hs & ->)%fmap_Some. pose proof (to_shape _ _ Hok i s Hs) as [Hg Hsh].
    case_bool_decide; [by split|by split].
  - intros i s'. rewrite free_lookup. intros (s & Hs & ->)%fmap_Some. case_bool_decide; intros Hf; [by vm_compute in Hf|]. by exists s.
  - intros i s p j sp Hs (s' & Hs' & Hf') Hp Hat. rewrite free_lookup, Hs in Hs'. injection Hs' as <-. case_bool_decide as Hi; [by vm_compute in Hf'|].
    destruct (to_embedded _ _ Hok i s Hs Hf') as [[_ Hpar] _]. rewrite Hp in Hpar. destruct Hpar as (j' & sp' & Hat' & Hlive & _).
    destruct (at_slot_inj l p j j' sp sp' Hat Hat') as [<- <-]. exists sp. rewrite free_lookup. destruct Hat as (Hsp & Hfs & Ep). rewrite Hsp. simpl.
    rewrite bool_decide_eq_false_2; [by split_and!|]. intros Hj. apply Hi. eapply Hcl; [exact Hj|]. exists s, p. split_and!; try done.
    apply (resolve_Some _ _ _ (to_small _ _ Hok)). exists sp. by split_and!.
Qed.

Lemma free_with_descendants_ok l ng roots : tree_ok l ng -> tree_ok (free_with_descendants roots l) ng.
Proof.
  intros Hok. apply free_closed_ok; [done|]. intros pi i Hpi He. apply elem_of_union. left.
  eapply descendants_closed; [|exact He]. set_solver.
Qed.

(** ** A new frame *)
(** What the search for a slot may do to the others. *)
Definition settle (s s' : FrameSlot) : Prop := s' = s \/ (is_free s = true /\ s' = set_retired s).

Lemma reuse_spec mk i l : let '(l', r) := reuse mk i l in
  length l' = length l /\
  match r with
  | Some (Some f) => exists k s, l !! k = Some s /\ is_free s = true /\ f = mkFrameId (Z.of_nat (i + k)) (s_generation s + 1) /\
      s_generation s + 1 <= U32_MAX /\ l' !! k = Some (mk (s_generation s + 1)) /\ forall j, j <> k -> option_Forall2 settle (l !! j) (l' !! j)
  | _ => forall j, option_Forall2 settle (l !! j) (l' !! j)
  end.
Proof.
  assert (forall o, option_Forall2 settle o o) as Hrefl by (intros []; constructor; by left).
  revert i. induction l as [|s l IH]; intros i; cbn [reuse]; [by split; [|intros j; apply Hrefl]|].
  specialize (IH (S i)). destruct (is_free s && negb (s_retired s)) eqn:Ef; [apply andb_true_iff in Ef as [Ef _]|].
  - unfold checked_add. destruct (decide (s_generation s + 1 <= U32_MAX)) as [Hg|Hg].
    + unfold try_from. destruct (decide _) as [Hi|Hi]; [|by split; [|intros j; apply Hrefl]]. split; [done|].
      exists 0%nat, s. rewrite Nat.add_0_r. split_and!; try done. intros [|j] Hj; [done|]. apply Hrefl.
    + destruct (reuse mk (S i) l) as [l' r]. destruct IH as [Hl Hr]. split; [simpl; lia|].
      assert (option_Forall2 settle (Some s) (Some (set_retired s))) as Hs by (constructor; by right).
      destruct r as [[f|]|]; [|by intros [|j]; [|apply Hr]..].
      destruct Hr as (k & s0 & H1 & H2 & H3 & H4 & H5 & H6). exists (S k), s0. split_and!; try done.
      * rewrite H3. f_equal. lia.
      * intros [|j] Hj; [done|]. apply H6. lia.
  - destruct (reuse mk (S i) l) as [l' r]. destruct IH as [Hl Hr]. split; [simpl; lia|].
    destruct r as [[f|]|]; [|by intros [|j]; [apply (Hrefl (Some s))|apply Hr]..].
    destruct Hr as (k & s0 & H1 & H2 & H3 & H4 & H5 & H6). exists (S k), s0. split_and!; try done.
    + rewrite H3. f_equal. lia.
    + intros [|j] Hj; [apply (Hrefl (Some s))|]. apply H6. lia.
Qed.

Lemma alloc_spec l o p d ord g : small l -> (forall i s, l !! i = Some s -> slot_shape s) ->
  let '(l', r) := alloc l o p d ord g in
  small l' /\
  match r with
  | Some f => exists k gen, let s := mkSlot gen (Some o) false LLive p d ord g None in
      f = id_of k s /\ l' !! k = Some s /\ 0 <= gen <= U32_MAX /\
      ((exists s0, l !! k = Some s0 /\ is_free s0 = true /\ gen = s_generation s0 + 1) \/ (k = length l /\ gen = 0)) /\
      forall j, j <> k -> option_Forall2 settle (l !! j) (l' !! j)
  | None => forall j, option_Forall2 settle (l !! j) (l' !! j)
  end.
Proof.
  intros Hsm Hsh. unfold alloc. pose proof (reuse_spec (fun g' => mkSlot g' (Some o) false LLive p d ord g None) 0 l) as H.
  destruct (reuse _ 0 l) as [l' r]. destruct H as [Hl Hr]. assert (small l') as Hsm' by (unfold small, len in *; by rewrite Hl).
  destruct r as [[f|]|].
  - split; [done|]. destruct Hr as (k & s & H1 & H2 & H3 & H4 & H5 & H6). exists k, (s_generation s + 1).
    pose proof (proj1 (Hsh _ _ H1)). split_and!; try done; [lia|]. left. by exists s.
  - by split.
  - unfold try_from. destruct (decide _) as [Hi|Hi]; [|by split]. split.
    + unfold small. rewrite len_app. unfold len in *. simpl. lia.
    + exists (length l'), 0. split_and!; try done.
      * by rewrite lookup_app_r, Nat.sub_diag by lia.
      * right. by rewrite Hl.
      * intros j Hj. destruct (decide (j < length l')%nat) as [Hlt|Hge]; [by rewrite lookup_app_l|].
        rewrite !lookup_ge_None_2; [constructor|rewrite length_app; simpl; lia|lia].
Qed.

Lemma settle_inv (l l' : list FrameSlot) j s' : option_Forall2 settle (l !! j) (l' !! j) -> l' !! j = Some s' ->
  exists s, l !! j = Some s /\ (s' = s \/ is_free s = true /\ s' = set_retired s).
Proof. intros H E. rewrite E in H. inversion H as [s s0 Hs E1 E2|]; subst. by exists s. Qed.

Lemma settle_fwd (l l' : list FrameSlot) j s : option_Forall2 settle (l !! j) (l' !! j) -> l !! j = Some s -> is_free s = false -> l' !! j = Some s.
Proof. intros H E Hf. rewrite E in H. inversion H as [s1 s0 Hs E1 E2|]; subst. destruct Hs as [->|[Hs _]]; [done|congruence]. Qed.

Lemma set_retired_free s : is_free (set_retired s) = is_free s.
Proof. done. Qed.

Lemma settle_use (l l' : list FrameSlot) j s' : option_Forall2 settle (l !! j) (l' !! j) -> l' !! j = Some s' -> is_free s' = false -> l !! j = Some s'.
Proof. intros H E Hf. destruct (settle_inv _ _ _ _ H E) as (s & Hs & [->|[Hfs ->]]); [done|]. rewrite set_retired_free in Hf. congruence. Qed.

Lemma settle_shape (l l' : list FrameSlot) j s' : option_Forall2 settle (l !! j) (l' !! j) -> (forall i s, l !! i = Some s -> slot_shape s) -> l' !! j = Some s' -> slot_shape s'.
Proof. intros H Hsh E. destruct (settle_inv _ _ _ _ H E) as (s & Hs & [->|[Hfs ->]]); exact (Hsh j s Hs). Qed.

Lemma settled_ok l l' ng : tree_ok l ng -> (forall j, option_Forall2 settle (l !! j) (l' !! j)) -> tree_ok l' ng.
Proof.
  intros Hok H. apply (prunes_ok l); [done|]. split.
  - assert (forall k, (l !! k = None <-> l' !! k = None)) as Hn by (intros k; specialize (H k); inversion H; split; congruence).
    pose proof (lookup_ge_None l) as H1. pose proof (lookup_ge_None l') as H2.
    destruct (decide (length l < length l')%nat) as [Hlt|]; [|destruct (decide (length l' < length l)%nat) as [Hlt|]; [|lia]].
    + assert (l' !! length l = None) as E by (by apply Hn, H1). apply H2 in E. lia.
    + assert (l !! length l' = None) as E by (by apply Hn, H2). apply H1 in E. lia.
  - intros i s' Hs'. eapply settle_shape; [apply H|apply Hok|done].
  - intros i s' Hs' Hf. exists s'. split_and!; try done. by eapply settle_use.
  - intros i s p j sp Hs (s' & Hs' & Hf') Hp (Hsp & Hfp & Ep). exists sp.
    assert (l' !! j = Some sp) as -> by (by eapply settle_fwd).
    pose proof (settle_use _ _ _ _ (H i) Hs' Hf') as Es. rewrite Hs in Es. injection Es as <-.
    destruct (to_embedded _ _ Hok i s Hs Hf') as [[_ Hpar] _]. rewrite Hp in Hpar. destruct Hpar as (k' & sp' & Hat' & Hlive & _).
    destruct (at_slot_inj l p j k' sp sp') as [_ ->]; [by split_and!|done|by split_and!].
Qed.

(** A new frame in its place: at the top of a group of its own, or under a live
    frame where no sibling has its ordinal and there is room. *)
Lemma alloc_ok l ng o p d ord g ng' l' f :
  tree_ok l ng -> alloc l o p d ord g = (l', Some f) -> ng <= ng' -> g < ng' -> 0 <= d <= MAX_FRAME_DEPTH ->
  match p with
  | None => d = 0 /\ ng <= g
  | Some q => exists j sp, at_slot l q j sp /\ is_live sp = true /\ d = s_depth sp + 1 /\ g = s_group sp /\
      Forall (fun s => is_child q s = true -> s_ordinal s <> ord) l /\ (length (List.filter (is_child q) l) < MAX_CHILDREN_PER_FRAME)%nat
  end ->
  tree_ok l' ng'.
Proof.
  intros Hok E Hng Hg Hd Hp. pose proof (alloc_spec l o p d ord g (to_small _ _ Hok) (to_shape _ _ Hok)) as H. rewrite E in H.
  destruct H as [Hsm (k & gen & -> & Hk & Hgen & Hold & Hrest)]. set (new := mkSlot gen (Some o) false LLive p d ord g None) in *.
  assert (forall j s, l' !! j = Some s -> is_free s = false -> j = k /\ s = new \/ j <> k /\ l !! j = Some s) as Huse.
  { intros j s Hs Hf. destruct (decide (j = k)) as [->|Hj]; [left; split; [done|congruence]|right]. split; [done|]. eapply settle_use; [by apply Hrest|done|done]. }
  assert (forall q j sp, at_slot l q j sp -> at_slot l' q j sp) as Hat.
  { intros q j sp (H1 & H2 & ->). assert (j <> k) as Hj.
    { intros ->. destruct Hold as [(s0 & Hs0 & Hf0 & _)|[-> _]]; [congruence|]. by rewrite lookup_ge_None_2 in H1. }
    split_and!; [|done|done]. eapply settle_fwd; [by apply Hrest|done|done]. }
  split.
  - done.
  - intros j s Hs. destruct (decide (j = k)) as [->|Hj].
    + rewrite Hk in Hs. injection Hs as <-. split; [done|by eexists].
    + eapply settle_shape; [by apply Hrest|apply Hok|done].
  - intros j s Hs Hf. destruct (Huse j s Hs Hf) as [[-> ->]|[Hj Hs']].
    + unfold embedded, new. simpl. split; [|done]. split; [done|]. destruct p as [q|]; [|by destruct Hp].
      destruct Hp as (j & sp & H1 & H2 & H3 & H4 & _). exists j, sp. split_and!; try done. by apply Hat.
    + destruct (to_embedded _ _ Hok j s Hs' Hf) as [[H1 H2] H3]. split; [|lia]. split; [done|].
      destruct (s_parent s) as [q|]; [|done]. destruct H2 as (i & sp & Hi & H4). exists i, sp. split; [by apply Hat|done].
  - assert (forall j s, l !! j = Some s -> is_free s = false -> s_parent s = p -> siblings_differ s new /\ siblings_differ new s) as Hnew.
    { intros j s Hs Hf Hpar. unfold siblings_differ, new. simpl. rewrite Hpar. destruct p as [q|].
      - destruct Hp as (_ & _ & _ & _ & _ & _ & Hord & _). pose proof (proj1 (Forall_lookup _ _) Hord j s Hs) as Hx. cbv beta in Hx.
        assert (s_ordinal s <> ord) by (apply Hx; unfold is_child; rewrite Hf, Hpar; by apply bool_decide_eq_true). by split.
      - pose proof (proj2 (to_embedded _ _ Hok j s Hs Hf)). lia. }
    intros i j s s' Hij Hs Hs' Hf Hf' Epar. destruct (Huse i s Hs Hf) as [[-> ->]|[Hi H1]], (Huse j s' Hs' Hf') as [[-> ->]|[Hj H2]].
    + done.
    + by apply (Hnew j s').
    + by apply (Hnew i s).
    + by apply (to_siblings _ _ Hok i j).
  - assert (forall q j s, l' !! j = Some s -> is_child q s = true -> j = k /\ s = new \/ j <> k /\ exists s0, l !! j = Some s0 /\ is_child q s0 = true) as Hkid.
    { intros q j s Hs Hc. pose proof Hc as Hc'. apply andb_true_iff in Hc' as [Hf%negb_true_iff _].
      destruct (Huse j s Hs Hf) as [?|[Hj H1]]; [by left|right]. split; [done|by exists s]. }
    intros q. destruct (decide (p = Some q)) as [->|Hne].
    + destruct Hp as (_ & _ & _ & _ & _ & _ & _ & Hlen). etrans; [apply (filter_le_but _ l l' k)|lia].
      intros j s Hj Hs Hc. by destruct (Hkid q j s Hs Hc) as [[-> _]|[_ H]].
    + etrans; [|apply (to_children _ _ Hok q)]. apply filter_le_pointwise. intros j s Hs Hc.
      destruct (Hkid q j s Hs Hc) as [[-> ->]|[_ H]]; [|done]. apply andb_true_iff in Hc as [_ Hq%bool_decide_eq_true]. by simpl in Hq.
Qed.
