(* ===== verification/FrameView.v ===== *)
(** * The frame tree as its callers see it (px-broker/src/lib.rs, [FrameTree])

    What each operation of the tree does to the frames its handles name: the
    frames in use as a function of the handle, the frames above a frame, and the
    exact effect of an orderly close and of a crash. *)
From Stdlib Require Import Sorting.Sorted.
From S2P Require Import Prelude Bytes Keys WebUrl WebOrigin FrameTree.
Import FrameTree.
Local Open Scope Z_scope.

(** ** The frame a handle names *)
Definition look (o : option FrameSlot) (f : FrameId) : option FrameSlot :=
  s ← o; if negb (s_generation s =? generation f) || is_free s then None else Some s.

Lemma slot_look tr f : small (slots tr) ->
  slot tr f = if decide (0 <= index f) then look (slots tr !! Z.to_nat (index f)) f else None.
Proof.
  intros Hsm. unfold slot, resolve, try_from. destruct (decide (0 <= index f)) as [H0|H0].
  - destruct (decide (0 <= index f <= USIZE_MAX)) as [H|H]; cbn [mbind option_bind].
    + unfold look. destruct (slots tr !! Z.to_nat (index f)) as [s|] eqn:E; cbn [mbind option_bind]; [|done].
      destruct (negb _ || _); cbn [mbind option_bind]; [done|by rewrite E].
    + rewrite lookup_ge_None_2; [done|]. unfold small, len, U32_MAX, USIZE_MAX in *. lia.
  - by rewrite decide_False by lia.
Qed.

Lemma look_Some o f s : look o f = Some s <-> o = Some s /\ s_generation s = generation f /\ is_free s = false.
Proof.
  unfold look. destruct o as [t|]; cbn [mbind option_bind]; [|by split; [|intros [? _]]].
  destruct (negb _ || _) eqn:E.
  - split; [done|]. intros ([= ->] & Hg & Hf). rewrite Hg, Z.eqb_refl, Hf in E. done.
  - apply orb_false_iff in E as [Eg%negb_false_iff%Z.eqb_eq Ef]. split; [by intros [= <-]|by intros ([= ->] & _)].
Qed.

Lemma slot_at tr f s : small (slots tr) ->
  slot tr f = Some s <-> 0 <= index f /\ slots tr !! Z.to_nat (index f) = Some s /\ s_generation s = generation f /\ is_free s = false.
Proof.
  intros Hsm. rewrite slot_look by done. destruct (decide _); [|by split; [|intros [? _]]]. rewrite look_Some. tauto.
Qed.

Lemma slot_at_slot tr f s : small (slots tr) -> slot tr f = Some s <-> at_slot (slots tr) f (Z.to_nat (index f)) s.
Proof.
  intros Hsm. rewrite slot_at by done. unfold at_slot, id_of. split.
  - intros (H0 & Hs & Hg & Hf). split_and!; [done|done|]. destruct f as [ix g]. simpl in *. rewrite Hg, Z2Nat.id by done. done.
  - intros (Hs & Hf & E). pose proof (f_equal index E) as E1. pose proof (f_equal generation E) as E2. simpl in E1, E2. split_and!; [lia|done|done|done].
Qed.

Lemma at_slot_slot tr f i s : small (slots tr) -> at_slot (slots tr) f i s -> slot tr f = Some s /\ i = Z.to_nat (index f).
Proof.
  intros Hsm H. assert (i = Z.to_nat (index f)) as -> by (destruct H as (_ & _ & ->); simpl; lia).
  split; [|done]. by apply slot_at_slot.
Qed.

(** The frames of a list whose slots changed each on its own. *)
Lemma slot_pointwise tr tr' (h : nat -> FrameSlot -> FrameSlot) f :
  small (slots tr) -> small (slots tr') -> (forall i, slots tr' !! i = h i <$> slots tr !! i) ->
  (forall i s, s_generation (h i s) = s_generation s) ->
  (forall i s, slots tr !! i = Some s -> is_free s = true -> is_free (h i s) = true) ->
  slot tr' f = s ← slot tr f; let s' := h (Z.to_nat (index f)) s in if is_free s' then None else Some s'.
Proof.
  intros Hsm Hsm' Hl Hg Hf. rewrite !slot_look by done. destruct (decide _); [|done]. rewrite Hl. unfold look.
  destruct (slots tr !! Z.to_nat (index f)) as [s|] eqn:E; [|done]. cbn [mbind option_bind fmap option_fmap option_map].
  rewrite Hg. destruct (s_generation s =? generation f); cbn [negb orb]; [|done].
  destruct (is_free s) eqn:Ef; cbn [mbind option_bind]; [by rewrite (Hf _ _ E Ef)|done].
Qed.

Lemma look_settle o o' f : option_Forall2 settle o o' -> look o' f = look o f.
Proof.
  intros H. inversion H as [s s' Hs E1 E2|E1 E2]; [|done]. destruct Hs as [->|[Hf ->]]; [done|]. unfold look. cbn [mbind option_bind].
  by rewrite set_retired_free, Hf, !orb_true_r.
Qed.

Lemma slot_settled tr tr' f : small (slots tr) -> small (slots tr') ->
  (forall j, option_Forall2 settle (slots tr !! j) (slots tr' !! j)) -> slot tr' f = slot tr f.
Proof. intros Hsm Hsm' H. rewrite !slot_look by done. destruct (decide _); [|done]. apply look_settle, H. Qed.

(** *** A new frame *)
Lemma slot_alloc tr o p d ord g l' f ng' : small (slots tr) -> (forall i s, slots tr !! i = Some s -> slot_shape s) ->
  alloc (slots tr) o p d ord g = (l', Some f) ->
  slot tr f = None /\
  forall f', slot (mkTree l' ng') f' = if decide (f' = f) then Some (mkSlot (generation f) (Some o) false LLive p d ord g None) else slot tr f'.
Proof.
  intros Hsm Hsh E. pose proof (alloc_spec (slots tr) o p d ord g Hsm Hsh) as H. rewrite E in H.
  destruct H as [Hsm' (k & gen & -> & Hk & Hgen & Hold & Hrest)]. simpl in Hk. set (new := mkSlot gen (Some o) false LLive p d ord g None) in *.
  change (generation (id_of k _)) with gen. fold new. split.
  - destruct (slot tr (id_of k new)) as [s|] eqn:Es; [|done]. apply slot_at in Es as (_ & Hs & Hg & Hf); [|done].
    simpl in Hs, Hg. rewrite Nat2Z.id in Hs. destruct Hold as [(s0 & Hs0 & Hf0 & _)|[-> _]]; [congruence|].
    by rewrite lookup_ge_None_2 in Hs.
  - intros f'. destruct (decide (f' = id_of k new)) as [->|Hne].
    + apply slot_at; [done|]. simpl. rewrite Nat2Z.id. split_and!; [lia|done|done|done].
    + rewrite !slot_look by done. destruct (decide _) as [H0|]; [|done]. simpl. destruct (decide (Z.to_nat (index f') = k)) as [Ek|Hk'].
      * rewrite Ek, Hk. assert (gen <> generation f') as Hgne.
        { intros Hg. apply Hne. destruct f' as [ix g']. unfold id_of. simpl in *. subst. by rewrite Z2Nat.id. }
        unfold look at 1. cbn [mbind option_bind]. rewrite (proj2 (Z.eqb_neq _ _)) by done. cbn [negb orb].
        symmetry. destruct (look _ f') as [s|] eqn:El; [|done]. apply look_Some in El as (Hs & Hg & Hf).
        destruct Hold as [(s0 & Hs0 & Hf0 & _)|[-> _]]; [congruence|]. by rewrite lookup_ge_None_2 in Hs.
      * by apply look_settle, Hrest.
Qed.

(** ** Owners, embedders and the frames above a frame *)
Section tree.
Context (tr : FrameTree.t) (ng : Z) (Hok : tree_ok (slots tr) ng).
Let Hsm := to_small _ _ Hok.

Lemma slot_shape_of f s : slot tr f = Some s -> slot_shape s.
Proof. intros (_ & Hs & _)%slot_at; [|done]. by eapply to_shape. Qed.

Lemma owner_Some f c : owner tr f = Some c <-> exists s, slot tr f = Some s /\ is_live s = true /\ s_owner s = Some c.
Proof.
  unfold owner. rewrite bind_Some. split; [|by intros (s & ? & _ & ?); exists s].
  intros (s & Hs & Hc). exists s. split_and!; [done| |done]. pose proof (slot_shape_of f s Hs) as [_ Hsh].
  apply slot_at in Hs as (_ & _ & _ & Hf); [|done]. unfold is_live, is_free in *. apply bool_decide_eq_true. apply bool_decide_eq_false in Hf.
  destruct (s_lifecycle s); [done|done|congruence].
Qed.

Lemma state_Live f : state tr f = Some Live <-> is_Some (owner tr f).
Proof.
  unfold state. split.
  - intros (s & Hs & H)%bind_Some. destruct (s_lifecycle s) eqn:E; try done. pose proof (slot_shape_of f s Hs) as [_ Hsh]. rewrite E in Hsh.
    destruct Hsh as [c Hc]. exists c. apply owner_Some. exists s. split_and!; [done| |done]. unfold is_live. rewrite E. done.
  - intros [c (s & Hs & Hl & Hc)%owner_Some]. rewrite Hs. cbn [mbind option_bind]. unfold is_live in Hl. apply bool_decide_eq_true in Hl. by rewrite Hl.
Qed.

Lemma state_Some f : is_Some (state tr f) <-> is_Some (slot tr f).
Proof.
  unfold state. destruct (slot tr f) as [s|] eqn:E; cbn [mbind option_bind]; [|done].
  apply slot_at in E as (_ & _ & _ & Hf); [|done]. unfold is_free in Hf. apply bool_decide_eq_false in Hf. destruct (s_lifecycle s); [done|split; eauto..].
Qed.

Lemma exists_slot f : exists_frame tr f = true <-> is_Some (slot tr f).
Proof.
  unfold exists_frame, slot. rewrite bool_decide_eq_true. destruct (resolve (slots tr) f) as [i|] eqn:E; cbn [mbind option_bind].
  - apply (resolve_Some _ _ _ Hsm) in E as (s & Hs & _). rewrite Hs. split; eauto.
  - done.
Qed.

(** [a] is a proper ancestor of the frame. *)
Inductive above (a : FrameId) : FrameId -> Prop :=
| above_parent f : parent tr f = Some a -> above a f
| above_step f p : parent tr f = Some p -> above a p -> above a f.

Lemma parent_live f p : parent tr f = Some p ->
  exists s sp, slot tr f = Some s /\ slot tr p = Some sp /\ s_parent s = Some p /\ is_live sp = true /\ s_depth s = s_depth sp + 1 /\ s_group s = s_group sp.
Proof.
  unfold parent. intros (s & Hs & Hp)%bind_Some. pose proof Hs as Hs'. apply slot_at in Hs' as (_ & Hs' & _ & Hf); [|done].
  destruct (to_embedded _ _ Hok _ _ Hs' Hf) as [[_ He] _]. rewrite Hp in He. destruct He as (j & sp & Hat & Hl & Hd & Hg).
  exists s, sp. split_and!; try done. by apply (at_slot_slot tr p j sp).
Qed.

Lemma above_live a f : above a f -> is_Some (owner tr a).
Proof.
  assert (forall f p, parent tr f = Some p -> is_Some (owner tr p)) as Hp.
  { intros f' p (s & sp & _ & Hp & _ & Hl & _)%parent_live. pose proof (slot_shape_of p sp Hp) as [_ Hsh]. unfold is_live in Hl.
    apply bool_decide_eq_true in Hl. rewrite Hl in Hsh. unfold owner. by rewrite Hp. }
  induction 1 as [f' H|]; [by eapply Hp|done].
Qed.

Lemma depth_bound f s : slot tr f = Some s -> 0 <= s_depth s <= MAX_FRAME_DEPTH.
Proof.
  intros (_ & Hs & _ & Hf)%slot_at; [|done]. by destruct (to_embedded _ _ Hok _ _ Hs Hf) as [[? _] _].
Qed.

Lemma above_shallower a f : above a f -> exists s sa, slot tr f = Some s /\ slot tr a = Some sa /\ s_depth sa < s_depth s.
Proof.
  induction 1 as [f (s & sp & Hs & Hp & _ & _ & Hd & _)%parent_live|f p (s & sp & Hs & Hp & _ & _ & Hd & _)%parent_live _ IH].
  - exists s, sp. split_and!; [done|done|lia].
  - destruct IH as (s' & sa & Hs' & Ha & Hlt). rewrite Hp in Hs'. injection Hs' as <-. exists s, sa. split_and!; [done|done|lia].
Qed.

Lemma above_irrefl a : ~ above a a.
Proof. intros (s & sa & Hs & Ha & Hlt)%above_shallower. rewrite Hs in Ha. injection Ha as ->. lia. Qed.

(** The walk finds what is above the frame, as far as its fuel goes. *)
Lemma ancestor_loop_spec fuel a f s : slot tr f = Some s -> s_depth s < Z.of_nat fuel ->
  ancestor_loop fuel tr a f = true <-> above a f.
Proof.
  revert f s. induction fuel as [|fuel IH]; intros f s Hs Hd; [pose proof (depth_bound f s Hs); lia|]. cbn [ancestor_loop].
  destruct (parent tr f) as [p|] eqn:Ep.
  - pose proof Ep as Ep'. apply parent_live in Ep' as (s' & sp & Hs' & Hp & _ & _ & Hd' & _). rewrite Hs in Hs'. injection Hs' as <-.
    case_bool_decide as Ea.
    + subst p. rewrite bool_decide_eq_true, state_Some. split; [by constructor|by eexists].
    + rewrite (IH p sp Hp ltac:(lia)). split; [by apply above_step|]. intros Ha. inversion Ha as [? E1|? p' E1 E2]; subst; [congruence|]. rewrite Ep in E1. by injection E1 as ->.
  - split; [done|]. inversion 1; congruence.
Qed.

Lemma is_ancestor_spec a f : is_ancestor a f tr = true <-> above a f.
Proof.
  unfold is_ancestor. destruct (slot tr f) as [s|] eqn:E.
  - apply (ancestor_loop_spec _ _ _ s E). pose proof (depth_bound f s E). unfold MAX_FRAME_DEPTH, STEPS in *. lia.
  - unfold STEPS. cbn [ancestor_loop]. assert (parent tr f = None) as Hn by (unfold parent; by rewrite E). rewrite Hn.
    split; [done|]. inversion 1; congruence.
Qed.

(** The walk to the top gets there. *)
Lemma root_loop_spec fuel f s : slot tr f = Some s -> s_depth s < Z.of_nat fuel ->
  let r := root_loop fuel tr f in parent tr r = None /\ (r = f \/ above r f) /\ exists sr, slot tr r = Some sr /\ s_group sr = s_group s.
Proof.
  revert f s. induction fuel as [|fuel IH]; intros f s Hs Hd; [pose proof (depth_bound f s Hs); lia|]. cbn [root_loop].
  destruct (parent tr f) as [p|] eqn:Ep; [|by split_and!; [|left|exists s]].
  pose proof Ep as Ep'. apply parent_live in Ep' as (s' & sp & Hs' & Hp & _ & _ & Hd' & Hg). rewrite Hs in Hs'. injection Hs' as <-.
  destruct (IH p sp Hp ltac:(lia)) as (H1 & H2 & sr & H3 & H4). split_and!; [done| |by exists sr; rewrite Hg].
  right. destruct H2 as [->|H2]; [by constructor|by eapply above_step].
Qed.
End tree.

(** ** The crash of a list of frames *)
(** The notice owed for slot [i], in the tree before the crash. *)
Definition notice (channel : ChannelId) (l : list FrameSlot) (i : nat) : list (ChannelId * FrameId) :=
  match l !! i with
  | Some s =>
      match (p ← s_parent s; o ← owner (mkTree l 0) p; if bool_decide (o = channel) then None else Some o) with
      | Some o => [(o, id_of i s)]
      | None => []
      end
  | None => []
  end.

Definition crash_slots (ixs : list nat) (l : list FrameSlot) : list FrameSlot :=
  imap (fun i s => if bool_decide (i ∈ ixs) then set_crashed s else s) l.

Lemma set_crashed_look i s (l : list FrameSlot) f : small l -> l !! i = Some s -> is_free s = false ->
  ~ (slot (mkTree l 0) f = Some s /\ i = Z.to_nat (index f)) -> owner (mkTree (<[i := set_crashed s]> l) 0) f = owner (mkTree l 0) f.
Proof.
  intros Hsm Hs Hf Hno. pose proof (lookup_lt_Some _ _ _ Hs) as Hlt. unfold owner. rewrite slot_look in Hno by done.
  assert (small (<[i := set_crashed s]> l)) as Hsm' by (unfold small, len in *; by rewrite length_insert).
  rewrite !slot_look by done. destruct (decide (0 <= index f)) as [H0|]; [|done]. simpl slots in *.
  destruct (decide (i = Z.to_nat (index f))) as [->|Hne]; [|by rewrite list_lookup_insert_ne by done].
  rewrite list_lookup_insert_eq, Hs in * by done. unfold look in *. cbn [mbind option_bind] in *. rewrite Hf in *.
  change (is_free (set_crashed s)) with false. change (s_generation (set_crashed s)) with (s_generation s).
  destruct (s_generation s =? generation f); cbn [negb orb mbind option_bind] in *; [|done]. by destruct Hno.
Qed.

Lemma crash_fold channel l ixs ns : small l -> NoDup ixs ->
  (forall i, i ∈ ixs -> exists s, l !! i = Some s /\ is_free s = false) -> (forall pi i, i ∈ ixs -> embeds l pi i -> pi ∉ ixs) ->
  foldl (crash_one channel) (l, ns) ixs = (crash_slots ixs l, ns ++ flat_map (notice channel l) ixs).
Proof.
  revert l ns. induction ixs as [|i ixs IH]; intros l ns Hsm Hnd Huse Hemb; cbn [foldl flat_map].
  { rewrite app_nil_r. f_equal. apply list_eq. intros i. unfold crash_slots. rewrite list_lookup_imap. by destruct (l !! i). }
  destruct (Huse i) as (s & Hs & Hf); [by left|]. pose proof (lookup_lt_Some _ _ _ Hs) as Hlt. apply NoDup_cons in Hnd as [Hi Hnd].
  assert (small (<[i := set_crashed s]> l)) as Hsm' by (unfold small, len in *; by rewrite length_insert).
  assert (forall j t, j ∈ ixs -> l !! j = Some t -> <[i := set_crashed s]> l !! j = Some t) as Hother.
  { intros j t Hj Ht. rewrite list_lookup_insert_ne; [done|]. by intros ->. }
  assert (forall f pi, resolve (<[i := set_crashed s]> l) f = Some pi -> resolve l f = Some pi) as Hres.
  { intros f pi (t & Ht & Hft & E)%(resolve_Some _ _ _ Hsm'). apply (resolve_Some _ _ _ Hsm).
    apply list_lookup_insert_Some in Ht as [(<- & <- & _)|[_ Ht]]; [exists s|exists t]; by split_and!. }
  unfold crash_one at 2. rewrite Hs. unfold try_from. rewrite decide_True by (unfold small, len in Hsm; lia). rewrite IH; [|done|done|..].
  - assert (notice channel l i = match (s0 ← Some s; p ← s_parent s0; o ← owner (mkTree l 0) p; if bool_decide (o = channel) then None else Some o) with
      Some o => [(o, id_of i s)] | None => [] end) as -> by (unfold notice; by rewrite Hs).
    rewrite <- app_assoc. f_equal.
    + apply list_eq. intros j. unfold crash_slots. rewrite !list_lookup_imap. destruct (decide (i = j)) as [<-|Hne].
      * rewrite list_lookup_insert_eq, Hs by done. simpl. rewrite bool_decide_eq_false_2 by done. by rewrite bool_decide_eq_true_2 by left.
      * rewrite list_lookup_insert_ne by done. destruct (l !! j) as [t|]; [|done]. simpl. f_equal.
        destruct (decide (j ∈ ixs)); [rewrite !bool_decide_eq_true_2; [done|by right|done]|].
        rewrite !bool_decide_eq_false_2; [done| |done]. by intros [->|?]%elem_of_cons.
    + f_equal. f_equal. rewrite !flat_map_concat_map. f_equal. apply map_ext_in. intros j Hj%list_elem_of_In. unfold notice.
      destruct (Huse j) as (t & Ht & Hft); [by right|]. rewrite (Hother j t Hj Ht), Ht. destruct (s_parent t) as [p|] eqn:Ep; cbn [mbind option_bind]; [|done].
      rewrite (set_crashed_look i s l p Hsm Hs Hf); [done|]. intros [Hp Eip].
      apply (Hemb i j); [by right| |by left]. exists t, p. split_and!; try done. apply (resolve_Some _ _ _ Hsm). exists s.
      rewrite Eip. by apply (slot_at_slot (mkTree l 0)).
  - intros j Hj. destruct (Huse j) as (t & Ht & Hft); [by right|]. exists t. split; [by apply Hother|done].
  - intros pi j Hj (t & p & Ht & Hft & Hp & Hr) Hpi. destruct (Huse j) as (t' & Ht' & _); [by right|].
    rewrite (Hother j t' Hj Ht') in Ht. injection Ht as ->. apply (Hemb pi j); [by right| |by right]. exists t, p. split_and!; try done. by apply Hres.
Qed.

(** The order of the notices: by the channel told, then by the frame. *)
Definition notice_le (n m : ChannelId * FrameId) : Prop := n.1 < m.1 \/ n.1 = m.1 /\ index n.2 <= index m.2.

Lemma insert_notice_perm n l : insert_notice n l ≡ₚ n :: l.
Proof. induction l as [|m l IH]; simpl; [done|]. destruct (_ || _); [done|]. rewrite IH. by constructor. Qed.

Lemma insert_notice_sorted n l : StronglySorted notice_le l -> StronglySorted notice_le (insert_notice n l).
Proof.
  induction 1 as [|m l Hl IH Hm]; simpl; [by repeat constructor|]. destruct (_ || _) eqn:E.
  - assert (notice_le n m) as Hnm.
    { unfold notice_le. apply orb_true_iff in E as [E%Z.ltb_lt|[E1%Z.eqb_eq E2%Z.ltb_lt]%andb_true_iff]; lia. }
    constructor; [by constructor|]. constructor; [done|]. eapply Forall_impl; [exact Hm|]. unfold notice_le in *. simpl. lia.
  - constructor; [done|]. rewrite insert_notice_perm. constructor; [|done]. unfold notice_le.
    apply orb_false_iff in E as [E1%Z.ltb_ge E2%andb_false_iff]. rewrite Z.eqb_neq, Z.ltb_ge in E2. lia.
Qed.

Lemma sort_notices_spec l : sort_notices l ≡ₚ l /\ StronglySorted notice_le (sort_notices l).
Proof.
  unfold sort_notices. assert (forall acc, StronglySorted notice_le acc ->
    foldl (fun l n => insert_notice n l) acc l ≡ₚ l ++ acc /\ StronglySorted notice_le (foldl (fun l n => insert_notice n l) acc l)) as H.
  { induction l as [|n l IH]; intros acc Ha; [done|]. simpl. destruct (IH (insert_notice n acc)) as [H1 H2]; [by apply insert_notice_sorted|].
    split; [|done]. rewrite H1, insert_notice_perm. by rewrite Permutation_middle. }
  destruct (H [] (SSorted_nil _)) as [H1 H2]. by rewrite app_nil_r in H1.
Qed.

(** ** A channel goes away *)
Section gone.
Context (tr : FrameTree.t) (ng : Z) (Hok : tree_ok (slots tr) ng) (channel : ChannelId).
Let Hsm := to_small _ _ Hok.
Let ix (f : FrameId) : nat := Z.to_nat (index f).

(** The frame is embedded, at some depth, in a frame of the channel. *)
Definition within (f : FrameId) : Prop := exists a, above tr a f /\ owner tr a = Some channel.

Lemma owned_by_spec i : i ∈ owned_by (slots tr) channel <-> exists s, slots tr !! i = Some s /\ is_live s = true /\ s_owner s = Some channel.
Proof.
  unfold owned_by. rewrite elem_of_list_to_set, list_elem_of_In, filter_In, <- list_elem_of_In, elem_of_seq. split.
  - intros [_ H]. destruct (slots tr !! i) as [s|]; [|done]. apply andb_true_iff in H as [H1 H2%bool_decide_eq_true]. by exists s.
  - intros (s & Hs & Hl & Ho). pose proof (lookup_lt_Some _ _ _ Hs). split; [lia|]. rewrite Hs, Hl. by apply bool_decide_eq_true.
Qed.

Lemma owned_by_slot f s : slot tr f = Some s -> ix f ∈ owned_by (slots tr) channel <-> owner tr f = Some channel.
Proof.
  intros Hs. rewrite owned_by_spec, (owner_Some _ _ Hok). pose proof Hs as Hs'. apply slot_at in Hs' as (_ & Hs' & _); [|done].
  split; intros (s' & E & H); exists s'; [|rewrite Hs in E; injection E as <-; done].
  split; [|done]. unfold ix in E. congruence.
Qed.

Lemma embeds_slot pi f s : slot tr f = Some s -> embeds (slots tr) pi (ix f) <-> exists p, parent tr f = Some p /\ pi = ix p.
Proof.
  intros Hs. pose proof Hs as Hs'. apply slot_at in Hs' as (_ & Hs' & _ & Hf); [|done]. split.
  - intros (s' & p & E & _ & Hp & Hr). unfold ix in E. rewrite Hs' in E. injection E as <-. exists p. unfold parent. rewrite Hs. split; [done|].
    apply (resolve_Some _ _ _ Hsm) in Hr as (sp & Hat). by apply (at_slot_slot tr p pi sp).
  - intros (p & Hp & ->). pose proof Hp as Hp'. apply (parent_live _ _ Hok) in Hp' as (s' & sp & E & Hsp & Hpar & _). rewrite Hs in E. injection E as <-.
    exists s, p. split_and!; [done|done|done|]. apply (resolve_Some _ _ _ Hsm). exists sp. by apply slot_at_slot.
Qed.

(** The slots freed with a channel's are those of the frames within its frames. *)
Lemma doomed_spec f s : slot tr f = Some s -> ix f ∈ descendants (slots tr) (owned_by (slots tr) channel) <-> within f.
Proof.
  intros Hs. rewrite descendants_spec. split.
  - remember (ix f) as i eqn:Ei. intros Hu. revert f s Hs Ei.
    induction Hu as [pi i Hpi He|pi i _ IH He]; intros f s Hs ->; apply (embeds_slot pi f s Hs) in He as (p & Hp & ->);
      pose proof Hp as Hp'; apply (parent_live _ _ Hok) in Hp' as (s' & sp & _ & Hsp & _).
    + exists p. split; [by constructor|]. by apply (owned_by_slot p sp).
    + destruct (IH p sp Hsp eq_refl) as (a & Ha & Ho). exists a. split; [by eapply above_step|done].
  - intros (a & Ha & Ho). revert s Hs. induction Ha as [f Hp|f p Hp Ha IH]; intros s Hs;
      pose proof Hp as Hp'; apply (parent_live _ _ Hok) in Hp' as (s' & sp & _ & Hsp & _).
    + eapply under_root; [|apply (embeds_slot _ f s Hs); by exists a]. by apply (owned_by_slot a sp).
    + eapply under_step; [by apply (IH sp)|]. apply (embeds_slot _ f s Hs). by exists p.
Qed.

Lemma owned_live i : i ∈ owned_by (slots tr) channel -> exists s, slots tr !! i = Some s /\ is_free s = false.
Proof. intros (s & Hs & Hl & _)%owned_by_spec. exists s. split; [done|by apply is_live_in_use]. Qed.

(** *** An orderly close *)
Lemma release_slots i : slots (release_all channel tr) !! i =
  (fun s => if bool_decide (i ∈ descendants (slots tr) (owned_by (slots tr) channel) ∪ owned_by (slots tr) channel) then set_free s else s) <$> slots tr !! i.
Proof. apply free_lookup. Qed.

Lemma release_ok : tree_ok (slots (release_all channel tr)) ng.
Proof. by apply free_with_descendants_ok. Qed.

(** What is left is what was neither the channel's nor within its frames,
    untouched. *)
Lemma release_spec f s : slot (release_all channel tr) f = Some s <-> slot tr f = Some s /\ owner tr f <> Some channel /\ ~ within f.
Proof.
  rewrite (slot_pointwise tr _ (fun i s => if bool_decide (i ∈ descendants (slots tr) (owned_by (slots tr) channel) ∪ owned_by (slots tr) channel) then set_free s else s));
    [|done|apply release_ok|apply release_slots|intros i t; by case_bool_decide|intros i t _ Ht; by case_bool_decide].
  destruct (slot tr f) as [t|] eqn:Es; cbn [mbind option_bind]; [|by split; [|intros [? _]]].
  pose proof (doomed_spec f t Es) as Hd. pose proof (owned_by_slot f t Es) as Ho. unfold ix in Hd, Ho. cbv zeta. case_bool_decide as Hi.
  - rewrite elem_of_union, Hd, Ho in Hi. change (is_free (set_free t)) with true. cbn iota. split; [done|tauto].
  - rewrite elem_of_union, Hd, Ho in Hi. apply slot_at in Es as (_ & _ & _ & Hf); [|done]. rewrite Hf. split; [|by intros [? _]].
    intros [= ->]. split; [done|]. split; intros H; apply Hi; tauto.
Qed.

Lemma release_owner f c : owner (release_all channel tr) f = Some c <-> owner tr f = Some c /\ c <> channel /\ ~ within f.
Proof.
  rewrite (owner_Some _ _ release_ok), (owner_Some _ _ Hok). setoid_rewrite release_spec. split.
  - intros (s & (Hs & Hn & Hw) & Hl & Hc). split; [by exists s|]. split; [|done]. intros ->. apply Hn, (owner_Some _ _ Hok). by exists s.
  - intros ((s & Hs & Hl & Hc) & Hn & Hw). exists s. split; [|done]. split; [done|]. split; [|done].
    intros (s' & Hs' & _ & Hc')%(owner_Some _ _ Hok). rewrite Hs in Hs'. injection Hs' as <-. congruence.
Qed.
(** *** A crash *)
Let doomed := descendants (slots tr) (owned_by (slots tr) channel).
Let crashed_slots := List.filter (fun i => bool_decide (i ∈ owned_by (slots tr) channel ∖ doomed)) (seq 0 (length (slots tr))).

Lemma elem_of_crashed_slots i : i ∈ crashed_slots <-> i ∈ owned_by (slots tr) channel /\ i ∉ doomed.
Proof.
  unfold crashed_slots. rewrite list_elem_of_In, filter_In, <- list_elem_of_In, elem_of_seq, bool_decide_eq_true, elem_of_difference. split; [tauto|].
  intros [Hi Hd]. split; [|done]. apply owned_live in Hi as (s & Hs & _). apply lookup_lt_Some in Hs. lia.
Qed.

Lemma crash_channel_eq : crash_channel channel tr =
  (mkTree (free_indices doomed (crash_slots crashed_slots (slots tr))) (next_group tr), sort_notices (flat_map (notice channel (slots tr)) crashed_slots)).
Proof.
  unfold crash_channel. fold doomed. fold crashed_slots. rewrite crash_fold; [done|done|apply NoDup_ListNoDup, List.NoDup_filter, seq_NoDup|..].
  - intros i [Hi _]%elem_of_crashed_slots. by apply owned_live.
  - intros pi i [_ Hi]%elem_of_crashed_slots He [Hpi _]%elem_of_crashed_slots. apply Hi. eapply descendants_closed; [|exact He]. set_solver.
Qed.

Lemma crash_slots_lookup i : slots (crash_channel channel tr).1 !! i =
  (fun s => if bool_decide (i ∈ doomed) then set_free s else if bool_decide (i ∈ owned_by (slots tr) channel) then set_crashed s else s) <$> slots tr !! i.
Proof.
  rewrite crash_channel_eq. simpl. rewrite free_lookup. unfold crash_slots. rewrite list_lookup_imap. destruct (slots tr !! i) as [s|]; [|done]. simpl. f_equal.
  case_bool_decide as Hd.
  - rewrite bool_decide_eq_false_2; [done|]. by intros [_ ?]%elem_of_crashed_slots.
  - case_bool_decide as Hi; [apply elem_of_crashed_slots in Hi as [Hi _]; by rewrite bool_decide_eq_true_2|].
    rewrite bool_decide_eq_false_2; [done|]. intros Ho. apply Hi. by apply elem_of_crashed_slots.
Qed.

Lemma crash_ok : tree_ok (slots (crash_channel channel tr).1) ng.
Proof.
  apply (prunes_ok (slots tr)); [done|]. split.
  - rewrite crash_channel_eq. simpl. unfold free_indices, crash_slots. by rewrite !length_imap.
  - intros i s'. rewrite crash_slots_lookup. intros (s & Hs & ->)%fmap_Some. pose proof (to_shape _ _ Hok i s Hs) as [Hg Hsh].
    repeat case_bool_decide; by split.
  - intros i s'. rewrite crash_slots_lookup. intros (s & Hs & ->)%fmap_Some. case_bool_decide; intros Hf; [by vm_compute in Hf|]. exists s.
    split; [done|]. case_bool_decide as Hi; [|done]. apply owned_live in Hi as (s0 & Hs0 & Hf0). by simplify_eq.
  - intros i s p j sp Hs (s' & Hs' & Hf') Hp Hat. rewrite crash_slots_lookup, Hs in Hs'. injection Hs' as <-. case_bool_decide as Hi; [by vm_compute in Hf'|].
    assert (is_free s = false) as Hf.
    { revert Hf'. case_bool_decide as Ho; [|done]. apply owned_live in Ho as (s0 & Hs0 & Hf0). intros _. congruence. }
    destruct (to_embedded _ _ Hok i s Hs Hf) as [[_ Hpar] _]. rewrite Hp in Hpar. destruct Hpar as (j' & sp' & Hat' & Hlive & _).
    destruct (at_slot_inj _ p j j' sp sp' Hat Hat') as [<- <-]. exists sp. rewrite crash_slots_lookup. destruct Hat as (Hsp & Hfs & Ep). rewrite Hsp. simpl.
    assert (embeds (slots tr) j i) as He.
    { exists s, p. split_and!; try done. apply (resolve_Some _ _ _ Hsm). exists sp. by split_and!. }
    rewrite !bool_decide_eq_false_2; [by split_and!|..]; intros Hj; apply Hi; (eapply descendants_closed; [|exact He]); apply elem_of_union; tauto.
Qed.

(** A frame within the channel's frames is gone; a frame of the channel's that
    is not has crashed; every other frame is as it was. *)
Lemma crash_spec f s' : slot (crash_channel channel tr).1 f = Some s' <->
  exists s, slot tr f = Some s /\ ~ within f /\ s' = if decide (owner tr f = Some channel) then set_crashed s else s.
Proof.
  rewrite (slot_pointwise tr _ _ f Hsm (to_small _ _ crash_ok) crash_slots_lookup).
  - destruct (slot tr f) as [t|] eqn:Es; cbn [mbind option_bind]; [|by split; [|intros (? & ? & _)]].
    pose proof (doomed_spec f t Es) as Hd. pose proof (owned_by_slot f t Es) as Ho. unfold ix in Hd, Ho. fold doomed in Hd. cbv zeta.
    pose proof Es as Es'. apply slot_at in Es' as (_ & _ & _ & Hf); [|done]. case_bool_decide as Hi.
    + change (is_free (set_free t)) with true. cbn iota. split; [done|]. intros (_ & _ & Hw & _). by apply Hd in Hi.
    + rewrite Hd in Hi. rewrite (bool_decide_ext _ _ Ho). destruct (decide (owner tr f = Some channel)) as [E|E].
      * rewrite bool_decide_eq_true_2 by done. change (is_free (set_crashed t)) with false. cbn iota. split; [intros [= <-]; by exists t|]. by intros (s & [= <-] & _ & ->).
      * rewrite bool_decide_eq_false_2, Hf by done. split; [intros [= <-]; by exists t|]. by intros (s & [= <-] & _ & ->).
  - intros i t. by repeat case_bool_decide.
  - intros i t Ht Hf. case_bool_decide; [done|]. case_bool_decide as Ho; [|done]. apply owned_live in Ho as (s0 & Hs0 & Hf0). congruence.
Qed.

Lemma crash_owner f c : owner (crash_channel channel tr).1 f = Some c <-> owner tr f = Some c /\ c <> channel /\ ~ within f.
Proof.
  rewrite (owner_Some _ _ crash_ok), (owner_Some _ _ Hok). setoid_rewrite crash_spec. split.
  - intros (s & (s0 & Hs & Hn & ->) & Hl & Hc). destruct (decide _) as [|E]; [done|]. split; [by exists s0|]. split; [|done].
    intros ->. apply E, (owner_Some _ _ Hok). by exists s0.
  - intros ((s & Hs & Hl & Hc) & Hn & Hw). exists s. split; [|done]. exists s. split_and!; [done|done|]. rewrite decide_False; [done|].
    intros (s' & Hs' & _ & Hc')%(owner_Some _ _ Hok). rewrite Hs in Hs'. injection Hs' as <-. congruence.
Qed.

(** A notice goes to whoever embeds a crashed frame. *)
Lemma crash_notices o f : (o, f) ∈ (crash_channel channel tr).2 <->
  owner tr f = Some channel /\ ~ within f /\ exists p, parent tr f = Some p /\ owner tr p = Some o.
Proof.
  rewrite crash_channel_eq. simpl. destruct (sort_notices_spec (flat_map (notice channel (slots tr)) crashed_slots)) as [Hperm _].
  rewrite Hperm, list_elem_of_In, in_flat_map. setoid_rewrite <- list_elem_of_In. unfold notice. split.
  - intros (i & [Hi Hd]%elem_of_crashed_slots & H). pose proof Hi as Hi'. apply owned_by_spec in Hi' as (s & Hs & Hl & Ho). rewrite Hs in H.
    destruct (_ ← _; _) as [o'|] eqn:E; [|by apply elem_of_nil in H]. apply list_elem_of_singleton in H as [= -> ->].
    apply bind_Some in E as (p & Hp & (o'' & Hop & E)%bind_Some). case_bool_decide; [done|]. injection E as ->.
    destruct (at_slot_slot tr (id_of i s) i s Hsm) as [Hslot Ei]; [by split_and!; [|apply is_live_in_use|]|].
    split_and!; [apply (owner_Some _ _ Hok); by exists s| |exists p; split; [unfold parent; by rewrite Hslot|done]].
    rewrite <- (doomed_spec _ _ Hslot). unfold ix. by rewrite <- Ei.
  - intros (Ho & Hw & p & Hp & Hop). pose proof Ho as Ho'. apply (owner_Some _ _ Hok) in Ho' as (s & Hs & Hl & Hc).
    exists (ix f). split; [apply elem_of_crashed_slots; split; [by apply (owned_by_slot f s)|unfold doomed; by rewrite (doomed_spec f s)]|].
    pose proof Hs as Hs'. apply slot_at_slot in Hs' as (Hs' & Hf & Ef); [|done]. unfold ix. rewrite Hs'. unfold parent in Hp. rewrite Hs in Hp. cbn [mbind option_bind] in Hp. rewrite Hp.
    cbn [mbind option_bind]. change (owner (mkTree (slots tr) 0) p) with (owner tr p). rewrite Hop. cbn [mbind option_bind].
    rewrite bool_decide_eq_false_2; [rewrite Ef at 1; by apply list_elem_of_singleton|].
    intros ->. apply Hw. exists p. split; [|done]. constructor. unfold parent. by rewrite Hs.
Qed.

Lemma notice_index i o f : (o, f) ∈ notice channel (slots tr) i -> i = ix f.
Proof.
  unfold notice. destruct (slots tr !! i) as [s|]; [|by intros ?%elem_of_nil]. destruct (_ ← _; _); [|by intros ?%elem_of_nil].
  intros [= _ ->]%list_elem_of_singleton. unfold ix, id_of. simpl. lia.
Qed.

Lemma crash_notices_nodup : NoDup (crash_channel channel tr).2 /\ StronglySorted notice_le (crash_channel channel tr).2.
Proof.
  rewrite crash_channel_eq. simpl. destruct (sort_notices_spec (flat_map (notice channel (slots tr)) crashed_slots)) as [Hp Hs]. split; [|done].
  rewrite Hp. assert (NoDup crashed_slots) as Hnd by apply NoDup_ListNoDup, List.NoDup_filter, seq_NoDup. clear Hp Hs.
  induction Hnd as [|i ixs Hi Hnd IH]; [constructor|]. simpl. apply NoDup_app. split_and!; [|intros [o f] H1 H2|done].
  - unfold notice. destruct (slots tr !! i); [|constructor]. destruct (_ ← _; _); [apply NoDup_singleton|constructor].
  - apply list_elem_of_In, in_flat_map in H2 as (j & Hj%list_elem_of_In & H2%list_elem_of_In).
    apply notice_index in H1, H2. congruence.
Qed.
End gone.

(** ** Generations only grow *)
Definition grows (l l' : list FrameSlot) : Prop :=
  forall i s, l !! i = Some s -> exists s', l' !! i = Some s' /\ s_generation s <= s_generation s'.

(** No frame was ever given the handle. *)
Definition unused (l : list FrameSlot) (f : FrameId) : Prop :=
  0 <= index f /\ forall s, l !! Z.to_nat (index f) = Some s -> s_generation s < generation f.
Definition used (l : list FrameSlot) (f : FrameId) : Prop :=
  0 <= index f /\ exists s, l !! Z.to_nat (index f) = Some s /\ generation f <= s_generation s.

#[export] Instance grows_preorder : PreOrder grows.
Proof.
  split.
  - intros l i s Hs. exists s. split; [done|lia].
  - intros l1 l2 l3 H1 H2 i s Hs. destruct (H1 i s Hs) as (s2 & Hs2 & ?). destruct (H2 i s2 Hs2) as (s3 & Hs3 & ?). exists s3. split; [done|lia].
Qed.

Lemma grows_used l l' f : grows l l' -> used l f -> used l' f.
Proof. intros Hg [H0 (s & Hs & Hle)]. split; [done|]. destruct (Hg _ s Hs) as (s' & Hs' & ?). exists s'. split; [done|lia]. Qed.

Lemma used_unused l f : used l f -> unused l f -> False.
Proof. intros [_ (s & Hs & Hle)] [_ H]. specialize (H s Hs). lia. Qed.

Lemma grows_pointwise l l' (h : nat -> FrameSlot -> FrameSlot) :
  (forall i, l' !! i = h i <$> l !! i) -> (forall i s, s_generation (h i s) = s_generation s) -> grows l l'.
Proof. intros Hl Hg i s Hs. exists (h i s). rewrite Hl, Hs, Hg. split; [done|lia]. Qed.

Lemma settle_grows (l l' : list FrameSlot) j s : option_Forall2 settle (l !! j) (l' !! j) -> l !! j = Some s -> exists s', l' !! j = Some s' /\ s_generation s <= s_generation s'.
Proof. intros H Hs. rewrite Hs in H. inversion H as [? s' [->|[_ ->]] E1 E2|]; subst; eexists; (split; [done|simpl; lia]). Qed.

Lemma alloc_grows l o p d ord g : small l -> (forall i s, l !! i = Some s -> slot_shape s) ->
  let '(l', r) := alloc l o p d ord g in grows l l' /\ match r with Some f => unused l f /\ used l' f | None => True end.
Proof.
  intros Hsm Hsh. pose proof (alloc_spec l o p d ord g Hsm Hsh) as H. destruct (alloc l o p d ord g) as [l' [f|]]; destruct H as [_ H].
  - destruct H as (k & gen & -> & Hk & Hgen & Hold & Hrest). simpl in Hk. unfold unused, used. simpl. rewrite Nat2Z.id. split_and!.
    + intros j s Hs. destruct (decide (j = k)) as [->|Hj]; [|by eapply settle_grows; [apply Hrest|]]. eexists. split; [done|]. simpl.
      destruct Hold as [(s0 & Hs0 & _ & ->)|[-> ->]]; [simplify_eq; lia|]. by rewrite lookup_ge_None_2 in Hs.
    + lia.
    + intros s Hs. destruct Hold as [(s0 & Hs0 & _ & ->)|[-> ->]]; [simplify_eq; lia|]. by rewrite lookup_ge_None_2 in Hs.
    + lia.
    + eexists. split; [done|]. simpl. lia.
  - split; [|done]. intros j s Hs. by eapply settle_grows.
Qed.

(** ** The operations, on the frames in use *)
(** The frames that live at the top of a new group, or under a frame. *)
Definition fresh_frame (f : FrameId) (c : ChannelId) (p : option FrameId) (d : Z) (ord : option Z) (g : GroupId) : FrameSlot :=
  mkSlot (generation f) (Some c) false LLive p d ord g None.

Definition tree_inv (tr : FrameTree.t) : Prop := tree_ok (slots tr) (next_group tr) /\ 0 <= next_group tr <= U64_MAX.

(** Nothing happened to the frames in use. *)
Definition same_frames (tr tr' : FrameTree.t) : Prop := forall f, slot tr' f = slot tr f.

Definition adds_frame (tr tr' : FrameTree.t) (f : FrameId) (s : FrameSlot) : Prop :=
  unused (slots tr) f /\ used (slots tr') f /\ slot tr f = None /\ forall f', slot tr' f' = if decide (f' = f) then Some s else slot tr f'.

Section alloc.
Context (tr : FrameTree.t) (Hinv : tree_inv tr).
Let Hsm := to_small _ _ (proj1 Hinv).
Let Hsh := to_shape _ _ (proj1 Hinv).

Lemma alloc_none o p d ord g l' : alloc (slots tr) o p d ord g = (l', None) ->
  tree_inv (mkTree l' (next_group tr)) /\ grows (slots tr) l' /\ same_frames tr (mkTree l' (next_group tr)).
Proof.
  intros E. pose proof (alloc_spec (slots tr) o p d ord g Hsm Hsh) as H. pose proof (alloc_grows (slots tr) o p d ord g Hsm Hsh) as Hg.
  rewrite E in H, Hg. destruct H as [Hsm' H]. split_and!; [split; [|apply Hinv]|apply Hg|].
  - eapply settled_ok; [apply Hinv|done].
  - intros f. by apply slot_settled.
Qed.

Lemma create_spec c : let '(tr', r) := create c tr in
  tree_inv tr' /\ grows (slots tr) (slots tr') /\
  match r with Some f => adds_frame tr tr' f (fresh_frame f c None 0 None (next_group tr)) | None => same_frames tr tr' end.
Proof.
  unfold create, checked_add. destruct (decide (next_group tr + 1 <= U64_MAX)) as [Hn|Hn]; [|by split_and!; [|reflexivity|]].
  destruct (alloc (slots tr) c None 0 None (next_group tr)) as [l' [f|]] eqn:E; [|by apply (alloc_none _ _ _ _ _ _ E)].
  pose proof (alloc_grows (slots tr) c None 0 None (next_group tr) Hsm Hsh) as Hg. rewrite E in Hg. destruct Hg as (Hg & Hun & Hus).
  destruct (slot_alloc tr c None 0 None (next_group tr) l' f (next_group tr + 1) Hsm Hsh E) as [H1 H2]. pose proof Hinv as [Hok Hr].
  split_and!; [split|..]; [|cbn [next_group]; lia|done|by split_and!]. eapply (alloc_ok _ (next_group tr)); [done|exact E|unfold MAX_FRAME_DEPTH in *; cbn [next_group]; lia..|split; lia].
Qed.

Lemma create_child_spec c p ord : let '(tr', r) := create_child c p ord tr in
  tree_inv tr' /\ grows (slots tr) (slots tr') /\
  match r with
  | Ok f => exists sp, slot tr p = Some sp /\ owner tr p = Some c /\ adds_frame tr tr' f (fresh_frame f c (Some p) (s_depth sp + 1) (Some ord) (s_group sp))
  | Err _ => same_frames tr tr'
  end.
Proof.
  unfold create_child. destruct (slot tr p) as [sp|] eqn:Ep; [|by split_and!; [|reflexivity|]].
  destruct (negb (is_live sp) || _) eqn:E1; [by split_and!; [|reflexivity|]|]. apply orb_false_iff in E1 as [Hl%negb_false_iff Ho%negb_false_iff%bool_decide_eq_true].
  unfold checked_add. destruct (decide _) as [Hd|]; [|by split_and!; [|reflexivity|]].
  destruct (MAX_FRAME_DEPTH <? s_depth sp + 1) eqn:E2; [by split_and!; [|reflexivity|]|]. apply Z.ltb_ge in E2. cbv zeta.
  destruct (existsb _ _) eqn:E3; [by split_and!; [|reflexivity|]|]. destruct (_ <=? _)%nat eqn:E4; [by split_and!; [|reflexivity|]|]. apply Nat.leb_gt in E4.
  destruct (alloc (slots tr) c (Some p) (s_depth sp + 1) (Some ord) (s_group sp)) as [l' [f|]] eqn:E; cbn [ok_or]; [|by apply (alloc_none _ _ _ _ _ _ E)].
  pose proof (alloc_grows (slots tr) c (Some p) (s_depth sp + 1) (Some ord) (s_group sp) Hsm Hsh) as Hg. rewrite E in Hg. destruct Hg as (Hg & Hun & Hus).
  destruct (slot_alloc tr c (Some p) (s_depth sp + 1) (Some ord) (s_group sp) l' f (next_group tr) Hsm Hsh E) as [H1 H2].
  pose proof Hinv as [Hok Hr]. pose proof Ep as Hp. apply slot_at_slot in Hp; [|done]. pose proof Hp as (Hp1 & Hp2 & _).
  destruct (to_embedded _ _ Hok _ _ Hp1 Hp2) as [[Hdp _] Hgp]. split_and!; [split; [|done]|done|exists sp; split_and!; [done|unfold owner; by rewrite Ep|by split_and!]].
  eapply (alloc_ok _ (next_group tr)); [done|exact E|unfold MAX_FRAME_DEPTH in *; cbn [next_group]; lia..|]. exists (Z.to_nat (index p)), sp. split_and!; try done.
  apply existsb_false in E3. rewrite Forall_forall in E3 |- *. intros s Hs Hc. specialize (E3 s). rewrite list_elem_of_In, filter_In, <- list_elem_of_In in E3.
  specialize (E3 (conj Hs Hc)). by apply bool_decide_eq_false in E3.
Qed.

(** A frame that is live and keeps its place is changed in that place. *)
Lemma update_spec f cond h : (forall s, cond s = true -> is_live s = true) -> (forall s, place (h s) = place s /\ is_live (h s) = is_live s) ->
  (forall s, slot_shape s -> cond s = true -> slot_shape (h s)) ->
  let '(tr', r) := update_slot tr f cond h in
  tree_inv tr' /\ grows (slots tr) (slots tr') /\
  (r = true <-> exists s, slot tr f = Some s /\ cond s = true) /\
  forall f', slot tr' f' = if decide (f' = f /\ r = true) then h <$> slot tr f else slot tr f'.
Proof.
  intros Hc Hh Hshape. pose proof Hinv as [Hok Hr]. assert (tree_inv tr /\ grows (slots tr) (slots tr)) as [_ Hrefl] by (by split; [|reflexivity]).
  unfold update_slot. destruct (slot tr f) as [s|] eqn:Es.
  - pose proof Es as Hat. apply slot_at_slot in Hat; [|done]. rewrite (proj2 (resolve_Some _ _ (Z.to_nat (index f)) Hsm)) by (by exists s).
    destruct Hat as (Hs & Hf & Ef). rewrite Hs. destruct (cond s) eqn:Econd.
    + destruct (Hh s) as [Hpl Hlv]. pose proof Hpl as Hpl'. unfold place in Hpl'. injection Hpl' as Hgen _ _ _ _.
      assert (tree_ok (<[Z.to_nat (index f) := h s]> (slots tr)) (next_group tr)) as Hok'.
      { eapply update_ok; [done|exact Hs|by apply Hshape; [eapply to_shape|]|done|by apply Hc|rewrite Hlv; by apply Hc]. }
      split_and!; [by split| |by split; [exists s|]|].
      * intros j t Ht. simpl. destruct (decide (Z.to_nat (index f) = j)) as [<-|Hne]; [|rewrite list_lookup_insert_ne by done; exists t; split; [done|lia]].
        rewrite Hs in Ht. injection Ht as <-. exists (h s). rewrite list_lookup_insert_eq by (by eapply lookup_lt_Some). split; [done|lia].
      * intros f'. destruct (decide (f' = f)) as [->|Hne].
        -- rewrite decide_True by done. simpl. apply slot_at_slot; [by apply Hok'|]. simpl. split_and!.
           ++ by rewrite list_lookup_insert_eq by (by eapply lookup_lt_Some).
           ++ apply is_live_in_use. rewrite Hlv. by apply Hc.
           ++ rewrite Ef at 1. unfold id_of. by rewrite Hgen.
        -- rewrite decide_False by (by intros [? _]). rewrite !slot_look; [|done|by apply Hok']. destruct (decide (0 <= index f')) as [H0|]; [|done].
           simpl. destruct (decide (Z.to_nat (index f) = Z.to_nat (index f'))) as [E|E]; [|by rewrite list_lookup_insert_ne by done].
           rewrite <- E, list_lookup_insert_eq, Hs by (by eapply lookup_lt_Some). assert (s_generation s <> generation f') as Hg.
           { intros Hg. apply Hne. destruct f' as [ix' g']. rewrite Ef in E |- *. unfold id_of in *. simpl in *. subst g'. f_equal. lia. }
           unfold look. cbn [mbind option_bind]. by rewrite Hgen, (proj2 (Z.eqb_neq _ _)) by done.
    + split_and!; [done|done|split; [done|intros (s' & [= <-] & ?); congruence]|]. intros f'. by rewrite decide_False by (intros [_ ?]; done).
  - assert (resolve (slots tr) f = None) as ->.
    { destruct (resolve _ f) as [i|] eqn:E; [|done]. apply (resolve_Some _ _ _ Hsm) in E as (s & Hs). apply (at_slot_slot tr f i s Hsm) in Hs as [Hs _]. congruence. }
    split_and!; [done|done|split; [done|by intros (s' & ? & _)]|]. intros f'. by rewrite decide_False by (intros [_ ?]; done).
Qed.
End alloc.
