(* ===== verification/Broker.v ===== *)
(** * The capability broker (px-broker/src/site.rs and lib.rs)

    Process keys and the process pool, the capability sets of the channels, and
    the operations of [Broker].  Starting, feeding and reaping the content
    processes is not modelled. *)
From S2P Require Import Prelude Bytes Keys Partition WebUrl WebOrigin FrameTree.
Local Open Scope Z_scope.

(** ** Process keys *)
Definition MAX_CONTENT_PROCESSES : nat := 64.

#[export] Instance Host_countable : Countable Host.
Proof.
  refine (inj_countable'
    (fun h => match h with Domain d => inl (inl d) | WebUrl.Opaque d => inl (inr d) | Ipv4 a => inr (inl (inl a)) | Ipv6 p => inr (inl (inr p)) | EmptyHost => inr (inr tt) end)
    (fun x => match x with inl (inl d) => Domain d | inl (inr d) => WebUrl.Opaque d | inr (inl (inl a)) => Ipv4 a | inr (inl (inr p)) => Ipv6 p | inr (inr tt) => EmptyHost end) _).
  by intros [].
Defined.

#[export] Instance WOrigin_countable : Countable WOrigin.t.
Proof.
  refine (inj_countable'
    (fun o => match o with WOrigin.Opaque i => inl i | WOrigin.Tuple s h p => inr (s, h, p) end)
    (fun x => match x with inl i => WOrigin.Opaque i | inr (s, h, p) => WOrigin.Tuple s h p end) _).
  by intros [].
Defined.

Module ProcessKey.
Record t := mkKey { top_level_site : list byte; origin : WOrigin.t }.

#[global] Instance eq_dec : EqDecision t.
Proof. solve_decision. Defined.
#[global] Instance countable : Countable t.
Proof. refine (inj_countable' (fun k => (top_level_site k, origin k)) (fun p => mkKey p.1 p.2) _). by intros []. Defined.

Definition new {T} `{SiteResolver T} (top_level o : WOrigin.t) (resolver : T) : option t :=
  host ← WOrigin.host top_level;
  match host with
  | Domain domain =>
      top_level_site ← site_of resolver domain;
      if bool_decide (top_level_site = []) then None else Some (mkKey top_level_site o)
  | _ => None
  end.
End ProcessKey.

(** ** The process pool *)
Inductive PoolError := PoolAtCap | KeyTaken | ChannelBusy.
Inductive PoolLookup := Share (channel : ChannelId) | Spawn | LookupAtCap.

Module ProcessPool.
Record t := mkPool {
  by_key : gmap (GroupId * ProcessKey.t) ChannelId;
  by_channel : gmap ChannelId (GroupId * ProcessKey.t)
}.

Definition new : t := mkPool ∅ ∅.

Definition lookup_key (group : GroupId) (key : ProcessKey.t) (p : t) : PoolLookup :=
  match by_key p !! (group, key) with
  | Some channel => Share channel
  | None => if (MAX_CONTENT_PROCESSES <=? size (by_channel p))%nat then LookupAtCap else Spawn
  end.

Definition register (group : GroupId) (key : ProcessKey.t) (channel : ChannelId) (p : t) : result PoolError t :=
  if bool_decide (is_Some (by_channel p !! channel)) then Err ChannelBusy
  else if bool_decide (is_Some (by_key p !! (group, key))) then Err KeyTaken
  else if (MAX_CONTENT_PROCESSES <=? size (by_channel p))%nat then Err PoolAtCap
  else Ok (mkPool (<[(group, key) := channel]> (by_key p)) (<[channel := (group, key)]> (by_channel p))).

Definition key_of (channel : ChannelId) (p : t) : option (GroupId * ProcessKey.t) := by_channel p !! channel.

Definition forget (channel : ChannelId) (p : t) : t :=
  match by_channel p !! channel with
  | Some entry => mkPool (delete entry (by_key p)) (delete channel (by_channel p))
  | None => p
  end.

Definition pool_len (p : t) : nat := size (by_channel p).
Definition is_empty (p : t) : bool := bool_decide (by_channel p = ∅).
End ProcessPool.

(** [FrameTree::process_key]. *)
Definition process_key {T} `{SiteResolver T} (frame : FrameId) (resolver : T) (tr : FrameTree.t) : option ProcessKey.t :=
  st ← FrameTree.state tr frame;
  if negb (bool_decide (st = Live)) then None
  else
    origin ← FrameTree.origin tr frame;
    let root := FrameTree.root_loop FrameTree.STEPS tr frame in
    if bool_decide (is_Some (FrameTree.parent tr root)) then None
    else top ← FrameTree.origin tr root; ProcessKey.new top origin resolver.

(** ** Messages and decisions *)
Inductive DenyReason :=
| NotYourFrame | NoSuchFrame | UnknownChannel | TooDeep | FrameLimit | NotAncestor | NoProcessKey | BadUrl | Internal.

#[export] Instance DenyReason_eq_dec : EqDecision DenyReason.
Proof. solve_decision. Defined.

Inductive HostAnswer := Local | Remote.
Inductive Request := Ping | Echo (payload : list byte) | FrameHostOf (frame : FrameId).
Inductive Response := Pong | EchoBack (payload : list byte) | FrameHostIs (host : HostAnswer) | Denied.

Inductive FrameEvent := FrameReplaced (frame : FrameId) | FrameCrashed (frame : FrameId) | SetViewport (frame : FrameId) (width height : Z).
Inductive NavigationKind := NavPush | NavReplace | NavReload.
Inductive FrameRequest := CreateChildFrame (parent : FrameId) (element_ordinal : Z) | NavigateFrame (frame : FrameId) (url : list byte) (kind : NavigationKind).
Inductive FrameResponse := FrameDenied | Created (frame : FrameId) | NavigationAuthorised.

Record Transfer := mkTransfer { replaced : option (ChannelId * FrameEvent); to_channel : ChannelId }.
Inductive CommitPlan := InPlace | Transferred (t : Transfer) | NeedsProcess (key : ProcessKey.t) | AtCap.

Record Decision := mkDecision { response : Response; audit_reason : option DenyReason }.
Definition allow (r : Response) : Decision := mkDecision r None.
Definition deny (reason : DenyReason) : Decision := mkDecision Denied (Some reason).

Record ChannelCaps := mkCaps { hosts : gset FrameId; visible : gset FrameId }.

Module Broker.
Definition AUDIT_CAPACITY : nat := 256.

Record t := mkBroker {
  next_channel : Z;
  capabilities : gmap ChannelId ChannelCaps;
  frames : FrameTree.t;
  pool : ProcessPool.t;
  audit : list (ChannelId * DenyReason)
}.

Definition new : t := mkBroker 0 ∅ FrameTree.new ProcessPool.new [].

Definition set_frames (fs : FrameTree.t) (b : t) : t := mkBroker (next_channel b) (capabilities b) fs (pool b) (audit b).
Definition set_caps (c : gmap ChannelId ChannelCaps) (b : t) : t := mkBroker (next_channel b) c (frames b) (pool b) (audit b).
Definition set_pool (p : ProcessPool.t) (b : t) : t := mkBroker (next_channel b) (capabilities b) (frames b) p (audit b).

Definition grant_host (channel : ChannelId) (frame : FrameId) (b : t) : t :=
  set_caps (alter (fun c => mkCaps ({[frame]} ∪ hosts c) ({[frame]} ∪ visible c)) channel (capabilities b)) b.

Definition open_channel (b : t) : t * option ChannelId :=
  let id := next_channel b in
  match checked_add U64_MAX (next_channel b) 1 with
  | None => (b, None)
  | Some next => (mkBroker next (<[id := mkCaps ∅ ∅]> (capabilities b)) (frames b) (pool b) (audit b), Some id)
  end.

Definition purge_dead_frames (b : t) : t :=
  set_caps (map_imap (fun channel c => Some (mkCaps
    (filter (fun f => FrameTree.owner (frames b) f = Some channel) (hosts c))
    (filter (fun f => FrameTree.exists_frame (frames b) f = true) (visible c)))) (capabilities b)) b.

Definition close_channel (channel : ChannelId) (b : t) : t :=
  let b := set_caps (delete channel (capabilities b)) b in
  let b := set_frames (FrameTree.release_all channel (frames b)) b in
  let b := set_pool (ProcessPool.forget channel (pool b)) b in
  purge_dead_frames b.

Definition channel_died (channel : ChannelId) (b : t) : t * list (ChannelId * FrameEvent) :=
  let b := set_caps (delete channel (capabilities b)) b in
  let b := set_pool (ProcessPool.forget channel (pool b)) b in
  let '(fs, notices) := FrameTree.crash_channel channel (frames b) in
  (purge_dead_frames (set_frames fs b), map (fun n => (n.1, FrameCrashed n.2)) notices).

Definition is_open (channel : ChannelId) (b : t) : bool := bool_decide (is_Some (capabilities b !! channel)).

Definition holds_frame (channel : ChannelId) (frame : FrameId) (b : t) : bool :=
  bool_decide (FrameTree.owner (frames b) frame = Some channel) &&
  match capabilities b !! channel with Some c => bool_decide (frame ∈ hosts c) | None => false end.

Definition can_see (channel : ChannelId) (frame : FrameId) (b : t) : bool :=
  bool_decide (is_Some (FrameTree.owner (frames b) frame)) &&
  match capabilities b !! channel with Some c => bool_decide (frame ∈ visible c) | None => false end.

(** What a refusal is called when the frame is, or is not, somebody's. *)
Definition refusal (frame : FrameId) (reason : DenyReason) (b : t) : DenyReason :=
  match FrameTree.owner (frames b) frame with None => NoSuchFrame | Some _ => reason end.

Definition tree_refusal (e : TreeError) : DenyReason :=
  match e with
  | TreeTooDeep => TooDeep
  | TooManyChildren | OrdinalTaken => FrameLimit
  | NoParent => NoSuchFrame
  | Full => Internal
  end.

Definition create_child_frame (channel : ChannelId) (parent : FrameId) (ordinal : Z) (b : t) : t * result DenyReason FrameId :=
  if negb (is_open channel b) then (b, Err UnknownChannel)
  else if negb (holds_frame channel parent b) then (b, Err (refusal parent NotYourFrame b))
  else match FrameTree.create_child channel parent ordinal (frames b) with
       | (fs, Err e) => (set_frames fs b, Err (tree_refusal e))
       | (fs, Ok frame) =>
           let b := set_frames fs b in
           if is_open channel b then (grant_host channel frame b, Ok frame) else (b, Err UnknownChannel)
       end.

Definition create_frame (channel : ChannelId) (b : t) : t * option FrameId :=
  if negb (is_open channel b) then (b, None)
  else match FrameTree.create channel (frames b) with
       | (fs, None) => (set_frames fs b, None)
       | (fs, Some frame) =>
           let b := set_frames fs b in
           if is_open channel b then (grant_host channel frame b, Some frame) else (b, None)
       end.

Definition transfer_frame (frame : FrameId) (to : ChannelId) (b : t) : t * result DenyReason Transfer :=
  match FrameTree.owner (frames b) frame with
  | None => (b, Err NoSuchFrame)
  | Some from =>
      if from =? to then (b, Ok (mkTransfer None to))
      else if negb (is_open to b) then (b, Err UnknownChannel)
      else
        let parent_owner := p ← FrameTree.parent (frames b) frame; FrameTree.owner (frames b) p in
        match FrameTree.transfer frame from to (frames b) with
        | (fs, false) => (set_frames fs b, Err Internal)
        | (fs, true) =>
            let b := set_frames fs b in
            let b := set_caps (alter (fun c => mkCaps (hosts c ∖ {[frame]})
                       (if bool_decide (parent_owner = Some from) then visible c else visible c ∖ {[frame]})) from (capabilities b)) b in
            let b := grant_host to frame b in
            let b := match parent_owner with
                     | Some o => set_caps (alter (fun c => mkCaps (hosts c) ({[frame]} ∪ visible c)) o (capabilities b)) b
                     | None => b
                     end in
            (b, Ok (mkTransfer (Some (from, FrameReplaced frame)) to))
        end
  end.

Definition map_plan (r : t * result DenyReason Transfer) : t * result DenyReason CommitPlan :=
  (r.1, match r.2 with Ok x => Ok (Transferred x) | Err e => Err e end).

Definition plan_other_process (frame : FrameId) (group : GroupId) (key : ProcessKey.t) (b : t) : t * result DenyReason CommitPlan :=
  match ProcessPool.lookup_key group key (pool b) with
  | Share to => map_plan (transfer_frame frame to b)
  | Spawn => (b, Ok (NeedsProcess key))
  | LookupAtCap => (b, Ok AtCap)
  end.

Definition commit_document {T} `{SiteResolver T} (frame : FrameId) (origin : WOrigin.t) (resolver : T) (b : t) : t * result DenyReason CommitPlan :=
  match FrameTree.owner (frames b) frame with
  | None => (b, Err NoSuchFrame)
  | Some current =>
      match FrameTree.commit_origin frame origin (frames b) with
      | (fs, false) => (set_frames fs b, Err NoSuchFrame)
      | (fs, true) =>
          let b := set_frames fs b in
          match process_key frame resolver (frames b) with
          | None => (b, Err NoProcessKey)
          | Some key =>
              match FrameTree.group (frames b) frame with
              | None => (b, Err NoSuchFrame)
              | Some group =>
                  match ProcessPool.key_of current (pool b) with
                  | Some (g, k) =>
                      if (g =? group) && bool_decide (k = key) then (b, Ok InPlace) else plan_other_process frame group key b
                  | None =>
                      match ProcessPool.lookup_key group key (pool b) with
                      | Share to => map_plan (transfer_frame frame to b)
                      | _ => match ProcessPool.register group key current (pool b) with
                             | Ok p => (set_pool p b, Ok InPlace)
                             | Err _ => (b, Err FrameLimit)
                             end
                      end
                  end
              end
          end
      end
  end.

Definition attach_process (frame : FrameId) (key : ProcessKey.t) (process : ChannelId) (b : t) : t * result DenyReason Transfer :=
  match FrameTree.group (frames b) frame with
  | None => (b, Err NoSuchFrame)
  | Some group =>
      if negb (is_open process b) then (b, Err UnknownChannel)
      else match ProcessPool.register group key process (pool b) with
           | Err _ => (b, Err FrameLimit)
           | Ok p => transfer_frame frame process (set_pool p b)
           end
  end.

Definition grant_visibility (viewer : ChannelId) (frame : FrameId) (b : t) : t * bool :=
  if bool_decide (FrameTree.owner (frames b) frame = None) then (b, false)
  else if is_open viewer b then
    (set_caps (alter (fun c => mkCaps (hosts c) ({[frame]} ∪ visible c)) viewer (capabilities b)) b, true)
  else (b, false).

(** The walk up from the frame, looking for one the channel holds. *)
Fixpoint holds_above (fuel : nat) (channel : ChannelId) (at_ : FrameId) (b : t) : bool :=
  match fuel with
  | O => false
  | S fuel =>
      match FrameTree.parent (frames b) at_ with
      | Some p => if holds_frame channel p b then true else holds_above fuel channel p b
      | None => false
      end
  end.

Definition authorise_navigation (channel : ChannelId) (frame : FrameId) (url : list byte) (b : t) : result DenyReason unit :=
  if negb (is_open channel b) then Err UnknownChannel
  else if negb (bool_decide (FrameTree.state (frames b) frame = Some Live)) then Err NoSuchFrame
  else if negb (holds_frame channel frame b || holds_above FrameTree.STEPS channel frame b) then Err (refusal frame NotAncestor b)
  else if bool_decide (Url.parse url = None) then Err BadUrl
  else Ok tt.

Definition record_reason (channel : ChannelId) (reason : DenyReason) (b : t) : t :=
  mkBroker (next_channel b) (capabilities b) (frames b) (pool b)
    ((if (AUDIT_CAPACITY <=? length (audit b))%nat then drop 1 (audit b) else audit b) ++ [(channel, reason)]).

Definition dispatch_frame (channel : ChannelId) (request : FrameRequest) (b : t) : t * (FrameResponse * option DenyReason) :=
  let '(b, outcome) :=
    match request with
    | CreateChildFrame parent element_ordinal =>
        let '(b, r) := create_child_frame channel parent element_ordinal b in
        (b, match r with Ok frame => Ok (Created frame) | Err e => Err e end)
    | NavigateFrame frame url _ =>
        (b, match authorise_navigation channel frame url b with Ok _ => Ok NavigationAuthorised | Err e => Err e end)
    end in
  match outcome with
  | Ok response => (b, (response, None))
  | Err reason => (record_reason channel reason b, (FrameDenied, Some reason))
  end.

Definition dispatch (channel : ChannelId) (request : Request) (b : t) : Decision :=
  if negb (is_open channel b) then deny UnknownChannel
  else match request with
       | Ping => allow Pong
       | Echo payload => allow (EchoBack payload)
       | FrameHostOf frame =>
           if negb (can_see channel frame b) then deny (refusal frame NotYourFrame b)
           else if holds_frame channel frame b then allow (FrameHostIs Local)
           else allow (FrameHostIs Remote)
       end.

Definition record (channel : ChannelId) (d : Decision) (b : t) : t :=
  match audit_reason d with Some reason => record_reason channel reason b | None => b end.

(** [panicked] is whether the handling of the request unwound. *)
Definition dispatch_guarded (panicked : bool) (channel : ChannelId) (request : Request) (b : t) : t * Decision :=
  let '(b, decision) := if panicked then (close_channel channel b, deny Internal) else (b, dispatch channel request b) in
  (record channel decision b, decision).
End Broker.
