(* ===== verification/BrokerInv.v ===== *)
(** * The broker's invariant (px-broker/src/lib.rs, [Broker])

    The capability sets and the frame tree agree, whoever may see a frame may
    see one that exists, and the pool is a bijection between open channels and
    what they serve; every operation keeps it. *)
From Stdlib Require Import Sorting.Sorted.
From S2P Require Import Prelude Bytes Partition Keys WebUrl WebOrigin FrameTree FrameView Broker.

Import Broker.
Local Open Scope Z_scope.

(** ** Capability sets *)
Definition hosts_of (C : gmap ChannelId ChannelCaps) (c : ChannelId) : gset FrameId := from_option hosts ∅ (C !! c).
Definition visible_of (C : gmap ChannelId ChannelCaps) (c : ChannelId) : gset FrameId := from_option visible ∅ (C !! c).

Record caps_ok (tr : FrameTree.t) (C : gmap ChannelId ChannelCaps) : Prop := {
  co_hosts : forall f c, FrameTree.owner tr f = Some c <-> f ∈ hosts_of C c;
  co_sight : forall f c, f ∈ hosts_of C c -> f ∈ visible_of C c;
  co_exists : forall f c, f ∈ visible_of C c -> is_Some (FrameTree.slot tr f)
}.

Lemma hosts_of_insert C c x c' : hosts_of (<[c := x]> C) c' = if decide (c' = c) then hosts x else hosts_of C c'.
Proof. unfold hosts_of. destruct (decide (c' = c)) as [->|]; [by rewrite lookup_insert_eq|by rewrite lookup_insert_ne]. Qed.
Lemma visible_of_insert C c x c' : visible_of (<[c := x]> C) c' = if decide (c' = c) then visible x else visible_of C c'.
Proof. unfold visible_of. destruct (decide (c' = c)) as [->|]; [by rewrite lookup_insert_eq|by rewrite lookup_insert_ne]. Qed.
Lemma hosts_of_delete C c c' : hosts_of (delete c C) c' = if decide (c' = c) then ∅ else hosts_of C c'.
Proof. unfold hosts_of. destruct (decide (c' = c)) as [->|]; [by rewrite lookup_delete_eq|by rewrite lookup_delete_ne]. Qed.
Lemma visible_of_delete C c c' : visible_of (delete c C) c' = if decide (c' = c) then ∅ else visible_of C c'.
Proof. unfold visible_of. destruct (decide (c' = c)) as [->|]; [by rewrite lookup_delete_eq|by rewrite lookup_delete_ne]. Qed.

Lemma hosts_of_alter f C c c' x : C !! c = Some x -> hosts_of (alter f c C) c' = if decide (c' = c) then hosts (f x) else hosts_of C c'.
Proof.
  intros Hc. unfold hosts_of. destruct (decide (c' = c)) as [->|]; [by rewrite lookup_alter_eq, Hc|by rewrite lookup_alter_ne].
Qed.
Lemma visible_of_alter f C c c' x : C !! c = Some x -> visible_of (alter f c C) c' = if decide (c' = c) then visible (f x) else visible_of C c'.
Proof.
  intros Hc. unfold visible_of. destruct (decide (c' = c)) as [->|]; [by rewrite lookup_alter_eq, Hc|by rewrite lookup_alter_ne].
Qed.
Lemma hosts_of_Some C c x : C !! c = Some x -> hosts_of C c = hosts x.
Proof. unfold hosts_of. by intros ->. Qed.
Lemma visible_of_Some C c x : C !! c = Some x -> visible_of C c = visible x.
Proof. unfold visible_of. by intros ->. Qed.

Lemma owner_slot tr tr' f : FrameTree.slot tr' f = FrameTree.slot tr f -> FrameTree.owner tr' f = FrameTree.owner tr f.
Proof. unfold FrameTree.owner. by intros ->. Qed.

(** Opening and granting leave what was granted. *)
Lemma caps_same tr tr' C : same_frames tr tr' -> caps_ok tr C -> caps_ok tr' C.
Proof.
  intros Hs [H1 H2 H3]. split; [intros f c; by rewrite (owner_slot tr tr' f (Hs f))|done|]. intros f c Hf. rewrite Hs. by apply (H3 f c).
Qed.

Lemma caps_open tr C c : C !! c = None -> caps_ok tr C -> caps_ok tr (<[c := mkCaps ∅ ∅]> C).
Proof.
  intros Hc [H1 H2 H3]. assert (hosts_of C c = ∅ /\ visible_of C c = ∅) as [Eh Ev] by (unfold hosts_of, visible_of; by rewrite Hc).
  assert (forall c', hosts_of (<[c := mkCaps ∅ ∅]> C) c' = hosts_of C c' /\ visible_of (<[c := mkCaps ∅ ∅]> C) c' = visible_of C c') as H.
  { intros c'. rewrite hosts_of_insert, visible_of_insert. destruct (decide (c' = c)) as [->|]; [by rewrite Eh, Ev|done]. }
  split; intros f c'; rewrite ?(proj1 (H c')), ?(proj2 (H c')); solve [apply H1|apply H2|apply H3].
Qed.

Lemma caps_adds tr tr' C c x f s : adds_frame tr tr' f s -> s_owner s = Some c -> C !! c = Some x -> caps_ok tr C ->
  caps_ok tr' (alter (fun c => mkCaps ({[f]} ∪ hosts c) ({[f]} ∪ visible c)) c C).
Proof.
  intros (_ & _ & Hf & Hs) Ho Hc [H1 H2 H3]. assert (forall c', f ∉ hosts_of C c') as Hnew.
  { intros c' Hin. apply H1 in Hin. unfold FrameTree.owner in Hin. by rewrite Hf in Hin. }
  split; intros f' c'; rewrite ?(hosts_of_alter _ C c c' x Hc), ?(visible_of_alter _ C c c' x Hc); simpl; rewrite <- ?(hosts_of_Some C c x Hc), <- ?(visible_of_Some C c x Hc).
  - unfold FrameTree.owner. rewrite Hs. destruct (decide (f' = f)) as [->|Hne]; cbn [mbind option_bind].
    + rewrite Ho. destruct (decide (c' = c)) as [->|Hne]; [set_solver|]. split; [congruence|]. intros Hin. by destruct (Hnew c').
    + fold (FrameTree.owner tr f'). rewrite H1. destruct (decide (c' = c)) as [->|]; set_solver.
  - destruct (decide (c' = c)) as [->|]; [|apply H2]. rewrite !elem_of_union, elem_of_singleton. intros [?|?]; [by left|right; by apply H2].
  - rewrite Hs. destruct (decide (f' = f)) as [->|Hne]; [by eexists|]. destruct (decide (c' = c)) as [->|]; [|apply H3].
    rewrite elem_of_union, elem_of_singleton. intros [?|?]; [done|by apply (H3 f' c)].
Qed.

Lemma caps_see tr C c x f : C !! c = Some x -> is_Some (FrameTree.slot tr f) -> caps_ok tr C ->
  caps_ok tr (alter (fun c => mkCaps (hosts c) ({[f]} ∪ visible c)) c C).
Proof.
  intros Hc Hf [H1 H2 H3]. split; intros f' c'; rewrite ?(hosts_of_alter _ C c c' x Hc), ?(visible_of_alter _ C c c' x Hc); simpl; rewrite <- ?(hosts_of_Some C c x Hc), <- ?(visible_of_Some C c x Hc).
  - rewrite H1. by destruct (decide (c' = c)) as [->|].
  - intros Hin. assert (f' ∈ hosts_of C c') as Hin' by (by destruct (decide (c' = c)) as [->|]). apply H2 in Hin'.
    destruct (decide (c' = c)) as [->|]; [set_solver|done].
  - destruct (decide (c' = c)) as [->|]; [|apply H3]. rewrite elem_of_union, elem_of_singleton. intros [->|?]; [done|by apply (H3 f' c)].
Qed.

(** Once the frames that are gone are struck out. *)
Lemma hosts_of_purge b c : hosts_of (capabilities (Broker.purge_dead_frames b)) c =
  filter (fun f => FrameTree.owner (frames b) f = Some c) (hosts_of (capabilities b) c).
Proof.
  unfold Broker.purge_dead_frames, hosts_of. simpl. rewrite map_lookup_imap. destruct (capabilities b !! c); cbn; [done|]. symmetry. apply set_eq. set_solver.
Qed.
Lemma visible_of_purge b c : visible_of (capabilities (Broker.purge_dead_frames b)) c =
  filter (fun f => FrameTree.exists_frame (frames b) f = true) (visible_of (capabilities b) c).
Proof.
  unfold Broker.purge_dead_frames, visible_of. simpl. rewrite map_lookup_imap. destruct (capabilities b !! c); cbn; [done|]. symmetry. apply set_eq. set_solver.
Qed.

Lemma caps_purge tr channel b : tree_inv (frames b) -> caps_ok tr (capabilities b) ->
  (forall f c, FrameTree.owner (frames b) f = Some c -> FrameTree.owner tr f = Some c /\ c <> channel) ->
  caps_ok (frames b) (capabilities (Broker.purge_dead_frames (Broker.set_caps (delete channel (capabilities b)) b))).
Proof.
  intros Hinv [H1 H2 H3] Ho. set (b' := Broker.set_caps _ b). change (frames b) with (frames b') in *.
  assert (capabilities b' = delete channel (capabilities b)) as EC by done.
  split; intros f c; rewrite ?hosts_of_purge, ?visible_of_purge, EC, ?hosts_of_delete, ?visible_of_delete, ?elem_of_filter.
  - split.
    + intros H. destruct (Ho f c H) as [H' Hne]. rewrite decide_False by done. split; [done|by apply H1].
    + by intros [? _].
  - rewrite (exists_slot _ _ (proj1 Hinv)). intros [Hf Hin]. apply (owner_Some _ _ (proj1 Hinv)) in Hf as (s & Hs & _). split; [by exists s|].
    destruct (decide (c = channel)); [done|by apply H2].
  - rewrite (exists_slot _ _ (proj1 Hinv)). by intros [? _].
Qed.

(** ** The pool *)
Record pool_ok (P : ProcessPool.t) (C : gmap ChannelId ChannelCaps) : Prop := {
  po_inverse : forall k c, ProcessPool.by_key P !! k = Some c <-> ProcessPool.by_channel P !! c = Some k;
  po_open : forall c k, ProcessPool.by_channel P !! c = Some k -> is_Some (C !! c);
  po_bound : (ProcessPool.pool_len P <= MAX_CONTENT_PROCESSES)%nat
}.

Lemma pool_register g k c P C P' : pool_ok P C -> is_Some (C !! c) -> ProcessPool.register g k c P = Ok P' ->
  pool_ok P' C /\ ProcessPool.key_of c P' = Some (g, k) /\ ProcessPool.by_key P !! (g, k) = None.
Proof.
  intros [H1 H2 H3] Hc. unfold ProcessPool.register. repeat case_bool_decide; try done. destruct (_ <=? _)%nat eqn:E; [done|]. intros [= <-].
  apply Nat.leb_gt in E. apply eq_None_not_Some in H as Hbc. apply eq_None_not_Some in H0 as Hbk. split_and!; [split|by apply lookup_insert_eq|done]; simpl.
  - intros k' c'. destruct (decide (k' = (g, k))) as [->|Hk], (decide (c' = c)) as [->|Hc'].
    + by rewrite !lookup_insert_eq.
    + rewrite lookup_insert_eq, lookup_insert_ne by done. split; [congruence|]. intros Hx. apply H1 in Hx. congruence.
    + rewrite lookup_insert_eq, lookup_insert_ne by done. split; [|congruence]. intros Hx. apply H1 in Hx. congruence.
    + by rewrite !lookup_insert_ne.
  - intros c' k'. rewrite lookup_insert_Some. intros [[<- _]|[_ Hx]]; [done|by eapply H2].
  - unfold ProcessPool.pool_len. simpl. rewrite map_size_insert_None by done. lia.
Qed.

Lemma pool_forget c P C : pool_ok P C -> pool_ok (ProcessPool.forget c P) (delete c C).
Proof.
  intros [H1 H2 H3]. unfold ProcessPool.forget. destruct (ProcessPool.by_channel P !! c) as [k|] eqn:E.
  - split; simpl.
    + intros k' c'. rewrite !lookup_delete_Some, H1. split; intros [Hne Hx]; (split; [|done]); intros <-; apply Hne; [congruence|].
      apply H1 in Hx, E. congruence.
    + intros c' k' [Hne Hx]%lookup_delete_Some. rewrite lookup_delete_ne by done. by eapply H2.
    + unfold ProcessPool.pool_len in *. simpl. pose proof (map_size_delete_Some c (ProcessPool.by_channel P)) as Hsz. rewrite Hsz by (by eexists). lia.
  - split; [done| |done]. intros c' k' Hx. rewrite lookup_delete_ne by congruence. by eapply H2.
Qed.

Lemma pool_more P C C' : (forall c, is_Some (C !! c) -> is_Some (C' !! c)) -> pool_ok P C -> pool_ok P C'.
Proof. intros H [H1 H2 H3]. split; [done| |done]. intros c k Hx. by eapply H, H2. Qed.

(** ** The invariant *)
Record broker_ok (b : Broker.t) : Prop := {
  bo_tree : tree_inv (frames b);
  bo_next : 0 <= next_channel b <= U64_MAX;
  bo_opened : forall c, is_Some (capabilities b !! c) -> 0 <= c < next_channel b;
  bo_caps : caps_ok (frames b) (capabilities b);
  bo_pool : pool_ok (pool b) (capabilities b);
  bo_audit : (length (audit b) <= AUDIT_CAPACITY)%nat
}.

Lemma broker_new_ok : broker_ok Broker.new.
Proof.
  split; simpl; try done; try lia.
  - split; [|done]. split.
    + done.
    + by intros [|i] s.
    + by intros [|i] s.
    + by intros [|i] j s s'.
    + intros p. simpl. unfold MAX_CHILDREN_PER_FRAME. lia.
  - intros c. rewrite lookup_empty. by intros [? ?].
  - split; unfold hosts_of, visible_of; intros f c; rewrite lookup_empty; simpl.
    + split; [|by intros ?%elem_of_empty]. unfold FrameTree.owner, FrameTree.slot, FrameTree.resolve. simpl. by destruct (try_from _ _).
    + done.
    + by intros ?%elem_of_empty.
  - split; simpl; [by intros k c; rewrite !lookup_empty|by intros c k; rewrite lookup_empty|]. unfold ProcessPool.pool_len. simpl. rewrite map_size_empty. lia.
Qed.

(** What an operation leaves of the broker: a good state, in which no handle
    has gone back to being unused and no channel has been forgotten. *)
Definition kept (b b' : Broker.t) : Prop :=
  broker_ok b' /\ grows (FrameTree.slots (frames b)) (FrameTree.slots (frames b')).

Lemma broker_kept_refl b : broker_ok b -> kept b b.
Proof. by split; [|reflexivity]. Qed.
Lemma broker_kept_trans b1 b2 b3 : kept b1 b2 -> kept b2 b3 -> kept b1 b3.
Proof. intros [_ H1] [H2 H3]. split; [done|by etrans]. Qed.

Section ops.
Context (b : Broker.t) (Hb : broker_ok b).

Lemma is_open_true c : is_open c b = true <-> is_Some (capabilities b !! c).
Proof. apply bool_decide_eq_true. Qed.

(** A frame's owner is an open channel that holds it. *)
Lemma owner_open f c : FrameTree.owner (frames b) f = Some c -> exists x, capabilities b !! c = Some x /\ f ∈ hosts x /\ f ∈ visible x.
Proof.
  intros Ho. apply (co_hosts _ _ (bo_caps _ Hb)) in Ho. pose proof (co_sight _ _ (bo_caps _ Hb) f c Ho) as Hv.
  unfold hosts_of, visible_of in *. destruct (capabilities b !! c) as [x|]; [by exists x|by apply elem_of_empty in Ho].
Qed.

Lemma holds_frame_true c f : holds_frame c f b = true <-> FrameTree.owner (frames b) f = Some c.
Proof.
  unfold holds_frame. rewrite andb_true_iff, bool_decide_eq_true. split; [by intros [? _]|]. intros Ho. split; [done|].
  destruct (owner_open f c Ho) as (x & -> & Hf & _). by apply bool_decide_eq_true.
Qed.

Lemma can_see_true c f : can_see c f b = true <-> is_Some (FrameTree.owner (frames b) f) /\ f ∈ visible_of (capabilities b) c.
Proof.
  unfold can_see. rewrite andb_true_iff, bool_decide_eq_true. unfold visible_of. destruct (capabilities b !! c) as [x|]; simpl.
  - by rewrite bool_decide_eq_true.
  - split; [by intros [_ ?]|by intros [_ ?%elem_of_empty]].
Qed.

Lemma owner_exists f c : FrameTree.owner (frames b) f = Some c -> is_Some (FrameTree.slot (frames b) f).
Proof. unfold FrameTree.owner. destruct (FrameTree.slot (frames b) f); [by eexists|done]. Qed.

(** *** Only the tree, only the capabilities *)
Lemma frames_kept fs : tree_inv fs -> grows (FrameTree.slots (frames b)) (FrameTree.slots fs) -> caps_ok fs (capabilities b) -> kept b (set_frames fs b).
Proof. intros Ht Hg Hc. destruct Hb. by split; [split|]. Qed.

Lemma alter_is_Some (f : ChannelCaps -> ChannelCaps) c c' (C : gmap ChannelId ChannelCaps) : is_Some (alter f c C !! c') <-> is_Some (C !! c').
Proof.
  destruct (decide (c' = c)) as [->|]; [rewrite lookup_alter_eq|by rewrite lookup_alter_ne]. by destruct (C !! c).
Qed.

Lemma caps_kept C : (forall c, is_Some (C !! c) <-> is_Some (capabilities b !! c)) -> caps_ok (frames b) C -> kept b (set_caps C b).
Proof.
  intros Hd HC. destruct Hb. split; [split|reflexivity]; simpl; try done.
  - intros c Hc. by apply bo_opened0, Hd.
  - eapply pool_more; [|done]. intros c. by rewrite Hd.
Qed.

Lemma pool_kept P : pool_ok P (capabilities b) -> kept b (set_pool P b).
Proof. intros HP. destruct Hb. by split; [split|reflexivity]. Qed.

Lemma push_audit (l : list (ChannelId * DenyReason)) x n : (length l <= n)%nat -> (0 < n)%nat ->
  (length ((if (n <=? length l)%nat then drop 1 l else l) ++ [x]) <= n)%nat.
Proof.
  intros Hl Hn. rewrite length_app. cbn [length]. destruct (n <=? length l)%nat eqn:E; [|apply Nat.leb_gt in E; lia].
  rewrite length_drop. lia.
Qed.

Lemma record_reason_kept c r : kept b (record_reason c r b).
Proof.
  destruct Hb. split; [split|reflexivity]; try done. apply push_audit; [done|unfold AUDIT_CAPACITY; lia].
Qed.

(** *** Channels *)
Lemma open_channel_kept : let '(b', r) := open_channel b in kept b b'.
Proof.
  unfold open_channel, checked_add. destruct (decide _) as [Hn|]; [|by apply broker_kept_refl]. destruct Hb as [H1 H2 H3 H4 H5 H6].
  assert (capabilities b !! next_channel b = None) as Hnone by (apply eq_None_not_Some; intros Hs%H3; lia).
  split; [split|reflexivity]; simpl; try done.
  - lia.
  - intros c. destruct (decide (c = next_channel b)) as [->|]; [lia|]. rewrite lookup_insert_ne by done. intros Hs%H3. lia.
  - by apply caps_open.
  - eapply pool_more; [|done]. intros c Hc. destruct (decide (c = next_channel b)) as [->|]; [by rewrite lookup_insert_eq|by rewrite lookup_insert_ne].
Qed.

(** A channel is struck out, and the frames that went with it. *)
Lemma gone_kept channel fs :
  tree_inv fs -> grows (FrameTree.slots (frames b)) (FrameTree.slots fs) ->
  (forall f c, FrameTree.owner fs f = Some c -> FrameTree.owner (frames b) f = Some c /\ c <> channel) ->
  kept b (purge_dead_frames (set_pool (ProcessPool.forget channel (pool b)) (set_frames fs (set_caps (delete channel (capabilities b)) b)))).
Proof.
  intros Ht Hg Ho. destruct Hb as [H1 H2 H3 H4 H5 H6].
  set (b0 := mkBroker (next_channel b) (capabilities b) fs (ProcessPool.forget channel (pool b)) (audit b)).
  change (set_pool _ _) with (set_caps (delete channel (capabilities b0)) b0).
  assert (forall c, is_Some (capabilities (purge_dead_frames (set_caps (delete channel (capabilities b0)) b0)) !! c) <-> is_Some (delete channel (capabilities b) !! c)) as Hd.
  { intros c. unfold purge_dead_frames. simpl. rewrite map_lookup_imap. destruct (delete channel (capabilities b) !! c); cbn; [by split; eexists|done]. }
  split; [split|done]; try done.
  - intros c Hc%Hd. apply H3. destruct Hc as [x Hc]. apply lookup_delete_Some in Hc as [_ Hc]. by eexists.
  - by apply (caps_purge (frames b) channel b0).
  - eapply pool_more; [|by apply pool_forget]. intros c. apply Hd.
Qed.

Lemma close_channel_kept channel : kept b (close_channel channel b).
Proof.
  pose proof (bo_tree _ Hb) as [Hok Hng]. apply (gone_kept channel (FrameTree.release_all channel (frames b))).
  - split; [by apply release_ok|done].
  - eapply grows_pointwise; [by intros i; apply release_slots|]. intros i s. cbv beta. by case_bool_decide.
  - intros f c H. by apply (release_owner _ _ Hok) in H as (? & ? & _).
Qed.

Lemma channel_died_eq channel : channel_died channel b =
  (purge_dead_frames (set_pool (ProcessPool.forget channel (pool b)) (set_frames (FrameTree.crash_channel channel (frames b)).1 (set_caps (delete channel (capabilities b)) b))),
   map (fun n => (n.1, FrameCrashed n.2)) (FrameTree.crash_channel channel (frames b)).2).
Proof. unfold channel_died. simpl. by destruct (FrameTree.crash_channel channel (frames b)). Qed.

Lemma crash_next channel tr : FrameTree.next_group (FrameTree.crash_channel channel tr).1 = FrameTree.next_group tr.
Proof. unfold FrameTree.crash_channel. by destruct (foldl _ _ _). Qed.

Lemma channel_died_kept channel : kept b (channel_died channel b).1.
Proof.
  pose proof (bo_tree _ Hb) as [Hok Hng]. rewrite channel_died_eq. apply gone_kept.
  - unfold tree_inv. rewrite crash_next. split; [by apply crash_ok|done].
  - eapply grows_pointwise; [by intros i; apply (crash_slots_lookup _ _ Hok)|]. intros i s. cbv beta. by repeat case_bool_decide.
  - intros f c H. by apply (crash_owner _ _ Hok) in H as (? & ? & _).
Qed.
End ops.

(** *** Frames *)
Lemma grant_host_kept b c fs f s : broker_ok b -> tree_inv fs -> grows (FrameTree.slots (frames b)) (FrameTree.slots fs) ->
  adds_frame (frames b) fs f s -> s_owner s = Some c -> is_Some (capabilities b !! c) -> kept b (grant_host c f (set_frames fs b)).
Proof.
  intros [H1 H2 H3 H4 H5 H6] Ht Hg Ha Ho [x Hx]. assert (caps_ok fs (capabilities (grant_host c f (set_frames fs b)))) as Hc by (by apply (caps_adds (frames b) fs _ c x f s)).
  split; [split|done]; try done.
  - intros c' Hc'. apply H3. unfold grant_host, set_caps, set_frames in Hc'. simpl in Hc'. by apply alter_is_Some in Hc'.
  - eapply pool_more; [|done]. intros c'. unfold grant_host, set_caps, set_frames. simpl. by rewrite alter_is_Some.
Qed.

Lemma create_frame_kept b c : broker_ok b -> let '(b', r) := create_frame c b in kept b b' /\
  match r with
  | Some f => adds_frame (frames b) (frames b') f (fresh_frame f c None 0 None (FrameTree.next_group (frames b)))
  | None => same_frames (frames b) (frames b')
  end.
Proof.
  intros Hb. unfold create_frame. destruct (is_open c b) eqn:Ec; cbn [negb]; [|by split; [apply broker_kept_refl|]].
  pose proof (create_spec (frames b) (bo_tree _ Hb) c) as H. destruct (FrameTree.create c (frames b)) as [fs [f|]]; destruct H as (Ht & Hg & H).
  - cbn zeta. change (is_open c (set_frames fs b)) with (is_open c b). rewrite Ec. split; [|done].
    eapply grant_host_kept; try done. by apply is_open_true.
  - split; [|done]. apply frames_kept; [done|done|done|]. by eapply caps_same; [|apply Hb].
Qed.

Lemma create_child_frame_kept b c p ord : broker_ok b -> let '(b', r) := create_child_frame c p ord b in kept b b' /\
  match r with
  | Ok f => exists sp, FrameTree.slot (frames b) p = Some sp /\ FrameTree.owner (frames b) p = Some c /\
      adds_frame (frames b) (frames b') f (fresh_frame f c (Some p) (s_depth sp + 1) (Some ord) (s_group sp))
  | Err _ => same_frames (frames b) (frames b')
  end.
Proof.
  intros Hb. unfold create_child_frame. destruct (is_open c b) eqn:Ec; cbn [negb]; [|by split; [apply broker_kept_refl|]].
  destruct (holds_frame c p b) eqn:Eh; cbn [negb]; [|by split; [apply broker_kept_refl|]].
  pose proof (create_child_spec (frames b) (bo_tree _ Hb) c p ord) as H. destruct (FrameTree.create_child c p ord (frames b)) as [fs [f|e]]; destruct H as (Ht & Hg & H).
  - cbn zeta. change (is_open c (set_frames fs b)) with (is_open c b). rewrite Ec. split; [|done]. destruct H as (sp & H1 & H2 & H3).
    eapply grant_host_kept; try done. by apply is_open_true.
  - split; [|done]. apply frames_kept; [done|done|done|]. by eapply caps_same; [|apply Hb].
Qed.

(** A frame moves: its new owner holds it, its old one does not. *)
Lemma caps_transfer tr tr' C f from to x y po : caps_ok tr C ->
  FrameTree.owner tr f = Some from -> from <> to -> C !! from = Some x -> C !! to = Some y ->
  (forall f', FrameTree.owner tr' f' = if decide (f' = f) then Some to else FrameTree.owner tr f') ->
  (forall f', is_Some (FrameTree.slot tr' f') <-> is_Some (FrameTree.slot tr f')) ->
  let C1 := alter (fun c => mkCaps (hosts c ∖ {[f]}) (if bool_decide (po = Some from) then visible c else visible c ∖ {[f]})) from C in
  let C2 := alter (fun c => mkCaps ({[f]} ∪ hosts c) ({[f]} ∪ visible c)) to C1 in
  let C3 := match po with Some o => alter (fun c => mkCaps (hosts c) ({[f]} ∪ visible c)) o C2 | None => C2 end in
  caps_ok tr' C3.
Proof.
  intros [H1 H2 H3] Ho Hne Hx Hy How Hex C1 C2 C3. assert (is_Some (FrameTree.slot tr' f)) as Hf.
  { apply Hex. apply (H3 f from), H2, H1, Ho. }
  assert (C1 !! to = Some y) as Hy1 by (unfold C1; by rewrite lookup_alter_ne).
  assert (forall c, hosts_of C1 c = if decide (c = from) then hosts_of C c ∖ {[f]} else hosts_of C c) as Eh1.
  { intros c. unfold C1. rewrite (hosts_of_alter _ C from c x Hx). destruct (decide (c = from)) as [->|]; [|done]. simpl. by rewrite (hosts_of_Some C from x Hx). }
  assert (forall c, hosts_of C2 c = if decide (c = to) then {[f]} ∪ hosts_of C1 c else hosts_of C1 c) as Eh2.
  { intros c. unfold C2. rewrite (hosts_of_alter _ C1 to c y Hy1). destruct (decide (c = to)) as [->|]; [|done]. simpl. by rewrite (hosts_of_Some C1 to y Hy1). }
  assert (forall f' c, FrameTree.owner tr' f' = Some c <-> f' ∈ hosts_of C2 c) as Hown.
  { intros f' c. rewrite How, Eh2, Eh1. pose proof (H1 f' c) as Hc. pose proof (H1 f c) as Hc'. rewrite Ho in Hc'.
    destruct (decide (f' = f)) as [->|Hf']; repeat case_decide; subst; rewrite ?elem_of_union, ?elem_of_difference, ?elem_of_singleton; try tauto.
    - split; [congruence|]. tauto.
    - split; [congruence|]. intros Hin. apply Hc' in Hin. congruence. }
  assert (forall f' c, f' ∈ visible_of C2 c -> f' = f \/ f' ∈ visible_of C c) as Hv.
  { intros f' c. unfold C2. rewrite (visible_of_alter _ C1 to c y Hy1). destruct (decide (c = to)) as [->|].
    - simpl. rewrite elem_of_union, elem_of_singleton. intros [?|Hin]; [by left|right]. by rewrite (visible_of_Some C to y Hy).
    - unfold C1. rewrite (visible_of_alter _ C from c x Hx). destruct (decide (c = from)) as [->|]; [|by right]. rewrite (visible_of_Some C from x Hx). simpl.
      case_bool_decide; [by right|]. intros [? _]%elem_of_difference. by right. }
  assert (forall f' c, f' ∈ hosts_of C2 c -> f' ∈ visible_of C2 c) as Hhv.
  { intros f' c. rewrite Eh2, Eh1. unfold C2. rewrite (visible_of_alter _ C1 to c y Hy1). destruct (decide (c = to)) as [->|Hct]; simpl.
    - rewrite decide_False by done. rewrite !elem_of_union. intros [?|Hin]; [by left|right]. apply H2 in Hin. by rewrite (visible_of_Some C to y Hy) in Hin.
    - unfold C1. rewrite (visible_of_alter _ C from c x Hx). destruct (decide (c = from)) as [->|]; [|apply H2]. simpl. rewrite elem_of_difference.
      intros [Hin Hnf]. apply H2 in Hin. rewrite (visible_of_Some C from x Hx) in Hin. case_bool_decide; [done|]. by apply elem_of_difference. }
  assert (caps_ok tr' C2) as HC2.
  { split; [done|done|]. intros f' c Hin. destruct (Hv f' c Hin) as [->|Hin']; [done|]. by apply Hex, (H3 f' c). }
  unfold C3. destruct po as [o|]; [|done]. destruct (C2 !! o) as [z|] eqn:Ez; [by eapply caps_see|].
  assert (alter (fun c => mkCaps (hosts c) ({[f]} ∪ visible c)) o C2 = C2) as ->; [|done]. apply map_eq. intros c.
  destruct (decide (c = o)) as [->|]; [by rewrite lookup_alter_eq, Ez|by rewrite lookup_alter_ne].
Qed.

Lemma transfer_spec tr f from to : tree_inv tr -> FrameTree.owner tr f = Some from ->
  let '(tr', r) := FrameTree.transfer f from to tr in
  r = true /\ tree_inv tr' /\ grows (FrameTree.slots tr) (FrameTree.slots tr') /\
  (forall f', FrameTree.slot tr' f' = if decide (f' = f) then set_owner (Some to) <$> FrameTree.slot tr f else FrameTree.slot tr f') /\
  (forall f', FrameTree.owner tr' f' = if decide (f' = f) then Some to else FrameTree.owner tr f').
Proof.
  intros Ht Ho. unfold FrameTree.transfer. apply (owner_Some _ _ (proj1 Ht)) in Ho as (s & Hs & Hl & Hc).
  pose proof (update_spec tr Ht f (fun s => is_live s && bool_decide (s_owner s = Some from)) (set_owner (Some to))) as H.
  destruct (FrameTree.update_slot tr f _ _) as [tr' r]. destruct H as (H1 & H2 & H3 & H4).
  - by intros t [? _]%andb_true_iff.
  - done.
  - intros t [Hg Hsh] [Hlt _]%andb_true_iff. split; [done|]. unfold is_live in Hlt. apply bool_decide_eq_true in Hlt. simpl. rewrite Hlt in *. by eexists.
  - assert (r = true) as -> by (apply H3; exists s; split; [done|]; rewrite Hl; by apply bool_decide_eq_true).
    assert (forall f', FrameTree.slot tr' f' = if decide (f' = f) then set_owner (Some to) <$> FrameTree.slot tr f else FrameTree.slot tr f') as H5.
    { intros f'. rewrite H4. destruct (decide (f' = f)) as [->|]; [by rewrite decide_True|by rewrite decide_False by (by intros [? _])]. }
    split_and!; try done. intros f'. unfold FrameTree.owner. rewrite H5. destruct (decide (f' = f)) as [->|]; [|done]. by rewrite Hs.
Qed.

(** The trees show the same frames, whoever owns them. *)
Definition same_view (tr tr' : FrameTree.t) : Prop := forall f,
  FrameTree.state tr' f = FrameTree.state tr f /\ FrameTree.parent tr' f = FrameTree.parent tr f /\
  FrameTree.origin tr' f = FrameTree.origin tr f /\ FrameTree.group tr' f = FrameTree.group tr f.

(** Whatever it answers, a transfer leaves the place of every frame, and a
    frame that moved is its new owner's. *)
Lemma transfer_frame_kept b f to : broker_ok b -> let '(b', r) := transfer_frame f to b in kept b b' /\
  pool b' = pool b /\ (forall c, is_Some (capabilities b' !! c) <-> is_Some (capabilities b !! c)) /\
  same_view (frames b) (frames b') /\
  match r with
  | Ok x => to_channel x = to /\ forall f', FrameTree.owner (frames b') f' = if decide (f' = f) then Some to else FrameTree.owner (frames b) f'
  | Err _ => b' = b
  end.
Proof.
  intros Hb. unfold transfer_frame. destruct (FrameTree.owner (frames b) f) as [from|] eqn:Ef; [|by split; [apply broker_kept_refl|]].
  destruct (from =? to) eqn:E.
  { apply Z.eqb_eq in E as ->. split; [by apply broker_kept_refl|]. split_and!; try done. intros f'. by destruct (decide (f' = f)) as [->|]. }
  apply Z.eqb_neq in E. destruct (is_open to b) eqn:Eo; cbn [negb]; [|by split; [apply broker_kept_refl|]].
  apply is_open_true in Eo as [y Hy]. destruct (owner_open b Hb f from Ef) as (x & Hx & _). cbv zeta.
  set (po := p ← FrameTree.parent (frames b) f; FrameTree.owner (frames b) p).
  pose proof (transfer_spec (frames b) f from to (bo_tree _ Hb) Ef) as H. destruct (FrameTree.transfer f from to (frames b)) as [fs r].
  destruct H as (-> & Ht & Hg & Hs & How). cbv zeta.
  pose proof (caps_transfer (frames b) fs (capabilities b) f from to x y po (bo_caps _ Hb) Ef E Hx Hy How) as HC. cbv zeta in HC.
  match goal with |- kept b ?b' /\ _ => assert (forall c, is_Some (capabilities b' !! c) <-> is_Some (capabilities b !! c)) as Hd end.
  { intros c. destruct po; unfold grant_host, set_caps, set_frames; simpl; by rewrite !alter_is_Some. }
  match goal with |- kept b ?b' /\ _ => assert (frames b' = fs /\ pool b' = pool b /\ audit b' = audit b /\ next_channel b' = next_channel b) as (Hfs & Hp & Ha & Hn) end.
  { by destruct po. }
  rewrite Hfs. split_and!; try done.
  - split; [split|by rewrite Hfs].
    + by rewrite Hfs.
    + rewrite Hn. apply Hb.
    + intros c Hc%Hd. rewrite Hn. by apply Hb.
    + rewrite Hfs. destruct po; apply HC; intros f'; rewrite Hs; (destruct (decide (f' = f)) as [->|]; [by rewrite fmap_is_Some|done]).
    + rewrite Hp. eapply pool_more; [|apply Hb]. intros c. by rewrite Hd.
    + rewrite Ha. apply Hb.
  - intros f'. unfold FrameTree.state, FrameTree.parent, FrameTree.origin, FrameTree.group. rewrite Hs.
    destruct (decide (f' = f)) as [->|]; [|done]. by destruct (FrameTree.slot (frames b) f).
Qed.

Lemma root_loop_ext tr tr' fuel f : (forall f', FrameTree.parent tr' f' = FrameTree.parent tr f') -> FrameTree.root_loop fuel tr' f = FrameTree.root_loop fuel tr f.
Proof.
  intros Hp. revert f. induction fuel as [|fuel IH]; intros f; [done|]. simpl. rewrite Hp. by destruct (FrameTree.parent tr f).
Qed.

(** The key of a frame's process comes from what the tree shows of it. *)
Lemma process_key_ext {T} `{SiteResolver T} tr tr' f (r : T) : same_view tr tr' -> process_key f r tr' = process_key f r tr.
Proof.
  intros Hv. unfold process_key. destruct (Hv f) as (-> & _ & -> & _). rewrite (root_loop_ext tr tr') by apply Hv.
  set (root := FrameTree.root_loop _ tr f). by destruct (Hv root) as (_ & -> & -> & _).
Qed.

Lemma commit_origin_spec tr f o : tree_inv tr -> is_Some (FrameTree.owner tr f) ->
  let '(tr', r) := FrameTree.commit_origin f o tr in
  r = true /\ tree_inv tr' /\ grows (FrameTree.slots tr) (FrameTree.slots tr') /\
  (forall f', FrameTree.slot tr' f' = if decide (f' = f) then set_origin (Some o) <$> FrameTree.slot tr f else FrameTree.slot tr f').
Proof.
  intros Ht [c (s & Hs & Hl & Hc)%(owner_Some _ _ (proj1 Ht))]. unfold FrameTree.commit_origin.
  pose proof (update_spec tr Ht f is_live (set_origin (Some o))) as H.
  destruct (FrameTree.update_slot tr f _ _) as [tr' r]. destruct H as (H1 & H2 & H3 & H4); [done|done|done|].
  assert (r = true) as -> by (apply H3; by exists s). split_and!; try done.
  intros f'. rewrite H4. destruct (decide (f' = f)) as [->|]; [by rewrite decide_True|by rewrite decide_False by (by intros [? _])].
Qed.

Lemma commit_origin_caps tr tr' f o C : caps_ok tr C ->
  (forall f', FrameTree.slot tr' f' = if decide (f' = f) then set_origin (Some o) <$> FrameTree.slot tr f else FrameTree.slot tr f') ->
  (forall f', FrameTree.owner tr' f' = FrameTree.owner tr f') /\ caps_ok tr' C.
Proof.
  intros [H1 H2 H3] Hs. assert (forall f', FrameTree.owner tr' f' = FrameTree.owner tr f') as Ho.
  { intros f'. unfold FrameTree.owner. rewrite Hs. destruct (decide (f' = f)) as [->|]; [|done]. by destruct (FrameTree.slot tr f). }
  split; [done|]. split; [intros f' c; by rewrite Ho|done|]. intros f' c Hf. rewrite Hs. specialize (H3 f' c Hf).
  destruct (decide (f' = f)) as [->|]; [by rewrite fmap_is_Some|done].
Qed.

Lemma lookup_Share P g k c C : pool_ok P C -> ProcessPool.lookup_key g k P = Share c -> ProcessPool.key_of c P = Some (g, k).
Proof.
  intros [H1 _ _]. unfold ProcessPool.lookup_key. destruct (ProcessPool.by_key P !! (g, k)) as [c'|] eqn:E; [intros [= ->]; by apply H1|by destruct (_ <=? _)%nat].
Qed.

Lemma lookup_free P g k : ProcessPool.by_key P !! (g, k) = None <-> forall c, ProcessPool.lookup_key g k P <> Share c.
Proof.
  unfold ProcessPool.lookup_key. destruct (ProcessPool.by_key P !! (g, k)) as [c|]; [split; [done|intros H; by destruct (H c)]|].
  split; [|done]. intros _ c. by destruct (_ <=? _)%nat.
Qed.

(** ** Committing a document *)
(** The frame's process serves its group and key, and no other. *)
Definition served {T} `{SiteResolver T} (resolver : T) (f : FrameId) (b : Broker.t) : Prop :=
  exists c g k, FrameTree.owner (frames b) f = Some c /\ FrameTree.group (frames b) f = Some g /\
    process_key f resolver (frames b) = Some k /\ ProcessPool.key_of c (pool b) = Some (g, k).

Definition committed {T} `{SiteResolver T} (resolver : T) (f : FrameId) (o : WOrigin.t) (b b' : Broker.t) (r : result DenyReason CommitPlan) : Prop :=
  match r with
  | Ok InPlace => served resolver f b' /\ FrameTree.owner (frames b') f = FrameTree.owner (frames b) f
  | Ok (Transferred t) => served resolver f b' /\ FrameTree.owner (frames b') f = Some (to_channel t)
  | Ok (NeedsProcess k) => process_key f resolver (frames b') = Some k /\ FrameTree.owner (frames b') f = FrameTree.owner (frames b) f /\
      exists g, FrameTree.group (frames b') f = Some g /\ ProcessPool.by_key (pool b') !! (g, k) = None
  | Ok AtCap => ProcessPool.pool_len (pool b') = MAX_CONTENT_PROCESSES /\ FrameTree.owner (frames b') f = FrameTree.owner (frames b) f
  | Err NoProcessKey => process_key f resolver (frames b') = None /\ FrameTree.owner (frames b') f = FrameTree.owner (frames b) f
  | Err e => (e = NoSuchFrame /\ FrameTree.owner (frames b) f = None /\ b' = b) \/
      (e = FrameLimit /\ ProcessPool.pool_len (pool b') = MAX_CONTENT_PROCESSES)
  end.

Lemma share_transfer {T} `{SiteResolver T} (resolver : T) b f g k to : broker_ok b -> is_Some (FrameTree.owner (frames b) f) ->
  FrameTree.group (frames b) f = Some g -> process_key f resolver (frames b) = Some k -> ProcessPool.lookup_key g k (pool b) = Share to ->
  let '(b', r) := transfer_frame f to b in kept b b' /\ same_view (frames b) (frames b') /\
  exists t, r = Ok t /\ served resolver f b' /\ FrameTree.owner (frames b') f = Some (to_channel t).
Proof.
  intros Hb [c Hc] Hg Hk Hl. pose proof (lookup_Share _ _ _ _ _ (bo_pool _ Hb) Hl) as Hto.
  pose proof (po_open _ _ (bo_pool _ Hb) _ _ Hto) as Hopen. pose proof (transfer_frame_kept b f to Hb) as Ht.
  destruct (transfer_frame f to b) as [b' r] eqn:E. destruct Ht as (H1 & H2 & H3 & H4 & H5). split_and!; [done|done|].
  destruct r as [t|e].
  - destruct H5 as [<- H5]. exists t. specialize (H5 f). rewrite decide_True in H5 by done. split_and!; [done| |done].
    exists (to_channel t), g, k. split_and!; [done| |by rewrite (process_key_ext _ _ _ _ H4)|by rewrite H2]. destruct (H4 f) as (_ & _ & _ & ->). done.
  - exfalso. unfold transfer_frame in E. rewrite Hc in E. destruct (c =? to); [done|]. rewrite (proj2 (is_open_true b to) Hopen) in E. cbn [negb] in E. cbv zeta in E.
    pose proof (transfer_spec (frames b) f c to (bo_tree _ Hb) Hc) as Hs. destruct (FrameTree.transfer f c to (frames b)) as [fs r'].
    destruct Hs as (-> & _). done.
Qed.

Lemma pool_full P C : pool_ok P C -> (MAX_CONTENT_PROCESSES <= ProcessPool.pool_len P)%nat -> ProcessPool.pool_len P = MAX_CONTENT_PROCESSES.
Proof. intros [_ _ H]. lia. Qed.

Lemma lookup_spec g k P C : pool_ok P C ->
  match ProcessPool.lookup_key g k P with
  | Share c => ProcessPool.key_of c P = Some (g, k)
  | Spawn => ProcessPool.by_key P !! (g, k) = None /\ (ProcessPool.pool_len P < MAX_CONTENT_PROCESSES)%nat
  | LookupAtCap => ProcessPool.by_key P !! (g, k) = None /\ ProcessPool.pool_len P = MAX_CONTENT_PROCESSES
  end.
Proof.
  intros HP. destruct (ProcessPool.lookup_key g k P) eqn:E; [by eapply lookup_Share|..]; unfold ProcessPool.lookup_key in E;
    destruct (ProcessPool.by_key P !! (g, k)) eqn:Ek; try done; destruct (_ <=? _)%nat eqn:El; try done; split; try done.
  - by apply Nat.leb_gt in El.
  - apply Nat.leb_le in El. by eapply pool_full.
Qed.

Section commit.
Context {T} `{SiteResolver T} (resolver : T).

(** The plan when the frame's process does not serve its key, or serves none. *)
Lemma plan_other_kept b f g k : broker_ok b -> is_Some (FrameTree.owner (frames b) f) ->
  FrameTree.group (frames b) f = Some g -> process_key f resolver (frames b) = Some k ->
  let '(b', r) := plan_other_process f g k b in kept b b' /\ same_view (frames b) (frames b') /\ exists p, r = Ok p /\
  match p with
  | InPlace => False
  | Transferred t => served resolver f b' /\ FrameTree.owner (frames b') f = Some (to_channel t)
  | NeedsProcess k' => b' = b /\ k' = k /\ ProcessPool.by_key (pool b') !! (g, k) = None
  | AtCap => b' = b /\ ProcessPool.pool_len (pool b') = MAX_CONTENT_PROCESSES
  end.
Proof.
  intros Hb Ho Hg Hk. unfold plan_other_process. pose proof (lookup_spec g k _ _ (bo_pool _ Hb)) as Hl.
  destruct (ProcessPool.lookup_key g k (pool b)) as [to| |] eqn:El; cycle 1.
  1,2: split_and!; [by apply broker_kept_refl|done|]; eexists; split; [done|]; simpl; tauto.
  pose proof (share_transfer resolver b f g k to Hb Ho Hg Hk El) as Ht. unfold map_plan. destruct (transfer_frame f to b) as [b' r].
  destruct Ht as (H1 & H2 & t & -> & H3). split_and!; [done|done|]. simpl. by eexists.
Qed.

Lemma register_own b g k c : broker_ok b -> is_Some (capabilities b !! c) -> ProcessPool.key_of c (pool b) = None ->
  ProcessPool.by_key (pool b) !! (g, k) = None ->
  (exists P, ProcessPool.register g k c (pool b) = Ok P /\ kept b (set_pool P b) /\ ProcessPool.key_of c P = Some (g, k)) \/
  ((exists e, ProcessPool.register g k c (pool b) = Err e) /\ ProcessPool.pool_len (pool b) = MAX_CONTENT_PROCESSES).
Proof.
  intros Hb Hc Hno Hk. destruct (ProcessPool.register g k c (pool b)) as [P|e] eqn:E.
  - left. exists P. split; [done|]. apply (pool_register _ _ _ _ _ _ (bo_pool _ Hb) Hc) in E as (H1 & H2 & _). split; [by apply pool_kept|done].
  - right. split; [by eexists|]. unfold ProcessPool.register in E. unfold ProcessPool.key_of in Hno. rewrite Hno, Hk in E.
    rewrite !bool_decide_eq_false_2 in E by (by intros [? ?]). destruct (_ <=? _)%nat eqn:El; [|done]. apply Nat.leb_le in El. by eapply pool_full; [apply Hb|].
Qed.

Lemma commit_document_kept b f o : broker_ok b -> let '(b', r) := commit_document f o resolver b in kept b b' /\ committed resolver f o b b' r.
Proof.
  intros Hb. unfold commit_document. destruct (FrameTree.owner (frames b) f) as [current|] eqn:Ef; [|by split; [apply broker_kept_refl|left]].
  pose proof (commit_origin_spec (frames b) f o (bo_tree _ Hb) ltac:(by eexists)) as Hco. destruct (FrameTree.commit_origin f o (frames b)) as [fs r].
  destruct Hco as (-> & Ht & Hg & Hs). cbv zeta. destruct (commit_origin_caps (frames b) fs f o _ (bo_caps _ Hb) Hs) as [How HC].
  pose proof (frames_kept b Hb fs Ht Hg HC) as Hk1. set (b1 := set_frames fs b) in *. pose proof (proj1 Hk1) as Hb1.
  assert (FrameTree.owner (frames b1) f = Some current) as Ef1 by (by rewrite <- Ef; apply How).
  assert (FrameTree.owner (frames b1) f = FrameTree.owner (frames b) f) as Eown by apply How.
  destruct (process_key f resolver (frames b1)) as [k|] eqn:Ek; [|by split].
  destruct (FrameTree.group (frames b1) f) as [g|] eqn:Eg.
  2: { unfold FrameTree.owner, FrameTree.group in *. by destruct (FrameTree.slot (frames b1) f). }
  assert (forall b' r', plan_other_process f g k b1 = (b', r') -> kept b b' /\ committed resolver f o b b' r') as Hplan.
  { intros b' r' E. pose proof (plan_other_kept b1 f g k Hb1 ltac:(by eexists) Eg Ek) as Hp. rewrite E in Hp. destruct Hp as (H1 & H2 & p & -> & Hp).
    split; [by eapply broker_kept_trans|]. simpl. destruct p as [|t|k'|]; [done|done|destruct Hp as (-> & -> & Hp)|destruct Hp as (-> & Hp)]; split_and!; try done.
    exists g. by split. }
  destruct (ProcessPool.key_of current (pool b1)) as [[g' k']|] eqn:Ec.
  - destruct ((g' =? g) && bool_decide (k' = k)) eqn:E; [|by destruct (plan_other_process f g k b1) as [b' r']; apply Hplan].
    apply andb_true_iff in E as [->%Z.eqb_eq ->%bool_decide_eq_true]. split; [done|]. split; [|done]. by exists current, g, k.
  - pose proof (lookup_spec g k _ _ (bo_pool _ Hb1)) as Hl.
    destruct (ProcessPool.lookup_key g k (pool b1)) as [to| |] eqn:El.
    + specialize (Hplan (map_plan (transfer_frame f to b1)).1 (map_plan (transfer_frame f to b1)).2). unfold plan_other_process in Hplan. rewrite El in Hplan.
      destruct (map_plan _) as [b' r']. by apply Hplan.
    + destruct (owner_open b1 Hb1 f current Ef1) as (x & Hx & _).
      destruct (register_own b1 g k current Hb1 ltac:(by eexists) Ec (proj1 Hl)) as [(P & -> & H1 & H2)|[[e ->] H1]].
      * split; [by eapply broker_kept_trans|]. split; [|done]. by exists current, g, k.
      * split; [done|]. right. by split.
    + destruct (owner_open b1 Hb1 f current Ef1) as (x & Hx & _).
      destruct (register_own b1 g k current Hb1 ltac:(by eexists) Ec (proj1 Hl)) as [(P & -> & H1 & H2)|[[e ->] H1]].
      * split; [by eapply broker_kept_trans|]. split; [|done]. by exists current, g, k.
      * split; [done|]. right. by split.
Qed.

Lemma attach_process_kept b f k c : broker_ok b -> kept b (attach_process f k c b).1.
Proof.
  intros Hb. unfold attach_process. destruct (FrameTree.group (frames b) f) as [g|]; [|by apply broker_kept_refl].
  destruct (is_open c b) eqn:Eo; cbn [negb]; [|by apply broker_kept_refl]. apply is_open_true in Eo.
  destruct (ProcessPool.register g k c (pool b)) as [P|e] eqn:E; [|by apply broker_kept_refl].
  apply (pool_register _ _ _ _ _ _ (bo_pool _ Hb) Eo) in E as (H1 & _). pose proof (pool_kept b Hb P H1) as Hk.
  pose proof (transfer_frame_kept (set_pool P b) f c (proj1 Hk)) as Ht. destruct (transfer_frame f c _) as [b' r]. destruct Ht as (Ht & _). exact (broker_kept_trans _ _ _ Hk Ht).
Qed.
End commit.

Lemma grant_visibility_kept b c f : broker_ok b -> kept b (grant_visibility c f b).1.
Proof.
  intros Hb. unfold grant_visibility. case_bool_decide as Ho; [by apply broker_kept_refl|]. destruct (is_open c b) eqn:Eo; [|by apply broker_kept_refl].
  apply is_open_true in Eo as [x Hx]. apply caps_kept; [done|intros c'; apply alter_is_Some|]. eapply caps_see; [exact Hx| |apply Hb].
  destruct (FrameTree.owner (frames b) f) as [o|] eqn:E; [|done]. by eapply owner_exists.
Qed.

Lemma dispatch_frame_kept b c req : broker_ok b -> kept b (dispatch_frame c req b).1.
Proof.
  intros Hb. unfold dispatch_frame. assert (forall b1 (o : result DenyReason FrameResponse), kept b b1 ->
    kept b (match o with Ok response => (b1, (response, None)) | Err reason => (record_reason c reason b1, (FrameDenied, Some reason)) end).1) as H.
  { intros b1 [r|e] H1; [done|]. eapply broker_kept_trans; [exact H1|]. by apply record_reason_kept, H1. }
  destruct req as [p ord|f url kind].
  - pose proof (create_child_frame_kept b c p ord Hb) as Hk. destruct (create_child_frame c p ord b) as [b1 r]. apply H, Hk.
  - apply H. by apply broker_kept_refl.
Qed.

Lemma dispatch_guarded_kept b panicked c req : broker_ok b -> kept b (dispatch_guarded panicked c req b).1.
Proof.
  intros Hb. unfold dispatch_guarded. assert (forall b1 d, kept b b1 -> kept b (record c d b1)) as H.
  { intros b1 d H1. unfold record. destruct (audit_reason d); [|done]. eapply broker_kept_trans; [exact H1|]. by apply record_reason_kept, H1. }
  destruct panicked; apply H; [by apply close_channel_kept|by apply broker_kept_refl].
Qed.

(** * The broker as a state machine, and what it promises

    Runs of the broker are sequences of its public operations; the theorems are
    about every state a run reaches. *)
Import Broker.
Local Open Scope Z_scope.

(** ** Runs *)
Inductive Op :=
| OpenChannel
| CloseChannel (c : ChannelId)
| ChannelDied (c : ChannelId)
| CreateFrame (c : ChannelId)
| CommitDocument (f : FrameId) (o : WOrigin.t)
| AttachProcess (f : FrameId) (k : ProcessKey.t) (c : ChannelId)
| GrantVisibility (c : ChannelId) (f : FrameId)
| DispatchFrame (c : ChannelId) (r : FrameRequest)
| Dispatch (panicked : bool) (c : ChannelId) (r : Request).

(** The channels and the frames a run has handed out, newest first. *)
Record Minted := mkMinted { channels : list ChannelId; frame_ids : list FrameId }.

Section run.
Context {T : Type} `{SiteResolver T} (resolver : T).

Definition step (b : Broker.t) (op : Op) : Broker.t * Minted :=
  match op with
  | OpenChannel => let '(b, r) := open_channel b in (b, mkMinted (option_list r) [])
  | CloseChannel c => (close_channel c b, mkMinted [] [])
  | ChannelDied c => ((channel_died c b).1, mkMinted [] [])
  | CreateFrame c => let '(b, r) := create_frame c b in (b, mkMinted [] (option_list r))
  | CommitDocument f o => ((commit_document f o resolver b).1, mkMinted [] [])
  | AttachProcess f k c => ((attach_process f k c b).1, mkMinted [] [])
  | GrantVisibility c f => ((grant_visibility c f b).1, mkMinted [] [])
  | DispatchFrame c r =>
      let '(b, (answer, _)) := dispatch_frame c r b in (b, mkMinted [] (match answer with Created f => [f] | _ => [] end))
  | Dispatch panicked c r => ((dispatch_guarded panicked c r b).1, mkMinted [] [])
  end.

Fixpoint run_from (b : Broker.t) (m : Minted) (ops : list Op) : Broker.t * Minted :=
  match ops with
  | [] => (b, m)
  | op :: ops => let '(b', m') := step b op in run_from b' (mkMinted (channels m' ++ channels m) (frame_ids m' ++ frame_ids m)) ops
  end.

Definition run (ops : list Op) : Broker.t * Minted := run_from Broker.new (mkMinted [] []) ops.
Definition after (ops : list Op) : Broker.t := (run ops).1.

(** Everything handed out is taken: no handle can be given again. *)
Definition ledger_ok (b : Broker.t) (m : Minted) : Prop :=
  NoDup (channels m) /\ (forall c, c ∈ channels m -> c < next_channel b) /\
  NoDup (frame_ids m) /\ (forall f, f ∈ frame_ids m -> used (FrameTree.slots (frames b)) f).

Lemma step_next b op : next_channel (step b op).1 = match op with OpenChannel => next_channel (open_channel b).1 | _ => next_channel b end.
Proof.
  assert (forall f to b, next_channel (transfer_frame f to b).1 = next_channel b) as Ht.
  { intros f to b'. unfold transfer_frame. destruct (FrameTree.owner _ f) as [from|]; [|done]. destruct (from =? to); [done|].
    destruct (is_open to b'); [|done]. cbn [negb]. cbv zeta. destruct (FrameTree.transfer _ _ _ _) as [fs []]; [|done]. by destruct (_ ← _; _). }
  assert (forall f g k b, next_channel (plan_other_process f g k b).1 = next_channel b) as Hp.
  { intros f g k b'. unfold plan_other_process. destruct (ProcessPool.lookup_key g k _); try done. apply Ht. }
  destruct op as [|c|c|c|f o|f k c|c f|c r|p c r]; cbn [step fst]; try done.
  - by destruct (open_channel b).
  - rewrite channel_died_eq. done.
  - unfold create_frame. destruct (is_open c b); [|done]. cbn [negb]. destruct (FrameTree.create _ _) as [fs [f|]]; [|done]. cbn zeta. by destruct (is_open c _).
  - unfold commit_document. destruct (FrameTree.owner _ f); [|done]. destruct (FrameTree.commit_origin _ _ _) as [fs []]; [|done]. cbv zeta.
    destruct (process_key _ _ _) as [k|]; [|done]. destruct (FrameTree.group _ f) as [g|]; [|done]. destruct (ProcessPool.key_of _ _) as [[g' k']|].
    + destruct (_ && _); [done|]. apply (Hp f g k (set_frames fs b)).
    + destruct (ProcessPool.lookup_key g k _); [apply (Ht f _ (set_frames fs b))|by destruct (ProcessPool.register _ _ _ _)..].
  - unfold attach_process. destruct (FrameTree.group _ f); [|done]. destruct (is_open c b); [|done]. cbn [negb].
    destruct (ProcessPool.register _ _ _ _) as [P|]; [|done]. apply (Ht f c (set_pool P b)).
  - unfold grant_visibility. case_bool_decide; [done|]. by destruct (is_open c b).
  - unfold dispatch_frame. destruct r as [p ord|f url kind].
    + unfold create_child_frame. destruct (is_open c b); [|done]. cbn [negb]. destruct (holds_frame c p b); [|done]. cbn [negb].
      destruct (FrameTree.create_child _ _ _ _) as [fs [f|e]]; [|done]. cbn zeta. by destruct (is_open c _).
    + by destruct (authorise_navigation c f url b).
  - unfold dispatch_guarded. destruct p; unfold record; [done|]. by destruct (audit_reason _).
Qed.

Lemma step_ok b op m : broker_ok b -> ledger_ok b m ->
  let '(b', m') := step b op in broker_ok b' /\ ledger_ok b' (mkMinted (channels m' ++ channels m) (frame_ids m' ++ frame_ids m)).
Proof.
  intros Hb (L1 & L2 & L3 & L4). pose proof (step_next b op) as Hn.
  assert (forall b', kept b b' -> next_channel b' = next_channel b -> broker_ok b' /\ ledger_ok b' m) as Hplain.
  { intros b' [H1 H2] E. split; [done|]. split_and!; try done; [by rewrite E|]. intros f Hf. by eapply grows_used, L4. }
  assert (forall b' f s, kept b b' -> next_channel b' = next_channel b -> adds_frame (frames b) (frames b') f s ->
    broker_ok b' /\ ledger_ok b' (mkMinted (channels m) (f :: frame_ids m))) as Hnew.
  { intros b' f s Hk E (A1 & A2 & _). destruct (Hplain b' Hk E) as [H1 (H2 & H3 & H4 & H5)]. split; [done|]. split_and!; try done; simpl.
    - constructor; [|done]. intros Hin. eapply used_unused; [by apply L4|done].
    - intros f' [->|Hf]%elem_of_cons; [done|by apply H5]. }
  destruct m as [mc mf]. destruct op as [|c|c|c|f o|f k c|c f|c r|p c r]; cbn [step fst channels frame_ids app] in *.
  - pose proof (open_channel_kept b Hb) as Hk. unfold open_channel, checked_add in *. destruct (decide _) as [Hlt|]; simpl in *; [|by apply Hplain].
    destruct Hk as [H1 H2]. split; [done|]. split_and!; simpl; try done.
    + constructor; [|done]. intros Hin. specialize (L2 _ Hin). lia.
    + intros c [->|Hc]%elem_of_cons; [lia|]. specialize (L2 _ Hc). lia.
  - by apply Hplain; [apply close_channel_kept|].
  - by apply Hplain; [apply channel_died_kept|].
  - pose proof (create_frame_kept b c Hb) as Hk. destruct (create_frame c b) as [b' [f|]]; destruct Hk as [Hk Hf]; simpl in *; [by eapply Hnew|by apply Hplain].
  - pose proof (commit_document_kept resolver b f o Hb) as Hk. destruct (commit_document f o resolver b) as [b' r]. by apply Hplain; [apply Hk|].
  - by apply Hplain; [apply attach_process_kept|].
  - by apply Hplain; [apply grant_visibility_kept|].
  - destruct r as [p ord|f url kind].
    + pose proof (create_child_frame_kept b c p ord Hb) as Hk. unfold dispatch_frame in *. destruct (create_child_frame c p ord b) as [b' [f|e]]; destruct Hk as [Hk Hf]; simpl in *.
      * destruct Hf as (sp & _ & _ & Hf). by eapply Hnew.
      * apply Hplain; [|done]. eapply broker_kept_trans; [exact Hk|]. by apply record_reason_kept, Hk.
    + pose proof (dispatch_frame_kept b c (NavigateFrame f url kind) Hb) as Hk. unfold dispatch_frame in *.
      destruct (authorise_navigation c f url b) as [u|e]; simpl in *; by apply Hplain.
  - by apply Hplain; [apply dispatch_guarded_kept|].
Qed.

Lemma run_from_ok ops b m : broker_ok b -> ledger_ok b m -> let '(b', m') := run_from b m ops in broker_ok b' /\ ledger_ok b' m'.
Proof.
  revert b m. induction ops as [|op ops IH]; intros b m Hb Hm; [done|]. simpl. pose proof (step_ok b op m Hb Hm) as Hs.
  destruct (step b op) as [b' m']. destruct Hs as [H1 H2]. exact (IH _ _ H1 H2).
Qed.

Lemma broker_run_ok ops : broker_ok (after ops) /\ ledger_ok (after ops) (run ops).2.
Proof.
  pose proof (run_from_ok ops Broker.new (mkMinted [] []) broker_new_ok) as Hr. unfold after, run in *. destruct (run_from _ _ ops) as [b m].
  apply Hr. split_and!; simpl; [constructor|by intros c ?%elem_of_nil|constructor|by intros f ?%elem_of_nil].
Qed.
End run.

(** ** The properties *)
Section claims.
Context {T : Type} `{SiteResolver T} (resolver : T).
Implicit Type ops : list Op.

(** C14: whatever a broker is asked for, in whatever order, its frame tree stays
    a forest of bounded depth whose siblings differ, a frame is in the hosting
    set of exactly its owner, a channel sees only frames that exist, the pool is
    a bijection between (group, key) pairs and open channels with at most 64
    entries, and the audit log keeps its bound. *)
Theorem broker_invariant ops : broker_ok (after resolver ops).
Proof. apply broker_run_ok. Qed.

(** no channel number and no frame handle is handed out twice in the life
    of a broker, however many channels die and frames are freed in between. *)
Theorem ids_are_never_reused ops : NoDup (channels (run resolver ops).2) /\ NoDup (frame_ids (run resolver ops).2).
Proof. destruct (broker_run_ok resolver ops) as [_ (H1 & _ & H2 & _)]. by split. Qed.

(** an open channel that asks where a frame is hosted is told "here" for
    its own frames, "elsewhere" for the frames of others it was shown, and is
    refused in the same words for every other handle, whether the frame exists
    or not; a closed channel is refused everything. *)
Theorem frame_host_answers ops c f :
  let b := after resolver ops in
  response (dispatch c (FrameHostOf f) b) =
    if decide (FrameTree.owner (frames b) f = Some c) then FrameHostIs Local
    else if decide (is_Some (FrameTree.owner (frames b) f) /\ f ∈ visible_of (capabilities b) c) then FrameHostIs Remote
    else Denied.
Proof.
  intros b. pose proof (proj1 (broker_run_ok resolver ops)) as Hb. fold b in Hb. unfold dispatch.
  destruct (is_open c b) eqn:Eo; cbn [negb]; cycle 1.
  { assert (forall x, capabilities b !! c <> Some x) as Hno by (intros x Hx; apply not_true_iff_false in Eo; apply Eo, is_open_true; by eexists).
    rewrite decide_False, decide_False; [done|..].
    - intros [_ Hv]. unfold visible_of in Hv. destruct (capabilities b !! c) as [x|] eqn:E; [by destruct (Hno x)|by apply elem_of_empty in Hv].
    - intros Ho. destruct (owner_open b Hb f c Ho) as (x & Hx & _). by destruct (Hno x). }
  destruct (decide (FrameTree.owner (frames b) f = Some c)) as [Ho|Ho].
  - rewrite (proj2 (holds_frame_true b Hb c f) Ho). rewrite (proj2 (can_see_true b c f)); [done|]. split; [by eexists|].
    apply (co_sight _ _ (bo_caps _ Hb)), (co_hosts _ _ (bo_caps _ Hb)), Ho.
  - assert (holds_frame c f b = false) as -> by (apply not_true_iff_false; by rewrite (holds_frame_true b Hb)).
    destruct (can_see c f b) eqn:Es; cbn [negb].
    + rewrite decide_True by (by apply can_see_true). done.
    + rewrite decide_False; [done|]. intros Hs%can_see_true. congruence.
Qed.

Lemma holds_above_spec b c fuel f s : broker_ok b -> FrameTree.slot (frames b) f = Some s -> s_depth s < Z.of_nat fuel ->
  holds_above fuel c f b = true <-> exists a, above (frames b) a f /\ FrameTree.owner (frames b) a = Some c.
Proof.
  intros Hb. pose proof (proj1 (bo_tree _ Hb)) as Hok. revert f s. induction fuel as [|fuel IH]; intros f s Hs Hd.
  { pose proof (depth_bound _ _ Hok f s Hs). lia. }
  cbn [holds_above]. destruct (FrameTree.parent (frames b) f) as [p|] eqn:Ep.
  - pose proof Ep as Ep'. apply (parent_live _ _ Hok) in Ep' as (s' & sp & Hs' & Hp & _ & _ & Hd' & _). rewrite Hs in Hs'. injection Hs' as <-.
    destruct (holds_frame c p b) eqn:Eh.
    + apply (holds_frame_true b Hb) in Eh. split; [|done]. intros _. exists p. split; [by constructor|done].
    + rewrite (IH p sp Hp ltac:(lia)). split; intros (a & Ha & Ho); exists a; (split; [|done]).
      * by eapply above_step.
      * inversion Ha as [? E1|? p' E1 E2]; subst; rewrite Ep in E1; injection E1 as ->; [|done]. exfalso.
        apply not_true_iff_false in Eh. by apply Eh, (holds_frame_true b Hb).
  - split; [done|]. intros (a & Ha & _). inversion Ha; congruence.
Qed.

(** a channel may navigate a frame exactly when the frame is live, it hosts
    the frame or a frame the frame is embedded in, at any depth, and the
    address parses; the nine steps of the walk reach every embedder. *)
Theorem navigation_is_for_embedders ops c f url :
  let b := after resolver ops in
  authorise_navigation c f url b = Ok tt <->
    is_Some (FrameTree.owner (frames b) f) /\
    (FrameTree.owner (frames b) f = Some c \/ exists a, above (frames b) a f /\ FrameTree.owner (frames b) a = Some c) /\
    is_Some (Url.parse url).
Proof.
  intros b. pose proof (proj1 (broker_run_ok resolver ops)) as Hb. fold b in Hb. pose proof (proj1 (bo_tree _ Hb)) as Hok.
  assert (holds_frame c f b || holds_above FrameTree.STEPS c f b = true <->
    FrameTree.owner (frames b) f = Some c \/ exists a, above (frames b) a f /\ FrameTree.owner (frames b) a = Some c) as Hholds.
  { rewrite orb_true_iff, (holds_frame_true b Hb). destruct (FrameTree.slot (frames b) f) as [s|] eqn:Es.
    - rewrite (holds_above_spec b c _ f s Hb Es); [done|]. pose proof (depth_bound _ _ Hok f s Es). unfold MAX_FRAME_DEPTH, FrameTree.STEPS in *. lia.
    - unfold FrameTree.owner at 1 2. rewrite Es. split; intros [Hx|Hx]; try done.
      + unfold FrameTree.STEPS in Hx. cbn [holds_above] in Hx. unfold FrameTree.parent in Hx. by rewrite Es in Hx.
      + destruct Hx as (a & (s & sa & Hs & _)%(above_shallower _ _ Hok) & _). congruence. }
  assert (FrameTree.owner (frames b) f = Some c \/ (exists a, above (frames b) a f /\ FrameTree.owner (frames b) a = Some c) -> is_open c b = true) as Hopen.
  { intros [Ho|(a & _ & Ho)]; apply is_open_true; destruct (owner_open b Hb _ c Ho) as (x & Hx & _); by eexists. }
  unfold authorise_navigation. rewrite <- (state_Live _ _ Hok). split.
  - destruct (is_open c b); cbn [negb]; [|done]. case_bool_decide as Hl; cbn [negb]; [|done].
    destruct (holds_frame c f b || holds_above FrameTree.STEPS c f b) eqn:Eh; cbn [negb]; [|done].
    case_bool_decide as Hu; [done|]. intros _. split_and!; [done|by apply Hholds|]. destruct (Url.parse url); [by eexists|done].
  - intros (Hl & Hh & [u Hu]). rewrite (Hopen Hh), (bool_decide_eq_true_2 _ Hl), (proj2 Hholds Hh), Hu. done.
Qed.

(** C15: a document that commits in place or in another process is hosted by a
    process registered for exactly the frame's group and key, and no other
    process serves them; a spawn is asked for only when none does, a placeholder
    only at the cap of 64 processes, and a frame without a key is refused. *)
Theorem commits_isolate ops f o :
  let b := after resolver ops in
  let '(b', r) := commit_document f o resolver b in
  committed resolver f o b b' r /\
  forall c c' gk, ProcessPool.key_of c (pool b') = Some gk -> ProcessPool.key_of c' (pool b') = Some gk -> c = c'.
Proof.
  intros b. pose proof (proj1 (broker_run_ok resolver ops)) as Hb. fold b in Hb. pose proof (commit_document_kept resolver b f o Hb) as Hc.
  destruct (commit_document f o resolver b) as [b' r]. destruct Hc as [[Hb' _] Hc]. split; [done|]. intros c c' gk H1 H2.
  apply (po_inverse _ _ (bo_pool _ Hb')) in H1, H2. congruence.
Qed.

(** closing a channel frees its frames and everything embedded in them, at
    any depth and whoever hosts it, and leaves every other frame as it was; the
    channel is left without capabilities, frames or pool entry. *)
Theorem close_takes_what_was_held ops c :
  let b := after resolver ops in let b' := close_channel c b in
  (forall f s, FrameTree.slot (frames b') f = Some s <->
     FrameTree.slot (frames b) f = Some s /\ FrameTree.owner (frames b) f <> Some c /\ ~ within (frames b) c f) /\
  (forall f, FrameTree.owner (frames b') f <> Some c) /\
  is_open c b' = false /\ ProcessPool.key_of c (pool b') = None.
Proof.
  intros b b'. pose proof (proj1 (broker_run_ok resolver ops)) as Hb. fold b in Hb. pose proof (proj1 (bo_tree _ Hb)) as Hok. split_and!.
  - intros f s. apply (release_spec _ _ Hok).
  - intros f. change (frames b') with (FrameTree.release_all c (frames b)). by intros (_ & ? & _)%(release_owner _ _ Hok).
  - apply bool_decide_eq_false. unfold b', close_channel, purge_dead_frames. simpl. rewrite map_lookup_imap, lookup_delete_eq. by intros [? ?].
  - unfold b', close_channel, ProcessPool.key_of, ProcessPool.forget. simpl. destruct (ProcessPool.by_channel (pool b) !! c) eqn:E; [by apply lookup_delete_eq|done].
Qed.

(** C16: when a channel dies, the frames embedded in its frames are gone, its
    other frames have crashed and keep their handles, and every other frame is
    untouched; the notices are, without repetition and in order, one for each
    crashed frame embedded in another channel's frame, to that channel. *)
Theorem crash_is_exact ops c :
  let b := after resolver ops in let '(b', events) := channel_died c b in
  (forall f s', FrameTree.slot (frames b') f = Some s' <->
     exists s, FrameTree.slot (frames b) f = Some s /\ ~ within (frames b) c f /\
       s' = if decide (FrameTree.owner (frames b) f = Some c) then set_crashed s else s) /\
  (forall o e, (o, e) ∈ events <-> exists f p, e = FrameCrashed f /\ FrameTree.owner (frames b) f = Some c /\ ~ within (frames b) c f /\
     FrameTree.parent (frames b) f = Some p /\ FrameTree.owner (frames b) p = Some o) /\
  NoDup events /\ (exists ns, events = map (fun n => (n.1, FrameCrashed n.2)) ns /\ StronglySorted notice_le ns).
Proof.
  intros b. pose proof (proj1 (broker_run_ok resolver ops)) as Hb. fold b in Hb. pose proof (proj1 (bo_tree _ Hb)) as Hok. rewrite channel_died_eq.
  pose proof (crash_notices_nodup _ _ Hok c) as [Hnd Hsort]. split_and!.
  - intros f s'. apply (crash_spec _ _ Hok).
  - intros o e. rewrite list_elem_of_In, in_map_iff. setoid_rewrite <- list_elem_of_In. split.
    + intros ([o' f] & [= <- <-] & Hin). apply (crash_notices _ _ Hok) in Hin as (H1 & H2 & p & H3 & H4). by exists f, p.
    + intros (f & p & -> & H1 & H2 & H3 & H4). exists (o, f). split; [done|]. apply (crash_notices _ _ Hok). split_and!; [done|done|by exists p].
  - assert (Inj (=) (=) (fun n : ChannelId * FrameId => (n.1, FrameCrashed n.2))) as Hinj by (by intros [? ?] [? ?] [= -> ->]).
    by apply NoDup_fmap_2.
  - by eexists.
Qed.
End claims.

(** ** A load that is refused *)
(** A page of example.com in one process; a load of an address the broker can
    give no key for is refused, and the frame is left with its origin. *)
Definition page : WOrigin.t := WOrigin.Tuple (lit "https") (Domain (lit "news.example.com")) None.
Definition numbered : WOrigin.t := WOrigin.Tuple (lit "http") (Ipv4 [1; 2; 3; 4]) None.
Definition first_frame : FrameId := mkFrameId 0 0.
Definition loaded : Broker.t := after sample_psl [OpenChannel; CreateFrame 0; CommitDocument first_frame page].

Lemma refused_load_replaces_the_origin :
  FrameTree.origin (frames loaded) first_frame = Some page /\ is_Some (process_key first_frame sample_psl (frames loaded)) /\
  let '(b, r) := commit_document first_frame numbered sample_psl loaded in
  r = Err NoProcessKey /\ FrameTree.owner (frames b) first_frame = Some 0 /\ FrameTree.origin (frames b) first_frame = Some numbered /\
  process_key first_frame sample_psl (frames b) = None.
Proof. split; [by vm_compute|]. split; [vm_compute; by eexists|]. vm_compute. done. Qed.

(** An embedded page of another origin: it needs a process, is moved to it, is
    then elsewhere to its embedder, and is reported to it when it crashes. *)
Definition other : WOrigin.t := WOrigin.Tuple (lit "https") (Domain (lit "ads.example.org")) None.
Definition child_frame : FrameId := mkFrameId 1 0.
Definition embedding : list Op :=
  [OpenChannel; CreateFrame 0; CommitDocument first_frame page; DispatchFrame 0 (CreateChildFrame first_frame 7);
   OpenChannel; AttachProcess child_frame (ProcessKey.mkKey (lit "example.com") other) 1].

Example embedded_page :
  (commit_document child_frame other sample_psl (after sample_psl (take 5 embedding))).2 = Ok (NeedsProcess (ProcessKey.mkKey (lit "example.com") other)) /\
  response (dispatch 0 (FrameHostOf child_frame) (after sample_psl embedding)) = FrameHostIs Remote /\
  response (dispatch 1 (FrameHostOf child_frame) (after sample_psl embedding)) = FrameHostIs Local /\
  response (dispatch 1 (FrameHostOf first_frame) (after sample_psl embedding)) = Denied /\
  (channel_died 1 (after sample_psl embedding)).2 = [(0, FrameCrashed child_frame)].
Proof. split_and!; by vm_compute. Qed.
