(* ===== verification/Cookie.v ===== *)
(** * Cookies (px-net/src/cookie.rs)

    Reading a [Set-Cookie] header, and the jar that files cookies under partition
    keys.  Times are nanoseconds; an operation that reads the clock is given it. *)
From S2P Require Import Keys Prelude Bytes Text Chars Partition.
From Stdlib Require Import Sorting.Sorted.
Local Open Scope Z_scope.

#[local] Arguments Nat.leb : simpl never.
#[local] Arguments Nat.ltb : simpl never.

Definition MAX_COOKIE_BYTES : Z := 4096.
Definition MAX_PER_KEY : nat := 50.

Inductive SameSite := Strict | Lax | SSNone.

#[export] Instance SameSite_eq_dec : EqDecision SameSite.
Proof. solve_decision. Defined.

Inductive Rejected :=
| TooLarge
| Malformed
| BadAttribute (which : string)
| PublicSuffixDomain
| DomainMismatch
| InsecureSameSiteNone
| PrefixViolation (which : string)
| JarFull
| InsecureOrigin.

Record Cookie := mkCookie {
  c_name : list byte;
  c_value : list byte;
  c_domain : list byte;
  c_host_only : bool;
  c_path : list byte;
  c_secure : bool;
  c_http_only : bool;
  c_same_site : SameSite;
  c_expires_at : option Z
}.

#[export] Instance Cookie_eq_dec : EqDecision Cookie.
Proof. solve_decision. Defined.

(** [host] ends in [.domain], with something in front. *)
Definition below_domain (domain host : list byte) : bool :=
  match prefix ← strip_suffix domain host; strip_suffix [DOT] prefix with
  | Some prefix => negb (bool_decide (prefix = []))
  | None => false
  end.

Definition SLASH : byte := "/"%byte.

Definition matches_host (c : Cookie) (host : list byte) : bool :=
  let host := to_ascii_lowercase host in
  if decide (host = c_domain c) then true
  else if c_host_only c then false
  else below_domain (c_domain c) host.

Definition matches_path (c : Cookie) (path : list byte) : bool :=
  if decide (path = c_path c) then true
  else
    match strip_prefix (c_path c) path with
    | None => false
    | Some rest => bool_decide (last (c_path c) = Some SLASH) || has_prefix [SLASH] rest
    end.

Definition is_expired (c : Cookie) (now : Z) : bool :=
  match c_expires_at c with Some at_ => at_ <=? now | None => false end.

(** ** Reading a header *)
(** [i64::from_str]: an optional sign and decimal digits, within range. *)
Definition parse_i64 (l : list byte) : option Z :=
  let '(sign, ds) :=
    match l with
    | b :: t => if decide (b = "-"%byte) then (-1, t) else if decide (b = "+"%byte) then (1, t) else (1, l)
    | [] => (1, l)
    end in
  if bool_decide (ds = []) then None
  else
    v ← digits_value 0 ds;
    let v := sign * v in
    if (-(2 ^ 63) <=? v) && (v <? 2 ^ 63) then Some v else None.

(** What the attributes accumulate into. *)
Record Attributes := mkAttributes {
  at_domain : option (list byte);
  at_path : option (list byte);
  at_secure : bool;
  at_http_only : bool;
  at_same_site : SameSite;
  at_max_age : option Z
}.

Definition no_attributes : Attributes := mkAttributes None None false false Lax None.

Definition read_attribute (a : Attributes) (key val : list byte) : result Rejected Attributes :=
  let '(mkAttributes domain path secure http_only same_site max_age) := a in
  if decide (key = lit "domain") then
    let host := to_ascii_lowercase (trim_end_matches DOT (drop_while_eq DOT val)) in
    if bool_decide (host = []) then Err (BadAttribute "Domain")
    else Ok (mkAttributes (Some host) path secure http_only same_site max_age)
  else if decide (key = lit "path") then
    if has_prefix [SLASH] val then Ok (mkAttributes domain (Some val) secure http_only same_site max_age)
    else Err (BadAttribute "Path")
  else if decide (key = lit "secure") then
    Ok (mkAttributes domain path true http_only same_site max_age)
  else if decide (key = lit "httponly") then
    Ok (mkAttributes domain path secure true same_site max_age)
  else if decide (key = lit "samesite") then
    let v := to_ascii_lowercase val in
    if decide (v = lit "strict") then Ok (mkAttributes domain path secure http_only Strict max_age)
    else if decide (v = lit "lax") then Ok (mkAttributes domain path secure http_only Lax max_age)
    else if decide (v = lit "none") then Ok (mkAttributes domain path secure http_only SSNone max_age)
    else Err (BadAttribute "SameSite")
  else if decide (key = lit "max-age") then
    match parse_i64 val with
    | Some v => Ok (mkAttributes domain path secure http_only same_site (Some v))
    | None => Err (BadAttribute "Max-Age")
    end
  else Ok a.

Fixpoint read_attributes (a : Attributes) (parts : list (list byte)) : result Rejected Attributes :=
  match parts with
  | [] => Ok a
  | attribute :: parts =>
      let attribute := trim attribute in
      if bool_decide (attribute = []) then read_attributes a parts
      else
        let '(key, val) :=
          match split_once "="%byte attribute with
          | Some (key, val) => (to_ascii_lowercase (trim key), trim val)
          | None => (to_ascii_lowercase attribute, [])
          end in
        a ← read_attribute a key val; read_attributes a parts
  end.

(** [Instant::checked_add]: the seconds of an instant are an [i64]. *)
Definition checked_add (now seconds : Z) : option Z :=
  let t := now + seconds * 10 ^ 9 in
  if t <? 2 ^ 63 * 10 ^ 9 then Some t else None.

(** The name prefixes and what they demand. *)
Definition check_prefixes (name : list byte) (a : Attributes) : result Rejected unit :=
  if has_prefix (lit "__Secure-") name && negb (at_secure a)
  then Err (PrefixViolation "a __Secure- cookie must set Secure")
  else if has_prefix (lit "__Host-") name then
    if negb (at_secure a) then Err (PrefixViolation "a __Host- cookie must set Secure")
    else if bool_decide (is_Some (at_domain a)) then
      Err (PrefixViolation "a __Host- cookie must not set Domain")
    else if negb (bool_decide (at_path a = Some [SLASH])) then
      Err (PrefixViolation "a __Host- cookie must set Path=/")
    else Ok tt
  else Ok tt.

(** Which hosts the cookie is for. *)
Definition scope (psl : Psl.PublicSuffixList) (origin : Origin.t) (domain : option (list byte))
  : result Rejected (list byte * bool) :=
  let host := to_ascii_lowercase (Origin.host origin) in
  match domain with
  | Some requested =>
      if bool_decide (Psl.registrable_domain psl requested = None) then Err PublicSuffixDomain
      else if negb (bool_decide (host = requested)) && negb (below_domain requested host)
      then Err DomainMismatch
      else Ok (requested, false)
  | None => Ok (host, true)
  end.

Definition expiry (now : Z) (max_age : option Z) : option Z :=
  match max_age with
  | Some seconds => if seconds <=? 0 then Some now else checked_add now seconds
  | None => None
  end.

Definition parse (now : Z) (psl : Psl.PublicSuffixList) (origin : Origin.t) (header : list byte)
  : result Rejected Cookie :=
  if MAX_COOKIE_BYTES <? len header then Err TooLarge
  else
    let parts := split_on ";"%byte header in
    let pair := default [] (head parts) in
    '(name, value) ← ok_or (split_once "="%byte pair) Malformed;
    let name := trim name in
    let value := trim value in
    if bool_decide (name = []) then Err Malformed
    else
      a ← read_attributes no_attributes (tail parts);
      if bool_decide (at_same_site a = SSNone) && negb (at_secure a) then Err InsecureSameSiteNone
      else if at_secure a && negb (Origin.is_secure origin) then Err InsecureOrigin
      else
        _ ← check_prefixes name a;
        '(domain, host_only) ← scope psl origin (at_domain a);
        Ok (mkCookie name value domain host_only (default [SLASH] (at_path a)) (at_secure a)
              (at_http_only a) (at_same_site a) (expiry now (at_max_age a))).

(** ** The jar *)
Record Jar := { by_partition : gmap PartitionKey.t (list Cookie) }.

Module CookieJar.
Definition new : Jar := {| by_partition := ∅ |}.

Definition same_slot (c stored : Cookie) : bool :=
  bool_decide (c_name stored = c_name c) && bool_decide (c_domain stored = c_domain c) &&
  bool_decide (c_path stored = c_path c).

(** Replace the first cookie of the same name, domain and path. *)
Fixpoint replace (c : Cookie) (jar : list Cookie) : option (list Cookie) :=
  match jar with
  | [] => None
  | x :: jar => if same_slot c x then Some (c :: jar) else cons x <$> replace c jar
  end.

Definition store (now : Z) (psl : Psl.PublicSuffixList) (key : PartitionKey.t) (header : list byte)
    (j : Jar) : Jar * result Rejected unit :=
  match parse now psl (PartitionKey.origin key) header with
  | Err e => (j, Err e)
  | Ok cookie =>
      let jar := default [] (by_partition j !! key) in
      match replace cookie jar with
      | Some jar' => ({| by_partition := <[key := jar']> (by_partition j) |}, Ok tt)
      | None =>
          if (MAX_PER_KEY <=? length jar)%nat
          then ({| by_partition := <[key := jar]> (by_partition j) |}, Err JarFull)
          else ({| by_partition := <[key := jar ++ [cookie]]> (by_partition j) |}, Ok tt)
      end
  end.

(** Whether a stored cookie goes with a request. *)
Definition sendable (now : Z) (origin : Origin.t) (path : list byte) (cross_site : bool) (c : Cookie)
  : bool :=
  negb (is_expired c now) && matches_host c (Origin.host origin) && matches_path c path &&
  (negb (c_secure c) || Origin.is_secure origin) &&
  match c_same_site c with SSNone => true | Lax | Strict => negb cross_site end.

(** [sort_by_key] on the length of the path, longest first; the sort is stable. *)
Fixpoint insert_longest (c : Cookie) (l : list Cookie) : list Cookie :=
  match l with
  | [] => [c]
  | x :: l => if (length (c_path x) <=? length (c_path c))%nat then c :: x :: l
              else x :: insert_longest c l
  end.

Definition sort_longest (l : list Cookie) : list Cookie := foldr insert_longest [] l.

Definition cookies_for (now : Z) (key : PartitionKey.t) (path : list byte) (cross_site : bool) (j : Jar)
  : list Cookie :=
  match by_partition j !! key with
  | None => []
  | Some jar => sort_longest (List.filter (sendable now (PartitionKey.origin key) path cross_site) jar)
  end.

Definition forget (key : PartitionKey.t) (j : Jar) : Jar :=
  {| by_partition := delete key (by_partition j) |}.

Definition jar_len (j : Jar) : nat := map_fold (fun _ l n => (length l + n)%nat) 0%nat (by_partition j).
Definition jar_is_empty (j : Jar) : bool := Nat.eqb (jar_len j) 0.

Definition expire (now : Z) (j : Jar) : Jar :=
  let kept := List.filter (fun c => negb (is_expired c now)) <$> by_partition j in
  {| by_partition := filter (fun kv => kv.2 <> []) kept |}.
End CookieJar.

(** ** Reading, proved *)
Lemma below_domain_spec domain host :
  below_domain domain host = true <-> exists pre, pre <> [] /\ host = pre ++ DOT :: domain.
Proof.
  unfold below_domain. split.
  - destruct (strip_suffix domain host) as [x|] eqn:E1; simpl; [|done].
    destruct (strip_suffix [DOT] x) as [y|] eqn:E2; [|done].
    apply strip_suffix_Some in E1 as ->. apply strip_suffix_Some in E2 as ->.
    intros Hy%negb_true_iff%bool_decide_eq_false. exists y. split; [done|]. by rewrite <- app_assoc.
  - intros (pre & Hp & ->).
    rewrite (proj2 (strip_suffix_Some domain (pre ++ DOT :: domain) (pre ++ [DOT]))) by (by rewrite <- app_assoc).
    simpl. rewrite (proj2 (strip_suffix_Some [DOT] (pre ++ [DOT]) pre)) by done.
    by rewrite bool_decide_eq_false_2.
Qed.

Lemma read_attribute_path a key val a' :
  read_attribute a key val = Ok a' ->
  (forall p, at_path a = Some p -> has_prefix [SLASH] p = true) ->
  forall p, at_path a' = Some p -> has_prefix [SLASH] p = true.
Proof.
  destruct a as [domain path secure http_only same_site max_age]. unfold read_attribute. simpl.
  intros E Hp. repeat case_match; try discriminate E; injection E as <-; simpl; try done.
  by intros p [= <-].
Qed.

Lemma read_attributes_path a parts a' :
  read_attributes a parts = Ok a' ->
  (forall p, at_path a = Some p -> has_prefix [SLASH] p = true) ->
  forall p, at_path a' = Some p -> has_prefix [SLASH] p = true.
Proof.
  revert a. induction parts as [|x parts IH]; intros a E Hp; [by injection E as <-|].
  cbn [read_attributes] in E. destruct (bool_decide _); [by eapply IH|].
  destruct (match split_once _ _ with Some _ => _ | None => _ end) as [key val].
  apply bind_Ok in E as (b & Eb & E). eapply IH; [done|]. by eapply read_attribute_path.
Qed.

Lemma check_prefixes_Ok name a :
  check_prefixes name a = Ok tt ->
  (has_prefix (lit "__Secure-") name = true -> at_secure a = true) /\
  (has_prefix (lit "__Host-") name = true ->
    at_secure a = true /\ at_domain a = None /\ at_path a = Some [SLASH]).
Proof.
  unfold check_prefixes. destruct (has_prefix (lit "__Secure-") name), (has_prefix (lit "__Host-") name),
    (at_secure a); simpl; try done.
  all: destruct (bool_decide (is_Some (at_domain a))) eqn:Hd; try done.
  all: destruct (bool_decide (at_path a = Some [SLASH])) eqn:Hp; try done.
  all: apply bool_decide_eq_true in Hp; apply bool_decide_eq_false in Hd.
  all: intros _; split; [done|]; intros _; split_and!; [done| |done].
  all: by apply eq_None_not_Some.
Qed.

Lemma scope_Ok psl origin domain d ho :
  scope psl origin domain = Ok (d, ho) ->
  (if ho then domain = None /\ d = to_ascii_lowercase (Origin.host origin)
   else domain = Some d /\ Psl.registrable_domain psl d <> None /\
     (to_ascii_lowercase (Origin.host origin) = d \/
      below_domain d (to_ascii_lowercase (Origin.host origin)) = true)).
Proof.
  unfold scope. destruct domain as [r|]; [|by intros [= <- <-]].
  case_bool_decide as Hr; [done|]. case_bool_decide as Hh; simpl.
  - intros [= <- <-]. auto.
  - destruct (below_domain r _) eqn:Hb; simpl; [|done]. intros [= <- <-]. auto.
Qed.

(** Everything a stored cookie satisfies with respect to the origin that set it. *)
Record honest (psl : Psl.PublicSuffixList) (origin : Origin.t) (c : Cookie) : Prop := {
  ho_name : c_name c <> [];
  ho_secure : c_secure c = true -> Origin.is_secure origin = true;
  ho_none : c_same_site c = SSNone -> c_secure c = true;
  ho_secure_prefix : has_prefix (lit "__Secure-") (c_name c) = true -> c_secure c = true;
  ho_host_prefix : has_prefix (lit "__Host-") (c_name c) = true ->
    c_secure c = true /\ c_host_only c = true /\ c_path c = [SLASH];
  ho_suffix : c_host_only c = false -> Psl.registrable_domain psl (c_domain c) <> None;
  ho_domain : matches_host c (Origin.host origin) = true;
  ho_path : has_prefix [SLASH] (c_path c) = true
}.

Lemma parse_honest now psl origin header c :
  parse now psl origin header = Ok c -> honest psl origin c.
Proof.
  unfold parse. destruct (_ <? _); [done|]. cbv zeta.
  intros ([name value] & _ & E)%bind_Ok. case_bool_decide as Hn; [done|].
  apply bind_Ok in E as (a & Ea & E).
  destruct (bool_decide (at_same_site a = SSNone) && _) eqn:H1; [done|].
  destruct (at_secure a && _) eqn:H2; [done|].
  apply bind_Ok in E as ([] & [P1 P2]%check_prefixes_Ok & E).
  apply bind_Ok in E as ([d ho] & Hs%scope_Ok & E). injection E as <-.
  assert (at_same_site a = SSNone -> at_secure a = true) as Hnone.
  { intros Hss. rewrite bool_decide_eq_true_2 in H1 by done. by destruct (at_secure a). }
  split; simpl; try done.
  - intros Hsec. rewrite Hsec in H2. by destruct (Origin.is_secure origin).
  - intros Hx. destruct (P2 Hx) as (A1 & A2 & A3). rewrite A3. split_and!; [done| |done].
    destruct ho; [done|]. destruct Hs as [Hs _]. congruence.
  - intros ->. apply Hs.
  - unfold matches_host. cbn [c_domain c_host_only].
    destruct (decide (to_ascii_lowercase (Origin.host origin) = d)) as [|Hd]; [done|]. destruct ho; [by destruct Hs as [_ ->]|].
    by destruct Hs as (_ & _ & [?|?]).
  - destruct (at_path a) as [p|] eqn:Ep; [|done]. simpl.
    eapply read_attributes_path; [exact Ea|by intros p' [=]|exact Ep].
Qed.

(** C40: A header that is accepted yields an honest cookie: [Secure] only from a
    secure origin, [SameSite=None] only with [Secure], the name prefixes obeyed,
    a [Domain] that is no public suffix and covers the host that sent it, at a
    label boundary, and a path that starts with a slash. *)
Theorem parse_is_honest now psl origin header c :
  parse now psl origin header = Ok c -> honest psl origin c.
Proof. apply parse_honest. Qed.

(** ** The jar, proved *)
Module JarProps.
Import CookieJar.

Lemma same_slot_spec c x :
  same_slot c x = true <-> c_name x = c_name c /\ c_domain x = c_domain c /\ c_path x = c_path c.
Proof. unfold same_slot. rewrite !andb_true_iff, !bool_decide_eq_true. tauto. Qed.

Definition slot_of (c : Cookie) : list byte * list byte * list byte := (c_name c, c_domain c, c_path c).

Lemma same_slot_eq c x : same_slot c x = true <-> slot_of x = slot_of c.
Proof. rewrite same_slot_spec. unfold slot_of. split; [by intros (-> & -> & ->)|by intros [= -> -> ->]]. Qed.

Lemma replace_None c jar : replace c jar = None <-> slot_of c ∉ map slot_of jar.
Proof.
  induction jar as [|x jar IH]; simpl; [split; [intros _; apply not_elem_of_nil|done]|].
  rewrite not_elem_of_cons. destruct (same_slot c x) eqn:E.
  - apply same_slot_eq in E. split; [done|]. intros [Hc _]. by destruct Hc.
  - assert (slot_of c <> slot_of x).
    { intros Hc. rewrite (proj2 (same_slot_eq c x)) in E; congruence. }
    destruct (replace c jar); simpl; [|tauto]. split; [done|]. intros [_ Hc]. by apply IH in Hc.
Qed.

Lemma replace_Some c jar jar' :
  replace c jar = Some jar' ->
  exists l x r, jar = l ++ x :: r /\ jar' = l ++ c :: r /\ slot_of x = slot_of c.
Proof.
  revert jar'. induction jar as [|x jar IH]; intros jar'; simpl; [done|].
  destruct (same_slot c x) eqn:E.
  - intros [= <-]. exists [], x, jar. split_and!; [done|done|by apply same_slot_eq].
  - intros (y & Hy & ->)%fmap_Some. destruct (IH y Hy) as (l & z & r & -> & -> & Hz).
    by exists (x :: l), z, r.
Qed.

(** A jar holds at most the limit per partition, and no name, domain and path twice. *)
Definition partition_ok (l : list Cookie) : Prop :=
  (length l <= MAX_PER_KEY)%nat /\ NoDup (map slot_of l).

Definition jar_ok (j : Jar) : Prop := forall k l, by_partition j !! k = Some l -> partition_ok l.

(** What is filed under a key. *)
Definition at_key (j : Jar) (k : PartitionKey.t) : list Cookie := default [] (by_partition j !! k).

Lemma at_key_ok j k : jar_ok j -> partition_ok (at_key j k).
Proof.
  intros Hj. unfold at_key. destruct (by_partition j !! k) as [l|] eqn:E; [by eapply Hj|].
  split; [unfold MAX_PER_KEY; simpl; lia|constructor].
Qed.

Lemma at_key_insert j k k' l :
  at_key {| by_partition := <[k := l]> (by_partition j) |} k' = if decide (k = k') then l else at_key j k'.
Proof.
  unfold at_key. simpl. case_decide; [subst; by rewrite lookup_insert_eq|by rewrite lookup_insert_ne].
Qed.

(** The list a store leaves under its key. *)
Definition stored (c : Cookie) (l : list Cookie) : option (list Cookie) :=
  match replace c l with
  | Some l' => Some l'
  | None => if (MAX_PER_KEY <=? length l)%nat then None else Some (l ++ [c])
  end.

Lemma stored_ok c l l' : partition_ok l -> stored c l = Some l' -> partition_ok l'.
Proof.
  intros [Hl Hn]. unfold stored. destruct (replace c l) as [y|] eqn:E.
  - intros [= <-]. apply replace_Some in E as (a & x & b & -> & -> & Hx).
    split; [rewrite length_app in *; simpl in *; lia|].
    rewrite map_app in *. simpl in *. by rewrite <- Hx.
  - apply replace_None in E. destruct (MAX_PER_KEY <=? length l)%nat eqn:Hc; [done|]. apply Nat.leb_gt in Hc.
    intros [= <-]. split; [rewrite length_app; simpl; lia|]. rewrite map_app. apply NoDup_app.
    split_and!; [done| |apply NoDup_singleton]. by intros x Hx ->%list_elem_of_singleton.
Qed.

Lemma stored_elem c l l' x :
  partition_ok l -> stored c l = Some l' -> x ∈ l' <-> x = c \/ x ∈ l /\ slot_of x <> slot_of c.
Proof.
  intros [_ Hn]. unfold stored. destruct (replace c l) as [y|] eqn:E.
  - intros [= <-]. apply replace_Some in E as (a & z & b & -> & -> & Hz).
    rewrite map_app in Hn. simpl in Hn. apply NoDup_app in Hn as (_ & Hd & [Hb _]%NoDup_cons).
    assert (forall v, v ∈ a ++ b -> slot_of v <> slot_of c) as Hne.
    { intros v [Hv|Hv]%elem_of_app Hc; rewrite <- Hz in Hc.
      - apply (Hd (slot_of v)); [by apply list_elem_of_fmap_2|]. rewrite Hc. by left.
      - apply Hb. rewrite <- Hc. by apply list_elem_of_fmap_2. }
    rewrite !elem_of_app, !elem_of_cons. split.
    + intros [Hx|[->|Hx]]; [right|by left|right]; (split; [auto|apply Hne; rewrite elem_of_app; auto]).
    + intros [->|[[Hx|[->|Hx]] Hs]]; auto. by destruct Hs.
  - apply replace_None in E. destruct (MAX_PER_KEY <=? length l)%nat; [done|]. intros [= <-].
    rewrite elem_of_app, list_elem_of_singleton. split.
    + intros [Hx| ->]; [right|by left]. split; [done|]. intros Hs. apply E. rewrite <- Hs.
      by apply list_elem_of_fmap_2.
    + intros [->|[Hx _]]; auto.
Qed.

(** [store] in terms of what is filed under each key. *)
Lemma store_cases now psl key header j :
  let '(j', r) := store now psl key header j in
  match r with
  | Err _ => forall k, at_key j' k = at_key j k
  | Ok _ => exists c l, parse now psl (PartitionKey.origin key) header = Ok c /\
      stored c (at_key j key) = Some l /\ forall k, at_key j' k = if decide (key = k) then l else at_key j k
  end.
Proof.
  unfold store. destruct (parse _ _ _ _) as [c|e] eqn:Ep; [|done]. cbv zeta. unfold stored.
  change (default [] (by_partition j !! key)) with (at_key j key).
  destruct (replace c (at_key j key)) as [l|] eqn:E.
  - exists c, l. split_and!; [done|by rewrite E|]. intros k. apply at_key_insert.
  - destruct (MAX_PER_KEY <=? length (at_key j key))%nat eqn:Hc.
    + intros k. rewrite at_key_insert. by case_decide; subst.
    + exists c, (at_key j key ++ [c]). split_and!; [done|by rewrite E|]. intros k. apply at_key_insert.
Qed.

Lemma ok_at_key j : (forall k, partition_ok (at_key j k)) -> jar_ok j.
Proof. intros Hj k l E. specialize (Hj k). unfold at_key in Hj. by rewrite E in Hj. Qed.

Lemma store_ok now psl key header j : jar_ok j -> jar_ok (store now psl key header j).1.
Proof.
  intros Hj. pose proof (store_cases now psl key header j) as Hs. destruct (store _ _ _ _ j) as [j' [[]|e]]; simpl.
  - destruct Hs as (c & l & _ & Hl & Hk). apply ok_at_key. intros k. rewrite Hk.
    case_decide; [|by apply at_key_ok]. eapply stored_ok; [|done]. by apply at_key_ok.
  - apply ok_at_key. intros k. rewrite Hs. by apply at_key_ok.
Qed.

(** ** Sequences of operations *)
Inductive jar_op :=
| JStore (now : Z) (psl : Psl.PublicSuffixList) (key : PartitionKey.t) (header : list byte)
| JForget (key : PartitionKey.t)
| JExpire (now : Z).

Definition apply (o : jar_op) (j : Jar) : Jar :=
  match o with
  | JStore now psl key header => (store now psl key header j).1
  | JForget key => forget key j
  | JExpire now => expire now j
  end.

Definition run (os : list jar_op) : Jar := foldl (fun j o => apply o j) new os.

Lemma jar_run_snoc os o : run (os ++ [o]) = apply o (run os).
Proof. unfold run. by rewrite foldl_app. Qed.

Lemma at_key_expire now j k : at_key (expire now j) k = List.filter (fun c => negb (is_expired c now)) (at_key j k).
Proof.
  unfold at_key, expire. simpl. set (m := _ <$> by_partition j).
  assert (m !! k = List.filter (fun c => negb (is_expired c now)) <$> by_partition j !! k) as Hm by apply lookup_fmap.
  destruct (by_partition j !! k) as [l|]; simpl in *.
  - destruct (List.filter _ l) as [|x r] eqn:E.
    + rewrite (proj2 (map_lookup_filter_None _ m k)); [done|]. right. intros y Hy. rewrite Hm in Hy.
      injection Hy as <-. by intros [].
    + rewrite (proj2 (map_lookup_filter_Some _ m k (x :: r))); [done|]. by rewrite Hm.
  - rewrite (proj2 (map_lookup_filter_None _ m k)); [done|]. by left.
Qed.

Lemma at_key_forget key j k : at_key (forget key j) k = if decide (key = k) then [] else at_key j k.
Proof.
  unfold at_key, forget. simpl. case_decide; [subst; by rewrite lookup_delete_eq|by rewrite lookup_delete_ne].
Qed.

Lemma map_filter_NoDup (f : Cookie -> bool) l : NoDup (map slot_of l) -> NoDup (map slot_of (List.filter f l)).
Proof.
  induction l as [|x l IH]; [done|]. simpl. intros [Hx Hl]%NoDup_cons. destruct (f x); simpl; [|by apply IH].
  apply NoDup_cons. split; [|by apply IH]. intros (y & Hxy & Hy)%list_elem_of_fmap. apply Hx. rewrite Hxy.
  apply list_elem_of_fmap_2. rewrite list_elem_of_In, filter_In in Hy. apply list_elem_of_In, Hy.
Qed.

Lemma jar_apply_ok o j : jar_ok j -> jar_ok (apply o j).
Proof.
  intros Hj. destruct o; simpl; [by apply store_ok| |]; apply ok_at_key; intros k.
  - rewrite at_key_forget. case_decide; [|by apply at_key_ok].
    split; [unfold MAX_PER_KEY; simpl; lia|constructor].
  - rewrite at_key_expire. destruct (at_key_ok j k Hj) as [Hl Hn]. split; [|by apply map_filter_NoDup].
    etrans; [apply filter_length_le|done].
Qed.

Lemma jar_run_ok os : jar_ok (run os).
Proof.
  induction os as [|o os IH] using rev_ind; [intros k l; unfold run, new; simpl; by rewrite lookup_empty|].
  rewrite jar_run_snoc. by apply jar_apply_ok.
Qed.

(** Every jar the operations can build holds at most fifty cookies per
    partition key, and never two of the same name, domain and path under one. *)
Theorem jar_is_bounded (os : list jar_op) : jar_ok (run os).
Proof. apply jar_run_ok. Qed.

(** [store] replaces the cookie of the same name, domain and path or adds one,
    under its own key only; a refusal leaves what every key holds as it was. *)
Theorem store_correct now psl key header j :
  jar_ok j ->
  let '(j', r) := store now psl key header j in
  match r with
  | Err _ => forall k, at_key j' k = at_key j k
  | Ok _ => exists c, parse now psl (PartitionKey.origin key) header = Ok c /\
      (forall x, x ∈ at_key j' key <-> x = c \/ x ∈ at_key j key /\ slot_of x <> slot_of c) /\
      forall k, k <> key -> at_key j' k = at_key j k
  end.
Proof.
  intros Hj. pose proof (store_cases now psl key header j) as Hs. destruct (store _ _ _ _ j) as [j' [[]|e]]; [|done].
  destruct Hs as (c & l & Hp & Hl & Hk). exists c. split_and!; [done| |].
  - intros x. rewrite Hk, decide_True by done. eapply stored_elem; [|done]. by apply at_key_ok.
  - intros k Hne. by rewrite Hk, decide_False.
Qed.

Lemma elem_of_filterb {A} (f : A -> bool) l c : c ∈ List.filter f l <-> c ∈ l /\ f c = true.
Proof. by rewrite !list_elem_of_In, filter_In. Qed.

(** Whatever is filed under a key was read from a header stored under it. *)
Lemma jar_filed_run os k c :
  c ∈ at_key (run os) k ->
  exists t psl header, JStore t psl k header ∈ os /\ parse t psl (PartitionKey.origin k) header = Ok c.
Proof.
  induction os as [|o os IH] using rev_ind.
  - unfold run, new, at_key. simpl. rewrite lookup_empty. by intros ?%elem_of_nil.
  - rewrite jar_run_snoc. assert (c ∈ at_key (run os) k -> exists t psl header,
      JStore t psl k header ∈ os ++ [o] /\ parse t psl (PartitionKey.origin k) header = Ok c) as Hold.
    { intros (t & psl & hd & ? & ?)%IH. exists t, psl, hd. split; [|done]. apply elem_of_app. by left. }
    destruct o as [t psl key hd|key|t]; simpl.
    + pose proof (store_cases t psl key hd (run os)) as Hs. pose proof (at_key_ok _ key (jar_run_ok os)) as Hok.
      destruct (store _ _ _ _ (run os)) as [j' [[]|e]]; simpl; [|by rewrite Hs].
      destruct Hs as (c' & l & Hp & Hl & Hk). rewrite Hk. case_decide as Hkk; [|done]. subst k.
      intros Hc. apply (stored_elem _ _ _ _ Hok Hl) in Hc as [->|[Hc _]]; [|by apply Hold].
      exists t, psl, hd. split; [|done]. apply elem_of_app. right. by left.
    + rewrite at_key_forget. case_decide; [by intros ?%elem_of_nil|done].
    + rewrite at_key_expire, elem_of_filterb. intros [? _]. by apply Hold.
Qed.

(** ** What is sent *)
Definition longer (x y : Cookie) : Prop := (length (c_path y) <= length (c_path x))%nat.

Lemma insert_longest_perm c l : insert_longest c l ≡ₚ c :: l.
Proof.
  induction l as [|x l IH]; simpl; [done|]. destruct (_ <=? _)%nat; [done|]. rewrite IH. apply Permutation_swap.
Qed.

Lemma sort_longest_perm l : sort_longest l ≡ₚ l.
Proof. induction l as [|x l IH]; simpl; [done|]. by rewrite insert_longest_perm, IH. Qed.

Lemma insert_longest_sorted c l : StronglySorted longer l -> StronglySorted longer (insert_longest c l).
Proof.
  induction l as [|x l IH]; intros Hs; simpl; [repeat constructor|].
  apply StronglySorted_inv in Hs as [Hs Hx]. destruct (_ <=? _)%nat eqn:E.
  - apply Nat.leb_le in E. constructor; [by constructor|]. constructor; [done|].
    eapply Forall_impl; [done|]. unfold longer. intros y Hy. lia.
  - apply Nat.leb_gt in E. constructor; [by apply IH|]. rewrite insert_longest_perm.
    constructor; [unfold longer; lia|done].
Qed.

Lemma sort_longest_sorted l : StronglySorted longer (sort_longest l).
Proof. induction l as [|x l IH]; simpl; [constructor|by apply insert_longest_sorted]. Qed.

(** The cookies with a path of a given length, in order. *)
Definition of_length (n : nat) : list Cookie -> list Cookie :=
  List.filter (fun c => Nat.eqb (length (c_path c)) n).

Lemma insert_longest_stable n c l : of_length n (insert_longest c l) = of_length n (c :: l).
Proof.
  unfold of_length. induction l as [|x l IH]; [done|]. cbn [insert_longest].
  destruct (_ <=? _)%nat eqn:E; [done|]. apply Nat.leb_gt in E. cbn [List.filter] in *. rewrite IH.
  destruct (length (c_path x) =? n)%nat eqn:Ex, (length (c_path c) =? n)%nat eqn:Ec; try done.
  apply Nat.eqb_eq in Ex, Ec. lia.
Qed.

Lemma sort_longest_stable n l : of_length n (sort_longest l) = of_length n l.
Proof.
  induction l as [|x l IH]; [done|]. cbn [sort_longest foldr]. fold (sort_longest l).
  rewrite insert_longest_stable. unfold of_length in *. cbn [List.filter]. by rewrite IH.
Qed.

Lemma elem_of_cookies_for now key path cross_site j c :
  c ∈ cookies_for now key path cross_site j <->
  c ∈ at_key j key /\ sendable now (PartitionKey.origin key) path cross_site c = true.
Proof.
  unfold cookies_for, at_key. destruct (by_partition j !! key) as [l|]; simpl.
  - rewrite (sort_longest_perm _). apply elem_of_filterb.
  - split; [by intros ?%elem_of_nil|by intros [?%elem_of_nil _]].
Qed.

(** What goes with a request.  The cookies sent to an origin in a partition
    are exactly the ones filed under that very key that have not expired, match
    host and path, are not [Secure] on a plaintext origin and not [Lax] or
    [Strict] on a cross-site request; longer paths come first, and cookies with
    paths of the same length keep the order they were stored in. *)
Theorem cookies_for_correct now key path cross_site j :
  let sent := cookies_for now key path cross_site j in
  let ok c := sendable now (PartitionKey.origin key) path cross_site c in
  (forall c, c ∈ sent <-> c ∈ at_key j key /\ ok c = true) /\
  StronglySorted longer sent /\
  forall n, of_length n sent = of_length n (List.filter ok (at_key j key)).
Proof.
  cbv zeta. split; [intros c; apply elem_of_cookies_for|].
  unfold cookies_for, at_key. destruct (by_partition j !! key) as [l|]; simpl.
  - split; [apply sort_longest_sorted|intros n; apply sort_longest_stable].
  - split; [constructor|done].
Qed.

(** C3: Cookies do not cross partitions and keep their promises.  After any
    sequence of operations, a cookie sent to an origin was set by a header stored
    under the same partition key, so it is honest about that origin: it covers its
    host, and if it is [Secure] or [__Host-] the origin is secure; on a cross-site
    request it is [SameSite=None] and therefore [Secure]. *)
Theorem cookies_stay_in_partition (os : list jar_op) now key path cross_site c :
  c ∈ cookies_for now key path cross_site (run os) ->
  (exists t psl header, JStore t psl key header ∈ os /\
    parse t psl (PartitionKey.origin key) header = Ok c /\ honest psl (PartitionKey.origin key) c) /\
  (c_secure c = true -> Origin.is_secure (PartitionKey.origin key) = true) /\
  (cross_site = true -> c_same_site c = SSNone /\ Origin.is_secure (PartitionKey.origin key) = true).
Proof.
  intros Hc. apply elem_of_cookies_for in Hc as [Hin Hs].
  destruct (jar_filed_run os key c Hin) as (t & psl & hd & Ho & Hp).
  pose proof (parse_honest _ _ _ _ _ Hp) as Hh. split; [by exists t, psl, hd|]. split; [apply Hh|].
  intros ->. unfold sendable in Hs. apply andb_true_iff in Hs as [_ Hss].
  destruct (c_same_site c) eqn:E; try done. split; [done|]. by eapply (ho_secure psl), ho_none.
Qed.
End JarProps.

(** Host matching goes by labels: a cookie matches its own domain and, unless
    it is for that host only, the hosts that put something and a dot in front of
    it; a longer name that merely ends in the same letters does not match. *)
Theorem matches_host_by_labels c host :
  matches_host c host = true <->
  to_ascii_lowercase host = c_domain c \/
  c_host_only c = false /\ exists pre, pre <> [] /\ to_ascii_lowercase host = pre ++ DOT :: c_domain c.
Proof.
  unfold matches_host. cbv zeta. destruct (decide (to_ascii_lowercase host = c_domain c)) as [|Hd]; [tauto|].
  destruct (c_host_only c).
  - split; [done|]. intros [?|[? _]]; done.
  - rewrite below_domain_spec. tauto.
Qed.

(** ** The theorems at work *)
Module CookieUses.
Import CookieJar JarProps.

Definition list_com : Psl.PublicSuffixList := {| Psl.rules := [(lit "com", Psl.Normal)] |}.
Definition shop : Origin.t :=
  {| Origin.scheme := lit "https"; Origin.host := lit "www.shop.com"; Origin.port := 443 |}.
Definition key : PartitionKey.t :=
  {| PartitionKey.top_level_site := lit "shop.com"; PartitionKey.origin := shop |}.
Definition header : list byte := lit "id=1; Domain=shop.com; Secure; SameSite=None; Max-Age=60".
Definition cookie : Cookie :=
  mkCookie (lit "id") (lit "1") (lit "shop.com") false (lit "/") true false SSNone (Some 60000000000).

Lemma parse_is_honest_witness : parse 0 list_com shop header = Ok cookie /\ honest list_com shop cookie.
Proof.
  assert (parse 0 list_com shop header = Ok cookie) as E by (vm_compute; reflexivity).
  split; [exact E|exact (parse_is_honest 0 list_com shop header cookie E)].
Defined.

Lemma store_correct_witness :
  let '(j, r) := store 0 list_com key header new in r = Ok tt /\ cookie ∈ at_key j key.
Proof.
  assert (jar_ok new) as Hj by (intros k l; unfold new; simpl; by rewrite lookup_empty).
  assert (parse 0 list_com (PartitionKey.origin key) header = Ok cookie) as E by (vm_compute; reflexivity).
  assert ((store 0 list_com key header new).2 = Ok tt) as Er by (vm_compute; reflexivity).
  pose proof (store_correct 0 list_com key header new Hj) as L.
  destruct (store 0 list_com key header new) as [j r]. cbn [snd] in Er. subst r. split; [reflexivity|].
  destruct L as (c & Ec & Hc & _). apply Hc. left. congruence.
Defined.

Definition cross_site_request : list Cookie :=
  cookies_for 5 key (lit "/cart") true (run [JStore 0 list_com key header]).

Lemma cookies_stay_in_partition_witness :
  cookie ∈ cross_site_request /\ Origin.is_secure (PartitionKey.origin key) = true.
Proof.
  assert (cookie ∈ cross_site_request) as Hc.
  { assert (cross_site_request = [cookie]) as -> by (vm_compute; reflexivity). by left. }
  split; [exact Hc|].
  apply (cookies_stay_in_partition [JStore 0 list_com key header] 5 key (lit "/cart") true cookie Hc). done.
Defined.
End CookieUses.
