(* ===== verification/StoredCookie.v ===== *)
(** * Cookies as persisted (px-store/src/cookies.rs)

    The binary form of a cookie, the key it is stored under, and the
    [Set-Cookie] header it is rebuilt from.  Instants are nanoseconds, as in
    [Cookie]; Unix times are seconds. *)
From S2P Require Import Keys Prelude Bytes Text Chars Partition Format Cookie.
Local Open Scope Z_scope.

Definition VERSION : byte := x01.
Definition F_HOST_ONLY : Z := 1.
Definition F_SECURE : Z := 2.
Definition F_HTTP_ONLY : Z := 4.
Definition F_EXPIRES : Z := 8.

Record StoredCookie := mkStored {
  s_name : list byte;
  s_value : list byte;
  s_domain : list byte;
  s_host_only : bool;
  s_path : list byte;
  s_secure : bool;
  s_http_only : bool;
  s_same_site : SameSite;
  s_expires_unix : option Z
}.

#[export] Instance StoredCookie_eq_dec : EqDecision StoredCookie.
Proof. solve_decision. Defined.

Definition same_site_code (s : SameSite) : byte :=
  match s with Strict => x00 | Lax => x01 | SSNone => x02 end.

Definition push_str (out s : list byte) : option (list byte) :=
  n ← try_from U16_MAX (len s);
  Some (out ++ le_bytes 2 n ++ s).

(** [push_str] of each string, stopping at the first that is too long. *)
Fixpoint push_strs (out : list byte) (ss : list (list byte)) : option (list byte) :=
  match ss with
  | [] => Some out
  | s :: ss => out ← push_str out s; push_strs out ss
  end.

Definition read_str (r : Reader.t) : option (list byte * Reader.t) :=
  '(n, r) ← Reader.u16 r;
  '(b, r) ← Reader.take n r;
  if is_utf8 b then Some (b, r) else None.

(** The seconds left, rounded up. *)
Definition secs_left (at_ now : Z) : Z :=
  let left := at_ - now in
  left / 10 ^ 9 + (if 0 <? left mod 10 ^ 9 then 1 else 0).

Definition from_cookie (c : Cookie) (now now_unix : Z) : option StoredCookie :=
  expires_unix ←
    match c_expires_at c with
    | Some at_ => if at_ <=? now then None else Some (Some (sat_add now_unix (secs_left at_ now)))
    | None => Some None
    end;
  Some (mkStored (c_name c) (c_value c) (c_domain c) (c_host_only c) (c_path c) (c_secure c)
          (c_http_only c) (c_same_site c) expires_unix).

Definition flags_of (s : StoredCookie) : Z :=
  let flags := 0 in
  let flags := if s_host_only s then Z.lor flags F_HOST_ONLY else flags in
  let flags := if s_secure s then Z.lor flags F_SECURE else flags in
  let flags := if s_http_only s then Z.lor flags F_HTTP_ONLY else flags in
  if bool_decide (is_Some (s_expires_unix s)) then Z.lor flags F_EXPIRES else flags.

Definition encode (s : StoredCookie) : option (list byte) :=
  let out := [VERSION; z2b (flags_of s); same_site_code (s_same_site s)] in
  let out := match s_expires_unix s with Some at_ => out ++ le_bytes 8 at_ | None => out end in
  push_strs out [s_name s; s_domain s; s_path s; s_value s].

Definition all_flags : Z := Z.lor (Z.lor (Z.lor F_HOST_ONLY F_SECURE) F_HTTP_ONLY) F_EXPIRES.

Definition has_flag (flags : byte) (f : Z) : bool := negb (Z.land (b2z flags) f =? 0).

Definition decode (bytes : list byte) : option StoredCookie :=
  let r := Reader.new bytes in
  '(v, r) ← Reader.u8 r;
  if negb (bool_decide (v = VERSION)) then None
  else
    '(flags, r) ← Reader.u8 r;
    if negb (Z.land (b2z flags) (Z.lxor 255 all_flags) =? 0) then None
    else
      '(code, r) ← Reader.u8 r;
      same_site ← match code with
                  | x00 => Some Strict
                  | x01 => Some Lax
                  | x02 => Some SSNone
                  | _ => None
                  end;
      '(expires_unix, r) ←
        (if has_flag flags F_EXPIRES then
           '(b, r) ← Reader.take 8 r; Some (Some (from_le b), r)
         else Some (None, r));
      '(name, r) ← read_str r;
      '(domain, r) ← read_str r;
      '(path, r) ← read_str r;
      '(value, r) ← read_str r;
      if negb (Reader.is_empty r) then None
      else Some (mkStored name value domain (has_flag flags F_HOST_ONLY) path (has_flag flags F_SECURE)
                   (has_flag flags F_HTTP_ONLY) same_site expires_unix).

Definition to_set_cookie (s : StoredCookie) (now_unix : Z) : option (list byte) :=
  let h := s_name s ++ lit "=" ++ s_value s in
  let h := if s_host_only s then h else h ++ lit "; Domain=" ++ s_domain s in
  let h := h ++ lit "; Path=" ++ s_path s in
  let h := if s_secure s then h ++ lit "; Secure" else h in
  let h := if s_http_only s then h ++ lit "; HttpOnly" else h in
  let h := h ++ match s_same_site s with
                | Strict => lit "; SameSite=Strict"
                | Lax => lit "; SameSite=Lax"
                | SSNone => lit "; SameSite=None"
                end in
  match s_expires_unix s with
  | Some at_ =>
      left ← checked_sub at_ now_unix;
      if 0 <? left then Some (h ++ lit "; Max-Age=" ++ decimal left) else None
  | None => Some h
  end.

Definition store_key (s : StoredCookie) : option (list byte) :=
  push_strs [] [s_name s; s_domain s; s_path s].

(** [remaining], in seconds. *)
Definition remaining (expires_unix now_unix : Z) : Z := sat_sub expires_unix now_unix.

(** ** The binary form *)
(** What the types promise: strings are UTF-8, the expiry is a [u64]. *)
Record stored_ok (s : StoredCookie) : Prop := {
  so_name : is_utf8 (s_name s) = true;
  so_value : is_utf8 (s_value s) = true;
  so_domain : is_utf8 (s_domain s) = true;
  so_path : is_utf8 (s_path s) = true;
  so_expires : forall e, s_expires_unix s = Some e -> 0 <= e <= U64_MAX
}.

Definition str_bytes (s : list byte) : list byte := le_bytes 2 (len s) ++ s.

Definition fits (s : list byte) : Prop := len s <= U16_MAX.

Lemma push_str_Some out s o : push_str out s = Some o <-> fits s /\ o = out ++ str_bytes s.
Proof.
  unfold push_str, try_from, fits, str_bytes. pose proof (len_nonneg s). case_decide; simpl.
  - split; [intros [= <-]; split; [lia|done]|intros [_ ->]; done].
  - split; [done|]. intros [? _]. lia.
Qed.

Lemma push_strs_Some out ss o :
  push_strs out ss = Some o <-> Forall fits ss /\ o = out ++ concat (map str_bytes ss).
Proof.
  revert out. induction ss as [|s ss IH]; intros out; cbn [push_strs].
  - simpl. rewrite app_nil_r. split; [intros [= <-]; done|by intros [_ ->]].
  - split.
    + intros (x & [Hs ->]%push_str_Some & [Hf ->]%IH)%bind_Some. split; [by constructor|]. simpl. by rewrite <- app_assoc.
    + intros [[Hs Hf]%Forall_cons ->]. rewrite (proj2 (push_str_Some out s _) (conj Hs eq_refl)). cbn [mbind option_bind].
      apply IH. split; [done|]. simpl. by rewrite <- app_assoc.
Qed.

Lemma read_str_at r s t :
  is_utf8 s = true -> fits s -> at_ r (str_bytes s ++ t) ->
  exists r', read_str r = Some (s, r') /\ at_ r' t.
Proof.
  unfold fits, str_bytes, read_str. intros Hu Hs Hat. rewrite <- app_assoc in Hat. pose proof (len_nonneg s).
  apply u16_at in Hat as (r1 & -> & Hat); [|unfold U16_MAX in *; lia]. cbn [mbind option_bind].
  apply take_at in Hat as (r2 & -> & Hat). cbn [mbind option_bind]. rewrite Hu. by exists r2.
Qed.

Lemma read_str_inv r t s r' :
  at_ r t -> read_str r = Some (s, r') ->
  exists t', t = str_bytes s ++ t' /\ is_utf8 s = true /\ fits s /\ at_ r' t'.
Proof.
  intros Hat E. unfold read_str in E.
  apply bind_Some in E as ([n r1] & E1 & E). apply (u16_inv _ _ _ _ Hat) in E1 as (t1 & -> & Hn & Hat1).
  apply bind_Some in E as ([b r2] & E2 & E). apply (take_inv _ _ _ _ _ Hat1) in E2 as (t2 & -> & <- & Hat2).
  destruct (is_utf8 b) eqn:Hu; [|done]. injection E as -> ->. exists t2. unfold str_bytes, fits, U16_MAX.
  rewrite <- app_assoc. split_and!; [done..|lia|done].
Qed.

(** The flag byte. *)
Definition flag_bits (h sec http e : bool) : Z :=
  (if h then 1 else 0) + (if sec then 2 else 0) + (if http then 4 else 0) + (if e then 8 else 0).

Lemma flags_of_bits s :
  flags_of s = flag_bits (s_host_only s) (s_secure s) (s_http_only s) (bool_decide (is_Some (s_expires_unix s))).
Proof. unfold flags_of. by destruct (s_host_only s), (s_secure s), (s_http_only s), (bool_decide _). Qed.

Lemma flags_read h sec http e :
  let f := z2b (flag_bits h sec http e) in
  Z.land (b2z f) (Z.lxor 255 all_flags) = 0 /\ has_flag f F_HOST_ONLY = h /\ has_flag f F_SECURE = sec /\
  has_flag f F_HTTP_ONLY = http /\ has_flag f F_EXPIRES = e.
Proof. by destruct h, sec, http, e; vm_compute. Qed.

Lemma flags_written f :
  Z.land (b2z f) (Z.lxor 255 all_flags) = 0 ->
  z2b (flag_bits (has_flag f F_HOST_ONLY) (has_flag f F_SECURE) (has_flag f F_HTTP_ONLY) (has_flag f F_EXPIRES)) = f.
Proof. destruct f; vm_compute; intros E; try discriminate E; reflexivity. Qed.

(** What [encode] writes when every string fits. *)
Definition stored_bytes (s : StoredCookie) : list byte :=
  VERSION :: z2b (flags_of s) :: same_site_code (s_same_site s) ::
  match s_expires_unix s with Some e => le_bytes 8 e | None => [] end ++
  str_bytes (s_name s) ++ str_bytes (s_domain s) ++ str_bytes (s_path s) ++ str_bytes (s_value s).

Definition stored_fits (s : StoredCookie) : Prop :=
  Forall fits [s_name s; s_domain s; s_path s; s_value s].

Lemma encode_Some s b : encode s = Some b <-> stored_fits s /\ b = stored_bytes s.
Proof.
  unfold encode, stored_fits. cbv zeta. rewrite push_strs_Some. f_equiv. unfold stored_bytes. simpl.
  rewrite app_nil_r. by destruct (s_expires_unix s).
Qed.

Lemma len_str_bytes s : len (str_bytes s) = 2 + len s.
Proof. unfold str_bytes. by rewrite len_app, len_le_bytes. Qed.

Lemma len_stored_bytes s : stored_fits s -> slice_ok (stored_bytes s).
Proof.
  unfold stored_fits, fits, stored_bytes, slice_ok. rewrite !Forall_cons. intros (H1 & H2 & H3 & H4 & _).
  rewrite !len_cons, !len_app, !len_str_bytes. unfold U16_MAX, ISIZE_MAX in *.
  destruct (s_expires_unix s); rewrite ?len_le_bytes, ?len_nil; lia.
Qed.

Lemma decode_stored s : stored_ok s -> stored_fits s -> decode (stored_bytes s) = Some s.
Proof.
  intros [H1 H2 H3 H4 H5] Hf. pose proof (at_new _ (len_stored_bytes s Hf)) as Hat.
  unfold decode. cbv zeta. remember (Reader.new (stored_bytes s)) as r eqn:Er. clear Er.
  unfold stored_fits in Hf. rewrite !Forall_cons in Hf. destruct Hf as (F1 & F2 & F3 & F4 & _).
  unfold stored_bytes in Hat. rewrite flags_of_bits in Hat.
  destruct (flags_read (s_host_only s) (s_secure s) (s_http_only s) (bool_decide (is_Some (s_expires_unix s))))
    as (L0 & L1 & L2 & L3 & L4).
  set (f := z2b (flag_bits _ _ _ _)) in *.
  apply u8_at in Hat as (r1 & -> & Hat). cbn [mbind option_bind]. rewrite bool_decide_eq_true_2 by done. simpl negb. cbv iota.
  apply u8_at in Hat as (r2 & -> & Hat). cbn [mbind option_bind]. rewrite L0, L1, L2, L3, L4. simpl negb. cbv iota.
  apply u8_at in Hat as (r3 & -> & Hat). cbn [mbind option_bind].
  assert (match same_site_code (s_same_site s) with x00 => Some Strict | x01 => Some Lax | x02 => Some SSNone | _ => None end
    = Some (s_same_site s)) as -> by (by destruct (s_same_site s)).
  cbn [mbind option_bind].
  assert (exists r4, (if bool_decide (is_Some (s_expires_unix s)) then
      '(b, r) ← Reader.take 8 r3; Some (Some (from_le b), r) else Some (None, r3)) = Some (s_expires_unix s, r4) /\
    at_ r4 (str_bytes (s_name s) ++ str_bytes (s_domain s) ++ str_bytes (s_path s) ++ str_bytes (s_value s)))
    as (r4 & -> & Hat4).
  { destruct (s_expires_unix s) as [e|]; [|by exists r3]. rewrite bool_decide_eq_true_2 by (by eexists).
    apply take_at in Hat as (r4 & E & Hat). exists r4. split; [|done]. rewrite len_le_bytes in E.
    change (Z.of_nat 8) with 8 in E. rewrite E. cbn [mbind option_bind]. rewrite from_le_bytes; [done|].
    specialize (H5 e eq_refl). unfold U64_MAX in H5. lia. }
  clear Hat. cbn [mbind option_bind].
  apply read_str_at in Hat4 as (r5 & -> & Hat); [|done..]. cbn [mbind option_bind].
  apply read_str_at in Hat as (r6 & -> & Hat); [|done..]. cbn [mbind option_bind].
  apply read_str_at in Hat as (r7 & -> & Hat); [|done..]. cbn [mbind option_bind].
  rewrite <- (app_nil_r (str_bytes (s_value s))) in Hat.
  apply read_str_at in Hat as (r8 & -> & Hat); [|done..]. cbn [mbind option_bind].
  assert (Reader.is_empty r8 = true) as ->.
  { pose proof (at_len _ _ Hat) as Hl. rewrite len_nil in Hl. unfold Reader.is_empty. lia. }
  by destruct s.
Qed.

Lemma cookie_decode_inv b s : slice_ok b -> decode b = Some s -> stored_ok s /\ stored_fits s /\ b = stored_bytes s.
Proof.
  intros Hok E. pose proof (at_new _ Hok) as Hat. unfold decode in E. cbv zeta in E.
  remember (Reader.new b) as r eqn:Er. clear Er.
  apply bind_Some in E as ([v r1] & E1 & E). apply (u8_inv _ _ _ _ Hat) in E1 as (t1 & -> & Hat1).
  case_bool_decide as Hv; [subst v|done]. simpl negb in E. cbv iota in E.
  apply bind_Some in E as ([f r2] & E2 & E). apply (u8_inv _ _ _ _ Hat1) in E2 as (t2 & -> & Hat2).
  destruct (Z.land (b2z f) _ =? 0) eqn:Hf; [|done]. apply Z.eqb_eq in Hf. simpl negb in E. cbv iota in E.
  apply bind_Some in E as ([code r3] & E3 & E). apply (u8_inv _ _ _ _ Hat2) in E3 as (t3 & -> & Hat3).
  apply bind_Some in E as (ss & Ess & E).
  assert (code = same_site_code ss) as -> by (destruct code; try discriminate Ess; by injection Ess as <-).
  apply bind_Some in E as ([ex r4] & E4 & E).
  assert (exists t4, t3 = match ex with Some e => le_bytes 8 e | None => [] end ++ t4 /\ at_ r4 t4 /\
    has_flag f F_EXPIRES = bool_decide (is_Some ex) /\ forall e, ex = Some e -> 0 <= e <= U64_MAX)
    as (t4 & -> & Hat4 & Hex & Hr).
  { destruct (has_flag f F_EXPIRES); [|by injection E4 as <- <-; exists t3].
    apply bind_Some in E4 as ([w r'] & Ew & [= <- <-]).
    apply (take_inv _ _ _ _ _ Hat3) in Ew as (t' & -> & Hl & Hat'). exists t'.
    assert (length w = 8%nat) as Hw by (unfold len in Hl; lia).
    split_and!; [by rewrite <- Hw, le_bytes_from|done|by rewrite bool_decide_eq_true_2|].
    intros e [= <-]. pose proof (from_le_range w) as Hb. rewrite Hl in Hb. unfold U64_MAX. lia. }
  apply bind_Some in E as ([name r5] & E5 & E). apply (read_str_inv _ _ _ _ Hat4) in E5 as (t5 & -> & U1 & F1 & Hat5).
  apply bind_Some in E as ([dom r6] & E6 & E). apply (read_str_inv _ _ _ _ Hat5) in E6 as (t6 & -> & U2 & F2 & Hat6).
  apply bind_Some in E as ([path r7] & E7 & E). apply (read_str_inv _ _ _ _ Hat6) in E7 as (t7 & -> & U3 & F3 & Hat7).
  apply bind_Some in E as ([value r8] & E8 & E). apply (read_str_inv _ _ _ _ Hat7) in E8 as (t8 & -> & U4 & F4 & Hat8).
  destruct (Reader.is_empty r8) eqn:He; [|done]. injection E as <-.
  assert (t8 = []) as ->.
  { pose proof (at_len _ _ Hat8) as Hl. unfold Reader.is_empty in He. apply len_zero. pose proof (len_nonneg t8). lia. }
  split; [by split|]. split; [by repeat constructor|]. unfold stored_bytes. rewrite flags_of_bits. simpl.
  rewrite <- Hex, flags_written by done. by rewrite app_nil_r.
Qed.

(** ** The key *)
Lemma str_bytes_inj a b x y : fits a -> fits b -> str_bytes a ++ x = str_bytes b ++ y -> a = b /\ x = y.
Proof.
  unfold str_bytes, fits. intros Ha Hb E. rewrite <- !app_assoc in E.
  apply app_inj_1 in E as [El E]; [|by rewrite !length_le_bytes].
  assert (len a = len b) as Hl.
  { apply (f_equal from_le) in El. pose proof (len_nonneg a). pose proof (len_nonneg b).
    rewrite !from_le_bytes in El; [done|unfold U16_MAX in *; lia..]. }
  apply app_inj_1; [|done]. unfold len in Hl. lia.
Qed.

Definition identity (s : StoredCookie) : list byte * list byte * list byte := (s_name s, s_domain s, s_path s).

Lemma store_key_Some s k :
  store_key s = Some k <->
  Forall fits [s_name s; s_domain s; s_path s] /\
  k = str_bytes (s_name s) ++ str_bytes (s_domain s) ++ str_bytes (s_path s).
Proof. unfold store_key. rewrite push_strs_Some. simpl. by rewrite app_nil_r. Qed.

Lemma store_key_inj s s' k : store_key s = Some k -> store_key s' = Some k -> identity s = identity s'.
Proof.
  intros [F ->]%store_key_Some [F' E]%store_key_Some. rewrite !Forall_cons in F, F'.
  destruct F as (F1 & F2 & F3 & _), F' as (G1 & G2 & G3 & _).
  apply str_bytes_inj in E as [E1 E]; [|done..]. apply str_bytes_inj in E as [E2 E]; [|done..].
  rewrite <- (app_nil_r (str_bytes (s_path s))), <- (app_nil_r (str_bytes (s_path s'))) in E.
  apply str_bytes_inj in E as [E3 _]; [|done..]. unfold identity. congruence.
Qed.

(** ** The header *)
(** The attributes [to_set_cookie] writes, in order. *)
Definition attributes (s : StoredCookie) (left : option Z) : list (list byte) :=
  (if s_host_only s then [] else [lit "Domain=" ++ s_domain s]) ++
  [lit "Path=" ++ s_path s] ++
  (if s_secure s then [lit "Secure"] else []) ++
  (if s_http_only s then [lit "HttpOnly"] else []) ++
  [match s_same_site s with
   | Strict => lit "SameSite=Strict"
   | Lax => lit "SameSite=Lax"
   | SSNone => lit "SameSite=None"
   end] ++
  match left with Some n => [lit "Max-Age=" ++ decimal n] | None => [] end.

Definition header_of (s : StoredCookie) (left : option Z) : list byte :=
  join_with ";"%byte ((s_name s ++ lit "=" ++ s_value s) :: map (cons x20) (attributes s left)).

(** The seconds of life left, for a cookie that has a limit and is alive. *)
Definition life_left (s : StoredCookie) (now_unix : Z) : option (option Z) :=
  match s_expires_unix s with
  | Some e => if now_unix <? e then Some (Some (e - now_unix)) else None
  | None => Some None
  end.

Lemma join_blank p l : join_with ";"%byte (p :: map (cons x20) l) = p ++ concat (map (app (lit "; ")) l).
Proof.
  revert p. induction l as [|x l IH]; intros p; [by rewrite app_nil_r|].
  change (join_with ";"%byte (p :: map (cons x20) (x :: l)))
    with (p ++ ";"%byte :: join_with ";"%byte ((x20 :: x) :: map (cons x20) l)).
  rewrite IH. done.
Qed.

Lemma to_set_cookie_header s now_unix :
  to_set_cookie s now_unix = header_of s <$> life_left s now_unix.
Proof.
  unfold to_set_cookie, life_left, checked_sub, header_of. cbv zeta.
  destruct (s_expires_unix s) as [e|].
  - destruct (now_unix <? e) eqn:Hl.
    + apply Z.ltb_lt in Hl. rewrite (proj2 (Z.leb_le now_unix e)) by lia. cbn [mbind option_bind].
      rewrite (proj2 (Z.ltb_lt 0 _)) by lia. cbn [fmap option_fmap option_map]. f_equal. rewrite join_blank.
      unfold attributes. rewrite !map_app, !concat_app.
      destruct (s_host_only s), (s_secure s), (s_http_only s), (s_same_site s);
        cbn [map concat app]; rewrite <- ?app_assoc, ?app_nil_r; done.
    + apply Z.ltb_ge in Hl. destruct (now_unix <=? e) eqn:Hle; [|done]. cbn [mbind option_bind].
      by rewrite (proj2 (Z.ltb_ge 0 _)) by lia.
  - cbn [fmap option_fmap option_map]. f_equal. rewrite join_blank. unfold attributes. rewrite !map_app, !concat_app.
    destruct (s_host_only s), (s_secure s), (s_http_only s), (s_same_site s);
      cbn [map concat app]; rewrite <- ?app_assoc, ?app_nil_r; done.
Qed.

(** *** How the parser leaves the fields *)
Definition SEMI : byte := ";"%byte.
Definition EQUALS : byte := "="%byte.

Record as_parsed (c : Cookie) : Prop := {
  ap_name : trimmed (c_name c) /\ (EQUALS ∉ c_name c) /\ SEMI ∉ c_name c;
  ap_value : trimmed (c_value c) /\ SEMI ∉ c_value c;
  ap_path : trimmed (c_path c) /\ SEMI ∉ c_path c;
  ap_domain : c_host_only c = false ->
    to_ascii_lowercase (c_domain c) = c_domain c /\ head (c_domain c) <> Some DOT /\
    last (c_domain c) <> Some DOT /\ c_domain c <> []
}.

Definition domain_shape (d : list byte) : Prop :=
  to_ascii_lowercase d = d /\ head d <> Some DOT /\ last d <> Some DOT /\ d <> [].

Definition attributes_ok (a : Attributes) : Prop :=
  (forall p, at_path a = Some p -> trimmed p /\ SEMI ∉ p) /\
  (forall d, at_domain a = Some d -> domain_shape d).

Lemma lower_dot b : ascii_lower_byte b = DOT -> b = DOT.
Proof. destruct b; vm_compute; intros E; (discriminate E || reflexivity). Qed.

Lemma read_domain_shape val d :
  d = to_ascii_lowercase (trim_end_matches DOT (drop_while_eq DOT val)) -> d <> [] -> domain_shape d.
Proof.
  intros -> Hne. split_and!; [apply to_ascii_lowercase_idem| | |done].
  - destruct (trim_end_matches_spec DOT (drop_while_eq DOT val)) as [k Hk].
    pose proof (drop_while_eq_head DOT val) as Hh. rewrite Hk in Hh.
    destruct (trim_end_matches _ _) as [|x l]; [done|]. simpl. intros [= E%lower_dot]. by subst.
  - pose proof (trim_end_matches_last DOT (drop_while_eq DOT val)) as Hl. unfold to_ascii_lowercase.
    set (t := trim_end_matches _ _) in *. change (map ascii_lower_byte t) with (ascii_lower_byte <$> t).
    rewrite fmap_last. destruct (last _) as [x|]; [|done]. simpl.
    intros [= E%lower_dot]. by subst.
Qed.

Lemma read_attribute_ok a key val a' :
  trimmed val -> SEMI ∉ val -> read_attribute a key val = Ok a' -> attributes_ok a -> attributes_ok a'.
Proof.
  intros Hv Hs. destruct a as [domain path secure http_only same_site max_age]. unfold read_attribute.
  intros E [Hp Hd]. cbv zeta in E. case_decide.
  { case_bool_decide as Hh; [done|]. injection E as <-. split; [done|]. intros d [= <-]. by eapply read_domain_shape. }
  case_decide.
  { destruct (has_prefix _ _); [|done]. injection E as <-. split; [|done]. by intros p [= <-]. }
  repeat (case_match; try discriminate E); injection E as <-; by split.
Qed.

Lemma read_attributes_ok a parts a' :
  Forall (fun p => SEMI ∉ p) parts -> read_attributes a parts = Ok a' -> attributes_ok a -> attributes_ok a'.
Proof.
  intros Hp. revert a. induction Hp as [|x parts Hx Hp IH]; intros a; cbn [read_attributes]; [by intros [= <-]|].
  cbv zeta. case_bool_decide; [apply IH|].
  destruct (match split_once _ _ with Some _ => _ | None => _ end) as [key val] eqn:Ekv.
  intros (b & Eb & E)%bind_Ok Ha. eapply IH; [done|]. eapply read_attribute_ok; [| |exact Eb|done].
  - destruct (split_once "="%byte (trim x)) as [[k v]|]; injection Ekv as <- <-; [apply trim_trimmed|done].
  - destruct (split_once "="%byte (trim x)) as [[k v]|] eqn:Es; injection Ekv as <- <-; [|apply not_elem_of_nil].
    apply split_once_spec in Es as [Es _]. intros Hin%elem_of_trim. apply Hx, elem_of_trim. rewrite Es.
    apply elem_of_app. right. by right.
Qed.

Lemma parse_as_parsed now psl origin header c : parse now psl origin header = Ok c -> as_parsed c.
Proof.
  unfold parse. destruct (_ <? _); [done|]. cbv zeta. intros ([name value] & Ek & E)%bind_Ok.
  apply ok_or_Ok in Ek. apply split_once_spec in Ek as [Ek Hnoeq].
  set (pair := default [] (head (split_on ";"%byte header))) in *.
  assert (SEMI ∉ pair) as Hpair.
  { unfold pair. pose proof (split_on_nosep ";"%byte header) as Hn. destruct (split_on _ header) as [|p ps]; simpl.
    - apply not_elem_of_nil.
    - apply Hn. by left. }
  rewrite Ek in Hpair. rewrite not_elem_of_app, not_elem_of_cons in Hpair. destruct Hpair as (Hs1 & _ & Hs2).
  case_bool_decide as Hn; [done|]. apply bind_Ok in E as (a & Ea & E).
  apply read_attributes_ok in Ea as [Hp Hd]; [|apply (split_on_drop_nosep _ 1)|by split].
  destruct (bool_decide (at_same_site a = SSNone) && _); [done|]. destruct (at_secure a && _); [done|].
  apply bind_Ok in E as ([] & _ & E). apply bind_Ok in E as ([d ho] & Hsc%scope_Ok & E). injection E as <-.
  split; simpl.
  - split_and!; [apply trim_trimmed|by intros ?%elem_of_trim..].
  - split; [apply trim_trimmed|by intros ?%elem_of_trim].
  - destruct (at_path a) as [p|]; simpl; [by apply Hp|]. split; [by apply trimmed_solid, Forall_singleton|].
    rewrite list_elem_of_singleton. done.
  - intros ->. destruct Hsc as (Hsc & _). by apply Hd.
Qed.

(** *** Reading back what was written *)
Lemma read_named a x K val parts :
  Forall (fun b => solid b = true) (x :: K) -> EQUALS ∉ x :: K -> trimmed val -> val <> [] ->
  read_attributes a ((x20 :: (x :: K) ++ EQUALS :: val) :: parts) =
  (a ← read_attribute a (to_ascii_lowercase (x :: K)) val; read_attributes a parts).
Proof.
  intros HK He Hv Hne. cbn [read_attributes]. cbv zeta.
  assert (trimmed ((x :: K) ++ EQUALS :: val)) as Ht.
  { apply Forall_cons in HK as [Hx _]. by apply trimmed_app. }
  rewrite trim_blank by done. case_bool_decide as Hb; [done|].
  rewrite (proj2 (split_once_spec EQUALS _ _ _) (conj eq_refl He)).
  by rewrite (trim_id _ (trimmed_solid _ HK)), (trim_id _ Hv).
Qed.

Lemma read_bare a K parts :
  Forall (fun b => solid b = true) K -> K <> [] -> EQUALS ∉ K ->
  read_attributes a ((x20 :: K) :: parts) =
  (a ← read_attribute a (to_ascii_lowercase K) []; read_attributes a parts).
Proof.
  intros HK Hne He. cbn [read_attributes]. cbv zeta. rewrite trim_blank by (by apply trimmed_solid).
  rewrite bool_decide_eq_false_2 by done. by rewrite (proj2 (split_once_None "="%byte K) He).
Qed.

Lemma parse_decimal n : 0 <= n < 2 ^ 63 -> parse_i64 (decimal n) = Some n.
Proof.
  intros Hn. pose proof (decimal_digits n) as [Hd Hne]. pose proof (decimal_value n ltac:(unfold U64_MAX; lia)) as Hv.
  unfold parse_i64. destruct (decimal n) as [|b t]; [done|]. apply Forall_cons in Hd as [Hb _].
  rewrite decide_False by (by intros ->). rewrite decide_False by (by intros ->).
  rewrite bool_decide_eq_false_2 by done. rewrite Hv. cbn [mbind option_bind]. cbv zeta. rewrite Z.mul_1_l.
  rewrite (proj2 (Z.leb_le _ n)) by lia. by rewrite (proj2 (Z.ltb_lt n _)) by lia.
Qed.

Lemma read_domain a d parts :
  domain_shape d -> trimmed d ->
  read_attributes a ((x20 :: lit "Domain=" ++ d) :: parts) =
  read_attributes (mkAttributes (Some d) (at_path a) (at_secure a) (at_http_only a) (at_same_site a) (at_max_age a)) parts.
Proof.
  intros (Hl & Hh & Ht & Hne) Hv. change (lit "Domain=" ++ d) with (lit "Domain" ++ EQUALS :: d).
  change (lit "Domain") with ("D"%byte :: lit "omain"). rewrite read_named; [|repeat constructor|set_solver|done..].
  destruct a as [domain path secure http_only same_site max_age]. unfold read_attribute.
  rewrite decide_True by done. cbv zeta.
  assert (drop_while_eq DOT d = d) as ->.
  { destruct d as [|b d]; [done|]. simpl. rewrite bool_decide_eq_false_2; [done|]. simpl in Hh. congruence. }
  rewrite trim_end_matches_id, Hl by done. by rewrite bool_decide_eq_false_2.
Qed.

Lemma read_path a p parts :
  has_prefix [SLASH] p = true -> trimmed p ->
  read_attributes a ((x20 :: lit "Path=" ++ p) :: parts) =
  read_attributes (mkAttributes (at_domain a) (Some p) (at_secure a) (at_http_only a) (at_same_site a) (at_max_age a)) parts.
Proof.
  intros Hp Hv. change (lit "Path=" ++ p) with (("P"%byte :: lit "ath") ++ EQUALS :: p).
  rewrite read_named; [|repeat constructor|set_solver|done|by intros ->].
  destruct a as [domain path secure http_only same_site max_age]. unfold read_attribute.
  rewrite decide_False by done. rewrite decide_True by done. by rewrite Hp.
Qed.

Lemma read_secure a parts :
  read_attributes a ((x20 :: lit "Secure") :: parts) =
  read_attributes (mkAttributes (at_domain a) (at_path a) true (at_http_only a) (at_same_site a) (at_max_age a)) parts.
Proof. rewrite read_bare; [by destruct a|repeat constructor|done|set_solver]. Qed.

Lemma read_http_only a parts :
  read_attributes a ((x20 :: lit "HttpOnly") :: parts) =
  read_attributes (mkAttributes (at_domain a) (at_path a) (at_secure a) true (at_same_site a) (at_max_age a)) parts.
Proof. rewrite read_bare; [by destruct a|repeat constructor|done|set_solver]. Qed.

Lemma read_same_site a ss parts :
  read_attributes a ((x20 :: match ss with
     | Strict => lit "SameSite=Strict" | Lax => lit "SameSite=Lax" | SSNone => lit "SameSite=None" end) :: parts) =
  read_attributes (mkAttributes (at_domain a) (at_path a) (at_secure a) (at_http_only a) ss (at_max_age a)) parts.
Proof. destruct a, ss; reflexivity. Qed.

Lemma read_max_age a n parts :
  0 <= n < 2 ^ 63 ->
  read_attributes a ((x20 :: lit "Max-Age=" ++ decimal n) :: parts) =
  read_attributes (mkAttributes (at_domain a) (at_path a) (at_secure a) (at_http_only a) (at_same_site a) (Some n)) parts.
Proof.
  intros Hn. pose proof (decimal_digits n) as [Hd Hne].
  change (lit "Max-Age=" ++ decimal n) with (("M"%byte :: lit "ax-Age") ++ EQUALS :: decimal n).
  rewrite read_named; [|repeat constructor|set_solver| |done].
  - destruct a as [domain path secure http_only same_site max_age]. unfold read_attribute.
    rewrite !decide_False by done. rewrite decide_True by done. by rewrite parse_decimal.
  - eapply trimmed_solid, Forall_impl; [exact Hd|]. intros b. apply is_digit_solid.
Qed.

Lemma read_rebuilt s left :
  has_prefix [SLASH] (s_path s) = true -> trimmed (s_path s) ->
  (s_host_only s = false -> domain_shape (s_domain s) /\ trimmed (s_domain s)) ->
  (forall n, left = Some n -> 0 <= n < 2 ^ 63) ->
  read_attributes no_attributes (map (cons x20) (attributes s left)) =
  Ok (mkAttributes (if s_host_only s then None else Some (s_domain s)) (Some (s_path s)) (s_secure s)
        (s_http_only s) (s_same_site s) left).
Proof.
  intros Hp Ht Hd Hn. unfold attributes. rewrite !map_app.
  assert (forall a l, read_attributes a (map (cons x20) match left with Some n => [lit "Max-Age=" ++ decimal n] | None => [] end)
    = Ok l <-> l = match left with
      | Some n => mkAttributes (at_domain a) (at_path a) (at_secure a) (at_http_only a) (at_same_site a) (Some n)
      | None => a end) as Hend.
  { intros a l. destruct left as [n|]; cbn [map].
    - rewrite read_max_age by (by apply Hn). simpl. split; [by intros [= <-]|by intros ->].
    - simpl. split; [by intros [= <-]|by intros ->]. }
  destruct (s_host_only s).
  2: destruct (Hd eq_refl) as [Hs Hdt]; cbn [map app]; rewrite read_domain by done.
  all: cbn [map app]; rewrite read_path by done; destruct (s_secure s); cbn [map app]; rewrite ?read_secure.
  all: destruct (s_http_only s); cbn [map app]; rewrite ?read_http_only, read_same_site; apply Hend; by destruct left.
Qed.

(** *** The whole header *)
(** A host as the network code leaves it: no white space, no semicolon. *)
Definition host_plain (o : Origin.t) : Prop :=
  Forall (fun b => solid b = true /\ b <> SEMI) (Origin.host o).

Lemma lower_solid b : solid b = true /\ b <> SEMI -> solid (ascii_lower_byte b) = true /\ ascii_lower_byte b <> SEMI.
Proof. destruct b; vm_compute; intros [H1 H2]; (discriminate H1 || (exfalso; by apply H2) || (split; [reflexivity|discriminate])). Qed.

Lemma domain_plain psl origin c :
  honest psl origin c -> host_plain origin -> Forall (fun b => solid b = true /\ b <> SEMI) (c_domain c).
Proof.
  intros Hh Hp. pose proof (ho_domain _ _ _ Hh) as Hm. unfold matches_host in Hm.
  assert (Forall (fun b => solid b = true /\ b <> SEMI) (to_ascii_lowercase (Origin.host origin))) as Hl.
  { unfold to_ascii_lowercase. apply Forall_map. eapply Forall_impl; [exact Hp|]. intros b. apply lower_solid. }
  cbv zeta in Hm. case_decide as Hd; [by rewrite <- Hd|]. destruct (c_host_only c); [done|].
  apply below_domain_spec in Hm as (pre & _ & E). rewrite E in Hl. apply Forall_app in Hl as [_ Hl].
  by apply Forall_cons in Hl as [_ Hl].
Qed.

Definition stored_of (c : Cookie) (expires_unix : option Z) : StoredCookie :=
  mkStored (c_name c) (c_value c) (c_domain c) (c_host_only c) (c_path c) (c_secure c) (c_http_only c)
    (c_same_site c) expires_unix.

Definition with_expiry (c : Cookie) (e : option Z) : Cookie :=
  mkCookie (c_name c) (c_value c) (c_domain c) (c_host_only c) (c_path c) (c_secure c) (c_http_only c)
    (c_same_site c) e.

Lemma no_semi l : Forall (fun b => b <> SEMI) l <-> SEMI ∉ l.
Proof.
  rewrite Forall_forall. split; [intros H Hin; by apply (H SEMI)|intros H b Hb ->; done].
Qed.

Lemma digits_no_semi n : SEMI ∉ decimal n.
Proof.
  apply no_semi. eapply Forall_impl; [apply decimal_digits|]. by intros b Hb ->.
Qed.

Lemma pieces_no_semi s left :
  SEMI ∉ s_name s -> SEMI ∉ s_value s -> SEMI ∉ s_path s -> SEMI ∉ s_domain s ->
  Forall (fun p => SEMI ∉ p) ((s_name s ++ lit "=" ++ s_value s) :: map (cons x20) (attributes s left)).
Proof.
  intros H1 H2 H3 H4. constructor; [rewrite !not_elem_of_app; split_and!; [done|set_solver|done]|].
  assert (forall a, Forall (fun p => SEMI ∉ p) a -> Forall (fun p => SEMI ∉ p) (map (cons x20) a)) as Hmap.
  { intros a Ha. apply Forall_map. eapply Forall_impl; [exact Ha|]. intros p Hp. simpl. apply not_elem_of_cons. done. }
  apply Hmap. unfold attributes. rewrite !Forall_app. split_and!.
  - destruct (s_host_only s); [constructor|]. apply Forall_singleton. rewrite not_elem_of_app. set_solver.
  - apply Forall_singleton. rewrite not_elem_of_app. set_solver.
  - destruct (s_secure s); [|constructor]. apply Forall_singleton. set_solver.
  - destruct (s_http_only s); [|constructor]. apply Forall_singleton. set_solver.
  - apply Forall_singleton. destruct (s_same_site s); set_solver.
  - destruct left as [n|]; [|constructor]. apply Forall_singleton. rewrite not_elem_of_app.
    split; [set_solver|apply digits_no_semi].
Qed.

Lemma honest_prefixes psl origin c :
  honest psl origin c ->
  check_prefixes (c_name c) (mkAttributes (if c_host_only c then None else Some (c_domain c)) (Some (c_path c))
    (c_secure c) (c_http_only c) (c_same_site c) None) = Ok tt.
Proof.
  intros Hh. pose proof (ho_secure_prefix _ _ _ Hh) as P1. pose proof (ho_host_prefix _ _ _ Hh) as P2.
  unfold check_prefixes. cbn [at_secure at_domain at_path].
  destruct (has_prefix (lit "__Secure-") (c_name c)); [rewrite P1 by done|]; simpl.
  all: destruct (has_prefix (lit "__Host-") (c_name c)); [|done]; destruct (P2 eq_refl) as (E1 & E2 & E3).
  all: rewrite ?E1, E2, E3; simpl; done.
Qed.

Lemma honest_scope psl origin c :
  honest psl origin c -> scope psl origin (if c_host_only c then None else Some (c_domain c)) = Ok (c_domain c, c_host_only c).
Proof.
  intros Hh. pose proof (ho_domain _ _ _ Hh) as Hm. unfold matches_host in Hm. cbv zeta in Hm. unfold scope. cbv zeta.
  destruct (c_host_only c) eqn:Ho; [case_decide as Hd; [by rewrite Hd|done]|].
  rewrite bool_decide_eq_false_2 by (by apply (ho_suffix _ _ _ Hh)).
  case_decide as Hd; [by rewrite bool_decide_eq_true_2|]. rewrite Hm. by rewrite andb_false_r.
Qed.

Lemma header_reparses now psl origin c e left :
  as_parsed c -> honest psl origin c -> host_plain origin ->
  (forall n, left = Some n -> 0 <= n < 2 ^ 63) ->
  len (header_of (stored_of c e) left) <= MAX_COOKIE_BYTES ->
  parse now psl origin (header_of (stored_of c e) left) = Ok (with_expiry c (expiry now left)).
Proof.
  intros [(A1 & A2 & A3) (A4 & A5) (A6 & A7) A8] Hh Hp Hn Hlen. pose proof (domain_plain _ _ _ Hh Hp) as Hd.
  unfold parse. rewrite (proj2 (Z.ltb_ge _ _)) by done. cbv zeta.
  assert (Forall (fun b => solid b = true) (c_domain c)) as Hds by (eapply Forall_impl; [exact Hd|]; by intros b [? _]).
  assert (SEMI ∉ c_domain c) as Hdn by (apply no_semi; eapply Forall_impl; [exact Hd|]; by intros b [_ ?]).
  unfold header_of. rewrite split_join by (done || by apply pieces_no_semi). cbn [head tail default from_option id].
  change (lit "=" ++ s_value (stored_of c e)) with (EQUALS :: c_value c). cbn [s_name stored_of].
  rewrite (proj2 (split_once_spec EQUALS _ _ _) (conj eq_refl A2)). cbn [ok_or mbind result_bind].
  rewrite !trim_id by done. rewrite bool_decide_eq_false_2 by (apply (ho_name _ _ _ Hh)).
  rewrite read_rebuilt; [|apply (ho_path _ _ _ Hh)|done|split; [by apply A8|by apply trimmed_solid]|done].
  cbn [mbind result_bind at_same_site at_secure at_domain at_path at_http_only at_max_age stored_of
    s_host_only s_domain s_path s_secure s_http_only s_same_site].
  assert (bool_decide (c_same_site c = SSNone) && negb (c_secure c) = false) as ->.
  { case_bool_decide as Hs; [|done]. by rewrite (ho_none _ _ _ Hh Hs). }
  assert (c_secure c && negb (Origin.is_secure origin) = false) as ->.
  { destruct (c_secure c) eqn:Hs; [|done]. by rewrite (ho_secure _ _ _ Hh Hs). }
  pose proof (honest_prefixes _ _ _ Hh) as Hpre. unfold check_prefixes in *. cbn [at_secure at_domain at_path] in *.
  rewrite Hpre. cbn [mbind result_bind]. rewrite (honest_scope _ _ _ Hh). done.
Qed.

Lemma from_cookie_Some c now now_unix s :
  from_cookie c now now_unix = Some s ->
  exists e, s = stored_of c e /\ is_expired c now = false /\
    e = (fun at_ => sat_add now_unix (secs_left at_ now)) <$> c_expires_at c.
Proof.
  unfold from_cookie, is_expired. destruct (c_expires_at c) as [at_|].
  - destruct (at_ <=? now); [done|]. cbn [mbind option_bind]. intros [= <-]. by eexists.
  - cbn [mbind option_bind]. intros [= <-]. by eexists.
Qed.

Section codec.
Context (s : StoredCookie) (b : list byte).

(** The binary form of a stored cookie: reading gives back exactly what was
    written, and the only bytes that read as a cookie are the ones written for it;
    every cookie whose strings are at most 65535 bytes can be written. *)
Theorem stored_cookie_roundtrip :
  stored_ok s -> slice_ok b ->
  (encode s = Some b <-> decode b = Some s) /\ (is_Some (encode s) <-> stored_fits s).
Proof.
  intros Hs Hb. split.
  - rewrite encode_Some. split; [intros [Hf ->]; by apply decode_stored|].
    intros (_ & Hf & Eb)%cookie_decode_inv; done.
  - split; [intros [x [? _]%encode_Some]; done|]. intros Hf. exists (stored_bytes s). by apply encode_Some.
Qed.
End codec.

(** A cookie that was accepted, saved and read again comes back: while it is
    alive, the header rebuilt from the stored form is accepted for the same
    origin and yields the same cookie, its life being what was left of it. *)
Theorem saved_cookie_comes_back now0 psl origin header c now now_unix s b now1 now_unix1 h :
  parse now0 psl origin header = Ok c -> host_plain origin -> stored_ok s ->
  from_cookie c now now_unix = Some s -> encode s = Some b ->
  (forall e, s_expires_unix s = Some e -> e - now_unix1 < 2 ^ 63) ->
  to_set_cookie s now_unix1 = Some h -> len h <= MAX_COOKIE_BYTES ->
  decode b = Some s /\
  parse now1 psl origin h = Ok (with_expiry c (expiry now1 ((fun e => e - now_unix1) <$> s_expires_unix s))).
Proof.
  intros Hc Hp Hok Hs Hb Hlife Hh Hlen.
  split; [apply encode_Some in Hb as [? ->]; by apply decode_stored|].
  apply from_cookie_Some in Hs as (e & -> & _). rewrite to_set_cookie_header in Hh.
  apply fmap_Some in Hh as (left & Hleft & ->). cbn [s_expires_unix stored_of].
  assert ((fun e => e - now_unix1) <$> e = left /\ forall n, left = Some n -> 0 <= n < 2 ^ 63) as [-> Hn].
  { unfold life_left in Hleft. cbn [stored_of s_expires_unix] in *. destruct e as [e|]; [|by injection Hleft as <-].
    destruct (now_unix1 <? e) eqn:Hl; [|done]. injection Hleft as <-. split; [done|]. intros n [= <-].
    specialize (Hlife e eq_refl). lia. }
  apply header_reparses; [by eapply parse_as_parsed|by eapply parse_honest|done..].
Qed.

(** ** Concrete uses *)
Module StoredUses.
Import CookieUses.

Definition minute : Z := 60 * 10 ^ 9.

(** The cookie of the examples, saved twenty seconds into its minute. *)
Definition saved : StoredCookie :=
  mkStored (lit "id") (lit "1") (lit "shop.com") false (lit "/") true false SSNone (Some 1040).

Lemma saved_ok : stored_ok saved.
Proof. split; [done..|]. intros e [= <-]. unfold U64_MAX. lia. Qed.

Lemma stored_cookie_roundtrip_witness :
  exists b, encode saved = Some b /\ decode b = Some saved.
Proof.
  assert (exists b, encode saved = Some b) as [b Hb] by (eexists; vm_compute; reflexivity).
  exists b. split; [exact Hb|].
  destruct (stored_cookie_roundtrip saved b saved_ok) as [H _]; [|by apply H].
  vm_compute in Hb. injection Hb as <-. by vm_compute.
Defined.

Lemma saved_cookie_comes_back_witness :
  exists h b, to_set_cookie saved 1010 = Some h /\ encode saved = Some b /\ decode b = Some saved /\
    parse 0 list_com shop h = Ok (with_expiry cookie (Some (30 * 10 ^ 9))).
Proof.
  assert (exists h, to_set_cookie saved 1010 = Some h /\ len h <= MAX_COOKIE_BYTES) as (h & Hh & Hl)
    by (eexists; split; [vm_compute; reflexivity|by vm_compute]).
  assert (exists b, encode saved = Some b) as [b Hb] by (eexists; vm_compute; reflexivity).
  exists h, b. split; [exact Hh|]. split; [exact Hb|].
  refine (saved_cookie_comes_back 0 list_com shop header cookie (20 * 10 ^ 9) 1000 saved b 0 1010 h
    _ _ saved_ok _ Hb _ Hh Hl).
  - by vm_compute.
  - repeat constructor; done.
  - by vm_compute.
  - intros e [= <-]. lia.
Defined.

(** A header as long as the parser allows. *)
Definition long_header : list byte := lit "n=" ++ replicate 4094 "v"%byte.
Definition long_cookie : Cookie :=
  mkCookie (lit "n") (replicate 4094 "v"%byte) (lit "shop.com") true (lit "/") false false Lax None.
Definition shop_com : Origin.t :=
  {| Origin.scheme := lit "https"; Origin.host := lit "shop.com"; Origin.port := 443 |}.

(** A cookie set by a header close to the size limit is lost by saving and
    loading it: the attributes the rebuilt header spells out take it over the
    limit. *)
Theorem long_cookie_is_lost :
  parse 0 list_com shop_com long_header = Ok long_cookie /\
  exists s h, from_cookie long_cookie 0 0 = Some s /\ is_Some (encode s) /\ to_set_cookie s 0 = Some h /\
    parse 0 list_com shop_com h = Err TooLarge.
Proof.
  split; [by vm_compute|]. eexists _, _. split; [reflexivity|].
  split; [eexists; vm_compute; reflexivity|]. split; [reflexivity|]. by vm_compute.
Qed.
End StoredUses.
