(* ===== verification/CookieStore.v ===== *)
(** * Saving and loading cookies (px-store/src/cookies.rs)

    [save] makes the cookies filed under a partition key in the store exactly the
    ones it is given; [load] puts what is stored back into a jar, each through the
    parser. *)
From stdpp Require Import sets.
From S2P Require Import Keys Prelude Bytes OrdMap Text Chars Partition Format Engine Recovery Disk Store Durability StoreSafety StoreProps Cookie StoredCookie.
Local Open Scope Z_scope.

(** ** Saving *)
Definition wanted_entry (now now_unix : Z) (c : Cookie) : option (list byte * list byte) :=
  stored ← from_cookie c now now_unix;
  key ← store_key stored;
  value ← encode stored;
  Some (key, value).

Definition wanted (now now_unix : Z) (cookies : list Cookie) : list (list byte * list byte) :=
  omap (wanted_entry now now_unix) cookies.

Definition stale (s : Store.t) (partition : PartitionKey.t) (wanted : list (list byte * list byte))
  : list (list byte) :=
  List.filter (fun k => negb (existsb (fun w => bool_decide (w.1 = k)) wanted)) (Store.keys s partition Cookies).

Fixpoint delete_all (s : Store.t) (partition : PartitionKey.t) (keys : list (list byte))
  : io (Store.t * result StoreError unit) :=
  match keys with
  | [] => mret (s, Ok tt)
  | key :: keys =>
      '(s, r) ← Store.delete s partition Cookies key;
      match r with
      | Err e => mret (s, Err e)
      | Ok _ => delete_all s partition keys
      end
  end.

Fixpoint put_all (s : Store.t) (partition : PartitionKey.t) (stored : nat) (wanted : list (list byte * list byte))
  : io (Store.t * result StoreError nat) :=
  match wanted with
  | [] => mret (s, Ok stored)
  | (key, value) :: wanted =>
      '(s, r) ← (if bool_decide (Store.get s partition Cookies key = Some value) then mret (s, Ok tt)
                 else Store.put s partition Cookies key value);
      match r with
      | Err e => mret (s, Err e)
      | Ok _ => put_all s partition (S stored) wanted
      end
  end.

Definition save (s : Store.t) (partition : PartitionKey.t) (cookies : list Cookie) (now now_unix : Z)
  : io (Store.t * result StoreError nat) :=
  let wanted := wanted now now_unix cookies in
  '(s, r) ← delete_all s partition (stale s partition wanted);
  match r with
  | Err e => mret (s, Err e)
  | Ok _ => put_all s partition 0 wanted
  end.

(** ** Loading *)
Record LoadReport := mkReport { loaded : nat; expired : nat; skipped_session : nat; rejected : nat }.

Definition no_report : LoadReport := mkReport 0 0 0 0.
Definition add_loaded (r : LoadReport) := mkReport (S (loaded r)) (expired r) (skipped_session r) (rejected r).
Definition add_expired (r : LoadReport) := mkReport (loaded r) (S (expired r)) (skipped_session r) (rejected r).
Definition add_skipped (r : LoadReport) := mkReport (loaded r) (expired r) (S (skipped_session r)) (rejected r).
Definition add_rejected (r : LoadReport) := mkReport (loaded r) (expired r) (skipped_session r) (S (rejected r)).

(** The body of the loop over the stored keys; [now] is the jar's clock. *)
Definition load_one (s : Store.t) (now : Z) (psl : Psl.PublicSuffixList) (partition : PartitionKey.t)
    (now_unix : Z) (include_session : bool) (jr : Jar * LoadReport) (key : list byte) : Jar * LoadReport :=
  let '(jar, report) := jr in
  match v ← Store.get s partition Cookies key; decode v with
  | None => (jar, add_rejected report)
  | Some stored =>
      if bool_decide (s_expires_unix stored = None) && negb include_session then (jar, add_skipped report)
      else match to_set_cookie stored now_unix with
           | None => (jar, add_expired report)
           | Some header =>
               if s_host_only stored && negb (bool_decide (s_domain stored = Origin.host (PartitionKey.origin partition)))
               then (jar, add_rejected report)
               else match CookieJar.store now psl partition header jar with
                    | (jar, Ok _) => (jar, add_loaded report)
                    | (jar, Err _) => (jar, add_rejected report)
                    end
           end
  end.

Definition load (s : Store.t) (now : Z) (psl : Psl.PublicSuffixList) (partition : PartitionKey.t)
    (jar : Jar) (now_unix : Z) (include_session : bool) : Jar * LoadReport :=
  foldl (load_one s now psl partition now_unix include_session) (jar, no_report) (Store.keys s partition Cookies).

(** ** The keys of the store *)
Lemma engine_keys_spec e pid ns key : key ∈ Engine.keys e pid ns <-> is_Some (get e pid ns key).
Proof.
  unfold Engine.keys, get. destruct (bt_get (parts e) pid) as [p|]; simpl.
  - rewrite list_elem_of_fmap. split.
    + intros ([c k] & -> & [Hk Hc%bool_decide_eq_true]%JarProps.elem_of_filterb). simpl in *. subst c.
      apply not_eq_None_Some. rewrite bt_get_None. auto.
    + intros [v Hv]. exists (Ns.code ns, key). split; [done|]. apply JarProps.elem_of_filterb.
      split; [|by apply bool_decide_eq_true]. eapply elem_bt_keys. by apply bt_get_elem.
  - split; [by intros ?%elem_of_nil|by intros [? [=]]].
Qed.

Lemma store_keys_spec s partition key :
  Store.poisoned s = false ->
  key ∈ Store.keys s partition Cookies <-> is_Some (lookup_key (Store.engine s) partition Cookies key).
Proof.
  intros Hp. unfold Store.keys, lookup_key. rewrite Hp. destruct (PartId.from_key partition) as [pid|]; simpl.
  - apply engine_keys_spec.
  - split; [by intros ?%elem_of_nil|by intros [? [=]]].
Qed.

Lemma lookup_delete e partition pid ns key partition' ns' key' :
  engine_ok e -> PartId.from_key partition = Ok pid ->
  lookup_key (delete e pid ns key).2 partition' ns' key' =
    if decide (partition = partition' /\ ns = ns' /\ key = key') then None
    else lookup_key e partition' ns' key'.
Proof.
  intros He Hk. unfold lookup_key. destruct (PartId.from_key partition') as [pid'|] eqn:Hk'; simpl.
  - rewrite get_delete by done. destruct (decide (pid = pid')) as [->|Hne].
    + rewrite (from_key_inj _ _ _ Hk Hk'). by repeat case_decide; naive_solver.
    + rewrite !decide_False; [done| |]; intros (-> & _); congruence.
  - by case_decide.
Qed.

(** ** What saving does *)
Lemma store_ok_mono (P Q : Engine -> Prop) s d : (forall e, P e -> Q e) -> store_ok P s d -> store_ok Q s d.
Proof. intros H [? ? ?]. split; [done|by eapply disk_ok_mono|done]. Qed.

(** What the last entry for a key says. *)
Fixpoint last_value (key : list byte) (l : list (list byte * list byte)) : option (list byte) :=
  match l with
  | [] => None
  | (k, v) :: l =>
      match last_value key l with
      | Some v => Some v
      | None => if decide (k = key) then Some v else None
      end
  end.

Lemma last_value_None key l : last_value key l = None <-> key ∉ map fst l.
Proof.
  induction l as [|[k v] l IH]; simpl; [split; [intros _; apply not_elem_of_nil|done]|].
  rewrite not_elem_of_cons. destruct (last_value key l); [split; [done|intros [_ ?%IH]; done]|].
  case_decide; split; try done; [by intros [? _]|by intros _; split; [|apply IH]].
Qed.

Section saving.
Context (e0 : Engine) (partition : PartitionKey.t) (Hkey : key_ok partition) (P0 : Engine -> Prop).

(** Nothing but the cookies of the partition differs. *)
Definition elsewhere (e : Engine) : Prop :=
  forall partition' ns key, ~ (partition' = partition /\ ns = Cookies) ->
    lookup_key e partition' ns key = lookup_key e0 partition' ns key.

(** What the disk may be found to hold while the cookies are being saved. *)
Definition saving (e : Engine) : Prop := P0 e \/ elsewhere e.

Definition synced (s : Store.t) (d : Disk) : Prop := dlog d = log d -> disk_ok (eq (Store.engine s)) d.

(** A store half-way. *)
Definition half_way (s : Store.t) (d : Disk) : Prop := store_ok saving s d /\ elsewhere (Store.engine s).

Lemma elsewhere_step s f key o :
  elsewhere (Store.engine s) ->
  (forall pid, PartId.from_key partition = Ok pid -> forall partition' ns' key',
     lookup_key (f pid) partition' ns' key' =
       if decide (partition = partition' /\ Cookies = ns' /\ key = key') then o
       else lookup_key (Store.engine s) partition' ns' key') ->
  elsewhere (for_key s partition f).
Proof.
  intros He Hf partition' ns' key' Hne. unfold for_key. destruct (PartId.from_key partition) as [pid|] eqn:Hk; [|by apply He].
  rewrite Hf by done. rewrite decide_False by naive_solver. by apply He.
Qed.

Lemma half_way_after {A} s e' d r :
  elsewhere (Store.engine s) -> elsewhere e' -> atomic (A := A) saving s e' d r ->
  match r with None => disk_ok saving d | Some (s', _) => half_way s' d end.
Proof.
  intros He0 He [Hd Hr].
  assert (forall e, either saving e' e -> saving e) as Hm by (intros e [?| ->]; [done|by right]).
  destruct r as [[s' [b|err]]|]; [| |by eapply disk_ok_mono].
  - destruct Hr as (E & Hok & _). split; [by eapply store_ok_mono|by rewrite E].
  - destruct Hr as (E & Hok). split; [by eapply store_ok_mono|by rewrite E].
Qed.

(** The outcome of a run of deletions or writes that started at [s]. *)
Definition outcome_ok {A} (Q : Engine -> A -> Prop) (d : Disk) (r : option (Store.t * result StoreError A)) : Prop :=
  match r with
  | None => disk_ok saving d
  | Some (s', Ok a) => half_way s' d /\ synced s' d /\ Q (Store.engine s') a
  | Some (s', Err _) => half_way s' d
  end.

Lemma runs_delete_step s d key :
  half_way s d -> synced s d ->
  runs (Store.delete s partition Cookies key) d (outcome_ok (fun e _ => forall k,
    lookup_key e partition Cookies k = if decide (key = k) then None else lookup_key (Store.engine s) partition Cookies k)).
Proof.
  intros Hw Hy. eapply runs_mono; [apply (runs_delete saving s d (proj1 Hw) partition Hkey Cookies key)|].
  set (e' := for_key _ _ _). intros d' r [(-> & -> & pid & Hk & Hg)|[_ Ha]].
  - split_and!; [done..|]. intros k. case_decide as Hd; [|done]. subst k. unfold lookup_key. by rewrite Hk.
  - assert (forall pid, PartId.from_key partition = Ok pid -> forall partition' ns' key',
      lookup_key (delete (Store.engine s) pid Cookies key).2 partition' ns' key' =
       if decide (partition = partition' /\ Cookies = ns' /\ key = key') then None
       else lookup_key (Store.engine s) partition' ns' key') as Hl
      by (intros pid Hk partition' ns' key'; apply lookup_delete; [apply (proj1 Hw)|done]).
    pose proof (half_way_after s e' d' r (proj2 Hw) (elsewhere_step s _ key None (proj2 Hw) Hl) Ha) as H.
    destruct r as [[s' [b|err]]|]; [|done..]. destruct Ha as [_ (E & _ & Hq)].
    split_and!; [done|intros Hlog; rewrite E; by apply Hq|]. intros k. rewrite E. unfold e', for_key.
    destruct (PartId.from_key partition) as [pid|] eqn:Hk.
    + rewrite Hl by done. destruct (decide (key = k)) as [->|Hne]; [by rewrite decide_True|].
      rewrite decide_False by naive_solver. done.
    + unfold lookup_key. rewrite Hk. by case_decide.
Qed.

Lemma runs_delete_all keys s d :
  half_way s d -> synced s d ->
  runs (delete_all s partition keys) d (outcome_ok (fun e _ => forall k,
    lookup_key e partition Cookies k =
      if decide (k ∈ keys) then None else lookup_key (Store.engine s) partition Cookies k)).
Proof.
  revert s d. induction keys as [|key keys IH]; intros s d Hw Hy; cbn [delete_all].
  - apply runs_ret. split_and!; [done..|]. intros k. rewrite decide_False by apply not_elem_of_nil. done.
  - apply runs_bind. eapply runs_mono; [by apply runs_delete_step|].
    intros d1 [[s1 [b|err]]|] H1; [|by apply runs_ret|done]. destruct H1 as (Hw1 & Hy1 & Hl1).
    eapply runs_mono; [by apply IH|]. intros d2 [[s2 [b2|err]]|]; [|done..].
    intros (Hw2 & Hy2 & Hl2). split_and!; [done..|]. intros k. rewrite Hl2, Hl1.
    destruct (decide (k ∈ keys)) as [Hi|Hi]; [by rewrite decide_True by (by right)|].
    destruct (decide (key = k)) as [->|Hne]; [by rewrite decide_True by (by left)|].
    rewrite decide_False; [done|]. by intros [->|?]%elem_of_cons.
Qed.

Lemma runs_put_step s d key value :
  half_way s d -> synced s d ->
  runs (if bool_decide (Store.get s partition Cookies key = Some value) then mret (s, Ok tt)
        else Store.put s partition Cookies key value) d
    (outcome_ok (fun e _ => forall k,
       lookup_key e partition Cookies k = if decide (key = k) then Some value else lookup_key (Store.engine s) partition Cookies k)).
Proof.
  intros Hw Hy. case_bool_decide as Hg.
  - apply runs_ret. split_and!; [done..|]. intros k. case_decide as Hd; [|done]. subst k.
    unfold Store.get in Hg. destruct (Store.poisoned s); [done|]. exact Hg.
  - destruct (PartId.from_key partition) as [pid|err] eqn:Hk.
    2: { unfold Store.put, Store.prepare_put. rewrite Hk. destruct (Store.live s); by apply runs_ret. }
    eapply runs_mono; [apply (runs_put saving s d (proj1 Hw) partition Hkey Cookies key value)|].
    unfold for_key. rewrite Hk. set (e' := put _ _ _ _ _). intros d' r Ha.
    assert (forall partition' ns' key', lookup_key e' partition' ns' key' =
       if decide (partition = partition' /\ Cookies = ns' /\ key = key') then Some value
       else lookup_key (Store.engine s) partition' ns' key') as Hl by (intros; by apply lookup_put).
    assert (elsewhere e') as He.
    { intros partition' ns' key' Hne. rewrite Hl, decide_False by naive_solver. by apply (proj2 Hw). }
    pose proof (half_way_after s e' d' r (proj2 Hw) He Ha) as H.
    destruct r as [[s' [b|err]]|]; [|done..]. destruct Ha as [_ (E & _ & Hq)].
    split_and!; [done|intros Hlog; rewrite E; by apply Hq|]. intros k. rewrite E, Hl.
    destruct (decide (key = k)) as [->|Hne]; [by rewrite decide_True|]. by rewrite decide_False by naive_solver.
Qed.

Lemma runs_put_all wanted s d n :
  half_way s d -> synced s d ->
  runs (put_all s partition n wanted) d (outcome_ok (fun e m => m = (n + length wanted)%nat /\ forall k,
    lookup_key e partition Cookies k =
      match last_value k wanted with Some v => Some v | None => lookup_key (Store.engine s) partition Cookies k end)).
Proof.
  revert s d n. induction wanted as [|[key value] wanted IH]; intros s d n Hw Hy; cbn [put_all].
  - apply runs_ret. split_and!; [done..| |done]. simpl. lia.
  - apply runs_bind. eapply runs_mono; [by apply runs_put_step|].
    intros d1 [[s1 [b|err]]|] H1; [|by apply runs_ret|done]. destruct H1 as (Hw1 & Hy1 & Hl1).
    eapply runs_mono; [by apply IH|]. intros d2 [[s2 [m|err]]|]; [|done..].
    intros (Hw2 & Hy2 & -> & Hl2). split_and!; [done..|simpl; lia|]. intros k. rewrite Hl2, Hl1. simpl.
    by destruct (last_value k wanted); [|case_decide].
Qed.
End saving.

(** ** The theorem about saving *)
Lemma stale_spec s partition wanted k :
  Store.poisoned s = false ->
  k ∈ stale s partition wanted <->
  is_Some (lookup_key (Store.engine s) partition Cookies k) /\ last_value k wanted = None.
Proof.
  intros Hp. unfold stale. rewrite JarProps.elem_of_filterb, store_keys_spec, last_value_None, negb_true_iff by done.
  f_equiv. rewrite <- not_true_iff_false, existsb_exists. split.
  - intros H (w & -> & Hw)%list_elem_of_fmap. apply H. exists w. rewrite <- list_elem_of_In.
    split; [done|by apply bool_decide_eq_true].
  - intros H (w & Hw & Hk%bool_decide_eq_true). apply H, list_elem_of_fmap. exists w. by rewrite list_elem_of_In.
Qed.

Lemma runs_save P s d partition cookies now now_unix :
  store_ok P s d -> key_ok partition -> Store.poisoned s = false -> synced s d ->
  runs (save s partition cookies now now_unix) d
    (outcome_ok (Store.engine s) partition P (fun e n =>
       n = length (wanted now now_unix cookies) /\
       forall k, lookup_key e partition Cookies k = last_value k (wanted now now_unix cookies))).
Proof.
  intros Hs Hk Hp Hy. set (W := wanted now now_unix cookies).
  assert (half_way (Store.engine s) partition P s d) as Hw.
  { split; [|done]. eapply store_ok_mono; [|done]. by left. }
  apply runs_bind. eapply runs_mono; [by apply (runs_delete_all (Store.engine s) partition Hk P)|].
  intros d1 [[s1 [b|err]]|] H1; [|by apply runs_ret|done]. destruct H1 as (Hw1 & Hy1 & Hl1).
  eapply runs_mono; [by apply (runs_put_all (Store.engine s) partition Hk P)|].
  intros d2 [[s2 [m|err]]|]; [|done..]. intros (Hw2 & Hy2 & -> & Hl2). split_and!; [done..|].
  fold W in Hl1, Hl2. intros k. rewrite Hl2, Hl1. destruct (last_value k W) eqn:Hv; [done|].
  destruct (decide _) as [|Hn]; [done|]. rewrite stale_spec in Hn by done.
  destruct (lookup_key _ _ _ k) eqn:E; [|done]. exfalso. apply Hn. split; [by eexists|done].
Qed.

(** Saving.  Take any run of [save] over any outcomes of its system calls.
    Wherever it is cut off, what the disk recovers to is a state it could already
    hold or one that differs from the store only in the cookies of the partition.
    When it returns [Ok], the cookies of the partition are exactly those given
    that are alive and fit the encoding, it answers how many there are, and unless
    the directory was left unsynced this is what any crash recovers to. *)
Theorem save_is_exact P s d partition cookies now now_unix evs w r :
  store_ok P s d -> key_ok partition -> Store.poisoned s = false -> synced s d ->
  save s partition cookies now now_unix {| disk := d; events := evs |} = (w, r) ->
  found (saving (Store.engine s) partition P) (disk w) /\
  match r with
  | Some (s', Ok n) =>
      n = length (wanted now now_unix cookies) /\
      (forall k, lookup_key (Store.engine s') partition Cookies k = last_value k (wanted now now_unix cookies)) /\
      elsewhere (Store.engine s) partition (Store.engine s') /\
      (dlog (disk w) = log (disk w) -> found (eq (Store.engine s')) (disk w))
  | Some (s', Err _) => elsewhere (Store.engine s) partition (Store.engine s')
  | None => True
  end.
Proof.
  intros Hs Hk Hp Hy E. pose proof (runs_save P s d partition cookies now now_unix Hs Hk Hp Hy evs) as H.
  rewrite E in H. destruct r as [[s' [n|err]]|].
  - destruct H as ([Hok He] & Hq & -> & Hl). split; [apply disk_ok_found, Hok|]. split_and!; [done..|].
    intros Hlog. by apply disk_ok_found, Hq.
  - destruct H as [Hok He]. split; [apply disk_ok_found, Hok|done].
  - split; [by apply disk_ok_found|done].
Qed.

(** ** What loading does *)
Section loading.
Import JarProps.
Context (s : Store.t) (now : Z) (psl : Psl.PublicSuffixList) (partition : PartitionKey.t)
  (now_unix : Z) (include_session : bool).

Definition total (r : LoadReport) : nat := (loaded r + expired r + skipped_session r + rejected r)%nat.

(** A jar that grew from [j] by cookies the parser vouches for. *)
Record grown (j j' : Jar) : Prop := {
  gr_other : forall k, k <> partition -> at_key j' k = at_key j k;
  gr_honest : forall c, c ∈ at_key j' partition -> c ∈ at_key j partition \/ honest psl (PartitionKey.origin partition) c;
  gr_ok : jar_ok j'
}.

Lemma grown_refl j : jar_ok j -> grown j j.
Proof. intros Hj. split; auto. Qed.

Lemma grown_store j0 j header :
  grown j0 j -> grown j0 (CookieJar.store now psl partition header j).1.
Proof.
  intros [G1 G2 G3]. pose proof (store_cases now psl partition header j) as Hs.
  pose proof (store_ok now psl partition header j G3) as Hok.
  destruct (CookieJar.store _ _ _ _ j) as [j' [[]|err]]; simpl in *.
  - destruct Hs as (c & l & Hc & Hl & Hk). split; [| |done].
    + intros k Hne. rewrite Hk, decide_False by done. by apply G1.
    + intros x. rewrite Hk, decide_True by done.
      rewrite (stored_elem _ _ _ x (at_key_ok _ _ G3) Hl). intros [->|[Hx _]]; [right; by eapply parse_honest|by apply G2].
  - split; [intros k Hne; rewrite Hs; by apply G1|intros x; rewrite Hs; apply G2|done].
Qed.

Lemma load_one_grown j0 jr key :
  grown j0 jr.1 ->
  grown j0 (load_one s now psl partition now_unix include_session jr key).1 /\
  total (load_one s now psl partition now_unix include_session jr key).2 = S (total jr.2).
Proof.
  destruct jr as [j rep]. intros Hg. unfold load_one, total.
  destruct (v ← _; decode v) as [stored|]; [|simpl; split; [done|lia]].
  destruct (_ && negb include_session); [simpl; split; [done|lia]|].
  destruct (to_set_cookie _ _) as [h|]; [|simpl; split; [done|lia]].
  destruct (s_host_only stored && _); [simpl; split; [done|lia]|].
  pose proof (grown_store j0 j h Hg) as Hst. destruct (CookieJar.store _ _ _ _ j) as [j' [[]|err]]; simpl; (split; [done|lia]).
Qed.

Lemma load_loop_grown keys j0 jr :
  grown j0 jr.1 ->
  let jr' := foldl (load_one s now psl partition now_unix include_session) jr keys in
  grown j0 jr'.1 /\ total jr'.2 = (total jr.2 + length keys)%nat.
Proof.
  revert jr. induction keys as [|k keys IH]; intros jr Hg; simpl; [split; [done|lia]|].
  destruct (load_one_grown j0 jr k Hg) as [Hg' Ht]. destruct (IH _ Hg') as [? ->]. split; [done|lia].
Qed.
End loading.

(** Loading puts nothing into the jar that the parser does not accept today
    for the partition's origin: every cookie under the key was there before or is
    honest about that origin, nothing under another key changes, the jar keeps its
    limits, and every stored key is accounted for once in the report. *)
Theorem load_revalidates s now psl partition now_unix include_session j :
  JarProps.jar_ok j ->
  let '(j', report) := load s now psl partition j now_unix include_session in
  (forall k, k <> partition -> JarProps.at_key j' k = JarProps.at_key j k) /\
  (forall c, c ∈ JarProps.at_key j' partition ->
     c ∈ JarProps.at_key j partition \/ honest psl (PartitionKey.origin partition) c) /\
  JarProps.jar_ok j' /\
  total report = length (Store.keys s partition Cookies).
Proof.
  intros Hj. pose proof (load_loop_grown s now psl partition now_unix include_session
    (Store.keys s partition Cookies) j (j, no_report) (grown_refl psl partition j Hj)) as H.
  unfold load. destruct (foldl _ _ _) as [j' rep]. destruct H as [[G1 G2 G3] Ht]. by split_and!.
Qed.

(** ** Saved cookies come back *)
Section roundtrip.
Import JarProps.
Context (psl : Psl.PublicSuffixList) (partition : PartitionKey.t) (cs : list Cookie)
  (now now_unix now1 now_unix1 : Z) (include_session : bool).

(** The cookie as it comes back. *)
Definition back (c : Cookie) : Cookie :=
  with_expiry c (expiry now1
    ((fun at_ => sat_add now_unix (secs_left at_ now) - now_unix1) <$> c_expires_at c)).

(** Saved, still alive, and asked for. *)
Definition returns (c : Cookie) : Prop :=
  is_expired c now = false /\
  match c_expires_at c with
  | Some at_ => now_unix1 < sat_add now_unix (secs_left at_ now)
  | None => include_session = true
  end.

(** A cookie the parser accepted for this origin, within what the encoding, the
    type of its strings and the header limit allow. *)
Record keepable (c : Cookie) : Prop := {
  ke_parsed : exists now0 header, parse now0 psl (PartitionKey.origin partition) header = Ok c;
  ke_text : Forall (fun t => is_utf8 t = true /\ len t <= U16_MAX) [c_name c; c_domain c; c_path c; c_value c];
  ke_life : forall at_, c_expires_at c = Some at_ -> sat_add now_unix (secs_left at_ now) - now_unix1 < 2 ^ 63;
  ke_header : forall h, to_set_cookie (stored_of c ((fun at_ => sat_add now_unix (secs_left at_ now)) <$> c_expires_at c))
    now_unix1 = Some h -> len h <= MAX_COOKIE_BYTES
}.

Definition stored_form (c : Cookie) : StoredCookie :=
  stored_of c ((fun at_ => sat_add now_unix (secs_left at_ now)) <$> c_expires_at c).

Definition key_of (c : Cookie) : list byte := str_bytes (c_name c) ++ str_bytes (c_domain c) ++ str_bytes (c_path c).

Lemma wanted_entry_keepable c :
  keepable c -> wanted_entry now now_unix c =
    if is_expired c now then None else Some (key_of c, stored_bytes (stored_form c)).
Proof.
  intros [_ Ht _ _]. rewrite !Forall_cons in Ht. destruct Ht as ((_ & F1) & (_ & F2) & (_ & F3) & (_ & F4) & _).
  unfold wanted_entry. destruct (from_cookie c now now_unix) as [st|] eqn:E.
  - apply from_cookie_Some in E as (e & -> & Hx & ->). rewrite Hx. cbn [mbind option_bind].
    fold (stored_form c).
    rewrite (proj2 (store_key_Some (stored_form c) (key_of c))) by (split; [by repeat constructor|done]).
    cbn [mbind option_bind]. rewrite (proj2 (encode_Some (stored_form c) (stored_bytes (stored_form c)))); [done|]. split; [by repeat constructor|done].
  - unfold from_cookie in E. unfold is_expired. destruct (c_expires_at c) as [at_|]; [|done]. by destruct (at_ <=? now).
Qed.

Context (s : Store.t) (Hp : Store.poisoned s = false) (Hnow : 0 <= now_unix).
Context (Hkeep : Forall keepable cs) (Hslots : NoDup (map slot_of cs)) (Hfew : (length cs <= MAX_PER_KEY)%nat).
Context (Hhost : host_plain (PartitionKey.origin partition))
  (Hlower : to_ascii_lowercase (Origin.host (PartitionKey.origin partition)) = Origin.host (PartitionKey.origin partition)).

Lemma keepable_ok c :
  keepable c -> is_expired c now = false -> StoredCookie.stored_ok (stored_form c) /\ stored_fits (stored_form c).
Proof.
  intros [_ Ht _ _] Hx. rewrite !Forall_cons in Ht. destruct Ht as ((U1 & F1) & (U2 & F2) & (U3 & F3) & (U4 & F4) & _).
  split; [|by repeat constructor]. split; [done..|]. intros e. unfold is_expired in Hx. simpl.
  destruct (c_expires_at c) as [at_|]; [|done]. simpl. intros [= <-]. unfold sat_add, secs_left, U64_MAX.
  apply Z.leb_gt in Hx. pose proof (Z.div_pos (at_ - now) (10 ^ 9) ltac:(lia) ltac:(lia)).
  destruct (0 <? _); lia.
Qed.

Lemma slots_inj c c' : c ∈ cs -> c' ∈ cs -> slot_of c = slot_of c' -> c = c'.
Proof.
  intros [i Ei]%list_elem_of_lookup [j Ej]%list_elem_of_lookup Hs.
  assert (i = j) as ->; [|congruence]. eapply (NoDup_lookup (map slot_of cs)); [done| |].
  - change (map slot_of cs) with (slot_of <$> cs). by rewrite list_lookup_fmap, Ei.
  - change (map slot_of cs) with (slot_of <$> cs). rewrite list_lookup_fmap, Ej. simpl. congruence.
Qed.

Lemma key_of_inj c c' : c ∈ cs -> c' ∈ cs -> key_of c = key_of c' -> c = c'.
Proof.
  intros Hc Hc' E. apply slots_inj; [done..|].
  assert (forall x, x ∈ cs -> store_key (stored_form x) = Some (key_of x)) as Hk.
  { intros x Hx. destruct (proj1 (Forall_forall _ _) Hkeep x Hx) as [_ Ht _ _]. rewrite !Forall_cons in Ht.
    apply store_key_Some. split; [repeat constructor; by apply Ht|done]. }
  assert (store_key (stored_form c') = Some (key_of c)) as Hs by (rewrite E; by apply Hk).
  pose proof (store_key_inj _ _ _ (Hk c Hc) Hs) as Hid. exact Hid.
Qed.

(** The jar takes a cookie it has room for. *)
Lemma store_takes t header c j l :
  parse t psl (PartitionKey.origin partition) header = Ok c -> stored c (at_key j partition) = Some l ->
  exists j', CookieJar.store t psl partition header j = (j', Ok tt) /\
    forall k, at_key j' k = if decide (partition = k) then l else at_key j k.
Proof.
  intros Hc. unfold CookieJar.store, stored. rewrite Hc. cbv zeta.
  change (default [] (by_partition j !! partition)) with (at_key j partition).
  destruct (CookieJar.replace c (at_key j partition)) as [l'|].
  - intros [= <-]. eexists. split; [done|]. intros k. apply at_key_insert.
  - destruct (_ <=? _)%nat; [done|]. intros [= <-]. eexists. split; [done|]. intros k. apply at_key_insert.
Qed.

Definition only_back (j : Jar) : Prop :=
  jar_ok j /\ forall x, x ∈ at_key j partition -> exists c, c ∈ cs /\ x = back c.

Lemma slot_back c : slot_of (back c) = slot_of c.
Proof. done. Qed.

Lemma room j c : only_back j -> c ∈ cs -> is_Some (stored (back c) (at_key j partition)).
Proof.
  intros [Hj Hb] Hc. unfold stored. destruct (CookieJar.replace _ _) eqn:E; [by eexists|].
  apply replace_None in E. destruct (_ <=? _)%nat eqn:Hl; [|by eexists]. exfalso. apply Nat.leb_le in Hl.
  destruct (at_key_ok j partition Hj) as [_ Hn].
  assert (S (length (at_key j partition)) <= length cs)%nat; [|lia].
  rewrite <- (length_map slot_of cs), <- (length_map slot_of (at_key j partition)).
  change (length (slot_of (back c) :: map slot_of (at_key j partition)) <= length (map slot_of cs))%nat.
  apply NoDup_incl_length; [apply NoDup_ListNoDup; by constructor|].
  intros x Hx. apply list_elem_of_In. apply list_elem_of_In in Hx. apply elem_of_cons in Hx as [->|Hx].
  - apply list_elem_of_fmap. by exists c.
  - apply list_elem_of_fmap in Hx as (y & -> & (c' & Hc' & ->)%Hb). apply list_elem_of_fmap. by exists c'.
Qed.

Lemma parse_back c h :
  c ∈ cs -> is_expired c now = false -> to_set_cookie (stored_form c) now_unix1 = Some h ->
  parse now1 psl (PartitionKey.origin partition) h = Ok (back c).
Proof.
  intros Hc Hx Hh. destruct (proj1 (Forall_forall _ _) Hkeep c Hc) as [(now0 & header & Hp0) _ Hlife Hlen].
  specialize (Hlen h Hh). rewrite to_set_cookie_header in Hh. apply fmap_Some in Hh as (left & Hleft & ->).
  assert ((fun at_ => sat_add now_unix (secs_left at_ now) - now_unix1) <$> c_expires_at c = left /\
    forall n, left = Some n -> 0 <= n < 2 ^ 63) as [El Hn].
  { unfold life_left in Hleft. simpl in Hleft. destruct (c_expires_at c) as [at_|]; simpl in *; [|by injection Hleft as <-].
    destruct (now_unix1 <? _) eqn:Hl; [|done]. injection Hleft as <-. split; [done|]. intros n [= <-].
    specialize (Hlife at_ eq_refl). lia. }
  unfold back. rewrite El. apply header_reparses; [by eapply parse_as_parsed|by eapply parse_honest|done..].
Qed.

Lemma life_left_returns c :
  is_expired c now = false ->
  (if bool_decide (s_expires_unix (stored_form c) = None) && negb include_session then false
   else bool_decide (is_Some (to_set_cookie (stored_form c) now_unix1))) = true <-> returns c.
Proof.
  intros Hx. unfold returns. rewrite to_set_cookie_header. unfold life_left. simpl.
  destruct (c_expires_at c) as [at_|]; simpl.
  - destruct (now_unix1 <? _) eqn:Hl; [apply Z.ltb_lt in Hl|apply Z.ltb_ge in Hl].
    + split; [done|]. intros _. by apply bool_decide_eq_true.
    + split; [by intros [? [=]]%bool_decide_eq_true|lia].
  - destruct include_session; simpl; split; (done || by intros [_ ?]).
Qed.

Lemma load_one_back j rep c :
  only_back j -> c ∈ cs -> is_expired c now = false ->
  Store.get s partition Cookies (key_of c) = Some (stored_bytes (stored_form c)) ->
  let j' := (load_one s now1 psl partition now_unix1 include_session (j, rep) (key_of c)).1 in
  only_back j' /\ forall x, x ∈ at_key j' partition <-> x ∈ at_key j partition \/ returns c /\ x = back c.
Proof.
  intros Hj Hc Hx Hg. pose proof (proj1 (Forall_forall _ _) Hkeep c Hc) as Hk.
  destruct (keepable_ok c Hk Hx) as [Hok Hf]. pose proof (life_left_returns c Hx) as Hr.
  unfold load_one. rewrite Hg. cbn [mbind option_bind]. rewrite decode_stored by done.
  assert (~ returns c -> only_back j /\ forall x, x ∈ at_key j partition <-> x ∈ at_key j partition \/ returns c /\ x = back c) as Hno
    by (intros Hn; split; [done|]; naive_solver).
  destruct (bool_decide (s_expires_unix (stored_form c) = None) && negb include_session); [apply Hno; by rewrite <- Hr|].
  destruct (to_set_cookie (stored_form c) now_unix1) as [h|] eqn:Hh.
  2: { apply Hno. rewrite <- Hr. rewrite bool_decide_eq_false_2; [done|]. by intros [? [=]]. }
  assert (returns c) as Hret by (apply Hr; apply bool_decide_eq_true; by eexists).
  assert (s_host_only (stored_form c) && negb (bool_decide (s_domain (stored_form c) = Origin.host (PartitionKey.origin partition))) = false) as ->.
  { destruct (ke_parsed _ Hk) as (now0 & header & Hpa). pose proof (ho_domain _ _ _ (parse_honest _ _ _ _ _ Hpa)) as Hm.
    unfold matches_host in Hm. cbv zeta in Hm. simpl. destruct (c_host_only c); [|done]. simpl.
    case_decide as Hd; [|done]. by rewrite bool_decide_eq_true_2 by congruence. }
  destruct (room j c Hj Hc) as [l Hl].
  destruct (store_takes now1 h (back c) j l (parse_back c h Hc Hx Hh) Hl) as (j' & Ej & Hkeys).
  pose proof (store_ok now1 psl partition h j (proj1 Hj)) as Hok'. rewrite Ej in *. simpl in *.
  assert (forall x, x ∈ at_key j' partition <-> x ∈ at_key j partition \/ returns c /\ x = back c) as Hin.
  { intros x. rewrite Hkeys, decide_True by done.
    rewrite (stored_elem _ _ _ x (at_key_ok _ _ (proj1 Hj)) Hl). split; [naive_solver|].
    intros [Hxj|[_ ->]]; [|by left]. destruct (decide (slot_of x = slot_of (back c))) as [Hs|Hs]; [|by right].
    left. destruct (proj2 Hj x Hxj) as (c' & Hc' & ->). rewrite !slot_back in Hs. by rewrite (slots_inj c' c). }
  split; [|done]. split; [done|]. intros x [Hxj|[_ ->]]%Hin; [by apply (proj2 Hj)|by exists c].
Qed.

Lemma load_loop_back keys j rep :
  only_back j ->
  (forall k, k ∈ keys -> exists c, c ∈ cs /\ is_expired c now = false /\ k = key_of c /\
     Store.get s partition Cookies k = Some (stored_bytes (stored_form c))) ->
  let j' := (foldl (load_one s now1 psl partition now_unix1 include_session) (j, rep) keys).1 in
  (forall x, x ∈ at_key j' partition -> x ∈ at_key j partition \/ exists c, c ∈ cs /\ returns c /\ x = back c) /\
  (forall x, x ∈ at_key j partition -> x ∈ at_key j' partition) /\
  (forall c, c ∈ cs -> key_of c ∈ keys -> returns c -> back c ∈ at_key j' partition).
Proof.
  revert j rep. induction keys as [|k keys IH]; intros j rep Hj Hkeys.
  { simpl. split_and!; [auto|auto|]. by intros c _ ?%elem_of_nil. }
  destruct (Hkeys k ltac:(by left)) as (c & Hc & Hx & -> & Hg). cbn [foldl].
  pose proof (load_one_back j rep c Hj Hc Hx Hg) as Hone. cbv zeta in Hone.
  destruct (load_one s now1 psl partition now_unix1 include_session (j, rep) (key_of c)) as [j1 rep1]. simpl in Hone.
  destruct Hone as [Hj1 Hin]. destruct (IH j1 rep1 Hj1) as (I1 & I2 & I3); [intros k Hk; apply Hkeys; by right|].
  cbv zeta. split_and!.
  - intros x [[Hxj|[Hr ->]]%Hin|Hxj]%I1; [by left|right; by exists c|by right].
  - intros x Hxj. apply I2, Hin. by left.
  - intros c' Hc' [Hk|Hk]%elem_of_cons Hr; [|by apply I3].
    apply I2, Hin. right. pose proof (key_of_inj c' c Hc' Hc Hk) as ->. done.
Qed.

Lemma last_value_elem k l v : last_value k l = Some v -> (k, v) ∈ l.
Proof.
  induction l as [|[k' v'] l IH]; simpl; [done|]. destruct (last_value k l) as [w|].
  - intros E. right. by apply IH.
  - case_decide; [|done]. intros [= ->]. subst. by left.
Qed.

Lemma elem_of_wanted k v :
  (k, v) ∈ wanted now now_unix cs <->
  exists c, c ∈ cs /\ is_expired c now = false /\ k = key_of c /\ v = stored_bytes (stored_form c).
Proof.
  unfold wanted. rewrite list_elem_of_omap.
  assert (forall c, c ∈ cs -> wanted_entry now now_unix c = Some (k, v) <->
    is_expired c now = false /\ k = key_of c /\ v = stored_bytes (stored_form c)) as He.
  { intros c Hc. rewrite wanted_entry_keepable by (by apply (proj1 (Forall_forall _ _) Hkeep)).
    destruct (is_expired c now); split; [done|by intros [[=] _]|by intros [= <- <-]|by intros (_ & -> & ->)]. }
  split; intros (c & Hc & H); exists c; (split; [done|]); by apply (He c Hc).
Qed.

Lemma load_saved j :
  (forall k, lookup_key (Store.engine s) partition Cookies k = last_value k (wanted now now_unix cs)) ->
  jar_ok j -> at_key j partition = [] ->
  forall x, x ∈ at_key (load s now1 psl partition j now_unix1 include_session).1 partition <->
    exists c, c ∈ cs /\ returns c /\ x = back c.
Proof.
  intros Hl Hj Hnil. assert (only_back j) as Hb by (split; [done|]; rewrite Hnil; by intros x ?%elem_of_nil).
  assert (forall k, k ∈ Store.keys s partition Cookies <-> is_Some (last_value k (wanted now now_unix cs))) as Hkeys
    by (intros k; by rewrite store_keys_spec, Hl).
  destruct (load_loop_back (Store.keys s partition Cookies) j no_report Hb) as (L1 & _ & L3).
  { intros k [v Hv]%Hkeys. pose proof (last_value_elem _ _ _ Hv) as (c & Hc & Hx & -> & ->)%elem_of_wanted.
    exists c. split_and!; [done..|]. by rewrite store_get, Hl. }
  intros x. split.
  - intros [Hx|Hx]%L1; [|done]. rewrite Hnil in Hx. by apply elem_of_nil in Hx.
  - intros (c & Hc & Hr & ->). apply L3; [done| |done]. apply Hkeys, not_eq_None_Some. rewrite last_value_None.
    intros Hn. apply Hn, list_elem_of_fmap. exists (key_of c, stored_bytes (stored_form c)). split; [done|].
    apply elem_of_wanted. exists c. split_and!; [done|apply Hr|done..].
Qed.
End roundtrip.

(** C4: What is saved comes back.  A run of [save] that succeeds, followed by a
    load into a jar with nothing under the key, leaves there exactly the saved
    cookies that are still alive, and the session cookies when they are asked for,
    each as it was but for its expiry, which is what was left of its life.  The
    cookies are ones the parser accepted for the partition's origin, at most fifty
    and no two for the same name, domain and path, and their headers fit the limit. *)
Theorem saved_cookies_come_back P s d psl partition cs now now_unix evs w s' n now1 now_unix1 include_session j :
  store_ok P s d -> key_ok partition -> Store.poisoned s = false -> synced s d ->
  0 <= now_unix ->
  Forall (keepable psl partition now now_unix now_unix1) cs ->
  NoDup (map JarProps.slot_of cs) -> (length cs <= MAX_PER_KEY)%nat ->
  host_plain (PartitionKey.origin partition) ->
  to_ascii_lowercase (Origin.host (PartitionKey.origin partition)) = Origin.host (PartitionKey.origin partition) ->
  save s partition cs now now_unix {| disk := d; events := evs |} = (w, Some (s', Ok n)) ->
  Store.poisoned s' = false ->
  JarProps.jar_ok j -> JarProps.at_key j partition = [] ->
  forall x, x ∈ JarProps.at_key (load s' now1 psl partition j now_unix1 include_session).1 partition <->
    exists c, c ∈ cs /\ returns now now_unix now_unix1 include_session c /\ x = back now now_unix now1 now_unix1 c.
Proof.
  intros Hs Hk Hp Hy Hnow Hkeep Hslots Hfew Hhost Hlower E Hp' Hj Hnil.
  pose proof (runs_save P s d partition cs now now_unix Hs Hk Hp Hy evs) as H. rewrite E in H.
  destruct H as (_ & _ & _ & Hl). by apply load_saved.
Qed.

(** ** Concrete uses *)
Module CookieStoreUses.
Import CookieUses.

(** Two cookies of the origin of the example key: one for a minute, one for the
    session. *)
Definition cdn : Origin.t := PartitionKey.origin sample_key.
Definition minute_cookie : Cookie :=
  mkCookie (lit "id") (lit "1") (lit "cdn.example") true (lit "/") true false Strict (Some (60 * 10 ^ 9)).
Definition session_cookie : Cookie :=
  mkCookie (lit "s") (lit "x y") (lit "cdn.example") true (lit "/a") false true Lax None.
Definition both : list Cookie := [minute_cookie; session_cookie].

Lemma both_parse :
  parse 0 list_com cdn (lit "id=1; Secure; SameSite=Strict; Max-Age=60") = Ok minute_cookie /\
  parse 0 list_com cdn (lit "s=x y; Path=/a; HttpOnly") = Ok session_cookie.
Proof. split; vm_compute; reflexivity. Qed.

Lemma both_keepable : Forall (keepable list_com sample_key (20 * 10 ^ 9) 1000 1010) both.
Proof.
  destruct both_parse as [P1 P2]. unfold both. apply Forall_cons. split; [|apply Forall_singleton]; split.
  - eexists _, _. exact P1.
  - rewrite !Forall_cons. split_and!; (vm_compute; (reflexivity || discriminate)) || constructor.
  - intros at_ [= <-]. vm_compute. reflexivity.
  - intros h [= <-]. vm_compute. discriminate.
  - eexists _, _. exact P2.
  - rewrite !Forall_cons. split_and!; (vm_compute; (reflexivity || discriminate)) || constructor.
  - intros at_ [=].
  - intros h [= <-]. vm_compute. discriminate.
Qed.

Definition sample_save : World * option (Store.t * result StoreError nat) :=
  save sample_store sample_key both (20 * 10 ^ 9) 1000 {| disk := sample_disk; events := [] |}.

Lemma sample_save_eq : exists s', sample_save = (sample_save.1, Some (s', Ok 2%nat)) /\ Store.poisoned s' = false.
Proof. eexists. split; vm_compute; reflexivity. Qed.

Lemma sample_synced : synced sample_store sample_disk.
Proof. intros _. apply sample_store_ok. Qed.

Lemma save_is_exact_witness :
  exists s', sample_save = (sample_save.1, Some (s', Ok 2%nat)) /\
    forall k, lookup_key (Store.engine s') sample_key Cookies k = last_value k (wanted (20 * 10 ^ 9) 1000 both).
Proof.
  destruct sample_save_eq as (s' & E & _). exists s'. split; [exact E|]. unfold sample_save at 1 in E.
  destruct (save_is_exact (eq engine_default) sample_store sample_disk sample_key both (20 * 10 ^ 9) 1000 [] _ _
    sample_store_ok sample_key_ok eq_refl sample_synced E) as (_ & _ & H & _). exact H.
Defined.

Lemma load_revalidates_witness :
  JarProps.jar_ok CookieJar.new /\
  total (load sample_store 0 list_com sample_key CookieJar.new 1010 true).2 = 0%nat.
Proof.
  assert (JarProps.jar_ok CookieJar.new) as Hj by by exact (JarProps.jar_run_ok []).
  split; [exact Hj|].
  pose proof (load_revalidates sample_store 0 list_com sample_key 1010 true CookieJar.new Hj) as H.
  destruct (load _ _ _ _ _ _ _) as [j' rep]. destruct H as (_ & _ & _ & H). exact H.
Defined.

(** Ten seconds later, both are back: the first with thirty seconds to live. *)
Lemma saved_cookies_come_back_witness :
  exists s', sample_save = (sample_save.1, Some (s', Ok 2%nat)) /\
    back (20 * 10 ^ 9) 1000 0 1010 minute_cookie ∈
      JarProps.at_key (load s' 0 list_com sample_key CookieJar.new 1010 true).1 sample_key.
Proof.
  destruct sample_save_eq as (s' & E & Hp). exists s'. split; [exact E|]. unfold sample_save at 1 in E.
  assert (JarProps.jar_ok CookieJar.new) as Hj by by exact (JarProps.jar_run_ok []).
  apply (saved_cookies_come_back (eq engine_default) sample_store sample_disk list_com sample_key both (20 * 10 ^ 9) 1000
    [] _ s' 2%nat 0 1010 true CookieJar.new sample_store_ok sample_key_ok eq_refl sample_synced ltac:(lia)
    both_keepable ltac:(apply (bool_decide_unpack _); vm_compute; exact I) ltac:(simpl; unfold MAX_PER_KEY; lia)
    ltac:(repeat constructor; done) ltac:(vm_compute; reflexivity) E Hp Hj ltac:(vm_compute; reflexivity)).
  exists minute_cookie. split; [by left|]. split; [|done]. split; vm_compute; reflexivity.
Defined.

(** Saving nothing into a store that can no longer be written answers [Ok] and
    deletes nothing: the list of keys of such a store is empty. *)
Theorem nothing_saved_when_poisoned s partition now now_unix w :
  Store.poisoned s = true ->
  save s partition [] now now_unix w = (w, Some (s, Ok 0%nat)).
Proof.
  intros Hp. unfold save, stale, Store.keys. rewrite Hp. by destruct (PartId.from_key partition).
Qed.
End CookieStoreUses.
