(* ===== verification/Marker.v ===== *)
(** * The marker of a migrated profile (px-store/src/migrate.rs, pure parts)

    The manifest of a directory tree, the safety of its names, and the text form
    recorded in the new profile. *)
From S2P Require Import Keys Prelude Bytes Text Chars Partition.
Local Open Scope Z_scope.

Definition MARKER_MAGIC : list byte := lit "pxmigrate 1".
Definition MAX_ENTRIES : nat := Z.to_nat 1000000.
Lemma MAX_ENTRIES_Z : Z.of_nat MAX_ENTRIES = 1000000.
Proof. unfold MAX_ENTRIES. by rewrite Z2Nat.id. Qed.
#[global] Opaque MAX_ENTRIES.

Inductive Kind :=
| KDir
| KFile (size crc fnv : Z).

Record Entry := mkEntry { rel : list byte; kind : Kind }.

#[export] Instance Kind_eq_dec : EqDecision Kind.
Proof. solve_decision. Defined.
#[export] Instance Entry_eq_dec : EqDecision Entry.
Proof. solve_decision. Defined.

(** ** Names *)
Fixpoint hex (s : list byte) : list byte :=
  match s with
  | [] => []
  | b :: s => hex_digit (b2z b / 16) :: hex_digit (b2z b mod 16) :: hex s
  end.

(** The bytes of [unhex], two digits at a time. *)
Fixpoint unhex_bytes (s : list byte) : option (list byte) :=
  match s with
  | [] => Some []
  | [_] => None
  | a :: b :: s =>
      v ← parse_uint 16 255 [a; b];
      bytes ← unhex_bytes s;
      Some (z2b v :: bytes)
  end.

Definition unhex (s : list byte) : option (list byte) :=
  bytes ← unhex_bytes s;
  if is_utf8 bytes then Some bytes else None.

Definition BACKSLASH : byte := x5c.
Definition NUL : byte := x00.
Definition SLASH : byte := "/"%byte.

Definition component_ok (c : list byte) : bool :=
  negb (bool_decide (c = [])) && negb (bool_decide (c = lit ".")) && negb (bool_decide (c = lit "..")) &&
  negb (bool_decide (BACKSLASH ∈ c)) && negb (bool_decide (NUL ∈ c)).

Definition rel_is_safe (r : list byte) : bool :=
  negb (bool_decide (r = [])) && forallb component_ok (split_on SLASH r).

Definition name_is_plain (name : list byte) : bool :=
  rel_is_safe name && negb (bool_decide (SLASH ∈ name)) && negb (bool_decide (COLON ∈ name)).

(** ** The text form *)
Definition encode_entry (e : Entry) : list byte :=
  match kind e with
  | KDir => lit "D " ++ hex (rel e)
  | KFile size crc fnv =>
      lit "F " ++ decimal size ++ x20 :: hex_fixed 8 crc ++ x20 :: hex_fixed 16 fnv ++ x20 :: hex (rel e)
  end.

Definition encode_marker (from : list byte) (entries : list Entry) : list byte :=
  MARKER_MAGIC ++ NEWLINE :: (lit "from " ++ from) ++ NEWLINE ::
  concat (map (fun e => encode_entry e ++ [NEWLINE]) entries) ++
  lit "end " ++ decimal (Z.of_nat (length entries)) ++ [NEWLINE].

Definition parse_entry (line : list byte) : option Entry :=
  let parts := split_on x20 line in
  tag ← head parts;
  '(e, parts) ←
    (if decide (tag = lit "D") then
       r ← parts !! 1%nat; r ← unhex r; Some (mkEntry r KDir, drop 2 parts)
     else if decide (tag = lit "F") then
       size ← parts !! 1%nat; size ← parse_uint 10 U64_MAX size;
       crc ← parts !! 2%nat; crc ← parse_uint 16 U32_MAX crc;
       fnv ← parts !! 3%nat; fnv ← parse_uint 16 U64_MAX fnv;
       r ← parts !! 4%nat; r ← unhex r;
       Some (mkEntry r (KFile size crc fnv), drop 5 parts)
     else None);
  if negb (bool_decide (parts = [])) || negb (rel_is_safe (rel e)) then None else Some e.

(** The loop over the lines: the entries so far are [entries]. *)
Fixpoint parse_lines (entries : list Entry) (lines : list (list byte)) : option (list Entry) :=
  match lines with
  | [] => None
  | line :: lines =>
      match strip_prefix (lit "end ") line with
      | Some n =>
          n ← parse_uint 10 USIZE_MAX n;
          if negb (n =? Z.of_nat (length entries)) || negb (bool_decide (lines = [[]])) then None
          else Some entries
      | None =>
          e ← parse_entry line;
          if (MAX_ENTRIES <=? length entries)%nat then None else parse_lines (entries ++ [e]) lines
      end
  end.

Definition parse_marker (text : list byte) : option (list byte * list Entry) :=
  match split_on NEWLINE text with
  | magic :: lines =>
      if negb (bool_decide (magic = MARKER_MAGIC)) then None
      else
        from ← head lines;
        from ← strip_prefix (lit "from ") from;
        if negb (name_is_plain from) then None
        else entries ← parse_lines [] (tail lines); Some (from, entries)
  | [] => None
  end.

(** ** Names read back *)
Lemma hex_pair b : parse_uint 16 255 [hex_digit (b2z b / 16); hex_digit (b2z b mod 16)] = Some (b2z b).
Proof. destruct b; vm_compute; reflexivity. Qed.

Lemma unhex_hex s : is_utf8 s = true -> unhex (hex s) = Some s.
Proof.
  intros Hu. unfold unhex. assert (unhex_bytes (hex s) = Some s) as ->; [|cbn [mbind option_bind]; by rewrite Hu].
  clear Hu. induction s as [|b s IH]; [done|]. cbn [hex unhex_bytes]. rewrite hex_pair, IH. cbn [mbind option_bind].
  by rewrite z2b_b2z.
Qed.

Lemma hex_chars s : Forall (fun b => is_hex b = true) (hex s).
Proof.
  induction s as [|b s IH]; simpl; [constructor|]. pose proof (b2z_range b).
  repeat constructor; [apply hex_digit_ok; split; [apply Z.div_pos; lia|apply Z.div_lt_upper_bound; lia]| |done].
  apply hex_digit_ok, Z.mod_pos_bound. lia.
Qed.

Lemma hex_clean l : Forall (fun b => is_hex b = true) l -> (x20 ∉ l) /\ NEWLINE ∉ l.
Proof. rewrite Forall_forall. intros Hl. split; intros Hin%Hl%hex_not; by destruct Hin as (? & ? & _). Qed.

(** A byte that is not in a literal. *)
Ltac absent := apply (bool_decide_unpack _); vm_compute; exact I.

(** ** The marker read back *)
Definition kind_ok (k : Kind) : Prop :=
  match k with
  | KDir => True
  | KFile size crc fnv => 0 <= size <= U64_MAX /\ 0 <= crc <= U32_MAX /\ 0 <= fnv <= U64_MAX
  end.

Definition entry_ok (e : Entry) : Prop :=
  rel_is_safe (rel e) = true /\ is_utf8 (rel e) = true /\ kind_ok (kind e).

Lemma parse_encode_entry e : entry_ok e -> parse_entry (encode_entry e) = Some e.
Proof.
  destruct e as [r k]. intros (Hs & Hu & Hk). simpl in *. unfold parse_entry, encode_entry. simpl kind. simpl rel.
  destruct (hex_clean _ (hex_chars r)) as [Hr _]. destruct k as [|size crc fnv].
  - change (lit "D " ++ hex r) with (lit "D" ++ x20 :: hex r). rewrite split_on_app by absent.
    rewrite split_on_single by done. cbv zeta. cbn [head mbind option_bind]. rewrite decide_True by done.
    cbn [lookup list_lookup mbind option_bind]. rewrite unhex_hex by done. cbn [mbind option_bind drop rel].
    by rewrite Hs, bool_decide_eq_true_2.
  - destruct Hk as (H1 & H2 & H3). destruct (hex_clean _ (decimal_hex size)) as [Hd _].
    destruct (hex_clean _ (hex_fixed_chars 8 crc ltac:(lia))) as [Hc _].
    destruct (hex_clean _ (hex_fixed_chars 16 fnv ltac:(lia))) as [Hf _].
    change (lit "F " ++ decimal size ++ x20 :: hex_fixed 8 crc ++ x20 :: hex_fixed 16 fnv ++ x20 :: hex r)
      with (lit "F" ++ x20 :: decimal size ++ x20 :: hex_fixed 8 crc ++ x20 :: hex_fixed 16 fnv ++ x20 :: hex r).
    rewrite split_on_app by absent. rewrite !split_on_app, split_on_single by done.
    cbv zeta. cbn [head mbind option_bind]. rewrite decide_False, decide_True by done.
    cbn [lookup list_lookup mbind option_bind].
    rewrite parse_decimal_uint by (unfold U64_MAX in *; lia). cbn [mbind option_bind].
    rewrite (parse_hex_fixed 8 crc U32_MAX); [|lia|change (16 ^ Z.of_nat 8) with 4294967296; unfold U32_MAX in *; lia|lia].
    cbn [mbind option_bind].
    rewrite (parse_hex_fixed 16 fnv U64_MAX); [|lia|change (16 ^ Z.of_nat 16) with 18446744073709551616; unfold U64_MAX in *; lia|lia].
    cbn [mbind option_bind].
    rewrite unhex_hex by done. cbn [mbind option_bind drop rel]. by rewrite Hs, bool_decide_eq_true_2.
Qed.

Lemma encode_entry_line e : entry_ok e -> (NEWLINE ∉ encode_entry e) /\ strip_prefix (lit "end ") (encode_entry e) = None.
Proof.
  destruct e as [r k]. intros (_ & _ & Hk). simpl in Hk. unfold encode_entry. cbn [kind rel].
  destruct (hex_clean _ (hex_chars r)) as [_ Hr]. destruct k as [|size crc fnv]; (split; [|done]).
  - rewrite not_elem_of_app. split; [absent|done].
  - destruct Hk as (H1 & H2 & H3). destruct (hex_clean _ (decimal_hex size)) as [_ Hd].
    destruct (hex_clean _ (hex_fixed_chars 8 crc ltac:(lia))) as [_ Hc].
    destruct (hex_clean _ (hex_fixed_chars 16 fnv ltac:(lia))) as [_ Hf].
    repeat (rewrite not_elem_of_app || rewrite not_elem_of_cons).
    split_and!; done || absent.
Qed.

Lemma parse_lines_encoded done_ entries :
  Forall entry_ok entries -> (length done_ + length entries <= MAX_ENTRIES)%nat ->
  parse_lines done_ (map encode_entry entries ++
    [lit "end " ++ decimal (Z.of_nat (length done_ + length entries)); []]) = Some (done_ ++ entries).
Proof.
  intros Hok. revert done_. induction Hok as [|e entries He Hok IH]; intros done_ Hlen.
  - cbn [map app parse_lines]. rewrite (proj2 (strip_prefix_Some _ _ _) eq_refl).
    rewrite parse_decimal_uint; [|pose proof MAX_ENTRIES_Z; cbn [length] in *; unfold USIZE_MAX; lia|done].
    cbn [mbind option_bind]. rewrite Nat.add_0_r, Z.eqb_refl, bool_decide_eq_true_2 by done. by rewrite app_nil_r.
  - destruct (encode_entry_line e He) as [_ Hs]. cbn [map app parse_lines]. rewrite Hs, parse_encode_entry by done.
    cbn [mbind option_bind]. simpl in Hlen. rewrite (proj2 (Nat.leb_gt _ _)) by lia.
    replace (length done_ + length (e :: entries))%nat with (length (done_ ++ [e]) + length entries)%nat
      by (rewrite length_app; simpl; lia).
    rewrite IH by (rewrite length_app; simpl; lia). by rewrite <- app_assoc.
Qed.

Lemma join_lines {A} (f : A -> list byte) l t :
  join_with NEWLINE (map f l ++ [t; []]) = concat (map (fun e => f e ++ [NEWLINE]) l) ++ t ++ [NEWLINE].
Proof.
  induction l as [|x l IH]; [done|]. cbn [map app concat]. rewrite <- !app_assoc, <- IH.
  by destruct (map f l ++ [t; []]) eqn:E; [destruct l|].
Qed.

Lemma encode_marker_join from entries :
  encode_marker from entries = join_with NEWLINE
    (MARKER_MAGIC :: (lit "from " ++ from) :: map encode_entry entries ++
      [lit "end " ++ decimal (Z.of_nat (length entries)); []]).
Proof.
  pose proof (join_lines encode_entry entries (lit "end " ++ decimal (Z.of_nat (length entries)))) as E.
  unfold encode_marker. rewrite <- app_assoc in E. rewrite <- E.
  by destruct (map encode_entry entries ++ _) eqn:El; [destruct entries|].
Qed.

Lemma parse_encoded from entries :
  name_is_plain from = true -> NEWLINE ∉ from -> Forall entry_ok entries -> (length entries <= MAX_ENTRIES)%nat ->
  parse_marker (encode_marker from entries) = Some (from, entries).
Proof.
  intros Hp Hn Hok Hlen. rewrite encode_marker_join. unfold parse_marker. rewrite split_join.
  - rewrite bool_decide_eq_true_2 by done. cbn [negb head tail mbind option_bind].
    rewrite (proj2 (strip_prefix_Some _ _ _) eq_refl). cbn [mbind option_bind]. rewrite Hp. cbn [negb].
    pose proof (parse_lines_encoded [] entries Hok Hlen) as E. cbn [length Nat.add app] in E. by rewrite E.
  - done.
  - constructor; [absent|]. constructor; [rewrite not_elem_of_app; split; [absent|done]|].
    apply Forall_app. split.
    + apply Forall_map. eapply Forall_impl; [exact Hok|]. intros e He. by apply encode_entry_line.
    + repeat constructor; [|apply not_elem_of_nil]. rewrite not_elem_of_app. split; [absent|].
      apply hex_clean, decimal_hex.
Qed.

(** ** The marker is text *)
Lemma ascii_hex l : Forall (fun b => is_hex b = true) l -> is_ascii l = true.
Proof. intros Hl. induction Hl as [|b l Hb Hl IH]; [done|]. simpl. rewrite IH, andb_true_r. by destruct b. Qed.

Lemma ascii_app a b : is_ascii a = true -> is_ascii b = true -> is_ascii (a ++ b) = true.
Proof. rewrite is_ascii_app. by intros -> ->. Qed.

Lemma encode_entry_ascii e : entry_ok e -> is_ascii (encode_entry e) = true.
Proof.
  destruct e as [r k]. intros (_ & _ & Hk). simpl in Hk. unfold encode_entry. cbn [kind rel].
  pose proof (ascii_hex _ (hex_chars r)) as Hr.
  destruct k as [|size crc fnv]; [by apply ascii_app|]. destruct Hk as (H1 & H2 & H3).
  apply ascii_app; [done|]. apply ascii_app; [apply ascii_hex, decimal_hex|].
  apply (ascii_app [x20]); [done|]. apply ascii_app; [apply ascii_hex, hex_fixed_chars; lia|].
  apply (ascii_app [x20]); [done|]. apply ascii_app; [apply ascii_hex, hex_fixed_chars; lia|].
  by apply (ascii_app [x20]).
Qed.

Lemma encode_marker_utf8 from entries :
  is_utf8 from = true -> Forall entry_ok entries -> is_utf8 (encode_marker from entries) = true.
Proof.
  intros Hf He. unfold encode_marker. apply is_utf8_app; [by vm_compute|].
  apply (is_utf8_app [NEWLINE]); [done|]. apply is_utf8_app; [by apply is_utf8_app|].
  apply (is_utf8_app [NEWLINE]); [done|]. apply ascii_is_utf8. apply ascii_app.
  - induction He as [|e es He Hes IH]; [done|]. cbn [map concat].
    apply ascii_app; [|done]. apply ascii_app; [by apply encode_entry_ascii|done].
  - apply ascii_app; [done|]. apply ascii_app; [apply ascii_hex, decimal_hex|done].
Qed.
