(* ===== verification/Migrate.v ===== *)
(** * Migration of the profile directory (px-store/src/migrate.rs)

    The protocol over a small file system: a map from paths under the root to
    files, directories, links and other objects.  Every call may fail, and the
    process may die in it; what has then happened is part of the event. *)
From stdpp Require Import gmap.
From S2P Require Import Keys Prelude Bytes OrdMap Text Chars Checksum Marker.
Local Open Scope Z_scope.

Definition STAGING_SUFFIX : list byte := lit ".migrating".
Definition MARKER_NAME : list byte := lit ".migrated".
Definition MAX_DEPTH : nat := 64.

(** ** The file system *)
Abbreviation path := (list (list byte)).

Inductive obj :=
| FileObj (content : list byte)
| DirObj
| LinkObj
| OtherObj.

#[export] Instance obj_eq_dec : EqDecision obj.
Proof. solve_decision. Defined.

Definition FS : Type := gmap path obj.

Inductive ErrorKind := NotFound | Failure.

(** What happens to one call.  [amount] and [survives] say how far one that fails
    or is interrupted got. *)
Inductive Fate := Good | Bad | Die.
Record Event := { fate : Fate; amount : nat; survives : path -> bool }.
Definition good : Event := {| fate := Good; amount := 0; survives := fun _ => false |}.

Record World := { fs : FS; events : list Event; ops : Z }.

(** [None] is a process that died. *)
Definition mig (A : Type) : Type := World -> World * option A.

#[export] Instance mig_ret : MRet mig := fun A a w => (w, Some a).
#[export] Instance mig_bind : MBind mig := fun A B f m w =>
  let '(w', r) := m w in match r with Some a => f a w' | None => (w', None) end.

Definition call {A} (act : Event -> FS -> FS * result ErrorKind A) : mig (result ErrorKind A) := fun w =>
  let ev := default good (head (events w)) in
  let '(d, r) := act ev (fs w) in
  ({| fs := d; events := tail (events w); ops := ops w |},
   match fate ev with Die => None | _ => Some r end).

(** [?], and [map_err(..)?]. *)
Definition try_mig {E F A B} (conv : E -> F) (m : mig (result E A)) (k : A -> mig (result F B)) : mig (result F B) :=
  r ← m; match r with Ok a => k a | Err e => mret (Err (conv e)) end.

(** A call that changes nothing. *)
Definition reading {A} (f : FS -> result ErrorKind A) : mig (result ErrorKind A) :=
  call (fun ev d => (d, match fate ev with Good => f d | _ => Err Failure end)).

(** A change that either happens or does not. *)
Definition happens (ev : Event) : bool :=
  match fate ev with Good => true | Bad => false | Die => negb (Nat.eqb (amount ev) 0) end.

Definition changing (f : FS -> result ErrorKind FS) : mig (result ErrorKind unit) :=
  call (fun ev d =>
    match f d with
    | Err e => (d, Err e)
    | Ok d' => (if happens ev then d' else d, match fate ev with Good => Ok tt | _ => Err Failure end)
    end).

(** The names in a directory, in no particular order. *)
Definition child_of (p q : path) : option (list byte) :=
  match reverse q with
  | n :: r => if decide (reverse r = p) then Some n else None
  | [] => None
  end.

Definition names (d : FS) (p : path) : gset (list byte) :=
  list_to_set (omap (fun q => child_of p q.1) (map_to_list d)).

Definition children (d : FS) (p : path) : list (list byte) := elements (names d p).

(** The directory a path is in exists; the root always does. *)
Definition parent_ok (d : FS) (p : path) : bool :=
  match reverse p with
  | _ :: [] => true
  | _ :: r => bool_decide (d !! reverse r = Some DirObj)
  | [] => false
  end.

Definition in_tree (p q : path) : bool := bool_decide (p `prefix_of` q).

Definition lookup_obj (d : FS) (p : path) : result ErrorKind obj := ok_or (d !! p) NotFound.

Definition symlink_metadata (p : path) : mig (result ErrorKind obj) := reading (fun d => lookup_obj d p).

Definition read_dir (p : path) : mig (result ErrorKind (list (list byte))) :=
  reading (fun d => o ← lookup_obj d p; match o with DirObj => Ok (children d p) | _ => Err Failure end).

Definition content (d : FS) (p : path) : result ErrorKind (list byte) :=
  o ← lookup_obj d p; match o with FileObj c => Ok c | _ => Err Failure end.

Definition open_file (p : path) : mig (result ErrorKind (list byte)) := reading (fun d => content d p).

Definition create_file (p : path) : mig (result ErrorKind unit) :=
  changing (fun d =>
    if parent_ok d p && negb (bool_decide (d !! p = Some DirObj)) then Ok (<[p := FileObj []]> d) else Err Failure).

(** The bytes go out in order; a failure leaves some of them written. *)
Definition write_all (p : path) (bytes : list byte) : mig (result ErrorKind unit) :=
  call (fun ev d =>
    match content d p with
    | Err e => (d, Err e)
    | Ok old =>
        let k := match fate ev with Good => bytes | _ => take (amount ev) bytes end in
        (<[p := FileObj (old ++ k)]> d, match fate ev with Good => Ok tt | _ => Err Failure end)
    end).

(** Calls without an effect in this model: [sync_all], [set_permissions]. *)
Definition touch (p : path) : mig (result ErrorKind unit) := reading (fun d => _ ← lookup_obj d p; Ok tt).

Definition create_dir (p : path) : mig (result ErrorKind unit) :=
  changing (fun d =>
    if parent_ok d p && bool_decide (d !! p = None) then Ok (<[p := DirObj]> d) else Err Failure).

Definition remove_file (p : path) : mig (result ErrorKind unit) :=
  changing (fun d => o ← lookup_obj d p; match o with DirObj => Err Failure | _ => Ok (delete p d) end).

Definition remove_dir (p : path) : mig (result ErrorKind unit) :=
  changing (fun d =>
    o ← lookup_obj d p;
    match o with
    | DirObj => if bool_decide (children d p = []) then Ok (delete p d) else Err Failure
    | _ => Err Failure
    end).

(** An interrupted [remove_dir_all] leaves part of the tree, with the
    directories on the way to it. *)
Definition left_over (s : path -> bool) (p q : path) : bool :=
  negb (in_tree p q) || forallb (fun k => s (take k q)) (seq (length p) (S (length q) - length p)).

Definition remove_dir_all (p : path) : mig (result ErrorKind unit) :=
  call (fun ev d =>
    match d !! p with
    | Some DirObj =>
        match fate ev with
        | Good => (filter (fun q => in_tree p q.1 = false) d, Ok tt)
        | _ => (filter (fun q => left_over (survives ev) p q.1 = true) d, Err Failure)
        end
    | Some _ => (d, Err Failure)
    | None => (d, Err NotFound)
    end).

(** The path [q] after the directory [a] is renamed to [b]. *)
Definition moved (a b : path) (d : FS) : FS :=
  list_to_map (omap (fun kv => let '(q, o) := kv in
    if in_tree a q then Some (b ++ drop (length a) q, o) else if in_tree b q then None else Some (q, o)) (map_to_list d)).

Definition rename (a b : path) : mig (result ErrorKind unit) :=
  changing (fun d =>
    if bool_decide (d !! a = Some DirObj) && parent_ok d b && negb (in_tree a b) &&
       (bool_decide (d !! b = None) || (bool_decide (d !! b = Some DirObj) && bool_decide (children d b = [])))
    then Ok (moved a b d) else Err Failure).

(** ** Manifests *)
Inductive MigrateError :=
| Io (op : string) (p : path) (source : ErrorKind)
| SymlinkRefused (p : path)
| UnsupportedEntry (p : path)
| BadName (p : path)
| TooLarge (p : path)
| VerificationFailed (why : string)
| InvalidConfigName (name : list byte)
| Injected (n : Z).

Inductive Outcome :=
| NoLegacy
| AlreadyCurrent
| Migrated (from : list byte) (files dirs : nat) (bytes : Z) (source_removed : bool)
| CleanedUp (source_removed : bool).

(** The file is hashed in the chunks it is read in. *)
Definition hash_chunk (h : Z * Z * Z) (chunk : list byte) : Z * Z * Z :=
  let '(size, crc, fnv) := h in (size + len chunk, crc32_update crc chunk, fnv1a64_update fnv chunk).

Definition hash_chunks (chunks : list (list byte)) : Z * Z * Z := foldl hash_chunk (0, 0, FNV_OFFSET) chunks.

Definition hash_content (c : list byte) : Z * Z * Z := hash_chunks [c].

Definition file_kind (c : list byte) : Kind := let '(size, crc, fnv) := hash_content c in KFile size crc fnv.

Fixpoint fold_res {E A B} (f : A -> B -> result E A) (a : A) (l : list B) : result E A :=
  match l with
  | [] => Ok a
  | b :: l => a ← f a b; fold_res f a l
  end.

(** [root.join(rel)]. *)
Definition join_rel (root : path) (r : list byte) : path := root ++ split_on SLASH r.

(** [prefix] is the relative path of [dir].  The depth limit stops the recursion,
    two levels before [fuel] would. *)
Fixpoint scan_into (fuel : nat) (d : FS) (dir : path) (prefix : list byte) (depth : nat) (top_level : bool)
    (out : list Entry) : result MigrateError (list Entry) :=
  match fuel with
  | O => Err (TooLarge dir)
  | S fuel =>
      if (MAX_DEPTH <? depth)%nat then Err (TooLarge dir)
      else if negb (bool_decide (d !! dir = Some DirObj)) then Err (Io "read directory" dir Failure)
      else
        fold_res (fun out name =>
          let p := dir ++ [name] in
          if negb (is_utf8 name) then Err (BadName p)
          else if negb (rel_is_safe name) || bool_decide (SLASH ∈ name) then Err (BadName p)
          else if top_level && (depth =? 0)%nat && bool_decide (name = MARKER_NAME) then Err (UnsupportedEntry p)
          else
            let r := if bool_decide (prefix = []) then name else prefix ++ SLASH :: name in
            if (MAX_ENTRIES <=? length out)%nat then Err (TooLarge p)
            else match d !! p with
                 | Some LinkObj => Err (SymlinkRefused p)
                 | Some DirObj => scan_into fuel d p r (S depth) top_level (out ++ [mkEntry r KDir])
                 | Some (FileObj c) => Ok (out ++ [mkEntry r (file_kind c)])
                 | Some OtherObj => Err (UnsupportedEntry p)
                 | None => Err (Io "stat" p NotFound)
                 end) out (children d dir)
  end.

(** [sort_by] on the relative path; the sort is stable. *)
Fixpoint insert_entry (e : Entry) (l : list Entry) : list Entry :=
  match l with
  | [] => [e]
  | x :: l => match cmp (rel e) (rel x) with Gt => x :: insert_entry e l | _ => e :: x :: l end
  end.

Definition sort_by_rel (l : list Entry) : list Entry := foldr insert_entry [] l.

Definition scan_tree (d : FS) (root : path) (top_level : bool) : result MigrateError (list Entry) :=
  out ← scan_into (S (S MAX_DEPTH)) d root [] 0 top_level [];
  Ok (sort_by_rel out).

(** A scan in which some read fails. *)
Definition scan (root : path) (top_level : bool) : mig (result MigrateError (list Entry)) :=
  try_mig (Io "read" root) (reading (fun d => Ok (scan_tree d root top_level))) mret.

(** Every component is there and none is a link. *)
Definition no_symlink (d : FS) (root : path) (r : list byte) : bool :=
  forallb (fun k => match d !! take k (join_rel root r) with
                    | Some LinkObj | None => false
                    | Some _ => true
                    end) (seq (S (length root)) (length (split_on SLASH r))).

Definition path_has_no_symlink (root : path) (r : list byte) : mig bool :=
  x ← reading (fun d => Ok (no_symlink d root r)); mret (match x with Ok b => b | Err _ => false end).

(** ** The migrator *)
Section migrator.
Context (hook : option (Z -> bool)).

(** The counter is 32 bits wide, and a run takes at most four steps per entry. *)
Definition tick : mig (result MigrateError unit) := fun w =>
  ({| fs := fs w; events := events w; ops := ops w + 1 |},
   Some (match hook with Some h => if h (ops w) then Err (Injected (ops w)) else Ok tt | None => Ok tt end)).

Definition io (op : string) (p : path) {A} (m : mig (result ErrorKind A)) : mig (result MigrateError A) :=
  try_mig (Io op p) m (fun a => mret (Ok a)).

Definition remove_tree (p : path) : mig (result MigrateError unit) :=
  m ← symlink_metadata p;
  match m with
  | Ok o =>
      try_mig id tick (fun _ =>
      match o with
      | DirObj => io "remove" p (remove_dir_all p)
      | _ => io "remove" p (remove_file p)
      end)
  | Err NotFound => mret (Ok tt)
  | Err e => mret (Err (Io "stat" p e))
  end.

(** The reads are one call before the file is created: a read that fails later
    leaves what a failed write leaves. *)
Definition copy_file (from to : path) : mig (result MigrateError unit) :=
  try_mig id tick (fun _ =>
  try_mig (Io "open" from) (open_file from) (fun c =>
  try_mig (Io "create" to) (create_file to) (fun _ =>
  try_mig (Io "write" to) (write_all to c) (fun _ =>
  try_mig (Io "sync" to) (touch to) (fun _ =>
  try_mig (Io "stat" from) (touch from) (fun _ =>
  io "set permissions" to (touch to))))))).

Definition make_dir (from : option path) (to : path) : mig (result MigrateError unit) :=
  try_mig id tick (fun _ =>
  try_mig (Io "create directory" to) (create_dir to) (fun _ =>
  let f := default to from in
  try_mig (Io "stat" f) (touch f) (fun _ =>
  io "set permissions" to (touch to)))).

Fixpoint remove_files (source : path) (entries : list Entry) : mig (result MigrateError unit) :=
  match entries with
  | [] => mret (Ok tt)
  | e :: entries =>
      match kind e with
      | KDir => remove_files source entries
      | KFile size crc fnv =>
          b ← path_has_no_symlink source (rel e);
          if negb b then remove_files source entries
          else
            let p := join_rel source (rel e) in
            c ← open_file p;
            if match c with Ok c => bool_decide (hash_content c = (size, crc, fnv)) | Err _ => false end then
              try_mig id tick (fun _ =>
              try_mig (Io "remove" p) (remove_file p) (fun _ => remove_files source entries))
            else remove_files source entries
      end
  end.

(** [entries] are in reverse order. *)
Fixpoint remove_dirs (source : path) (entries : list Entry) : mig (result MigrateError unit) :=
  match entries with
  | [] => mret (Ok tt)
  | e :: entries =>
      match kind e with
      | KDir =>
          b ← path_has_no_symlink source (rel e);
          if negb b then remove_dirs source entries
          else
            try_mig id tick (fun _ =>
            _ ← remove_dir (join_rel source (rel e)); remove_dirs source entries)
      | KFile _ _ _ => remove_dirs source entries
      end
  end.

Definition cleanup (source : path) (entries : list Entry) : mig (result MigrateError bool) :=
  try_mig id (remove_files source entries) (fun _ =>
  try_mig id (remove_dirs source (reverse entries)) (fun _ =>
  try_mig id tick (fun _ =>
  _ ← remove_dir source;
  m ← symlink_metadata source;
  mret (Ok (negb (is_ok m)))))).

(** The copy loop; the counts are of files, directories and bytes. *)
Fixpoint copy_all (source staging : path) (counts : nat * nat * Z) (manifest : list Entry)
  : mig (result MigrateError (nat * nat * Z)) :=
  match manifest with
  | [] => mret (Ok counts)
  | e :: manifest =>
      let to := join_rel staging (rel e) in
      let from := join_rel source (rel e) in
      let '(files, dirs, bytes) := counts in
      match kind e with
      | KDir =>
          try_mig id (make_dir (Some from) to) (fun _ => copy_all source staging (files, S dirs, bytes) manifest)
      | KFile size _ _ =>
          try_mig id (copy_file from to) (fun _ => copy_all source staging (S files, dirs, bytes + size) manifest)
      end
  end.

Definition write_marker (p : path) (text : list byte) : mig (result MigrateError unit) :=
  try_mig id tick (fun _ =>
  try_mig (Io "create" p) (create_file p) (fun _ =>
  try_mig (Io "write" p) (write_all p text) (fun _ =>
  io "sync" p (touch p)))).

(** [fs::read_to_string(..).ok().and_then(parse_marker)]. *)
Definition read_marker (dest : path) : mig (option (list byte * list Entry)) :=
  c ← open_file (dest ++ [MARKER_NAME]);
  mret (match c with Ok c => if is_utf8 c then parse_marker c else None | Err _ => None end).

Fixpoint first_invalid (names : list (list byte)) : option (list byte) :=
  match names with
  | [] => None
  | n :: names => if name_is_plain n then first_invalid names else Some n
  end.

(** The newest legacy directory; [legacy] is in reverse order. *)
Fixpoint newest_legacy (config_dir : list byte) (legacy : list (list byte))
  : mig (result MigrateError (option (list byte))) :=
  match legacy with
  | [] => mret (Ok None)
  | name :: legacy =>
      if decide (name = config_dir) then newest_legacy config_dir legacy
      else
        m ← symlink_metadata [name];
        match m with
        | Ok LinkObj => mret (Err (SymlinkRefused [name]))
        | Ok DirObj => mret (Ok (Some name))
        | Ok _ => mret (Err (UnsupportedEntry [name]))
        | Err NotFound => newest_legacy config_dir legacy
        | Err e => mret (Err (Io "stat" [name] e))
        end
  end.

(** Step 4: the copy is what was listed, and the source still is. *)
Definition verify (source staging : path) (manifest : list Entry) : mig (result MigrateError unit) :=
  try_mig id (scan staging true) (fun copied =>
  if negb (bool_decide (copied = manifest)) then
    _ ← remove_tree staging;
    mret (Err (VerificationFailed "the copy differs from the source"))
  else
    try_mig id (scan source true) (fun again =>
    if negb (bool_decide (again = manifest)) then
      _ ← remove_tree staging;
      mret (Err (VerificationFailed "the source changed during the copy"))
    else mret (Ok tt))).

(** Steps 2 to 6, from a legacy directory that was found. *)
Definition carry (dest staging : path) (from : list byte) (remove_empty_dest : bool)
  : mig (result MigrateError Outcome) :=
  let source := [from] in
  try_mig id (scan source true) (fun manifest =>
  try_mig id (if remove_empty_dest then try_mig id tick (fun _ => io "remove" dest (remove_dir dest)) else mret (Ok tt)) (fun _ =>
  try_mig id (remove_tree staging) (fun _ =>
  try_mig id (make_dir None staging) (fun _ =>
  try_mig id (copy_all source staging (0%nat, 0%nat, 0) manifest) (fun '(files, dirs, bytes) =>
  try_mig id (verify source staging manifest) (fun _ =>
  try_mig id (write_marker (staging ++ [MARKER_NAME]) (encode_marker from manifest)) (fun _ =>
  try_mig id tick (fun _ =>
  try_mig (Io "rename" staging) (rename staging dest) (fun _ =>
  try_mig id (cleanup source manifest) (fun source_removed =>
  mret (Ok (Migrated from files dirs bytes source_removed)))))))))))).

(** A profile that carries a marker: finish what an earlier run began. *)
Definition finish (from : list byte) (entries : list Entry) : mig (result MigrateError Outcome) :=
  m ← symlink_metadata [from];
  match m with
  | Ok DirObj => try_mig id (cleanup [from] entries) (fun b => mret (Ok (CleanedUp b)))
  | _ => mret (Ok AlreadyCurrent)
  end.

Definition run (config_dir : list byte) (legacy_dirs : list (list byte)) : mig (result MigrateError Outcome) :=
  match first_invalid (config_dir :: legacy_dirs) with
  | Some n => mret (Err (InvalidConfigName n))
  | None =>
      let dest := [config_dir] in
      let staging := [config_dir ++ STAGING_SUFFIX] in
      let start (remove_empty_dest : bool) : mig (result MigrateError Outcome) :=
        try_mig id (newest_legacy config_dir (reverse legacy_dirs)) (fun found =>
        match found with
        | None => mret (Ok NoLegacy)
        | Some from => carry dest staging from remove_empty_dest
        end) in
      m ← symlink_metadata dest;
      match m with
      | Ok LinkObj => mret (Err (SymlinkRefused dest))
      | Ok DirObj =>
          marker ← read_marker dest;
          match marker with
          | Some (from, entries) => finish from entries
          | None =>
              try_mig (Io "read directory" dest) (read_dir dest) (fun l =>
              if negb (bool_decide (l = [])) then mret (Ok AlreadyCurrent) else start true)
          end
      | Ok _ => mret (Err (UnsupportedEntry dest))
      | Err NotFound => start false
      | Err e => mret (Err (Io "stat" dest e))
      end
  end.
End migrator.

Definition migrate (config_dir : list byte) (legacy_dirs : list (list byte)) : mig (result MigrateError Outcome) :=
  run None config_dir legacy_dirs.

Definition migrate_with_hook (config_dir : list byte) (legacy_dirs : list (list byte)) (hook : Z -> bool)
  : mig (result MigrateError Outcome) := run (Some hook) config_dir legacy_dirs.

(** ** A small profile *)
Module MigrateSample.
Definition old : list byte := lit "old".
Definition new : list byte := lit "new".
Definition profile : FS :=
  list_to_map [([old], DirObj); ([old; lit "a"], FileObj (lit "hello")); ([old; lit "d"], DirObj);
    ([old; lit "d"; lit "b"], FileObj (lit "x"))].

Definition ended : World * option (result MigrateError Outcome) :=
  migrate new [old] {| fs := profile; events := []; ops := 0 |}.

Example small_run :
  snd ended = Some (Ok (Migrated old 2 1 6 true)) /\
  fs (fst ended) !! [new; lit "d"; lit "b"] = Some (FileObj (lit "x")) /\
  fs (fst ended) !! [old] = None /\
  snd (migrate new [old] (fst ended)) = Some (Ok AlreadyCurrent).
Proof. vm_compute. done. Qed.
End MigrateSample.
