(* ===== verification/MigrateFs.v ===== *)
(** * Lemmas about the file system of a migration

    Lookups after each change, well-formed trees, and runs over every outcome of
    the calls. *)
From stdpp Require Import gmap sets.
From Stdlib Require Import Sorting.Sorted.
From S2P Require Import Prelude Bytes OrdMap Text Chars Checksum Keys Marker Migrate.
Local Open Scope Z_scope.

(** ** Runs *)
(** [Q] holds of the file system and the answer, however the calls turn out. *)
Definition runs {A} (m : mig A) (d : FS) (Q : FS -> option A -> Prop) : Prop :=
  forall evs n, let '(w, r) := m {| fs := d; events := evs; ops := n |} in Q (fs w) r.

Section runs.
Context {A B : Type}.

Lemma mig_runs_ret (a : A) d (Q : FS -> option A -> Prop) : Q d (Some a) -> runs (mret a) d Q.
Proof. by intros H evs n. Qed.

Lemma mig_runs_mono (m : mig A) d (Q Q' : FS -> option A -> Prop) :
  runs m d Q -> (forall d' r, Q d' r -> Q' d' r) -> runs m d Q'.
Proof. intros H HQ evs n. specialize (H evs n). destruct (m _). auto. Qed.

Lemma mig_runs_bind (m : mig A) (f : A -> mig B) d (Q : FS -> option B -> Prop) :
  runs m d (fun d' r => match r with Some a => runs (f a) d' Q | None => Q d' None end) ->
  runs (m ≫= f) d Q.
Proof.
  intros H evs n. specialize (H evs n). unfold mbind, mig_bind.
  destruct (m _) as [[d' evs' n'] [a|]]; [apply H|done].
Qed.

Lemma runs_call (act : Event -> FS -> FS * result ErrorKind A) d Q :
  (forall ev, let '(d', r) := act ev d in Q d' (match fate ev with Die => None | _ => Some r end)) ->
  runs (call act) d Q.
Proof.
  intros H evs n. unfold call. simpl. specialize (H (default good (head evs))). by destruct (act _ _).
Qed.
End runs.

Lemma mig_runs_try {A B E F} (conv : E -> F) (m : mig (result E A)) (k : A -> mig (result F B)) d Q :
  runs m d (fun d' r => match r with
    | Some (Ok a) => runs (k a) d' Q
    | Some (Err e) => Q d' (Some (Err (conv e)))
    | None => Q d' None
    end) ->
  runs (try_mig conv m k) d Q.
Proof.
  intros H. apply mig_runs_bind. eapply mig_runs_mono; [exact H|]. intros d' [[a|e]|]; [done| |done]. by apply mig_runs_ret.
Qed.

(** A step that leaves the file system alone. *)
Definition quiet {A} (m : mig A) : Prop := forall d, runs m d (fun d' _ => d' = d).

Lemma quiet_reading {A} (f : FS -> result ErrorKind A) d :
  runs (reading f) d (fun d' r => d' = d /\ (forall a, r = Some (Ok a) -> f d = Ok a) /\
    (r = Some (Err NotFound) -> f d = Err NotFound)).
Proof.
  apply runs_call. intros ev. split; [done|].
  destruct (fate ev); (split; [by intros ? [= ->]|by intros [= ->]]) || done.
Qed.

(** A change happened or did not; if it is reported, it did. *)
Lemma runs_changing (f : FS -> result ErrorKind FS) d :
  runs (changing f) d (fun d' r =>
    match r with
    | Some (Ok _) => f d = Ok d'
    | _ => d' = d \/ f d = Ok d'
    end).
Proof.
  apply runs_call. intros ev. destruct (f d) as [d1|e].
  - unfold happens. destruct (fate ev); [done|by left|]. destruct (negb _); [by right|by left].
  - destruct (fate ev); by left.
Qed.

(** ** Lookups *)
Lemma fs_insert_eq (d : FS) p o : <[p := o]> d !! p = Some o.
Proof. apply (lookup_insert_eq (M := gmap path)). Qed.
Lemma fs_insert_ne (d : FS) p q o : p <> q -> <[p := o]> d !! q = d !! q.
Proof. apply (lookup_insert_ne (M := gmap path)). Qed.
Lemma fs_delete_eq (d : FS) p : delete p d !! p = None.
Proof. apply (lookup_delete_eq (M := gmap path)). Qed.
Lemma fs_delete_ne (d : FS) p q : p <> q -> delete p d !! q = d !! q.
Proof. apply (lookup_delete_ne (M := gmap path)). Qed.
Lemma fs_filter (d : FS) (f : path -> bool) b q :
  filter (fun kv => f kv.1 = b) d !! q = if bool_decide (f q = b) then d !! q else None.
Proof.
  destruct (d !! q) as [o|] eqn:E.
  - case_bool_decide as Hf.
    + by apply (map_lookup_filter_Some_2 (M := gmap path)).
    + apply (map_lookup_filter_None_2 (M := gmap path)). right. intros x Hx. simpl. congruence.
  - case_bool_decide; by apply (map_lookup_filter_None_2 (M := gmap path)); left.
Qed.

Lemma child_of_Some p q n : child_of p q = Some n <-> q = p ++ [n].
Proof.
  unfold child_of. split.
  - destruct (reverse q) as [|m r] eqn:E; [done|]. case_decide as Hp; [|done]. intros [= ->].
    apply (f_equal reverse) in E. rewrite reverse_involutive, reverse_cons in E. by subst.
  - intros ->. rewrite reverse_app. simpl. by rewrite decide_True by apply reverse_involutive.
Qed.

Lemma elem_of_children d p n : n ∈ children d p <-> is_Some (d !! (p ++ [n])).
Proof.
  unfold children. rewrite elem_of_elements. unfold names. rewrite elem_of_list_to_set, list_elem_of_omap. split.
  - intros ([q o] & Hq%elem_of_map_to_list & E). simpl in E. apply child_of_Some in E as ->. by exists o.
  - intros [o Ho]. exists (p ++ [n], o). split; [by apply elem_of_map_to_list|]. by apply child_of_Some.
Qed.

Lemma children_NoDup d p : NoDup (children d p).
Proof. apply NoDup_elements. Qed.

Lemma children_eq d d' p p' :
  (forall n, is_Some (d' !! (p' ++ [n])) <-> is_Some (d !! (p ++ [n]))) -> children d' p' = children d p.
Proof.
  intros H. unfold children. f_equal. apply leibniz_equiv. intros n.
  rewrite <- !elem_of_elements. fold (children d' p') (children d p). by rewrite !elem_of_children.
Qed.

Lemma children_nil d p : children d p = [] <-> forall n, d !! (p ++ [n]) = None.
Proof.
  split.
  - intros E n. apply eq_None_not_Some. rewrite <- elem_of_children, E. apply not_elem_of_nil.
  - intros H. apply elem_of_nil_inv. intros n. rewrite elem_of_children, H. by intros [? [=]].
Qed.

Lemma in_tree_app p t : in_tree p (p ++ t) = true.
Proof. apply bool_decide_eq_true. by exists t. Qed.

Lemma in_tree_refl p : in_tree p p = true.
Proof. by apply bool_decide_eq_true. Qed.

Lemma in_tree_Some p q : in_tree p q = true <-> exists t, q = p ++ t.
Proof. unfold in_tree. by rewrite bool_decide_eq_true. Qed.

(** Trees of different names do not meet. *)
Lemma in_tree_single a b t : in_tree [a] (b :: t) = bool_decide (a = b).
Proof.
  apply bool_decide_ext. split; [by intros [k [= ->]]|by intros ->; exists t].
Qed.

Lemma lookup_moved a b d q :
  moved a b d !! q =
    if in_tree b q then d !! (a ++ drop (length b) q) else if in_tree a q then None else d !! q.
Proof.
  unfold moved. set (l := omap _ _).
  assert (forall i x, (i, x) ∈ l <->
    if in_tree b i then d !! (a ++ drop (length b) i) = Some x else in_tree a i = false /\ d !! i = Some x) as Hl.
  { intros i x. unfold l. rewrite list_elem_of_omap. split.
    - intros ([k o] & Hk%elem_of_map_to_list & E). destruct (in_tree a k) eqn:Ea.
      + injection E as <- <-. apply in_tree_Some in Ea as [t ->]. rewrite in_tree_app, !drop_app_length. done.
      + destruct (in_tree b k) eqn:Eb; [done|]. injection E as <- <-. by rewrite Eb.
    - destruct (in_tree b i) eqn:Eb.
      + intros Hi. apply in_tree_Some in Eb as [t ->]. rewrite drop_app_length in Hi.
        exists (a ++ t, x). split; [by apply elem_of_map_to_list|]. by rewrite in_tree_app, drop_app_length.
      + intros [Ea Hi]. exists (i, x). split; [by apply elem_of_map_to_list|]. by rewrite Ea, Eb. }
  assert (forall i x, (i, x) ∈ l -> (list_to_map l : FS) !! i = Some x) as Hsome.
  { intros i x Hx. apply elem_of_list_to_map_1'; [|done]. intros y Hy.
    apply Hl in Hx, Hy. destruct (in_tree b i); [congruence|]. destruct Hx, Hy. congruence. }
  assert (forall i, (forall x, (i, x) ∉ l) -> (list_to_map l : FS) !! i = None) as Hnone.
  { intros i Hi. apply not_elem_of_list_to_map_1. intros (kv & -> & Hkv)%list_elem_of_fmap. destruct kv. by eapply Hi. }
  destruct (in_tree b q) eqn:Eb.
  - destruct (d !! (a ++ drop (length b) q)) as [x|] eqn:E.
    + apply Hsome, Hl. by rewrite Eb.
    + apply Hnone. intros x Hx%Hl. rewrite Eb in Hx. congruence.
  - destruct (in_tree a q) eqn:Ea.
    + apply Hnone. intros x Hx%Hl. rewrite Eb in Hx. destruct Hx. congruence.
    + destruct (d !! q) as [x|] eqn:E.
      * apply Hsome, Hl. by rewrite Eb.
      * apply Hnone. intros x Hx%Hl. rewrite Eb in Hx. destruct Hx. congruence.
Qed.

(** ** Well-formed trees *)
(** What is somewhere is in a directory; the root is not an object. *)
Record wf (d : FS) : Prop := {
  wf_parent : forall p n, is_Some (d !! (p ++ [n])) -> p = [] \/ d !! p = Some DirObj;
  wf_root : d !! [] = None
}.

Lemma wf_below d p t : wf d -> p <> [] -> t <> [] -> is_Some (d !! (p ++ t)) -> d !! p = Some DirObj.
Proof.
  intros Hd Hp. induction t as [|n t IH] using rev_ind; [done|]. intros _ Hs. rewrite app_assoc in Hs.
  destruct (wf_parent _ Hd _ _ Hs) as [E|E]; [by destruct p|].
  destruct t as [|m t]; [by rewrite app_nil_r in E|]. apply IH; [done|]. by rewrite E.
Qed.

Lemma wf_nothing_below d p t : wf d -> p <> [] -> d !! p <> Some DirObj -> t <> [] -> d !! (p ++ t) = None.
Proof. intros Hd Hp Hn Ht. apply eq_None_not_Some. intros Hs. by eapply Hn, wf_below. Qed.

Lemma wf_empty_below d p t : wf d -> children d p = [] -> t <> [] -> d !! (p ++ t) = None.
Proof.
  intros Hd Hc Ht. pose proof (proj1 (children_nil d p) Hc) as Hn. destruct t as [|n t]; [done|].
  destruct t as [|m t]; [by rewrite Hn|].
  change (n :: m :: t) with ([n] ++ m :: t). rewrite app_assoc. apply wf_nothing_below; [done|by destruct p|by rewrite Hn|done].
Qed.

Lemma parent_ok_snoc d p n : parent_ok d (p ++ [n]) = bool_decide (p = []) || bool_decide (d !! p = Some DirObj).
Proof.
  unfold parent_ok. rewrite reverse_app. simpl. destruct (reverse p) as [|m r] eqn:E.
  - apply (f_equal reverse) in E. rewrite reverse_involutive in E. subst.
    by rewrite bool_decide_eq_true_2.
  - rewrite <- E, reverse_involutive. rewrite (bool_decide_eq_false_2 (p = [])); [done|]. by intros ->.
Qed.

Lemma parent_ok_wf d p : wf d -> is_Some (d !! p) -> parent_ok d p = true.
Proof.
  intros Hd Hs. destruct p as [|n p _] using rev_ind; [rewrite (wf_root _ Hd) in Hs; by destruct Hs|].
  rewrite parent_ok_snoc. destruct (wf_parent _ Hd _ _ Hs) as [->| ->]; [done|].
  rewrite (bool_decide_eq_true_2 (Some DirObj = _)) by done. by rewrite orb_true_r.
Qed.

Lemma snoc_cases (p : path) : p = [] \/ exists q n, p = q ++ [n].
Proof. destruct p as [|n p _] using rev_ind; [by left|right; eauto]. Qed.

Lemma wf_insert d p o :
  wf d -> parent_ok d p = true -> (o = DirObj \/ d !! p <> Some DirObj) -> wf (<[p := o]> d).
Proof.
  intros Hd Hp Ho. split.
  - intros q n Hs. destruct (decide (p = q)) as [->|Hne]; [|destruct (decide (p = q ++ [n])) as [->|Hne']].
    + destruct (decide (q = [])) as [->|Hq]; [by left|]. right. rewrite fs_insert_eq.
      destruct Ho as [->|Ho]; [done|]. rewrite fs_insert_ne in Hs by (intros E; apply (f_equal length) in E; rewrite length_app in E; simpl in E; lia).
      rewrite wf_nothing_below in Hs by done. by destruct Hs.
    + rewrite parent_ok_snoc in Hp. apply orb_true_iff in Hp as [->%bool_decide_eq_true|Hp%bool_decide_eq_true]; [by left|].
      right. by rewrite fs_insert_ne.
    + rewrite fs_insert_ne in Hs by done. destruct (wf_parent _ Hd _ _ Hs) as [?|E]; [by left|right].
      by rewrite fs_insert_ne.
  - destruct (snoc_cases p) as [->|(q & n & ->)]; [done|]. rewrite fs_insert_ne by (by destruct q). apply wf_root, Hd.
Qed.

(** Removing anything along with what is below it. *)
Lemma wf_remove d d' :
  wf d -> (forall q, d' !! q = d !! q \/ d' !! q = None) ->
  (forall p n, d !! p = Some DirObj -> d' !! p = None -> d' !! (p ++ [n]) = None) -> wf d'.
Proof.
  intros Hd Hsub Hclosed. split.
  - intros p n Hs. destruct (Hsub (p ++ [n])) as [E|E]; [|rewrite E in Hs; by destruct Hs].
    destruct (decide (p = [])) as [->|Hp]; [by left|]. rewrite E in Hs.
    destruct (wf_parent _ Hd _ _ Hs) as [?|Ep]; [done|]. right. destruct (Hsub p) as [E'|E']; [by rewrite E'|].
    pose proof (Hclosed p n Ep E') as Hn. rewrite Hn in E. rewrite <- E in Hs. by destruct Hs.
  - destruct (Hsub []) as [->|]; [apply wf_root, Hd|done].
Qed.

Lemma wf_moved a b d :
  wf d -> a <> [] -> b <> [] -> d !! a = Some DirObj -> parent_ok d b = true -> in_tree a b = false ->
  wf (moved a b d).
Proof.
  intros Hd Ha Hb Hda Hpb Hab. split.
  - intros p n. rewrite !lookup_moved. destruct (in_tree b p) eqn:Ebp.
    + apply in_tree_Some in Ebp as [t ->]. rewrite <- app_assoc, in_tree_app, !drop_app_length, app_assoc. intros Hs. right.
      destruct (wf_parent _ Hd _ _ Hs) as [E|E]; [by destruct a|done].
    + destruct (in_tree b (p ++ [n])) eqn:Ebn.
      * intros _. apply in_tree_Some in Ebn as [t Et]. destruct (snoc_cases t) as [->|(t' & m & ->)].
        -- rewrite app_nil_r in Et. subst b. rewrite parent_ok_snoc in Hpb.
           apply orb_true_iff in Hpb as [->%bool_decide_eq_true|Hpb%bool_decide_eq_true]; [by left|]. right.
           destruct (in_tree a p) eqn:Eap; [|done]. apply in_tree_Some in Eap as [t ->].
           rewrite <- app_assoc, in_tree_app in Hab. done.
        -- rewrite app_assoc in Et. apply app_inj_tail in Et as [-> ->]. by rewrite in_tree_app in Ebp.
      * destruct (in_tree a (p ++ [n])) eqn:Ean; [by intros [? [=]]|]. intros Hs.
        destruct (wf_parent _ Hd _ _ Hs) as [?|E]; [by left|]. right.
        destruct (in_tree a p) eqn:Eap; [|done]. apply in_tree_Some in Eap as [t ->].
        by rewrite <- app_assoc, in_tree_app in Ean.
  - rewrite lookup_moved. unfold in_tree. rewrite !bool_decide_eq_false_2; [apply wf_root, Hd|..];
      intros [t E]; [by destruct a|by destruct b].
Qed.

(** ** Changes inside one tree *)
Section within.
Context (s : path) (Hs0 : s <> []).
Implicit Types (d : FS) (p : path).

Definition within d d' : Prop := wf d' /\ forall q, in_tree s q = false -> d' !! q = d !! q.

Lemma within_refl d : wf d -> within d d.
Proof. by split. Qed.

Lemma within_trans d1 d2 d3 : within d1 d2 -> within d2 d3 -> within d1 d3.
Proof. intros [_ H1] [W H2]. split; [done|]. intros q Hq. by rewrite H2, H1. Qed.

Lemma within_insert d p o :
  wf d -> in_tree s p = true -> parent_ok d p = true -> (o = DirObj \/ d !! p <> Some DirObj) ->
  within d (<[p := o]> d).
Proof.
  intros Hd Hp Hpo Ho. split; [by apply wf_insert|]. intros q Hq. apply fs_insert_ne. intros ->. congruence.
Qed.

Lemma runs_create_dir d p :
  wf d -> in_tree s p = true ->
  runs (create_dir p) d (fun d' r => within d d' /\ (r = Some (Ok tt) -> d' = <[p := DirObj]> d)).
Proof.
  intros Hd Hp. eapply mig_runs_mono; [apply runs_changing|]. intros d' r. simpl.
  assert ((if parent_ok d p && bool_decide (d !! p = None) then Ok (<[p := DirObj]> d) else Err Failure) = Ok d' ->
    within d d' /\ d' = <[p := DirObj]> d) as Hc.
  { destruct (parent_ok d p) eqn:Hpo; [|done]. case_bool_decide as Hn; [|done]. intros [= <-].
    split; [|done]. apply within_insert; try done. by left. }
  pose proof (within_refl d Hd) as Hr. destruct r as [[[]|e]|].
  - intros E. destruct (Hc E). by split.
  - intros [->|E]; [by split|]. destruct (Hc E). by split.
  - intros [->|E]; [by split|]. destruct (Hc E). by split.
Qed.

Lemma runs_create_file d p :
  wf d -> in_tree s p = true ->
  runs (create_file p) d (fun d' r => within d d' /\ (r = Some (Ok tt) -> d' = <[p := FileObj []]> d)).
Proof.
  intros Hd Hp. eapply mig_runs_mono; [apply runs_changing|]. intros d' r. simpl.
  assert ((if parent_ok d p && negb (bool_decide (d !! p = Some DirObj)) then Ok (<[p := FileObj []]> d) else Err Failure) = Ok d' ->
    within d d' /\ d' = <[p := FileObj []]> d) as Hc.
  { destruct (parent_ok d p) eqn:Hpo; [|done]. case_bool_decide as Hn; [done|]. intros [= <-].
    split; [|done]. apply within_insert; try done. by right. }
  pose proof (within_refl d Hd) as Hr. destruct r as [[[]|e]|].
  - intros E. destruct (Hc E). by split.
  - intros [->|E]; [by split|]. destruct (Hc E). by split.
  - intros [->|E]; [by split|]. destruct (Hc E). by split.
Qed.

Lemma content_Some d p c : content d p = Ok c <-> d !! p = Some (FileObj c).
Proof.
  unfold content, lookup_obj. destruct (d !! p) as [[]|]; simpl; split; try done; [by intros [= ->]|by intros [= ->]].
Qed.

Lemma runs_write_all d p c old :
  wf d -> in_tree s p = true -> d !! p = Some (FileObj old) ->
  runs (write_all p c) d (fun d' r => within d d' /\ (r = Some (Ok tt) -> d' = <[p := FileObj (old ++ c)]> d)).
Proof.
  intros Hd Hp Ho. apply runs_call. intros ev. rewrite (proj2 (content_Some d p old)) by done. cbv zeta. split.
  - apply within_insert; [done..|apply parent_ok_wf; [done|by eexists]|right; congruence].
  - by destruct (fate ev).
Qed.

Lemma runs_touch d p : runs (touch p) d (fun d' _ => d' = d).
Proof. eapply mig_runs_mono; [apply quiet_reading|]. by intros d' r (-> & _). Qed.

Section hook.
Context (hook : option (Z -> bool)).

Lemma runs_tick d : runs (tick hook) d (fun d' _ => d' = d).
Proof. by intros evs n. Qed.

Lemma runs_io {A} op p (m : mig (result ErrorKind A)) d Q :
  runs m d (fun d' r => Q d' (match r with Some (Ok a) => Some (Ok a) | Some (Err e) => Some (Err (Io op p e)) | None => None end)) ->
  runs (io op p m) d Q.
Proof.
  intros H. apply mig_runs_try. eapply mig_runs_mono; [exact H|]. intros d' [[a|e]|]; [|done..]. intros. by apply mig_runs_ret.
Qed.

(** One file written in full, or something inside the tree changed. *)
Definition wrote {A} (p : path) (c : list byte) d d' (r : option (result MigrateError A)) : Prop :=
  within d d' /\ ((exists a, r = Some (Ok a)) -> d' !! p = Some (FileObj c) /\ forall q, q <> p -> d' !! q = d !! q).

Lemma runs_create_write {A} (conv1 conv2 : ErrorKind -> MigrateError) (k : mig (result MigrateError A)) d p c :
  wf d -> in_tree s p = true ->
  (forall d', runs k d' (fun d'' _ => d'' = d')) ->
  runs (try_mig conv1 (create_file p) (fun _ => try_mig conv2 (write_all p c) (fun _ => k))) d (wrote p c d).
Proof.
  intros Hd Hp Hk. apply mig_runs_try. eapply mig_runs_mono; [by apply runs_create_file|].
  intros d1 [[[]|e]|] [H1 E1]; [|split; [done|by intros [? [=]]]..]. specialize (E1 eq_refl).
  assert (d1 !! p = Some (FileObj [])) as Hp1 by (rewrite E1; apply fs_insert_eq).
  apply mig_runs_try. eapply mig_runs_mono; [apply (runs_write_all d1 p c []); [apply H1|done..]|].
  intros d2 [[[]|e]|] [H2 E2]; [|split; [by eapply within_trans|by intros [? [=]]]..]. specialize (E2 eq_refl).
  eapply mig_runs_mono; [apply Hk|]. intros d3 r ->. split; [by eapply within_trans|]. intros _.
  rewrite E2, fs_insert_eq. split; [done|]. intros q Hq. rewrite fs_insert_ne, E1, fs_insert_ne by done. done.
Qed.

Lemma runs_copy_file d from p :
  wf d -> in_tree s p = true ->
  runs (copy_file hook from p) d (fun d' r => within d d' /\
    (r = Some (Ok tt) -> exists c, d !! from = Some (FileObj c) /\ d' !! p = Some (FileObj c) /\
       forall q, q <> p -> d' !! q = d !! q)).
Proof.
  intros Hd Hp. pose proof (within_refl d Hd) as Hr. apply mig_runs_try. eapply mig_runs_mono; [apply runs_tick|].
  intros d' [[[]|e]|] ->; [|done..]. apply mig_runs_try. eapply mig_runs_mono; [apply quiet_reading|].
  intros d' [[c|e]|] (-> & Hc & _); [|done..]. specialize (Hc c eq_refl). apply content_Some in Hc.
  eapply mig_runs_mono; [apply (runs_create_write _ _ _ d p c); [done..|]|].
  - intros d1. apply mig_runs_try. eapply mig_runs_mono; [apply runs_touch|]. intros d2 [[[]|e]|] ->; [|done..].
    apply mig_runs_try. eapply mig_runs_mono; [apply runs_touch|]. intros d2 [[[]|e]|] ->; [|done..].
    apply runs_io. eapply mig_runs_mono; [apply runs_touch|]. done.
  - intros d1 r [H1 H2]. split; [done|]. intros ->. exists c. split; [done|]. by apply H2; exists tt.
Qed.

Lemma runs_write_marker d p text :
  wf d -> in_tree s p = true ->
  runs (write_marker hook p text) d (wrote p text d).
Proof.
  intros Hd Hp. pose proof (within_refl d Hd) as Hr. apply mig_runs_try. eapply mig_runs_mono; [apply runs_tick|].
  intros d' [[[]|e]|] ->; [|split; [done|by intros [? [=]]]..].
  apply runs_create_write; [done..|]. intros d1. apply runs_io. eapply mig_runs_mono; [apply runs_touch|]. done.
Qed.

Lemma runs_make_dir d from p :
  wf d -> in_tree s p = true ->
  runs (make_dir hook from p) d (fun d' r => within d d' /\ (r = Some (Ok tt) -> d' = <[p := DirObj]> d)).
Proof.
  intros Hd Hp. pose proof (within_refl d Hd) as Hr. apply mig_runs_try. eapply mig_runs_mono; [apply runs_tick|].
  intros d' [[[]|e]|] ->; [|done..]. apply mig_runs_try. eapply mig_runs_mono; [by apply runs_create_dir|].
  intros d1 [[[]|e]|] [H1 E1]; [|done..]. cbv zeta. specialize (E1 eq_refl).
  apply mig_runs_try. eapply mig_runs_mono; [apply runs_touch|]. intros d2 [[[]|e]|] ->; [|done..].
  apply runs_io. eapply mig_runs_mono; [apply runs_touch|]. by intros d2 r ->.
Qed.

(** *** Removing the tree *)
Lemma left_over_outside f p q : in_tree p q = false -> left_over f p q = true.
Proof. unfold left_over. by intros ->. Qed.

Lemma left_over_parent f q n : left_over f s (q ++ [n]) = true -> left_over f s q = true.
Proof.
  unfold left_over. destruct (in_tree s q) eqn:Hq; [|done]. apply in_tree_Some in Hq as [t ->].
  rewrite <- app_assoc, in_tree_app. simpl. rewrite !forallb_forall. intros H k Hk.
  assert (take k (s ++ t ++ [n]) = take k (s ++ t)) as <-.
  { rewrite app_assoc. apply take_app_le. apply in_seq in Hk. lia. }
  apply H. rewrite in_seq in *. rewrite !length_app in *. simpl. lia.
Qed.

Lemma runs_remove_dir_all d :
  wf d ->
  runs (remove_dir_all s) d (fun d' r => within d d' /\ (r = Some (Ok tt) -> forall t, d' !! (s ++ t) = None)).
Proof.
  intros Hd. pose proof (within_refl d Hd) as Hr. apply runs_call. intros ev. destruct (d !! s) as [[]|] eqn:E.
  all: try (destruct (fate ev); split; done).
  assert (forall f, (forall q, in_tree s q = false -> f q = true) ->
    (forall q n, f (q ++ [n]) = true -> f q = true) -> within d (filter (fun kv => f kv.1 = true) d)) as Hw.
  { intros f H1 H2. split.
    - apply (wf_remove d); [done|intros q; rewrite fs_filter; case_bool_decide; auto|].
      intros p n Hp. rewrite !fs_filter. case_bool_decide as Hf; [congruence|]. intros _.
      rewrite bool_decide_eq_false_2; [done|]. by intros ?%H2.
    - intros q Hq. rewrite fs_filter, bool_decide_eq_true_2; [done|auto]. }
  assert (within d (filter (fun kv => left_over (survives ev) s kv.1 = true) d)) as Hl
    by (apply Hw; [intros q; apply left_over_outside|intros q n; apply left_over_parent]).
  destruct (fate ev); [|split; done..]. split.
  - assert (filter (fun q : path * obj => in_tree s q.1 = false) d = filter (fun kv => negb (in_tree s kv.1) = true) d) as ->.
    { apply (map_filter_ext (M := gmap path)). intros i x _. simpl. by destruct (in_tree s i). }
    apply (Hw (fun q => negb (in_tree s q))); [by intros q ->|].
    intros q n. rewrite !negb_true_iff. intros Hn. destruct (in_tree s q) eqn:Hq; [|done].
    apply in_tree_Some in Hq as [t ->]. by rewrite <- app_assoc, in_tree_app in Hn.
  - intros _ t. rewrite fs_filter, in_tree_app. done.
Qed.

Lemma runs_remove_tree d :
  wf d ->
  runs (remove_tree hook s) d (fun d' r => within d d' /\ (r = Some (Ok tt) -> forall t, d' !! (s ++ t) = None)).
Proof.
  intros Hd. pose proof (within_refl d Hd) as Hr. apply mig_runs_bind. eapply mig_runs_mono; [apply quiet_reading|].
  intros d' [[o|e]|] (-> & Ho & Hnf); [| |done].
  - apply mig_runs_try. eapply mig_runs_mono; [apply runs_tick|]. intros d' [[[]|e]|] ->; [|done..].
    assert (o = DirObj \/ o <> DirObj) as [->|Hne] by (destruct o; auto).
    + apply runs_io. eapply mig_runs_mono; [by apply runs_remove_dir_all|].
      intros d1 [[[]|e]|] [H1 E1]; split; try done. intros _. by apply E1.
    + specialize (Ho o eq_refl). unfold lookup_obj in Ho. destruct (d !! s) as [o'|] eqn:E; [|done]. injection Ho as ->.
      assert (within d (delete s d) /\ forall t, delete s d !! (s ++ t) = None) as [Hw Hgone].
      { assert (forall t, delete s d !! (s ++ t) = None) as Hg.
        { intros t. destruct t as [|n t]; [rewrite app_nil_r; apply fs_delete_eq|].
          rewrite fs_delete_ne; [|intros Es; apply (f_equal length) in Es; rewrite length_app in Es; simpl in Es; lia].
          apply wf_nothing_below; [done..|congruence|done]. }
        split; [|done]. split.
        - apply (wf_remove d); [done| |].
          + intros q. destruct (decide (s = q)) as [->|Hn]; [right; apply fs_delete_eq|left; by apply fs_delete_ne].
          + intros p n Hp Hdel. destruct (decide (s = p)) as [->|Hn]; [congruence|]. rewrite fs_delete_ne in Hdel by done. congruence.
        - intros q Hq. apply fs_delete_ne. intros <-. by rewrite in_tree_refl in Hq. }
      assert (match o with DirObj => io "remove" s (remove_dir_all s) | _ => io "remove" s (remove_file s) end
        = io "remove" s (remove_file s)) as -> by (by destruct o).
      apply runs_io. eapply mig_runs_mono; [apply runs_changing|]. intros d1 r. unfold lookup_obj. rewrite E. simpl.
      assert ((match o with DirObj => Err Failure | _ => Ok (delete s d) end : result ErrorKind FS) = Ok (delete s d)) as ->
        by (by destruct o).
      destruct r as [[[]|e]|]; [intros [= <-]; by split|intros [->|[= <-]]; (split; [done|intros [=]])..].
  - destruct e; apply mig_runs_ret; (split; [done|]); [|by intros [=]]. intros _ t.
    specialize (Hnf eq_refl). unfold lookup_obj in Hnf. destruct (d !! s) eqn:E; [done|].
    destruct t as [|n t]; [by rewrite app_nil_r|]. apply wf_nothing_below; [done..|congruence|done].
Qed.
End hook.
End within.

(** * The manifest of a tree

    A scan that succeeds lists every object of the tree once, under the path its
    name spells, and every object is a file or a directory of a safe name. *)
(** ** Relative paths *)
Definition rel_path (q : path) : list byte := join_with SLASH q.

Definition comp_good (c : list byte) : Prop := component_ok c = true /\ (SLASH ∉ c) /\ is_utf8 c = true.

Lemma comp_good_ne c : comp_good c -> c <> [].
Proof. intros [Hc _] ->. by vm_compute in Hc. Qed.

Lemma comp_good_name c :
  is_utf8 c = true -> negb (rel_is_safe c) || bool_decide (SLASH ∈ c) = false -> comp_good c.
Proof.
  intros Hu [Hr%negb_false_iff Hs%bool_decide_eq_false]%orb_false_iff. unfold rel_is_safe in Hr.
  apply andb_true_iff in Hr as [_ Hr]. rewrite split_on_single in Hr by done. simpl in Hr.
  rewrite andb_true_r in Hr. by split_and!.
Qed.

Lemma split_rel q : q <> [] -> Forall comp_good q -> split_on SLASH (rel_path q) = q.
Proof. intros Hq Hg. apply split_join; [done|]. eapply Forall_impl; [exact Hg|]. by intros c (_ & ? & _). Qed.

Lemma rel_path_inj p q :
  p <> [] -> q <> [] -> Forall comp_good p -> Forall comp_good q -> rel_path p = rel_path q -> p = q.
Proof. intros Hp Hq Gp Gq E. by rewrite <- (split_rel p), <- (split_rel q), E. Qed.

Lemma rel_path_nil cs : Forall comp_good cs -> rel_path cs = [] <-> cs = [].
Proof.
  intros Hg. split; [|by intros ->]. destruct cs as [|c cs]; [done|]. intros E. exfalso.
  apply Forall_cons in Hg as [Hc _]. eapply (join_nonempty SLASH (c :: cs) c); [by left|by apply comp_good_ne|exact E].
Qed.

Lemma rel_path_snoc cs n :
  Forall comp_good cs ->
  (if bool_decide (rel_path cs = []) then n else rel_path cs ++ SLASH :: n) = rel_path (cs ++ [n]).
Proof.
  intros Hg. case_bool_decide as E.
  - apply (rel_path_nil cs Hg) in E as ->. done.
  - unfold rel_path. rewrite join_snoc; [done|]. by intros ->.
Qed.

Lemma rel_path_ok q : q <> [] -> Forall comp_good q -> rel_is_safe (rel_path q) = true /\ is_utf8 (rel_path q) = true.
Proof.
  intros Hq Hg. split.
  - unfold rel_is_safe. rewrite split_rel by done. rewrite bool_decide_eq_false_2 by (by rewrite rel_path_nil).
    simpl. apply forallb_forall. intros c Hc%list_elem_of_In. by apply (proj1 (Forall_forall _ _) Hg c Hc).
  - induction q as [|c q IH]; [done|]. apply Forall_cons in Hg as [(_ & _ & Hu) Hg].
    destruct q as [|c' q]; [done|]. change (rel_path (c :: c' :: q)) with (c ++ ([SLASH] ++ rel_path (c' :: q))).
    apply is_utf8_app; [done|]. apply is_utf8_app; [done|]. by apply IH.
Qed.

(** The entry an object gets. *)
Definition entry_for (q : path) (o : obj) : option Entry :=
  match o with
  | DirObj => Some (mkEntry (rel_path q) KDir)
  | FileObj c => Some (mkEntry (rel_path q) (file_kind c))
  | LinkObj | OtherObj => None
  end.

Lemma entry_for_rel q o e : entry_for q o = Some e -> rel e = rel_path q.
Proof. destruct o; simpl; try done; by intros [= <-]. Qed.

(** ** What a scan lists *)
Section scan.
Context (d : FS) (Hd : wf d) (root : path) (top : bool).

(** [l] lists what is below [cs], under the names [ns]. *)
Record listing (cs : path) (ns : list (list byte)) (l : list Entry) : Prop := {
  ls_elem : forall e, e ∈ l <-> exists n t o, n ∈ ns /\ d !! (root ++ cs ++ n :: t) = Some o /\ entry_for (cs ++ n :: t) o = Some e;
  ls_good : forall n t o, n ∈ ns -> d !! (root ++ cs ++ n :: t) = Some o ->
    is_Some (entry_for (cs ++ n :: t) o) /\ Forall comp_good (cs ++ n :: t);
  ls_nodup : NoDup (map rel l)
}.

Lemma listing_nil cs : listing cs [] [].
Proof.
  split; [|by intros n t o ?%elem_of_nil|constructor].
  intros e. split; [by intros ?%elem_of_nil|]. by intros (n & t & o & ?%elem_of_nil & _).
Qed.

Lemma listing_app cs n ns l l' :
  n ∉ ns -> listing cs [n] l -> listing cs ns l' -> listing cs (n :: ns) (l ++ l').
Proof.
  intros Hn [L1 L2 L3] [M1 M2 M3]. split.
  - intros e. rewrite elem_of_app, L1, M1. split.
    + intros [(m & t & o & ->%list_elem_of_singleton & H)|(m & t & o & Hm & H)]; eexists _, t, o; (split; [|exact H]);
        rewrite elem_of_cons; auto.
    + intros (m & t & o & [->|Hm]%elem_of_cons & H); [left|right]; eexists _, t, o; (split; [|exact H]); [|done].
      by apply list_elem_of_singleton.
  - intros m t o [->|Hm]%elem_of_cons; [apply L2; by apply list_elem_of_singleton|by apply M2].
  - rewrite map_app. apply NoDup_app. split_and!; [done| |done].
    intros r (e & -> & He)%list_elem_of_fmap (e' & Er & He')%list_elem_of_fmap.
    apply L1 in He as (m & t & o & ->%list_elem_of_singleton & Ho & Ee).
    apply M1 in He' as (m' & t' & o' & Hm' & Ho' & Ee').
    apply entry_for_rel in Ee, Ee'. rewrite Ee, Ee' in Er.
    apply rel_path_inj in Er; [|by destruct cs..|by apply (L2 _ _ _ ltac:(by apply list_elem_of_singleton) Ho)|by apply (M2 _ _ _ Hm' Ho')].
    apply app_inv_head in Er. injection Er as <- _. done.
Qed.

(** A whole directory below a name. *)
Lemma listing_dir cs n l :
  Forall comp_good (cs ++ [n]) -> d !! (root ++ cs ++ [n]) = Some DirObj ->
  listing (cs ++ [n]) (children d (root ++ cs ++ [n])) l ->
  listing cs [n] (mkEntry (rel_path (cs ++ [n])) KDir :: l).
Proof.
  intros Hg Hn [L1 L2 L3].
  assert (forall m t o, d !! (root ++ cs ++ n :: m :: t) = Some o -> m ∈ children d (root ++ cs ++ [n])) as Hin.
  { intros m t o Ho. apply elem_of_children. destruct t as [|k t].
    - exists o. by rewrite <- !app_assoc.
    - exists DirObj. apply (wf_below d _ (k :: t)); [done| |done|].
      + intros E%(f_equal length). rewrite !length_app in E. simpl in E. lia.
      + exists o. by rewrite <- !app_assoc. }
  assert (forall m t, (cs ++ [n]) ++ m :: t = cs ++ n :: m :: t) as Ha by (intros; by rewrite <- app_assoc).
  split.
  - intros e. rewrite elem_of_cons, L1. split.
    + intros [->|(m & t & o & Hm & Ho & Ee)].
      * exists n, [], DirObj. split_and!; [by apply list_elem_of_singleton|done|done].
      * exists n, (m :: t), o. rewrite Ha in Ho, Ee. split_and!; [by apply list_elem_of_singleton|done|done].
    + intros (m & t & o & ->%list_elem_of_singleton & Ho & Ee). destruct t as [|k t].
      * left. rewrite Hn in Ho. injection Ho as <-. by injection Ee as <-.
      * right. exists k, t, o. rewrite Ha. split_and!; [by eapply Hin|done|done].
  - intros m t o ->%list_elem_of_singleton Ho. destruct t as [|k t].
    + rewrite Hn in Ho. injection Ho as <-. by split; [eexists|].
    + destruct (L2 k t o) as [G1 G2]; [by eapply Hin|by rewrite Ha|]. by rewrite Ha in G1, G2.
  - simpl. constructor; [|done]. intros (e & Er & He)%list_elem_of_fmap.
    apply L1 in He as (m & t & o & Hm & Ho & Ee). pose proof (entry_for_rel _ _ _ Ee) as Er'. rewrite Er' in Er.
    apply rel_path_inj in Er; [|by destruct cs|by destruct cs|done|by apply (L2 m t o)].
    rewrite Ha in Er. apply app_inv_head in Er. discriminate Er.
Qed.

Lemma listing_file cs n c :
  Forall comp_good (cs ++ [n]) -> d !! (root ++ cs ++ [n]) = Some (FileObj c) ->
  listing cs [n] [mkEntry (rel_path (cs ++ [n])) (file_kind c)].
Proof.
  intros Hg Hn.
  assert (forall t o, d !! (root ++ cs ++ n :: t) = Some o -> t = [] /\ o = FileObj c) as Hone.
  { intros t o Ho. destruct t as [|k t]; [split; congruence|]. exfalso.
    assert (d !! ((root ++ cs ++ [n]) ++ k :: t) = None) as E; [|rewrite <- !app_assoc in E; simpl in E; congruence].
    apply wf_nothing_below; [done| |congruence|done]. intros E%(f_equal length). rewrite !length_app in E. simpl in E. lia. }
  split.
  - intros e. rewrite list_elem_of_singleton. split.
    + intros ->. exists n, [], (FileObj c). split_and!; [by apply list_elem_of_singleton|done|done].
    + intros (m & t & o & ->%list_elem_of_singleton & Ho & Ee). destruct (Hone t o Ho) as [-> ->]. by injection Ee as <-.
  - intros m t o ->%list_elem_of_singleton Ho. destruct (Hone t o Ho) as [-> ->]. by split; [eexists|].
  - simpl. apply NoDup_singleton.
Qed.

(** No marker at the top. *)
Definition no_marker (cs : path) (depth : nat) (ns : list (list byte)) : Prop :=
  top = true -> depth = 0%nat -> MARKER_NAME ∉ ns.

Lemma scan_into_spec fuel cs depth out out' :
  Forall comp_good cs ->
  scan_into fuel d (root ++ cs) (rel_path cs) depth top out = Ok out' ->
  exists l, out' = out ++ l /\ listing cs (children d (root ++ cs)) l /\
    no_marker cs depth (children d (root ++ cs)) /\ (l = [] \/ (length out' <= MAX_ENTRIES)%nat).
Proof.
  revert cs depth out out'. induction fuel as [|fuel IH]; intros cs depth out out' Hg; [done|]. cbn [scan_into].
  destruct (MAX_DEPTH <? depth)%nat; [done|]. case_bool_decide as Hdir; [|done]. cbn [negb].
  pose proof (children_NoDup d (root ++ cs)) as Hnd.
  assert (forall n, n ∈ children d (root ++ cs) -> is_Some (d !! (root ++ cs ++ [n]))) as Hch.
  { intros n Hn%elem_of_children. by rewrite <- app_assoc in Hn. }
  revert out Hnd Hch. generalize (children d (root ++ cs)) as ns. induction ns as [|n ns IHns]; intros out Hnd Hch.
  { intros [= <-]. exists []. rewrite app_nil_r. split_and!; [done|apply listing_nil| |by left].
    intros _ _. apply not_elem_of_nil. }
  apply NoDup_cons in Hnd as [Hn Hnd]. cbn [fold_res]. cbv zeta. intros (out1 & E1 & E)%bind_Ok.
  destruct (IHns out1 Hnd (fun m Hm => Hch m (proj2 (elem_of_cons _ _ _) (or_intror Hm))) E) as (l' & -> & Hl' & Hm' & Hlen').
  destruct (is_utf8 n) eqn:Hu; [|done]. cbn [negb] in E1.
  destruct (negb (rel_is_safe n) || bool_decide (SLASH ∈ n)) eqn:Hs; [done|].
  pose proof (comp_good_name n Hu Hs) as Hng.
  assert (Forall comp_good (cs ++ [n])) as Hgn by (apply Forall_app; split; [done|by apply Forall_singleton]).
  destruct (top && (depth =? 0)%nat && bool_decide (n = MARKER_NAME)) eqn:Hmk; [done|].
  rewrite rel_path_snoc in E1 by done.
  destruct (MAX_ENTRIES <=? length out)%nat eqn:Hmax; [done|]. apply Nat.leb_gt in Hmax.
  assert (exists l, out1 = out ++ l /\ listing cs [n] l /\ (length out1 <= MAX_ENTRIES)%nat) as (l & -> & Hl & Hlen).
  { rewrite <- app_assoc in E1. destruct (d !! (root ++ cs ++ [n])) as [[c| | |]|] eqn:Ho; try done.
    - injection E1 as <-. exists [mkEntry (rel_path (cs ++ [n])) (file_kind c)]. split_and!; [done|by apply listing_file|].
      rewrite length_app. simpl. lia.
    - apply IH in E1 as (l & -> & Hl & _ & Hlen1); [|done].
      exists (mkEntry (rel_path (cs ++ [n])) KDir :: l). rewrite <- app_assoc. split_and!; [done|by apply listing_dir|].
      destruct Hlen1 as [->|Hlen1]; [|by rewrite <- app_assoc in Hlen1]. rewrite length_app. simpl. lia. }
  exists (l ++ l'). rewrite app_assoc. split_and!; [done|by apply listing_app| |].
  - intros Ht Hdep. apply not_elem_of_cons. split; [|by apply Hm'].
    intros <-. rewrite Ht, Hdep in Hmk. by rewrite bool_decide_eq_true_2 in Hmk.
  - right. destruct Hlen' as [->|Hlen']; [by rewrite app_nil_r|done].
Qed.
End scan.

(** ** Sorting *)
Definition rel_le (a b : Entry) : Prop := cmp (rel a) (rel b) <> Gt.

Lemma rel_le_trans a b c : rel_le a b -> rel_le b c -> rel_le a c.
Proof.
  unfold rel_le. intros H1 H2. destruct (cmp (rel a) (rel b)) eqn:E1; [| |congruence].
  - apply cmp_eq in E1. by rewrite E1.
  - destruct (cmp (rel b) (rel c)) eqn:E2; [| |congruence].
    + apply cmp_eq in E2. rewrite <- E2, E1. done.
    + by rewrite (cmp_trans _ _ _ E1 E2).
Qed.

Lemma insert_entry_perm e l : insert_entry e l ≡ₚ e :: l.
Proof.
  induction l as [|x l IH]; cbn [insert_entry]; [done|]. destruct (cmp (rel e) (rel x)); [reflexivity..|]. rewrite IH. constructor.
Qed.

Lemma sort_by_rel_perm l : sort_by_rel l ≡ₚ l.
Proof. induction l as [|x l IH]; simpl; [done|]. by rewrite insert_entry_perm, IH. Qed.

Lemma insert_entry_sorted e l : StronglySorted rel_le l -> StronglySorted rel_le (insert_entry e l).
Proof.
  induction l as [|x l IH]; cbn [insert_entry]; [by repeat constructor|]. intros [Hl Hx]%StronglySorted_inv.
  destruct (cmp (rel e) (rel x)) eqn:E.
  1, 2: assert (rel_le e x) as He by (unfold rel_le; by rewrite E);
    constructor; [by constructor|]; constructor; [done|]; eapply Forall_impl; [exact Hx|];
    intros y Hy; by eapply rel_le_trans.
  constructor; [by apply IH|]. rewrite insert_entry_perm. constructor; [|done].
  unfold rel_le. rewrite cmp_antisym, E. done.
Qed.

Lemma sort_by_rel_sorted l : StronglySorted rel_le (sort_by_rel l).
Proof. induction l as [|x l IH]; simpl; [constructor|by apply insert_entry_sorted]. Qed.

(** ** The manifest *)
Record manifest_of (d : FS) (root : path) (m : list Entry) : Prop := {
  mf_elem : forall e, e ∈ m <-> exists q o, q <> [] /\ d !! (root ++ q) = Some o /\ entry_for q o = Some e;
  mf_good : forall q o, q <> [] -> d !! (root ++ q) = Some o -> is_Some (entry_for q o) /\ Forall comp_good q;
  mf_nodup : NoDup (map rel m);
  mf_sorted : StronglySorted rel_le m;
  mf_len : (length m <= MAX_ENTRIES)%nat;
  mf_marker : d !! (root ++ [MARKER_NAME]) = None
}.

Lemma scan_tree_spec d root m : wf d -> root <> [] -> scan_tree d root true = Ok m -> manifest_of d root m.
Proof.
  intros Hd Hr. unfold scan_tree. intros (out & E & [= <-])%bind_Ok.
  change (@nil byte) with (rel_path []) in E. rewrite <- (app_nil_r root) in E.
  apply (scan_into_spec d Hd root true) in E as (l & -> & [L1 L2 L3] & Hm & Hlen); [|constructor].
  rewrite app_nil_r in *. cbn [app] in *.
  assert (forall q o, q <> [] -> d !! (root ++ q) = Some o -> exists n t, q = n :: t /\ n ∈ children d root) as Hq.
  { intros q o Hne Ho. destruct q as [|n t]; [done|]. exists n, t. split; [done|]. apply elem_of_children.
    destruct t as [|k t]; [by exists o|]. exists DirObj. apply (wf_below d _ (k :: t)); [done|by destruct root|done|].
    exists o. by rewrite <- app_assoc. }
  split.
  - intros e. rewrite sort_by_rel_perm, L1. split.
    + intros (n & t & o & _ & Ho & Ee). exists (n :: t), o. by split_and!.
    + intros (q & o & Hne & Ho & Ee). destruct (Hq q o Hne Ho) as (n & t & -> & Hn). by exists n, t, o.
  - intros q o Hne Ho. destruct (Hq q o Hne Ho) as (n & t & -> & Hn). by apply (L2 n t o).
  - by rewrite sort_by_rel_perm.
  - apply sort_by_rel_sorted.
  - rewrite sort_by_rel_perm. destruct Hlen as [->|?]; [simpl; lia|done].
  - apply eq_None_not_Some. rewrite <- elem_of_children. by apply Hm.
Qed.

(** Equal trees have equal manifests. *)
Lemma fold_res_ext {E A B} (f g : A -> B -> result E A) a l :
  (forall a b x, b ∈ l -> f a b = Ok x -> g a b = Ok x) ->
  forall x, fold_res f a l = Ok x -> fold_res g a l = Ok x.
Proof.
  revert a. induction l as [|b l IH]; intros a H x; simpl; [done|]. intros (y & Hy & Hx)%bind_Ok.
  rewrite (H a b y) by (done || by left). simpl. apply IH; [|done]. intros a' b' x' Hb'. apply H. by right.
Qed.

Lemma scan_into_moves fuel d d' dir dir' prefix depth top out out' :
  (forall t, d' !! (dir' ++ t) = d !! (dir ++ t)) ->
  scan_into fuel d dir prefix depth top out = Ok out' -> scan_into fuel d' dir' prefix depth top out = Ok out'.
Proof.
  revert dir dir' prefix depth out out'. induction fuel as [|fuel IH]; intros dir dir' prefix depth out out' Heq; [done|].
  cbn [scan_into]. destruct (MAX_DEPTH <? depth)%nat; [done|].
  pose proof (Heq []) as H0. rewrite !app_nil_r in H0. rewrite H0. case_bool_decide; [|done]. cbn [negb].
  rewrite (children_eq d d' dir dir') by (intros n; by rewrite Heq).
  apply fold_res_ext. intros a n x _. cbv zeta.
  destruct (is_utf8 n); [|done]. cbn [negb]. destruct (negb (rel_is_safe n) || _); [done|].
  destruct (top && _ && _); [done|]. destruct (MAX_ENTRIES <=? length a)%nat; [done|]. rewrite Heq.
  destruct (d !! (dir ++ [n])) as [[c| | |]|]; try done. apply IH. intros t. rewrite <- !app_assoc. apply Heq.
Qed.

Lemma scan_tree_moves d d' root root' m top :
  (forall t, d' !! (root' ++ t) = d !! (root ++ t)) -> scan_tree d root top = Ok m -> scan_tree d' root' top = Ok m.
Proof.
  intros Heq. unfold scan_tree. intros (out & E & Em)%bind_Ok. by rewrite (scan_into_moves _ _ _ _ _ _ _ _ _ _ Heq E).
Qed.

(** ** A directory comes before what is in it *)
Lemma cmp_list_prefix (a : list byte) x r : cmp a (a ++ x :: r) = Lt.
Proof.
  induction a as [|y a IH]; [done|].
  change (cmp (y :: a) ((y :: a) ++ x :: r)) with (cmp_then (cmp y y) (cmp a (a ++ x :: r))).
  by rewrite cmp_refl, IH.
Qed.

Lemma rel_path_below q t : q <> [] -> t <> [] -> cmp (rel_path q) (rel_path (q ++ t)) = Lt.
Proof.
  intros Hq Ht. assert (exists r, rel_path (q ++ t) = rel_path q ++ SLASH :: r) as [r ->]; [|apply cmp_list_prefix].
  unfold rel_path. induction q as [|c q IH]; [done|]. destruct q as [|c' q].
  - destruct t as [|k t]; [done|]. by eexists.
  - destruct IH as [r Hr]; [done|]. exists r. change (join_with SLASH ((c :: c' :: q) ++ t)) with (c ++ SLASH :: join_with SLASH ((c' :: q) ++ t)).
    rewrite Hr. change (join_with SLASH (c :: c' :: q)) with (c ++ SLASH :: join_with SLASH (c' :: q)). by rewrite <- app_assoc.
Qed.

(** In a manifest cut at an entry, what is below the entry comes after it, and
    what it is below before it. *)
Lemma sorted_split m1 e m2 x :
  StronglySorted rel_le (m1 ++ e :: m2) -> x ∈ m1 ++ e :: m2 ->
  (cmp (rel x) (rel e) = Lt -> x ∈ m1) /\ (cmp (rel e) (rel x) = Lt -> x ∈ m2).
Proof.
  intros Hs Hx. induction m1 as [|y m1 IH].
  - cbn [app] in *. apply StronglySorted_inv in Hs as [_ Hf]. apply elem_of_cons in Hx as [->|Hx].
    + rewrite cmp_refl. done.
    + split; [|done]. intros Hlt. pose proof (proj1 (Forall_forall _ _) Hf x Hx) as Hle. unfold rel_le in Hle.
      by rewrite cmp_antisym, Hlt in Hle.
  - cbn [app] in *. apply StronglySorted_inv in Hs as [Hs Hf]. apply elem_of_cons in Hx as [->|Hx].
    + split; [by left|]. intros Hlt. exfalso.
      pose proof (proj1 (Forall_forall _ _) Hf e ltac:(rewrite elem_of_app, elem_of_cons; auto)) as Hle.
      unfold rel_le in Hle. by rewrite cmp_antisym, Hlt in Hle.
    + destruct (IH Hs Hx) as [I1 I2]. split; [|done]. intros Hlt. right. auto.
Qed.
