(* ===== verification/MigrateProps.v ===== *)
(** * What a migration promises

    Whatever fails and wherever the process dies, the old profile is complete
    under its old name until the new one is complete; running again finishes. *)
From stdpp Require Import gmap sets.
From Stdlib Require Import Sorting.Sorted.
From S2P Require Import Keys Prelude Bytes OrdMap Text Chars Checksum Marker Migrate MigrateFs.
Local Open Scope Z_scope.

Section migration.
Context (config from : list byte) (legacy : list (list byte)) (d0 : FS).

Abbreviation dest := [config].
Abbreviation staging := [config ++ STAGING_SUFFIX].
Abbreviation source := [from].

(** No profile under the new name: nothing, or an empty directory. *)
Definition free (d : FS) : Prop := d !! dest = None \/ d !! dest = Some DirObj /\ children d dest = [].

(** Where a migration starts: plain names, [from] the newest old profile that
    exists, no new profile, and a staging name that is not an old profile's. *)
Record start_ok : Prop := {
  st_valid : first_invalid (config :: legacy) = None;
  st_wf : wf d0;
  st_newest : exists l1 l2, reverse legacy = l1 ++ from :: l2 /\
    forall n, n ∈ l1 -> n = config \/ d0 !! [n] = None;
  st_from : from <> config /\ d0 !! source = Some DirObj;
  st_staging : config ++ STAGING_SUFFIX ∉ legacy;
  st_free : free d0;
  st_text : is_utf8 from = true /\ (NEWLINE ∉ from);
  st_sizes : forall q c, d0 !! (source ++ q) = Some (FileObj c) -> len c <= U64_MAX
}.

(** Before the commit: only the staging directory differs. *)
Record untouched (d : FS) : Prop := {
  un_wf : wf d;
  un_same : forall q, in_tree staging q = false -> q <> dest -> d !! q = d0 !! q;
  un_free : free d
}.

(** After it: the new profile is the old one and its marker; of the old one,
    things may be gone. *)
Record carried (m : list Entry) (d : FS) : Prop := {
  ca_manifest : manifest_of d0 source m;
  ca_wf : wf d;
  ca_dest : d !! dest = Some DirObj;
  ca_copy : forall t, t <> [] -> d !! (dest ++ t) =
    if decide (t = [MARKER_NAME]) then Some (FileObj (encode_marker from m)) else d0 !! (source ++ t);
  ca_source : forall t, d !! (source ++ t) = d0 !! (source ++ t) \/ d !! (source ++ t) = None;
  ca_same : forall q, in_tree staging q = false -> in_tree dest q = false -> in_tree source q = false -> d !! q = d0 !! q
}.

Definition phase (d : FS) : Prop := untouched d \/ exists m, carried m d.

Context (Hst : start_ok).

Lemma from_legacy : from ∈ legacy.
Proof. destruct (st_newest Hst) as (l1 & l2 & E & _). rewrite <- elem_of_reverse, E. set_solver. Qed.

Lemma names_apart : config ++ STAGING_SUFFIX <> config /\ config ++ STAGING_SUFFIX <> from /\ config <> from.
Proof.
  split_and!.
  - intros E%(f_equal length). rewrite length_app in E. simpl in E. lia.
  - intros E. apply (st_staging Hst). rewrite E. apply from_legacy.
  - intros E. by destruct (st_from Hst).
Qed.

Lemma apart_staging_dest t : in_tree staging (config :: t) = false.
Proof. rewrite in_tree_single. apply bool_decide_eq_false. apply names_apart. Qed.
Lemma apart_staging_source t : in_tree staging (from :: t) = false.
Proof. rewrite in_tree_single. apply bool_decide_eq_false. apply names_apart. Qed.
Lemma apart_dest_source t : in_tree dest (from :: t) = false.
Proof. rewrite in_tree_single. apply bool_decide_eq_false. apply names_apart. Qed.
Lemma apart_source_dest t : in_tree source (config :: t) = false.
Proof. rewrite in_tree_single. apply bool_decide_eq_false. intros E. by apply names_apart. Qed.

(** ** Before the commit *)
Lemma untouched_start : untouched d0.
Proof. split; [apply (st_wf Hst)|done|apply (st_free Hst)]. Qed.

Lemma untouched_source d t : untouched d -> d !! (source ++ t) = d0 !! (source ++ t).
Proof.
  intros [_ Hs _]. apply Hs; [apply apart_staging_source|]. intros [= E _]. by destruct (st_from Hst).
Qed.

Lemma free_eq d d' : (forall t, d' !! (dest ++ t) = d !! (dest ++ t)) -> free d -> free d'.
Proof.
  intros Heq Hf. unfold free. pose proof (Heq []) as H0. simpl in H0. rewrite H0.
  rewrite (children_eq d d' dest dest); [done|]. intros n. by rewrite Heq.
Qed.

Lemma untouched_within d d' : untouched d -> within staging d d' -> untouched d'.
Proof.
  intros [Hw Hs Hf] [Hw' Hsame]. split; [done| |].
  - intros q Hq Hne. rewrite Hsame by done. by apply Hs.
  - apply (free_eq d); [|done]. intros t. apply Hsame. apply apart_staging_dest.
Qed.

Lemma untouched_drop_dest d d' :
  untouched d -> (d' = d \/ d !! dest = Some DirObj /\ children d dest = [] /\ d' = delete dest d) -> untouched d'.
Proof.
  intros Hu [->|(Hd & Hc & ->)]; [done|]. pose proof Hu as [Hw Hs Hf]. split.
  - apply (wf_remove d); [done| |].
    + intros q. destruct (decide (dest = q)) as [<-|Hn]; [right; apply fs_delete_eq|left; by apply fs_delete_ne].
    + intros p n Hp Hdel. destruct (decide (dest = p)) as [<-|Hn]; [|rewrite fs_delete_ne in Hdel by done; congruence].
      rewrite fs_delete_ne by done. by apply (proj1 (children_nil d dest)).
  - intros q Hq Hne. rewrite fs_delete_ne by done. by apply Hs.
  - left. apply fs_delete_eq.
Qed.

(** ** Removing from the old profile *)
Lemma carried_delete m d p :
  carried m d -> in_tree source p = true -> (d !! p <> Some DirObj \/ children d p = []) -> carried m (delete p d).
Proof.
  intros [C1 C2 C3 C4 C5 C6] Hp Hok. assert (forall q, in_tree source q = false -> delete p d !! q = d !! q) as Hsame.
  { intros q Hq. apply fs_delete_ne. intros ->. congruence. }
  split; [done| | | | |].
  - apply (wf_remove d); [done| |].
    + intros q. destruct (decide (p = q)) as [<-|Hn]; [right; apply fs_delete_eq|left; by apply fs_delete_ne].
    + intros q n Hq Hdel. destruct (decide (p = q)) as [<-|Hn]; [|rewrite fs_delete_ne in Hdel by done; congruence].
      destruct Hok as [?|Hc]; [done|]. rewrite fs_delete_ne; [by apply (proj1 (children_nil d p))|].
      intros E%(f_equal length). rewrite length_app in E. simpl in E. lia.
  - rewrite Hsame by apply apart_source_dest. done.
  - intros t Ht. rewrite Hsame by apply apart_source_dest. by apply C4.
  - intros t. destruct (decide (p = source ++ t)) as [->|Hn]; [right; apply fs_delete_eq|]. rewrite fs_delete_ne by done. apply C5.
  - intros q H1 H2 H3. rewrite Hsame by done. by apply C6.
Qed.

Section hook.
Context (hook : option (Z -> bool)).

Lemma runs_has_link root r d : runs (path_has_no_symlink root r) d (fun d' _ => d' = d).
Proof.
  apply mig_runs_bind. eapply mig_runs_mono; [apply quiet_reading|]. intros d' [a|] (-> & _); [by apply mig_runs_ret|done].
Qed.

Lemma runs_try_tick {A} (k : unit -> mig (result MigrateError A)) d Q :
  (forall e, Q d (Some (Err e))) -> runs (k tt) d Q -> runs (try_mig id (tick hook) k) d Q.
Proof.
  intros He Hk. apply mig_runs_try. intros evs n. simpl. destruct hook as [h|]; [destruct (h n)|]; [apply He|apply Hk..].
Qed.

Lemma in_source_join r : in_tree source (join_rel source r) = true.
Proof. apply in_tree_app. Qed.

Lemma runs_remove_files m es d :
  carried m d -> runs (remove_files hook source es) d (fun d' _ => carried m d').
Proof.
  revert d. induction es as [|e es IH]; intros d Hc; [by apply mig_runs_ret|]. cbn [remove_files].
  destruct (kind e) as [|size crc fnv]; [by apply IH|]. apply mig_runs_bind.
  eapply mig_runs_mono; [apply runs_has_link|]. intros d' [[]|] ->; [|by apply IH|done]. cbn [negb]. cbv zeta.
  apply mig_runs_bind. eapply mig_runs_mono; [apply quiet_reading|]. intros d' [c|] (-> & _); [|done].
  destruct (match c with Ok c => _ | Err _ => _ end); [|by apply IH].
  apply runs_try_tick; [done|]. apply mig_runs_try. eapply mig_runs_mono; [apply runs_changing|]. intros d1 r Hr.
  assert (carried m d1) as Hc1.
  { assert (forall x, (o ← lookup_obj d (join_rel source (rel e));
      match o with DirObj => Err Failure | _ => Ok (delete (join_rel source (rel e)) d) end) = Ok x -> carried m x) as Hx.
    { unfold lookup_obj. intros x. destruct (d !! _) as [o|] eqn:Ho; [|done]. simpl.
      destruct o; try done; intros [= <-]; (apply carried_delete; [done|apply in_source_join|left; congruence]). }
    destruct r as [[[]|err]|]; [by apply Hx|destruct Hr as [->|Hr]; [done|by apply Hx]..]. }
  destruct r as [[[]|err]|]; [by apply IH|done..].
Qed.

Lemma runs_remove_dir m p d :
  carried m d -> in_tree source p = true -> runs (remove_dir p) d (fun d' _ => carried m d').
Proof.
  intros Hc Hp. eapply mig_runs_mono; [apply runs_changing|]. intros d1 r Hr.
  assert (forall x, (o ← lookup_obj d p;
    match o with DirObj => if bool_decide (children d p = []) then Ok (delete p d) else Err Failure | _ => Err Failure end) = Ok x ->
    carried m x) as Hx.
  { unfold lookup_obj. intros x. destruct (d !! p) as [[]|] eqn:Ho; simpl; try done.
    case_bool_decide as Hn; [|done]. intros [= <-]. apply carried_delete; [done..|by right]. }
  destruct r as [[[]|err]|]; [by apply Hx|destruct Hr as [->|Hr]; [done|by apply Hx]..].
Qed.

Lemma runs_remove_dirs m es d :
  carried m d -> runs (remove_dirs hook source es) d (fun d' _ => carried m d').
Proof.
  revert d. induction es as [|e es IH]; intros d Hc; [by apply mig_runs_ret|]. cbn [remove_dirs].
  destruct (kind e) as [|size crc fnv]; [|by apply IH]. apply mig_runs_bind.
  eapply mig_runs_mono; [apply runs_has_link|]. intros d' [[]|] ->; [|by apply IH|done]. cbn [negb].
  apply runs_try_tick; [done|]. apply mig_runs_bind.
  eapply mig_runs_mono; [apply (runs_remove_dir m); [done|apply in_source_join]|].
  intros d1 [r|] Hc1; [by apply IH|done].
Qed.

Lemma runs_cleanup m es d : carried m d -> runs (cleanup hook source es) d (fun d' _ => carried m d').
Proof.
  intros Hc. apply mig_runs_try. eapply mig_runs_mono; [by apply runs_remove_files|].
  intros d1 [[[]|e]|] H1; [|done..]. apply mig_runs_try. eapply mig_runs_mono; [by apply runs_remove_dirs|].
  intros d2 [[[]|e]|] H2; [|done..]. apply runs_try_tick; [done|]. apply mig_runs_bind.
  eapply mig_runs_mono; [apply (runs_remove_dir m); [done|apply in_tree_refl]|]. intros d3 [r|] H3; [|done].
  apply mig_runs_bind. eapply mig_runs_mono; [apply quiet_reading|]. intros d4 [r4|] (-> & _); [|done]. by apply mig_runs_ret.
Qed.

(** ** The copy *)
Definition paths (es : list Entry) : list path := map (fun e => split_on SLASH (rel e)) es.

(** The staging directory holds the copies of [es] and nothing else. *)
Record copying (es : list Entry) (d : FS) : Prop := {
  co_untouched : untouched d;
  co_staging : d !! staging = Some DirObj;
  co_copy : forall q, q <> [] -> d !! (staging ++ q) = if decide (q ∈ paths es) then d0 !! (source ++ q) else None
}.

Lemma manifest_path m e :
  manifest_of d0 source m -> e ∈ m ->
  let q := split_on SLASH (rel e) in
  q <> [] /\ Forall comp_good q /\ exists o, d0 !! (source ++ q) = Some o /\ entry_for q o = Some e.
Proof.
  intros Hm He. apply (mf_elem _ _ _ Hm) in He as (q & o & Hq & Ho & Ee).
  destruct (mf_good _ _ _ Hm q o Hq Ho) as [_ Hg]. pose proof (entry_for_rel _ _ _ Ee) as Er.
  cbv zeta. rewrite Er, split_rel by done. split_and!; [done..|]. by exists o.
Qed.

Lemma copying_none d :
  untouched d -> (forall t, d !! (staging ++ t) = None) -> copying [] (<[staging := DirObj]> d).
Proof.
  intros Hu Hn. split; [|apply fs_insert_eq|].
  - apply (untouched_within d); [done|]. apply within_insert; [apply Hu|apply in_tree_refl|done|by left].
  - intros q Hq. rewrite decide_False by apply not_elem_of_nil. rewrite fs_insert_ne; [apply Hn|]. intros [= E]. by destruct q.
Qed.

Lemma copying_add es e d d' o :
  copying es d -> untouched d' ->
  let q := split_on SLASH (rel e) in
  q <> [] -> d0 !! (source ++ q) = Some o -> d' !! (staging ++ q) = Some o ->
  (forall p, p <> staging ++ q -> d' !! p = d !! p) ->
  copying (es ++ [e]) d'.
Proof.
  intros [_ C2 C3] Hu q Hq Ho Hn Hsame. split; [done| |].
  - rewrite Hsame; [done|]. intros E%(f_equal length). rewrite length_app in E. destruct q; simpl in E; [done|lia].
  - intros t Ht. unfold paths. rewrite map_app. destruct (decide (t = q)) as [->|Hne].
    + rewrite decide_True; [congruence|]. apply elem_of_app. right. by left.
    + rewrite Hsame by (intros [= E]; congruence). rewrite C3 by done.
      destruct (decide (t ∈ paths es)) as [Hi|Hi].
      * rewrite decide_True; [done|]. apply elem_of_app. by left.
      * rewrite decide_False; [done|]. intros [?|Hs]%elem_of_app; [done|].
        apply list_elem_of_singleton in Hs. done.
Qed.

Lemma runs_copy_all m es1 es2 counts d :
  manifest_of d0 source m -> (forall e, e ∈ es2 -> e ∈ m) -> copying es1 d ->
  runs (copy_all hook source staging counts es2) d
    (fun d' r => untouched d' /\ ((exists c, r = Some (Ok c)) -> copying (es1 ++ es2) d')).
Proof.
  intros Hm. revert es1 counts d. induction es2 as [|e es2 IH]; intros es1 counts d Hin Hc; cbn [copy_all].
  { apply mig_runs_ret. rewrite app_nil_r. split; [apply Hc|done]. }
  destruct counts as [[files dirs] bytes]. cbv zeta.
  pose proof (co_untouched _ _ Hc) as Hu.
  destruct (manifest_path m e Hm (Hin e ltac:(by left))) as (Hq & _ & o & Ho & Ee).
  set (q := split_on SLASH (rel e)) in *.
  assert (in_tree staging (join_rel staging (rel e)) = true) as Hto by apply in_tree_app.
  assert (forall d1, untouched d1 -> d1 !! (staging ++ q) = Some o ->
    (forall p, p <> staging ++ q -> d1 !! p = d !! p) -> copying (es1 ++ [e]) d1) as Hadd
    by (intros d1 H1 H2 H3; by apply (copying_add es1 e d d1 o)).
  assert (forall counts d1, copying (es1 ++ [e]) d1 -> runs (copy_all hook source staging counts es2) d1
    (fun d' r => untouched d' /\ ((exists c, r = Some (Ok c)) -> copying (es1 ++ e :: es2) d'))) as Hnext.
  { intros counts d1 H1. rewrite cons_middle, app_assoc. apply IH; [|done]. intros x Hx. apply Hin. by right. }
  destruct o as [c| | |]; try discriminate Ee; injection Ee as Ee.
  - assert (kind e = file_kind c) as -> by (by rewrite <- Ee). unfold file_kind. destruct (hash_content c) as [[size crc] fnv].
    apply mig_runs_try. eapply mig_runs_mono; [apply (runs_copy_file staging); [apply Hu|done]|].
    intros d1 [[[]|err]|] [H1 E1]; pose proof (untouched_within _ _ Hu H1) as Hu1; [|split; [done|by intros [? [=]]]..].
    apply Hnext. destruct (E1 eq_refl) as (c' & Hc' & Hn & Hsame). apply Hadd; [done| |done].
    change (join_rel source (rel e)) with (source ++ q) in Hc'. rewrite (untouched_source d q Hu), Ho in Hc'. by injection Hc' as <-.
  - assert (kind e = KDir) as -> by (by rewrite <- Ee).
    apply mig_runs_try. eapply mig_runs_mono; [apply (runs_make_dir staging); [apply Hu|done]|].
    intros d1 [[[]|err]|] [H1 E1]; pose proof (untouched_within _ _ Hu H1) as Hu1; [|split; [done|by intros [? [=]]]..].
    apply Hnext. specialize (E1 eq_refl). change (join_rel staging (rel e)) with (staging ++ q) in E1.
    apply Hadd; [done|by rewrite E1, fs_insert_eq|]. intros p Hp. by rewrite E1, fs_insert_ne.
Qed.

Lemma copying_all m d : manifest_of d0 source m -> copying m d -> forall q, d !! (staging ++ q) = d0 !! (source ++ q).
Proof.
  intros Hm [C1 C2 C3] q. destruct (decide (q = [])) as [->|Hq].
  { change (d !! staging = d0 !! source). rewrite C2. by destruct (st_from Hst) as [_ ->]. }
  rewrite C3 by done. destruct (decide (q ∈ paths m)) as [|Hn]; [done|]. symmetry. apply eq_None_not_Some. intros [o Ho].
  destruct (mf_good _ _ _ Hm q o Hq Ho) as [[e Ee] Hg]. apply Hn, list_elem_of_fmap. exists e.
  split; [by rewrite (entry_for_rel _ _ _ Ee), split_rel|]. apply (mf_elem _ _ _ Hm). eauto.
Qed.

Lemma runs_scan root top d :
  runs (scan root top) d (fun d' r => d' = d /\ forall m, r = Some (Ok m) -> scan_tree d root top = Ok m).
Proof.
  apply mig_runs_try. eapply mig_runs_mono; [apply quiet_reading|]. intros d' [[x|e]|] (-> & Hx & _); [|split; done..].
  apply mig_runs_ret. split; [done|]. specialize (Hx x eq_refl). injection Hx as Hx. by intros m [= ->].
Qed.

Lemma runs_verify m d :
  untouched d ->
  runs (verify hook source staging m) d (fun d' r => untouched d' /\ (r = Some (Ok tt) -> d' = d)).
Proof.
  intros Hu. assert (forall (e : MigrateError), runs (_ ← remove_tree hook staging; mret (Err e : result MigrateError unit)) d
    (fun d' r => untouched d' /\ (r = Some (Ok tt) -> d' = d))) as Hrm.
  { intros e. apply mig_runs_bind. eapply mig_runs_mono; [apply (runs_remove_tree staging); [done|apply Hu]|].
    intros d1 [r|] [H1 _]; [apply mig_runs_ret|]; (split; [by eapply untouched_within|done]). }
  apply mig_runs_try. eapply mig_runs_mono; [apply runs_scan|]. intros d' [[copied|e]|] (-> & _); [|done..].
  destruct (negb _); [apply Hrm|].
  apply mig_runs_try. eapply mig_runs_mono; [apply runs_scan|]. intros d' [[again|e]|] (-> & _); [|done..].
  destruct (negb _); [apply Hrm|]. by apply mig_runs_ret.
Qed.

(** ** The commit *)
Lemma free_nothing d t : untouched d -> t <> [] -> d !! (dest ++ t) = None.
Proof.
  intros [Hw _ [Hn|[_ Hc]]] Ht.
  - apply wf_nothing_below; [done..|congruence|done].
  - by apply wf_empty_below.
Qed.

Lemma rename_carries m d :
  manifest_of d0 source m -> untouched d -> d !! staging = Some DirObj ->
  (forall t, t <> [] -> d !! (staging ++ t) =
     if decide (t = [MARKER_NAME]) then Some (FileObj (encode_marker from m)) else d0 !! (source ++ t)) ->
  carried m (moved staging dest d).
Proof.
  intros Hm [Hw Hs Hf] Hd Hcopy. destruct names_apart as (A1 & A2 & A3). split; [done| | | | |].
  - apply wf_moved; try done. apply apart_staging_dest.
  - rewrite lookup_moved, in_tree_refl. simpl. exact Hd.
  - intros t Ht. rewrite lookup_moved, in_tree_app. change (drop (length dest) (dest ++ t)) with t. by apply Hcopy.
  - intros t. rewrite lookup_moved. change (source ++ t) with (from :: t). rewrite apart_dest_source, apart_staging_source.
    left. apply (untouched_source d t). by split.
  - intros q H1 H2 H3. rewrite lookup_moved, H2, H1. apply Hs; [done|]. intros ->. by rewrite in_tree_refl in H2.
Qed.

Lemma mig_runs_rename m d :
  manifest_of d0 source m -> untouched d -> d !! staging = Some DirObj ->
  (forall t, t <> [] -> d !! (staging ++ t) =
     if decide (t = [MARKER_NAME]) then Some (FileObj (encode_marker from m)) else d0 !! (source ++ t)) ->
  runs (rename staging dest) d (fun d' r => match r with
    | Some (Ok _) => carried m d'
    | _ => d' = d \/ carried m d'
    end).
Proof.
  intros Hm Hu Hd Hcopy. pose proof (rename_carries m d Hm Hu Hd Hcopy) as Hc.
  eapply mig_runs_mono; [apply runs_changing|]. intros d' r Hr.
  assert (forall x, (if bool_decide (d !! staging = Some DirObj) && parent_ok d dest && negb (in_tree staging dest) &&
       (bool_decide (d !! dest = None) || (bool_decide (d !! dest = Some DirObj) && bool_decide (children d dest = [])))
    then Ok (moved staging dest d) else Err Failure) = Ok x -> carried m x) as Hx.
  { intros x. destruct (_ && _); [|done]. by intros [= <-]. }
  destruct r as [[[]|e]|]; [by apply Hx|destruct Hr as [->|Hr]; [by left|right; by apply Hx]..].
Qed.

(** ** Carrying over, as a whole *)
Lemma runs_carry b d :
  untouched d -> runs (carry hook dest staging from b) d (fun d' _ => phase d').
Proof.
  intros Hu0. unfold carry. cbv zeta. assert (forall d, untouched d -> phase d) as Hph by (intros; by left).
  apply mig_runs_try. eapply mig_runs_mono; [apply runs_scan|]. intros d' [[m|e]|] (-> & Hm); [|by apply Hph..].
  specialize (Hm m eq_refl).
  assert (manifest_of d0 source m) as Hmf.
  { apply scan_tree_spec; [apply (st_wf Hst)|done|]. eapply scan_tree_moves; [|exact Hm].
    intros t. symmetry. by apply untouched_source. }
  apply mig_runs_try.
  assert (runs (if b then try_mig id (tick hook) (fun _ => io "remove" dest (remove_dir dest)) else mret (Ok tt)) d
    (fun d' _ => untouched d')) as Hdrop.
  { destruct b; [|by apply mig_runs_ret]. apply runs_try_tick; [done|]. apply runs_io. eapply mig_runs_mono; [apply runs_changing|].
    intros d1 r Hr. apply (untouched_drop_dest d); [done|].
    assert (forall x, (o ← lookup_obj d dest;
      match o with DirObj => if bool_decide (children d dest = []) then Ok (delete dest d) else Err Failure | _ => Err Failure end) = Ok x ->
      x = d \/ d !! dest = Some DirObj /\ children d dest = [] /\ x = delete dest d) as Hx.
    { unfold lookup_obj. intros x. destruct (d !! dest) as [[]|]; simpl; try done. case_bool_decide; [|done]. intros [= <-]. by right. }
    destruct r as [[[]|e]|]; [by apply Hx|destruct Hr as [->|Hr]; [by left|by apply Hx]..]. }
  eapply mig_runs_mono; [exact Hdrop|]. clear Hdrop Hm. intros d1 [[[]|e]|] Hu1; [|by apply Hph..].
  apply mig_runs_try. eapply mig_runs_mono; [apply (runs_remove_tree staging); [done|apply Hu1]|].
  intros d2 [[[]|e]|] [W2 E2]; pose proof (untouched_within _ _ Hu1 W2) as Hu2; [|by apply Hph..]. specialize (E2 eq_refl).
  apply mig_runs_try. eapply mig_runs_mono; [apply (runs_make_dir staging _ _ _ staging); [apply Hu2|apply in_tree_refl]|].
  intros d3 [[[]|e]|] [W3 E3]; pose proof (untouched_within _ _ Hu2 W3) as Hu3; [|by apply Hph..]. specialize (E3 eq_refl).
  assert (copying [] d3) as Hc3 by (rewrite E3; by apply copying_none).
  apply mig_runs_try. eapply mig_runs_mono; [by apply (runs_copy_all m [] m)|].
  intros d4 [[[[files dirs] bytes]|e]|] [Hu4 Hc4]; [|by apply Hph..]. specialize (Hc4 ltac:(by eexists)). simpl in Hc4.
  pose proof (copying_all m d4 Hmf Hc4) as Hall.
  apply mig_runs_try. eapply mig_runs_mono; [by apply runs_verify|]. intros d5 [[[]|e]|] [Hu5 E5]; [|by apply Hph..].
  specialize (E5 eq_refl). subst d5.
  apply mig_runs_try. eapply mig_runs_mono; [apply (runs_write_marker staging); [apply Hu4|apply in_tree_app]|].
  intros d6 [[[]|e]|] [W6 E6]; pose proof (untouched_within _ _ Hu4 W6) as Hu6; [|by apply Hph..].
  destruct (E6 ltac:(by eexists)) as [Emark Esame]. apply runs_try_tick; [intros e; by left|].
  apply mig_runs_try. eapply mig_runs_mono.
  { apply (mig_runs_rename m); [done..| |].
    - rewrite Esame by (intros E; discriminate E). apply (co_staging _ _ Hc4).
    - intros t Ht. case_decide as Hmk; [by subst t|]. rewrite Esame by (intros [= E]; congruence). apply Hall. }
  intros d7 [[[]|e]|] H7; [|destruct H7 as [->|H7]; [by left|right; by exists m]..].
  apply mig_runs_try. eapply mig_runs_mono; [by apply (runs_cleanup m m)|]. intros d8 [[r|e]|] H8; [|right; by exists m..].
  apply mig_runs_ret. right. by exists m.
Qed.
(** ** A run, from either phase *)
Lemma first_invalid_None ns : first_invalid ns = None -> forall n, n ∈ ns -> name_is_plain n = true.
Proof.
  induction ns as [|x ns IH]; [by intros _ n ?%elem_of_nil|]. simpl. destruct (name_is_plain x) eqn:E; [|done].
  intros Hn n [->|Hi]%elem_of_cons; [done|by apply IH].
Qed.

Lemma start_newest d :
  untouched d -> exists l1 l2, reverse legacy = l1 ++ from :: l2 /\ forall n, n ∈ l1 -> n = config \/ d !! [n] = None.
Proof.
  intros Hu. destruct (st_newest Hst) as (l1 & l2 & E & Hn). exists l1, l2. split; [done|]. intros n Hi.
  destruct (Hn n Hi) as [?|H0]; [by left|]. destruct (decide (n = config)) as [|Hne]; [by left|]. right.
  rewrite (un_same _ Hu); [done| |congruence]. rewrite in_tree_single. apply bool_decide_eq_false. intros <-.
  apply (st_staging Hst). apply elem_of_reverse. rewrite E. set_solver.
Qed.

Lemma runs_newest d :
  untouched d ->
  runs (newest_legacy config (reverse legacy)) d (fun d' r => d' = d /\ forall n, r = Some (Ok (Some n)) -> n = from).
Proof.
  intros Hu. destruct (start_newest d Hu) as (l1 & l2 & -> & Hn). induction l1 as [|x l1 IH]; cbn [newest_legacy app].
  - rewrite decide_False by (by destruct (st_from Hst)). apply mig_runs_bind. eapply mig_runs_mono; [apply quiet_reading|].
    intros d' [[o|err]|] (-> & Ho & Hnf); [| |done].
    + destruct o; apply mig_runs_ret; (split; [done|]); congruence.
    + specialize (Hnf). destruct err; [|by apply mig_runs_ret]. specialize (Hnf eq_refl).
      unfold lookup_obj in Hnf. pose proof (untouched_source d [] Hu) as E. change (source ++ []) with [from] in E.
      destruct (st_from Hst) as [_ E']. by rewrite E, E' in Hnf.
  - assert (forall n, n ∈ l1 -> n = config \/ d !! [n] = None) as Hn' by (intros n Hi; apply Hn; by right).
    destruct (decide (x = config)) as [|Hx]; [by apply IH|]. destruct (Hn x ltac:(by left)) as [?|E]; [done|].
    apply mig_runs_bind. eapply mig_runs_mono; [apply quiet_reading|].
    intros d' [[o|err]|] (-> & Ho & _); [| |done].
    + specialize (Ho o eq_refl). unfold lookup_obj in Ho. by rewrite E in Ho.
    + destruct err; [by apply IH|by apply mig_runs_ret].
Qed.

Lemma manifest_entries m : manifest_of d0 source m -> Forall entry_ok m.
Proof.
  intros Hm. apply Forall_forall. intros e He.
  destruct (manifest_path m e Hm He) as (Hq & Hg & o & Ho & Ee). pose proof (entry_for_rel _ _ _ Ee) as Er.
  destruct (rel_path_ok _ Hq Hg) as [R1 R2]. rewrite <- Er in R1, R2. split_and!; [done..|].
  destruct o as [c| | |]; try done; injection Ee as <-; [|done]. cbn [kind file_kind]. unfold file_kind. simpl.
  pose proof (st_sizes Hst _ c Ho). pose proof (crc32_update_word 0 c ltac:(by split)) as [? ?].
  pose proof (fnv_fold_word FNV_OFFSET c ltac:(by split)) as [? ?]. unfold fnv1a64_update, U32_MAX, U64_MAX in *.
  unfold len in *. lia.
Qed.

(** The marker that was written is the marker that is read. *)
Lemma marker_reads m :
  manifest_of d0 source m ->
  is_utf8 (encode_marker from m) = true /\ parse_marker (encode_marker from m) = Some (from, m).
Proof.
  intros Hm. pose proof (manifest_entries m Hm). destruct (st_text Hst) as [Hu Hn]. split; [by apply encode_marker_utf8|].
  apply parse_encoded; [|done..|apply Hm].
  apply (first_invalid_None _ (st_valid Hst)). right. apply from_legacy.
Qed.

Lemma runs_read_marker d :
  runs (read_marker dest) d (fun d' r => d' = d /\ forall from m, r = Some (Some (from, m)) ->
    exists c, d !! (dest ++ [MARKER_NAME]) = Some (FileObj c) /\ is_utf8 c = true /\ parse_marker c = Some (from, m)).
Proof.
  apply mig_runs_bind. eapply mig_runs_mono; [apply quiet_reading|]. intros d' [[c|e]|] (-> & Hc & _); [| |done].
  - apply mig_runs_ret. split; [done|]. intros f m. destruct (is_utf8 c) eqn:Eu; [|done]. intros [= E].
    exists c. split; [|done]. by apply content_Some, Hc.
  - by apply mig_runs_ret.
Qed.

Lemma runs_run_untouched d : untouched d -> runs (run hook config legacy) d (fun d' _ => phase d').
Proof.
  intros Hu. unfold run. rewrite (st_valid Hst). cbv zeta.
  assert (phase d) as Hp by (by left).
  assert (forall b, runs (try_mig id (newest_legacy config (reverse legacy)) (fun found => match found with
    | None => mret (Ok NoLegacy) | Some from => carry hook dest staging from b end)) d (fun d' _ => phase d')) as Hstart.
  { intros b. apply mig_runs_try. eapply mig_runs_mono; [by apply runs_newest|]. intros d' [[[n|]|e]|] [-> Hn]; [| |done..].
    - rewrite (Hn n eq_refl). by apply runs_carry.
    - by apply mig_runs_ret. }
  apply mig_runs_bind. eapply mig_runs_mono; [apply quiet_reading|].
  intros d' [[[]|[]]|] (-> & _); [by apply mig_runs_ret| |by apply mig_runs_ret..|apply Hstart|by apply mig_runs_ret|done].
  apply mig_runs_bind. eapply mig_runs_mono; [apply runs_read_marker|]. intros d' [[[f m]|]|] [-> Hm]; [| |done].
  - destruct (Hm f m eq_refl) as (c & Hc & _). by rewrite free_nothing in Hc.
  - apply mig_runs_try. eapply mig_runs_mono; [apply quiet_reading|]. intros d' [[l|e]|] (-> & _); [|done..].
    destruct (negb _); [by apply mig_runs_ret|apply Hstart].
Qed.

Lemma runs_run_carried m d : carried m d -> runs (run hook config legacy) d (fun d' _ => carried m d').
Proof.
  intros Hc. unfold run. rewrite (st_valid Hst). cbv zeta. pose proof (ca_dest _ _ Hc) as Hd.
  pose proof (ca_copy _ _ Hc [MARKER_NAME] ltac:(done)) as Hmk. rewrite decide_True in Hmk by done.
  destruct (marker_reads m (ca_manifest _ _ Hc)) as [_ Hparse].
  apply mig_runs_bind. eapply mig_runs_mono; [apply quiet_reading|]. intros d' [[o|e]|] (-> & Ho & Hnf); [| |done].
  2: { destruct e; [|by apply mig_runs_ret]. specialize (Hnf eq_refl). unfold lookup_obj in Hnf. by rewrite Hd in Hnf. }
  specialize (Ho o eq_refl). unfold lookup_obj in Ho. rewrite Hd in Ho. injection Ho as <-.
  apply mig_runs_bind. eapply mig_runs_mono; [apply runs_read_marker|]. intros d' [[[f es]|]|] [-> Hm]; [| |done].
  - destruct (Hm f es eq_refl) as (c & E & _ & Ec). rewrite Hmk in E. injection E as <-. rewrite Hparse in Ec.
    injection Ec as <- <-. apply mig_runs_bind. eapply mig_runs_mono; [apply quiet_reading|].
    intros d' [[[]|e]|] (-> & _); [by apply mig_runs_ret| |by apply mig_runs_ret..|done].
    apply mig_runs_try. eapply mig_runs_mono; [by apply runs_cleanup|]. intros d' [[b|e]|] H; [by apply mig_runs_ret|done..].
  - apply mig_runs_try. eapply mig_runs_mono; [apply quiet_reading|]. intros d' [[l|e]|] (-> & Hl & _); [|done..].
    specialize (Hl l eq_refl). unfold lookup_obj in Hl. rewrite Hd in Hl. injection Hl as <-.
    rewrite bool_decide_eq_false_2; [by apply mig_runs_ret|]. intros Hn.
    rewrite (proj1 (children_nil d dest) Hn) in Hmk. done.
Qed.

Lemma runs_run d : phase d -> runs (run hook config legacy) d (fun d' _ => phase d').
Proof.
  intros [Hu|[m Hc]]; [by apply runs_run_untouched|]. eapply mig_runs_mono; [by apply runs_run_carried|].
  intros d' r H. right. by exists m.
Qed.
End hook.
End migration.
