(* ===== verification/MigrateDone.v ===== *)
(** * A migration that nothing interrupts

    When every call succeeds, a run finishes what earlier ones began: the new
    profile is complete and the old one is gone. *)
From stdpp Require Import gmap sets.
From Stdlib Require Import Sorting.Sorted.
From S2P Require Import Keys Prelude Bytes OrdMap Text Chars Checksum Marker Migrate MigrateFs MigrateProps.
Local Open Scope Z_scope.

(** ** Runs in which nothing fails *)
Definition boot (d : FS) : World := {| fs := d; events := []; ops := 0 |}.

Definition yields {A} (m : mig A) (d d' : FS) (a : A) : Prop :=
  forall n, exists n', m {| fs := d; events := []; ops := n |} = ({| fs := d'; events := []; ops := n' |}, Some a).

Section yields.
Context {A B : Type}.

Lemma yields_ret (a : A) d : yields (mret a) d d a.
Proof. intros n. by exists n. Qed.

Lemma yields_bind (m : mig A) (f : A -> mig B) d d1 d2 a b :
  yields m d d1 a -> yields (f a) d1 d2 b -> yields (m ≫= f) d d2 b.
Proof.
  intros H1 H2 n. destruct (H1 n) as [n1 E1]. destruct (H2 n1) as [n2 E2]. exists n2.
  unfold mbind, mig_bind. by rewrite E1.
Qed.

Lemma yields_call (act : Event -> FS -> FS * result ErrorKind A) d d' r :
  act good d = (d', r) -> yields (call act) d d' r.
Proof. intros E n. exists n. unfold call. simpl. by rewrite E. Qed.

Lemma yields_runs (m : mig A) d d' a Q : yields m d d' a -> runs m d Q -> Q d' (Some a).
Proof. intros Hy Hr. destruct (Hy 0) as [n E]. specialize (Hr [] 0). by rewrite E in Hr. Qed.
End yields.

Lemma yields_try {A B E F} (conv : E -> F) (m : mig (result E A)) (k : A -> mig (result F B)) d d1 d2 a r :
  yields m d d1 (Ok a) -> yields (k a) d1 d2 r -> yields (try_mig conv m k) d d2 r.
Proof. intros H1 H2. unfold try_mig. by eapply yields_bind. Qed.

Lemma yields_tick {A F} (k : unit -> mig (result F A)) (conv : MigrateError -> F) d d' r :
  yields (k tt) d d' r -> yields (try_mig conv (tick None) k) d d' r.
Proof. apply yields_try. intros n. by exists (n + 1). Qed.

Lemma yields_reading {A} (f : FS -> result ErrorKind A) d r : f d = r -> yields (reading f) d d r.
Proof. intros <-. by apply yields_call. Qed.

Lemma yields_changing f d d' : f d = Ok d' -> yields (changing f) d d' (Ok tt).
Proof. intros E. apply yields_call. by rewrite E. Qed.

Lemma yields_io op p {A} (m : mig (result ErrorKind A)) d d' a :
  yields m d d' (Ok a) -> yields (io op p m) d d' (Ok a).
Proof. intros H. eapply yields_try; [exact H|apply yields_ret]. Qed.

(** ** The calls *)
Lemma yields_stat d p o : d !! p = Some o -> yields (symlink_metadata p) d d (Ok o).
Proof. intros E. apply yields_reading. unfold lookup_obj. by rewrite E. Qed.

Lemma yields_no_stat d p : d !! p = None -> yields (symlink_metadata p) d d (Err NotFound).
Proof. intros E. apply yields_reading. unfold lookup_obj. by rewrite E. Qed.

Lemma yields_touch d p : is_Some (d !! p) -> yields (touch p) d d (Ok tt).
Proof. intros [o E]. apply yields_reading. unfold lookup_obj. by rewrite E. Qed.

Lemma yields_open d p c : d !! p = Some (FileObj c) -> yields (open_file p) d d (Ok c).
Proof. intros E. by apply yields_reading, content_Some. Qed.

Lemma yields_create_file d p :
  parent_ok d p = true -> d !! p <> Some DirObj -> yields (create_file p) d (<[p := FileObj []]> d) (Ok tt).
Proof. intros Hp Hn. apply yields_changing. by rewrite Hp, bool_decide_eq_false_2. Qed.

Lemma yields_create_dir d p :
  parent_ok d p = true -> d !! p = None -> yields (create_dir p) d (<[p := DirObj]> d) (Ok tt).
Proof. intros Hp Hn. apply yields_changing. by rewrite Hp, bool_decide_eq_true_2. Qed.

Lemma yields_write d p old c :
  d !! p = Some (FileObj old) -> yields (write_all p c) d (<[p := FileObj (old ++ c)]> d) (Ok tt).
Proof. intros E%content_Some. apply yields_call. by rewrite E. Qed.

Lemma yields_remove_file d p c : d !! p = Some (FileObj c) -> yields (remove_file p) d (delete p d) (Ok tt).
Proof. intros E. apply yields_changing. unfold lookup_obj. by rewrite E. Qed.

Lemma yields_remove_dir d p :
  d !! p = Some DirObj -> children d p = [] -> yields (remove_dir p) d (delete p d) (Ok tt).
Proof. intros E Hc. apply yields_changing. unfold lookup_obj. rewrite E. simpl. by rewrite bool_decide_eq_true_2. Qed.

Lemma yields_create_write {A} conv1 conv2 (k : mig (result MigrateError A)) d p c r :
  parent_ok d p = true -> d !! p <> Some DirObj ->
  (forall d', d' !! p = Some (FileObj c) -> (forall q, q <> p -> d' !! q = d !! q) -> yields k d' d' r) ->
  exists d', yields (try_mig conv1 (create_file p) (fun _ => try_mig conv2 (write_all p c) (fun _ => k))) d d' r.
Proof.
  intros Hp Hn Hk. eexists. eapply yields_try; [by apply yields_create_file|].
  eapply yields_try; [apply yields_write, fs_insert_eq|]. apply Hk; [apply fs_insert_eq|].
  intros q Hq. by rewrite !fs_insert_ne by done.
Qed.

Lemma yields_copy_file d from p c :
  d !! from = Some (FileObj c) -> parent_ok d p = true -> d !! p = None ->
  exists d', yields (copy_file None from p) d d' (Ok tt).
Proof.
  intros Hf Hp Hn. destruct (yields_create_write (Io "create" p) (Io "write" p)
    (try_mig (Io "sync" p) (touch p) (fun _ => try_mig (Io "stat" from) (touch from) (fun _ =>
       io "set permissions" p (touch p)))) d p c (Ok tt)) as [d' Hd']; [done|by rewrite Hn| |].
  - intros d1 H1 H2. eapply yields_try; [by apply yields_touch; eexists|].
    eapply yields_try; [|by apply yields_io, yields_touch; eexists]. apply yields_touch.
    rewrite H2 by congruence. by eexists.
  - exists d'. apply yields_tick. eapply yields_try; [by apply yields_open|exact Hd'].
Qed.

Lemma yields_make_dir d from p :
  parent_ok d p = true -> d !! p = None -> (forall f, from = Some f -> is_Some (d !! f)) ->
  yields (make_dir None from p) d (<[p := DirObj]> d) (Ok tt).
Proof.
  intros Hp Hn Hf. apply yields_tick. eapply yields_try; [by apply yields_create_dir|]. cbv zeta.
  eapply yields_try; [apply yields_touch|apply yields_io, yields_touch; rewrite fs_insert_eq; by eexists].
  destruct from as [f|]; simpl; [|rewrite fs_insert_eq; by eexists].
  rewrite fs_insert_ne; [by apply Hf|]. intros ->. destruct (Hf f eq_refl). congruence.
Qed.

Lemma yields_remove_tree d p : exists d', yields (remove_tree None p) d d' (Ok tt).
Proof.
  destruct (d !! p) as [o|] eqn:E.
  - destruct o; eexists; (eapply yields_bind; [by apply yields_stat|]); apply yields_tick, yields_io.
    2: { apply yields_call. rewrite E. reflexivity. }
    all: apply yields_changing; unfold lookup_obj; by rewrite E.
  - exists d. eapply yields_bind; [by apply yields_no_stat|]. apply yields_ret.
Qed.

Lemma yields_write_marker d p text :
  parent_ok d p = true -> d !! p = None -> exists d', yields (write_marker None p text) d d' (Ok tt).
Proof.
  intros Hp Hn. destruct (yields_create_write (Io "create" p) (Io "write" p) (io "sync" p (touch p)) d p text (Ok tt))
    as [d' Hd']; [done|by rewrite Hn| |].
  - intros d1 H1 _. by apply yields_io, yields_touch; eexists.
  - exists d'. by apply yields_tick.
Qed.

Lemma yields_scan d root top m : scan_tree d root top = Ok m -> yields (scan root top) d d (Ok m).
Proof. intros E. eapply yields_try; [apply yields_reading; by rewrite E|]. apply yields_ret. Qed.

(** ** A migration *)
Section migration.
Context (config from : list byte) (legacy : list (list byte)) (d0 : FS).
Context (Hst : start_ok config from legacy d0).

Abbreviation dest := [config].
Abbreviation staging := [config ++ STAGING_SUFFIX].
Abbreviation source := [from].
Abbreviation untouched := (untouched config d0).
Abbreviation carried := (carried config from d0).
Abbreviation copying := (copying config from d0).
Abbreviation migrates := (run None config legacy).

(** What the copy loop counts. *)
Definition tally (counts : nat * nat * Z) (e : Entry) : nat * nat * Z :=
  let '(files, dirs, bytes) := counts in
  match kind e with KDir => (files, S dirs, bytes) | KFile size _ _ => (S files, dirs, bytes + size) end.

(** *** The copy *)
(** The place of an entry is free and its directory is there. *)
Lemma copying_next es1 e es2 d :
  manifest_of d0 source (es1 ++ e :: es2) -> copying es1 d ->
  let p := join_rel staging (rel e) in parent_ok d p = true /\ d !! p = None.
Proof.
  intros Hm [Hu Hs Hc]. destruct (manifest_path _ _ _ e Hm) as (Hq & Hg & o & Ho & Ee); [set_solver|].
  cbv zeta. change (join_rel staging (rel e)) with (staging ++ split_on SLASH (rel e)).
  set (q := split_on SLASH (rel e)) in *. pose proof (entry_for_rel _ _ _ Ee) as Er. split.
  - destruct (snoc_cases q) as [?|(q' & n & E)]; [done|]. rewrite E, app_assoc, parent_ok_snoc. apply orb_true_iff. right.
    apply bool_decide_eq_true. destruct (decide (q' = [])) as [->|Hq']; [by rewrite app_nil_r|].
    rewrite Hc by done. assert (d0 !! (source ++ q') = Some DirObj) as Hd.
    { apply (wf_below d0 _ [n]); [apply (st_wf _ _ _ _ Hst)|done|done|]. rewrite <- app_assoc, <- E. by eexists. }
    rewrite decide_True; [done|]. assert (Forall comp_good q') as Hg' by (rewrite E in Hg; by apply Forall_app in Hg as [? _]).
    apply list_elem_of_fmap. exists (mkEntry (rel_path q') KDir). split; [cbn [rel]; by rewrite split_rel|].
    apply (sorted_split es1 e es2); [apply Hm| |].
    + apply (mf_elem _ _ _ Hm). by exists q', DirObj.
    + cbn [rel]. rewrite Er, E. by apply rel_path_below.
  - rewrite Hc by done. rewrite decide_False; [done|]. intros (e' & E & He')%list_elem_of_fmap.
    destruct (manifest_path _ _ _ e' Hm) as (Hq' & Hg' & o' & Ho' & Ee'); [set_solver|].
    pose proof (entry_for_rel _ _ _ Ee') as Er'. fold q in E. rewrite <- E, <- Er in Er'.
    pose proof (mf_nodup _ _ _ Hm) as Hnd. rewrite map_app in Hnd. apply NoDup_app in Hnd as (_ & Hd & _).
    apply (Hd (rel e')); [by apply list_elem_of_fmap_2|]. rewrite Er'. by left.
Qed.

Lemma yields_copy_all es1 es2 counts d :
  manifest_of d0 source (es1 ++ es2) -> copying es1 d ->
  exists d', yields (copy_all None source staging counts es2) d d' (Ok (foldl tally counts es2)).
Proof.
  revert es1 counts d. induction es2 as [|e es2 IH]; intros es1 counts d Hm Hc; [by eexists; apply yields_ret|].
  destruct (copying_next _ _ _ _ Hm Hc) as [Hp Hn].
  destruct (manifest_path _ _ _ e Hm) as (Hq & Hg & o & Ho & Ee); [set_solver|].
  pose proof (co_untouched _ _ _ _ _ Hc) as Hu.
  pose proof (untouched_source _ _ _ _ Hst d (split_on SLASH (rel e)) Hu) as Hsrc. rewrite Ho in Hsrc.
  assert (exists d1, yields (copy_all None source staging counts [e]) d d1 (Ok (tally counts e)) /\
    forall d' r, yields (copy_all None source staging (tally counts e) es2) d1 d' r ->
      yields (copy_all None source staging counts (e :: es2)) d d' r) as (d1 & H1 & Hnext).
  { destruct counts as [[files dirs] bytes]. destruct o as [c| | |]; try discriminate Ee; injection Ee as Ee.
    - destruct (yields_copy_file d (join_rel source (rel e)) (join_rel staging (rel e)) c Hsrc Hp Hn) as [d1 H1].
      assert (kind e = file_kind c) as Ek by (by rewrite <- Ee). unfold file_kind in Ek.
      destruct (hash_content c) as [[size crc] fnv]. exists d1. cbn [copy_all tally]. rewrite Ek. split.
      + eapply yields_try; [exact H1|apply yields_ret].
      + intros d' r H. eapply yields_try; [exact H1|exact H].
    - assert (kind e = KDir) as Ek by (by rewrite <- Ee).
      pose proof (yields_make_dir d (Some (join_rel source (rel e))) (join_rel staging (rel e)) Hp Hn) as H1.
      eexists. cbn [copy_all tally]. rewrite Ek. split.
      + eapply yields_try; [apply H1; intros f [= <-]; by eexists|apply yields_ret].
      + intros d' r H. eapply yields_try; [apply H1; intros f [= <-]; by eexists|exact H]. }
  rewrite cons_middle, app_assoc in Hm.
  assert (copying (es1 ++ [e]) d1) as Hc1.
  { apply (yields_runs _ _ _ _ _ H1 (runs_copy_all _ _ _ _ Hst None _ _ [e] _ _ Hm ltac:(set_solver) Hc)). by eexists. }
  destruct (IH _ (tally counts e) d1 Hm Hc1) as (d2 & H2). exists d2. by apply Hnext.
Qed.

(** *** The clean-up *)
Lemma no_symlink_there m d e :
  carried m d -> e ∈ m ->
  no_symlink d source (rel e) = negb (bool_decide (d !! join_rel source (rel e) = None)).
Proof.
  intros Hc He. destruct (manifest_path _ _ _ e (ca_manifest _ _ _ _ _ Hc) He) as (Hq & _ & o & Ho & Ee).
  unfold no_symlink. change (join_rel source (rel e)) with (source ++ split_on SLASH (rel e)).
  set (q := split_on SLASH (rel e)) in *. apply eq_bool_prop_intro. rewrite !Is_true_true. rewrite forallb_forall, negb_true_iff, bool_decide_eq_false.
  split.
  - intros H. specialize (H (S (length q))). rewrite in_seq in H. simpl in H. rewrite firstn_all in H.
    intros E. simpl in E. rewrite E in H. discriminate H. destruct q; [done|simpl; lia].
  - intros Hs k Hk. rewrite in_seq in Hk. simpl in Hk.
    assert (is_Some (d !! (source ++ q))) as Hsome by (by apply not_eq_None_Some).
    destruct (decide (k = S (length q))) as [->|Hne].
    + simpl. rewrite firstn_all. destruct (ca_source _ _ _ _ _ Hc q) as [E|E]; [|done]. simpl in E, Ho. rewrite E, Ho.
      by destruct o.
    + rewrite (wf_below d _ (drop k (source ++ q))); [done|apply (ca_wf _ _ _ _ _ Hc)| | |by rewrite take_drop].
      * destruct k; [lia|done].
      * intros E%(f_equal length). rewrite length_drop in E. simpl in E. lia.
Qed.

Lemma yields_has_link m d e :
  carried m d -> e ∈ m ->
  yields (path_has_no_symlink source (rel e)) d d (negb (bool_decide (d !! join_rel source (rel e) = None))).
Proof.
  intros Hc He. eapply yields_bind; [by apply yields_reading|]. rewrite <- (no_symlink_there m) by done. apply yields_ret.
Qed.

(** Things only go. *)
Definition fewer (d d' : FS) : Prop := forall p, d !! p = None -> d' !! p = None.

Lemma fewer_delete d p : fewer d (delete p d).
Proof. intros q Hq. destruct (decide (p = q)) as [->|Hn]; [apply fs_delete_eq|by rewrite fs_delete_ne]. Qed.

Lemma yields_remove_files m es d :
  carried m d -> (forall e, e ∈ es -> e ∈ m) ->
  exists d', yields (remove_files None source es) d d' (Ok tt) /\ carried m d' /\ fewer d d' /\
    forall e, e ∈ es -> kind e <> KDir -> d' !! join_rel source (rel e) = None.
Proof.
  revert d. induction es as [|e es IH]; intros d Hc Hin.
  { exists d. split_and!; [apply yields_ret|done|by intros p|]. by intros e ?%elem_of_nil. }
  assert (forall e, e ∈ es -> e ∈ m) as Hin' by (intros x Hx; apply Hin; by right). pose proof (Hin e ltac:(by left)) as He.
  assert (exists d1, (forall d' r, yields (remove_files None source es) d1 d' r -> yields (remove_files None source (e :: es)) d d' r) /\
    carried m d1 /\ fewer d d1 /\ (kind e <> KDir -> d1 !! join_rel source (rel e) = None)) as (d1 & Hnext & Hc1 & Hf1 & Hgone).
  { cbn [remove_files]. destruct (manifest_path _ _ _ e (ca_manifest _ _ _ _ _ Hc) He) as (Hq & _ & o & Ho & Ee).
    destruct (kind e) as [|size crc fnv] eqn:Ek; [exists d; split_and!; [done|done|by intros p|done]|]. pose proof (yields_has_link m d e Hc He) as Hl.
    case_bool_decide as Hn.
    - exists d. split_and!; [|done|by intros p|done]. intros d' r H. eapply yields_bind; [exact Hl|exact H].
    - destruct o as [c| | |]; try discriminate Ee; injection Ee as Ee; rewrite <- Ee in Ek; [|discriminate Ek]. unfold file_kind in Ek.
      cbn [kind] in Ek. destruct (hash_content c) as [[s c'] f] eqn:Eh. injection Ek as -> -> ->.
      assert (d !! join_rel source (rel e) = Some (FileObj c)) as Hd
        by (destruct (ca_source _ _ _ _ _ Hc (split_on SLASH (rel e))) as [E|E]; [by rewrite <- Ho|done]).
      exists (delete (join_rel source (rel e)) d). split_and!; [|apply (carried_delete config from legacy d0 Hst); [done..|apply in_tree_app|left; congruence]|
        apply fewer_delete|intros _; apply fs_delete_eq].
      intros d' r H. eapply yields_bind; [exact Hl|]. cbn [negb]. eapply yields_bind; [by apply yields_open|].
      cbv beta iota. rewrite bool_decide_eq_true_2 by done. apply yields_tick.
      eapply yields_try; [by eapply yields_remove_file|exact H]. }
  destruct (IH d1 Hc1 Hin') as (d' & H' & Hc' & Hf' & Hall). exists d'. split_and!; [by apply Hnext|done|intros p ?; by apply Hf', Hf1|].
  intros x [->|Hx]%elem_of_cons Hk; [by apply Hf', Hgone|by apply Hall].
Qed.

(** A directory whose entries that come after it are gone is empty. *)
Lemma dir_emptied m1 e m2 d :
  let m := m1 ++ e :: m2 in
  carried m d -> kind e = KDir -> (forall x, x ∈ m -> kind x <> KDir -> d !! join_rel source (rel x) = None) ->
  (forall x, x ∈ m2 -> d !! join_rel source (rel x) = None) -> children d (join_rel source (rel e)) = [].
Proof.
  cbv zeta. intros Hc Hk Hfiles Hlater. pose proof (ca_manifest _ _ _ _ _ Hc) as Hm.
  destruct (manifest_path _ _ _ e Hm) as (Hq & Hg & o & Ho & Ee); [set_solver|].
  change (join_rel source (rel e)) with (source ++ split_on SLASH (rel e)). set (q := split_on SLASH (rel e)) in *.
  apply children_nil. intros n. rewrite <- app_assoc. destruct (ca_source _ _ _ _ _ Hc (q ++ [n])) as [E|E]; [|done].
  rewrite E. destruct (d0 !! (source ++ q ++ [n])) as [x|] eqn:Hx; [exfalso|done].
  assert (q ++ [n] <> []) as Hne by (by destruct q).
  destruct (mf_good _ _ _ Hm _ _ Hne Hx) as [[e' Ee'] Hg']. pose proof (entry_for_rel _ _ _ Ee') as Er'.
  assert (e' ∈ m1 ++ e :: m2) as He' by (apply (mf_elem _ _ _ Hm); eauto).
  assert (join_rel source (rel e') = source ++ q ++ [n]) as Ej by (unfold join_rel; by rewrite Er', split_rel).
  assert (d !! join_rel source (rel e') = None) as Hgone; [|rewrite Ej, E in Hgone; congruence].
  destruct (sorted_split m1 e m2 e' ltac:(apply Hm) He') as [_ Hin]. apply Hlater, Hin.
  rewrite Er', (entry_for_rel _ _ _ Ee). by apply rel_path_below.
Qed.

Lemma yields_remove_dirs m1 m2 d :
  let m := m1 ++ m2 in
  carried m d -> (forall x, x ∈ m -> kind x <> KDir -> d !! join_rel source (rel x) = None) ->
  (forall x, x ∈ m2 -> d !! join_rel source (rel x) = None) ->
  exists d', yields (remove_dirs None source (reverse m1)) d d' (Ok tt) /\ carried m d' /\ fewer d d' /\
    forall x, x ∈ m -> d' !! join_rel source (rel x) = None.
Proof.
  cbv zeta. revert m2 d. induction m1 as [|e m1 IH] using rev_ind; intros m2 d Hc Hfiles Hlater.
  { exists d. split_and!; [apply yields_ret|done|by intros p|done]. }
  rewrite reverse_snoc. rewrite <- app_assoc in Hc, Hfiles |- *. cbn [app] in Hc, Hfiles |- *.
  assert (e ∈ m1 ++ e :: m2) as He by set_solver.
  assert (exists d1, (forall d' r, yields (remove_dirs None source (reverse m1)) d1 d' r -> yields (remove_dirs None source (e :: reverse m1)) d d' r) /\
    carried (m1 ++ e :: m2) d1 /\ fewer d d1 /\ d1 !! join_rel source (rel e) = None) as (d1 & Hnext & Hc1 & Hf1 & Hgone).
  { cbn [remove_dirs]. destruct (kind e) as [|size crc fnv] eqn:Ek.
    2: { exists d. split_and!; [done|done|by intros p|]. apply Hfiles; [done|congruence]. }
    pose proof (yields_has_link _ d e Hc He) as Hl. case_bool_decide as Hn.
    - exists d. split_and!; [|done|by intros p|done]. intros d' r H. eapply yields_bind; [exact Hl|exact H].
    - pose proof (dir_emptied m1 e m2 d Hc Ek Hfiles Hlater) as Hempty.
      destruct (manifest_path _ _ _ e (ca_manifest _ _ _ _ _ Hc) He) as (_ & _ & o & Ho & Ee).
      assert (d !! join_rel source (rel e) = Some DirObj) as Hd.
      { destruct (ca_source _ _ _ _ _ Hc (split_on SLASH (rel e))) as [E|E]; [|done]. unfold join_rel. rewrite E, Ho.
        destruct o; try discriminate Ee; [|done]. injection Ee as Ee. rewrite <- Ee in Ek. discriminate Ek. }
      exists (delete (join_rel source (rel e)) d). split_and!; [|apply (carried_delete config from legacy d0 Hst);
        [done|apply in_tree_app|by right]|apply fewer_delete|apply fs_delete_eq].
      intros d' r H. eapply yields_bind; [exact Hl|]. cbn [negb]. apply yields_tick.
      eapply yields_bind; [by apply yields_remove_dir|exact H]. }
  destruct (IH (e :: m2) d1 Hc1) as (d' & H' & Hc' & Hf' & Hall).
  - intros x Hx Hk. by apply Hf1, Hfiles.
  - intros x [->|Hx]%elem_of_cons; [done|]. by apply Hf1, Hlater.
  - exists d'. split_and!; [by apply Hnext|done|intros p ?; by apply Hf', Hf1|done].
Qed.

Lemma yields_cleanup m d :
  carried m d -> d !! source = Some DirObj ->
  exists d', yields (cleanup None source m) d d' (Ok true) /\ carried m d' /\ forall t, d' !! (source ++ t) = None.
Proof.
  intros Hc Hs. destruct (yields_remove_files m m d Hc ltac:(done)) as (d1 & Y1 & Hc1 & Hf1 & Hgone1).
  destruct (yields_remove_dirs m [] d1) as (d2 & Y2 & Hc2 & Hf2 & Hgone2).
  { by rewrite app_nil_r. } { rewrite app_nil_r. apply Hgone1. } { by intros x ?%elem_of_nil. }
  rewrite app_nil_r in Hc2, Hgone2. pose proof (ca_manifest _ _ _ _ _ Hc2) as Hm.
  assert (forall t, t <> [] -> d2 !! (source ++ t) = None) as Hall.
  { intros t Ht. destruct (ca_source _ _ _ _ _ Hc2 t) as [E|E]; [|done]. rewrite E.
    destruct (d0 !! (source ++ t)) as [o|] eqn:Ho; [exfalso|done].
    destruct (mf_good _ _ _ Hm _ _ Ht Ho) as [[e Ee] Hg]. assert (e ∈ m) as He by (apply (mf_elem _ _ _ Hm); eauto).
    pose proof (Hgone2 e He) as Hn. unfold join_rel in Hn. rewrite (entry_for_rel _ _ _ Ee), split_rel in Hn by done. congruence. }
  assert (forall d3 r, yields (remove_dir source) d2 d3 r -> d3 !! source = None ->
    yields (cleanup None source m) d d3 (Ok true)) as Hend.
  { intros d3 r H3 Hn. eapply yields_try; [exact Y1|]. eapply yields_try; [exact Y2|]. apply yields_tick.
    eapply yields_bind; [exact H3|]. eapply yields_bind; [by apply yields_no_stat|]. apply yields_ret. }
  assert (children d2 source = []) as Hempty by (apply children_nil; intros n; by apply Hall).
  destruct (ca_source _ _ _ _ _ Hc2 []) as [E|E]; change (source ++ []) with source in E.
  - rewrite (proj2 (st_from _ _ _ _ Hst)) in E. exists (delete source d2). split_and!.
    + eapply Hend; [by apply yields_remove_dir|apply fs_delete_eq].
    + apply (carried_delete config from legacy d0 Hst); [done|apply in_tree_refl|by right].
    + intros t. destruct (decide (t = [])) as [->|Ht]; [apply fs_delete_eq|]. by rewrite fewer_delete by (by apply Hall).
  - exists d2. split_and!; [|done|].
    + eapply (Hend _ (Err NotFound)); [|done]. apply yields_call. unfold lookup_obj. by rewrite E.
    + intros t. destruct (decide (t = [])) as [->|Ht]; [done|by apply Hall].
Qed.

(** *** Carrying over *)
Lemma yields_verify m d :
  untouched d -> scan_tree d source true = Ok m -> scan_tree d staging true = Ok m ->
  yields (verify None source staging m) d d (Ok tt).
Proof.
  intros Hu H1 H2. eapply yields_try; [by apply yields_scan|]. rewrite bool_decide_eq_true_2 by done. cbn [negb].
  eapply yields_try; [by apply yields_scan|]. rewrite bool_decide_eq_true_2 by done. apply yields_ret.
Qed.

Lemma yields_rename m d :
  manifest_of d0 source m -> untouched d -> d !! staging = Some DirObj ->
  (forall t, t <> [] -> d !! (staging ++ t) =
     if decide (t = [MARKER_NAME]) then Some (FileObj (encode_marker from m)) else d0 !! (source ++ t)) ->
  exists d', yields (rename staging dest) d d' (Ok tt) /\ carried m d' /\ d' !! source = Some DirObj.
Proof.
  intros Hm Hu Hd Hcopy. exists (moved staging dest d). split_and!.
  - apply yields_changing. rewrite Hd, bool_decide_eq_true_2, (apart_staging_dest _ _ _ _ Hst []) by done.
    by destruct (un_free _ _ _ Hu) as [->|[-> ->]].
  - by apply (rename_carries config from legacy).
  - rewrite lookup_moved, (apart_dest_source _ _ _ _ Hst []), (apart_staging_source _ _ _ _ Hst []).
    change source with (source ++ []). rewrite (untouched_source _ _ _ _ Hst) by done. apply (st_from _ _ _ _ Hst).
Qed.

Lemma yields_carry m (b : bool) d :
  scan_tree d0 source true = Ok m -> untouched d ->
  (if b then d !! dest = Some DirObj /\ children d dest = [] else d !! dest = None) ->
  exists d', yields (carry None dest staging from b) d d'
      (let '(files, dirs, bytes) := foldl tally (0%nat, 0%nat, 0) m in Ok (Migrated from files dirs bytes true)) /\
    carried m d' /\ forall t, d' !! (source ++ t) = None.
Proof.
  intros Hm Hu Hb. pose proof (scan_tree_spec d0 source m (st_wf _ _ _ _ Hst) ltac:(done) Hm) as Hmf.
  assert (forall d, untouched d -> scan_tree d source true = Ok m) as Hsrc.
  { intros d1 H1. eapply scan_tree_moves; [|exact Hm]. intros t. by apply (untouched_source _ _ _ _ Hst). }
  assert (exists d1, yields (if b then try_mig id (tick None) (fun _ => io "remove" dest (remove_dir dest)) else mret (Ok tt)) d d1 (Ok tt) /\
    untouched d1) as (d1 & Y1 & Hu1).
  { destruct b; [|by exists d; split; [apply yields_ret|]]. destruct Hb as [Hd Hc]. exists (delete dest d). split_and!.
    - apply yields_tick, yields_io. by apply yields_remove_dir.
    - apply (untouched_drop_dest config d0 d); [done|by right]. }
  destruct (yields_remove_tree d1 staging) as [d2 Y2].
  destruct (yields_runs _ _ _ _ _ Y2 (runs_remove_tree staging ltac:(done) None d1 (un_wf _ _ _ Hu1))) as [W2 E2].
  specialize (E2 eq_refl). pose proof (untouched_within _ _ _ _ Hst _ _ Hu1 W2) as Hu2.
  assert (d2 !! staging = None) as En2 by apply (E2 []).
  pose proof (yields_make_dir d2 None staging eq_refl En2 ltac:(done)) as Y3. set (d3 := <[staging := DirObj]> d2) in *.
  pose proof (copying_none _ _ _ _ Hst _ Hu2 E2) as Hc3. fold d3 in Hc3.
  destruct (yields_copy_all [] m (0%nat, 0%nat, 0) d3 Hmf Hc3) as [d4 Y4].
  destruct (yields_runs _ _ _ _ _ Y4 (runs_copy_all _ _ _ _ Hst None m [] m _ _ Hmf ltac:(done) Hc3)) as [Hu4 Hc4].
  specialize (Hc4 ltac:(by eexists)). cbn [app] in Hc4. pose proof (copying_all _ _ _ _ Hst m d4 Hmf Hc4) as Hall.
  pose proof (yields_verify m d4 Hu4 (Hsrc d4 Hu4) (scan_tree_moves _ _ _ _ _ _ Hall Hm)) as Y5.
  destruct (yields_write_marker d4 (staging ++ [MARKER_NAME]) (encode_marker from m)) as [d6 Y6].
  { rewrite parent_ok_snoc. apply orb_true_iff. right. apply bool_decide_eq_true. apply (co_staging _ _ _ _ _ Hc4). }
  { rewrite Hall. apply Hmf. }
  destruct (yields_runs _ _ _ _ _ Y6 (runs_write_marker staging None _ _ _ (un_wf _ _ _ Hu4) (in_tree_app _ _))) as [W6 E6].
  destruct (E6 ltac:(by eexists)) as [Emark Esame]. pose proof (untouched_within _ _ _ _ Hst _ _ Hu4 W6) as Hu6.
  destruct (yields_rename m d6 Hmf Hu6) as (d7 & Y7 & Hc7 & Hs7).
  { rewrite Esame by (intros E; discriminate E). apply (co_staging _ _ _ _ _ Hc4). }
  { intros t Ht. case_decide as Hmk; [by subst t|]. rewrite Esame by (intros [= E]; congruence). apply Hall. }
  destruct (yields_cleanup m d7 Hc7 Hs7) as (d8 & Y8 & Hc8 & Hg8). exists d8. split_and!; [|done..].
  unfold carry. cbv zeta. eapply yields_try; [apply yields_scan, Hsrc, Hu|].
  eapply yields_try; [exact Y1|]. eapply yields_try; [exact Y2|]. eapply yields_try; [exact Y3|].
  eapply yields_try; [exact Y4|]. destruct (foldl tally _ m) as [[files dirs] bytes].
  eapply yields_try; [exact Y5|]. eapply yields_try; [exact Y6|]. apply yields_tick. eapply yields_try; [exact Y7|].
  eapply yields_try; [exact Y8|]. apply yields_ret.
Qed.

(** *** A run *)
Lemma yields_newest d : untouched d -> yields (newest_legacy config (reverse legacy)) d d (Ok (Some from)).
Proof.
  intros Hu. destruct (start_newest _ _ _ _ Hst d Hu) as (l1 & l2 & -> & Hn).
  pose proof (untouched_source _ _ _ _ Hst d [] Hu) as Hs. change (source ++ []) with source in Hs.
  destruct (st_from _ _ _ _ Hst) as [Hne Hd]. rewrite Hd in Hs.
  induction l1 as [|x l1 IH]; cbn [newest_legacy app].
  - rewrite decide_False by done. eapply yields_bind; [by apply yields_stat|]. apply yields_ret.
  - assert (forall n, n ∈ l1 -> n = config \/ d !! [n] = None) as Hn' by (intros n Hi; apply Hn; by right).
    destruct (decide (x = config)) as [|Hx]; [by apply IH|]. destruct (Hn x ltac:(by left)) as [?|E]; [done|].
    eapply yields_bind; [by apply yields_no_stat|]. by apply IH.
Qed.

Lemma yields_run_untouched m d :
  scan_tree d0 source true = Ok m -> untouched d ->
  exists d', yields migrates d d'
      (let '(files, dirs, bytes) := foldl tally (0%nat, 0%nat, 0) m in Ok (Migrated from files dirs bytes true)) /\
    carried m d' /\ forall t, d' !! (source ++ t) = None.
Proof.
  intros Hm Hu. unfold run. rewrite (st_valid _ _ _ _ Hst). cbv zeta. pose proof (yields_newest d Hu) as Hnew.
  destruct (un_free _ _ _ Hu) as [Hn|[Hd Hc]].
  - destruct (yields_carry m false d Hm Hu Hn) as (d' & Y & H). exists d'. split; [|exact H].
    eapply yields_bind; [by apply yields_no_stat|]. eapply yields_try; [exact Hnew|exact Y].
  - destruct (yields_carry m true d Hm Hu (conj Hd Hc)) as (d' & Y & H). exists d'. split; [|exact H].
    eapply yields_bind; [by apply yields_stat|]. eapply yields_bind.
    { eapply yields_bind; [apply yields_reading; reflexivity|]. unfold content, lookup_obj.
      rewrite (free_nothing _ _ d [MARKER_NAME] Hu) by done. apply yields_ret. }
    eapply yields_try.
    { apply yields_reading. unfold lookup_obj. rewrite Hd. reflexivity. }
    rewrite Hc. eapply yields_try; [exact Hnew|exact Y].
Qed.

Lemma yields_run_carried m d :
  carried m d ->
  exists d' o, yields migrates d d' (Ok o) /\ carried m d' /\ (forall t, d' !! (source ++ t) = None) /\
    (d !! source = None -> o = AlreadyCurrent /\ d' = d).
Proof.
  intros Hc. pose proof (ca_copy _ _ _ _ _ Hc [MARKER_NAME] ltac:(done)) as Hmk. rewrite decide_True in Hmk by done.
  destruct (marker_reads _ _ _ _ Hst m (ca_manifest _ _ _ _ _ Hc)) as [Hu8 Hparse].
  assert (forall d' r, yields (finish None from m) d d' r -> yields migrates d d' r) as Hrun.
  { intros d' r Y. unfold run. rewrite (st_valid _ _ _ _ Hst). cbv zeta.
    eapply yields_bind; [by apply yields_stat, Hc|]. eapply (yields_bind _ _ _ _ _ (Some (from, m))); [|exact Y].
    eapply yields_bind; [by apply yields_open|]. cbv beta iota. rewrite Hu8, Hparse. apply yields_ret. }
  destruct (ca_source _ _ _ _ _ Hc []) as [E|E]; change (source ++ []) with source in E.
  - rewrite (proj2 (st_from _ _ _ _ Hst)) in E. destruct (yields_cleanup m d Hc E) as (d' & Y & Hc' & Hg).
    exists d', (CleanedUp true). split_and!; [|done|done|congruence]. apply Hrun.
    eapply yields_bind; [by apply yields_stat|]. eapply yields_try; [exact Y|]. apply yields_ret.
  - exists d, AlreadyCurrent. split_and!; [|done| |done].
    + apply Hrun. eapply yields_bind; [by apply yields_no_stat|]. apply yields_ret.
    + intros [|n t]; [by rewrite app_nil_r|]. apply wf_nothing_below; [apply Hc|done|congruence|done].
Qed.
End migration.
