(* ===== verification/MigrateUses.v ===== *)
(** * The guarantees of a migration

    What the protocol keeps through any number of interrupted runs, that it
    finishes, what it never touches, and a case in which it does not hold. *)
From stdpp Require Import gmap sets.
From S2P Require Import Keys Prelude Bytes OrdMap Text Chars Checksum Marker Migrate MigrateFs MigrateProps MigrateDone.
Local Open Scope Z_scope.

(** ** Sessions *)
(** One start of the program: the test hook, if any, and the fate of the calls. *)
Definition session : Type := option (Z -> bool) * list Event.

Definition start_once (config : list byte) (legacy : list (list byte)) (d : FS) (s : session) : FS :=
  fs (run s.1 config legacy {| fs := d; events := s.2; ops := 0 |}).1.

Definition after (config : list byte) (legacy : list (list byte)) (d : FS) (ss : list session) : FS :=
  foldl (start_once config legacy) d ss.

Lemma after_phase config from legacy d0 d ss :
  start_ok config from legacy d0 -> phase config from d0 d -> phase config from d0 (after config legacy d ss).
Proof.
  intros Hst. revert d. induction ss as [|[h evs] ss IH]; intros d Hp; [done|]. apply IH. unfold start_once. simpl.
  pose proof (runs_run config from legacy d0 Hst h d Hp evs 0) as H. by destruct (run _ _ _ _).
Qed.

Lemma runs_once {A} (m : mig A) d Q w : runs m d Q -> fs w = d -> Q (fs (m w).1) (m w).2.
Proof. intros H <-. destruct w as [d evs n]. specialize (H evs n). simpl. by destruct (m _). Qed.

Lemma outside a n t : n <> a -> in_tree [a] (n :: t) = false.
Proof. intros H. rewrite in_tree_single. by apply bool_decide_eq_false. Qed.

(** ** What an interruption leaves *)
(** C11: after any number of starts, each with any calls failing and the process
    dying in any of them, either the old profile is whole and there is no new one,
    or the new one holds exactly the old one and a marker that reads back, and of
    the old one there is nothing that was not there; and of the rest under the root
    only the staging directory has changed. *)
Theorem migration_loses_nothing config from legacy d0 ss :
  start_ok config from legacy d0 ->
  let d := after config legacy d0 ss in
  (((forall t, d !! (from :: t) = d0 !! (from :: t)) /\ (forall t, t <> [] -> d !! (config :: t) = None)) \/
   (exists m, (forall t, t <> [] -> d !! (config :: t) =
        if decide (t = [MARKER_NAME]) then Some (FileObj (encode_marker from m)) else d0 !! (from :: t)) /\
      parse_marker (encode_marker from m) = Some (from, m) /\
      (forall t, d !! (from :: t) = d0 !! (from :: t) \/ d !! (from :: t) = None))) /\
  (forall n t, n <> config -> n <> from -> n <> config ++ STAGING_SUFFIX -> d !! (n :: t) = d0 !! (n :: t)).
Proof.
  intros Hst d. destruct (after_phase config from legacy d0 d0 ss Hst) as [Hu|[m Hc]].
  { left. by eapply untouched_start. }
  - fold d in Hu. split; [left; split|].
    + intros t. by apply (untouched_source _ _ _ _ Hst d t).
    + intros t. by apply (free_nothing _ _ d t Hu).
    + intros n t Hn1 Hn2 Hn3. apply (un_same _ _ _ Hu); [by apply outside|]. congruence.
  - fold d in Hc. split; [right; exists m; split_and!|].
    + apply Hc.
    + by apply (marker_reads _ _ _ _ Hst m), Hc.
    + apply (ca_source _ _ _ _ _ Hc).
    + intros n t Hn1 Hn2 Hn3. apply (ca_same _ _ _ _ _ Hc); by apply outside.
Qed.

(** ** A run that nothing interrupts *)
(** C30: if the old profile can be listed, then whatever earlier starts went
    through, a run in which every call succeeds reports success and leaves the
    whole old profile under the new name and nothing under the old; a further run
    changes nothing and says that the profile is current. *)
Theorem migration_completes config from legacy d0 m ss :
  start_ok config from legacy d0 -> scan_tree d0 [from] true = Ok m ->
  let d := after config legacy d0 ss in
  exists d' o, yields (migrate config legacy) d d' (Ok o) /\
    (forall t, t <> [] -> t <> [MARKER_NAME] -> d' !! (config :: t) = d0 !! (from :: t)) /\
    (forall t, d' !! (from :: t) = None) /\
    yields (migrate config legacy) d' d' (Ok AlreadyCurrent).
Proof.
  intros Hst Hm d. unfold migrate.
  assert (exists m' d' o, yields (run None config legacy) d d' (Ok o) /\ carried config from d0 m' d' /\
    forall t, d' !! ([from] ++ t) = None) as (m' & d' & o & Y & Hc & Hg).
  { destruct (after_phase config from legacy d0 d0 ss Hst) as [Hu|[m' Hc]].
    - left. by eapply untouched_start.
    - destruct (yields_run_untouched _ _ _ _ Hst m d Hm Hu) as (d' & Y & Hc & Hg).
      destruct (foldl tally _ m) as [[files dirs] bytes]. by exists m, d', (Migrated from files dirs bytes true).
    - destruct (yields_run_carried _ _ _ _ Hst m' d Hc) as (d' & o & Y & Hc' & Hg & _). by exists m', d', o. }
  exists d', o. split_and!; [done| |exact Hg|].
  - intros t Ht Hmk. pose proof (ca_copy _ _ _ _ _ Hc t Ht) as E. by rewrite decide_False in E.
  - destruct (yields_run_carried _ _ _ _ Hst m' d' Hc) as (d2 & o2 & Y2 & _ & _ & Hend).
    destruct (Hend (Hg [])) as [-> ->]. exact Y2.
Qed.

(** a migration that starts from a listed profile and is not interrupted
    answers with the numbers of files and directories of the profile and the bytes
    of its files, and that the old directory is gone. *)
Theorem first_run_reports config from legacy d0 m :
  start_ok config from legacy d0 -> scan_tree d0 [from] true = Ok m ->
  let '(files, dirs, bytes) := foldl tally (0%nat, 0%nat, 0) m in
  exists d', yields (migrate config legacy) d0 d' (Ok (Migrated from files dirs bytes true)).
Proof.
  intros Hst Hm. destruct (yields_run_untouched _ _ _ _ Hst m d0 Hm (untouched_start _ _ _ _ Hst)) as (d' & Y & _).
  destruct (foldl tally _ m) as [[files dirs] bytes]. by exists d'.
Qed.

(** ** What is never touched *)
(** A directory that holds something and no valid marker. *)
Definition in_use (config : list byte) (d : FS) : Prop :=
  d !! [config] = Some DirObj /\ children d [config] <> [] /\
  forall c, d !! [config; MARKER_NAME] = Some (FileObj c) -> is_utf8 c = false \/ parse_marker c = None.

(** a new profile that is in use, or something under its name that is not a
    directory, stops every run before it changes anything. *)
Theorem profile_in_use_is_left config legacy d (s : session) :
  in_use config d \/ (exists o, d !! [config] = Some o /\ o <> DirObj) ->
  start_once config legacy d s = d.
Proof.
  intros H. unfold start_once. destruct s as [hook evs]. cbn [fst snd].
  assert (runs (run hook config legacy) d (fun d' _ => d' = d)) as Hr; [|specialize (Hr evs 0); by destruct (run _ _ _ _)].
  unfold run. destruct (first_invalid _); [by apply mig_runs_ret|]. cbv zeta. apply mig_runs_bind.
  eapply mig_runs_mono; [apply quiet_reading|]. intros d' [[o|e]|] (-> & Ho & Hnf); [| |done].
  2: { destruct e; [|by apply mig_runs_ret]. specialize (Hnf eq_refl). unfold lookup_obj in Hnf.
    by destruct H as [(E & _)|(o & E & _)]; rewrite E in Hnf. }
  specialize (Ho o eq_refl). unfold lookup_obj in Ho. destruct H as [(E & Hc & Hm)|(o' & E & Hne)]; rewrite E in Ho.
  - injection Ho as <-. apply mig_runs_bind. eapply mig_runs_mono; [apply runs_read_marker|].
    intros d' [[[f m]|]|] [-> Hmk]; [| |done].
    + destruct (Hmk f m eq_refl) as (c & E' & Hu & Hp). destruct (Hm c E'); congruence.
    + apply mig_runs_try. eapply mig_runs_mono; [apply quiet_reading|]. intros d' [[l|e]|] (-> & Hl & _); [|done..].
      specialize (Hl l eq_refl). unfold lookup_obj in Hl. rewrite E in Hl. injection Hl as <-.
      rewrite bool_decide_eq_false_2 by done. by apply mig_runs_ret.
  - injection Ho as <-. destruct o'; by apply mig_runs_ret || done.
Qed.

(** What a clean-up may take: a file that is still what its entry says, or an
    emptied directory that is listed. *)
Definition may_go (source : path) (es : list Entry) (d : FS) (p : path) : Prop :=
  (exists e c, e ∈ es /\ p = join_rel source (rel e) /\ d !! p = Some (FileObj c) /\ kind e = file_kind c) \/
  (d !! p = Some DirObj /\ (p = source \/ exists e, e ∈ es /\ p = join_rel source (rel e) /\ kind e = KDir)).

Definition only_listed (source : path) (es : list Entry) (d d' : FS) : Prop :=
  forall p, d' !! p = d !! p \/ (d' !! p = None /\ may_go source es d p).

Lemma only_listed_refl source es d : only_listed source es d d.
Proof. intros p. by left. Qed.

Lemma only_listed_trans source es d1 d2 d3 :
  only_listed source es d1 d2 -> only_listed source es d2 d3 -> only_listed source es d1 d3.
Proof.
  intros H1 H2 p. destruct (H2 p) as [->|[E Hgo]]; [apply H1|]. destruct (H1 p) as [E1|[E1 Hgo1]]; [|by right].
  right. split; [done|]. destruct Hgo as [(e & c & He & Hp & Hc & Hk)|[Hd Hl]]; [left; exists e, c|right].
  - rewrite <- E1. by split_and!.
  - by rewrite <- E1.
Qed.

Lemma only_listed_delete source es d p : may_go source es d p -> only_listed source es d (delete p d).
Proof.
  intros Hp q. destruct (decide (p = q)) as [<-|Hn]; [right; split; [apply fs_delete_eq|done]|left; by apply fs_delete_ne].
Qed.

Section cleaning.
Context (hook : option (Z -> bool)) (source : path) (all : list Entry).

Lemma runs_remove (rm : path -> mig (result ErrorKind unit)) p d (f : FS -> result ErrorKind FS) :
  rm p = changing f -> (forall d', f d = Ok d' -> only_listed source all d d') ->
  runs (rm p) d (fun d' _ => only_listed source all d d').
Proof.
  intros -> Hf. eapply mig_runs_mono; [apply runs_changing|]. pose proof (only_listed_refl source all d).
  intros d' [[u|e]|] Hd; [by apply Hf|destruct Hd as [->|Hd]; [done|by apply Hf]..].
Qed.

Lemma runs_drop_files es d :
  (forall e, e ∈ es -> e ∈ all) -> runs (remove_files hook source es) d (fun d' _ => only_listed source all d d').
Proof.
  revert d. induction es as [|e es IH]; intros d Hin; [apply mig_runs_ret, only_listed_refl|]. cbn [remove_files].
  assert (forall d, runs (remove_files hook source es) d (fun d' _ => only_listed source all d d')) as IH'
    by (intros d'; apply IH; intros x Hx; apply Hin; by right). pose proof (only_listed_refl source all d) as Hrefl.
  destruct (kind e) as [|size crc fnv] eqn:Ek; [done|]. apply mig_runs_bind.
  eapply mig_runs_mono; [apply runs_has_link|]. intros d' [[]|] ->; [|by apply IH'|done]. cbn [negb]. cbv zeta.
  apply mig_runs_bind. eapply mig_runs_mono; [apply quiet_reading|]. intros d' [[c|err]|] (-> & Hc & _); [|apply IH'|done].
  case_bool_decide as Hh; [|apply IH']. specialize (Hc c eq_refl). apply content_Some in Hc.
  apply runs_try_tick; [done|]. apply mig_runs_try. eapply mig_runs_mono.
  { eapply (runs_remove remove_file); [reflexivity|]. intros d' E. unfold lookup_obj in E. rewrite Hc in E. injection E as <-.
    apply only_listed_delete. left. exists e, c. split_and!; [apply Hin; by left|done..|]. unfold file_kind. by rewrite Hh. }
  intros d1 [[[]|err]|] H1; [|done..]. eapply mig_runs_mono; [apply IH'|]. intros d2 r H2. by eapply only_listed_trans.
Qed.

Lemma runs_drop_dir p d :
  p = source \/ (exists e, e ∈ all /\ p = join_rel source (rel e) /\ kind e = KDir) ->
  runs (remove_dir p) d (fun d' _ => only_listed source all d d').
Proof.
  intros Hp. eapply (runs_remove remove_dir); [reflexivity|]. intros d'. unfold lookup_obj.
  destruct (d !! p) as [[]|] eqn:E; simpl; try done. case_bool_decide; [|done]. intros [= <-].
  apply only_listed_delete. by right.
Qed.

Lemma runs_drop_dirs es d :
  (forall e, e ∈ es -> e ∈ all) -> runs (remove_dirs hook source es) d (fun d' _ => only_listed source all d d').
Proof.
  revert d. induction es as [|e es IH]; intros d Hin; [apply mig_runs_ret, only_listed_refl|]. cbn [remove_dirs].
  assert (forall d, runs (remove_dirs hook source es) d (fun d' _ => only_listed source all d d')) as IH'
    by (intros d'; apply IH; intros x Hx; apply Hin; by right). pose proof (only_listed_refl source all d) as Hrefl.
  destruct (kind e) as [|size crc fnv] eqn:Ek; [|done]. apply mig_runs_bind.
  eapply mig_runs_mono; [apply runs_has_link|]. intros d' [[]|] ->; [|by apply IH'|done]. cbn [negb].
  apply runs_try_tick; [done|]. apply mig_runs_bind. eapply mig_runs_mono.
  { apply runs_drop_dir. right. exists e. split_and!; [apply Hin; by left|done..]. }
  intros d1 [r|] H1; [|done]. eapply mig_runs_mono; [apply IH'|]. intros d2 r2 H2. by eapply only_listed_trans.
Qed.
End cleaning.

(** cleaning up by a manifest, even one that was tampered with, removes
    nothing but files whose length and checksums are the listed ones and
    directories that are listed, once empty: what was added or changed stays. *)
Theorem cleanup_takes_only_listed hook source es d evs n :
  only_listed source es d (fs (cleanup hook source es {| fs := d; events := evs; ops := n |}).1).
Proof.
  assert (runs (cleanup hook source es) d (fun d' _ => only_listed source es d d')) as Hr;
    [|specialize (Hr evs n); by destruct (cleanup _ _ _ _)].
  apply mig_runs_try. eapply mig_runs_mono; [by apply runs_drop_files|]. intros d1 [[[]|e]|] H1; [|done..].
  apply mig_runs_try. eapply mig_runs_mono; [apply (runs_drop_dirs hook source es); intros e; by rewrite elem_of_reverse|].
  intros d2 [[[]|e]|] H2; pose proof (only_listed_trans _ _ _ _ _ H1 H2) as H12; [|done..].
  apply runs_try_tick; [done|]. apply mig_runs_bind. eapply mig_runs_mono; [apply (runs_drop_dir source es); by left|].
  intros d3 [r|] H3; pose proof (only_listed_trans _ _ _ _ _ H12 H3); [|done].
  apply mig_runs_bind. eapply mig_runs_mono; [apply quiet_reading|]. intros d4 [r4|] (-> & _); [by apply mig_runs_ret|done].
Qed.

(** ** The marker *)
(** the marker of any manifest of safe names, under a plain name without a
    line feed, is text and is read back as it was. *)
Theorem marker_roundtrip from entries :
  name_is_plain from = true -> is_utf8 from = true -> NEWLINE ∉ from -> Forall entry_ok entries ->
  (length entries <= MAX_ENTRIES)%nat ->
  is_utf8 (encode_marker from entries) = true /\ parse_marker (encode_marker from entries) = Some (from, entries).
Proof. intros. split; [by apply encode_marker_utf8|by apply parse_encoded]. Qed.

(** ** The digest *)
Lemma hash_chunks_from h chunks :
  foldl hash_chunk h chunks =
    (let '(size, crc, fnv) := h in
     (size + len (concat chunks), crc32_update crc (concat chunks), fnv1a64_update fnv (concat chunks))).
Proof.
  revert h. induction chunks as [|c chunks IH]; intros [[size crc] fnv].
  - simpl. unfold crc32_update, fnv1a64_update, len. simpl. by rewrite not32_invol, Z.add_0_r.
  - cbn [foldl concat hash_chunk]. rewrite IH, crc32_update_app, fnv1a64_update_app.
    unfold len. rewrite length_app, Nat2Z.inj_add. f_equal. f_equal. lia.
Qed.

(** However the reads cut a file up, its digest is the same. *)
Lemma hash_chunks_concat chunks : hash_chunks chunks = hash_content (concat chunks).
Proof. unfold hash_content, hash_chunks. rewrite !hash_chunks_from. cbn [concat]. by rewrite app_nil_r. Qed.

(** ** On a small profile *)
Definition entry_checked (d : FS) (kv : path * obj) : bool :=
  parent_ok d kv.1 && match kv.2 with FileObj c => len c <=? U64_MAX | _ => true end.

Lemma checked_tree (d : FS) :
  forallb (entry_checked d) (map_to_list d) = true ->
  wf d /\ forall p c, d !! p = Some (FileObj c) -> len c <= U64_MAX.
Proof.
  intros H. assert (forall p o, d !! p = Some o -> entry_checked d (p, o) = true) as Hall.
  { intros p o Ho. apply (proj1 (forallb_forall _ _) H), list_elem_of_In. by apply elem_of_map_to_list. }
  split; [split|].
  - intros p n [o Ho]. pose proof (Hall _ _ Ho) as E. unfold entry_checked in E. apply andb_true_iff in E as [E _].
    simpl in E. rewrite parent_ok_snoc in E. apply orb_true_iff in E as [E|E]; [left|right]; by apply bool_decide_eq_true in E.
  - destruct (d !! []) as [o|] eqn:Ho; [|done]. by specialize (Hall _ _ Ho).
  - intros p c Ho. pose proof (Hall _ _ Ho) as E. unfold entry_checked in E. apply andb_true_iff in E as [_ E]. simpl in E. lia.
Qed.

Module MigrateExamples.
Import MigrateSample.

Lemma profile_ok : start_ok new old [old] profile.
Proof.
  destruct (checked_tree profile ltac:(vm_compute; reflexivity)) as [Hw Hs]. split.
  - vm_compute. reflexivity.
  - exact Hw.
  - exists [], []. split; [done|]. by intros n ?%elem_of_nil.
  - split; [done|vm_compute; reflexivity].
  - apply (bool_decide_unpack _). vm_compute. exact I.
  - left. vm_compute. reflexivity.
  - split; [vm_compute; reflexivity|]. apply (bool_decide_unpack _). vm_compute. exact I.
  - intros q c. apply Hs.
Qed.

Definition listed : list Entry :=
  [mkEntry (lit "a") (file_kind (lit "hello")); mkEntry (lit "d") KDir; mkEntry (lit "d/b") (file_kind (lit "x"))].

Lemma profile_listed : scan_tree profile [old] true = Ok listed.
Proof. vm_compute. reflexivity. Qed.

(** The process dies in the sixth call, then every write fails, then all is well. *)
Definition dies : Event := {| fate := Die; amount := 2; survives := fun _ => true |}.
Definition fails : Event := {| fate := Bad; amount := 1; survives := fun _ => true |}.
Definition trouble : list session :=
  [(None, [good; good; good; good; good; dies]); (Some (fun n => n =? 3), []); (None, repeat good 12 ++ [fails])].

Lemma migration_loses_nothing_witness :
  start_ok new old [old] profile /\ forall n t, n <> new -> n <> old -> n <> new ++ STAGING_SUFFIX ->
    after new [old] profile trouble !! (n :: t) = profile !! (n :: t).
Proof. split; [exact profile_ok|]. exact (proj2 (migration_loses_nothing new old [old] profile trouble profile_ok)). Defined.

Lemma migration_completes_witness :
  exists d' o, yields (migrate new [old]) (after new [old] profile trouble) d' (Ok o) /\
    d' !! [new; lit "d"; lit "b"] = Some (FileObj (lit "x")).
Proof.
  destruct (migration_completes new old [old] profile listed trouble profile_ok profile_listed) as (d' & o & Y & Hc & _ & _).
  exists d', o. split; [exact Y|]. rewrite (Hc [lit "d"; lit "b"]); [|discriminate|discriminate]. vm_compute. reflexivity.
Defined.

Lemma first_run_reports_witness :
  exists d', yields (migrate new [old]) profile d' (Ok (Migrated old 2 1 6 true)).
Proof. exact (first_run_reports new old [old] profile listed profile_ok profile_listed). Defined.

(** A profile of the new name that was used. *)
Definition used : FS := <[[new] := DirObj]> (<[[new; lit "a"] := FileObj (lit "mine")]> profile).

Lemma used_in_use : in_use new used.
Proof.
  split; [vm_compute; reflexivity|]. split.
  - intros E. assert (lit "a" ∈ children used [new]) as H by (apply elem_of_children; vm_compute; by eexists).
    rewrite E in H. by apply elem_of_nil in H.
  - intros c. assert (used !! [new; MARKER_NAME] = None) as -> by (vm_compute; reflexivity). done.
Qed.

Lemma profile_in_use_is_left_witness : start_once new [old] used (None, []) = used.
Proof. exact (profile_in_use_is_left new [old] used (None, []) (or_introl used_in_use)). Defined.

Lemma listed_ok : Forall entry_ok listed.
Proof. repeat constructor; vm_compute; try reflexivity; discriminate. Qed.

Lemma marker_roundtrip_witness : parse_marker (encode_marker old listed) = Some (old, listed).
Proof.
  apply (marker_roundtrip old listed).
  - vm_compute. reflexivity.
  - vm_compute. reflexivity.
  - apply (bool_decide_unpack _). vm_compute. exact I.
  - exact listed_ok.
  - apply Nat2Z.inj_le. rewrite MAX_ENTRIES_Z. vm_compute. discriminate.
Defined.

(** If the name of the staging directory is the old profile's, the old profile is
    wiped before it is copied. *)
Definition staged : FS :=
  list_to_map [([new ++ STAGING_SUFFIX], DirObj); ([new ++ STAGING_SUFFIX; lit "a"], FileObj (lit "hello"))].

Lemma staging_wipes_the_profile :
  first_invalid [new; new ++ STAGING_SUFFIX] = None /\
  let w := migrate new [new ++ STAGING_SUFFIX] (boot staged) in
  map_to_list (fs w.1) = [([new ++ STAGING_SUFFIX], DirObj)] /\
  w.2 = Some (Err (Io "open" [new ++ STAGING_SUFFIX; lit "a"] NotFound)).
Proof. vm_compute. done. Qed.

(** A line feed is a plain name's, and such a marker does not read back. *)
Lemma line_feed_marker :
  name_is_plain (lit "ol" ++ [NEWLINE]) = true /\ parse_marker (encode_marker (lit "ol" ++ [NEWLINE]) []) = None.
Proof. vm_compute. done. Qed.
End MigrateExamples.
