(* ===== verification/DomNode.v ===== *)
(** * Nodes and handles (px-dom/src/handle.rs, node.rs, snapshot.rs)

    Generational handles and their packed form, the payload and the five links of
    a node, the prior-state record of an element, and the chunked slot storage of
    the arena with its refinement to a flat vector. *)
From S2P Require Import Prelude Bytes.
Local Open Scope Z_scope.

(** ** Handles *)
(** [index] is a [u32], [generation] a [NonZeroU32]. *)
Record NodeId := { index : N; generation : N }.

#[export] Instance NodeId_eq_dec : EqDecision NodeId.
Proof. solve_decision. Defined.

Definition NodeId_new (index generation : N) : NodeId :=
  {| index := index; generation := generation |}.

(** The first and the last generation of a slot. *)
Definition GEN_MIN : N := 1.
Definition GEN_MAX : N := 2 ^ 32 - 1.

(** [NonZeroU32::checked_add(1)]. *)
Definition next_generation (g : N) : option N :=
  if (g <? GEN_MAX)%N then Some (g + 1)%N else None.

(** Index in the high half, generation in the low half; the zero word, which
    cannot occur, would become [NonZeroUsize::MIN]. *)
Definition to_opaque (id : NodeId) : Z :=
  let packed := Z.lor (Z.shiftl (Z.of_N (index id)) 32) (Z.of_N (generation id)) in
  if decide (packed = 0) then 1 else packed.

Definition from_opaque (value : Z) : option NodeId :=
  let g := Z.land value 0xFFFFFFFF in
  if decide (g = 0) then None
  else
    i ← try_from U32_MAX (Z.shiftr value 32);
    Some {| index := Z.to_N i; generation := Z.to_N g |}.

(** A handle the arena can hand out. *)
Definition handle_ok (id : NodeId) : Prop :=
  (index id < 2 ^ 32)%N /\ (0 < generation id < 2 ^ 32)%N.

(** ** Names and attributes *)
(** The qualified names of html5ever: compared for equality, with a namespace
    and a local part that can be read. *)
Class QualNames (Q : Type) := {
  qual_eq :: EqDecision Q;
  qual_ns : Q -> list byte;
  qual_local : Q -> list byte
}.

Record Attribute (Q : Type) := { attr_name : Q; attr_value : list byte }.
Arguments attr_name {Q} _.
Arguments attr_value {Q} _.

Inductive NodeData (Q : Type) :=
| Document
| Fragment
| Doctype (name public_id system_id : list byte)
| Text (contents : list byte)
| Comment (contents : list byte)
| Element (name : Q) (attrs : list (Attribute Q)) (template_contents : option NodeId)
    (script_already_started : bool)
| ProcessingInstruction (target contents : list byte).
Arguments Document {Q}.
Arguments Fragment {Q}.
Arguments Doctype {Q} _ _ _.
Arguments Text {Q} _.
Arguments Comment {Q} _.
Arguments Element {Q} _ _ _ _.
Arguments ProcessingInstruction {Q} _ _.

Record Node (Q : Type) := mkNode {
  parent : option NodeId;
  first_child : option NodeId;
  last_child : option NodeId;
  prev_sibling : option NodeId;
  next_sibling : option NodeId;
  data : NodeData Q
}.
Arguments mkNode {Q} _ _ _ _ _ _.
Arguments parent {Q} _.
Arguments first_child {Q} _.
Arguments last_child {Q} _.
Arguments prev_sibling {Q} _.
Arguments next_sibling {Q} _.
Arguments data {Q} _.

Definition MATHML_NS : list byte := lit "http://www.w3.org/1998/Math/MathML".

Section node.
Context {Q : Type} `{QualNames Q}.
Implicit Types (n : Node Q).

Definition Node_new (d : NodeData Q) : Node Q := mkNode None None None None None d.

(** Assignment to one field. *)
Definition set_parent (v : option NodeId) n : Node Q :=
  mkNode v (first_child n) (last_child n) (prev_sibling n) (next_sibling n) (data n).
Definition set_first (v : option NodeId) n : Node Q :=
  mkNode (parent n) v (last_child n) (prev_sibling n) (next_sibling n) (data n).
Definition set_last (v : option NodeId) n : Node Q :=
  mkNode (parent n) (first_child n) v (prev_sibling n) (next_sibling n) (data n).
Definition set_prev (v : option NodeId) n : Node Q :=
  mkNode (parent n) (first_child n) (last_child n) v (next_sibling n) (data n).
Definition set_next (v : option NodeId) n : Node Q :=
  mkNode (parent n) (first_child n) (last_child n) (prev_sibling n) v (data n).
Definition set_data (v : NodeData Q) n : Node Q :=
  mkNode (parent n) (first_child n) (last_child n) (prev_sibling n) (next_sibling n) v.

Definition detach_links n : Node Q := set_next None (set_prev None (set_parent None n)).

Definition element_name n : option Q :=
  match data n with Element name _ _ _ => Some name | _ => None end.
Definition node_attrs n : option (list (Attribute Q)) :=
  match data n with Element _ attrs _ _ => Some attrs | _ => None end.
Definition node_text n : option (list byte) :=
  match data n with Text contents => Some contents | _ => None end.
Definition script_already_started_of n : bool :=
  match data n with Element _ _ _ b => b | _ => false end.
Definition template_contents_of n : option NodeId :=
  match data n with Element _ _ t _ => t | _ => None end.

Definition is_mathml_annotation_xml_integration_point n : bool :=
  match data n with
  | Element name attrs _ _ =>
      if negb (bool_decide (qual_ns name = MATHML_NS)) ||
         negb (bool_decide (qual_local name = lit "annotation-xml"))
      then false
      else existsb (fun attr =>
        bool_decide (qual_local (attr_name attr) = lit "encoding") &&
        (eq_ignore_ascii_case (attr_value attr) (lit "text/html") ||
         eq_ignore_ascii_case (attr_value attr) (lit "application/xhtml+xml"))) attrs
  | _ => false
  end.

(** A document, a fragment or an element. *)
Definition can_have_children n : bool :=
  match data n with Document | Fragment | Element _ _ _ _ => true | _ => false end.

End node.

(** ** Snapshots of elements *)
Record ElementSnapshot (Q : Type) := {
  snap_attrs : list (Attribute Q);
  class_changed : bool;
  id_changed : bool;
  other_attributes_changed : bool
}.
Arguments snap_attrs {Q} _.
Arguments class_changed {Q} _.
Arguments id_changed {Q} _.
Arguments other_attributes_changed {Q} _.

Section snapshot.
Context {Q : Type} `{QualNames Q}.

Definition capture (attrs : list (Attribute Q)) : ElementSnapshot Q :=
  {| snap_attrs := attrs; class_changed := false; id_changed := false;
     other_attributes_changed := false |}.

(** [Iterator::find] by name. *)
Fixpoint find_attr (name : Q) (attrs : list (Attribute Q)) : option (list byte) :=
  match attrs with
  | [] => None
  | a :: attrs => if decide (attr_name a = name) then Some (attr_value a) else find_attr name attrs
  end.

Definition snap_attr (s : ElementSnapshot Q) (name : Q) : option (list byte) :=
  find_attr name (snap_attrs s).

Definition note_change (name : Q) (s : ElementSnapshot Q) : ElementSnapshot Q :=
  if bool_decide (qual_ns name = []) && bool_decide (qual_local name = lit "class") then
    {| snap_attrs := snap_attrs s; class_changed := true; id_changed := id_changed s;
       other_attributes_changed := other_attributes_changed s |}
  else if bool_decide (qual_ns name = []) && bool_decide (qual_local name = lit "id") then
    {| snap_attrs := snap_attrs s; class_changed := class_changed s; id_changed := true;
       other_attributes_changed := other_attributes_changed s |}
  else
    {| snap_attrs := snap_attrs s; class_changed := class_changed s; id_changed := id_changed s;
       other_attributes_changed := true |}.

End snapshot.

(** ** Slot storage *)
Record Slot (Q : Type) := { slot_generation : N; slot_node : option (Node Q) }.
Arguments slot_generation {Q} _.
Arguments slot_node {Q} _.

Definition CHUNK_SLOTS : nat := 1024.

Module Slots.
Section slots.
Context {A : Type} (filler : A).

Record t := { chunks : list (list A); len : nat }.

Definition new : t := {| chunks := []; len := 0 |}.

Definition get (s : t) (i : nat) : option A :=
  if (len s <=? i)%nat then None
  else chunk ← chunks s !! (i / CHUNK_SLOTS)%nat; chunk !! (i mod CHUNK_SLOTS)%nat.

(** A write through [get_mut]; nothing happens where it returns [None]. *)
Definition update (s : t) (i : nat) (f : A -> A) : t :=
  if (len s <=? i)%nat then s
  else {| chunks := alter (alter f (i mod CHUNK_SLOTS)%nat) (i / CHUNK_SLOTS)%nat (chunks s);
          len := len s |}.

Definition push (s : t) (a : A) : t :=
  let chunks' := if (len s mod CHUNK_SLOTS =? 0)%nat
                 then chunks s ++ [replicate CHUNK_SLOTS filler] else chunks s in
  update {| chunks := chunks'; len := S (len s) |} (len s) (fun _ => a).

Definition iter (s : t) : list A := take (len s) (concat (chunks s)).
End slots.
Arguments t : clear implicits.
End Slots.

(** *** Refinement to a flat vector *)
Section flat.
Context {A : Type}.
Implicit Types (s : Slots.t A) (cs : list (list A)).

(** Full chunks, just enough of them. *)
Definition slots_ok s : Prop :=
  Forall (fun c => length c = CHUNK_SLOTS) (Slots.chunks s) /\
  (Slots.len s <= length (Slots.chunks s) * CHUNK_SLOTS < Slots.len s + CHUNK_SLOTS)%nat.

Lemma chunk_size : (0 < CHUNK_SLOTS)%nat.
Proof. unfold CHUNK_SLOTS. lia. Qed.

Opaque CHUNK_SLOTS.

Lemma chunk_shift i :
  (CHUNK_SLOTS <= i)%nat ->
  (i / CHUNK_SLOTS = S ((i - CHUNK_SLOTS) / CHUNK_SLOTS))%nat /\
  (i mod CHUNK_SLOTS = (i - CHUNK_SLOTS) mod CHUNK_SLOTS)%nat.
Proof.
  intros Hi. pose proof chunk_size. set (j := (i - CHUNK_SLOTS)%nat).
  replace i with (j + 1 * CHUNK_SLOTS)%nat by lia.
  rewrite Nat.div_add, Nat.Div0.mod_add by lia. lia.
Qed.

Lemma length_concat_chunks cs :
  Forall (fun c => length c = CHUNK_SLOTS) cs -> length (concat cs) = (length cs * CHUNK_SLOTS)%nat.
Proof.
  induction 1 as [|c cs Hc _ IH]; [done|]. simpl. rewrite length_app, IH, Hc. done.
Qed.

Lemma lookup_concat_chunks cs i :
  Forall (fun c => length c = CHUNK_SLOTS) cs ->
  concat cs !! i = (cs !! (i / CHUNK_SLOTS)%nat ≫= fun c => c !! (i mod CHUNK_SLOTS)%nat).
Proof.
  pose proof chunk_size. intros Hcs. revert i. induction Hcs as [|c cs Hc _ IH]; intros i; [done|].
  simpl. destruct (decide (i < CHUNK_SLOTS)%nat) as [Hi|Hi].
  - rewrite lookup_app_l by lia. by rewrite Nat.div_small, Nat.mod_small by done.
  - rewrite lookup_app_r by lia. rewrite Hc, IH.
    destruct (chunk_shift i) as [-> ->]; [lia|]. done.
Qed.

Lemma alter_concat_chunks f cs i :
  Forall (fun c => length c = CHUNK_SLOTS) cs ->
  concat (alter (alter f (i mod CHUNK_SLOTS)%nat) (i / CHUNK_SLOTS)%nat cs) = alter f i (concat cs).
Proof.
  pose proof chunk_size. intros Hcs. revert i. induction Hcs as [|c cs Hc _ IH]; intros i; [done|].
  destruct (decide (i < CHUNK_SLOTS)%nat) as [Hi|Hi].
  - rewrite Nat.div_small, Nat.mod_small by done. simpl. by rewrite alter_app_l by lia.
  - destruct (chunk_shift i) as [-> ->]; [lia|].
    change (alter ?g (S ?n) (c :: cs)) with (c :: alter g n cs). cbn [concat]. rewrite IH.
    rewrite alter_app_r_alt by lia. by rewrite Hc.
Qed.

Lemma slots_new : slots_ok Slots.new.
Proof. pose proof chunk_size. split; simpl; [constructor|lia]. Qed.

Lemma length_iter s : slots_ok s -> length (Slots.iter s) = Slots.len s.
Proof.
  intros [Hc Hl]. unfold Slots.iter. rewrite length_take, length_concat_chunks by done. lia.
Qed.

Lemma slots_get s i : slots_ok s -> Slots.get s i = Slots.iter s !! i.
Proof.
  intros [Hc Hl]. unfold Slots.get, Slots.iter. destruct (_ <=? _)%nat eqn:E.
  - apply Nat.leb_le in E. by rewrite lookup_take_ge.
  - apply Nat.leb_gt in E. rewrite lookup_take_lt by done. by rewrite lookup_concat_chunks.
Qed.

Lemma slots_update_ok s i f : slots_ok s -> slots_ok (Slots.update s i f).
Proof.
  intros [Hc Hl]. unfold Slots.update. destruct (_ <=? _)%nat; [done|]. split; simpl.
  - apply Forall_alter; [done|]. intros c _ Hlen. by rewrite length_alter.
  - by rewrite length_alter.
Qed.

Lemma slots_update s i f : slots_ok s -> Slots.iter (Slots.update s i f) = alter f i (Slots.iter s).
Proof.
  intros Hs. pose proof Hs as [Hc Hl]. unfold Slots.update. destruct (_ <=? _)%nat eqn:E.
  - apply Nat.leb_le in E. apply list_eq. intros j. destruct (decide (i = j)) as [<-|Hne].
    + rewrite list_lookup_alter_eq, (proj2 (lookup_ge_None _ _)); [done|]. by rewrite length_iter.
    + by rewrite list_lookup_alter_ne.
  - apply Nat.leb_gt in E. unfold Slots.iter. simpl. rewrite alter_concat_chunks by done.
    apply list_eq. intros j. destruct (decide (j < Slots.len s)%nat).
    + rewrite lookup_take_lt by done. destruct (decide (i = j)) as [->|Hne].
      * by rewrite !list_lookup_alter_eq, lookup_take_lt.
      * by rewrite !list_lookup_alter_ne, lookup_take_lt.
    + rewrite lookup_take_ge by lia. symmetry. apply lookup_ge_None. rewrite length_alter, length_take. lia.
Qed.

Lemma full_chunks s :
  slots_ok s -> (Slots.len s mod CHUNK_SLOTS = 0)%nat ->
  (length (Slots.chunks s) * CHUNK_SLOTS = Slots.len s)%nat.
Proof.
  intros [_ Hl] E. pose proof chunk_size. apply Nat.Div0.div_exact in E.
  set (q := (Slots.len s / CHUNK_SLOTS)%nat) in *. clearbody q. rewrite E in *.
  assert (length (Slots.chunks s) = q) as ->; [|lia]. destruct Hl as [H1 H2].
  destruct (Nat.lt_trichotomy (length (Slots.chunks s)) q) as [Hlt|[?|Hlt]]; [nia|done|nia].
Qed.

Lemma slots_push filler s a :
  slots_ok s ->
  slots_ok (Slots.push filler s a) /\ Slots.iter (Slots.push filler s a) = Slots.iter s ++ [a].
Proof.
  intros Hs. pose proof Hs as [Hc Hl]. pose proof chunk_size. unfold Slots.push.
  set (cs' := if (Slots.len s mod CHUNK_SLOTS =? 0)%nat then _ else _). set (s1 := {| Slots.chunks := cs'; Slots.len := S (Slots.len s) |}).
  assert (slots_ok s1) as Hs1.
  { unfold s1, cs'. destruct (_ =? _)%nat eqn:E; split; simpl.
    - apply Forall_app. split; [done|]. constructor; [by rewrite length_replicate|done].
    - apply Nat.eqb_eq, full_chunks in E; [|done]. rewrite length_app. simpl. lia.
    - done.
    - apply Nat.eqb_neq in E. split; [|lia].
      destruct (decide (length (Slots.chunks s) * CHUNK_SLOTS = Slots.len s)%nat) as [Heq|]; [|lia].
      exfalso. apply E. rewrite <- Heq. apply Nat.Div0.mod_mul. }
  assert (forall j, (j < Slots.len s)%nat -> Slots.iter s1 !! j = Slots.iter s !! j) as Hold.
  { intros j Hj. unfold Slots.iter, s1, cs'. simpl. rewrite !lookup_take_lt by lia.
    destruct (_ =? _)%nat; [|done]. rewrite concat_app. apply lookup_app_l.
    rewrite length_concat_chunks by done. lia. }
  split; [by apply slots_update_ok|]. rewrite slots_update by done.
  pose proof (length_iter _ Hs) as Hlen. pose proof (length_iter _ Hs1) as Hlen1.
  change (Slots.len s1) with (S (Slots.len s)) in Hlen1.
  apply list_eq. intros j. destruct (decide (j < Slots.len s)%nat) as [Hj|Hj].
  - rewrite list_lookup_alter_ne, Hold, lookup_app_l by lia. done.
  - rewrite lookup_app_r by lia. rewrite Hlen. destruct (decide (j = Slots.len s)) as [->|Hne].
    + rewrite list_lookup_alter_eq, Nat.sub_diag.
      destruct (lookup_lt_is_Some_2 (Slots.iter s1) (Slots.len s)) as [x ->]; [lia|]. done.
    + rewrite list_lookup_alter_ne by done. rewrite (proj2 (lookup_ge_None _ _)) by lia.
      symmetry. apply lookup_ge_None. simpl. lia.
Qed.
End flat.
Transparent CHUNK_SLOTS.

(** ** The properties *)

Lemma to_opaque_arith id :
  handle_ok id -> to_opaque id = Z.of_N (index id) * 2 ^ 32 + Z.of_N (generation id).
Proof.
  intros (Hi & Hg & Hg'). unfold to_opaque.
  assert (Z.lor (Z.shiftl (Z.of_N (index id)) 32) (Z.of_N (generation id)) =
    Z.of_N (index id) * 2 ^ 32 + Z.of_N (generation id)) as ->.
  { rewrite Z.shiftl_mul_pow2 by lia. symmetry. rewrite <- Z.add_lor_land.
    enough (Z.land (Z.of_N (index id) * 2 ^ 32) (Z.of_N (generation id)) = 0) by lia.
    apply Z.bits_inj'. intros n Hn. rewrite Z.land_spec, Z.bits_0.
    destruct (decide (n < 32)).
    - by rewrite Z.mul_pow2_bits_low by lia.
    - rewrite (Z.bits_above_log2 (Z.of_N (generation id))), andb_false_r; [done|lia|].
      assert (Z.log2 (Z.of_N (generation id)) < 32); [apply Z.log2_lt_pow2|]; lia. }
  rewrite decide_False; lia.
Qed.

(** the packed form of a handle is a faithful identity.  Every handle packs
    to a non-zero 64-bit word that unpacks to the same handle, and every word
    that unpacks comes from the handle it unpacks to; so two handles, of a
    reused slot in particular, never share a packed form. *)
Theorem opaque_faithful id v :
  handle_ok id -> 0 < v < 2 ^ 64 ->
  0 < to_opaque id < 2 ^ 64 /\ from_opaque (to_opaque id) = Some id /\
  (forall id', from_opaque v = Some id' -> handle_ok id' /\ to_opaque id' = v).
Proof.
  intros Hid Hv. pose proof Hid as (Hi & Hg & Hg'). rewrite to_opaque_arith by done.
  split_and!; [lia|lia| |].
  - unfold from_opaque. change 0xFFFFFFFF with (Z.ones 32). rewrite Z.land_ones by lia.
    rewrite Z.add_comm, Z.mod_add, Z.mod_small by lia. rewrite decide_False by lia.
    rewrite Z.shiftr_div_pow2, Z.div_add, Z.div_small by lia. unfold try_from.
    rewrite decide_True by (unfold U32_MAX; lia). simpl. destruct id. simpl in *.
    do 2 f_equal; lia.
  - intros id' E. unfold from_opaque in E. change 0xFFFFFFFF with (Z.ones 32) in E.
    rewrite Z.land_ones, Z.shiftr_div_pow2 in E by lia. case_decide as Hz; [done|].
    unfold try_from in E. case_decide as Hr; [|done]. injection E as <-.
    pose proof (Z.mod_pos_bound v (2 ^ 32)). pose proof (Z.div_mod v (2 ^ 32)).
    assert (handle_ok {| index := Z.to_N (v / 2 ^ 32); generation := Z.to_N (v mod 2 ^ 32) |}) as Hok.
    { unfold handle_ok. simpl. unfold U32_MAX in Hr. lia. }
    split; [done|]. rewrite to_opaque_arith by done. simpl. lia.
Qed.

Lemma opaque_faithful_witness :
  from_opaque (to_opaque {| index := 0; generation := 1 |}) = Some {| index := 0; generation := 1 |}.
Proof. apply (opaque_faithful {| index := 0; generation := 1 |} 1); [by vm_compute|lia]. Defined.

(** the chunked storage is a vector.  Reading, writing through [get_mut],
    pushing and iterating do what they do on the flat vector of the slots, and
    keep the chunks full: the index split, the early bound check and the
    allocation of a chunk when the last one is full never show. *)
Theorem slots_refine_vector {A} (filler a : A) (s : Slots.t A) (i : nat) (f : A -> A) :
  slots_ok s ->
  let v := Slots.iter s in
  Slots.len s = length v /\ Slots.get s i = v !! i /\
  slots_ok (Slots.update s i f) /\ Slots.iter (Slots.update s i f) = alter f i v /\
  slots_ok (Slots.push filler s a) /\ Slots.iter (Slots.push filler s a) = v ++ [a].
Proof.
  intros Hs v. destruct (slots_push filler s a Hs). split_and!; try done.
  - by rewrite <- length_iter.
  - by apply slots_get.
  - by apply slots_update_ok.
  - by apply slots_update.
Qed.

Lemma slots_refine_vector_witness :
  Slots.iter (Slots.push false (Slots.push false Slots.new true) true) = [true; true].
Proof.
  destruct (slots_push false Slots.new true slots_new) as [H1 H2].
  destruct (slots_refine_vector false true (Slots.push false Slots.new true) 0 negb H1)
    as (_ & _ & _ & _ & _ & E). rewrite E, H2. reflexivity.
Defined.
