(* ===== verification/DomArena.v ===== *)
(** * The arena (px-dom/src/arena.rs, iter.rs, range.rs, lib.rs)

    The document tree: slots, free list, live ranges and snapshots, and every
    operation on them.  Operations that may fail part-way are programs in a state
    and error monad, so that the arena a failing operation leaves behind is part
    of the model. *)
From S2P Require Import Prelude Bytes DomNode.

Definition MAX_DEPTH : nat := 512.

Inductive TreeError :=
| NoSuchNode
| WouldCycle
| TooDeep
| Exhausted
| CannotHaveChildren
| Immovable.

#[export] Instance TreeError_eq_dec : EqDecision TreeError.
Proof. solve_decision. Defined.

(** ** Ranges *)
Record BoundaryPoint := { bp_node : NodeId; bp_offset : nat }.
Definition BoundaryPoint_new (n : NodeId) (o : nat) : BoundaryPoint :=
  {| bp_node := n; bp_offset := o |}.

Inductive Position := Before | Equal | After.

Record Range := { range_start : BoundaryPoint; range_end : BoundaryPoint }.

Record RangeId := { range_index : N; range_generation : N }.

#[export] Instance BoundaryPoint_eq_dec : EqDecision BoundaryPoint.
Proof. solve_decision. Defined.
#[export] Instance Position_eq_dec : EqDecision Position.
Proof. solve_decision. Defined.

Definition is_collapsed (r : Range) : bool := bool_decide (range_start r = range_end r).

Record RangeSlot := { rs_generation : N; rs_range : option Range }.

(** ** The arena *)
(** [free] and [free_ranges] are stacks: their first element is the top. *)
Record Arena (Q : Type) := mkArena {
  slots : Slots.t (Slot Q);
  free : list N;
  live : nat;
  retired : nat;
  document : NodeId;
  ranges : list RangeSlot;
  free_ranges : list N;
  snapshots : list (NodeId * ElementSnapshot Q);
  recording_snapshots : bool
}.
Arguments mkArena {Q} _ _ _ _ _ _ _ _ _.
Arguments slots {Q} _.
Arguments free {Q} _.
Arguments live {Q} _.
Arguments retired {Q} _.
Arguments document {Q} _.
Arguments ranges {Q} _.
Arguments free_ranges {Q} _.
Arguments snapshots {Q} _.
Arguments recording_snapshots {Q} _.

(** Operations on [&mut self] that return a [Result]. *)
Definition tree (Q A : Type) : Type := Arena Q -> Arena Q * result TreeError A.

#[export] Instance tree_ret {Q} : MRet (tree Q) := fun A x a => (a, Ok x).
#[export] Instance tree_bind {Q} : MBind (tree Q) := fun A B f m a =>
  match m a with (a, Ok x) => f x a | (a, Err e) => (a, Err e) end.

(** [?] on a computation that only reads. *)
Definition reads {Q A} (f : Arena Q -> result TreeError A) : tree Q A := fun a => (a, f a).
Definition updates {Q} (f : Arena Q -> Arena Q) : tree Q unit := fun a => (f a, Ok tt).

Section arena.
Context {Q : Type} `{QualNames Q}.
Implicit Types (a : Arena Q) (id : NodeId).

Definition with_slots (s : Slots.t (Slot Q)) a : Arena Q :=
  mkArena s (free a) (live a) (retired a) (document a) (ranges a) (free_ranges a) (snapshots a)
    (recording_snapshots a).
Definition with_counts (f : list N) (l r : nat) a : Arena Q :=
  mkArena (slots a) f l r (document a) (ranges a) (free_ranges a) (snapshots a)
    (recording_snapshots a).
Definition with_document (d : NodeId) a : Arena Q :=
  mkArena (slots a) (free a) (live a) (retired a) d (ranges a) (free_ranges a) (snapshots a)
    (recording_snapshots a).
Definition with_ranges (rs : list RangeSlot) (f : list N) a : Arena Q :=
  mkArena (slots a) (free a) (live a) (retired a) (document a) rs f (snapshots a)
    (recording_snapshots a).
Definition with_snapshots (s : list (NodeId * ElementSnapshot Q)) a : Arena Q :=
  mkArena (slots a) (free a) (live a) (retired a) (document a) (ranges a) (free_ranges a) s
    (recording_snapshots a).
Definition record_snapshots (on : bool) a : Arena Q :=
  mkArena (slots a) (free a) (live a) (retired a) (document a) (ranges a) (free_ranges a)
    (snapshots a) on.

Definition arena_len a : nat := live a.
Definition arena_is_empty a : bool := Nat.eqb (live a) 0.
Definition slot_count a : nat := Slots.len (slots a).

(** *** Allocation and resolution *)
Definition empty_slot : Slot Q := {| slot_generation := GEN_MIN; slot_node := None |}.

Definition put_node (n : Node Q) (s : Slot Q) : Slot Q :=
  {| slot_generation := slot_generation s; slot_node := Some n |}.

Definition create (d : NodeData Q) : tree Q NodeId := fun a =>
  match free a with
  | i :: rest =>
      let popped := with_counts rest (live a) (retired a) a in
      match Slots.get (slots a) (N.to_nat i) with
      | None => (popped, Err Exhausted)
      | Some s =>
          let a1 := with_slots (Slots.update (slots a) (N.to_nat i) (put_node (Node_new d))) popped in
          (with_counts rest (S (live a)) (retired a) a1, Ok (NodeId_new i (slot_generation s)))
      end
  | [] =>
      match try_from U32_MAX (Z.of_nat (slot_count a)) with
      | None => (a, Err Exhausted)
      | Some i =>
          if decide (i = U32_MAX) then (a, Err Exhausted)
          else
            let s := {| slot_generation := GEN_MIN; slot_node := Some (Node_new d) |} in
            let a1 := with_slots (Slots.push empty_slot (slots a) s) a in
            (with_counts (free a) (S (live a)) (retired a) a1, Ok (NodeId_new (Z.to_N i) GEN_MIN))
      end
  end.

Definition Arena_new : Arena Q :=
  let a := mkArena Slots.new [] 0 0 (NodeId_new 0 GEN_MIN) [] [] [] false in
  match create Document a with
  | (a, Ok id) => with_document id a
  | (a, Err _) => a
  end.

Definition get a id : option (Node Q) :=
  s ← Slots.get (slots a) (N.to_nat (index id));
  if decide (slot_generation s = generation id) then slot_node s else None.

Definition contains a id : bool := bool_decide (is_Some (get a id)).

(** Assignment through [get_mut]. *)
Definition set_node a id (n : Node Q) : Arena Q :=
  with_slots (Slots.update (slots a) (N.to_nat (index id)) (put_node n)) a.

Definition get_or_err id a : result TreeError (Node Q) := ok_or (get a id) NoSuchNode.

Definition modify id (f : Node Q -> Node Q) : tree Q unit := fun a =>
  match get a id with
  | Some n => (set_node a id (f n), Ok tt)
  | None => (a, Err NoSuchNode)
  end.

Definition force_generation_to_last id : Arena Q -> Arena Q * option NodeId := fun a =>
  match Slots.get (slots a) (N.to_nat (index id)) with
  | None => (a, None)
  | Some s =>
      if negb (bool_decide (slot_generation s = generation id)) || bool_decide (slot_node s = None)
      then (a, None)
      else
        (with_slots (Slots.update (slots a) (N.to_nat (index id))
           (fun s => {| slot_generation := GEN_MAX; slot_node := slot_node s |})) a,
         Some (NodeId_new (index id) GEN_MAX))
  end.

Definition free_slot id : Arena Q -> Arena Q * bool := fun a =>
  match Slots.get (slots a) (N.to_nat (index id)) with
  | None => (a, false)
  | Some s =>
      if negb (bool_decide (slot_generation s = generation id)) || bool_decide (slot_node s = None)
      then (a, false)
      else
        let '(g, f, r) :=
          match next_generation (slot_generation s) with
          | Some next => (next, index id :: free a, retired a)
          | None => (slot_generation s, free a, S (retired a))
          end in
        let a1 := with_slots (Slots.update (slots a) (N.to_nat (index id))
          (fun _ => {| slot_generation := g; slot_node := None |})) a in
        (with_counts f (live a - 1) r a1, true)
  end.

(** *** Walks *)
(** Up to the root; one turn more than [MAX_DEPTH] ends it. *)
Fixpoint depth_loop (fuel : nat) a (depth : nat) (cursor : option NodeId) : result TreeError nat :=
  match cursor with
  | None => Ok depth
  | Some current =>
      match fuel with
      | O => Err TooDeep
      | S fuel =>
          let depth := S depth in
          if (MAX_DEPTH <? depth)%nat then Err TooDeep
          else n ← get_or_err current a; depth_loop fuel a depth (parent n)
      end
  end.

Definition depth a id : result TreeError nat :=
  n ← get_or_err id a; depth_loop (S MAX_DEPTH) a 0 (parent n).

(** The child list as a snapshot; a ring would end it at the number of slots. *)
Fixpoint children_loop (fuel : nat) a (children : list NodeId) (cursor : option NodeId)
  : option (list NodeId) :=
  match cursor with
  | None => Some (reverse children)
  | Some current =>
      match fuel with
      | O => None
      | S fuel =>
          n ← get a current;
          let children := current :: children in
          if (slot_count a <? length children)%nat then None
          else children_loop fuel a children (next_sibling n)
      end
  end.

Definition children a id : option (list NodeId) :=
  n ← get a id; children_loop (S (slot_count a)) a [] (first_child n).

(** The iterators of iter.rs, run to their end. *)
Fixpoint sibling_walk (budget : nat) a (next : option NodeId) : list NodeId :=
  match budget, next with
  | S budget, Some current => current :: sibling_walk budget a (n ← get a current; next_sibling n)
  | _, _ => []
  end.

Definition child_ids a id : list NodeId :=
  sibling_walk (slot_count a) a (n ← get a id; first_child n).

(** The children [Descendants] collects: at most one more than the budget. *)
Definition gather (budget : nat) a (first : option NodeId) : list NodeId :=
  sibling_walk (S budget) a first.

Fixpoint descendants_loop (budget : nat) a (stack : list NodeId) : list NodeId :=
  match budget with
  | O => []
  | S budget =>
      match stack with
      | [] => []
      | current :: stack =>
          match get a current with
          | None => descendants_loop budget a stack
          | Some n => current :: descendants_loop budget a (gather budget a (first_child n) ++ stack)
          end
      end
  end.

Definition descendants a root : list NodeId :=
  descendants_loop (slot_count a) a (if contains a root then [root] else []).

Fixpoint parent_walk (budget : nat) a (next : option NodeId) : list NodeId :=
  match budget, next with
  | S budget, Some current => current :: parent_walk budget a (n ← get a current; parent n)
  | _, _ => []
  end.

Definition ancestors a id : list NodeId :=
  parent_walk (S MAX_DEPTH) a (n ← get a id; parent n).

(** [Iterator::position] of an id. *)
Fixpoint position (id : NodeId) (l : list NodeId) : option nat :=
  match l with
  | [] => None
  | x :: l => if decide (x = id) then Some 0 else S <$> position id l
  end.

Fixpoint root_of (budget : nat) a id : NodeId :=
  match n ← get a id; parent n with
  | None => id
  | Some p => match budget with O => id | S budget => root_of budget a p end
  end.

Definition precedes a (x y : NodeId) : option bool :=
  if negb (contains a x) || negb (contains a y) || bool_decide (x = y) then None
  else
    let root := root_of (S MAX_DEPTH) a x in
    if decide (root = root_of (S MAX_DEPTH) a y) then
      let order := descendants a root in
      match position x order, position y order with
      | Some first, Some second => Some (first <? second)%nat
      | _, _ => None
      end
    else None.

(** *** Boundary points *)
Definition node_length a id : option nat :=
  n ← get a id;
  Some match data n with
       | Text contents | Comment contents => length contents
       | ProcessingInstruction _ contents => length contents
       | _ => length (child_ids a id)
       end.

Definition is_inclusive_ancestor a (ancestor descendant : NodeId) : bool :=
  if decide (ancestor = descendant) then contains a ancestor
  else bool_decide (ancestor ∈ ancestors a descendant).

Definition index_of a (child : NodeId) : option nat :=
  p ← (n ← get a child; parent n); position child (child_ids a p).

(** The child of [top] on the way up from [child]. *)
Fixpoint branch_under (budget : nat) a (top child : NodeId) : option NodeId :=
  match budget with
  | O => None
  | S budget =>
      p ← (n ← get a child; parent n);
      if decide (p = top) then Some child else branch_under budget a top p
  end.

Definition invert (p : Position) : Position :=
  match p with Before => After | After => Before | Equal => Equal end.

(** The part of [compare_boundary_points] after the mirrored case. *)
Definition compare_forward a (x y : BoundaryPoint) : option Position :=
  let by_order :=
    match precedes a (bp_node x) (bp_node y) with
    | Some true => Some Before
    | Some false => Some After
    | None => None
    end in
  if is_inclusive_ancestor a (bp_node x) (bp_node y) then
    child ← branch_under (S MAX_DEPTH) a (bp_node x) (bp_node y);
    i ← index_of a child;
    if (i <? bp_offset x)%nat then Some After else by_order
  else by_order.

(** The mirrored call is made at most once: [b] precedes [a] and [a] precedes
    [b] cannot both be answered, so one level of unfolding is the recursion. *)
Definition compare_boundary_points a (x y : BoundaryPoint) : option Position :=
  if negb (contains a (bp_node x)) || negb (contains a (bp_node y)) then None
  else if decide (bp_node x = bp_node y) then
    Some (match Nat.compare (bp_offset x) (bp_offset y) with
          | Lt => Before | Eq => Equal | Gt => After end)
  else if bool_decide (precedes a (bp_node y) (bp_node x) = Some true) then
    p ← compare_forward a y x; Some (invert p)
  else compare_forward a x y.

Definition is_valid_boundary a (p : BoundaryPoint) : bool :=
  match node_length a (bp_node p) with Some l => (bp_offset p <=? l)%nat | None => false end.

(** *** Live ranges *)
Definition new_range (s e : BoundaryPoint) : tree Q RangeId := fun a =>
  if negb (is_valid_boundary a s) || negb (is_valid_boundary a e) then (a, Err NoSuchNode)
  else
    match compare_boundary_points a s e with
    | Some Before | Some Equal =>
        let r := {| range_start := s; range_end := e |} in
        match free_ranges a with
        | i :: rest =>
            let popped := with_ranges (ranges a) rest a in
            match ranges a !! N.to_nat i with
            | None => (popped, Err Exhausted)
            | Some slot =>
                let slot' := {| rs_generation := rs_generation slot; rs_range := Some r |} in
                (with_ranges (<[N.to_nat i := slot']> (ranges a)) rest a,
                 Ok {| range_index := i; range_generation := rs_generation slot |})
            end
        | [] =>
            match try_from U32_MAX (len (ranges a)) with
            | None => (a, Err Exhausted)
            | Some i =>
                let slot := {| rs_generation := GEN_MIN; rs_range := Some r |} in
                (with_ranges (ranges a ++ [slot]) [] a,
                 Ok {| range_index := Z.to_N i; range_generation := GEN_MIN |})
            end
        end
    | _ => (a, Err WouldCycle)
    end.

Definition range a (id : RangeId) : option Range :=
  s ← ranges a !! N.to_nat (range_index id);
  if decide (rs_generation s = range_generation id) then rs_range s else None.

Definition drop_range (id : RangeId) a : Arena Q * bool :=
  match ranges a !! N.to_nat (range_index id) with
  | None => (a, false)
  | Some s =>
      if negb (bool_decide (rs_generation s = range_generation id)) ||
         match rs_range s with None => true | Some _ => false end
      then (a, false)
      else
        let '(g, f) :=
          match next_generation (rs_generation s) with
          | Some next => (next, range_index id :: free_ranges a)
          | None => (rs_generation s, free_ranges a)
          end in
        (with_ranges (<[N.to_nat (range_index id) := {| rs_generation := g; rs_range := None |}]>
           (ranges a)) f a, true)
  end.

Definition range_count a : nat :=
  length (List.filter (fun s => match rs_range s with Some _ => true | None => false end) (ranges a)).

Definition range_contains a (id : RangeId) (node : NodeId) : option bool :=
  r ← range a id;
  let point := BoundaryPoint_new node 0 in
  after_start ← compare_boundary_points a point (range_start r);
  before_end ← compare_boundary_points a point (range_end r);
  Some (negb (bool_decide (after_start = Before)) && negb (bool_decide (before_end = After))).

(** One boundary point under the insertion and the removal rule. *)
Definition point_after_insert (p : NodeId) (i : nat) (b : BoundaryPoint) : BoundaryPoint :=
  if bool_decide (bp_node b = p) && (i <? bp_offset b)%nat
  then BoundaryPoint_new p (S (bp_offset b)) else b.

Definition point_before_remove (p : NodeId) (i : nat) (inside : bool) (b : BoundaryPoint)
  : BoundaryPoint :=
  if inside then BoundaryPoint_new p i
  else if bool_decide (bp_node b = p) && (i <? bp_offset b)%nat
       then BoundaryPoint_new p (bp_offset b - 1) else b.

Definition map_range (f : BoundaryPoint -> BoundaryPoint) (s : RangeSlot) : RangeSlot :=
  {| rs_generation := rs_generation s;
     rs_range := (fun r => {| range_start := f (range_start r); range_end := f (range_end r) |})
       <$> rs_range s |}.

Definition ranges_after_insert (p : NodeId) (i : nat) a : Arena Q :=
  with_ranges (map (map_range (point_after_insert p i)) (ranges a)) (free_ranges a) a.

Definition ranges_before_remove (node : NodeId) a : Arena Q :=
  if bool_decide (length (ranges a) = 0) then a
  else
    match n ← get a node; parent n with
    | None => a
    | Some p =>
        match index_of a node with
        | None => a
        | Some i =>
            with_ranges
              (map (map_range (fun b =>
                 point_before_remove p i (is_inclusive_ancestor a node (bp_node b)) b)) (ranges a))
              (free_ranges a) a
        end
    end.

(** *** Checks *)
(** Walk up from the new parent: the child must not be met, and the number of
    turns is the depth the child would have. *)
Fixpoint insert_depth (fuel : nat) a (child : NodeId) (resulting : nat) (cursor : option NodeId)
  : result TreeError nat :=
  match cursor with
  | None => Ok resulting
  | Some current =>
      match fuel with
      | O => Err TooDeep
      | S fuel =>
          if decide (current = child) then Err WouldCycle
          else
            let resulting := S resulting in
            if (MAX_DEPTH <? resulting)%nat then Err TooDeep
            else n ← get_or_err current a; insert_depth fuel a child resulting (parent n)
      end
  end.

(** Push the children of a node on the work stack of [subtree_height]. *)
Fixpoint push_children (fuel : nat) a (rel : nat) (stack : list (NodeId * nat))
    (child : option NodeId) : result TreeError (list (NodeId * nat)) :=
  match child with
  | None => Ok stack
  | Some c =>
      match fuel with
      | O => Err TooDeep
      | S fuel =>
          let stack := (c, rel) :: stack in
          n ← get_or_err c a;
          if (S (slot_count a) <? length stack)%nat then Err TooDeep
          else push_children fuel a rel stack (next_sibling n)
      end
  end.

Fixpoint height_loop (budget : nat) a (height : nat) (stack : list (NodeId * nat))
  : result TreeError nat :=
  match stack with
  | [] => Ok height
  | (current, relative) :: stack =>
      match budget with
      | O => Err TooDeep
      | S budget =>
          let height := Nat.max height relative in
          if (MAX_DEPTH <? relative)%nat then Err TooDeep
          else
            n ← get_or_err current a;
            stack ← push_children (S (S (slot_count a))) a (S relative) stack (first_child n);
            height_loop budget a height stack
      end
  end.

Definition subtree_height a id : result TreeError nat :=
  height_loop (S (slot_count a)) a 0 [(id, 0)].

Definition check_insertable a (p child : NodeId) : result TreeError unit :=
  if negb (contains a p) || negb (contains a child) then Err NoSuchNode
  else if decide (p = child) then Err WouldCycle
  else if decide (child = document a) then Err Immovable
  else if negb match get a p with Some n => can_have_children n | None => false end
  then Err CannotHaveChildren
  else
    resulting_depth ← insert_depth (S MAX_DEPTH) a child 0 (Some p);
    height ← subtree_height a child;
    if (MAX_DEPTH <? resulting_depth + height)%nat then Err TooDeep else Ok tt.

(** *** Structure *)
Definition set_neighbour (x : option NodeId) (link : Node Q -> Node Q) (p : NodeId)
    (edge : Node Q -> Node Q) : tree Q unit :=
  match x with Some x => modify x link | None => modify p edge end.

Definition detach id : tree Q unit :=
  n ← reads (get_or_err id);
  match parent n with
  | None => mret tt
  | Some p =>
      _ ← updates (ranges_before_remove id);
      _ ← set_neighbour (prev_sibling n) (set_next (next_sibling n)) p (set_first (next_sibling n));
      _ ← set_neighbour (next_sibling n) (set_prev (prev_sibling n)) p (set_last (prev_sibling n));
      modify id detach_links
  end.

Definition append_child (p child : NodeId) : tree Q unit :=
  _ ← reads (fun a => check_insertable a p child);
  _ ← detach child;
  n ← reads (get_or_err p);
  let last := last_child n in
  _ ← modify child (fun c => set_next None (set_prev last (set_parent (Some p) c)));
  _ ← set_neighbour last (set_next (Some child)) p (set_first (Some child));
  modify p (set_last (Some child)).

Definition insert_before (sibling new_node : NodeId) : tree Q unit :=
  p ← reads (fun a => n ← get_or_err sibling a; ok_or (parent n) NoSuchNode);
  _ ← reads (fun a => check_insertable a p new_node);
  _ ← detach new_node;
  n ← reads (get_or_err sibling);
  let previous := prev_sibling n in
  _ ← modify new_node (fun c => set_next (Some sibling) (set_prev previous (set_parent (Some p) c)));
  _ ← modify sibling (set_prev (Some new_node));
  _ ← set_neighbour previous (set_next (Some new_node)) p (set_first (Some new_node));
  updates (fun a => match index_of a new_node with
                    | Some i => ranges_after_insert p i a
                    | None => a
                    end).

Fixpoint append_all (to : NodeId) (l : list NodeId) : tree Q unit :=
  match l with
  | [] => mret tt
  | child :: l => _ ← append_child to child; append_all to l
  end.

Definition reparent_children (from to : NodeId) : tree Q unit :=
  l ← reads (fun a => ok_or (children a from) NoSuchNode); append_all to l.

(** The work a removal may have to do: every live node can put its children and
    its template contents on the stack once. *)
Definition slot_id (i : nat) (s : Slot Q) : NodeId := NodeId_new (N.of_nat i) (slot_generation s).

Definition slot_work a (i : nat) (s : Slot Q) : nat :=
  match slot_node s with
  | None => 0
  | Some _ => 2 + match children a (slot_id i s) with Some l => length l | None => 0 end
  end.

Definition removal_fuel a : nat := 2 + sum_list (imap (slot_work a) (Slots.iter (slots a))).

Fixpoint remove_loop (fuel : nat) (freed : nat) (stack : list NodeId) : Arena Q -> Arena Q * nat :=
  fun a =>
  match stack with
  | [] => (a, freed)
  | current :: stack =>
      match fuel with
      | O => (a, freed)
      | S fuel =>
          match children a current with
          | None => remove_loop fuel freed stack a
          | Some l =>
              let contents := n ← get a current; template_contents_of n in
              let stack := option_list contents ++ reverse l ++ stack in
              let '(a, done) := free_slot current a in
              remove_loop fuel (if done then S freed else freed) stack a
          end
      end
  end.

(** The handles of the ranges with an endpoint that no longer resolves. *)
Definition dangling a (i : nat) (s : RangeSlot) : option RangeId :=
  r ← rs_range s;
  if contains a (bp_node (range_start r)) && contains a (bp_node (range_end r)) then None
  else Some {| range_index := N.of_nat i; range_generation := rs_generation s |}.

Definition drop_dangling a : Arena Q :=
  foldl (fun a r => (drop_range r a).1) a (omap (fun r => r) (imap (dangling a) (ranges a))).

(** Free a detached subtree, then drop the ranges left pointing into it. *)
Definition free_subtree id : tree Q nat := fun a =>
  let '(a, freed) := remove_loop (removal_fuel a) 0 [id] a in
  (drop_dangling a, Ok freed).

Definition remove_subtree id : tree Q nat :=
  _ ← reads (fun a => if contains a id then Ok tt else Err NoSuchNode);
  _ ← reads (fun a => if decide (id = document a) then Err Immovable else Ok tt);
  _ ← detach id;
  free_subtree id.

Fixpoint clone_loop (budget : nat) (stack : list (NodeId * NodeId)) : tree Q unit :=
  match stack with
  | [] => mret tt
  | (source, p) :: stack =>
      match budget with
      | O => reads (fun _ => Err TooDeep)
      | S budget =>
          n ← reads (get_or_err source);
          copy ← create (data n);
          _ ← append_child p copy;
          l ← reads (fun a => ok_or (children a source) NoSuchNode);
          clone_loop budget (map (fun c => (c, copy)) l ++ stack)
      end
  end.

Definition clone_subtree id : tree Q NodeId :=
  n ← reads (get_or_err id);
  root ← create (data n);
  l ← reads (fun a => ok_or (children a id) NoSuchNode);
  budget ← reads (fun a => Ok (S (slot_count a)));
  _ ← clone_loop budget (map (fun c => (c, root)) l);
  mret root.

(** *** Attributes and snapshots *)
Fixpoint find_snapshot (id : NodeId) (l : list (NodeId * ElementSnapshot Q))
  : option (ElementSnapshot Q) :=
  match l with
  | [] => None
  | (node, s) :: l => if decide (node = id) then Some s else find_snapshot id l
  end.

Definition snapshot a id : option (ElementSnapshot Q) := find_snapshot id (snapshots a).
Definition has_snapshot a id : bool := bool_decide (is_Some (snapshot a id)).
Definition snapshot_count a : nat := length (snapshots a).
Definition take_snapshots a : Arena Q * list (NodeId * ElementSnapshot Q) :=
  (with_snapshots [] a, snapshots a).

(** Update the first record of an id. *)
Fixpoint note_first (id : NodeId) (name : Q) (l : list (NodeId * ElementSnapshot Q))
  : list (NodeId * ElementSnapshot Q) :=
  match l with
  | [] => []
  | (node, s) :: l =>
      if decide (node = id) then (node, note_change name s) :: l
      else (node, s) :: note_first id name l
  end.

Definition snapshot_attribute_change id (name : Q) a : Arena Q :=
  if negb (recording_snapshots a) then a
  else
    match snapshot a id with
    | Some _ => with_snapshots (note_first id name (snapshots a)) a
    | None =>
        match n ← get a id; node_attrs n with
        | None => a
        | Some attrs => with_snapshots (snapshots a ++ [(id, note_change name (capture attrs))]) a
        end
    end.

(** Replace the value of the first attribute of that name, or add one. *)
Fixpoint write_attr (name : Q) (value : list byte) (attrs : list (Attribute Q))
  : list (Attribute Q) :=
  match attrs with
  | [] => [{| attr_name := name; attr_value := value |}]
  | x :: attrs =>
      if decide (attr_name x = name) then {| attr_name := attr_name x; attr_value := value |} :: attrs
      else x :: write_attr name value attrs
  end.

Definition element_parts id a
  : result TreeError (Q * list (Attribute Q) * option NodeId * bool) :=
  n ← get_or_err id a;
  match data n with
  | Element name attrs t b => Ok (name, attrs, t, b)
  | _ => Err NoSuchNode
  end.

Definition set_attribute id (name : Q) (value : list byte) : tree Q unit :=
  _ ← updates (snapshot_attribute_change id name);
  '(en, attrs, t, b) ← reads (element_parts id);
  modify id (set_data (Element en (write_attr name value attrs) t b)).

Definition remove_attribute id (name : Q) : tree Q bool :=
  _ ← updates (snapshot_attribute_change id name);
  '(en, attrs, t, b) ← reads (element_parts id);
  let kept := List.filter (fun x => negb (bool_decide (attr_name x = name))) attrs in
  _ ← modify id (set_data (Element en kept t b));
  mret (negb (Nat.eqb (length kept) (length attrs))).

Fixpoint add_missing id (present : list Q) (incoming : list (Attribute Q)) : tree Q unit :=
  match incoming with
  | [] => mret tt
  | x :: incoming =>
      if bool_decide (attr_name x ∈ present) then add_missing id present incoming
      else
        _ ← set_attribute id (attr_name x) (attr_value x);
        add_missing id present incoming
  end.

Definition add_attributes_if_missing id (incoming : list (Attribute Q)) : tree Q unit :=
  present ← reads (fun a => Ok (match n ← get a id; node_attrs n with
                                | Some attrs => map attr_name attrs
                                | None => []
                                end));
  add_missing id present incoming.

End arena.
