(* ===== verification/DomTree.v ===== *)
(** * The tree held by the arena

    The links of the arena as an ordered forest, the invariant every operation
    keeps, and what each operation does to the forest. *)
From stdpp Require Import sets.
From S2P Require Import Prelude Bytes DomNode DomArena.

(** ** Sibling lists *)
(** The links a node has as a child, and those it has as a parent. *)
Definition links : Type := option NodeId * option NodeId * option NodeId.
Definition edges : Type := option NodeId * option NodeId.

(** [l] is a doubly linked list of children of [p], between [pv] and [nx]. *)
Fixpoint chain (S : NodeId -> option links) (p : NodeId) (pv : option NodeId) (l : list NodeId)
    (nx : option NodeId) : Prop :=
  match l with
  | [] => True
  | c :: l =>
      S c = Some (Some p, pv, match l with [] => nx | d :: _ => Some d end) /\
      chain S p (Some c) l nx
  end.

Definition or_else {A} (x y : option A) : option A := match x with Some _ => x | None => y end.

(** Assignment to the next or previous link of a node that may not be there. *)
Definition upd_next (o : option NodeId) (v : option NodeId) (S : NodeId -> option links) (x : NodeId) :=
  if decide (o = Some x) then (fun l => (l.1, v)) <$> S x else S x.
Definition upd_prev (o : option NodeId) (v : option NodeId) (S : NodeId -> option links) (x : NodeId) :=
  if decide (o = Some x) then (fun l => (l.1.1, v, l.2)) <$> S x else S x.

Section chain.
Implicit Types (S : NodeId -> option links) (l : list NodeId) (p : NodeId).

Lemma chain_ext S S' p pv l nx :
  (forall x, x ∈ l -> S' x = S x) -> chain S p pv l nx -> chain S' p pv l nx.
Proof.
  revert pv. induction l as [|c l IH]; intros pv He; [done|]. simpl. intros [Hc Hl]. split.
  - rewrite He by (by left). done.
  - apply IH; [|done]. intros x Hx. apply He. by right.
Qed.

Lemma chain_app S p pv l1 l2 nx :
  chain S p pv (l1 ++ l2) nx <->
  chain S p pv l1 (or_else (head l2) nx) /\ chain S p (or_else (last l1) pv) l2 nx.
Proof.
  revert pv. induction l1 as [|c l1 IH]; intros pv; [simpl; tauto|].
  rewrite <- app_comm_cons. cbn [chain]. rewrite IH.
  assert (or_else (last (c :: l1)) pv = or_else (last l1) (Some c)) as ->.
  { destruct l1 as [|d l1]; [done|]. change (last (c :: d :: l1)) with (last (d :: l1)).
    destruct (last (d :: l1)) eqn:E; [done|]. by apply last_None in E. }
  assert (match l1 ++ l2 with [] => nx | d :: _ => Some d end =
    match l1 with [] => or_else (head l2) nx | d :: _ => Some d end) as ->
    by (destruct l1; [destruct l2|]; done).
  tauto.
Qed.

Lemma chain_elem S p pv l nx c : chain S p pv l nx -> c ∈ l -> exists a b, S c = Some (Some p, a, b).
Proof.
  revert pv. induction l as [|d l IH]; intros pv; [intros _ H; by apply elem_of_nil in H|].
  simpl. intros [Hd Hl] [->|Hc]%elem_of_cons; [by eexists _, _|]. by eapply IH.
Qed.

Lemma chain_upd_next S p pv l nx nx' :
  NoDup l -> chain S p pv l nx -> chain (upd_next (last l) nx' S) p pv l nx'.
Proof.
  destruct (last l) as [c|] eqn:Hlast; [|by apply last_None in Hlast as ->].
  apply last_Some in Hlast as [l' ->]. rewrite NoDup_app. intros (Hnd & Hdis & _).
  rewrite !chain_app. simpl. intros [H1 [Hc _]]. split_and!; [| |done].
  - eapply chain_ext; [|done]. intros x Hx. unfold upd_next. rewrite decide_False; [done|].
    intros [= ->]. apply (Hdis x Hx). by left.
  - unfold upd_next. rewrite decide_True by done. by rewrite Hc.
Qed.

Lemma chain_upd_prev S p pv pv' l nx :
  NoDup l -> chain S p pv l nx -> chain (upd_prev (head l) pv' S) p pv' l nx.
Proof.
  destruct l as [|c l]; [done|]. rewrite NoDup_cons. simpl. intros [Hc Hnd] [H1 H2]. split.
  - unfold upd_prev. rewrite decide_True by done. by rewrite H1.
  - eapply chain_ext; [|done]. intros x Hx. unfold upd_prev. rewrite decide_False; [done|]. congruence.
Qed.

Lemma upd_next_ne o v S x : o <> Some x -> upd_next o v S x = S x.
Proof. intros H. unfold upd_next. by rewrite decide_False. Qed.
Lemma upd_prev_ne o v S x : o <> Some x -> upd_prev o v S x = S x.
Proof. intros H. unfold upd_prev. by rewrite decide_False. Qed.

Lemma last_elem (l : list NodeId) x : last l = Some x -> x ∈ l.
Proof. intros [l' ->]%last_Some. apply elem_of_app. right. by left. Qed.
Lemma head_elem (l : list NodeId) x : head l = Some x -> x ∈ l.
Proof. destruct l; [done|]. intros [= ->]. by left. Qed.

(** Unlinking [c] from between [l1] and [l2]. *)
Lemma chain_unlink S p l1 c l2 v :
  NoDup (l1 ++ c :: l2) -> chain S p None (l1 ++ c :: l2) None ->
  chain (fun x => if decide (x = c) then v
                  else upd_prev (head l2) (last l1) (upd_next (last l1) (head l2) S) x)
    p None (l1 ++ l2) None.
Proof.
  intros Hnd. rewrite NoDup_app, NoDup_cons in Hnd. destruct Hnd as (N1 & Hdis & Hc & N2).
  rewrite !chain_app. cbn [chain]. intros (H1 & _ & H2).
  assert (forall x, x ∈ l1 -> x <> c /\ head l2 <> Some x) as D1.
  { intros x Hx. split; [intros ->; apply (Hdis c Hx); by left|].
    intros E. apply (Hdis x Hx). right. by apply head_elem. }
  assert (forall x, x ∈ l2 -> x <> c /\ last l1 <> Some x) as D2.
  { intros x Hx. split; [by intros ->|]. intros E%last_elem. apply (Hdis x E). by right. }
  split.
  - apply (chain_ext (upd_next (last l1) (head l2) S)).
    + intros x Hx. destruct (D1 x Hx). rewrite decide_False, upd_prev_ne; done.
    + replace (or_else (head l2) None) with (head l2) by (by destruct l2).
      by eapply chain_upd_next.
  - replace (or_else (last l1) None) with (last l1) by (by destruct (last l1)).
    apply (chain_ext (upd_prev (head l2) (last l1) S)).
    + intros x Hx. destruct (D2 x Hx). rewrite decide_False by done. unfold upd_prev.
      case_decide; by rewrite upd_next_ne.
    + by eapply chain_upd_prev.
Qed.

(** Linking [c] between [l1] and [l2]. *)
Lemma chain_link S p l1 c l2 :
  NoDup (l1 ++ l2) -> c ∉ l1 ++ l2 -> chain S p None (l1 ++ l2) None ->
  chain (fun x => if decide (x = c) then Some (Some p, last l1, head l2)
                  else upd_prev (head l2) (Some c) (upd_next (last l1) (Some c) S) x)
    p None (l1 ++ c :: l2) None.
Proof.
  intros Hnd Hc. rewrite NoDup_app in Hnd. destruct Hnd as (N1 & Hdis & N2).
  rewrite elem_of_app in Hc.
  rewrite !chain_app. cbn [chain]. intros (H1 & H2).
  assert (forall x, x ∈ l1 -> x <> c /\ head l2 <> Some x) as D1.
  { intros x Hx. split; [intros ->; tauto|].
    intros E. apply (Hdis x Hx). by apply head_elem. }
  assert (forall x, x ∈ l2 -> x <> c /\ last l1 <> Some x) as D2.
  { intros x Hx. split; [intros ->; tauto|]. intros E%last_elem. by apply (Hdis x E). }
  split_and!.
  - apply (chain_ext (upd_next (last l1) (Some c) S)).
    + intros x Hx. destruct (D1 x Hx). rewrite decide_False, upd_prev_ne; done.
    + by eapply chain_upd_next.
  - rewrite decide_True by done. by destruct (last l1), l2.
  - apply (chain_ext (upd_prev (head l2) (Some c) S)).
    + intros x Hx. destruct (D2 x Hx). rewrite decide_False by done. unfold upd_prev.
      case_decide; by rewrite upd_next_ne.
    + by eapply chain_upd_prev.
Qed.
End chain.

(** ** Forests *)
Section forest.
Context {Q : Type} `{QualNames Q}.
Implicit Types (G : NodeId -> option (Node Q)) (ch : NodeId -> list NodeId) (n : Node Q).

Definition links_of n : links := (parent n, prev_sibling n, next_sibling n).
Definition edges_of n : edges := (first_child n, last_child n).

Inductive depth_of G : NodeId -> nat -> Prop :=
| depth_root id n : G id = Some n -> parent n = None -> depth_of G id 0
| depth_child id n p d :
    G id = Some n -> parent n = Some p -> depth_of G p d -> depth_of G id (S d).

(** The live nodes are an ordered forest with child lists [ch], no deeper than
    the limit, in which only containers have children. *)
Record forest G ch : Prop := {
  fo_edges : forall id n, G id = Some n -> edges_of n = (head (ch id), last (ch id));
  fo_chain : forall id, chain (fun x => links_of <$> G x) id None (ch id) None;
  fo_nodup : forall id, NoDup (ch id);
  fo_child : forall id n p, G id = Some n -> parent n = Some p -> id ∈ ch p;
  fo_root : forall id n, G id = Some n -> parent n = None -> links_of n = (None, None, None);
  fo_dead : forall id, G id = None -> ch id = [];
  fo_depth : forall id n, G id = Some n -> exists d, (d <= MAX_DEPTH)%nat /\ depth_of G id d;
  fo_leaf : forall id n, G id = Some n -> can_have_children n = false -> ch id = []
}.

Lemma depth_unique G id d d' : depth_of G id d -> depth_of G id d' -> d = d'.
Proof.
  intros Hd. revert d'. induction Hd as [id n E Hp|id n p d E Hp _ IH]; intros d' Hd';
    destruct Hd' as [id n' E' Hp'|id n' p' d' E' Hp' Hd'']; try congruence.
  f_equal. apply IH. congruence.
Qed.

Lemma forest_elem G ch p c : forest G ch -> c ∈ ch p -> exists n, G c = Some n /\ parent n = Some p.
Proof.
  intros Hf Hc. destruct (chain_elem _ _ _ _ _ c (fo_chain G ch Hf p) Hc) as (x & y & E).
  destruct (G c) as [n|]; [|done]. exists n. split; [done|]. by injection E.
Qed.

Lemma forest_parent_live G ch id n p :
  forest G ch -> G id = Some n -> parent n = Some p -> exists m, G p = Some m.
Proof.
  intros Hf E Hp. destruct (G p) as [m|] eqn:Em; [by exists m|].
  pose proof (fo_child G ch Hf id n p E Hp) as Hin. rewrite (fo_dead G ch Hf p Em) in Hin.
  by apply elem_of_nil in Hin.
Qed.

Lemma forest_parent_ne G ch id n p : forest G ch -> G id = Some n -> parent n = Some p -> p <> id.
Proof.
  intros Hf E Hp ->. destruct (fo_depth G ch Hf id n E) as (d & _ & Hd).
  pose proof (depth_unique _ _ _ _ Hd (depth_child _ _ _ _ _ E Hp Hd)). lia.
Qed.

(** A child list around one of its members. *)
Lemma forest_split G ch id n p :
  forest G ch -> G id = Some n -> parent n = Some p ->
  exists l1 l2, ch p = l1 ++ id :: l2 /\ prev_sibling n = last l1 /\ next_sibling n = head l2.
Proof.
  intros Hf E Hp. destruct (list_elem_of_split _ _ (fo_child _ _ Hf _ _ _ E Hp)) as (l1 & l2 & El).
  exists l1, l2. split; [done|]. pose proof (fo_chain _ _ Hf p) as Hc. rewrite El, chain_app in Hc.
  destruct Hc as [_ [Hc _]]. rewrite E in Hc. unfold links_of in Hc. simpl in Hc.
  injection Hc as _ H1 H2.
  split; [by destruct (last l1)|by destruct l2].
Qed.

(** Data and liveness are untouched, and no parent is gained. *)
Lemma depth_of_drop G G' :
  (forall x n, G x = Some n -> exists n', G' x = Some n' /\ (parent n' = parent n \/ parent n' = None)) ->
  forall x d, depth_of G x d -> exists d', (d' <= d)%nat /\ depth_of G' x d'.
Proof.
  intros HG x d Hd. induction Hd as [x n E Hp|x n p d E Hp _ (d' & Hle & IH)].
  - destruct (HG x n E) as (n' & E' & Hn). exists 0. split; [lia|].
    econstructor; [done|]. destruct Hn; congruence.
  - destruct (HG x n E) as (n' & E' & [Hn|Hn]).
    + exists (S d'). split; [lia|]. econstructor; [done| |done]. congruence.
    + exists 0. split; [lia|]. by econstructor.
Qed.

Section unlink.
Context (G G' : NodeId -> option (Node Q)) (ch : NodeId -> list NodeId) (c p : NodeId) (n : Node Q).
Context (l1 l2 : list NodeId).
Context (Hf : forest G ch) (Ec : G c = Some n) (Hp : parent n = Some p) (El : ch p = l1 ++ c :: l2).
Context (HS : forall x, links_of <$> G' x =
  if decide (x = c) then Some (None, None, None)
  else upd_prev (head l2) (last l1) (upd_next (last l1) (head l2) (fun x => links_of <$> G x)) x).
Context (HE : forall x, edges_of <$> G' x =
  if decide (x = p) then Some (head (l1 ++ l2), last (l1 ++ l2)) else edges_of <$> G x).
Context (HD : forall x, data <$> G' x = data <$> G x).

Lemma unlink_live x : G' x = None <-> G x = None.
Proof. specialize (HD x). destruct (G' x), (G x); done. Qed.

Lemma unlink_member x : x ∈ l1 ++ c :: l2 -> exists m, G x = Some m /\ parent m = Some p.
Proof. rewrite <- El. by apply forest_elem. Qed.

(** A node outside the child list of [p] keeps its links. *)
Lemma unlink_other x : x ∉ ch p -> links_of <$> G' x = links_of <$> G x.
Proof.
  intros Hx. rewrite El, elem_of_app, elem_of_cons in Hx. rewrite HS, decide_False by naive_solver.
  rewrite upd_prev_ne, upd_next_ne; [done| |].
  - intros E%last_elem. naive_solver.
  - intros E%head_elem. naive_solver.
Qed.

Lemma unlink_parent x m :
  G' x = Some m -> exists m0, G x = Some m0 /\ data m = data m0 /\
    (x = c /\ links_of m = (None, None, None) \/ x <> c /\ parent m = parent m0).
Proof.
  intros E. pose proof (HD x) as D. pose proof (HS x) as L. rewrite E in D, L.
  destruct (G x) as [m0|] eqn:E0; [|done]. exists m0. injection D as D. split_and!; [done..|].
  simpl in L. case_decide as Hx; [left; split; [done|congruence]|right]. split; [done|].
  unfold upd_prev, upd_next in L. rewrite E0 in L.
  destruct (decide (head l2 = Some x)), (decide (last l1 = Some x)); simpl in L;
    unfold links_of in L; simpl in L; congruence.
Qed.

Lemma unlink_depth x m : G' x = Some m -> exists d, (d <= MAX_DEPTH)%nat /\ depth_of G' x d.
Proof.
  intros E. destruct (unlink_parent x m E) as (m0 & E0 & _).
  destruct (fo_depth _ _ Hf x m0 E0) as (d & Hle & Hd).
  destruct (depth_of_drop G G') with (x := x) (d := d) as (d' & Hle' & Hd'); [|done|].
  - intros y k Ek. destruct (G' y) as [k'|] eqn:Ek'; [|apply unlink_live in Ek'; congruence].
    exists k'. split; [done|]. destruct (unlink_parent y k' Ek') as (k0 & Ek0 & _ & Hk).
    destruct Hk as [[_ Hk]|[_ Hk]]; [right; by injection Hk|left; congruence].
  - exists d'. split; [lia|done].
Qed.

Lemma forest_unlink : forest G' (fun x => if decide (x = p) then l1 ++ l2 else ch x).
Proof.
  pose proof (fo_nodup _ _ Hf p) as Hnd. rewrite El in Hnd.
  split.
  - intros x m E. pose proof (HE x) as L. rewrite E in L. simpl in L. case_decide; [congruence|].
    destruct (G x) as [m0|] eqn:E0; [|done]. simpl in L. rewrite <- (fo_edges _ _ Hf x m0 E0). congruence.
  - intros x. case_decide as Hx.
    + subst x. eapply chain_ext; [|apply (chain_unlink (fun x => links_of <$> G x) p l1 c l2
      (Some (None, None, None)) Hnd)].
      * intros x _. apply HS.
      * rewrite <- El. apply (fo_chain _ _ Hf).
    + eapply chain_ext; [|apply (fo_chain _ _ Hf)]. intros y Hy. apply unlink_other.
      intros Hy'. destruct (forest_elem _ _ _ _ Hf Hy) as (? & ? & ?).
      destruct (forest_elem _ _ _ _ Hf Hy') as (? & ? & ?). congruence.
  - intros x. case_decide; [|apply (fo_nodup _ _ Hf)].
    apply NoDup_app in Hnd as (? & Hdis & [_ ?]%NoDup_cons). apply NoDup_app. split_and!; [done| |done].
    intros y Hy Hy'. apply (Hdis y Hy). by right.
  - intros x m q E Hq. destruct (unlink_parent x m E) as (m0 & E0 & _ & [[_ Hm]|[Hx Hm]]).
    + unfold links_of in Hm. congruence.
    + pose proof (fo_child _ _ Hf x m0 q E0 ltac:(congruence)) as Hin. case_decide; [|done].
      subst q. rewrite El in Hin. set_unfold. naive_solver.
  - intros x m E Hm. destruct (unlink_parent x m E) as (m0 & E0 & _ & [[_ Hl]|[Hx Hl]]); [done|].
    assert (links_of m = links_of m0) as ->.
    { assert (links_of <$> G' x = links_of <$> G x) as L.
      { apply unlink_other. intros (? & ? & ?)%(forest_elem _ _ _ _ Hf). congruence. }
      rewrite E, E0 in L. simpl in L. congruence. }
    apply (fo_root _ _ Hf x); [done|]. congruence.
  - intros x E. apply unlink_live in E. rewrite (fo_dead _ _ Hf) by done. rewrite decide_False; [done|].
    intros ->. destruct (forest_parent_live _ _ _ _ _ Hf Ec Hp). congruence.
  - apply unlink_depth.
  - intros x m E Hm. destruct (unlink_parent x m E) as (m0 & E0 & Hd & _).
    assert (ch x = []) as Hch.
    { apply (fo_leaf _ _ Hf x m0 E0). unfold can_have_children in *. by rewrite <- Hd. }
    case_decide; [|done]. subst x. rewrite El in Hch. by destruct l1.
Qed.
End unlink.

(** [x] is [r] levels below [top]. *)
Inductive below G (top : NodeId) : NodeId -> nat -> Prop :=
| below_refl : below G top top 0
| below_step x n y r : G x = Some n -> parent n = Some y -> below G top y r -> below G top x (S r).

Lemma below_dec G top x d : depth_of G x d -> (exists r, below G top x r) \/ forall r, ~ below G top x r.
Proof.
  intros Hd. induction Hd as [x n E Hp|x n p d E Hp _ [[r Hr]|Hr]].
  - destruct (decide (x = top)) as [->|Hx]; [left; eexists; constructor|right].
    intros r Hr. destruct Hr; congruence.
  - left. exists (S r). by econstructor.
  - destruct (decide (x = top)) as [->|Hx]; [left; eexists; constructor|right].
    intros r Hb. destruct Hb as [|x n' y r E' Hp' Hb]; [done|]. apply (Hr r). congruence.
Qed.

Section link.
Context (G G' : NodeId -> option (Node Q)) (ch : NodeId -> list NodeId) (c p : NodeId).
Context (n np : Node Q) (l1 l2 : list NodeId) (dp : nat).
Context (Hf : forest G ch) (Ec : G c = Some n) (Hc : parent n = None).
Context (Ep : G p = Some np) (Hcan : can_have_children np = true) (El : ch p = l1 ++ l2).
Context (Hnb : forall r, ~ below G c p r) (Hdp : depth_of G p dp).
Context (Hmax : forall x r, below G c x r -> (S dp + r <= MAX_DEPTH)%nat).
Context (HS : forall x, links_of <$> G' x =
  if decide (x = c) then Some (Some p, last l1, head l2)
  else upd_prev (head l2) (Some c) (upd_next (last l1) (Some c) (fun x => links_of <$> G x)) x).
Context (HE : forall x, edges_of <$> G' x =
  if decide (x = p) then Some (head (l1 ++ c :: l2), last (l1 ++ c :: l2)) else edges_of <$> G x).
Context (HD : forall x, data <$> G' x = data <$> G x).

Lemma link_live x : G' x = None <-> G x = None.
Proof. specialize (HD x). destruct (G' x), (G x); done. Qed.

Lemma link_fresh q : c ∉ ch q.
Proof. intros (m & E & Hm)%(forest_elem _ _ _ _ Hf). congruence. Qed.

Lemma link_other x : x <> c -> x ∉ ch p -> links_of <$> G' x = links_of <$> G x.
Proof.
  intros Hxc Hx. rewrite El, elem_of_app in Hx. rewrite HS, decide_False by done.
  rewrite upd_prev_ne, upd_next_ne; [done| |].
  - intros E%last_elem. naive_solver.
  - intros E%head_elem. naive_solver.
Qed.

Lemma link_parent x m :
  G' x = Some m -> exists m0, G x = Some m0 /\ data m = data m0 /\
    (x = c /\ links_of m = (Some p, last l1, head l2) \/ x <> c /\ parent m = parent m0).
Proof.
  intros E. pose proof (HD x) as D. pose proof (HS x) as L. rewrite E in D, L.
  destruct (G x) as [m0|] eqn:E0; [|done]. exists m0. injection D as D. split_and!; [done..|].
  simpl in L. case_decide as Hx; [left; split; [done|congruence]|right]. split; [done|].
  unfold upd_prev, upd_next in L. rewrite E0 in L.
  destruct (decide (head l2 = Some x)), (decide (last l1 = Some x)); simpl in L;
    unfold links_of in L; simpl in L; congruence.
Qed.

Lemma link_same_parent x m0 :
  G x = Some m0 -> x <> c -> exists m, G' x = Some m /\ parent m = parent m0.
Proof.
  intros E0 Hx. destruct (G' x) as [m|] eqn:E; [|apply link_live in E; congruence].
  exists m. split; [done|]. destruct (link_parent x m E) as (m1 & E1 & _ & [[? _]|[_ ?]]); congruence.
Qed.

Lemma link_depth_outside x d : depth_of G x d -> (forall r, ~ below G c x r) -> depth_of G' x d.
Proof.
  intros Hd. induction Hd as [x m E Hm|x m q d E Hm _ IH]; intros Hnx.
  - destruct (link_same_parent x m E) as (m' & E' & Hm').
    { intros ->. apply (Hnx 0). constructor. }
    econstructor; [done|]. congruence.
  - destruct (link_same_parent x m E) as (m' & E' & Hm').
    { intros ->. apply (Hnx 0). constructor. }
    econstructor; [done|rewrite Hm'; done|]. apply IH. intros r Hr. apply (Hnx (S r)). by econstructor.
Qed.

Lemma link_depth_inside x r : below G c x r -> depth_of G' x (S dp + r).
Proof.
  induction 1 as [|x m y r E Hm Hb IH].
  - destruct (G' c) as [m|] eqn:E; [|apply link_live in E; congruence].
    destruct (link_parent c m E) as (m0 & _ & _ & [[_ Hm]|[? _]]); [|done].
    rewrite Nat.add_0_r. econstructor; [done|by injection Hm|]. by apply link_depth_outside.
  - destruct (link_same_parent x m E) as (m' & E' & Hm'); [congruence|].
    rewrite Nat.add_succ_r. econstructor; [done|rewrite Hm'; done|done].
Qed.

Lemma link_depth x m : G' x = Some m -> exists d, (d <= MAX_DEPTH)%nat /\ depth_of G' x d.
Proof.
  intros E. destruct (link_parent x m E) as (m0 & E0 & _).
  destruct (fo_depth _ _ Hf x m0 E0) as (d & Hle & Hd).
  destruct (below_dec G c x d Hd) as [[r Hr]|Hr].
  - exists (S dp + r)%nat. split; [by eapply Hmax|by apply link_depth_inside].
  - exists d. split; [done|by apply link_depth_outside].
Qed.

Lemma forest_link : forest G' (fun x => if decide (x = p) then l1 ++ c :: l2 else ch x).
Proof.
  pose proof (fo_nodup _ _ Hf p) as Hnd. rewrite El in Hnd.
  pose proof (link_fresh p) as Hfresh. rewrite El in Hfresh.
  split.
  - intros x m E. pose proof (HE x) as L. rewrite E in L. simpl in L. case_decide; [congruence|].
    destruct (G x) as [m0|] eqn:E0; [|done]. simpl in L. rewrite <- (fo_edges _ _ Hf x m0 E0). congruence.
  - intros x. case_decide as Hx.
    + subst x. eapply chain_ext; [|apply (chain_link (fun x => links_of <$> G x) p l1 c l2 Hnd Hfresh)].
      * intros x _. apply HS.
      * rewrite <- El. apply (fo_chain _ _ Hf).
    + eapply chain_ext; [|apply (fo_chain _ _ Hf)]. intros y Hy. apply link_other.
      * intros ->. by apply (link_fresh x).
      * intros Hy'. destruct (forest_elem _ _ _ _ Hf Hy) as (? & ? & ?).
        destruct (forest_elem _ _ _ _ Hf Hy') as (? & ? & ?). congruence.
  - intros x. case_decide; [|apply (fo_nodup _ _ Hf)].
    apply NoDup_app in Hnd as (N1 & Hdis & N2). rewrite elem_of_app in Hfresh.
    apply NoDup_app. split_and!; [done| |by apply NoDup_cons; split; [tauto|]].
    intros y Hy [->|Hy']%elem_of_cons; [tauto|]. by apply (Hdis y).
  - intros x m q E Hq. destruct (link_parent x m E) as (m0 & E0 & _ & [[Hx Hm]|[Hx Hm]]).
    + subst x. assert (q = p) as -> by (unfold links_of in Hm; congruence).
      rewrite decide_True by done. apply elem_of_app. right. by left.
    + pose proof (fo_child _ _ Hf x m0 q E0 ltac:(congruence)) as Hin. case_decide; [|done].
      subst q. rewrite El in Hin. set_unfold. naive_solver.
  - intros x m E Hm. destruct (link_parent x m E) as (m0 & E0 & _ & [[_ Hl]|[Hx Hl]]).
    { unfold links_of in Hl. congruence. }
    assert (links_of m = links_of m0) as ->.
    { assert (links_of <$> G' x = links_of <$> G x) as L.
      { apply link_other; [done|]. intros (? & ? & ?)%(forest_elem _ _ _ _ Hf). congruence. }
      rewrite E, E0 in L. simpl in L. congruence. }
    apply (fo_root _ _ Hf x); [done|]. congruence.
  - intros x E. apply link_live in E. rewrite (fo_dead _ _ Hf) by done. rewrite decide_False; [done|].
    intros ->. congruence.
  - apply link_depth.
  - intros x m E Hm. destruct (link_parent x m E) as (m0 & E0 & Hd & _).
    assert (can_have_children m0 = false) as Hm0 by (unfold can_have_children in *; by rewrite <- Hd).
    rewrite decide_False; [by apply (fo_leaf _ _ Hf x m0)|]. intros ->. congruence.
Qed.
End link.
End forest.
