(* ===== verification/DomOps.v ===== *)
(** * What the tree operations do

    The specification of detaching, appending and inserting: the arena they leave
    holds the forest one expects, with the same nodes in the same slots, and a
    refused insertion leaves the arena untouched. *)
From stdpp Require Import sets.
From S2P Require Import Prelude Bytes DomNode DomArena DomTree.

Section ops.
Context {Q : Type} `{QualNames Q}.
Implicit Types (a : Arena Q) (id : NodeId) (ch : NodeId -> list NodeId) (n : Node Q).

(** ** Slots *)
Definition shape (s : Slot Q) : N * bool :=
  (slot_generation s, match slot_node s with Some _ => true | None => false end).

(** The same slots are occupied, by the same occupants, and nothing was freed or
    allocated. *)
Record same_shape a a' : Prop := {
  ss_ok : slots_ok (slots a');
  ss_shape : map shape (Slots.iter (slots a')) = map shape (Slots.iter (slots a));
  ss_document : document a' = document a;
  ss_free : free a' = free a;
  ss_live : live a' = live a;
  ss_retired : retired a' = retired a
}.

Lemma same_shape_refl a : slots_ok (slots a) -> same_shape a a.
Proof. by split. Qed.

Lemma same_shape_trans a b c : same_shape a b -> same_shape b c -> same_shape a c.
Proof. intros [] []. split; congruence. Qed.

Lemma get_flat a id :
  slots_ok (slots a) ->
  get a id = (s ← Slots.iter (slots a) !! N.to_nat (index id);
              if decide (slot_generation s = generation id) then slot_node s else None).
Proof. intros Hs. unfold get. by rewrite slots_get. Qed.

Lemma get_slot a id n :
  slots_ok (slots a) -> get a id = Some n ->
  exists s, Slots.iter (slots a) !! N.to_nat (index id) = Some s /\
    slot_generation s = generation id /\ slot_node s = Some n.
Proof.
  intros Hs E. rewrite get_flat in E by done. apply bind_Some in E as (s & Es & E).
  case_decide; [|done]. by exists s.
Qed.

Lemma get_set_node a id n n' x :
  slots_ok (slots a) -> get a id = Some n ->
  get (set_node a id n') x = if decide (x = id) then Some n' else get a x.
Proof.
  intros Hs E. destruct (get_slot a id n Hs E) as (s & Es & Hg & Hn).
  assert (slots_ok (slots (set_node a id n'))) as Hs' by (by apply slots_update_ok).
  rewrite !get_flat by done. unfold set_node. cbn [slots with_slots]. rewrite slots_update by done.
  destruct (decide (index x = index id)) as [Hi|Hi].
  - rewrite Hi, list_lookup_alter_eq, Es. simpl. rewrite Hg.
    destruct (decide (x = id)) as [->|Hx]; [by rewrite decide_True|].
    rewrite !decide_False; [done| |]; intros Hgx; apply Hx; destruct x, id; simpl in *; congruence.
  - rewrite list_lookup_alter_ne by lia. rewrite (decide_False (P := x = id)); [done|]. congruence.
Qed.

Lemma same_shape_set a id n n' :
  slots_ok (slots a) -> get a id = Some n -> same_shape a (set_node a id n').
Proof.
  intros Hs E. destruct (get_slot a id n Hs E) as (s & Es & Hg & Hn).
  split; try done; [by apply slots_update_ok|]. unfold set_node. cbn [slots with_slots].
  rewrite slots_update by done. apply list_eq. intros j. rewrite !list_lookup_fmap.
  destruct (decide (N.to_nat (index id) = j)) as [<-|Hj].
  - rewrite list_lookup_alter_eq, Es. simpl. unfold shape, put_node. simpl. by rewrite Hn.
  - by rewrite list_lookup_alter_ne.
Qed.

(** One assignment through [get_mut]. *)
Lemma modify_spec a id f n :
  slots_ok (slots a) -> get a id = Some n ->
  exists a', modify id f a = (a', Ok tt) /\ same_shape a a' /\
    forall x, get a' x = if decide (x = id) then f <$> get a x else get a x.
Proof.
  intros Hs E. exists (set_node a id (f n)). split_and!.
  - unfold modify. by rewrite E.
  - by eapply same_shape_set.
  - intros x. erewrite get_set_node by done. case_decide; [subst; by rewrite E|done].
Qed.

Lemma set_neighbour_spec a (o : option NodeId) link p edge :
  slots_ok (slots a) -> (forall x, o = Some x -> is_Some (get a x)) -> is_Some (get a p) ->
  exists a', set_neighbour o link p edge a = (a', Ok tt) /\ same_shape a a' /\
    forall x, get a' x =
      match o with
      | Some y => if decide (x = y) then link <$> get a x else get a x
      | None => if decide (x = p) then edge <$> get a x else get a x
      end.
Proof.
  intros Hs Ho [np Hp]. destruct o as [y|]; simpl.
  - destruct (Ho y eq_refl) as [n E]. by eapply modify_spec.
  - by eapply modify_spec.
Qed.

(** What an assignment to a neighbour, or to the edge of the parent when there is
    none, does to links and edges. *)
Definition sib (f : NodeId -> option (Node Q)) (x : NodeId) : option links := links_of <$> f x.

Lemma neighbour_next (G G' : NodeId -> option (Node Q)) (o v w : option NodeId) p :
  (forall x, G' x = match o with
     | Some y => if decide (x = y) then set_next v <$> G x else G x
     | None => if decide (x = p) then set_first w <$> G x else G x
     end) ->
  (forall x, sib G' x = upd_next o v (sib G) x) /\
  (forall x, edges_of <$> G' x = (fun n =>
     if decide (x = p) then (match o with None => w | _ => first_child n end, last_child n)
     else edges_of n) <$> G x) /\
  (forall x, data <$> G' x = data <$> G x).
Proof.
  intros HG. unfold upd_next, sib. split_and!; intros x; rewrite HG; destruct o as [y|];
    repeat case_decide; try naive_solver; by destruct (G x).
Qed.

Lemma neighbour_prev (G G' : NodeId -> option (Node Q)) (o v w : option NodeId) p :
  (forall x, G' x = match o with
     | Some y => if decide (x = y) then set_prev v <$> G x else G x
     | None => if decide (x = p) then set_last w <$> G x else G x
     end) ->
  (forall x, sib G' x = upd_prev o v (sib G) x) /\
  (forall x, edges_of <$> G' x = (fun n =>
     if decide (x = p) then (first_child n, match o with None => w | _ => last_child n end)
     else edges_of n) <$> G x) /\
  (forall x, data <$> G' x = data <$> G x).
Proof.
  intros HG. unfold upd_prev, sib. split_and!; intros x; rewrite HG; destruct o as [y|];
    repeat case_decide; try naive_solver; by destruct (G x).
Qed.

Lemma upd_next_ext o v S S' x : S x = S' x -> upd_next o v S x = upd_next o v S' x.
Proof. intros E. unfold upd_next. by rewrite E. Qed.
Lemma upd_prev_ext o v S S' x : S x = S' x -> upd_prev o v S x = upd_prev o v S' x.
Proof. intros E. unfold upd_prev. by rewrite E. Qed.

Lemma bind_ok {A B} (m : tree Q A) (f : A -> tree Q B) a a' x :
  m a = (a', Ok x) -> (m ≫= f) a = f x a'.
Proof. intros E. unfold mbind, tree_bind. by rewrite E. Qed.

Lemma bind_err {A B} (m : tree Q A) (f : A -> tree Q B) a a' e :
  m a = (a', Err e) -> (m ≫= f) a = (a', Err e).
Proof. intros E. unfold mbind, tree_bind. by rewrite E. Qed.

Lemma reads_ok {A} (f : Arena Q -> result TreeError A) a x : f a = Ok x -> reads f a = (a, Ok x).
Proof. intros E. unfold reads. by rewrite E. Qed.

Lemma get_or_err_ok a id n : get a id = Some n -> get_or_err id a = Ok n.
Proof. intros E. unfold get_or_err. by rewrite E. Qed.

Lemma ranges_before_remove_frame a id :
  slots_ok (slots a) ->
  same_shape a (ranges_before_remove id a) /\ forall x, get (ranges_before_remove id a) x = get a x.
Proof.
  intros Hs. unfold ranges_before_remove. destruct (bool_decide _); [done|].
  destruct (n ← get a id; parent n); [|done]. by destruct (index_of a id).
Qed.

(** ** Detaching *)
(** The child lists without one node. *)
Definition drop_child id ch : NodeId -> list NodeId := fun x => filter (fun y => y <> id) (ch x).

Lemma forest_ext (G : NodeId -> option (Node Q)) ch ch' :
  (forall x, ch x = ch' x) -> forest G ch -> forest G ch'.
Proof.
  intros He [F1 F2 F3 F4 F5 F6 F7 F8]. split; intros; rewrite <- ?He; eauto.
Qed.

Lemma forest_get_ext (G G' : NodeId -> option (Node Q)) ch :
  (forall x, G' x = G x) -> forest G ch -> forest G' ch.
Proof.
  intros He [F1 F2 F3 F4 F5 F6 F7 F8]. split; intros *; rewrite ?He; eauto.
  - eapply chain_ext; [|done]. intros x _. by rewrite He.
  - intros Hn. destruct (F7 _ _ Hn) as (d & Hle & Hd).
    destruct (depth_of_drop G G') with (x := id) (d := d) as (d' & ? & ?); [|done|].
    + intros x m Hm. exists m. rewrite He. auto.
    + exists d'. split; [lia|done].
Qed.

Lemma filter_absent (l : list NodeId) id : id ∉ l -> filter (fun y => y <> id) l = l.
Proof.
  induction l as [|x l IH]; [done|]. intros [Hx Hl]%not_elem_of_cons.
  rewrite filter_cons_True by done. by rewrite IH.
Qed.

Lemma filter_middle l1 l2 id :
  NoDup (l1 ++ id :: l2) -> filter (fun y => y <> id) (l1 ++ id :: l2) = l1 ++ l2.
Proof.
  intros (_ & Hdis & [Hid _]%NoDup_cons)%NoDup_app. rewrite filter_app, filter_cons_False by naive_solver.
  rewrite !filter_absent; [done|done|]. intros Hx. apply (Hdis id Hx). by left.
Qed.

Lemma drop_child_root a ch id n :
  forest (get a) ch -> get a id = Some n -> parent n = None -> forall x, ch x = drop_child id ch x.
Proof.
  intros Hf E Hp x. unfold drop_child. rewrite filter_absent; [done|].
  intros (m & Em & Hm)%(forest_elem _ _ _ _ Hf). congruence.
Qed.

Record detached a id ch a' : Prop := {
  de_shape : same_shape a a';
  de_forest : forest (get a') (drop_child id ch);
  de_data : forall x, data <$> get a' x = data <$> get a x;
  de_parent : forall x, parent <$> get a' x =
    (fun n => if decide (x = id) then None else parent n) <$> get a x
}.

Lemma edges_unlink (l1 l2 : list NodeId) id :
  match last l1 with None => head l2 | Some _ => head (l1 ++ id :: l2) end = head (l1 ++ l2) /\
  match head l2 with None => last l1 | Some _ => last (l1 ++ id :: l2) end = last (l1 ++ l2).
Proof.
  split.
  - destruct l1 as [|y l1]; [done|]. by destruct (last (y :: l1)) eqn:E; [|apply last_None in E].
  - destruct l2 as [|z l2]; [by rewrite app_nil_r|]. simpl head. rewrite !last_app.
    change (last (id :: z :: l2)) with (last (z :: l2)).
    by destruct (last (z :: l2)) eqn:E; [|apply last_None in E].
Qed.

Lemma detach_spec a ch id n :
  slots_ok (slots a) -> forest (get a) ch -> get a id = Some n ->
  exists a', detach id a = (a', Ok tt) /\ detached a id ch a'.
Proof.
  intros Hs Hf E. unfold detach. erewrite bind_ok by (by apply reads_ok, get_or_err_ok).
  destruct (parent n) as [p|] eqn:Hp.
  2: { exists a. split; [done|]. split; [by apply same_shape_refl| |done|].
    - eapply forest_ext; [|done]. by eapply drop_child_root.
    - intros x. case_decide; [|done]. subst. rewrite E. simpl. by rewrite Hp. }
  destruct (forest_split _ _ _ _ _ Hf E Hp) as (l1 & l2 & El & -> & ->).
  destruct (forest_parent_live _ _ _ _ _ Hf E Hp) as [np Ep].
  pose proof (forest_parent_ne _ _ _ _ _ Hf E Hp) as Hne.
  pose proof (fo_nodup _ _ Hf p) as Hnd. rewrite El in Hnd.
  assert (forall x, x ∈ ch p -> is_Some (get a x) /\ x <> p) as Hmem.
  { intros x (m & Em & Hm)%(forest_elem _ _ _ _ Hf). split; [done|].
    intros ->. by apply (forest_parent_ne _ _ _ _ _ Hf Em Hm). }
  assert (forall x, last l1 = Some x -> x ∈ ch p /\ x <> id) as HL1.
  { intros x Hx%last_elem. rewrite El. split; [set_solver|]. intros ->.
    apply NoDup_app in Hnd as (_ & Hdis & _). apply (Hdis id Hx). by left. }
  assert (forall x, head l2 = Some x -> x ∈ ch p /\ x <> id) as HL2.
  { intros x Hx%head_elem. rewrite El. split; [set_solver|]. intros ->.
    apply NoDup_app in Hnd as (_ & _ & [? _]%NoDup_cons). done. }
  destruct (ranges_before_remove_frame a id Hs) as [S0 G0].
  set (a0 := ranges_before_remove id a) in *.
  erewrite bind_ok by (unfold updates; fold a0; done).
  destruct (set_neighbour_spec a0 (last l1) (set_next (head l2)) p (set_first (head l2)))
    as (a1 & E1 & S1 & G1); [apply S0|intros x Hx; rewrite G0; by apply Hmem, HL1|by rewrite G0, Ep|].
  erewrite bind_ok by done.
  assert (forall x, is_Some (get a1 x) <-> is_Some (get a x)) as L1.
  { intros x. rewrite G1, G0. destruct (last l1); case_decide; rewrite ?fmap_is_Some; done. }
  destruct (set_neighbour_spec a1 (head l2) (set_prev (last l1)) p (set_last (last l1)))
    as (a2 & E2 & S2 & G2); [apply S1|intros x Hx; apply L1; by apply Hmem, HL2|by apply L1; rewrite Ep|].
  erewrite bind_ok by done.
  assert (is_Some (get a2 id)) as [n2 En2].
  { rewrite G2. destruct (head l2); case_decide; rewrite ?fmap_is_Some, L1, E; done. }
  destruct (modify_spec a2 id detach_links n2) as (a3 & E3 & S3 & G3); [apply S2|done|].
  exists a3. split; [done|].
  assert (edges_of np = (head (l1 ++ id :: l2), last (l1 ++ id :: l2))) as Hed.
  { rewrite <- El. by apply (fo_edges _ _ Hf). }
  destruct (neighbour_next _ _ _ _ _ _ G1) as (HS1 & HE1 & HD1).
  destruct (neighbour_prev _ _ _ _ _ _ G2) as (HS2 & HE2 & HD2).
  assert (forall x, sib (get a3) x =
    if decide (x = id) then Some (None, None, None)
    else upd_prev (head l2) (last l1) (upd_next (last l1) (head l2) (sib (get a))) x) as HS.
  { intros x. unfold sib at 1. rewrite G3. case_decide as Hx.
    - subst x. rewrite En2. done.
    - change (links_of <$> get a2 x) with (sib (get a2) x). rewrite HS2.
      apply upd_prev_ext. rewrite HS1. apply upd_next_ext. unfold sib. by rewrite G0. }
  assert (forall x, data <$> get a3 x = data <$> get a x) as HD.
  { intros x. transitivity (data <$> get a2 x); [rewrite G3; case_decide; by destruct (get a2 x)|].
    by rewrite HD2, HD1, G0. }
  assert (forall x, edges_of <$> get a3 x = edges_of <$> get a2 x) as HE3.
  { intros x. rewrite G3. case_decide; by destruct (get a2 x). }
  assert (forall x, edges_of <$> get a3 x =
    if decide (x = p) then Some (head (l1 ++ l2), last (l1 ++ l2)) else edges_of <$> get a x) as HE.
  { intros x. rewrite HE3. pose proof (HE1 x) as H1. pose proof (HE2 x) as H2. rewrite G0 in H1.
    destruct (edges_unlink l1 l2 id) as [<- <-]. injection Hed as Hfirst Hlast.
    destruct (get a x) as [m|] eqn:Em, (get a1 x) as [m1|], (get a2 x) as [m2|]; simpl in *; try done;
      [|case_decide; [congruence|done]].
    unfold edges_of in *. case_decide; [|congruence]. subst x.
    destruct (last l1), (head l2); congruence. }
  split.
  - repeat (eapply same_shape_trans; [done|]). by apply same_shape_refl, S3.
  - eapply forest_ext; [|by eapply (forest_unlink (get a) (get a3) ch id p n l1 l2)].
    intros x. unfold drop_child. case_decide as Hx; [subst x; by rewrite El, filter_middle|].
    rewrite filter_absent; [done|]. intros (m & Em & Hm)%(forest_elem _ _ _ _ Hf). congruence.
  - done.
  - intros x. destruct (get a3 x) as [m|] eqn:Em.
    + destruct (unlink_parent (get a) (get a3) id l1 l2 HS HD x m Em) as (m0 & -> & _ & [[-> Hm]|[Hx Hm]]).
      * simpl. rewrite decide_True by done. by injection Hm as ->.
      * simpl. rewrite decide_False by done. by rewrite Hm.
    + apply (unlink_live (get a) (get a3) HD) in Em. by rewrite Em.
Qed.

(** ** The insertion check *)
Lemma insert_depth_spec fuel a child k q rd :
  insert_depth fuel a child k (Some q) = Ok rd ->
  exists d, depth_of (get a) q d /\ rd = (k + S d)%nat /\ forall r, ~ below (get a) child q r.
Proof.
  revert k q. induction fuel as [|fuel IH]; intros k q; [done|]. cbn [insert_depth].
  case_decide as Hq; [done|]. destruct (MAX_DEPTH <? S k)%nat; [done|].
  intros (n & En%ok_or_Ok & E)%bind_Ok. destruct (parent n) as [p|] eqn:Hp.
  - apply IH in E as (d & Hd & -> & Hb). exists (S d). split_and!; [by econstructor|lia|].
    intros r Hr. destruct Hr as [|x n' y r E' Hp' Hr]; [done|]. apply (Hb r). congruence.
  - exists 0. assert (rd = S k) as -> by (destruct fuel; by injection E). split_and!; [by econstructor|lia|].
    intros r Hr. destruct Hr; congruence.
Qed.

Lemma below_top (G : NodeId -> option (Node Q)) top x r :
  below G top x (S r) -> exists c m, G c = Some m /\ parent m = Some top /\ below G c x r.
Proof.
  revert x. induction r as [|r IH]; intros x Hb; inversion Hb as [|x' n y r' E Hp Hb']; subst.
  - inversion Hb'; subst. exists x, n. split_and!; [done..|constructor].
  - destruct (IH y Hb') as (c & m & Ec & Hm & Hc). exists c, m. split_and!; [done..|by econstructor].
Qed.

Lemma push_children_spec fuel a rel p pv l stack stack' :
  chain (sib (get a)) p pv l None -> push_children fuel a rel stack (head l) = Ok stack' ->
  stack' = map (fun c => (c, rel)) (reverse l) ++ stack.
Proof.
  revert fuel pv stack. induction l as [|c l IH]; intros fuel pv stack Hc.
  - destruct fuel; cbn; congruence.
  - destruct Hc as [Hc Hl]. destruct fuel as [|fuel]; [done|]. cbn [push_children head].
    intros (n & En%ok_or_Ok & E)%bind_Ok. destruct (_ <? _)%nat; [done|].
    unfold sib in Hc. rewrite En in Hc. injection Hc as _ _ Hn.
    assert (next_sibling n = head l) as Hh by (rewrite Hn; by destruct l). rewrite Hh in E.
    apply (IH fuel (Some c)) in E as ->; [|done].
    rewrite reverse_cons, map_app, <- app_assoc. done.
Qed.

Lemma height_loop_spec budget a ch h stack top :
  forest (get a) ch -> height_loop budget a h stack = Ok top ->
  (h <= top)%nat /\ forall y ry x k, (y, ry) ∈ stack -> below (get a) y x k -> (ry + k <= top)%nat.
Proof.
  intros Hf. revert h stack. induction budget as [|budget IH]; intros h stack.
  - destruct stack as [|[cur rel] stack]; [|done]. intros [= <-]. split; [done|].
    intros ???? Hin. by apply elem_of_nil in Hin.
  - destruct stack as [|[cur rel] stack].
    { intros [= <-]. split; [done|]. intros ???? Hin. by apply elem_of_nil in Hin. }
    cbn [height_loop]. destruct (MAX_DEPTH <? rel)%nat; [done|].
    intros (n & En%ok_or_Ok & (stack' & Es & E)%bind_Ok)%bind_Ok.
    pose proof (fo_edges _ _ Hf cur n En) as Hed. injection Hed as Hfirst _. rewrite Hfirst in Es.
    eapply push_children_spec in Es as ->; [|apply (fo_chain _ _ Hf cur)].
    apply IH in E as [Hh Hs]. split; [lia|].
    intros y ry x k [[= -> ->]|Hin]%elem_of_cons Hb.
    + destruct k as [|k]; [lia|]. destruct (below_top _ _ _ _ Hb) as (c & m & Ec & Hm & Hc).
      assert (S rel + k <= top)%nat; [|lia]. apply (Hs c (S rel) x k); [|done].
      apply elem_of_app. left. apply list_elem_of_fmap. exists c. split; [done|].
      apply elem_of_reverse. by eapply fo_child.
    + apply (Hs y ry x k); [|done]. apply elem_of_app. by right.
Qed.

Record insertable a p child : Prop := {
  in_parent : exists np, get a p = Some np /\ can_have_children np = true;
  in_child : exists n, get a child = Some n;
  in_ne : p <> child;
  in_document : child <> document a;
  in_below : forall r, ~ below (get a) child p r;
  in_depth : exists dp, depth_of (get a) p dp /\
    forall x r, below (get a) child x r -> (S dp + r <= MAX_DEPTH)%nat
}.

Lemma check_insertable_spec a ch p child :
  forest (get a) ch -> check_insertable a p child = Ok tt -> insertable a p child.
Proof.
  intros Hf. unfold check_insertable, contains.
  destruct (get a p) as [np|] eqn:Ep; [|by rewrite bool_decide_eq_false_2 by (by intros [? ?])].
  destruct (get a child) as [n|] eqn:En;
    [|by rewrite (bool_decide_eq_false_2 (is_Some None)), orb_true_r by (by intros [? ?])].
  rewrite !bool_decide_eq_true_2 by eauto. cbn [negb orb].
  case_decide as Hne; [done|]. case_decide as Hdoc; [done|].
  destruct (can_have_children np) eqn:Hcan; cbn [negb]; [|done].
  intros (rd & (dp & Hdp & -> & Hb)%insert_depth_spec & (h & Hh & E)%bind_Ok)%bind_Ok.
  destruct (MAX_DEPTH <? _)%nat eqn:Hmax; [done|]. apply Nat.ltb_ge in Hmax.
  apply (height_loop_spec _ _ ch) in Hh as [_ Hh]; [|done].
  split; eauto. exists dp. split; [done|]. intros x r Hr.
  pose proof (Hh child 0 x r ltac:(by left) Hr). lia.
Qed.

Lemma check_insertable_refuses a p child e :
  check_insertable a p child = Err e ->
  append_child p child a = (a, Err e).
Proof. intros E. unfold append_child. apply bind_err. unfold reads. by rewrite E. Qed.

(** Detaching the child does not undo the check. *)
Lemma insertable_detached a ch p child a1 :
  forest (get a) ch -> insertable a p child -> detached a child ch a1 -> insertable a1 p child.
Proof.
  intros Hf [(np & Ep & Hcan) (n & En) Hne Hdoc Hb (dp & Hdp & Hmax)] [Hsh Hf1 Hd Hpar].
  assert (forall x m1, get a1 x = Some m1 -> exists m, get a x = Some m /\ data m1 = data m /\
    parent m1 = if decide (x = child) then None else parent m) as Hback.
  { intros x m1 E. pose proof (Hd x) as D. pose proof (Hpar x) as Pp. rewrite E in D, Pp.
    destruct (get a x) as [m|]; [|done]. exists m. simpl in *. split_and!; congruence. }
  assert (forall x, is_Some (get a x) -> is_Some (get a1 x)) as Hforth.
  { intros x [m E]. pose proof (Hd x) as D. rewrite E in D. by destruct (get a1 x). }
  assert (forall x r, below (get a1) child x r -> below (get a) child x r) as Hbelow.
  { intros x r Hr. induction Hr as [|x m1 y r E Hm _ IH]; [constructor|].
    destruct (Hback x m1 E) as (m & Em & _ & Hp). case_decide; [congruence|]. econstructor; [done| |done].
    congruence. }
  destruct (Hforth p (ex_intro _ _ Ep)) as [np1 Ep1].
  destruct (Hback p np1 Ep1) as (np' & Ep' & Hdp' & _).
  destruct (depth_of_drop (get a) (get a1)) with (x := p) (d := dp) as (d1 & Hle & Hd1); [|done|].
  { intros x m E. destruct (Hforth x (ex_intro _ _ E)) as [m1 E1]. exists m1. split; [done|].
    destruct (Hback x m1 E1) as (m' & E' & _ & ->). case_decide; [by right|left; congruence]. }
  split; [|by apply Hforth|done| | |].
  - exists np1. split; [done|]. unfold can_have_children in *. rewrite Hdp'.
    replace np' with np by congruence. done.
  - rewrite (ss_document _ _ Hsh). done.
  - intros r Hr. by apply (Hb r), Hbelow.
  - exists d1. split; [done|]. intros x r Hr. pose proof (Hmax x r (Hbelow x r Hr)). lia.
Qed.

(** ** Inserting *)
Lemma upd_comm o v o' v' S x : upd_next o v (upd_prev o' v' S) x = upd_prev o' v' (upd_next o v S) x.
Proof. unfold upd_next, upd_prev. repeat case_decide; by destruct (S x). Qed.

Lemma edges_link (l1 l2 : list NodeId) id :
  match last l1 with None => Some id | Some _ => head (l1 ++ l2) end = head (l1 ++ id :: l2) /\
  match head l2 with None => Some id | Some _ => last (l1 ++ l2) end = last (l1 ++ id :: l2).
Proof.
  split.
  - destruct l1 as [|y l1]; [done|]. by destruct (last (y :: l1)) eqn:E; [|apply last_None in E].
  - destruct l2 as [|z l2]; [by rewrite last_snoc|]. simpl head. rewrite !last_app.
    change (last (id :: z :: l2)) with (last (z :: l2)).
    by destruct (last (z :: l2)) eqn:E; [|apply last_None in E].
Qed.

(** The node is given its links, then one neighbour, then the other. *)
Definition placed (p : NodeId) (pv nx : option NodeId) n : Node Q :=
  set_next nx (set_prev pv (set_parent (Some p) n)).

Section place.
Context (a a1 a2 a3 : Arena Q) (ch : NodeId -> list NodeId) (c p : NodeId) (l1 l2 : list NodeId).
Context (Hf : forest (get a) ch) (Hin : insertable a p c) (El : ch p = l1 ++ l2).
Context (Hroot : forall n, get a c = Some n -> parent n = None).
Context (HG1 : forall x, get a1 x =
  if decide (x = c) then placed p (last l1) (head l2) <$> get a x else get a x).
Context (HS3 : forall x, sib (get a3) x =
  upd_prev (head l2) (Some c) (upd_next (last l1) (Some c) (sib (get a1))) x).
Context (HE3 : forall x, edges_of <$> get a3 x = (fun n =>
  if decide (x = p) then (match last l1 with None => Some c | _ => first_child n end,
                          match head l2 with None => Some c | _ => last_child n end)
  else edges_of n) <$> get a1 x).
Context (HD3 : forall x, data <$> get a3 x = data <$> get a1 x).

Lemma place_forest : forest (get a3) (fun x => if decide (x = p) then l1 ++ c :: l2 else ch x).
Proof.
  destruct Hin as [(np & Ep & Hcan) (n & En) Hne Hdoc Hb (dp & Hdp & Hmax)].
  assert (c ∉ ch p) as Hcp.
  { intros (m & Em & Hm)%(forest_elem _ _ _ _ Hf). rewrite (Hroot m) in Hm; congruence. }
  rewrite El, elem_of_app in Hcp.
  assert (sib (get a1) c = Some (Some p, last l1, head l2)) as Hc1.
  { unfold sib. rewrite HG1, decide_True, En by done. done. }
  eapply (forest_link (get a) (get a3) ch c p n np l1 l2 dp); try done; [by apply Hroot| | |].
  - intros x. change (links_of <$> get a3 x) with (sib (get a3) x). rewrite HS3.
    case_decide as Hx.
    + subst x. rewrite upd_prev_ne, upd_next_ne; [done| |].
      * intros E%last_elem. tauto.
      * intros E%head_elem. tauto.
    + apply upd_prev_ext, upd_next_ext. unfold sib. by rewrite HG1, decide_False.
  - intros x. rewrite HE3, HG1. pose proof (fo_edges _ _ Hf p np Ep) as Hed. rewrite El in Hed.
    destruct (edges_link l1 l2 c) as [<- <-]. injection Hed as Hfirst Hlast.
    destruct (decide (x = p)) as [->|Hx].
    + rewrite decide_False, Ep by done. simpl. by rewrite Hfirst, Hlast.
    + case_decide; by destruct (get a x).
  - intros x. rewrite HD3, HG1. case_decide; by destruct (get a x).
Qed.

Lemma place_data x : data <$> get a3 x = data <$> get a x.
Proof. rewrite HD3, HG1. case_decide; by destruct (get a x). Qed.
End place.

Record inserted a ch' a' : Prop := {
  is_shape : same_shape a a';
  is_forest : forest (get a') ch';
  is_data : forall x, data <$> get a' x = data <$> get a x
}.

Definition append_in p child ch : NodeId -> list NodeId := fun x =>
  if decide (x = p) then drop_child child ch p ++ [child] else drop_child child ch x.

Lemma detached_root a ch id a' n : detached a id ch a' -> get a' id = Some n -> parent n = None.
Proof.
  intros Hd E. pose proof (de_parent _ _ _ _ Hd id) as Hp. rewrite E in Hp.
  destruct (get a id); [|done]. simpl in Hp. rewrite decide_True in Hp by done. congruence.
Qed.

Lemma append_child_spec a ch p child :
  slots_ok (slots a) -> forest (get a) ch -> check_insertable a p child = Ok tt ->
  exists a', append_child p child a = (a', Ok tt) /\ inserted a (append_in p child ch) a'.
Proof.
  intros Hs Hf Hc. pose proof (check_insertable_spec _ _ _ _ Hf Hc) as Hin.
  unfold append_child. erewrite bind_ok by (by apply reads_ok).
  destruct (in_child _ _ _ Hin) as [n En].
  destruct (detach_spec a ch child n Hs Hf En) as (a1 & E1 & Hd1). erewrite bind_ok by done.
  pose proof (insertable_detached _ _ _ _ _ Hf Hin Hd1) as Hin1.
  pose proof Hd1 as [Sh1 Hf1 D1 _]. pose proof (ss_ok _ _ Sh1) as Hs1.
  destruct (in_parent _ _ _ Hin1) as (np & Ep & _). destruct (in_child _ _ _ Hin1) as [n1 En1].
  erewrite bind_ok by (by apply reads_ok, get_or_err_ok). cbv zeta.
  pose proof (fo_edges _ _ Hf1 p np Ep) as Hed. injection Hed as _ Hlast. rewrite Hlast.
  set (l1 := drop_child child ch p) in *.
  destruct (modify_spec a1 child (placed p (last l1) None) n1 Hs1 En1) as (a2 & E2 & Sh2 & G2).
  erewrite bind_ok by (apply E2).
  assert (forall x, is_Some (get a1 x) -> is_Some (get a2 x)) as L2.
  { intros x Hx. rewrite G2. case_decide; rewrite ?fmap_is_Some; done. }
  destruct (set_neighbour_spec a2 (last l1) (set_next (Some child)) p (set_first (Some child)))
    as (a3 & E3 & Sh3 & G3); [apply Sh2| |apply L2; by rewrite Ep|].
  { intros x Hx%last_elem. apply L2. by destruct (forest_elem _ _ _ _ Hf1 Hx) as (m & -> & _). }
  erewrite bind_ok by done.
  assert (is_Some (get a3 p)) as [np3 Ep3].
  { rewrite G3. assert (is_Some (get a2 p)) by (apply L2; by rewrite Ep).
    destruct (last l1); case_decide; rewrite ?fmap_is_Some; done. }
  destruct (modify_spec a3 p (set_last (Some child)) np3) as (a4 & E4 & Sh4 & G4); [apply Sh3|done|].
  exists a4. split; [done|].
  destruct (neighbour_next _ _ _ _ _ _ G3) as (S3 & Ed3 & D3).
  destruct (neighbour_prev (get a3) (get a4) None (Some child) (Some child) p G4) as (S4 & Ed4 & D4).
  assert (forall x, edges_of <$> get a4 x = (fun n =>
    if decide (x = p) then (match last l1 with None => Some child | _ => first_child n end, Some child)
    else edges_of n) <$> get a2 x) as Ed.
  { intros x. specialize (Ed3 x). specialize (Ed4 x). rewrite Ed4.
    destruct (get a3 x) as [m3|], (get a2 x) as [m2|]; simpl in *; try done.
    unfold edges_of in *. case_decide; congruence. }
  split.
  - repeat (eapply same_shape_trans; [done|]). by apply same_shape_refl, Sh4.
  - eapply forest_ext; [|eapply (place_forest a1 a2 a4 (drop_child child ch) child p l1 []); try done].
    + intros x. unfold append_in. done.
    + by rewrite app_nil_r.
    + intros m Em. by eapply detached_root.
    + intros x. rewrite S4. apply upd_prev_ext. rewrite S3. done.
    + intros x. by rewrite D4, D3.
  - intros x. rewrite D4, D3, G2, <- D1. case_decide; by destruct (get a1 x).
Qed.

Fixpoint put_before (sibling c : NodeId) (l : list NodeId) : list NodeId :=
  match l with
  | [] => []
  | x :: l => if decide (x = sibling) then c :: x :: l else x :: put_before sibling c l
  end.

Lemma put_before_split sibling c l1 l2 :
  sibling ∉ l1 -> put_before sibling c (l1 ++ sibling :: l2) = l1 ++ c :: sibling :: l2.
Proof.
  induction l1 as [|x l1 IH]; simpl.
  - by rewrite decide_True.
  - intros [Hx Hl]%not_elem_of_cons. rewrite decide_False by done. by rewrite IH.
Qed.

Definition insert_in p sibling c ch : NodeId -> list NodeId := fun x =>
  if decide (x = p) then put_before sibling c (drop_child c ch p) else drop_child c ch x.

Lemma insert_before_spec a ch p sibling c ns :
  slots_ok (slots a) -> forest (get a) ch -> sibling <> c ->
  get a sibling = Some ns -> parent ns = Some p -> check_insertable a p c = Ok tt ->
  exists a', insert_before sibling c a = (a', Ok tt) /\ inserted a (insert_in p sibling c ch) a'.
Proof.
  intros Hs Hf Hsc Ens Hps Hc. pose proof (check_insertable_spec _ _ _ _ Hf Hc) as Hin.
  unfold insert_before.
  erewrite bind_ok by (apply reads_ok; unfold get_or_err; rewrite Ens; simpl; by rewrite Hps).
  erewrite bind_ok by (by apply reads_ok).
  destruct (in_child _ _ _ Hin) as [n En].
  destruct (detach_spec a ch c n Hs Hf En) as (a1 & E1 & Hd1). erewrite bind_ok by done.
  pose proof (insertable_detached _ _ _ _ _ Hf Hin Hd1) as Hin1.
  pose proof Hd1 as [Sh1 Hf1 D1 P1]. pose proof (ss_ok _ _ Sh1) as Hs1.
  destruct (in_parent _ _ _ Hin1) as (np & Ep & _). destruct (in_child _ _ _ Hin1) as [n1 En1].
  assert (exists ns1, get a1 sibling = Some ns1 /\ parent ns1 = Some p) as (ns1 & Ens1 & Hps1).
  { specialize (P1 sibling). rewrite Ens in P1. simpl in P1. rewrite decide_False in P1 by done.
    destruct (get a1 sibling) as [m|]; [|done]. exists m. split; [done|]. simpl in P1. congruence. }
  erewrite bind_ok by (by apply reads_ok, get_or_err_ok). cbv zeta.
  destruct (forest_split _ _ _ _ _ Hf1 Ens1 Hps1) as (l1 & l2 & El & -> & _).
  pose proof (fo_nodup _ _ Hf1 p) as Hnd. rewrite El in Hnd.
  destruct (modify_spec a1 c (placed p (last l1) (Some sibling)) n1 Hs1 En1) as (a2 & E2 & Sh2 & G2).
  erewrite bind_ok by (apply E2).
  assert (forall x, is_Some (get a1 x) -> is_Some (get a2 x)) as L2.
  { intros x Hx. rewrite G2. case_decide; rewrite ?fmap_is_Some; done. }
  destruct (L2 sibling (ex_intro _ _ Ens1)) as [ns2 Ens2].
  destruct (modify_spec a2 sibling (set_prev (Some c)) ns2) as (a3 & E3 & Sh3 & G3); [apply Sh2|done|].
  erewrite bind_ok by done.
  assert (forall x, is_Some (get a1 x) -> is_Some (get a3 x)) as L3.
  { intros x Hx%L2. rewrite G3. case_decide; rewrite ?fmap_is_Some; done. }
  destruct (set_neighbour_spec a3 (last l1) (set_next (Some c)) p (set_first (Some c)))
    as (a4 & E4 & Sh4 & G4); [apply Sh3| |apply L3; by rewrite Ep|].
  { intros x Hx%last_elem. apply L3.
    destruct (forest_elem _ _ p x Hf1) as (m & -> & _); [rewrite El; set_solver|done]. }
  erewrite bind_ok by done.
  set (a5 := match index_of a4 c with Some i => ranges_after_insert p i a4 | None => a4 end).
  exists a5. split; [done|].
  assert (same_shape a4 a5 /\ forall x, get a5 x = get a4 x) as [Sh5 G5].
  { pose proof (ss_ok _ _ Sh4). unfold a5. by destruct (index_of a4 c); split; try done. }
  destruct (neighbour_prev (get a2) (get a3) (Some sibling) (Some c) (Some c) p G3) as (S3 & Ed3 & D3).
  destruct (neighbour_next _ _ _ _ _ _ G4) as (S4 & Ed4 & D4).
  assert (forall x, edges_of <$> get a4 x = (fun n =>
    if decide (x = p) then (match last l1 with None => Some c | _ => first_child n end, last_child n)
    else edges_of n) <$> get a2 x) as Ed.
  { intros x. specialize (Ed3 x). specialize (Ed4 x). rewrite Ed4.
    destruct (get a3 x) as [m3|], (get a2 x) as [m2|]; simpl in *; try done.
    unfold edges_of in *. case_decide; destruct (last l1); congruence. }
  assert (forest (get a4) (fun x => if decide (x = p) then l1 ++ c :: sibling :: l2 else drop_child c ch x))
    as Hf4.
  { eapply (place_forest a1 a2 a4 (drop_child c ch) c p l1 (sibling :: l2)); try done.
    - intros m Em. by eapply detached_root.
    - intros x. rewrite S4. rewrite <- upd_comm. apply upd_next_ext. by rewrite S3.
    - intros x. by rewrite D4, D3. }
  split.
  - repeat (eapply same_shape_trans; [done|]). by apply same_shape_refl, Sh5.
  - apply (forest_get_ext (get a4)); [done|]. eapply forest_ext; [|done].
    intros x. unfold insert_in. case_decide; [|done]. rewrite El, put_before_split; [done|].
    apply NoDup_app in Hnd as (_ & Hdis & _). intros Hx. apply (Hdis sibling Hx). by left.
  - intros x. rewrite G5, D4, D3, G2, <- D1. case_decide; by destruct (get a1 x).
Qed.
End ops.
