(* ===== verification/DomAlloc.v ===== *)
(** * Allocation, generations, stale handles

    Every operation of the arena is made of writes to occupied slots, allocations
    and releases.  Along any sequence of them the books balance and a handle that
    stopped resolving never resolves again. *)
From stdpp Require Import sets relations.
From S2P Require Import Prelude Bytes DomNode DomArena DomTree DomOps.

Section alloc.
Context {Q : Type} `{QualNames Q}.
Implicit Types (a : Arena Q) (id : NodeId) (s : Slot Q).

Local Abbreviation slot_at a i := (Slots.iter (slots a) !! N.to_nat i).

(** ** The steps everything is made of *)
Inductive prim : Arena Q -> Arena Q -> Prop :=
| prim_write a a' : same_shape a a' -> prim a a'
| prim_create a d : prim a (create d a).1
| prim_free a id : prim a (free_slot id a).1.

Definition occupied s : bool := match slot_node s with Some _ => true | None => false end.
Definition count_occupied (l : list (Slot Q)) : nat := length (List.filter occupied l).

(** The books: which slots are free, how many are live and retired, and that
    generations and indices stay in their ranges. *)
Record accounts a : Prop := {
  ac_slots : slots_ok (slots a);
  ac_nodup : NoDup (free a);
  ac_free : forall i, i ∈ free a -> exists s, slot_at a i = Some s /\ slot_node s = None;
  ac_total : (live a + length (free a) + retired a)%nat = length (Slots.iter (slots a));
  ac_live : live a = count_occupied (Slots.iter (slots a));
  ac_gen : forall i s, slot_at a i = Some s -> (GEN_MIN <= slot_generation s <= GEN_MAX)%N;
  ac_bound : (Z.of_nat (length (Slots.iter (slots a))) <= U32_MAX)%Z
}.

(** A handle that can never resolve again: its slot has moved on, or is retired. *)
Definition dead a id : Prop :=
  exists s, slot_at a (index id) = Some s /\
    ((generation id < slot_generation s)%N \/
     generation id = slot_generation s /\ slot_node s = None /\ index id ∉ free a).

Lemma dead_get a id : slots_ok (slots a) -> dead a id -> get a id = None.
Proof.
  intros Hs (s & Es & Hd). rewrite get_flat, Es by done. simpl. case_decide; [|done].
  destruct Hd as [?|(_ & ? & _)]; [lia|done].
Qed.

Lemma shape_lookup a a' i s' :
  same_shape a a' -> slot_at a' i = Some s' -> exists s, slot_at a i = Some s /\ shape s = shape s'.
Proof.
  intros Hsh E. pose proof (f_equal (fun l => l !! N.to_nat i) (ss_shape _ _ Hsh)) as L. simpl in L.
  rewrite !list_lookup_fmap, E in L. destruct (slot_at a i) as [s|]; [|done]. exists s. split; [done|]. simpl in L. congruence.
Qed.

Lemma shape_lookup_r a a' i s :
  same_shape a a' -> slot_at a i = Some s -> exists s', slot_at a' i = Some s' /\ shape s' = shape s.
Proof.
  intros Hsh E. pose proof (f_equal (fun l => l !! N.to_nat i) (ss_shape _ _ Hsh)) as L. simpl in L.
  rewrite !list_lookup_fmap, E in L. destruct (slot_at a' i) as [s'|]; [|done]. exists s'. split; [done|]. simpl in L. congruence.
Qed.

Lemma shape_node s s' : shape s = shape s' ->
  slot_generation s = slot_generation s' /\ (slot_node s = None <-> slot_node s' = None).
Proof. unfold shape. intros [= -> Hn]. split; [done|]. by destruct (slot_node s), (slot_node s'). Qed.

(** *** Creation *)
Inductive created a d : Arena Q -> result TreeError NodeId -> Prop :=
| created_reuse i rest s a' :
    free a = i :: rest -> slot_at a i = Some s ->
    a' = with_counts rest (S (live a)) (retired a)
      (with_slots (Slots.update (slots a) (N.to_nat i) (put_node (Node_new d)))
        (with_counts rest (live a) (retired a) a)) ->
    created a d a' (Ok (NodeId_new i (slot_generation s)))
| created_new a' :
    free a = [] -> (Z.of_nat (slot_count a) < U32_MAX)%Z ->
    a' = with_counts (free a) (S (live a)) (retired a)
      (with_slots (Slots.push empty_slot (slots a)
        {| slot_generation := GEN_MIN; slot_node := Some (Node_new d) |}) a) ->
    created a d a' (Ok (NodeId_new (N.of_nat (slot_count a)) GEN_MIN))
| created_full : free a = [] -> (U32_MAX <= Z.of_nat (slot_count a))%Z -> created a d a (Err Exhausted).

Lemma create_cases a d : accounts a -> created a d (create d a).1 (create d a).2.
Proof.
  intros Ha. unfold create. destruct (free a) as [|i rest] eqn:Hfree.
  - unfold try_from. case_decide as Hd.
    + case_decide as Hmax; simpl.
      * apply created_full; [done|lia].
      * assert (NodeId_new (Z.to_N (Z.of_nat (slot_count a))) GEN_MIN =
          NodeId_new (N.of_nat (slot_count a)) GEN_MIN) as -> by (f_equal; lia).
        rewrite <- Hfree. apply created_new; [done|lia|done].
    + simpl. apply created_full; [done|lia].
  - destruct (ac_free a Ha i) as (s & Es & Hn); [rewrite Hfree; by left|].
    rewrite slots_get, Es by apply Ha. simpl. by eapply created_reuse.
Qed.

Lemma get_created a d a' id x :
  accounts a -> created a d a' (Ok id) ->
  get a id = None /\ get a' x = if decide (x = id) then Some (Node_new d) else get a x.
Proof.
  intros Ha Hc. pose proof (ac_slots a Ha) as Hs.
  inversion Hc as [i rest s a'' Hfree Es Ha' Hr Hid|a'' Hfree Hlt Ha' Hr Hid|]; subst.
  - destruct (ac_free a Ha i) as (s' & Es' & Hn); [rewrite Hfree; by left|].
    assert (s' = s) as -> by congruence. split.
    { rewrite get_flat by done. simpl. rewrite Es. simpl. by case_decide. }
    rewrite !get_flat; [|done|by apply slots_update_ok]. simpl. rewrite slots_update by done.
    destruct (decide (index x = i)) as [<-|Hi].
    + rewrite list_lookup_alter_eq, Es. simpl.
      destruct (decide (x = NodeId_new (index x) (slot_generation s))) as [Hx|Hx].
      * apply (f_equal generation) in Hx. simpl in Hx. by rewrite decide_True.
      * rewrite Hn. rewrite !decide_False; [done| |]; intros Hg; apply Hx; destruct x; simpl in *; by subst.
    + rewrite list_lookup_alter_ne by lia. rewrite (decide_False (P := x = _)); [done|].
      intros ->. done.
  - pose proof (length_iter _ Hs) as Hlen. split.
    { rewrite get_flat by done. simpl. rewrite (proj2 (lookup_ge_None _ _)); [done|].
      unfold slot_count. lia. }
    destruct (slots_push empty_slot (slots a)
      {| slot_generation := GEN_MIN; slot_node := Some (Node_new d) |} Hs) as [Hs' Hit].
    rewrite !get_flat by done. simpl. rewrite Hit. unfold slot_count in *.
    destruct (decide (N.to_nat (index x) < length (Slots.iter (slots a)))%nat) as [Hi|Hi].
    + rewrite lookup_app_l by done. rewrite (decide_False (P := x = _)); [done|].
      intros ->. simpl in Hi. lia.
    + rewrite lookup_app_r by lia. rewrite (proj2 (lookup_ge_None (Slots.iter (slots a)) _)) by lia. simpl.
      destruct (decide (N.to_nat (index x) = length (Slots.iter (slots a)))) as [Hx|Hx].
      * rewrite Hx, Nat.sub_diag. simpl.
        destruct (decide (x = NodeId_new (N.of_nat (Slots.len (slots a))) GEN_MIN)) as [->|Hne].
        -- by rewrite decide_True.
        -- rewrite decide_False; [done|]. intros Hg. apply Hne. destruct x as [xi xg]. simpl in *.
           unfold NodeId_new. f_equal; [lia|done].
      * rewrite (decide_False (P := x = _)).
        -- rewrite (proj2 (lookup_ge_None _ _)); [done|]. simpl. lia.
        -- intros ->. simpl in Hx. lia.
Qed.

(** *** Counting *)
Lemma count_alter f (l : list (Slot Q)) i s :
  l !! i = Some s ->
  (count_occupied (alter f i l) + Nat.b2n (occupied s) =
   count_occupied l + Nat.b2n (occupied (f s)))%nat.
Proof.
  unfold count_occupied. revert i. induction l as [|x l IH]; intros [|i]; try done.
  - intros [= ->]. change (alter f 0 (s :: l)) with (f s :: l). cbn [List.filter].
    destruct (occupied s), (occupied (f s)); simpl; lia.
  - intros E. specialize (IH i E). change (alter f (S i) (x :: l)) with (x :: alter f i l).
    cbn [List.filter]. destruct (occupied x); simpl; lia.
Qed.

Lemma count_app (l k : list (Slot Q)) :
  count_occupied (l ++ k) = (count_occupied l + count_occupied k)%nat.
Proof. unfold count_occupied. by rewrite List.filter_app, length_app. Qed.

Lemma count_pos (l : list (Slot Q)) i s : l !! i = Some s -> occupied s = true -> (0 < count_occupied l)%nat.
Proof.
  unfold count_occupied. revert i. induction l as [|x l IH]; intros [|i]; try done.
  - intros [= ->] Ho. simpl. rewrite Ho. simpl. lia.
  - intros E Ho. specialize (IH i E Ho). simpl. destruct (occupied x); simpl; lia.
Qed.

(** *** Release *)
Definition released a id s : Arena Q :=
  let '(g, f, r) :=
    match next_generation (slot_generation s) with
    | Some next => (next, index id :: free a, retired a)
    | None => (slot_generation s, free a, S (retired a))
    end in
  with_counts f (live a - 1) r
    (with_slots (Slots.update (slots a) (N.to_nat (index id))
      (fun _ => {| slot_generation := g; slot_node := None |})) a).

Lemma free_slot_cases a id :
  slots_ok (slots a) ->
  match get a id with
  | None => free_slot id a = (a, false)
  | Some n => exists s, slot_at a (index id) = Some s /\ slot_generation s = generation id /\
      slot_node s = Some n /\ free_slot id a = (released a id s, true)
  end.
Proof.
  intros Hs. unfold free_slot. rewrite get_flat, slots_get by done.
  destruct (slot_at a (index id)) as [s|]; simpl; [|done]. case_decide as Hg.
  - rewrite (bool_decide_eq_true_2 _ Hg). simpl. destruct (slot_node s) as [n|] eqn:Hn.
    + exists s. rewrite bool_decide_eq_false_2 by done. split_and!; [done..|].
      unfold released. by destruct (next_generation _).
    + by rewrite bool_decide_eq_true_2.
  - by rewrite (bool_decide_eq_false_2 _ Hg).
Qed.

Lemma get_released a id s n x :
  slots_ok (slots a) -> slot_at a (index id) = Some s -> slot_generation s = generation id ->
  slot_node s = Some n ->
  get (released a id s) x = if decide (x = id) then None else get a x.
Proof.
  intros Hs Es Hg Hn. unfold released.
  destruct (match next_generation _ with Some _ => _ | None => _ end) as [[g f] r].
  rewrite !get_flat; [|done|by apply slots_update_ok]. simpl. rewrite slots_update by done.
  destruct (decide (index x = index id)) as [Hi|Hi].
  - rewrite Hi, list_lookup_alter_eq, Es. simpl.
    destruct (decide (x = id)) as [->|Hx]; [by case_decide|].
    rewrite (decide_False (P := slot_generation s = generation x)); [by case_decide|].
    intros Hgx. apply Hx. destruct x, id. simpl in *. congruence.
  - rewrite list_lookup_alter_ne by lia. rewrite (decide_False (P := x = id)); [done|]. congruence.
Qed.

Lemma accounts_released a id s n :
  accounts a -> slot_at a (index id) = Some s -> slot_generation s = generation id ->
  slot_node s = Some n -> accounts (released a id s).
Proof.
  intros Ha Es Hg Hn. pose proof (ac_slots a Ha) as Hs. unfold released.
  assert (index id ∉ free a) as Hnf.
  { intros (s' & Es' & Hn')%(ac_free a Ha). congruence. }
  assert (occupied s = true) as Ho by (unfold occupied; by rewrite Hn).
  pose proof (count_pos _ _ _ Es Ho) as Hpos. rewrite <- (ac_live a Ha) in Hpos.
  pose proof (ac_total a Ha). pose proof (ac_gen a Ha _ _ Es) as Hgen.
  set (g := slot_generation s) in *. unfold next_generation.
  assert (forall g' f r, (GEN_MIN <= g' <= GEN_MAX)%N -> NoDup f ->
    (forall i, i ∈ f -> i = index id \/ i ∈ free a) ->
    (length f + r = S (length (free a) + retired a))%nat ->
    accounts (with_counts f (live a - 1) r (with_slots (Slots.update (slots a) (N.to_nat (index id))
      (fun _ => {| slot_generation := g'; slot_node := None |})) a))) as Hgo.
  { intros g' f r Hg' Hnd Hf Hlen. split; simpl; rewrite ?slots_update by done.
    - by apply slots_update_ok.
    - done.
    - intros i Hi. destruct (decide (i = index id)) as [->|Hne].
      + rewrite list_lookup_alter_eq, Es. by eexists.
      + rewrite list_lookup_alter_ne by lia. apply (ac_free a Ha). destruct (Hf i Hi); done.
    - rewrite length_alter. lia.
    - pose proof (count_alter (fun _ => {| slot_generation := g'; slot_node := None |}) _ _ _ Es) as Hc.
      rewrite Ho in Hc. simpl in Hc. rewrite (ac_live a Ha). lia.
    - intros i s' Hi. destruct (decide (i = index id)) as [->|Hne].
      + rewrite list_lookup_alter_eq, Es in Hi. by injection Hi as <-.
      + rewrite list_lookup_alter_ne in Hi by lia. by eapply (ac_gen a Ha).
    - rewrite length_alter. apply (ac_bound a Ha). }
  destruct (g <? GEN_MAX)%N eqn:Hlt.
  - apply N.ltb_lt in Hlt. apply Hgo; [lia| | |simpl; lia].
    + constructor; [done|apply Ha].
    + intros i [->|Hi]%elem_of_cons; auto.
  - apply Hgo; [done|apply Ha|auto|lia].
Qed.

Lemma accounts_created a d a' r : accounts a -> created a d a' r -> accounts a'.
Proof.
  intros Ha Hc. pose proof (ac_slots a Ha) as Hs. pose proof (ac_total a Ha).
  destruct Hc as [i rest s a' Hfree Es ->|a' Hfree Hlt ->|]; [| |done].
  - destruct (ac_free a Ha i) as (s' & Es' & Hn); [rewrite Hfree; by left|].
    assert (s' = s) as -> by congruence. pose proof (ac_nodup a Ha) as Hnd.
    rewrite Hfree in Hnd. apply NoDup_cons in Hnd as [Hi Hnd]. rewrite Hfree in *. simpl in *.
    split; simpl; rewrite ?slots_update by done.
    + by apply slots_update_ok.
    + done.
    + intros j Hj. rewrite list_lookup_alter_ne; [apply (ac_free a Ha); rewrite Hfree; by right|].
      intros Hij. apply Hi. by replace i with j by lia.
    + rewrite length_alter. lia.
    + pose proof (count_alter (put_node (Node_new d)) _ _ _ Es) as Hc. unfold occupied in Hc at 1 2.
      simpl in Hc. rewrite Hn in Hc. simpl in Hc. rewrite (ac_live a Ha). lia.
    + intros j s' Hj. destruct (decide (j = i)) as [->|Hne].
      * rewrite list_lookup_alter_eq, Es in Hj. injection Hj as <-. exact (ac_gen a Ha i s Es).
      * rewrite list_lookup_alter_ne in Hj by lia. by eapply (ac_gen a Ha).
    + rewrite length_alter. apply (ac_bound a Ha).
  - set (s := {| slot_generation := GEN_MIN; slot_node := Some (Node_new d) |}).
    destruct (slots_push empty_slot (slots a) s Hs) as [Hs' Hit].
    pose proof (length_iter _ Hs). unfold slot_count in *.
    split; simpl; rewrite ?Hit, ?length_app; simpl.
    + done.
    + apply Ha.
    + rewrite Hfree. intros i Hi. by apply elem_of_nil in Hi.
    + lia.
    + rewrite count_app, (ac_live a Ha). unfold count_occupied at 3. simpl. lia.
    + intros i s' Hi. apply lookup_app_Some in Hi as [Hi|[_ Hi]]; [by eapply (ac_gen a Ha)|].
      apply list_lookup_singleton_Some in Hi as [_ <-]. simpl. unfold GEN_MIN, GEN_MAX. lia.
    + lia.
Qed.

Lemma accounts_shape a a' : accounts a -> same_shape a a' -> accounts a'.
Proof.
  intros Ha Hsh. pose proof Hsh as [S1 S2 S3 S4 S5 S6].
  assert (length (Slots.iter (slots a')) = length (Slots.iter (slots a))) as Hlen.
  { by rewrite <- (length_map shape), S2, length_map. }
  split; rewrite ?S4, ?S5, ?S6, ?Hlen; try apply Ha; [done| | |].
  - intros i (s & Es & Hn)%(ac_free a Ha). destruct (shape_lookup_r a a' i s Hsh Es) as (s' & Es' & Hs').
    exists s'. split; [done|]. by apply (shape_node _ _ Hs').
  - rewrite (ac_live a Ha). unfold count_occupied.
    assert (forall l k : list (Slot Q), map shape l = map shape k ->
      length (List.filter occupied l) = length (List.filter occupied k)) as Hcount.
    { induction l as [|x l IH]; intros [|y k]; try done. simpl. intros [= Hg Hn Hl].
      assert (occupied x = occupied y) as -> by done.
      destruct (occupied y); simpl; by rewrite (IH k). }
    symmetry. by apply Hcount.
  - intros i s' Hs'. destruct (shape_lookup a a' i s' Hsh Hs') as (s & Es & E).
    apply shape_node in E as [<- _]. by eapply (ac_gen a Ha).
Qed.

(** ** Evolution *)
Definition evolves : Arena Q -> Arena Q -> Prop := rtc prim.

Lemma prim_accounts a a' : prim a a' -> accounts a -> accounts a'.
Proof.
  intros [b b' Hsh|b d|b id] Ha; [by eapply accounts_shape| |].
  - by eapply accounts_created, create_cases.
  - pose proof (free_slot_cases b id (ac_slots b Ha)) as Hf. destruct (get b id) as [n|].
    + destruct Hf as (s & Es & Hg & Hn & ->). by eapply accounts_released.
    + by rewrite Hf.
Qed.

Lemma evolves_accounts a a' : evolves a a' -> accounts a -> accounts a'.
Proof. induction 1; eauto using prim_accounts. Qed.

Lemma dead_released a id s n x :
  accounts a -> slot_at a (index id) = Some s -> slot_generation s = generation id ->
  slot_node s = Some n -> x = id \/ dead a x -> dead (released a id s) x.
Proof.
  intros Ha Es Hg Hn Hx. pose proof (ac_slots a Ha) as Hs.
  assert (index id ∉ free a) as Hnf.
  { intros (s' & Es' & Hn')%(ac_free a Ha). congruence. }
  unfold released, dead. unfold next_generation.
  destruct (slot_generation s <? GEN_MAX)%N eqn:Hlt; simpl; rewrite slots_update by done;
    destruct (decide (index x = index id)) as [Hi|Hi].
  - rewrite Hi, list_lookup_alter_eq, Es. eexists. split; [done|]. left. simpl.
    destruct Hx as [->|(s' & Es' & Hd)]; [lia|]. rewrite Hi, Es in Es'. injection Es' as <-.
    destruct Hd as [?|(? & ? & _)]; [lia|congruence].
  - destruct Hx as [->|(s' & Es' & Hd)]; [done|]. exists s'. rewrite list_lookup_alter_ne by lia.
    split; [done|]. destruct Hd as [?|(? & ? & ?)]; [by left|right]. split_and!; [done..|].
    by apply not_elem_of_cons.
  - rewrite Hi, list_lookup_alter_eq, Es. eexists. split; [done|]. simpl.
    destruct Hx as [->|(s' & Es' & Hd)]; [by right|]. rewrite Hi, Es in Es'. injection Es' as <-.
    destruct Hd as [?|(? & ? & _)]; [by left|congruence].
  - destruct Hx as [->|(s' & Es' & Hd)]; [done|]. exists s'. by rewrite list_lookup_alter_ne by lia.
Qed.

Lemma dead_created a d a' r x : accounts a -> created a d a' r -> dead a x -> dead a' x /\ r <> Ok x.
Proof.
  intros Ha Hc (s & Es & Hd). pose proof (ac_slots a Ha) as Hs.
  destruct Hc as [i rest t a' Hfree Et ->|a' Hfree Hlt ->|]; [| |split; [by exists s|done]].
  - destruct (ac_free a Ha i) as (t' & Et' & Hn); [rewrite Hfree; by left|].
    assert (t' = t) as -> by congruence. clear Et'.
    destruct (decide (index x = i)) as [Hi|Hi].
    + assert (s = t) as -> by congruence.
      destruct Hd as [Hd|(_ & _ & Hnf)]; [|rewrite Hfree, Hi in Hnf; set_solver].
      split; [|intros [= <-]; simpl in Hd; lia].
      exists (put_node (Node_new d) t). simpl. rewrite slots_update by done.
      rewrite Hi, list_lookup_alter_eq, Et. split; [done|]. by left.
    + split; [|intros [= <-]; done]. exists s. simpl. rewrite slots_update by done.
      rewrite list_lookup_alter_ne by lia. split; [done|].
      destruct Hd as [?|(? & ? & Hnf)]; [by left|right]. split_and!; [done..|].
      rewrite Hfree in Hnf. set_solver.
  - pose proof (lookup_lt_Some _ _ _ Es) as Hlt'. pose proof (length_iter _ Hs).
    split; [|intros [= <-]; simpl in Hlt'; unfold slot_count in *; lia].
    exists s. simpl. destruct (slots_push empty_slot (slots a)
      {| slot_generation := GEN_MIN; slot_node := Some (Node_new d) |} Hs) as [_ ->].
    by rewrite lookup_app_l.
Qed.

Lemma dead_prim a a' x : accounts a -> prim a a' -> dead a x -> dead a' x.
Proof.
  intros Ha Hp. revert Ha. destruct Hp as [b b' Hsh|b d|b id]; intros Ha.
  - intros (s & Es & Hd). destruct (shape_lookup_r b b' _ s Hsh Es) as (s' & Es' & E).
    exists s'. split; [done|]. apply shape_node in E as [-> Hn]. rewrite (ss_free _ _ Hsh), Hn. done.
  - intros Hd. eapply dead_created; [done|by apply create_cases|done].
  - intros Hd. pose proof (free_slot_cases b id (ac_slots b Ha)) as Hf. destruct (get b id) as [n|].
    + destruct Hf as (s & Es & Hg & Hn & ->). eapply dead_released; eauto.
    + by rewrite Hf.
Qed.

Lemma dead_evolves a a' x : accounts a -> evolves a a' -> dead a x -> dead a' x.
Proof.
  intros Ha He. induction He as [|a b c Hp _ IH]; [done|]. intros Hd.
  apply IH; [by eapply prim_accounts|by eapply dead_prim].
Qed.

(** A resolving handle goes on resolving until it is dead. *)
Lemma live_prim a a' x :
  accounts a -> prim a a' -> is_Some (get a x) -> is_Some (get a' x) \/ dead a' x.
Proof.
  intros Ha Hp. revert Ha. destruct Hp as [b b' Hsh|b d|b id]; intros Ha [n Ex].
  - left. destruct (get_slot b x n (ac_slots b Ha) Ex) as (s & Es & Hg & Hn).
    destruct (shape_lookup_r b b' _ s Hsh Es) as (s' & Es' & [Hgen Hnode]%shape_node).
    rewrite get_flat, Es' by apply Hsh. simpl. rewrite decide_True by congruence.
    destruct (slot_node s'); [done|]. rewrite (proj1 Hnode) in Hn; done.
  - left. pose proof (create_cases b d Ha) as Hc. destruct (create d b) as [b' [id|e]]; simpl in *.
    + rewrite (proj2 (get_created b d b' id x Ha Hc)). case_decide; [done|by rewrite Ex].
    + inversion Hc; subst. by rewrite Ex.
  - pose proof (free_slot_cases b id (ac_slots b Ha)) as Hf. destruct (get b id) as [m|] eqn:Eid.
    + destruct Hf as (s & Es & Hg & Hn & ->). simpl.
      rewrite (get_released b id s m x (ac_slots b Ha) Es Hg Hn).
      case_decide; [right; eapply dead_released; eauto|left; by rewrite Ex].
    + left. rewrite Hf. by eexists.
Qed.

Lemma live_evolves a a' x :
  accounts a -> evolves a a' -> is_Some (get a x) -> is_Some (get a' x) \/ dead a' x.
Proof.
  intros Ha He. induction He as [|a b c Hp He IH]; [by left|]. intros Hl.
  pose proof (prim_accounts _ _ Hp Ha) as Hb.
  destruct (live_prim a b x Ha Hp Hl) as [?|?]; [by apply IH|right; by eapply dead_evolves].
Qed.

(** *** Every operation evolves *)
Definition evolving {A} (m : tree Q A) : Prop := forall a, accounts a -> evolves a (m a).1.

Lemma evolving_write (f : Arena Q -> Arena Q) :
  (forall a, slots_ok (slots a) -> same_shape a (f a)) -> evolving (updates f).
Proof. intros Hf a Ha. apply rtc_once, prim_write, Hf, Ha. Qed.

Lemma evolving_ret {A} (x : A) : evolving (mret x).
Proof. intros a _. apply rtc_refl. Qed.

Lemma evolving_reads {A} (f : Arena Q -> result TreeError A) : evolving (reads f).
Proof. intros a _. apply rtc_refl. Qed.

Lemma evolving_bind {A B} (m : tree Q A) (f : A -> tree Q B) :
  evolving m -> (forall x, evolving (f x)) -> evolving (m ≫= f).
Proof.
  intros Hm Hf a Ha. specialize (Hm a Ha). unfold mbind, tree_bind.
  destruct (m a) as [b [x|e]]; simpl in *; [|done]. etrans; [done|].
  apply Hf. by eapply evolves_accounts.
Qed.

Lemma evolving_modify id f : evolving (modify id f).
Proof.
  intros a Ha. unfold modify. destruct (get a id) as [n|] eqn:E; [|apply rtc_refl].
  apply rtc_once, prim_write. by eapply same_shape_set; [apply Ha|].
Qed.

Lemma evolving_create d : evolving (create d).
Proof. intros a _. apply rtc_once, prim_create. Qed.
End alloc.

Create HintDb evolve.
#[export] Hint Resolve evolving_ret evolving_reads evolving_modify evolving_create : evolve.

Section evolution.
Context {Q : Type} `{QualNames Q}.
Implicit Types (a : Arena Q) (id : NodeId).

Ltac evolve := repeat first [solve [auto with evolve] | simple apply evolving_bind; [|intros ?]].

Lemma evolving_set_neighbour o link p edge : evolving (Q := Q) (set_neighbour o link p edge).
Proof. destruct o; simpl; auto with evolve. Qed.
Hint Resolve evolving_set_neighbour : evolve.

Lemma evolving_detach id : evolving (Q := Q) (detach id).
Proof.
  unfold detach. evolve. destruct (parent _); evolve.
  apply evolving_write. intros a Ha. by apply ranges_before_remove_frame.
Qed.
Hint Resolve evolving_detach : evolve.

Lemma evolving_append_child p c : evolving (Q := Q) (append_child p c).
Proof. unfold append_child. cbv zeta. evolve. Qed.
Hint Resolve evolving_append_child : evolve.

Lemma evolving_insert_before s c : evolving (Q := Q) (insert_before s c).
Proof.
  unfold insert_before. cbv zeta. evolve. apply evolving_write. intros a Ha.
  by destruct (index_of a c).
Qed.

Lemma evolving_append_all to l : evolving (Q := Q) (append_all to l).
Proof. induction l; simpl; evolve. Qed.
Hint Resolve evolving_append_all : evolve.

Lemma evolving_reparent_children from to : evolving (Q := Q) (reparent_children from to).
Proof. unfold reparent_children. evolve. Qed.

Lemma evolves_remove_loop fuel freed stack a : accounts a -> evolves a (remove_loop fuel freed stack a).1.
Proof.
  revert freed stack a. induction fuel as [|fuel IH]; intros freed [|cur stack] a Ha; try apply rtc_refl.
  cbn [remove_loop]. destruct (children a cur) as [l|]; [|by apply IH].
  pose proof (prim_free a cur) as Hp. destruct (free_slot cur a) as [b done_]. simpl in Hp.
  eapply rtc_l; [done|]. apply IH. by eapply prim_accounts.
Qed.

Lemma drop_range_shape (r : RangeId) a : slots_ok (slots a) -> same_shape a (drop_range r a).1.
Proof.
  intros Hs. unfold drop_range. destruct (ranges a !! _); [|done].
  destruct (_ || _); [done|]. by destruct (next_generation _).
Qed.

Lemma drop_dangling_shape a : slots_ok (slots a) -> same_shape a (drop_dangling a).
Proof.
  intros Hs. unfold drop_dangling. set (l := omap _ _). clearbody l. revert a Hs.
  induction l as [|r l IH]; intros a Hs; simpl; [by apply same_shape_refl|].
  pose proof (drop_range_shape r a Hs) as Hd. eapply same_shape_trans; [done|]. apply IH, Hd.
Qed.

Lemma evolving_remove_subtree id : evolving (Q := Q) (remove_subtree id).
Proof.
  unfold remove_subtree. evolve. intros a Ha. unfold free_subtree.
  pose proof (evolves_remove_loop (removal_fuel a) 0 [id] a Ha) as He.
  destruct (remove_loop _ _ _ a) as [b n]. simpl in *. etrans; [done|].
  apply rtc_once, prim_write, drop_dangling_shape. by eapply ac_slots, evolves_accounts.
Qed.

Lemma evolving_clone_loop budget stack : evolving (Q := Q) (clone_loop budget stack).
Proof.
  revert stack. induction budget as [|budget IH]; intros [|[src p] stack]; cbn [clone_loop]; evolve.
Qed.
Hint Resolve evolving_clone_loop : evolve.

Lemma evolving_clone_subtree id : evolving (Q := Q) (clone_subtree id).
Proof. unfold clone_subtree. evolve. Qed.

Lemma snapshot_change_shape id (name : Q) a :
  slots_ok (slots a) -> same_shape a (snapshot_attribute_change id name a).
Proof.
  intros Hs. unfold snapshot_attribute_change. destruct (negb _); [done|].
  destruct (snapshot a id); [done|]. by destruct (n ← get a id; node_attrs n).
Qed.

Lemma evolving_set_attribute id (name : Q) value : evolving (set_attribute id name value).
Proof.
  unfold set_attribute. evolve.
  - apply evolving_write. intros a. apply snapshot_change_shape.
  - destruct x0 as [[[en attrs] t] b]. cbv beta iota zeta. evolve.
Qed.
Hint Resolve evolving_set_attribute : evolve.

Lemma evolving_remove_attribute id (name : Q) : evolving (remove_attribute id name).
Proof.
  unfold remove_attribute. evolve.
  - apply evolving_write. intros a. apply snapshot_change_shape.
  - destruct x0 as [[[en attrs] t] b]. cbv beta iota zeta. evolve.
Qed.

Lemma evolving_add_attributes id (incoming : list (Attribute Q)) :
  evolving (add_attributes_if_missing id incoming).
Proof.
  unfold add_attributes_if_missing. evolve.
  induction incoming as [|y l IH]; simpl; [evolve|]. destruct (bool_decide _); [done|]. evolve.
Qed.

Lemma evolving_new_range s e : evolving (Q := Q) (new_range s e).
Proof.
  intros a Ha. unfold new_range. destruct (_ || _); [apply rtc_refl|].
  destruct (compare_boundary_points a s e) as [[]|]; try apply rtc_refl.
  all: destruct (free_ranges a) as [|i rest];
    [destruct (try_from _ _)|destruct (ranges a !! N.to_nat i)]; try apply rtc_refl;
    apply rtc_once, prim_write; by split; try done; apply Ha.
Qed.
End evolution.
