(* ===== verification/DomRemove.v ===== *)
(** * Creation, child lists and removal

    A created node is a new root; the snapshot of a child list is the child list;
    removal frees a node with everything it owns and leaves the rest a forest. *)
From stdpp Require Import sets relations.
From S2P Require Import Prelude Bytes DomNode DomArena DomTree DomOps DomAlloc.

Section remove.
Context {Q : Type} `{QualNames Q}.
Implicit Types (a : Arena Q) (id : NodeId) (ch : NodeId -> list NodeId) (n : Node Q).
Implicit Types (G : NodeId -> option (Node Q)).

(** ** A new node *)
Lemma forest_create G G' ch id d :
  forest G ch -> G id = None ->
  (forall x, G' x = if decide (x = id) then Some (Node_new d) else G x) -> forest G' ch.
Proof.
  intros Hf Hid HG.
  assert (forall x y, x ∈ ch y -> x <> id) as Hmem.
  { intros x y (m & E & _)%(forest_elem _ _ _ _ Hf). congruence. }
  split.
  - intros x m. rewrite HG. case_decide as Hx; [|apply (fo_edges _ _ Hf)].
    intros [= <-]. subst. by rewrite (fo_dead _ _ Hf id Hid).
  - intros x. eapply chain_ext; [|apply (fo_chain _ _ Hf)]. intros y Hy.
    rewrite HG, decide_False; [done|]. by eapply Hmem.
  - apply (fo_nodup _ _ Hf).
  - intros x m p. rewrite HG. case_decide; [by intros [= <-]|]. apply (fo_child _ _ Hf).
  - intros x m. rewrite HG. case_decide; [by intros [= <-]|]. apply (fo_root _ _ Hf).
  - intros x. rewrite HG. case_decide; [done|]. apply (fo_dead _ _ Hf).
  - intros x m. rewrite HG. case_decide as Hx.
    + intros _. exists 0. split; [lia|]. econstructor; [by rewrite HG, decide_True|done].
    + intros E. destruct (fo_depth _ _ Hf x m E) as (k & Hk & Hd). exists k. split; [done|].
      clear m E Hx Hk. induction Hd as [x m E Hm|x m p k E Hm _ IH].
      * econstructor; [rewrite HG, decide_False; [done|congruence]|done].
      * econstructor; [rewrite HG, decide_False; [done|congruence]|done|done].
  - intros x m. rewrite HG. case_decide; [intros _ _; subst; by apply (fo_dead _ _ Hf)|apply (fo_leaf _ _ Hf)].
Qed.

(** ** Child lists *)
Lemma live_index_inj a x y nx ny :
  slots_ok (slots a) -> get a x = Some nx -> get a y = Some ny -> index x = index y -> x = y.
Proof.
  intros Hs Ex Ey Hi. destruct (get_slot a x nx Hs Ex) as (s & Es & Hg & _).
  destruct (get_slot a y ny Hs Ey) as (t & Et & Hg' & _).
  rewrite Hi in Es. destruct x, y. simpl in *. congruence.
Qed.

Lemma live_bound a x n : slots_ok (slots a) -> get a x = Some n -> (N.to_nat (index x) < slot_count a)%nat.
Proof.
  intros Hs Ex. destruct (get_slot a x n Hs Ex) as (s & Es & _).
  apply lookup_lt_Some in Es. by rewrite length_iter in Es.
Qed.

(** Distinct live handles fit in the slots. *)
Lemma live_list_bound a (l : list NodeId) :
  slots_ok (slots a) -> NoDup l -> (forall x, x ∈ l -> is_Some (get a x)) ->
  (length l <= slot_count a)%nat.
Proof.
  intros Hs Hnd Hl.
  transitivity (length (map (fun x => N.to_nat (index x)) l)); [by rewrite length_map|].
  transitivity (length (seq 0 (slot_count a))); [|by rewrite length_seq]. apply NoDup_incl_length.
  - apply NoDup_ListNoDup. apply NoDup_fmap_2_strong; [|done].
    intros x y Hx%Hl Hy%Hl Hxy. destruct Hx as [nx Hx], Hy as [ny Hy].
    eapply live_index_inj; eauto. lia.
  - intros i Hi. apply list_elem_of_In, list_elem_of_fmap in Hi as (x & -> & Hx).
    destruct (Hl x Hx) as [n Hn]. apply in_seq. pose proof (live_bound a x n Hs Hn). lia.
Qed.

Lemma children_loop_spec fuel a p pv l acc :
  chain (sib (get a)) p pv l None -> (length acc + length l <= slot_count a)%nat ->
  (length l <= fuel)%nat -> children_loop fuel a acc (head l) = Some (reverse acc ++ l).
Proof.
  revert fuel pv acc. induction l as [|c l IH]; intros fuel pv acc Hc Hlen Hfuel.
  - rewrite app_nil_r. by destruct fuel.
  - destruct Hc as [Hc Hl]. simpl in Hfuel, Hlen. destruct fuel as [|fuel]; [lia|].
    cbn [children_loop head]. unfold sib in Hc. destruct (get a c) as [n|] eqn:En; [|done].
    injection Hc as _ _ Hn. cbn [mbind option_bind length].
    destruct (_ <? _)%nat eqn:Hbig; [apply Nat.ltb_lt in Hbig; lia|].
    assert (next_sibling n = head l) as -> by (rewrite Hn; by destruct l).
    rewrite (IH fuel (Some c)); [|done|simpl; lia|lia]. by rewrite reverse_cons, <- app_assoc.
Qed.

(** The children of a live node whose child list is intact. *)
Lemma children_chain a id n l :
  slots_ok (slots a) -> get a id = Some n -> first_child n = head l -> NoDup l ->
  chain (sib (get a)) id None l None -> children a id = Some l.
Proof.
  intros Hs E Hh Hnd Hc. unfold children. rewrite E. cbn [mbind option_bind]. rewrite Hh.
  assert (length l <= slot_count a)%nat as Hlen.
  { apply live_list_bound; [done..|]. intros x Hx.
    destruct (chain_elem _ _ _ _ _ x Hc Hx) as (? & ? & E'). unfold sib in E'. by destruct (get a x). }
  rewrite (children_loop_spec _ a id None l []); [done|done|simpl; lia|lia].
Qed.

Lemma children_spec a ch id n :
  slots_ok (slots a) -> forest (get a) ch -> get a id = Some n -> children a id = Some (ch id).
Proof.
  intros Hs Hf E. pose proof (fo_edges _ _ Hf id n E) as Hed. injection Hed as Hfirst _.
  eapply children_chain; [done..|apply (fo_nodup _ _ Hf)|apply (fo_chain _ _ Hf)].
Qed.

(** ** Removal *)
(** What a node owns: its subtree, and the contents of the templates in it. *)
Inductive owned G id : NodeId -> Prop :=
| owned_self : owned G id id
| owned_child x n p : G x = Some n -> parent n = Some p -> owned G id p -> owned G id x
| owned_contents x n t : G x = Some n -> template_contents_of n = Some t -> owned G id x -> owned G id t.

(** The contents of every template hang from nothing. *)
Definition templates_apart G : Prop :=
  forall x n t m, G x = Some n -> template_contents_of n = Some t -> G t = Some m -> parent m = None.

Section loop.
Context (G : NodeId -> option (Node Q)) (ch : NodeId -> list NodeId) (top : NodeId).
Context (Hf : forest G ch).
Context (Htpl : templates_apart G).

(** Half-way through: what is freed is closed upwards, what hangs from a freed
    node or is the contents of one is on the stack, and nothing but what [top]
    owns was touched. *)
Record removing a (stack : list NodeId) : Prop := {
  re_same : forall x, get a x = G x \/ get a x = None /\ owned G top x;
  re_up : forall x n p, G x = Some n -> get a x = None -> parent n = Some p -> get a p = None;
  re_orphan : forall x n p, get a x = Some n -> parent n = Some p -> get a p = None -> x ∈ stack;
  re_contents : forall x n t, G x = Some n -> get a x = None -> template_contents_of n = Some t ->
    get a t = None \/ t ∈ stack;
  re_stack : forall y n p, y ∈ stack -> get a y = Some n -> parent n = Some p -> get a p = None;
  re_owned : forall y, y ∈ stack -> owned G top y;
  re_top : get a top = None \/ top ∈ stack
}.

Lemma removing_live a stack x n : removing a stack -> get a x = Some n -> G x = Some n.
Proof. intros Hr E. destruct (re_same _ _ Hr x) as [Hx|[Hx _]]; congruence. Qed.

(** The child list of a live node is whole. *)
Lemma removing_children a stack x n :
  accounts a -> removing a stack -> get a x = Some n -> children a x = Some (ch x).
Proof.
  intros Ha Hr E. pose proof (removing_live _ _ _ _ Hr E) as EG.
  pose proof (fo_edges _ _ Hf x n EG) as Hed. injection Hed as Hfirst _.
  eapply children_chain; [apply Ha|done|done|apply (fo_nodup _ _ Hf)|].
  eapply chain_ext; [|apply (fo_chain _ _ Hf)]. intros c (m & Em & Hm)%(forest_elem _ _ _ _ Hf).
  unfold sib. destruct (re_same _ _ Hr c) as [->|[Hc _]]; [done|].
  pose proof (re_up _ _ Hr c m x Em Hc Hm). congruence.
Qed.

(** A handle that no longer resolves is skipped. *)
Lemma removing_skip a cur stack : removing a (cur :: stack) -> get a cur = None -> removing a stack.
Proof.
  intros [R1 R2 R3 R4 R5 R6 R7] E.
  split; [done|done| | |intros; eapply R5; [by right|done..]|intros; apply R6; by right|].
  - intros x n p Ex Hp Ep. pose proof (R3 x n p Ex Hp Ep) as [->|?]%elem_of_cons; [congruence|done].
  - intros x n t Ex Hx Ht. destruct (R4 x n t Ex Hx Ht) as [?|[->|?]%elem_of_cons]; auto.
  - destruct R7 as [?|[->|?]%elem_of_cons]; auto.
Qed.

Lemma removing_free a a' cur stack n :
  removing a (cur :: stack) -> get a cur = Some n ->
  (forall x, get a' x = if decide (x = cur) then None else get a x) ->
  removing a' (option_list (template_contents_of n) ++ reverse (ch cur) ++ stack).
Proof.
  intros Hr E Hg. pose proof (removing_live _ _ _ _ Hr E) as EG.
  destruct Hr as [R1 R2 R3 R4 R5 R6 R7].
  assert (owned G top cur) as Hcur by (apply R6; by left).
  assert (forall x, get a x = None -> get a' x = None) as Hmono.
  { intros x Hx. rewrite Hg. by case_decide. }
  split.
  - intros x. rewrite Hg. case_decide; [subst; by right|apply R1].
  - intros x m p Em Hx Hp. rewrite Hg in Hx. case_decide as Hxc; [subst x|by eauto].
    apply Hmono. assert (m = n) as -> by congruence. eapply R5; [by left|done..].
  - intros x m p Em Hp Hpn. rewrite Hg in Em, Hpn. destruct (decide (x = cur)) as [|Hxc]; [done|].
    rewrite !elem_of_app, elem_of_reverse. destruct (decide (p = cur)) as [Hpc|Hpc].
    + subst p. right; left. eapply fo_child; [done| |done]. destruct (R1 x) as [<-|[? _]]; congruence.
    + pose proof (R3 x m p Em Hp Hpn) as [?|?]%elem_of_cons; [done|auto].
  - intros x m t Em Hx Ht. rewrite Hg in Hx. rewrite !elem_of_app, elem_of_reverse.
    case_decide as Hxc; [subst x|].
    + assert (m = n) as -> by congruence. rewrite Ht. right; left. by left.
    + destruct (R4 x m t Em Hx Ht) as [?|[->|?]%elem_of_cons]; [auto| |auto].
      left. by rewrite Hg, decide_True.
  - intros y m p Hy Em Hp. rewrite Hg in Em. case_decide as Hyc; [done|].
    rewrite !elem_of_app, elem_of_reverse in Hy. destruct Hy as [Hy|[Hy|Hy]].
    + destruct (template_contents_of n) as [t|] eqn:Ht; [|by apply elem_of_nil in Hy].
      apply list_elem_of_singleton in Hy as ->.
      assert (G t = Some m) as Emt by (destruct (R1 t) as [<-|[? _]]; congruence).
      rewrite (Htpl cur n t m EG Ht Emt) in Hp. done.
    + apply (forest_elem _ _ _ _ Hf) in Hy as (m' & Em' & Hm').
      assert (G y = Some m) as Ey by (destruct (R1 y) as [<-|[? _]]; congruence).
      assert (p = cur) as -> by congruence. by rewrite Hg, decide_True.
    + apply Hmono. eapply R5; [by right|done..].
  - intros y Hy. rewrite !elem_of_app, elem_of_reverse in Hy. destruct Hy as [Hy|[Hy|Hy]].
    + destruct (template_contents_of n) as [t|] eqn:Ht; [|by apply elem_of_nil in Hy].
      apply list_elem_of_singleton in Hy as ->. by eapply owned_contents.
    + apply (forest_elem _ _ _ _ Hf) in Hy as (m' & Em' & Hm'). by eapply owned_child.
    + apply R6. by right.
  - rewrite !elem_of_app. destruct R7 as [?|[->|?]%elem_of_cons]; [auto| |auto].
    left. by rewrite Hg, decide_True.
Qed.

(** With nothing left to do, exactly what [top] owns is gone. *)
Lemma removing_done a x : removing a [] -> owned G top x -> get a x = None.
Proof.
  intros [R1 R2 R3 R4 R5 R6 R7]. induction 1 as [|x n p E Hp _ IH|x n t E Ht _ IH].
  - destruct R7 as [?|H7]; [done|by apply elem_of_nil in H7].
  - destruct (get a x) as [m|] eqn:Em; [|done]. exfalso.
    assert (m = n) as -> by (destruct (R1 x) as [?|[? _]]; congruence).
    apply (not_elem_of_nil x). by eapply R3.
  - destruct (R4 x n t E IH Ht) as [?|H4]; [done|by apply elem_of_nil in H4].
Qed.

Lemma removing_forest a :
  removing a [] -> forest (get a) (fun x => match get a x with Some _ => ch x | None => [] end).
Proof.
  intros Hr. pose proof Hr as [R1 R2 R3 R4 R5 R6 R7].
  assert (forall x n, get a x = Some n -> G x = Some n) as HG by (intros; by eapply removing_live).
  assert (forall x n p, get a x = Some n -> parent n = Some p -> exists m, get a p = Some m) as Hpar.
  { intros x n p E Hp. destruct (get a p) as [m|] eqn:Ep; [by exists m|].
    pose proof (R3 x n p E Hp Ep) as Hx. by apply elem_of_nil in Hx. }
  split.
  - intros x n E. rewrite E. by apply (fo_edges _ _ Hf), HG.
  - intros x. destruct (get a x) as [n|] eqn:E; [|done].
    eapply chain_ext; [|apply (fo_chain _ _ Hf)]. intros c (m & Em & Hm)%(forest_elem _ _ _ _ Hf).
    destruct (R1 c) as [->|[Hc _]]; [done|]. pose proof (R2 c m x Em Hc Hm). congruence.
  - intros x. destruct (get a x); [apply (fo_nodup _ _ Hf)|constructor].
  - intros x n p E Hp. destruct (Hpar x n p E Hp) as [m ->]. eapply (fo_child _ _ Hf); eauto.
  - intros x n E Hp. by apply (fo_root _ _ Hf x), Hp; apply HG.
  - intros x ->. done.
  - intros x n E. destruct (fo_depth _ _ Hf x n (HG x n E)) as (d & Hle & Hd). exists d. split; [done|].
    clear Hle. revert n E. induction Hd as [x n0 E0 Hp|x n0 p d E0 Hp _ IH]; intros n E.
    + econstructor; [done|]. apply HG in E. congruence.
    + assert (parent n = Some p) as Hn by (apply HG in E; congruence).
      destruct (Hpar x n p E Hn) as [m Em]. econstructor; eauto.
  - intros x n E Hn. rewrite E. apply (fo_leaf _ _ Hf x n); [by apply HG|done].
Qed.

(** ** The loop ends *)
Definition node_work (i : nat) (s : Slot Q) : nat :=
  match slot_node s with None => 0 | Some _ => 2 + length (ch (slot_id i s)) end.

Definition work a : nat := sum_list (imap node_work (Slots.iter (slots a))).

Lemma sum_imap_alter (f : nat -> Slot Q -> nat) g (l : list (Slot Q)) i s :
  l !! i = Some s -> (sum_list (imap f (alter g i l)) + f i s = sum_list (imap f l) + f i (g s))%nat.
Proof.
  revert f i. induction l as [|x l IH]; intros f [|i] E; try done.
  - injection E as ->. change (alter g 0 (s :: l)) with (g s :: l). rewrite !imap_cons. simpl. lia.
  - change (alter g (S i) (x :: l)) with (x :: alter g i l). rewrite !imap_cons. simpl.
    pose proof (IH (f ∘ S) i E) as Hi. simpl in Hi. lia.
Qed.

Lemma work_released a id s n :
  slots_ok (slots a) -> Slots.iter (slots a) !! N.to_nat (index id) = Some s ->
  slot_generation s = generation id -> slot_node s = Some n ->
  (work (released a id s) + 2 + length (ch id) = work a)%nat.
Proof.
  intros Hs Es Hg Hn. unfold released, work.
  destruct (match next_generation _ with Some _ => _ | None => _ end) as [[g f] r]. simpl.
  rewrite slots_update by done.
  pose proof (sum_imap_alter node_work (fun _ => {| slot_generation := g; slot_node := None |}) _ _ _ Es) as Hsum.
  assert (node_work (N.to_nat (index id)) s = 2 + length (ch id))%nat as Hw.
  { unfold node_work, slot_id. rewrite Hn, Hg, N2Nat.id. by destruct id. }
  rewrite Hw in Hsum. cbn in Hsum. lia.
Qed.

Lemma removal_fuel_enough a stack :
  accounts a -> removing a stack -> removal_fuel a = (2 + work a)%nat.
Proof.
  intros Ha Hr. unfold removal_fuel, work. do 2 f_equal. apply imap_ext. intros i s Es.
  unfold slot_work, node_work. destruct (slot_node s) as [n|] eqn:Hn; [|done].
  erewrite removing_children; [done..|]. rewrite get_flat by apply Ha. simpl.
  rewrite Nat2N.id, Es. simpl. by rewrite decide_True.
Qed.

Lemma released_rest a id s :
  live (released a id s) = (live a - 1)%nat /\ document (released a id s) = document a /\
  ranges (released a id s) = ranges a.
Proof. unfold released. by destruct (next_generation _). Qed.

Lemma remove_loop_spec fuel freed stack a :
  accounts a -> removing a stack -> (length stack + work a <= fuel)%nat ->
  exists a', remove_loop fuel freed stack a = (a', freed + (live a - live a'))%nat /\
    accounts a' /\ removing a' [] /\ (live a' <= live a)%nat /\ document a' = document a /\
    ranges a' = ranges a.
Proof.
  revert freed stack a. induction fuel as [|fuel IH]; intros freed [|cur stack] a Ha Hr Hfuel.
  1, 3: exists a; simpl; split_and!; [f_equal; lia|done..].
  { simpl in Hfuel. lia. }
  cbn [remove_loop]. simpl in Hfuel. pose proof (free_slot_cases a cur (ac_slots a Ha)) as Hfree.
  destruct (get a cur) as [n|] eqn:E.
  - destruct Hfree as (s & Es & Hg & Hn & Hfree).
    rewrite (removing_children a _ cur n Ha Hr E). cbn [mbind option_bind].
    rewrite Hfree. destruct (released_rest a cur s) as (Hl & Hd & Hrg).
    pose proof (work_released a cur s n (ac_slots a Ha) Es Hg Hn) as Hw.
    destruct (IH (S freed) (option_list (template_contents_of n) ++ reverse (ch cur) ++ stack)
      (released a cur s)) as (a' & -> & Ha' & Hr' & Hle & Hd' & Hrg').
    + by eapply accounts_released.
    + eapply removing_free; [done..|]. intros x. by eapply get_released; [apply Ha|..].
    + rewrite !length_app, length_reverse. destruct (template_contents_of n); simpl; lia.
    + assert (0 < live a)%nat.
      { rewrite (ac_live a Ha). eapply count_pos; [exact Es|]. unfold occupied. by rewrite Hn. }
      exists a'. split_and!; [f_equal; lia|done|done|lia|congruence|congruence].
  - assert (children a cur = None) as -> by (unfold children; by rewrite E).
    apply IH; [done|by eapply removing_skip|lia].
Qed.
End loop.

Lemma removing_start G a top :
  (forall x, get a x = G x) -> (forall n, G top = Some n -> parent n = None) ->
  (forall x n p, G x = Some n -> parent n = Some p -> is_Some (G p)) -> removing G top a [top].
Proof.
  intros HG Htop Hpar. split.
  - intros x. left. apply HG.
  - intros x n p E. rewrite HG. congruence.
  - intros x n p. rewrite !HG. intros E Hp Hn. destruct (Hpar x n p E Hp). congruence.
  - intros x n t E. rewrite HG. congruence.
  - intros y n p ->%list_elem_of_singleton. rewrite HG. intros E Hp. rewrite (Htop n E) in Hp. done.
  - intros y ->%list_elem_of_singleton. constructor.
  - right. by left.
Qed.

Lemma get_drop_dangling a x : get (drop_dangling a) x = get a x.
Proof.
  unfold drop_dangling. set (l := omap _ _). clearbody l. revert a.
  induction l as [|r l IH]; intros a; simpl; [done|]. rewrite IH. unfold drop_range.
  destruct (ranges a !! _); [|done]. destruct (_ || _); [done|]. by destruct (next_generation _).
Qed.

(** What a node owns does not depend on where it hangs. *)
Lemma owned_mono G G' id x :
  (forall y, data <$> G' y = data <$> G y) ->
  (forall y, y <> id -> parent <$> G' y = parent <$> G y) -> owned G id x -> owned G' id x.
Proof.
  intros Hd Hp. induction 1 as [|x n p E Hn _ IH|x n t E Ht _ IH]; [constructor| |].
  - destruct (decide (x = id)) as [->|Hx]; [constructor|]. specialize (Hp x Hx).
    rewrite E in Hp. destruct (G' x) as [m|] eqn:Em; [|done]. eapply owned_child; [done| |done].
    simpl in Hp. congruence.
  - specialize (Hd x). rewrite E in Hd. destruct (G' x) as [m|] eqn:Em; [|done].
    eapply owned_contents; [done| |done]. injection Hd as Hd. unfold template_contents_of in *. by rewrite Hd.
Qed.

Lemma templates_data G G' x n t :
  (forall y, data <$> G' y = data <$> G y) -> G' x = Some n -> template_contents_of n = Some t ->
  exists m, G x = Some m /\ template_contents_of m = Some t.
Proof.
  intros Hd E Ht. specialize (Hd x). rewrite E in Hd. destruct (G x) as [m|]; [|done].
  exists m. split; [done|]. injection Hd as Hd. unfold template_contents_of in *. by rewrite <- Hd.
Qed.

(** The outcome of a removal. *)
Record removed a ch id a' (freed : nat) : Prop := {
  rm_accounts : accounts a';
  rm_forest : forest (get a') (fun x => match get a' x with Some _ => drop_child id ch x | None => [] end);
  rm_gone : forall x, owned (get a) id x -> get a' x = None;
  rm_kept : forall x, ~ owned (get a) id x ->
    data <$> get a' x = data <$> get a x /\ parent <$> get a' x = parent <$> get a x;
  rm_freed : (freed + live a')%nat = live a;
  rm_document : document a' = document a
}.

Lemma remove_subtree_spec a ch id n :
  accounts a -> forest (get a) ch -> templates_apart (get a) ->
  get a id = Some n -> id <> document a ->
  exists a' freed, remove_subtree id a = (a', Ok freed) /\ removed a ch id a' freed.
Proof.
  intros Ha Hf Ht E Hne. unfold remove_subtree, contains.
  erewrite bind_ok by (apply reads_ok; by rewrite E, bool_decide_eq_true_2).
  erewrite bind_ok by (apply reads_ok; by rewrite decide_False).
  destruct (detach_spec a ch id n (ac_slots a Ha) Hf E) as (a1 & E1 & Hd1). erewrite bind_ok by done.
  pose proof Hd1 as [Sh1 Hf1 D1 P1]. pose proof (accounts_shape _ _ Ha Sh1) as Ha1.
  assert (forall y, y <> id -> parent <$> get a1 y = parent <$> get a y) as P1'.
  { intros y Hy. rewrite P1. destruct (get a y); [|done]. simpl. by rewrite decide_False. }
  assert (templates_apart (get a1)) as Ht1.
  { intros x nx t m Ex Hx Em. destruct (templates_data _ _ _ _ _ D1 Ex Hx) as (m' & Em' & Hm').
    specialize (P1 t). rewrite Em in P1. destruct (get a t) as [m0|] eqn:Em0; [|done].
    simpl in P1. case_decide; [congruence|]. rewrite (Ht x m' t m0 Em' Hm' Em0) in P1. congruence. }
  assert (removing (get a1) id a1 [id]) as Hr.
  { apply removing_start; [done|intros m Em; by eapply detached_root|].
    intros x m p Em Hp. by destruct (forest_parent_live _ _ _ _ _ Hf1 Em Hp) as [? ->]. }
  unfold free_subtree.
  assert (removal_fuel a1 = 2 + work (drop_child id ch) a1)%nat as ->
    by (eapply removal_fuel_enough; eauto).
  destruct (remove_loop_spec (get a1) (drop_child id ch) id Hf1 Ht1 (2 + work (drop_child id ch) a1) 0
    [id] a1 Ha1 Hr) as (a2 & -> & Ha2 & Hr2 & Hle & Hdoc & _); [simpl; lia|].
  pose proof (drop_dangling_shape a2 (ac_slots a2 Ha2)) as Sh3.
  assert (forall x, get (drop_dangling a2) x = get a2 x) as G3 by apply get_drop_dangling.
  exists (drop_dangling a2), (0 + (live a1 - live a2))%nat. split; [done|].
  pose proof (removing_forest _ _ _ Hf1 a2 Hr2) as Hf2.
  split.
  - by eapply accounts_shape.
  - apply (forest_get_ext (get a2)); [done|]. eapply forest_ext; [|exact Hf2].
    intros x. by rewrite G3.
  - intros x Hx. rewrite G3. eapply removing_done; [done|]. by eapply owned_mono.
  - intros x Hx. rewrite G3. destruct (re_same _ _ _ _ Hr2 x) as [->|[_ Ho]].
    + split; [done|]. apply P1'. intros ->. apply Hx. constructor.
    + destruct Hx. eapply owned_mono; [| |done]; intros y; [by rewrite D1|]. intros Hy. by rewrite P1'.
  - rewrite (ss_live _ _ Sh3), <- (ss_live _ _ Sh1). lia.
  - by rewrite (ss_document _ _ Sh3), Hdoc, (ss_document _ _ Sh1).
Qed.
End remove.
