(* ===== verification/DomInv.v ===== *)
(** * The invariant of the arena

    The books balance, the live nodes are a forest, the document is one of its
    roots, and the contents of a template hang from nothing.  Every operation
    keeps it, whether it succeeds or is refused. *)
From stdpp Require Import sets relations.
From S2P Require Import Prelude Bytes DomNode DomArena DomTree DomOps DomAlloc DomRemove.

Section inv.
Context {Q : Type} `{QualNames Q}.
Implicit Types (a : Arena Q) (id : NodeId) (ch : NodeId -> list NodeId) (n m : Node Q).

(** Roots besides the document that a client relies on. *)
Context (keep : NodeId -> Prop).

Definition anchor a (r : NodeId) : Prop := r = document a \/ keep r.

(** A fragment that hangs from nothing, or is gone for good. *)
Definition set_aside a (t : NodeId) : Prop :=
  ~ anchor a t /\ ((exists m, get a t = Some m /\ parent m = None) \/ dead a t).

Record arena_ok a : Prop := {
  ok_accounts : accounts a;
  ok_forest : exists ch, forest (get a) ch;
  ok_anchors : forall r, anchor a r -> exists n, get a r = Some n /\ parent n = None;
  ok_templates : forall x n t, get a x = Some n -> template_contents_of n = Some t -> set_aside a t
}.

(** Neither relied upon nor the contents of a template. *)
Definition loose a id : Prop :=
  ~ keep id /\ forall x n, get a x = Some n -> template_contents_of n <> Some id.

Lemma ok_document a : arena_ok a -> exists n, get a (document a) = Some n /\ parent n = None.
Proof. intros Ha. apply (ok_anchors a Ha). by left. Qed.

(** Nobody's template contents, decided by a look at every slot. *)
Definition nobodys_contents a id : bool :=
  forallb (fun s => negb (bool_decide ((n ← slot_node s; template_contents_of n) = Some id)))
    (Slots.iter (slots a)).

Lemma nobodys_loose a id :
  slots_ok (slots a) -> ~ keep id -> nobodys_contents a id = true -> loose a id.
Proof.
  intros Hs Hk Hf. split; [done|].
  intros x n E Ht. destruct (get_slot _ x n Hs E) as (t & Et & _ & Hn).
  unfold nobodys_contents in Hf. rewrite forallb_forall in Hf. specialize (Hf t). rewrite Hn in Hf.
  simpl in Hf. rewrite Ht, bool_decide_eq_true_2 in Hf by done.
  discriminate Hf. by apply list_elem_of_In, (list_elem_of_lookup_2 _ _ _ Et).
Qed.

Lemma ok_slots a : arena_ok a -> slots_ok (slots a).
Proof. intros Ha. apply (ac_slots a), Ha. Qed.

Lemma ok_templates_apart a : arena_ok a -> templates_apart (get a).
Proof.
  intros Ha x n t m E Ht Em. destruct (ok_templates a Ha x n t E Ht) as (_ & [(m' & Em' & ?)|Hd]); [congruence|].
  rewrite (dead_get a t (ok_slots a Ha) Hd) in Em. done.
Qed.

Lemma parented_loose a id n p : arena_ok a -> get a id = Some n -> parent n = Some p -> loose a id.
Proof.
  intros Ha E Hp. split.
  - intros Hk. destruct (ok_anchors a Ha id) as (m & Em & Hm); [by right|]. congruence.
  - intros x m Ex Ht. pose proof (ok_templates_apart a Ha x m id n Ex Ht E). congruence.
Qed.

Lemma loose_data a a' id : (forall x, data <$> get a' x = data <$> get a x) -> loose a id -> loose a' id.
Proof.
  intros Hd [Hk Hl]. split; [done|]. intros x n E Ht.
  destruct (templates_data _ _ _ _ _ Hd E Ht) as (m & Em & Hm). by apply (Hl x m).
Qed.

(** ** Moving a node *)
Lemma forest_keeps_root (G G' : NodeId -> option (Node Q)) ch ch' x m m' :
  forest G ch -> forest G' ch' -> G x = Some m -> G' x = Some m' ->
  (forall p, x ∈ ch' p -> x ∈ ch p) -> parent m = None -> parent m' = None.
Proof.
  intros Hf Hf' E E' Hsub Hm. destruct (parent m') as [p|] eqn:Hp; [|done].
  pose proof (Hsub p (fo_child _ _ Hf' x m' p E' Hp)) as (m2 & E2 & ?)%(forest_elem _ _ _ _ Hf). congruence.
Qed.

Lemma ok_move a a' ch ch' c :
  arena_ok a -> forest (get a) ch -> inserted a ch' a' ->
  (forall x p, x <> c -> x ∈ ch' p -> x ∈ ch p) -> c <> document a -> loose a c -> arena_ok a'.
Proof.
  intros Ha Hf [Sh Hf' Hd] Hsub Hc [Hk Hl].
  assert (forall x, x <> c -> forall m, get a x = Some m -> parent m = None ->
    exists m', get a' x = Some m' /\ parent m' = None) as Hkeep.
  { intros x Hx m E Hm. specialize (Hd x). rewrite E in Hd. destruct (get a' x) as [m'|] eqn:E'; [|done].
    exists m'. split; [done|]. eapply (forest_keeps_root (get a) (get a')); eauto. }
  split.
  - by eapply accounts_shape; [apply Ha|].
  - by exists ch'.
  - unfold anchor. rewrite (ss_document _ _ Sh). intros r Hr.
    destruct (ok_anchors a Ha r Hr) as (n & E & Hn). eapply Hkeep; [|done..].
    intros ->. by destruct Hr.
  - intros x n t E Ht. destruct (templates_data _ _ _ _ _ Hd E Ht) as (m & Em & Hm).
    destruct (ok_templates a Ha x m t Em Hm) as (Hdoc & Ht').
    split; [unfold anchor; by rewrite (ss_document _ _ Sh)|]. destruct Ht' as [(m' & Em' & Hm')|Hdead].
    + left. eapply Hkeep; [|done..]. intros ->. by apply (Hl x m).
    + right. eapply dead_prim; [apply Ha|by constructor|done].
Qed.

Lemma drop_child_elem id ch x p : x ∈ drop_child id ch p -> x ∈ ch p.
Proof. unfold drop_child. rewrite list_elem_of_filter. by intros [_ ?]. Qed.

Lemma put_before_elem s c l x : x ∈ put_before s c l -> x = c \/ x ∈ l.
Proof.
  induction l as [|y l IH]; simpl; [by intros ?%elem_of_nil|]. case_decide.
  - rewrite !elem_of_cons. tauto.
  - rewrite !elem_of_cons. tauto.
Qed.

Lemma ok_append_child a p c : arena_ok a -> loose a c -> arena_ok (append_child p c a).1.
Proof.
  intros Ha Hl. destruct (check_insertable a p c) as [[]|e] eqn:E.
  2: by rewrite (check_insertable_refuses _ _ _ _ E).
  destruct (ok_forest a Ha) as [ch Hf].
  destruct (append_child_spec a ch p c (ok_slots a Ha) Hf E) as (a' & -> & Hi).
  eapply ok_move; [done..| |by eapply in_document, check_insertable_spec|done].
  intros x q Hx. unfold append_in. case_decide as Hq; [subst q|by intros ?%drop_child_elem].
  intros [?%drop_child_elem|?%list_elem_of_singleton]%elem_of_app; done.
Qed.

Lemma append_child_data a p c x :
  arena_ok a -> data <$> get (append_child p c a).1 x = data <$> get a x.
Proof.
  intros Ha. destruct (check_insertable a p c) as [[]|e] eqn:E.
  2: by rewrite (check_insertable_refuses _ _ _ _ E).
  destruct (ok_forest a Ha) as [ch Hf].
  destruct (append_child_spec a ch p c (ok_slots a Ha) Hf E) as (a' & -> & Hi). apply Hi.
Qed.

(** A refused insertion changes nothing. *)
Lemma insert_before_refuses a s c :
  match get a s with
  | None => insert_before s c a = (a, Err NoSuchNode)
  | Some n => match parent n with
      | None => insert_before s c a = (a, Err NoSuchNode)
      | Some p => forall e, check_insertable a p c = Err e -> insert_before s c a = (a, Err e)
      end
  end.
Proof.
  unfold insert_before. destruct (get a s) as [n|] eqn:E.
  - destruct (parent n) as [p|] eqn:Hp.
    + intros e He. erewrite bind_ok by (apply reads_ok; unfold get_or_err; rewrite E; simpl; by rewrite Hp).
      apply bind_err. unfold reads. by rewrite He.
    + apply bind_err. unfold reads, get_or_err. rewrite E. simpl. by rewrite Hp.
  - apply bind_err. unfold reads, get_or_err. by rewrite E.
Qed.

Lemma ok_insert_before a s c : arena_ok a -> loose a c -> s <> c -> arena_ok (insert_before s c a).1.
Proof.
  intros Ha Hl Hne. pose proof (insert_before_refuses a s c) as Hr.
  destruct (get a s) as [n|] eqn:En; [|by rewrite Hr].
  destruct (parent n) as [p|] eqn:Hp; [|by rewrite Hr].
  destruct (check_insertable a p c) as [[]|e] eqn:E; [|by rewrite (Hr e)].
  destruct (ok_forest a Ha) as [ch Hf].
  destruct (insert_before_spec a ch p s c n (ok_slots a Ha) Hf Hne En Hp E) as (a' & -> & Hi).
  eapply ok_move; [done..| |by eapply in_document, check_insertable_spec|done].
  intros x q Hx. unfold insert_in. case_decide as Hq; [subst q|by intros ?%drop_child_elem].
  intros [?|?%drop_child_elem]%put_before_elem; done.
Qed.

Lemma detach_refuses a id : get a id = None -> detach id a = (a, Err NoSuchNode).
Proof. intros E. apply bind_err. unfold reads, get_or_err. by rewrite E. Qed.

Lemma ok_detach a id : arena_ok a -> arena_ok (detach id a).1.
Proof.
  intros Ha. destruct (get a id) as [n|] eqn:E; [|by rewrite detach_refuses].
  destruct (parent n) as [p|] eqn:Hp.
  - destruct (ok_forest a Ha) as [ch Hf].
    destruct (detach_spec a ch id n (ok_slots a Ha) Hf E) as (a' & -> & [Sh Hf' Hd _]).
    eapply (ok_move a a' ch (drop_child id ch) id); [done|done|by split| | |by eapply parented_loose].
    + by intros x q _ ?%drop_child_elem.
    + intros ->. destruct (ok_document a Ha) as (m & Em & Hm). congruence.
  - unfold detach. erewrite bind_ok by (by apply reads_ok, get_or_err_ok). by rewrite Hp.
Qed.

Lemma ok_append_all a p l : arena_ok a -> Forall (loose a) l -> arena_ok (append_all p l a).1.
Proof.
  intros Ha Hl. revert a Ha Hl. induction l as [|c l IH]; intros a Ha Hl; [done|].
  apply Forall_cons in Hl as [Hc Hl]. cbn [append_all]. unfold mbind, tree_bind.
  pose proof (ok_append_child a p c Ha Hc) as Ha1.
  pose proof (fun x => append_child_data a p c x Ha) as Hd.
  destruct (append_child p c a) as [a1 [[]|e]]; simpl in *; [|done].
  apply IH; [done|]. eapply Forall_impl; [done|]. intros x. by apply loose_data.
Qed.

Lemma ok_reparent_children a from to : arena_ok a -> arena_ok (reparent_children from to a).1.
Proof.
  intros Ha. destruct (ok_forest a Ha) as [ch Hf]. unfold reparent_children.
  destruct (get a from) as [n|] eqn:E.
  - erewrite bind_ok by (apply reads_ok; by erewrite (children_spec a ch from n (ok_slots a Ha) Hf E)).
    apply ok_append_all; [done|]. apply Forall_forall. intros c Hc%(forest_elem _ _ _ _ Hf).
    destruct Hc as (m & Em & Hm). by eapply parented_loose.
  - erewrite bind_err; [done|]. unfold reads, children. by rewrite E.
Qed.

(** ** Creation *)
(** What may be said of the contents handed to a new element. *)
Definition contents_ok a (d : NodeData Q) : Prop :=
  forall t, template_contents_of (Node_new d) = Some t -> set_aside a t.

Lemma get_create a d a' id x :
  arena_ok a -> create d a = (a', Ok id) ->
  get a id = None /\ get a' x = if decide (x = id) then Some (Node_new d) else get a x.
Proof.
  intros Ha E. pose proof (create_cases a d (ok_accounts a Ha)) as Hc. rewrite E in Hc. simpl in Hc.
  by apply (get_created a d a' id x (ok_accounts a Ha)).
Qed.

Lemma create_document a d a' id : create d a = (a', Ok id) -> document a' = document a.
Proof.
  unfold create. destruct (free a) as [|i rest].
  - destruct (try_from _ _); [|done]. case_decide; [done|]. by intros [= <- _].
  - destruct (Slots.get _ _); [|done]. by intros [= <- _].
Qed.

Lemma create_refused a d a' e : arena_ok a -> create d a = (a', Err e) -> a' = a.
Proof.
  intros Ha E. pose proof (create_cases a d (ok_accounts a Ha)) as Hc. rewrite E in Hc. simpl in Hc.
  by inversion Hc.
Qed.

Lemma aside_created a d a' id t :
  arena_ok a -> create d a = (a', Ok id) -> set_aside a t -> set_aside a' t /\ t <> id.
Proof.
  intros Ha E (Hdoc & Ht). pose proof (create_cases a d (ok_accounts a Ha)) as Hc. rewrite E in Hc.
  simpl in Hc. destruct (get_create a d a' id t Ha E) as [Hid Hg]. unfold set_aside, anchor.
  rewrite (create_document _ _ _ _ E). destruct Ht as [(m & Em & Hm)|Hdead].
  - assert (t <> id) as Hne by congruence. split; [|done]. split; [done|]. left. exists m.
    by rewrite Hg, decide_False.
  - destruct (dead_created _ _ _ _ _ (ok_accounts a Ha) Hc Hdead) as [Hd' Hne].
    split; [split; [done|by right]|congruence].
Qed.

Lemma ok_create a d a' id :
  arena_ok a -> contents_ok a d -> create d a = (a', Ok id) -> arena_ok a' /\ loose a' id.
Proof.
  intros Ha Hd E. pose proof (fun x => get_create a d a' id x Ha E) as Hg.
  assert (forall x n t, get a' x = Some n -> template_contents_of n = Some t -> set_aside a t) as Htpl.
  { intros x n t Ex Ht. destruct (Hg x) as [_ Hx]. rewrite Hx in Ex. case_decide.
    - injection Ex as <-. by apply Hd.
    - by eapply (ok_templates a Ha). }
  split.
  - split.
    + pose proof (create_cases a d (ok_accounts a Ha)) as Hc. rewrite E in Hc.
      by eapply accounts_created; [apply Ha|].
    + destruct (ok_forest a Ha) as [ch Hf]. exists ch. eapply forest_create; [done|apply (Hg id)|].
      intros x. apply Hg.
    + unfold anchor. rewrite (create_document _ _ _ _ E). intros r Hr.
      destruct (ok_anchors a Ha r Hr) as (n & En & Hn). exists n.
      split; [|done]. destruct (Hg r) as [Hid ->]. rewrite decide_False; [done|congruence].
    + intros x n t Ex Ht. by eapply aside_created, Htpl.
  - split.
    + intros Hk. destruct (ok_anchors a Ha id) as (m & Em & _); [by right|].
      destruct (Hg id) as [Hid _]. congruence.
    + intros x n Ex Ht. by eapply aside_created; [..|by eapply Htpl|].
Qed.

(** ** Writes that leave the links alone *)
Definition same_links a a' : Prop := forall x,
  links_of <$> get a' x = links_of <$> get a x /\ edges_of <$> get a' x = edges_of <$> get a x /\
  template_contents_of <$> get a' x = template_contents_of <$> get a x /\
  can_have_children <$> get a' x = can_have_children <$> get a x.

Lemma same_links_refl a : same_links a a.
Proof. done. Qed.

Lemma same_links_trans a b c : same_links a b -> same_links b c -> same_links a c.
Proof. intros Hab Hbc x. destruct (Hab x) as (? & ? & ? & ?), (Hbc x) as (? & ? & ? & ?). split_and!; congruence. Qed.

Lemma same_links_get a a' x m :
  same_links a a' -> get a' x = Some m -> exists n, get a x = Some n /\ links_of n = links_of m /\
    edges_of n = edges_of m /\ template_contents_of n = template_contents_of m /\
    can_have_children n = can_have_children m.
Proof.
  intros Hs E. destruct (Hs x) as (L1 & L2 & L3 & L4). rewrite E in L1, L2, L3, L4.
  destruct (get a x) as [n|]; [|done]. exists n. simpl in *. split_and!; congruence.
Qed.

Lemma links_parent n m : links_of n = links_of m -> parent n = parent m.
Proof. unfold links_of. congruence. Qed.

Lemma same_links_live a a' x n :
  same_links a a' -> get a x = Some n -> exists m, get a' x = Some m /\ links_of m = links_of n.
Proof.
  intros Hs E. destruct (Hs x) as (L & _). rewrite E in L. destruct (get a' x) as [m|]; [|done].
  exists m. simpl in L. split; congruence.
Qed.

Lemma forest_same_links a a' ch : same_links a a' -> forest (get a) ch -> forest (get a') ch.
Proof.
  intros Hs Hf. split.
  - intros x m E. destruct (same_links_get _ _ _ _ Hs E) as (n & En & _ & <- & _). by apply (fo_edges _ _ Hf).
  - intros x. eapply chain_ext; [|apply (fo_chain _ _ Hf)]. intros c _. apply (Hs c).
  - apply (fo_nodup _ _ Hf).
  - intros x m p E Hp. destruct (same_links_get _ _ _ _ Hs E) as (n & En & Hl%links_parent & _).
    eapply (fo_child _ _ Hf); [done|congruence].
  - intros x m E Hp. destruct (same_links_get _ _ _ _ Hs E) as (n & En & Hl & _).
    rewrite <- Hl. apply (fo_root _ _ Hf x); [done|]. apply links_parent in Hl. congruence.
  - intros x E. apply (fo_dead _ _ Hf). destruct (get a x) as [n|] eqn:En; [|done].
    destruct (same_links_live _ _ _ _ Hs En) as (? & ? & _). congruence.
  - intros x m E. destruct (same_links_get _ _ _ _ Hs E) as (n & En & _).
    destruct (fo_depth _ _ Hf x n En) as (d & Hle & Hd). exists d. split; [done|].
    clear Hle En E n m. induction Hd as [x n E Hp|x n p d E Hp _ IH];
      destruct (same_links_live _ _ _ _ Hs E) as (m & Em & Hl%links_parent); econstructor; eauto; congruence.
  - intros x m E Hm. destruct (same_links_get _ _ _ _ Hs E) as (n & En & _ & _ & _ & Hc).
    eapply (fo_leaf _ _ Hf); [done|congruence].
Qed.

Lemma ok_write a a' : arena_ok a -> same_shape a a' -> same_links a a' -> arena_ok a'.
Proof.
  intros Ha Sh Hs. split.
  - by eapply accounts_shape; [apply Ha|].
  - destruct (ok_forest a Ha) as [ch Hf]. exists ch. by eapply forest_same_links.
  - unfold anchor. rewrite (ss_document _ _ Sh). intros r Hr. destruct (ok_anchors a Ha r Hr) as (n & E & Hn).
    destruct (same_links_live _ _ _ _ Hs E) as (m & Em & Hl%links_parent). exists m. split; congruence.
  - intros x m t E Ht. destruct (same_links_get _ _ _ _ Hs E) as (n & En & _ & _ & Htn & _).
    destruct (ok_templates a Ha x n t En) as (Hdoc & Ht'); [congruence|].
    split; [unfold anchor; by rewrite (ss_document _ _ Sh)|]. destruct Ht' as [(m' & Em' & Hm')|Hd].
    + left. destruct (same_links_live _ _ _ _ Hs Em') as (m2 & E2 & Hl%links_parent). exists m2.
      split; congruence.
    + right. eapply dead_prim; [apply Ha|by constructor|done].
Qed.

(** Arenas that differ only in ranges, snapshots or the like. *)
Lemma ok_aside a a' :
  arena_ok a -> same_shape a a' -> (forall x, get a' x = get a x) -> arena_ok a'.
Proof. intros Ha Sh Hg. eapply ok_write; [done..|]. intros x. by rewrite Hg. Qed.

(** ** Data and attributes *)
(** Data of the same kind and with the same template contents. *)
Definition same_kind (d e : NodeData Q) : Prop :=
  template_contents_of (Node_new d) = template_contents_of (Node_new e) /\
  can_have_children (Node_new d) = can_have_children (Node_new e).

Lemma kind_template n d : template_contents_of (set_data d n) = template_contents_of (Node_new d).
Proof. done. Qed.

Lemma ok_set_data a id n d :
  arena_ok a -> get a id = Some n -> same_kind d (data n) ->
  arena_ok (modify id (set_data d) a).1.
Proof.
  intros Ha E [Ht Hc]. destruct (modify_spec a id (set_data d) n (ok_slots a Ha) E) as (a' & -> & Sh & Hg).
  eapply ok_write; [done..|]. intros x. simpl. rewrite Hg. case_decide; [|done]. subst. rewrite E.
  simpl. split_and!; f_equal; done.
Qed.

Lemma ok_snapshot_change a id (name : Q) : arena_ok a -> arena_ok (snapshot_attribute_change id name a).
Proof.
  intros Ha. eapply ok_aside; [done|apply snapshot_change_shape, ok_slots, Ha|].
  intros x. unfold snapshot_attribute_change. destruct (negb _); [done|].
  destruct (snapshot a id); [done|]. by destruct (n ← get a id; node_attrs n).
Qed.

(** Rewriting the attributes of an element. *)
Lemma ok_write_attrs {A} a id (f : list (Attribute Q) -> list (Attribute Q))
    (g : list (Attribute Q) -> tree Q A) :
  arena_ok a -> (forall l, exists v, g l = mret v) ->
  arena_ok ((parts ← reads (element_parts id);
    let '(en, attrs, t, b) := parts in
    _ ← modify id (set_data (Element en (f attrs) t b)); g attrs) a).1.
Proof.
  intros Ha Hg. unfold mbind at 1, tree_bind at 1, reads, element_parts, get_or_err.
  destruct (get a id) as [n|] eqn:E; simpl; [|done].
  destruct (data n) as [| | | | |en attrs t b|] eqn:Hd; try done.
  pose proof (ok_set_data a id n (Element en (f attrs) t b) Ha E) as Hm.
  rewrite Hd in Hm. specialize (Hm (conj eq_refl eq_refl)). unfold mbind, tree_bind.
  destruct (modify _ _ a) as [a' [[]|e]]; [|done]. by destruct (Hg attrs) as [v ->].
Qed.

Lemma ok_set_attribute a id (name : Q) v : arena_ok a -> arena_ok (set_attribute id name v a).1.
Proof.
  intros Ha. pose proof (ok_snapshot_change a id name Ha) as Ha1.
  pose proof (ok_write_attrs _ id (write_attr name v) (fun _ => mret tt) Ha1) as Hw.
  unfold set_attribute, updates. unfold mbind at 1, tree_bind at 1. cbv beta iota.
  revert Hw. set (b := snapshot_attribute_change id name a). intros Hw.
  specialize (Hw (fun l => ex_intro _ _ eq_refl)). revert Hw.
  unfold mbind, tree_bind. destruct (reads (element_parts id) b) as [b' [[[[en attrs] t] s]|e]]; [|done].
  by destruct (modify _ _ b') as [b'' [[]|e]].
Qed.

Lemma ok_remove_attribute a id (name : Q) : arena_ok a -> arena_ok (remove_attribute id name a).1.
Proof.
  intros Ha. pose proof (ok_snapshot_change a id name Ha) as Ha1.
  unfold remove_attribute, updates. unfold mbind at 1, tree_bind at 1. cbv beta iota zeta.
  exact (ok_write_attrs _ id (List.filter (fun x => negb (bool_decide (attr_name x = name))))
    (fun l => mret (negb (Nat.eqb (length (List.filter (fun x => negb (bool_decide (attr_name x = name))) l))
      (length l)))) Ha1 (fun l => ex_intro _ _ eq_refl)).
Qed.

Lemma ok_add_attributes a id (incoming : list (Attribute Q)) :
  arena_ok a -> arena_ok (add_attributes_if_missing id incoming a).1.
Proof.
  intros Ha. unfold add_attributes_if_missing. unfold mbind at 1, tree_bind at 1, reads.
  set (present := match _ with Some _ => _ | None => _ end). clearbody present.
  revert a Ha. induction incoming as [|x l IH]; intros a Ha; [done|]. cbn [add_missing].
  destruct (bool_decide _); [by apply IH|]. unfold mbind, tree_bind.
  pose proof (ok_set_attribute a id (attr_name x) (attr_value x) Ha) as Hs.
  destruct (set_attribute _ _ _ a) as [b [[]|e]]; [by apply IH|done].
Qed.

(** ** Cloning *)
Lemma ok_source_contents a x n : arena_ok a -> get a x = Some n -> contents_ok a (data n).
Proof. intros Ha E t Ht. by eapply (ok_templates a Ha x n). Qed.

Lemma ok_clone_loop budget a stack : arena_ok a -> arena_ok (clone_loop budget stack a).1.
Proof.
  revert a stack. induction budget as [|budget IH]; intros a [|[src p] stack] Ha; try done.
  cbn [clone_loop]. unfold mbind at 1, tree_bind at 1, reads, get_or_err.
  destruct (get a src) as [n|] eqn:E; simpl; [|done].
  unfold mbind at 1, tree_bind at 1. destruct (create (data n) a) as [a1 [c|e]] eqn:Ec.
  - destruct (ok_create a (data n) a1 c Ha (ok_source_contents a src n Ha E) Ec) as [Ha1 Hl].
    pose proof (ok_append_child a1 p c Ha1 Hl) as Ha2. unfold mbind, tree_bind.
    destruct (append_child p c a1) as [a2 [[]|e]]; [|done].
    destruct (ok_or _ _); [by apply IH|done].
  - by rewrite (create_refused _ _ _ _ Ha Ec).
Qed.

Lemma ok_clone_subtree a id : arena_ok a -> arena_ok (clone_subtree id a).1.
Proof.
  intros Ha. unfold clone_subtree. unfold mbind at 1, tree_bind at 1, reads at 1, get_or_err.
  destruct (get a id) as [n|] eqn:E; simpl; [|done].
  unfold mbind at 1, tree_bind at 1. destruct (create (data n) a) as [a1 [c|e]] eqn:Ec.
  - destruct (ok_create a (data n) a1 c Ha (ok_source_contents a id n Ha E) Ec) as [Ha1 _].
    unfold mbind, tree_bind, reads. destruct (ok_or _ _) as [l|]; [|done].
    pose proof (ok_clone_loop (S (slot_count a1)) a1 (map (fun x => (x, c)) l) Ha1) as Hc.
    by destruct (clone_loop _ _ a1) as [a2 [[]|e]].
  - by rewrite (create_refused _ _ _ _ Ha Ec).
Qed.

(** ** Removal *)
Lemma owned_not_anchor a id x : arena_ok a -> ~ anchor a id -> owned (get a) id x -> ~ anchor a x.
Proof.
  intros Ha Hid. induction 1 as [|x n p E Hp _ _|x n t E Ht _ _]; [done| |].
  - intros Hr. destruct (ok_anchors a Ha x Hr) as (m & Em & Hm). congruence.
  - by destruct (ok_templates a Ha x n t E Ht).
Qed.

Lemma ok_removed a ch id a' freed :
  arena_ok a -> evolves a a' -> ~ anchor a id -> removed a ch id a' freed -> arena_ok a'.
Proof.
  intros Ha He Hid [R1 R2 R3 R4 R5 R6].
  assert (forall x n, get a' x = Some n -> ~ owned (get a) id x) as Hlive.
  { intros x n E Ho%R3. congruence. }
  split; [done|by eexists| |].
  - unfold anchor. rewrite R6. intros r Hr. destruct (ok_anchors a Ha r Hr) as (n & E & Hn).
    destruct (R4 r) as [Hd Hp].
    { intros Ho. by apply (owned_not_anchor a id r). }
    rewrite E in Hp. destruct (get a' r) as [m|]; [|done]. exists m. split; [done|].
    simpl in Hp. congruence.
  - intros x n t E Ht. destruct (R4 x (Hlive x n E)) as [Hd _]. rewrite E in Hd.
    destruct (get a x) as [m|] eqn:Em; [|done].
    assert (template_contents_of m = Some t) as Hm.
    { injection Hd as Hd. unfold template_contents_of in *. by rewrite <- Hd. }
    destruct (ok_templates a Ha x m t Em Hm) as (Hdoc & Hset). split; [unfold anchor; by rewrite R6|].
    destruct Hset as [(mt & Et & Hmt)|Hdead]; [|right; by eapply dead_evolves; [apply Ha|..]].
    destruct (live_evolves a a' t (ok_accounts a Ha) He) as [[mt' Et']|?]; [by eexists| |by right].
    left. exists mt'. split; [done|]. destruct (R4 t (Hlive t mt' Et')) as [_ Hp].
    rewrite Et, Et' in Hp. simpl in Hp. congruence.
Qed.

Lemma ok_remove_subtree a id : arena_ok a -> ~ keep id -> arena_ok (remove_subtree id a).1.
Proof.
  intros Ha Hk. destruct (get a id) as [n|] eqn:E.
  - destruct (decide (id = document a)) as [Hd|Hd].
    + unfold remove_subtree, contains. erewrite bind_ok; [|by apply reads_ok; rewrite E].
      erewrite bind_err; [done|]. unfold reads. by rewrite decide_True.
    + destruct (ok_forest a Ha) as [ch Hf].
      pose proof (evolving_remove_subtree id a (ok_accounts a Ha)) as He.
      destruct (remove_subtree_spec a ch id n (ok_accounts a Ha) Hf (ok_templates_apart a Ha) E Hd)
        as (a' & freed & Eq & Hr). rewrite Eq in *. eapply ok_removed; [done..| |done].
      by intros [?|?].
  - unfold remove_subtree. erewrite bind_err; [done|]. unfold reads, contains. by rewrite E.
Qed.

(** ** Ranges *)
Lemma ok_new_range a s e : arena_ok a -> arena_ok (new_range s e a).1.
Proof.
  intros Ha. pose proof (ok_slots a Ha) as Hs. unfold new_range. destruct (_ || _); [done|].
  destruct (compare_boundary_points a s e) as [[]|]; try done.
  all: destruct (free_ranges a) as [|i rest];
    [destruct (try_from _ _)|destruct (ranges a !! N.to_nat i)]; try done;
    (eapply ok_aside; [exact Ha|by split|done]).
Qed.

Lemma ok_drop_range a r : arena_ok a -> arena_ok (drop_range r a).1.
Proof.
  intros Ha. eapply ok_aside; [done|apply drop_range_shape, ok_slots, Ha|].
  intros x. unfold drop_range. destruct (ranges a !! _); [|done].
  destruct (_ || _); [done|]. by destruct (next_generation _).
Qed.

End inv.

Section start.
Context {Q : Type} `{QualNames Q}.

(** ** The first arena *)
Lemma ok_Arena_new : arena_ok (fun _ => False) (Arena_new (Q := Q)).
Proof.
  assert (Slots.iter (slots (Arena_new (Q := Q))) =
    [{| slot_generation := GEN_MIN; slot_node := Some (Node_new Document) |}]) as Hit by reflexivity.
  assert (slots_ok (slots (Arena_new (Q := Q)))) as Hs.
  { destruct (slots_push (empty_slot : Slot Q) Slots.new
      {| slot_generation := GEN_MIN; slot_node := Some (Node_new Document) |}) as [Hok _]; [apply slots_new|].
    exact Hok. }
  assert (forall x, get (Arena_new (Q := Q)) x =
    if decide (x = NodeId_new 0 GEN_MIN) then Some (Node_new Document) else None) as Hg.
  { intros x. rewrite get_flat, Hit by done. destruct x as [i g]. simpl.
    destruct (N.to_nat i) as [|k] eqn:Hi; simpl.
    - assert (i = 0)%N as -> by lia. destruct (decide (GEN_MIN = g)) as [<-|Hne].
      + by rewrite decide_True.
      + rewrite decide_False; [done|]. by intros [= ->].
    - rewrite decide_False; [done|]. intros [= -> _]. done. }
  split.
  - split; [done|constructor|by intros i ?%elem_of_nil|done|by rewrite Hit| |rewrite Hit; done].
    intros i s. rewrite Hit. intros Hs'. apply list_lookup_singleton_Some in Hs' as [_ <-]. done.
  - exists (fun _ => []). split; try done.
    + intros x n. rewrite Hg. case_decide; [|done]. by intros [= <-].
    + intros x. constructor.
    + intros x n p. rewrite Hg. case_decide; [|done]. by intros [= <-].
    + intros x n. rewrite Hg. case_decide; [|done]. by intros [= <-].
    + intros x n Ex. exists 0. split; [unfold MAX_DEPTH; lia|]. econstructor; [exact Ex|].
      rewrite Hg in Ex. case_decide; [|done]. by injection Ex as <-.
  - intros r [->|[]]. exists (Node_new Document). rewrite Hg. done.
  - intros x n t. rewrite Hg. case_decide; [|done]. by intros [= <-].
Qed.

(** A live root that is nobody's contents may be relied upon. *)
Lemma ok_anchor (keep : NodeId -> Prop) (a : Arena Q) r n :
  arena_ok keep a -> loose keep a r -> get a r = Some n -> parent n = None ->
  arena_ok (fun x => keep x \/ x = r) a.
Proof.
  intros Ha [Hk Hl] E Hn. split; [apply Ha|apply Ha| |].
  - intros x [->|[Hx| ->]]; [by apply (ok_document keep a Ha)|apply (ok_anchors keep a Ha x); by right|eauto].
  - intros x m t Em Ht. destruct (ok_templates keep a Ha x m t Em Ht) as [Hn' ?]. split; [|done].
    intros [?|[?| ->]]; [apply Hn'; by left|apply Hn'; by right|by apply (Hl x m)].
Qed.
End start.
