(* ===== verification/DomSink.v ===== *)
(** * The parser's tree sink (px-dom/src/sink.rs)

    html5ever drives the construction of the tree through the callbacks of
    [TreeSink]; the parser itself is a parameter.  [step] is one callback, [feed]
    the loop that hands the input over in chunks. *)
From stdpp Require Import sets relations.
From S2P Require Import Prelude Bytes DomNode DomArena DomTree DomOps DomAlloc DomRemove DomInv.

Definition MAX_RECORDED_ERRORS : nat := 256.
Definition MAX_REFUSALS_BEFORE_ABANDONING : nat := 8.
Definition FEED_CHUNK_BYTES : nat := 8 * 1024.

Inductive NodeOrText :=
| AppendNode (id : NodeId)
| AppendText (text : list byte).

(** [M] is html5ever's [QuirksMode]. *)
Record Dom (Q M : Type) := mkDom {
  dom_arena : Arena Q;
  dom_quirks_mode : M;
  dom_errors : list (list byte);
  dom_error_count : nat;
  dom_abandoned : bool;
  dom_truncated : nat
}.
Arguments mkDom {Q M} _ _ _ _ _ _.
Arguments dom_arena {Q M} _.
Arguments dom_quirks_mode {Q M} _.
Arguments dom_errors {Q M} _.
Arguments dom_error_count {Q M} _.
Arguments dom_abandoned {Q M} _.
Arguments dom_truncated {Q M} _.

Record Sink (Q M : Type) := mkSink {
  sk_arena : Arena Q;
  sk_quirks_mode : M;
  sk_errors : list (list byte);
  sk_error_count : nat;
  sk_truncated : nat;
  sk_document : NodeId;
  sk_void : NodeId
}.
Arguments mkSink {Q M} _ _ _ _ _ _ _.
Arguments sk_arena {Q M} _.
Arguments sk_quirks_mode {Q M} _.
Arguments sk_errors {Q M} _.
Arguments sk_error_count {Q M} _.
Arguments sk_truncated {Q M} _.
Arguments sk_document {Q M} _.
Arguments sk_void {Q M} _.

Section sink.
Context {Q M : Type} `{QualNames Q} (NoQuirks : M) (NOT_AN_ELEMENT : Q).
Implicit Types (s : Sink Q M) (a : Arena Q) (id : NodeId).

Definition with_arena a s : Sink Q M :=
  mkSink a (sk_quirks_mode s) (sk_errors s) (sk_error_count s) (sk_truncated s) (sk_document s)
    (sk_void s).

Definition count_truncated s : Sink Q M :=
  mkSink (sk_arena s) (sk_quirks_mode s) (sk_errors s) (sk_error_count s) (S (sk_truncated s))
    (sk_document s) (sk_void s).

Definition Sink_new : Sink Q M :=
  let a := Arena_new in
  match create Fragment a with
  | (a', Ok void) => mkSink a' NoQuirks [] 0 0 (document a) void
  | (a', Err _) => mkSink a' NoQuirks [] 0 0 (document a) (document a)
  end.

Definition create_or_void (d : NodeData Q) s : Sink Q M * NodeId :=
  match create d (sk_arena s) with
  | (a, Ok id) => (with_arena a s, id)
  | (a, Err _) => (count_truncated (with_arena a s), sk_void s)
  end.

Definition note_refusal (e : TreeError) s : Sink Q M :=
  match e with
  | NoSuchNode | WouldCycle | Immovable | CannotHaveChildren => s
  | TooDeep | Exhausted => count_truncated s
  end.

(** Run an operation on the arena and note its refusal. *)
Definition attempt (m : tree Q unit) s : Sink Q M :=
  match m (sk_arena s) with
  | (a, Ok _) => with_arena a s
  | (a, Err e) => note_refusal e (with_arena a s)
  end.

(** The text node a handle names, if it names one. *)
Definition text_at a (o : option NodeId) : option (NodeId * list byte) :=
  id ← o; n ← get a id;
  match data n with Text contents => Some (id, contents) | _ => None end.

Definition append_text (p : NodeId) (text : list byte) : tree Q unit := fun a =>
  match text_at a (n ← get a p; last_child n) with
  | Some (id, contents) => modify id (set_data (Text (contents ++ text))) a
  | None => (id ← create (Text text); append_child p id) a
  end.

Definition finish s : Dom Q M :=
  mkDom (sk_arena s) (sk_quirks_mode s) (sk_errors s) (sk_error_count s) false (sk_truncated s).

Definition parse_error (msg : list byte) s : Sink Q M :=
  mkSink (sk_arena s) (sk_quirks_mode s)
    (if (length (sk_errors s) <? MAX_RECORDED_ERRORS)%nat then sk_errors s ++ [msg] else sk_errors s)
    (S (sk_error_count s)) (sk_truncated s) (sk_document s) (sk_void s).

Definition get_document s : NodeId := sk_document s.

Definition elem_name s (target : NodeId) : Q :=
  default NOT_AN_ELEMENT (n ← get (sk_arena s) target; element_name n).

Definition create_element (name : Q) (attrs : list (Attribute Q)) (template : bool) s
  : Sink Q M * NodeId :=
  let '(s, contents) :=
    if template then let '(s, c) := create_or_void Fragment s in (s, Some c) else (s, None) in
  create_or_void (Element name attrs contents false) s.

Definition create_comment (text : list byte) s : Sink Q M * NodeId :=
  create_or_void (Comment text) s.

Definition create_pi (target d : list byte) s : Sink Q M * NodeId :=
  create_or_void (ProcessingInstruction target d) s.

Definition append (p : NodeId) (child : NodeOrText) s : Sink Q M :=
  attempt match child with
          | AppendNode id => append_child p id
          | AppendText text => append_text p text
          end s.

Definition text_before (sibling : NodeId) (text : list byte) : tree Q unit := fun a =>
  match text_at a (n ← get a sibling; prev_sibling n) with
  | Some (id, contents) => modify id (set_data (Text (contents ++ text))) a
  | None => (id ← create (Text text); insert_before sibling id) a
  end.

Definition append_before_sibling (sibling : NodeId) (child : NodeOrText) s : Sink Q M :=
  attempt match child with
          | AppendNode id => insert_before sibling id
          | AppendText text => text_before sibling text
          end s.

Definition append_based_on_parent_node (element prev_element : NodeId) (child : NodeOrText) s
  : Sink Q M :=
  match n ← get (sk_arena s) element; parent n with
  | Some _ => append_before_sibling element child s
  | None => append prev_element child s
  end.

Definition append_doctype_to_document (name public_id system_id : list byte) s : Sink Q M :=
  let '(s, doctype) := create_or_void (Doctype name public_id system_id) s in
  attempt (append_child (sk_document s) doctype) s.

Definition mark_script_already_started (node : NodeId) s : Sink Q M :=
  match n ← get (sk_arena s) node; Some (data n) with
  | Some (Element name attrs t _) =>
      with_arena (modify node (set_data (Element name attrs t true)) (sk_arena s)).1 s
  | _ => s
  end.

Definition get_template_contents s (target : NodeId) : NodeId :=
  default (sk_void s) (n ← get (sk_arena s) target; template_contents_of n).

Definition same_node (x y : NodeId) : bool := bool_decide (x = y).

Definition set_quirks_mode (mode : M) s : Sink Q M :=
  mkSink (sk_arena s) mode (sk_errors s) (sk_error_count s) (sk_truncated s) (sk_document s)
    (sk_void s).

Definition add_attrs_if_missing (target : NodeId) (attrs : list (Attribute Q)) s : Sink Q M :=
  attempt (add_attributes_if_missing target attrs) s.

Definition remove_from_parent (target : NodeId) s : Sink Q M := attempt (detach target) s.

Definition sink_reparent_children (node new_parent : NodeId) s : Sink Q M :=
  attempt (reparent_children node new_parent) s.

(** *** [maybe_clone_an_option_into_selectedcontent] *)
Definition local_is (l : list byte) a id : bool :=
  match n ← get a id; element_name n with Some q => bool_decide (qual_local q = l) | None => false end.

Fixpoint nearest_select (budget : nat) a (cursor : option NodeId) : option NodeId :=
  match cursor, budget with
  | Some current, S budget =>
      n ← get a current;
      if local_is (lit "select") a current then Some current else nearest_select budget a (parent n)
  | _, _ => None
  end.

Fixpoint remove_all (l : list NodeId) a : Arena Q :=
  match l with [] => a | c :: l => remove_all l (remove_subtree c a).1 end.

Fixpoint clone_children (target : NodeId) (l : list NodeId) a : Arena Q :=
  match l with
  | [] => a
  | child :: l =>
      match clone_subtree child a with
      | (a, Ok copy) =>
          match append_child target copy a with
          | (a, Ok _) => clone_children target l a
          | (a, Err _) => (remove_subtree copy a).1
          end
      | (a, Err _) => a
      end
  end.

Definition clone_option (option : NodeId) a : Arena Q :=
  match nearest_select MAX_DEPTH a (n ← get a option; parent n) with
  | None => a
  | Some select =>
      match List.find (local_is (lit "selectedcontent") a) (descendants a select) with
      | None => a
      | Some target =>
          match children a target with
          | None => a
          | Some existing =>
              let a := remove_all existing a in
              match children a option with
              | None => a
              | Some l => clone_children target l a
              end
          end
      end
  end.

Definition maybe_clone_an_option_into_selectedcontent (option : NodeId) s : Sink Q M :=
  with_arena (clone_option option (sk_arena s)) s.

Definition sink_is_mathml_annotation_xml_integration_point s (handle : NodeId) : bool :=
  match get (sk_arena s) handle with
  | Some n => is_mathml_annotation_xml_integration_point n
  | None => false
  end.

(** ** The calls that change the tree *)
Inductive call :=
| ParseError (msg : list byte)
| CreateElement (name : Q) (attrs : list (Attribute Q)) (template : bool)
| CreateComment (text : list byte)
| CreatePi (target d : list byte)
| Append (p : NodeId) (child : NodeOrText)
| AppendBasedOnParentNode (element prev_element : NodeId) (child : NodeOrText)
| AppendDoctype (name public_id system_id : list byte)
| MarkScript (node : NodeId)
| SetQuirksMode (mode : M)
| AppendBeforeSibling (sibling : NodeId) (child : NodeOrText)
| AddAttrs (target : NodeId) (attrs : list (Attribute Q))
| RemoveFromParent (target : NodeId)
| ReparentChildren (node new_parent : NodeId)
| MaybeCloneOption (option : NodeId).

Definition step (c : call) s : Sink Q M :=
  match c with
  | ParseError msg => parse_error msg s
  | CreateElement name attrs template => (create_element name attrs template s).1
  | CreateComment text => (create_comment text s).1
  | CreatePi target d => (create_pi target d s).1
  | Append p child => append p child s
  | AppendBasedOnParentNode e p child => append_based_on_parent_node e p child s
  | AppendDoctype n p y => append_doctype_to_document n p y s
  | MarkScript node => mark_script_already_started node s
  | SetQuirksMode mode => set_quirks_mode mode s
  | AppendBeforeSibling sibling child => append_before_sibling sibling child s
  | AddAttrs target attrs => add_attrs_if_missing target attrs s
  | RemoveFromParent target => remove_from_parent target s
  | ReparentChildren node p => sink_reparent_children node p s
  | MaybeCloneOption option => maybe_clone_an_option_into_selectedcontent option s
  end.

Definition run (cs : list call) s : Sink Q M := foldl (fun s c => step c s) s cs.

(** ** Feeding the parser *)
(** The parser holds the sink; [fed] reads the refusal count the two share. *)
Context {P : Type} (process : P -> list byte -> P) (fed : P -> nat) (parser_finish : P -> Dom Q M).

Definition is_continuation (b : byte) : bool := Z.leb 0x80 (b2z b) && Z.ltb (b2z b) 0xC0.

Definition is_char_boundary (l : list byte) (i : nat) : bool :=
  Nat.eqb i 0 || Nat.eqb i (length l) ||
  match l !! i with Some b => negb (is_continuation b) | None => false end.

Fixpoint walk_back (l : list byte) (i : nat) : nat :=
  match i with
  | O => O
  | S j => if is_char_boundary l i then i else walk_back l j
  end.

Definition split_point (rest : list byte) : nat := walk_back rest (Nat.min FEED_CHUNK_BYTES (length rest)).

(** Every turn but the last consumes at least one byte. *)
Fixpoint feed_loop (fuel : nat) (parser : P) (rest : list byte) : P * bool :=
  match rest with
  | [] => (parser, false)
  | _ :: _ =>
      if (MAX_REFUSALS_BEFORE_ABANDONING <=? fed parser)%nat then (parser, true)
      else
        match fuel with
        | O => (parser, false)
        | S fuel =>
            let e := split_point rest in
            let '(chunk, remainder) :=
              match e with O => (rest, []) | _ => (take e rest, drop e rest) end in
            feed_loop fuel (process parser chunk) remainder
        end
  end.

Definition feed (parser : P) (html : list byte) : Dom Q M :=
  let '(parser, abandoned) := feed_loop (length html) parser html in
  let dom := parser_finish parser in
  mkDom (dom_arena dom) (dom_quirks_mode dom) (dom_errors dom) (dom_error_count dom) abandoned
    (dom_truncated dom).

(** [parse_with] and [parse_fragment]: [parse_document] of html5ever wraps a
    fresh sink into a parser. *)
Definition parse_with {O : Type} (parse_document : Sink Q M -> O -> P) (options : O)
    (html : list byte) : Dom Q M :=
  feed (parse_document Sink_new options) html.
End sink.
