(* ===== verification/DomParse.v ===== *)
(** * What the parser can do to the tree

    Whatever calls html5ever makes, the sink keeps the invariant of the arena, and
    content that was refused never joins the document; the feeding loop hands over
    the whole input in bounded pieces unless the tree keeps refusing it. *)
From stdpp Require Import sets relations.
From S2P Require Import Prelude Bytes DomNode DomArena DomTree DomOps DomAlloc DomRemove DomInv DomSink.

Section parse.
Context {Q M : Type} `{QualNames Q} (NoQuirks : M).
Implicit Types (s : Sink Q M) (a : Arena Q) (id : NodeId) (c : call (Q := Q) (M := M)).

(** ** The document never changes *)
Lemma prim_document a a' : prim a a' -> document a' = document a.
Proof.
  intros [b b' Sh|b d|b id]; [apply Sh| |].
  - unfold create. destruct (free b) as [|i rest].
    + destruct (try_from _ _); [|done]. by case_decide.
    + by destruct (Slots.get _ _).
  - unfold free_slot. destruct (Slots.get _ _) as [s|]; [|done]. destruct (_ || _); [done|].
    by destruct (next_generation _).
Qed.

Lemma evolves_document a a' : evolves a a' -> document a' = document a.
Proof. induction 1 as [|x y z Hp _ IH]; [done|]. rewrite IH. by apply prim_document. Qed.

(** ** The invariant of the sink *)
Definition sink_ok s : Prop :=
  arena_ok (fun x => x = sk_void s) (sk_arena s) /\ document (sk_arena s) = sk_document s.

Definition free_standing s id : bool :=
  negb (bool_decide (id = sk_void s)) && nobodys_contents (sk_arena s) id.

Definition placeable s (child : NodeOrText) : bool :=
  match child with AppendNode id => free_standing s id | AppendText _ => true end.

Definition is_node id (child : NodeOrText) : bool :=
  match child with AppendNode x => bool_decide (x = id) | AppendText _ => false end.

(** What html5ever is trusted with: it does not place the contents of a template
    nor the stand-in for refused nodes, and inserts no node before itself.  A
    doctype needs a slot. *)
Definition polite s c : bool :=
  match c with
  | Append _ child => placeable s child
  | AppendBeforeSibling sibling child => placeable s child && negb (is_node sibling child)
  | AppendBasedOnParentNode element _ child => placeable s child && negb (is_node element child)
  | AppendDoctype n p y => is_ok (create (Doctype n p y) (sk_arena s)).2
  | _ => true
  end.

Fixpoint polite_run s (cs : list (call (Q := Q) (M := M))) : bool :=
  match cs with [] => true | c :: cs => polite s c && polite_run (step c s) cs end.

Lemma free_standing_loose s id :
  sink_ok s -> free_standing s id = true -> loose (fun x => x = sk_void s) (sk_arena s) id.
Proof.
  intros [Ha _] [Hv Hf]%andb_true_iff. apply nobodys_loose; [by eapply ok_slots| |done].
  intros ->. by rewrite bool_decide_eq_true_2 in Hv.
Qed.

(** ** Operations on the arena *)
(** An operation that keeps the invariant and the document. *)
Definition keeps (keep : NodeId -> Prop) a a' : Prop := arena_ok keep a' /\ document a' = document a.

Lemma keeps_of {A} keep a (m : tree Q A) :
  arena_ok keep a -> arena_ok keep (m a).1 -> evolving m -> keeps keep a (m a).1.
Proof. intros Ha Ha' He. split; [done|]. by apply evolves_document, He, (ok_accounts keep). Qed.

Lemma kept_trans keep a b d : keeps keep a b -> keeps keep b d -> keeps keep a d.
Proof. intros [_ E1] [? E2]. split; [done|congruence]. Qed.

Lemma keeps_attempt s m : sink_ok s -> keeps (fun x => x = sk_void s) (sk_arena s) (m (sk_arena s)).1 ->
  sink_ok (attempt m s).
Proof.
  intros [_ Hd] [Ha' Hd']. unfold attempt. destruct (m (sk_arena s)) as [a' [?|e]]; simpl in *.
  - split; [done|]. simpl. congruence.
  - destruct e; (split; [done|simpl; congruence]).
Qed.

Lemma contents_ok_none keep a (d : NodeData Q) :
  template_contents_of (Node_new d) = None -> contents_ok keep a d.
Proof. intros E t. rewrite E. done. Qed.

Lemma ok_text keep a id (contents text : list byte) o :
  arena_ok keep a -> text_at a o = Some (id, contents) ->
  keeps keep a (modify id (set_data (Text (contents ++ text))) a).1.
Proof.
  intros Ha E. apply keeps_of; [done| |apply evolving_modify]. unfold text_at in E.
  destruct o as [x|]; simpl in E; [|done]. destruct (get a x) as [n|] eqn:Ex; simpl in E; [|done].
  destruct (data n) eqn:Hd; try done. injection E as -> ->. eapply ok_set_data; [done..|]. by rewrite Hd.
Qed.

(** Creating a text node and placing it. *)
Lemma ok_create_place keep a d (place : NodeId -> tree Q unit) :
  arena_ok keep a -> template_contents_of (Node_new d) = None ->
  (forall id, evolving (place id)) ->
  (forall a' id, create d a = (a', Ok id) -> arena_ok keep a' -> loose keep a' id ->
    arena_ok keep (place id a').1) ->
  keeps keep a ((id ← create d; place id) a).1.
Proof.
  intros Ha Hd He Hp. apply keeps_of; [done| |apply evolving_bind; [apply evolving_create|done]].
  unfold mbind, tree_bind. destruct (create d a) as [a' [id|e]] eqn:E; simpl.
  - destruct (ok_create keep a d a' id Ha (contents_ok_none _ _ _ Hd) E). by eapply Hp.
  - by rewrite (create_refused _ _ _ _ _ Ha E).
Qed.

Lemma ok_append_text keep a p text : arena_ok keep a -> keeps keep a (append_text p text a).1.
Proof.
  intros Ha. unfold append_text. destruct (text_at a _) as [[id contents]|] eqn:E; [by eapply ok_text|].
  apply ok_create_place; [done|done|intros; apply evolving_append_child|].
  intros. by apply ok_append_child.
Qed.

Lemma ok_text_before keep a sibling text : arena_ok keep a -> keeps keep a (text_before sibling text a).1.
Proof.
  intros Ha. unfold text_before. destruct (text_at a _) as [[id contents]|] eqn:E; [by eapply ok_text|].
  apply ok_create_place; [done|done|intros; apply evolving_insert_before|].
  intros a' id Ec Ha' Hl. destruct (decide (sibling = id)) as [->|]; [|by apply ok_insert_before].
  pose proof (insert_before_refuses a' id id) as Hr.
  destruct (get_create keep a (Text text) a' id id Ha Ec) as [_ Hg]. rewrite decide_True in Hg by done.
  rewrite Hg in Hr. simpl in Hr. by rewrite Hr.
Qed.

Lemma ok_append s p child :
  sink_ok s -> placeable s child = true -> sink_ok (append p child s).
Proof.
  intros Hs Hp. pose proof Hs as [Ha _]. apply keeps_attempt; [done|]. destruct child as [id|text].
  - apply keeps_of; [done| |apply evolving_append_child]. by apply ok_append_child, free_standing_loose.
  - by apply ok_append_text.
Qed.

Lemma ok_append_before s sibling child :
  sink_ok s -> placeable s child = true -> is_node sibling child = false ->
  sink_ok (append_before_sibling sibling child s).
Proof.
  intros Hs Hp Hne. pose proof Hs as [Ha _]. apply keeps_attempt; [done|]. destruct child as [id|text].
  - apply keeps_of; [done| |apply evolving_insert_before].
    apply ok_insert_before; [done|by apply free_standing_loose|]. simpl in Hne.
    by apply bool_decide_eq_false in Hne as ?.
  - by apply ok_text_before.
Qed.

(** ** Creation *)
Lemma ok_create_or_void s d :
  sink_ok s -> contents_ok (fun x => x = sk_void s) (sk_arena s) d ->
  sink_ok (create_or_void d s).1 /\ sk_void (create_or_void d s).1 = sk_void s /\
  (is_ok (create d (sk_arena s)).2 = true ->
    loose (fun x => x = sk_void s) (sk_arena (create_or_void d s).1) (create_or_void d s).2).
Proof.
  intros [Ha Hd] Hc. unfold create_or_void.
  destruct (create d (sk_arena s)) as [a' [id|e]] eqn:E; simpl.
  - destruct (ok_create _ _ _ _ _ Ha Hc E) as [Ha' Hl]. split_and!; [|done|done].
    split; [done|]. simpl. by rewrite (create_document _ _ _ _ E).
  - pose proof (create_refused _ _ _ _ _ Ha E) as ->. split_and!; [by split|done|done].
Qed.

Lemma ok_create_element s name attrs template :
  sink_ok s -> sink_ok (create_element name attrs template s).1.
Proof.
  intros Hs. unfold create_element. destruct template.
  2: { apply ok_create_or_void; [done|]. by apply contents_ok_none. }
  unfold create_or_void at 1. pose proof Hs as [Ha Hd].
  destruct (create Fragment (sk_arena s)) as [a' [id|e]] eqn:E.
  - destruct (ok_create _ _ _ _ _ Ha (contents_ok_none _ _ Fragment eq_refl) E) as [Ha' [Hk Hl]].
    apply ok_create_or_void.
    + split; [done|]. simpl. by rewrite (create_document _ _ _ _ E).
    + intros t [= <-]. destruct (get_create _ _ _ _ _ id Ha E) as [Hn Hg]. rewrite decide_True in Hg by done.
      split; [|left; by eexists]. intros [Hdoc|?]; [|done]. simpl in Hdoc.
      rewrite (create_document _ _ _ _ E) in Hdoc. destruct (ok_document _ _ Ha) as (m & Em & _). congruence.
  - pose proof (create_refused _ _ _ _ _ Ha E) as ->.
    assert (forall d, (create d (sk_arena s)).2 = Err e /\ (create d (sk_arena s)).1 = sk_arena s) as Hall.
    { intros d. pose proof (create_cases (sk_arena s) Fragment (ok_accounts _ _ Ha)) as C1. rewrite E in C1.
      simpl in C1. inversion C1 as [| |Hfree Hfull]. unfold create. rewrite Hfree. unfold try_from.
      clear E. case_decide.
      - rewrite decide_True; [done|]. lia.
      - done. }
    unfold create_or_void. simpl. specialize (Hall (Element name attrs (Some (sk_void s)) false)).
    destruct (create (Element _ _ _ _) (sk_arena s)) as [b r]. destruct Hall as [H2 H1]. simpl in H1, H2.
    subst. by split.
Qed.

Lemma ok_doctype s n p y :
  sink_ok s -> is_ok (create (Doctype n p y) (sk_arena s)).2 = true ->
  sink_ok (append_doctype_to_document n p y s).
Proof.
  intros Hs Hr. unfold append_doctype_to_document.
  destruct (ok_create_or_void s (Doctype n p y) Hs (contents_ok_none _ _ (Doctype n p y) eq_refl)) as (Hs' & Hv & Hl).
  specialize (Hl Hr). destruct (create_or_void _ s) as [s' id]. simpl in *.
  apply keeps_attempt; [done|]. pose proof Hs' as [Ha' _].
  apply keeps_of; [done| |apply evolving_append_child]. apply ok_append_child; [done|by rewrite Hv].
Qed.

(** ** Cloning an option *)
Lemma loose_create keep a x n a' id r :
  arena_ok keep a -> get a x = Some n -> create (data n) a = (a', Ok id) -> loose keep a r -> loose keep a' r.
Proof.
  intros Ha E Ec [Hk Hl]. split; [done|]. intros y m Ey Ht.
  destruct (get_create keep a (data n) a' id y Ha Ec) as [_ Hg]. rewrite Hg in Ey. case_decide.
  - injection Ey as <-. by apply (Hl x n).
  - by apply (Hl y m).
Qed.

Lemma loose_clone_loop keep budget a stack r :
  arena_ok keep a -> loose keep a r -> loose keep (clone_loop budget stack a).1 r.
Proof.
  revert a stack. induction budget as [|budget IH]; intros a [|[src p] stack] Ha Hr; try done.
  cbn [clone_loop]. unfold mbind at 1, tree_bind at 1, reads, get_or_err.
  destruct (get a src) as [n|] eqn:E; simpl; [|done].
  unfold mbind at 1, tree_bind at 1. destruct (create (data n) a) as [a1 [c|e]] eqn:Ec.
  - destruct (ok_create keep a (data n) a1 c Ha (ok_source_contents _ a src n Ha E) Ec) as [Ha1 Hl].
    pose proof (loose_create _ _ _ _ _ _ _ Ha E Ec Hr) as Hr1.
    pose proof (ok_append_child _ a1 p c Ha1 Hl) as Ha2.
    pose proof (loose_data keep a1 (append_child p c a1).1 r
      (fun x => append_child_data keep a1 p c x Ha1) Hr1) as Hr2.
    unfold mbind, tree_bind. destruct (append_child p c a1) as [a2 [[]|e]]; [|done].
    destruct (ok_or _ _); [by apply IH|done].
  - by rewrite (create_refused _ _ _ _ _ Ha Ec).
Qed.

(** A copy is nobody's contents. *)
Lemma loose_clone keep a id a' r :
  arena_ok keep a -> clone_subtree id a = (a', Ok r) -> loose keep a' r.
Proof.
  intros Ha. unfold clone_subtree. unfold mbind at 1, tree_bind at 1, reads at 1, get_or_err.
  destruct (get a id) as [n|] eqn:E; simpl; [|done].
  unfold mbind at 1, tree_bind at 1. destruct (create (data n) a) as [a1 [c|e]] eqn:Ec; [|done].
  destruct (ok_create keep a (data n) a1 c Ha (ok_source_contents _ a id n Ha E) Ec) as [Ha1 Hl].
  unfold mbind, tree_bind, reads. destruct (ok_or _ _) as [l|]; [|done].
  pose proof (loose_clone_loop keep (S (slot_count a1)) a1 (map (fun x => (x, c)) l) c Ha1 Hl) as Hc.
  destruct (clone_loop _ _ a1) as [a2 [[]|e]]; [|done]. by intros [= <- <-].
Qed.

Lemma keeps_remove keep a (l : list NodeId) :
  arena_ok keep a -> Forall (fun x => ~ keep x) l -> keeps keep a (remove_all l a).
Proof.
  revert a. induction l as [|c l IH]; intros a Ha Hl; [by split|].
  apply Forall_cons in Hl as [Hc Hl]. cbn [remove_all]. apply (kept_trans keep a (remove_subtree c a).1).
  - apply (keeps_of keep a (remove_subtree c)); [done|by apply ok_remove_subtree|apply evolving_remove_subtree].
  - apply IH; [by apply ok_remove_subtree|done].
Qed.

Lemma keeps_clone keep a target l : arena_ok keep a -> keeps keep a (clone_children target l a).
Proof.
  revert a. induction l as [|c l IH]; intros a Ha; [by split|]. cbn [clone_children].
  pose proof (keeps_of keep a (clone_subtree c) Ha (ok_clone_subtree keep a c Ha) (evolving_clone_subtree c)) as K1.
  destruct (clone_subtree c a) as [a1 [copy|e]] eqn:Ec; [|done]. simpl in K1.
  pose proof (loose_clone keep a c a1 copy Ha Ec) as Hl. pose proof K1 as [Ha1 _].
  pose proof (keeps_of keep a1 (append_child target copy) Ha1 (ok_append_child keep a1 target copy Ha1 Hl)
    (evolving_append_child target copy)) as K2.
  destruct (append_child target copy a1) as [a2 [[]|e]]; simpl in K2; pose proof K2 as [Ha2 _].
  - eapply kept_trans; [done|]. eapply kept_trans; [done|]. by apply IH.
  - eapply kept_trans; [done|]. eapply kept_trans; [done|].
    apply (keeps_of keep a2 (remove_subtree copy)); [done| |apply evolving_remove_subtree].
    apply ok_remove_subtree; [done|apply Hl].
Qed.

Lemma keeps_clone_option keep a o : arena_ok keep a -> keeps keep a (clone_option o a).
Proof.
  intros Ha. unfold clone_option. destruct (nearest_select _ _ _) as [select|]; [|by split].
  destruct (List.find _ _) as [target|]; [|by split].
  destruct (children a target) as [existing|] eqn:Ex; [|by split].
  assert (keeps keep a (remove_all existing a)) as K1.
  { apply keeps_remove; [done|]. destruct (ok_forest keep a Ha) as [ch Hf].
    destruct (get a target) as [n|] eqn:En; [|unfold children in Ex; by rewrite En in Ex].
    rewrite (children_spec a ch target n (ok_slots keep a Ha) Hf En) in Ex. injection Ex as <-.
    apply Forall_forall. intros c (m & Em & Hm)%(forest_elem _ _ _ _ Hf).
    by eapply (parented_loose keep a c m). }
  destruct (children _ o) as [l|]; [|done]. eapply kept_trans; [done|]. apply keeps_clone, K1.
Qed.

(** ** Every call *)
Lemma ok_mark_script s node : sink_ok s -> sink_ok (mark_script_already_started node s).
Proof.
  intros [Ha Hd]. unfold mark_script_already_started. destruct (get (sk_arena s) node) as [n|] eqn:E; simpl; [|done].
  destruct (data n) as [| | | | |name attrs t b|] eqn:Hn; try done.
  destruct (keeps_of _ (sk_arena s) (modify node (set_data (Element name attrs t true))) Ha) as [Ha' Hd'].
  - eapply ok_set_data; [done..|]. by rewrite Hn.
  - apply evolving_modify.
  - split; [done|]. simpl. congruence.
Qed.

Lemma void_step c s : sk_void (step c s) = sk_void s.
Proof.
  assert (forall m, sk_void (attempt m s) = sk_void s) as Hat.
  { intros m. unfold attempt. destruct (m (sk_arena s)) as [a [?|[]]]; done. }
  assert (forall (d : NodeData Q) (t : Sink Q M), sk_void (create_or_void d t).1 = sk_void t) as Hcv.
  { intros d t. unfold create_or_void. by destruct (create d (sk_arena t)) as [a [?|?]]. }
  destruct c; try done; simpl; try apply Hat.
  - unfold create_element. destruct template; [|apply Hcv].
    destruct (create_or_void Fragment s) as [s' c] eqn:E. rewrite Hcv.
    pose proof (Hcv Fragment s) as Hv. by rewrite E in Hv.
  - apply Hcv.
  - apply Hcv.
  - unfold append_based_on_parent_node. destruct (n ← get _ _; parent n); apply Hat.
  - unfold append_doctype_to_document. pose proof (Hcv (Doctype name public_id system_id) s) as Hv.
    destruct (create_or_void _ s) as [s' id]. simpl in Hv. rewrite <- Hv. unfold attempt.
    by destruct (append_child _ _ _) as [a [?|[]]].
  - unfold mark_script_already_started. destruct (get _ node) as [n|]; simpl; [|done]. by destruct (data n).
Qed.

Lemma void_run cs s : sk_void (run cs s) = sk_void s.
Proof.
  unfold run. revert s. induction cs as [|c cs IH]; intros s; [done|]. cbn [foldl]. by rewrite IH, void_step.
Qed.

Lemma ok_step c s : sink_ok s -> polite s c = true -> sink_ok (step c s).
Proof.
  intros Hs Hp. pose proof Hs as [Ha Hd]. destruct c; simpl in Hp |- *.
  - by split.
  - by apply ok_create_element.
  - apply ok_create_or_void; [done|by apply contents_ok_none].
  - apply ok_create_or_void; [done|by apply contents_ok_none].
  - by apply ok_append.
  - apply andb_true_iff in Hp as [Hp Hn%negb_true_iff]. unfold append_based_on_parent_node.
    destruct (n ← get _ element; parent n); [by apply ok_append_before|by apply ok_append].
  - by apply ok_doctype.
  - by apply ok_mark_script.
  - by split.
  - apply andb_true_iff in Hp as [Hp Hn%negb_true_iff]. by apply ok_append_before.
  - apply keeps_attempt; [done|]. apply keeps_of; [done|by apply ok_add_attributes|apply evolving_add_attributes].
  - apply keeps_attempt; [done|]. apply keeps_of; [done|by apply ok_detach|apply evolving_detach].
  - apply keeps_attempt; [done|].
    apply keeps_of; [done|by apply ok_reparent_children|apply evolving_reparent_children].
  - destruct (keeps_clone_option _ (sk_arena s) option Ha) as [Ha' Hd']. split; [done|]. simpl. congruence.
Qed.

Lemma ok_run cs s : sink_ok s -> polite_run s cs = true -> sink_ok (run cs s).
Proof.
  unfold run. revert s. induction cs as [|c cs IH]; intros s Hs; [done|]. cbn [polite_run foldl].
  intros [Hc Hcs]%andb_true_iff. apply IH; [by apply ok_step|done].
Qed.

Lemma ok_Sink_new : sink_ok (Sink_new NoQuirks).
Proof.
  unfold Sink_new. pose proof (ok_Arena_new (Q := Q)) as Ha.
  destruct (create Fragment Arena_new) as [a' [void|e]] eqn:E; [|by vm_compute in E].
  destruct (ok_create _ _ _ _ _ Ha (contents_ok_none _ _ Fragment eq_refl) E) as [Ha' Hl].
  destruct (get_create _ _ _ _ _ void Ha E) as [_ Hg]. rewrite decide_True in Hg by done.
  split; simpl; [|by rewrite (create_document _ _ _ _ E)].
  pose proof (ok_anchor _ _ _ _ Ha' Hl Hg eq_refl) as [A1 A2 A3 A4].
  split; [done|done| |].
  - intros r [?|?]; apply A3; [by left|by right; right].
  - intros x n t Ex Ht. destruct (A4 x n t Ex Ht) as [Hn ?]. split; [|done].
    intros [?|?]; apply Hn; [by left|by right; right].
Qed.
End parse.

(** ** The feeding loop *)
(** A run of continuation bytes is never longer than three in a string. *)
Fixpoint char_runs (run : nat) (l : list byte) : bool :=
  match l with
  | [] => true
  | b :: l => if is_continuation b then (run <? 3)%nat && char_runs (S run) l else char_runs 0 l
  end.

Lemma char_runs_mono r r' l : (r' <= r)%nat -> char_runs r l = true -> char_runs r' l = true.
Proof.
  revert r r'. induction l as [|b l IH]; intros r r' Hle; [done|]. simpl.
  destruct (is_continuation b); [|done]. intros [Hr Hl]%andb_true_iff.
  apply Nat.ltb_lt in Hr. apply andb_true_iff. split; [apply Nat.ltb_lt; lia|].
  eapply IH; [|done]. lia.
Qed.

Lemma char_runs_drop r l i : char_runs r l = true -> char_runs 0 (drop i l) = true.
Proof.
  revert r l. induction i as [|i IH]; intros r l Hl.
  - rewrite drop_0. eapply char_runs_mono; [|done]. lia.
  - destruct l as [|b l]; [done|]. simpl in Hl |- *.
    destruct (is_continuation b); [apply andb_true_iff in Hl as [_ Hl]|]; by eapply IH.
Qed.

Lemma char_runs_window l :
  char_runs 0 l = true -> (4 <= length l)%nat ->
  exists j b, (j < 4)%nat /\ l !! j = Some b /\ is_continuation b = false.
Proof.
  intros Hl Hlen. destruct l as [|b0 [|b1 [|b2 [|b3 l]]]]; simpl in Hlen; try lia.
  destruct (is_continuation b0) eqn:E0; [|exists 0%nat, b0; split_and!; [lia|done..]].
  destruct (is_continuation b1) eqn:E1; [|exists 1%nat, b1; split_and!; [lia|done..]].
  destruct (is_continuation b2) eqn:E2; [|exists 2%nat, b2; split_and!; [lia|done..]].
  destruct (is_continuation b3) eqn:E3; [|exists 3%nat, b3; split_and!; [lia|done..]].
  simpl in Hl. by rewrite E0, E1, E2, E3 in Hl.
Qed.

Lemma walk_back_le l i : (walk_back l i <= i)%nat.
Proof. induction i as [|i IH]; simpl; [lia|]. destruct (is_char_boundary l (S i)); lia. Qed.

Lemma walk_back_boundary l i : is_char_boundary l (walk_back l i) = true.
Proof. induction i as [|i IH]; simpl; [done|]. by destruct (is_char_boundary l (S i)) eqn:E. Qed.

Lemma walk_back_ge l i j : (j <= i)%nat -> is_char_boundary l j = true -> (j <= walk_back l i)%nat.
Proof.
  induction i as [|i IH]; intros Hle Hj; simpl; [lia|].
  destruct (is_char_boundary l (S i)) eqn:E; [done|].
  apply IH; [|done]. destruct (decide (j = S i)) as [->|]; [congruence|lia].
Qed.

(** The split point is the whole rest, or within four bytes of the chunk size. *)
Lemma split_point_near l :
  char_runs 0 l = true -> l <> [] ->
  (0 < split_point l <= FEED_CHUNK_BYTES)%nat /\ (split_point l <= length l)%nat /\
  (split_point l = length l \/ FEED_CHUNK_BYTES < split_point l + 4)%nat /\
  is_char_boundary l (split_point l) = true.
Proof.
  intros Hl Hne. unfold split_point. pose proof (walk_back_le l (FEED_CHUNK_BYTES `min` length l)) as Hle.
  pose proof (walk_back_boundary l (FEED_CHUNK_BYTES `min` length l)) as Hb.
  assert (0 < length l)%nat by (destruct l; [done|simpl; lia]).
  assert (FEED_CHUNK_BYTES = 8 * 1024)%nat as Hc by reflexivity.
  destruct (decide (length l <= FEED_CHUNK_BYTES)%nat) as [Hs|Hs].
  - rewrite Nat.min_r in * by done.
    assert (length l <= walk_back l (length l))%nat.
    { apply walk_back_ge; [done|]. unfold is_char_boundary. rewrite Nat.eqb_refl. by rewrite orb_true_r. }
    split_and!; [lia|lia|lia|left; lia|done].
  - rewrite Nat.min_l in * by lia.
    destruct (char_runs_window (drop (FEED_CHUNK_BYTES - 3) l)) as (j & b & Hj & Ej & Hcont).
    { by eapply char_runs_drop. } { rewrite length_drop. lia. }
    rewrite lookup_drop in Ej.
    assert (FEED_CHUNK_BYTES - 3 + j <= walk_back l FEED_CHUNK_BYTES)%nat.
    { apply walk_back_ge; [lia|]. unfold is_char_boundary. rewrite Ej, Hcont. by rewrite !orb_true_r. }
    split_and!; [lia|lia|lia|right; lia|done].
Qed.

(** What is handed over: pieces of the input in order, none larger than a chunk,
    each while the tree has refused little; whatever is left was abandoned. *)
Section feed.
Context {P : Type} (process : P -> list byte -> P) (fed : P -> nat).

Inductive feeding : P -> list byte -> P -> list (list byte) -> list byte -> Prop :=
| feeding_done p : feeding p [] p [] []
| feeding_abandon p rest :
    rest <> [] -> (MAX_REFUSALS_BEFORE_ABANDONING <= fed p)%nat -> feeding p rest p [] rest
| feeding_chunk p chunk rest p' chunks left :
    (fed p < MAX_REFUSALS_BEFORE_ABANDONING)%nat ->
    (0 < length chunk <= FEED_CHUNK_BYTES)%nat ->
    (rest = [] \/ FEED_CHUNK_BYTES < length chunk + 4)%nat ->
    is_char_boundary (chunk ++ rest) (length chunk) = true ->
    feeding (process p chunk) rest p' chunks left ->
    feeding p (chunk ++ rest) p' (chunk :: chunks) left.

Lemma feed_loop_spec fuel p rest :
  char_runs 0 rest = true -> (length rest <= fuel)%nat ->
  exists p' chunks left, feeding p rest p' chunks left /\
    feed_loop process fed fuel p rest = (p', negb (bool_decide (left = []))).
Proof.
  revert p rest. induction fuel as [|fuel IH]; intros p rest Hr Hf.
  { destruct rest; [|simpl in Hf; lia]. exists p, [], []. split; [constructor|done]. }
  destruct (decide (rest = [])) as [->|Hne]; [exists p, [], []; split; [constructor|done]|].
  assert (feed_loop process fed (S fuel) p rest =
    if (MAX_REFUSALS_BEFORE_ABANDONING <=? fed p)%nat then (p, true)
    else let '(chunk, remainder) :=
      match split_point rest with O => (rest, []) | _ => (take (split_point rest) rest, drop (split_point rest) rest) end in
      feed_loop process fed fuel (process p chunk) remainder) as -> by (by destruct rest).
  destruct (_ <=? _)%nat eqn:Hfed.
  { apply Nat.leb_le in Hfed. exists p, [], rest. split; [by constructor|].
    by rewrite bool_decide_eq_false_2. }
  apply Nat.leb_gt in Hfed. destruct (split_point_near rest Hr Hne) as (Hpos & Hle & Hnear & Hb).
  destruct (split_point rest) as [|k] eqn:Hk; [lia|]. rewrite <- Hk in *. clear Hk k.
  set (e := split_point rest) in *.
  destruct (IH (process p (take e rest)) (drop e rest)) as (p' & chunks & left & Hfeed & ->).
  { by eapply char_runs_drop. } { rewrite length_drop. lia. }
  exists p', (take e rest :: chunks), left. split; [|done].
  rewrite <- (take_drop e rest) at 1.
  assert (length (take e rest) = e) as Hlen by (rewrite length_take; lia).
  constructor; rewrite ?Hlen, ?take_drop; try done.
  destruct Hnear as [->|?]; [left|by right]. by apply drop_ge.
Qed.

Lemma feeding_concat p rest p' chunks left :
  feeding p rest p' chunks left -> rest = concat chunks ++ left /\ p' = foldl process p chunks.
Proof. induction 1 as [|p rest|p chunk rest p' chunks left _ _ _ _ _ [-> ->]]; [done|done|].
  split; [|done]. simpl. by rewrite app_assoc. Qed.

Lemma feeding_abandoned p rest p' chunks left :
  feeding p rest p' chunks left -> left <> [] -> (MAX_REFUSALS_BEFORE_ABANDONING <= fed p')%nat.
Proof. by induction 1. Qed.
End feed.
