(* ===== verification/DomValidate.v ===== *)
(** * The self-check of the document tree ([Arena::validate] of arena.rs)

    The check is modelled with the order of its tests and the first violation it
    reports, and shown to decide exactly whether the links form a tree. *)
From stdpp Require Import sets relations.
From S2P Require Import Prelude Bytes DomNode DomArena DomTree DomOps DomAlloc DomRemove.

Definition violation : Type := NodeId * string.

Section validate.
Context {Q : Type} `{QualNames Q}.
Implicit Types (a : Arena Q) (id : NodeId) (n : Node Q) (cs : list NodeId).

Local Open Scope string_scope.

(** The first of two violations. *)
Definition or_violation (x y : option violation) : option violation :=
  match x with Some v => Some v | None => y end.

Definition check_first a id n cs : option violation :=
  match first_child n with
  | Some first =>
      if negb (bool_decide (head cs = Some first)) then
        Some (id, "first_child disagrees with the forward walk")
      else if bool_decide (is_Some (m ← get a first; prev_sibling m)) then
        Some (id, "the first child has a previous sibling")
      else None
  | None =>
      if bool_decide (cs = []) then None else Some (id, "no first_child, but the walk found children")
  end.

Definition check_last a id n cs : option violation :=
  match last_child n with
  | Some l =>
      if negb (bool_decide (last cs = Some l)) then
        Some (id, "last_child is not where the forward walk ends")
      else if bool_decide (is_Some (m ← get a l; next_sibling m)) then
        Some (id, "the last child has a next sibling")
      else None
  | None =>
      if bool_decide (cs = []) then None else Some (id, "no last_child, but the walk found children")
  end.

Fixpoint check_children a id (previous : option NodeId) cs : option violation :=
  match cs with
  | [] => None
  | child :: cs =>
      match get a child with
      | None => Some (id, "a listed child does not resolve")
      | Some m =>
          if negb (bool_decide (parent m = Some id)) then
            Some (child, "a child does not name the parent that lists it")
          else if negb (bool_decide (prev_sibling m = previous)) then
            Some (child, "the backward link disagrees with the forward walk")
          else check_children a id (Some child) cs
      end
  end.

Definition check_node a id : option violation :=
  match get a id with
  | None => None
  | Some n =>
      let cs := child_ids a id in
      or_violation (check_first a id n cs)
        (or_violation (check_last a id n cs) (check_children a id None cs))
  end.

(** The handles of the occupied slots, in slot order. *)
Definition slot_handle (i : nat) (s : Slot Q) : option NodeId :=
  _ ← slot_node s; _ ← try_from U32_MAX (Z.of_nat i); Some (slot_id i s).

Definition live_handles a : list NodeId := omap (fun o => o) (imap slot_handle (Slots.iter (slots a))).

Fixpoint first_violation (f : NodeId -> option violation) (l : list NodeId) : option violation :=
  match l with [] => None | x :: l => or_violation (f x) (first_violation f l) end.

Definition check_document a : option violation :=
  match get a (document a) with
  | None => Some (document a, "the document node does not resolve")
  | Some n =>
      match parent n with
      | Some _ => Some (document a, "the document node has a parent")
      | None => None
      end
  end.

(** The downward walk.  [None] is a walk that ran out of fuel. *)
Fixpoint downward (fuel : nat) a (visited : list bool) (stack : list (NodeId * nat))
  : option (result violation (list bool)) :=
  match stack with
  | [] => Some (Ok visited)
  | (id, depth) :: stack =>
      match fuel with
      | O => None
      | S fuel =>
          if (MAX_DEPTH <? depth)%nat then Some (Err (id, "a node sits past the depth limit"))
          else
            match visited !! N.to_nat (index id) with
            | Some true => Some (Err (id, "a node is reachable from more than one parent"))
            | Some false =>
                downward fuel a (<[N.to_nat (index id) := true]> visited)
                  (reverse (map (fun c => (c, S depth)) (child_ids a id)) ++ stack)
            | None => downward fuel a visited stack
            end
      end
  end.

Definition is_root a id : bool := bool_decide ((n ← get a id; parent n) = None).

Definition walk_fuel a : nat := slot_count a + slot_count a * slot_count a.

Definition check_reached a (visited : list bool) id : option violation :=
  if bool_decide (visited !! N.to_nat (index id) = Some false)
  then Some (id, "a live node is reachable from no root, so it is in a cycle") else None.

Definition validate a : option (result violation unit) :=
  match first_violation (check_node a) (live_handles a) with
  | Some v => Some (Err v)
  | None =>
      match check_document a with
      | Some v => Some (Err v)
      | None =>
          let roots := List.filter (is_root a) (live_handles a) in
          reached ← downward (walk_fuel a) a (replicate (slot_count a) false)
            (reverse (map (fun id => (id, 0)) roots));
          Some (visited ← reached;
            match first_violation (check_reached a visited) (live_handles a) with
            | Some v => Err v
            | None => Ok tt
            end)
      end
  end.

(** ** The handles it visits *)
Lemma live_handles_spec a x :
  slots_ok (slots a) -> (Z.of_nat (slot_count a) <= U32_MAX)%Z ->
  x ∈ live_handles a <-> is_Some (get a x).
Proof.
  intros Hs Hb. unfold live_handles. rewrite list_elem_of_omap.
  assert (forall i s, Slots.iter (slots a) !! i = Some s -> (i < slot_count a)%nat) as Hlt.
  { intros i s E%lookup_lt_Some. by rewrite length_iter in E. }
  split.
  - intros (o & (i & s & -> & E)%elem_of_lookup_imap & Ho). unfold slot_handle in Ho.
    destruct (slot_node s) as [n|] eqn:Hn; [|done]. cbn [mbind option_bind] in Ho.
    destruct (try_from U32_MAX (Z.of_nat i)); [|done]. injection Ho as <-. rewrite get_flat by done.
    unfold slot_id. simpl. rewrite Nat2N.id, E. simpl. rewrite decide_True, Hn by done. done.
  - intros [n E]. destruct (get_slot a x n Hs E) as (s & Es & Hg & Hn).
    exists (Some x). split; [|done]. apply elem_of_lookup_imap. exists (N.to_nat (index x)), s.
    split; [|done]. unfold slot_handle. rewrite Hn. cbn [mbind option_bind].
    unfold try_from. rewrite decide_True by (specialize (Hlt _ _ Es); lia). cbn [mbind option_bind].
    unfold slot_id. rewrite N2Nat.id, Hg. by destruct x.
Qed.

Lemma or_violation_None x y : or_violation x y = None <-> x = None /\ y = None.
Proof. destruct x, y; simpl; split; intros; try tauto; naive_solver. Qed.

Lemma first_violation_None f l : first_violation f l = None <-> forall x, x ∈ l -> f x = None.
Proof.
  induction l as [|x l IH]; simpl; [split; [by intros _ y ?%elem_of_nil|done]|].
  rewrite or_violation_None, IH. setoid_rewrite elem_of_cons. naive_solver.
Qed.

Lemma map_rev_fst {A} (l : list A) (d : nat) : map fst (reverse (map (fun c => (c, d)) l)) = reverse l.
Proof.
  unfold reverse. rewrite !rev_append_rev, !app_nil_r, map_rev, map_map. by rewrite map_id.
Qed.

Lemma nodup_reverse {A} (l : list A) : NoDup l -> NoDup (reverse l).
Proof. intros Hn. by rewrite reverse_Permutation. Qed.

(** ** Child lists *)
Lemma sibling_walk_complete budget a cs o :
  sibling_walk budget a o = cs -> cs <> [] \/ o = None ->
  (forall l, last cs = Some l -> (m ← get a l; next_sibling m) = None) ->
  o = head cs /\ forall i x, cs !! i = Some x -> (m ← get a x; next_sibling m) = cs !! S i.
Proof.
  revert o cs. induction budget as [|budget IH]; intros o cs <- Hne Hl.
  - destruct Hne as [?| ->]; [done|]. split; [done|]. intros i x. simpl. by rewrite lookup_nil.
  - destruct o as [c|]; [|done]. cbn [sibling_walk] in *. split; [done|].
    destruct (m ← get a c; next_sibling m) as [d|] eqn:E.
    + destruct (sibling_walk budget a (Some d)) as [|y l] eqn:Ew.
      * specialize (Hl c eq_refl). congruence.
      * destruct (IH (Some d) (y :: l) Ew) as [Hh Hi]; [by left|by intros z Hz; apply Hl|].
        intros [|i] x; simpl; [|by apply (Hi i)]. intros [= <-]. rewrite E. done.
    + assert (sibling_walk budget a None = []) as -> by (by destruct budget).
      intros [|i] x; simpl; [intros [= <-]; by rewrite E|by rewrite lookup_nil].
Qed.

Lemma check_children_None a id previous cs :
  check_children a id previous cs = None ->
  (forall i x, cs !! i = Some x -> (m ← get a x; next_sibling m) = cs !! S i) ->
  chain (sib (get a)) id previous cs None.
Proof.
  revert previous. induction cs as [|c cs IH]; intros previous; [done|]. cbn [check_children chain].
  destruct (get a c) as [m|] eqn:E; [|done]. case_bool_decide as Hp; [|done]. case_bool_decide as Hv; [|done].
  cbn [negb]. intros Hc Hn. split.
  - unfold sib. rewrite E. simpl. unfold links_of. rewrite Hp, Hv.
    specialize (Hn 0 c eq_refl). rewrite E in Hn. simpl in Hn. rewrite Hn. by destruct cs.
  - apply IH; [done|]. intros i x Hx. apply (Hn (S i) x Hx).
Qed.

Lemma chain_check a id previous cs :
  chain (sib (get a)) id previous cs None -> check_children a id previous cs = None.
Proof.
  revert previous. induction cs as [|c cs IH]; intros previous; [done|]. intros [Hc Hl].
  cbn [check_children]. unfold sib in Hc. destruct (get a c) as [m|]; [|done].
  injection Hc as Hp Hv _. rewrite !bool_decide_eq_true_2 by done. cbn [negb]. by apply IH.
Qed.

Lemma sibling_walk_ok budget a p pv l :
  chain (sib (get a)) p pv l None -> (length l <= budget)%nat -> sibling_walk budget a (head l) = l.
Proof.
  revert budget pv. induction l as [|c l IH]; intros budget pv; [by destruct budget|]. intros [Hc Hr] Hlen.
  simpl in Hlen. destruct budget as [|budget]; [lia|]. cbn [sibling_walk head]. f_equal.
  unfold sib in Hc. destruct (get a c) as [m|]; [|done]. injection Hc as _ _ Hn.
  cbn [mbind option_bind]. rewrite Hn.
  assert (match l with [] => None | y :: _ => Some y end = head l) as -> by (by destruct l).
  eapply IH; [done|lia].
Qed.

(** Backward links keep a chain from meeting itself. *)
Lemma chain_lookup S p pv l nx i c :
  chain S p pv l nx -> l !! i = Some c ->
  exists nx', S c = Some (Some p, match i with O => pv | Datatypes.S j => l !! j end, nx').
Proof.
  revert pv i. induction l as [|x l IH]; intros pv i; [by rewrite lookup_nil|]. intros [Hx Hl].
  destruct i as [|i]; simpl; [intros [= <-]; eauto|]. intros E.
  destruct (IH _ _ Hl E) as [nx' Hc]. exists nx'. rewrite Hc. by destruct i.
Qed.

Lemma chain_nodup S p l nx : chain S p None l nx -> NoDup l.
Proof.
  intros Hc. apply NoDup_alt. intros i. induction i as [|i IH]; intros j x Hi Hj.
  - destruct (chain_lookup _ _ _ _ _ _ _ Hc Hi) as [n1 E1], (chain_lookup _ _ _ _ _ _ _ Hc Hj) as [n2 E2].
    rewrite E1 in E2. injection E2 as Hp _. destruct j as [|j]; [done|].
    apply lookup_lt_Some in Hj. symmetry in Hp. apply lookup_ge_None in Hp. lia.
  - destruct (chain_lookup _ _ _ _ _ _ _ Hc Hi) as [n1 E1], (chain_lookup _ _ _ _ _ _ _ Hc Hj) as [n2 E2].
    rewrite E1 in E2. injection E2 as Hp _. destruct j as [|j].
    + apply lookup_lt_Some in Hi. apply lookup_ge_None in Hp. lia.
    + destruct (l !! i) as [y|] eqn:Ey; [|apply lookup_lt_Some in Hi; apply lookup_ge_None in Ey; lia].
      f_equal. by apply (IH j y).
Qed.

(** ** What the check decides *)
(** The links form a tree of bounded depth: this is a forest without the
    conditions on what may have children and on the siblings of roots, which the
    check does not look at. *)
Record linked (G : NodeId -> option (Node Q)) (ch : NodeId -> list NodeId) : Prop := {
  li_edges : forall x n, G x = Some n -> edges_of n = (head (ch x), last (ch x));
  li_chain : forall x, chain (fun y => links_of <$> G y) x None (ch x) None;
  li_child : forall x n p, G x = Some n -> parent n = Some p -> x ∈ ch p;
  li_dead : forall x, G x = None -> ch x = [];
  li_depth : forall x n, G x = Some n -> exists d, (d <= MAX_DEPTH)%nat /\ depth_of G x d
}.

Lemma forest_linked G ch : forest G ch -> linked G ch.
Proof. intros [F1 F2 F3 F4 F5 F6 F7 F8]. by split. Qed.

Lemma check_node_sound a id n :
  get a id = Some n -> check_node a id = None ->
  edges_of n = (head (child_ids a id), last (child_ids a id)) /\
  chain (sib (get a)) id None (child_ids a id) None.
Proof.
  intros E. unfold check_node. rewrite E. cbv zeta. set (cs := child_ids a id).
  rewrite !or_violation_None. intros (Hf & Hl & Hc).
  assert (first_child n = head cs) as Hfirst.
  { unfold check_first in Hf. destruct (first_child n) as [f|].
    - case_bool_decide as Hh; [by rewrite Hh|done].
    - case_bool_decide as Hn; [|done]. by rewrite Hn. }
  assert (last_child n = last cs /\ forall l, last cs = Some l -> (m ← get a l; next_sibling m) = None) as [Hlast Hend].
  { unfold check_last in Hl. destruct (last_child n) as [l|].
    - case_bool_decide as Hh; [|done]. cbn [negb] in Hl. case_bool_decide as Hn; [done|]. split; [done|].
      intros l' Hl'. rewrite Hh in Hl'. injection Hl' as <-. by apply eq_None_not_Some.
    - case_bool_decide as Hn; [|done]. rewrite Hn. done. }
  split; [unfold edges_of; congruence|]. apply check_children_None; [done|].
  refine (proj2 (sibling_walk_complete (slot_count a) a cs (head cs) _ _ Hend)).
  - rewrite <- Hfirst. unfold cs, child_ids. by rewrite E.
  - destruct cs; [by right|by left].
Qed.

(** *** The downward walk *)
Definition unvisited (v : list bool) : nat := length (List.filter negb v).

Lemma unvisited_mark v i : v !! i = Some false -> unvisited v = S (unvisited (<[i := true]> v)).
Proof.
  unfold unvisited. revert i. induction v as [|b v IH]; intros [|i]; try done.
  - intros [= ->]. done.
  - intros E. simpl. destruct b; simpl; [|f_equal]; by apply IH.
Qed.

Lemma sibling_walk_length budget a o : (length (sibling_walk budget a o) <= budget)%nat.
Proof.
  revert o. induction budget as [|budget IH]; intros o; [done|]. destruct o as [c|]; simpl; [|lia].
  specialize (IH (m ← get a c; next_sibling m)). lia.
Qed.

(** Every turn shortens the stack or marks a slot, which pushes at most one
    handle per slot. *)
Lemma downward_total fuel a v stack :
  (length stack + slot_count a * unvisited v <= fuel)%nat -> is_Some (downward fuel a v stack).
Proof.
  revert v stack. induction fuel as [|fuel IH]; intros v [|[id d] stack] Hf; simpl in Hf; try (eexists; done); [lia|].
  cbn [downward]. destruct (_ <? _)%nat; [eexists; done|].
  destruct (v !! N.to_nat (index id)) as [[]|] eqn:Ev; [eexists; done| |apply IH; lia].
  apply IH. rewrite length_app, length_reverse, length_map. rewrite (unvisited_mark _ _ Ev) in Hf.
  pose proof (sibling_walk_length (slot_count a) a (m ← get a id; first_child m)) as Hc.
  change (sibling_walk (slot_count a) a (m ← get a id; first_child m)) with (child_ids a id) in Hc. nia.
Qed.

(** How a node comes to be on the stack: as a root, or from its parent's list. *)
Definition entered a (x : NodeId) : Prop :=
  exists n, get a x = Some n /\ (parent n = None \/ exists p, parent n = Some p /\ x ∈ child_ids a p).

Definition entry_ok a (e : NodeId * nat) : Prop := depth_of (get a) e.1 e.2 /\ entered a e.1.

Definition marked_ok a (v : list bool) : Prop :=
  forall i, v !! i = Some true ->
    exists x d, N.to_nat (index x) = i /\ entry_ok a (x, d) /\ (d <= MAX_DEPTH)%nat.

Lemma child_entry a x d c :
  (forall y n, get a y = Some n -> chain (sib (get a)) y None (child_ids a y) None) ->
  entry_ok a (x, d) -> c ∈ child_ids a x -> entry_ok a (c, S d).
Proof.
  intros Hch [Hd (n & E & _)] Hc. destruct (chain_elem _ _ _ _ _ c (Hch x n E) Hc) as (u & w & Hs).
  unfold sib in Hs. destruct (get a c) as [m|] eqn:Em; [|done]. injection Hs as Hp _ _.
  split; simpl; [by econstructor|]. exists m. split; [done|]. right. by exists x.
Qed.

Lemma downward_sound fuel a v stack v' :
  (forall y n, get a y = Some n -> chain (sib (get a)) y None (child_ids a y) None) ->
  Forall (entry_ok a) stack -> marked_ok a v -> downward fuel a v stack = Some (Ok v') -> marked_ok a v'.
Proof.
  intros Hch. revert v stack. induction fuel as [|fuel IH]; intros v [|[id d] stack] Hst Hv; simpl; try done.
  1, 2: by intros [= <-].
  apply Forall_cons in Hst as [He Hst]. destruct (MAX_DEPTH <? d)%nat eqn:Hm; [done|].
  apply Nat.ltb_ge in Hm. destruct (v !! N.to_nat (index id)) as [[]|] eqn:Ev; [done| |by apply IH].
  apply IH.
  - apply Forall_app. split; [|done]. apply Forall_reverse, Forall_forall.
    intros e (c & -> & Hc)%list_elem_of_fmap. by eapply child_entry.
  - intros i Hi. destruct (decide (N.to_nat (index id) = i)) as [<-|Hne]; [by exists id, d|].
    rewrite list_lookup_insert_ne in Hi by done. by apply Hv.
Qed.

(** *** No node is met twice in a tree *)
Section complete.
Context a (ch : NodeId -> list NodeId) (Hs : slots_ok (slots a)) (Hl : linked (get a) ch).

Definition seen (v : list bool) (x : NodeId) : Prop := v !! N.to_nat (index x) = Some true.

(** Half-way: the stack holds unmarked live nodes once each; what is marked or
    waiting has a marked parent; a marked node's children are marked or waiting. *)
Record walking (v : list bool) (stack : list (NodeId * nat)) : Prop := {
  wk_length : length v = slot_count a;
  wk_depth : forall x d, (x, d) ∈ stack -> depth_of (get a) x d;
  wk_nodup : NoDup (map fst stack);
  wk_fresh : forall x d, (x, d) ∈ stack -> ~ seen v x;
  wk_parent : forall x n p, get a x = Some n -> parent n = Some p ->
    seen v x \/ x ∈ map fst stack -> seen v p;
  wk_children : forall x c, is_Some (get a x) -> seen v x -> c ∈ ch x -> seen v c \/ c ∈ map fst stack;
  wk_roots : forall x n, get a x = Some n -> parent n = None -> seen v x \/ x ∈ map fst stack
}.

Lemma seen_mark v x y :
  is_Some (get a x) -> is_Some (get a y) -> length v = slot_count a ->
  seen (<[N.to_nat (index x) := true]> v) y <-> y = x \/ seen v y.
Proof.
  intros [n En] [m Em] Hv. unfold seen. destruct (decide (index x = index y)) as [Hi|Hi].
  - assert (y = x) as -> by (symmetry; eapply live_index_inj; eauto).
    rewrite list_lookup_insert_eq by (rewrite Hv; by eapply live_bound). tauto.
  - rewrite list_lookup_insert_ne by lia. split; [by right|]. intros [->|?]; [done|done].
Qed.

Lemma linked_member p c : c ∈ ch p -> exists m, get a c = Some m /\ parent m = Some p.
Proof.
  intros Hc. destruct (chain_elem _ _ _ _ _ c (li_chain _ _ Hl p) Hc) as (u & w & E).
  destruct (get a c) as [m|]; [|done]. exists m. split; [done|]. by injection E.
Qed.

Lemma linked_children x n : get a x = Some n -> child_ids a x = ch x.
Proof.
  intros E. pose proof (li_edges _ _ Hl x n E) as Hed. injection Hed as Hfirst _.
  unfold child_ids. rewrite E. cbn [mbind option_bind]. rewrite Hfirst.
  pose proof (chain_nodup _ _ _ _ (li_chain _ _ Hl x)) as Hnd.
  assert (length (ch x) <= slot_count a)%nat as Hlen.
  { apply live_list_bound; [done..|]. intros c (m & -> & _)%linked_member. done. }
  eapply sibling_walk_ok; [apply (li_chain _ _ Hl x)|done].
Qed.

Lemma walking_step v x d stack n :
  walking v ((x, d) :: stack) -> get a x = Some n ->
  walking (<[N.to_nat (index x) := true]> v) (reverse (map (fun c => (c, S d)) (ch x)) ++ stack).
Proof.
  intros [W1 W2 W3 W4 W5 W6 W7] E. pose proof (W2 x d ltac:(by left)) as Hd.
  assert (forall y, y ∈ map fst (reverse (map (fun c => (c, S d)) (ch x)) ++ stack) <->
    y ∈ ch x \/ y ∈ map fst stack) as Hst.
  { intros y. rewrite map_app, elem_of_app. f_equiv. rewrite map_rev_fst. apply elem_of_reverse. }
  assert (forall y, is_Some (get a y) -> seen (<[N.to_nat (index x) := true]> v) y <-> y = x \/ seen v y) as Hseen.
  { intros y Hy. by apply seen_mark; [eexists|..]. }
  assert (~ seen v x) as Hx by (eapply W4; by left).
  simpl in W3. apply NoDup_cons in W3 as [Hxs W3].
  assert (forall c, c ∈ ch x -> ~ seen v c /\ c ∉ map fst stack) as Hnew.
  { intros c (m & Em & Hm)%linked_member. split; intros Hc; apply Hx; apply (W5 c m x Em Hm); [by left|].
    right. simpl. by right. }
  assert (forall y e, (y, e) ∈ stack -> is_Some (get a y)) as Hlive.
  { intros y e Hy. pose proof (W2 y e ltac:(by right)) as Hde. inversion Hde; by eexists. }
  split.
  - by rewrite length_insert.
  - intros y e. rewrite elem_of_app, elem_of_reverse. intros [(c & [= -> ->] & Hc)%list_elem_of_fmap|Hy].
    + destruct (linked_member _ _ Hc) as (m & Em & Hm). by econstructor.
    + apply W2. by right.
  - rewrite map_app, map_rev_fst. apply NoDup_app. split_and!; [|intros y; rewrite elem_of_reverse; intros Hy; exact (proj2 (Hnew y Hy))|done].
    apply nodup_reverse. eapply chain_nodup, (li_chain _ _ Hl).
  - intros y e. rewrite elem_of_app, elem_of_reverse. intros [(c & [= -> ->] & Hc)%list_elem_of_fmap|Hy].
    + destruct (linked_member _ _ Hc) as (m & Em & Hm). rewrite Hseen by (by eexists).
      intros [->|Hsc]; [|exact (proj1 (Hnew c Hc) Hsc)].
      pose proof (depth_unique _ _ _ _ Hd (depth_child _ _ _ _ _ Em Hm Hd)). lia.
    + rewrite Hseen by (by eapply Hlive). intros [->|Hsy]; [|apply (W4 y e); [by right|done]].
      apply Hxs. apply list_elem_of_fmap. by exists (x, e).
  - intros y m p Em Hm Hy. rewrite Hst in Hy. rewrite Hseen in Hy by (by eexists).
    assert (is_Some (get a p)) as Hp.
    { destruct (get a p) eqn:Ep; [by eexists|]. pose proof (li_child _ _ Hl y m p Em Hm) as Hin.
      rewrite (li_dead _ _ Hl p Ep) in Hin. by apply elem_of_nil in Hin. }
    rewrite Hseen by done. destruct Hy as [[->|Hy]|[Hy|Hy]].
    + right. apply (W5 x m p Em Hm). right. by left.
    + right. apply (W5 y m p Em Hm). by left.
    + left. destruct (linked_member _ _ Hy) as (m' & Em' & Hm'). congruence.
    + right. apply (W5 y m p Em Hm). right. by right.
  - intros y c Hy. rewrite Hst, (Hseen y Hy). intros Hsy Hc.
    destruct (linked_member _ _ Hc) as (m & Em & Hm). rewrite Hseen by (by eexists).
    destruct Hsy as [->|Hsy]; [auto|]. destruct (W6 y c Hy Hsy Hc) as [?|[->|?]%elem_of_cons]; auto.
  - intros y m Em Hm. rewrite Hst, Hseen by (by eexists).
    destruct (W7 y m Em Hm) as [?|[->|?]%elem_of_cons]; auto.
Qed.

Lemma downward_complete fuel v stack r :
  walking v stack -> downward fuel a v stack = Some r ->
  exists v', r = Ok v' /\ forall x, is_Some (get a x) -> seen v' x.
Proof.
  revert v stack. induction fuel as [|fuel IH]; intros v [|[x d] stack] Hw; simpl; try done.
  1, 2: intros [= <-]; exists v; split; [done|]; intros x [n E];
    destruct (li_depth _ _ Hl x n E) as (d & _ & Hd); clear n E; destruct Hw as [_ _ _ _ _ W6 W7];
    induction Hd as [x n E Hp|x n p d E Hp Hd IHd];
    [destruct (W7 x n E Hp) as [?|Hx]; [done|by apply elem_of_nil in Hx]|];
    destruct (W6 p x) as [?|Hx]; [inversion Hd; by eexists|done|by eapply (li_child _ _ Hl)|done|by apply elem_of_nil in Hx].
  pose proof (wk_depth _ _ Hw x d ltac:(by left)) as Hd.
  assert (exists n, get a x = Some n) as [n E] by (inversion Hd; eauto).
  destruct (li_depth _ _ Hl x n E) as (d' & Hle & Hd'). rewrite (depth_unique _ _ _ _ Hd Hd').
  destruct (MAX_DEPTH <? d')%nat eqn:Hm; [apply Nat.ltb_lt in Hm; lia|].
  pose proof (wk_fresh _ _ Hw x d ltac:(by left)) as Hx.
  destruct (v !! N.to_nat (index x)) as [[]|] eqn:Ev; [done| |].
  - apply IH. rewrite (linked_children x n E), <- (depth_unique _ _ _ _ Hd Hd'). by eapply walking_step.
  - apply lookup_ge_None in Ev. rewrite (wk_length _ _ Hw) in Ev. pose proof (live_bound a x n Hs E). lia.
Qed.

Lemma walking_start l :
  (forall x, x ∈ l <-> exists n, get a x = Some n /\ parent n = None) -> NoDup l ->
  walking (replicate (slot_count a) false) (reverse (map (fun x => (x, 0)) l)).
Proof.
  intros Hr Hn. assert (forall x, ~ seen (replicate (slot_count a) false) x) as Hno.
  { intros x Hx. unfold seen in Hx. apply lookup_replicate in Hx as [Hx _]. done. }
  assert (forall x d, (x, d) ∈ reverse (map (fun x => (x, 0)) l) ->
    d = 0 /\ exists n, get a x = Some n /\ parent n = None) as Hin.
  { intros x d. rewrite elem_of_reverse. intros (y & [= -> ->] & Hy)%list_elem_of_fmap. split; [done|]. by apply Hr. }
  split.
  - apply length_replicate.
  - intros x d [-> (n & E & Hp)]%Hin. by econstructor.
  - rewrite map_rev_fst. by apply nodup_reverse.
  - intros x d _. apply Hno.
  - intros x n p E Hp [Hx|Hx]; [by destruct (Hno x)|]. rewrite map_rev_fst, elem_of_reverse, Hr in Hx.
    destruct Hx as (m & Em & Hm). congruence.
  - intros x c _ Hx. by destruct (Hno x).
  - intros x n E Hp. right. rewrite map_rev_fst, elem_of_reverse, Hr. eauto.
Qed.

(** *** The links around each node *)
Lemma check_node_complete x : check_node a x = None.
Proof.
  unfold check_node. destruct (get a x) as [n|] eqn:E; [|done]. cbv zeta. rewrite (linked_children x n E).
  pose proof (li_edges _ _ Hl x n E) as Hed. injection Hed as Hf Hla. pose proof (li_chain _ _ Hl x) as Hc.
  rewrite !or_violation_None. split_and!.
  - unfold check_first. rewrite Hf. destruct (ch x) as [|c l]; [done|]. simpl.
    destruct (chain_lookup _ _ _ _ _ 0 c Hc eq_refl) as [u Hu]. rewrite !bool_decide_eq_true_2 by done.
    destruct (get a c) as [m|]; [|done]. injection Hu as _ Hv _. simpl. by rewrite Hv.
  - unfold check_last. rewrite Hla. destruct (last (ch x)) as [c|] eqn:Ec; [|apply last_None in Ec; by rewrite Ec].
    rewrite bool_decide_eq_true_2 by done. simpl. apply last_Some in Ec as [l Ec]. rewrite Ec in Hc.
    apply chain_app in Hc as [_ [Hc _]]. destruct (get a c) as [m|]; [|done]. injection Hc as _ _ Hv. simpl. by rewrite Hv.
  - by apply chain_check.
Qed.
End complete.

(** ** The whole check *)
Lemma handles_from k (l : list (Slot Q)) :
  let hs := omap (fun o => o) (imap (fun i => slot_handle (k + i)) l) in
  NoDup hs /\ forall x, x ∈ hs -> (k <= N.to_nat (index x))%nat.
Proof.
  revert k. induction l as [|s l IH]; intros k; [split; [constructor|by intros x ?%elem_of_nil]|].
  rewrite imap_cons. assert (imap ((fun i => slot_handle (k + i)) ∘ S) l = imap (fun i => slot_handle (S k + i)) l) as ->.
  { apply imap_ext. intros i t _. unfold compose. by rewrite Nat.add_succ_r. }
  destruct (IH (S k)) as [Hn Hb]. cbv zeta in *. cbn [omap list_omap]. rewrite Nat.add_0_r.
  assert (forall x, slot_handle k s = Some x -> N.to_nat (index x) = k) as Hx.
  { unfold slot_handle. intros x. destruct (slot_node s); [|done]. cbn [mbind option_bind].
    destruct (try_from _ _); [|done]. cbn [mbind option_bind]. intros [= <-]. simpl. lia. }
  destruct (slot_handle k s) as [x|] eqn:E; cbn.
  - specialize (Hx x eq_refl). split.
    + constructor; [|done]. intros Hin%Hb. lia.
    + intros y [->|Hy%Hb]%elem_of_cons; lia.
  - split; [done|]. intros y Hy%Hb. lia.
Qed.

Lemma live_handles_nodup a : NoDup (live_handles a).
Proof. apply (handles_from 0). Qed.

Lemma omap_length {A B} (f : A -> option B) l : (length (omap f l) <= length l)%nat.
Proof. induction l as [|x l IH]; [done|]. cbn. destruct (f x); cbn in *; lia. Qed.

Lemma roots_length a : slots_ok (slots a) -> (length (List.filter (is_root a) (live_handles a)) <= slot_count a)%nat.
Proof.
  intros Hs. etransitivity; [apply List.filter_length_le|]. unfold live_handles. etransitivity; [apply omap_length|].
  rewrite length_imap. by apply Nat.eq_le_incl, length_iter.
Qed.

Lemma unvisited_fresh k : unvisited (replicate k false) = k.
Proof. unfold unvisited. induction k as [|k IH]; simpl; congruence. Qed.

Lemma downward_length fuel a v stack v' : downward fuel a v stack = Some (Ok v') -> length v' = length v.
Proof.
  revert v stack. induction fuel as [|fuel IH]; intros v [|[id d] stack]; simpl; try done.
  1, 2: by intros [= <-].
  destruct (_ <? _)%nat; [done|]. destruct (v !! N.to_nat (index id)) as [[]|]; [done| |apply IH].
  intros E%IH. by rewrite length_insert in E.
Qed.

Lemma is_root_spec a x : is_root a x = true <-> forall n, get a x = Some n -> parent n = None.
Proof.
  unfold is_root. rewrite bool_decide_eq_true. destruct (get a x) as [m|]; simpl; [|done].
  split; [by intros ? ? [= <-]|by intros Hm; apply Hm].
Qed.

Lemma check_document_None a :
  check_document a = None <-> exists n, get a (document a) = Some n /\ parent n = None.
Proof.
  unfold check_document. destruct (get a (document a)) as [n|]; [|split; [done|by intros (n & E & _)]].
  destruct (parent n) eqn:E; split; try done; [by intros (m & [= <-] & E'); congruence|by exists n].
Qed.

Lemma validate_total a : slots_ok (slots a) -> is_Some (validate a).
Proof.
  intros Hs.   unfold validate. destruct (first_violation _ _) as [v|]; [eexists; done|].
  destruct (check_document a) as [v|]; [eexists; done|]. cbv zeta.
  destruct (downward_total (walk_fuel a) a (replicate (slot_count a) false)
    (reverse (map (fun id => (id, 0)) (List.filter (is_root a) (live_handles a))))) as [r ->]; [|eexists; done].
  rewrite unvisited_fresh, length_reverse, length_map. unfold walk_fuel. pose proof (roots_length a Hs). lia.
Qed.

Section accounted.
Context a (Ha : accounts a).

Lemma live_iff x : x ∈ live_handles a <-> is_Some (get a x).
Proof. apply live_handles_spec; [apply (ac_slots _ Ha)|]. unfold slot_count. rewrite <- length_iter by apply (ac_slots _ Ha). apply (ac_bound _ Ha). Qed.

Lemma roots_iff x :
  x ∈ List.filter (is_root a) (live_handles a) <-> exists n, get a x = Some n /\ parent n = None.
Proof.
  rewrite list_elem_of_In, List.filter_In, <- list_elem_of_In, live_iff, is_root_spec. split.
  - intros [[n E] Hn]. exists n. auto.
  - intros (n & E & Hp). split; [by eexists|]. by intros ? [= <-]%(eq_trans (eq_sym E)).
Qed.

Lemma validate_sound :
  validate a = Some (Ok tt) -> exists ch, linked (get a) ch.
Proof.
  unfold validate. destruct (first_violation (check_node a) _) as [|] eqn:Hn; [done|].
  destruct (check_document a); [done|]. cbv zeta.
  set (stack := reverse _). destruct (downward _ _ _ stack) as [[v|]|] eqn:Hw; try done. cbn [mbind option_bind result_bind].
  destruct (first_violation (check_reached a v) _) eqn:Hr; [done|]. intros _.
  rewrite first_violation_None in Hn, Hr.
  assert (forall y n, get a y = Some n -> chain (sib (get a)) y None (child_ids a y) None) as Hch.
  { intros y n E. eapply check_node_sound; [done|]. apply Hn, live_iff. by eexists. }
  assert (marked_ok a v) as Hv.
  { refine (downward_sound _ _ _ _ _ Hch _ _ Hw); [|by intros i [? _]%lookup_replicate].
    apply Forall_reverse, Forall_forall. intros e (x & -> & (n & E & Hp)%roots_iff)%list_elem_of_fmap.
    split; simpl; [by econstructor|]. exists n. split; [done|]. by left. }
  assert (forall x n, get a x = Some n -> exists d, entry_ok a (x, d) /\ (d <= MAX_DEPTH)%nat) as Hin.
  { intros x n E. pose proof (Hr x) as Hrx. rewrite live_iff, E in Hrx. specialize (Hrx ltac:(by eexists)).
    unfold check_reached in Hrx. case_bool_decide as Hf; [done|].
    pose proof (live_bound a x n (ac_slots _ Ha) E) as Hb.
    assert (length v = slot_count a) as Hlen by (by rewrite (downward_length _ _ _ _ _ Hw), length_replicate).
    destruct (v !! N.to_nat (index x)) as [[]|] eqn:Ev; [|done|apply lookup_ge_None in Ev; lia].
    destruct (Hv _ Ev) as (y & d & Hi & He & Hd). exists d.
    assert (y = x) as ->; [|done]. destruct He as [_ (m & Em & _)]. simpl in Em.
    eapply live_index_inj; [apply (ac_slots _ Ha)|done..|lia]. }
  exists (child_ids a). split.
  - intros x n E. eapply check_node_sound; [done|]. apply Hn, live_iff. by eexists.
  - intros x. destruct (get a x) as [n|] eqn:E; [by eapply Hch|].
    unfold child_ids. rewrite E. by destruct (slot_count a).
  - intros x n p E Hp. destruct (Hin x n E) as (d & [_ (m & Em & [Hm|(q & Hm & Hq)])] & _); simpl in *; congruence.
  - intros x E. unfold child_ids. rewrite E. by destruct (slot_count a).
  - intros x n E. destruct (Hin x n E) as (d & [Hd _] & Hle). by exists d.
Qed.

Lemma validate_complete ch :
  linked (get a) ch -> check_document a = None -> validate a = Some (Ok tt).
Proof.
  intros Hl Hd. pose proof (ac_slots _ Ha) as Hs. unfold validate. rewrite Hd.
  rewrite (proj2 (first_violation_None _ _)) by (intros x _; by eapply check_node_complete). cbv zeta.
  destruct (downward_total (walk_fuel a) a (replicate (slot_count a) false)
    (reverse (map (fun id => (id, 0)) (List.filter (is_root a) (live_handles a))))) as [r Er].
  { rewrite unvisited_fresh, length_reverse, length_map. unfold walk_fuel. pose proof (roots_length a Hs). lia. }
  destruct (downward_complete a ch Hs Hl _ _ _ _ (walking_start a ch _ roots_iff
    ltac:(apply NoDup_ListNoDup, List.NoDup_filter, NoDup_ListNoDup, live_handles_nodup)) Er) as (v & -> & Hv).
  rewrite Er. cbn [mbind option_bind result_bind].
  rewrite (proj2 (first_violation_None _ _)); [done|]. intros x Hx%live_iff. unfold check_reached.
  specialize (Hv x Hx). unfold seen in Hv. rewrite Hv. by rewrite bool_decide_eq_false_2.
Qed.
End accounted.
End validate.
