(* ===== verification/DomProps.v ===== *)
(** * What the document tree promises

    The theorems about px-dom, with a concrete use of each. *)
From stdpp Require Import sets relations.
From S2P Require Import Prelude Bytes DomNode DomArena DomTree DomOps DomAlloc DomRemove DomValidate DomInv DomSink DomParse.

Section lemmas.
Context {Q : Type} `{QualNames Q}.
Implicit Types (a : Arena Q) (id : NodeId) (ch : NodeId -> list NodeId) (n : Node Q).

Lemma depth_loop_ok fuel a k p d :
  depth_of (get a) p d -> (k + S d <= MAX_DEPTH)%nat -> (d < fuel)%nat ->
  depth_loop fuel a k (Some p) = Ok (k + S d)%nat.
Proof.
  intros Hd. revert fuel k. induction Hd as [p n E Hp|p n q d E Hp _ IH]; intros fuel k Hk Hf.
  - destruct fuel as [|fuel]; [lia|]. cbn [depth_loop].
    destruct (MAX_DEPTH <? S k)%nat eqn:Hm; [apply Nat.ltb_lt in Hm; lia|].
    rewrite (get_or_err_ok a p n E). cbn [mbind result_bind]. rewrite Hp.
    destruct fuel; simpl; f_equal; lia.
  - destruct fuel as [|fuel]; [lia|]. cbn [depth_loop].
    destruct (MAX_DEPTH <? S k)%nat eqn:Hm; [apply Nat.ltb_lt in Hm; lia|].
    rewrite (get_or_err_ok a p n E). cbn [mbind result_bind]. rewrite Hp.
    rewrite IH by lia. f_equal. lia.
Qed.

Lemma depth_ok a ch id n :
  forest (get a) ch -> get a id = Some n ->
  exists d, depth a id = Ok d /\ depth_of (get a) id d /\ (d <= MAX_DEPTH)%nat.
Proof.
  intros Hf E. destruct (fo_depth _ _ Hf id n E) as (d & Hle & Hd). exists d. split_and!; [|done..].
  unfold depth. rewrite (get_or_err_ok a id n E). cbn [mbind result_bind].
  inversion Hd as [? n' E' Hp|? n' p d' E' Hp Hd']; subst; assert (n' = n) as -> by congruence; rewrite Hp.
  - done.
  - rewrite (depth_loop_ok _ _ _ _ d') by (done || lia). done.
Qed.

Lemma child_ids_ok a ch id n :
  slots_ok (slots a) -> forest (get a) ch -> get a id = Some n -> child_ids a id = ch id.
Proof.
  intros Hs Hf E. pose proof (fo_edges _ _ Hf id n E) as Hed. injection Hed as Hfirst _.
  unfold child_ids. rewrite E. cbn [mbind option_bind]. rewrite Hfirst.
  apply (sibling_walk_ok _ _ id None); [apply (fo_chain _ _ Hf)|].
  apply live_list_bound; [done|apply (fo_nodup _ _ Hf)|].
  intros x (m & -> & _)%(forest_elem _ _ _ _ Hf). done.
Qed.
End lemmas.

(** ** Sequences of operations *)
Section ops.
Context {Q : Type} `{QualNames Q}.
Implicit Types (a : Arena Q) (id : NodeId).

Inductive op :=
| OpCreate (d : NodeData Q)
| OpDetach (id : NodeId)
| OpAppend (p c : NodeId)
| OpInsertBefore (s c : NodeId)
| OpReparent (from to : NodeId)
| OpRemove (id : NodeId)
| OpClone (id : NodeId)
| OpSetAttribute (id : NodeId) (name : Q) (value : list byte)
| OpRemoveAttribute (id : NodeId) (name : Q)
| OpAddAttributes (id : NodeId) (attrs : list (Attribute Q))
| OpNewRange (s e : BoundaryPoint)
| OpDropRange (r : RangeId).

Definition apply_op (o : op) a : Arena Q :=
  match o with
  | OpCreate d => (create d a).1
  | OpDetach id => (detach id a).1
  | OpAppend p c => (append_child p c a).1
  | OpInsertBefore s c => (insert_before s c a).1
  | OpReparent from to => (reparent_children from to a).1
  | OpRemove id => (remove_subtree id a).1
  | OpClone id => (clone_subtree id a).1
  | OpSetAttribute id name value => (set_attribute id name value a).1
  | OpRemoveAttribute id name => (remove_attribute id name a).1
  | OpAddAttributes id attrs => (add_attributes_if_missing id attrs a).1
  | OpNewRange s e => (new_range s e a).1
  | OpDropRange r => (drop_range r a).1
  end.

(** The contents given to a new template are a live root other than the document. *)
Definition contents_allowed a (d : NodeData Q) : bool :=
  match template_contents_of (Node_new d) with
  | None => true
  | Some t => negb (bool_decide (t = document a)) &&
      match get a t with Some n => bool_decide (parent n = None) | None => false end
  end.

Definition allowed a (o : op) : bool :=
  match o with
  | OpCreate d => contents_allowed a d
  | OpAppend _ c => nobodys_contents a c
  | OpInsertBefore s c => nobodys_contents a c && negb (bool_decide (s = c))
  | _ => true
  end.

Fixpoint allowed_run a (os : list op) : bool :=
  match os with [] => true | o :: os => allowed a o && allowed_run (apply_op o a) os end.

Definition run_ops (os : list op) a : Arena Q := foldl (fun a o => apply_op o a) a os.

Local Abbreviation no_anchor := (fun _ : NodeId => False).

Lemma ok_apply o a : arena_ok no_anchor a -> allowed a o = true -> arena_ok no_anchor (apply_op o a).
Proof.
  intros Ha Ho. pose proof (ok_slots _ _ Ha) as Hs. destruct o; simpl in Ho |- *.
  - destruct (create d a) as [a' [id|e]] eqn:E; [|by rewrite (create_refused _ _ _ _ _ Ha E)].
    eapply ok_create; [done| |done]. intros t Ht. unfold contents_allowed in Ho. rewrite Ht in Ho.
    apply andb_true_iff in Ho as [Hd%negb_true_iff%bool_decide_eq_false Hl]. split; [by intros [?|[]]|].
    left. destruct (get a t) as [n|]; [|done]. apply bool_decide_eq_true in Hl. eauto.
  - by apply ok_detach.
  - apply ok_append_child; [done|]. apply nobodys_loose; tauto.
  - apply andb_true_iff in Ho as [Hc Hne%negb_true_iff%bool_decide_eq_false].
    apply ok_insert_before; [done|apply nobodys_loose; tauto|done].
  - by apply ok_reparent_children.
  - apply ok_remove_subtree; [done|tauto].
  - by apply ok_clone_subtree.
  - by apply ok_set_attribute.
  - by apply ok_remove_attribute.
  - by apply ok_add_attributes.
  - by apply ok_new_range.
  - by apply ok_drop_range.
Qed.

Lemma ok_run_ops os a :
  arena_ok no_anchor a -> allowed_run a os = true -> arena_ok no_anchor (run_ops os a).
Proof.
  unfold run_ops. revert a. induction os as [|o os IH]; intros a Ha; [done|]. cbn [allowed_run foldl].
  intros [Ho Hos]%andb_true_iff. apply IH; [by apply ok_apply|done].
Qed.

Lemma evolves_apply o a : accounts a -> evolves a (apply_op o a).
Proof.
  intros Ha. destruct o; simpl.
  - by apply evolving_create.
  - by apply evolving_detach.
  - by apply evolving_append_child.
  - by apply evolving_insert_before.
  - by apply evolving_reparent_children.
  - by apply evolving_remove_subtree.
  - by apply evolving_clone_subtree.
  - by apply evolving_set_attribute.
  - by apply evolving_remove_attribute.
  - by apply evolving_add_attributes.
  - by apply evolving_new_range.
  - apply rtc_once, prim_write, drop_range_shape, Ha.
Qed.

Lemma evolves_ops os a : accounts a -> evolves a (run_ops os a).
Proof.
  unfold run_ops. revert a. induction os as [|o os IH]; intros a Ha; [apply rtc_refl|]. cbn [foldl].
  etrans; [by apply evolves_apply|]. apply IH.
  eapply evolves_accounts; [by apply evolves_apply|done].
Qed.
End ops.
Arguments op : clear implicits.

(** ** Attribute writes *)
Section attributes.
Context {Q : Type} `{QualNames Q}.
Implicit Types (a : Arena Q) (id : NodeId).

(** Set an attribute, or remove it. *)
Record attr_write := { aw_node : NodeId; aw_name : Q; aw_value : option (list byte) }.

Definition write_one (w : attr_write) a : Arena Q :=
  match aw_value w with
  | Some v => (set_attribute (aw_node w) (aw_name w) v a).1
  | None => (remove_attribute (aw_node w) (aw_name w) a).1
  end.

Definition attrs_of a id : option (list (Attribute Q)) := n ← get a id; node_attrs n.

(** The snapshot of an element holds the attributes; without one it has them still. *)
Definition remembered id (attrs : list (Attribute Q)) a : Prop :=
  match snapshot a id with Some s => snap_attrs s = attrs | None => attrs_of a id = Some attrs end.

Definition remembers id (attrs : list (Attribute Q)) a : Prop :=
  slots_ok (slots a) /\ recording_snapshots a = true /\ remembered id attrs a.

Lemma snapshot_note id x (name : Q) (l : list (NodeId * ElementSnapshot Q)) :
  find_snapshot id (note_first x name l) =
  (if decide (x = id) then note_change name else fun s => s) <$> find_snapshot id l.
Proof.
  induction l as [|[y s] l IH]; simpl; [done|].
  destruct (decide (y = x)) as [->|Hyx]; simpl.
  - destruct (decide (x = id)) as [->|Hx]; [done|]. by destruct (find_snapshot id l).
  - destruct (decide (y = id)) as [->|Hy]; [|done]. rewrite decide_False; [done|congruence].
Qed.

Lemma note_change_attrs (name : Q) s : snap_attrs (note_change name s) = snap_attrs s.
Proof. unfold note_change. by repeat case_match. Qed.

Lemma find_snapshot_app id (l k : list (NodeId * ElementSnapshot Q)) :
  find_snapshot id (l ++ k) = match find_snapshot id l with Some s => Some s | None => find_snapshot id k end.
Proof. induction l as [|[y s] l IH]; simpl; [done|]. by case_decide. Qed.

(** Recording a change keeps what was remembered, and remembers the element changed. *)
Lemma remembers_change id attrs x (name : Q) a :
  remembers id attrs a ->
  remembers id attrs (snapshot_attribute_change x name a) /\
  get (snapshot_attribute_change x name a) = get a /\
  (x = id -> is_Some (snapshot (snapshot_attribute_change x name a) id)).
Proof.
  intros (Hs & Hrec & Hm). unfold remembered in Hm. unfold snapshot_attribute_change. rewrite Hrec. simpl.
  destruct (snapshot a x) as [sx|] eqn:Ex.
  - split_and!; [|done|].
    + split; [done|]. split; [done|]. unfold remembered, snapshot in *. simpl. rewrite snapshot_note.
      destruct (find_snapshot id (snapshots a)); [|done]. simpl.
      case_decide; [by rewrite note_change_attrs|done].
    + intros ->. unfold snapshot in *. simpl. rewrite snapshot_note, Ex. done.
  - destruct (n ← get a x; node_attrs n) as [attrs'|] eqn:Ea; simpl.
    + split_and!; [|done|].
      * split; [done|]. split; [done|]. unfold remembered, snapshot in *. simpl. rewrite find_snapshot_app.
        destruct (find_snapshot id (snapshots a)) as [s|] eqn:Ei; [done|]. simpl. case_decide as Hx; [|done].
        subst x. rewrite note_change_attrs. unfold attrs_of in Hm. simpl. congruence.
      * intros ->. unfold snapshot in *. simpl. rewrite find_snapshot_app, Ex. simpl.
        by rewrite decide_True.
    + split_and!; [done|done|]. intros ->. rewrite Ex in Hm. unfold attrs_of in Hm. congruence.
Qed.

(** A write to the data of a node that is recorded, or not the one watched. *)
Lemma remembers_modify id attrs x d a :
  remembers id attrs a -> (x = id -> is_Some (snapshot a id)) ->
  remembers id attrs (modify x (set_data d) a).1.
Proof.
  intros (Hs & Hrec & Hm) Hx. unfold remembered in Hm. unfold modify. destruct (get a x) as [n|] eqn:E; [|done]. simpl.
  split; [by apply slots_update_ok|]. split; [done|]. unfold remembered.
  change (snapshot (set_node a x (set_data d n)) id) with (snapshot a id).
  destruct (snapshot a id) as [s|] eqn:Es; [done|]. unfold attrs_of. erewrite get_set_node by done.
  rewrite decide_False; [done|]. intros ->. by destruct (Hx eq_refl).
Qed.

Lemma remembers_write id attrs w a : remembers id attrs a -> remembers id attrs (write_one w a).
Proof.
  intros Hr. destruct (remembers_change id attrs (aw_node w) (aw_name w) a Hr) as (Hr1 & _ & Hx).
  unfold write_one. destruct (aw_value w) as [v|].
  all: unfold set_attribute, remove_attribute, updates; unfold mbind, tree_bind, reads.
  all: set (b := snapshot_attribute_change _ _ a) in *.
  all: destruct (element_parts (aw_node w) b) as [[[[en l] t] st]|e]; [|done].
  - by apply remembers_modify.
  - cbv zeta. pose proof (remembers_modify id attrs (aw_node w)
      (Element en (List.filter (fun x => negb (bool_decide (attr_name x = aw_name w))) l) t st) b Hr1 Hx) as Hm.
    destruct (modify _ _ b) as [b' [[]|e]]; done.
Qed.

Lemma remembers_writes id attrs ws a :
  remembers id attrs a -> remembers id attrs (foldl (fun a w => write_one w a) a ws).
Proof.
  revert a. induction ws as [|w ws IH]; intros a Hr; [done|]. cbn [foldl]. by apply IH, remembers_write.
Qed.
End attributes.
Arguments attr_write : clear implicits.

(** ** A small document *)
Module Sample.
#[export] Instance plain_names : QualNames (list byte) :=
  {| qual_eq := _; qual_ns := fun _ => []; qual_local := fun q => q |}.

Definition h (i : N) : NodeId := NodeId_new i GEN_MIN.
Definition el (name : string) : NodeData (list byte) := Element (lit name) [] None false.

(** [doc > html > (head, body > text)]: handles 0 to 4. *)
Definition build : list (op (list byte)) :=
  [OpCreate (el "html"); OpAppend (h 0) (h 1); OpCreate (el "head"); OpAppend (h 1) (h 2);
   OpCreate (el "body"); OpAppend (h 1) (h 3); OpCreate (Text (lit "hi")); OpAppend (h 3) (h 4)].

Definition page : Arena (list byte) := run_ops build Arena_new.

Lemma page_ok : arena_ok (fun _ => False) page.
Proof. apply ok_run_ops; [apply ok_Arena_new|by vm_compute]. Qed.

Lemma resolves (a : Arena (list byte)) id : contains a id = true -> exists n, get a id = Some n.
Proof. unfold contains. intros Hc. apply bool_decide_eq_true in Hc as [n E]. by exists n. Qed.

Lemma page_forest : exists ch, forest (get page) ch.
Proof. apply (ok_forest _ _ page_ok). Qed.
End Sample.

(** ** The tree *)
Section tree.
Context {Q : Type} `{QualNames Q}.
Implicit Types (a : Arena Q) (id : NodeId) (ch : NodeId -> list NodeId) (n : Node Q).

(** C2: Every allowed sequence of tree operations keeps the document tree intact, whether
    the operations succeed or are refused: parent, child and sibling links agree, there
    is no cycle, nothing is deeper than the limit, only containers have children, the
    document is a live root, and the slots are all accounted for.  Allowed are the sequences
    that give new templates live roots as contents, do not place such contents in a tree
    and insert no node before itself; calls outside them break the tree
    ([insert_before_itself_makes_a_ring], [removing_a_template_leaves_a_dead_child]).
    The contents of a template are not in the tree, and nothing is said of them here: the
    removal of a copy frees those of its original
    ([removing_a_clone_frees_the_original_contents]). *)
Theorem arena_stays_a_tree (os : list (op Q)) :
  allowed_run Arena_new os = true ->
  let a := run_ops os Arena_new in
  (exists ch, forest (get a) ch) /\
  (exists n, get a (document a) = Some n /\ parent n = None) /\
  accounts a /\
  validate a = Some (Ok tt).
Proof.
  intros Ho a. pose proof (ok_run_ops os Arena_new ok_Arena_new Ho) as Ha.
  pose proof (ok_document _ _ Ha) as Hd. destruct (ok_forest _ _ Ha) as [ch Hf].
  split_and!; [by exists ch|exact Hd|apply (ok_accounts _ _ Ha)|].
  apply (validate_complete a (ok_accounts _ _ Ha) ch (forest_linked _ _ Hf)), check_document_None, Hd.
Qed.

(** The check of a whole arena always ends, and accepts exactly the arenas
    whose links form trees: the child lists are linked both ways and name their
    parent, every node is reachable from a root within the depth limit, and the
    document is a live root. *)
Theorem validate_decides a :
  accounts a ->
  is_Some (validate a) /\
  (validate a = Some (Ok tt) <->
    (exists ch, linked (get a) ch) /\ exists n, get a (document a) = Some n /\ parent n = None).
Proof.
  intros Ha. split; [apply validate_total, (ac_slots _ Ha)|]. split.
  - intros Hv. split; [by apply validate_sound|]. apply check_document_None. revert Hv. unfold validate.
    destruct (first_violation _ _); [done|]. by destruct (check_document a).
  - intros [[ch Hl] Hd]. by apply (validate_complete a Ha ch), check_document_None.
Qed.

(** [append_child] moves the child, with its subtree, to the end of the
    parent's list, touching no other list and no node's data; when its check
    refuses, the arena is left exactly as it was. *)
Theorem append_child_correct a ch p c :
  slots_ok (slots a) -> forest (get a) ch ->
  match check_insertable a p c with
  | Ok _ => exists a', append_child p c a = (a', Ok tt) /\ inserted a (append_in p c ch) a'
  | Err e => append_child p c a = (a, Err e)
  end.
Proof.
  intros Hs Hf. destruct (check_insertable a p c) as [[]|e] eqn:E.
  - by apply append_child_spec.
  - by apply check_insertable_refuses.
Qed.

(** [insert_before] puts the node directly in front of the sibling in its
    parent's list, touching no other list and no data; a refusal changes nothing. *)
Theorem insert_before_correct a ch s c :
  slots_ok (slots a) -> forest (get a) ch -> s <> c ->
  match n ← get a s; parent n with
  | None => insert_before s c a = (a, Err NoSuchNode)
  | Some p =>
      match check_insertable a p c with
      | Ok _ => exists a', insert_before s c a = (a', Ok tt) /\ inserted a (insert_in p s c ch) a'
      | Err e => insert_before s c a = (a, Err e)
      end
  end.
Proof.
  intros Hs Hf Hne. pose proof (insert_before_refuses a s c) as Hr.
  destruct (get a s) as [n|] eqn:En; simpl; [|done]. destruct (parent n) as [p|] eqn:Hp; [|done].
  destruct (check_insertable a p c) as [[]|e] eqn:E; [by eapply insert_before_spec|by apply Hr].
Qed.

(** A node is only placed where it may be: under a live container that is not
    below it, with the whole moved subtree within the depth limit, and never the
    document. *)
Theorem insertion_is_checked a ch p c :
  forest (get a) ch -> check_insertable a p c = Ok tt ->
  (exists np, get a p = Some np /\ can_have_children np = true) /\
  c <> document a /\ (forall r, ~ below (get a) c p r) /\
  exists d, depth_of (get a) p d /\ forall x r, below (get a) c x r -> (S d + r <= MAX_DEPTH)%nat.
Proof. intros Hf E. by destruct (check_insertable_spec a ch p c Hf E). Qed.

(** [detach] takes a node out of its parent's list and makes it a root; data
    and every other parent stay. *)
Theorem detach_correct a ch id :
  slots_ok (slots a) -> forest (get a) ch ->
  match get a id with
  | None => detach id a = (a, Err NoSuchNode)
  | Some _ => exists a', detach id a = (a', Ok tt) /\ detached a id ch a'
  end.
Proof.
  intros Hs Hf. destruct (get a id) as [n|] eqn:E; [by eapply detach_spec|by apply detach_refuses].
Qed.

(** [remove_subtree] frees exactly what the node owns, its subtree and the
    contents of the templates in it, and reports how many nodes that was; every
    other node keeps its data and its parent, and the freed handles are dead. *)
Theorem remove_subtree_correct a ch id n :
  arena_ok (fun _ => False) a -> forest (get a) ch -> get a id = Some n -> id <> document a ->
  exists a' freed, remove_subtree id a = (a', Ok freed) /\ removed a ch id a' freed /\
    arena_ok (fun _ => False) a' /\
    forall x, is_Some (get a x) -> owned (get a) id x -> dead a' x.
Proof.
  intros Ha Hf E Hd. pose proof (ok_accounts _ _ Ha) as Hac.
  destruct (remove_subtree_spec a ch id n Hac Hf (ok_templates_apart _ a Ha) E Hd) as (a' & freed & Eq & Hr).
  pose proof (ok_remove_subtree _ a id Ha ltac:(tauto)) as Ha'.
  pose proof (evolving_remove_subtree id a Hac) as He. rewrite Eq in Ha', He. simpl in *.
  exists a', freed. split_and!; [done..|]. intros x Hl Ho.
  destruct (live_evolves a a' x Hac He Hl) as [[m Em]|?]; [|done].
  pose proof (rm_gone _ _ _ _ _ Hr x Ho). congruence.
Qed.

(** C35: A stale handle stays stale: once the handle of a live node stops
    resolving, no sequence of operations makes it resolve again, and no creation
    hands it out again, whatever slots are reused. *)
Theorem stale_handles_stay_stale (before after : list (op Q)) a id d a2 id2 :
  accounts a -> is_Some (get a id) ->
  get (run_ops before a) id = None ->
  let a1 := run_ops after (run_ops before a) in
  get a1 id = None /\ (create d a1 = (a2, Ok id2) -> id2 <> id).
Proof.
  intros Ha Hl Hn a1. pose proof (evolves_ops before a Ha) as He.
  pose proof (evolves_accounts _ _ He Ha) as Hb.
  destruct (live_evolves _ _ id Ha He Hl) as [[m Em]|Hd]; [congruence|].
  pose proof (evolves_ops after _ Hb) as He1. pose proof (dead_evolves _ _ id Hb He1 Hd) as Hd1.
  pose proof (evolves_accounts _ _ He1 Hb) as Ha1. split; [by apply dead_get; [apply Ha1|]|].
  intros Ec ->. pose proof (create_cases a1 d Ha1) as Hc. rewrite Ec in Hc.
  by destruct (dead_created _ _ _ _ id Ha1 Hc Hd1).
Qed.

(** [create] returns a handle that resolved to nothing, now resolves to the
    new unlinked node, and disturbs no other handle; it fails only when every
    slot index is in use. *)
Theorem create_correct a d :
  accounts a ->
  match create d a with
  | (a', Ok id) => get a id = None /\ live a' = S (live a) /\
      forall x, get a' x = if decide (x = id) then Some (Node_new d) else get a x
  | (a', Err e) => a' = a /\ e = Exhausted /\ free a = [] /\ (U32_MAX <= Z.of_nat (slot_count a))%Z
  end.
Proof.
  intros Ha. pose proof (create_cases a d Ha) as Hc. destruct (create d a) as [a' [id|e]]; simpl in Hc.
  - pose proof (fun x => get_created a d a' id x Ha Hc) as Hg.
    split; [apply (Hg id)|]. split; [by inversion Hc; subst|]. intros x. apply Hg.
  - by inversion Hc.
Qed.

(** The walks agree with the tree: [depth] is the number of ancestors and at
    most the limit, [children] and [child_ids] are the child list. *)
Theorem walks_agree a ch id n :
  slots_ok (slots a) -> forest (get a) ch -> get a id = Some n ->
  (exists d, depth a id = Ok d /\ depth_of (get a) id d /\ (d <= MAX_DEPTH)%nat) /\
  children a id = Some (ch id) /\ child_ids a id = ch id.
Proof.
  intros Hs Hf E. split_and!; [by eapply depth_ok|by eapply children_spec|by eapply child_ids_ok].
Qed.
End tree.

(** ** The parser *)
Section parser.
Context {Q M : Type} `{QualNames Q} (NoQuirks : M).

(** C36: Whatever calls the tree builder makes, in whatever order and with
    whatever handles, short of placing a template's contents or the stand-in for
    refused nodes, or a node before itself, the parsed arena is a tree no deeper
    than the limit whose document is a live root, and the stand-in is a root
    outside it. *)
Theorem parse_builds_a_tree (cs : list (call (Q := Q) (M := M))) :
  polite_run (Sink_new NoQuirks) cs = true ->
  let dom := finish (run cs (Sink_new NoQuirks)) in
  let a := dom_arena dom in
  let void := sk_void (Sink_new (Q := Q) NoQuirks) in
  (exists ch, forest (get a) ch) /\
  (exists n, get a (document a) = Some n /\ parent n = None) /\
  (exists n, get a void = Some n /\ parent n = None).
Proof.
  intros Hp dom a void. pose proof (ok_run cs _ (ok_Sink_new NoQuirks) Hp) as [Ha _].
  assert (sk_void (run cs (Sink_new NoQuirks)) = void) as Hv.
  { apply void_run. }
  split_and!; [apply (ok_forest _ _ Ha)|apply (ok_document _ _ Ha)|].
  apply (ok_anchors _ _ Ha). right. by rewrite Hv.
Qed.
End parser.

(** The first recorded state wins.  While snapshots are recorded, no
    sequence of attribute writes, on whatever elements, changes what was
    remembered of an element: its snapshot holds the attributes it had before the
    first of them, and an element without a snapshot still has those attributes. *)
Theorem snapshots_hold_the_prior_state {Q} `{QualNames Q} (a : Arena Q) id attrs ws :
  slots_ok (slots a) -> recording_snapshots a = true -> snapshots a = [] ->
  attrs_of a id = Some attrs ->
  remembered id attrs (foldl (fun a w => write_one w a) a ws).
Proof.
  intros Hs Hrec Hn Ha. apply (remembers_writes id attrs ws a). split_and!; [done|done|].
  unfold remembered, snapshot. by rewrite Hn.
Qed.

(** The parser is fed the input in order, in chunks that end between
    characters, of at most 8 KiB and, but for the last, within four bytes of it,
    each only while the tree has refused fewer than eight pieces of content; the
    parse is marked abandoned exactly when some input was left, and input is left
    only when eight pieces were refused. *)
Theorem feed_is_bounded {Q M P} (process : P -> list byte -> P) (fed : P -> nat)
    (parser_finish : P -> Dom Q M) (p : P) (html : list byte) :
  char_runs 0 html = true ->
  exists p' chunks left,
    feeding process fed p html p' chunks left /\
    html = concat chunks ++ left /\ p' = foldl process p chunks /\
    dom_abandoned (feed process fed parser_finish p html) = negb (bool_decide (left = [])) /\
    dom_arena (feed process fed parser_finish p html) = dom_arena (parser_finish p') /\
    (left <> [] -> (MAX_REFUSALS_BEFORE_ABANDONING <= fed p')%nat).
Proof.
  intros Hc. destruct (feed_loop_spec process fed (length html) p html Hc ltac:(done))
    as (p' & chunks & left & Hf & E). exists p', chunks, left.
  destruct (feeding_concat _ _ _ _ _ _ _ Hf). unfold feed. rewrite E.
  split_and!; try done. by eapply feeding_abandoned.
Qed.

(** ** The theorems at work *)
Module Uses.
Import Sample.

Lemma arena_stays_a_tree_witness :
  allowed_run Arena_new build = true /\ exists ch, forest (get page) ch.
Proof.
  assert (allowed_run Arena_new build = true) as Hb by (by vm_compute). split; [done|].
  destruct (arena_stays_a_tree build Hb) as (Hf & _). exact Hf.
Defined.

Lemma validate_decides_witness :
  accounts page /\ is_Some (validate page) /\ exists ch, linked (get page) ch.
Proof.
  pose proof (ok_accounts _ _ page_ok) as Ha. split; [exact Ha|].
  destruct (validate_decides page Ha) as [Hs [Hv _]]. split; [exact Hs|].
  assert (validate page = Some (Ok tt)) as E by (vm_compute; reflexivity). exact (proj1 (Hv E)).
Defined.

Lemma append_child_correct_witness :
  exists ch a', append_child (h 3) (h 2) page = (a', Ok tt) /\ inserted page (append_in (h 3) (h 2) ch) a'.
Proof.
  destruct page_forest as [ch Hf]. exists ch.
  pose proof (append_child_correct page ch (h 3) (h 2) (ok_slots _ _ page_ok) Hf) as L.
  assert (check_insertable page (h 3) (h 2) = Ok tt) as E by (by vm_compute). by rewrite E in L.
Defined.

Lemma insert_before_correct_witness :
  exists ch a', insert_before (h 2) (h 3) page = (a', Ok tt) /\ inserted page (insert_in (h 1) (h 2) (h 3) ch) a'.
Proof.
  destruct page_forest as [ch Hf]. exists ch.
  pose proof (insert_before_correct page ch (h 2) (h 3) (ok_slots _ _ page_ok) Hf ltac:(done)) as L.
  assert ((n ← get page (h 2); parent n) = Some (h 1)) as E1 by (by vm_compute). rewrite E1 in L.
  assert (check_insertable page (h 1) (h 3) = Ok tt) as E by (by vm_compute). by rewrite E in L.
Defined.

Lemma insertion_is_checked_witness : h 2 <> document page.
Proof.
  destruct page_forest as [ch Hf]. assert (check_insertable page (h 3) (h 2) = Ok tt) as E by (by vm_compute).
  apply (insertion_is_checked page ch (h 3) (h 2) Hf E).
Defined.

Lemma detach_correct_witness :
  exists ch a', detach (h 3) page = (a', Ok tt) /\ detached page (h 3) ch a'.
Proof.
  destruct page_forest as [ch Hf]. exists ch.
  pose proof (detach_correct page ch (h 3) (ok_slots _ _ page_ok) Hf) as L.
  destruct (resolves page (h 3)) as [n E]; [by vm_compute|]. by rewrite E in L.
Defined.

Lemma remove_subtree_correct_witness :
  exists ch a', remove_subtree (h 3) page = (a', Ok 2%nat) /\ removed page ch (h 3) a' 2.
Proof.
  destruct page_forest as [ch Hf]. destruct (resolves page (h 3)) as [n E]; [by vm_compute|].
  assert (h 3 <> document page) as Hd by (by vm_compute).
  assert ((remove_subtree (h 3) page).2 = Ok 2%nat) as E2 by (by vm_compute).
  destruct (remove_subtree_correct page ch (h 3) n page_ok Hf E Hd) as (a' & freed & Eq & Hr & _).
  exists ch, a'. rewrite Eq in E2. cbn [snd] in E2. injection E2 as ->. exact (conj Eq Hr).
Defined.

Lemma stale_handles_stay_stale_witness :
  get (run_ops [OpCreate (el "p")] (run_ops [OpRemove (h 3)] page)) (h 3) = None.
Proof.
  destruct (resolves page (h 3)) as [n E]; [by vm_compute|].
  assert (get (run_ops [OpRemove (h 3)] page) (h 3) = None) as Hn by (by vm_compute).
  destruct (stale_handles_stay_stale [OpRemove (h 3)] [OpCreate (el "p")] page (h 3) (el "p") page (h 3)
    (ok_accounts _ _ page_ok) (ex_intro _ n E) Hn) as [Hs _]. exact Hs.
Defined.

Lemma create_correct_witness : get page (h 5) = None /\ (create (el "p") page).2 = Ok (h 5).
Proof.
  pose proof (create_correct page (el "p") (ok_accounts _ _ page_ok)) as L.
  assert ((create (el "p") page).2 = Ok (h 5)) as E by (by vm_compute). revert L E.
  destruct (create (el "p") page) as [a' r]. cbn [snd]. intros L ->. split; [exact (proj1 L)|reflexivity].
Defined.

Lemma walks_agree_witness : exists ch, forest (get page) ch /\ children page (h 1) = Some (ch (h 1)).
Proof.
  destruct page_forest as [ch Hf]. exists ch. split; [done|].
  destruct (resolves page (h 1)) as [n E]; [by vm_compute|].
  apply (walks_agree page ch (h 1) n (ok_slots _ _ page_ok) Hf E).
Defined.

(** A page with a select whose option is copied into its selectedcontent, the
    text of the option merged from two pieces, and a template. *)
Definition calls : list (call (Q := list byte) (M := nat)) :=
  [AppendDoctype (lit "html") [] []; CreateElement (lit "html") [] false; Append (h 0) (AppendNode (h 3));
   CreateElement (lit "select") [] false; Append (h 3) (AppendNode (h 4));
   CreateElement (lit "selectedcontent") [] false; Append (h 4) (AppendNode (h 5));
   CreateElement (lit "option") [] false; Append (h 4) (AppendNode (h 6));
   Append (h 6) (AppendText (lit "on")); Append (h 6) (AppendText (lit "e"));
   MaybeCloneOption (h 6); CreateElement (lit "template") [] true;
   AppendBeforeSibling (h 4) (AppendNode (h 10)); RemoveFromParent (h 6)].

Lemma parse_builds_a_tree_witness :
  polite_run (Sink_new 0%nat) calls = true /\
  exists ch, forest (get (dom_arena (finish (run calls (Sink_new 0%nat))))) ch.
Proof.
  assert (polite_run (Sink_new 0%nat) calls = true) as Hc by (by vm_compute). split; [done|].
  destruct (parse_builds_a_tree 0%nat calls Hc) as (Hf & _). exact Hf.
Defined.

Lemma record_slots (a : Arena (list byte)) : slots_ok (slots a) -> slots_ok (slots (record_snapshots true a)).
Proof. done. Qed.

Lemma record_on (a : Arena (list byte)) : recording_snapshots (record_snapshots true a) = true.
Proof. done. Qed.

Definition class_writes : list (attr_write (list byte)) :=
  [{| aw_node := h 3; aw_name := lit "class"; aw_value := Some (lit "x") |};
   {| aw_node := h 3; aw_name := lit "class"; aw_value := None |}].

Lemma snapshots_hold_the_prior_state_witness :
  let a' := foldl (fun a w => write_one w a) (record_snapshots true page) class_writes in
  has_snapshot a' (h 3) = true /\
  remembered (h 3) [] a'.
Proof.
  assert (snapshots (record_snapshots true page) = []) as Hn by (vm_compute; reflexivity).
  assert (attrs_of (record_snapshots true page) (h 3) = Some []) as He by (vm_compute; reflexivity).
  split; [vm_compute; reflexivity|].
  exact (snapshots_hold_the_prior_state (record_snapshots true page) (h 3) [] class_writes
    (record_slots page (ok_slots _ _ page_ok)) (record_on page) Hn He).
Defined.

Lemma feed_is_bounded_witness :
  exists p' chunks left,
    feeding (fun (p : nat) (c : list byte) => (p + length c)%nat) (fun _ => 0%nat) 0%nat (lit "<p>hi") p' chunks left.
Proof.
  destruct (feed_is_bounded (Q := list byte) (M := nat) (fun (p : nat) (c : list byte) => (p + length c)%nat)
    (fun _ => 0%nat) (fun _ => finish (Sink_new 0%nat)) 0%nat (lit "<p>hi")) as (p' & chunks & left & Hf & _).
  - by vm_compute.
  - by exists p', chunks, left.
Defined.
End Uses.

(** ** Where the tree can be broken *)
Module Gaps.
Import Sample.

(** [insert_before] accepts a node as its own sibling.  The check passes, the
    node is taken out and linked to itself, and the walk over the parent's
    children no longer ends where it should: the public operation builds a sibling
    ring. *)
Theorem insert_before_itself_makes_a_ring :
  let '(a, r) := insert_before (h 2) (h 2) page in
  r = Ok tt /\ (n ← get a (h 2); next_sibling n) = Some (h 2) /\ children a (h 1) = None.
Proof. by vm_compute. Qed.

(** [doc > template], the contents being a fragment: handles 2 and 1. *)
Definition with_template : Arena (list byte) :=
  run_ops [OpCreate Fragment; OpCreate (Element (lit "template") [] (Some (h 1)) false);
    OpAppend (h 0) (h 2)] Arena_new.

(** A copy of a template shares its contents: [clone_subtree] copies the
    handle, so removing the copy frees the contents the original still names. *)
Theorem removing_a_clone_frees_the_original_contents :
  let '(a, r) := clone_subtree (h 2) with_template in
  r = Ok (h 3) /\ contains with_template (h 1) = true /\
  let '(a, freed) := remove_subtree (h 3) a in
  freed = Ok 2%nat /\ (n ← get a (h 2); template_contents_of n) = Some (h 1) /\ contains a (h 1) = false.
Proof. by vm_compute. Qed.

(** Contents placed in the tree are freed with their template without being
    detached: the parent that listed them then lists a dead handle. *)
Theorem removing_a_template_leaves_a_dead_child :
  let a := run_ops [OpAppend (h 0) (h 1); OpRemove (h 2)] with_template in
  (n ← get a (h 0); last_child n) = Some (h 1) /\ contains a (h 1) = false /\ children a (h 0) = None.
Proof. by vm_compute. Qed.
End Gaps.
