(* ===== verification/BlockGlob.v ===== *)
(** * Patterns of filter rules (px-block/src/glob.rs)

    Compiling a pattern, matching it without backtracking, and the tokens under
    which it is indexed.  The meaning of a pattern is a relation; the matcher
    decides it, normalising keeps it, and a URL a pattern matches has each of the
    pattern's tokens. *)
From Stdlib Require Import Sorting.Sorted.
From S2P Require Import Prelude Bytes OrdMap Text Chars WebUrl WebCanon WebParse.
Local Open Scope Z_scope.

Definition MAX_PATTERN_BYTES : Z := 512.
Definition MIN_TOKEN_BYTES : nat := 2.
Definition MAX_TOKEN_BYTES : nat := 64.

Inductive Elem := Lit (b : byte) | Sep | Star.
#[export] Instance elem_eq_dec : EqDecision Elem.
Proof. solve_decision. Defined.
Inductive StartAnchor := Anywhere | Start | HostStart.
#[export] Instance start_anchor_eq_dec : EqDecision StartAnchor.
Proof. solve_decision. Defined.
Inductive PatternError := TooLong | InvalidCharacter.
Record Pattern := mkPattern { elems : list Elem; start : StartAnchor; end_ : bool }.

Definition is_separator (b : byte) : bool :=
  in_range 0 0x24 b || in_range 0x26 0x2c b || in_range 0x2f 0x2f b || in_range 0x3a 0x40 b || in_range 0x5b 0x5e b ||
  in_range 0x60 0x60 b || in_range 0x7b 0x7f b.
Definition is_token_byte (b : byte) : bool := Url.is_alphabetic b || is_digit b || bool_decide (b = "%"%byte).
Definition is_star (e : Elem) : bool := match e with Star => true | _ => false end.
Definition is_lit (e : Elem) : bool := match e with Lit _ => true | _ => false end.
Definition ends_in_star (l : list Elem) : bool := match last l with Some e => is_star e | None => false end.
Definition starts_in_star (l : list Elem) : bool := match l with e :: _ => is_star e | [] => false end.

(** ** Compiling *)
Fixpoint collapse (out l : list Elem) : list Elem :=
  match l with
  | [] => out
  | e :: l => if is_star e && ends_in_star out then collapse out l else collapse (out ++ [e]) l
  end.

Definition new (elems : list Elem) (start : StartAnchor) (end_ : bool) : Pattern :=
  let out := collapse [] elems in
  let '(out, start) := if starts_in_star out && negb (bool_decide (start = HostStart)) then (tail out, Anywhere) else (out, start) in
  let '(out, end_) := if ends_in_star out then (removelast out, false) else (out, end_) in
  mkPattern out start end_.

Definition PIPE : byte := "|"%byte.

Fixpoint compile (match_case : bool) (body : list byte) : result PatternError (list Elem) :=
  match body with
  | [] => Ok []
  | b :: body =>
      if (b2z b <=? 0x20) || bool_decide (b = x7f) then Err InvalidCharacter
      else
        l ← compile match_case body;
        Ok ((if bool_decide (b = "*"%byte) then Star else if bool_decide (b = "^"%byte) then Sep
             else if match_case then Lit b else Lit (ascii_lower_byte b)) :: l)
  end.

Definition from_text (text : list byte) (match_case : bool) : result PatternError Pattern :=
  let '(start, body) :=
    match strip_prefix [PIPE; PIPE] text with
    | Some rest => (HostStart, rest)
    | None => match strip_prefix [PIPE] text with Some rest => (Start, rest) | None => (Anywhere, text) end
    end in
  let '(end_, body) :=
    match strip_suffix [PIPE] body with Some rest => if bool_decide (rest = []) then (false, body) else (true, rest) | None => (false, body) end in
  if MAX_PATTERN_BYTES <? len body then Err TooLong
  else l ← compile match_case body; Ok (new l start end_).

Definition has_literal (p : Pattern) : bool := existsb is_lit (elems p).

(** ** Matching *)
Fixpoint match_at (seg : list Elem) (text : list byte) (pos : nat) : option nat :=
  match seg with
  | [] => Some pos
  | Lit b :: seg => if bool_decide (text !! pos = Some b) then match_at seg text (S pos) else None
  | Sep :: seg =>
      match text !! pos with
      | Some c => if is_separator c then match_at seg text (S pos) else None
      | None => match_at seg text pos
      end
  | Star :: _ => None
  end.

(** [iter().position()]. *)
Fixpoint position (c : byte) (l : list byte) : option nat :=
  match l with [] => None | b :: l => if bool_decide (b = c) then Some 0%nat else S <$> position c l end.

Definition ends_at (need_end : option nat) (e : nat) : bool := match need_end with Some n => (e =? n)%nat | None => true end.

Fixpoint host_loop (fuel : nat) (seg : list Elem) (text : list byte) (he : nat) (need_end : option nat) (p : nat) : option nat :=
  match fuel with
  | O => None
  | S fuel =>
      let next :=
        if (p <=? he)%nat && (he <=? length text)%nat
        then rel ← position DOT (take (he - p) (drop p text)); host_loop fuel seg text he need_end (p + rel + 1)%nat
        else None in
      match match_at seg text p with Some e => if ends_at need_end e then Some e else next | None => next end
  end.
Definition match_at_host (seg : list Elem) (text : list byte) (hs he : nat) (need_end : option nat) : option nat :=
  host_loop (S (he - hs)) seg text he need_end hs.

(** The pieces between stars. *)
Fixpoint split_stars (l : list Elem) : list (list Elem) :=
  match l with
  | [] => [[]]
  | Star :: l => [] :: split_stars l
  | e :: l => match split_stars l with s :: ss => (e :: s) :: ss | [] => [[e]] end
  end.

(** [(lo..=hi).find_map]. *)
Fixpoint find_map {A} (f : nat -> option A) (lo n : nat) : option A :=
  match n with O => None | S n => match f lo with Some a => Some a | None => find_map f (S lo) n end end.

Fixpoint segments_loop (p : Pattern) (text : list byte) (host : option (nat * nat)) (segs : list (list Elem)) (cur : nat) (first : bool) : bool :=
  match segs with
  | [] => true
  | seg :: rest =>
      let len := length text in
      let last := bool_decide (length rest = 0%nat) in
      if first && negb (bool_decide (start p = Anywhere)) then
        let need_end := if last && end_ p then Some len else None in
        let found :=
          match start p with
          | Start => match match_at seg text 0 with Some e => if ends_at need_end e then Some e else None | None => None end
          | HostStart => match host with Some (hs, he) => match_at_host seg text hs he need_end | None => None end
          | Anywhere => None
          end in
        match found with Some e => segments_loop p text host rest e false | None => false end
      else if last && end_ p then
        let lo := Nat.max cur (len - length seg) in
        if bool_decide (length seg = 0%nat) || bool_decide (is_Some (find_map (fun q => if bool_decide (match_at seg text q = Some len) then Some tt else None) lo (S len - lo)))
        then segments_loop p text host rest len false else false
      else
        match find_map (match_at seg text) cur (S len - cur) with Some e => segments_loop p text host rest e false | None => false end
  end.

Definition matches (p : Pattern) (text : list byte) (host : option (nat * nat)) : bool :=
  segments_loop p text host (split_stars (elems p)) 0 true.

(** ** Tokens *)
Definition elem_token (e : Elem) : bool := match e with Lit b => is_token_byte b | _ => false end.
Definition lit_byte (e : Elem) : option byte := match e with Lit b => Some (ascii_lower_byte b) | _ => None end.

Fixpoint break_elems (l : list Elem) : list Elem * list Elem :=
  match l with
  | [] => ([], [])
  | e :: t => if elem_token e then let '(run, rest) := break_elems t in (e :: run, rest) else ([], l)
  end.

Definition in_token_range (n : nat) : bool := (MIN_TOKEN_BYTES <=? n)%nat && (n <=? MAX_TOKEN_BYTES)%nat.

(** The loop: what is left to read, and the element before it. *)
Fixpoint tokens_loop (fuel : nat) (p : Pattern) (prev : option Elem) (l : list Elem) (out : list (list byte)) : list (list byte) :=
  match fuel with
  | O => out
  | S fuel =>
      match l with
      | [] => out
      | e :: t =>
          if negb (elem_token e) then tokens_loop fuel p (Some e) t out
          else
            let '(run, rest) := break_elems l in
            let left_ok := match prev with None => negb (bool_decide (start p = Anywhere)) | Some e => negb (is_star e) end in
            let right_ok := match rest with [] => end_ p | e :: _ => negb (is_star e) end in
            let token := omap lit_byte run in
            let out :=
              if left_ok && right_ok && in_token_range (length run) && is_utf8 token && negb (bool_decide (token ∈ out))
              then out ++ [token] else out in
            tokens_loop fuel p (last run) rest out
      end
  end.
Definition index_tokens (p : Pattern) : list (list byte) := tokens_loop (S (length (elems p))) p None (elems p) [].

Fixpoint url_tokens_loop (fuel : nat) (l : list byte) (out : list (list byte)) : list (list byte) :=
  match fuel with
  | O => out
  | S fuel =>
      match l with
      | [] => out
      | b :: t =>
          if negb (is_token_byte b) then url_tokens_loop fuel t out
          else
            let '(run, rest) := Url.break_at (fun b => negb (is_token_byte b)) l in
            url_tokens_loop fuel rest (if in_token_range (length run) then out ++ [run] else out)
      end
  end.
Definition url_tokens (lower : list byte) : list (list byte) := dedup (sort (url_tokens_loop (S (length lower)) lower [])).

(** ** What a pattern means *)
(** Elements cover a stretch of the text: a literal its byte, a separator one byte
    of its class or nothing at the end, a star anything. *)
Inductive covers (text : list byte) : list Elem -> nat -> nat -> Prop :=
| covers_nil i : covers text [] i i
| covers_lit b l i j : text !! i = Some b -> covers text l (S i) j -> covers text (Lit b :: l) i j
| covers_sep c l i j : text !! i = Some c -> is_separator c = true -> covers text l (S i) j -> covers text (Sep :: l) i j
| covers_end l i j : text !! i = None -> covers text l i j -> covers text (Sep :: l) i j
| covers_star l i k j : (i <= k <= length text)%nat -> covers text l k j -> covers text (Star :: l) i j.

(** Where it may begin: for a host, at its start or after a dot inside it. *)
Inductive begins (text : list byte) (host : option (nat * nat)) : StartAnchor -> nat -> Prop :=
| begins_anywhere i : (i <= length text)%nat -> begins text host Anywhere i
| begins_start : begins text host Start 0
| begins_host hs he : host = Some (hs, he) -> begins text host HostStart hs
| begins_label hs he i : host = Some (hs, he) -> (hs <= i < he)%nat -> text !! i = Some DOT -> begins text host HostStart (S i).

Definition means (p : Pattern) (text : list byte) (host : option (nat * nat)) : Prop :=
  exists i j, begins text host (start p) i /\ covers text (elems p) i j /\ (end_ p = true -> j = length text).

(** A host inside a text. *)
Definition host_inside (text : list byte) (host : option (nat * nat)) : Prop :=
  match host with Some (hs, he) => (hs <= he <= length text)%nat | None => True end.

(** *** A piece without stars *)
Definition no_star (s : list Elem) : Prop := Forall (fun e => is_star e = false) s.

Lemma match_at_covers text s i e : no_star s -> match_at s text i = Some e <-> covers text s i e.
Proof.
  intros Hs. revert i. induction Hs as [|x s Hx Hs IH]; intros i; cbn [match_at].
  { split; [intros [= ->]; constructor|by inversion 1]. }
  destruct x as [b| |]; [| |done].
  - case_bool_decide as Hb; [rewrite IH; split; [by constructor|by inversion 1]|]. split; [done|by inversion 1].
  - destruct (text !! i) as [c|] eqn:Ec.
    + destruct (is_separator c) eqn:Es; [rewrite IH; split; [by econstructor|inversion 1; subst; [done|congruence]]|]. split; [done|]. inversion 1; congruence.
    + rewrite IH. split; [by apply covers_end|]. inversion 1; subst; [congruence|done].
Qed.

Lemma match_at_end s text i e : match_at s text i = Some e -> (i <= length text)%nat -> e = Nat.min (i + length s) (length text).
Proof.
  revert i. induction s as [|x s IH]; intros i; cbn [match_at length]; [intros [= ->]; lia|]. destruct x as [b| |]; [| |done].
  - case_bool_decide as Hb; [|done]. apply lookup_lt_Some in Hb. intros H Hi. rewrite (IH _ H) by lia. lia.
  - destruct (text !! i) as [c|] eqn:Ec.
    + destruct (is_separator c); [|done]. apply lookup_lt_Some in Ec. intros H Hi. rewrite (IH _ H) by lia. lia.
    + apply lookup_ge_None in Ec. intros H Hi. rewrite (IH _ H) by lia. lia.
Qed.

Lemma match_at_mono s text i i' e e' : match_at s text i = Some e -> match_at s text i' = Some e' -> (i <= i' <= length text)%nat -> (e <= e' <= length text)%nat.
Proof. intros H1 H2 Hi. rewrite (match_at_end _ _ _ _ H1), (match_at_end _ _ _ _ H2) by lia. lia. Qed.

Lemma covers_app text l1 l2 i j : covers text (l1 ++ l2) i j <-> exists k, covers text l1 i k /\ covers text l2 k j.
Proof.
  revert i. induction l1 as [|x l1 IH]; intros i; cbn [app].
  { split; [intros H; exists i; split; [constructor|done]|]. intros (k & H1 & H2). by inversion H1; subst. }
  split.
  - inversion 1; subst; match goal with H : covers _ (_ ++ _) _ _ |- _ => apply IH in H as (m & ? & ?) end; exists m; (split; [by econstructor|done]).
  - intros (m & H1 & H2). inversion H1; subst; econstructor; try done; apply IH; by exists m.
Qed.

Lemma covers_range text l i j : covers text l i j -> (i <= length text)%nat -> (i <= j <= length text)%nat.
Proof.
  induction 1 as [i|b l i j Hb _ IH|c l i j Hc _ _ IH|l i j _ _ IH|l i k j Hk _ IH]; intros Hi; [lia| | |by apply IH|].
  - apply lookup_lt_Some in Hb. specialize (IH ltac:(lia)). lia.
  - apply lookup_lt_Some in Hc. specialize (IH ltac:(lia)). lia.
  - specialize (IH ltac:(lia)). lia.
Qed.

(** *** The pieces between stars *)
Inductive pieces (text : list byte) : list (list Elem) -> nat -> nat -> Prop :=
| pieces_one s i j : covers text s i j -> pieces text [s] i j
| pieces_more s ss i e k j : covers text s i e -> (e <= k <= length text)%nat -> pieces text ss k j -> pieces text (s :: ss) i j.

Lemma split_stars_ne l : split_stars l <> [].
Proof. destruct l as [|[b| |] l]; cbn [split_stars]; [done| | |done]; by destruct (split_stars l). Qed.

Lemma split_stars_no_star l : Forall no_star (split_stars l).
Proof.
  induction l as [|e l IH]; [by repeat constructor|]. destruct e as [b| |]; cbn [split_stars]; [| |constructor; [constructor|done]].
  all: destruct (split_stars l) as [|s ss]; [by repeat constructor|]; apply Forall_cons in IH as [Hs Hss]; constructor; [by constructor|done].
Qed.

Lemma pieces_cons text e s ss i j : is_star e = false -> pieces text ((e :: s) :: ss) i j <-> exists k, covers text [e] i k /\ pieces text (s :: ss) k j.
Proof.
  intros He. split.
  - inversion 1 as [? ? ? Hc|? ? ? k m ? Hc Hm Hp]; subst; change (e :: s) with ([e] ++ s) in Hc; apply covers_app in Hc as (x & H1 & H2); exists x; (split; [done|]).
    + by constructor.
    + by econstructor.
  - intros (k & H1 & H2). inversion H2 as [? ? ? Hc|? ? ? x m ? Hc Hm Hp]; subst.
    + constructor. change (e :: s) with ([e] ++ s). apply covers_app. by exists k.
    + econstructor; [|exact Hm|exact Hp]. change (e :: s) with ([e] ++ s). apply covers_app. by exists k.
Qed.

Lemma covers_pieces text l i j : covers text l i j <-> pieces text (split_stars l) i j.
Proof.
  revert i. induction l as [|e l IH]; intros i; cbn [split_stars].
  { split; [intros H; by constructor|]. inversion 1 as [|? ? ? ? ? ? ? ? Hp]; [done|subst; inversion Hp]. }
  destruct e as [b| |].
  - pose proof (split_stars_ne l) as Hne. destruct (split_stars l) as [|s ss]; [done|]. rewrite pieces_cons by done. setoid_rewrite <- IH. change (Lit b :: l) with ([Lit b] ++ l). apply covers_app.
  - pose proof (split_stars_ne l) as Hne. destruct (split_stars l) as [|s ss]; [done|]. rewrite pieces_cons by done. setoid_rewrite <- IH. change (Sep :: l) with ([Sep] ++ l). apply covers_app.
  - split.
    + inversion 1; subst. econstructor; [constructor|done|by apply IH].
    + pose proof (split_stars_ne l) as Hne. inversion 1 as [? ? ? Hc|? ? ? x m ? Hc Hm Hp]; subst; [congruence|]. inversion Hc; subst. econstructor; [done|by apply IH].
Qed.

(** *** The matcher decides the meaning *)
Lemma find_map_Some {A} (f : nat -> option A) lo n a : find_map f lo n = Some a ->
  exists k, (lo <= k < lo + n)%nat /\ f k = Some a /\ forall i, (lo <= i < k)%nat -> f i = None.
Proof.
  revert lo. induction n as [|n IH]; intros lo; cbn [find_map]; [done|]. destruct (f lo) as [b|] eqn:E.
  - intros [= ->]. exists lo. split_and!; [lia|lia|done|]. intros i Hi. lia.
  - intros (k & Hk & Hf & Hb)%IH. exists k. split_and!; [lia|lia|done|]. intros i Hi. destruct (decide (i = lo)) as [->|]; [done|]. apply Hb. lia.
Qed.
Lemma find_map_None {A} (f : nat -> option A) lo n : find_map f lo n = None -> forall i, (lo <= i < lo + n)%nat -> f i = None.
Proof.
  revert lo. induction n as [|n IH]; intros lo; cbn [find_map]; [intros _ i Hi; lia|]. destruct (f lo) eqn:E; [done|].
  intros H i Hi. destruct (decide (i = lo)) as [->|]; [done|]. apply (IH (S lo)); [done|lia].
Qed.

Lemma position_Some c l k : position c l = Some k -> l !! k = Some c /\ forall i, (i < k)%nat -> l !! i <> Some c.
Proof.
  revert k. induction l as [|b l IH]; intros k; cbn [position]; [done|]. case_bool_decide as E.
  - intros [= <-]. subst. split; [done|]. intros i Hi. lia.
  - destruct (position c l) as [m|]; [|done]. intros [= <-]. destruct (IH m eq_refl) as [H1 H2]. split; [done|].
    intros [|i] Hi; simpl; [congruence|]. apply H2. lia.
Qed.
Lemma position_None c l : position c l = None -> forall i, l !! i <> Some c.
Proof.
  induction l as [|b l IH]; cbn [position]; [done|]. case_bool_decide as E; [done|]. destruct (position c l); [done|]. intros _ [|i]; simpl; [congruence|by apply IH].
Qed.

Section matcher.
Context (p : Pattern) (text : list byte) (host : option (nat * nat)).
Implicit Types (seg : list Elem) (segs : list (list Elem)).

(** A boundary from [q] on. *)
Definition boundary (he q i : nat) : Prop := i = q \/ exists d, (q <= d < he)%nat /\ text !! d = Some DOT /\ i = S d.

Lemma boundary_next he q d i : (q <= d < he)%nat -> text !! d = Some DOT -> (forall k, (q <= k < d)%nat -> text !! k <> Some DOT) ->
  boundary he q i <-> i = q \/ boundary he (S d) i.
Proof.
  intros Hd Ht Hno. unfold boundary. split.
  - intros [->|(k & Hk & Hdot & ->)]; [by left|]. right. destruct (decide (k = d)) as [->|Hne]; [by left|]. right. exists k. split; [|done].
    destruct (decide (k < d)%nat) as [Hlt|]; [|lia]. by destruct (Hno k ltac:(lia)).
  - intros [->|[->|(k & Hk & Hdot & ->)]]; [by left|right; by exists d|right; exists k; split; [lia|done]].
Qed.

Lemma host_loop_spec fuel seg he need q : (q <= he <= length text)%nat -> (he - q < fuel)%nat ->
  match host_loop fuel seg text he need q with
  | Some e => (exists i, boundary he q i /\ match_at seg text i = Some e /\ ends_at need e = true) /\
      forall i e', boundary he q i -> match_at seg text i = Some e' -> ends_at need e' = true -> (e <= e')%nat
  | None => forall i e', boundary he q i -> match_at seg text i = Some e' -> ends_at need e' = false
  end.
Proof.
  revert q. induction fuel as [|fuel IH]; intros q Hq Hf; [lia|]. cbn [host_loop].
  destruct (match_at seg text q) as [e|] eqn:Em; [destruct (ends_at need e) eqn:Ee|].
  { split; [exists q; split_and!; [by left|done|done]|]. intros i e' Hb Hm He. assert (q <= i <= length text)%nat as Hi by (destruct Hb as [->|(d & ? & ? & ->)]; lia).
    pose proof (match_at_mono seg text q i e e' Em Hm Hi). lia. }
  all: rewrite (proj2 (Nat.leb_le _ _)) by lia; rewrite (proj2 (Nat.leb_le _ _)) by lia; cbn [andb].
  all: destruct (position DOT (take (he - q) (drop q text))) as [r|] eqn:Ep; cbn [mbind option_bind].
  all: try (apply position_Some in Ep as [Hr Hno]).
  all: try (assert (q <= q + r < he)%nat as Hd by (apply lookup_lt_Some in Hr; rewrite length_take, length_drop in Hr; lia)).
  all: try (rewrite lookup_take_lt, lookup_drop in Hr by lia; assert (forall k, (q <= k < q + r)%nat -> text !! k <> Some DOT) as Hno' by
    (intros k Hk; specialize (Hno (k - q)%nat ltac:(lia)); rewrite lookup_take_lt, lookup_drop in Hno by lia; by replace (q + (k - q))%nat with k in Hno by lia)).
  all: try (specialize (IH (q + r + 1)%nat ltac:(lia) ltac:(lia)); replace (q + r + 1)%nat with (S (q + r)) in IH |- * by lia).
  all: try (pose proof (fun i => boundary_next he q (q + r)%nat i Hd Hr Hno') as Hb).
  1,3: destruct (host_loop fuel seg text he need (S (q + r))) as [e2|].
  - destruct IH as [(i & H1 & H2 & H3) H4]. split; [exists i; split_and!; [by apply Hb; right|done|done]|].
    intros i' e' [->|Hi]%Hb Hm He; [congruence|by apply (H4 i')].
  - intros i e' [->|Hi]%Hb Hm; [congruence|by apply (IH i)].
  - destruct IH as [(i & H1 & H2 & H3) H4]. split; [exists i; split_and!; [by apply Hb; right|done|done]|].
    intros i' e' [->|Hi]%Hb Hm He; [congruence|by apply (H4 i')].
  - intros i e' [->|Hi]%Hb Hm; [congruence|by apply (IH i)].
  - intros i e' [->|(d & Hd & Hdot & ->)] Hm; [congruence|]. pose proof (position_None _ _ Ep (d - q)%nat) as Hn.
    rewrite lookup_take_lt, lookup_drop in Hn by lia. by replace (q + (d - q))%nat with d in Hn by lia.
  - intros i e' [->|(d & Hd & Hdot & ->)] Hm; [congruence|]. pose proof (position_None _ _ Ep (d - q)%nat) as Hn.
    rewrite lookup_take_lt, lookup_drop in Hn by lia. by replace (q + (d - q))%nat with d in Hn by lia.
Qed.

(** Whatever follows a star (or an unanchored start) may begin anywhere from [cur]. *)
Definition rest_from (segs : list (list Elem)) (cur : nat) : Prop :=
  exists k j, (cur <= k <= length text)%nat /\ pieces text segs k j /\ (end_ p = true -> j = length text).

Lemma rest_weaken segs cur cur' : (cur' <= cur)%nat -> rest_from segs cur -> rest_from segs cur'.
Proof. intros Hle (k & j & Hk & H). exists k, j. split; [lia|done]. Qed.

Lemma pieces_last seg k j : pieces text [seg] k j <-> covers text seg k j.
Proof. split; [|by constructor]. inversion 1 as [|? ? ? ? ? ? ? ? Hp]; [done|subst; inversion Hp]. Qed.

Lemma pieces_rest seg rest k : rest <> [] -> (k <= length text)%nat ->
  (exists j, pieces text (seg :: rest) k j /\ (end_ p = true -> j = length text)) <-> exists e, covers text seg k e /\ rest_from rest e.
Proof.
  intros Hne Hk. split.
  - intros (j & Hp & Hend). inversion Hp as [|? ? ? e x ? Hc Hx Hr]; subst; [done|]. exists e. split; [done|]. by exists x, j.
  - intros (e & Hc & x & j & Hx & Hr & Hend). exists j. split; [by econstructor|done].
Qed.

Lemma rest_loop_end seg cur : no_star seg -> (cur <= length text)%nat -> end_ p = true ->
  bool_decide (length seg = 0%nat) || bool_decide (is_Some (find_map (fun q => if bool_decide (match_at seg text q = Some (length text)) then Some tt else None)
    (Nat.max cur (length text - length seg)) (S (length text) - Nat.max cur (length text - length seg)))) = true <-> rest_from [seg] cur.
Proof.
  intros Hs Hcur Hend. rewrite orb_true_iff, !bool_decide_eq_true. split.
  - intros [H0|[[] (q & Hq & Hm & _)%find_map_Some]].
    + apply nil_length_inv in H0 as ->. exists (length text), (length text). split; [lia|]. split; [repeat constructor|done].
    + case_bool_decide as Hb; [|done]. exists q, (length text). split; [lia|]. split; [|done]. apply pieces_last. by apply match_at_covers.
  - intros (k & j & Hk & Hp%pieces_last & Hj). rewrite (Hj Hend) in Hp. apply match_at_covers in Hp as Hm; [|done].
    pose proof (match_at_end _ _ _ _ Hm ltac:(lia)) as He. right. destruct (find_map _ _ _) as [x|] eqn:Ef; [done|].
    pose proof (find_map_None _ _ _ Ef k ltac:(lia)) as Hn. cbv beta in Hn. rewrite bool_decide_eq_true_2 in Hn by done. done.
Qed.

Lemma find_least seg cur : no_star seg -> (cur <= length text)%nat ->
  match find_map (match_at seg text) cur (S (length text) - cur) with
  | Some e => (exists k, (cur <= k <= length text)%nat /\ covers text seg k e) /\ forall k e', (cur <= k <= length text)%nat -> covers text seg k e' -> (e <= e')%nat
  | None => forall k e', (cur <= k <= length text)%nat -> ~ covers text seg k e'
  end.
Proof.
  intros Hs Hcur. destruct (find_map _ _ _) as [e|] eqn:Ef.
  - apply find_map_Some in Ef as (k & Hk & Hm & Hb). split; [exists k; split; [lia|by apply match_at_covers]|].
    intros k' e' Hk' Hc%match_at_covers; [|done]. destruct (decide (k' < k)%nat) as [Hlt|Hge]; [rewrite Hb in Hc by lia; done|].
    apply (match_at_mono seg text k k' e e'); [done|done|lia].
  - intros k e' Hk Hc%match_at_covers; [|done]. rewrite (find_map_None _ _ _ Ef) in Hc by lia. done.
Qed.

Lemma rest_loop segs cur first : Forall no_star segs -> segs <> [] -> (cur <= length text)%nat -> first = false \/ start p = Anywhere ->
  segments_loop p text host segs cur first = true <-> rest_from segs cur.
Proof.
  intros Hs. revert cur first. induction Hs as [|seg rest Hseg Hs IH]; intros cur first Hne Hcur Hf; [done|]. cbn [segments_loop].
  replace (first && negb (bool_decide (start p = Anywhere))) with false by (destruct Hf as [->| ->]; [done|by rewrite bool_decide_eq_true_2, andb_false_r]).
  destruct rest as [|r rest].
  - cbn [length]. rewrite (bool_decide_eq_true_2 (0 = 0)%nat) by done. cbn [andb]. destruct (end_ p) eqn:Eend.
    + rewrite <- rest_loop_end by done. by destruct (_ || _).
    + pose proof (find_least seg cur Hseg Hcur) as Hl. destruct (find_map _ _ _) as [e|].
      * split; [|done]. intros _. destruct Hl as [(k & Hk & Hc) _]. exists k, e. split; [done|]. split; [by apply pieces_last|congruence].
      * split; [done|]. intros (k & j & Hk & Hp%pieces_last & _). by destruct (Hl k j Hk).
  - rewrite (bool_decide_eq_false_2 (length (r :: rest) = 0)%nat) by done. cbn [andb]. pose proof (find_least seg cur Hseg Hcur) as Hl.
    assert (rest_from (seg :: r :: rest) cur <-> exists k e, (cur <= k <= length text)%nat /\ covers text seg k e /\ rest_from (r :: rest) e) as ->.
    { split.
      - intros (k & j & Hk & Hp & Hj). destruct (proj1 (pieces_rest seg (r :: rest) k ltac:(done) ltac:(lia))) as (e & He); [by exists j|]. by exists k, e.
      - intros (k & e & Hk & He). destruct (proj2 (pieces_rest seg (r :: rest) k ltac:(done) ltac:(lia))) as (j & Hj); [by exists e|]. by exists k, j. }
    destruct (find_map _ _ _) as [e|].
    + destruct Hl as [(k & Hk & Hc) Hmin]. pose proof (covers_range _ _ _ _ Hc ltac:(lia)) as Hr. rewrite IH by (done || lia || by left). split.
      * intros H. by exists k, e.
      * intros (k' & e' & Hk' & Hc' & Hrest). by apply (rest_weaken _ e'); [apply (Hmin k')|].
    + split; [done|]. intros (k & e & Hk & Hc & _). by destruct (Hl k e Hk).
Qed.

(** The anchored first piece. *)
Definition anchored_found (seg : list Elem) (need_end : option nat) : option nat :=
  match start p with
  | Start => match match_at seg text 0 with Some e => if ends_at need_end e then Some e else None | None => None end
  | HostStart => match host with Some (hs, he) => match_at_host seg text hs he need_end | None => None end
  | Anywhere => None
  end.

Lemma begins_boundary hs he i : host = Some (hs, he) -> begins text host HostStart i <-> boundary he hs i.
Proof.
  intros Hh. split.
  - subst host. inversion 1 as [| |hs' he' Hh'|hs' he' i' Hh' Hi Hd]; injection Hh' as <- <-; [by left|right; by exists i'].
  - intros [->|(d & Hd & Ht & ->)]; [by eapply begins_host|by eapply begins_label].
Qed.

Lemma anchored_spec seg need : host_inside text host -> no_star seg -> start p <> Anywhere ->
  match anchored_found seg need with
  | Some e => (exists i, begins text host (start p) i /\ covers text seg i e /\ ends_at need e = true) /\
      forall i e', begins text host (start p) i -> covers text seg i e' -> ends_at need e' = true -> (e <= e')%nat
  | None => forall i e', begins text host (start p) i -> covers text seg i e' -> ends_at need e' = false
  end.
Proof.
  intros Hin Hs Hst. unfold anchored_found. destruct (start p); [done| |].
  - pose proof (match_at_covers text seg 0) as Hm. assert (forall i, begins text host Start i -> i = 0%nat) as Hb by (by inversion 1).
    destruct (match_at seg text 0) as [e|]; [destruct (ends_at need e) eqn:Ee|].
    + split; [exists 0%nat; split_and!; [constructor|by apply Hm|done]|]. intros i e' ->%Hb Hc _. apply (Hm e' Hs) in Hc. injection Hc as ->. lia.
    + intros i e' ->%Hb Hc. apply (Hm e' Hs) in Hc. congruence.
    + intros i e' ->%Hb Hc. by apply (Hm e' Hs) in Hc.
  - destruct host as [[hs he]|] eqn:Eh; [|by inversion 1]. unfold match_at_host. cbn in Hin.
    pose proof (host_loop_spec (S (he - hs)) seg he need hs ltac:(lia) ltac:(lia)) as H.
    assert (forall i, begins text (Some (hs, he)) HostStart i <-> boundary he hs i) as Hb by (rewrite <- Eh; by intros; apply begins_boundary).
    destruct (host_loop _ _ _ _ _ _) as [e|].
    + destruct H as [(i & H1 & H2 & H3) H4]. split; [exists i; split_and!; [by apply Hb|by apply match_at_covers|done]|].
      intros i' e' Hi%Hb Hc%match_at_covers He; [by apply (H4 i')|done].
    + intros i e' Hi%Hb Hc%match_at_covers; [by apply (H i)|done].
Qed.

Lemma begins_le i : host_inside text host -> begins text host (start p) i -> (i <= length text)%nat.
Proof. intros Hin. inversion 1; subst; try lia; cbn in Hin; lia. Qed.

Lemma means_pieces : means p text host <-> exists i j, begins text host (start p) i /\ pieces text (split_stars (elems p)) i j /\ (end_ p = true -> j = length text).
Proof. unfold means. by setoid_rewrite covers_pieces. Qed.

Lemma matches_means : host_inside text host -> matches p text host = true <-> means p text host.
Proof.
  intros Hin. rewrite means_pieces. unfold matches. pose proof (split_stars_ne (elems p)) as Hne. pose proof (split_stars_no_star (elems p)) as Hns.
  destruct (decide (start p = Anywhere)) as [Ha|Ha].
  { rewrite rest_loop by (done || lia || by right). unfold rest_from. rewrite Ha. split; intros (i & j & H1 & H2 & H3); exists i, j; (split; [|done]).
    - constructor. lia.
    - inversion H1. lia. }
  destruct (split_stars (elems p)) as [|seg rest]; [done|]. apply Forall_cons in Hns as [Hseg Hrest]. cbn [segments_loop]. rewrite (bool_decide_eq_false_2 (start p = Anywhere)) by done. cbn [andb negb].
  change (match start p with Anywhere => None | Start => _ | HostStart => _ end) with (anchored_found seg (if bool_decide (length rest = 0%nat) && end_ p then Some (length text) else None)).
  pose proof (anchored_spec seg (if bool_decide (length rest = 0%nat) && end_ p then Some (length text) else None) Hin Hseg Ha) as Hs.
  destruct rest as [|r rest].
  - change (length (@nil (list Elem))) with 0%nat in *. rewrite (bool_decide_eq_true_2 (0 = 0)%nat) in * by done. cbn [andb] in *. destruct (anchored_found _ _) as [e|].
    + split; [|done]. intros _. destruct Hs as [(i & Hb & Hc & He) _]. exists i, e. split; [done|]. split; [by apply pieces_last|]. intros Hend. rewrite Hend in He. cbn in He. by apply Nat.eqb_eq.
    + split; [done|]. intros (i & j & Hb & Hp%pieces_last & Hj). specialize (Hs i j Hb Hp). destruct (end_ p); [|done]. cbn in Hs. rewrite Hj in Hs by done. by rewrite Nat.eqb_refl in Hs.
  - rewrite (bool_decide_eq_false_2 (length (r :: rest) = 0)%nat) in * by done. cbn [andb] in *.
    assert ((exists i j, begins text host (start p) i /\ pieces text (seg :: r :: rest) i j /\ (end_ p = true -> j = length text)) <->
      exists i e, begins text host (start p) i /\ covers text seg i e /\ rest_from (r :: rest) e) as ->.
    { split.
      - intros (i & j & Hb & Hp & Hj). destruct (proj1 (pieces_rest seg (r :: rest) i ltac:(done) (begins_le i Hin Hb))) as (e & He); [by exists j|]. by exists i, e.
      - intros (i & e & Hb & He). destruct (proj2 (pieces_rest seg (r :: rest) i ltac:(done) (begins_le i Hin Hb))) as (j & Hj); [by exists e|]. by exists i, j. }
    destruct (anchored_found _ _) as [e|].
    + destruct Hs as [(i & Hb & Hc & _) Hmin]. pose proof (covers_range _ _ _ _ Hc (begins_le i Hin Hb)) as Hr. rewrite rest_loop by (done || lia || by left). split.
      * intros H. by exists i, e.
      * intros (i' & e' & Hb' & Hc' & Hf). by apply (rest_weaken _ e'); [apply (Hmin i')|].
    + split; [done|]. intros (i & e & Hb & Hc & _). by specialize (Hs i e Hb Hc).
Qed.
End matcher.

(** ** Normalising keeps the meaning *)
Lemma covers_star_star text l i j : (i <= length text)%nat -> covers text (Star :: Star :: l) i j <-> covers text (Star :: l) i j.
Proof.
  intros Hi. split; intros H; inversion H as [| | | |? ? k ? Hk H']; subst.
  - inversion H' as [| | | |? ? k' ? Hk' H'']; subst. apply (covers_star text l i k'); [lia|done].
  - apply (covers_star text (Star :: l) i i); [lia|done].
Qed.

Lemma ends_in_star_spec l : ends_in_star l = true -> exists o, l = o ++ [Star].
Proof.
  destruct l as [|e o _] using rev_ind; [done|]. unfold ends_in_star. rewrite last_snoc. destruct e; [done|done|]. intros _. by exists o.
Qed.

Lemma covers_collapse text out l i j : (i <= length text)%nat -> covers text (collapse out l) i j <-> covers text (out ++ l) i j.
Proof.
  intros Hi. revert out. induction l as [|e l IH]; intros out; cbn [collapse]; [by rewrite app_nil_r|].
  destruct (is_star e && ends_in_star out) eqn:E; [|by rewrite IH, <- app_assoc].
  apply andb_true_iff in E as [He (o & ->)%ends_in_star_spec]. destruct e; [done|done|]. rewrite IH, <- !app_assoc. cbn [app].
  rewrite (covers_app text o (Star :: l)), (covers_app text o (Star :: Star :: l)). split; intros (k & H1 & H2); exists k; (split; [done|]); apply covers_star_star; try done; apply (covers_range _ _ _ _ H1 Hi).
Qed.

Lemma means_ext l l' s e text host : host_inside text host -> (forall i j, (i <= length text)%nat -> covers text l i j <-> covers text l' i j) ->
  means (mkPattern l s e) text host <-> means (mkPattern l' s e) text host.
Proof.
  intros Hin H. unfold means. cbn [start elems end_]. split; intros (i & j & Hb & Hc & Hj); exists i, j; (split_and!; [done| |done]);
    by apply (H i j (begins_le (mkPattern l s e) text host i Hin Hb)).
Qed.

Lemma means_leading l s e text host : s <> HostStart -> means (mkPattern (Star :: l) s e) text host <-> means (mkPattern l Anywhere e) text host.
Proof.
  intros Hs. unfold means. cbn [start elems end_]. split; intros (i & j & Hb & Hc & Hj).
  - inversion Hc as [| | | |? ? k ? Hk Hc']; subst. exists k, j. split_and!; [constructor; lia|done|done].
  - inversion Hb; subst. assert (exists i', begins text host s i' /\ (i' <= i)%nat) as (i' & Hb' & Hi').
    { destruct s; [exists 0%nat; split; [constructor; lia|lia]|exists 0%nat; split; [constructor|lia]|done]. }
    exists i', j. split_and!; [done|by econstructor|done].
Qed.

Lemma means_trailing l s e text host : host_inside text host -> means (mkPattern (l ++ [Star]) s e) text host <-> means (mkPattern l s false) text host.
Proof.
  intros Hin. unfold means. cbn [start elems end_]. setoid_rewrite covers_app. split.
  - intros (i & j & Hb & (k & H1 & H2) & _). by exists i, k.
  - intros (i & j & Hb & Hc & _). exists i, (length text). split_and!; [done| |done]. exists j. split; [done|].
    pose proof (covers_range _ _ _ _ Hc (begins_le (mkPattern l s e) text host i Hin Hb)). apply (covers_star _ _ _ (length text)); [lia|constructor].
Qed.

Lemma new_means l s e text host : host_inside text host -> means (new l s e) text host <-> means (mkPattern l s e) text host.
Proof.
  intros Hin. transitivity (means (mkPattern (collapse [] l) s e) text host).
  2: { apply means_ext; [done|]. intros i j Hi. by apply (covers_collapse text []). }
  unfold new. generalize (collapse [] l). intros out.
  assert (forall out s, means (let '(out, end_) := if ends_in_star out then (removelast out, false) else (out, e) in mkPattern out s end_) text host <-> means (mkPattern out s e) text host) as Hend.
  { intros o s'. destruct (ends_in_star o) eqn:Ee; [|done]. apply ends_in_star_spec in Ee as (o' & ->). rewrite removelast_last. symmetry. by apply means_trailing. }
  destruct (starts_in_star out && negb (bool_decide (s = HostStart))) eqn:Es; [|apply Hend].
  apply andb_true_iff in Es as [Hst Hs%negb_true_iff%bool_decide_eq_false]. destruct out as [|[b| |] out]; [done|done|done|].
  cbn [tail]. rewrite Hend. symmetry. by apply means_leading.
Qed.

(** ** Tokens are sound *)
Lemma sep_not_token b : is_separator b = true -> is_token_byte b = false.
Proof. destruct b; vm_compute; congruence. Qed.
Lemma token_lower b : is_token_byte (ascii_lower_byte b) = is_token_byte b.
Proof. destruct b; reflexivity. Qed.

(** A byte, or an element, at which no token goes on. *)
Definition stops (o : option byte) : Prop := match o with Some b => is_token_byte b = false | None => True end.

Lemma url_tokens_loop_keeps fuel l out t : t ∈ out -> t ∈ url_tokens_loop fuel l out.
Proof.
  revert l out. induction fuel as [|fuel IH]; intros l out H; cbn [url_tokens_loop]; [done|]. destruct l as [|b l]; [done|].
  destruct (negb _); [by apply IH|]. destruct (Url.break_at _ _) as [run rest]. apply IH. destruct (in_token_range _); [|done]. apply elem_of_app. by left.
Qed.

(** Two ways to cut a text into a run of token bytes and a rest that stops it. *)
Lemma run_unique (f : byte -> bool) x y x' y' : x ++ y = x' ++ y' -> Forall (fun b => f b = true) x -> Forall (fun b => f b = true) x' ->
  match head y with Some b => f b = false | None => True end -> match head y' with Some b => f b = false | None => True end -> x = x' /\ y = y'.
Proof.
  revert x'. induction x as [|b x IH]; intros [|b' x'] E Hx Hx' Hy Hy'; simpl in E; [done| | |].
  - subst y. apply Forall_inv in Hx'. cbn in Hy. congruence.
  - subst y'. apply Forall_inv in Hx. cbn in Hy'. congruence.
  - injection E as <- E. destruct (IH x' E (Forall_inv_tail Hx) (Forall_inv_tail Hx') Hy Hy') as [-> ->]. done.
Qed.

Lemma head_app_stops pre w post : w <> [] -> Forall (fun b => is_token_byte b = true) w -> stops (last pre) -> forall run rest,
  pre ++ w ++ post = run ++ rest -> Forall (fun b => is_token_byte b = true) run -> pre <> [] ->
  exists pre', pre = run ++ pre' /\ rest = pre' ++ w ++ post /\ pre' <> [].
Proof.
  intros Hw Htok Hpre run rest. revert pre Hpre. induction run as [|b run IH]; intros pre Hpre E Hrun Hne; [by exists pre|].
  destruct pre as [|b' pre]; [done|]. simpl in E. injection E as <- E. inversion Hrun as [|? ? Hb Hr]; subst.
  destruct pre as [|c pre]; [cbn in Hpre; congruence|]. destruct (IH (c :: pre)) as (pre' & E1 & E2 & E3); [exact Hpre|done|done|done|].
  exists pre'. rewrite E1. done.
Qed.

Lemma url_tokens_loop_spec fuel pre w post out : (length (pre ++ w ++ post) < fuel)%nat -> w <> [] -> Forall (fun b => is_token_byte b = true) w ->
  in_token_range (length w) = true -> stops (last pre) -> stops (head post) -> w ∈ url_tokens_loop fuel (pre ++ w ++ post) out.
Proof.
  revert pre out. induction fuel as [|fuel IH]; intros pre out Hf Hw Htok Hr Hpre Hpost; [lia|]. cbn [url_tokens_loop].
  destruct (pre ++ w ++ post) as [|b t] eqn:El; [by destruct pre, w|]. destruct (is_token_byte b) eqn:Eb; cbn [negb].
  - destruct (Url.break_at _ _) as [run rest] eqn:Ebr. apply break_at_spec in Ebr as (E & Hrun & Hrest).
    assert (Forall (fun b => is_token_byte b = true) run) as Hrun' by (eapply Forall_impl; [exact Hrun|]; cbv beta; intros x; by destruct (is_token_byte x)).
    assert (match head rest with Some b => is_token_byte b = false | None => True end) as Hrest' by (destruct rest as [|x r]; [done|]; cbn; by destruct (is_token_byte x)).
    assert (run <> []) as Hne. { intros ->. simpl in E. subst rest. cbn in Hrest'. congruence. }
    destruct (decide (pre = [])) as [->|Hp].
    + simpl in El. rewrite E in El. destruct (run_unique is_token_byte w post run rest El Htok Hrun' Hpost Hrest') as [<- <-]. rewrite Hr.
      apply url_tokens_loop_keeps, elem_of_app. right. by apply list_elem_of_singleton.
    + rewrite E in El. destruct (head_app_stops pre w post Hw Htok Hpre run rest El Hrun' Hp) as (pre' & E1 & E2 & E3). rewrite E2. apply IH; try done.
      * apply (f_equal length) in El. rewrite E in Hf. rewrite E2, !length_app in *. destruct run; [done|]. simpl in *. lia.
      * rewrite E1 in Hpre. destruct pre' as [|x pre' _] using rev_ind; [done|]. by rewrite app_assoc, !last_snoc in *.
  - destruct pre as [|b' pre]; [simpl in El; destruct w as [|x w]; [done|]; injection El as <- <-; apply Forall_inv in Htok; congruence|].
    simpl in El. injection El as <- <-. apply IH; try done; [simpl in Hf; lia|]. destruct pre; [done|exact Hpre].
Qed.

Lemma break_elems_spec l run rest : break_elems l = (run, rest) ->
  l = run ++ rest /\ Forall (fun e => elem_token e = true) run /\ match rest with e :: _ => elem_token e = false | [] => True end.
Proof.
  revert run rest. induction l as [|e l IH]; intros run rest; cbn [break_elems]; [by intros [= <- <-]|].
  destruct (elem_token e) eqn:Ee; [|by intros [= <- <-]]. destruct (break_elems l) as [r' t'] eqn:E. intros [= <- <-].
  destruct (IH _ _ eq_refl) as (-> & H1 & H2). split_and!; [done|by constructor|done].
Qed.

(** Where a token of a pattern comes from. *)
Definition token_site (p : Pattern) (t : list byte) : Prop :=
  exists pre run rest, elems p = pre ++ run ++ rest /\ t = omap lit_byte run /\ run <> [] /\ Forall (fun e => elem_token e = true) run /\ in_token_range (length run) = true /\
    match last pre with Some e => is_star e = false /\ elem_token e = false | None => start p <> Anywhere end /\
    match rest with e :: _ => is_star e = false /\ elem_token e = false | [] => end_ p = true end.

Lemma tokens_loop_spec fuel p pre l out t : elems p = pre ++ l ->
  (match last pre with Some e => elem_token e = true -> match l with x :: _ => elem_token x = false | [] => True end | None => True end) ->
  t ∈ tokens_loop fuel p (last pre) l out -> t ∈ out \/ token_site p t.
Proof.
  revert pre l out. induction fuel as [|fuel IH]; intros pre l out He Hpre; cbn [tokens_loop]; [by left|].
  destruct l as [|e l]; [by left|]. destruct (elem_token e) eqn:Et; cbn [negb].
  2: { rewrite <- (last_snoc e pre). apply IH; [by rewrite <- app_assoc|]. rewrite last_snoc. congruence. }
  destruct (break_elems (e :: l)) as [run rest] eqn:Eb. pose proof Eb as Eb'. apply break_elems_spec in Eb as (E & Hrun & Hrest).
  assert (run <> []) as Hne. { cbn [break_elems] in Eb'. rewrite Et in Eb'. destruct (break_elems l). by injection Eb' as <- <-. }
  assert (last run = last (pre ++ run)) as Hl by (destruct run as [|x run _] using rev_ind; [done|]; by rewrite app_assoc, !last_snoc).
  intros H. rewrite Hl in H. apply IH in H as [H|H]; [|by right| |].
  - destruct (_ && _ && _ && _ && _) eqn:Ec; [|by left]. apply elem_of_app in H as [H|H]; [by left|]. apply list_elem_of_singleton in H. right.
    rewrite !andb_true_iff in Ec. destruct Ec as [[[[H1 H2] H3] _] _]. exists pre, run, rest. split_and!; try done; [by rewrite He, E| |].
    + destruct (last pre) as [x|]; [|by apply negb_true_iff, bool_decide_eq_false in H1]. apply negb_true_iff in H1. split; [done|].
      destruct (elem_token x); [|done]. specialize (Hpre eq_refl). cbn in Hpre. congruence.
    + destruct rest; [done|]. by apply negb_true_iff in H2.
  - by rewrite He, E, <- app_assoc.
  - rewrite <- Hl. destruct run as [|x run _] using rev_ind; [done|]. rewrite last_snoc. intros _. done.
Qed.

(** The host is not in the middle of a token. *)
Definition host_clean (text : list byte) (host : option (nat * nat)) : Prop :=
  match host with Some (hs, _) => stops (last (take hs text)) | None => True end.

Lemma last_take_S (text : list byte) i b : text !! i = Some b -> last (take (S i) text) = Some b.
Proof. intros H. by rewrite (take_S_r _ _ _ H), last_snoc. Qed.
Lemma head_drop (text : list byte) k : head (drop k text) = text !! k.
Proof. rewrite head_lookup, lookup_drop. f_equal. lia. Qed.

Lemma covers_run text run i k : Forall (fun e => elem_token e = true) run -> covers text run i k ->
  exists w, drop i text = w ++ drop k text /\ to_ascii_lowercase w = omap lit_byte run /\ Forall (fun b => is_token_byte b = true) w /\ length w = length run.
Proof.
  intros Hrun. revert i. induction Hrun as [|e run He Hrun IH]; intros i Hc.
  { inversion Hc; subst. by exists []. }
  destruct e as [b| |]; [|done|done]. inversion Hc as [|? ? ? ? Hb Hc'| | |]; subst. destruct (IH _ Hc') as (w & E & H1 & H2 & H3).
  exists (b :: w). split_and!; [by rewrite (drop_S _ _ _ Hb), E|cbn; f_equal; exact H1|by constructor|cbn; by f_equal].
Qed.

Lemma covers_left text pre i0 i host p : covers text pre i0 i -> begins text host (start p) i0 -> host_clean text host -> (i0 <= length text)%nat ->
  (i < length text)%nat -> match last pre with Some e => is_star e = false /\ elem_token e = false | None => start p <> Anywhere end -> stops (last (take i text)).
Proof.
  intros Hc Hb Hclean Hi0 Hi. destruct pre as [|e pre _] using rev_ind.
  - intros Hs. cbn in Hs. inversion Hc; subst. inversion Hb as [? ? E|E|hs he Hh E|hs he d Hh Hd Hdot E]; subst; [congruence|done|exact Hclean|].
    rewrite (last_take_S _ _ _ Hdot). reflexivity.
  - rewrite last_snoc. intros [H1 H2]. apply covers_app in Hc as (m & Hm & Hc). destruct e as [b| |]; [| |done].
    + inversion Hc as [|? ? ? ? Hl Hn| | |]; subst. inversion Hn; subst. rewrite (last_take_S _ _ _ Hl). exact H2.
    + inversion Hc as [| |? ? ? ? Hl Hsep Hn|? ? ? Hl Hn|]; subst; inversion Hn; subst.
      * rewrite (last_take_S _ _ _ Hl). by apply sep_not_token.
      * apply lookup_ge_None in Hl. lia.
Qed.

Lemma covers_right text rest k j p : covers text rest k j -> (end_ p = true -> j = length text) ->
  match rest with e :: _ => is_star e = false /\ elem_token e = false | [] => end_ p = true end -> stops (head (drop k text)).
Proof.
  rewrite head_drop. intros Hc Hj Hr. destruct rest as [|e rest].
  - inversion Hc; subst. rewrite (Hj Hr). by rewrite (proj2 (lookup_ge_None _ _)) by lia.
  - destruct Hr as [H1 H2]. destruct e as [b| |]; [| |done].
    + inversion Hc as [|? ? ? ? Hl Hn| | |]; subst. by rewrite Hl.
    + inversion Hc as [| |? ? ? ? Hl Hsep Hn|? ? ? Hl Hn|]; subst; rewrite Hl; [by apply sep_not_token|done].
Qed.

Lemma stops_lower o : stops o -> stops (ascii_lower_byte <$> o).
Proof. destruct o; [|done]. cbn. by rewrite token_lower. Qed.

Lemma tokens_sound p text host t : host_inside text host -> host_clean text host -> means p text host -> t ∈ index_tokens p -> t ∈ url_tokens (to_ascii_lowercase text).
Proof.
  intros Hin Hclean (i0 & j & Hb & Hc & Hj) Ht. unfold index_tokens in Ht. apply (tokens_loop_spec _ p [] (elems p) []) in Ht as [Ht|Ht]; [by apply elem_of_nil in Ht| |done|done].
  destruct Ht as (pre & run & rest & E & -> & Hne & Hrun & Hlen & Hl & Hr). rewrite E in Hc. apply covers_app in Hc as (i & Hpre & Hc). apply covers_app in Hc as (k & Hw & Hrest).
  pose proof (begins_le p text host i0 Hin Hb) as Hi0. destruct (covers_run _ _ _ _ Hrun Hw) as (w & Ew & Elow & Htok & Hlw).
  assert (w <> []) as Hwne by (destruct w, run; done). assert (i < length text)%nat as Hi.
  { apply (f_equal length) in Ew. rewrite length_app, !length_drop in Ew. destruct w; [done|]. simpl in *. lia. }
  pose proof (covers_left _ _ _ _ _ _ Hpre Hb Hclean Hi0 Hi Hl) as Hleft. pose proof (covers_right _ _ _ _ _ Hrest Hj Hr) as Hright.
  unfold url_tokens. apply OrdMap.sort_dedup. assert (to_ascii_lowercase text = map ascii_lower_byte (take i text) ++ omap lit_byte run ++ map ascii_lower_byte (drop k text)) as ->.
  { rewrite <- Elow. unfold to_ascii_lowercase. rewrite <- !map_app, <- Ew. by rewrite take_drop. }
  assert (length (omap lit_byte run) = length run) as Hlo by (rewrite <- Elow; unfold to_ascii_lowercase; by rewrite length_map).
  apply url_tokens_loop_spec; [lia| | | | |].
  - intros E'. apply Hne, nil_length_inv. by rewrite <- Hlo, E'.
  - rewrite <- Elow. apply Forall_map. eapply Forall_impl; [exact Htok|]. cbv beta. intros b. by rewrite token_lower.
  - by rewrite Hlo.
  - change (map ascii_lower_byte) with (fmap (M:=list) ascii_lower_byte). rewrite fmap_last. by apply stops_lower.
  - destruct (drop k text) as [|b d]; [done|]. by apply (stops_lower (Some b)).
Qed.

(** ** The claim *)
(** C21: The matcher, which never backtracks, decides exactly what the pattern as written
    means: its literals, separators and stars cover a stretch of the text that begins
    where the anchor says (for [||], at the host or after a dot inside it) and, when
    anchored, ends with the text; simplifying a pattern changes nothing. *)
Theorem patterns_match_as_written l s e text host : host_inside text host ->
  matches (new l s e) text host = true <-> means (mkPattern l s e) text host.
Proof. intros Hin. rewrite matches_means by done. by apply new_means. Qed.

Lemma patterns_match_as_written_witness :
  exists p, from_text (lit "||ads.com^*x") false = Ok p /\ matches p (lit "http://a.ads.com/yx") (Some (7, 16)%nat) = true /\
  means (mkPattern (map Lit (lit "ads.com") ++ [Sep; Star; Lit "x"%byte]) HostStart false) (lit "http://a.ads.com/yx") (Some (7, 16)%nat).
Proof.
  eexists. split; [vm_compute; reflexivity|]. split; [vm_compute; reflexivity|].
  apply (patterns_match_as_written (map Lit (lit "ads.com") ++ [Sep; Star; Lit "x"%byte]) HostStart false (lit "http://a.ads.com/yx") (Some (7, 16)%nat) ltac:(cbn; lia)).
  vm_compute. reflexivity.
Defined.
