(* ===== verification/BlockFilter.v ===== *)
(** * Filter lists (px-block/src/filter.rs)

    Lines are classified, network filters parsed whole or rejected, and every line
    is counted once.  An accepted rule is well formed, its types are the ones its
    options name, and its [domain=] constraint is decided by the most specific entry. *)
From Stdlib Require Import Sorting.Sorted.
From S2P Require Import Prelude Bytes OrdMap Text Chars WebUrl WebCanon WebParse BlockGlob.
Local Open Scope Z_scope.

Definition MAX_LIST_BYTES : Z := 16 * 1024 * 1024.
Definition MAX_LINE_BYTES : Z := 4096.
Definition MAX_RULES_PER_LIST : Z := 500000.
Definition MAX_DOMAINS_PER_RULE : Z := 128.
Definition MAX_DOMAIN_BYTES : Z := 253.

Inductive ResourceType := Script | Image | Stylesheet | XmlHttpRequest | Subdocument | Ping | Media | Font | Other | Document.
#[export] Instance resource_type_eq_dec : EqDecision ResourceType.
Proof. solve_decision. Defined.

(** [self as u16]. *)
Definition type_index (t : ResourceType) : Z :=
  match t with
  | Script => 0 | Image => 1 | Stylesheet => 2 | XmlHttpRequest => 3 | Subdocument => 4
  | Ping => 5 | Media => 6 | Font => 7 | Other => 8 | Document => 9
  end.
Definition bit (t : ResourceType) : Z := Z.shiftl 1 (type_index t).

Definition from_option (name : list byte) : option ResourceType :=
  if bool_decide (name = lit "script") then Some Script
  else if bool_decide (name = lit "image") then Some Image
  else if bool_decide (name = lit "stylesheet" \/ name = lit "css") then Some Stylesheet
  else if bool_decide (name = lit "xmlhttprequest" \/ name = lit "xhr") then Some XmlHttpRequest
  else if bool_decide (name = lit "subdocument" \/ name = lit "frame") then Some Subdocument
  else if bool_decide (name = lit "ping") then Some Ping
  else if bool_decide (name = lit "media") then Some Media
  else if bool_decide (name = lit "font") then Some Font
  else if bool_decide (name = lit "other") then Some Other
  else None.

(** [TypeMask]. *)
Definition DEFAULT : Z := foldr Z.lor 0 (map bit [Script; Image; Stylesheet; XmlHttpRequest; Subdocument; Ping; Media; Font; Other]).
Definition type_in (mask : Z) (t : ResourceType) : bool := negb (Z.land mask (bit t) =? 0).

Record DomainConstraint := mkDomains { include : list (list byte); exclude : list (list byte) }.
Definition no_domains : DomainConstraint := mkDomains [] [].

Definition host_under (host domain : list byte) : bool :=
  bool_decide (host = domain) ||
  match strip_suffix domain host with Some p => bool_decide (last p = Some DOT) | None => false end.

(** [best.is_none_or(|(l, _)| d.len() > l)], and [>=] for an exclusion. *)
Definition include_step (host : list byte) (best : option (Z * bool)) (d : list byte) : option (Z * bool) :=
  if host_under host d && match best with Some (l, _) => l <? len d | None => true end then Some (len d, false) else best.
Definition exclude_step (host : list byte) (best : option (Z * bool)) (d : list byte) : option (Z * bool) :=
  if host_under host d && match best with Some (l, _) => l <=? len d | None => true end then Some (len d, true) else best.

Definition allows (c : DomainConstraint) (host : option (list byte)) : bool :=
  let host := default [] host in
  match foldl (exclude_step host) (foldl (include_step host) None (include c)) (exclude c) with
  | Some (_, excluded) => negb excluded
  | None => bool_decide (include c = [])
  end.
Definition domains_empty (c : DomainConstraint) : bool := bool_decide (include c = []) && bool_decide (exclude c = []).

Record Rule := mkRule {
  exception : bool; important : bool; match_case : bool; pattern : Pattern; types : Z;
  third_party : option bool; domains : DomainConstraint; line : Z; text : list byte }.

Inductive RejectReason :=
| Regex | UnsupportedOption | LineTooLong | PatternTooLong | InvalidCharacters | MatchAll
| ConflictingOptions | ImportantException | TooManyDomains | BadDomain | OverRuleCap.
Definition reason_index (r : RejectReason) : Z :=
  match r with
  | Regex => 0 | UnsupportedOption => 1 | LineTooLong => 2 | PatternTooLong => 3 | InvalidCharacters => 4 | MatchAll => 5
  | ConflictingOptions => 6 | ImportantException => 7 | TooManyDomains => 8 | BadDomain => 9 | OverRuleCap => 10
  end.
Lemma reason_index_inj a b : reason_index a = reason_index b -> a = b.
Proof. by destruct a, b. Qed.
#[export] Instance ord_reason : Ord RejectReason := ord_inj reason_index reason_index_inj.

Record ParseStats := mkStats {
  lines : Z; blank : Z; comments : Z; headers : Z; cosmetic_skipped : Z; scriptlet_skipped : Z;
  accepted : Z; exceptions : Z; rejected : btree RejectReason Z; truncated : bool }.
Definition stats_default : ParseStats := mkStats 0 0 0 0 0 0 0 0 [] false.

Definition rejected_for (s : ParseStats) (r : RejectReason) : Z := default 0 (bt_get (rejected s) r).
Definition rejected_total (s : ParseStats) : Z := sum_Z snd (rejected s).
Definition regex_rejected (s : ParseStats) : Z := rejected_for s Regex.

Record ParsedList := mkParsed { rules : list Rule; stats : ParseStats }.

(** ** Classes of lines *)
Inductive Class := Blank | Comment | Header | Cosmetic (scriptlet : bool) | Network.

Definition is_domain_list_char (c : byte) : bool := Url.is_alphabetic c || is_digit c || bool_decide (c ∈ lit ".-_,~*:[]").
Definition DOLLAR : byte := "$"%byte.
Definition MARKERS : list (list byte) := map lit ["#@$#"; "#@?#"; "#@%#"; "##"; "#@#"; "#?#"; "#$#"; "#%#"]%string.

(** The loop on the markers. *)
Fixpoint find_marker (rest : list byte) (ms : list (list byte)) : option Class :=
  match ms with
  | [] => None
  | m :: ms =>
      match strip_prefix m rest with
      | Some body => Some (Cosmetic (has_prefix (lit "+js(") body || bool_decide (is_Some (strip_suffix (lit "%#") m))))
      | None => find_marker rest ms
      end
  end.

Definition cosmetic (l : list byte) : option Class :=
  let by_hash :=
    '(prefix, rest) ← split_once HASH l;
    if forallb is_domain_list_char prefix then find_marker (HASH :: rest) MARKERS else None in
  match by_hash with
  | Some c => Some c
  | None =>
      '(prefix, rest) ← split_once DOLLAR l;
      if forallb is_domain_list_char prefix && (has_prefix (lit "$") rest || has_prefix (lit "@$") rest)
      then Some (Cosmetic false) else None
  end.

Definition classify (l : list byte) : Class :=
  if bool_decide (l = []) then Blank
  else if has_prefix (lit "!") l then Comment
  else if has_prefix (lit "[") l && bool_decide (last l = Some "]"%byte) then Header
  else match cosmetic l with
       | Some c => c
       | None =>
           if bool_decide (l = [HASH]) || has_prefix (lit "# ") l || has_prefix [HASH; x09] l then Comment else Network
       end.

Definition is_regex_filter (body : list byte) : bool :=
  has_prefix [SLASH] body &&
  match Url.rsplit_once SLASH body with
  | Some (before, after) => (0 <? len before) && (bool_decide (after = []) || has_prefix [DOLLAR] after)
  | None => false
  end.

Definition is_domain_byte (b : byte) : bool := Url.is_alphabetic b || is_digit b || bool_decide (b ∈ lit ".-_").
Definition valid_domain (d : list byte) : bool :=
  negb (bool_decide (d = [])) && (len d <=? MAX_DOMAIN_BYTES) && negb (has_prefix [DOT] d) && negb (bool_decide (last d = Some DOT)) &&
  negb (contains [DOT; DOT] d) && forallb is_domain_byte d.

(** ** Options *)
Record Opts := mkOpts {
  o_important : bool; o_match_case : bool; o_third : option bool; pos_types : Z; neg_types : Z; o_domains : DomainConstraint; saw_domain : bool }.
Definition no_opts : Opts := mkOpts false false None 0 0 no_domains false.

Definition set_important o := mkOpts true (o_match_case o) (o_third o) (pos_types o) (neg_types o) (o_domains o) (saw_domain o).
Definition set_match_case o := mkOpts (o_important o) true (o_third o) (pos_types o) (neg_types o) (o_domains o) (saw_domain o).
Definition set_third w o := mkOpts (o_important o) (o_match_case o) (Some w) (pos_types o) (neg_types o) (o_domains o) (saw_domain o).
Definition add_pos t o := mkOpts (o_important o) (o_match_case o) (o_third o) (Z.lor (pos_types o) (bit t)) (neg_types o) (o_domains o) (saw_domain o).
Definition add_neg t o := mkOpts (o_important o) (o_match_case o) (o_third o) (pos_types o) (Z.lor (neg_types o) (bit t)) (o_domains o) (saw_domain o).
Definition set_domains d o := mkOpts (o_important o) (o_match_case o) (o_third o) (pos_types o) (neg_types o) d true.

(** One entry of a [domain=] value. *)
Definition TILDE : byte := "~"%byte.
Definition add_entry (ds : DomainConstraint) (entry : list byte) : result RejectReason DomainConstraint :=
  let '(ex, d) := match strip_prefix [TILDE] entry with Some r => (true, r) | None => (false, entry) end in
  if bool_decide ("*"%byte ∈ d) || bool_decide (SLASH ∈ d) then Err UnsupportedOption
  else
    let d := to_ascii_lowercase d in
    if negb (valid_domain d) then Err BadDomain
    else
      let ds := if ex then mkDomains (include ds) (exclude ds ++ [d]) else mkDomains (include ds ++ [d]) (exclude ds) in
      if MAX_DOMAINS_PER_RULE <? len (include ds) + len (exclude ds) then Err TooManyDomains else Ok ds.

Fixpoint add_entries (ds : DomainConstraint) (entries : list (list byte)) : result RejectReason DomainConstraint :=
  match entries with [] => Ok ds | e :: es => ds ← add_entry ds e; add_entries ds es end.

Definition is_party (name : list byte) : bool := bool_decide (name ∈ map lit ["third-party"; "3p"; "first-party"; "1p"]%string).
Definition is_first_party (name : list byte) : bool := bool_decide (name ∈ map lit ["first-party"; "1p"]%string).

(** One option. *)
Definition add_option (o : Opts) (opt : list byte) : result RejectReason Opts :=
  if bool_decide (opt = []) then Ok o
  else
    let '(neg, opt) := match strip_prefix [TILDE] opt with Some r => (true, r) | None => (false, opt) end in
    let '(name, value) := match split_once "="%byte opt with Some (n, v) => (n, Some v) | None => (opt, None) end in
    let name := to_ascii_lowercase name in
    match value with
    | None =>
        if is_party name then
          let want := if is_first_party name then negb (negb neg) else negb neg in
          if bool_decide (o_third o = Some (negb want)) then Err ConflictingOptions else Ok (set_third want o)
        else if bool_decide (name = lit "important") && negb neg then Ok (set_important o)
        else if bool_decide (name = lit "match-case") && negb neg then Ok (set_match_case o)
        else match from_option name with
             | Some t => Ok (if neg then add_neg t o else add_pos t o)
             | None => Err UnsupportedOption
             end
    | Some v =>
        if bool_decide (name = lit "domain") && negb neg then
          if saw_domain o then Err ConflictingOptions
          else
            ds ← add_entries (o_domains o) (split_on PIPE v);
            Ok (set_domains (mkDomains (dedup (sort (include ds))) (dedup (sort (exclude ds)))) o)
        else Err UnsupportedOption
    end.

Fixpoint add_options (o : Opts) (l : list (list byte)) : result RejectReason Opts :=
  match l with [] => Ok o | x :: l => o ← add_option o x; add_options o l end.

Definition reject_pattern (e : PatternError) : RejectReason := match e with TooLong => PatternTooLong | InvalidCharacter => InvalidCharacters end.

Definition parse_network_filter (l : list byte) (lineno : Z) : result RejectReason Rule :=
  let '(exception, body) := match strip_prefix (lit "@@") l with Some rest => (true, rest) | None => (false, l) end in
  if is_regex_filter body then Err Regex
  else
    let '(pattern_text, options) := default (body, []) (Url.rsplit_once DOLLAR body) in
    o ← add_options no_opts (split_on ","%byte options);
    if exception && o_important o then Err ImportantException
    else
      let base := if pos_types o =? 0 then DEFAULT else pos_types o in
      let types := Z.land base (Z.lxor U16_MAX (neg_types o)) in
      if types =? 0 then Err ConflictingOptions
      else
        let constrained := negb (pos_types o =? 0) || negb (neg_types o =? 0) || bool_decide (is_Some (o_third o)) || negb (domains_empty (o_domains o)) in
        p ← map_err reject_pattern (from_text pattern_text (o_match_case o));
        if negb (has_literal p) && negb constrained then Err MatchAll
        else Ok (mkRule exception (o_important o) (o_match_case o) p types (o_third o) (o_domains o) lineno l).

(** ** Lists *)
Definition count_line s := mkStats (lines s + 1) (blank s) (comments s) (headers s) (cosmetic_skipped s) (scriptlet_skipped s) (accepted s) (exceptions s) (rejected s) (truncated s).
Definition count_blank s := mkStats (lines s) (blank s + 1) (comments s) (headers s) (cosmetic_skipped s) (scriptlet_skipped s) (accepted s) (exceptions s) (rejected s) (truncated s).
Definition count_comment s := mkStats (lines s) (blank s) (comments s + 1) (headers s) (cosmetic_skipped s) (scriptlet_skipped s) (accepted s) (exceptions s) (rejected s) (truncated s).
Definition count_header s := mkStats (lines s) (blank s) (comments s) (headers s + 1) (cosmetic_skipped s) (scriptlet_skipped s) (accepted s) (exceptions s) (rejected s) (truncated s).
Definition count_cosmetic (scriptlet : bool) s := mkStats (lines s) (blank s) (comments s) (headers s) (cosmetic_skipped s + 1) (if scriptlet then scriptlet_skipped s + 1 else scriptlet_skipped s) (accepted s) (exceptions s) (rejected s) (truncated s).
Definition count_accepted (ex : bool) s := mkStats (lines s) (blank s) (comments s) (headers s) (cosmetic_skipped s) (scriptlet_skipped s) (accepted s + 1) (if ex then exceptions s + 1 else exceptions s) (rejected s) (truncated s).
Definition count_rejected r s := mkStats (lines s) (blank s) (comments s) (headers s) (cosmetic_skipped s) (scriptlet_skipped s) (accepted s) (exceptions s) (bt_insert (rejected s) r (rejected_for s r + 1)) (truncated s).
Definition set_truncated s := mkStats (lines s) (blank s) (comments s) (headers s) (cosmetic_skipped s) (scriptlet_skipped s) (accepted s) (exceptions s) (rejected s) true.

(** One line, with its index. *)
Definition parse_line (p : ParsedList) (idx : Z) (raw : list byte) : ParsedList :=
  let lineno := default U32_MAX (try_from U32_MAX (sat_add idx 1)) in
  let s := count_line (stats p) in
  if MAX_LINE_BYTES <? len raw then mkParsed (rules p) (count_rejected LineTooLong s)
  else
    let l := trim raw in
    match classify l with
    | Blank => mkParsed (rules p) (count_blank s)
    | Comment => mkParsed (rules p) (count_comment s)
    | Header => mkParsed (rules p) (count_header s)
    | Cosmetic scriptlet => mkParsed (rules p) (count_cosmetic scriptlet s)
    | Network =>
        if MAX_RULES_PER_LIST <=? len (rules p) then mkParsed (rules p) (count_rejected OverRuleCap (set_truncated s))
        else match parse_network_filter l lineno with
             | Ok rule => mkParsed (rules p ++ [rule]) (count_accepted (exception rule) s)
             | Err reason => mkParsed (rules p) (count_rejected reason s)
             end
    end.

Fixpoint parse_lines (p : ParsedList) (idx : Z) (ls : list (list byte)) : ParsedList :=
  match ls with [] => p | raw :: ls => parse_lines (parse_line p idx raw) (idx + 1) ls end.

(** The cut: back to a character boundary, then to the last newline. *)
Fixpoint floor_boundary (rev_head : list byte) (next : option byte) : list byte :=
  match next with
  | Some b => if cont b then match rev_head with [] => [] | c :: r => floor_boundary r (Some c) end else rev_head
  | None => rev_head
  end.
Definition cut_at_line (text : list byte) (cap : nat) : list byte :=
  let head := reverse (floor_boundary (reverse (take cap text)) (text !! cap)) in
  match Url.rsplit_once NEWLINE head with Some (before, _) => before ++ [NEWLINE] | None => [] end.

Definition BOM : list byte := [xef; xbb; xbf].
Definition parse_list (text : list byte) : ParsedList :=
  let text := default text (strip_prefix BOM text) in
  let '(text, s) :=
    if MAX_LIST_BYTES <? len text then (cut_at_line text (Z.to_nat MAX_LIST_BYTES), set_truncated stats_default) else (text, stats_default) in
  parse_lines (mkParsed [] s) 0 (split_on NEWLINE text).

Definition parse_list_bytes (bytes : list byte) : ParsedList :=
  let cut := MAX_LIST_BYTES <? len bytes in
  let slice := if cut then take (Z.to_nat MAX_LIST_BYTES) bytes else bytes in
  let p := parse_list (utf8_lossy slice) in
  if cut then mkParsed (rules p) (set_truncated (stats p)) else p.

(** ** Sets of types *)
Lemma type_in_testbit m t : type_in m t = Z.testbit m (type_index t).
Proof.
  unfold type_in, bit. destruct (Z.land m (Z.shiftl 1 (type_index t)) =? 0) eqn:E; cbn [negb].
  - apply Z.eqb_eq, (f_equal (fun z => Z.testbit z (type_index t))) in E. rewrite Z.land_spec, Z.bits_0, Z.shiftl_1_l, Z.pow2_bits_true in E by (destruct t; done).
    by rewrite andb_true_r in E.
  - destruct (Z.testbit m (type_index t)) eqn:Eb; [done|]. apply Z.eqb_neq in E. destruct E. apply Z.bits_inj'. intros n Hn.
    rewrite Z.land_spec, Z.bits_0, Z.shiftl_1_l, Z.pow2_bits_eqb by (destruct t; done). destruct (type_index t =? n) eqn:En; [|by rewrite andb_false_r].
    apply Z.eqb_eq in En as <-. by rewrite Eb.
Qed.

Lemma type_index_inj t t' : type_index t = type_index t' -> t = t'.
Proof. by destruct t, t'. Qed.

Lemma type_in_lor m t t' : type_in (Z.lor m (bit t)) t' = type_in m t' || bool_decide (t = t').
Proof.
  rewrite !type_in_testbit, Z.lor_spec. f_equal. unfold bit. rewrite Z.shiftl_1_l, Z.pow2_bits_eqb by (destruct t; done).
  case_bool_decide as E; [subst; apply Z.eqb_refl|]. apply Z.eqb_neq. intros H. by apply E, type_index_inj.
Qed.

Lemma type_in_except m neg t : type_in (Z.land m (Z.lxor U16_MAX neg)) t = type_in m t && negb (type_in neg t).
Proof.
  rewrite !type_in_testbit, Z.land_spec, Z.lxor_spec. f_equal. change U16_MAX with (Z.ones 16).
  rewrite Z.ones_spec_low by (destruct t; done). by destruct (Z.testbit neg (type_index t)).
Qed.

Lemma type_in_default t : type_in DEFAULT t = negb (bool_decide (t = Document)).
Proof. by destruct t. Qed.

(** A mask of named types. *)
Definition mask_ok (m : Z) : Prop := 0 <= m /\ forall n, Z.testbit m n = true -> exists t, t <> Document /\ n = type_index t.

Lemma mask_ok_0 : mask_ok 0.
Proof. split; [done|]. intros n. by rewrite Z.bits_0. Qed.

Lemma mask_ok_default : mask_ok DEFAULT.
Proof.
  split; [done|]. intros n Hn. assert (0 <= n < 9) as Hr.
  { destruct (Z_lt_dec n 0) as [|H0]; [by rewrite Z.testbit_neg_r in Hn|]. split; [lia|]. destruct (Z_lt_dec n 9) as [|H9]; [done|].
    change DEFAULT with (Z.ones 9) in Hn. by rewrite Z.ones_spec_high in Hn by lia. }
  assert (n = 0 \/ n = 1 \/ n = 2 \/ n = 3 \/ n = 4 \/ n = 5 \/ n = 6 \/ n = 7 \/ n = 8) as H by lia.
  destruct H as [->|[->|[->|[->|[->|[->|[->|[->| ->]]]]]]]]; [by exists Script|by exists Image|by exists Stylesheet|by exists XmlHttpRequest|by exists Subdocument|by exists Ping|by exists Media|by exists Font|by exists Other].
Qed.

Lemma mask_ok_lor m t : mask_ok m -> t <> Document -> mask_ok (Z.lor m (bit t)).
Proof.
  intros (H0 & Hm) Ht. split; [apply Z.lor_nonneg; by destruct t|]. intros n. rewrite Z.lor_spec, orb_true_iff. intros [Hn|Hn]; [by apply Hm|].
  unfold bit in Hn. rewrite Z.shiftl_1_l, Z.pow2_bits_eqb in Hn by (destruct t; done). apply Z.eqb_eq in Hn as <-. by exists t.
Qed.

Lemma mask_ok_land m k : mask_ok m -> mask_ok (Z.land m k).
Proof. intros (H0 & Hm). split; [apply Z.land_nonneg; by left|]. intros n. rewrite Z.land_spec, andb_true_iff. intros [Hn _]. by apply Hm. Qed.

Lemma mask_ok_document m : mask_ok m -> type_in m Document = false.
Proof.
  intros [_ Hm]. rewrite type_in_testbit. destruct (Z.testbit m (type_index Document)) eqn:E; [|done].
  apply Hm in E as (t & Ht & E). by apply type_index_inj in E.
Qed.

Lemma mask_ok_ne m : mask_ok m -> m <> 0 <-> exists t, type_in m t = true.
Proof.
  intros [H0 Hm]. split.
  - intros Hne. pose proof (Z.bit_log2 m ltac:(lia)) as Hb. destruct (Hm _ Hb) as (t & _ & E). exists t. by rewrite type_in_testbit, <- E.
  - intros [t Ht] ->. by destruct t.
Qed.

(** ** The [domain=] constraint *)
Section allows.
Context (host : list byte).

Lemma include_fold ds best : match best with Some (_, x) => x = false | None => True end ->
  match foldl (include_step host) best ds with
  | Some (l, x) => x = false /\ (best = Some (l, x) \/ exists d, d ∈ ds /\ host_under host d = true /\ l = len d) /\
      (match best with Some (l0, _) => l0 <= l | None => True end) /\ forall d, d ∈ ds -> host_under host d = true -> len d <= l
  | None => best = None /\ forall d, d ∈ ds -> host_under host d = false
  end.
Proof.
  revert best. induction ds as [|d ds IH]; intros best Hb; cbn [foldl].
  { destruct best as [[l x]|]; [|split; [done|]; by intros d ?%elem_of_nil]. split_and!; [done|by left|lia|]. by intros d ?%elem_of_nil. }
  assert (include_step host best d = if host_under host d && match best with Some (l, _) => l <? len d | None => true end then Some (len d, false) else best) as E by done.
  destruct (host_under host d) eqn:Eu; cbn [andb] in E.
  - assert (exists l, include_step host best d = Some (l, false) /\ len d <= l /\ match best with Some (l0, _) => l0 <= l | None => True end /\ (best = Some (l, false) \/ l = len d)) as (l & El & Hl & Hl0 & Hl1).
    { destruct best as [[l0 x]|]; [|exists (len d); split_and!; [done|lia|done|by right]]. subst x. destruct (l0 <? len d) eqn:Elt.
      - apply Z.ltb_lt in Elt. exists (len d). split_and!; [done|lia|lia|by right].
      - apply Z.ltb_ge in Elt. exists l0. split_and!; [done|lia|lia|by left]. }
    rewrite El. specialize (IH (Some (l, false)) eq_refl). destruct (foldl _ _ ds) as [[l' x]|].
    + destruct IH as (-> & H1 & H2 & H3). split_and!; [done| |destruct best as [[l0 ?]|]; [lia|done]|].
      * destruct H1 as [[= <-]|(d' & Hd' & H4 & H5)]; [|right; exists d'; split_and!; [by right|done|done]].
        destruct Hl1 as [->| ->]; [by left|]. right. exists d. split_and!; [by left|done|done].
      * intros d' [->|Hd']%elem_of_cons Hu; [lia|by apply H3].
    + by destruct IH as [? _].
  - rewrite E. specialize (IH best Hb). destruct (foldl _ _ ds) as [[l' x]|].
    + destruct IH as (-> & H1 & H2 & H3). split_and!; [done| |done|].
      * destruct H1 as [H1|(d' & Hd' & H4 & H5)]; [by left|]. right. exists d'. split_and!; [by right|done|done].
      * intros d' [->|Hd']%elem_of_cons Hu; [congruence|by apply H3].
    + destruct IH as [-> H]. split; [done|]. intros d' [->|Hd']%elem_of_cons; [done|by apply H].
Qed.

(** An exclusion as specific as the best so far replaces it. *)
Lemma exclude_fold ds best :
  match foldl (exclude_step host) best ds with
  | Some (_, false) => exists l, best = Some (l, false) /\ forall d, d ∈ ds -> host_under host d = true -> len d < l
  | Some (_, true) => (exists l, best = Some (l, true)) \/ exists d, d ∈ ds /\ host_under host d = true /\ match best with Some (l, _) => l <= len d | None => True end
  | None => best = None /\ forall d, d ∈ ds -> host_under host d = false
  end.
Proof.
  revert best. induction ds as [|d ds IH]; intros best; cbn [foldl].
  { destruct best as [[l []]|]; [left; by exists l|exists l; split; [done|]; by intros d ?%elem_of_nil|split; [done|]; by intros d ?%elem_of_nil]. }
  assert (exclude_step host best d = if host_under host d && match best with Some (l, _) => l <=? len d | None => true end then Some (len d, true) else best) as E by done.
  specialize (IH (exclude_step host best d)). destruct (host_under host d && _) eqn:Ec; rewrite E in IH |- *.
  - apply andb_true_iff in Ec as [Eu El]. destruct (foldl _ _ ds) as [[l' []]|]; [|destruct IH as (? & ? & _); done|by destruct IH].
    right. exists d. split_and!; [by left|done|]. destruct best as [[l b]|]; [lia|done].
  - assert (host_under host d = true -> exists l b, best = Some (l, b) /\ len d < l) as Hlow.
    { intros Hu. rewrite Hu in Ec. destruct best as [[l b]|]; [|done]. exists l, b. split; [done|]. cbn in Ec. lia. }
    destruct (foldl _ _ ds) as [[l' []]|].
    + destruct IH as [IH|(d' & Hd' & H)]; [by left|]. right. exists d'. split; [by right|done].
    + destruct IH as (l2 & E2 & H). exists l2. split; [done|]. intros d' [->|Hd']%elem_of_cons Hu; [|by apply H]. destruct (Hlow Hu) as (l & b & E3 & Hl). congruence.
    + destruct IH as [E2 H]. split; [done|]. intros d' [->|Hd']%elem_of_cons; [|by apply H]. destruct (host_under host d) eqn:Eu; [|done]. destruct (Hlow eq_refl) as (l & b & E3 & Hl). congruence.
Qed.
End allows.

Lemma allows_spec c host : let h := default [] host in
  allows c host = true <->
    (exists d, d ∈ include c /\ host_under h d = true /\ forall e, e ∈ exclude c -> host_under h e = true -> len e < len d) \/
    (include c = [] /\ forall e, e ∈ exclude c -> host_under h e = false).
Proof.
  intros h. unfold allows. fold h. pose proof (include_fold h (include c) None I) as Hi. pose proof (exclude_fold h (exclude c) (foldl (include_step h) None (include c))) as He.
  destruct (foldl (exclude_step h) _ (exclude c)) as [[l []]|]; cbn [negb].
  - split; [done|]. intros H. exfalso. destruct He as [[l0 He]|(e & Hin & Hu & Hle)]; [rewrite He in Hi; by destruct Hi as [? _]|].
    destruct H as [(d & Hd & Hud & Hlt)|[_ H]]; [|by rewrite H in Hu]. specialize (Hlt e Hin Hu).
    destruct (foldl _ None (include c)) as [[l1 ?]|]; [|destruct Hi as [_ Hi]; by rewrite Hi in Hud]. destruct Hi as (_ & _ & _ & Hmax). specialize (Hmax d Hd Hud). lia.
  - split; [|done]. intros _. destruct He as (l0 & E & H). rewrite E in Hi. destruct Hi as (_ & [[=]|(d & Hd & Hu & ->)] & _ & _). left. by exists d.
  - destruct He as [E H]. rewrite E in Hi. destruct Hi as [_ Hi]. rewrite bool_decide_eq_true. split; [by right|]. intros [(d & Hd & Hu & _)|[H1 _]]; [by rewrite Hi in Hu|done].
Qed.

(** ** What the options of a filter say *)
Inductive OptKind := Skip | Party (want : bool) | Importance | CaseMatters | DomainList (entries : list (list byte)) | TypeNamed (neg : bool) (t : ResourceType) | Unknown.

Definition opt_kind (opt : list byte) : OptKind :=
  if bool_decide (opt = []) then Skip
  else
    let neg := has_prefix [TILDE] opt in
    let body := if neg then drop 1 opt else opt in
    match split_once "="%byte body with
    | Some (n, v) => if bool_decide (to_ascii_lowercase n = lit "domain") && negb neg then DomainList (split_on PIPE v) else Unknown
    | None =>
        let n := to_ascii_lowercase body in
        if bool_decide (n ∈ map lit ["third-party"; "3p"]%string) then Party (negb neg)
        else if bool_decide (n ∈ map lit ["first-party"; "1p"]%string) then Party neg
        else if bool_decide (n = lit "important") && negb neg then Importance
        else if bool_decide (n = lit "match-case") && negb neg then CaseMatters
        else match from_option n with Some t => TypeNamed neg t | None => Unknown end
    end.

(** An entry of a [domain=] list: whether it is excluded, and the name. *)
Definition entry_reads (e : list byte) : bool * list byte :=
  match strip_prefix [TILDE] e with Some r => (true, to_ascii_lowercase r) | None => (false, to_ascii_lowercase e) end.

Definition apply_kind (o : Opts) (k : OptKind) : result RejectReason Opts :=
  match k with
  | Skip => Ok o
  | Party want => if bool_decide (o_third o = Some (negb want)) then Err ConflictingOptions else Ok (set_third want o)
  | Importance => Ok (set_important o)
  | CaseMatters => Ok (set_match_case o)
  | DomainList es =>
      if saw_domain o then Err ConflictingOptions
      else ds ← add_entries (o_domains o) es; Ok (set_domains (mkDomains (dedup (sort (include ds))) (dedup (sort (exclude ds)))) o)
  | TypeNamed neg t => Ok (if neg then add_neg t o else add_pos t o)
  | Unknown => Err UnsupportedOption
  end.

Lemma strip_tilde opt : match strip_prefix [TILDE] opt with Some r => (true, r) | None => (false, opt) end =
  (has_prefix [TILDE] opt, if has_prefix [TILDE] opt then drop 1 opt else opt).
Proof. unfold has_prefix. destruct opt as [|b opt]; [done|]. cbn [strip_prefix]. by case_bool_decide. Qed.

Lemma add_option_kind o opt : add_option o opt = apply_kind o (opt_kind opt).
Proof.
  unfold add_option, opt_kind. case_bool_decide; [done|]. rewrite strip_tilde. cbv beta zeta iota. generalize (if has_prefix [TILDE] opt then drop 1 opt else opt). intros body.
  generalize (has_prefix [TILDE] opt). intros neg. destruct (split_once "="%byte body) as [[n v]|].
  { destruct (bool_decide (_ = _) && _); [|done]. cbn [apply_kind]. done. }
  unfold is_party, is_first_party. cbn [map]. generalize (to_ascii_lowercase body). intros n.
  destruct (decide (n ∈ [lit "third-party"; lit "3p"])) as [H3|H3].
  { rewrite (bool_decide_eq_true_2 (n ∈ [lit "third-party"; lit "3p"])) by done.
    rewrite bool_decide_eq_true_2 by (change [lit "third-party"; lit "3p"; lit "first-party"; lit "1p"] with ([lit "third-party"; lit "3p"] ++ [lit "first-party"; lit "1p"]); apply elem_of_app; by left).
    rewrite (bool_decide_eq_false_2 (n ∈ [lit "first-party"; lit "1p"])); [done|].
    rewrite !elem_of_cons, elem_of_nil in H3 |- *. intros [->|[->|[]]]; destruct H3 as [E|[E|[]]]; by vm_compute in E. }
  rewrite (bool_decide_eq_false_2 (n ∈ [lit "third-party"; lit "3p"])) by done.
  destruct (decide (n ∈ [lit "first-party"; lit "1p"])) as [H1|H1].
  { rewrite (bool_decide_eq_true_2 (n ∈ [lit "first-party"; lit "1p"])) by done.
    rewrite bool_decide_eq_true_2 by (change [lit "third-party"; lit "3p"; lit "first-party"; lit "1p"] with ([lit "third-party"; lit "3p"] ++ [lit "first-party"; lit "1p"]); apply elem_of_app; by right).
    by rewrite !(negb_involutive neg). }
  rewrite (bool_decide_eq_false_2 (n ∈ [lit "first-party"; lit "1p"])) by done.
  rewrite bool_decide_eq_false_2 by (change [lit "third-party"; lit "3p"; lit "first-party"; lit "1p"] with ([lit "third-party"; lit "3p"] ++ [lit "first-party"; lit "1p"]); rewrite elem_of_app; tauto).
  destruct (bool_decide _ && _); [done|]. destruct (bool_decide _ && _); [done|]. by destruct (from_option n).
Qed.

Lemma from_option_named n t : from_option n = Some t -> t <> Document.
Proof. unfold from_option. repeat case_bool_decide; by intros [= <-]. Qed.

Lemma opt_kind_named opt neg t : opt_kind opt = TypeNamed neg t -> t <> Document.
Proof.
  unfold opt_kind. case_bool_decide; [done|]. destruct (split_once _ _) as [[n v]|]; [by destruct (_ && _)|].
  repeat (case_bool_decide; [try done|]; cbn [andb]); try (destruct (negb _); [done|]).
  all: try (destruct (from_option _) as [t'|] eqn:E; [|done]; intros [= _ <-]; by apply from_option_named in E).
Qed.

(** *** Domain lists *)
Definition domain_ok (d : list byte) : Prop := valid_domain d = true /\ to_ascii_lowercase d = d.
Definition domains_ok (ds : DomainConstraint) : Prop :=
  Forall domain_ok (include ds) /\ Forall domain_ok (exclude ds) /\ len (include ds) + len (exclude ds) <= MAX_DOMAINS_PER_RULE.
Definition domains_of (ex : bool) (ds : DomainConstraint) : list (list byte) := if ex then exclude ds else include ds.

Lemma add_entry_Ok ds e ds' : add_entry ds e = Ok ds' -> domains_ok ds -> domains_ok ds' /\
  forall ex, domains_of ex ds' = domains_of ex ds ++ (if bool_decide ((entry_reads e).1 = ex) then [(entry_reads e).2] else []).
Proof.
  unfold add_entry, entry_reads. destruct (strip_prefix [TILDE] e) as [r|]; cbn [fst snd]; generalize (default e (strip_prefix [TILDE] e)); intros _.
  all: destruct (_ || _); [done|]; destruct (valid_domain _) eqn:Ev; cbn [negb]; [|done]; cbn [include exclude].
  all: destruct (_ <? _) eqn:Ec; [done|]; intros [= <-] (H1 & H2 & H3); apply Z.ltb_ge in Ec; cbn [include exclude domains_of] in *.
  all: split; [split_and!; cbn [include exclude]; try done; apply Forall_app; (split; [done|]); apply Forall_singleton; (split; [done|]); apply to_ascii_lowercase_idem|].
  all: intros []; cbn; by rewrite ?app_nil_r.
Qed.

Lemma add_entries_Ok es ds ds' : add_entries ds es = Ok ds' -> domains_ok ds -> domains_ok ds' /\
  forall ex d, d ∈ domains_of ex ds' <-> d ∈ domains_of ex ds \/ (ex, d) ∈ map entry_reads es.
Proof.
  revert ds. induction es as [|e es IH]; intros ds; cbn [add_entries map].
  { intros [= <-] H. split; [done|]. intros ex d. rewrite elem_of_nil. tauto. }
  intros H Hok. apply bind_Ok in H as (ds1 & H1 & H2). destruct (add_entry_Ok _ _ _ H1 Hok) as [Hok1 E1]. destruct (IH _ H2 Hok1) as [Hok2 E2]. split; [done|].
  intros ex d. rewrite E2, E1, elem_of_app, elem_of_cons. destruct (entry_reads e) as [x y]. cbn [fst snd].
  case_bool_decide as Hx; [subst x; rewrite list_elem_of_singleton|rewrite elem_of_nil]; split; intros H; naive_solver.
Qed.

Lemma dedup_length {K} `{Ord K} (l : list K) : (length (dedup l) <= length l)%nat.
Proof. induction l as [|x l IH]; [done|]. simpl. destruct l as [|y l]; [done|]. destruct (cmp x y); simpl in *; lia. Qed.

Lemma sort_dedup_ok ds : domains_ok ds -> domains_ok (mkDomains (dedup (sort (include ds))) (dedup (sort (exclude ds)))).
Proof.
  intros (H1 & H2 & H3). split_and!; cbn [include exclude].
  - apply Forall_forall. intros d Hd. apply (proj1 (proj2 (sort_dedup _) d)) in Hd. by apply (proj1 (Forall_forall _ _) H1).
  - apply Forall_forall. intros d Hd. apply (proj1 (proj2 (sort_dedup _) d)) in Hd. by apply (proj1 (Forall_forall _ _) H2).
  - pose proof (dedup_length (sort (include ds))) as L1. pose proof (dedup_length (sort (exclude ds))) as L2.
    rewrite (Permutation_length (sort_perm (include ds))) in L1. rewrite (Permutation_length (sort_perm (exclude ds))) in L2. unfold len in *. lia.
Qed.

Lemma in_sort_dedup ds ex d : d ∈ domains_of ex (mkDomains (dedup (sort (include ds))) (dedup (sort (exclude ds)))) <-> d ∈ domains_of ex ds.
Proof. destruct ex; cbn; apply (proj2 (sort_dedup _)). Qed.

(** *** The options read so far *)
Definition sorted_domains (ds : DomainConstraint) : Prop := StronglySorted lt (include ds) /\ StronglySorted lt (exclude ds).
Record opts_ok (o : Opts) : Prop := {
  opts_pos : mask_ok (pos_types o); opts_neg : mask_ok (neg_types o); opts_domains : domains_ok (o_domains o); opts_sorted : sorted_domains (o_domains o) }.

Lemma no_opts_ok : opts_ok no_opts.
Proof. split; [apply mask_ok_0|apply mask_ok_0|by repeat constructor|by repeat constructor]. Qed.

(** The state after some options adds to the state before what they say. *)
Record adds (o o' : Opts) (ks : list OptKind) : Prop := {
  adds_pos t : type_in (pos_types o') t = true <-> type_in (pos_types o) t = true \/ TypeNamed false t ∈ ks;
  adds_neg t : type_in (neg_types o') t = true <-> type_in (neg_types o) t = true \/ TypeNamed true t ∈ ks;
  adds_third w : o_third o' = Some w <-> o_third o = Some w \/ Party w ∈ ks;
  adds_important : o_important o' = true <-> o_important o = true \/ Importance ∈ ks;
  adds_case : o_match_case o' = true <-> o_match_case o = true \/ CaseMatters ∈ ks;
  adds_domains ex d : d ∈ domains_of ex (o_domains o') <-> d ∈ domains_of ex (o_domains o) \/ exists es, DomainList es ∈ ks /\ (ex, d) ∈ map entry_reads es;
  adds_known : Unknown ∉ ks }.

Lemma adds_nil o : adds o o [].
Proof.
  split; intros; rewrite ?elem_of_nil; try tauto. split; [by left|]. intros [?|(? & []%elem_of_nil & _)]. done.
Qed.

Lemma adds_trans o1 o2 o3 k1 k2 : adds o1 o2 k1 -> adds o2 o3 k2 -> adds o1 o3 (k1 ++ k2).
Proof.
  intros A B. split; intros; rewrite ?elem_of_app.
  - rewrite (adds_pos _ _ _ B), (adds_pos _ _ _ A). tauto.
  - rewrite (adds_neg _ _ _ B), (adds_neg _ _ _ A). tauto.
  - rewrite (adds_third _ _ _ B), (adds_third _ _ _ A). tauto.
  - rewrite (adds_important _ _ _ B), (adds_important _ _ _ A). tauto.
  - rewrite (adds_case _ _ _ B), (adds_case _ _ _ A). tauto.
  - rewrite (adds_domains _ _ _ B), (adds_domains _ _ _ A). setoid_rewrite elem_of_app. naive_solver.
  - intros [H|H]; [by apply (adds_known _ _ _ A)|by apply (adds_known _ _ _ B)].
Qed.

Ltac kinds := repeat setoid_rewrite list_elem_of_singleton; naive_solver.

Lemma apply_kind_adds o k o' : apply_kind o k = Ok o' -> opts_ok o -> (forall neg t, k = TypeNamed neg t -> t <> Document) -> opts_ok o' /\ adds o o' [k].
Proof.
  intros H [Hp Hn Hd Hs] Hk. destruct k as [|want| | |es|neg t|]; cbn [apply_kind] in H.
  - injection H as <-. split; [by split|]. split; intros; kinds.
  - case_bool_decide as Hc; [done|]. injection H as <-. split; [by split|].
    split; cbn [pos_types neg_types o_third o_important o_match_case o_domains set_third]; intros; try kinds.
    rewrite list_elem_of_singleton. split; [naive_solver|]. intros [E|[= ->]]; [|done]. rewrite E in Hc. destruct w, want; try done; by destruct Hc.
  - injection H as <-. split; [by split|]. split; cbn; intros; kinds.
  - injection H as <-. split; [by split|]. split; cbn; intros; kinds.
  - destruct (saw_domain o); [done|]. apply bind_Ok in H as (ds & Hds & H). injection H as <-. destruct (add_entries_Ok _ _ _ Hds Hd) as [Hok E].
    split; [split; try done; cbn; [by apply sort_dedup_ok|by split; apply sort_dedup]|].
    split; cbn [pos_types neg_types o_third o_important o_match_case o_domains set_domains]; intros; try kinds.
    rewrite in_sort_dedup, E. setoid_rewrite list_elem_of_singleton. naive_solver.
  - specialize (Hk neg t eq_refl). destruct neg; injection H as <-; (split; [split; try done; by apply mask_ok_lor|]).
    all: split; cbn [pos_types neg_types o_third o_important o_match_case o_domains add_pos add_neg]; intros; rewrite ?type_in_lor, ?orb_true_iff, ?bool_decide_eq_true; kinds.
  - done.
Qed.

Lemma add_options_adds o l o' : add_options o l = Ok o' -> opts_ok o -> opts_ok o' /\ adds o o' (map opt_kind l).
Proof.
  revert o. induction l as [|x l IH]; intros o; cbn [add_options map].
  { intros [= <-] H. split; [done|apply adds_nil]. }
  intros H Hok. apply bind_Ok in H as (o1 & H1 & H2). rewrite add_option_kind in H1.
  destruct (apply_kind_adds _ _ _ H1 Hok (opt_kind_named x)) as [Hok1 A1]. destruct (IH _ H2 Hok1) as [Hok2 A2]. split; [done|].
  apply (adds_trans o o1 o' [opt_kind x] (map opt_kind l) A1 A2).
Qed.

(** ** Accepted filters *)
Definition body_of (l : list byte) : list byte := default l (strip_prefix (lit "@@") l).
Definition pattern_of (l : list byte) : list byte := (default (body_of l, []) (Url.rsplit_once DOLLAR (body_of l))).1.
Definition kinds_of (l : list byte) : list OptKind := map opt_kind (split_on ","%byte (default (body_of l, []) (Url.rsplit_once DOLLAR (body_of l))).2).

(** What restricts a rule to some requests. *)
Definition constraining (k : OptKind) : Prop := match k with Party _ | TypeNamed _ _ | DomainList _ => True | _ => False end.

Record rule_ok (r : Rule) : Prop := {
  rule_important : exception r && important r = false;
  rule_types : mask_ok (types r) /\ types r <> 0;
  rule_domains : domains_ok (domains r) /\ sorted_domains (domains r);
  rule_pattern : len (elems (pattern r)) <= MAX_PATTERN_BYTES }.

(** The rule says what its line says. *)
Record says (l : list byte) (r : Rule) : Prop := {
  says_exception : exception r = has_prefix (lit "@@") l;
  says_pattern : from_text (pattern_of l) (match_case r) = Ok (pattern r);
  says_types t : type_in (types r) t = true <->
    t <> Document /\ ((exists t', TypeNamed false t' ∈ kinds_of l) -> TypeNamed false t ∈ kinds_of l) /\ TypeNamed true t ∉ kinds_of l;
  says_third w : third_party r = Some w <-> Party w ∈ kinds_of l;
  says_important : important r = true <-> Importance ∈ kinds_of l;
  says_case : match_case r = true <-> CaseMatters ∈ kinds_of l;
  says_domains ex d : d ∈ domains_of ex (domains r) <-> exists es, DomainList es ∈ kinds_of l /\ (ex, d) ∈ map entry_reads es;
  says_known : Unknown ∉ kinds_of l;
  says_not_all : has_literal (pattern r) = true \/ exists k, k ∈ kinds_of l /\ constraining k }.

Lemma compile_length mc body es : compile mc body = Ok es -> length es = length body.
Proof.
  revert es. induction body as [|b body IH]; intros es; cbn [compile]; [by intros [= <-]|]. destruct (_ || _); [done|].
  intros H. apply bind_Ok in H as (es' & H & [= <-]). cbn. by rewrite (IH _ H).
Qed.

Lemma collapse_length out l : (length (collapse out l) <= length out + length l)%nat.
Proof.
  revert out. induction l as [|e l IH]; intros out; cbn [collapse length]; [lia|]. destruct (_ && _); [specialize (IH out); lia|].
  specialize (IH (out ++ [e])). rewrite length_app in IH. cbn in IH. lia.
Qed.

Lemma new_length l s e : (length (elems (new l s e)) <= length l)%nat.
Proof.
  unfold new. pose proof (collapse_length [] l) as Hc. cbn in Hc. revert Hc. generalize (collapse [] l). intros out Hc.
  assert (forall o s', (length o <= length l)%nat -> (length (elems (let '(o, e) := if ends_in_star o then (removelast o, false) else (o, e) in mkPattern o s' e)) <= length l)%nat) as H.
  { intros o s' Ho. destruct (ends_in_star o) eqn:E; [|done]. apply ends_in_star_spec in E as (o' & ->). rewrite removelast_last. cbn. rewrite length_app in Ho. lia. }
  destruct (_ && _); apply H; [|done]. destruct out; cbn in *; lia.
Qed.

Lemma from_text_length t mc p : from_text t mc = Ok p -> len (elems p) <= MAX_PATTERN_BYTES.
Proof.
  unfold from_text. destruct (match strip_prefix [PIPE; PIPE] t with Some _ => _ | None => _ end) as [s body]. destruct (match strip_suffix [PIPE] body with Some _ => _ | None => _ end) as [e b].
  destruct (_ <? _) eqn:El; [done|]. intros H. apply bind_Ok in H as (es & H & [= <-]). apply compile_length in H. apply Z.ltb_ge in El. pose proof (new_length es s e). unfold len in *. lia.
Qed.

Lemma domains_empty_spec ds : domains_empty ds = false -> exists ex d, d ∈ domains_of ex ds.
Proof.
  unfold domains_empty. destruct (include ds) as [|d l] eqn:Ei; [|exists false, d; cbn; rewrite Ei; by left].
  destruct (exclude ds) as [|d l] eqn:Ee; [done|]. exists true, d. cbn. rewrite Ee. by left.
Qed.

Lemma parse_rule_spec l n r : parse_network_filter l n = Ok r -> says l r /\ rule_ok r /\ line r = n /\ text r = l.
Proof.
  unfold parse_network_filter. rewrite (surjective_pairing (match strip_prefix (lit "@@") l with Some _ => _ | None => _ end)).
  assert ((match strip_prefix (lit "@@") l with Some rest => (true, rest) | None => (false, l) end).1 = has_prefix (lit "@@") l) as ->.
  { unfold has_prefix. destruct (strip_prefix _ _); [by rewrite bool_decide_eq_true_2|by rewrite bool_decide_eq_false_2 by (by intros [? ?])]. }
  assert ((match strip_prefix (lit "@@") l with Some rest => (true, rest) | None => (false, l) end).2 = body_of l) as -> by (unfold body_of; by destruct (strip_prefix _ _)).
  destruct (is_regex_filter _); [done|]. rewrite (surjective_pairing (default (body_of l, []) _)). fold (pattern_of l).
  intros H. apply bind_Ok in H as (o & Ho & H). destruct (add_options_adds _ _ _ Ho no_opts_ok) as [[Hp Hn Hd Hs] [Ap An At Ai Ac Ad Ak]]. fold (kinds_of l) in *.
  destruct (has_prefix _ _ && _) eqn:Ei; [done|]. destruct (_ =? 0) eqn:Et in H; [done|]. apply Z.eqb_neq in Et.
  apply bind_Ok in H as (p & Hpt & H). destruct (negb (has_literal p) && _) eqn:Em; [done|]. injection H as <-.
  assert (from_text (pattern_of l) (o_match_case o) = Ok p) as Hpt' by (destruct (from_text _ _); [by injection Hpt as ->|done]).
  assert (forall t, type_in (Z.land (if pos_types o =? 0 then DEFAULT else pos_types o) (Z.lxor U16_MAX (neg_types o))) t = true <->
    t <> Document /\ ((exists t', TypeNamed false t' ∈ kinds_of l) -> TypeNamed false t ∈ kinds_of l) /\ TypeNamed true t ∉ kinds_of l) as Htypes.
  { intros t. rewrite type_in_except, andb_true_iff, negb_true_iff, <- not_true_iff_false, An. assert (type_in 0 t = false) as H0 by (by destruct t). cbn [no_opts neg_types]. rewrite H0.
    destruct (pos_types o =? 0) eqn:E0.
    - apply Z.eqb_eq in E0. rewrite type_in_default, negb_true_iff, bool_decide_eq_false. assert (forall t', TypeNamed false t' ∉ kinds_of l) as Hno by (intros t' Ht'; assert (type_in (pos_types o) t' = true) as E by (apply Ap; by right); rewrite E0 in E; by destruct t').
      naive_solver.
    - apply Z.eqb_neq in E0. pose proof (mask_ok_document _ Hp) as Hdoc. apply (mask_ok_ne _ Hp) in E0 as (t0 & Ht0). rewrite Ap in Ht0. cbn [no_opts pos_types] in Ht0. destruct Ht0 as [Ht0|Ht0]; [by destruct t0|].
      rewrite Ap. cbn [no_opts pos_types]. rewrite H0. assert (TypeNamed false t ∈ kinds_of l -> t <> Document) as Hnd.
      { intros Ht ->. assert (type_in (pos_types o) Document = true) as E by (apply Ap; by right). congruence. }
      naive_solver. }
  split_and!; [| |done|done].
  - split; cbn [exception pattern match_case types third_party important domains]; [done|done|exact Htypes| | | | |done|].
    + intros w. rewrite At. naive_solver.
    + rewrite Ai. naive_solver.
    + rewrite Ac. naive_solver.
    + intros ex d. rewrite Ad. split; [|by right]. intros [H|H]; [|done]. destruct ex; by apply elem_of_nil in H.
    + destruct (has_literal p); [by left|right]. apply negb_false_iff in Em. rewrite !orb_true_iff in Em. destruct Em as [[[E|E]|E]|E].
      * apply negb_true_iff, Z.eqb_neq, (mask_ok_ne _ Hp) in E as (t & Ht). apply Ap in Ht as [Ht|Ht]; [by destruct t|]. by exists (TypeNamed false t).
      * apply negb_true_iff, Z.eqb_neq, (mask_ok_ne _ Hn) in E as (t & Ht). apply An in Ht as [Ht|Ht]; [by destruct t|]. by exists (TypeNamed true t).
      * apply bool_decide_eq_true in E as [w Hw]. apply At in Hw as [Hw|Hw]; [done|]. by exists (Party w).
      * apply negb_true_iff, domains_empty_spec in E as (ex & d & Hin). apply Ad in Hin as [Hin|(es & Hes & _)]; [destruct ex; by apply elem_of_nil in Hin|]. by exists (DomainList es).
  - split; cbn [exception pattern match_case types third_party important domains]; [done| |done|by eapply from_text_length].
    split; [|done]. apply mask_ok_land. destruct (_ =? 0); [apply mask_ok_default|done].
Qed.

(** ** Every line is counted once *)
Definition exception_count (rs : list Rule) : Z := sum_Z (fun r => if exception r then 1 else 0) rs.

Record stats_ok (p : ParsedList) : Prop := {
  stats_sorted : bt_sorted (rejected (stats p));
  stats_lines : lines (stats p) = blank (stats p) + comments (stats p) + headers (stats p) + cosmetic_skipped (stats p) + accepted (stats p) + rejected_total (stats p);
  stats_accepted : accepted (stats p) = len (rules p);
  stats_exceptions : exceptions (stats p) = exception_count (rules p);
  stats_scriptlets : 0 <= scriptlet_skipped (stats p) <= cosmetic_skipped (stats p);
  stats_cap : len (rules p) <= MAX_RULES_PER_LIST }.

Lemma rejected_total_insert s r : bt_sorted (rejected s) -> rejected_total (count_rejected r s) = rejected_total s + 1.
Proof.
  intros Hs. unfold rejected_total, count_rejected, rejected_for. cbn [rejected]. rewrite bt_sum_insert by done. cbn [snd].
  destruct (bt_get (rejected s) r); simpl; lia.
Qed.

(** Rejecting a line keeps the rules and counts it. *)
Lemma rejected_ok p s r : stats_ok p -> rejected s = rejected (stats p) -> lines s = lines (stats p) + 1 -> blank s = blank (stats p) -> comments s = comments (stats p) ->
  headers s = headers (stats p) -> cosmetic_skipped s = cosmetic_skipped (stats p) -> scriptlet_skipped s = scriptlet_skipped (stats p) -> accepted s = accepted (stats p) ->
  exceptions s = exceptions (stats p) -> stats_ok (mkParsed (rules p) (count_rejected r s)).
Proof.
  intros [H1 H2 H3 H4 H5 H6] Er El Eb Ec Eh Eo Es Ea Ee. split; cbn [stats rules]; try done.
  - cbn. rewrite Er. by apply bt_sorted_insert.
  - rewrite rejected_total_insert by (by rewrite Er). unfold rejected_total in *. cbn [count_rejected lines blank comments headers cosmetic_skipped accepted]. rewrite Er. lia.
  - cbn. lia.
  - cbn. lia.
  - cbn. lia.
Qed.

(** The rule a line gives. *)
Definition accepted_line (idx : Z) (raw : list byte) : option Rule :=
  if MAX_LINE_BYTES <? len raw then None
  else match classify (trim raw) with
       | Network => ok (parse_network_filter (trim raw) (default U32_MAX (try_from U32_MAX (sat_add idx 1))))
       | _ => None
       end.

Fixpoint accepted_lines (idx : Z) (ls : list (list byte)) : list Rule :=
  match ls with [] => [] | raw :: ls => match accepted_line idx raw with Some r => r :: accepted_lines (idx + 1) ls | None => accepted_lines (idx + 1) ls end end.

Lemma parse_line_spec p idx raw : stats_ok p -> stats_ok (parse_line p idx raw) /\ lines (stats (parse_line p idx raw)) = lines (stats p) + 1 /\
  rules (parse_line p idx raw) = take (Z.to_nat MAX_RULES_PER_LIST) (rules p ++ match accepted_line idx raw with Some r => [r] | None => [] end).
Proof.
  intros Hok. assert (rules p = take (Z.to_nat MAX_RULES_PER_LIST) (rules p ++ [])) as Hsame.
  { rewrite app_nil_r, take_ge; [done|]. pose proof (stats_cap _ Hok). unfold len in *. lia. }
  unfold parse_line, accepted_line. generalize (default U32_MAX (try_from U32_MAX (sat_add idx 1))). intros lineno.
  destruct (MAX_LINE_BYTES <? len raw); [split_and!; [by apply rejected_ok|done|done]|].
  destruct (classify (trim raw)) as [| | |scriptlet|].
  1-4: split_and!; [destruct Hok as [H1 H2 H3 H4 H5 H6]; split; cbn [stats rules]; try done; unfold rejected_total in *; cbn -[sum_Z] in *; try (destruct scriptlet); lia|done|done].
  destruct (_ <=? _) eqn:Ecap.
  { apply Z.leb_le in Ecap. split_and!; [by apply rejected_ok|done|]. cbn [rules]. rewrite take_app_le by (unfold len in *; lia).
    rewrite take_ge; [done|]. pose proof (stats_cap _ Hok). unfold len in *. lia. }
  apply Z.leb_gt in Ecap. destruct (parse_network_filter _ _) as [r|reason]; [|split_and!; [by apply rejected_ok|done|exact Hsame]].
  split_and!; [|done|].
  - destruct Hok as [H1 H2 H3 H4 H5 H6]. split; cbn [stats rules count_accepted]; try done; unfold rejected_total, exception_count in *; cbn -[sum_Z] in *; rewrite ?len_app, ?sum_Z_app; unfold len in *; cbn -[sum_Z]; rewrite ?sum_Z_cons; destruct (exception r); cbn; lia.
  - cbn [rules ok]. rewrite take_ge; [done|]. rewrite length_app. cbn. unfold len in *. lia.
Qed.

Lemma take_take_app {A} n (l k : list A) : take n (take n l ++ k) = take n (l ++ k).
Proof.
  destruct (decide (length l <= n)%nat); [by rewrite (take_ge l) by done|].
  rewrite !take_app_le by (rewrite ?length_take; lia). by rewrite take_take, Nat.min_id.
Qed.

Lemma parse_lines_spec ls p idx : stats_ok p -> stats_ok (parse_lines p idx ls) /\ lines (stats (parse_lines p idx ls)) = lines (stats p) + len ls /\
  rules (parse_lines p idx ls) = take (Z.to_nat MAX_RULES_PER_LIST) (rules p ++ accepted_lines idx ls).
Proof.
  revert p idx. induction ls as [|raw ls IH]; intros p idx Hok; cbn [parse_lines accepted_lines].
  { split_and!; [done|unfold len; cbn; lia|]. rewrite app_nil_r, take_ge; [done|]. pose proof (stats_cap _ Hok). unfold len in *. lia. }
  destruct (parse_line_spec p idx raw Hok) as (Hok' & Hl & Hr). destruct (IH _ (idx + 1) Hok') as (H1 & H2 & H3). split_and!; [done|rewrite H2, Hl, len_cons; lia|].
  rewrite H3, Hr, take_take_app, <- app_assoc. by destruct (accepted_line idx raw).
Qed.

(** ** Lists: what is kept of a text *)
Definition body_text (text : list byte) : list byte := default text (strip_prefix BOM text).
Definition kept_text (text : list byte) : list byte :=
  let t := body_text text in if MAX_LIST_BYTES <? len t then cut_at_line t (Z.to_nat MAX_LIST_BYTES) else t.

Lemma stats_ok_start b : stats_ok (mkParsed [] (if b : bool then set_truncated stats_default else stats_default)).
Proof. by destruct b. Qed.

Lemma parse_start s ls : stats_ok (mkParsed [] s) -> lines s = 0 -> let p := parse_lines (mkParsed [] s) 0 ls in
  stats_ok p /\ lines (stats p) = len ls /\ rules p = take (Z.to_nat MAX_RULES_PER_LIST) (accepted_lines 0 ls).
Proof.
  intros H Hs p. destruct (parse_lines_spec ls _ 0 H) as (H1 & H2 & H3). split_and!; [exact H1|unfold p; rewrite H2; cbn [stats]; lia|].
  unfold p. rewrite H3. f_equal.
Qed.

Lemma parse_list_spec text : stats_ok (parse_list text) /\ lines (stats (parse_list text)) = len (split_on NEWLINE (kept_text text)) /\
  rules (parse_list text) = take (Z.to_nat MAX_RULES_PER_LIST) (accepted_lines 0 (split_on NEWLINE (kept_text text))).
Proof.
  unfold parse_list, kept_text. fold (body_text text). pose proof (stats_ok_start (MAX_LIST_BYTES <? len (body_text text))) as H.
  destruct (MAX_LIST_BYTES <? len (body_text text)).
  - generalize (cut_at_line (body_text text) (Z.to_nat MAX_LIST_BYTES)). intros t. by apply parse_start.
  - by apply parse_start.
Qed.

Lemma accepted_lines_in idx ls r : r ∈ accepted_lines idx ls -> exists k raw, ls !! k = Some raw /\ accepted_line (idx + Z.of_nat k) raw = Some r.
Proof.
  revert idx. induction ls as [|raw ls IH]; intros idx; cbn [accepted_lines]; [by intros ?%elem_of_nil|].
  assert (r ∈ accepted_lines (idx + 1) ls -> exists k raw0, (raw :: ls) !! k = Some raw0 /\ accepted_line (idx + Z.of_nat k) raw0 = Some r) as Hrest.
  { intros (k & raw' & Hk & Hr)%IH. exists (S k), raw'. split; [done|]. by replace (idx + Z.of_nat (S k)) with (idx + 1 + Z.of_nat k) by lia. }
  destruct (accepted_line idx raw) as [r0|] eqn:E; [|exact Hrest]. intros [->|H]%elem_of_cons; [|by apply Hrest]. exists 0%nat, raw. split; [done|]. by rewrite Z.add_0_r.
Qed.

Lemma accepted_line_Some idx raw r : accepted_line idx raw = Some r ->
  len raw <= MAX_LINE_BYTES /\ classify (trim raw) = Network /\ exists n, parse_network_filter (trim raw) n = Ok r.
Proof.
  unfold accepted_line. destruct (_ <? _) eqn:E; [done|]. destruct (classify (trim raw)); try done. intros H%ok_Some. apply Z.ltb_ge in E. split_and!; [done|done|by eexists].
Qed.

Lemma floor_boundary_prefix rh next : exists k, rh = k ++ floor_boundary rh next.
Proof.
  revert next. induction rh as [|c rh IH]; intros [b|]; cbn [floor_boundary].
  - exists []. by destruct (cont b).
  - by exists [].
  - destruct (cont b); [|by exists []]. destruct (IH (Some c)) as [k Hk]. exists (c :: k). cbn. by f_equal.
  - by exists [].
Qed.

(** The cut keeps whole lines. *)
Lemma cut_whole_lines text cap raw : raw ∈ split_on NEWLINE (cut_at_line text cap) -> raw = [] \/ raw ∈ split_on NEWLINE text.
Proof.
  unfold cut_at_line. destruct (floor_boundary_prefix (reverse (take cap text)) (text !! cap)) as [k Hk]. revert Hk. generalize (floor_boundary (reverse (take cap text)) (text !! cap)). intros h Hk.
  apply (f_equal reverse) in Hk. rewrite reverse_involutive, reverse_app in Hk. pose proof (take_drop cap text) as Ht. rewrite Hk in Ht.
  destruct (Url.rsplit_once NEWLINE (reverse h)) as [[before after]|] eqn:E; [|left; by apply list_elem_of_singleton in H].
  apply rsplit_once_Some in E as [E _]. rewrite E in Ht. rewrite <- Ht, <- !app_assoc. cbn [app]. rewrite !split_on_cat. cbn [split_on]. intros [H|H]%elem_of_app; [right; apply elem_of_app; by left|].
  left. by apply list_elem_of_singleton in H.
Qed.

Lemma in_take {A} n (x : A) l : x ∈ take n l -> x ∈ l.
Proof. intros H. rewrite <- (take_drop n l). apply elem_of_app. by left. Qed.

Lemma parse_list_rules text r : r ∈ rules (parse_list text) -> exists raw n, raw ∈ split_on NEWLINE (body_text text) /\ len raw <= MAX_LINE_BYTES /\ classify (trim raw) = Network /\
  parse_network_filter (trim raw) n = Ok r.
Proof.
  destruct (parse_list_spec text) as (_ & _ & ->). intros H%in_take. apply accepted_lines_in in H as (k & raw & Hk & (Hl & Hc & n & Hp)%accepted_line_Some).
  exists raw, n. split_and!; try done. apply list_elem_of_lookup_2 in Hk. unfold kept_text in Hk. destruct (_ <? _); [|done].
  apply cut_whole_lines in Hk as [->|Hk]; [by vm_compute in Hc|done].
Qed.

(** ** The claims *)
(** C22: An accepted filter is read whole: the rule is an exception exactly when its
    line begins with [@@], its pattern is the text before the last [$], its types are
    the ones named (or all nine) without the negated ones and never a navigation, its
    party, case, importance and domain constraints are the ones among its options, no
    option was unknown, something restricts it, and it is within the limits. *)
Theorem filters_are_read_whole l n r : parse_network_filter l n = Ok r -> says l r /\ rule_ok r /\ line r = n /\ text r = l.
Proof. apply parse_rule_spec. Qed.

Definition sample_filter : list byte := lit "@@||ads.com^$~script,3p,domain=b.com|~c.b.com".
Lemma filters_are_read_whole_witness : exists r, parse_network_filter sample_filter 7 = Ok r /\ type_in (types r) Script = false /\ says sample_filter r.
Proof. eexists. split; [vm_compute; reflexivity|]. split; [reflexivity|]. apply (filters_are_read_whole sample_filter 7). vm_compute. reflexivity. Defined.

(** Every line of a list is counted once, under one heading, however the list is
    cut; the rules are the accepted lines in order, up to the cap, each one read from a
    whole line of the text and well formed. *)
Theorem every_line_counted text : stats_ok (parse_list text) /\ lines (stats (parse_list text)) = len (split_on NEWLINE (kept_text text)) /\
  rules (parse_list text) = take (Z.to_nat MAX_RULES_PER_LIST) (accepted_lines 0 (split_on NEWLINE (kept_text text))) /\
  forall r, r ∈ rules (parse_list text) -> exists raw n, raw ∈ split_on NEWLINE (body_text text) /\ says (trim raw) r /\ rule_ok r /\ line r = n.
Proof.
  destruct (parse_list_spec text) as (H1 & H2 & H3). split_and!; [done..|]. intros r (raw & n & Hin & _ & _ & Hp)%parse_list_rules.
  destruct (parse_rule_spec _ _ _ Hp) as (Hs & Hr & Hl & _). by exists raw, n.
Qed.

(** Of the [domain=] entries that apply to a page, the longest decides, an exclusion
    winning a tie; with none, the rule applies exactly when no page is named. *)
Theorem most_specific_domain_decides c host : let h := default [] host in
  allows c host = true <->
    (exists d, d ∈ include c /\ host_under h d = true /\ forall e, e ∈ exclude c -> host_under h e = true -> len e < len d) \/
    (include c = [] /\ forall e, e ∈ exclude c -> host_under h e = false).
Proof. apply allows_spec. Qed.

(** *** A list given as bytes may be cut inside a line *)
Lemma accepted_blank n idx ls : accepted_lines idx (replicate n [] ++ ls) = accepted_lines (idx + Z.of_nat n) ls.
Proof.
  revert idx. induction n as [|n IH]; intros idx; cbn [replicate app accepted_lines]; [by rewrite Z.add_0_r|].
  replace (accepted_line idx []) with (@None Rule) by reflexivity. rewrite IH. f_equal. lia.
Qed.

Lemma split_newlines n l : NEWLINE ∉ l -> split_on NEWLINE (replicate n NEWLINE ++ l) = replicate n [] ++ [l].
Proof. intros Hl. induction n as [|n IH]; cbn [replicate app]; [by apply split_on_single|]. cbn [split_on]. rewrite bool_decide_eq_true_2 by done. by rewrite IH. Qed.

Lemma is_ascii_newlines n l : is_ascii l = true -> is_ascii (replicate n NEWLINE ++ l) = true.
Proof. intros H. unfold is_ascii in *. rewrite forallb_app, H, andb_true_r. induction n; [done|]. by cbn. Qed.

Lemma len_newlines n l : len (replicate n NEWLINE ++ l) = Z.of_nat n + len l.
Proof. rewrite len_app. unfold len. by rewrite length_replicate. Qed.

Lemma kept_whole t : len (body_text t) <= MAX_LIST_BYTES -> kept_text t = body_text t.
Proof. intros H. unfold kept_text. by rewrite (proj2 (Z.ltb_ge _ _) H). Qed.

Lemma parse_list_bytes_cut bytes n : Z.of_nat n = MAX_LIST_BYTES -> MAX_LIST_BYTES < len bytes -> rules (parse_list_bytes bytes) = rules (parse_list (utf8_lossy (take n bytes))).
Proof. intros Hn H. unfold parse_list_bytes. rewrite <- Hn, Nat2Z.id in *. by rewrite (proj2 (Z.ltb_lt _ _) H). Qed.

Lemma first_rule n ls r l : rules (parse_list l) = take (Z.to_nat MAX_RULES_PER_LIST) (accepted_lines n ls) -> head (accepted_lines n ls) = Some r -> r ∈ rules (parse_list l).
Proof.
  intros -> H. assert (exists m, Z.to_nat MAX_RULES_PER_LIST = S m) as [m ->] by (exists (Z.to_nat (MAX_RULES_PER_LIST - 1)); unfold MAX_RULES_PER_LIST; lia).
  destruct (accepted_lines n ls) as [|r' l']; [done|]. injection H as ->. apply list_elem_of_here.
Qed.

Lemma ad_rule idx : exists r, accepted_lines idx [lit "ad"] = [r] /\ text r = lit "ad".
Proof.
  cbn [accepted_lines]. unfold accepted_line. generalize (default U32_MAX (try_from U32_MAX (sat_add idx 1))). intros k.
  destruct (parse_network_filter (lit "ad") k) as [r|e] eqn:E; [|vm_compute in E; done]. pose proof E as Ht. apply parse_rule_spec in Ht as (_ & _ & _ & Ht).
  change (trim (lit "ad")) with (lit "ad"). rewrite E. by exists r.
Qed.

Lemma cut_line_kept n rest : Z.of_nat n + 2 = MAX_LIST_BYTES -> 0 < len rest ->
  exists r, r ∈ rules (parse_list_bytes (replicate n NEWLINE ++ lit "ad" ++ rest)) /\ text r = lit "ad".
Proof.
  intros Hn Hr. rewrite (parse_list_bytes_cut _ (n + 2)%nat) by (rewrite <- Hn, ?len_newlines, ?len_app; change (len (lit "ad")) with 2; lia).
  assert (take (n + 2) (replicate n NEWLINE ++ lit "ad" ++ rest) = replicate n NEWLINE ++ lit "ad") as ->.
  { rewrite app_assoc. apply take_app_length'. by rewrite length_app, length_replicate. }
  rewrite utf8_lossy_ascii by (by apply is_ascii_newlines). destruct (parse_list_spec (replicate n NEWLINE ++ lit "ad")) as (_ & _ & H).
  assert (body_text (replicate n NEWLINE ++ lit "ad") = replicate n NEWLINE ++ lit "ad") as Hb by (by destruct n).
  rewrite kept_whole, Hb in H by (rewrite Hb, len_newlines, <- Hn; change (len (lit "ad")) with 2; lia).
  rewrite split_newlines in H by (apply (bool_decide_unpack _); vm_compute; exact I).
  destruct (ad_rule (0 + Z.of_nat n)) as (r & Er & Ht). exists r. split; [|done]. eapply first_rule; [exact H|]. by rewrite accepted_blank, Er.
Qed.

(** The rule text of a list given as bytes need not be a line of it. *)
Theorem half_a_line_is_a_rule : exists bytes r, r ∈ rules (parse_list_bytes bytes) /\ text r ∉ split_on NEWLINE bytes.
Proof.
  assert (Z.of_nat (Z.to_nat (MAX_LIST_BYTES - 2)) + 2 = MAX_LIST_BYTES) as Hn by (rewrite Z2Nat.id by done; lia).
  destruct (cut_line_kept _ (lit "vert.example/banner") Hn ltac:(done)) as (r & Hr & Ht).
  eexists _, r. split; [exact Hr|]. rewrite Ht. generalize (Z.to_nat (MAX_LIST_BYTES - 2)). intros n.
  rewrite split_newlines by (apply (bool_decide_unpack _); vm_compute; exact I). rewrite elem_of_app, list_elem_of_singleton. intros [H|H]; [|done].
  apply elem_of_replicate in H as [H _]. done.
Qed.
