(* ===== verification/BlockMatcher.v ===== *)
(** * The rule index (px-block/src/matcher.rs)

    Building the index, looking a request up in it, and the theorem that the index
    decides every request as a scan of all the rules in order would. *)
From Stdlib Require Import Sorting.Sorted.
From S2P Require Import Prelude Bytes OrdMap Text Chars Partition WebUrl WebOrigin BlockGlob BlockFilter.
Local Open Scope Z_scope.

Definition MAX_TOTAL_RULES : Z := 1000000.

Inductive Verdict := Allow | Block (rule_id : Z) | AllowedByException (rule_id : Z).
#[export] Instance verdict_eq_dec : EqDecision Verdict.
Proof. solve_decision. Defined.

Record Request := mkRequest { r_url : Url.t; source_origin : option WOrigin.t; resource_type : ResourceType; r_third_party : bool }.

Definition is_third_party {T} `{SiteResolver T} (url : Url.t) (source : option WOrigin.t) (resolver : T) : counted bool :=
  match source with
  | None => counted_ret false
  | Some s =>
      if WOrigin.is_opaque s then counted_ret true
      else let* o := WOrigin.from_url url in counted_ret (negb (schemelessly_same_site o s resolver))
  end.

Record RuleInfo := mkInfo { i_list : Z; i_list_name : list byte; i_line : Z; i_text : list byte }.

(** ** What a rule is matched against *)
Module Target.
Record t := mkTarget { full : list byte; lower : list byte; host : nat * nat }.

Definition NETWORK_SCHEMES : list (list byte) := map lit ["http"; "https"; "ws"; "wss"; "ftp"]%string.

Definition build (url : Url.t) (host : list byte) : option t :=
  if negb (bool_decide (Url.scheme url ∈ NETWORK_SCHEMES)) then None
  else
    let full := Url.scheme url ++ lit "://" in
    let hs := length full in
    let full := full ++ host in
    let he := length full in
    let full := match Url.port url with Some p => full ++ COLON :: decimal p | None => full end in
    let full := full ++ Url.path url in
    let full := match Url.query url with Some q => full ++ QUESTION :: q | None => full end in
    Some (mkTarget full (to_ascii_lowercase full) (hs, he)).

Definition from_url (url : Url.t) : option t := host ← Url.host url; build url (serialize_host host).
Definition with_host (url : Url.t) (host : list byte) : option t := _ ← Url.host url; build url host.
End Target.

(** ** Building *)
Record Entry := mkEntry { rule : Rule; e_list : Z }.
Definition MatcherBuilder : Type := list (list byte * ParsedList).
Definition add_list (b : MatcherBuilder) (name : list byte) (l : ParsedList) : MatcherBuilder := if len b <? U16_MAX then b ++ [(name, l)] else b.

Record Matcher := mkMatcher { entries : list Entry; list_names : list (list byte); index : btree (list byte) (list Z); untokenized : list Z; dropped : Z }.

(** The rules of a list, until the cap. *)
Fixpoint add_rules (li : Z) (rs : list Rule) (es : list Entry) (dropped : Z) : list Entry * Z :=
  match rs with
  | [] => (es, dropped)
  | r :: rs => if MAX_TOTAL_RULES <=? len es then add_rules li rs es (dropped + 1) else add_rules li rs (es ++ [mkEntry r li]) dropped
  end.

Fixpoint collect (li : Z) (b : MatcherBuilder) (es : list Entry) (names : list (list byte)) (dropped : Z) : list Entry * list (list byte) * Z :=
  match b with
  | [] => (es, names, dropped)
  | (name, l) :: b =>
      let '(es, dropped) := add_rules (default U16_MAX (try_from U16_MAX li)) (rules l) es dropped in
      collect (li + 1) b es (names ++ [name]) dropped
  end.

(** Pass 1: how many rules could use each token. *)
Definition count_token (f : btree (list byte) Z) (t : list byte) : btree (list byte) Z := bt_insert f t (default 0 (bt_get f t) + 1).
Definition frequencies (es : list Entry) : btree (list byte) Z := foldl (fun f e => foldl count_token f (index_tokens (pattern (rule e)))) [] es.

(** The rarest token, then the longest, then the first in order; [min_by] keeps the
    first of equals. *)
Definition cmp_tokens (f : btree (list byte) Z) (a b : list byte) : comparison :=
  cmp_then (cmp (default 0 (bt_get f a)) (default 0 (bt_get f b))) (cmp_then (cmp (len b) (len a)) (cmp a b)).
Fixpoint min_by {A} (c : A -> A -> comparison) (l : list A) : option A :=
  match l with
  | [] => None
  | x :: l => match min_by c l with Some y => Some (match c x y with Gt => y | _ => x end) | None => Some x end
  end.

(** Pass 2: each rule under its rarest token. *)
Definition file_rule (f : btree (list byte) Z) (ix : btree (list byte) (list Z)) (un : list Z) (id : Z) (e : Entry) : btree (list byte) (list Z) * list Z :=
  match min_by (cmp_tokens f) (index_tokens (pattern (rule e))) with
  | Some t => (bt_insert ix t (default [] (bt_get ix t) ++ [id]), un)
  | None => (ix, un ++ [id])
  end.
Fixpoint file_rules (f : btree (list byte) Z) (ix : btree (list byte) (list Z)) (un : list Z) (i : Z) (es : list Entry) : btree (list byte) (list Z) * list Z :=
  match es with
  | [] => (ix, un)
  | e :: es => let '(ix, un) := file_rule f ix un (default U32_MAX (try_from U32_MAX i)) e in file_rules f ix un (i + 1) es
  end.

Definition build (b : MatcherBuilder) : Matcher :=
  let '(es, names, dropped) := collect 0 b [] [] 0 in
  let '(ix, un) := file_rules (frequencies es) [] [] 0 es in
  mkMatcher es names ix un dropped.

Definition from_list (name : list byte) (l : ParsedList) : Matcher := build (add_list [] name l).

Definition get_entry (m : Matcher) (id : Z) : option Entry := entries m !! Z.to_nat id.
Definition list_name (m : Matcher) (idx : Z) : option (list byte) := list_names m !! Z.to_nat idx.
Definition get_rule (m : Matcher) (id : Z) : option Rule := rule <$> get_entry m id.
Definition rule_info (m : Matcher) (id : Z) : option RuleInfo :=
  e ← get_entry m id;
  Some (mkInfo (e_list e) (default [] (list_name m (e_list e))) (line (rule e)) (text (rule e))).
Definition max_bucket (m : Matcher) : Z := foldr (fun p n => Z.max (len p.2) n) 0 (index m).

(** ** Deciding *)
(** The checks of one candidate, in the code's order. *)
Definition applies (r : Rule) (t : Target.t) (source_host : option (list byte)) (ty : ResourceType) (tp : bool) : bool :=
  type_in (types r) ty &&
  match third_party r with Some want => Bool.eqb want tp | None => true end &&
  allows (domains r) source_host &&
  matches (pattern r) (if match_case r then Target.full t else Target.lower t) (Some (Target.host t)).

Definition or_first (o : option Z) (id : Z) : option Z := match o with Some _ => o | None => Some id end.

Fixpoint check_loop (m : Matcher) (hit : Rule -> bool) (cands : list Z) (ex block : option Z) : Verdict :=
  match cands with
  | [] =>
      match ex, block with
      | Some id, _ => AllowedByException id
      | None, Some id => Block id
      | None, None => Allow
      end
  | id :: cands =>
      match get_entry m id with
      | None => check_loop m hit cands ex block
      | Some e =>
          if negb (hit (rule e)) then check_loop m hit cands ex block
          else if exception (rule e) then check_loop m hit cands (or_first ex id) block
          else if important (rule e) then Block id
          else check_loop m hit cands ex (or_first block id)
      end
  end.

Definition candidates (m : Matcher) (t : Target.t) : list Z :=
  dedup (sort (untokenized m ++ concat (map (fun tok => default [] (bt_get (index m) tok)) (url_tokens (Target.lower t))))).

Definition check_target (m : Matcher) (t : Target.t) (source_host : option (list byte)) (ty : ResourceType) (tp : bool) : Verdict :=
  if bool_decide (ty = Document) then Allow
  else check_loop m (fun r => applies r t source_host ty tp) (candidates m t) None None.

Definition source_host (origin : option WOrigin.t) : option (list byte) :=
  o ← origin; h ← WOrigin.host o;
  match h with EmptyHost => None | h => Some (serialize_host h) end.

Definition check_request (m : Matcher) (req : Request) : Verdict :=
  match Target.from_url (r_url req) with
  | None => Allow
  | Some t => check_target m t (source_host (source_origin req)) (resource_type req) (r_third_party req)
  end.

(** ** Scanning every rule *)
Definition important_block (r : Rule) : bool := negb (exception r) && important r.
Definition plain_block (r : Rule) : bool := negb (exception r) && negb (important r).

(** The first rule, from [id] on, that satisfies [P]. *)
Fixpoint first_rule_id (P : Rule -> bool) (id : Z) (rs : list Rule) : option Z :=
  match rs with [] => None | r :: rs => if P r then Some id else first_rule_id P (id + 1) rs end.

(** Important blocks before exceptions before blocks. *)
Definition scan (rs : list Rule) (hit : Rule -> bool) : Verdict :=
  match first_rule_id (fun r => hit r && important_block r) 0 rs with
  | Some id => Block id
  | None =>
      match first_rule_id (fun r => hit r && exception r) 0 rs with
      | Some id => AllowedByException id
      | None => match first_rule_id (fun r => hit r && plain_block r) 0 rs with Some id => Block id | None => Allow end
      end
  end.

Definition scan_request (rs : list Rule) (req : Request) : Verdict :=
  match Target.from_url (r_url req) with
  | None => Allow
  | Some t =>
      if bool_decide (resource_type req = Document) then Allow
      else scan rs (fun r => applies r t (source_host (source_origin req)) (resource_type req) (r_third_party req))
  end.

(** All the rules of the lists, in order. *)
Definition all_rules (b : MatcherBuilder) : list Rule := concat (map (fun l => rules l.2) b).

(** ** The loop on the candidates *)
Definition or_else {A} (o k : option A) : option A := match o with Some _ => o | None => k end.

Section loop.
Context (m : Matcher) (hit : Rule -> bool).

Definition hits (C : Rule -> bool) (id : Z) : bool := match get_entry m id with Some e => hit (rule e) && C (rule e) | None => false end.

Lemma check_loop_spec cands ex block : check_loop m hit cands ex block =
  match find (hits important_block) cands with
  | Some id => Block id
  | None =>
      match or_else ex (find (hits exception) cands) with
      | Some id => AllowedByException id
      | None => match or_else block (find (hits plain_block) cands) with Some id => Block id | None => Allow end
      end
  end.
Proof.
  revert ex block. induction cands as [|id cands IH]; intros ex block; cbn [check_loop find].
  { by destruct ex, block. }
  unfold hits at 1 3 5. destruct (get_entry m id) as [e|]; [|apply IH]. destruct (hit (rule e)); cbn [negb andb]; [|apply IH].
  change (important_block (rule e)) with (negb (exception (rule e)) && important (rule e)). change (plain_block (rule e)) with (negb (exception (rule e)) && negb (important (rule e))).
  destruct (exception (rule e)); cbn [negb andb].
  - rewrite IH. by destruct ex.
  - destruct (important (rule e)); cbn [negb]; [done|]. rewrite IH. destruct (find (hits important_block) cands); [done|]. destruct ex, (find (hits exception) cands), block; done.
Qed.
End loop.

(** The least number with a property, when there is one. *)
Definition least_from (Q : Z -> Prop) (lo : Z) (o : option Z) : Prop :=
  match o with Some x => lo <= x /\ Q x /\ forall y, lo <= y -> Q y -> x <= y | None => forall y, lo <= y -> ~ Q y end.

Lemma least_unique Q lo o o' : least_from Q lo o -> least_from Q lo o' -> o = o'.
Proof.
  destruct o as [x|], o' as [y|]; cbn; intros H1 H2; [|destruct H1 as (Hx & Qx & _); by destruct (H2 x Hx Qx)|destruct H2 as (Hy & Qy & _); by destruct (H1 y Hy Qy)|done].
  destruct H1 as (Hx & Qx & Mx), H2 as (Hy & Qy & My). specialize (Mx y Hy Qy). specialize (My x Hx Qx). f_equal. lia.
Qed.

Lemma cand_least (Q : Z -> bool) lo l : StronglySorted Z.lt l -> Forall (fun x => lo <= x) l -> (forall y, lo <= y -> Q y = true -> y ∈ l) ->
  least_from (fun y => Q y = true) lo (find Q l).
Proof.
  intros Hs Hlo Hall. cut (match find Q l with Some x => x ∈ l /\ Q x = true /\ forall y, y ∈ l -> Q y = true -> x <= y | None => forall y, y ∈ l -> Q y = false end).
  { destruct (find Q l) as [x|]; cbn.
    - intros (H1 & H2 & H3). split_and!; [by apply (proj1 (Forall_forall _ _) Hlo)|done|]. intros y Hy Qy. apply H3; [by apply Hall|done].
    - intros H y Hy Qy. rewrite (H y) in Qy by (by apply Hall). done. }
  clear Hlo Hall. induction Hs as [|x l Hs IH Hx]; cbn [find]; [by intros y ?%elem_of_nil|]. destruct (Q x) eqn:E.
  - split_and!; [by left|done|]. intros y [->|Hy]%elem_of_cons Qy; [lia|]. pose proof (proj1 (Forall_forall _ _) Hx y Hy). cbv beta in *. lia.
  - destruct (find Q l) as [z|].
    + destruct IH as (H1 & H2 & H3). split_and!; [by right|done|]. intros y [->|Hy]%elem_of_cons Qy; [congruence|by apply H3].
    + intros y [->|Hy]%elem_of_cons; [done|by apply IH].
Qed.

Lemma first_rule_least P lo rs : 0 <= lo -> least_from (fun y => exists r, rs !! Z.to_nat (y - lo) = Some r /\ P r = true) lo (first_rule_id P lo rs).
Proof.
  revert lo. induction rs as [|r rs IH]; intros lo Hlo; cbn [first_rule_id]; [intros y Hy (r & H & _); done|]. destruct (P r) eqn:E.
  - split_and!; [lia| |intros; lia]. exists r. by rewrite Z.sub_diag.
  - specialize (IH (lo + 1) ltac:(lia)).
    assert (forall y, lo + 1 <= y -> (r :: rs) !! Z.to_nat (y - lo) = rs !! Z.to_nat (y - (lo + 1))) as Hs by (intros y Hy; by replace (Z.to_nat (y - lo)) with (S (Z.to_nat (y - (lo + 1)))) by lia).
    assert (forall y, lo <= y -> (exists r0, (r :: rs) !! Z.to_nat (y - lo) = Some r0 /\ P r0 = true) -> lo + 1 <= y) as Hge.
    { intros y Hy (r0 & Hr & Pr). destruct (decide (y = lo)) as [->|]; [|lia]. rewrite Z.sub_diag in Hr. injection Hr as ->. congruence. }
    destruct (first_rule_id P (lo + 1) rs) as [x|]; cbn in IH |- *.
    + destruct IH as (H1 & H2 & H3). split_and!; [lia|by rewrite Hs|]. intros y Hy Hr. pose proof (Hge y Hy Hr). apply H3; [done|]. by rewrite <- Hs.
    + intros y Hy Hr. pose proof (Hge y Hy Hr). apply (IH y); [done|]. by rewrite <- Hs.
Qed.

(** Looking in enough candidates finds what a scan finds. *)
Lemma find_scan m hit C cands : StronglySorted Z.lt cands -> Forall (fun x => 0 <= x) cands -> (forall id e, 0 <= id -> get_entry m id = Some e -> hit (rule e) = true -> id ∈ cands) ->
  find (hits m hit C) cands = first_rule_id (fun r => hit r && C r) 0 (map rule (entries m)).
Proof.
  intros Hs Hlo Hall. apply (least_unique (fun y => hits m hit C y = true) 0).
  - apply cand_least; [done|done|]. unfold hits. intros y Hy Hh. destruct (get_entry m y) as [e|] eqn:E; [|done]. apply andb_true_iff in Hh as [Hh _]. by apply (Hall y e).
  - pose proof (first_rule_least (fun r => hit r && C r) 0 (map rule (entries m)) ltac:(lia)) as H.
    assert (forall y, 0 <= y -> (exists r, map rule (entries m) !! Z.to_nat (y - 0) = Some r /\ hit r && C r = true) <-> hits m hit C y = true) as Hiff.
    { intros y Hy. unfold hits, get_entry. rewrite Z.sub_0_r. change (map rule (entries m)) with (fmap (M:=list) rule (entries m)). rewrite list_lookup_fmap. destruct (entries m !! Z.to_nat y) as [e|]; cbn; split; [by intros (r & [= <-] & ?)|intros ?; by exists (rule e)|by intros (r & [=] & _)|done]. }
    destruct (first_rule_id _ 0 _) as [x|]; cbn in H |- *.
    + destruct H as (H1 & H2 & H3). split_and!; [done|by apply Hiff|]. intros y Hy Hh. apply H3; [done|]. by apply Hiff.
    + intros y Hy Hh. apply (H y Hy). by apply Hiff.
Qed.

(** ** What building the index gives *)
Lemma add_rules_spec li rs es d : len es <= MAX_TOTAL_RULES -> let '(es', d') := add_rules li rs es d in
  map rule es' = take (Z.to_nat MAX_TOTAL_RULES) (map rule es ++ rs) /\ d' = d + len es + len rs - len es' /\ len es' <= MAX_TOTAL_RULES.
Proof.
  revert es d. induction rs as [|r rs IH]; intros es d Hc; cbn [add_rules].
  { rewrite app_nil_r, take_ge by (rewrite length_map; unfold len in Hc; lia). split_and!; [done|unfold len; cbn; lia|done]. }
  destruct (_ <=? _) eqn:E.
  - apply Z.leb_le in E. specialize (IH es (d + 1) Hc). destruct (add_rules li rs es (d + 1)) as [es' d']. destruct IH as (H1 & H2 & H3).
    split_and!; [|rewrite H2, len_cons; lia|done]. rewrite H1, !take_app_le by (rewrite length_map; unfold len in *; lia). done.
  - apply Z.leb_gt in E. specialize (IH (es ++ [mkEntry r li]) d). destruct (add_rules li rs (es ++ [mkEntry r li]) d) as [es' d'].
    destruct IH as (H1 & H2 & H3); [rewrite len_app; unfold len in *; cbn; lia|]. split_and!; [|rewrite H2, len_app, len_cons; unfold len; cbn; lia|done].
    rewrite H1, map_app, <- app_assoc. done.
Qed.

Lemma collect_spec li b es names d : len es <= MAX_TOTAL_RULES -> let '(es', names', d') := collect li b es names d in
  map rule es' = take (Z.to_nat MAX_TOTAL_RULES) (map rule es ++ all_rules b) /\ d' = d + len es + len (all_rules b) - len es' /\ len es' <= MAX_TOTAL_RULES /\ names' = names ++ map fst b.
Proof.
  revert li es names d. induction b as [|[name l] b IH]; intros li es names d Hc; cbn [collect].
  { unfold all_rules. cbn. rewrite app_nil_r, take_ge by (rewrite length_map; unfold len in Hc; lia). split_and!; [done|unfold len; cbn; lia|done|by rewrite app_nil_r]. }
  pose proof (add_rules_spec (default U16_MAX (try_from U16_MAX li)) (rules l) es d Hc) as Ha. destruct (add_rules _ (rules l) es d) as [es1 d1]. destruct Ha as (H1 & H2 & H3).
  specialize (IH (li + 1) es1 (names ++ [name]) d1 H3). destruct (collect (li + 1) b es1 (names ++ [name]) d1) as [[es' names'] d']. destruct IH as (H4 & H5 & H6 & H7).
  assert (all_rules ((name, l) :: b) = rules l ++ all_rules b) as -> by done. split_and!; [|rewrite H5, H2, len_app; lia|done|by rewrite H7, <- app_assoc].
  rewrite H4, H1, take_take_app, <- app_assoc. done.
Qed.

Lemma min_by_in {A} (c : A -> A -> comparison) l x : min_by c l = Some x -> x ∈ l.
Proof.
  revert x. induction l as [|y l IH]; intros x; cbn [min_by]; [done|]. destruct (min_by c l) as [z|]; [|intros [= <-]; by left].
  destruct (c y z); intros [= <-]; [by left|by left|right; by apply IH].
Qed.
Lemma min_by_None {A} (c : A -> A -> comparison) l : min_by c l = None -> l = [].
Proof. destruct l as [|y l]; [done|]. cbn [min_by]. by destruct (min_by c l). Qed.

(** Where a rule is filed. *)
Definition bucket (ix : btree (list byte) (list Z)) (t : list byte) : list Z := default [] (bt_get ix t).
Definition filed (ix : btree (list byte) (list Z)) (un : list Z) (id : Z) (e : Entry) : Prop :=
  (index_tokens (pattern (rule e)) = [] /\ id ∈ un) \/ exists t, t ∈ index_tokens (pattern (rule e)) /\ id ∈ bucket ix t.
Definition ids_nonneg (ix : btree (list byte) (list Z)) (un : list Z) : Prop := Forall (fun x => 0 <= x) un /\ forall t, Forall (fun x => 0 <= x) (bucket ix t).

Lemma bucket_insert ix t l t' : bucket (bt_insert ix t l) t' = if decide (t = t') then l else bucket ix t'.
Proof. unfold bucket. destruct (decide (t = t')) as [->|]; [by rewrite bt_get_insert_eq|by rewrite bt_get_insert_ne]. Qed.

Lemma file_rule_spec f ix un id e : 0 <= id -> ids_nonneg ix un -> let '(ix', un') := file_rule f ix un id e in
  filed ix' un' id e /\ ids_nonneg ix' un' /\ (forall x, x ∈ un -> x ∈ un') /\ forall t x, x ∈ bucket ix t -> x ∈ bucket ix' t.
Proof.
  intros Hid [Hu Hb]. unfold file_rule. destruct (min_by _ _) as [t|] eqn:E.
  - apply min_by_in in E. fold (bucket ix t). split_and!; [|split; [done|]|done|].
    + right. exists t. split; [done|]. rewrite bucket_insert, decide_True by done. apply elem_of_app. right. by left.
    + intros t'. rewrite bucket_insert. case_decide as Ht; [|apply Hb]. apply Forall_app. split; [apply Hb|]. by repeat constructor.
    + intros t' x Hx. rewrite bucket_insert. case_decide as Ht; [subst; apply elem_of_app; by left|done].
  - apply min_by_None in E. split_and!; [|split; [|done]|intros x Hx; apply elem_of_app; by left|done].
    + left. split; [done|]. apply elem_of_app. right. by left.
    + apply Forall_app. split; [done|]. by repeat constructor.
Qed.

Lemma file_rules_spec f ix un i es : 0 <= i -> i + len es <= U32_MAX -> ids_nonneg ix un -> let '(ix', un') := file_rules f ix un i es in
  ids_nonneg ix' un' /\ (forall x, x ∈ un -> x ∈ un') /\ (forall t x, x ∈ bucket ix t -> x ∈ bucket ix' t) /\
  forall k e, es !! k = Some e -> filed ix' un' (i + Z.of_nat k) e.
Proof.
  revert ix un i. induction es as [|e es IH]; intros ix un i Hi Hlen Hn; cbn [file_rules]; [done|]. rewrite len_cons in Hlen.
  unfold try_from. rewrite decide_True by (pose proof (len_nonneg es); lia).
  pose proof (file_rule_spec f ix un i e Hi Hn) as H1. change (default U32_MAX (Some i)) with i. destruct (file_rule f ix un i e) as [ix1 un1]. destruct H1 as (F & Hn1 & Hu1 & Hb1).
  specialize (IH ix1 un1 (i + 1) ltac:(lia) ltac:(lia) Hn1). destruct (file_rules f ix1 un1 (i + 1) es) as [ix' un']. destruct IH as (H1 & H2 & H3 & H4).
  split_and!; [done|intros x Hx; by apply H2, Hu1|intros t x Hx; by apply H3, Hb1|]. intros [|k] e' Hk.
  - injection Hk as <-. rewrite Z.add_0_r. destruct F as [[F1 F2]|(t & F1 & F2)]; [left; split; [done|by apply H2]|right; exists t; split; [done|by apply H3]].
  - replace (i + Z.of_nat (S k)) with (i + 1 + Z.of_nat k) by lia. by apply H4.
Qed.

Record matcher_ok (m : Matcher) : Prop := {
  matcher_ids : ids_nonneg (index m) (untokenized m);
  matcher_filed k e : entries m !! k = Some e -> filed (index m) (untokenized m) (Z.of_nat k) e }.

Lemma build_spec b : matcher_ok (build b) /\ map rule (entries (build b)) = take (Z.to_nat MAX_TOTAL_RULES) (all_rules b) /\
  dropped (build b) = len (all_rules b) - len (entries (build b)) /\ list_names (build b) = map fst b.
Proof.
  unfold build. pose proof (collect_spec 0 b [] [] 0 ltac:(done)) as H. destruct (collect 0 b [] [] 0) as [[es names] d]. destruct H as (H1 & H2 & H3 & H4).
  assert (0 + len es <= U32_MAX) as Hl by (unfold MAX_TOTAL_RULES, U32_MAX in *; lia).
  pose proof (file_rules_spec (frequencies es) [] [] 0 es ltac:(done) Hl) as Hf. destruct (file_rules (frequencies es) [] [] 0 es) as [ix un].
  destruct Hf as (F1 & _ & _ & F2); [split; [constructor|]; intros t; constructor|]. split_and!; [|exact H1|cbn [dropped entries]; rewrite H2; unfold len; cbn; lia|exact H4].
  split; [exact F1|]. intros k e Hk. cbn [entries index untokenized] in *. rewrite <- (Z.add_0_l (Z.of_nat k)). by apply F2.
Qed.

(** ** Candidates are enough *)
Record target_ok (t : Target.t) : Prop := {
  target_lower : Target.lower t = to_ascii_lowercase (Target.full t);
  target_inside : host_inside (Target.full t) (Some (Target.host t));
  target_clean : host_clean (Target.full t) (Some (Target.host t)) }.

Lemma build_target_ok url h t : Target.build url h = Some t -> target_ok t.
Proof.
  unfold Target.build. destruct (negb _); [done|]. intros [= <-].
  assert (exists tl, match Url.query url with
    | Some q => ((match Url.port url with Some p => ((Url.scheme url ++ lit "://") ++ h) ++ COLON :: decimal p | None => (Url.scheme url ++ lit "://") ++ h end) ++ Url.path url) ++ QUESTION :: q
    | None => (match Url.port url with Some p => ((Url.scheme url ++ lit "://") ++ h) ++ COLON :: decimal p | None => (Url.scheme url ++ lit "://") ++ h end) ++ Url.path url end
    = (Url.scheme url ++ lit "://") ++ h ++ tl) as [tl E].
  { destruct (Url.query url), (Url.port url); eexists; rewrite <- !app_assoc; reflexivity. }
  split; cbn [Target.full Target.lower Target.host]; rewrite ?E; [done| |].
  - cbn. rewrite !length_app. lia.
  - unfold host_clean. rewrite take_app_length. rewrite (app_assoc (Url.scheme url) [":"%byte; "/"%byte] ["/"%byte] : Url.scheme url ++ lit "://" = _), last_snoc. done.
Qed.

Lemma lower_target t : target_ok t -> host_inside (Target.lower t) (Some (Target.host t)) /\ host_clean (Target.lower t) (Some (Target.host t)).
Proof.
  intros [E Hi Hc]. rewrite E. unfold to_ascii_lowercase. destruct (Target.host t) as [hs he]. cbn in Hi, Hc |- *. rewrite length_map. split; [done|].
  change (map ascii_lower_byte (Target.full t)) with (fmap (M:=list) ascii_lower_byte (Target.full t)). rewrite <- fmap_take, fmap_last. by apply stops_lower.
Qed.

Lemma applies_tokens r t sh ty tp tok : target_ok t -> applies r t sh ty tp = true -> tok ∈ index_tokens (pattern r) -> tok ∈ url_tokens (Target.lower t).
Proof.
  intros Hok Ha Ht. unfold applies in Ha. apply andb_true_iff in Ha as [_ Hm]. destruct (lower_target t Hok) as [Li Lc]. destruct Hok as [E Hi Hc].
  destruct (match_case r).
  - apply matches_means in Hm; [|done]. rewrite E. by eapply tokens_sound.
  - apply matches_means in Hm; [|done]. pose proof (tokens_sound _ _ _ _ Li Lc Hm Ht) as H. by rewrite E, to_ascii_lowercase_idem, <- E in H.
Qed.

Lemma candidates_enough m t sh ty tp id e : matcher_ok m -> target_ok t -> 0 <= id -> get_entry m id = Some e -> applies (rule e) t sh ty tp = true -> id ∈ candidates m t.
Proof.
  intros [_ Hf] Ht Hid He Ha. apply sort_dedup. unfold get_entry in He. apply Hf in He. rewrite Z2Nat.id in He by done. apply elem_of_app.
  destruct He as [[_ Hu]|(tok & Htok & Hb)]; [by left|right]. apply list_elem_of_In, in_concat. exists (bucket (index m) tok). split; [|by apply list_elem_of_In].
  apply in_map_iff. exists tok. split; [done|]. apply list_elem_of_In. by apply (applies_tokens (rule e) t sh ty tp).
Qed.

Lemma candidates_sorted m t : matcher_ok m -> StronglySorted Z.lt (candidates m t) /\ Forall (fun x => 0 <= x) (candidates m t).
Proof.
  intros [[Hu Hb] _]. unfold candidates. destruct (sort_dedup (untokenized m ++ concat (map (fun tok => default [] (bt_get (index m) tok)) (url_tokens (Target.lower t))))) as [Hs Hin]. split.
  - revert Hs. generalize (dedup (sort (untokenized m ++ concat (map (fun tok => default [] (bt_get (index m) tok)) (url_tokens (Target.lower t)))))).
    intros l Hl. induction Hl as [|x l Hl IH Hx]; constructor; [done|]. eapply Forall_impl; [exact Hx|]. intros y Hxy. by apply Z.compare_lt_iff.
  - apply Forall_forall. intros x Hx. apply Hin, elem_of_app in Hx as [Hx|Hx]; [by apply (proj1 (Forall_forall _ _) Hu)|].
    apply list_elem_of_In, in_concat in Hx as (l & Hl & Hx). apply in_map_iff in Hl as (tok & <- & _). apply list_elem_of_In in Hx. by apply (proj1 (Forall_forall _ _) (Hb tok)).
Qed.

Lemma check_target_scan m t sh ty tp : matcher_ok m -> target_ok t ->
  check_target m t sh ty tp = if bool_decide (ty = Document) then Allow else scan (map rule (entries m)) (fun r => applies r t sh ty tp).
Proof.
  intros Hm Ht. unfold check_target. case_bool_decide; [done|]. rewrite check_loop_spec. destruct (candidates_sorted m t Hm) as [Hs Hp]. unfold scan. cbn [or_else].
  rewrite !find_scan by (done || (intros id e Hid He Ha; by eapply candidates_enough)). done.
Qed.

Lemma check_request_scan b req : check_request (build b) req = scan_request (take (Z.to_nat MAX_TOTAL_RULES) (all_rules b)) req.
Proof.
  unfold check_request, scan_request. destruct (Target.from_url (r_url req)) as [t|] eqn:E; [|done].
  assert (target_ok t) as Ht by (unfold Target.from_url in E; inv_bind E; by eapply build_target_ok).
  destruct (build_spec b) as (Hm & Hr & _). by rewrite check_target_scan, Hr by done.
Qed.

(** ** The claim *)
(** C20: The index decides every request as a scan of all the rules of all the lists, in
    order and up to the cap, would: an important block before an exception before a
    block, the first of its class; no rule that applies is missed because of the one
    token it is filed under. *)
Theorem index_decides_as_a_scan b req : check_request (build b) req = scan_request (take (Z.to_nat MAX_TOTAL_RULES) (all_rules b)) req.
Proof. apply check_request_scan. Qed.

(** Two lists, a request, and the rule that decides it. *)
Definition two_lists : MatcherBuilder :=
  add_list (add_list [] (lit "a") (parse_list (lit "||ads.com^$script" ++ [NEWLINE] ++ lit "banner"))) (lit "b") (parse_list (lit "@@||ads.com/ok^")).
Example first_list_blocks :
  (u ← Url.parse (lit "https://x.ads.com/tag.js"); Some (check_request (build two_lists) (mkRequest u None Script true))) = Some (Block 0).
Proof. vm_compute. reflexivity. Qed.
Example exception_wins :
  (u ← Url.parse (lit "https://x.ads.com/ok/tag.js"); Some (check_request (build two_lists) (mkRequest u None Script true))) = Some (AllowedByException 2).
Proof. vm_compute. reflexivity. Qed.
