(* ===== verification/BlockParams.v ===== *)
(** * Stripping tracking parameters (px-block/src/params.rs)

    The table of names, the cut of a query into pairs, and what the stripped URL is. *)
From S2P Require Import Prelude Bytes OrdMap Text Chars WebUrl WebHost WebCanon WebParse Referrer.
Local Open Scope Z_scope.

Definition MAX_ENTRIES : Z := 1024.
Definition MAX_ENTRY_BYTES : Z := 128.
Definition AMP : byte := "&"%byte.
Definition EQUALS : byte := "="%byte.

Definition DEFAULT_EXACT : list (list byte) := map lit
  ["fbclid"; "gclid"; "gclsrc"; "dclid"; "gbraid"; "wbraid"; "msclkid"; "twclid"; "ttclid"; "yclid"; "igshid"; "mc_eid"; "mc_cid";
   "_hsenc"; "_hsmi"; "mkt_tok"; "oly_anon_id"; "oly_enc_id"; "vero_id"; "vero_conv"; "wickedid"; "srsltid"]%string.
Definition DEFAULT_PREFIXES : list (list byte) := map lit ["utm_"]%string.

(** The two [BTreeSet]s. *)
Record TrackingParams := mkParams { exact : btree (list byte) unit; prefixes : btree (list byte) unit }.
Definition set_of (l : list (list byte)) : btree (list byte) unit := foldl (fun m k => bt_insert m k tt) [] l.
Definition params_default : TrackingParams := mkParams (set_of DEFAULT_EXACT) (set_of DEFAULT_PREFIXES).
Definition params_empty : TrackingParams := mkParams [] [].

Definition bad_entry_byte (b : byte) : bool := (b2z b <=? 0x20) || bool_decide (b ∈ [AMP; EQUALS; HASH; x7f]).
Definition admit_name (p : TrackingParams) (name : list byte) : option (list byte) :=
  let n := to_ascii_lowercase (trim name) in
  if negb (bool_decide (n = [])) && (len n <=? MAX_ENTRY_BYTES) && negb (existsb bad_entry_byte n) && (len (exact p) + len (prefixes p) <? MAX_ENTRIES)
  then Some n else None.

Definition add_exact (p : TrackingParams) (name : list byte) : TrackingParams * bool :=
  match admit_name p name with Some n => (mkParams (bt_insert (exact p) n tt) (prefixes p), true) | None => (p, false) end.
Definition add_prefix (p : TrackingParams) (prefix : list byte) : TrackingParams * bool :=
  match admit_name p prefix with Some n => (mkParams (exact p) (bt_insert (prefixes p) n tt), true) | None => (p, false) end.
Definition present (m : btree (list byte) unit) (k : list byte) : bool := bool_decide (is_Some (bt_get m k)).
Definition remove_exact (p : TrackingParams) (name : list byte) : TrackingParams * bool :=
  let n := to_ascii_lowercase name in (mkParams (bt_remove (exact p) n) (prefixes p), present (exact p) n).
Definition remove_prefix (p : TrackingParams) (prefix : list byte) : TrackingParams * bool :=
  let n := to_ascii_lowercase prefix in (mkParams (exact p) (bt_remove (prefixes p) n), present (prefixes p) n).

Definition is_tracking (p : TrackingParams) (name : list byte) : bool :=
  let n := to_ascii_lowercase name in present (exact p) n || existsb (fun q => has_prefix q n) (bt_keys (prefixes p)).

Record Stripped := mkStripped { s_url : Url.t; removed : list (list byte) }.

Definition hex (b : byte) : option Z :=
  if is_digit b then Some (b2z b - 48) else if in_range 97 102 b then Some (b2z b - 97 + 10) else if in_range 65 70 b then Some (b2z b - 65 + 10) else None.

Fixpoint decode_bytes (l : list byte) : list byte :=
  match l with
  | [] => []
  | c :: t =>
      let plain := (if bool_decide (c = "+"%byte) then x20 else c) :: decode_bytes t in
      if bool_decide (c = "%"%byte) then
        match t with
        | h :: l :: t' => match hex h, hex l with Some h, Some l => z2b (h * 16 + l) :: decode_bytes t' | _, _ => plain end
        | _ => plain
        end
      else plain
  end.
Definition decode_name (raw : list byte) : list byte := utf8_lossy (decode_bytes raw).

Definition pair_name (nv : list byte) : list byte := match split_once EQUALS nv with Some (n, _) => n | None => nv end.
Definition tracked (p : TrackingParams) (nv : list byte) : bool := negb (bool_decide (pair_name nv = [])) && is_tracking p (decode_name (pair_name nv)).

(** The loop on the pairs. *)
Fixpoint sift (p : TrackingParams) (kept removed : list (list byte)) (pairs : list (list byte)) : list (list byte) * list (list byte) :=
  match pairs with
  | [] => (kept, removed)
  | nv :: pairs => if tracked p nv then sift p kept (removed ++ [pair_name nv]) pairs else sift p (kept ++ [nv]) removed pairs
  end.

Definition faithful (cleaned url : Url.t) : bool :=
  bool_decide (Url.scheme cleaned = Url.scheme url) && bool_decide (Url.host cleaned = Url.host url) && bool_decide (Url.port cleaned = Url.port url) &&
  bool_decide (Url.path cleaned = Url.path url) && bool_decide (Url.fragment cleaned = Url.fragment url) &&
  bool_decide (Url.username cleaned = Url.username url) && bool_decide (Url.password cleaned = Url.password url).

Definition strip_tracking_params (url : Url.t) (p : TrackingParams) : option Stripped :=
  if negb (bool_decide (Url.scheme url = lit "http") || bool_decide (Url.scheme url = lit "https")) then None
  else
    query ← Url.query url;
    let '(kept, removed) := sift p [] [] (split_on AMP query) in
    if bool_decide (removed = []) then None
    else
      let full := Url.serialize url false in
      let '(before_frag, frag) := match split_once HASH full with Some (a, f) => (a, Some f) | None => (full, None) end in
      let base := match split_once QUESTION before_frag with Some (b, _) => b | None => before_frag end in
      let out := base ++ (if bool_decide (kept = []) then [] else QUESTION :: join_with AMP kept) ++ match frag with Some f => HASH :: f | None => [] end in
      cleaned ← Url.parse out;
      if faithful cleaned url then Some (mkStripped cleaned removed) else None.

(** ** The table *)
Definition entry_ok (n : list byte) : Prop := n <> [] /\ len n <= MAX_ENTRY_BYTES /\ existsb bad_entry_byte n = false /\ to_ascii_lowercase n = n.
Record params_ok (p : TrackingParams) : Prop := {
  params_exact : bt_sorted (exact p) /\ Forall entry_ok (bt_keys (exact p));
  params_prefixes : bt_sorted (prefixes p) /\ Forall entry_ok (bt_keys (prefixes p));
  params_cap : len (exact p) + len (prefixes p) <= MAX_ENTRIES }.

Lemma set_insert_ok (m : btree (list byte) unit) n : bt_sorted m /\ Forall entry_ok (bt_keys m) -> entry_ok n -> (bt_sorted (bt_insert m n tt) /\ Forall entry_ok (bt_keys (bt_insert m n tt))) /\ len (bt_insert m n tt) <= len m + 1.
Proof.
  intros [Hs Hf] Hn. split; [split; [by apply bt_sorted_insert|]|].
  - apply Forall_forall. intros k [->|Hk]%elem_keys_insert; [done|]. by apply (proj1 (Forall_forall _ _) Hf).
  - rewrite bt_len_insert by done. destruct (bt_get m n); lia.
Qed.

Lemma set_remove_ok (m : btree (list byte) unit) n : bt_sorted m /\ Forall entry_ok (bt_keys m) -> (bt_sorted (bt_remove m n) /\ Forall entry_ok (bt_keys (bt_remove m n))) /\ len (bt_remove m n) <= len m.
Proof.
  intros [Hs Hf]. split; [split; [by apply bt_sorted_remove|]|].
  - apply Forall_forall. intros k [_ Hk]%elem_keys_remove. by apply (proj1 (Forall_forall _ _) Hf).
  - rewrite !len_sum, bt_sum_remove by done. destruct (bt_get m n); lia.
Qed.

Lemma admit_ok p name n : admit_name p name = Some n -> entry_ok n /\ len (exact p) + len (prefixes p) < MAX_ENTRIES.
Proof.
  unfold admit_name. destruct (_ && _ && _ && _) eqn:E; [|done]. intros [= <-]. rewrite !andb_true_iff in E. destruct E as [[[H1 H2] H3] H4].
  apply negb_true_iff, bool_decide_eq_false in H1. apply negb_true_iff in H3. split; [|lia]. split_and!; [done|lia|done|apply to_ascii_lowercase_idem].
Qed.

(** The operations on the table. *)
Inductive params_op := AddExact (n : list byte) | AddPrefix (n : list byte) | RemoveExact (n : list byte) | RemovePrefix (n : list byte).
Definition params_step (p : TrackingParams) (o : params_op) : TrackingParams :=
  match o with AddExact n => (add_exact p n).1 | AddPrefix n => (add_prefix p n).1 | RemoveExact n => (remove_exact p n).1 | RemovePrefix n => (remove_prefix p n).1 end.

Lemma params_step_ok p o : params_ok p -> params_ok (params_step p o).
Proof.
  intros [He Hp Hc]. destruct o as [n|n|n|n]; cbn [params_step].
  - unfold add_exact. destruct (admit_name p n) as [k|] eqn:E; [|by split]. apply admit_ok in E as [Hk Hl]. destruct (set_insert_ok _ _ He Hk). split; cbn [fst exact prefixes]; [done|done|lia].
  - unfold add_prefix. destruct (admit_name p n) as [k|] eqn:E; [|by split]. apply admit_ok in E as [Hk Hl]. destruct (set_insert_ok _ _ Hp Hk). split; cbn [fst exact prefixes]; [done|done|lia].
  - destruct (set_remove_ok _ (to_ascii_lowercase n) He). split; cbn [remove_exact fst exact prefixes]; [done|done|lia].
  - destruct (set_remove_ok _ (to_ascii_lowercase n) Hp). split; cbn [remove_prefix fst exact prefixes]; [done|done|lia].
Qed.

#[export] Instance entry_ok_dec n : Decision (entry_ok n).
Proof. unfold entry_ok. apply _. Defined.

Lemma set_of_ok l : Forall entry_ok l -> bt_sorted (set_of l) /\ Forall entry_ok (bt_keys (set_of l)).
Proof.
  intros Hl. unfold set_of. assert (bt_sorted (@nil (list byte * unit)) /\ Forall entry_ok (bt_keys (@nil (list byte * unit)))) as H by (by split).
  revert H. generalize (@nil (list byte * unit)). induction Hl as [|n l Hn Hl IH]; intros m Hm; cbn [foldl]; [done|]. by apply IH, set_insert_ok.
Qed.

(** Whatever names were added and removed, the table is in order and within its cap. *)
Theorem params_stay_ok ops : params_ok (foldl params_step params_default ops) /\ params_ok (foldl params_step params_empty ops).
Proof.
  assert (forall p, params_ok p -> params_ok (foldl params_step p ops)) as H.
  { induction ops as [|o ops IH]; intros p Hp; [done|]. by apply IH, params_step_ok. }
  split; apply H; [|by split]. split; [apply (set_of_ok DEFAULT_EXACT)|apply (set_of_ok DEFAULT_PREFIXES)|by vm_compute].
  all: apply (bool_decide_unpack _); by vm_compute.
Qed.

(** ** What a stripped URL is *)
Definition set_query (u : Url.t) (q : option (list byte)) : Url.t :=
  Url.mkUrl (Url.scheme u) (Url.username u) (Url.password u) (Url.host u) (Url.port u) (Url.path u) q (Url.fragment u).
Definition untracked (p : TrackingParams) (pairs : list (list byte)) : list (list byte) := List.filter (fun nv => negb (tracked p nv)) pairs.
Definition query_of (kept : list (list byte)) : option (list byte) := if bool_decide (kept = []) then None else Some (join_with AMP kept).
Definition is_web (u : Url.t) : Prop := Url.scheme u = lit "http" \/ Url.scheme u = lit "https".
#[export] Instance is_web_dec u : Decision (is_web u).
Proof. unfold is_web. apply _. Defined.

Lemma sift_spec p kept rem pairs : sift p kept rem pairs = (kept ++ untracked p pairs, rem ++ map pair_name (List.filter (tracked p) pairs)).
Proof.
  revert kept rem. induction pairs as [|nv pairs IH]; intros kept rem; cbn [sift untracked List.filter map]; [by rewrite !app_nil_r|].
  destruct (tracked p nv); cbn [negb]; rewrite IH, <- app_assoc; done.
Qed.

Lemma untracked_idem p pairs : untracked p (untracked p pairs) = untracked p pairs.
Proof. unfold untracked. induction pairs as [|nv pairs IH]; cbn; [done|]. destruct (tracked p nv) eqn:E; cbn; [done|]. by rewrite E, IH. Qed.

Lemma untracked_none p pairs : List.filter (tracked p) (untracked p pairs) = [].
Proof. unfold untracked. induction pairs as [|nv pairs IH]; cbn; [done|]. destruct (tracked p nv) eqn:E; cbn; [done|]. by rewrite E, IH. Qed.

Lemma untracked_Forall (P : list byte -> Prop) p pairs : Forall P pairs -> Forall P (untracked p pairs).
Proof. unfold untracked. induction 1 as [|nv pairs Hn _ IH]; cbn; [done|]. destruct (negb _); [by constructor|done]. Qed.

Lemma length_join c x ps : length (join_with c (x :: ps)) = (length x + match ps with [] => 0 | _ => S (length (join_with c ps)) end)%nat.
Proof. cbn [join_with]. destruct ps; [lia|]. rewrite length_app. reflexivity. Qed.

Lemma length_join_untracked c p ps : (length (join_with c (untracked p ps)) <= length (join_with c ps))%nat.
Proof.
  induction ps as [|x ps IH]; [done|]. cbn [untracked List.filter]. fold (untracked p ps). destruct (tracked p x); cbn [negb].
  - rewrite (length_join c x). destruct ps; [cbn; lia|]. lia.
  - rewrite !length_join. destruct ps as [|y ps]; [cbn; lia|]. destruct (untracked p (y :: ps)); lia.
Qed.

Section strip.
Context (p : TrackingParams) (u : Url.t).

Lemma main_clean : canonical u -> Forall main_byte (Url.scheme u ++ COLON :: auth_text (Url.username u) (Url.password u) (Url.host u) (Url.port u) ++ Url.path u).
Proof.
  intros [Hs Ha _ _ (Hmu & Hmp & Hmp') _ _ _]. apply Forall_app. split.
  - eapply Forall_impl; [exact (scheme_ok_all _ Hs)|]. intros b Hb. unfold main_byte. destruct b; try (by vm_compute in Hb); by split_and!.
  - constructor; [by split_and!|]. apply Forall_app. split; [by eapply auth_text_main|done].
Qed.

(** Cutting the written form at the fragment and the query. *)
Lemma cut_written : canonical u -> let full := Url.serialize u false in
  let '(before, frag) := match split_once HASH full with Some (a, f) => (a, Some f) | None => (full, None) end in
  match split_once QUESTION before with Some (b, _) => b | None => before end = Url.scheme u ++ COLON :: auth_text (Url.username u) (Url.password u) (Url.host u) (Url.port u) ++ Url.path u /\
  frag = Url.fragment u.
Proof.
  intros Hc full. pose proof (main_clean Hc) as Hm. destruct Hc as [_ _ _ _ _ Hq _ _]. set (mn := Url.scheme u ++ COLON :: _) in *.
  assert (full = (mn ++ query_text (Url.query u)) ++ fragment_text (Url.fragment u)) as ->.
  { unfold full. rewrite serialize_text. unfold mn. rewrite <- !app_assoc. cbn [app]. by rewrite <- !app_assoc. }
  assert (HASH ∉ mn ++ query_text (Url.query u)) as Hh.
  { apply not_elem_of_app. split; [eapply not_in_Forall; [exact Hm|]; by intros (_ & _ & ?)|].
    unfold query_text. destruct (Url.query u); cbn in *; [|apply not_elem_of_nil]. apply not_elem_of_cons. split; [done|]. eapply not_in_Forall; [exact Hq|]. by intros [_ ?]. }
  unfold fragment_text. rewrite cut_app by done. split; [|done].
  assert (QUESTION ∉ mn) as Hqm by (eapply not_in_Forall; [exact Hm|]; by intros (_ & ? & _)).
  unfold query_text. destruct (Url.query u) as [q|]; [by rewrite (proj2 (split_once_spec QUESTION _ mn q))|]. rewrite app_nil_r. by rewrite (proj2 (split_once_None QUESTION mn)).
Qed.

Definition pairs_of : list (list byte) := split_on AMP (default [] (Url.query u)).

Lemma canonical_set_query : canonical u -> ends_ok (Url.path u ++ query_text (query_of (untracked p pairs_of)) ++ fragment_text (Url.fragment u)) ->
  canonical (set_query u (query_of (untracked p pairs_of))).
Proof.
  intros [Hs Ha Hp Hpath Hm Hq Hf _] He. split; cbn [set_query Url.scheme Url.username Url.password Url.host Url.port Url.path Url.query Url.fragment]; try done.
  unfold query_of. case_bool_decide; [constructor|]. cbn. apply join_with_Forall; [by split|]. apply untracked_Forall, split_on_Forall. exact Hq.
Qed.

Lemma faithful_set_query q : faithful (set_query u q) u = true.
Proof. unfold faithful. cbn. by rewrite !bool_decide_eq_true_2. Qed.

Lemma web_scheme : is_web u -> bool_decide (Url.scheme u = lit "http") || bool_decide (Url.scheme u = lit "https") = true.
Proof. intros [->| ->]; done. Qed.

Lemma strip_spec q : canonical u -> is_web u -> Url.query u = Some q -> len (Url.serialize u false) <= MAX_URL_BYTES ->
  ends_ok (Url.path u ++ query_text (query_of (untracked p pairs_of)) ++ fragment_text (Url.fragment u)) ->
  List.filter (tracked p) pairs_of <> [] ->
  strip_tracking_params u p = Some (mkStripped (set_query u (query_of (untracked p pairs_of))) (map pair_name (List.filter (tracked p) pairs_of))).
Proof.
  intros Hc Hw Hq Hlen He Hne. unfold strip_tracking_params. rewrite web_scheme by done. cbn [negb]. rewrite Hq. cbn [mbind option_bind].
  assert (split_on AMP q = pairs_of) as -> by (unfold pairs_of; by rewrite Hq). rewrite sift_spec. cbn [app].
  rewrite bool_decide_eq_false_2 by (intros E; by apply map_eq_nil in E).
  pose proof (cut_written Hc) as Hcut. cbv zeta in Hcut. destruct (match split_once HASH _ with Some _ => _ | None => _ end) as [before frag]. destruct Hcut as [-> ->].
  assert ((Url.scheme u ++ COLON :: auth_text (Url.username u) (Url.password u) (Url.host u) (Url.port u) ++ Url.path u) ++
    (if bool_decide (untracked p pairs_of = []) then [] else QUESTION :: join_with AMP (untracked p pairs_of)) ++ match Url.fragment u with Some f => HASH :: f | None => [] end
    = Url.serialize (set_query u (query_of (untracked p pairs_of))) false) as ->.
  { rewrite serialize_text. cbn [set_query Url.scheme Url.username Url.password Url.host Url.port Url.path Url.query Url.fragment]. unfold query_of, fragment_text.
    rewrite <- app_assoc. cbn [app]. rewrite <- !app_assoc. by destruct (bool_decide _). }
  rewrite canonical_parse; [|by apply canonical_set_query|intros E; destruct Hw as [Hw|Hw]; cbn in E; rewrite E in Hw; by vm_compute in Hw|].
  - cbn [mbind option_bind]. by rewrite faithful_set_query.
  - etransitivity; [|exact Hlen]. rewrite !serialize_text. cbn [set_query Url.scheme Url.username Url.password Url.host Url.port Url.path Url.query Url.fragment].
    pose proof (length_join_untracked AMP p pairs_of) as Hj. unfold pairs_of in Hj at 2. rewrite Hq in Hj. change (default [] (Some q)) with q in Hj. rewrite join_split in Hj. rewrite Hq. unfold query_of, query_text, len.
    destruct (bool_decide _); rewrite !length_app; cbn [length]; rewrite !length_app; cbn [length]; lia.
Qed.

Lemma strip_again : canonical u -> is_web u ->
  strip_tracking_params (set_query u (query_of (untracked p pairs_of))) p = None.
Proof.
  intros Hc Hw. unfold strip_tracking_params. cbn [set_query Url.scheme Url.query]. rewrite web_scheme by done. cbn [negb].
  unfold query_of. case_bool_decide as E; [done|]. cbn [mbind option_bind]. rewrite split_join; [|done|].
  - by rewrite sift_spec, untracked_none.
  - apply untracked_Forall. apply Forall_forall. intros x Hx. unfold pairs_of in Hx. by apply split_on_nosep in Hx.
Qed.

Lemma strip_nothing : List.filter (tracked p) pairs_of = [] \/ ~ is_web u -> strip_tracking_params u p = None.
Proof.
  intros H. unfold strip_tracking_params. destruct (negb _) eqn:Ew; [done|]. destruct H as [H|H].
  - destruct (Url.query u) as [q|] eqn:Eq; [|done]. cbn [mbind option_bind]. assert (split_on AMP q = pairs_of) as -> by (unfold pairs_of; by rewrite Eq). by rewrite sift_spec, H.
  - apply negb_false_iff, orb_true_iff in Ew. destruct H. unfold is_web. destruct Ew as [E|E]; apply bool_decide_eq_true in E; [by left|by right].
Qed.
End strip.

(** ** The claims *)
(** Stripping an accepted [http] or [https] URL removes the tracking pairs of its
    query and nothing else: every other pair stays byte for byte and in order, the [?]
    goes with the last of them, the removed names are reported as written, nothing is
    done when there is none or for another scheme, and stripping the result again
    changes nothing - as long as the shortened text does not end in a blank. *)
Theorem strip_removes_exactly s u p : Url.parse s = Some u -> len (Url.serialize u false) <= MAX_URL_BYTES ->
  let kept := untracked p (pairs_of u) in let gone := List.filter (tracked p) (pairs_of u) in
  ends_ok (Url.path u ++ query_text (query_of kept) ++ fragment_text (Url.fragment u)) ->
  strip_tracking_params u p =
    (if bool_decide (is_web u) && negb (bool_decide (gone = [])) then Some (mkStripped (set_query u (query_of kept)) (map pair_name gone)) else None) /\
  (is_web u -> strip_tracking_params (set_query u (query_of kept)) p = None).
Proof.
  intros Hu Hlen kept gone He. apply parse_canonical in Hu. split; [|intros Hw; by apply strip_again].
  destruct (bool_decide (is_web u)) eqn:Ew; cbn [andb]; [apply bool_decide_eq_true in Ew|apply bool_decide_eq_false in Ew; apply strip_nothing; by right].
  destruct (bool_decide (gone = [])) eqn:Eg; cbn [negb]; [apply bool_decide_eq_true in Eg; apply strip_nothing; by left|apply bool_decide_eq_false in Eg].
  destruct (Url.query u) as [q|] eqn:Eq; [by apply (strip_spec p u q)|]. destruct Eg. unfold gone, pairs_of. by rewrite Eq.
Qed.


Definition campaign : list byte := lit "https://a.com/p?utm_source=x&id=7&fbclid=abc#top".
Lemma strip_removes_exactly_witness : exists u, Url.parse campaign = Some u /\
  (s_url <$> strip_tracking_params u params_default) = Url.parse (lit "https://a.com/p?id=7#top").
Proof.
  destruct (Url.parse campaign) as [u|] eqn:E; [|by vm_compute in E]. exists u. split; [done|].
  assert (Hl : len (Url.serialize u false) <= MAX_URL_BYTES) by (vm_compute in E; injection E as <-; by vm_compute).
  pose proof (strip_removes_exactly campaign u params_default E Hl) as H. cbv zeta in H. rewrite (proj1 (H ltac:(vm_compute in E; injection E as <-; by vm_compute))).
  vm_compute in E. injection E as <-. by vm_compute.
Defined.

(** A pair that ends in a blank and comes last loses it, and what is left of it may be
    a tracking name: stripping twice is then not stripping once. *)
Definition blank_pair : list byte := lit "https://a.com/?gclid &fbclid=1".
Theorem strip_twice_strips_more :
  (u ← Url.parse blank_pair; s1 ← strip_tracking_params u params_default; s2 ← strip_tracking_params (s_url s1) params_default;
   Some (Url.query (s_url s1), Url.query (s_url s2))) = Some (Some (lit "gclid"), None).
Proof. vm_compute. reflexivity. Qed.
