(* ===== verification/BlockPolicy.v ===== *)
(** * Policies around the matcher (px-block/src/cname.rs, isolation.rs, referrer.rs, stats.rs)

    CNAME chains, the storage partition of a request, the referrer to third
    parties, and the bounded counters. *)
From S2P Require Import Prelude Bytes OrdMap Text Chars Partition WebUrl WebParse WebOrigin Referrer BlockGlob BlockFilter BlockMatcher.
Local Open Scope Z_scope.

(** ** CNAME chains *)
Definition MAX_CNAME_CHAIN : Z := 16.

Inductive CnameVerdict := Clean | Cloaked (hop : Z) (rule_id : Z) | Excepted (hop : Z) (rule_id : Z) | Malformed (hop : Z) | ChainTooLong.
#[export] Instance cname_verdict_eq_dec : EqDecision CnameVerdict.
Proof. solve_decision. Defined.

Definition should_block (v : CnameVerdict) : bool := match v with Cloaked _ _ | Malformed _ | ChainTooLong => true | _ => false end.

Definition is_label_byte (b : byte) : bool := Url.is_alphabetic b || is_digit b || bool_decide (b ∈ lit "-_").
Definition label_ok (l : list byte) : bool :=
  negb (bool_decide (l = [])) && (len l <=? 63) && negb (has_prefix (lit "-") l) && negb (bool_decide (last l = Some "-"%byte)) && forallb is_label_byte l.
Definition normalise_host (name : list byte) : option (list byte) :=
  let n := default name (strip_suffix [DOT] name) in
  if negb (bool_decide (n = [])) && (len n <=? 253) && forallb label_ok (split_on DOT n) then Some (to_ascii_lowercase n) else None.

Section cname.
Context {T} `{SiteResolver T} (m : Matcher) (req : Request) (resolver : T).

Definition site_or_host (h : list byte) : list byte := default h (site_of resolver h).
Definition own_host : option (list byte) := serialize_host <$> Url.host (r_url req).
Definition src_host : option (list byte) := source_host (source_origin req).
Definition src_site : option (list byte) := site_or_host <$> src_host.

Definition hop_third_party (host : list byte) : bool :=
  match source_origin req, src_site with
  | None, _ => false
  | Some o, s => if WOrigin.is_opaque o then true else match s with Some s => negb (bool_decide (s = site_or_host host)) | None => true end
  end.

Fixpoint chain_loop (hop : Z) (chain : list (list byte)) (first_exception : option (Z * Z)) : CnameVerdict :=
  match chain with
  | [] => match first_exception with Some (hop, id) => Excepted hop id | None => Clean end
  | raw :: chain =>
      match normalise_host raw with
      | None => Malformed hop
      | Some host =>
          if bool_decide (own_host = Some host) then chain_loop (hop + 1) chain first_exception
          else match Target.with_host (r_url req) host with
               | None => chain_loop (hop + 1) chain first_exception
               | Some target =>
                   match check_target m target src_host (resource_type req) (hop_third_party host) with
                   | Block id => Cloaked hop id
                   | AllowedByException id => chain_loop (hop + 1) chain (match first_exception with Some _ => first_exception | None => Some (hop, id) end)
                   | Allow => chain_loop (hop + 1) chain first_exception
                   end
               end
      end
  end.

Definition check_cname_chain (chain : list (list byte)) : CnameVerdict :=
  if MAX_CNAME_CHAIN <? len chain then ChainTooLong else chain_loop 0 chain None.

(** What is the matter with one element of a chain. *)
Definition hop_verdict (raw : list byte) : option Verdict :=
  match normalise_host raw with
  | None => None
  | Some host =>
      Some (if bool_decide (own_host = Some host) then Allow
            else match Target.with_host (r_url req) host with
                 | None => Allow
                 | Some target => check_target m target src_host (resource_type req) (hop_third_party host)
                 end)
  end.

Definition bad_hop (raw : list byte) : Prop := hop_verdict raw = None \/ exists id, hop_verdict raw = Some (Block id).

Lemma chain_loop_step hop raw chain fe : chain_loop hop (raw :: chain) fe =
  match hop_verdict raw with
  | None => Malformed hop
  | Some (Block id) => Cloaked hop id
  | Some (AllowedByException id) => chain_loop (hop + 1) chain (match fe with Some _ => fe | None => Some (hop, id) end)
  | Some Allow => chain_loop (hop + 1) chain fe
  end.
Proof.
  cbn [chain_loop]. unfold hop_verdict. destruct (normalise_host raw) as [host|]; [|done]. case_bool_decide; [done|]. destruct (Target.with_host _ _); [|done]. by destruct (check_target _ _ _ _ _).
Qed.

Lemma chain_loop_spec hop chain fe : 0 <= hop ->
  match chain_loop hop chain fe with
  | Cloaked h id => exists raw, hop <= h /\ chain !! Z.to_nat (h - hop) = Some raw /\ hop_verdict raw = Some (Block id) /\ forall k r, (k < Z.to_nat (h - hop))%nat -> chain !! k = Some r -> ~ bad_hop r
  | Malformed h => exists raw, hop <= h /\ chain !! Z.to_nat (h - hop) = Some raw /\ hop_verdict raw = None /\ forall k r, (k < Z.to_nat (h - hop))%nat -> chain !! k = Some r -> ~ bad_hop r
  | Excepted h id => (forall r, r ∈ chain -> ~ bad_hop r) /\
      (fe = Some (h, id) \/ fe = None /\ exists raw, hop <= h /\ chain !! Z.to_nat (h - hop) = Some raw /\ hop_verdict raw = Some (AllowedByException id))
  | Clean => fe = None /\ forall r, r ∈ chain -> hop_verdict r = Some Allow
  | ChainTooLong => False
  end.
Proof.
  revert hop fe. induction chain as [|raw chain IH]; intros hop fe Hh.
  { cbn. destruct fe as [[h id]|]; [split; [by intros r ?%elem_of_nil|by left]|split; [done|by intros r ?%elem_of_nil]]. }
  rewrite chain_loop_step. destruct (hop_verdict raw) as [v|] eqn:Ev.
  2: { exists raw. rewrite Z.sub_diag. split_and!; [lia|done|done|]. intros k r Hk. cbn in Hk. lia. }
  assert (forall h k r, hop + 1 <= h -> ~ bad_hop raw -> (forall k r, (k < Z.to_nat (h - (hop + 1)))%nat -> chain !! k = Some r -> ~ bad_hop r) ->
    (k < Z.to_nat (h - hop))%nat -> (raw :: chain) !! k = Some r -> ~ bad_hop r) as Hpast.
  { intros h [|k] r Hle Hb Hrest Hk Hr; [by injection Hr as <-|]. apply (Hrest k r); [lia|done]. }
  assert (forall h, hop + 1 <= h -> (raw :: chain) !! Z.to_nat (h - hop) = chain !! Z.to_nat (h - (hop + 1))) as Hs by (intros h Hle; by replace (Z.to_nat (h - hop)) with (S (Z.to_nat (h - (hop + 1)))) by lia).
  destruct v as [|id|id].
  - assert (~ bad_hop raw) as Hb by (intros [E|[? E]]; congruence). specialize (IH (hop + 1) fe ltac:(lia)). destruct (chain_loop (hop + 1) chain fe) as [|h i|h i|h|]; [| | | |done].
    + destruct IH as [H1 H2]. split; [done|]. intros r [->|Hr]%elem_of_cons; [done|by apply H2].
    + destruct IH as (r & H1 & H2 & H3 & H4). exists r. rewrite Hs by done. split_and!; [lia|done|done|]. intros k r' Hk. by apply (Hpast h k r').
    + destruct IH as [H1 H2]. split; [intros r [->|Hr]%elem_of_cons; [done|by apply H1]|]. destruct H2 as [H2|(H2 & r & H3 & H4 & H5)]; [by left|right]. split; [done|]. exists r. rewrite Hs by done. split_and!; [lia|done|done].
    + destruct IH as (r & H1 & H2 & H3 & H4). exists r. rewrite Hs by done. split_and!; [lia|done|done|]. intros k r' Hk. by apply (Hpast h k r').
  - exists raw. rewrite Z.sub_diag. split_and!; [lia|done|done|]. intros k r Hk. cbn in Hk. lia.
  - assert (~ bad_hop raw) as Hb by (intros [E|[? E]]; congruence). specialize (IH (hop + 1) (match fe with Some _ => fe | None => Some (hop, id) end) ltac:(lia)).
    destruct (chain_loop (hop + 1) chain _) as [|h i|h i|h|]; [| | | |done].
    + destruct IH as [H1 H2]. by destruct fe.
    + destruct IH as (r & H1 & H2 & H3 & H4). exists r. rewrite Hs by done. split_and!; [lia|done|done|]. intros k r' Hk. by apply (Hpast h k r').
    + destruct IH as [H1 H2]. split; [intros r [->|Hr]%elem_of_cons; [done|by apply H1]|]. destruct fe as [f|]; [left; destruct H2 as [H2|[H2 _]]; congruence|right]. split; [done|].
      destruct H2 as [[= <- <-]|(H2 & _)]; [|done]. exists raw. rewrite Z.sub_diag. split_and!; [lia|done|done].
    + destruct IH as (r & H1 & H2 & H3 & H4). exists r. rewrite Hs by done. split_and!; [lia|done|done|]. intros k r' Hk. by apply (Hpast h k r').
Qed.

(** C23: A chain of CNAMEs stops a request exactly when it is too long or one of its
    elements is not a hostname or would itself be blocked, whatever exceptions match
    the others; the verdict names the first such element. *)
Theorem cname_chain_exact chain :
  (should_block (check_cname_chain chain) = true <-> MAX_CNAME_CHAIN < len chain \/ exists raw, raw ∈ chain /\ bad_hop raw) /\
  match check_cname_chain chain with
  | Cloaked h id => exists raw, chain !! Z.to_nat h = Some raw /\ hop_verdict raw = Some (Block id) /\ forall k r, (k < Z.to_nat h)%nat -> chain !! k = Some r -> ~ bad_hop r
  | Malformed h => exists raw, chain !! Z.to_nat h = Some raw /\ normalise_host raw = None /\ forall k r, (k < Z.to_nat h)%nat -> chain !! k = Some r -> ~ bad_hop r
  | Excepted h id => exists raw, chain !! Z.to_nat h = Some raw /\ hop_verdict raw = Some (AllowedByException id)
  | Clean => forall r, r ∈ chain -> hop_verdict r = Some Allow
  | ChainTooLong => MAX_CNAME_CHAIN < len chain
  end.
Proof.
  unfold check_cname_chain. destruct (MAX_CNAME_CHAIN <? len chain) eqn:E; [apply Z.ltb_lt in E; split; [|done]; split; [by left|done]|apply Z.ltb_ge in E].
  pose proof (chain_loop_spec 0 chain None ltac:(lia)) as H1.
  destruct (chain_loop 0 chain None) as [|h id|h id|h|]; cbn [should_block]; rewrite ?Z.sub_0_r in H1.
  - destruct H1 as [_ H1]. split; [|done]. split; [done|]. intros [?|(r & Hr & Hb)]; [lia|]. apply H1 in Hr. by destruct Hb as [Hb|[? Hb]]; rewrite Hb in Hr.
  - destruct H1 as (raw & H1 & H2 & H3 & H4). split; [|by exists raw]. split; [|done]. intros _. right. exists raw. split; [by eapply list_elem_of_lookup_2|]. right. by exists id.
  - destruct H1 as (H1 & [[=]|(_ & raw & H2 & H3 & H4)]). split; [|by exists raw]. split; [done|]. intros [?|(r & Hr & Hb)]; [lia|]. by destruct (H1 r Hr).
  - destruct H1 as (raw & H1 & H2 & H3 & H4). split; [|exists raw; split_and!; [done| |done]].
    + split; [|done]. intros _. right. exists raw. split; [by eapply list_elem_of_lookup_2|]. by left.
    + unfold hop_verdict in H3. by destruct (normalise_host raw).
  - done.
Qed.
End cname.

(** The URL of a hop, [replacen] with a count of one. *)
Definition replace_first (pat by_ l : list byte) : list byte := match split_once_str pat l with Some (x, y) => x ++ by_ ++ y | None => l end.
Definition url_for_hop (url : Url.t) (hop_host : list byte) : option (list byte) :=
  host ← normalise_host hop_host;
  _ ← Target.with_host url host;
  own ← Url.host url;
  Some (replace_first (serialize_host own) host (Url.serialize url true)).

(** The first occurrence of the host need not be the host. *)
Example hop_inside_the_scheme : (u ← Url.parse (lit "http://t/x"); url_for_hop u (lit "ads.net")) = Some (lit "hads.nettp://t/x").
Proof. vm_compute. reflexivity. Qed.

(** ** The storage partition of a request *)
Record PartitionKeyParts := mkParts { top_level_site : list byte; p_origin : WOrigin.t }.
Inductive Isolation := Blocked (rule_id : Z) | Partitioned (key : PartitionKeyParts) (third_party : bool) | Unpartitionable.

Definition storage_isolation {T} `{SiteResolver T} (top_level_host : list byte) (request_origin : WOrigin.t) (v : Verdict) (resolver : T) : Isolation :=
  match v with
  | Block id => Blocked id
  | _ =>
      match site_of resolver top_level_host with
      | None => Unpartitionable
      | Some site =>
          let req_site := h ← WOrigin.host request_origin; match h with Domain d => site_of resolver d | _ => None end in
          Partitioned (mkParts site request_origin) (negb (bool_decide (req_site = Some site)))
      end
  end.

(** A blocked request touches no storage; any other is filed under the very site
    that the network layer's [PartitionKey::new] puts in its key for the same top-level
    host, whatever filter rule matched, and has no partition exactly when that
    constructor refuses. *)
Theorem isolation_is_the_network_key {T} `{SiteResolver T} (resolver : T) top o v net :
  match storage_isolation top o v resolver with
  | Blocked id => v = Block id
  | Partitioned k _ => (forall id, v <> Block id) /\ p_origin k = o /\ PartitionKey.new resolver top net = Some {| PartitionKey.top_level_site := top_level_site k; PartitionKey.origin := net |}
  | Unpartitionable => (forall id, v <> Block id) /\ PartitionKey.new resolver top net = None
  end.
Proof. unfold storage_isolation, PartitionKey.new. destruct v as [|id|id]; [|done|]; by destruct (site_of resolver top). Qed.

(** ** Referrers to third parties *)
Inductive ThirdPartyReferrer := TDefault | TOriginOnly | TNone.

Definition tightened_policy (policy : ReferrerPolicy) (is_third_party : bool) (mode : ThirdPartyReferrer) : ReferrerPolicy :=
  if negb is_third_party then policy
  else match mode with
       | TDefault => policy
       | TNone => NoReferrer
       | TOriginOnly => match policy with UnsafeUrl | NoReferrerWhenDowngrade => StrictOriginWhenCrossOrigin | other => other end
       end.

Definition referrer_for (source : option Url.t) (request_policy document_policy : option ReferrerPolicy) (request_url : Url.t) (is_third_party : bool) (mode : ThirdPartyReferrer)
  : counted (option (list byte)) :=
  compute source (tightened_policy (effective_policy request_policy document_policy) is_third_party mode) request_url.

Lemma tightened_no_looser p tp mode : (hides_path p = true -> hides_path (tightened_policy p tp mode) = true) /\ (stops_downgrade p = true -> stops_downgrade (tightened_policy p tp mode) = true) /\
  (tp = true -> mode <> TDefault -> hides_path (tightened_policy p tp mode) = true).
Proof. destruct tp, mode, p; cbn; split_and!; congruence. Qed.

(** With either trimming mode, whatever the page and the request ask for, a referrer
    sent to a third party is its origin followed by a slash unless the request goes to
    that same origin, never one that only a downgrade would allow where the policy
    forbids it, and nothing at all in the strict mode; the first party sees no change. *)
Theorem third_parties_see_the_origin s1 s2 src req rp dp mode n r : Url.parse s1 = Some src -> Url.parse s2 = Some req -> mode <> TDefault ->
  (referrer_for (Some src) rp dp req true mode n).1 = Some r ->
  mode = TOriginOnly /\ exists o, url_tuple src = Some o /\ (r = WOrigin.serialize o ++ [SLASH] \/ url_tuple req = Some o) /\
    (stops_downgrade (effective_policy rp dp) = true -> trusted src = true -> trusted req = true).
Proof.
  intros H1 H2 Hm Hr. unfold referrer_for in Hr. destruct (tightened_no_looser (effective_policy rp dp) true mode) as (_ & Hd & Hh). specialize (Hh eq_refl Hm).
  destruct (referrer_kept _ _ _ _ _ _ _ H1 H2 Hr) as (o & Ho & _ & _ & Hne & Ht & Hs). split; [by destruct mode|]. exists o. split_and!; [done| |by intros ?%Hd; apply Hs].
  destruct Ht as [Ht|(_ & _ & Ht)]; [by left|right; by apply Ht].
Qed.

Lemma third_parties_see_the_origin_witness : exists src req, Url.parse (lit "https://a.com/private?t=1") = Some src /\ Url.parse (lit "https://ads.net/p") = Some req /\
  (referrer_for (Some src) (Some UnsafeUrl) None req true TOriginOnly 0).1 = Some (lit "https://a.com/") /\
  (lit "https://a.com/" = lit "https://a.com" ++ [SLASH] \/ url_tuple req = url_tuple src).
Proof.
  destruct (Url.parse (lit "https://a.com/private?t=1")) as [src|] eqn:E1; [|by vm_compute in E1]. destruct (Url.parse (lit "https://ads.net/p")) as [req|] eqn:E2; [|by vm_compute in E2].
  exists src, req. assert (Hr : (referrer_for (Some src) (Some UnsafeUrl) None req true TOriginOnly 0).1 = Some (lit "https://a.com/")) by (vm_compute in E1, E2; injection E1 as <-; injection E2 as <-; by vm_compute).
  split; [done|]. split; [done|]. split; [exact Hr|].
  destruct (third_parties_see_the_origin _ _ src req (Some UnsafeUrl) None TOriginOnly 0 _ E1 E2 ltac:(done) Hr) as (_ & o & Ho & [H|H] & _); [left|right; congruence].
  by vm_compute.
Defined.

(** ** Counters *)
Definition MAX_TRACKED_RULES : Z := 4096.
Definition MAX_TRACKED_DOMAINS : Z := 1024.
Definition MAX_DOMAIN_KEY_BYTES : Z := 253.

Record Stats := mkStats {
  blocked : Z; excepted : Z; allowed : Z; per_rule : btree Z Z; per_list : btree Z Z; per_domain : btree (list byte) Z; rule_overflow : Z; domain_overflow : Z }.
Definition stats_new : Stats := mkStats 0 0 0 [] [] [] 0 0.

(** [*n = n.saturating_add(1)] on an entry, on a bounded map, and the overflow counter. *)
Definition bump_bounded {K} `{Ord K} (map : btree K Z) (key : K) (cap overflow : Z) : btree K Z * Z :=
  match bt_get map key with
  | Some n => (bt_insert map key (sat_add n 1), overflow)
  | None => if len map <? cap then (bt_insert map key 1, overflow) else (map, sat_add overflow 1)
  end.

Definition record_verdict (s : Stats) (m : Matcher) (v : Verdict) (domain : list byte) : Stats :=
  match v with
  | Allow => mkStats (blocked s) (excepted s) (sat_add (allowed s) 1) (per_rule s) (per_list s) (per_domain s) (rule_overflow s) (domain_overflow s)
  | AllowedByException _ => mkStats (blocked s) (sat_add (excepted s) 1) (allowed s) (per_rule s) (per_list s) (per_domain s) (rule_overflow s) (domain_overflow s)
  | Block id =>
      let '(rules, ro) := bump_bounded (per_rule s) id MAX_TRACKED_RULES (rule_overflow s) in
      let lists := match rule_info m id with Some info => bt_insert (per_list s) (i_list info) (sat_add (default 0 (bt_get (per_list s) (i_list info))) 1) | None => per_list s end in
      let '(doms, d_o) :=
        if len domain <=? MAX_DOMAIN_KEY_BYTES then bump_bounded (per_domain s) (to_ascii_lowercase domain) MAX_TRACKED_DOMAINS (domain_overflow s)
        else (per_domain s, sat_add (domain_overflow s) 1) in
      mkStats (sat_add (blocked s) 1) (excepted s) (allowed s) rules lists doms ro d_o
  end.

Definition rule_count (s : Stats) (id : Z) : Z := default 0 (bt_get (per_rule s) id).
Definition list_count (s : Stats) (idx : Z) : Z := default 0 (bt_get (per_list s) idx).
Definition domain_count (s : Stats) (domain : list byte) : Z := default 0 (bt_get (per_domain s) (to_ascii_lowercase domain)).
Definition tracked_counts (s : Stats) : Z * Z := (len (per_rule s), len (per_domain s)).

(** [sort_by] with a comparison, and the first [n]. *)
Fixpoint insert_by {A} (c : A -> A -> comparison) (x : A) (l : list A) : list A :=
  match l with [] => [x] | y :: t => match c x y with Gt => y :: insert_by c x t | _ => x :: l end end.
Definition sort_by {A} (c : A -> A -> comparison) (l : list A) : list A := foldr (insert_by c) [] l.
Definition by_count {K} `{Ord K} (a b : K * Z) : comparison := cmp_then (cmp b.2 a.2) (cmp a.1 b.1).
Definition top_rules (s : Stats) (n : nat) : list (Z * Z) := take n (sort_by by_count (per_rule s)).
Definition top_domains (s : Stats) (n : nat) : list (list byte * Z) := take n (sort_by by_count (per_domain s)).

(** Well-formed counters, and what has been blocked accounted for. *)
Record counters_ok (s : Stats) : Prop := {
  counters_sorted : bt_sorted (per_rule s) /\ bt_sorted (per_domain s);
  counters_rules : len (per_rule s) <= MAX_TRACKED_RULES;
  counters_domains : len (per_domain s) <= MAX_TRACKED_DOMAINS /\ Forall (fun d => len d <= MAX_DOMAIN_KEY_BYTES) (bt_keys (per_domain s));
  counters_blocked : 0 <= blocked s <= U64_MAX;
  counters_sum : blocked s < U64_MAX -> sum_Z snd (per_rule s) + rule_overflow s = blocked s /\ sum_Z snd (per_domain s) + domain_overflow s = blocked s;
  counters_pos : (forall k n, bt_get (per_rule s) k = Some n -> 0 <= n) /\ (forall k n, bt_get (per_domain s) k = Some n -> 0 <= n) /\ 0 <= rule_overflow s /\ 0 <= domain_overflow s }.

Lemma sum_snd_nonneg {K} `{Ord K} (m : btree K Z) : bt_sorted m -> (forall k n, bt_get m k = Some n -> 0 <= n) -> 0 <= sum_Z snd m /\ forall k n, bt_get m k = Some n -> n <= sum_Z snd m.
Proof.
  intros Hs Hp. assert (forall k n, (k, n) ∈ m -> 0 <= n) as Hin by (intros k n Hin; apply (Hp k), (bt_elem_get _ _ _ Hs Hin)). 
  assert (0 <= sum_Z snd m /\ forall k n, (k, n) ∈ m -> n <= sum_Z snd m) as [H0 H1].
  { clear Hs Hp. induction m as [|[k0 n0] m IH]; [split; [done|]; by intros k n ?%elem_of_nil|]. rewrite sum_Z_cons. cbn [snd].
    pose proof (Hin k0 n0 ltac:(by left)) as Hn0. destruct IH as [I0 I1]; [intros k n Hkn; apply (Hin k); by right|]. split; [lia|].
    intros k n [[= -> ->]|Hkn]%elem_of_cons; [lia|]. specialize (I1 k n Hkn). lia. }
  split; [done|]. intros k n Hk. apply (H1 k), bt_get_elem, Hk.
Qed.

(** One more, in the map or in the overflow counter. *)
Lemma bump_spec {K} `{Ord K} (m : btree K Z) k cap o : bt_sorted m -> len m <= cap -> (forall k n, bt_get m k = Some n -> 0 <= n) -> 0 <= o ->
  let '(m', o') := bump_bounded m k cap o in
  bt_sorted m' /\ len m' <= cap /\ (forall k n, bt_get m' k = Some n -> 0 <= n) /\ 0 <= o' /\ (forall k', k' ∈ bt_keys m' -> k' = k \/ k' ∈ bt_keys m) /\
  (sum_Z snd m + o < U64_MAX -> sum_Z snd m' + o' = sum_Z snd m + o + 1).
Proof.
  intros Hs Hl Hp Ho. destruct (sum_snd_nonneg m Hs Hp) as [H0 Hle]. unfold bump_bounded. destruct (bt_get m k) as [n|] eqn:E.
  - specialize (Hle k n E). pose proof (Hp k n E) as Hn. split_and!; [by apply bt_sorted_insert|rewrite bt_len_insert, E by done; lia| |done|by intros k' ?%elem_keys_insert|].
    + intros k' n' Hk'. destruct (decide (k = k')) as [<-|Hne]; [rewrite bt_get_insert_eq in Hk'; injection Hk' as <-; unfold sat_add, U64_MAX; lia|rewrite bt_get_insert_ne in Hk' by done; by apply (Hp k')].
    + intros Hlt. rewrite bt_sum_insert, E by done. cbn [snd]. unfold sat_add. lia.
  - destruct (len m <? cap) eqn:Ec; [apply Z.ltb_lt in Ec|].
    + split_and!; [by apply bt_sorted_insert|rewrite bt_len_insert, E by done; lia| |done|by intros k' ?%elem_keys_insert|].
      * intros k' n' Hk'. destruct (decide (k = k')) as [<-|Hne]; [rewrite bt_get_insert_eq in Hk'; by injection Hk' as <-|rewrite bt_get_insert_ne in Hk' by done; by apply (Hp k')].
      * intros Hlt. rewrite bt_sum_insert, E by done. cbn [snd]. lia.
    + split_and!; [done|done|done|unfold sat_add, U64_MAX; lia|by right|]. intros Hlt. unfold sat_add. lia.
Qed.

Lemma record_ok s m v d : counters_ok s -> counters_ok (record_verdict s m v d).
Proof.
  intros Hok. destruct v as [|id|id]; cbn [record_verdict]; [by destruct Hok| |by destruct Hok].
  destruct Hok as [[Hs1 Hs2] Hr [Hd1 Hd2] [Hb0 Hb1] Hsum (Hp1 & Hp2 & Hp3 & Hp4)].
  pose proof (bump_spec (per_rule s) id MAX_TRACKED_RULES (rule_overflow s) Hs1 Hr Hp1 Hp3) as Hrule. destruct (bump_bounded (per_rule s) id _ _) as [rules ro].
  destruct Hrule as (R1 & R2 & R3 & R4 & _ & R6).
  assert (exists doms o, (if len d <=? MAX_DOMAIN_KEY_BYTES then bump_bounded (per_domain s) (to_ascii_lowercase d) MAX_TRACKED_DOMAINS (domain_overflow s) else (per_domain s, sat_add (domain_overflow s) 1)) = (doms, o) /\
    bt_sorted doms /\ len doms <= MAX_TRACKED_DOMAINS /\ Forall (fun d => len d <= MAX_DOMAIN_KEY_BYTES) (bt_keys doms) /\ (forall k n, bt_get doms k = Some n -> 0 <= n) /\ 0 <= o /\
    (sum_Z snd (per_domain s) + domain_overflow s < U64_MAX -> sum_Z snd doms + o = sum_Z snd (per_domain s) + domain_overflow s + 1)) as (doms & o & -> & D1 & D2 & D3 & D4 & D5 & D6).
  { destruct (len d <=? MAX_DOMAIN_KEY_BYTES) eqn:El.
    - pose proof (bump_spec (per_domain s) (to_ascii_lowercase d) MAX_TRACKED_DOMAINS (domain_overflow s) Hs2 Hd1 Hp2 Hp4) as Hdom. destruct (bump_bounded (per_domain s) _ _ _) as [doms o].
      destruct Hdom as (D1 & D2 & D3 & D4 & D5 & D6). exists doms, o. split_and!; try done. apply Forall_forall. intros k Hk. apply D5 in Hk as [->|Hk]; [rewrite len_to_ascii_lowercase; lia|].
      by apply (proj1 (Forall_forall _ _) Hd2).
    - destruct (sum_snd_nonneg _ Hs2 Hp2). eexists _, _. split; [done|]. split_and!; try done; unfold sat_add, U64_MAX in *; lia. }
  split; cbn [blocked per_rule per_domain rule_overflow domain_overflow]; try done.
  - unfold sat_add, U64_MAX in *; lia.
  - intros Hlt. assert (blocked s < U64_MAX) as Hb by (unfold sat_add in Hlt; lia). destruct (Hsum Hb) as [H1 H2]. rewrite R6, D6 by lia. unfold sat_add in *. lia.
Qed.

(** One request: its verdict and the domain it is filed under. *)
Definition record_all (m : Matcher) (es : list (Verdict * list byte)) : Stats := foldl (fun s e => record_verdict s m e.1 e.2) stats_new es.

(** Whatever requests are recorded, the tables of rules and domains stay within their
    caps and every blocked request is counted once in each, under its own entry or in
    the overflow counter, until the counters reach their end. *)
Theorem every_block_counted m es : counters_ok (record_all m es).
Proof.
  unfold record_all. assert (counters_ok stats_new) as H by (split; [by split|done|by split|done|done|by split_and!]).
  revert H. generalize stats_new. induction es as [|e es IH]; intros s Hs; [done|]. by apply IH, record_ok.
Qed.

(** *** Rankings *)
Lemma insert_by_perm {A} c (x : A) l : insert_by c x l ≡ₚ x :: l.
Proof. induction l as [|y l IH]; cbn [insert_by]; [done|]. destruct (c x y); [done|done|]. rewrite IH. apply Permutation_swap. Qed.
Lemma sort_by_perm {A} c (l : list A) : sort_by c l ≡ₚ l.
Proof. induction l as [|x l IH]; cbn [sort_by foldr]; [done|]. fold (sort_by c l). by rewrite insert_by_perm, IH. Qed.

Section ranking.
Context {K : Type} `{Ord K}.
Definition no_later (a b : K * Z) : Prop := by_count a b <> Gt.

Lemma by_count_opp (a b : K * Z) : by_count b a = CompOpp (by_count a b).
Proof. unfold by_count. rewrite (cmp_antisym b.2 a.2), (cmp_antisym a.1 b.1). by destruct (cmp b.2 a.2), (cmp a.1 b.1). Qed.

Lemma no_later_trans a b c : no_later a b -> no_later b c -> no_later a c.
Proof.
  unfold no_later, by_count. destruct a as [ka na], b as [kb nb], c as [kc nc]. cbn [fst snd]. intros H1 H2 H3.
  assert (forall (x y : Z) (r : comparison), cmp_then (cmp x y) r <> Gt <-> x < y \/ x = y /\ r <> Gt) as Hc.
  { intros x y r. cbn. destruct (Z.compare_spec x y); cbn; intuition (lia || congruence). }
  apply Hc in H1, H2. assert (~ (nc < na \/ nc = na /\ cmp ka kc <> Gt)) as Hn by (intros Hn; apply Hc in Hn; congruence). apply Hn.
  destruct H1 as [H1|[-> H1]], H2 as [H2|[-> H2]]; [left; lia|by left|by left|right]. split; [done|]. by apply (OrdMap.le_trans ka kb kc).
Qed.

Lemma insert_by_sorted x l : Sorting.Sorted.StronglySorted no_later l -> Sorting.Sorted.StronglySorted no_later (insert_by by_count x l).
Proof.
  induction 1 as [|y l Hl IH Hy]; cbn [insert_by]; [by repeat constructor|]. assert (by_count x y <> Gt -> Sorting.Sorted.StronglySorted no_later (x :: y :: l)) as Hc.
  { intros E. constructor; [by constructor|]. constructor; [done|]. eapply Forall_impl; [exact Hy|]. intros z Hz. by eapply no_later_trans. }
  destruct (by_count x y) eqn:E; [by apply Hc|by apply Hc|]. constructor; [done|]. rewrite insert_by_perm. constructor; [|done].
  unfold no_later. rewrite by_count_opp, E. done.
Qed.

(** The ranking is the map's entries, by count, then by key; its head is a best one. *)
Lemma ranking_spec (m : btree K Z) : sort_by by_count m ≡ₚ m /\ Sorting.Sorted.StronglySorted no_later (sort_by by_count m).
Proof. split; [apply sort_by_perm|]. induction m as [|x m IH]; cbn [sort_by foldr]; [constructor|]. by apply insert_by_sorted. Qed.
End ranking.

Lemma top_rules_best s n x y : x ∈ top_rules s n -> y ∈ per_rule s -> y ∈ top_rules s n \/ no_later x y.
Proof.
  unfold top_rules. destruct (ranking_spec (per_rule s)) as [Hp Hs]. intros Hx Hy. rewrite <- Hp in Hy. revert Hx Hy Hs. generalize (sort_by by_count (per_rule s)). intros l Hx Hy Hs.
  rewrite <- (take_drop n l) in Hy, Hs. apply elem_of_app in Hy as [Hy|Hy]; [by left|right]. revert Hx Hy Hs. generalize (take n l), (drop n l). intros a b Hx Hy Hs.
  induction a as [|z a IH]; [by apply elem_of_nil in Hx|]. cbn [app] in Hs. apply Sorting.Sorted.StronglySorted_inv in Hs as [Hs Hz]. apply elem_of_cons in Hx as [->|Hx]; [|by apply IH].
  apply (proj1 (Forall_forall _ _) Hz). apply elem_of_app. by right.
Qed.
