(* ===== verification/Sri.v ===== *)
(** * Subresource integrity (px-websec/src/sri.rs)

    The [integrity] attribute, its base64, and the verdict on a response: with well-formed
    metadata, exactly the bodies with a listed FIPS 180-4 digest of the strongest
    algorithm pass. *)
From S2P Require Import Prelude Bytes Text Chars WebUrl WebCanon Cors CspUrl CspSource CspPolicy Sha2 CspCheckProps.
Local Open Scope Z_scope.

Definition MAX_INTEGRITY_BYTES : Z := 16 * 1024.
Definition MAX_TOKENS : Z := 128.

Module Sri.
(** The algorithms are those of [csp::source::HashAlg], declared again and ordered. *)
Inductive Algorithm := Sha256 | Sha384 | Sha512.
#[export] Instance algorithm_eq_dec : EqDecision Algorithm.
Proof. solve_decision. Defined.

Definition digest_len (a : Algorithm) : nat := match a with Sha256 => 32 | Sha384 => 48 | Sha512 => 64 end.
Definition from_token (t : list byte) : option Algorithm :=
  if eq_ignore_ascii_case t (lit "sha256") then Some Sha256
  else if eq_ignore_ascii_case t (lit "sha384") then Some Sha384
  else if eq_ignore_ascii_case t (lit "sha512") then Some Sha512
  else None.
Definition digest (a : Algorithm) (data : list byte) : list byte :=
  match a with Sha256 => CspSha2.sha256 data | Sha384 => CspSha2.sha384 data | Sha512 => CspSha2.sha512 data end.

(** The derived order, as the place among the variants. *)
Definition strength (a : Algorithm) : Z := match a with Sha256 => 0 | Sha384 => 1 | Sha512 => 2 end.

Record HashExpr := mkExpr { algorithm : Algorithm; e_digest : list byte }.
Record Metadata := mkMetadata { hashes : list HashExpr; had_tokens : bool }.
Definition is_enforced (m : Metadata) : bool := negb (bool_decide (hashes m = [])).
Definition needs_check (m : Metadata) : bool := had_tokens m.

(** [Iterator::max]: the last of the greatest. *)
Definition stronger (o : option Algorithm) (h : HashExpr) : option Algorithm :=
  match o with Some a => if strength (algorithm h) <? strength a then Some a else Some (algorithm h) | None => Some (algorithm h) end.
Definition strongest (m : Metadata) : option Algorithm := foldl stronger None (hashes m).

Inductive SriError := TooLarge | NotEligible | Mismatch.

(** [base64_decode]. *)
Definition b64_val (b : byte) : option Z :=
  if in_range 65 90 b then Some (b2z b - 65)
  else if in_range 97 122 b then Some (b2z b - 97 + 26)
  else if in_range 48 57 b then Some (b2z b - 48 + 52)
  else if bool_decide (b ∈ lit "+-") then Some 62
  else if bool_decide (b ∈ lit "/_") then Some 63
  else None.

Fixpoint b64_loop (out : list byte) (acc bits : Z) (l : list byte) : option (list byte * Z) :=
  match l with
  | [] => Some (out, acc)
  | b :: l =>
      v ← b64_val b;
      let acc := Z.lor (Z.shiftl acc 6) v in
      let bits := bits + 6 in
      if 8 <=? bits then
        let bits := bits - 8 in
        b64_loop (out ++ [z2b (Z.land (Z.shiftr acc bits) 0xff)]) (Z.land acc (Z.shiftl 1 bits - 1)) bits l
      else b64_loop out acc bits l
  end.

Definition base64_decode (s : list byte) : option (list byte) :=
  let body := trim_end_matches EQUALS s in
  if 2 <? len s - len body then None
  else if len body mod 4 =? 1 then None
  else '(out, acc) ← b64_loop [] 0 0 body; if acc =? 0 then Some out else None.

Definition is_sri_ws (b : byte) : bool := bool_decide (b ∈ [x20; x09; x0a; x0d; x0c]).

(** What one token says: nothing of note, or a hash expression. *)
Definition parse_token (token : list byte) : option HashExpr :=
  let token := (Url.break_at (fun b => bool_decide (b = "?"%byte)) token).1 in
  '(alg, b64) ← split_once DASH token;
  algorithm ← from_token alg;
  let body := trim_end_matches EQUALS b64 in
  if bool_decide (body = []) || (2 <? len b64 - len body) || negb (forallb (fun b => is_alphanumeric b || bool_decide (b ∈ lit "+/-_")) body) then None
  else
    let d := match base64_decode b64 with Some d => if (length d =? digest_len algorithm)%nat then d else [] | None => [] end in
    Some (mkExpr algorithm d).

Fixpoint parse_loop (hs : list HashExpr) (count : Z) (tokens : list (list byte)) : result SriError Metadata :=
  match tokens with
  | [] => Ok (mkMetadata hs (0 <? count))
  | t :: tokens =>
      if bool_decide (t = []) then parse_loop hs count tokens
      else
        let count := count + 1 in
        if MAX_TOKENS <? count then Err TooLarge
        else parse_loop (match parse_token t with Some h => hs ++ [h] | None => hs end) count tokens
  end.

Definition parse (value : list byte) : result SriError Metadata :=
  if MAX_INTEGRITY_BYTES <? len value then Err TooLarge else parse_loop [] 0 (split_by is_sri_ws value).

Definition eligible (t : Cors.Tainting) : bool := negb (bool_decide (t = Cors.TaintOpaque)).

Definition verify_with (m : Metadata) (t : Cors.Tainting) (body : list byte) (digest : Algorithm -> list byte -> list byte) : result SriError unit :=
  if negb (had_tokens m) && bool_decide (hashes m = []) then Ok tt
  else if negb (eligible t) then Err NotEligible
  else match strongest m with
       | None => Ok tt
       | Some s =>
           let actual := digest s body in
           if existsb (fun h => bool_decide (algorithm h = s) && bool_decide (e_digest h = actual)) (hashes m) then Ok tt else Err Mismatch
       end.
Definition verify (m : Metadata) (t : Cors.Tainting) (body : list byte) : result SriError unit := verify_with m t body digest.

(** ** Base64 decodes exactly what encodes *)
Definition std (b : byte) : byte := if bool_decide (b = "-"%byte) then "+"%byte else if bool_decide (b = "_"%byte) then "/"%byte else b.
Definition val6 (l : list Z) : Z := foldl (fun a v => a * 64 + v) 0 l.
Definition val8 (l : list byte) : Z := foldl (fun a b => a * 256 + b2z b) 0 l.

Lemma b64_val_char b v : b64_val b = Some v <-> 0 <= v < 64 /\ std b = b64_char v.
Proof.
  split.
  - destruct b; vm_compute; intros E; first [discriminate E|injection E as <-]; split; first [done|split; lia].
  - intros [Hv E]. assert (forallb (fun v => forallb (fun b => implb (bool_decide (std b = b64_char v)) (bool_decide (b64_val b = Some v))) (map (fun n => z2b (Z.of_nat n)) (List.seq 0 256))) (seqZ 0 64) = true) as H by by vm_compute.
    apply forallb_true in H. rewrite Forall_forall in H. specialize (H v ltac:(apply elem_of_seqZ; lia)). cbv beta in H. apply forallb_true in H. rewrite Forall_forall in H.
    assert (b ∈ map (fun n => z2b (Z.of_nat n)) (List.seq 0 256)) as Hb.
    { apply list_elem_of_In, in_map_iff. exists (Z.to_nat (b2z b)). pose proof (b2z_range b). split; [rewrite Z2Nat.id by lia; apply z2b_b2z|apply in_seq; lia]. }
    specialize (H b Hb). cbv beta in H. rewrite bool_decide_eq_true_2 in H by done. by apply bool_decide_eq_true in H.
Qed.

Lemma val6_app l v : val6 (l ++ [v]) = val6 l * 64 + v.
Proof. unfold val6. by rewrite foldl_app. Qed.
Lemma val8_app l b : val8 (l ++ [b]) = val8 l * 256 + b2z b.
Proof. unfold val8. by rewrite foldl_app. Qed.
Lemma val6_nonneg l : Forall (fun v => 0 <= v < 64) l -> 0 <= val6 l.
Proof. induction l as [|v l IH] using rev_ind; [done|]. intros [Hl Hv]%Forall_app. apply Forall_inv in Hv. rewrite val6_app. specialize (IH Hl). lia. Qed.

Lemma val6_inj l k : length l = length k -> Forall (fun v => 0 <= v < 64) l -> Forall (fun v => 0 <= v < 64) k -> val6 l = val6 k -> l = k.
Proof.
  revert k. induction l as [|v l IH] using rev_ind; intros k Hlen Hl Hk E; [by destruct k|]. destruct k as [|w k _] using rev_ind; [rewrite length_app in Hlen; cbn in Hlen; lia|].
  rewrite !length_app in Hlen. cbn in Hlen. apply Forall_app in Hl as [Hl Hv], Hk as [Hk Hw]. apply Forall_inv in Hv, Hw. rewrite !val6_app in E.
  assert (val6 l = val6 k /\ v = w) as [E1 ->] by lia. by rewrite (IH k) by (done || lia).
Qed.

Lemma shift_or acc v : 0 <= acc -> 0 <= v < 64 -> Z.lor (Z.shiftl acc 6) v = acc * 64 + v.
Proof.
  intros Ha Hv. rewrite Z.shiftl_mul_pow2 by done. pose proof (Z.add_lor_land (acc * 2 ^ 6) v) as E.
  assert (Z.land (acc * 2 ^ 6) v = 0) as E0; [|rewrite E0 in E; change (2 ^ 6) with 64 in *; lia]. apply Z.bits_inj_0. intros n. rewrite Z.land_spec.
  destruct (Z.ltb_spec n 6) as [Hn|Hn]; [rewrite (Z.mul_pow2_bits_low acc 6 n) by done; done|].
  rewrite <- (Z.mod_small v (2 ^ 6)) by lia. rewrite Z.mod_pow2_bits_high by lia. by rewrite andb_false_r.
Qed.

(** The bytes put out and the bits that wait are the number read so far. *)
Definition push6 (n : Z) (l : list Z) : Z := foldl (fun a v => a * 64 + v) n l.
Definition push8 (n : Z) (l : list byte) : Z := foldl (fun a b => a * 256 + b2z b) n l.

Lemma b64_step out acc bits v : 0 <= bits < 8 -> 0 <= acc < 2 ^ bits -> 0 <= v < 64 -> 8 <= bits + 6 ->
  let acc1 := acc * 64 + v in let x := z2b (acc1 / 2 ^ (bits - 2) mod 256) in
  0 <= acc1 mod 2 ^ (bits - 2) < 2 ^ (bits - 2) /\ val8 (out ++ [x]) * 2 ^ (bits - 2) + acc1 mod 2 ^ (bits - 2) = (val8 out * 2 ^ bits + acc) * 64 + v.
Proof.
  intros Hb Ha Hv H8 acc1 x. rewrite val8_app. unfold x. rewrite b2z_z2b, Z.mod_mod by done. unfold acc1.
  assert (bits = 2 \/ bits = 3 \/ bits = 4 \/ bits = 5 \/ bits = 6 \/ bits = 7) as Hc by lia.
  destruct Hc as [->|[->|[->|[->|[->| ->]]]]]; cbn [Z.sub Z.pow Z.add Z.opp Z.pos_sub Pos.pred_double Z.pow_pos Pos.iter Z.mul Pos.mul Pos.add] in *; change (2 ^ 2) with 4 in *; change (2 ^ 3) with 8 in *; change (2 ^ 4) with 16 in *; change (2 ^ 5) with 32 in *; change (2 ^ 6) with 64 in *; change (2 ^ 7) with 128 in *.
  all: Z.div_mod_to_equations; lia.
Qed.

Lemma b64_loop_value l vs out acc bits : mapM b64_val l = Some vs -> 0 <= bits < 8 -> 0 <= acc < 2 ^ bits ->
  exists out' acc' bits', b64_loop out acc bits l = Some (out', acc') /\ 0 <= bits' < 8 /\ 0 <= acc' < 2 ^ bits' /\
    8 * len out' + bits' = 8 * len out + bits + 6 * len l /\ push6 (val8 out * 2 ^ bits + acc) vs = val8 out' * 2 ^ bits' + acc'.
Proof.
  revert vs out acc bits. induction l as [|b l IH]; intros vs out acc bits Hm Hb Ha.
  { injection Hm as <-. exists out, acc, bits. split_and!; try done; try lia. unfold len. cbn. lia. }
  cbn [mapM] in Hm. destruct (b64_val b) as [v|] eqn:Ev; [|done]. cbn [mbind option_bind] in Hm. destruct (mapM b64_val l) as [vs'|] eqn:El; [|done]. injection Hm as <-.
  apply b64_val_char in Ev as Hv. destruct Hv as [Hv _]. cbn [b64_loop]. rewrite Ev. cbn [mbind option_bind]. rewrite shift_or by lia.
  change (push6 (val8 out * 2 ^ bits + acc) (v :: vs')) with (push6 ((val8 out * 2 ^ bits + acc) * 64 + v) vs'). rewrite len_cons.
  destruct (8 <=? bits + 6) eqn:E8.
  - apply Z.leb_le in E8. replace (bits + 6 - 8) with (bits - 2) by lia. rewrite mask_bits, low_byte by lia. destruct (b64_step out acc bits v Hb Ha Hv E8) as [H1 H2].
    destruct (IH vs' (out ++ [z2b ((acc * 64 + v) / 2 ^ (bits - 2) mod 256)]) ((acc * 64 + v) mod 2 ^ (bits - 2)) (bits - 2) eq_refl ltac:(lia) H1) as (o & a & b' & I1 & I2 & I3 & I4 & I5).
    exists o, a, b'. split_and!; try done; try lia; [rewrite I4, len_app; unfold len; cbn; lia|by rewrite <- H2].
  - apply Z.leb_gt in E8. destruct (IH vs' out (acc * 64 + v) (bits + 6) eq_refl ltac:(lia)) as (o & a & b' & I1 & I2 & I3 & I4 & I5).
    { rewrite Z.pow_add_r by lia. change (2 ^ 6) with 64. lia. }
    exists o, a, b'. split_and!; try done; try lia. rewrite <- I5. f_equal. rewrite Z.pow_add_r by lia. change (2 ^ 6) with 64. lia.
Qed.

Lemma b64_loop_None l out acc bits : mapM b64_val l = None -> b64_loop out acc bits l = None.
Proof.
  revert out acc bits. induction l as [|b l IH]; intros out acc bits; [done|]. cbn [mapM b64_loop]. destruct (b64_val b); [|done]. cbn [mbind option_bind].
  destruct (mapM b64_val l); [done|]. intros _. destruct (8 <=? bits + 6); by apply IH.
Qed.

(** The usual encoding as digits. *)
Lemma b64_digits d : exists vs, b64 d = map b64_char vs /\ Forall (fun v => 0 <= v < 64) vs /\ 0 <= 6 * len vs - 8 * len d < 6 /\
  forall n, push6 n vs = push8 n d * 2 ^ (6 * len vs - 8 * len d).
Proof.
  remember (length d) as k eqn:Ek. revert d Ek. induction k as [k IH] using (well_founded_induction lt_wf). intros d ->. destruct d as [|a [|b [|c d]]].
  - exists []. split_and!; try done. intros n. change (n = n * 1). lia.
  - pose proof (b2z_range a). exists [b2z a / 4; b2z a mod 4 * 16]. split_and!; try done; [repeat constructor; Z.div_mod_to_equations; lia|]. intros n. unfold push6, push8. cbn [foldl]. change (6 * _ - _) with 4. change (2 ^ 4) with 16. Z.div_mod_to_equations. lia.
  - pose proof (b2z_range a). pose proof (b2z_range b). exists [b2z a / 4; b2z a mod 4 * 16 + b2z b / 16; b2z b mod 16 * 4]. split_and!; try done; [repeat constructor; Z.div_mod_to_equations; lia|].
    intros n. unfold push6, push8. cbn [foldl]. change (6 * _ - _) with 2. change (2 ^ 2) with 4. Z.div_mod_to_equations. lia.
  - pose proof (b2z_range a). pose proof (b2z_range b). pose proof (b2z_range c). destruct (IH (length d) ltac:(cbn; lia) d eq_refl) as (vs & E & Hf & Hl & Hv).
    exists ([b2z a / 4; b2z a mod 4 * 16 + b2z b / 16; b2z b mod 16 * 4 + b2z c / 64; b2z c mod 64] ++ vs). split_and!.
    + change (b64 (a :: b :: c :: d)) with (map b64_char [b2z a / 4; b2z a mod 4 * 16 + b2z b / 16; b2z b mod 16 * 4 + b2z c / 64; b2z c mod 64] ++ b64 d). by rewrite E, map_app.
    + apply Forall_app. split; [|done]. repeat constructor; Z.div_mod_to_equations; lia.
    + unfold len in *. rewrite length_app. cbn [length]. lia.
    + unfold len in *. rewrite length_app. cbn [length]. lia.
    + intros n. replace (6 * _ - 8 * _) with (6 * len vs - 8 * len d) by (unfold len; rewrite length_app; cbn [length]; lia).
      change (push6 n ([b2z a / 4; b2z a mod 4 * 16 + b2z b / 16; b2z b mod 16 * 4 + b2z c / 64; b2z c mod 64] ++ vs)) with (push6 ((((n * 64 + b2z a / 4) * 64 + (b2z a mod 4 * 16 + b2z b / 16)) * 64 + (b2z b mod 16 * 4 + b2z c / 64)) * 64 + b2z c mod 64) vs).
      change (push8 n (a :: b :: c :: d)) with (push8 (((n * 256 + b2z a) * 256 + b2z b) * 256 + b2z c) d). rewrite <- Hv. f_equal. Z.div_mod_to_equations. lia.
Qed.

Lemma val8_inj l k : length l = length k -> val8 l = val8 k -> l = k.
Proof.
  revert k. induction l as [|v l IH] using rev_ind; intros k Hlen E; [by destruct k|]. destruct k as [|w k _] using rev_ind; [rewrite length_app in Hlen; cbn in Hlen; lia|].
  rewrite !length_app in Hlen. cbn in Hlen. rewrite !val8_app in E. pose proof (b2z_range v). pose proof (b2z_range w). assert (val8 l = val8 k /\ b2z v = b2z w) as [E1 E2] by lia.
  apply b2z_inj in E2 as ->. by rewrite (IH k) by (done || lia).
Qed.

Lemma mapM_char l vs : mapM b64_val l = Some vs <-> Forall (fun v => 0 <= v < 64) vs /\ map std l = map b64_char vs.
Proof.
  revert vs. induction l as [|b l IH]; intros vs; cbn [mapM map]; [split; [by intros [= <-]|by intros [_ E]; destruct vs]|]. split.
  - destruct (b64_val b) as [v|] eqn:Ev; [|done]. cbn [mbind option_bind]. destruct (mapM b64_val l) as [vs'|]; [|done]. intros [= <-]. apply b64_val_char in Ev as [Hv ->].
    destruct (proj1 (IH vs') eq_refl) as [Hf ->]. split; [by constructor|done].
  - destruct vs as [|v vs]; [by intros [_ ?]|]. intros [Hf E]. cbn in E. injection E as E1 E2. inversion Hf; subst. rewrite (proj2 (b64_val_char b v)) by done. cbn [mbind option_bind]. by rewrite (proj2 (IH vs)) by done.
Qed.

Lemma coded_last body d : map std body = b64 d -> last body <> Some EQUALS.
Proof.
  intros E Hl. destruct (b64_digits d) as (vd & Ed & Hfd & _). rewrite Ed in E. destruct body as [|x body _] using rev_ind; [done|]. rewrite last_snoc in Hl. injection Hl as ->.
  rewrite map_app in E. cbn in E. destruct vd as [|v vd _] using rev_ind; [by destruct body|]. rewrite map_app in E. cbn in E. apply app_inj_tail in E as [_ E].
  apply Forall_app in Hfd as [_ Hv]. apply Forall_inv in Hv. apply b64_char_ok in Hv as [_ Hv]. by rewrite <- E in Hv.
Qed.

(** Decoding accepts exactly the encodings, in either alphabet, with up to two padding
    characters. *)
Lemma base64_exact s d : base64_decode s = Some d <-> exists body k, s = body ++ replicate k EQUALS /\ (k <= 2)%nat /\ map std body = b64 d.
Proof.
  destruct (b64_digits d) as (vd & Ed & Hfd & Hld & Hvd). split.
  - unfold base64_decode. destruct (trim_end_matches_spec EQUALS s) as [k Ek]. set (body := trim_end_matches EQUALS s) in *. destruct (2 <? len s - len body) eqn:E2; [done|]. apply Z.ltb_ge in E2.
    destruct (len body mod 4 =? 1) eqn:E4; [done|]. apply Z.eqb_neq in E4. intros H. destruct (mapM b64_val body) as [vs|] eqn:Em; [|by rewrite b64_loop_None in H].
    destruct (b64_loop_value body vs [] 0 0 Em ltac:(lia) ltac:(lia)) as (o & a & b & Hloop & Hb & Ha & Hl & Hv). rewrite Hloop in H. cbn [mbind option_bind] in H.
    destruct (a =? 0) eqn:Ea; [|done]. apply Z.eqb_eq in Ea as ->. injection H as ->. exists body, k. split; [done|]. split.
    { rewrite Ek in E2. unfold len in E2. rewrite length_app, length_replicate in E2. lia. }
    apply mapM_char in Em as [Hf Em]. rewrite Em, Ed. f_equal. assert (len vs = len body) as Hn by (unfold len; f_equal; apply (f_equal length) in Em; by rewrite !length_map in Em).
    change (len []) with 0 in Hl. specialize (Hvd 0). change (push8 0 d) with (val8 d) in Hvd. change (push6 0 vd) with (val6 vd) in Hvd. change (val6 vs = val8 d * 2 ^ b + 0) in Hv.
    assert (len body = len vd /\ b = 6 * len vd - 8 * len d) as [Hn' Hb'] by (Z.div_mod_to_equations; lia).
    apply val6_inj; [unfold len in *; lia|done|done|]. rewrite Hvd, <- Hb'. lia.
  - intros (body & k & -> & Hk & E). rewrite Ed in E. assert (mapM b64_val body = Some vd) as Em by (by apply mapM_char).
    assert (trim_end_matches EQUALS (body ++ replicate k EQUALS) = body) as Et by (apply trim_padded, (coded_last body d); by rewrite Ed).
    unfold base64_decode. rewrite Et. rewrite len_app. unfold len at 2. rewrite length_replicate. rewrite (proj2 (Z.ltb_ge _ _)) by lia.
    assert (len vd = len body) as Hn by (unfold len; f_equal; apply (f_equal length) in E; by rewrite !length_map in E).
    rewrite (proj2 (Z.eqb_neq _ _)) by (Z.div_mod_to_equations; lia). destruct (b64_loop_value body vd [] 0 0 Em ltac:(lia) ltac:(lia)) as (o & a & b & Hloop & Hb & Ha & Hl & Hv).
    rewrite Hloop. cbn [mbind option_bind]. change (len []) with 0 in Hl. specialize (Hvd 0). change (push8 0 d) with (val8 d) in Hvd. change (push6 0 vd = val8 o * 2 ^ b + a) in Hv. rewrite Hv in Hvd.
    assert (b = 6 * len vd - 8 * len d /\ len o = len d) as [-> Ho] by lia.
    assert (a = 0 /\ val8 o = val8 d) as [-> Hval].
    { assert (0 < 2 ^ (6 * len vd - 8 * len d)) as Hp by (apply Z.pow_pos_nonneg; lia).
      destruct (Z.div_mod_unique (2 ^ (6 * len vd - 8 * len d)) (val8 o) (val8 d) a 0); [lia..|]. by split. }
    cbn. f_equal. apply val8_inj; [unfold len in Ho; lia|done].
Qed.

(** ** What a token says *)
Definition csp_alg (a : Algorithm) : HashAlg := match a with Sha256 => CspSource.Sha256 | Sha384 => CspSource.Sha384 | Sha512 => CspSource.Sha512 end.
Definition value_byte (b : byte) : bool := is_alphanumeric b || bool_decide (b ∈ lit "+/-_").

(** A token that is a hash expression: a name, the digest as text and padding, options. *)
Definition says_padded (token : list byte) (a : Algorithm) (text : list byte) (k : nat) : Prop :=
  exists name opts, token = name ++ DASH :: text ++ replicate k EQUALS ++ opts /\ to_ascii_lowercase name = alg_name (csp_alg a) /\
    text <> [] /\ Forall (fun b => value_byte b = true) text /\ (k <= 2)%nat /\ match opts with [] => True | b :: _ => b = "?"%byte end.
Definition says (token : list byte) (a : Algorithm) (text : list byte) : Prop := exists k, says_padded token a text k.

Definition token_digest (a : Algorithm) (b64 : list byte) : list byte :=
  match base64_decode b64 with Some d => if (length d =? digest_len a)%nat then d else [] | None => [] end.

Lemma from_token_spec t a : from_token t = Some a <-> to_ascii_lowercase t = alg_name (csp_alg a).
Proof.
  unfold from_token, eq_ignore_ascii_case. split.
  - do 3 (destruct (bool_decide _) eqn:E; [apply bool_decide_eq_true in E; intros [= <-]; exact E|clear E]). done.
  - intros E. rewrite E. by destruct a.
Qed.

Lemma value_last text : Forall (fun b => value_byte b = true) text -> last text <> Some EQUALS.
Proof. intros H Hl. apply last_Some_elem_of in Hl. by apply (proj1 (Forall_forall _ _) H) in Hl. Qed.

Lemma lower_no c t n : to_ascii_lowercase t = n -> ascii_lower_byte c ∉ n -> c ∉ t.
Proof. intros <- Hn Hc. apply Hn. unfold to_ascii_lowercase. apply list_elem_of_In, in_map. by apply list_elem_of_In. Qed.
Lemma alg_name_plain a : (DASH ∉ alg_name a) /\ ("?"%byte ∉ alg_name a).
Proof. split; apply (bool_decide_unpack _); by destruct a. Qed.

Lemma parse_token_says token h : parse_token token = Some h <-> exists a text k, says_padded token a text k /\ h = mkExpr a (token_digest a (text ++ replicate k EQUALS)).
Proof.
  unfold parse_token. split.
  - destruct (Url.break_at _ token) as [t opts] eqn:Eb. apply break_at_spec in Eb as (-> & _ & Ho). cbn [fst]. destruct (split_once DASH t) as [[name b64]|] eqn:Es; [|done].
    apply split_once_spec in Es as [-> _]. cbn [mbind option_bind]. destruct (from_token name) as [a|] eqn:Ef; [|done]. apply from_token_spec in Ef. cbn [mbind option_bind].
    destruct (trim_end_matches_spec EQUALS b64) as [k Ek]. set (text := trim_end_matches EQUALS b64) in *. destruct (_ || _) eqn:Ec; [done|]. intros [= <-].
    apply orb_false_iff in Ec as [[E1%bool_decide_eq_false E2%Z.ltb_ge]%orb_false_iff E3%negb_false_iff]. exists a, text, k. split; [|by rewrite <- Ek]. clearbody text. subst b64.
    exists name, opts. split_and!; [by rewrite <- !app_assoc; cbn; rewrite <- app_assoc|done|done|by apply forallb_true in E3| |].
    + unfold len in E2. rewrite length_app, length_replicate in E2. lia.
    + destruct opts; [done|by apply bool_decide_eq_true in Ho].
  - intros (a & text & k & (name & opts & -> & Hn & Ht & Hv & Hk & Ho) & ->). destruct (alg_name_plain (csp_alg a)) as [Hd Hq].
    apply (lower_no DASH _ _ Hn) in Hd. apply (lower_no "?"%byte _ _ Hn) in Hq.
    replace (name ++ DASH :: text ++ replicate k EQUALS ++ opts) with ((name ++ DASH :: text ++ replicate k EQUALS) ++ opts) by (by rewrite <- !app_assoc; cbn; rewrite <- app_assoc).
    rewrite break_at_app; [|apply Forall_app; split; [apply Forall_forall; intros b Hb; apply bool_decide_eq_false; by intros ->|]|by destruct opts as [|b opts]; [|apply bool_decide_eq_true]].
    2:{ constructor; [done|]. apply Forall_app. split; [eapply Forall_impl; [exact Hv|]; intros b Hb; apply bool_decide_eq_false; by intros ->|by apply Forall_replicate]. }
    cbn [fst]. rewrite (proj2 (split_once_spec DASH _ name (text ++ replicate k EQUALS))) by done. cbn [mbind option_bind]. rewrite (proj2 (from_token_spec name a)) by done. cbn [mbind option_bind].
    rewrite trim_padded by (by apply value_last). rewrite bool_decide_eq_false_2 by done. rewrite len_app. unfold len at 2. rewrite length_replicate, (proj2 (Z.ltb_ge _ _)) by lia.
    rewrite (proj2 (forallb_true _ _)); [done|]. done.
Qed.

Lemma token_digest_spec a text k d : Forall (fun b => value_byte b = true) text -> (k <= 2)%nat -> length d = digest_len a ->
  token_digest a (text ++ replicate k EQUALS) = d <-> map std text = b64 d.
Proof.
  intros Hv Hk Hl. unfold token_digest. assert (d <> []) as Hd by (intros ->; by destruct a). split.
  - intros <-. destruct (base64_decode _) as [d|] eqn:E; [|done]. destruct (_ =? _)%nat; [|done]. apply base64_exact in E as (body & k' & E & _ & Eb).
    apply (f_equal (trim_end_matches EQUALS)) in E. rewrite (trim_padded _ text) in E by (by apply value_last). rewrite trim_padded in E by (by apply (coded_last body d)). by rewrite E.
  - intros E. rewrite (proj2 (base64_exact _ d)) by (by exists text, k). by rewrite Hl, Nat.eqb_refl.
Qed.

Definition tokens (value : list byte) : list (list byte) := List.filter (fun t => negb (bool_decide (t = []))) (split_by is_sri_ws value).

Lemma parse_loop_spec ts hs c : c <= MAX_TOKENS ->
  let ts' := List.filter (fun t => negb (bool_decide (t = []))) ts in
  parse_loop hs c ts = if MAX_TOKENS <? c + len ts' then Err TooLarge else Ok (mkMetadata (hs ++ omap parse_token ts') (0 <? c + len ts')).
Proof.
  revert hs c. induction ts as [|t ts IH]; intros hs c Hc; cbn [parse_loop List.filter].
  - cbv zeta. change (len []) with 0. rewrite Z.add_0_r, (proj2 (Z.ltb_ge MAX_TOKENS c)) by done. cbn [omap list_omap]. by rewrite app_nil_r.
  - case_bool_decide; cbn [negb]; [by apply IH|]. cbv zeta in *. rewrite len_cons, (Z.add_assoc c 1). destruct (MAX_TOKENS <? c + 1) eqn:E.
    + apply Z.ltb_lt in E. rewrite (proj2 (Z.ltb_lt _ _)); [done|]. match goal with |- context [len ?l] => pose proof (len_nonneg l) end. lia.
    + apply Z.ltb_ge in E. rewrite IH by done. cbn [omap list_omap]. destruct (_ <? _); [done|]. destruct (parse_token t); [by rewrite <- app_assoc|done].
Qed.

Lemma parse_spec v : parse v = if (MAX_INTEGRITY_BYTES <? len v) || (MAX_TOKENS <? len (tokens v)) then Err TooLarge
  else Ok (mkMetadata (omap parse_token (tokens v)) (0 <? len (tokens v))).
Proof. unfold parse. destruct (_ <? len v); [done|]. cbn [orb]. rewrite parse_loop_spec by done. reflexivity. Qed.

Lemma strongest_spec hs : match foldl stronger None hs with
  | None => hs = []
  | Some s => (exists h, h ∈ hs /\ algorithm h = s) /\ forall h, h ∈ hs -> strength (algorithm h) <= strength s end.
Proof.
  induction hs as [|h hs IH] using rev_ind; [done|]. rewrite foldl_snoc. destruct (foldl stronger None hs) as [s|]; cbn [stronger].
  - destruct IH as [(h0 & Hin & E) Hmax]. destruct (_ <? _) eqn:El; [apply Z.ltb_lt in El|apply Z.ltb_ge in El]; split.
    1: exists h0; split; [apply elem_of_app; by left|done]. 2: exists h; split; [apply elem_of_app; right; by left|done].
    all: intros h' [H|H%list_elem_of_singleton]%elem_of_app; [specialize (Hmax h' H); lia|subst; lia].
  - subst. split; [exists h; split; [by left|done]|]. by intros h' ->%list_elem_of_singleton.
Qed.

Lemma strength_inj a b : strength a = strength b -> a = b.
Proof. by destruct a, b. Qed.

(** An algorithm is the strongest one a value names. *)
Definition strongest_said (value : list byte) (s : Algorithm) : Prop :=
  (exists token text, token ∈ tokens value /\ says token s text) /\ forall token a text, token ∈ tokens value -> says token a text -> strength a <= strength s.

Lemma hashes_say v h : h ∈ omap parse_token (tokens v) <-> exists token a text k, token ∈ tokens v /\ says_padded token a text k /\ h = mkExpr a (token_digest a (text ++ replicate k EQUALS)).
Proof.
  rewrite list_elem_of_omap. split.
  - intros (token & Hin & (a & text & k & Hs & ->)%parse_token_says). by exists token, a, text, k.
  - intros (token & a & text & k & Hin & Hs & ->). exists token. split; [done|]. apply parse_token_says. by exists a, text, k.
Qed.

Lemma strongest_said_iff v s : strongest_said v s <-> foldl stronger None (omap parse_token (tokens v)) = Some s.
Proof.
  pose proof (strongest_spec (omap parse_token (tokens v))) as H. split.
  - intros [(token & text & Hin & k & Hs) Hmax]. assert (mkExpr s (token_digest s (text ++ replicate k EQUALS)) ∈ omap parse_token (tokens v)) as Hh by (apply hashes_say; by exists token, s, text, k).
    destruct (foldl _ _ _) as [s'|]; [|rewrite H in Hh; by apply not_elem_of_nil in Hh]. destruct H as [(h & Hhin & <-) Hall]. specialize (Hall _ Hh). cbn in Hall.
    apply hashes_say in Hhin as (token' & a & text' & k' & Hin' & Hs' & ->). cbn in *. specialize (Hmax token' a text' Hin' ltac:(by exists k')). f_equal. apply strength_inj. lia.
  - intros E. rewrite E in H. destruct H as [(h & Hin & <-) Hall]. apply hashes_say in Hin as (token & a & text & k & Hin & Hs & ->). split; [exists token, text; split; [done|by exists k]|].
    intros token' a' text' Hin' [k' Hs']. specialize (Hall (mkExpr a' (token_digest a' (text' ++ replicate k' EQUALS)))). apply Hall, hashes_say. by exists token', a', text', k'.
Qed.

Lemma says_text token a text k : says_padded token a text k -> Forall (fun b => value_byte b = true) text /\ (k <= 2)%nat.
Proof. by intros (name & opts & _ & _ & _ & ? & ? & _). Qed.

Lemma digest_fips a text : slice_ok text -> digest a text = fips_digest (csp_alg a) text /\ length (digest a text) = digest_len a.
Proof. intros Hs. rewrite <- alg_digest_fips by done. destruct a; (split; [done|]); [exact (length_alg_digest CspSource.Sha256 text)|exact (length_alg_digest CspSource.Sha384 text)|exact (length_alg_digest CspSource.Sha512 text)]. Qed.

(** ** What a value says, apart from the code *)
Definition WHITE : list byte := [x20; x09; x0a; x0d; x0c].
Fixpoint words_from (word l : list byte) : list (list byte) :=
  match l with
  | [] => if decide (word = []) then [] else [word]
  | b :: l => if decide (b ∈ WHITE) then (if decide (word = []) then [] else [word]) ++ words_from [] l else words_from (word ++ [b]) l
  end.
Definition words (value : list byte) : list (list byte) := words_from [] value.

Definition VALUE : list byte := lit "ABCDEFGHIJKLMNOPQRSTUVWXYZabcdefghijklmnopqrstuvwxyz0123456789+/-_".
Definition name_of (a : Algorithm) : list byte := match a with Sha256 => lit "sha256" | Sha384 => lit "sha384" | Sha512 => lit "sha512" end.
Definition bits_of (a : Algorithm) : Z := match a with Sha256 => 256 | Sha384 => 384 | Sha512 => 512 end.
Definition fips (a : Algorithm) (body : list byte) : list byte :=
  match a with Sha256 => Sha2.Fips.SHA256 body | Sha384 => Sha2.Fips.SHA384 body | Sha512 => Sha2.Fips.SHA512 body end.

(** A word names an algorithm; it is a hash expression for it when a digest as text,
    at most two padding characters and perhaps options follow. *)
Definition names (token : list byte) (a : Algorithm) : Prop := exists name rest, token = name ++ x2d :: rest /\ to_ascii_lowercase name = name_of a.
Definition written (token : list byte) (a : Algorithm) (text : list byte) : Prop :=
  exists name k opts, token = name ++ x2d :: text ++ replicate k x3d ++ opts /\ to_ascii_lowercase name = name_of a /\
    text <> [] /\ Forall (fun b => b ∈ VALUE) text /\ (k <= 2)%nat /\ (opts = [] \/ head opts = Some x3f).
(** Every word that names an algorithm can be read. *)
Definition readable (value : list byte) : Prop := forall token a, token ∈ words value -> names token a -> exists text, written token a text.
(** The strongest algorithm a value names. *)
Definition strongest_named (value : list byte) (s : Algorithm) : Prop :=
  (exists token, token ∈ words value /\ names token s) /\ forall token a, token ∈ words value -> names token a -> bits_of a <= bits_of s.
(** A word carries the digest of the body, in base64 of either alphabet. *)
Definition carries (token : list byte) (a : Algorithm) (body : list byte) : Prop := exists text, written token a text /\ map std text = b64 (fips a body).

Lemma words_from_tokens l : forall word, words_from word l =
  List.filter (fun t => negb (bool_decide (t = []))) (match split_by is_sri_ws l with p :: ps => (word ++ p) :: ps | [] => [word] end).
Proof.
  induction l as [|b l IH]; intros word; cbn [words_from split_by].
  - rewrite app_nil_r. cbn [List.filter]. by case_decide; case_bool_decide.
  - unfold is_sri_ws at 1. fold WHITE. case_decide as Hb; [rewrite bool_decide_eq_true_2 by done|rewrite bool_decide_eq_false_2 by done; rewrite IH].
    + cbn [List.filter]. rewrite app_nil_r, IH. assert (match split_by is_sri_ws l with p :: ps => ([] ++ p) :: ps | [] => [[]] end = split_by is_sri_ws l) as ->.
      { destruct l as [|c l]; [done|]. cbn [split_by]. destruct (is_sri_ws c); [done|]. by destruct (split_by is_sri_ws l). }
      by case_decide; case_bool_decide.
    + destruct (split_by is_sri_ws l) as [|p ps]; [done|]. by rewrite <- app_assoc.
Qed.
Lemma words_tokens l : words l = tokens l.
Proof.
  unfold words, tokens. rewrite words_from_tokens. f_equal. destruct l as [|c l]; [done|]. cbn [split_by]. destruct (is_sri_ws c); [done|]. by destruct (split_by is_sri_ws l).
Qed.

Lemma value_char b : value_byte b = true <-> b ∈ VALUE.
Proof. rewrite <- (bool_decide_eq_true (b ∈ VALUE)). by destruct b; vm_compute. Qed.
Lemma written_says token a text : written token a text <-> says token a text.
Proof.
  assert (name_of a = alg_name (csp_alg a)) as Hn by by destruct a. unfold written, says, says_padded. rewrite Hn. setoid_rewrite value_char. split.
  - intros (name & k & opts & H1 & H2 & H3 & H4 & H5 & H6). exists k, name, opts. split_and!; try done. destruct opts; [done|]. by destruct H6 as [?|[= ->]].
  - intros (k & name & opts & H1 & H2 & H3 & H4 & H5 & H6). exists name, k, opts. split_and!; try done. destruct opts; [by left|]. subst. by right.
Qed.
Lemma written_names token a text : written token a text -> names token a.
Proof. intros (name & k & opts & -> & H & _). by eexists _, _. Qed.
Lemma bits_strength a b : bits_of a <= bits_of b <-> strength a <= strength b.
Proof. by destruct a, b; vm_compute. Qed.
Lemma fips_csp a body : fips a body = fips_digest (csp_alg a) body.
Proof. by destruct a. Qed.

Lemma strongest_readable value s : readable value -> strongest_named value s <-> strongest_said value s.
Proof.
  intros Hr. unfold strongest_named, strongest_said, readable in *. setoid_rewrite bits_strength. rewrite words_tokens in *. setoid_rewrite <- written_says. split; intros [H1 H2]; split.
  - destruct H1 as (token & Hin & Hn). destruct (Hr token s Hin Hn) as [text Ht]. by exists token, text.
  - intros token a text Hin Hw. apply (H2 token a Hin). by eapply written_names.
  - destruct H1 as (token & text & Hin & Hw). exists token. split; [done|]. by eapply written_names.
  - intros token a Hin Hn. destruct (Hr token a Hin Hn) as [text Ht]. by apply (H2 token a text Hin).
Qed.

(** Some expression of the strongest algorithm matches. *)
Definition matching (value : list byte) (s : Algorithm) (body : list byte) : Prop := exists token text, token ∈ tokens value /\ says token s text /\ map std text = b64 (digest s body).

Lemma match_spec value s body : slice_ok body -> existsb (fun h => bool_decide (algorithm h = s) && bool_decide (e_digest h = digest s body)) (omap parse_token (tokens value)) = true <-> matching value s body.
Proof.
  intros Hs. destruct (digest_fips s body Hs) as [_ Hl]. rewrite existsb_exists. split.
  - intros (h & Hin%list_elem_of_In & [E1%bool_decide_eq_true E2%bool_decide_eq_true]%andb_true_iff).
    apply hashes_say in Hin as (token & a & text & k & Hin & Hsay & ->). cbn in E1, E2. subst a. exists token, text. split; [done|]. split; [by exists k|].
    destruct (says_text _ _ _ _ Hsay) as [Hv Hk]. by apply (token_digest_spec s text k).
  - intros (token & text & Hin & [k Hsay] & Em). destruct (says_text _ _ _ _ Hsay) as [Hv Hk]. apply (token_digest_spec s text k) in Em; [|done..].
    exists (mkExpr s (digest s body)). split; [|by rewrite !bool_decide_eq_true_2]. apply list_elem_of_In, hashes_say. exists token, s, text, k. by rewrite Em.
Qed.

Lemma matching_carries value s body : slice_ok body -> matching value s body <-> exists token, token ∈ words value /\ carries token s body.
Proof.
  intros Hs. unfold matching, carries. rewrite words_tokens, fips_csp, <- (proj1 (digest_fips s body Hs)). setoid_rewrite written_says. naive_solver.
Qed.

(** C26: Integrity metadata is refused exactly when it is longer than 16384 bytes or has more
    than 128 words.  With accepted metadata, a value without words lets every response
    pass and one with words no opaque response.  When every word that names an algorithm
    is a well-formed hash expression, another response passes exactly when no word names an
    algorithm, or one that names the strongest of them carries the FIPS 180-4 digest of the
    body, in base64 of either alphabet, padded or not; so weaker digests beside it change
    nothing, and a wrong or undecodable digest never passes.  What the code makes of a word
    outside the grammar is [malformed_digest_skips_the_check]. *)
Theorem integrity_exact value t body : slice_ok body ->
  (parse value = Err TooLarge <-> 16384 < len value \/ 128 < len (words value)) /\
  forall m, parse value = Ok m ->
    (words value = [] -> verify m t body = Ok tt) /\
    (words value <> [] -> t = Cors.TaintOpaque -> verify m t body = Err NotEligible) /\
    (words value <> [] -> t <> Cors.TaintOpaque -> readable value ->
      (verify m t body = Ok tt <-> forall s, strongest_named value s -> exists token, token ∈ words value /\ carries token s body)).
Proof.
  intros Hs. rewrite parse_spec, !words_tokens. split.
  { unfold MAX_INTEGRITY_BYTES, MAX_TOKENS. change (16 * 1024) with 16384. destruct (_ || _) eqn:E; [apply orb_true_iff in E; rewrite !Z.ltb_lt in E; split; [lia|done]|]. apply orb_false_iff in E as [E1%Z.ltb_ge E2%Z.ltb_ge]. split; [done|lia]. }
  destruct (_ || _); [done|]. intros m [= <-]. unfold verify, verify_with, eligible, strongest. cbn [had_tokens hashes].
  destruct (tokens value) as [|t0 ts] eqn:Et; [by split_and!|]. rewrite len_cons. pose proof (len_nonneg ts) as Hpos. rewrite (proj2 (Z.ltb_lt _ _)) by lia. cbn [negb andb].
  rewrite <- Et. split; [by rewrite Et|]. split; [by intros _ ->|]. intros _ Ho Hr. rewrite bool_decide_eq_false_2 by done. cbn [negb].
  assert (forall s, strongest_named value s <-> foldl stronger None (omap parse_token (tokens value)) = Some s) as Hst by (intros s; by rewrite strongest_readable, strongest_said_iff).
  setoid_rewrite Hst. destruct (foldl _ _ _) as [s|] eqn:Ef; [|done]. destruct (existsb _ _) eqn:Ex.
  - split; [|done]. intros _ s' [= <-]. rewrite <- words_tokens. apply matching_carries, match_spec; done.
  - split; [done|]. intros H. specialize (H s eq_refl). rewrite <- words_tokens in H. apply matching_carries, match_spec in H; [|done..]. by rewrite H in Ex.
Qed.

Definition abc_value : list byte := lit "md5-AAAA sha256-ungWv48Bz-pBQUDeXa4iI7ADYaOWF3qctBD_YfIAFa0?x".
Definition abc_words : list (list byte) := [lit "md5-AAAA"; lit "sha256-ungWv48Bz-pBQUDeXa4iI7ADYaOWF3qctBD_YfIAFa0?x"].
Lemma abc_written : written (abc_words !!! 1%nat) Sha256 (lit "ungWv48Bz-pBQUDeXa4iI7ADYaOWF3qctBD_YfIAFa0").
Proof. exists (lit "sha256"), 0%nat, (lit "?x"). split_and!; [done|done|done| |lia|by right]. apply (bool_decide_unpack _). by vm_compute. Qed.
Lemma abc_named token a : token ∈ words abc_value -> names token a -> token = abc_words !!! 1%nat /\ a = Sha256.
Proof.
  intros Hin (name & rest & E & Hn). assert (words abc_value = abc_words) as Ew by by vm_compute. rewrite Ew in Hin.
  assert (forall n r, token = n ++ DASH :: r -> DASH ∉ n -> Some (name, rest) = Some (n, r)) as Hu.
  { intros n r E' Hd. rewrite <- (proj2 (split_once_spec DASH token name rest)), <- (proj2 (split_once_spec DASH token n r)); [done|done|]. split; [done|].
    destruct (alg_name_plain (csp_alg a)) as [Hp _]. apply (lower_no DASH name (alg_name (csp_alg a))); [by destruct a|done]. }
  apply elem_of_cons in Hin as [->| ->%list_elem_of_singleton].
  - assert (Some (name, rest) = Some (lit "md5", lit "AAAA")) as [= -> ->] by (apply Hu; [done|by apply (bool_decide_unpack _); vm_compute]). by destruct a.
  - assert (Some (name, rest) = Some (lit "sha256", lit "ungWv48Bz-pBQUDeXa4iI7ADYaOWF3qctBD_YfIAFa0?x")) as [= -> ->] by (apply Hu; [done|by apply (bool_decide_unpack _); vm_compute]). by destruct a.
Qed.

Lemma integrity_exact_witness : slice_ok (lit "abc") /\ readable abc_value /\
  exists m, parse abc_value = Ok m /\ verify m Cors.Basic (lit "abc") = Ok tt /\ exists token, token ∈ words abc_value /\ carries token Sha256 (lit "abc").
Proof.
  assert (slice_ok (lit "abc")) as Hs by (vm_compute; discriminate).
  assert (readable abc_value) as Hr. { intros token a Hin Hn. destruct (abc_named token a Hin Hn) as [-> ->]. eexists. exact abc_written. }
  split; [done|]. split; [done|]. destruct (integrity_exact abc_value Cors.Basic (lit "abc") Hs) as [_ H].
  destruct (parse abc_value) as [m|e] eqn:Ep; [|vm_compute in Ep; discriminate]. destruct (H m eq_refl) as (_ & _ & H3).
  assert (verify m Cors.Basic (lit "abc") = Ok tt) as Hv by (vm_compute in Ep; injection Ep as <-; by vm_compute). exists m. split; [done|]. split; [done|].
  apply H3; [by vm_compute|done|done|done|]. split.
  - exists (abc_words !!! 1%nat). split; [apply (bool_decide_unpack _); by vm_compute|]. eapply written_names, abc_written.
  - intros token a Hin Hn. by destruct (abc_named token a Hin Hn) as [_ ->].
Defined.

(** A digest with a character outside the grammar leaves the word out, and the response
    passes whatever its body. *)
Example malformed_digest_skips_the_check : match parse (lit "sha256-!!!") with Ok m => verify m Cors.Basic (lit "anything") | Err e => Err e end = Ok tt.
Proof. by vm_compute. Qed.
End Sri.
