(* ===== verification/Embedding.v ===== *)
(** * Framing and isolation (px-websec/src/frame.rs, px-websec/src/coop.rs)

    [X-Frame-Options] and the [sandbox] attribute of a frame; the opener, embedder and
    resource policies, from the structured field of their headers to the verdicts. *)
From S2P Require Import Prelude Bytes Text Chars Partition WebUrl WebHost WebCanon WebOrigin Cors CspUrl CspSource CspPolicy CspReport CspCheckProps.
Local Open Scope Z_scope.

Module Frame.
Definition MAX_HEADER_BYTES : Z := 4096.
Inductive XfoVerdict := Allowed | Blocked.
#[export] Instance xfo_verdict_eq_dec : EqDecision XfoVerdict.
Proof. solve_decision. Defined.

Definition is_xfo_ws (b : byte) : bool := bool_decide (b ∈ [x20; x09; x0a; x0d]).

(** The values so far, each once; or a line that is too long. *)
Definition add_value (values : list (list byte)) (part : list byte) : list (list byte) :=
  let v := to_ascii_lowercase (Url.trim_matches is_xfo_ws part) in
  if bool_decide (v ∈ values) then values else values ++ [v].
Fixpoint collect (values : list (list byte)) (lines : list (list byte)) : option (list (list byte)) :=
  match lines with
  | [] => Some values
  | line :: lines => if MAX_HEADER_BYTES <? len line then None else collect (foldl add_value values (split_on COMMA line)) lines
  end.

Definition known (v : list byte) : bool := bool_decide (v = lit "deny") || bool_decide (v = lit "sameorigin").

Definition check_xfo (header_values : list (list byte)) (response_origin : WOrigin.t) (ancestors : list WOrigin.t) : XfoVerdict :=
  if bool_decide (ancestors = []) then Allowed
  else match collect [] header_values with
       | None => Blocked
       | Some values =>
           if (1 <? length values)%nat then if existsb known values then Blocked else Allowed
           else match head values with
                | Some v =>
                    if bool_decide (v = lit "deny") then Blocked
                    else if bool_decide (v = lit "sameorigin") then
                      if forallb (fun a => WOrigin.same_origin a response_origin) ancestors then Allowed else Blocked
                    else Allowed
                | None => Allowed
                end
       end.

Inductive FrameAncestors := AncestorsAbsent | AncestorsAllowed | AncestorsBlocked.
Definition embedding_allowed (frame_ancestors : FrameAncestors) (xfo : XfoVerdict) : bool :=
  match frame_ancestors with
  | AncestorsAllowed => true
  | AncestorsBlocked => false
  | AncestorsAbsent => bool_decide (xfo = Allowed)
  end.

(** [str::get] up to a bound: nothing when the bound is inside a character. *)
Definition get_to (n : nat) (v : list byte) : option (list byte) :=
  match v !! n with Some b => if cont b then None else Some (take n v) | None => Some v end.
Definition SANDBOX_BYTES : nat := Z.to_nat (MAX_HEADER_BYTES * 4).
Definition is_html_ws (b : byte) : bool := bool_decide (b ∈ [x20; x09; x0a; x0d; x0c]).
Definition parse_sandbox_attribute (value : option (list byte)) : option SandboxFlags :=
  v ← value;
  let v := default [] (get_to SANDBOX_BYTES v) in
  Some (from_tokens (List.filter (fun t => negb (bool_decide (t = []))) (split_by is_html_ws v))).

Definition sandboxed_origin (flags : option SandboxFlags) (origin : WOrigin.t) : counted WOrigin.t :=
  match flags with
  | Some f => if forces_opaque_origin f then WOrigin.new_opaque else counted_ret origin
  | None => counted_ret origin
  end.
End Frame.

Module Coop.
Definition MAX_HEADER_BYTES : Z := 2048.

(** ** Structured fields *)
Record SfItem := mkItem { token : list byte; report_to : option (list byte) }.

Definition is_sf_token_start (c : byte) : bool := Url.is_alphabetic c || bool_decide (c = "*"%byte).
Definition is_sf_token_char (c : byte) : bool := is_alphanumeric c || bool_decide (c ∈ lit "!#$%&'*+-.^_`|~:/").
Definition is_blank (c : byte) : bool := bool_decide (c ∈ [x20; x09]).
Definition is_key_start (c : byte) : bool := in_range 97 122 c || bool_decide (c = "*"%byte).
Definition is_key_char (c : byte) : bool := in_range 97 122 c || is_digit c || bool_decide (c ∈ lit "_-.*").
Definition is_base64_char (c : byte) : bool := is_alphanumeric c || bool_decide (c ∈ lit "+/=").

(** The text up to the closing quote, and what follows. *)
Fixpoint sf_string (val l : list byte) : option (list byte * list byte) :=
  match l with
  | [] => None
  | b :: l =>
      if bool_decide (b = DQUOTE) then Some (val, l)
      else if bool_decide (b = BACKSLASH) then
        match l with
        | c :: l => if bool_decide (c ∈ [DQUOTE; BACKSLASH]) then sf_string (val ++ [c]) l else None
        | [] => None
        end
      else if in_range 0x20 0x7e b then sf_string (val ++ [b]) l else None
  end.

Definition sf_number (l : list byte) : option (list byte) :=
  let '(ds, l) := Url.break_at (fun c => negb (is_digit c)) l in
  if bool_decide (ds = []) || (15 <? length ds)%nat then None
  else match l with
       | c :: r =>
           if bool_decide (c = DOT) then
             if (12 <? length ds)%nat then None
             else let '(fs, r) := Url.break_at (fun c => negb (is_digit c)) r in
                  if bool_decide (fs = []) || (3 <? length fs)%nat then None else Some r
           else Some l
       | [] => Some l
       end.

(** One value that is not a string is passed over. *)
Definition sf_bare (l : list byte) : option (list byte) :=
  match l with
  | [] => None
  | c :: r =>
      if bool_decide (c = "?"%byte) then
        match r with b :: r => if bool_decide (b ∈ lit "01") then Some r else None | [] => None end
      else if is_digit c || bool_decide (c = DASH) then sf_number (if bool_decide (c = DASH) then r else l)
      else if is_sf_token_start c then Some (Url.break_at (fun c => negb (is_sf_token_char c)) l).2
      else if bool_decide (c = COLON) then
        match (Url.break_at (fun c => negb (is_base64_char c)) r).2 with
        | c :: r => if bool_decide (c = COLON) then Some r else None
        | [] => None
        end
      else None
  end.

(** What follows a key: a string, another value or nothing. *)
Definition sf_value (l : list byte) : option (option (list byte) * list byte) :=
  match strip_prefix [CspSource.EQUALS] l with
  | Some l =>
      match strip_prefix [DQUOTE] l with
      | Some l => '(v, l) ← sf_string [] l; Some (Some v, l)
      | None => l ← sf_bare l; Some (None, l)
      end
  | None => Some (None, l)
  end.

Definition REPORT_TO : list byte := lit "report-to".

Fixpoint sf_params (fuel : nat) (item : SfItem) (l : list byte) : option SfItem :=
  match fuel with
  | O => None
  | S fuel =>
      match Url.drop_while is_blank l with
      | [] => Some item
      | c :: l =>
          if bool_decide (c = SEMICOLON) then
            match Url.drop_while (fun c => bool_decide (c = x20)) l with
            | k :: l =>
                if is_key_start k then
                  let '(ks, l) := Url.break_at (fun c => negb (is_key_char c)) l in
                  '(v, l) ← sf_value l;
                  sf_params fuel (if bool_decide (k :: ks = REPORT_TO) then mkItem (token item) v else item) l
                else None
            | [] => None
            end
          else None
      end
  end.

(** Every round takes a character, so that a round more than there are characters is enough. *)
Definition parse_sf_token_item (input : list byte) : option SfItem :=
  if (MAX_HEADER_BYTES <? len input) || negb (is_ascii input) then None
  else
    let s := Url.trim_matches is_blank input in
    match s with
    | first :: _ =>
        if is_sf_token_start first then
          let '(token, l) := Url.break_at (fun c => negb (is_sf_token_char c)) s in
          sf_params (S (length s)) (mkItem token None) l
        else None
    | [] => None
    end.

(** ** Embedder policies *)
Inductive Coep := UnsafeNone | RequireCorp | Credentialless.
#[export] Instance coep_eq_dec : EqDecision Coep.
Proof. solve_decision. Defined.
Record EmbedderPolicy := mkEmbedder { e_value : Coep; e_report_to : option (list byte) }.

Definition coep_of (token : list byte) : Coep :=
  if bool_decide (token = lit "require-corp") then RequireCorp
  else if bool_decide (token = lit "credentialless") then Credentialless else UnsafeNone.
Definition parse_coep (header : option (list byte)) : EmbedderPolicy :=
  match header ≫= parse_sf_token_item with
  | None => mkEmbedder UnsafeNone None
  | Some item => mkEmbedder (coep_of (token item)) (report_to item)
  end.
Definition is_isolation_compatible (c : Coep) : bool := match c with RequireCorp | Credentialless => true | UnsafeNone => false end.

(** ** Opener policies *)
Inductive Coop := OpenerUnsafeNone | SameOriginAllowPopups | SameOrigin | SameOriginPlusCoep.
#[export] Instance coop_eq_dec : EqDecision Coop.
Proof. solve_decision. Defined.
Record OpenerPolicy := mkOpener { o_value : Coop; o_report_to : option (list byte) }.

Definition coop_of (token : list byte) (coep : Coep) : Coop :=
  if bool_decide (token = lit "same-origin") then if is_isolation_compatible coep then SameOriginPlusCoep else SameOrigin
  else if bool_decide (token = lit "same-origin-allow-popups") then SameOriginAllowPopups else OpenerUnsafeNone.
Definition parse_coop (header : option (list byte)) (coep : Coep) : OpenerPolicy :=
  match header ≫= parse_sf_token_item with
  | None => mkOpener OpenerUnsafeNone None
  | Some item => mkOpener (coop_of (token item) coep) (report_to item)
  end.
Definition is_cross_origin_isolated (coop : Coop) : bool := bool_decide (coop = SameOriginPlusCoep).

Record CoopState := mkState { cs_value : Coop; cs_origin : WOrigin.t; initial_about_blank : bool }.
Definition coop_matches (a b : CoopState) : bool :=
  match cs_value a, cs_value b with
  | OpenerUnsafeNone, OpenerUnsafeNone => true
  | OpenerUnsafeNone, _ | _, OpenerUnsafeNone => false
  | x, y => bool_decide (x = y) && WOrigin.same_origin (cs_origin a) (cs_origin b)
  end.
Definition needs_group_switch (current response : CoopState) (top_level : bool) : bool :=
  if negb top_level then false
  else if coop_matches current response then false
  else if initial_about_blank current && bool_decide (cs_value current = SameOriginAllowPopups) && bool_decide (cs_value response = OpenerUnsafeNone) then false
  else true.

(** ** Resource policies *)
Inductive Corp := CorpSameOrigin | CorpSameSite | CorpCrossOrigin.
#[export] Instance corp_eq_dec : EqDecision Corp.
Proof. solve_decision. Defined.

Definition parse_corp (header_lines : list (list byte)) : option Corp :=
  match header_lines with
  | [first] =>
      let v := Url.trim_matches Frame.is_xfo_ws first in
      if bool_decide (v = lit "same-origin") then Some CorpSameOrigin
      else if bool_decide (v = lit "same-site") then Some CorpSameSite
      else if bool_decide (v = lit "cross-origin") then Some CorpCrossOrigin else None
  | _ => None
  end.

Inductive CorpVerdict := Allowed | Blocked.
#[export] Instance corp_verdict_eq_dec : EqDecision CorpVerdict.
Proof. solve_decision. Defined.
Record CorpResponse := mkResponse { cr_url : Url.t; cr_corp : option Corp; request_includes_credentials : bool }.

Section Resources.
Context {T : Type} `{SiteResolver T} (resolver : T).

Definition corp_internal (origin : WOrigin.t) (embedder : Coep) (response : CorpResponse) (for_navigation : bool) : counted CorpVerdict :=
  if for_navigation && bool_decide (embedder = UnsafeNone) then counted_ret Allowed
  else
    let policy := match cr_corp response with
      | Some p => Some p
      | None => match embedder with
                | UnsafeNone => None
                | Credentialless => if request_includes_credentials response || for_navigation then Some CorpSameOrigin else None
                | RequireCorp => Some CorpSameOrigin
                end
      end in
    let* resp_origin := WOrigin.from_url (cr_url response) in
    counted_ret match policy with
      | None | Some CorpCrossOrigin => Allowed
      | Some CorpSameOrigin => if WOrigin.same_origin origin resp_origin then Allowed else Blocked
      | Some CorpSameSite =>
          if schemelessly_same_site origin resp_origin resolver &&
             (bool_decide (WOrigin.scheme origin = Some (lit "https")) || negb (bool_decide (Url.scheme (cr_url response) = lit "https")))
          then Allowed else Blocked
      end.

Definition corp_check (origin : WOrigin.t) (embedder : Coep) (response : CorpResponse) (for_navigation : bool) : counted CorpVerdict :=
  let* v := corp_internal origin UnsafeNone response for_navigation in
  if bool_decide (v = Blocked) then counted_ret Blocked else corp_internal origin embedder response for_navigation.

Definition corp_report_only_would_block (origin : WOrigin.t) (report_only : Coep) (response : CorpResponse) (for_navigation : bool) : counted bool :=
  let* v := corp_internal origin report_only response for_navigation in counted_ret (bool_decide (v = Blocked)).

Definition coep_check_response (origin : WOrigin.t) (embedder : Coep) (tainting : Cors.Tainting) (response : CorpResponse) : counted CorpVerdict :=
  match tainting with
  | Cors.TaintOpaque => corp_check origin embedder response false
  | Cors.Basic | Cors.TaintCors => counted_ret Allowed
  end.
End Resources.

Definition coep_navigation_check (parent response : Coep) : CorpVerdict :=
  if is_isolation_compatible parent && negb (is_isolation_compatible response) then Blocked else Allowed.

(** ** Secure contexts *)
Definition is_secure_context (chain : list ContextNode) : bool := negb (bool_decide (chain = [])) && forallb is_trustworthy chain.
End Coop.

(** * Structured fields (RFC 8941)

    The grammar of an item that is a token with parameters, written from the RFC apart from
    the code: characters by name, lengths as numbers.  [before] holds the characters that
    may stand before a parameter's semicolon, of which the RFC has none. *)
Module Rfc8941.
Definition DIGIT : list byte := lit "0123456789".
Definition lcalpha : list byte := lit "abcdefghijklmnopqrstuvwxyz".
Definition ALPHA : list byte := lcalpha ++ lit "ABCDEFGHIJKLMNOPQRSTUVWXYZ".
Definition tchar : list byte := lit "!#$%&'*+-.^_`|~" ++ DIGIT ++ ALPHA.
Definition blanks : list byte := [x20; x09].
Definition drawn (s l : list byte) : Prop := Forall (fun b => b ∈ s) l.

Inductive Token : list byte -> Prop :=
| token c l : c ∈ lit "*" ++ ALPHA -> drawn (lit ":/" ++ tchar) l -> Token (c :: l).
Inductive Key : list byte -> Prop :=
| key c l : c ∈ lit "*" ++ lcalpha -> drawn (lcalpha ++ DIGIT ++ lit "_-.*") l -> Key (c :: l).
Inductive Chars : list byte -> Prop :=
| no_char : Chars []
| plain_char c l : 32 <= b2z c <= 126 -> c <> x22 -> c <> x5c -> Chars l -> Chars (c :: l)
| escaped_char c l : c = x22 \/ c = x5c -> Chars l -> Chars (x5c :: c :: l).
Inductive Number : list byte -> Prop :=
| integer ds : drawn DIGIT ds -> (1 <= length ds <= 15)%nat -> Number ds
| decimal ds fs : drawn DIGIT ds -> drawn DIGIT fs -> (1 <= length ds <= 12)%nat -> (1 <= length fs <= 3)%nat -> Number (ds ++ x2e :: fs).
Inductive BareItem : list byte -> Prop :=
| positive l : Number l -> BareItem l
| negative l : Number l -> BareItem (x2d :: l)
| string l : Chars l -> BareItem (x22 :: l ++ [x22])
| word l : Token l -> BareItem l
| binary l : drawn (ALPHA ++ DIGIT ++ lit "+/=") l -> BareItem (x3a :: l ++ [x3a])
| boolean c : c ∈ lit "01" -> BareItem [x3f; c].
Inductive OneParam : list byte -> Prop :=
| flag k : Key k -> OneParam k
| valued k v : Key k -> BareItem v -> OneParam (k ++ x3d :: v).

Inductive Params (before : list byte) : list byte -> Prop :=
| no_more : Params before []
| one_more p sp k l : drawn before p -> drawn [x20] sp -> OneParam k -> Params before l -> Params before (p ++ x3b :: sp ++ k ++ l).

(** A header of at most 2048 bytes that is such an item, between blanks. *)
Definition Field (before header tok : list byte) : Prop :=
  (length header <= 2048)%nat /\ exists p q params, header = p ++ (tok ++ params) ++ q /\ drawn blanks p /\ drawn blanks q /\ Token tok /\ Params before params.

(** What the RFC reads. *)
Definition reads (header tok : list byte) : Prop := Field [] header tok.

(** A blank before a semicolon, outside the RFC unless in a string. *)
Definition spaced (header : list byte) : Prop := exists x c y, c ∈ blanks /\ header = x ++ c :: x3b :: y.

Lemma parameters_mono before l : Params [] l -> Params before l.
Proof. induction 1 as [|p sp k l Hp Hs Hk _ IH]; constructor; try done. destruct Hp as [|c p Hc _]; [constructor|]. by apply not_elem_of_nil in Hc. Qed.

Lemma parameters_spaced l : Params blanks l -> Params [] l \/ spaced l.
Proof.
  induction 1 as [|p sp k l Hp Hs Hk _ IH]; [left; constructor|]. destruct p as [|c p _] using rev_ind.
  - destruct IH as [IH|(x & c & y & Hc & ->)]; [left; constructor; [constructor|done..]|]. right. exists (x3b :: sp ++ k ++ x), c, y. split; [done|]. cbn. by rewrite <- !app_assoc.
  - right. apply Forall_app in Hp as [_ Hc]. apply Forall_inv in Hc. exists p, c, (sp ++ k ++ l). split; [done|]. by rewrite <- app_assoc.
Qed.

Lemma reads_field h tok : reads h tok -> Field blanks h tok.
Proof. intros (Hl & p & q & ps & E & H1 & H2 & H3 & H4). split; [done|]. apply (parameters_mono blanks) in H4. by exists p, q, ps. Qed.
Lemma field_reads h tok : Field blanks h tok -> ~ spaced h -> reads h tok.
Proof.
  intros (Hl & p & q & ps & E & H1 & H2 & H3 & [H4|(x & c & y & Hc & ->)]%parameters_spaced) Hn; [split; [done|]; by exists p, q, ps|].
  destruct Hn. exists (p ++ tok ++ x), c, (y ++ q). split; [done|]. rewrite E. by repeat (rewrite <- app_assoc; cbn [app]).
Qed.

(** A list of characters and a test that say the same. *)
Lemma same_class (s : list byte) (f : byte -> bool) : forallb (fun n => Bool.eqb (bool_decide (z2b n ∈ s)) (f (z2b n))) (seqZ 0 256) = true -> forall b, b ∈ s <-> f b = true.
Proof.
  intros H b. apply forallb_true in H. rewrite Forall_forall in H. pose proof (b2z_range b). specialize (H (b2z b) ltac:(apply elem_of_seqZ; lia)). cbv beta in H. rewrite z2b_b2z in H.
  apply eqb_prop in H. by rewrite <- H, bool_decide_eq_true.
Qed.
Lemma drawn_class s f : (forall b, b ∈ s <-> f b = true) -> forall l, drawn s l <-> Forall (fun b => f b = true) l.
Proof. intros H l. unfold drawn. by setoid_rewrite H. Qed.
End Rfc8941.

(** * What a structured field says

    The same grammar as the code reads it, with what each part stands for. *)
Module SfGrammar.
Import Coop.

Inductive ParamValue :=
| PTrue | PString (v : list byte) | PBool (b : byte) | PNumber (neg : bool) (ds : list byte) (frac : option (list byte))
| PToken (t : list byte) | PBytes (t : list byte).
Record Param := mkParam { pad1 : list byte; pad2 : list byte; key : list byte; value : ParamValue }.

Definition esc (b : byte) : list byte := if bool_decide (b ∈ [DQUOTE; BACKSLASH]) then [BACKSLASH; b] else [b].
Definition frac_text (frac : option (list byte)) : list byte := match frac with Some fs => DOT :: fs | None => [] end.
Definition bare_text (v : ParamValue) : list byte :=
  match v with
  | PTrue => []
  | PString v => DQUOTE :: flat_map esc v ++ [DQUOTE]
  | PBool b => ["?"%byte; b]
  | PNumber neg ds frac => (if neg then [DASH] else []) ++ ds ++ frac_text frac
  | PToken t => t
  | PBytes t => COLON :: t ++ [COLON]
  end.
Definition value_text (v : ParamValue) : list byte := match v with PTrue => [] | _ => CspSource.EQUALS :: bare_text v end.
Definition param_text (p : Param) : list byte := pad1 p ++ SEMICOLON :: pad2 p ++ key p ++ value_text (value p).

Definition all (f : byte -> bool) (l : list byte) : Prop := Forall (fun b => f b = true) l.
Definition begins (f : byte -> bool) (l : list byte) : Prop := match l with [] => False | b :: _ => f b = true end.
Definition value_ok (v : ParamValue) : Prop :=
  match v with
  | PTrue => True
  | PString v => all (in_range 0x20 0x7e) v
  | PBool b => b ∈ lit "01"
  | PNumber _ ds frac => all is_digit ds /\ ds <> [] /\ (length ds <= match frac with Some _ => 12 | None => 15 end)%nat /\
      match frac with Some fs => all is_digit fs /\ fs <> [] /\ (length fs <= 3)%nat | None => True end
  | PToken t => begins is_sf_token_start t /\ all is_sf_token_char t
  | PBytes t => all is_base64_char t
  end.
Definition param_ok (p : Param) : Prop :=
  all is_blank (pad1 p) /\ all (fun c => bool_decide (c = x20)) (pad2 p) /\ begins is_key_start (key p) /\ all is_key_char (key p) /\ value_ok (value p).
Definition as_string (v : ParamValue) : option (list byte) := match v with PString v => Some v | _ => None end.

(** The last parameter of the name decides, and only a string counts. *)
Definition apply_param (item : SfItem) (p : Param) : SfItem := if bool_decide (key p = REPORT_TO) then mkItem (token item) (as_string (value p)) else item.

(** The text is the item with its parameters. *)
Definition item_says (text tok : list byte) (ps : list Param) : Prop :=
  text = tok ++ concat (map param_text ps) /\ begins is_sf_token_start tok /\ all is_sf_token_char tok /\ Forall param_ok ps.

Definition after (r : list byte) : Prop := match r with [] => True | c :: _ => is_blank c = true \/ c = SEMICOLON end.
Lemma after_not f r : after r -> f x20 = false -> f x09 = false -> f SEMICOLON = false -> match r with [] => True | b :: _ => negb (f b) = true end.
Proof. destruct r as [|c r]; [done|]. intros [H| ->] H1 H2 H3; [|by rewrite H3]. unfold is_blank in H. apply bool_decide_eq_true in H. apply elem_of_cons in H as [->|H%list_elem_of_singleton]; [by rewrite H1|by rewrite H, H2]. Qed.

Lemma break_all f x y : all f x -> match y with [] => True | b :: _ => negb (f b) = true end -> Url.break_at (fun c => negb (f c)) (x ++ y) = (x, y).
Proof. intros Hx Hy. apply break_at_app; [|done]. eapply Forall_impl; [exact Hx|]. by intros b ->. Qed.
Lemma break_negb f l x y : Url.break_at (fun c => negb (f c)) l = (x, y) -> l = x ++ y /\ all f x.
Proof. intros (-> & Hx & _)%break_at_spec. split; [done|]. eapply Forall_impl; [exact Hx|]. by intros b H%negb_false_iff. Qed.

(** The first character of a string that is written out, and of its end. *)
Lemma string_head w r b l : b :: l = flat_map esc w ++ DQUOTE :: r ->
  (w = [] /\ b = DQUOTE /\ l = r) \/ exists c w', w = c :: w' /\
    ((c ∈ [DQUOTE; BACKSLASH] /\ b = BACKSLASH /\ l = c :: flat_map esc w' ++ DQUOTE :: r) \/
     ((c ∉ [DQUOTE; BACKSLASH]) /\ b = c /\ l = flat_map esc w' ++ DQUOTE :: r)).
Proof.
  destruct w as [|c w]; [intros [= -> ->]; by left|]. cbn [flat_map]. rewrite <- app_assoc. unfold esc at 1. intros E. right. exists c, w. split; [done|].
  case_bool_decide as Hc; injection E as -> ->; [by left|by right].
Qed.

Lemma special_not c : (c ∉ [DQUOTE; BACKSLASH]) <-> c <> DQUOTE /\ c <> BACKSLASH.
Proof. rewrite !not_elem_of_cons. split; [tauto|]. intros [? ?]. split_and!; [done|done|apply not_elem_of_nil]. Qed.

Lemma sf_string_spec l val v r : sf_string val l = Some (v, r) <-> exists w, v = val ++ w /\ l = flat_map esc w ++ DQUOTE :: r /\ all (in_range 0x20 0x7e) w.
Proof.
  revert val. induction l as [l IH] using (induction_ltof1 _ length). unfold ltof in IH. intros val. split.
  - destruct l as [|b l]; [done|]. cbn [sf_string]. case_bool_decide as Hq; [intros [= <- <-]; exists []; rewrite app_nil_r; subst; repeat split; constructor|].
    case_bool_decide as Hb.
    + destruct l as [|c l]; [done|]. case_bool_decide as Hc; [|done]. intros (w & -> & -> & Hw)%IH; [|cbn; lia]. exists (c :: w).
      split; [by rewrite <- app_assoc|]. split; [subst; cbn [flat_map]; unfold esc at 2; by rewrite bool_decide_eq_true_2|]. constructor; [|done]. apply elem_of_cons in Hc as [->|Hc%list_elem_of_singleton]; [done|by rewrite Hc].
    + destruct (in_range _ _ b) eqn:Hr; [|done]. intros (w & -> & -> & Hw)%IH; [|cbn; lia]. exists (b :: w).
      split; [by rewrite <- app_assoc|]. split; [|by constructor]. cbn [flat_map]. unfold esc at 2. rewrite bool_decide_eq_false_2; [done|]. by apply special_not.
  - intros (w & -> & E & Hw). destruct l as [|b l]; [by destruct (flat_map esc w)|]. destruct (string_head _ _ _ _ E) as [(-> & -> & ->)|(c & w' & -> & [(Hc & -> & ->)|(Hc & -> & ->)])].
    + cbn [sf_string]. by rewrite app_nil_r.
    + cbn [sf_string]. rewrite bool_decide_eq_false_2, bool_decide_eq_true_2, bool_decide_eq_true_2 by done. apply IH; [cbn; lia|]. exists w'. inversion Hw. by rewrite <- app_assoc.
    + cbn [sf_string]. apply special_not in Hc as [H1 H2]. rewrite !bool_decide_eq_false_2 by done. inversion Hw as [|? ? Hr]; subst. rewrite Hr. apply IH; [cbn; lia|]. exists w'. by rewrite <- app_assoc.
Qed.

Lemma number_split l r : sf_number l = Some r -> exists ds frac, l = ds ++ frac_text frac ++ r /\ value_ok (PNumber false ds frac).
Proof.
  unfold sf_number. destruct (Url.break_at _ l) as [ds k] eqn:Ed. apply break_negb in Ed as [-> Hd]. destruct (_ || _) eqn:E1; [done|].
  apply orb_false_iff in E1 as [N1%bool_decide_eq_false L1%Nat.ltb_ge]. assert (Some k = Some r -> exists ds0 frac, ds ++ k = ds0 ++ frac_text frac ++ r /\ value_ok (PNumber false ds0 frac)) as Hplain.
  { intros [= ->]. by exists ds, None. }
  destruct k as [|c k]; [done|]. case_bool_decide as Hc; [|done]. clear Hplain. subst c. destruct (_ <? _)%nat eqn:L2; [done|]. apply Nat.ltb_ge in L2.
  destruct (Url.break_at _ k) as [fs k'] eqn:Ef. apply break_negb in Ef as [-> Hf]. destruct (_ || _) eqn:E2; [done|]. intros [= ->].
  apply orb_false_iff in E2 as [N2%bool_decide_eq_false L3%Nat.ltb_ge]. by exists ds, (Some fs).
Qed.

Lemma number_join ds frac r : after r -> value_ok (PNumber false ds frac) -> sf_number (ds ++ frac_text frac ++ r) = Some r.
Proof.
  intros Ha (Hd & N1 & L1 & Hf). unfold sf_number. assert (match r with [] => True | b :: _ => negb (is_digit b) = true end) as Hr by by apply after_not.
  rewrite break_all; [|done|by destruct frac]. rewrite bool_decide_eq_false_2 by done. assert ((15 <? length ds)%nat = false) as -> by (apply Nat.ltb_ge; destruct frac; lia). cbn [orb].
  destruct frac as [fs|]; cbn [frac_text app].
  - destruct Hf as (Hf & N2 & L3). rewrite bool_decide_eq_true_2, (proj2 (Nat.ltb_ge _ _)) by done. rewrite break_all by done. by rewrite bool_decide_eq_false_2, (proj2 (Nat.ltb_ge _ _)) by done.
  - destruct r as [|c r]; [done|]. rewrite bool_decide_eq_false_2; [done|]. intros ->. by destruct Ha.
Qed.

Lemma sf_value_split l v r : sf_value l = Some (v, r) -> exists p, l = value_text p ++ r /\ value_ok p /\ v = as_string p.
Proof.
  unfold sf_value. destruct (strip_prefix [CspSource.EQUALS] l) as [k|] eqn:Ee; [|intros [= <- <-]; by exists PTrue]. apply strip_prefix_Some in Ee as ->.
  destruct (strip_prefix [DQUOTE] k) as [t|] eqn:Eq.
  { apply strip_prefix_Some in Eq as ->. destruct (sf_string [] t) as [[w r']|] eqn:Es; [|done]. intros [= <- <-]. apply sf_string_spec in Es as (w' & -> & -> & Hw). cbn [app].
    exists (PString w'). split_and!; [cbn; by rewrite <- app_assoc|done|done]. }
  clear Eq. destruct (sf_bare k) as [r'|] eqn:Eb; [|done]. intros [= <- <-]. unfold sf_bare in Eb. destruct k as [|c k]; [done|]. case_bool_decide as H1.
  { destruct k as [|b k]; [done|]. case_bool_decide as Hb; [|done]. injection Eb as ->. subst. by exists (PBool b). }
  destruct (is_digit c || _) eqn:H2.
  { apply number_split in Eb as (ds & frac & E & Hok). case_bool_decide as Hd.
    - exists (PNumber true ds frac). split_and!; [subst; cbn; by rewrite <- app_assoc|done|done].
    - exists (PNumber false ds frac). split_and!; [rewrite E; cbn; by rewrite <- app_assoc|done|done]. }
  destruct (is_sf_token_start c) eqn:H3.
  { destruct (Url.break_at _ (c :: k)) as [t r''] eqn:Et. injection Eb as ->. pose proof Et as Et'. apply break_negb in Et as [E Ht]. exists (PToken t). split_and!; [by rewrite E| |done].
    split; [|done]. destruct t as [|c' t]; [|injection E as -> _; done]. cbn in E. subst. cbn [Url.break_at] in Et'.
    assert (is_sf_token_char c = true) as Hc; [|rewrite Hc in Et'; cbn [negb] in Et'; by destruct (Url.break_at _ k)]. clear -H3. revert H3. by destruct c. }
  case_bool_decide as H4; [|done]. destruct (Url.break_at _ k) as [t r''] eqn:Et. apply break_negb in Et as [-> Ht]. cbn [snd] in Eb. destruct r'' as [|d r'']; [done|]. destruct (bool_decide (d = COLON)) eqn:Hd; [apply bool_decide_eq_true in Hd|done]. injection Eb as ->. subst.
  exists (PBytes t). split_and!; [cbn; by rewrite <- app_assoc|done|done].
Qed.

Lemma sf_value_join p r : after r -> value_ok p -> sf_value (value_text p ++ r) = Some (as_string p, r).
Proof.
  intros Ha Hp. unfold sf_value. destruct p as [|v|b|neg ds frac|t|t]; cbn [value_text bare_text app as_string].
  - destruct r as [|c r]; [done|]. cbn [strip_prefix]. rewrite bool_decide_eq_false_2; [done|]. intros ->. by destruct Ha.
  - cbn [strip_prefix]. rewrite !bool_decide_eq_true_2 by done. rewrite <- app_assoc. by rewrite (proj2 (sf_string_spec _ [] v r)) by (exists v; done).
  - cbn [strip_prefix]. rewrite bool_decide_eq_true_2 by done. rewrite bool_decide_eq_false_2 by done. cbn [sf_bare]. rewrite bool_decide_eq_true_2 by done. by rewrite (bool_decide_eq_true_2 _ Hp).
  - cbn [strip_prefix]. rewrite bool_decide_eq_true_2 by done. rewrite <- app_assoc. cbn [app]. rewrite <- app_assoc. destruct neg; cbn [app].
    + rewrite bool_decide_eq_false_2 by done. unfold sf_bare. rewrite bool_decide_eq_false_2, orb_true_r, bool_decide_eq_true_2 by done. by rewrite number_join.
    + destruct Hp as (Hd & N1 & Hp). destruct ds as [|d ds]; [done|]. apply Forall_cons in Hd as Hd'. destruct Hd' as [Hd1 _]. cbn [app].
      assert (d <> DQUOTE /\ d <> "?"%byte /\ d <> DASH) as (D1 & D2 & D3) by (by clear -Hd1; destruct d).
      rewrite bool_decide_eq_false_2 by done. unfold sf_bare. rewrite bool_decide_eq_false_2, Hd1 by done. cbn [orb]. rewrite bool_decide_eq_false_2 by done. change (d :: ds ++ frac_text frac ++ r) with ((d :: ds) ++ frac_text frac ++ r). by rewrite number_join.
  - cbn [strip_prefix]. rewrite bool_decide_eq_true_2 by done. destruct Hp as [Hs Ht]. destruct t as [|c t]; [done|]. cbn [begins] in Hs. cbn [app].
    assert (c <> DQUOTE /\ c <> "?"%byte /\ c <> DASH /\ is_digit c = false) as (D1 & D2 & D3 & D4) by (by clear -Hs; destruct c).
    rewrite bool_decide_eq_false_2 by done. unfold sf_bare. rewrite bool_decide_eq_false_2, D4, bool_decide_eq_false_2, Hs by done. cbn [orb]. change (c :: t ++ r) with ((c :: t) ++ r). rewrite (break_all is_sf_token_char); [done|done|by apply after_not].
  - cbn [strip_prefix]. rewrite bool_decide_eq_true_2 by done. rewrite bool_decide_eq_false_2 by done. unfold sf_bare. rewrite bool_decide_eq_false_2 by done. cbn [is_digit orb].
    rewrite <- app_assoc. cbn [app]. replace (is_digit COLON || bool_decide (COLON = DASH)) with false by done. replace (is_sf_token_start COLON) with false by done.
    rewrite bool_decide_eq_true_2 by done. rewrite break_all by done. cbn [snd]. by rewrite bool_decide_eq_true_2.
Qed.

Lemma drop_while_split f l : exists k, l = k ++ Url.drop_while f l /\ all f k.
Proof.
  induction l as [|b l (k & E & Hk)]; [exists []; split; [done|constructor]|]. cbn [Url.drop_while]. destruct (f b) eqn:Hb; [|exists []; split; [done|constructor]]. exists (b :: k). split; [by rewrite E at 1|by constructor].
Qed.
Lemma drop_while_all f k y : all f k -> match y with [] => True | b :: _ => f b = false end -> Url.drop_while f (k ++ y) = y.
Proof. intros Hk Hy. induction Hk as [|b k Hb Hk IH]; cbn [app Url.drop_while]; [by apply drop_while_id|]. by rewrite Hb. Qed.
Lemma trim_last f l b : last (Url.trim_matches f l) = Some b -> f b = false.
Proof.
  unfold Url.trim_matches. rewrite last_reverse. destruct (drop_while_suffix f (reverse (Url.drop_while f l))) as (_ & _ & H). destruct (Url.drop_while f (reverse _)); [done|]. by intros [= <-].
Qed.

Lemma params_split fuel : forall item l item', sf_params fuel item l = Some item' ->
  exists ps trail, l = concat (map param_text ps) ++ trail /\ all is_blank trail /\ Forall param_ok ps /\ item' = foldl apply_param item ps.
Proof.
  induction fuel as [|fuel IH]; intros item l item'; cbn [sf_params]; [done|]. destruct (drop_while_split is_blank l) as (p1 & E1 & H1).
  destruct (Url.drop_while is_blank l) as [|c l1]; [intros [= <-]; rewrite app_nil_r in E1; subst; exists [], p1; split_and!; [done|done|constructor|done]|]. case_bool_decide as Hc; [|done]. subst c.
  destruct (drop_while_split (fun c => bool_decide (c = x20)) l1) as (p2 & E2 & H2). destruct (Url.drop_while _ l1) as [|k l2]; [done|]. destruct (is_key_start k) eqn:Hk; [|done].
  destruct (Url.break_at _ l2) as [ks l3] eqn:Eb. apply break_negb in Eb as [-> Hks]. destruct (sf_value l3) as [[v l4]|] eqn:Ev; [|done]. cbn [mbind option_bind].
  apply sf_value_split in Ev as (pv & -> & Hpv & ->). intros (ps & trail & -> & Ht & Hps & ->)%IH. exists (mkParam p1 p2 (k :: ks) pv :: ps), trail. split_and!; [|done| |done].
  - rewrite E1, E2. unfold param_text at 2. cbn [map concat pad1 pad2 key value]. repeat (rewrite <- app_assoc; cbn [app]). done.
  - constructor; [|done]. split_and!; cbn [pad1 pad2 key value begins]; try done. constructor; [|done]. unfold is_key_start in Hk. unfold is_key_char.
    apply orb_true_iff in Hk as [->| ->%bool_decide_eq_true]; [done|by vm_compute].
Qed.

Lemma after_params ps : Forall param_ok ps -> after (concat (map param_text ps)).
Proof.
  destruct 1 as [|p ps (H1 & _) _]; [done|]. cbn [map concat]. unfold param_text. destruct (pad1 p) as [|c k]; [by right|]. apply Forall_cons in H1 as [Hc _]. by left.
Qed.

Lemma params_join ps : Forall param_ok ps -> forall fuel item, (length (concat (map param_text ps)) < fuel)%nat ->
  sf_params fuel item (concat (map param_text ps)) = Some (foldl apply_param item ps).
Proof.
  induction 1 as [|p ps (H1 & H2 & H3 & H4 & H5) Hps IH]; intros fuel item Hf; (destruct fuel as [|fuel]; [cbn in Hf; lia|]); [done|].
  cbn [map concat]. unfold param_text at 1. repeat (rewrite <- app_assoc; cbn [app]). cbn [sf_params]. rewrite drop_while_all by done. rewrite bool_decide_eq_true_2 by done.
  destruct (key p) as [|k ks] eqn:Ek; [done|]. cbn [app]. cbn [begins] in H3. rewrite drop_while_all; [|done|by clear -H3; destruct k]. rewrite H3.
  apply Forall_cons in H4 as [_ H4]. pose proof (after_params ps Hps) as Ha.
  rewrite break_all; [|done|].
  2:{ destruct (value p); cbn [value_text app]; try done. by apply after_not. }
  rewrite sf_value_join by done. cbn [mbind option_bind]. rewrite IH; [cbn [foldl]; unfold apply_param at 3; by rewrite Ek|].
  cbn [map concat] in Hf. unfold param_text at 1 in Hf. rewrite !length_app in Hf. cbn [length] in Hf. lia.
Qed.

(** ** The items that are read are those of the RFC, or have blanks before a semicolon *)
Lemma digit_class b : b ∈ Rfc8941.DIGIT <-> is_digit b = true.
Proof. apply Rfc8941.same_class. by vm_compute. Qed.
Lemma token_class b : b ∈ lit ":/" ++ Rfc8941.tchar <-> is_sf_token_char b = true.
Proof. apply Rfc8941.same_class. by vm_compute. Qed.
Lemma token_start_class b : b ∈ lit "*" ++ Rfc8941.ALPHA <-> is_sf_token_start b = true.
Proof. apply Rfc8941.same_class. by vm_compute. Qed.
Lemma key_class b : b ∈ Rfc8941.lcalpha ++ Rfc8941.DIGIT ++ lit "_-.*" <-> is_key_char b = true.
Proof. apply Rfc8941.same_class. by vm_compute. Qed.
Lemma key_start_class b : b ∈ lit "*" ++ Rfc8941.lcalpha <-> is_key_start b = true.
Proof. apply Rfc8941.same_class. by vm_compute. Qed.
Lemma base64_class b : b ∈ Rfc8941.ALPHA ++ Rfc8941.DIGIT ++ lit "+/=" <-> is_base64_char b = true.
Proof. apply Rfc8941.same_class. by vm_compute. Qed.
Lemma blank_class b : b ∈ Rfc8941.blanks <-> is_blank b = true.
Proof. apply Rfc8941.same_class. by vm_compute. Qed.
Lemma space_class b : b ∈ [x20] <-> bool_decide (b = x20) = true.
Proof. by rewrite bool_decide_eq_true, list_elem_of_singleton. Qed.
Lemma key_start_char b : is_key_start b = true -> is_key_char b = true.
Proof. unfold is_key_start, is_key_char. by intros [->| ->%bool_decide_eq_true]%orb_true_iff. Qed.
Lemma token_start_char b : is_sf_token_start b = true -> is_sf_token_char b = true.
Proof. by destruct b. Qed.

Lemma token_rfc l : Rfc8941.Token l <-> begins is_sf_token_start l /\ all is_sf_token_char l.
Proof.
  split.
  - intros [c k Hc%token_start_class Hk%(Rfc8941.drawn_class _ _ token_class)]. split; [done|]. constructor; [by apply token_start_char|done].
  - destruct l as [|c l]; intros [Hb Ha]; [done|]. apply Forall_cons in Ha as [_ Ha]. constructor; [by apply token_start_class|by apply (Rfc8941.drawn_class _ _ token_class)].
Qed.
Lemma key_rfc l : Rfc8941.Key l <-> begins is_key_start l /\ all is_key_char l.
Proof.
  split.
  - intros [c k Hc%key_start_class Hk%(Rfc8941.drawn_class _ _ key_class)]. split; [done|]. constructor; [by apply key_start_char|done].
  - destruct l as [|c l]; intros [Hb Ha]; [done|]. apply Forall_cons in Ha as [_ Ha]. constructor; [by apply key_start_class|by apply (Rfc8941.drawn_class _ _ key_class)].
Qed.

Lemma chars_rfc l : Rfc8941.Chars l <-> exists v, l = flat_map esc v /\ all (in_range 0x20 0x7e) v.
Proof.
  split.
  - induction 1 as [|c l Hc H1 H2 _ (v & -> & Hv)|c l Hc _ (v & -> & Hv)]; [exists []; split; [done|constructor]|..]; exists (c :: v).
    + split; [|by constructor; [unfold in_range; apply andb_true_iff; rewrite !Z.leb_le|]]. cbn [flat_map]. unfold esc at 2. rewrite bool_decide_eq_false_2; [done|]. by apply special_not.
    + split; [|by constructor; [destruct Hc as [-> | ->]|]]. cbn [flat_map]. unfold esc at 2. rewrite bool_decide_eq_true_2; [done|]. destruct Hc as [-> | ->]; [by left|right; by left].
  - intros (v & -> & Hv). induction Hv as [|c v Hc Hv IH]; [constructor|]. cbn [flat_map]. unfold esc at 1. case_bool_decide as He; cbn [app].
    + constructor; [|done]. apply elem_of_cons in He as [->|He%list_elem_of_singleton]; [by left|by right].
    + apply special_not in He as [H1 H2]. constructor; [|done..]. unfold in_range in Hc. by rewrite andb_true_iff, !Z.leb_le in Hc.
Qed.

Lemma number_rfc l : Rfc8941.Number l <-> exists ds frac, l = ds ++ frac_text frac /\ value_ok (PNumber false ds frac).
Proof.
  pose proof (Rfc8941.drawn_class _ _ digit_class) as Hd. split.
  - intros [ds H1%Hd H2|ds fs H1%Hd H2%Hd H3 H4].
    + exists ds, None. cbn [value_ok frac_text]. rewrite app_nil_r. assert (ds <> []) by (intros ->; cbn in *; lia). split_and!; try done; lia.
    + exists ds, (Some fs). cbn [value_ok]. assert (ds <> [] /\ fs <> []) as [? ?] by (split; intros ->; cbn in *; lia). split_and!; try done; lia.
  - intros (ds & frac & -> & H1 & H2 & H3 & H4). assert (1 <= length ds)%nat by (destruct ds; [done|cbn; lia]). destruct frac as [fs|]; cbn [frac_text].
    + destruct H4 as (H4 & H5 & H6). constructor; [by apply Hd..|lia|]. destruct fs; [done|cbn in *; lia].
    + rewrite app_nil_r. constructor; [by apply Hd|lia].
Qed.

Lemma bare_rfc l : Rfc8941.BareItem l <-> exists v, v <> PTrue /\ l = bare_text v /\ value_ok v.
Proof.
  split.
  - intros [k Hk|k Hk|k Hk|k Hk|k Hk|c Hc].
    + apply number_rfc in Hk as (ds & frac & -> & Hk). by exists (PNumber false ds frac).
    + apply number_rfc in Hk as (ds & frac & -> & Hk). by exists (PNumber true ds frac).
    + apply chars_rfc in Hk as (v & -> & Hv). by exists (PString v).
    + apply token_rfc in Hk. by exists (PToken k).
    + apply (Rfc8941.drawn_class _ _ base64_class) in Hk. by exists (PBytes k).
    + by exists (PBool c).
  - intros ([|v|b|neg ds frac|t|t] & Hn & -> & Hv); [done|..]; cbn [bare_text].
    + apply Rfc8941.string, chars_rfc. by exists v.
    + by constructor.
    + assert (Rfc8941.Number (ds ++ frac_text frac)) as H by (apply number_rfc; by exists ds, frac). destruct neg; [by apply Rfc8941.negative|by apply Rfc8941.positive].
    + by apply Rfc8941.word, token_rfc.
    + by apply Rfc8941.binary, (Rfc8941.drawn_class _ _ base64_class).
Qed.

Lemma parameters_rfc l : Rfc8941.Params Rfc8941.blanks l <-> exists ps, l = concat (map param_text ps) /\ Forall param_ok ps.
Proof.
  split.
  - induction 1 as [|p sp k l Hp%(Rfc8941.drawn_class _ _ blank_class) Hs%(Rfc8941.drawn_class _ (fun b => bool_decide (b = x20)) space_class) Hk _ (ps & -> & Hps)]; [by exists []|].
    assert (exists ks v, k = ks ++ value_text v /\ begins is_key_start ks /\ all is_key_char ks /\ value_ok v) as (ks & v & -> & H1 & H2 & H3).
    { destruct Hk as [k [H1 H2]%key_rfc|k v [H1 H2]%key_rfc (w & Hw & -> & Hok)%bare_rfc]; [exists k, PTrue; by rewrite app_nil_r|]. exists k, w. by destruct w. }
    exists (mkParam p sp ks v :: ps). split; [|by constructor]. cbn [map concat]. unfold param_text at 2. cbn [pad1 pad2 key value]. by repeat (rewrite <- app_assoc; cbn [app]).
  - intros (ps & -> & Hps). induction Hps as [|p ps (H1 & H2 & H3 & H4 & H5) _ IH]; [constructor|]. cbn [map concat]. unfold param_text at 1. rewrite <- app_assoc. cbn [app]. rewrite <- (app_assoc (pad2 p)).
    constructor; [by apply (Rfc8941.drawn_class _ _ blank_class)|by apply (Rfc8941.drawn_class _ (fun b => bool_decide (b = x20)) space_class)| |done].
    destruct (value p) as [|v|b|neg ds frac|t|t] eqn:Ev; [cbn [value_text]; rewrite app_nil_r; constructor; by apply key_rfc|..];
      (apply Rfc8941.valued; [by apply key_rfc|]; apply bare_rfc; eexists; split; [|split; [reflexivity|exact H5]]; done).
Qed.

(** The token and the report endpoint of an item. *)
Definition endpoint (ps : list Param) : option (list byte) :=
  foldl (fun r p => if bool_decide (key p = REPORT_TO) then as_string (value p) else r) None ps.
Lemma apply_params ps tok r : foldl apply_param (mkItem tok r) ps = mkItem tok (foldl (fun r p => if bool_decide (key p = REPORT_TO) then as_string (value p) else r) r ps).
Proof. revert r. induction ps as [|p ps IH]; intros r; [done|]. cbn [foldl]. rewrite <- IH. unfold apply_param at 2. by case_bool_decide. Qed.

(** A header that is read: within the bound, ASCII, and an item of the grammar between blanks. *)
Definition reads (header tok : list byte) (ps : list Param) : Prop :=
  len header <= MAX_HEADER_BYTES /\ is_ascii header = true /\ item_says (Url.trim_matches is_blank header) tok ps.

(** Texts of the grammar are ASCII and do not end in a blank. *)
Definition ascii (l : list byte) : Prop := all is_ascii_byte l.
Definition ends (l : list byte) : Prop := exists x b, l = x ++ [b] /\ is_blank b = false.
Lemma ends_app x l : ends l -> ends (x ++ l).
Proof. intros (y & b & -> & H). exists (x ++ y), b. by rewrite app_assoc. Qed.
Lemma ends_snoc x b : is_blank b = false -> ends (x ++ [b]).
Proof. by exists x, b. Qed.
Lemma ends_drawn s l : Rfc8941.drawn s l -> forallb (fun b => negb (is_blank b)) s = true -> l <> [] -> ends l.
Proof.
  intros Hd Hs Hl. destruct l as [|b l _] using rev_ind; [done|]. apply Forall_app in Hd as [_ Hd]. apply Forall_inv in Hd. apply ends_snoc.
  apply forallb_true in Hs. rewrite Forall_forall in Hs. by apply negb_true_iff, Hs.
Qed.
Lemma ascii_drawn s l : Rfc8941.drawn s l -> forallb is_ascii_byte s = true -> ascii l.
Proof. intros Hd Hs. apply forallb_true in Hs. rewrite Forall_forall in Hs. eapply Forall_impl; [exact Hd|]. intros b. apply Hs. Qed.

Lemma token_plain l : Rfc8941.Token l -> ascii l /\ ends l.
Proof.
  intros [c k Hc Hk]. assert (Rfc8941.drawn (lit ":/*" ++ Rfc8941.tchar) (c :: k)) as H.
  { constructor; [apply elem_of_app in Hc as [->%list_elem_of_singleton|Hc]; [by right; right; left|]|].
    - apply elem_of_app. right. apply elem_of_app. right. apply elem_of_app. by right.
    - eapply Forall_impl; [exact Hk|]. intros b [Hb|Hb]%elem_of_app; apply elem_of_app; [left|by right]. apply elem_of_cons in Hb as [->| ->%list_elem_of_singleton]; [by left|by right; left]. }
  split; [by eapply ascii_drawn|by eapply ends_drawn].
Qed.
Lemma key_plain l : Rfc8941.Key l -> ascii l /\ ends l.
Proof.
  intros [c k Hc Hk]. assert (Rfc8941.drawn (lit "*" ++ Rfc8941.lcalpha ++ Rfc8941.DIGIT ++ lit "_-.*") (c :: k)) as H.
  { constructor; [apply elem_of_app in Hc as [Hc|Hc]; apply elem_of_app; [by left|right; apply elem_of_app; by left]|].
    eapply Forall_impl; [exact Hk|]. intros b Hb. apply elem_of_app. by right. }
  split; [by eapply ascii_drawn|by eapply ends_drawn].
Qed.
Lemma chars_ascii l : Rfc8941.Chars l -> ascii l.
Proof.
  induction 1 as [|c l Hc _ _ _ IH|c l Hc _ IH]; [constructor|..].
  - constructor; [|done]. unfold is_ascii_byte. lia.
  - by constructor; [|constructor; [destruct Hc as [-> | ->]|]].
Qed.
Lemma number_plain l : Rfc8941.Number l -> ascii l /\ ends l.
Proof.
  intros [ds H1 H2|ds fs H1 H2 H3 H4]; (split; [|try apply ends_app]).
  - by eapply ascii_drawn.
  - eapply ends_drawn; [done..|]. intros ->. cbn in H2. lia.
  - apply Forall_app. split; [|constructor; [done|]]; by eapply ascii_drawn.
  - apply (ends_app [x2e]). eapply ends_drawn; [done..|]. intros ->. cbn in H4. lia.
Qed.
Lemma bare_plain l : Rfc8941.BareItem l -> ascii l /\ ends l.
Proof.
  intros [k [H1 H2]%number_plain|k [H1 H2]%number_plain|k H1%chars_ascii|k H%token_plain|k H|c Hc]; try done.
  - split; [by constructor|by apply (ends_app [x2d])].
  - split; [|by apply (ends_snoc (x22 :: k))]. constructor; [done|]. apply Forall_app. split; [done|]. by repeat constructor.
  - split; [|by apply (ends_snoc (x3a :: k))]. constructor; [done|]. apply Forall_app. split; [by eapply ascii_drawn|]. by repeat constructor.
  - apply elem_of_cons in Hc as [->| ->%list_elem_of_singleton]; (split; [by repeat constructor|by apply (ends_snoc [x3f])]).
Qed.
Lemma params_plain before l : forallb is_ascii_byte before = true -> Rfc8941.Params before l -> ascii l /\ (l = [] \/ ends l).
Proof.
  intros Hb. induction 1 as [|p sp k l Hp Hs Hk _ [IH1 IH2]]; [split; [constructor|by left]|].
  assert (ascii k /\ ends k) as [H1 H2].
  { destruct Hk as [k Hk%key_plain|k v [H1 _]%key_plain [H3 H4]%bare_plain]; [done|]. split; [apply Forall_app; split; [done|by constructor]|by apply ends_app, (ends_app [x3d])]. }
  split.
  - apply Forall_app. split; [by eapply ascii_drawn|]. constructor; [done|]. apply Forall_app. split; [by eapply ascii_drawn|]. by apply Forall_app.
  - right. apply ends_app, (ends_app [x3b]), ends_app. destruct IH2 as [->|IH2]; [by rewrite app_nil_r|by apply ends_app].
Qed.

Lemma trim_split f l : exists p q, l = p ++ Url.trim_matches f l ++ q /\ all f p /\ all f q.
Proof.
  destruct (drop_while_split f l) as (p & E & Hp). destruct (drop_while_split f (reverse (Url.drop_while f l))) as (q & Eq & Hq). exists p, (reverse q). split_and!; [|done|by apply Forall_reverse].
  rewrite E at 1. f_equal. unfold Url.trim_matches. rewrite <- reverse_app, <- Eq. by rewrite reverse_involutive.
Qed.
Lemma trim_middle f p x q : all f p -> all f q -> (exists b y, x = b :: y /\ f b = false) -> (exists y b, x = y ++ [b] /\ f b = false) -> Url.trim_matches f (p ++ x ++ q) = x.
Proof.
  intros Hp Hq (b & y & E1 & Hb) (z & c & E2 & Hc). unfold Url.trim_matches. rewrite drop_while_all by (done || by rewrite E1). rewrite reverse_app, drop_while_all; [apply reverse_involutive|by apply Forall_reverse|].
  by rewrite E2, reverse_snoc.
Qed.

Lemma reads_rfc header tok : (exists ps, reads header tok ps) <-> Rfc8941.Field Rfc8941.blanks header tok.
Proof.
  pose proof (Rfc8941.drawn_class _ _ blank_class) as Hbl. split.
  - intros (ps & Hl & _ & Es & Hb & Ht & Hps). destruct (trim_split is_blank header) as (p & q & E & Hp & Hq). rewrite Es in E.
    split; [unfold len, MAX_HEADER_BYTES in Hl; lia|]. exists p, q, (concat (map param_text ps)). split_and!; [done|by apply Hbl..|by apply token_rfc|]. apply parameters_rfc. by exists ps.
  - intros (Hl & p & q & params & E & Hp & Hq & Ht & Hps). destruct (params_plain Rfc8941.blanks params eq_refl Hps) as [Ha He]. pose proof (token_plain _ Ht) as [Hta Hte]. apply parameters_rfc in Hps as (ps & -> & Hps).
    exists ps. split_and!; [unfold len, MAX_HEADER_BYTES; lia| |]; [subst header; apply forallb_true|].
    + apply Forall_app; split; [by apply (ascii_drawn Rfc8941.blanks)|]. apply Forall_app; split; [by apply Forall_app|by apply (ascii_drawn Rfc8941.blanks)].
    + apply token_rfc in Ht as [Hs Hc]. split; [|done]. rewrite E. apply trim_middle; [by apply Hbl..| |].
      * destruct tok as [|c tok]; [done|]. exists c, (tok ++ concat (map param_text ps)). split; [done|]. clear -Hs. cbn in Hs. by destruct c.
      * destruct He as [->|He]; [by rewrite app_nil_r|by apply ends_app].
Qed.

Lemma sf_item_spec header tok r : parse_sf_token_item header = Some (mkItem tok r) <-> exists ps, reads header tok ps /\ endpoint ps = r.
Proof.
  unfold parse_sf_token_item, reads, item_says. pose proof (trim_last is_blank header) as Hlast. set (s := Url.trim_matches is_blank header) in *. clearbody s. split.
  - destruct (_ || _) eqn:E; [done|]. apply orb_false_iff in E as [E1%Z.ltb_ge E2%negb_false_iff]. destruct s as [|first s']; [done|]. destruct (is_sf_token_start first) eqn:Hf; [|done].
    destruct (Url.break_at _ _) as [t l] eqn:Eb. pose proof Eb as Eb'. apply break_negb in Eb as [Es Ht]. intros (ps & trail & -> & Hb & Hps & E)%params_split.
    rewrite apply_params in E. injection E as -> ->. exists ps. split; [|done]. split_and!; try done.
    + destruct trail as [|b trail _] using rev_ind; [by rewrite Es, app_nil_r|]. apply Forall_app in Hb as [_ Hb]. apply Forall_inv in Hb.
      rewrite Es in Hlast. rewrite !app_assoc, last_snoc in Hlast. rewrite (Hlast b eq_refl) in Hb. done.
    + destruct t as [|c t]; [|injection Es as -> _; done]. cbn [Url.break_at] in Eb'. assert (is_sf_token_char first = true) as Hc by (clear -Hf; by destruct first).
      rewrite Hc in Eb'. cbn [negb] in Eb'. by destruct (Url.break_at _ s').
  - intros (ps & (H1 & H2 & Es & Hb & Ht & Hps) & Er). rewrite (proj2 (Z.ltb_ge _ _)), H2 by done. cbn [negb orb]. destruct tok as [|c tok]; [done|]. cbn [begins] in Hb. rewrite Es. cbn [app].
    rewrite Hb. change (c :: tok ++ concat (map param_text ps)) with ((c :: tok) ++ concat (map param_text ps)). rewrite break_all; [|done|by apply after_not; [by apply after_params|..]].
    rewrite params_join; [|done|rewrite length_app; cbn [length]; lia]. rewrite apply_params. by rewrite <- Er.
Qed.
End SfGrammar.

(** * Isolation *)
Module Isolation.
Import Coop SfGrammar.

(** The top-level documents that follow a document in its browsing context group. *)
Fixpoint stays (current : CoopState) (next : list CoopState) : Prop :=
  match next with [] => True | r :: next => needs_group_switch current r true = false /\ stays r next end.

Lemma parse_coep_spec h c : c <> UnsafeNone ->
  e_value (parse_coep h) = c <-> exists a tok ps, h = Some a /\ reads a tok ps /\ coep_of tok = c.
Proof.
  intros Hc. unfold parse_coep. destruct h as [a|]; cbn [mbind option_bind]; [|split; [by intros <-|by intros (a & _ & _ & ? & _)]]. split.
  - destruct (parse_sf_token_item a) as [[tok r]|] eqn:E; [|by intros <-]. cbn. intros Ht. apply sf_item_spec in E as (ps & Hr & _). by exists a, tok, ps.
  - intros (a' & tok & ps & [= <-] & Hr & Ht). rewrite (proj2 (sf_item_spec a tok (endpoint ps))) by (by exists ps). done.
Qed.
Lemma parse_coop_spec h e c : c <> OpenerUnsafeNone ->
  o_value (parse_coop h e) = c <-> exists a tok ps, h = Some a /\ reads a tok ps /\ coop_of tok e = c.
Proof.
  intros Hc. unfold parse_coop. destruct h as [a|]; cbn [mbind option_bind]; [|split; [by intros <-|by intros (a & _ & _ & ? & _)]]. split.
  - destruct (parse_sf_token_item a) as [[tok r]|] eqn:E; [|by intros <-]. cbn. intros Ht. apply sf_item_spec in E as (ps & Hr & _). by exists a, tok, ps.
  - intros (a' & tok & ps & [= <-] & Hr & Ht). rewrite (proj2 (sf_item_spec a tok (endpoint ps))) by (by exists ps). done.
Qed.

Lemma matches_spec a b : coop_matches a b = true <-> cs_value a = cs_value b /\ (cs_value a <> OpenerUnsafeNone -> cs_origin a = cs_origin b).
Proof.
  unfold coop_matches, WOrigin.same_origin. destruct (cs_value a), (cs_value b); rewrite ?andb_true_iff, ?bool_decide_eq_true; (split; [try done; naive_solver|intros [E1 E2]; try done]); (split; [done|by apply E2]).
Qed.

Lemma stays_spec next : forall current s, stays current next -> s ∈ next ->
  (cs_value s = cs_value current /\ (cs_value s <> OpenerUnsafeNone -> cs_origin s = cs_origin current)) \/
  (cs_value current = SameOriginAllowPopups /\ cs_value s = OpenerUnsafeNone /\ exists d, d ∈ current :: next /\ initial_about_blank d = true).
Proof.
  induction next as [|r next IH]; intros current s; [by intros _ ?%not_elem_of_nil|]. intros [Hsw Hst] Hs.
  assert ((cs_value r = cs_value current /\ (cs_value r <> OpenerUnsafeNone -> cs_origin r = cs_origin current)) \/
    (initial_about_blank current = true /\ cs_value current = SameOriginAllowPopups /\ cs_value r = OpenerUnsafeNone)) as Hstep.
  { unfold needs_group_switch in Hsw. cbn [negb] in Hsw. destruct (coop_matches current r) eqn:Em; [apply matches_spec in Em as [E1 E2]; left; split; [done|]; rewrite E1 in E2; intros ?; symmetry; by apply E2|].
    destruct (_ && _) eqn:Eb; [|done]. apply andb_true_iff in Eb as [[E1 E2%bool_decide_eq_true]%andb_true_iff E3%bool_decide_eq_true]. by right. }
  apply elem_of_cons in Hs as [->|Hs].
  - destruct Hstep as [H|(H1 & H2 & H3)]; [by left|]. right. split_and!; [done|done|]. exists current. split; [by left|done].
  - destruct (IH r s Hst Hs) as [[E1 E2]|(E1 & E2 & d & Hd & Hi)].
    + destruct Hstep as [[F1 F2]|(H1 & H2 & H3)]; [left; split; [congruence|]; intros Hn; rewrite E2, F2 by congruence; done|].
      right. split_and!; [done|congruence|]. exists current. split; [by left|done].
    + destruct Hstep as [[F1 F2]|(H1 & H2 & H3)]; [|congruence]. right. split_and!; [congruence|done|]. exists d. split; [by right|done].
Qed.

(** The headers of an isolated document, as they are read. *)
Lemma isolated_reads coop coep : is_cross_origin_isolated (o_value (parse_coop coop (e_value (parse_coep coep)))) = true <->
  exists a b, coop = Some a /\ coep = Some b /\ Rfc8941.Field Rfc8941.blanks a (lit "same-origin") /\
    (Rfc8941.Field Rfc8941.blanks b (lit "require-corp") \/ Rfc8941.Field Rfc8941.blanks b (lit "credentialless")).
Proof.
  unfold is_cross_origin_isolated. rewrite bool_decide_eq_true, parse_coop_spec by done. split.
  - intros (a & tok & ps & -> & Hr & Ht). unfold coop_of in Ht. case_bool_decide as E; [|by case_bool_decide]. subst tok.
    destruct (e_value (parse_coep coep)) eqn:Ec; [done|..]; (apply parse_coep_spec in Ec as (b & tok & qs & -> & Hb & Hc); [|done]);
      exists a, b; do 2 (split; [done|]); (split; [apply reads_rfc; by exists ps|]); unfold coep_of in Hc;
      repeat (case_bool_decide; [subst; try done; first [left; apply reads_rfc; by exists qs|right; apply reads_rfc; by exists qs]|]); done.
  - intros (a & b & -> & -> & [ps Ha]%reads_rfc & Hb). exists a, (lit "same-origin"), ps. do 2 (split; [done|]). unfold coop_of. rewrite bool_decide_eq_true_2 by done.
    assert (is_isolation_compatible (e_value (parse_coep (Some b))) = true) as ->; [|done].
    destruct Hb as [[qs Hb]%reads_rfc|[qs Hb]%reads_rfc]; [rewrite (proj2 (parse_coep_spec (Some b) RequireCorp ltac:(done)))|rewrite (proj2 (parse_coep_spec (Some b) Credentialless ltac:(done)))]; try done; by eexists _, _, _.
Qed.

(** C24: A document whose headers are structured fields of RFC 8941, at most 2048 bytes
    long, the opener policy [same-origin] and the embedder policy one that isolates, is
    cross-origin isolated.  An isolated document has both headers, and each of them is
    such a field, short of blanks before a parameter's semicolon (where the code reads more
    than the RFC, see [blanks_before_a_parameter]).  Through any top-level navigations that
    stay in a browsing context group, an isolated document is only followed by isolated
    documents of its origin, and one that is not isolated never by an isolated one; a policy
    is given up only by the initial empty document of a popup that allows it. *)
Theorem isolation_is_earned coop coep current next :
  ((exists a b, coop = Some a /\ coep = Some b /\ Rfc8941.reads a (lit "same-origin") /\
      (Rfc8941.reads b (lit "require-corp") \/ Rfc8941.reads b (lit "credentialless"))) ->
   is_cross_origin_isolated (o_value (parse_coop coop (e_value (parse_coep coep)))) = true) /\
  (is_cross_origin_isolated (o_value (parse_coop coop (e_value (parse_coep coep)))) = true -> exists a b, coop = Some a /\ coep = Some b /\
     (~ Rfc8941.spaced a -> Rfc8941.reads a (lit "same-origin")) /\
     (~ Rfc8941.spaced b -> Rfc8941.reads b (lit "require-corp") \/ Rfc8941.reads b (lit "credentialless"))) /\
  (stays current next -> forall s, s ∈ next ->
    is_cross_origin_isolated (cs_value s) = is_cross_origin_isolated (cs_value current) /\
    (is_cross_origin_isolated (cs_value current) = true -> cs_origin s = cs_origin current) /\
    (cs_value s = cs_value current \/
     (cs_value current = SameOriginAllowPopups /\ cs_value s = OpenerUnsafeNone /\ exists d, d ∈ current :: next /\ initial_about_blank d = true))).
Proof.
  split_and!.
  - intros (a & b & -> & -> & Ha & Hb). apply isolated_reads. exists a, b. do 2 (split; [done|]). split; [by apply Rfc8941.reads_field|]. by destruct Hb; [left|right]; apply Rfc8941.reads_field.
  - intros (a & b & -> & -> & Ha & Hb)%isolated_reads. exists a, b. do 2 (split; [done|]). split; [by apply Rfc8941.field_reads|]. by destruct Hb; [left|right]; apply Rfc8941.field_reads.
  - intros Hst s Hs. destruct (stays_spec next current s Hst Hs) as [[E1 E2]|(E1 & E2 & Hd)].
    + rewrite E1. split_and!; [done| |by left]. unfold is_cross_origin_isolated. rewrite bool_decide_eq_true. intros H. apply E2. congruence.
    + unfold is_cross_origin_isolated. rewrite E1, E2. split_and!; [done|done|by right].
Qed.

Lemma sample_reads : Rfc8941.reads (lit "same-origin;a") (lit "same-origin") /\ Rfc8941.reads (lit " require-corp") (lit "require-corp").
Proof.
  assert (forall tok, forallb is_sf_token_char tok = true -> begins is_sf_token_start tok -> Rfc8941.Token tok) as Ht by (intros tok H1%forallb_true H2; by apply token_rfc).
  split; (split; [cbn; lia|]).
  - exists [], [], (lit ";a"). split_and!; [done|constructor|constructor|by apply Ht|]. apply (Rfc8941.one_more [] [] [] (lit "a") []); [constructor|constructor| |constructor].
    apply Rfc8941.flag, key_rfc. split; [done|]. by apply forallb_true.
  - exists [x20], [], []. split_and!; [done| |constructor|by apply Ht|constructor]. constructor; [by left|constructor].
Qed.

Lemma isolation_is_earned_witness :
  let doc := mkState SameOriginPlusCoep (WOrigin.Opaque 4) false in
  stays doc [doc; doc] /\ (forall s, s ∈ [doc; doc] -> cs_origin s = WOrigin.Opaque 4) /\
  is_cross_origin_isolated (o_value (parse_coop (Some (lit "same-origin;a")) (e_value (parse_coep (Some (lit " require-corp")))))) = true.
Proof.
  intros doc. assert (stays doc [doc; doc]) as Hs by (by vm_compute). split; [done|].
  destruct (isolation_is_earned (Some (lit "same-origin;a")) (Some (lit " require-corp")) doc [doc; doc]) as (H1 & _ & H2). split; [intros s Hin; by apply (H2 Hs s Hin)|].
  apply H1. destruct sample_reads as [Ha Hb]. eexists _, _. split; [done|]. split; [done|]. split; [exact Ha|]. left. exact Hb.
Defined.

(** RFC 8941 has no blanks before a semicolon. *)
Example blanks_before_a_parameter : parse_sf_token_item (lit "same-origin  ;a") = Some (mkItem (lit "same-origin") None).
Proof. by vm_compute. Qed.
End Isolation.

(** * Resources of other origins *)
Section resources.
Context {T : Type} `{SiteResolver T} (resolver : T).
Import Coop.

(** What a resource says of itself lets an origin have it. *)
Definition lets_in (origin : WOrigin.t) (url : Url.t) (corp : option Corp) : Prop :=
  match corp with
  | None | Some CorpCrossOrigin => True
  | Some CorpSameOrigin => url_tuple url = Some origin
  | Some CorpSameSite => (exists o, url_tuple url = Some o /\ schemelessly_same_site origin o resolver = true) /\
      (WOrigin.scheme origin = Some (lit "https") \/ Url.scheme url <> lit "https")
  end.

(** What the embedder asks of a resource that says nothing. *)
Definition demand (embedder : Coep) (response : CorpResponse) (for_navigation : bool) : option Corp :=
  match cr_corp response with
  | Some p => Some p
  | None => if bool_decide (embedder = RequireCorp) || (bool_decide (embedder = Credentialless) && (request_includes_credentials response || for_navigation))
            then Some CorpSameOrigin else None
  end.

Lemma corp_internal_spec origin e r nav n : issued n origin ->
  (corp_internal resolver origin e r nav n).1 = Allowed <-> (nav = true /\ e = UnsafeNone) \/ lets_in origin (cr_url r) (demand e r nav).
Proof.
  intros Hi. unfold corp_internal. destruct (nav && bool_decide (e = UnsafeNone)) eqn:E.
  { apply andb_true_iff in E as [-> E%bool_decide_eq_true]. cbn. tauto. }
  assert (~ (nav = true /\ e = UnsafeNone)) as Hn by (intros [-> ->]; done). clear E. transitivity (lets_in origin (cr_url r) (demand e r nav)); [|tauto]. cbv zeta.
  replace (match cr_corp r with Some p => Some p | None => _ end) with (demand e r nav) by (unfold demand; destruct (cr_corp r); [done|]; by destruct e; destruct (_ || nav)).
  unfold counted_bind. rewrite from_url_eq. unfold lets_in. destruct (url_tuple (cr_url r)) as [o|] eqn:Et; cbn [fst counted_ret].
  - unfold counted_ret. cbn [fst]. destruct (demand e r nav) as [[]|]; [..|done|done].
    + unfold WOrigin.same_origin. case_bool_decide as Eo; [by rewrite Eo|]. split; [done|]. by intros [= ->].
    + destruct (_ && _) eqn:Es; [apply andb_true_iff in Es as [E1 E2%orb_true_iff]|]; (split; [try done|try done]).
      * intros _. split; [by exists o|]. rewrite negb_true_iff, bool_decide_eq_true, bool_decide_eq_false in E2. done.
      * intros [(o' & [= <-] & E1) E2]. rewrite E1 in Es. cbn [andb] in Es. apply orb_false_iff in Es as [F1%bool_decide_eq_false F2%negb_false_iff%bool_decide_eq_true]. by destruct E2.
  - unfold counted_ret. cbn [fst]. destruct (demand e r nav) as [[]|]; [..|done|done].
    + unfold WOrigin.same_origin. case_bool_decide as Eo; [|done]. subst. cbn in Hi. lia.
    + destruct (schemelessly_same_site _ _ _) eqn:Es; [|split; [done|by intros [(? & ? & _) _]]]. unfold schemelessly_same_site in Es. destruct origin as [id|]; cbn in Es; [|done]. apply Z.eqb_eq in Es. cbn in Hi. lia.
Qed.

Lemma corp_internal_counts origin e r nav n : n <= U64_MAX -> issued n origin -> issued (corp_internal resolver origin e r nav n).2 origin.
Proof.
  intros Hn Hi. unfold corp_internal. destruct (_ && _); [done|]. cbv zeta. unfold counted_bind. rewrite from_url_eq. destruct (url_tuple _); cbn; [done|].
  destruct origin; cbn in *; [|done]. unfold sat_add. lia.
Qed.
End resources.

Section resource_claim.
Context {T : Type} `{SiteResolver T} (resolver : T).
Import Coop.

(** An embedder policy asks something of a resource that says nothing. *)
Definition asks (e : Coep) (r : CorpResponse) (nav : bool) : Prop := e = RequireCorp \/ (e = Credentialless /\ (request_includes_credentials r = true \/ nav = true)).

Lemma demand_spec origin e r nav : lets_in resolver origin (cr_url r) (demand e r nav) <->
  lets_in resolver origin (cr_url r) (cr_corp r) /\ (cr_corp r = None -> asks e r nav -> url_tuple (cr_url r) = Some origin).
Proof.
  unfold demand, asks. destruct (cr_corp r) as [p|]; [split; [by intros ?; split|by intros [? _]]|]. destruct (_ || _) eqn:E; cbn [lets_in].
  - rewrite orb_true_iff, andb_true_iff, orb_true_iff, !bool_decide_eq_true in E. tauto.
  - split; [|done]. intros _. split; [done|]. intros _ Ha. apply not_true_iff_false in E. contradict E. rewrite orb_true_iff, andb_true_iff, orb_true_iff, !bool_decide_eq_true. tauto.
Qed.

Lemma corp_check_spec origin e r nav n : n <= U64_MAX -> issued n origin ->
  (corp_check resolver origin e r nav n).1 = Allowed <-> (nav = true /\ e = UnsafeNone) \/
    (lets_in resolver origin (cr_url r) (demand e r nav)).
Proof.
  intros Hn Hi. pose proof (corp_internal_spec resolver origin UnsafeNone r nav n Hi) as H1. pose proof (corp_internal_counts resolver origin UnsafeNone r nav n Hn Hi) as Hi'.
  unfold corp_check, counted_bind. destruct (corp_internal resolver origin UnsafeNone r nav n) as [v n'] eqn:E1. cbn [fst snd] in H1, Hi'. pose proof (corp_internal_spec resolver origin e r nav n' Hi') as H2.
  destruct v; [by rewrite bool_decide_eq_false_2|]. rewrite bool_decide_eq_true_2 by done. cbn [counted_ret fst]. split; [done|]. rewrite demand_spec in *. intros Hc. apply H1. unfold asks in *. naive_solver.
Qed.

(** C25: A response of another origin is handed over, under whatever embedder policy,
    exactly when its tainting is not opaque, or its own resource policy lets the origin in and,
    where it has none, the embedder policy asks for none or the resource is of the same origin.
    A nested document passes by the same rule unless its parent has no policy, and a
    report-only policy reports exactly what it would block were it enforced. *)
Theorem resources_are_opted_in origin e t r nav n : n <= U64_MAX -> issued n origin ->
  ((coep_check_response resolver origin e t r n).1 = Allowed <-> t <> Cors.TaintOpaque \/
    (lets_in resolver origin (cr_url r) (cr_corp r) /\ (cr_corp r = None -> asks e r false -> url_tuple (cr_url r) = Some origin))) /\
  ((corp_check resolver origin e r true n).1 = Allowed <-> e = UnsafeNone \/
    (lets_in resolver origin (cr_url r) (cr_corp r) /\ (cr_corp r = None -> asks e r true -> url_tuple (cr_url r) = Some origin))) /\
  ((corp_report_only_would_block resolver origin e r nav n).1 = true <-> (corp_check resolver origin e r nav n).1 = Blocked).
Proof.
  intros Hn Hi. split; [|split].
  - rewrite <- demand_spec. unfold coep_check_response. destruct t; cbn [counted_ret fst]; [split; [by left|done]..|]. rewrite corp_check_spec by done. naive_solver.
  - rewrite <- demand_spec, corp_check_spec by done. tauto.
  - pose proof (corp_check_spec origin e r nav n Hn Hi) as H1. pose proof (corp_internal_spec resolver origin e r nav n Hi) as H2. rewrite <- H2 in H1.
    unfold corp_report_only_would_block, counted_bind. destruct (corp_internal resolver origin e r nav n) as [v n']. cbn [fst counted_ret] in *. unfold counted_ret. cbn [fst].
    rewrite bool_decide_eq_true. destruct ((corp_check resolver origin e r nav n).1), v; naive_solver.
Qed.
End resource_claim.

Module ResourceUses.
Import Coop.
#[local] Instance no_sites : SiteResolver unit := fun _ d => Some d.
Definition image : list byte := lit "https://img.example/cat".
Lemma resources_are_opted_in_witness : match Url.parse image with
  | Some u =>
      let page := WOrigin.Opaque 3 in let r c := mkResponse u c false in
      (coep_check_response tt page RequireCorp Cors.TaintOpaque (r (Some CorpCrossOrigin)) 7).1 = Allowed /\
      (coep_check_response tt page RequireCorp Cors.TaintOpaque (r None) 7).1 <> Allowed /\
      (coep_check_response tt page Credentialless Cors.TaintOpaque (r None) 7).1 = Allowed
  | None => False
  end.
Proof.
  destruct (Url.parse image) as [u|] eqn:E; [|by vm_compute in E]. vm_compute in E. injection E as <-. intros page r.
  assert (issued 7 page) as Hi by (cbn; lia).
  split_and!.
  - apply (resources_are_opted_in tt page RequireCorp Cors.TaintOpaque (r (Some CorpCrossOrigin)) false 7); [by vm_compute|done|]. right. by split.
  - intros Ha. apply (resources_are_opted_in tt page RequireCorp Cors.TaintOpaque (r None) false 7) in Ha; [|by vm_compute|done].
    destruct Ha as [Ha|[_ Ha]]; [done|]. specialize (Ha eq_refl ltac:(by left)). by vm_compute in Ha.
  - apply (resources_are_opted_in tt page Credentialless Cors.TaintOpaque (r None) false 7); [by vm_compute|done|]. right. split; [done|]. intros _ [Ha|[_ [Ha|Ha]]]; done.
Defined.
End ResourceUses.

(** * Framing *)
Module Framing.
Import Frame.

(** The values of all lines, as they are compared. *)
Definition xfo_values (lines : list (list byte)) : list (list byte) :=
  map (fun part => to_ascii_lowercase (Url.trim_matches is_xfo_ws part)) (flat_map (split_on COMMA) lines).

Lemma add_values parts vs v : v ∈ foldl add_value vs parts <-> v ∈ vs \/ v ∈ map (fun part => to_ascii_lowercase (Url.trim_matches is_xfo_ws part)) parts.
Proof.
  revert vs. induction parts as [|p parts IH]; intros vs; cbn [foldl map]; [by rewrite elem_of_nil; tauto|]. rewrite IH, elem_of_cons. unfold add_value.
  case_bool_decide as Hp; [|rewrite elem_of_app, list_elem_of_singleton]; split; naive_solver.
Qed.
Lemma add_values_nodup parts vs : NoDup vs -> NoDup (foldl add_value vs parts).
Proof.
  revert vs. induction parts as [|p parts IH]; intros vs Hvs; cbn [foldl]; [done|]. apply IH. unfold add_value. case_bool_decide as Hp; [done|].
  apply NoDup_app. split_and!; [done|by intros x Hx ->%list_elem_of_singleton|apply NoDup_singleton].
Qed.

Lemma xfo_collect lines vs : match collect vs lines with
  | Some vs' => Forall (fun line => len line <= MAX_HEADER_BYTES) lines /\ vs' = foldl add_value vs (flat_map (split_on COMMA) lines)
  | None => ~ Forall (fun line => len line <= MAX_HEADER_BYTES) lines end.
Proof.
  revert vs. induction lines as [|line lines IH]; intros vs; cbn [collect flat_map]; [split; [constructor|done]|].
  destruct (_ <? _) eqn:E; [apply Z.ltb_lt in E; intros H; apply Forall_inv in H; lia|]. apply Z.ltb_ge in E. specialize (IH (foldl add_value vs (split_on COMMA line))).
  destruct (collect _ _) as [vs'|]; [|by intros H; apply Forall_inv_tail in H]. destruct IH as [H ->]. split; [by constructor|]. by rewrite foldl_app.
Qed.

Lemma known_spec v : known v = true <-> v = lit "deny" \/ v = lit "sameorigin".
Proof. unfold known. by rewrite orb_true_iff, !bool_decide_eq_true. Qed.

Lemma check_xfo_spec lines r anc : check_xfo lines r anc = Allowed <-> anc = [] \/
  (Forall (fun line => len line <= MAX_HEADER_BYTES) lines /\
   ((forall v, v ∈ xfo_values lines -> v <> lit "deny" /\ v <> lit "sameorigin") \/
    ((forall v, v ∈ xfo_values lines -> v = lit "sameorigin") /\ Forall (fun a => a = r) anc))).
Proof.
  unfold check_xfo. case_bool_decide as Ha; [by split; [left|]|]. pose proof (xfo_collect lines []) as Hc. destruct (collect [] lines) as [vs|]; [|split; [done|by intros [?|[? _]]]].
  destruct Hc as [Hl ->]. set (vs := foldl add_value [] _). assert (NoDup vs) as Hnd by (apply add_values_nodup, NoDup_nil_2).
  assert (forall v, v ∈ xfo_values lines <-> v ∈ vs) as Hin by (intros v; unfold vs; rewrite add_values, elem_of_nil; tauto). setoid_rewrite Hin. clearbody vs. clear Hin.
  transitivity ((forall v, v ∈ vs -> v <> lit "deny" /\ v <> lit "sameorigin") \/ ((forall v, v ∈ vs -> v = lit "sameorigin") /\ Forall (fun a => a = r) anc)); [|tauto].
  destruct vs as [|v [|w vs]]; cbn [length Nat.ltb Nat.leb head].
  - split; [left; by intros v ?%not_elem_of_nil|done].
  - case_bool_decide as Hd; [subst; split; [done|]; intros [H|[H _]]; [by destruct (H (lit "deny") ltac:(by left))|by specialize (H (lit "deny") ltac:(by left))]|].
    case_bool_decide as Hs.
    + subst. destruct (forallb _ anc) eqn:Ef.
      * split; [|done]. intros _. right. split; [by intros v ->%list_elem_of_singleton|]. apply forallb_true in Ef. eapply Forall_impl; [exact Ef|]. unfold WOrigin.same_origin. by intros a ?%bool_decide_eq_true.
      * split; [done|]. intros [H|[_ H]]; [by destruct (H (lit "sameorigin") ltac:(by left))|]. apply not_true_iff_false in Ef. contradict Ef. apply forallb_true. eapply Forall_impl; [exact H|].
        intros a ->. by apply bool_decide_eq_true.
    + split; [|done]. intros _. left. by intros v' ->%list_elem_of_singleton.
  - destruct (existsb known (v :: w :: vs)) eqn:Ee.
    + split; [done|]. apply existsb_elem in Ee as (x & Hx & Hk%known_spec). intros [H|[H _]]; [specialize (H x Hx); naive_solver|].
      apply NoDup_cons in Hnd as [Hnd _]. contradict Hnd. rewrite (H v), (H w); [by left|right; by left|by left].
    + split; [|done]. intros _. left. intros x Hx. apply not_true_iff_false in Ee. split; intros ->; contradict Ee; apply existsb_elem; eexists; (split; [exact Hx|done]).
Qed.

(** ** Sandboxes *)
Definition flag_of (t : list byte) : option SandboxAllow := snd <$> List.find (fun e => eq_ignore_ascii_case t e.1) SANDBOX_TABLE.

Lemma allows_or bits b a : allows (Z.lor bits (allow_bit b)) a = allows bits a || bool_decide (b = a).
Proof.
  destruct (allow_bit_pow a) as (n & Hn & Ha). rewrite !(allows_testbit _ a n) by done. rewrite Z.lor_spec. f_equal. destruct (allow_bit_pow b) as (m & Hm & Hb). rewrite Hb, Z.pow2_bits_eqb by done.
  case_bool_decide as E; [subst b; apply Z.eqb_eq, (Z.pow_inj_r 2); [done..|congruence]|]. apply Z.eqb_neq. intros ->. contradict E. rewrite <- Hb in Ha. clear -Ha. by destruct a, b.
Qed.

Lemma from_tokens_spec toks a : allows (from_tokens toks) a = true <-> exists t, t ∈ toks /\ flag_of t = Some a.
Proof.
  unfold from_tokens. assert (forall bits, allows (foldl (fun bits t => match List.find (fun e => eq_ignore_ascii_case t e.1) SANDBOX_TABLE with Some (_, a) => Z.lor bits (allow_bit a) | None => bits end) bits toks) a = true <->
    allows bits a = true \/ exists t, t ∈ toks /\ flag_of t = Some a) as H.
  { induction toks as [|t toks IH]; intros bits; cbn [foldl]; [split; [by left|]; by intros [?|(t & ?%not_elem_of_nil & _)]|]. rewrite IH. setoid_rewrite elem_of_cons. unfold flag_of at 2.
    destruct (List.find _ SANDBOX_TABLE) as [[s b]|] eqn:E.
    - rewrite allows_or, orb_true_iff, bool_decide_eq_true. split.
      + intros [[H| ->]|(t' & H1 & H2)]; [by left|right; exists t; split; [by left|by rewrite E]|right; exists t'; split; [by right|done]].
      + intros [H|(t' & [->|H1] & H2)]; [by left; left|left; right; rewrite E in H2; by injection H2|right; by exists t'].
    - split; [intros [H|(t' & H1 & H2)]; [by left|right; exists t'; split; [by right|done]]|]. intros [H|(t' & [->|H1] & H2)]; [by left|by rewrite E in H2|right; by exists t']. }
  rewrite H. split; [intros [Hz|?]; [|done]|by right]. unfold allows in Hz. by rewrite Z.land_0_l in Hz.
Qed.

(** C27: A document may be framed exactly when the policy's [frame-ancestors] says so or,
    where there is none, no line of [X-Frame-Options] is too long and no value of the lines
    is a known one, or all are [sameorigin] and every ancestor is of its origin; a sandbox
    attribute within the bound allows exactly what its tokens name, and a document in a
    sandbox without [allow-same-origin] gets an origin that equals none handed out before. *)
Theorem framing_exact fa lines response ancestors attribute origin n : (length attribute <= SANDBOX_BYTES)%nat ->
  (embedding_allowed fa (check_xfo lines response ancestors) = true <-> fa = AncestorsAllowed \/ (fa = AncestorsAbsent /\ (ancestors = [] \/
    (Forall (fun line => len line <= MAX_HEADER_BYTES) lines /\
     ((forall v, v ∈ xfo_values lines -> v <> lit "deny" /\ v <> lit "sameorigin") \/
      ((forall v, v ∈ xfo_values lines -> v = lit "sameorigin") /\ Forall (fun a => a = response) ancestors)))))) /\
  parse_sandbox_attribute None = None /\
  exists flags, parse_sandbox_attribute (Some attribute) = Some flags /\
    (forall a, allows flags a = true <-> exists t, t ∈ split_by is_html_ws attribute /\ flag_of t = Some a) /\
    (allows flags CspPolicy.SameOrigin = true -> sandboxed_origin (Some flags) origin n = (origin, n)) /\
    (allows flags CspPolicy.SameOrigin = false -> forall o, issued n o -> WOrigin.same_origin (sandboxed_origin (Some flags) origin n).1 o = false).
Proof.
  intros Hb. split.
  { destruct fa; cbn [embedding_allowed]; [rewrite bool_decide_eq_true, check_xfo_spec; naive_solver|naive_solver|naive_solver]. }
  split; [done|]. unfold parse_sandbox_attribute. cbn [mbind option_bind]. eexists. split; [reflexivity|].
  assert (get_to SANDBOX_BYTES attribute = Some attribute) as -> by (unfold get_to; by rewrite lookup_ge_None_2). cbn [default]. split_and!.
  - intros a. rewrite from_tokens_spec. split; intros (t & Hin & Ht); exists t; (split; [|done]).
    + apply list_elem_of_In, filter_In in Hin as [Hin _]. by apply list_elem_of_In.
    + apply list_elem_of_In, filter_In. split; [by apply list_elem_of_In|]. apply negb_true_iff, bool_decide_eq_false. intros ->. by vm_compute in Ht.
  - unfold sandboxed_origin, forces_opaque_origin. by intros ->.
  - unfold sandboxed_origin, forces_opaque_origin. intros ->. cbn. intros o Ho. apply bool_decide_eq_false. intros <-. cbn in Ho. lia.
Qed.

Lemma framing_exact_witness : let page := WOrigin.Tuple (lit "https") (Domain (lit "a.example")) None in
  embedding_allowed AncestorsAbsent (check_xfo [lit " SameOrigin , sameorigin"] page [page; page]) = true /\
  embedding_allowed AncestorsAbsent (check_xfo [lit "DENY"] page [page]) = false /\
  exists flags, parse_sandbox_attribute (Some (lit "allow-forms  Allow-Scripts x")) = Some flags /\ allows flags Scripts = true /\
    WOrigin.same_origin (sandboxed_origin (Some flags) page 7).1 page = false.
Proof.
  intros page.
  assert ((length (lit "allow-forms  Allow-Scripts x") <= SANDBOX_BYTES)%nat) as Hb by (apply Nat.leb_le; by vm_compute).
  destruct (framing_exact AncestorsAbsent [lit " SameOrigin , sameorigin"] page [page; page] (lit "allow-forms  Allow-Scripts x") page 7 Hb) as (H1 & _ & flags & Hf & Ha & _ & Ho).
  split; [|split; [by vm_compute|]].
  - apply H1. right. split; [done|]. right. split; [repeat constructor; by vm_compute|]. right. split; [|by repeat constructor].
    intros v Hin. assert (xfo_values [lit " SameOrigin , sameorigin"] = [lit "sameorigin"; lit "sameorigin"]) as E by (by vm_compute). rewrite E in Hin. apply elem_of_cons in Hin as [->|Hin%list_elem_of_singleton]; [done|by subst].
  - exists flags. split; [done|]. split; [apply Ha; exists (lit "Allow-Scripts"); split; [apply (bool_decide_unpack _); by vm_compute|by vm_compute]|].
    apply Ho; [|done]. apply not_true_iff_false. rewrite Ha. intros (t & Hin & Ht). assert (Forall (fun t => flag_of t <> Some CspPolicy.SameOrigin) (split_by is_html_ws (lit "allow-forms  Allow-Scripts x"))) as H by (apply (bool_decide_unpack _); by vm_compute).
    rewrite Forall_forall in H. by apply (H t Hin).
Defined.

(** The bound cuts a token in two, and what is left of it can be a wider flag. *)
Example cut_token_grants_more : let written := replicate 16364 x20 ++ lit "allow-top-navigation-by-user-activation" in
  match parse_sandbox_attribute (Some written) with
  | Some flags => allows flags TopNavigation = true /\ Forall (fun t => flag_of t <> Some TopNavigation) (split_by is_html_ws written)
  | None => False
  end.
Proof.
  intros written. assert (match parse_sandbox_attribute (Some written) with
    | Some flags => allows flags TopNavigation && forallb (fun t => negb (bool_decide (flag_of t = Some TopNavigation))) (split_by is_html_ws written)
    | None => false end = true) as H by (by vm_compute).
  destruct (parse_sandbox_attribute (Some written)) as [flags|]; [|done]. apply andb_true_iff in H as [H1 H2%forallb_true]. split; [done|]. eapply Forall_impl; [exact H2|].
  by intros t Ht%negb_true_iff%bool_decide_eq_false.
Qed.
End Framing.
